(* ===== verification/_CoqProject ===== *)
-Q . S2P
Prelude.v
Conc.v
Gate.v
Kinds.v
Errors.v
Lifecycle.v
Quota.v
Limits.v
Engine.v
Classify.v
Encoding.v
Secure.v
Message.v
Endpoint.v
NetAddr.v
HostPort.v
Url.v
Wire.v
Reader.v
WsCodec.v
Options.v
ActivityClock.v
Observer.v
Stats.v
SendPath.v
SendPathInv.v
SendPathWriter.v
Service.v
Poller.v
PollerProofs.v
Epoll.v
Kqueue.v
Iocp.v
ClientErrors.v
HttpConfig.v
HttpClient.v
HttpClose.v
QuicClient.v
Setup.v
StreamSetup.v
HttpTracker.v
WsServer.v
WsDial.v
SetupPool.v
Frames.v
SetupLock.v
SetupLeases.v
SetupQuiet.v
StreamClosing.v
WsClosing.v
WsServing.v
SetupCallers.v
SetupSpawns.v
SetupTheorems.v
Packet.v
PacketProofs.v
PacketWriter.v
PacketTheorems.v
PacketSpec.v
PacketReader.v
Websocket.v
WebsocketInv.v
WebsocketProofs.v
WebsocketWriter.v
WebsocketTheorems.v
WebsocketSpec.v
Session.v
SessionInv.v
SessionProofs.v
SessionSend.v
SessionWriter.v
SessionTheorems.v
