(* ===== verification/Prelude.v ===== *)
(** * ogrenet: a verification development

    ogrenet is a Go networking library: an [Engine] that dials and listens on TCP, TLS,
    UDP, WS and WSS endpoints and hands the application Sessions (framed messages) and
    packet connections (datagrams).  This library models the Go code under src/ as
    executable definitions and proves what makes it correct, including the behaviour of
    its goroutines under every interleaving.

    ** The program and the files

    - Foundations: Prelude.v (bytes, machine integers with their wrap-around, sums,
      automation) and Conc.v, the model of goroutines: a method is a [prog], a sequence of
      atomic sections (a critical section, an atomic operation, a channel operation, a
      [select]) that may block, branch or panic; [pstep] interleaves a pool of them; [wp]
      is a weakest precondition in which every goroutine owns a share of a ghost resource,
      with its adequacy theorem; every run of a pool is finite.
    - Vocabulary: Kinds.v (enumerations of endpoint.go, message.go, transport/), Errors.v and
      Classify.v (the error values, errors.Is/As, transport/error_model.go and
      error_classify*.go).
    - Values and formats: Endpoint.v (endpoint.go), NetAddr.v (the text of addresses),
      HostPort.v (peerKey of transport/limits.go and boundEndpoint of tcp.go), Url.v (the
      part of net/url that ParseEndpoint and URL call, and their round trip), Message.v
      (message.go), Encoding.v (UTF-8, base64, big-endian integers), Secure.v (secure/), Wire.v (wire/wire.go), WsCodec.v (encode and decode of
      transport/websocket.go), Options.v (transport/options.go, timeouts.go, tls.go).
    - Concurrent components: Gate.v (transport/gate.go), Lifecycle.v (lifecycle.go),
      Quota.v (quota.go and the global budget of limits.go), Limits.v (limits.go),
      Engine.v (engine*.go), Observer.v (observer.go), ActivityClock.v
      (activity_clock.go), Stats.v (stats.go).
    - Connections: Reader.v is the read loop of conn.go; Session.v is the stream Session
      (conn.go, admission.go, stream_graceful.go) with SessionInv.v, SessionProofs.v,
      SessionSend.v, SessionWriter.v for its invariant and SessionTheorems.v for the
      properties; SendPath.v is the outbound path the connections share (gate, slots, quota,
      queue, answers, closeOnce) with SendPathInv.v and SendPathWriter.v; Packet.v is the
      packet connection (packet*.go) on that path, with PacketProofs.v, PacketWriter.v,
      PacketTheorems.v and its read loop in PacketReader.v; Websocket.v is the WebSocket
      session (websocket.go, websocket_graceful.go, websocket_write_state.go) on it, with
      WebsocketInv.v, WebsocketProofs.v, WebsocketWriter.v and WebsocketTheorems.v.
    - Abstract service: Service.v says what an outbound path promises (accept, transmit in
      order, answer in order and truthfully) as a transition system; PacketSpec.v and
      WebsocketSpec.v prove that the connections refine it and that closing terminates.
    - Connection set-up: Setup.v is the state that listeners and dials share (the Engine, its
      sockets, sessions, listeners, leases in transit and goroutines) with tcp.go and the
      building of sessions; StreamSetup.v is listener.go, engine_stream_dial.go and
      engine_stream_listener.go; HttpTracker.v is websocket_server_admission.go and
      websocket_tls.go; WsServer.v is websocket_server.go; WsDial.v is websocket_client.go
      and websocket_dial_admission.go; SetupPool.v is engine_session_api.go and runs all of
      it as one pool of goroutines.  Frames.v has the proof rules for such a pool;
      SetupLock.v (the Engine's lock and counters), SetupLeases.v (where each lease is),
      SetupQuiet.v, StreamClosing.v, WsClosing.v and WsServing.v (how listeners close),
      SetupCallers.v (operations end) and SetupSpawns.v (how many goroutines there are)
      prove one invariant each; SetupTheorems.v puts them together.
    - Native pollers: Poller.v is the wrapper epoll/ and kqueue/ share, over the class
      [Backend] of the part that differs, with PollerProofs.v; Epoll.v and Kqueue.v are the
      instances with the operations of the two packages; Iocp.v is the completion port.
    - Clients: ClientErrors.v (quic/errors.go and the errors of client/), HttpConfig.v
      (client/http.go, internal/quicpolicy, the configuration of http3.go and facade.go),
      HttpClient.v (one request of the facade: facade.go, facade_fallback.go), HttpClose.v
      (http3.go, http3_dial.go and the facade as goroutines), QuicClient.v (quic/client.go,
      quic/stream.go).

    A component's state is a record with the fields of the Go struct; each method is one
    definition named after it, made of the helpers named after its parts.  State a larger
    component contains is reached through a [lens], and the theorems of the smaller
    component are lifted along it ([wp_lift]).

    ** What the theorems show

    - Sequential: round trips of frames, WebSocket payloads, base64 and endpoints;
      prefixes are incomplete, not errors; the read loop equals decoding the whole stream
      however it is cut; bounds of decoded data; the configuration New accepts; error
      classification keeps what errors.Is sees; admission and quota decisions on every
      branch.
    - Concurrent, for every interleaving of any number of callers: no panic (no channel
      closed twice), capacities respected, exact counts; no lost wake-up and no deadlock of
      gate, quota, lifecycle, Engine, observer; a stream Session that closes ends
      completely with every request answered and every resource given back, and what it
      writes is a prefix of the admitted frames, delivered in order by the peer's read
      loop; a packet connection or WebSocket session on which nothing can move is closed
      and finished, or open and empty with nothing pending, each refines the abstract
      service, and once somebody closes it every schedule ends with all goroutines
      returned ([inevitable]).
    - Set-up, for every interleaving of listens, dials, arrivals, handshakes, upgrades,
      cancellations and closings: every run ends ([inevitable]) with all callers returned, no
      operation open, exact admission counters, each lease in one place until it is
      released, and each listener open or completely closed; the limits hold at every
      moment; nothing panics, and a listener's done closes last.
    - Pollers: no system call on a closed descriptor, no internal event handed out, no
      overrun, no lost wake-up, and [Close] completes while others wait in the kernel (for
      a completion port: unless the kernel refuses one of its wake packets).
    - Clients: the order, number, bodies and reports of the attempts of a request; which
      failures allow another attempt; bounded configurations and TLS 1.3; closing releases
      every socket exactly once, whatever is in progress.
    - Deviations found are shown by runs of the model, named in the manifest's findings.
      The theorems they bound say so in their hypotheses: [packet_safe] that no caller
      passes a nil [*net.UDPAddr], [engine_no_lost_done] that leases are released inside
      an operation, [activity_expiry] that no instant overflows.

    ** Bounds and fuel

    Loops without a structural measure take fuel, and the theorems show it is enough: a
    quota wait loop retries at most once per release (fuel above twice the calls), a writer
    answers each call once (fuel above the calls), writeAll and the decoders consume a byte
    per round (fuel the length and one).  Out of fuel is [stuck] in a [prog], which the
    invariant excludes.  The admission counters of set-up retry at most once per change by
    others (fuel above [setup_swaps], the calls that goroutines and callers can make); its
    pool has a worker for each go statement that can run ([setup_goroutines], from the
    number of calls and the bound [amax] on the arrivals at a listener, which is arbitrary).
    Integers of Go width wrap as written in Prelude.v; where a
    theorem needs no overflow the bound is a hypothesis (limits below 2^62).

    ** Not modelled

    Sockets, TLS, HTTP, WebSocket frames and QUIC of net, crypto/tls, net/http,
    coder/websocket and quic-go: what they return is an argument, a list of events or an
    oracle; of the http.Server and http.Transport the goroutines and the calls back into
    the code are modelled, and a session that set-up has started only by its
    end; the kernel's part of the pollers is modelled by its documented behaviour.
    Socket set-up of packet connections, logging and the text of error messages.  The
    application's handlers run outside the model: they are callers like any other. *)
From stdpp Require Export base gmap gmultiset strings list numbers.
From Stdlib Require Export ZArith Lia.
From Stdlib Require Export Strings.Byte.

Declare Scope go_scope.
Delimit Scope go_scope with go.
#[global] Open Scope Z_scope.

(** ** Bytes

    Go's [byte] is the 256-element type [byte]; [u8] reads it as an integer and
    [to_byte] is the conversion [byte(x)], which truncates modulo 256. *)
Abbreviation byte := Byte.byte.
Abbreviation bytes := (list byte).

Definition u8 (b : byte) : Z := Z.of_N (Byte.to_N b).
Definition to_byte (z : Z) : byte :=
  default Byte.x00 (Byte.of_N (Z.to_N (z `mod` 256))).

#[global] Instance byte_eq_dec : EqDecision byte := Byte.byte_eq_dec.

Lemma u8_range (b : byte) : 0 <= u8 b < 256.
Proof. unfold u8. pose proof (Byte.to_N_bounded b). lia. Qed.

Lemma u8_to_byte (z : Z) : u8 (to_byte z) = z `mod` 256.
Proof.
  unfold u8, to_byte.
  pose proof (Z.mod_pos_bound z 256 eq_refl).
  destruct (Byte.of_N _) as [b|] eqn:E; simpl.
  - apply Byte.to_of_N in E. lia.
  - apply Byte.of_N_None_iff in E. lia.
Qed.

Lemma to_byte_u8 (b : byte) : to_byte (u8 b) = b.
Proof.
  unfold to_byte, u8. pose proof (Byte.to_N_bounded b).
  rewrite Z.mod_small by lia. rewrite N2Z.id, Byte.of_to_N. done.
Qed.

Lemma u8_inj (a b : byte) : u8 a = u8 b -> a = b.
Proof. intros E. rewrite <- (to_byte_u8 a), <- (to_byte_u8 b). by rewrite E. Qed.

Lemma u8_to_byte_small (z : Z) : 0 <= z < 256 -> u8 (to_byte z) = z.
Proof. intros. rewrite u8_to_byte. apply Z.mod_small. lia. Qed.

(** ** Machine integers

    [int] and [int64] are 64-bit two's complement; [uint64], [uint32] and
    [uint16] wrap modulo their width. *)
Definition wrap_u (w z : Z) : Z := z `mod` 2 ^ w.
Definition wrap_i64 (z : Z) : Z := (z + 2 ^ 63) `mod` 2 ^ 64 - 2 ^ 63.
Definition max_int : Z := 2 ^ 63 - 1.
Definition add_i64 (a b : Z) : Z := wrap_i64 (a + b).
Definition inc_u64 (a : Z) : Z := wrap_u 64 (a + 1).
Definition add_u64 (a b : Z) : Z := wrap_u 64 (a + b).

Definition is_i64 (z : Z) : Prop := - 2 ^ 63 <= z < 2 ^ 63.

Lemma wrap_i64_id (z : Z) : is_i64 z -> wrap_i64 z = z.
Proof. unfold is_i64, wrap_i64. intros. rewrite Z.mod_small; lia. Qed.

Lemma wrap_i64_range (z : Z) : is_i64 (wrap_i64 z).
Proof.
  unfold is_i64, wrap_i64. pose proof (Z.mod_pos_bound (z + 2 ^ 63) (2 ^ 64)). lia.
Qed.

Lemma wrap_u_range (w z : Z) : 0 <= w -> 0 <= wrap_u w z < 2 ^ w.
Proof. intros. apply Z.mod_pos_bound. lia. Qed.

Lemma wrap_u_id (w z : Z) : 0 <= z < 2 ^ w -> wrap_u w z = z.
Proof. apply Z.mod_small. Qed.

(** [len(x)] as a Go [int]. *)
Definition zlen {A} (l : list A) : Z := Z.of_nat (length l).

Lemma zlen_nonneg {A} (l : list A) : 0 <= zlen l.
Proof. unfold zlen. lia. Qed.
Lemma zlen_app {A} (l k : list A) : zlen (l ++ k) = zlen l + zlen k.
Proof. unfold zlen. rewrite length_app. lia. Qed.
Lemma zlen_nil {A} : zlen (@nil A) = 0.
Proof. reflexivity. Qed.
Lemma zlen_cons {A} (x : A) l : zlen (x :: l) = 1 + zlen l.
Proof. unfold zlen. simpl length. lia. Qed.

(** Slicing [x[lo:hi]] for bounds already known to be in range. *)
Definition slice {A} (lo hi : Z) (l : list A) : list A :=
  take (Z.to_nat (hi - lo)) (drop (Z.to_nat lo) l).

(** ** Bit operations on non-overlapping fields *)
Lemma lor_shiftl_add (a b k : Z) :
  0 <= k -> 0 <= b < 2 ^ k -> Z.lor (Z.shiftl a k) b = a * 2 ^ k + b.
Proof.
  intros Hk Hb. rewrite <- Z.shiftl_mul_pow2 by lia.
  assert (Z.land (Z.shiftl a k) b = 0) as Hl.
  { apply Z.bits_inj'. intros n Hn. rewrite Z.land_spec, Z.bits_0.
    destruct (Z.lt_ge_cases n k).
    - by rewrite Z.shiftl_spec_low.
    - replace b with (b `mod` 2 ^ k) by (apply Z.mod_small; lia).
      rewrite Z.mod_pow2_bits_high by lia. apply andb_false_r. }
  pose proof (Z.add_lor_land (Z.shiftl a k) b). lia.
Qed.

Lemma land_ones_mod (a k : Z) : 0 <= k -> Z.land a (Z.ones k) = a `mod` 2 ^ k.
Proof. intros. by apply Z.land_ones. Qed.

(** ** Sums over lists and multisets *)
Definition sum_Z (l : list Z) : Z := foldr Z.add 0 l.
Definition lsum {A} (w : A -> Z) (l : list A) : Z := sum_Z (w <$> l).
Definition msum {A} `{Countable A} (w : A -> Z) (m : gmultiset A) : Z := lsum w (elements m).

#[global] Instance sum_Z_proper : Proper ((≡ₚ) ==> (=)) sum_Z.
Proof. intros l k Hl. induction Hl; simpl; lia. Qed.
Lemma sum_Z_app l k : sum_Z (l ++ k) = sum_Z l + sum_Z k.
Proof. induction l; simpl; lia. Qed.

Lemma lsum_cons {A} (w : A -> Z) x l : lsum w (x :: l) = w x + lsum w l.
Proof. done. Qed.
Lemma lsum_app {A} (w : A -> Z) l k : lsum w (l ++ k) = lsum w l + lsum w k.
Proof. unfold lsum. rewrite fmap_app. apply sum_Z_app. Qed.
Lemma lsum_snoc {A} (w : A -> Z) l x : lsum w (l ++ [x]) = lsum w l + w x.
Proof. rewrite lsum_app. unfold lsum. simpl. lia. Qed.
Lemma lsum_zero {A} (w : A -> Z) l : (forall x, x ∈ l -> w x = 0) -> lsum w l = 0.
Proof.
  induction l as [|x l IH]; intros Hz; [done|]. rewrite lsum_cons, Hz, IH; [done| |left].
  intros y Hy. apply Hz. by right.
Qed.
Lemma lsum_nonneg {A} (w : A -> Z) l : (forall x, x ∈ l -> 0 <= w x) -> 0 <= lsum w l.
Proof.
  induction l as [|x l IH]; intros Hz; [done|]. rewrite lsum_cons.
  assert (0 <= w x) by (apply Hz; left).
  assert (0 <= lsum w l) by (apply IH; intros; apply Hz; by right). lia.
Qed.
Lemma lsum_insert {A} (w : A -> Z) l i x y :
  l !! i = Some x -> lsum w (<[i := y]> l) = lsum w l - w x + w y.
Proof.
  revert i. induction l as [|z l IH]; intros [|i] Hi; simplify_eq/=; rewrite !lsum_cons.
  - lia.
  - rewrite (IH _ Hi). lia.
Qed.
Lemma lsum_elem_le {A} (w : A -> Z) l x :
  (forall y, y ∈ l -> 0 <= w y) -> x ∈ l -> w x <= lsum w l.
Proof.
  intros Hz Hx. induction l as [|z l IH]; [by apply elem_of_nil in Hx|]. rewrite lsum_cons.
  assert (0 <= w z) by (apply Hz; left).
  assert (0 <= lsum w l) by (apply lsum_nonneg; intros; apply Hz; by right).
  apply elem_of_cons in Hx as [->|Hx]; [lia|].
  assert (w x <= lsum w l) by (apply IH; [intros; apply Hz; by right|done]). lia.
Qed.

Lemma lsum_length {A} (P : A -> Prop) `{forall x, Decision (P x)} l :
  lsum (fun x => if decide (P x) then 1 else 0) l = Z.of_nat (length (filter P l)).
Proof.
  induction l as [|x l IH]; [done|]. rewrite lsum_cons, IH, filter_cons. case_decide; simpl; lia.
Qed.

Section msum.
Context {A : Type} `{Countable A} (w : A -> Z).
Lemma msum_union m m' : msum w (m ⊎ m') = msum w m + msum w m'.
Proof.
  unfold msum, lsum. rewrite gmultiset_elements_disj_union, fmap_app. apply sum_Z_app.
Qed.
Lemma msum_single t : msum w {[+ t +]} = w t.
Proof. unfold msum, lsum. rewrite gmultiset_elements_singleton. simpl. lia. Qed.
Lemma msum_empty : msum w ∅ = 0.
Proof. unfold msum, lsum. by rewrite gmultiset_elements_empty. Qed.
Lemma msum_zero m : (forall t, t ∈ m -> w t = 0) -> msum w m = 0.
Proof.
  intros Hz. apply lsum_zero. intros t Ht. apply Hz. by apply gmultiset_elem_of_elements.
Qed.
Lemma msum_nonneg m : (forall t, t ∈ m -> 0 <= w t) -> 0 <= msum w m.
Proof.
  intros Hz. apply lsum_nonneg. intros t Ht. apply Hz. by apply gmultiset_elem_of_elements.
Qed.
End msum.

(** [k] copies of one element. *)
Definition copies {A} `{Countable A} (x : A) (k : nat) : gmultiset A := scalar_mul k {[+ x +]}.
Lemma elem_copies {A} `{Countable A} (x t : A) k : t ∈ copies x k -> t = x.
Proof. unfold copies. induction k; multiset_solver. Qed.
Lemma mult_copies {A} `{Countable A} (x : A) k : multiplicity x (copies x k) = k.
Proof. unfold copies. rewrite multiplicity_scalar_mul, multiplicity_singleton_eq. lia. Qed.
Lemma copies_add {A} `{Countable A} (x : A) j k : copies x j ⊎ copies x k = copies x (j + k).
Proof.
  unfold copies. apply gmultiset_eq. intros t.
  rewrite multiplicity_disj_union, !multiplicity_scalar_mul. lia.
Qed.

(** ** Automation *)

(** Case on every boolean integer comparison in sight and hand the rest to
    [lia]. *)
Ltac bool_cases :=
  repeat match goal with
  | |- context [ Z.leb ?a ?b ] => destruct (Z.leb_spec a b)
  | |- context [ Z.ltb ?a ?b ] => destruct (Z.ltb_spec a b)
  | |- context [ Z.eqb ?a ?b ] => destruct (Z.eqb_spec a b)
  | |- context [ Z.geb ?a ?b ] => rewrite (Z.geb_leb a b)
  | |- context [ Z.gtb ?a ?b ] => rewrite (Z.gtb_ltb a b)
  end.

Ltac bool_cases_in H :=
  repeat match type of H with
  | context [ Z.leb ?a ?b ] => destruct (Z.leb_spec a b)
  | context [ Z.ltb ?a ?b ] => destruct (Z.ltb_spec a b)
  | context [ Z.eqb ?a ?b ] => destruct (Z.eqb_spec a b)
  | context [ Z.geb ?a ?b ] => rewrite (Z.geb_leb a b) in H
  | context [ Z.gtb ?a ?b ] => rewrite (Z.gtb_ltb a b) in H
  end.

(** Evaluate the comparisons the hypotheses decide, and case on the others. *)
Ltac decide_cmp c lem a b :=
  first [ replace c with true by (symmetry; lia)
        | replace c with false by (symmetry; lia)
        | destruct (lem a b) ].
Ltac zbool :=
  repeat (match goal with
  | |- context [ Z.leb ?a ?b ] => decide_cmp (Z.leb a b) Z.leb_spec a b
  | |- context [ Z.ltb ?a ?b ] => decide_cmp (Z.ltb a b) Z.ltb_spec a b
  | |- context [ Z.eqb ?a ?b ] => decide_cmp (Z.eqb a b) Z.eqb_spec a b
  | |- context [ Z.geb ?a ?b ] => rewrite (Z.geb_leb a b)
  | |- context [ Z.gtb ?a ?b ] => rewrite (Z.gtb_ltb a b)
  end; cbn [andb orb negb]).

Create HintDb go.
#[export] Hint Resolve zlen_nonneg u8_range : go.

(** ** Strings *)
Definition ascii_lower (c : Ascii.ascii) : Ascii.ascii :=
  let n := Ascii.nat_of_ascii c in
  if bool_decide (65 <= Z.of_nat n <= 90) then Ascii.ascii_of_nat (n + 32) else c.
(** [strings.ToLower] on ASCII text. *)
Fixpoint ToLower (s : string) : string :=
  match s with String.EmptyString => String.EmptyString | String.String c r => String.String (ascii_lower c) (ToLower r) end.
