(* ===== verification/Conc.v ===== *)
(** * Conc: programs made of atomic sections, and a logic for pools of them

    The Go code protects its shared state with mutexes, atomics, channels and
    [sync.Once].  A method is modelled as a [prog]: a sequence of atomic sections
    (one per critical section, atomic operation, channel operation or [select]),
    each of which may be blocked (no outcome), may have several outcomes (a
    [select] with several ready cases) and may panic.

    - [exec] runs a program alone and returns every outcome: the sequential
      behaviour of the method;
    - [pstep] interleaves the sections of any number of goroutines: the
      concurrent behaviour;
    - [wp] is a weakest precondition over a shared invariant in which each
      goroutine owns a share of a ghost resource (an element of a commutative
      monoid), and [wp_adequate] turns it into an invariant of every reachable
      state of every pool, with absence of panics and a characterisation of
      blocked goroutines. *)
From S2P Require Import Prelude.

Inductive outcome (S B : Type) : Type :=
| Done (s : S) (b : B)
| Panic.
Arguments Done {S B} s b.
Arguments Panic {S B}.

Inductive prog (S A : Type) : Type :=
| Ret (a : A)
| Act (B : Type) (f : S -> list (outcome S B)) (k : B -> prog S A).
Arguments Ret {S A} a.
Arguments Act {S A} B f k.

Fixpoint prog_bind {S A B} (p : prog S A) (g : A -> prog S B) : prog S B :=
  match p with
  | Ret a => g a
  | Act C f k => Act C f (fun c => prog_bind (k c) g)
  end.
#[global] Instance prog_mbind S : MBind (prog S) := fun A B g p => prog_bind p g.
#[global] Instance prog_mret S : MRet (prog S) := fun A a => Ret a.

(** One atomic section that always succeeds. *)
Definition atomically {S B} (f : S -> S * B) : prog S B :=
  Act B (fun s => let (s', b) := f s in [Done s' b]) Ret.
(** One atomic section that panics where [f] has no result. *)
Definition atomic_panic {S B} (f : S -> option (S * B)) : prog S B :=
  Act B (fun s => match f s with Some (s', b) => [Done s' b] | None => [Panic] end) Ret.
(** A [select]: every ready case is an outcome, and it blocks with none ready. *)
Definition select {S B} (cases : S -> list (S * B)) : prog S B :=
  Act B (fun s => map (fun '(s', b) => Done s' b) (cases s)) Ret.
(** A ready case of a [select], and a [select] with a default branch. *)
Definition ready {S B} (b : bool) (s : S) (r : B) : list (S * B) := if b then [(s, r)] else [].
Definition or_default {S B} (d : B) (cases : S -> list (S * B)) (s : S) : list (S * B) :=
  match cases s with [] => [(s, d)] | cs => cs end.
(** A state the scheduler never leaves: the end of an unrolled loop. *)
Definition stuck {S B} : prog S B := Act B (fun _ => []) Ret.

Lemma elem_ready {S B} (c : bool) (s : S) (r : B) s' b : (s', b) ∈ ready c s r <-> c = true /\ s' = s /\ b = r.
Proof.
  unfold ready. destruct c; rewrite ?list_elem_of_singleton, ?elem_of_nil; naive_solver.
Qed.
Lemma ready_nil {S B} (c : bool) (s : S) (r : B) : ready c s r = [] <-> c = false.
Proof. by destruct c. Qed.
Lemma elem_default {S B} (d : B) (cases : S -> list (S * B)) s s' b :
  (s', b) ∈ or_default d cases s -> (s', b) ∈ cases s \/ (cases s = [] /\ s' = s /\ b = d).
Proof.
  unfold or_default. destruct (cases s); [|by left]. rewrite list_elem_of_singleton. naive_solver.
Qed.
Lemma default_ready {S B} (d : B) (cases : S -> list (S * B)) s : or_default d cases s <> [].
Proof. unfold or_default. by destruct (cases s). Qed.

(** ** Components of a larger state *)
Record lens (S T : Type) := { lget : S -> T; lset : T -> S -> S }.
Arguments lget {S T} _ _.
Arguments lset {S T} _ _ _.
Definition over {S T} (L : lens S T) (f : T -> T) (s : S) : S := lset L (f (lget L s)) s.
Definition lens_id {S} : lens S S := {| lget := id; lset := fun t _ => t |}.

(** A program on a component, run on the larger state. *)
Fixpoint lift {S T A} (L : lens S T) (p : prog T A) : prog S A :=
  match p with
  | Ret a => Ret a
  | Act B f k =>
      Act B (fun s => map (fun o => match o with
                                     | Done t b => Done (lset L t s) b
                                     | Panic => Panic
                                     end) (f (lget L s)))
            (fun b => lift L (k b))
  end.

(** ** Running alone *)
Fixpoint exec {S A} (p : prog S A) (s : S) : list (option (S * A)) :=
  match p with
  | Ret a => [Some (s, a)]
  | Act B f k =>
      o ← f s; match o with Done s' b => exec (k b) s' | Panic => [None] end
  end.

Lemma exec_bind {St A B} (p : prog St A) (k : A -> prog St B) s s' a :
  exec p s = [Some (s', a)] -> exec (p ≫= k) s = exec (k a) s'.
Proof.
  enough (forall rs, exec p s = rs ->
    exec (p ≫= k) s = rs ≫= (fun r => match r with Some (s', a) => exec (k a) s' | None => [None] end)) as H.
  { intros E. rewrite (H _ E). simpl. by rewrite app_nil_r. }
  revert s. induction p as [a0|C f g IH]; intros s rs <-; simpl; [by rewrite app_nil_r|].
  induction (f s) as [|o os IHos]; [done|]. cbn. rewrite bind_app. f_equal; [|exact IHos].
  destruct o as [s1 b|]; [by apply IH|done].
Qed.

Lemma exec_atomically {St B} (f : St -> St * B) s : exec (atomically f) s = [Some (f s)].
Proof. simpl. by destruct (f s). Qed.

(** ** Running interleaved *)
Definition pool (S : Type) : Type := S * list (prog S unit).

Inductive pstep {S} : pool S -> pool S -> Prop :=
| pstep_act s ts i B f k s' b :
    ts !! i = Some (Act B f k) ->
    Done s' b ∈ f s ->
    pstep (s, ts) (s', <[i := k b]> ts).

Definition panics {S} (c : pool S) : Prop :=
  exists i B f k, c.2 !! i = Some (Act B f k) /\ Panic ∈ f c.1.
Definition finished {S} (c : pool S) : Prop := Forall (fun t => t = Ret tt) c.2.
Definition can_step {S} (c : pool S) : Prop := exists c', pstep c c'.

(** [finished], decided. *)
Lemma all_returned {S} (c : pool S) :
  forallb (fun t => match t with Ret _ => true | _ => false end) c.2 = true -> finished c.
Proof. intros Hf. apply Is_true_true, forallb_True in Hf. unfold finished. revert Hf. apply Forall_impl. by intros [[]|B f k]. Qed.

(** A schedule names, step by step, the goroutine that moves and which of its
    outcomes it takes; [run_schedule] is the executable form of [pstep]. *)
Definition pnext {S} (c : pool S) (i n : nat) : option (pool S) :=
  match c.2 !! i with
  | Some (Act B f k) =>
      match f c.1 !! n with
      | Some (Done s' b) => Some (s', <[i := k b]> c.2)
      | _ => None
      end
  | _ => None
  end.
Fixpoint run_schedule {S} (c : pool S) (sched : list (nat * nat)) : option (pool S) :=
  match sched with
  | [] => Some c
  | (i, n) :: rest => c' ← pnext c i n; run_schedule c' rest
  end.

Lemma pnext_pstep {S} (c c' : pool S) i n : pnext c i n = Some c' -> pstep c c'.
Proof.
  destruct c as [s ts]. unfold pnext. simpl.
  destruct (ts !! i) as [[|B f k]|] eqn:Ei; [done| |done].
  destruct (f s !! n) as [[s' b|]|] eqn:En; [|done|done].
  intros [= <-]. econstructor; [done|]. by eapply list_elem_of_lookup_2.
Qed.

Lemma run_schedule_steps {S} (c c' : pool S) sched :
  run_schedule c sched = Some c' -> rtc pstep c c'.
Proof.
  revert c. induction sched as [|[i n] rest IH]; simpl; intros c.
  - intros [= <-]. done.
  - destruct (pnext c i n) as [c1|] eqn:E; simpl; [|done].
    intros H. eapply rtc_l; [by eapply pnext_pstep | by apply IH].
Qed.

(** The pool a schedule leads to, moves that are not possible being skipped. *)
Fixpoint reached {S} (c : pool S) (sched : list (nat * nat)) : pool S :=
  match sched with
  | [] => c
  | (i, n) :: rest => reached (default c (pnext c i n)) rest
  end.
(** Each goroutine in turn, to its end, taking the first outcome of every section. *)
Definition in_turn (goroutines sections : nat) : list (nat * nat) :=
  i ← seq 0 goroutines; replicate sections (i, 0%nat).

Lemma reached_steps {S} (c : pool S) sched : rtc pstep c (reached c sched).
Proof.
  revert c. induction sched as [|[i n] rest IH]; intros c; simpl; [done|].
  destruct (pnext c i n) as [c'|] eqn:E; simpl; [|apply IH].
  eapply rtc_l; [by eapply pnext_pstep | apply IH].
Qed.

(** No goroutine has an outcome left. *)
Definition pool_blocked {S} (c : pool S) : bool :=
  forallb (fun t => match t with
                    | Ret _ => true
                    | Act B f k => match f c.1 with [] => true | _ => false end
                    end) c.2.
Lemma pool_blocked_no_step {S} (c : pool S) : pool_blocked c = true -> ~ can_step c.
Proof.
  intros Hb [c' Hs]. destruct Hs as [s ts i B f k s' b Hi Hin].
  unfold pool_blocked in Hb. rewrite forallb_forall in Hb.
  assert (In (Act B f k) ts) as H by by eapply list_elem_of_In, list_elem_of_lookup_2.
  specialize (Hb _ H). simpl in *. destruct (f s); [by apply elem_of_nil in Hin|done].
Qed.

Lemma finished_no_step {S} (c : pool S) : finished c -> ~ can_step c.
Proof.
  intros Hf [c' Hs]. destruct Hs as [s ts i B f k s' b Hi _].
  pose proof (Forall_lookup_1 _ _ _ _ Hf Hi). done.
Qed.

(** ** Every run ends

    A program is a finite tree, so a pool has no infinite run; with [inevitable] a
    property of the final states becomes one that every schedule reaches. *)
Definition moves_to {S} (t' t : prog S unit) : Prop :=
  match t with Ret _ => False | Act B f k => exists b, t' = k b end.
Definition one_moves {S} (ts' ts : list (prog S unit)) : Prop :=
  exists i t t', ts !! i = Some t /\ ts' = <[i := t']> ts /\ moves_to t' t.
Lemma one_moves_wf {S} (ts : list (prog S unit)) : Acc one_moves ts.
Proof.
  induction ts as [|t ts Hts]; [constructor; intros ts' (i & t & t' & Hi & _); discriminate Hi|].
  revert ts Hts. induction t as [u|B f k IH]; intros ts Hts; induction Hts as [ts Hts IHts];
    constructor; intros ts' ([|i] & t & t' & Hi & -> & Hm);
    try (apply IHts; exists i, t, t'; split; [exact Hi|split; [reflexivity|exact Hm]]); injection Hi as <-.
  - destruct Hm.
  - destruct Hm as [b ->]. apply IH. by constructor.
Qed.
Lemma pool_terminates {S} (c : pool S) : Acc (flip pstep) c.
Proof.
  destruct c as [s ts]. revert s. induction (one_moves_wf ts) as [ts _ IH]; intros s. constructor.
  intros c' Hs. destruct c' as [s' ts']. apply IH. inversion Hs as [s1 ts1 i B f k s2 b Hi Hin E1 E2]. subst.
  exists i, (Act B f k), (k b). split; [done|]. split; [done|]. by exists b.
Qed.
Lemma can_step_dec {S} (c : pool S) : can_step c \/ ~ can_step c.
Proof.
  destruct c as [s ts].
  set (moves (t : prog S unit) := match t with
    | Ret _ => []
    | Act B f k => omap (fun o => match o with Done s' b => Some (s', k b) | Panic => None end) (f s)
    end).
  destruct (decide (Exists (fun t => moves t <> []) ts)) as [(t & (i & Hi)%list_elem_of_In%list_elem_of_lookup & Ht)%Exists_exists|Hn].
  - left. destruct (moves t) as [|q qs] eqn:E; [done|]. destruct t as [u|B f k]; [done|].
    assert (q ∈ moves (Act B f k)) as ([s' b|] & Hin & [= <-])%list_elem_of_omap by (rewrite E; left).
    eexists. by econstructor.
  - right. intros [c' Hs]. inversion Hs as [s1 ts1 i B f k s2 b Hi Hin]; simplify_eq. apply Hn.
    apply Exists_exists. exists (Act B f k). split; [by eapply list_elem_of_In, list_elem_of_lookup_2|]. intros E.
    assert ((s2, k b) ∈ moves (Act B f k)) as Hq by (apply list_elem_of_omap; by exists (Done s2 b)).
    rewrite E in Hq. by apply elem_of_nil in Hq.
Qed.

(** Whatever the scheduler does, a state of [P] is reached. *)
Inductive inevitable {S} (P : pool S -> Prop) (c : pool S) : Prop :=
| inevitable_now : P c -> inevitable P c
| inevitable_next : can_step c -> (forall c', pstep c c' -> inevitable P c') -> inevitable P c.
Lemma inevitable_end {S} (P : pool S -> Prop) (c : pool S) :
  (forall c', rtc pstep c c' -> ~ can_step c' -> P c') -> inevitable P c.
Proof.
  induction (pool_terminates c) as [c _ IH]. intros HP.
  destruct (can_step_dec c) as [Hs|Hs]; [|by apply inevitable_now, HP].
  apply inevitable_next; [done|]. intros c' Hc. apply IH; [done|]. intros c2 Hr. apply HP. by eapply rtc_l.
Qed.

(** ** Monotonicity: every section of a program moves the state along [R] *)
Section respects.
Context {S : Type} (R : S -> S -> Prop) `{!PreOrder R}.

Fixpoint respects {A} (p : prog S A) : Prop :=
  match p with
  | Ret _ => True
  | Act B f k => forall s s' b, Done s' b ∈ f s -> R s s' /\ respects (k b)
  end.

Lemma respects_bind {A B} (p : prog S A) (g : A -> prog S B) :
  respects p -> (forall a, respects (g a)) -> respects (p ≫= g).
Proof.
  intros Hp Hg. induction p as [a|C f k IH]; [apply Hg|].
  intros s s' b Hin. destruct (Hp s s' b Hin). split; [done|]. by apply IH.
Qed.
Lemma respects_atomically {B} (f : S -> S * B) :
  (forall s, R s (f s).1) -> respects (atomically f).
Proof.
  intros Hf s s' b. specialize (Hf s). destruct (f s). simpl in *.
  intros [= -> ->]%list_elem_of_singleton. done.
Qed.
Lemma respects_atomic_panic {B} (f : S -> option (S * B)) :
  (forall s s' b, f s = Some (s', b) -> R s s') -> respects (atomic_panic f).
Proof.
  intros Hf s s' b. simpl. destruct (f s) as [[s1 b1]|] eqn:E;
    intros Hin%list_elem_of_singleton; simplify_eq. eauto.
Qed.
Lemma respects_select {B} (cases : S -> list (S * B)) :
  (forall s s' b, (s', b) ∈ cases s -> R s s') -> respects (select cases).
Proof.
  intros Hc s s' b Hin. apply list_elem_of_fmap in Hin as ([s1 b1] & [= -> ->] & Hin).
  split; [by eapply Hc | done].
Qed.
Lemma respects_ret {A} (a : A) : respects (mret a).
Proof. done. Qed.
Lemma respects_stuck {B} : respects (@stuck S B).
Proof. intros s s' b Hin. by apply elem_of_nil in Hin. Qed.

Lemma respects_lift {T A} (L : lens S T) (p : prog T A) :
  (forall s t, R s (lset L t s)) -> respects (lift L p).
Proof.
  intros HL. induction p as [a|B f k IH]; [done|]. intros s s' b Hin.
  apply list_elem_of_fmap in Hin as ([t b'|] & [= -> ->] & _). auto.
Qed.

Lemma respects_step (c c' : pool S) :
  Forall respects c.2 -> pstep c c' -> R c.1 c'.1 /\ Forall respects c'.2.
Proof.
  intros Hts Hs. inversion Hs as [s1 ts1 i B f k s2 b Hi Hin]; simplify_eq.
  destruct (Forall_lookup_1 _ _ _ _ Hts Hi _ _ _ Hin) as [HR Hk]. split; [done|]. by apply Forall_insert.
Qed.
Lemma respects_reach (c c' : pool S) : Forall respects c.2 -> rtc pstep c c' -> Forall respects c'.2.
Proof.
  intros Hts Hr. induction Hr as [c|c1 c2 c3 Hs _ IH]; [done|]. apply IH. by eapply respects_step.
Qed.

Theorem respects_pool s ts s' ts' :
  Forall respects ts -> rtc pstep (s, ts) (s', ts') -> R s s' /\ Forall respects ts'.
Proof.
  intros Hts Hr. remember (s, ts) as c eqn:Ec. remember (s', ts') as c' eqn:Ec'.
  revert s ts Hts Ec s' ts' Ec'.
  induction Hr as [c|c1 c2 c3 Hs _ IH]; intros s ts Hts -> s' ts' Ec'; simplify_eq; [done|].
  inversion Hs as [s1 ts1 i B f k s2 b Hi Hin E1 E2]. simplify_eq.
  pose proof (Forall_lookup_1 _ _ _ _ Hts Hi) as Hp.
  destruct (Hp _ _ _ Hin) as [HR Hk].
  destruct (IH s2 (<[i := k b]> ts)) with (s' := s') (ts' := ts') as [HR' Hts']; [|done..|].
  - apply Forall_insert; done.
  - split; [by etrans|done].
Qed.
End respects.
Lemma respects_impl {S A} (R R' : S -> S -> Prop) (p : prog S A) :
  (forall s s', R s s' -> R' s s') -> respects R p -> respects R' p.
Proof.
  intros HR. induction p as [a|B f k IH]; intros Hp; [done|]. intros s s' b Hin. destruct (Hp _ _ _ Hin). auto.
Qed.
(** A program of a component whose sections move the component along [RT]. *)
Lemma respects_lift_along {S T A} (RT : T -> T -> Prop) (R : S -> S -> Prop) (L : lens S T) (p : prog T A) :
  (forall s t, RT (lget L s) t -> R s (lset L t s)) -> respects RT p -> respects R (lift L p).
Proof.
  intros HL. induction p as [a|B f k IH]; intros Hp; [done|]. intros s s' b Hin.
  apply list_elem_of_fmap in Hin as ([t b'|] & [= -> ->] & Hin). destruct (Hp _ _ _ Hin). auto.
Qed.

(** ** What a program is sure to do: on every path to its end, a state of [P] *)
Section ensures.
Context {S : Type} (P : S -> Prop).

Fixpoint ensures {A} (p : prog S A) : Prop :=
  match p with
  | Ret _ => False
  | Act B f k => forall s s' b, Done s' b ∈ f s -> P s' \/ ensures (k b)
  end.
Lemma ensures_then {A B} (p : prog S A) (g : A -> prog S B) : ensures p -> ensures (p ≫= g).
Proof.
  induction p as [a|C f k IH]; [done|]. intros Hp s s' b Hin. destruct (Hp s s' b Hin); [by left|].
  right. by apply IH.
Qed.
Lemma ensures_later {A B} (p : prog S A) (g : A -> prog S B) : (forall a, ensures (g a)) -> ensures (p ≫= g).
Proof.
  intros Hg. induction p as [a|C f k IH]; [apply Hg|]. intros s s' b Hin. right. apply IH.
Qed.
Lemma ensures_atomically {B} (f : S -> S * B) : (forall s, P (f s).1) -> ensures (atomically f).
Proof. intros Hf s s' b Hin. specialize (Hf s). destruct (f s). apply list_elem_of_singleton in Hin as [= -> ->]. by left. Qed.

(** Once such a program has returned, [P] holds, if no section of the pool ends it. *)
Lemma ensures_pool (c c' : pool S) i p :
  Forall (respects (fun s s' => P s -> P s')) c.2 -> rtc pstep c c' -> c.2 !! i = Some p -> ensures p ->
  P c'.1 \/ exists p', c'.2 !! i = Some p' /\ ensures p'.
Proof.
  intros Hts Hr Hi Hp. assert (P c.1 \/ exists p', c.2 !! i = Some p' /\ ensures p') as HP by eauto. clear p Hi Hp.
  induction Hr as [c|c1 c2 c3 Hs _ IH]; [done|].
  destruct (respects_step _ _ _ Hts Hs) as [HR Hts']. apply IH; [done|].
  destruct HP as [?|(p & Hi & Hp)]; [auto|]. inversion Hs as [s ts j B f k s' b Hj Hin]; simplify_eq/=.
  destruct (decide (i = j)) as [->|Hne].
  - rewrite Hi in Hj. simplify_eq. destruct (Hp _ _ _ Hin); [by left|]. right. exists (k b).
    by rewrite list_lookup_insert_eq by by eapply lookup_lt_Some.
  - right. exists p. by rewrite list_lookup_insert_ne.
Qed.
(** Until [P] holds, every section has an outcome in every state. *)
Fixpoint prompt {A} (p : prog S A) : Prop :=
  match p with
  | Ret _ => True
  | Act B f k => forall s, (exists s' b, Done s' b ∈ f s) /\ forall s' b, Done s' b ∈ f s -> P s' \/ prompt (k b)
  end.
Lemma prompt_bind {A B} (p : prog S A) (g : A -> prog S B) : prompt p -> (forall a, prompt (g a)) -> prompt (p ≫= g).
Proof.
  intros Hp Hg. induction p as [a|C f k IH]; [apply Hg|]. intros s. destruct (Hp s) as [Hex Hk]. split; [done|].
  intros s' b Hin. destruct (Hk s' b Hin); [by left|]. right. by apply IH.
Qed.
Lemma prompt_atomically {B} (f : S -> S * B) : prompt (atomically f).
Proof. intros s. cbn. destruct (f s) as [s' b]. split; [|by right]. exists s', b. left. Qed.
(** A pool at rest does not wait for it: it has returned, or [P] holds. *)
Lemma prompt_pool (c c' : pool S) i p :
  Forall (respects (fun s s' => P s -> P s')) c.2 -> rtc pstep c c' -> c.2 !! i = Some p -> prompt p -> ~ can_step c' ->
  P c'.1 \/ exists a, c'.2 !! i = Some (Ret a).
Proof.
  intros Hts Hr Hi Hp Hst. assert (P c'.1 \/ exists p', c'.2 !! i = Some p' /\ prompt p') as [?|(p' & Hi' & Hp')]; [|by left|].
  - assert (P c.1 \/ exists p', c.2 !! i = Some p' /\ prompt p') as HP by eauto. clear p Hi Hp Hst.
    induction Hr as [c|c1 c2 c3 Hs _ IH]; [done|]. destruct (respects_step _ _ _ Hts Hs) as [HR Hts']. apply IH; [done|].
    destruct HP as [?|(p & Hi & Hp)]; [auto|]. inversion Hs as [s ts j B f k s' b Hj Hin]; simplify_eq/=.
    destruct (decide (i = j)) as [->|Hne].
    + rewrite Hi in Hj. simplify_eq. destruct (proj2 (Hp s) _ _ Hin); [by left|]. right. exists (k b).
      by rewrite list_lookup_insert_eq by by eapply lookup_lt_Some.
    + right. exists p. by rewrite list_lookup_insert_ne.
  - right. destruct p' as [a|B f k]; [by exists a|]. destruct (proj1 (Hp' c'.1)) as (s' & b & Hin). destruct Hst, c' as [s ts].
    eexists. by econstructor.
Qed.
(** A program whose first section leads to [P]. *)
Definition at_once {A} (p : prog S A) : Prop :=
  match p with
  | Ret _ => False
  | Act B f k => forall s, exists s' b, f s = [Done s' b] /\ P s'
  end.
Lemma at_once_then {A B} (p : prog S A) (g : A -> prog S B) : at_once p -> at_once (p ≫= g).
Proof. by destruct p. Qed.
Lemma at_once_ensures {A} (p : prog S A) : at_once p -> ensures p.
Proof.
  destruct p as [|B f k]; [done|]. intros Hp s s' b Hin. destruct (Hp s) as (s2 & b2 & E & HP). rewrite E in Hin.
  apply list_elem_of_singleton in Hin as [= -> ->]. by left.
Qed.
Lemma at_once_prompt {A} (p : prog S A) : at_once p -> prompt p.
Proof.
  destruct p as [|B f k]; [done|]. intros Hp s. destruct (Hp s) as (s2 & b2 & E & HP). rewrite E.
  split; [exists s2, b2; left|]. intros s' b [= -> ->]%list_elem_of_singleton. by left.
Qed.
(** What is sure and prompt has happened when the pool is at rest. *)
Lemma sure_pool (c c' : pool S) i p :
  Forall (respects (fun s s' => P s -> P s')) c.2 -> rtc pstep c c' -> c.2 !! i = Some p -> ensures p -> prompt p ->
  ~ can_step c' -> P c'.1.
Proof.
  intros Hts Hr Hi He Hp Hst. destruct (ensures_pool c c' i p) as [?|(p' & Hi' & He')]; [done..|].
  destruct (prompt_pool c c' i p) as [?|[a Ha]]; [done..|]. by simplify_eq.
Qed.
Lemma at_once_pool (c c' : pool S) p :
  Forall (respects (fun s s' => P s -> P s')) c.2 -> rtc pstep c c' -> p ∈ c.2 -> at_once p -> ~ can_step c' -> P c'.1.
Proof.
  intros Hts Hr [i Hi]%list_elem_of_lookup Hp Hst.
  by apply (sure_pool c c' i p); try done; [apply at_once_ensures|apply at_once_prompt].
Qed.

(** Every section is as [R] says, until [P] holds. *)
Context (R : S -> S -> Prop).
Fixpoint until {A} (p : prog S A) : Prop :=
  match p with
  | Ret _ => True
  | Act B f k => forall s s' b, Done s' b ∈ f s -> P s' \/ (R s s' /\ until (k b))
  end.
Lemma until_respects {A} (p : prog S A) : respects R p -> until p.
Proof.
  induction p as [a|B f k IH]; [done|]. intros Hp s s' b Hin. destruct (Hp s s' b Hin). right. auto.
Qed.
(** What follows a program that ensures [P] is not looked at. *)
Lemma until_ensures {A B} (p : prog S A) (g : A -> prog S B) : respects R p -> ensures p -> until (p ≫= g).
Proof.
  induction p as [a|C f k IH]; [done|]. intros Hp He s s' b Hin. destruct (Hp s s' b Hin) as [? Hk].
  destruct (He s s' b Hin) as [?|Hb]; [by left|]. right. split; [done|]. by apply IH.
Qed.
Lemma until_pool `{!PreOrder R} (c c' : pool S) :
  Forall (respects (fun s s' => P s -> P s')) c.2 -> Forall until c.2 -> rtc pstep c c' -> P c'.1 \/ R c.1 c'.1.
Proof.
  intros Hts Hu Hr. assert (forall d, rtc pstep d c' -> Forall (respects (fun s s' => P s -> P s')) d.2 -> P d.1 -> P c'.1) as Hkeep.
  { intros d Hd. induction Hd as [|d1 d2 d3 Hs _ IH]; [done|]. intros Hp HP.
    destruct (respects_step _ _ _ Hp Hs) as [? ?]. auto. }
  induction Hr as [c|c1 c2 c3 Hs Hr IH]; [by right|]. destruct (respects_step _ _ _ Hts Hs) as [HP Hts'].
  inversion Hs as [s ts i B f k s' b Hi Hin]; simplify_eq/=.
  destruct (Forall_lookup_1 _ _ _ _ Hu Hi s s' b Hin) as [HP'|[HR Hk]]; [left; by apply (Hkeep _ Hr)|].
  destruct IH as [?|HR']; [done|by apply Forall_insert|done|by left|]. right. by etrans.
Qed.
End ensures.

Lemma ensures_impl {S A} (P P' : S -> Prop) (p : prog S A) : (forall s, P s -> P' s) -> ensures P p -> ensures P' p.
Proof.
  intros HP. induction p as [a|B f k IH]; [done|]. intros Hp s s' b Hin. destruct (Hp s s' b Hin); [left|right]; auto.
Qed.
Lemma prompt_lift {S T A} (P : S -> Prop) (L : lens S T) (p : prog T A) :
  prompt (fun _ => False) p -> prompt P (lift L p).
Proof.
  induction p as [a|B f k IH]; [done|]. intros Hp s. destruct (Hp (lget L s)) as [(t & b & Hin) Hk]. split.
  - exists (lset L t s), b. apply list_elem_of_fmap. by exists (Done t b).
  - intros s' b' ([t' b2|] & [= -> ->] & Hin')%list_elem_of_fmap. right. apply IH. by destruct (Hk t' b2 Hin').
Qed.

#[export] Hint Resolve respects_bind respects_atomically respects_atomic_panic respects_select
  respects_stuck : go.

(** ** Programs that never wait: every section has an outcome in every state *)
Section never_blocks.
Context {S : Type}.
Fixpoint never_blocks {A} (p : prog S A) : Prop :=
  match p with
  | Ret _ => True
  | Act B f k => forall s, f s <> [] /\ forall s' b, Done s' b ∈ f s -> never_blocks (k b)
  end.

Lemma never_blocks_bind {A B} (p : prog S A) (g : A -> prog S B) :
  never_blocks p -> (forall a, never_blocks (g a)) -> never_blocks (p ≫= g).
Proof.
  intros Hp Hg. induction p as [a|C f k IH]; [apply Hg|].
  intros s. destruct (Hp s) as [Hne Hk]. split; [done|]. intros s' b Hin. eapply IH, Hk, Hin.
Qed.
Lemma never_blocks_atomically {B} (f : S -> S * B) : never_blocks (atomically f).
Proof. intros s. by destruct (f s). Qed.
Lemma never_blocks_atomic_panic {B} (f : S -> option (S * B)) : never_blocks (atomic_panic f).
Proof. intros s. by destruct (f s) as [[]|]. Qed.

(** Those goroutines of a pool are never the ones that keep it from moving. *)
Lemma never_blocks_pool (P : nat -> Prop) c c' :
  (forall i t, P i -> c.2 !! i = Some t -> never_blocks t) -> rtc pstep c c' ->
  ~ can_step c' -> ~ panics c' -> forall i t, P i -> c'.2 !! i = Some t -> t = Ret tt.
Proof.
  intros Hnb Hr Hst Hp i t HP Hi.
  assert (forall i t, P i -> c'.2 !! i = Some t -> never_blocks t) as Hnb'.
  { clear -Hnb Hr. induction Hr as [|c1 c2 c3 Hs _ IH]; [done|]. apply IH.
    destruct Hs as [s ts j B f k s' b Hj Hin]. intros i t HP Hi. simpl in *.
    destruct (decide (i = j)) as [->|Hne].
    - rewrite list_lookup_insert_eq in Hi by by eapply lookup_lt_Some. simplify_eq.
      pose proof (Hnb _ _ HP Hj s) as [_ Hk]. by eapply Hk.
    - rewrite list_lookup_insert_ne in Hi by done. by eapply Hnb. }
  destruct t as [[]|B f k]; [done|]. destruct (Hnb' _ _ HP Hi c'.1) as [Hne _].
  destruct (f c'.1) as [|[s' b|] os] eqn:E; [done| |].
  - destruct Hst. destruct c' as [s ts]. simpl in *. eexists. econstructor; [done|]. rewrite E. left.
  - destruct Hp. exists i, B, f, k. rewrite E. split; [done|]. left.
Qed.
End never_blocks.
#[global] Arguments never_blocks : simpl never.

(** ** Ghost resources *)
Class Ghost (M : Type) := {
  gop : M -> M -> M;
  gnil : M;
  gop_assoc : forall a b c, gop a (gop b c) = gop (gop a b) c;
  gop_comm : forall a b, gop a b = gop b a;
  gop_nil : forall a, gop gnil a = a;
}.
Infix "∙" := gop (at level 50, left associativity) : go_scope.
Local Open Scope go_scope.

#[global] Program Instance ghost_nat : Ghost nat := {| gop := Nat.add; gnil := 0%nat |}.
Solve Obligations with (intros; lia).
#[global] Program Instance ghost_Z : Ghost Z := {| gop := Z.add; gnil := 0 |}.
Solve Obligations with (intros; lia).
#[global] Program Instance ghost_prod A B `{Ghost A, Ghost B} : Ghost (A * B) :=
  {| gop := fun x y => (x.1 ∙ y.1, x.2 ∙ y.2); gnil := (gnil, gnil) |}.
Next Obligation. intros; simpl; by rewrite !gop_assoc. Qed.
Next Obligation. intros; simpl; f_equal; apply gop_comm. Qed.
Next Obligation. intros ? ? ? ? [a b]; simpl; by rewrite !gop_nil. Qed.
#[global] Program Instance ghost_mset A `{Countable A} : Ghost (gmultiset A) :=
  {| gop := fun x y => x ⊎ y; gnil := ∅ |}.
Next Obligation. intros; simpl. by rewrite (assoc_L (⊎)). Qed.
Next Obligation. intros; simpl. by rewrite (comm_L (⊎)). Qed.
Next Obligation. intros; simpl. by rewrite (left_id_L ∅ (⊎)). Qed.

(** An exclusive resource: owned by one goroutine at most. *)
Inductive excl (A : Type) := Nobody | Owner (a : A) | Conflict.
Arguments Nobody {A}.
Arguments Owner {A} a.
Arguments Conflict {A}.
Definition excl_op {A} (x y : excl A) : excl A :=
  match x with
  | Nobody => y
  | _ => match y with Nobody => x | _ => Conflict end
  end.
#[global] Program Instance ghost_excl A : Ghost (excl A) := {| gop := excl_op; gnil := Nobody |}.
Next Obligation. by intros ? [] [] []. Qed.
Next Obligation. by intros ? [] []. Qed.
Next Obligation. by intros ? []. Qed.

Definition gsum {M} `{Ghost M} (ms : list M) : M := foldr gop gnil ms.

Lemma gop_nil_r {M} `{Ghost M} (a : M) : a ∙ gnil = a.
Proof. by rewrite gop_comm, gop_nil. Qed.

Lemma gsum_lookup {M} `{Ghost M} (ms : list M) i m :
  ms !! i = Some m -> exists F, gsum ms = m ∙ F /\ forall m', gsum (<[i := m']> ms) = m' ∙ F.
Proof.
  revert i. induction ms as [|x ms IH]; intros [|i] Hi; simplify_eq/=.
  - by exists (gsum ms).
  - destruct (IH _ Hi) as (F & E & E'). exists (x ∙ F).
    rewrite E. split; [|intros m'; rewrite E'];
      rewrite !gop_assoc; f_equal; apply gop_comm.
Qed.

Lemma gsum_elem {M} `{Ghost M} (ms : list M) m : m ∈ ms -> exists F, gsum ms = m ∙ F.
Proof.
  intros [i Hi]%list_elem_of_lookup. destruct (gsum_lookup _ _ _ Hi) as (F & ? & _). eauto.
Qed.

Lemma gsum_nil {M} `{Ghost M} (ms : list M) : Forall (fun m => m = gnil) ms -> gsum ms = gnil.
Proof. induction 1 as [|m ms -> _ IH]; simpl; [done|]. by rewrite IH, gop_nil. Qed.

(** Goroutines that start with two copies of a token per operation. *)
Lemma gsum_copies {A O} `{Countable A} (x : A) (opss : list (list O)) :
  gsum ((fun ops => copies x (2 * length ops)) <$> opss) = copies x (2 * length (mjoin opss)).
Proof.
  induction opss as [|ops opss IH]; [unfold copies; simpl; multiset_solver|].
  change (copies x (2 * length ops) ⊎ gsum ((fun ops => copies x (2 * length ops)) <$> opss)
          = copies x (2 * length (ops ++ mjoin opss))).
  rewrite IH, copies_add, length_app. f_equal. lia.
Qed.

Lemma gsum_copies_with {A O} `{Countable A} (x : A) (f : O -> nat) (os : list O) :
  gsum ((fun o => copies x (f o)) <$> os) = copies x (sum_list_with f os).
Proof.
  induction os as [|o os IH]; [unfold copies; simpl; multiset_solver|].
  change (copies x (f o) ⊎ gsum ((fun o => copies x (f o)) <$> os) = copies x (f o + sum_list_with f os)).
  by rewrite IH, copies_add.
Qed.

(** *** Components of a sum of shares *)
Section sums.
Context {N M : Type} `{Ghost N, Ghost M} (f : N -> M).
Hypothesis f_op : forall a b, f (a ∙ b) = f a ∙ f b.
Hypothesis f_nil : f gnil = gnil.

Lemma sum_field ms : f (gsum ms) = gsum (f <$> ms).
Proof.
  induction ms as [|m ms IH]; [done|]. change (f (m ∙ gsum ms) = f m ∙ gsum (f <$> ms)). by rewrite f_op, IH.
Qed.
Lemma sum_nil ms : Forall (fun m => f m = gnil) ms -> f (gsum ms) = gnil.
Proof.
  intros Hms. rewrite sum_field. induction Hms as [|m ms Hm _ IH]; [done|].
  change (f m ∙ gsum (f <$> ms) = gnil). by rewrite Hm, IH, gop_nil.
Qed.
End sums.
Section counts.
Context {N : Type} `{Ghost N} (f : N -> nat).
Hypothesis f_op : forall a b, f (a ∙ b) = (f a + f b)%nat.
Hypothesis f_nil : f gnil = 0%nat.

Lemma sum_none ms : (forall m, m ∈ ms -> f m = 0%nat) -> f (gsum ms) = 0%nat.
Proof.
  intros Hms. apply (@sum_nil N nat _ ghost_nat f f_op f_nil), Forall_forall. intros m Hm. by apply Hms, list_elem_of_In.
Qed.
(** A share of the sum is owned by somebody. *)
Lemma sum_owner ms : (0 < f (gsum ms))%nat -> exists m, m ∈ ms /\ (0 < f m)%nat.
Proof.
  induction ms as [|m ms IH]; [change (gsum []) with (gnil : N); lia|].
  change (gsum (m :: ms)) with (m ∙ gsum ms). rewrite f_op. intros Hp.
  destruct (decide (0 < f m)%nat); [exists m; split; [left|done]|].
  destruct IH as (m' & ? & ?); [lia|]. exists m'. split; [by right|done].
Qed.
End counts.
(** An exclusive share of the sum is owned by one goroutine. *)
Lemma sum_excl {N A} `{Ghost N} (f : N -> excl A) ms a :
  (forall x y, f (x ∙ y) = f x ∙ f y) -> f gnil = Nobody -> f (gsum ms) = Owner a ->
  exists m, m ∈ ms /\ f m = Owner a.
Proof.
  intros Hop Hnil. induction ms as [|m ms IH]; [change (gsum []) with (gnil : N); congruence|].
  change (gsum (m :: ms)) with (m ∙ gsum ms). rewrite Hop. destruct (f m) as [|b|] eqn:E; cbn.
  - intros (m' & ? & ?)%IH. exists m'. split; [by right|done].
  - destruct (f (gsum ms)); [|done..]. intros [= <-]. exists m. split; [left|done].
  - by destruct (f (gsum ms)).
Qed.

(** ... and by no other. *)
Lemma excl_unique {N A} `{Ghost N} (f : N -> excl A) ms i j m m' a b :
  (forall x y, f (x ∙ y) = f x ∙ f y) -> f (gsum ms) <> Conflict ->
  ms !! i = Some m -> ms !! j = Some m' -> f m = Owner a -> f m' = Owner b -> i = j.
Proof.
  intros Hop Hne Hi Hj Em Em'. destruct (decide (i = j)) as [|Hij]; [done|]. destruct Hne.
  destruct (gsum_lookup _ _ _ Hi) as (F & -> & Hins). rewrite Hop, Em.
  specialize (Hins gnil). rewrite gop_nil in Hins. rewrite <- Hins.
  destruct (gsum_elem (<[i := gnil]> ms) m') as [F' ->].
  - apply list_elem_of_lookup. exists j. by rewrite list_lookup_insert_ne.
  - rewrite Hop, Em'. by destruct (f F').
Qed.

(** ** Weakest preconditions *)
Section logic.
Context {S M : Type} `{Ghost M}.
Variable Inv : S -> M -> Prop.
(** What a goroutine owning its share may find when it is blocked. *)
Variable Blk : S -> M -> Prop.

Fixpoint wp {A} (p : prog S A) (m : M) (Q : A -> M -> Prop) : Prop :=
  match p with
  | Ret a => Q a m
  | Act B f k =>
      forall s F, Inv s (m ∙ F) ->
        (f s = [] -> Blk s m) /\
        forall o, o ∈ f s ->
          match o with
          | Panic => False
          | Done s' b => exists m', Inv s' (m' ∙ F) /\ wp (k b) m' Q
          end
  end.

Lemma wp_mono {A} (p : prog S A) m (Q Q' : A -> M -> Prop) :
  (forall a m', Q a m' -> Q' a m') -> wp p m Q -> wp p m Q'.
Proof.
  intros HQ. revert m. induction p as [a|B f k IH]; intros m; simpl; [auto|].
  intros Hwp s F HI. destruct (Hwp s F HI) as [HB Ho]. split; [done|].
  intros o Hin. specialize (Ho o Hin). destruct o as [s' b|]; [|done].
  destruct Ho as (m' & ? & ?). eauto.
Qed.

Lemma wp_bind {A B} (p : prog S A) (g : A -> prog S B) m Q :
  wp p m (fun a m' => wp (g a) m' Q) -> wp (p ≫= g) m Q.
Proof.
  revert m. induction p as [a|C f k IH]; intros m; simpl; [auto|].
  intros Hwp s F HI. destruct (Hwp s F HI) as [HB Ho]. split; [done|].
  intros o Hin. specialize (Ho o Hin). destruct o as [s' b|]; [|done].
  destruct Ho as (m' & ? & ?). eauto.
Qed.

Lemma wp_ret {A} (a : A) m (Q : A -> M -> Prop) : Q a m -> wp (mret a) m Q.
Proof. done. Qed.

Lemma wp_atomically {B} (f : S -> S * B) m (Q : B -> M -> Prop) :
  (forall s F, Inv s (m ∙ F) ->
     exists m', Inv (f s).1 (m' ∙ F) /\ Q (f s).2 m') ->
  wp (atomically f) m Q.
Proof.
  intros Hf s F HI. destruct (Hf s F HI) as (m' & HI' & HQ).
  destruct (f s) as [s' b]; simpl in *. split; [done|].
  intros o ->%list_elem_of_singleton. eauto.
Qed.

Lemma wp_section {B} (f : S -> S * B) m (Q : B -> M -> Prop) :
  (forall s F s' b, Inv s (m ∙ F) -> f s = (s', b) -> exists m', Inv s' (m' ∙ F) /\ Q b m') ->
  wp (atomically f) m Q.
Proof.
  intros Hf. apply wp_atomically. intros s F HI. destruct (f s) as [s' b] eqn:E. eauto.
Qed.

Lemma wp_atomic_panic {B} (f : S -> option (S * B)) m (Q : B -> M -> Prop) :
  (forall s F, Inv s (m ∙ F) ->
     exists s' b m', f s = Some (s', b) /\ Inv s' (m' ∙ F) /\ Q b m') ->
  wp (atomic_panic f) m Q.
Proof.
  intros Hf s F HI. destruct (Hf s F HI) as (s' & b & m' & E & HI' & HQ).
  rewrite E. split; [done|]. intros o ->%list_elem_of_singleton. eauto.
Qed.

Lemma wp_select {B} (cases : S -> list (S * B)) m (Q : B -> M -> Prop) :
  (forall s F, Inv s (m ∙ F) ->
     (cases s = [] -> Blk s m) /\
     forall s' b, (s', b) ∈ cases s -> exists m', Inv s' (m' ∙ F) /\ Q b m') ->
  wp (select cases) m Q.
Proof.
  intros Hf s F HI. destruct (Hf s F HI) as [HB Hc]. split.
  - intros E%map_eq_nil. auto.
  - intros o Hin. apply list_elem_of_fmap in Hin as ([s' b] & -> & Hin).
    destruct (Hc _ _ Hin) as (m' & ? & ?). eauto.
Qed.

Lemma wp_stuck {B} m (Q : B -> M -> Prop) : (forall s F, Inv s (m ∙ F) -> Blk s m) -> wp stuck m Q.
Proof. intros Hb s F HI. split; [eauto|]. intros o Hin. by apply elem_of_nil in Hin. Qed.

(** *** Adequacy *)
(** What a finished goroutine may still own. *)
Variable Fin : M -> Prop.
Definition owns (ts : list (prog S unit)) (ms : list M) : Prop :=
  Forall2 (fun t m => wp t m (fun _ => Fin)) ts ms.
Definition pool_ok (c : pool S) : Prop := exists ms, owns c.2 ms /\ Inv c.1 (gsum ms).

Lemma pool_ok_step c c' : pool_ok c -> pstep c c' -> pool_ok c'.
Proof.
  intros (ms & Hts & HI) Hs. destruct Hs as [s ts i B f k s' b Hi Hin]. simpl in *.
  destruct (Forall2_lookup_l _ _ _ _ _ Hts Hi) as (m & Hm & Hwp).
  destruct (gsum_lookup _ _ _ Hm) as (F & EF & EF'). rewrite EF in HI.
  destruct (Hwp _ _ HI) as [_ Ho]. specialize (Ho _ Hin) as (m' & HI' & Hwp').
  exists (<[i := m']> ms). simpl. rewrite EF'. split; [|done].
  by apply Forall2_insert.
Qed.

Lemma pool_ok_no_panic c : pool_ok c -> ~ panics c.
Proof.
  intros (ms & Hts & HI) (i & B & f & k & Hi & Hin).
  destruct (Forall2_lookup_l _ _ _ _ _ Hts Hi) as (m & Hm & Hwp).
  destruct (gsum_lookup _ _ _ Hm) as (F & EF & _). rewrite EF in HI.
  destruct (Hwp _ _ HI) as [_ Ho]. exact (Ho _ Hin).
Qed.

Lemma pool_ok_finished c :
  pool_ok c -> finished c -> exists ms, Forall Fin ms /\ Inv c.1 (gsum ms).
Proof.
  destruct c as [s ts]. intros (ms & Hts & HI) Hf. simpl in *. exists ms. split; [|done].
  unfold owns in Hts. unfold finished in Hf. simpl in Hf. clear HI.
  induction Hts as [|t m ts ms Hwp _ IH]; [done|].
  apply Forall_cons_1 in Hf as [-> Hf]. constructor; [exact Hwp | by apply IH].
Qed.

(** In a pool that cannot move, every goroutine has finished owning nothing
    or is blocked owning a share [Blk] allows. *)
Lemma pool_ok_blocked c :
  pool_ok c -> ~ can_step c ->
  exists ms, Inv c.1 (gsum ms) /\
    Forall2 (fun t m => (t = Ret tt /\ Fin m) \/ Blk c.1 m) c.2 ms.
Proof.
  intros (ms & Hts & HI) Hst. exists ms. split; [done|].
  apply Forall2_same_length_lookup_2; [by eapply Forall2_length|].
  intros i t m Hi Hm. pose proof (Forall2_lookup_lr _ _ _ _ _ _ Hts Hi Hm) as Hwp.
  destruct t as [[]|B f k]; [left; by split|right].
  destruct (gsum_lookup _ _ _ Hm) as (F & EF & _). rewrite EF in HI.
  destruct (Hwp _ _ HI) as [HB Ho]. apply HB.
  destruct (f c.1) as [|[s' b|] os] eqn:E; [done| |].
  - destruct Hst. destruct c as [s ts]. eexists. econstructor; [done|].
    simpl in E. rewrite E. left.
  - destruct (Ho Panic). left.
Qed.

Lemma not_blocked_finished (s : S) ts ms :
  Forall2 (fun (t : prog S unit) m => (t = Ret tt /\ Fin m) \/ Blk s m) ts ms ->
  (forall m, m ∈ ms -> ~ Blk s m) -> finished (s, ts).
Proof.
  unfold finished. simpl. induction 1 as [|t m ts ms Hm _ IH]; intros Hno; [done|].
  constructor.
  - destruct Hm as [[? _]|Hb]; [done|]. destruct (Hno m); [left|done].
  - apply IH. intros m' Hm'. apply Hno. by right.
Qed.

Theorem wp_adequate s ts ms c :
  Inv s (gsum ms) -> owns ts ms -> rtc pstep (s, ts) c -> pool_ok c.
Proof.
  intros HI Hts Hr. assert (pool_ok (s, ts)) as Hok by (by exists ms).
  clear HI Hts. induction Hr as [|c1 c2 c3 Hs _ IH]; [done|].
  apply IH. by eapply pool_ok_step.
Qed.

(** The same for a pool whose goroutines start owning nothing. *)
Corollary wp_adequate_nil s ts c :
  Inv s gnil -> Forall (fun t => wp t gnil (fun _ => Fin)) ts ->
  rtc pstep (s, ts) c -> pool_ok c.
Proof.
  intros HI Hts. eapply wp_adequate with (ms := replicate (length ts) gnil).
  - rewrite gsum_nil; [done|]. by apply Forall_replicate.
  - unfold owns. clear HI. induction Hts; constructor; done.
Qed.

(** A program that still has a section to run may first give up resources. *)
Lemma wp_weaken {A B} (f : S -> list (outcome S B)) (k : B -> prog S A) m m' Q :
  (forall s F, Inv s (m ∙ F) -> Inv s (m' ∙ F)) -> (forall s, Blk s m' -> Blk s m) ->
  wp (Act B f k) m' Q -> wp (Act B f k) m Q.
Proof. intros HI HB Hwp s F H'. destruct (Hwp s F (HI s F H')) as [? ?]. split; auto. Qed.
(** The same for any program that is not yet finished. *)
Lemma wp_ghost {A} (p : prog S A) m m' Q :
  match p with Ret _ => False | Act _ _ _ => True end ->
  (forall s F, Inv s (m ∙ F) -> Inv s (m' ∙ F)) -> (forall s, Blk s m' -> Blk s m) ->
  wp p m' Q -> wp p m Q.
Proof. destruct p; [done|]. intros _. apply wp_weaken. Qed.

Lemma wp_lift_bind {T A B} (L : lens S T) (p : prog T A) (k : A -> prog T B) m Q :
  wp (lift L p) m (fun x m' => wp (lift L (k x)) m' Q) -> wp (lift L (p ≫= k)) m Q.
Proof.
  revert m. induction p as [x|C f g IH]; intros m Hwp; [exact Hwp|].
  intros s F HI. destruct (Hwp s F HI) as [Hb Ho]. split; [exact Hb|].
  intros o Hin. specialize (Ho o Hin). destruct o as [s' b|]; [|done].
  destruct Ho as (m' & HI' & Hwp'). exists m'. split; [done|]. by apply IH.
Qed.
(** A section of a component. *)
Lemma wp_lift_section {T B} (L : lens S T) (f : T -> T * B) m (Q : B -> M -> Prop) :
  (forall s F t b, Inv s (m ∙ F) -> f (lget L s) = (t, b) -> exists m', Inv (lset L t s) (m' ∙ F) /\ Q b m') ->
  wp (lift L (atomically f)) m Q.
Proof.
  intros Hf s F HI. destruct (f (lget L s)) as [t b] eqn:E. cbn. split; [done|].
  intros o ->%list_elem_of_singleton. destruct (Hf s F t b HI E) as (m' & HI' & HQ). by exists m'.
Qed.
End logic.

(** A blocked goroutine may be described more loosely. *)
Lemma wp_blk_mono {S M A} `{Ghost M} (Inv : S -> M -> Prop) (B B' : S -> M -> Prop) (p : prog S A) m Q :
  (forall s m, B s m -> B' s m) -> wp Inv B p m Q -> wp Inv B' p m Q.
Proof.
  intros HB. revert m. induction p as [a|C f k IH]; intros m; [done|].
  intros Hwp s F HI. destruct (Hwp s F HI) as [Hb Ho]. split; [auto|].
  intros o Hin. specialize (Ho o Hin). destruct o as [s' b|]; [|done].
  destruct Ho as (m' & ? & ?). exists m'. split; [done|]. by apply IH.
Qed.

(** *** Goroutines that may wait for different things *)
Section mixed.
Context {S M : Type} `{Ghost M}.
Variable Inv : S -> M -> Prop.
(** What the goroutine at a position of the pool may find when it is blocked. *)
Variable BlkAt : nat -> S -> M -> Prop.
Variable Fin : M -> Prop.
Definition owns_at (ts : list (prog S unit)) (ms : list M) : Prop :=
  length ts = length ms /\
  forall i t m, ts !! i = Some t -> ms !! i = Some m -> wp Inv (BlkAt i) t m (fun _ => Fin).
Definition pool_ok_at (c : pool S) : Prop := exists ms, owns_at c.2 ms /\ Inv c.1 (gsum ms).

Lemma pool_ok_at_any c : pool_ok_at c -> pool_ok Inv (fun _ _ => True) Fin c.
Proof.
  intros (ms & [Hl Hts] & HI). exists ms. split; [|done]. apply Forall2_same_length_lookup_2; [done|].
  intros i t m Ht Hm. eapply wp_blk_mono; [|by eapply Hts]. done.
Qed.
Lemma pool_ok_at_step c c' : pool_ok_at c -> pstep c c' -> pool_ok_at c'.
Proof.
  intros (ms & [Hl Hts] & HI) Hs. destruct Hs as [s ts i B f k s' b Hi Hin]. simpl in *.
  destruct (lookup_lt_is_Some_2 ms i) as [m Hm]; [rewrite <- Hl; by eapply lookup_lt_Some|].
  destruct (gsum_lookup _ _ _ Hm) as (F & EF & EF'). rewrite EF in HI.
  destruct (Hts _ _ _ Hi Hm _ _ HI) as [_ Ho]. specialize (Ho _ Hin) as (m' & HI' & Hwp').
  exists (<[i := m']> ms). simpl. rewrite EF'. split; [|done]. split; [by rewrite !length_insert|].
  intros j t m2 [(<- & <- & _)|[Hne Ht]]%list_lookup_insert_Some Hm2.
  - rewrite list_lookup_insert_eq in Hm2 by by eapply lookup_lt_Some. by simplify_eq.
  - rewrite list_lookup_insert_ne in Hm2 by done. by eapply Hts.
Qed.
Lemma pool_ok_at_rest c :
  pool_ok_at c -> ~ can_step c ->
  exists ms, Inv c.1 (gsum ms) /\ length c.2 = length ms /\
    forall i t m, c.2 !! i = Some t -> ms !! i = Some m -> (t = Ret tt /\ Fin m) \/ (t <> Ret tt /\ BlkAt i c.1 m).
Proof.
  intros (ms & [Hl Hts] & HI) Hst. exists ms. split_and!; [done..|]. intros i t m Hi Hm.
  pose proof (Hts _ _ _ Hi Hm) as Hwp. destruct t as [[]|B f k]; [left; by split|right]. split; [done|].
  destruct (gsum_lookup _ _ _ Hm) as (F & EF & _). rewrite EF in HI.
  destruct (Hwp _ _ HI) as [HB Ho]. apply HB.
  destruct (f c.1) as [|[s' b|] os] eqn:E; [done| |].
  - destruct Hst. destruct c as [s ts]. eexists. econstructor; [done|]. simpl in E. rewrite E. left.
  - destruct (Ho Panic). left.
Qed.
Lemma pool_ok_at_blocked c :
  pool_ok_at c -> ~ can_step c ->
  exists ms, Inv c.1 (gsum ms) /\ length c.2 = length ms /\
    forall i t m, c.2 !! i = Some t -> ms !! i = Some m -> (t = Ret tt /\ Fin m) \/ BlkAt i c.1 m.
Proof.
  intros Hok Hst. destruct (pool_ok_at_rest c Hok Hst) as (ms & ? & ? & Hms). exists ms. split_and!; [done..|].
  intros i t m Ht Hm. destruct (Hms i t m Ht Hm) as [?|[_ ?]]; auto.
Qed.
Lemma wp_adequate_at s ts ms c :
  Inv s (gsum ms) -> owns_at ts ms -> rtc pstep (s, ts) c -> pool_ok_at c.
Proof.
  intros HI Hts Hr. assert (pool_ok_at (s, ts)) as Hok by (by exists ms).
  clear HI Hts. induction Hr as [|c1 c2 c3 Hs _ IH]; [done|]. apply IH. by eapply pool_ok_at_step.
Qed.
End mixed.
Lemma owns_at_cons {S M} `{Ghost M} (Inv : S -> M -> Prop) (BlkAt : nat -> S -> M -> Prop) (Fin : M -> Prop) t m ts ms :
  wp Inv (BlkAt 0%nat) t m (fun _ => Fin) -> owns_at Inv (fun i => BlkAt (Datatypes.S i)) Fin ts ms ->
  owns_at Inv BlkAt Fin (t :: ts) (m :: ms).
Proof.
  intros Ht [Hl Hts]. split; [cbn; lia|]. intros [|i] t' m'; cbn; [by intros [= <-] [= <-]|by apply Hts].
Qed.
(** Goroutines of two kinds. *)
Lemma owns_at_app {S M} `{Ghost M} (Inv : S -> M -> Prop) (B : bool -> S -> M -> Prop) (Fin : M -> Prop) ds mds cs mcs :
  Forall2 (fun t m => wp Inv (B true) t m (fun _ => Fin)) ds mds ->
  Forall2 (fun t m => wp Inv (B false) t m (fun _ => Fin)) cs mcs ->
  owns_at Inv (fun i => B (i <? length ds)%nat) Fin (ds ++ cs) (mds ++ mcs).
Proof.
  intros Hd Hc. pose proof (Forall2_length Hd) as Ld. pose proof (Forall2_length Hc) as Lc.
  split; [rewrite !length_app; lia|]. intros i t m Ht Hm.
  destruct (decide (i < length ds)%nat) as [Hlt|Hge].
  - rewrite lookup_app_l in Ht by lia. rewrite lookup_app_l in Hm by lia. replace (i <? length ds)%nat with true by (symmetry; by apply Nat.ltb_lt).
    by eapply (Forall2_lookup_lr _ _ _ _ _ _ Hd).
  - rewrite lookup_app_r in Ht by lia. rewrite lookup_app_r in Hm by lia. rewrite <- Ld in Hm.
    replace (i <? length ds)%nat with false by (symmetry; apply Nat.ltb_ge; lia).
    by eapply (Forall2_lookup_lr _ _ _ _ _ _ Hc).
Qed.

(** ** Programs of a component, run on the larger state

    The ghost state of the larger system has a component [get]/[put] for the
    smaller one, and part of the smaller system's resources may be [stored] in the larger state
    instead of being owned by a goroutine. The larger invariant may use that the
    component moves along [R]. *)
Section wp_lift.
Context {S T MS MT : Type} `{Ghost MS, Ghost MT} (L : lens S T).
Context (InvS : S -> MS -> Prop) (BlkS : S -> MS -> Prop).
Context (InvT : T -> MT -> Prop) (BlkT : T -> MT -> Prop) (R : T -> T -> Prop).
Context (get : MS -> MT) (put : MT -> MS -> MS) (stored : S -> MT).
Hypothesis get_put : forall t m, get (put t m) = t.
Hypothesis put_put : forall t t' m, put t (put t' m) = put t m.
Hypothesis put_get : forall m, put (get m) m = m.
Hypothesis inv_get : forall s m F, InvS s (m ∙ F) -> InvT (lget L s) (get m ∙ (get F ∙ stored s)).
Hypothesis inv_put : forall s m F t mt,
  InvS s (m ∙ F) -> R (lget L s) t -> InvT t (mt ∙ (get F ∙ stored s)) ->
  InvS (lset L t s) (put mt m ∙ F).

Lemma wp_lift {A} (p : prog T A) m (Q : A -> MS -> Prop) :
  respects R p -> (forall s mt, BlkT (lget L s) mt -> BlkS s (put mt m)) ->
  wp InvT BlkT p (get m) (fun a mt => Q a (put mt m)) -> wp InvS BlkS (lift L p) m Q.
Proof.
  intros Hr HB. enough (forall mt, wp InvT BlkT p mt (fun a mt => Q a (put mt m)) ->
    wp InvS BlkS (lift L p) (put mt m) Q) as Hgen.
  { intros Hwp. rewrite <- (put_get m). by apply Hgen. }
  induction p as [a|B f k IH]; intros mt Hwp; [done|].
  intros s F HI. pose proof (inv_get _ _ _ HI) as HT. rewrite get_put in HT.
  destruct (Hwp _ _ HT) as [Hb Ho]. split.
  - intros E. apply HB, Hb. by eapply map_eq_nil.
  - intros o Hin. apply list_elem_of_fmap in Hin as (o' & -> & Hin). specialize (Ho _ Hin).
    destruct o' as [t b|]; [|done]. destruct Ho as (mt' & HT' & Hk).
    destruct (Hr _ _ _ Hin) as [HR Hr']. exists (put mt' m). split.
    + rewrite <- (put_put mt' mt). by eapply inv_put.
    + by apply IH.
Qed.
End wp_lift.

#[global] Hint Resolve wp_ret : go.
#[global] Arguments wp : simpl never.
#[global] Arguments respects : simpl never.
