(* ===== verification/Gate.v ===== *)
(** * Gate: the admission gate of the send path (transport/gate.go)

    Each method is one critical section of [g.mu].  The channel [drained] is
    modelled by whether it has been closed, and closing it twice panics. *)
From S2P Require Import Prelude Conc.
Local Open Scope go_scope.

Record sendGate := { g_closed : bool; g_active : Z; g_drained : bool }.

Definition newSendGate : sendGate := {| g_closed := false; g_active := 0; g_drained := false |}.

(** [close(g.drained)] *)
Definition close_drained (g : sendGate) : option sendGate :=
  if g_drained g then None
  else Some {| g_closed := g_closed g; g_active := g_active g; g_drained := true |}.

Definition gate_enter (g : sendGate) : sendGate * bool :=
  if g_closed g then (g, false)
  else ({| g_closed := g_closed g; g_active := g_active g + 1; g_drained := g_drained g |}, true).

Definition gate_leave (g : sendGate) : option sendGate :=
  let g := {| g_closed := g_closed g; g_active := g_active g - 1; g_drained := g_drained g |} in
  if g_closed g && (g_active g =? 0) then close_drained g else Some g.

Definition gate_close (g : sendGate) : option sendGate :=
  if g_closed g then Some g
  else
    let g := {| g_closed := true; g_active := g_active g; g_drained := g_drained g |} in
    if g_active g =? 0 then close_drained g else Some g.

(** [<-g.done()] is ready. *)
Definition gate_done (g : sendGate) : bool := g_drained g.

(** ** Goroutines using one gate *)
Definition unit_section (f : sendGate -> option sendGate) : prog sendGate unit :=
  atomic_panic (fun g => match f g with Some g' => Some (g', tt) | None => None end).
Definition enter : prog sendGate bool := atomically gate_enter.
Definition leave : prog sendGate unit := unit_section gate_leave.
Definition close : prog sendGate unit := unit_section gate_close.
Definition await_done : prog sendGate unit :=
  select (fun g => if gate_done g then [(g, tt)] else []).

(** A sender brackets its work with [enter]/[leave]; a closer closes; a drainer
    closes and waits, the way the writer loops end. *)
Inductive gate_op := Sender | Closer | Drainer.
Definition gate_op_prog (o : gate_op) : prog sendGate unit :=
  match o with
  | Sender => ok ← enter; if ok : bool then leave else mret tt
  | Closer => close
  | Drainer => close ≫= fun _ => await_done
  end.
Fixpoint goroutine (ops : list gate_op) : prog sendGate unit :=
  match ops with
  | [] => mret tt
  | o :: rest => gate_op_prog o ≫= fun _ => goroutine rest
  end.

(** ** Invariant

    A goroutine owns the number of senders it has inside and the number of
    witnesses that the gate is closed. *)
Definition gate_inv (g : sendGate) (m : nat * nat) : Prop :=
  g_active g = Z.of_nat m.1 /\ g_drained g = g_closed g && (g_active g =? 0)
  /\ ((0 < m.2)%nat -> g_closed g = true).
(** The only wait is the one for [drained], entered holding no sender. *)
Definition gate_blk (g : sendGate) (m : nat * nat) : Prop := m = (0, 1)%nat /\ g_drained g = false.

(** A closed gate stays closed and a drained one stays drained. *)
Definition gate_mono (g g' : sendGate) : Prop :=
  (g_closed g = true -> g_closed g' = true) /\ (g_drained g = true -> g_drained g' = true).
#[global] Instance gate_mono_preorder : PreOrder gate_mono.
Proof. split; [intros ?; by split|]. intros a b c [? ?] [? ?]. split; auto. Qed.

Lemma gate_enter_inv g n c :
  gate_inv g (n, c) ->
  gate_inv (gate_enter g).1 (if (gate_enter g).2 then S n else n, c).
Proof.
  unfold gate_inv, gate_enter. intros (Ha & Hd & Hc). destruct (g_closed g) eqn:Ec; simpl in *.
  - by rewrite Ec.
  - rewrite Hd. split_and!; [lia|done|done].
Qed.

Lemma gate_leave_inv g n c :
  gate_inv g (S n, c) -> exists g', gate_leave g = Some g' /\ gate_inv g' (n, c).
Proof.
  unfold gate_inv, gate_leave. simpl. intros (Ha & Hd & Hc).
  assert (g_drained g = false) as Hnd by (rewrite Hd; destruct (g_closed g); simpl; lia).
  destruct (g_closed g && (g_active g - 1 =? 0)) eqn:E.
  - unfold close_drained. simpl. rewrite Hnd. eexists. split; [done|]. simpl.
    split_and!; [lia|done|done].
  - eexists. split; [done|]. simpl. rewrite E. split_and!; [lia|done|done].
Qed.

Lemma gate_close_inv g n c :
  gate_inv g (n, c) ->
  exists g', gate_close g = Some g' /\ gate_inv g' (n, S c).
Proof.
  unfold gate_inv, gate_close. simpl. intros (Ha & Hd & Hc). destruct (g_closed g) eqn:Ec.
  - exists g. by rewrite Ec.
  - simpl in *. destruct (g_active g =? 0) eqn:E; [unfold close_drained; simpl; rewrite Hd|];
      eexists; (split; [done|]); simpl; rewrite ?E, ?Hd; by split_and!.
Qed.

Lemma gate_inv_weaken g n c : gate_inv g (n, S c) -> gate_inv g (n, c).
Proof. unfold gate_inv. simpl. intros (? & ? & Hc). split_and!; [done..|]. intros. apply Hc. lia. Qed.

Lemma wp_enter Blk (Q : bool -> nat * nat -> Prop) :
  Q true (1, 0)%nat -> Q false (0, 0)%nat -> wp gate_inv Blk enter (0, 0)%nat Q.
Proof.
  intros Ht Hf. apply wp_atomically. intros g [n c] HI. simpl in HI.
  pose proof (gate_enter_inv _ _ _ HI) as HI'.
  destruct (gate_enter g) as [g' []]; [exists (1, 0)%nat | exists (0, 0)%nat]; done.
Qed.

Lemma wp_leave Blk (Q : unit -> nat * nat -> Prop) :
  Q tt (0, 0)%nat -> wp gate_inv Blk leave (1, 0)%nat Q.
Proof.
  intros HQ. apply wp_atomic_panic. intros g [n c] HI.
  destruct (gate_leave_inv _ _ _ HI) as (g' & -> & ?). by exists g', tt, (0, 0)%nat.
Qed.

Lemma wp_close Blk (Q : unit -> nat * nat -> Prop) :
  Q tt (0, 1)%nat -> wp gate_inv Blk close (0, 0)%nat Q.
Proof.
  intros HQ. apply wp_atomic_panic. intros g [n c] HI.
  destruct (gate_close_inv _ _ _ HI) as (g' & -> & ?). by exists g', tt, (0, 1)%nat.
Qed.

(** Closing without keeping the witness. *)
Lemma wp_close_drop Blk (Q : unit -> nat * nat -> Prop) :
  Q tt (0, 0)%nat -> wp gate_inv Blk close (0, 0)%nat Q.
Proof.
  intros HQ g [n c] HI. destruct (gate_close_inv _ _ _ HI) as (g' & E & HI').
  rewrite E. split; [done|]. intros o ->%list_elem_of_singleton.
  exists (0, 0)%nat. split; [by apply gate_inv_weaken | done].
Qed.

(** Giving up a witness that the gate is closed. *)
Lemma wp_await_done (Q : unit -> nat * nat -> Prop) :
  Q tt (0, 0)%nat -> wp gate_inv gate_blk await_done (0, 1)%nat Q.
Proof.
  intros HQ. apply wp_select. intros g [n c] HI. unfold gate_done.
  destruct (g_drained g) eqn:E; split; try done.
  - intros g' [] [= ->]%list_elem_of_singleton. exists (0, 0)%nat.
    split; [by apply gate_inv_weaken | done].
  - intros g' b Hin. by apply elem_of_nil in Hin.
Qed.

Lemma wp_gate_op o (Q : unit -> nat * nat -> Prop) :
  Q tt (0, 0)%nat -> wp gate_inv gate_blk (gate_op_prog o) (0, 0)%nat Q.
Proof.
  intros HQ. destruct o; unfold gate_op_prog.
  - apply wp_bind, wp_enter; [by apply wp_leave | done].
  - by apply wp_close_drop.
  - apply wp_bind, wp_close, wp_await_done. done.
Qed.

Definition gate_fin (m : nat * nat) : Prop := m = (0, 0)%nat.

Lemma wp_goroutine ops : wp gate_inv gate_blk (goroutine ops) (0, 0)%nat (fun _ => gate_fin).
Proof. induction ops as [|o ops IH]; [done|]. cbn [goroutine]. by apply wp_bind, wp_gate_op. Qed.

Lemma goroutines_ok (opss : list (list gate_op)) c :
  rtc pstep (newSendGate, goroutine <$> opss) c -> pool_ok gate_inv gate_blk gate_fin c.
Proof.
  intros Hr. eapply wp_adequate_nil; [| |exact Hr].
  - split_and!; simpl; done || lia.
  - apply Forall_fmap, Forall_true. apply wp_goroutine.
Qed.

Lemma close_drained_mono g g' :
  close_drained g = Some g' -> g_closed g' = g_closed g /\ g_drained g' = true.
Proof. unfold close_drained. case_match; intros; by simplify_eq. Qed.

Lemma leave_mono : respects gate_mono leave.
Proof.
  apply respects_atomic_panic. intros g g' []. unfold gate_leave. simpl.
  destruct (_ && _); [destruct (close_drained _) eqn:E|]; intros [= <-].
  - apply close_drained_mono in E as [E1 E2]. simpl in E1. split; congruence.
  - by split.
Qed.

Lemma close_mono : respects gate_mono close.
Proof.
  apply respects_atomic_panic. intros g g' []. unfold gate_close.
  destruct (g_closed g) eqn:Ec; [by intros [= <-]|].
  destruct (_ =? _); [destruct (close_drained _) eqn:E|]; intros [= <-].
  - apply close_drained_mono in E as [E1 E2]. simpl in E1. split; congruence.
  - split; simpl; congruence.
Qed.

Lemma enter_mono : respects gate_mono enter.
Proof. apply respects_atomically. intros g. unfold gate_enter. case_match; split; simpl; congruence. Qed.

Lemma goroutine_mono ops : respects gate_mono (goroutine ops).
Proof.
  induction ops as [|o ops IH]; [done|].
  cbn [goroutine]. apply respects_bind; [|done].
  destruct o; unfold gate_op_prog; [|apply close_mono|].
  - apply respects_bind; [apply enter_mono|]. intros []; [apply leave_mono|done].
  - apply respects_bind; [apply close_mono|]. intros _. apply respects_select.
    intros g g' b. case_match; [intros [= -> ->]%list_elem_of_singleton; reflexivity | by intros ?%elem_of_nil].
Qed.

(** ** Properties *)

(** Under every interleaving of any number of senders, closers and drainers, no
    goroutine panics (the drained channel is closed once), the count of senders
    inside is never negative, and the gate is drained exactly when it is closed
    with no sender inside. *)
Theorem gate_safe (opss : list (list gate_op)) c :
  rtc pstep (newSendGate, goroutine <$> opss) c ->
  ~ panics c /\ 0 <= g_active c.1 /\
  (g_drained c.1 = true <-> g_closed c.1 = true /\ g_active c.1 = 0).
Proof.
  intros Hok%goroutines_ok. split; [exact (pool_ok_no_panic _ _ _ _ Hok)|].
  destruct Hok as (ms & _ & Ha & Hd & _). rewrite Hd, andb_true_iff. split; [lia|]. by rewrite Z.eqb_eq.
Qed.

(** C32. Once the gate is drained no sender is inside, now or later: the barrier the
    writer loops rely on before they fail what is left in the queue. *)
Theorem gate_barrier (opss : list (list gate_op)) c c' :
  rtc pstep (newSendGate, goroutine <$> opss) c -> g_drained c.1 = true ->
  rtc pstep c c' -> g_drained c'.1 = true /\ g_active c'.1 = 0 /\ (gate_enter c'.1).2 = false.
Proof.
  intros Hr Hd Hr'. assert (g_drained c'.1 = true) as Hd'.
  { destruct c as [g ts], c' as [g' ts'].
    assert (Forall (respects gate_mono) (goroutine <$> opss)) as Hts
      by (apply Forall_fmap, Forall_true; intros; apply goroutine_mono).
    destruct (respects_pool gate_mono _ _ _ _ Hts Hr) as [_ Hts'].
    destruct (respects_pool gate_mono _ _ _ _ Hts' Hr') as [[_ Hm] _]. auto. }
  split; [done|]. assert (pool_ok gate_inv gate_blk gate_fin c') as (ms & _ & Ha & E & _)
    by (apply (goroutines_ok opss); by etrans).
  rewrite E in Hd'. apply andb_true_iff in Hd' as [Hc Hz]. split; [lia|].
  unfold gate_enter. by rewrite Hc.
Qed.

(** No deadlock: however senders, closers and drainers interleave, a pool that can
    no longer move has finished; in particular the wait for [drained] always ends. *)
Theorem gate_no_deadlock (opss : list (list gate_op)) c :
  rtc pstep (newSendGate, goroutine <$> opss) c -> ~ can_step c -> finished c.
Proof.
  intros Hok%goroutines_ok Hst.
  destruct (pool_ok_blocked _ _ _ _ Hok Hst) as (ms & (Ha & Hd & Hc) & Hall).
  destruct c as [g ts]. simpl in *. eapply (not_blocked_finished gate_blk gate_fin g ts ms); [exact Hall|].
  assert ((gsum ms).1 = 0%nat) as H1.
  { clear -Hall. induction Hall as [|t m ts ms Hm _ IH]; [done|].
    destruct Hm as [[_ ->]|[-> _]]; simpl; lia. }
  intros m Hm [-> Hnd]. destruct (gsum_elem _ _ Hm) as [F EF].
  rewrite Hnd, Hc, Ha, H1 in Hd; [done|]. rewrite EF. simpl. lia.
Qed.

(** A sender inside while a drainer closes, then everything to the end. *)
Definition gate_demo (sched : list (nat * nat)) : pool sendGate :=
  reached (newSendGate, goroutine <$> [[Sender]; [Drainer]]) sched.

Lemma gate_safe_witness :
  let c := gate_demo [(0, 0); (1, 0)]%nat in
  g_active c.1 = 1 /\ g_closed c.1 = true /\
  ~ panics c /\ 0 <= g_active c.1 /\
  (g_drained c.1 = true <-> g_closed c.1 = true /\ g_active c.1 = 0).
Proof.
  cbv zeta. split; [reflexivity|]. split; [reflexivity|].
  apply (gate_safe [[Sender]; [Drainer]]). apply reached_steps.
Defined.

Lemma gate_barrier_witness :
  let c := gate_demo [(0, 0); (1, 0); (0, 0)]%nat in
  g_drained c.1 = true /\ g_active c.1 = 0 /\ (gate_enter c.1).2 = false.
Proof.
  cbv zeta. apply (gate_barrier [[Sender]; [Drainer]] (gate_demo [(0, 0); (1, 0); (0, 0)]%nat)).
  - apply reached_steps.
  - reflexivity.
  - apply rtc_refl.
Defined.

Lemma gate_no_deadlock_witness : finished (gate_demo (in_turn 2 4)).
Proof.
  apply (gate_no_deadlock [[Sender]; [Drainer]]).
  - apply reached_steps.
  - apply finished_no_step. vm_compute. repeat constructor.
Defined.
