(* ===== verification/Kinds.v ===== *)
(** * Kinds: the enumerations of the public API and of the transport

    [ogrenet.Scheme] (endpoint.go), [ogrenet.PayloadType] (message.go),
    [transport.Op], [ErrorKind] (error_model.go), [TimeoutKind] (timeouts.go) and
    [LimitKind] (limits.go).  Every one of them is a [uint8] in Go, so each type has
    a constructor for the values that carry no name; the numeric value of a
    constant is the one the source assigns. *)
From S2P Require Import Prelude.
Local Open Scope string_scope.

(** ** ogrenet.Scheme *)
Inductive Scheme := SchemeTCP | SchemeUDP | SchemeTLS | SchemeWS | SchemeWSS
  | SchemeOther (n : Z).
#[global] Instance Scheme_eq_dec : EqDecision Scheme.
Proof. solve_decision. Defined.

Definition scheme_value (s : Scheme) : Z :=
  match s with
  | SchemeTCP => 0x01 | SchemeUDP => 0x02 | SchemeTLS => 0x03
  | SchemeWS => 0x04 | SchemeWSS => 0x05 | SchemeOther n => n
  end.

Definition Scheme_String (s : Scheme) : string :=
  match s with
  | SchemeTCP => "tcp" | SchemeUDP => "udp" | SchemeTLS => "tls"
  | SchemeWS => "ws" | SchemeWSS => "wss" | SchemeOther _ => "unknown"
  end.

Definition IsSession (s : Scheme) : bool :=
  match s with
  | SchemeTCP | SchemeTLS | SchemeWS | SchemeWSS => true
  | _ => false
  end.
Definition IsPacket (s : Scheme) : bool := bool_decide (s = SchemeUDP).

(** ** ogrenet.PayloadType *)
Inductive PayloadType := PayloadBinary | PayloadText | PayloadOther (n : Z).
#[global] Instance PayloadType_eq_dec : EqDecision PayloadType.
Proof. solve_decision. Defined.

Definition payload_value (t : PayloadType) : Z :=
  match t with PayloadBinary => 0x00 | PayloadText => 0x01 | PayloadOther n => n end.

(** ** transport.Op *)
Inductive Op := OpDial | OpListen | OpAccept | OpHandshake | OpUpgrade | OpRead
  | OpWrite | OpSend | OpReceive | OpClose | OpShutdown | OpOther (n : Z).
#[global] Instance Op_eq_dec : EqDecision Op.
Proof. solve_decision. Defined.

Definition Op_String (o : Op) : string :=
  match o with
  | OpDial => "dial" | OpListen => "listen" | OpAccept => "accept"
  | OpHandshake => "handshake" | OpUpgrade => "upgrade" | OpRead => "read"
  | OpWrite => "write" | OpSend => "send" | OpReceive => "receive"
  | OpClose => "close" | OpShutdown => "shutdown" | OpOther _ => "unknown"
  end.

(** ** transport.ErrorKind *)
Inductive ErrorKind := ErrorUnknown | ErrorClosed | ErrorPeerClosed | ErrorTimeout
  | ErrorRefused | ErrorReset | ErrorDNS | ErrorTLS | ErrorProtocol
  | ErrorResourceExhausted | ErrorBackpressure | ErrorTooLarge | ErrorKindOther (n : Z).
#[global] Instance ErrorKind_eq_dec : EqDecision ErrorKind.
Proof. solve_decision. Defined.

Definition ErrorKind_String (k : ErrorKind) : string :=
  match k with
  | ErrorClosed => "closed" | ErrorPeerClosed => "peer-closed"
  | ErrorTimeout => "timeout" | ErrorRefused => "refused" | ErrorReset => "reset"
  | ErrorDNS => "dns" | ErrorTLS => "tls" | ErrorProtocol => "protocol"
  | ErrorResourceExhausted => "resource-exhausted"
  | ErrorBackpressure => "backpressure" | ErrorTooLarge => "too-large"
  | _ => "unknown"
  end.

(** ** transport.TimeoutKind *)
Inductive TimeoutKind := TimeoutNone | TimeoutConnect | TimeoutHandshake | TimeoutWrite
  | TimeoutReadIdle | TimeoutConnectionIdle | TimeoutMaxLifetime | TimeoutClose
  | TimeoutOther (n : Z).
#[global] Instance TimeoutKind_eq_dec : EqDecision TimeoutKind.
Proof. solve_decision. Defined.

Definition TimeoutKind_String (k : TimeoutKind) : string :=
  match k with
  | TimeoutConnect => "connect" | TimeoutHandshake => "handshake"
  | TimeoutWrite => "write" | TimeoutReadIdle => "read-idle"
  | TimeoutConnectionIdle => "connection-idle" | TimeoutMaxLifetime => "max-lifetime"
  | TimeoutClose => "close" | _ => "unknown"
  end.

(** ** transport.LimitKind *)
Inductive LimitKind := LimitConnections | LimitConnectionsPerPeer
  | LimitConnectionsPerListener | LimitHandshakes | LimitUpgrades | LimitQueuedBytes
  | LimitOther (n : Z).
#[global] Instance LimitKind_eq_dec : EqDecision LimitKind.
Proof. solve_decision. Defined.

Definition LimitKind_String (k : LimitKind) : string :=
  match k with
  | LimitConnections => "connections"
  | LimitConnectionsPerPeer => "connections-per-peer"
  | LimitConnectionsPerListener => "connections-per-listener"
  | LimitHandshakes => "handshakes" | LimitUpgrades => "websocket-upgrades"
  | LimitQueuedBytes => "queued-bytes" | LimitOther _ => "unknown"
  end.

(** The session and packet families partition the named schemes. *)
Lemma session_packet_disjoint (s : Scheme) : IsSession s = true -> IsPacket s = false.
Proof. by destruct s. Qed.
