(* ===== verification/Errors.v ===== *)
(** * Errors: Go error values, [errors.Is]/[errors.As], and the typed error model

    Models transport/errors.go, transport/error_model.go, the [TimeoutError] and
    [LimitError] types and the [errors] package operations the code relies on.

    A non-nil [error] is a tree: leaves are the package-level sentinels (compared
    by identity) and errors of foreign types, inner nodes are what the code wraps
    with.  [nodes] lists a tree in the pre-order in which [errors.Is] and
    [errors.As] visit it. A Go [error] is [option error], [None] being nil. *)
From S2P Require Import Prelude Kinds.

(** System error numbers the classifier tests (and the two that report a
    timeout); [EOther] is any other one. *)
Inductive errno := ECONNREFUSED | ECONNRESET | EPIPE | ENOTCONN | EAGAIN | ETIMEDOUT
  | EOther (n : Z).
#[global] Instance errno_eq_dec : EqDecision errno.
Proof. solve_decision. Defined.

(** ** Sentinels *)
Inductive sentinel :=
  (* transport/errors.go *)
  | ErrClosed | ErrWouldBlock | ErrFrameExceedsQueueBudget | ErrNilContext | ErrNilFramer
  | ErrNilCipherFactory | ErrNilCipher | ErrConflictingCodecOptions | ErrFramerNotSupported
  | ErrInvalidFramer | ErrReadBufferFull | ErrMessageTooLarge | ErrDatagramTooLarge
  | ErrInvalidQueueSize | ErrInvalidBuffer | ErrInvalidQueuedBytes | ErrInvalidMessageSize
  | ErrInvalidDatagramSize | ErrInvalidObserverBuffer | ErrProtocolMismatch | ErrNotConnected
  | ErrPeerRequired | ErrPeerMismatch | ErrTLSConfigRequired | ErrTLSVersion
  | ErrTLSCertificateRequired | ErrInvalidTimeout | ErrInvalidWebSocketConfig
  | ErrPeerClosed | ErrConnectionRefused | ErrConnectionReset | ErrDNS | ErrTLS
  | ErrProtocolViolation
  (* transport/timeouts.go, transport/limits.go *)
  | ErrTimeout | ErrResourceExhausted | ErrInvalidLimits
  (* wire/errors.go *)
  | ErrNeedMore | ErrBadMagic | ErrUnsupportedVersion | ErrUnsupportedFlags | ErrFrameTooLarge
  | ErrMissingCipher | ErrAlgorithmMismatch | ErrTrailingData
  (* ogrenet *)
  | ErrInvalidPayloadType | ErrInvalidUTF8 | ErrInvalidEndpoint | ErrUnsupportedScheme
  | ErrMissingHost | ErrMissingPort | ErrUnexpectedPath | ErrUnexpectedQuery
  (* secure, secure/gmssl *)
  | ErrCiphertextTooShort | ErrMissingPublicKey | ErrMissingPrivateKey | ErrInvalidRSAKey
  | ErrRSAKeyTooSmall
  | GmErrGmSSL | GmErrInvalidKeySize | GmErrInvalidSM2Key | GmErrMessageTooLarge
  | GmErrCiphertextTooShort
  (* standard library *)
  | ContextCanceled | ContextDeadlineExceeded | IoEOF | IoErrNoProgress | NetErrClosed
  | Errno (e : errno) | WSAErrno (n : Z).
#[global] Instance sentinel_eq_dec : EqDecision sentinel.
Proof. solve_decision. Defined.

(** ** net.Addr *)
Record ipaddr := { ip_bytes : bytes; ip_port : Z; ip_zone : string }.
(** A pointer-typed address may hold a nil pointer. *)
Inductive net_addr :=
  | TCPAddr (a : option ipaddr)
  | UDPAddr (a : option ipaddr)
  | StaticAddr (network addr : string)
  | StaticAddrPtr (a : option (string * string))
  | OtherAddr (s : string).

(** ** Error values *)
(** The dynamic types from other packages that the code looks for. *)
Inductive foreign_type :=
  | FDNSError | FCertificateVerificationError | FUnknownAuthorityError
  | FHostnameError | FCertificateInvalidError | FOther.
#[global] Instance foreign_type_eq_dec : EqDecision foreign_type.
Proof. solve_decision. Defined.

Record foreign := {
  f_id : Z;                   (* which value *)
  f_type : foreign_type;
  f_timeout : option bool;    (* implements net.Error, with this Timeout() *)
}.

Inductive error :=
  | Sentinel (s : sentinel)
  | Errorf (text : string) (wrapped : error)        (* fmt.Errorf("...%w", wrapped) *)
  | Join (es : list error)                          (* errors.Join, nils dropped *)
  | OpError (op : Op) (protocol : Scheme) (kind : ErrorKind)
            (local remote : option net_addr) (cause : option error)      (* *Error *)
  | TimeoutError (kind : TimeoutKind) (cause : option error)
  | LimitError (kind : LimitKind) (limit : Z)
  | CategorizedCause (category : sentinel) (cause : error)
  | Foreign (f : foreign) (wrapped : list error).

Coercion Sentinel : sentinel >-> error.

(** The outcome of a fallible call: a value or a non-nil error. *)
Abbreviation result A := (A + error)%type.
Notation "'try' x ':=' e 'in' k" :=
  (match e with inl x => k | inr err => inr err end)
  (at level 200, x pattern, right associativity) : go_scope.

(** The tree in visiting order. [LimitError.Unwrap] is [ErrResourceExhausted]. *)
Fixpoint nodes (e : error) : list error :=
  e :: match e with
       | Sentinel _ => []
       | Errorf _ c => nodes c
       | Join es => flat_map nodes es
       | OpError _ _ _ _ _ c => match c with Some c => nodes c | None => [] end
       | TimeoutError _ c => match c with Some c => nodes c | None => [] end
       | LimitError _ _ => [Sentinel ErrResourceExhausted]
       | CategorizedCause _ c => nodes c
       | Foreign _ es => flat_map nodes es
       end.

(** One visited node matches the target: identity, or the type's own [Is]. *)
Definition node_is (t : sentinel) (e : error) : bool :=
  match e with
  | Sentinel s => bool_decide (s = t)
  | TimeoutError _ _ => bool_decide (t = ErrTimeout)
  | CategorizedCause c _ => bool_decide (t = c)
  | _ => false
  end.

(** [errors.Is] on a non-nil error. *)
Definition errors_Is (e : error) (t : sentinel) : bool := existsb (node_is t) (nodes e).
(** [errors.Is] on a possibly nil error. *)
Definition Is (e : option error) (t : sentinel) : bool :=
  match e with Some e => errors_Is e t | None => false end.

(** [errors.As]: the first visited node of the wanted type. *)
Definition errors_As (P : error -> bool) (e : error) : option error :=
  List.find P (nodes e).

Definition is_OpError (e : error) : bool :=
  match e with OpError _ _ _ _ _ _ => true | _ => false end.
Definition is_TimeoutError (e : error) : bool :=
  match e with TimeoutError _ _ => true | _ => false end.
Definition is_LimitError (e : error) : bool :=
  match e with LimitError _ _ => true | _ => false end.
Definition is_foreign (t : foreign_type) (e : error) : bool :=
  match e with Foreign f _ => bool_decide (f_type f = t) | _ => false end.

(** The [Timeout()] of the values that implement [net.Error]:
    [*TimeoutError], [context.DeadlineExceeded], [syscall.Errno] and foreign types. *)
Definition net_error (e : error) : option bool :=
  match e with
  | TimeoutError _ _ => Some true
  | Sentinel ContextDeadlineExceeded => Some true
  | Sentinel (Errno n) => Some (bool_decide (n = EAGAIN) || bool_decide (n = ETIMEDOUT))
  | Sentinel (WSAErrno _) => Some false     (* Winsock codes are not Go's ETIMEDOUT *)
  | Foreign f _ => f_timeout f
  | _ => None
  end.
Definition is_net_error (e : error) : bool :=
  match net_error e with Some _ => true | None => false end.

(** [errors.Join] on possibly nil arguments. *)
Definition errors_Join (es : list (option error)) : option error :=
  match omap id es with [] => None | es => Some (Join es) end.

(** ** error_model.go *)
Definition categorized (category : sentinel) (cause : option error) : error :=
  match cause with
  | None => category
  | Some c => if errors_Is c category then c else CategorizedCause category c
  end.

Definition snapshotAddr (a : option net_addr) : option net_addr :=
  match a with
  | None => None
  | Some (TCPAddr None) => None
  | Some (UDPAddr None) => None
  | Some (StaticAddrPtr None) => None
  | Some a => Some a
  end.

Definition envelopeOperational (op : Op) (protocol : Scheme) (local remote : option net_addr)
    (kind : ErrorKind) (cause : option error) : option error :=
  match cause with
  | None => None
  | Some c =>
      match errors_As is_OpError c with
      | Some _ => Some c
      | None => Some (OpError op protocol kind (snapshotAddr local) (snapshotAddr remote) (Some c))
      end
  end.

(** ** Lemmas on the visiting order *)
Lemma nodes_cons e : exists l, nodes e = e :: l.
Proof. destruct e; simpl; eauto. Qed.

Lemma nodes_self e : e ∈ nodes e.
Proof. destruct (nodes_cons e) as [l ->]. left. Qed.

Lemma errors_Is_sentinel (s : sentinel) : errors_Is s s = true.
Proof. unfold errors_Is. simpl. by rewrite bool_decide_true. Qed.

Lemma errors_Is_wrapped_op op p k l r c t :
  errors_Is c t = true -> errors_Is (OpError op p k l r (Some c)) t = true.
Proof. done. Qed.

Lemma errors_Is_op op p k l r c t :
  errors_Is (OpError op p k l r (Some c)) t = errors_Is c t.
Proof. done. Qed.

Lemma errors_Is_categorized cat c t :
  errors_Is (categorized cat (Some c)) t = bool_decide (t = cat) || errors_Is c t.
Proof.
  unfold categorized. destruct (errors_Is c cat) eqn:E.
  - case_bool_decide; subst; [by rewrite E|done].
  - unfold errors_Is at 1. simpl. done.
Qed.

Lemma errors_As_none P e : errors_As P e = None <-> forall n, n ∈ nodes e -> P n = false.
Proof.
  unfold errors_As. split.
  - intros Hf n Hn. apply list_elem_of_In in Hn. by eapply find_none.
  - intros Hall. destruct (List.find P (nodes e)) as [n|] eqn:E; [|done].
    apply find_some in E as [Hin HP]. apply list_elem_of_In in Hin.
    by rewrite (Hall _ Hin) in HP.
Qed.

Lemma errors_As_categorized P cat c :
  P (CategorizedCause cat c) = false ->
  errors_As P (categorized cat (Some c)) = errors_As P c.
Proof.
  intros HP. unfold categorized. destruct (errors_Is c cat); [done|].
  unfold errors_As. simpl. by rewrite HP.
Qed.
