(* ===== verification/Lifecycle.v ===== *)
(** * Lifecycle: the close state machine of a Session (transport/lifecycle.go)

    [goal] only grows (running, write, full, abort); an abort is won by exactly one
    caller, which publishes the terminal error before any signal can be observed.
    The six signal channels are represented by the set [l_signals] of those that are closed; each
    is closed only through its own [sync.Once], so closing is idempotent.  The
    locked section of a method and each [Once.Do] that follows it are separate
    atomic sections, so other goroutines run in between. *)
From S2P Require Import Prelude Conc Errors.
Local Open Scope go_scope.

Inductive closeGoal := closeGoalRunning | closeGoalWrite | closeGoalFull | closeGoalAbort.
#[global] Instance closeGoal_eq_dec : EqDecision closeGoal.
Proof. solve_decision. Defined.
Definition goal_rank (g : closeGoal) : Z :=
  match g with
  | closeGoalRunning => 0 | closeGoalWrite => 1 | closeGoalFull => 2 | closeGoalAbort => 3
  end.

Inductive abortReason := abortNone | abortExplicit | abortCaller | abortFailure.
#[global] Instance abortReason_eq_dec : EqDecision abortReason.
Proof. solve_decision. Defined.

(** The channels writeReq, fullReq, abortCh, readCh, writeCh, termCh. *)
Inductive signal := WriteReq | FullReq | AbortCh | ReadCh | WriteCh | TermCh.
#[global] Instance signal_eq_dec : EqDecision signal.
Proof. solve_decision. Defined.
Definition signal_code (s : signal) : nat :=
  match s with
  | WriteReq => 0 | FullReq => 1 | AbortCh => 2 | ReadCh => 3 | WriteCh => 4 | TermCh => 5
  end.
Definition signal_decode (n : nat) : signal :=
  match n with
  | 0 => WriteReq | 1 => FullReq | 2 => AbortCh | 3 => ReadCh | 4 => WriteCh | _ => TermCh
  end%nat.
#[global] Instance signal_countable : Countable signal.
Proof. refine (inj_countable' signal_code signal_decode _). by intros []. Defined.

Record sessionLifecycle := {
  l_goal : closeGoal; l_why : abortReason; l_terminal : bool; l_signals : gset signal }.

Definition newSessionLifecycle : sessionLifecycle :=
  {| l_goal := closeGoalRunning; l_why := abortNone; l_terminal := false; l_signals := ∅ |}.

Definition closed (ch : signal) (l : sessionLifecycle) : bool := bool_decide (ch ∈ l_signals l).

(** ** Critical sections *)
(** [xOnce.Do(func() { close(x) })] *)
Definition signal_once (ch : signal) (l : sessionLifecycle) : sessionLifecycle :=
  {| l_goal := l_goal l; l_why := l_why l; l_terminal := l_terminal l;
     l_signals := {[ch]} ∪ l_signals l |}.
Definition raise_goal (g : closeGoal) (l : sessionLifecycle) : sessionLifecycle :=
  {| l_goal := g; l_why := l_why l; l_terminal := l_terminal l; l_signals := l_signals l |}.
Definition set_abort (why : abortReason) (l : sessionLifecycle) : sessionLifecycle :=
  {| l_goal := closeGoalAbort; l_why := why; l_terminal := l_terminal l; l_signals := l_signals l |}.
Definition set_terminal (l : sessionLifecycle) : sessionLifecycle :=
  {| l_goal := l_goal l; l_why := l_why l; l_terminal := true; l_signals := l_signals l |}.

Section methods.
Context {S : Type} (L : lens S sessionLifecycle).

Definition once (ch : signal) : prog S unit :=
  atomically (fun s => (over L (signal_once ch) s, tt)).

Definition requestWithPrevious (goal : closeGoal) : prog S (bool * closeGoal) :=
  if (goal_rank goal <=? goal_rank closeGoalRunning)
     || (goal_rank goal >=? goal_rank closeGoalAbort)
  then mret (false, closeGoalRunning)
  else
    r ← atomically (fun s =>
          let l := lget L s in
          if l_terminal l || (goal_rank (l_goal l) >=? goal_rank goal)
          then (s, (false, l_goal l))
          else (over L (raise_goal goal) s, (true, l_goal l)));
    if negb r.1 then mret (false, r.2)
    else
      once WriteReq ≫= fun _ =>
      (if goal_rank goal >=? goal_rank closeGoalFull then once FullReq else mret tt) ≫= fun _ =>
      mret (true, r.2).

Definition request (goal : closeGoal) : prog S bool :=
  r ← requestWithPrevious goal; mret r.1.

Definition markReadClosed : prog S unit := once ReadCh.
Definition markWriteClosed : prog S unit := once WriteCh.

(** [publish] runs inside the locked section of the winning abort. *)
Definition abortWith (reason : abortReason) (publish : S -> S) : prog S bool :=
  won ← atomically (fun s =>
          let l := lget L s in
          if l_terminal l || bool_decide (l_goal l = closeGoalAbort) then (s, false)
          else (publish (over L (set_abort reason) s), true));
  if negb won then mret false
  else
    once WriteReq ≫= fun _ => once FullReq ≫= fun _ => once AbortCh ≫= fun _ =>
    markReadClosed ≫= fun _ => markWriteClosed ≫= fun _ => mret true.

Definition reason (s : S) : abortReason := l_why (lget L s).

Definition markTerminalChannels : prog S unit :=
  markReadClosed ≫= fun _ => markWriteClosed ≫= fun _ => once TermCh.

Definition tryMarkTerminal : prog S bool :=
  ok ← atomically (fun s =>
         let l := lget L s in
         if l_terminal l || bool_decide (l_goal l = closeGoalAbort) then (s, false)
         else (over L set_terminal s, true));
  if negb ok then mret false else markTerminalChannels ≫= fun _ => mret true.

Definition markTerminal : prog S unit :=
  atomically (fun s =>
    (if l_terminal (lget L s) then s else over L set_terminal s, tt)) ≫= fun _ =>
  markTerminalChannels.
End methods.

(** ** Goroutines sharing one lifecycle

    The shared state adds the session's terminal error, which a winning abort
    publishes, and a log of the results the abort calls returned. *)
Record lifeState := { ls_life : sessionLifecycle; ls_err : option error; ls_log : list bool }.
Definition life_lens : lens lifeState sessionLifecycle :=
  {| lget := ls_life;
     lset := fun l s => {| ls_life := l; ls_err := ls_err s; ls_log := ls_log s |} |}.
Definition publish_err (e : option error) (s : lifeState) : lifeState :=
  {| ls_life := ls_life s; ls_err := e; ls_log := ls_log s |}.
Definition init_state : lifeState :=
  {| ls_life := newSessionLifecycle; ls_err := None; ls_log := [] |}.

Inductive life_op :=
  | Request (g : closeGoal)
  | Abort (explicit : abortReason) (cause : option error)
  | TryTerminal
  | Terminal
  | ReadClosed
  | WriteClosed.

Definition life_op_prog (o : life_op) : prog lifeState unit :=
  match o with
  | Request g => request life_lens g ≫= fun _ => mret tt
  | Abort r e =>
      won ← abortWith life_lens r (publish_err e);
      atomically (fun s => ({| ls_life := ls_life s; ls_err := ls_err s;
                               ls_log := won :: ls_log s |}, tt))
  | TryTerminal => tryMarkTerminal life_lens ≫= fun _ => mret tt
  | Terminal => markTerminal life_lens
  | ReadClosed => markReadClosed life_lens
  | WriteClosed => markWriteClosed life_lens
  end.
Fixpoint life_goroutine (ops : list life_op) : prog lifeState unit :=
  match ops with
  | [] => mret tt
  | o :: rest => life_op_prog o ≫= fun _ => life_goroutine rest
  end.
(** The code never aborts with the zero reason. *)
Definition reasoned (o : life_op) : bool :=
  match o with Abort abortNone _ => false | _ => true end.

(** ** Invariant

    A goroutine owns debts (signals it has still to close), knowledge (signals it
    has closed) and the victory of an abort it has not yet reported. *)
Inductive tok := Debt (ch : signal) | Know (ch : signal) | Won.
#[global] Instance tok_eq_dec : EqDecision tok.
Proof. solve_decision. Defined.
#[global] Instance tok_countable : Countable tok.
Proof.
  refine (inj_countable'
    (fun t => match t with Debt c => inl c | Know c => inr (Some c) | Won => inr None end)
    (fun x => match x with inl c => Debt c | inr (Some c) => Know c | inr None => Won end) _).
  by intros [].
Defined.

(** What the goal and the terminal flag oblige some goroutine to signal. *)
Definition must (l : sessionLifecycle) (ch : signal) : Prop :=
  match ch with
  | WriteReq => 1 <= goal_rank (l_goal l)
  | FullReq => 2 <= goal_rank (l_goal l)
  | AbortCh => l_goal l = closeGoalAbort
  | ReadCh | WriteCh => l_goal l = closeGoalAbort \/ l_terminal l = true
  | TermCh => l_terminal l = true
  end.
(** What an observer of a closed signal may conclude. *)
Definition sound (l : sessionLifecycle) (ch : signal) : Prop :=
  match ch with
  | WriteReq => 1 <= goal_rank (l_goal l)
  | FullReq => 2 <= goal_rank (l_goal l)
  | AbortCh => l_goal l = closeGoalAbort
  | ReadCh | WriteCh => True
  | TermCh => l_terminal l = true /\ ReadCh ∈ l_signals l /\ WriteCh ∈ l_signals l
  end.
Definition aborted (l : sessionLifecycle) : nat :=
  if decide (l_goal l = closeGoalAbort) then 1%nat else 0%nat.

Record life_inv (s : lifeState) (m : gmultiset tok) : Prop := {
  inv_debt : forall ch, Debt ch ∈ m -> must (ls_life s) ch;
  inv_must : forall ch, must (ls_life s) ch -> ch ∈ l_signals (ls_life s) \/ Debt ch ∈ m;
  inv_know : forall ch, Know ch ∈ m -> ch ∈ l_signals (ls_life s);
  inv_sound : forall ch, ch ∈ l_signals (ls_life s) -> sound (ls_life s) ch;
  inv_why : l_why (ls_life s) <> abortNone <-> l_goal (ls_life s) = closeGoalAbort;
  inv_won : (multiplicity Won m + count_occ Bool.bool_dec (ls_log s) true)%nat
            = aborted (ls_life s);
}.
Definition never : lifeState -> gmultiset tok -> Prop := fun _ _ => False.

Lemma must_sound l ch :
  must l ch -> (ch = TermCh -> ReadCh ∈ l_signals l /\ WriteCh ∈ l_signals l) -> sound l ch.
Proof. destruct ch; simpl; auto. Qed.

Lemma must_signal l ch c : must (signal_once c l) ch <-> must l ch.
Proof. by destruct ch. Qed.
Lemma sound_signal l ch c : sound l ch -> sound (signal_once c l) ch.
Proof. destruct ch; simpl; try done. intros (? & ? & ?). split_and!; [done|set_solver..]. Qed.

(** Closing a signal keeps the invariant when it may be closed. *)
Lemma inv_signal s m ch :
  life_inv s m -> sound (ls_life s) ch -> life_inv (over life_lens (signal_once ch) s) m.
Proof.
  intros [Hd Hm Hk Hs Hw Hn] Hch. split; cbn -[must sound]; try done.
  - intros c Hc. rewrite must_signal in Hc. destruct (Hm c Hc); [left; set_solver | by right].
  - intros c Hc%Hk. set_solver.
  - intros c [->%elem_of_singleton|Hc%Hs]%elem_of_union; by apply sound_signal.
Qed.

(** Giving up tokens other than [Won]: a debt once the signal is closed. *)
Lemma inv_swap s m m' F :
  life_inv s (m ⊎ F) ->
  multiplicity Won m' = multiplicity Won m ->
  (forall ch, Debt ch ∈ m' -> must (ls_life s) ch) ->
  (forall ch, Debt ch ∈ m -> ch ∈ l_signals (ls_life s) \/ Debt ch ∈ m') ->
  (forall ch, Know ch ∈ m' -> ch ∈ l_signals (ls_life s)) ->
  life_inv s (m' ⊎ F).
Proof.
  intros [Hd Hm Hk Hs Hw Hn] HW HD HD' HK. split; try done.
  - intros ch [?|?]%gmultiset_elem_of_disj_union; [auto|].
    apply Hd, gmultiset_elem_of_disj_union. auto.
  - intros ch Hch. destruct (Hm ch Hch) as [?|[Hc|?]%gmultiset_elem_of_disj_union]; [auto| |].
    + destruct (HD' ch Hc); [auto|]. right. apply gmultiset_elem_of_disj_union. auto.
    + right. apply gmultiset_elem_of_disj_union. auto.
  - intros ch [?|?]%gmultiset_elem_of_disj_union; [auto|].
    apply Hk, gmultiset_elem_of_disj_union. auto.
  - rewrite multiplicity_disj_union in *. lia.
Qed.

Ltac mem := rewrite ?gmultiset_elem_of_disj_union, ?gmultiset_elem_of_singleton; auto.

(** Paying a debt. *)
Lemma wp_once_debt ch m (Q : unit -> gmultiset tok -> Prop) :
  (ch = TermCh -> Know ReadCh ∈ m /\ Know WriteCh ∈ m) ->
  Q tt ({[+ Know ch +]} ⊎ m) ->
  wp life_inv never (once life_lens ch) ({[+ Debt ch +]} ⊎ m) Q.
Proof.
  intros Ht HQ. apply wp_atomically. intros s F HI. exists ({[+ Know ch +]} ⊎ m).
  split; [|done]. simpl in *.
  assert (life_inv (over life_lens (signal_once ch) s) ({[+ Debt ch +]} ⊎ m ⊎ F)) as HI'.
  { apply inv_signal; [done|]. destruct HI as [Hd _ Hk _ _ _]. apply must_sound.
    - apply Hd. mem.
    - intros [? ?]%Ht. split; apply Hk; mem. }
  eapply inv_swap; [exact HI'|..].
  - rewrite !multiplicity_disj_union, !multiplicity_singleton_ne by done. done.
  - intros c Hc. eapply inv_debt; [exact HI'|]. revert Hc. mem. intros [?|?]; [done|auto].
  - intros c. mem. intros [[= ->]|?]; [left; simpl; set_solver | right; auto].
  - intros c. mem. intros [[= ->]|?]; [simpl; set_solver | eapply inv_know; [exact HI'|]; mem].
Qed.

(** Closing a half is always allowed. *)
Lemma wp_once_free ch m (Q : unit -> gmultiset tok -> Prop) :
  ch = ReadCh \/ ch = WriteCh -> Q tt m -> wp life_inv never (once life_lens ch) m Q.
Proof.
  intros Hch HQ. apply wp_atomically. intros s F HI. exists m. split; [|done].
  apply inv_signal; [done|]. by destruct Hch as [-> | ->].
Qed.

(** A goroutine between two calls owns no debt and no unreported victory. *)
Definition settled (m : gmultiset tok) : Prop := Won ∉ m /\ forall ch, Debt ch ∉ m.

Lemma settled_know ch m : settled m -> settled ({[+ Know ch +]} ⊎ m).
Proof.
  intros [HW HD]. split; [|intros c];
    rewrite gmultiset_elem_of_disj_union, gmultiset_elem_of_singleton; naive_solver.
Qed.
#[local] Hint Resolve settled_know : go.

Lemma wp_pay ch m m0 (Q : unit -> gmultiset tok -> Prop) :
  m = {[+ Debt ch +]} ⊎ m0 ->
  (ch = TermCh -> Know ReadCh ∈ m0 /\ Know WriteCh ∈ m0) ->
  Q tt ({[+ Know ch +]} ⊎ m0) ->
  wp life_inv never (once life_lens ch) m Q.
Proof. intros ->. apply wp_once_debt. Qed.

Lemma must_raise l g ch :
  goal_rank (l_goal l) < goal_rank g -> must l ch -> must (raise_goal g l) ch.
Proof.
  destruct ch; simpl; try lia; destruct (l_goal l), g; simpl; try lia; naive_solver.
Qed.
Lemma must_abort l why ch : must l ch -> must (set_abort why l) ch.
Proof. destruct ch; simpl; try lia; destruct (l_goal l); simpl; auto; lia. Qed.
Lemma must_terminal l ch : must l ch -> must (set_terminal l) ch.
Proof. destruct ch; simpl; auto. Qed.
Lemma sound_raise l g ch :
  goal_rank (l_goal l) < goal_rank g -> sound l ch -> sound (raise_goal g l) ch.
Proof. destruct ch; simpl; try lia; destruct (l_goal l), g; simpl; try lia; naive_solver. Qed.
Lemma sound_abort l why ch : sound l ch -> sound (set_abort why l) ch.
Proof. destruct ch; simpl; try lia; destruct (l_goal l); simpl; auto; lia. Qed.
Lemma sound_terminal l ch : sound l ch -> sound (set_terminal l) ch.
Proof. destruct ch; simpl; auto. naive_solver. Qed.

(** Changing goal or terminal flag while taking on the debts this creates. *)
Lemma inv_change s s' m F D :
  life_inv s (m ⊎ F) ->
  l_signals (ls_life s') = l_signals (ls_life s) ->
  (forall ch, must (ls_life s) ch -> must (ls_life s') ch) ->
  (forall ch, sound (ls_life s) ch -> sound (ls_life s') ch) ->
  (l_why (ls_life s') <> abortNone <-> l_goal (ls_life s') = closeGoalAbort) ->
  (forall ch, Debt ch ∈ D -> must (ls_life s') ch) ->
  (forall ch, must (ls_life s') ch -> must (ls_life s) ch \/ Debt ch ∈ D) ->
  (forall ch, Know ch ∉ D) ->
  (multiplicity Won D + aborted (ls_life s))%nat = aborted (ls_life s') ->
  ls_log s' = ls_log s ->
  life_inv s' (D ⊎ m ⊎ F).
Proof.
  intros [Hd Hm Hk Hs Hw Hn] HS HM HSo HW HD HMD HK HN HL. split.
  - intros ch. rewrite <- (assoc_L (⊎)), gmultiset_elem_of_disj_union. intros [?|?]; auto.
  - intros ch Hch. rewrite HS, <- (assoc_L (⊎)), gmultiset_elem_of_disj_union.
    destruct (HMD ch Hch) as [Hch'|?]; [|auto]. destruct (Hm ch Hch'); auto.
  - intros ch. rewrite HS, <- (assoc_L (⊎)), gmultiset_elem_of_disj_union.
    intros [?|?]; [by destruct (HK ch)|auto].
  - intros ch. rewrite HS. auto.
  - done.
  - rewrite <- (assoc_L (⊎)), multiplicity_disj_union, HL. lia.
Qed.

Ltac toks := rewrite ?gmultiset_elem_of_disj_union, ?gmultiset_elem_of_singleton; naive_solver.

Definition request_debts (g : closeGoal) : gmultiset tok :=
  if goal_rank g >=? goal_rank closeGoalFull
  then {[+ Debt WriteReq; Debt FullReq +]} else {[+ Debt WriteReq +]}.
Definition abort_debts : gmultiset tok :=
  {[+ Debt WriteReq; Debt FullReq; Debt AbortCh; Debt ReadCh; Debt WriteCh; Won +]}.
Definition terminal_debts : gmultiset tok :=
  {[+ Debt ReadCh; Debt WriteCh; Debt TermCh +]}.

(** *** The locked sections *)
Ltac case_tok H :=
  unfold request_debts, abort_debts, terminal_debts in H; simpl in H;
  rewrite ?gmultiset_elem_of_disj_union, ?gmultiset_elem_of_singleton in H.

Lemma request_section_inv g s m F :
  g = closeGoalWrite \/ g = closeGoalFull ->
  goal_rank (l_goal (ls_life s)) < goal_rank g ->
  life_inv s (m ⊎ F) ->
  life_inv (over life_lens (raise_goal g) s) (request_debts g ⊎ m ⊎ F).
Proof.
  intros Hg Hlt HI. eapply inv_change; [exact HI|done|..].
  - intros ch. by apply must_raise.
  - intros ch. by apply sound_raise.
  - destruct HI as [_ _ _ _ Hw _]. simpl.
    destruct (l_goal (ls_life s)), Hg as [-> | ->]; simpl in *; naive_solver lia.
  - intros ch Hch. destruct Hg as [-> | ->]; case_tok Hch; destruct_or?; simplify_eq; simpl; lia.
  - intros ch Hch. unfold request_debts.
    destruct Hg as [-> | ->], ch; simpl in *; (exfalso; lia) || toks.
  - intros ch Hch. destruct Hg as [-> | ->]; case_tok Hch; naive_solver.
  - unfold aborted. simpl. destruct Hg as [-> | ->]; simpl in *;
      rewrite decide_False by (intros E; rewrite E in Hlt; simpl in Hlt; lia);
      unfold request_debts; simpl; multiset_solver.
  - done.
Qed.

Lemma abort_section_inv why e s m F :
  why <> abortNone -> l_goal (ls_life s) <> closeGoalAbort ->
  life_inv s (m ⊎ F) ->
  life_inv (publish_err e (over life_lens (set_abort why) s)) (abort_debts ⊎ m ⊎ F).
Proof.
  intros Hwhy Hg HI. eapply inv_change; [exact HI|done|..]; simpl.
  - intros ch. by apply must_abort.
  - intros ch. by apply sound_abort.
  - done.
  - intros ch Hch. case_tok Hch. destruct_or?; simplify_eq; simpl; auto; lia.
  - intros [] Hch; simpl in *; unfold abort_debts; (left; exact Hch) || (right; toks).
  - intros ch Hch. case_tok Hch. naive_solver.
  - unfold aborted. simpl. rewrite decide_False by done. unfold abort_debts. multiset_solver.
  - done.
Qed.

Lemma terminal_section_inv s m F :
  life_inv s (m ⊎ F) ->
  life_inv (over life_lens set_terminal s) (terminal_debts ⊎ m ⊎ F).
Proof.
  intros HI. eapply inv_change; [exact HI|done|..]; simpl.
  - intros ch. by apply must_terminal.
  - intros ch. by apply sound_terminal.
  - by destruct HI.
  - intros ch Hch. case_tok Hch. destruct_or?; simplify_eq; simpl; auto.
  - intros [] Hch; simpl in *; unfold terminal_debts; (left; exact Hch) || (right; toks).
  - intros ch Hch. case_tok Hch. naive_solver.
  - unfold aborted, terminal_debts. simpl. destruct (decide _); multiset_solver.
  - done.
Qed.

(** *** The methods

    A goroutine pays the debts of its section in the order of the [Once.Do]s. *)
Definition debts (chs : list signal) : gmultiset tok := list_to_set_disj (Debt <$> chs).

Lemma wp_pay_next ch chs m (Q : unit -> gmultiset tok -> Prop) :
  (ch = TermCh -> Know ReadCh ∈ m /\ Know WriteCh ∈ m) ->
  Q tt (debts chs ⊎ ({[+ Know ch +]} ⊎ m)) ->
  wp life_inv never (once life_lens ch) (debts (ch :: chs) ⊎ m) Q.
Proof.
  intros Ht HQ. apply (wp_pay _ _ (debts chs ⊎ m)).
  - unfold debts. simpl. multiset_solver.
  - intros [? ?]%Ht. mem.
  - by replace ({[+ Know ch +]} ⊎ (debts chs ⊎ m)) with (debts chs ⊎ ({[+ Know ch +]} ⊎ m))
      by multiset_solver.
Qed.

Lemma settled_nil : settled ∅.
Proof. split; [|intros ch]; multiset_solver. Qed.

Lemma request_debts_list g m :
  request_debts g ⊎ m
  = debts (WriteReq :: if goal_rank g >=? goal_rank closeGoalFull then [FullReq] else []) ⊎ m.
Proof. unfold request_debts, debts. destruct (_ >=? _); simpl; multiset_solver. Qed.
Lemma abort_debts_list m :
  abort_debts ⊎ m = debts [WriteReq; FullReq; AbortCh; ReadCh; WriteCh] ⊎ ({[+ Won +]} ⊎ m).
Proof. unfold abort_debts, debts. simpl. multiset_solver. Qed.
Lemma terminal_debts_list m : terminal_debts ⊎ m = debts [ReadCh; WriteCh; TermCh] ⊎ m.
Proof. unfold terminal_debts, debts. simpl. multiset_solver. Qed.
Lemma debts_nil m : debts [] ⊎ m = m.
Proof. unfold debts. simpl. multiset_solver. Qed.

Ltac pay := apply wp_pay_next; [try done | ].
Ltac pay_bind := apply wp_bind; pay.

(** Signalling the request, after the section that raised the goal. *)
Lemma wp_request_tail g prev m (Q : bool * closeGoal -> gmultiset tok -> Prop) :
  settled m -> (forall m', settled m' -> Q (true, prev) m') ->
  wp life_inv never
    (once life_lens WriteReq ≫= fun _ =>
     (if goal_rank g >=? goal_rank closeGoalFull then once life_lens FullReq else mret tt) ≫= fun _ => mret (true, prev))
    (request_debts g ⊎ m) Q.
Proof.
  intros Hm HQ. rewrite request_debts_list. pay_bind. apply wp_bind.
  destruct (goal_rank g >=? goal_rank closeGoalFull).
  - pay. rewrite debts_nil. apply HQ. auto with go.
  - apply wp_ret. rewrite debts_nil. apply HQ. auto with go.
Qed.
Lemma wp_requestWithPrevious g m (Q : bool * closeGoal -> gmultiset tok -> Prop) :
  settled m -> (forall r m', settled m' -> Q r m') ->
  wp life_inv never (requestWithPrevious life_lens g) m Q.
Proof.
  intros Hm HQ. unfold requestWithPrevious.
  destruct (_ || _) eqn:Hg; [apply wp_ret; by apply HQ|].
  assert (g = closeGoalWrite \/ g = closeGoalFull) as Hg' by (destruct g; naive_solver). clear Hg.
  apply wp_bind, wp_section. intros s F s' r HI. cbv zeta.
  destruct (_ || _) eqn:Hc; intros [= <- <-].
  { exists m. split; [done|]. by apply HQ. }
  apply orb_false_elim in Hc as [_ Hc]. rewrite Z.geb_leb in Hc. apply Z.leb_gt in Hc.
  exists (request_debts g ⊎ m). split; [by apply request_section_inv|].
  apply wp_request_tail; [done|]. intros. by apply HQ.
Qed.
Lemma wp_request g m (Q : bool -> gmultiset tok -> Prop) :
  settled m -> (forall r m', settled m' -> Q r m') ->
  wp life_inv never (request life_lens g) m Q.
Proof. intros Hm HQ. apply wp_bind, wp_requestWithPrevious; [done|]. intros. by apply HQ. Qed.

(** The caller leaves knowing that the write half is closed. *)
Lemma wp_terminal_channels m (Q : unit -> gmultiset tok -> Prop) :
  settled m -> (forall m', settled m' -> Know WriteCh ∈ m' -> Q tt m') ->
  wp life_inv never (markTerminalChannels life_lens) (terminal_debts ⊎ m) Q.
Proof.
  intros Hm HQ. rewrite terminal_debts_list. unfold markTerminalChannels, markReadClosed, markWriteClosed.
  do 2 pay_bind. pay; [intros _; mem|]. rewrite debts_nil. apply HQ; [auto with go|mem].
Qed.

(** Marking an already terminal lifecycle again finds its debts taken on. *)
Lemma terminal_again s m F :
  l_terminal (ls_life s) = true -> life_inv s (m ⊎ F) -> life_inv s (terminal_debts ⊎ m ⊎ F).
Proof.
  intros Ht HI. replace s with (over life_lens set_terminal s); [by apply terminal_section_inv|].
  destruct s as [[g w t sg] e lg]. simpl in *. by subst.
Qed.

Lemma wp_tryMarkTerminal m (Q : bool -> gmultiset tok -> Prop) :
  settled m -> (forall r m', settled m' -> Q r m') ->
  wp life_inv never (tryMarkTerminal life_lens) m Q.
Proof.
  intros Hm HQ. apply wp_bind, wp_section. intros s F s' r HI. cbv zeta.
  destruct (_ || _); intros [= <- <-].
  - exists m. split; [done|]. by apply HQ.
  - exists (terminal_debts ⊎ m). split; [by apply terminal_section_inv|].
    apply wp_bind, wp_terminal_channels; [done|]. intros. by apply HQ.
Qed.

Lemma wp_markTerminal m (Q : unit -> gmultiset tok -> Prop) :
  settled m -> (forall m', settled m' -> Know WriteCh ∈ m' -> Q tt m') ->
  wp life_inv never (markTerminal life_lens) m Q.
Proof.
  intros Hm HQ. apply wp_bind, wp_section. intros s F s' r HI [= <- <-].
  exists (terminal_debts ⊎ m). split; [|by apply wp_terminal_channels].
  destruct (l_terminal _) eqn:E; [by apply terminal_again | by apply terminal_section_inv].
Qed.

(** The winner of an abort leaves the call owning its unreported victory. *)
Lemma wp_abort_tail m (Q : bool -> gmultiset tok -> Prop) :
  settled m -> (forall m', settled m' -> Q true ({[+ Won +]} ⊎ m')) ->
  wp life_inv never
    (once life_lens WriteReq ≫= fun _ => once life_lens FullReq ≫= fun _ => once life_lens AbortCh ≫= fun _ =>
     markReadClosed life_lens ≫= fun _ => markWriteClosed life_lens ≫= fun _ => mret true)
    (abort_debts ⊎ m) Q.
Proof.
  intros Hm HT. rewrite abort_debts_list. unfold markReadClosed, markWriteClosed. do 5 pay_bind. apply wp_ret.
  rewrite debts_nil.
  match goal with |- Q true ?m1 => replace m1 with ({[+ Won +]} ⊎ ({[+ Know WriteCh +]} ⊎
    ({[+ Know ReadCh +]} ⊎ ({[+ Know AbortCh +]} ⊎ ({[+ Know FullReq +]} ⊎ ({[+ Know WriteReq +]} ⊎ m))))))
    by multiset_solver end.
  apply HT. auto 10 with go.
Qed.
Lemma wp_abortWith why e m (Q : bool -> gmultiset tok -> Prop) :
  why <> abortNone -> settled m ->
  (forall m', settled m' -> Q false m') ->
  (forall m', settled m' -> Q true ({[+ Won +]} ⊎ m')) ->
  wp life_inv never (abortWith life_lens why (publish_err e)) m Q.
Proof.
  intros Hwhy Hm HF HT. apply wp_bind, wp_section. intros s F s' r HI. cbv zeta.
  destruct (_ || _) eqn:Hc; intros [= <- <-].
  { exists m. split; [done|]. by apply HF. }
  apply orb_false_elim in Hc as [_ Hc%bool_decide_eq_false].
  exists (abort_debts ⊎ m). split; [by apply abort_section_inv|]. by apply wp_abort_tail.
Qed.

(** Reporting a victory trades it for an entry of the log. *)
Lemma inv_report s m :
  life_inv s ({[+ Won +]} ⊎ m) ->
  life_inv {| ls_life := ls_life s; ls_err := ls_err s; ls_log := true :: ls_log s |} m.
Proof.
  intros [Hd Hm Hk Hs Hw Hn]. split; simpl; try done.
  - intros ch Hch. apply Hd. multiset_solver.
  - intros ch Hch. destruct (Hm ch Hch); [auto|right; multiset_solver].
  - intros ch Hch. apply Hk. multiset_solver.
  - rewrite <- Hn. rewrite !multiplicity_disj_union, multiplicity_singleton. rewrite decide_True by done. lia.
Qed.
(** Whoever sees a closed signal may remember it. *)
Lemma inv_learn s m ch :
  life_inv s m -> ch ∈ l_signals (ls_life s) -> life_inv s ({[+ Know ch +]} ⊎ m).
Proof.
  intros HI Hch. rewrite <- (left_id_L ∅ (⊎) m) in HI.
  eapply inv_swap; [exact HI|..].
  - by rewrite multiplicity_singleton_ne.
  - intros c. rewrite gmultiset_elem_of_singleton. done.
  - intros c Hc. multiset_solver.
  - intros c. rewrite gmultiset_elem_of_singleton. by intros [= ->].
Qed.

Lemma wp_report won m (Q : unit -> gmultiset tok -> Prop) :
  Q tt m ->
  wp life_inv never
    (atomically (fun s => ({| ls_life := ls_life s; ls_err := ls_err s;
                              ls_log := won :: ls_log s |}, tt)))
    (if won : bool then {[+ Won +]} ⊎ m else m) Q.
Proof.
  intros HQ. apply wp_atomically. intros s F HI. exists m. split; [|done]. simpl in *.
  destruct won; [|by destruct HI; split].
  rewrite <- (assoc_L (⊎)) in HI. by apply inv_report.
Qed.

Lemma wp_life_op o m (Q : unit -> gmultiset tok -> Prop) :
  reasoned o = true -> settled m -> (forall m', settled m' -> Q tt m') ->
  wp life_inv never (life_op_prog o) m Q.
Proof.
  intros Hr Hm HQ. destruct o as [g|why e| | | |]; unfold life_op_prog.
  - apply wp_bind, wp_request; [done|]. intros. by apply HQ.
  - apply wp_bind, wp_abortWith; [by destruct why|done|..]; intros m' Hm'.
    + apply (wp_report false). auto.
    + apply (wp_report true). auto.
  - apply wp_bind, wp_tryMarkTerminal; [done|]. intros. by apply HQ.
  - apply wp_markTerminal; [done|]. auto.
  - apply wp_once_free; auto.
  - apply wp_once_free; auto.
Qed.

Lemma wp_life_goroutine ops m :
  forallb reasoned ops = true -> settled m ->
  wp life_inv never (life_goroutine ops) m (fun _ => settled).
Proof.
  revert m. induction ops as [|o ops IH]; intros m Hr Hm; [done|].
  apply andb_true_iff in Hr as [Ho Hr]. cbn [life_goroutine].
  apply wp_bind, wp_life_op; [done..|]. intros. by apply IH.
Qed.

(** *** Monotonicity *)
Definition outcomes (ops : list life_op) : list (abortReason * option error) :=
  omap (fun o => match o with Abort why e => Some (why, e) | _ => None end) ops.

Record life_mono (allowed : list (abortReason * option error)) (s s' : lifeState) : Prop := {
  mono_goal : goal_rank (l_goal (ls_life s)) <= goal_rank (l_goal (ls_life s'));
  mono_terminal : l_terminal (ls_life s) = true -> l_terminal (ls_life s') = true;
  mono_signals : l_signals (ls_life s) ⊆ l_signals (ls_life s');
  mono_outcome : l_goal (ls_life s) = closeGoalAbort ->
    l_goal (ls_life s') = closeGoalAbort /\
    l_why (ls_life s') = l_why (ls_life s) /\ ls_err s' = ls_err s;
  mono_allowed : (l_why (ls_life s'), ls_err s') = (l_why (ls_life s), ls_err s)
    \/ (l_why (ls_life s'), ls_err s') ∈ allowed;
}.
#[global] Instance life_mono_preorder al : PreOrder (life_mono al).
Proof.
  split.
  - intros s. split; auto; lia.
  - intros a b c [g1 t1 s1 o1 a1] [g2 t2 s2 o2 a2]. split; [lia|auto|set_solver| |].
    + intros (? & ? & ?)%o1. destruct o2 as (? & ? & ?); [done|]. split_and!; congruence.
    + destruct a2 as [->|?]; auto.
Qed.

Lemma signal_mono al ch s : life_mono al s (over life_lens (signal_once ch) s).
Proof. split; simpl; auto; lia || set_solver. Qed.
Lemma once_mono al ch : respects (life_mono al) (once life_lens ch).
Proof. apply respects_atomically. intros s. apply signal_mono. Qed.
Lemma raise_mono al g s :
  goal_rank (l_goal (ls_life s)) < goal_rank g -> g <> closeGoalAbort ->
  life_mono al s (over life_lens (raise_goal g) s).
Proof.
  intros Hlt Hg. split; simpl; auto; try lia.
  intros E. rewrite E in Hlt. destruct g; simpl in Hlt; done || lia.
Qed.
Lemma abort_mono al why e s :
  (why, e) ∈ al -> l_goal (ls_life s) <> closeGoalAbort ->
  life_mono al s (publish_err e (over life_lens (set_abort why) s)).
Proof.
  intros Hin Hg. split; simpl; auto; try done. destruct (l_goal (ls_life s)); simpl; lia.
Qed.
Lemma terminal_mono al s : life_mono al s (over life_lens set_terminal s).
Proof. split; simpl; auto; lia. Qed.
Lemma terminal_channels_mono al : respects (life_mono al) (markTerminalChannels life_lens).
Proof. unfold markTerminalChannels. repeat (apply respects_bind; [apply once_mono|intros _]). apply once_mono. Qed.
#[local] Hint Resolve once_mono raise_mono abort_mono terminal_mono terminal_channels_mono : go.

Lemma request_mono al g : respects (life_mono al) (request life_lens g).
Proof.
  apply respects_bind; [|done]. unfold requestWithPrevious.
  destruct (_ || _) eqn:Hg; [done|]. apply respects_bind.
  - apply respects_atomically. intros s. cbv zeta. case_match eqn:Hc; [reflexivity|].
    apply raise_mono; [|by intros ->].
    apply orb_false_elim in Hc as [_ Hc]. rewrite Z.geb_leb in Hc. by apply Z.leb_gt in Hc.
  - intros [[] ?]; [|done]. unfold fst, snd, negb. apply respects_bind; [apply once_mono|]. intros _.
    apply respects_bind; [|done]. clear Hg. destruct (_ >=? _); [apply once_mono | done].
Qed.

Lemma abortWith_mono al why e :
  (why, e) ∈ al -> respects (life_mono al) (abortWith life_lens why (publish_err e)).
Proof.
  intros Hin. apply respects_bind.
  - apply respects_atomically. intros s. cbv zeta. case_match eqn:Hc; [reflexivity|].
    apply orb_false_elim in Hc as [_ Hc%bool_decide_eq_false]. by apply abort_mono.
  - intros []; [|done]. unfold negb.
    repeat (apply respects_bind; [apply once_mono|intros _]). done.
Qed.

Lemma life_op_mono al o :
  (forall why e, o = Abort why e -> (why, e) ∈ al) -> respects (life_mono al) (life_op_prog o).
Proof.
  intros Hal. destruct o as [g|why e| | | |]; unfold life_op_prog; try apply once_mono.
  - apply respects_bind; [apply request_mono|done].
  - apply respects_bind; [by apply abortWith_mono, Hal|]. intros b.
    apply respects_atomically. intros s. split; simpl; auto; lia.
  - apply respects_bind; [|done]. apply respects_bind.
    + apply respects_atomically. intros s. cbv zeta. case_match; [reflexivity|apply terminal_mono].
    + intros []; [|done]. apply respects_bind; [apply terminal_channels_mono|done].
  - apply respects_bind; [|intros _; apply terminal_channels_mono].
    apply respects_atomically. intros s. simpl. case_match; [reflexivity|apply terminal_mono].
Qed.

Lemma life_goroutine_mono al ops :
  (forall x, x ∈ outcomes ops -> x ∈ al) -> respects (life_mono al) (life_goroutine ops).
Proof.
  induction ops as [|o ops IH]; intros Hal; [done|]. cbn [life_goroutine].
  apply respects_bind.
  - apply life_op_mono. intros why e ->. apply Hal. unfold outcomes. simpl. left.
  - intros _. apply IH. intros x Hx. apply Hal. unfold outcomes. simpl. case_match; [by right|done].
Qed.

(** ** Reachable states *)
Definition life_pool (opss : list (list life_op)) : pool lifeState :=
  (init_state, life_goroutine <$> opss).
Definition all_reasoned (opss : list (list life_op)) : bool := forallb (forallb reasoned) opss.

Lemma life_inv_init : life_inv init_state ∅.
Proof.
  split; simpl; try done; intros ch Hch; [multiset_solver|destruct ch; simpl in *; naive_solver lia|].
  multiset_solver.
Qed.

Lemma life_pool_ok opss c :
  all_reasoned opss = true -> rtc pstep (life_pool opss) c -> pool_ok life_inv never settled c.
Proof.
  intros Hr. apply wp_adequate_nil.
  - apply life_inv_init.
  - apply Forall_fmap, Forall_forall. intros ops Hin. apply wp_life_goroutine; [|apply settled_nil].
    unfold all_reasoned in Hr. rewrite forallb_forall in Hr. by apply Hr.
Qed.

Lemma settled_gsum ms : Forall settled ms -> settled (gsum ms).
Proof.
  induction 1 as [|m ms [HW HD] _ [IHW IHD]]; simpl; [apply settled_nil|].
  split; [|intros ch]; rewrite gmultiset_elem_of_disj_union; naive_solver.
Qed.

(** ** Properties *)

(** What any goroutine can conclude at any moment from what it observes: a closed
    signal implies the goal it stands for, a closed [termCh] implies that both
    halves were closed before it, an abort has a reason exactly when the goal is
    abort, and at most one abort call has won, which one has only if the goal is
    abort. *)
Theorem lifecycle_signals_sound (opss : list (list life_op)) c :
  all_reasoned opss = true -> rtc pstep (life_pool opss) c ->
  (forall ch, closed ch (ls_life c.1) = true -> sound (ls_life c.1) ch) /\
  (reason life_lens c.1 <> abortNone <-> l_goal (ls_life c.1) = closeGoalAbort) /\
  (count_occ Bool.bool_dec (ls_log c.1) true <= 1)%nat /\
  (true ∈ ls_log c.1 -> l_goal (ls_life c.1) = closeGoalAbort).
Proof.
  intros Hr Hc. destruct (life_pool_ok _ _ Hr Hc) as (ms & _ & [_ _ _ Hs Hw Hn]).
  split_and!; [|done|..].
  - intros ch Hch%bool_decide_eq_true. auto.
  - unfold aborted in Hn. destruct (decide _); lia.
  - intros Hin%list_elem_of_In%(count_occ_In Bool.bool_dec). unfold aborted in Hn.
    destruct (decide _); [done|lia].
Qed.

(** Nothing ever blocks, and when every call has returned no obligation is lost:
    each signal the goal and the terminal flag stand for is closed (so closed
    exactly when they say), and exactly one abort call reported that it won if the
    goal is abort, none otherwise. *)
Theorem lifecycle_signals_complete (opss : list (list life_op)) c :
  all_reasoned opss = true -> rtc pstep (life_pool opss) c -> ~ can_step c ->
  finished c /\
  (closed WriteReq (ls_life c.1) = true <-> 1 <= goal_rank (l_goal (ls_life c.1))) /\
  (closed FullReq (ls_life c.1) = true <-> 2 <= goal_rank (l_goal (ls_life c.1))) /\
  (closed AbortCh (ls_life c.1) = true <-> l_goal (ls_life c.1) = closeGoalAbort) /\
  (closed TermCh (ls_life c.1) = true <-> l_terminal (ls_life c.1) = true) /\
  (l_goal (ls_life c.1) = closeGoalAbort \/ l_terminal (ls_life c.1) = true ->
     closed ReadCh (ls_life c.1) = true /\ closed WriteCh (ls_life c.1) = true) /\
  count_occ Bool.bool_dec (ls_log c.1) true = aborted (ls_life c.1).
Proof.
  intros Hr Hc Hst. pose proof (life_pool_ok _ _ Hr Hc) as Hok. destruct c as [s ts].
  assert (finished (s, ts)) as Hf.
  { destruct (pool_ok_blocked _ _ _ _ Hok Hst) as (ms & _ & Hall).
    eapply not_blocked_finished; [exact Hall|]. intros m _ []. }
  split; [done|]. destruct (pool_ok_finished _ _ _ _ Hok Hf) as (ms & Hms & [_ Hm _ Hs _ Hn]).
  apply settled_gsum in Hms as [HW HD]. simpl in *.
  assert (forall ch, must (ls_life s) ch -> ch ∈ l_signals (ls_life s)) as Hmust
    by (intros ch Hch; destruct (Hm ch Hch); [done|by destruct (HD ch)]).
  unfold closed. rewrite !bool_decide_eq_true. split_and!.
  - split; [apply (Hs WriteReq) | apply (Hmust WriteReq)].
  - split; [apply (Hs FullReq) | apply (Hmust FullReq)].
  - split; [apply (Hs AbortCh) | apply (Hmust AbortCh)].
  - split; [intros Ht%Hs; by destruct Ht | apply (Hmust TermCh)].
  - intros Hor. split; [by apply (Hmust ReadCh) | by apply (Hmust WriteCh)].
  - rewrite not_elem_of_multiplicity in HW. lia.
Qed.

(** The goal, the terminal flag and the signals only grow, and the outcome of an
    abort is final: once the goal is abort, its reason and the published error are
    those of one of the abort calls and never change again, so a losing abort and
    every observer of [abortCh] read the winner's error. *)
Theorem lifecycle_outcome_final (opss : list (list life_op)) c c' :
  all_reasoned opss = true -> rtc pstep (life_pool opss) c -> rtc pstep c c' ->
  goal_rank (l_goal (ls_life c.1)) <= goal_rank (l_goal (ls_life c'.1)) /\
  l_signals (ls_life c.1) ⊆ l_signals (ls_life c'.1) /\
  (l_goal (ls_life c.1) = closeGoalAbort ->
     l_goal (ls_life c'.1) = closeGoalAbort /\
     l_why (ls_life c'.1) = l_why (ls_life c.1) /\ ls_err c'.1 = ls_err c.1 /\
     (l_why (ls_life c.1), ls_err c.1) ∈ outcomes (mjoin opss)).
Proof.
  intros Hr Hc Hc'. destruct c as [s ts], c' as [s' ts'].
  assert (Forall (respects (life_mono (outcomes (mjoin opss)))) (life_goroutine <$> opss)) as Hts.
  { apply Forall_fmap, Forall_forall. intros ops Hin. apply life_goroutine_mono. unfold outcomes.
    intros x (o & Ho & E)%list_elem_of_omap. apply list_elem_of_omap. exists o. split; [|done].
    apply list_elem_of_join. exists ops. split; [done|by apply list_elem_of_In]. }
  destruct (respects_pool _ _ _ _ _ Hts Hc) as [M1 Hts'].
  destruct (respects_pool _ _ _ _ _ Hts' Hc') as [M2 _]. destruct M2 as [? ? ? Ho _]. simpl.
  split_and!; [done..|]. intros Hab. destruct (Ho Hab) as (? & ? & ?). split_and!; [done..|].
  destruct M1 as [_ _ _ _ [E|?]]; [exfalso|done].
  destruct (life_pool_ok _ _ Hr Hc) as (ms & _ & HI). simpl in *.
  apply HI in Hab. by injection E.
Qed.

(** A graceful request, then an abort of another goroutine. *)
Definition life_demo : list (list life_op) :=
  [[Request closeGoalFull]; [Abort abortExplicit None; Abort abortFailure (Some (Sentinel ErrClosed))]].
Definition life_end : pool lifeState := reached (life_pool life_demo) (in_turn 2 20).

Lemma lifecycle_signals_sound_witness :
  (forall ch, closed ch (ls_life life_end.1) = true -> sound (ls_life life_end.1) ch) /\
  (reason life_lens life_end.1 <> abortNone <-> l_goal (ls_life life_end.1) = closeGoalAbort) /\
  (count_occ Bool.bool_dec (ls_log life_end.1) true <= 1)%nat /\
  (true ∈ ls_log life_end.1 -> l_goal (ls_life life_end.1) = closeGoalAbort).
Proof. apply (lifecycle_signals_sound life_demo); [reflexivity|]. apply reached_steps. Defined.

Lemma lifecycle_signals_complete_witness : finished life_end.
Proof.
  apply (lifecycle_signals_complete life_demo life_end).
  - reflexivity.
  - apply reached_steps.
  - apply finished_no_step. vm_compute. repeat constructor.
Defined.

Lemma lifecycle_outcome_final_witness :
  l_goal (ls_life life_end.1) = closeGoalAbort /\
  (l_why (ls_life life_end.1), ls_err life_end.1) ∈ outcomes (mjoin life_demo).
Proof.
  split; [reflexivity|].
  destruct (lifecycle_outcome_final life_demo life_end life_end) as (_ & _ & H).
  - reflexivity.
  - apply reached_steps.
  - apply rtc_refl.
  - apply H. reflexivity.
Defined.
