(* ===== verification/Quota.v ===== *)
(** * Quota: hierarchical byte accounting (transport/quota.go, globalByteQuota of limits.go)

    A Session or PacketConn accounts its queued and in-flight bytes in a [byteQuota];
    every one of them also charges the Engine's [globalByteQuota].  [acquire] waits
    until the bytes fit, its context is done or the connection is closing;
    [tryAcquire] fails instead; a failure at the global level gives the local
    bytes back.

    The lazily made [changed] channel is represented by the number of the channel
    currently installed: a waiter that read channel [g] is woken as soon as [g] is
    no longer installed, because [releaseLocal] closes a channel exactly when it
    uninstalls it.  [c_fresh] is the number the next channel gets. *)
From S2P Require Import Prelude Conc Kinds Errors.
Local Open Scope go_scope.

(** The fields [limit], [used] and [changed] that both quota types have. *)
Record cell := { c_limit : Z; c_used : Z; c_changed : option nat; c_fresh : nat }.
Record byteQuota := { q_cell : cell }.
Record globalByteQuota := { gq_cell : cell; gq_rejected : Z }.

Definition new_cell (limit : Z) : cell :=
  {| c_limit := limit; c_used := 0; c_changed := None; c_fresh := 0 |}.
Definition newByteQuota (limit : Z) : byteQuota := {| q_cell := new_cell limit |}.
Definition newGlobalByteQuota (limit : Z) : globalByteQuota :=
  {| gq_cell := new_cell limit; gq_rejected := 0 |}.

(** ** Critical sections *)
Definition fits (n : Z) (q : cell) : bool := add_i64 (c_used q) n <=? c_limit q.
Definition charge (n : Z) (q : cell) : cell :=
  {| c_limit := c_limit q; c_used := add_i64 (c_used q) n;
     c_changed := c_changed q; c_fresh := c_fresh q |}.
(** Charge the bytes, or return the channel to wait on. *)
Definition charge_or_subscribe (n : Z) (q : cell) : cell * option nat :=
  if fits n q then (charge n q, None)
  else match c_changed q with
       | Some g => (q, Some g)
       | None => ({| c_limit := c_limit q; c_used := c_used q;
                     c_changed := Some (c_fresh q); c_fresh := S (c_fresh q) |},
                  Some (c_fresh q))
       end.
Definition uncharge (n : Z) (q : cell) : cell :=
  let used := wrap_i64 (c_used q - n) in
  {| c_limit := c_limit q; c_used := if used <? 0 then 0 else used;
     c_changed := None; c_fresh := c_fresh q |}.
(** Receiving from channel [g]: ready once it is closed. *)
Definition chan_closed (g : nat) (q : cell) : bool := negb (bool_decide (c_changed q = Some g)).

Definition current (q : byteQuota) : Z := c_used (q_cell q).
Definition globalCurrent (q : option globalByteQuota) : Z :=
  match q with
  | None => 0
  | Some q => if c_limit (gq_cell q) =? 0 then 0 else c_used (gq_cell q)
  end.

Section methods.
Context {St : Type}.
Variable L : lens St byteQuota.
(** [q.parent], nil before [setParent]. *)
Variable parent : option (lens St globalByteQuota).
(** [ctx.Err()] and whether the [closing] channel is closed. *)
Variable ctx_err : St -> option error.
Variable closing : St -> bool.

Definition local_cell (s : St) : cell := q_cell (lget L s).
Definition over_local (f : cell -> cell) (s : St) : St :=
  over L (fun q => {| q_cell := f (q_cell q) |}) s.
Definition global_cell (P : lens St globalByteQuota) (s : St) : cell := gq_cell (lget P s).
Definition over_global (P : lens St globalByteQuota) (f : cell -> cell) (s : St) : St :=
  over P (fun q => {| gq_cell := f (gq_cell q); gq_rejected := gq_rejected q |}) s.
Definition reject (P : lens St globalByteQuota) (s : St) : St :=
  over P (fun q => {| gq_cell := gq_cell q; gq_rejected := inc_u64 (gq_rejected q) |}) s.

(** The [select] of both acquire loops: [None] is the wake-up. *)
Definition await (changed : St -> bool) : prog St (option error) :=
  select (fun s =>
    match ctx_err s with Some e => [(s, Some e)] | None => [] end
    ++ (if closing s then [(s, Some (Sentinel ErrClosed))] else [])
    ++ (if changed s then [(s, None)] else [])).

Fixpoint acquire_loop (get : St -> cell) (upd : (cell -> cell) -> St -> St) (fuel : nat) (n : Z)
    : prog St (option error) :=
  match fuel with
  | O => stuck
  | S fuel =>
      r ← atomically (fun s =>
            let (q, r) := charge_or_subscribe n (get s) in (upd (fun _ => q) s, r));
      match r with
      | None => mret None
      | Some g =>
          e ← await (fun s => chan_closed g (get s));
          match e with
          | Some e => mret (Some e)
          | None => acquire_loop get upd fuel n
          end
      end
  end.

Definition acquireLocal (fuel : nat) (n : Z) : prog St (option error) :=
  limit ← atomically (fun s => (s, c_limit (local_cell s)));
  if n >? limit then mret (Some (Sentinel ErrFrameExceedsQueueBudget))
  else acquire_loop local_cell over_local fuel n.

Definition tryAcquireLocal (n : Z) : prog St (option error) :=
  atomically (fun s =>
    if n >? c_limit (local_cell s) then (s, Some (Sentinel ErrFrameExceedsQueueBudget))
    else if negb (fits n (local_cell s)) then (s, Some (Sentinel ErrWouldBlock))
    else (over_local (charge n) s, None)).

Definition releaseLocal (n : Z) : prog St unit :=
  if n <=? 0 then mret tt else atomically (fun s => (over_local (uncharge n) s, tt)).

Definition globalAcquire (fuel : nat) (n : Z) : prog St (option error) :=
  match parent with
  | None => mret None
  | Some P =>
      limit ← atomically (fun s => (s, c_limit (global_cell P s)));
      if (limit =? 0) || (n =? 0) then mret None
      else if n >? limit then
        atomically (fun s => (reject P s, Some (LimitError LimitQueuedBytes limit)))
      else acquire_loop (global_cell P) (over_global P) fuel n
  end.

Definition globalTryAcquire (n : Z) : prog St (option error) :=
  match parent with
  | None => mret None
  | Some P => atomically (fun s =>
      let limit := c_limit (global_cell P s) in
      if (limit =? 0) || (n =? 0) then (s, None)
      else if n >? limit then (reject P s, Some (LimitError LimitQueuedBytes limit))
      else if negb (fits n (global_cell P s)) then
        (reject P s,
         errors_Join [Some (Sentinel ErrWouldBlock); Some (LimitError LimitQueuedBytes limit)])
      else (over_global P (charge n) s, None))
  end.

Definition globalRelease (n : Z) : prog St unit :=
  match parent with
  | None => mret tt
  | Some P => atomically (fun s =>
      if (c_limit (global_cell P s) =? 0) || (n <=? 0) then (s, tt)
      else (over_global P (uncharge n) s, tt))
  end.

Definition acquire (fuel : nat) (n : Z) : prog St (option error) :=
  e ← acquireLocal fuel n;
  match e with
  | Some e => mret (Some e)
  | None =>
      e ← globalAcquire fuel n;
      match e with
      | Some e => releaseLocal n ≫= fun _ => mret (Some e)
      | None => mret None
      end
  end.

Definition tryAcquire (n : Z) : prog St (option error) :=
  e ← tryAcquireLocal n;
  match e with
  | Some e => mret (Some e)
  | None =>
      e ← globalTryAcquire n;
      match e with
      | Some e => releaseLocal n ≫= fun _ => mret (Some e)
      | None => mret None
      end
  end.

Definition release (n : Z) : prog St unit :=
  releaseLocal n ≫= fun _ => globalRelease n.
End methods.

(** ** Many connections under one Engine

    Connection [i] has its own quota and [closing] channel; every quota has the
    same parent.  Contexts are numbered. *)
Record quotaState := {
  qs_local : nat -> byteQuota;
  qs_global : globalByteQuota;
  qs_ctx : nat -> option error;
  qs_closing : nat -> bool }.

Definition fupd {A} (i : nat) (x : A) (f : nat -> A) : nat -> A :=
  fun j => if decide (j = i) then x else f j.
Definition local_lens (i : nat) : lens quotaState byteQuota :=
  {| lget := fun s => qs_local s i;
     lset := fun q s => {| qs_local := fupd i q (qs_local s); qs_global := qs_global s;
                           qs_ctx := qs_ctx s; qs_closing := qs_closing s |} |}.
Definition global_lens : lens quotaState globalByteQuota :=
  {| lget := qs_global;
     lset := fun q s => {| qs_local := qs_local s; qs_global := q;
                           qs_ctx := qs_ctx s; qs_closing := qs_closing s |} |}.
Definition new_state (llimit : nat -> Z) (glimit : Z) : quotaState :=
  {| qs_local := fun i => newByteQuota (llimit i); qs_global := newGlobalByteQuota glimit;
     qs_ctx := fun _ => None; qs_closing := fun _ => false |}.

(** A sender acquires, and releases what it acquired; a context ends; a connection closes. *)
Inductive quota_op :=
  | Blocking (i ctx : nat) (n : Z)
  | Trying (i : nat) (n : Z)
  | Cancel (ctx : nat) (e : error)
  | Closing (i : nat).

Definition quota_op_prog (fuel : nat) (o : quota_op) : prog quotaState unit :=
  match o with
  | Blocking i k n =>
      e ← acquire (local_lens i) (Some global_lens) (fun s => qs_ctx s k)
            (fun s => qs_closing s i) fuel n;
      match e with
      | None => release (local_lens i) (Some global_lens) n
      | Some _ => mret tt
      end
  | Trying i n =>
      e ← tryAcquire (local_lens i) (Some global_lens) n;
      match e with
      | None => release (local_lens i) (Some global_lens) n
      | Some _ => mret tt
      end
  | Cancel k e => atomically (fun s =>
      ({| qs_local := qs_local s; qs_global := qs_global s;
          qs_ctx := fupd k (Some e) (qs_ctx s); qs_closing := qs_closing s |}, tt))
  | Closing i => atomically (fun s =>
      ({| qs_local := qs_local s; qs_global := qs_global s;
          qs_ctx := qs_ctx s; qs_closing := fupd i true (qs_closing s) |}, tt))
  end.
Fixpoint quota_goroutine (fuel : nat) (ops : list quota_op) : prog quotaState unit :=
  match ops with
  | [] => mret tt
  | o :: rest => quota_op_prog fuel o ≫= fun _ => quota_goroutine fuel rest
  end.
Definition op_bytes (o : quota_op) : Z :=
  match o with Blocking _ _ n | Trying _ n => n | _ => 0 end.

(** ** Invariant

    [None] names the global cell, [Some i] that of connection [i].  A goroutine
    owns what it has charged ([Held]), the channel it waits on with the bytes it
    wants ([Wait]), that a cell closed at least so many channels ([Woken]) and the
    number of releases it may still perform ([Credit]). *)
Definition site := option nat.
Definition cell_at (c : site) (s : quotaState) : cell :=
  match c with
  | Some i => local_cell (local_lens i) s
  | None => global_cell global_lens s
  end.
Definition upd_at (c : site) (f : cell -> cell) (s : quotaState) : quotaState :=
  match c with
  | Some i => over_local (local_lens i) f s
  | None => over_global global_lens f s
  end.

Lemma cell_at_upd c f s c' :
  cell_at c' (upd_at c f s) = if decide (c' = c) then f (cell_at c s) else cell_at c' s.
Proof.
  destruct c as [i|], c' as [j|]; simpl; try done.
  unfold local_cell. simpl. unfold fupd.
  destruct (decide (j = i)) as [->|]; [by rewrite decide_True|by rewrite decide_False by congruence].
Qed.

Inductive tok :=
  | Held (c : site) (n : Z) | Wait (c : site) (g : nat) (n : Z) | Woken (c : site) (k : nat) | Credit.
#[global] Instance tok_eq_dec : EqDecision tok.
Proof. solve_decision. Defined.
#[global] Instance tok_countable : Countable tok.
Proof.
  refine (inj_countable'
    (fun t => match t with
      | Held c n => inl (c, n) | Wait c g n => inr (inl (c, g, n))
      | Woken c k => inr (inr (Some (c, k))) | Credit => inr (inr None) end)
    (fun x => match x with
      | inl (c, n) => Held c n | inr (inl (c, g, n)) => Wait c g n
      | inr (inr (Some (c, k))) => Woken c k | inr (inr None) => Credit end) _).
  by intros [].
Defined.

Definition weight (c : site) (t : tok) : Z :=
  match t with Held c' n => if decide (c' = c) then n else 0 | _ => 0 end.
Definition held (c : site) (m : gmultiset tok) : Z := msum (weight c) m.

Lemma held_union c m m' : held c (m ⊎ m') = held c m + held c m'.
Proof. apply msum_union. Qed.
Lemma held_single c t : held c {[+ t +]} = weight c t.
Proof. apply msum_single. Qed.
Lemma held_zero c m : (forall t, t ∈ m -> weight c t = 0) -> held c m = 0.
Proof. apply msum_zero. Qed.

Section invariant.
(** The limit of every cell and a bound on the releases of the whole pool. *)
Variable lim : site -> Z.
Variable bound : nat.

(** The number of channels a cell has closed. *)
Definition closes (q : cell) : nat :=
  match c_changed q with Some _ => Nat.pred (c_fresh q) | None => c_fresh q end.
Definition unlimited (c : site) : bool :=
  match c with Some _ => false | None => lim None =? 0 end.

Record cell_inv (c : site) (q : cell) (m : gmultiset tok) : Prop := {
  ci_limit : c_limit q = lim c;
  ci_used : c_used q = if unlimited c then 0 else held c m;
  ci_range : 0 <= c_used q <= lim c;
  ci_chan : forall g, c_changed q = Some g -> S g = c_fresh q;
  ci_wait : forall g n, Wait c g n ∈ m ->
    (g < c_fresh q)%nat /\ n <= lim c /\ (c_changed q = Some g -> lim c < c_used q + n);
  ci_woken : forall k, Woken c k ∈ m -> (k <= closes q)%nat;
  ci_credit : (closes q + multiplicity Credit m <= bound)%nat;
}.
Definition held_nonneg (m : gmultiset tok) : Prop := forall c n, Held c n ∈ m -> 0 <= n.
Definition quota_inv (s : quotaState) (m : gmultiset tok) : Prop :=
  held_nonneg m /\ forall c, cell_inv c (cell_at c s) m.

(** A blocked goroutine waits on an installed channel; one that waits for its
    connection holds nothing, one that waits for the Engine no global bytes. *)
Definition holds_no (c : site) (m : gmultiset tok) : Prop := forall n, Held c n ∉ m.
Definition quota_blk (s : quotaState) (m : gmultiset tok) : Prop :=
  exists c g n, Wait c g n ∈ m /\ c_changed (cell_at c s) = Some g /\
    holds_no None m /\ (c <> None -> forall i, holds_no i m).
Definition idle (m : gmultiset tok) : Prop := forall c, holds_no c m.

Hypothesis lim_ok : forall c, 0 <= lim c < 2 ^ 62.

(** *** Trading tokens without touching a cell *)
Record cell_less (c : site) (m' m : gmultiset tok) : Prop := {
  le_held : unlimited c = false -> held c m' = held c m;
  le_wait : forall g n, Wait c g n ∈ m' -> Wait c g n ∈ m;
  le_woken : forall k, Woken c k ∈ m' -> Woken c k ∈ m;
  le_credit : (multiplicity Credit m' <= multiplicity Credit m)%nat;
}.
Lemma cell_inv_less c q m' m F :
  cell_less c m' m -> cell_inv c q (m ⊎ F) -> cell_inv c q (m' ⊎ F).
Proof.
  intros [Hh Hw Hk Hc] [? Hu ? ? Hw' Hk' Hc']. split; try done.
  - rewrite Hu, !held_union. destruct (unlimited c); [done|]. by rewrite Hh.
  - intros g n [?|?]%gmultiset_elem_of_disj_union; apply Hw', gmultiset_elem_of_disj_union; auto.
  - intros k [?|?]%gmultiset_elem_of_disj_union; apply Hk', gmultiset_elem_of_disj_union; auto.
  - rewrite multiplicity_disj_union in *. lia.
Qed.

Lemma held_nonneg_union m m' : held_nonneg (m ⊎ m') <-> held_nonneg m /\ held_nonneg m'.
Proof.
  unfold held_nonneg. setoid_rewrite gmultiset_elem_of_disj_union. naive_solver.
Qed.
Lemma held_nonneg_single t :
  held_nonneg {[+ t +]} <-> match t with Held _ n => 0 <= n | _ => True end.
Proof.
  unfold held_nonneg. setoid_rewrite gmultiset_elem_of_singleton.
  destruct t; naive_solver.
Qed.

(** Updating one cell: the others see tokens of theirs at most disappear. *)
Lemma quota_inv_upd c f s m m' F :
  quota_inv s (m ⊎ F) ->
  (held_nonneg m -> held_nonneg m') ->
  (forall c', c' <> c -> cell_less c' m' m) ->
  cell_inv c (f (cell_at c s)) (m' ⊎ F) ->
  quota_inv (upd_at c f s) (m' ⊎ F).
Proof.
  intros [[Hm HF]%held_nonneg_union Hc] Hn Hl Hf. split; [apply held_nonneg_union; auto|].
  intros c'. rewrite cell_at_upd. destruct (decide (c' = c)) as [->|Hne]; [done|].
  eapply cell_inv_less; [by apply Hl | apply Hc].
Qed.
Lemma quota_inv_less s m m' F :
  quota_inv s (m ⊎ F) -> (held_nonneg m -> held_nonneg m') ->
  (forall c, cell_less c m' m) -> quota_inv s (m' ⊎ F).
Proof.
  intros [[Hm HF]%held_nonneg_union Hc] Hn Hl. split; [apply held_nonneg_union; auto|].
  intros c. eapply cell_inv_less; [apply Hl | apply Hc].
Qed.

(** *** The sections on their cell *)
Lemma cell_used_lt c q m : cell_inv c q m -> 0 <= c_used q < 2 ^ 62.
Proof. intros [_ _ Hr _ _ _ _]. specialize (lim_ok c). lia. Qed.
Lemma fits_spec c q m n :
  cell_inv c q m -> 0 <= n <= lim c ->
  add_i64 (c_used q) n = c_used q + n /\ (fits n q = true <-> c_used q + n <= lim c).
Proof.
  intros HI Hn. pose proof (cell_used_lt _ _ _ HI). specialize (lim_ok c).
  assert (add_i64 (c_used q) n = c_used q + n) as E
    by (apply wrap_i64_id; unfold is_i64; lia).
  unfold fits. rewrite E, Z.leb_le. by destruct HI as [-> _ _ _ _ _ _].
Qed.

Lemma cell_charge c q n m :
  unlimited c = false -> 0 <= n <= lim c -> fits n q = true ->
  cell_inv c q m -> cell_inv c (charge n q) ({[+ Held c n +]} ⊎ m).
Proof.
  intros Hu Hn Hf HI. destruct (fits_spec _ _ _ _ HI Hn) as [E Hfit].
  apply Hfit in Hf. destruct HI as [Hl Hs Hr Hc Hw Hk Hcr].
  split; cbn [charge c_limit c_used c_changed c_fresh]; rewrite ?E; try done.
  - rewrite held_union, held_single, Hs, Hu. simpl. rewrite decide_True by done. lia.
  - lia.
  - intros g n' [?|Hin]%gmultiset_elem_of_disj_union; [multiset_solver|].
    destruct (Hw _ _ Hin) as (? & ? & Hx). split_and!; [done..|]. intros ?%Hx. lia.
  - intros k [?|?]%gmultiset_elem_of_disj_union; [multiset_solver|auto].
  - rewrite multiplicity_disj_union, multiplicity_singleton_ne by done. done.
Qed.

Lemma cell_subscribe c q n m q' r :
  0 <= n <= lim c -> fits n q = false -> charge_or_subscribe n q = (q', r) ->
  cell_inv c q m -> exists g, r = Some g /\ cell_inv c q' ({[+ Wait c g n +]} ⊎ m).
Proof.
  intros Hn Hf Hs HI. destruct (fits_spec _ _ _ _ HI Hn) as [E Hfit].
  assert (lim c < c_used q + n) as Hlt
    by (destruct (Z.lt_ge_cases (lim c) (c_used q + n)); [done|]; rewrite (proj2 Hfit) in Hf by lia; done).
  unfold charge_or_subscribe in Hs. rewrite Hf in Hs. destruct HI as [Hl Hus Hr Hc Hw Hk Hcr].
  assert (exists g, r = Some g /\ c_changed q' = Some g /\ S g = c_fresh q' /\ closes q' = closes q /\
    c_limit q' = c_limit q /\ c_used q' = c_used q /\ (c_fresh q <= c_fresh q')%nat /\
    (c_changed q = None \/ c_changed q = Some g) /\ (c_changed q = None -> (c_fresh q <= g)%nat))
    as (g & -> & Eg & Sg & Ecl & El & Eu & Hle & Hch & Hg).
  { unfold closes. destruct (c_changed q) as [g|] eqn:Eq; simplify_eq; simpl; rewrite ?Eq;
      eexists; split_and!; auto; done. }
  exists g. split; [done|]. split; rewrite ?El, ?Eu, ?Ecl; try done.
  - rewrite held_union, held_single. simpl. by rewrite Z.add_0_l.
  - intros g'. rewrite Eg. by intros [= ->].
  - intros g' n' [[= -> ->]%gmultiset_elem_of_singleton|Hin]%gmultiset_elem_of_disj_union.
    + split_and!; lia.
    + destruct (Hw _ _ Hin) as (? & ? & Hx). split_and!; [lia|done|]. rewrite Eg. intros [= ->].
      destruct Hch as [Hch|Hch]; [|auto]. apply Hg in Hch. lia.
  - intros k [?|?]%gmultiset_elem_of_disj_union; [multiset_solver|auto].
  - rewrite multiplicity_disj_union, multiplicity_singleton_ne by done. done.
Qed.

Lemma cell_uncharge c q n m :
  unlimited c = false -> 0 < n ->
  cell_inv c q ({[+ Held c n; Credit +]} ⊎ m) -> (0 <= held c m) -> cell_inv c (uncharge n q) m.
Proof.
  intros Hu Hn [Hl Hs Hr Hc Hw Hk Hcr] Hm. specialize (lim_ok c).
  rewrite Hu, !held_union, !held_single in Hs. simpl in Hs. rewrite decide_True in Hs by done.
  assert (wrap_i64 (c_used q - n) = held c m) as E by (rewrite wrap_i64_id; unfold is_i64; lia).
  assert ((closes (uncharge n q) <= S (closes q))%nat) as Hcl.
  { unfold closes, uncharge. simpl. destruct (c_changed q); lia. }
  assert ((closes q <= closes (uncharge n q))%nat) as Hcl'.
  { unfold closes, uncharge. simpl. destruct (c_changed q); lia. }
  split; try done; unfold uncharge; rewrite ?E; cbn [c_limit c_used c_changed c_fresh]; try done.
  - rewrite Hu. zbool; lia.
  - zbool; lia.
  - intros g n' Hin. destruct (Hw g n') as (? & ? & _); [multiset_solver|]. by split_and!.
  - intros k Hin. etrans; [apply (Hk k); multiset_solver | done].
  - rewrite !multiplicity_disj_union in Hcr.
    assert (multiplicity Credit {[+ Credit +]} = 1%nat) as E1 by multiset_solver.
    unfold uncharge in Hcl. rewrite E in Hcl. cbn [c_fresh] in *. lia.
Qed.

(** A closed channel counts as a wake-up. *)
Lemma cell_woken c q g n m :
  chan_closed g q = true -> cell_inv c q ({[+ Wait c g n +]} ⊎ m) ->
  cell_inv c q ({[+ Woken c (S g) +]} ⊎ m).
Proof.
  unfold chan_closed. intros Hx%negb_true_iff%bool_decide_eq_false [Hl Hs Hr Hc Hw Hk Hcr].
  split; try done.
  - by rewrite Hs, !held_union, !held_single.
  - intros g' n' Hin. apply Hw. multiset_solver.
  - intros k [[= ->]%gmultiset_elem_of_singleton|Hin]%gmultiset_elem_of_disj_union.
    + destruct (Hw g n) as [Hlt _]; [multiset_solver|]. unfold closes.
      destruct (c_changed q) as [g'|] eqn:E; [|lia]. specialize (Hc _ eq_refl).
      destruct (decide (g' = g)); [congruence|lia].
    + apply Hk. multiset_solver.
  - rewrite multiplicity_disj_union, multiplicity_singleton_ne in * by done. lia.
Qed.

Lemma held_nonneg_held c m : held_nonneg m -> 0 <= held c m.
Proof.
  intros Hm. apply msum_nonneg. intros t Ht. destruct t; simpl; try lia.
  destruct (decide _); [by eapply Hm | lia].
Qed.

(** Solves [cell_less] between explicit unions. *)
Ltac less :=
  intros; split;
  [ intros; rewrite ?held_union, ?held_single; simpl; repeat case_decide; (congruence || lia)
  | intros ? ?; rewrite ?gmultiset_elem_of_disj_union, ?gmultiset_elem_of_singleton; naive_solver
  | intros ?; rewrite ?gmultiset_elem_of_disj_union, ?gmultiset_elem_of_singleton; naive_solver
  | rewrite ?multiplicity_disj_union, ?multiplicity_singleton_ne by done; lia ].
Ltac nonneg := rewrite ?held_nonneg_union, ?held_nonneg_single; naive_solver lia.

(** *** The waiting loop

    Iteration [k] of the loop has been woken [k] times, each time by another
    channel the cell closed, so [bound + 1] iterations are never used up. *)
(** How a wait is described to the caller's notion of blocking. *)
Section waits.
Context (Blk : quotaState -> gmultiset tok -> Prop).

Section loop.
Context (c : site) (ctx : quotaState -> option error) (cls : quotaState -> bool).
Context (Hblk : forall s m, quota_blk s m -> cls s = false -> Blk s m).
Context (n : Z) (Hlim : unlimited c = false) (Hn : 0 <= n <= lim c).
Abbreviation loop fuel :=
  (acquire_loop ctx cls (cell_at c) (upd_at c) fuel n).

Definition woken (k : nat) (W : gmultiset tok) : Prop :=
  (W = ∅ /\ k = 0%nat) \/ W = {[+ Woken c k +]}.

Lemma woken_closes k W m s F :
  woken k W -> quota_inv s (W ⊎ m ⊎ F) -> (k <= closes (cell_at c s) <= bound)%nat.
Proof.
  intros HW [_ Hc]. destruct (Hc c) as [_ _ _ _ _ Hk Hcr]. split; [|lia].
  destruct HW as [[_ ->] | ->]; [lia|]. apply Hk.
  rewrite !gmultiset_elem_of_disj_union, gmultiset_elem_of_singleton. auto.
Qed.

Lemma woken_drop k W m s F :
  woken k W -> quota_inv s (W ⊎ m ⊎ F) -> quota_inv s (m ⊎ F).
Proof.
  intros [[-> _] | ->]; [by rewrite (left_id_L ∅ (⊎))|]. intros HI.
  eapply quota_inv_less; [exact HI|nonneg|less].
Qed.

Lemma wp_wait (g : nat) m (Q : option error -> gmultiset tok -> Prop) :
  holds_no None m -> (c <> None -> idle m) ->
  (forall e, Q (Some e) m) -> Q None ({[+ Woken c (S g) +]} ⊎ m) ->
  wp quota_inv Blk (await ctx cls (fun s => chan_closed g (cell_at c s)))
    ({[+ Wait c g n +]} ⊎ m) Q.
Proof.
  intros Hg Hi HE HQ. apply wp_select. intros s F HI. split.
  - intros E. apply app_eq_nil in E as [_ E]. apply app_eq_nil in E as [Ecl0 E].
    destruct (cls s) eqn:Ecl; [done|]. apply Hblk; [|done].
    exists c, g, n. destruct (chan_closed _ _) eqn:Ex; [done|].
    apply negb_false_iff, bool_decide_eq_true in Ex. split_and!; [|done|..].
    + rewrite gmultiset_elem_of_disj_union, gmultiset_elem_of_singleton. auto.
    + intros n'. rewrite gmultiset_elem_of_disj_union, gmultiset_elem_of_singleton.
      specialize (Hg n'). naive_solver.
    + intros Hc i n'. rewrite gmultiset_elem_of_disj_union, gmultiset_elem_of_singleton.
      specialize (Hi Hc i n'). naive_solver.
  - assert (quota_inv s (m ⊎ F)) as HIm by (eapply quota_inv_less; [exact HI|nonneg|less]).
    intros s' r. rewrite !elem_of_app. intros [Hin|[Hin|Hin]].
    + destruct (ctx s); [|by apply elem_of_nil in Hin].
      apply list_elem_of_singleton in Hin as [= -> ->]. eauto.
    + destruct (cls s); [|by apply elem_of_nil in Hin].
      apply list_elem_of_singleton in Hin as [= -> ->]. eauto.
    + destruct (chan_closed _ _) eqn:Ex; [|by apply elem_of_nil in Hin].
      apply list_elem_of_singleton in Hin as [= -> ->].
      exists ({[+ Woken c (S g) +]} ⊎ m). split; [|done]. destruct HI as [Hnn Hc].
      simpl in *. split; [revert Hnn; nonneg|]. intros c'. destruct (decide (c' = c)) as [->|Hne].
      * simpl. rewrite <- (assoc_L (⊎)). eapply cell_woken; [exact Ex|].
        rewrite (assoc_L (⊎)). apply Hc.
      * eapply cell_inv_less; [|apply Hc]. less.
Qed.

Lemma wp_acquire_loop fuel k W m (Q : option error -> gmultiset tok -> Prop) :
  woken k W -> (bound < k + fuel)%nat ->
  holds_no None m -> (c <> None -> idle m) ->
  (forall e, Q (Some e) m) -> Q None ({[+ Held c n +]} ⊎ m) ->
  wp quota_inv Blk (loop fuel) (W ⊎ m) Q.
Proof.
  intros HW Hf Hg Hi HE HQ. revert k W HW Hf. induction fuel as [|fuel IH]; intros k W HW Hf.
  { apply wp_stuck. intros s F HI. pose proof (woken_closes _ _ _ _ _ HW HI). lia. }
  cbn [acquire_loop]. apply wp_bind, wp_section. intros s F s' r HI.
  pose proof (woken_closes _ _ _ _ _ HW HI) as Hk.
  pose proof (woken_drop _ _ _ _ _ HW HI) as HI'. clear HI. rename HI' into HI.
  pose proof (proj2 HI c) as Hc.
  destruct (charge_or_subscribe n (cell_at c s)) as [q r'] eqn:Ecs. intros [= <- <-].
  destruct (fits n (cell_at c s)) eqn:Ef.
  - unfold charge_or_subscribe in Ecs. rewrite Ef in Ecs. simplify_eq.
    exists ({[+ Held c n +]} ⊎ m). split; [|done].
    eapply quota_inv_upd; [exact HI|nonneg|less|]. simpl.
    rewrite <- (assoc_L (⊎)). by apply cell_charge.
  - assert (forall g, r' = Some g -> (k <= g)%nat) as Hkg.
    { unfold charge_or_subscribe in Ecs. rewrite Ef in Ecs. unfold closes in Hk.
      destruct (c_changed _) as [g0|] eqn:E; simplify_eq; intros g [= <-]; [|lia].
      destruct Hc as [_ _ _ Hch _ _ _]. specialize (Hch _ E). lia. }
    destruct (cell_subscribe _ _ _ _ _ _ Hn Ef Ecs Hc) as (g & -> & Hc').
    specialize (Hkg g eq_refl).
    exists ({[+ Wait c g n +]} ⊎ m). split.
    { eapply quota_inv_upd; [exact HI|nonneg|less|]. simpl. by rewrite <- (assoc_L (⊎)). }
    apply wp_bind, wp_wait; [done..|].
    apply (IH (S g)); [by right | lia].
Qed.
End loop.

(** *** The methods *)
Lemma quota_inv_reject s m : quota_inv s m -> quota_inv (reject global_lens s) m.
Proof. intros [? Hc]. split; [done|]. intros c. specialize (Hc c). by destruct c. Qed.

Lemma idle_holds c m : idle m -> holds_no c m.
Proof. intros Hi. apply Hi. Qed.
Lemma idle_cons t m : match t with Held _ _ => False | _ => True end -> idle m -> idle ({[+ t +]} ⊎ m).
Proof.
  intros Ht Hi c n. rewrite gmultiset_elem_of_disj_union, gmultiset_elem_of_singleton.
  specialize (Hi c n). destruct t; naive_solver.
Qed.
Lemma holds_no_local i n m : idle m -> holds_no None ({[+ Held (Some i) n +]} ⊎ m).
Proof.
  intros Hi n'. rewrite gmultiset_elem_of_disj_union, gmultiset_elem_of_singleton.
  specialize (Hi None n'). naive_solver.
Qed.

(** Global bytes that are not counted: none, or under no limit. *)
Lemma uncounted_less c n m :
  lim None = 0 \/ n = 0 ->
  cell_less c ({[+ Held None n +]} ⊎ m) m /\ cell_less c m ({[+ Held None n +]} ⊎ m).
Proof.
  intros Hn. assert (unlimited c = false -> held c ({[+ Held None n +]} ⊎ m) = held c m) as Hh.
  { intros Hu. rewrite held_union, held_single. simpl. case_decide; [|lia]. subst c. simpl in Hu. lia. }
  split; (split; [intros; by rewrite Hh|multiset_solver|multiset_solver|
    rewrite multiplicity_disj_union, multiplicity_singleton_ne by done; lia]).
Qed.

Lemma wp_acquireLocal i k fuel n m (Q : option error -> gmultiset tok -> Prop) :
  (forall s m, quota_blk s m -> qs_closing s i = false -> Blk s m) ->
  (bound < fuel)%nat -> 0 <= n -> idle m ->
  (forall e, Q (Some e) m) -> (n <= lim (Some i) -> Q None ({[+ Held (Some i) n +]} ⊎ m)) ->
  wp quota_inv Blk
    (acquireLocal (local_lens i) (fun s => qs_ctx s k) (fun s => qs_closing s i) fuel n) m Q.
Proof.
  intros HB Hf Hn Hi HE HQ. apply wp_bind, wp_section. intros s F s' r HI [= <- <-].
  exists m. split; [done|]. destruct (proj2 HI (Some i)) as [El _ _ _ _ _ _].
  change (local_cell (local_lens i) s) with (cell_at (Some i) s). rewrite El.
  destruct (n >? lim (Some i)) eqn:E; [by apply HE|]. rewrite Z.gtb_ltb in E. apply Z.ltb_ge in E.
  rewrite <- (left_id_L ∅ (⊎) m).
  apply (wp_acquire_loop (Some i) (fun s => qs_ctx s k) (fun s => qs_closing s i) HB n) with (k := 0%nat);
    auto; by left.
Qed.

Lemma wp_globalAcquire i k fuel n m (Q : option error -> gmultiset tok -> Prop) :
  (forall s m, quota_blk s m -> qs_closing s i = false -> Blk s m) ->
  (bound < fuel)%nat -> 0 <= n -> holds_no None m ->
  (0 < n -> forall e, Q (Some e) m) -> Q None ({[+ Held None n +]} ⊎ m) ->
  wp quota_inv Blk
    (globalAcquire (Some global_lens) (fun s => qs_ctx s k) (fun s => qs_closing s i) fuel n) m Q.
Proof.
  intros HB Hf Hn Hi HE HQ. apply wp_bind, wp_section. intros s F s' r HI [= <- <-].
  destruct (proj2 HI None) as [El _ _ _ _ _ _].
  change (global_cell global_lens s) with (cell_at None s). rewrite El.
  destruct ((lim None =? 0) || (n =? 0)) eqn:E.
  { exists ({[+ Held None n +]} ⊎ m). split; [|done].
    eapply quota_inv_less; [exact HI|nonneg|]. intros c. apply (uncounted_less c n m). lia. }
  apply orb_false_elim in E as [E1 E2]. exists m. split; [done|].
  destruct (n >? lim None) eqn:E.
  { apply wp_section. intros s1 F1 s2 r HI1 [= <- <-]. exists m.
    split; [by apply quota_inv_reject | apply HE; lia]. }
  rewrite Z.gtb_ltb in E. apply Z.ltb_ge in E.
  rewrite <- (left_id_L ∅ (⊎) m).
  apply (wp_acquire_loop None (fun s => qs_ctx s k) (fun s => qs_closing s i) HB n) with (k := 0%nat);
    auto; [by left|done|intros; apply HE; lia].
Qed.

Lemma wp_releaseLocal i n m (Q : unit -> gmultiset tok -> Prop) :
  0 < n -> Q tt m ->
  wp quota_inv Blk (releaseLocal (local_lens i) n)
    ({[+ Held (Some i) n; Credit +]} ⊎ m) Q.
Proof.
  intros Hn HQ. unfold releaseLocal. zbool. apply wp_section. intros s F s' r HI [= <- <-].
  exists m. split; [|done].
  apply (quota_inv_upd (Some i) (uncharge n) s ({[+ Held (Some i) n; Credit +]} ⊎ m));
    [exact HI|nonneg|less|]. destruct HI as [Hnn Hc]. simpl in *.
  apply cell_uncharge; [done|done|by rewrite (assoc_L (⊎))|].
  apply held_nonneg_held. revert Hnn. nonneg.
Qed.

Lemma wp_tryAcquireLocal i n m (Q : option error -> gmultiset tok -> Prop) :
  0 <= n -> (forall e, Q (Some e) m) -> (n <= lim (Some i) -> Q None ({[+ Held (Some i) n +]} ⊎ m)) ->
  wp quota_inv Blk (tryAcquireLocal (local_lens i) n) m Q.
Proof.
  intros Hn HE HQ. apply wp_section. intros s F s' r HI.
  pose proof (proj2 HI (Some i)) as Hc. change (local_cell (local_lens i) s) with (cell_at (Some i) s).
  rewrite (ci_limit _ _ _ Hc). destruct (n >? lim (Some i)) eqn:E; [intros [= <- <-]; eauto|].
  destruct (fits n _) eqn:Ef; intros [= <- <-]; [|eauto].
  exists ({[+ Held (Some i) n +]} ⊎ m). split; [|apply HQ; lia].
  apply (quota_inv_upd (Some i) (charge n) s m); [exact HI|nonneg|less|]. simpl.
  rewrite <- (assoc_L (⊎)). apply cell_charge; auto. lia.
Qed.

Lemma wp_globalTryAcquire n m (Q : option error -> gmultiset tok -> Prop) :
  0 <= n -> (0 < n -> forall e, Q (Some e) m) -> Q None ({[+ Held None n +]} ⊎ m) ->
  wp quota_inv Blk (globalTryAcquire (Some global_lens) n) m Q.
Proof.
  intros Hn HE HQ. apply wp_section. intros s F s' r HI. cbv zeta.
  pose proof (proj2 HI None) as Hc. change (global_cell global_lens s) with (cell_at None s).
  rewrite (ci_limit _ _ _ Hc). destruct ((lim None =? 0) || (n =? 0)) eqn:E.
  { intros [= <- <-]. exists ({[+ Held None n +]} ⊎ m). split; [|done].
    eapply quota_inv_less; [exact HI|nonneg|]. intros c. apply (uncounted_less c n m). lia. }
  apply orb_false_elim in E as [E1 E2].
  destruct (n >? lim None) eqn:E; [intros [= <- <-]; exists m; split; [by apply quota_inv_reject|apply HE; lia]|].
  destruct (fits n _) eqn:Ef; intros [= <- <-];
    [|exists m; split; [by apply quota_inv_reject|apply HE; lia]].
  exists ({[+ Held None n +]} ⊎ m). split; [|done].
  apply (quota_inv_upd None (charge n) s m); [exact HI|nonneg|less|]. simpl.
  rewrite <- (assoc_L (⊎)). apply cell_charge; auto. lia.
Qed.

Lemma wp_globalRelease n m (Q : unit -> gmultiset tok -> Prop) :
  0 <= n -> Q tt m ->
  wp quota_inv Blk (globalRelease (Some global_lens) n) ({[+ Held None n; Credit +]} ⊎ m) Q.
Proof.
  intros Hn HQ. apply wp_section. intros s F s' r HI.
  pose proof (proj2 HI None) as Hc. change (global_cell global_lens s) with (cell_at None s).
  rewrite (ci_limit _ _ _ Hc). destruct ((lim None =? 0) || (n <=? 0)) eqn:E; intros [= <- <-];
    (exists m; split; [|done]).
  - eapply quota_inv_less; [exact HI|nonneg|]. intros c. rewrite <- (assoc_L (⊎)).
    destruct (uncounted_less c n ({[+ Credit +]} ⊎ m)) as [_ [Hh ? ? ?]]; [lia|]. split.
    + intros Hu. rewrite <- (Hh Hu), held_union, held_single. simpl. lia.
    + multiset_solver.
    + multiset_solver.
    + rewrite !multiplicity_disj_union. lia.
  - apply orb_false_elim in E as [E1 E2].
    apply (quota_inv_upd None (uncharge n) s ({[+ Held None n; Credit +]} ⊎ m));
      [exact HI|nonneg|less|]. destruct HI as [Hnn _]. simpl in *.
    apply cell_uncharge; [done|lia|by rewrite (assoc_L (⊎))|].
    apply held_nonneg_held. revert Hnn. nonneg.
Qed.
(** *** Goroutines *)
Definition stocked (k : nat) (m : gmultiset tok) : Prop :=
  idle m /\ (k <= multiplicity Credit m)%nat.

Lemma credit_split k m :
  (S k <= multiplicity Credit m)%nat ->
  exists m', m = {[+ Credit +]} ⊎ m' /\ (k <= multiplicity Credit m')%nat.
Proof.
  intros Hk. exists (m ∖ {[+ Credit +]}). split.
  - apply gmultiset_disj_union_difference', elem_of_multiplicity. lia.
  - rewrite multiplicity_difference, multiplicity_singleton_eq. lia.
Qed.

Lemma stocked_split k m :
  stocked (2 + k) m -> exists m', m = {[+ Credit +]} ⊎ ({[+ Credit +]} ⊎ m') /\ stocked k m'.
Proof.
  intros [Hi Hk]. destruct (credit_split _ _ Hk) as (m1 & -> & Hk1).
  destruct (credit_split _ _ Hk1) as (m2 & -> & Hk2). exists m2. split; [done|]. split; [|done].
  intros c n Hin. apply (Hi c n). multiset_solver.
Qed.
Lemma stocked_credit k m : stocked k m -> stocked k ({[+ Credit +]} ⊎ m).
Proof.
  intros [Hi Hk]. split; [by apply idle_cons|]. rewrite multiplicity_disj_union. lia.
Qed.
Lemma stocked_idle k m : stocked k m -> idle ({[+ Credit +]} ⊎ ({[+ Credit +]} ⊎ m)).
Proof. intros Hm. apply idle_cons; [done|]. apply idle_cons; [done|]. apply Hm. Qed.
#[local] Hint Resolve stocked_credit stocked_idle : go.

(** What both acquisitions promise: all the bytes at both levels, or none. *)
Definition acquired (i : nat) (n : Z) (m : gmultiset tok) : gmultiset tok :=
  {[+ Held None n +]} ⊎ ({[+ Held (Some i) n +]} ⊎ ({[+ Credit +]} ⊎ ({[+ Credit +]} ⊎ m))).

Lemma wp_rollback i n k m e (Q : option error -> gmultiset tok -> Prop) :
  0 < n -> stocked k m -> (forall r m', stocked k m' -> Q (Some r) m') ->
  wp quota_inv Blk (releaseLocal (local_lens i) n ≫= fun _ => mret (Some e))
    ({[+ Held (Some i) n +]} ⊎ ({[+ Credit +]} ⊎ ({[+ Credit +]} ⊎ m))) Q.
Proof.
  intros Hn Hm HQ. rewrite (assoc_L (⊎) {[+ Held (Some i) n +]}).
  apply wp_bind, wp_releaseLocal; [done|]. apply HQ. auto with go.
Qed.

Lemma wp_acquire i c fuel n k m (Q : option error -> gmultiset tok -> Prop) :
  (forall s m, quota_blk s m -> qs_closing s i = false -> Blk s m) ->
  (bound < fuel)%nat -> 0 <= n -> stocked k m ->
  (forall e m', stocked k m' -> Q (Some e) m') -> Q None (acquired i n m) ->
  wp quota_inv Blk
    (acquire (local_lens i) (Some global_lens) (fun s => qs_ctx s c) (fun s => qs_closing s i) fuel n)
    ({[+ Credit +]} ⊎ ({[+ Credit +]} ⊎ m)) Q.
Proof.
  intros HB Hf Hn Hm HE HQ. apply wp_bind, wp_acquireLocal; [done..| | |].
  - by eapply stocked_idle.
  - intros e. apply HE. auto with go.
  - intros _. apply wp_bind, wp_globalAcquire; [done..| | |exact HQ].
    + apply holds_no_local. by eapply stocked_idle.
    + intros Hpos e. by eapply wp_rollback.
Qed.

Lemma wp_tryAcquire i n k m (Q : option error -> gmultiset tok -> Prop) :
  0 <= n -> stocked k m ->
  (forall e m', stocked k m' -> Q (Some e) m') -> Q None (acquired i n m) ->
  wp quota_inv Blk (tryAcquire (local_lens i) (Some global_lens) n)
    ({[+ Credit +]} ⊎ ({[+ Credit +]} ⊎ m)) Q.
Proof.
  intros Hn Hm HE HQ. apply wp_bind, wp_tryAcquireLocal; [done| |].
  - intros e. apply HE. auto with go.
  - intros _. apply wp_bind, wp_globalTryAcquire; [done| |exact HQ].
    intros Hpos e. by eapply wp_rollback.
Qed.

Lemma wp_release i n m (Q : unit -> gmultiset tok -> Prop) :
  0 <= n -> Q tt m ->
  wp quota_inv Blk (release (local_lens i) (Some global_lens) n) (acquired i n m) Q.
Proof.
  intros Hn HQ. apply wp_bind. unfold acquired. destruct (decide (n = 0)) as [->|Hne].
  - unfold releaseLocal. zbool. apply wp_ret. unfold globalRelease. apply wp_section.
    intros s F s' [] HI. replace (0 <=? 0) with true by done. rewrite orb_true_r. intros [= <-]. exists m. split; [|done].
    eapply quota_inv_less; [exact HI|nonneg|less].
  - match goal with |- wp _ _ _ ?m1 _ => replace m1 with
      ({[+ Held (Some i) n; Credit +]} ⊎ ({[+ Held None n; Credit +]} ⊎ m)) by multiset_solver end.
    apply wp_releaseLocal; [lia|]. by apply wp_globalRelease.
Qed.
End waits.

Lemma wp_quota_op fuel o k m (Q : unit -> gmultiset tok -> Prop) :
  (bound < fuel)%nat -> 0 <= op_bytes o -> stocked (2 + k) m ->
  (forall m', stocked k m' -> Q tt m') ->
  wp quota_inv quota_blk (quota_op_prog fuel o) m Q.
Proof.
  intros Hf Hn (m1 & -> & Hm)%stocked_split HQ. destruct o as [i c n|i n|c e|i]; unfold quota_op_prog.
  - apply wp_bind, (wp_acquire quota_blk i c fuel n k); [done..| |]; [by auto|].
    apply wp_release; auto.
  - apply wp_bind, (wp_tryAcquire quota_blk i n k); [done..| |]; [by auto|].
    apply wp_release; auto.
  - apply wp_section. intros s F s' r HI [= <- <-]. eexists. split; [|apply HQ, stocked_credit, stocked_credit, Hm].
    destruct HI as [? Hc]. split; [done|]. intros x. specialize (Hc x). by destruct x.
  - apply wp_section. intros s F s' r HI [= <- <-]. eexists. split; [|apply HQ, stocked_credit, stocked_credit, Hm].
    destruct HI as [? Hc]. split; [done|]. intros x. specialize (Hc x). by destruct x.
Qed.

Lemma wp_quota_goroutine fuel ops m :
  (bound < fuel)%nat -> Forall (fun o => 0 <= op_bytes o) ops -> stocked (2 * length ops) m ->
  wp quota_inv quota_blk (quota_goroutine fuel ops) m (fun _ => idle).
Proof.
  intros Hf Hops. revert m. induction Hops as [|o ops Ho _ IH]; intros m Hm; [apply Hm|].
  cbn [quota_goroutine]. eapply wp_bind, (wp_quota_op fuel o (2 * length ops)); [done..| |by auto].
  replace (2 + 2 * length ops)%nat with (2 * length (o :: ops))%nat by (simpl; lia). done.
Qed.
End invariant.

(** ** Nobody waits for bytes that nobody holds *)
Section waiting.
Context (lim : site -> Z) (bound : nat).

Lemma idle_gsum c (ms : list (gmultiset tok)) :
  Forall (fun m => forall n, Held c n ∉ m) ms -> held c (gsum ms) = 0.
Proof.
  induction 1 as [|m ms Hm _ IH]; [done|]. change (held c (m ⊎ gsum ms) = 0).
  rewrite held_union, IH, held_zero; [done|]. intros t Ht. destruct t as [c' n| | |]; simpl; try done.
  case_decide; [subst; by destruct (Hm n)|done].
Qed.
Lemma no_wait_on_empty c s ms m g n :
  quota_inv lim bound s (gsum ms) -> m ∈ ms -> Wait c g n ∈ m ->
  held c (gsum ms) = 0 -> c_changed (cell_at c s) <> Some g.
Proof.
  intros [_ Hc] Hm Hw Hz Hg. destruct (gsum_elem _ _ Hm) as [F EF]. destruct (Hc c) as [_ Hu _ _ Hwait _ _].
  destruct (Hwait g n) as (_ & Hn & Hlt); [rewrite EF; by apply gmultiset_elem_of_disj_union; left|].
  specialize (Hlt Hg). rewrite Hu, Hz in Hlt. destruct (unlimited lim c); lia.
Qed.

(** When everybody holds nothing or waits, nobody waits: first for the Engine, whose
    bytes no waiting goroutine holds, then for a connection. *)
Lemma nobody_waits s ms :
  quota_inv lim bound s (gsum ms) -> (forall m, m ∈ ms -> idle m \/ quota_blk s m) ->
  forall m, m ∈ ms -> ~ quota_blk s m.
Proof.
  intros HI Hall.
  assert (Forall (fun m => forall n, Held None n ∉ m) ms) as Hg0.
  { apply Forall_forall. intros m Hm%list_elem_of_In.
    destruct (Hall m Hm) as [Hi|(x & g & n & _ & _ & Hno & _)]; [apply Hi|apply Hno]. }
  assert (forall i, Forall (fun m => forall n, Held (Some i) n ∉ m) ms) as Hl0.
  { intros i. apply Forall_forall. intros m Hm%list_elem_of_In.
    destruct (Hall m Hm) as [Hi|(x & g & n & Hw & Hg & _ & Hno)]; [apply Hi|].
    destruct x as [j|]; [by apply Hno|]. exfalso. revert Hg. eapply no_wait_on_empty; eauto using idle_gsum. }
  intros m Hm (x & g & n & Hw & Hg & _ & _).
  eapply (no_wait_on_empty x); [exact HI|exact Hm|exact Hw| |exact Hg]. apply idle_gsum. destruct x; auto.
Qed.
End waiting.

(** ** Reachable states *)
Definition quota_pool (fuel : nat) (llimit : nat -> Z) (glimit : Z) (opss : list (list quota_op))
    : pool quotaState :=
  (new_state llimit glimit, quota_goroutine fuel <$> opss).
Definition limits_of (llimit : nat -> Z) (glimit : Z) (c : site) : Z :=
  match c with Some i => llimit i | None => glimit end.
(** Twice the number of operations: each releases at most once at each level. *)
Definition releases (opss : list (list quota_op)) : nat := 2 * length (mjoin opss).
Definition sane (opss : list (list quota_op)) : bool :=
  forallb (forallb (fun o => 0 <=? op_bytes o)) opss.

Section reachable.
Context (llimit : nat -> Z) (glimit : Z) (opss : list (list quota_op)) (fuel : nat).
Hypothesis llimit_ok : forall i, 0 <= llimit i < 2 ^ 62.
Hypothesis glimit_ok : 0 <= glimit < 2 ^ 62.
Hypothesis ops_ok : sane opss = true.
Hypothesis fuel_ok : (releases opss < fuel)%nat.
Abbreviation lim := (limits_of llimit glimit).

Abbreviation credits := (copies Credit).
Lemma credits_stocked k : stocked k (credits k).
Proof.
  split; [|by rewrite mult_copies]. intros c n Hin. by apply elem_copies in Hin.
Qed.

Lemma lim_ok c : 0 <= lim c < 2 ^ 62.
Proof. destruct c; simpl; auto. Qed.

Lemma quota_inv_init k : quota_inv lim k (new_state llimit glimit) (credits k).
Proof.
  split; [by intros c n ?%elem_copies|]. intros c. pose proof (lim_ok c).
  assert (cell_at c (new_state llimit glimit) = new_cell (lim c)) as -> by (by destruct c).
  split; simpl; try done.
  - rewrite held_zero; [by destruct (unlimited lim c)|]. by intros t ->%elem_copies.
  - lia.
  - by intros g n ?%elem_copies.
  - by intros g ?%elem_copies.
  - by rewrite mult_copies.
Qed.

Lemma quota_pool_ok c :
  rtc pstep (quota_pool fuel llimit glimit opss) c ->
  pool_ok (quota_inv lim (releases opss)) quota_blk idle c.
Proof.
  eapply wp_adequate with (ms := (fun ops => credits (2 * length ops)) <$> opss).
  - rewrite gsum_copies. apply quota_inv_init.
  - unfold owns. apply Forall2_fmap_2. apply Forall_Forall2_diag. apply Forall_forall.
    intros ops Hin. apply (wp_quota_goroutine _ _ lim_ok); [done| |apply credits_stocked].
    unfold sane in ops_ok. rewrite forallb_forall in ops_ok. specialize (ops_ok _ Hin).
    rewrite forallb_forall in ops_ok. apply Forall_forall. intros o Ho. specialize (ops_ok _ Ho). lia.
Qed.

Lemma quota_stuck_finished c :
  rtc pstep (quota_pool fuel llimit glimit opss) c -> ~ can_step c ->
  finished c /\ forall x, c_used (cell_at x c.1) = 0.
Proof.
  intros Hok%quota_pool_ok Hst.
  assert (finished c) as Hf.
  { destruct (pool_ok_blocked _ _ _ _ Hok Hst) as (ms & HI & Hall). destruct c as [s ts]. simpl in *.
    eapply not_blocked_finished; [exact Hall|]. eapply nobody_waits; [exact HI|].
    intros m [i Hi]%list_elem_of_lookup. destruct (Forall2_lookup_r _ _ _ _ _ Hall Hi) as (t & _ & [[_ ?]|?]); auto. }
  split; [done|]. intros x. destruct (pool_ok_finished _ _ _ _ Hok Hf) as (ms & Hms & [_ Hc]).
  destruct (Hc x) as [_ -> _ _ _ _ _]. destruct (unlimited lim x); [done|].
  apply idle_gsum. eapply Forall_impl; [|exact Hms]. intros m Hi. apply Hi.
Qed.

(** Whatever the interleaving of blocking and non-blocking senders, cancellations
    and closes, no counter is ever negative or above its limit, at either level. *)
Theorem quota_within_limits c :
  rtc pstep (quota_pool fuel llimit glimit opss) c ->
  (forall i, 0 <= current (qs_local c.1 i) <= llimit i) /\
  0 <= globalCurrent (Some (qs_global c.1)) <= glimit.
Proof.
  intros (ms & _ & _ & Hc)%quota_pool_ok. split.
  - intros i. apply (Hc (Some i)).
  - destruct (Hc None) as [El _ Hr _ _ _ _]. unfold globalCurrent. simpl in *.
    unfold global_cell in *. simpl in *. destruct (_ =? 0); lia.
Qed.

(** C19. No wake-up is lost and nothing leaks: a pool that can no longer move has
    finished, every acquire having returned within its iterations, and every byte
    charged at either level has been given back. *)
Theorem quota_no_deadlock_no_leak c :
  rtc pstep (quota_pool fuel llimit glimit opss) c -> ~ can_step c ->
  finished c /\ (forall i, current (qs_local c.1 i) = 0) /\
  globalCurrent (Some (qs_global c.1)) = 0.
Proof.
  intros Hr Hst. destruct (quota_stuck_finished _ Hr Hst) as [? Hz]. split_and!; [done|..].
  - intros i. apply (Hz (Some i)).
  - unfold globalCurrent. specialize (Hz None). simpl in Hz. unfold global_cell in Hz. simpl in Hz.
    rewrite Hz. by case_match.
Qed.
End reachable.

(** ** Quotas of a larger component *)
Lemma fupd_same {A} i (x : A) f : fupd i x f i = x.
Proof. unfold fupd. by rewrite decide_True. Qed.
(** What a request that was charged [n] bytes owns. *)
Definition req_toks (n : Z) : gmultiset tok :=
  {[+ Held None n +]} ⊎ ({[+ Held (Some 0%nat) n +]} ⊎ ({[+ Credit +]} ⊎ {[+ Credit +]})).
#[global] Arguments req_toks : simpl never.
Lemma acquired_req n q : acquired 0 n q = req_toks n ⊎ q.
Proof. unfold acquired, req_toks. multiset_solver. Qed.

(** No program of the quotas closes a connection or ends a context. *)
Definition quota_step (t t' : quotaState) : Prop := qs_closing t' = qs_closing t /\ qs_ctx t' = qs_ctx t.
#[global] Instance quota_step_preorder : PreOrder quota_step.
Proof. split; [done|]. intros a b c [? ?] [? ?]. split; congruence. Qed.
Lemma acquire_loop_step get upd ctx cls fuel n :
  (forall f s, quota_step s (upd f s)) -> respects quota_step (acquire_loop ctx cls get upd fuel n).
Proof.
  intros Hupd. induction fuel as [|fuel IH]; [apply respects_stuck|]. cbn [acquire_loop].
  apply respects_bind.
  { apply respects_atomically. intros s. destruct (charge_or_subscribe n (get s)). apply Hupd. }
  intros [g|]; [|done]. apply respects_bind.
  - apply respects_select. intros s s' b. rewrite !elem_of_app.
    intros [Hin|[Hin|Hin]]; case_match; (apply elem_of_nil in Hin || apply list_elem_of_singleton in Hin);
      by simplify_eq.
  - intros [e|]; done.
Qed.
Lemma releaseLocal_step n : respects quota_step (releaseLocal (local_lens 0) n).
Proof. unfold releaseLocal. case_match; [done|]. by apply respects_atomically. Qed.
Lemma quota_rollback_step n (e : error) :
  respects quota_step (releaseLocal (local_lens 0) n ≫= fun _ => mret (Some e)).
Proof. apply respects_bind; [apply releaseLocal_step|done]. Qed.
Lemma acquire_step k fuel n :
  respects quota_step (acquire (local_lens 0) (Some global_lens) (fun s => qs_ctx s k)
                         (fun s => qs_closing s 0%nat) fuel n).
Proof.
  apply respects_bind.
  { apply respects_bind; [by apply respects_atomically|]. intros l. case_match; [done|].
    by apply acquire_loop_step. }
  intros [e|]; [done|]. apply respects_bind.
  { apply respects_bind; [by apply respects_atomically|]. intros l.
    case_match; [done|]. case_match; [by apply respects_atomically|]. by apply acquire_loop_step. }
  intros [e|]; [apply quota_rollback_step|done].
Qed.
Lemma tryAcquire_step n : respects quota_step (tryAcquire (local_lens 0) (Some global_lens) n).
Proof.
  apply respects_bind.
  { apply respects_atomically. intros s. by repeat case_match. }
  intros [e|]; [done|]. apply respects_bind.
  { apply respects_atomically. intros s. cbv zeta. by repeat case_match. }
  intros [e|]; [apply quota_rollback_step|done].
Qed.
Lemma release_step n : respects quota_step (release (local_lens 0) (Some global_lens) n).
Proof.
  apply respects_bind; [apply releaseLocal_step|]. intros _. apply respects_atomically.
  intros s. by case_match.
Qed.

(** ** tryAcquire alone *)
Definition in_range (q : cell) : Prop := 0 <= c_used q <= c_limit q /\ c_limit q < 2 ^ 62.

Lemma in_range_fits q n :
  in_range q -> 0 <= n <= c_limit q ->
  add_i64 (c_used q) n = c_used q + n /\ (fits n q = true <-> c_used q + n <= c_limit q).
Proof.
  intros [? ?] ?. assert (add_i64 (c_used q) n = c_used q + n) as E
    by (apply wrap_i64_id; unfold is_i64; lia).
  split; [done|]. unfold fits. by rewrite E, Z.leb_le.
Qed.

(** Charging and taking back the same bytes restores the counter. *)
Lemma uncharge_charge q n :
  in_range q -> 0 < n <= c_limit q -> c_used (uncharge n (charge n q)) = c_used q.
Proof.
  intros Hr Hn. destruct (in_range_fits q n Hr) as [E _]; [lia|]. unfold uncharge, charge. simpl.
  rewrite E. destruct Hr. rewrite wrap_i64_id by (unfold is_i64; lia). zbool; lia.
Qed.

(** What a refusal means. *)
Definition refused (n : Z) (l g : cell) (e : error) : Prop :=
  (e = Sentinel ErrFrameExceedsQueueBudget /\ c_limit l < n) \/
  (e = Sentinel ErrWouldBlock /\ n <= c_limit l < c_used l + n) \/
  (errors_Is e ErrResourceExhausted = true /\ c_limit g <> 0 /\ 0 < n /\
   (c_limit g < n \/ (errors_Is e ErrWouldBlock = true /\ c_limit g < c_used g + n))).

Lemma globalTryAcquire_spec s n :
  in_range (cell_at None s) -> 0 <= n ->
  exists s' r, exec (globalTryAcquire (Some global_lens) n) s = [Some (s', r)] /\
    (forall i, cell_at (Some i) s' = cell_at (Some i) s) /\
    c_limit (cell_at None s') = c_limit (cell_at None s) /\
    match r with
    | None => c_used (cell_at None s')
              = c_used (cell_at None s) + (if c_limit (cell_at None s) =? 0 then 0 else n)
    | Some e => cell_at None s' = cell_at None s /\ errors_Is e ErrResourceExhausted = true /\
        c_limit (cell_at None s) <> 0 /\ 0 < n /\
        (c_limit (cell_at None s) < n \/
         (errors_Is e ErrWouldBlock = true /\ c_limit (cell_at None s) < c_used (cell_at None s) + n))
    end.
Proof.
  intros Hr Hn. unfold globalTryAcquire. cbn [exec atomically mbind list_bind app].
  change (global_cell global_lens s) with (cell_at None s).
  destruct ((c_limit (cell_at None s) =? 0) || (n =? 0)) eqn:E0.
  { eexists _, None. split_and!; [done..|]. zbool; lia. }
  apply orb_false_elim in E0 as [E1 E2].
  destruct (n >? c_limit (cell_at None s)) eqn:E3.
  { eexists _, (Some _). split_and!; [done..|lia|lia|left; lia]. }
  destruct (in_range_fits _ n Hr) as [E Hf]; [lia|].
  destruct (fits n (cell_at None s)) eqn:E4.
  - eexists _, None. split_and!; [done..|]. rewrite E1. exact E.
  - eexists _, (Some _). split_and!; [done..|lia|lia|right]. split; [done|].
    destruct (Z.lt_ge_cases (c_limit (cell_at None s)) (c_used (cell_at None s) + n)); [done|].
    assert (false = true) by (apply Hf; lia). done.
Qed.

(** [tryAcquire] charges both levels or neither: on success both counters grow by
    [n] and stay within their limits (the global one only counts under a limit); on
    failure both counters are as before, the local bytes having been given back, and the
    error says which level refused and why. Other connections are not affected. *)
Theorem tryAcquire_spec s i n :
  in_range (cell_at (Some i) s) -> in_range (cell_at None s) -> 0 <= n ->
  exists s' r, exec (tryAcquire (local_lens i) (Some global_lens) n) s = [Some (s', r)] /\
    (forall j, j <> i -> cell_at (Some j) s' = cell_at (Some j) s) /\
    match r with
    | None =>
        c_used (cell_at (Some i) s') = c_used (cell_at (Some i) s) + n /\
        c_used (cell_at (Some i) s') <= c_limit (cell_at (Some i) s) /\
        globalCurrent (Some (qs_global s'))
        = globalCurrent (Some (qs_global s)) + (if c_limit (cell_at None s) =? 0 then 0 else n)
    | Some e =>
        c_used (cell_at (Some i) s') = c_used (cell_at (Some i) s) /\
        cell_at None s' = cell_at None s /\ refused n (cell_at (Some i) s) (cell_at None s) e
    end.
Proof.
  intros Hl Hg Hn. unfold tryAcquire, tryAcquireLocal.
  change (local_cell (local_lens i)) with (cell_at (Some i)).
  destruct (n >? c_limit (cell_at (Some i) s)) eqn:E1.
  { eexists s, (Some _). erewrite exec_bind by (rewrite exec_atomically, E1; reflexivity).
    split_and!; [done..|]. left. split; [done|lia]. }
  destruct (in_range_fits _ n Hl) as [E Hf]; [lia|].
  destruct (fits n (cell_at (Some i) s)) eqn:E2.
  2:{ eexists s, (Some _). erewrite exec_bind by (rewrite exec_atomically, E1, E2; reflexivity).
      split_and!; [done..|]. right; left. split; [done|].
      split; [lia|]. destruct (Z.lt_ge_cases (c_limit (cell_at (Some i) s)) (c_used (cell_at (Some i) s) + n));
        [done|]. assert (false = true) by (apply Hf; lia). done. }
  set (s1 := upd_at (Some i) (charge n) s).
  assert (forall x, cell_at x s1 = if decide (x = Some i) then charge n (cell_at (Some i) s) else cell_at x s)
    as Hs1 by (intros x; apply cell_at_upd).
  erewrite exec_bind by (rewrite exec_atomically, E1, E2; reflexivity).
  change (over_local (local_lens i) (charge n) s) with s1.
  destruct (globalTryAcquire_spec s1 n) as (s2 & r & Ex & Hj & Hlim & Hr);
    [by rewrite Hs1, decide_False by done|done|]. 
  erewrite exec_bind by exact Ex. rewrite !(Hs1 None), decide_False in Hr by done.
  assert (cell_at (Some i) s2 = charge n (cell_at (Some i) s)) as Hi
    by (by rewrite Hj, Hs1, decide_True).
  assert (forall j, j <> i -> cell_at (Some j) s2 = cell_at (Some j) s) as Ho
    by (intros j Hne; by rewrite Hj, Hs1, decide_False by congruence).
  destruct r as [e|].
  - destruct Hr as (E0 & HR & Hz & Hpos & Hwhy). unfold releaseLocal.
    replace (n <=? 0) with false by lia.
    eexists (upd_at (Some i) (uncharge n) s2), (Some e). split_and!.
    + done.
    + intros j Hne. rewrite cell_at_upd, decide_False by congruence. auto.
    + rewrite cell_at_upd, decide_True, Hi by done. apply uncharge_charge; [done|lia].
    + by rewrite cell_at_upd, decide_False.
    + right; right. by split_and!.
  - exists s2, None. split_and!; [done|done|by rewrite Hi| |].
    { rewrite Hi. cbn [charge c_used]. rewrite E. by apply Hf. }
    unfold globalCurrent. change (gq_cell (qs_global s2)) with (cell_at None s2).
    change (gq_cell (qs_global s)) with (cell_at None s).
    assert (c_limit (cell_at None s2) = c_limit (cell_at None s)) as ->
      by (by rewrite Hlim, Hs1).
    destruct (c_limit (cell_at None s) =? 0); lia.
Qed.

(** Two senders of one connection that cannot both fit, and one of another. *)
Definition quota_demo : list (list quota_op) :=
  [[Blocking 0 0 6]; [Blocking 0 1 7]; [Trying 1 3]].
Definition quota_demo_pool (sched : list (nat * nat)) : pool quotaState :=
  reached (quota_pool 7 (fun _ => 10) 12 quota_demo) sched.

Lemma quota_within_limits_witness :
  let c := quota_demo_pool [(0, 0); (0, 0); (1, 0); (1, 0)]%nat in
  current (qs_local c.1 0) = 6 /\
  (forall i, 0 <= current (qs_local c.1 i) <= 10) /\
  0 <= globalCurrent (Some (qs_global c.1)) <= 12.
Proof.
  cbv zeta. split; [reflexivity|].
  apply (quota_within_limits (fun _ => 10) 12 quota_demo 7); [lia..|reflexivity|vm_compute; lia|].
  apply reached_steps.
Defined.

Lemma quota_no_deadlock_no_leak_witness :
  let c := quota_demo_pool (in_turn 3 20) in
  finished c /\ (forall i, current (qs_local c.1 i) = 0) /\
  globalCurrent (Some (qs_global c.1)) = 0.
Proof.
  cbv zeta.
  apply (quota_no_deadlock_no_leak (fun _ => 10) 12 quota_demo 7); [lia..|reflexivity|vm_compute; lia| |].
  - apply reached_steps.
  - apply finished_no_step. vm_compute. repeat constructor.
Defined.

Lemma tryAcquire_spec_witness :
  exists s' r, exec (tryAcquire (local_lens 0) (Some global_lens) 4) (new_state (fun _ => 10) 12)
               = [Some (s', r)] /\ r = None /\ c_used (cell_at (Some 0%nat) s') = 4.
Proof.
  destruct (tryAcquire_spec (new_state (fun _ => 10) 12) 0 4) as (s' & r & E & _ & Hr);
    [unfold in_range; simpl; lia..|lia|].
  exists s', r. split; [exact E|]. vm_compute in E. injection E as E1 E2. rewrite <- E2 in Hr |- *.
  split; [reflexivity|]. destruct Hr as [Hr _]. rewrite Hr. reflexivity.
Defined.
