(* ===== verification/Limits.v ===== *)
(** * Limits: Engine-wide admission control (transport/limits.go)

    [admissionController] counts connections by phase (opening, active, draining), per
    peer, per listener, and TLS handshakes and WebSocket upgrades in progress.
    A connection is represented by a lease shared between the goroutines that own the
    connection; each of [activate], [beginDrain] and [release] may be called
    by any of them at any time.  Pointers to leases are indices into the tables of the
    shared state.  The counters of live objects are unbounded integers: they are
    bounded by the number of objects in memory; the rejection counters
    wrap.  The byte quota of the controller is the one of [Quota]. *)
From S2P Require Import Prelude Conc Kinds Errors Quota.
Local Open Scope go_scope.

Record Limits := {
  MaxConnections : Z; MaxConnectionsPerPeer : Z; MaxConnectionsPerListener : Z;
  MaxConcurrentHandshakes : Z; MaxPendingUpgrades : Z; MaxQueuedBytesTotal : Z }.

Definition validate (l : Limits) : option error :=
  if (MaxConnections l <? 0) || (MaxConnectionsPerPeer l <? 0)
     || (MaxConnectionsPerListener l <? 0) || (MaxConcurrentHandshakes l <? 0)
     || (MaxPendingUpgrades l <? 0) || (MaxQueuedBytesTotal l <? 0)
  then Some (Sentinel ErrInvalidLimits) else None.

Record listenerCapacity := { lc_limit : Z; lc_used : Z; lc_rejected : Z }.
Definition newListenerCapacity (limit : Z) : listenerCapacity :=
  {| lc_limit := limit; lc_used := 0; lc_rejected := 0 |}.

Inductive connectionLeaseState :=
  | connectionOpening | connectionActive | connectionDraining | connectionReleased.
#[global] Instance leaseState_eq_dec : EqDecision connectionLeaseState.
Proof. solve_decision. Defined.

Record connectionLease := {
  cl_peer : string; cl_listener : option nat; cl_state : connectionLeaseState }.
(** [al_kind] is true for a handshake, false for an upgrade. *)
Record activityLease := { al_handshake : bool; al_released : bool }.

Record admissionController := {
  ac_limits : Limits;
  ac_opening : Z; ac_active : Z; ac_draining : Z;
  ac_handshakes : Z; ac_upgrades : Z;
  ac_perPeer : gmap string Z;
  ac_rejectedConnections : Z; ac_rejectedPeers : Z; ac_rejectedListeners : Z;
  ac_rejectedHandshakes : Z; ac_rejectedUpgrades : Z;
  ac_bytes : globalByteQuota }.
Definition newAdmissionController (limits : Limits) : admissionController :=
  {| ac_limits := limits; ac_opening := 0; ac_active := 0; ac_draining := 0;
     ac_handshakes := 0; ac_upgrades := 0; ac_perPeer := ∅;
     ac_rejectedConnections := 0; ac_rejectedPeers := 0; ac_rejectedListeners := 0;
     ac_rejectedHandshakes := 0; ac_rejectedUpgrades := 0;
     ac_bytes := newGlobalByteQuota (MaxQueuedBytesTotal limits) |}.

(** ** Field updates *)
Definition set_phase (st : connectionLeaseState) (f : Z -> Z) (a : admissionController) :=
  {| ac_limits := ac_limits a;
     ac_opening := if decide (st = connectionOpening) then f (ac_opening a) else ac_opening a;
     ac_active := if decide (st = connectionActive) then f (ac_active a) else ac_active a;
     ac_draining := if decide (st = connectionDraining) then f (ac_draining a) else ac_draining a;
     ac_handshakes := ac_handshakes a; ac_upgrades := ac_upgrades a; ac_perPeer := ac_perPeer a;
     ac_rejectedConnections := ac_rejectedConnections a; ac_rejectedPeers := ac_rejectedPeers a;
     ac_rejectedListeners := ac_rejectedListeners a;
     ac_rejectedHandshakes := ac_rejectedHandshakes a;
     ac_rejectedUpgrades := ac_rejectedUpgrades a; ac_bytes := ac_bytes a |}.
Definition set_perPeer (f : gmap string Z -> gmap string Z) (a : admissionController) :=
  {| ac_limits := ac_limits a; ac_opening := ac_opening a; ac_active := ac_active a;
     ac_draining := ac_draining a; ac_handshakes := ac_handshakes a; ac_upgrades := ac_upgrades a;
     ac_perPeer := f (ac_perPeer a);
     ac_rejectedConnections := ac_rejectedConnections a; ac_rejectedPeers := ac_rejectedPeers a;
     ac_rejectedListeners := ac_rejectedListeners a;
     ac_rejectedHandshakes := ac_rejectedHandshakes a;
     ac_rejectedUpgrades := ac_rejectedUpgrades a; ac_bytes := ac_bytes a |}.
Definition set_activity (handshake : bool) (f : Z -> Z) (a : admissionController) :=
  {| ac_limits := ac_limits a; ac_opening := ac_opening a; ac_active := ac_active a;
     ac_draining := ac_draining a;
     ac_handshakes := if handshake then f (ac_handshakes a) else ac_handshakes a;
     ac_upgrades := if handshake then ac_upgrades a else f (ac_upgrades a);
     ac_perPeer := ac_perPeer a;
     ac_rejectedConnections := ac_rejectedConnections a; ac_rejectedPeers := ac_rejectedPeers a;
     ac_rejectedListeners := ac_rejectedListeners a;
     ac_rejectedHandshakes := ac_rejectedHandshakes a;
     ac_rejectedUpgrades := ac_rejectedUpgrades a; ac_bytes := ac_bytes a |}.
(** [a.rejectedX.Add(1)] *)
Definition count_reject (k : LimitKind) (a : admissionController) :=
  {| ac_limits := ac_limits a; ac_opening := ac_opening a; ac_active := ac_active a;
     ac_draining := ac_draining a; ac_handshakes := ac_handshakes a; ac_upgrades := ac_upgrades a;
     ac_perPeer := ac_perPeer a;
     ac_rejectedConnections :=
       (if decide (k = LimitConnections) then inc_u64 else id) (ac_rejectedConnections a);
     ac_rejectedPeers :=
       (if decide (k = LimitConnectionsPerPeer) then inc_u64 else id) (ac_rejectedPeers a);
     ac_rejectedListeners :=
       (if decide (k = LimitConnectionsPerListener) then inc_u64 else id) (ac_rejectedListeners a);
     ac_rejectedHandshakes :=
       (if decide (k = LimitHandshakes) then inc_u64 else id) (ac_rejectedHandshakes a);
     ac_rejectedUpgrades :=
       (if decide (k = LimitUpgrades) then inc_u64 else id) (ac_rejectedUpgrades a);
     ac_bytes := ac_bytes a |}.

(** [if x > 0 { x-- }] *)
Definition dec_pos (x : Z) : Z := if x >? 0 then x - 1 else x.
Definition peer_count (peer : string) (a : admissionController) : Z :=
  default 0 (ac_perPeer a !! peer).
Definition peer_add (peer : string) (a : admissionController) : admissionController :=
  if decide (peer = "") then a
  else set_perPeer (fun m => <[peer := default 0 (m !! peer) + 1]> m) a.
Definition peer_remove (peer : string) (a : admissionController) : admissionController :=
  if decide (peer = "") then a
  else set_perPeer (fun m =>
         let n := default 0 (m !! peer) in
         if n <=? 1 then delete peer m else <[peer := n - 1]> m) a.

(** ** Shared state *)
Record admissionState := {
  as_ctl : admissionController;
  as_listener : nat -> listenerCapacity;
  as_leases : list connectionLease;
  as_activities : list activityLease }.
Definition with_ctl (f : admissionController -> admissionController) (s : admissionState) :=
  {| as_ctl := f (as_ctl s); as_listener := as_listener s;
     as_leases := as_leases s; as_activities := as_activities s |}.
Definition with_listener (i : nat) (f : listenerCapacity -> listenerCapacity) (s : admissionState) :=
  {| as_ctl := as_ctl s; as_listener := fupd i (f (as_listener s i)) (as_listener s);
     as_leases := as_leases s; as_activities := as_activities s |}.
Definition with_leases (f : list connectionLease -> list connectionLease) (s : admissionState) :=
  {| as_ctl := as_ctl s; as_listener := as_listener s;
     as_leases := f (as_leases s); as_activities := as_activities s |}.
Definition with_activities (f : list activityLease -> list activityLease) (s : admissionState) :=
  {| as_ctl := as_ctl s; as_listener := as_listener s;
     as_leases := as_leases s; as_activities := f (as_activities s) |}.
Definition new_admission (limits : Limits) : admissionState :=
  {| as_ctl := newAdmissionController limits;
     as_listener := fun _ => newListenerCapacity (MaxConnectionsPerListener limits);
     as_leases := []; as_activities := [] |}.

(** ** listenerCapacity *)
Definition set_used (v : Z) (c : listenerCapacity) : listenerCapacity :=
  {| lc_limit := lc_limit c; lc_used := v; lc_rejected := lc_rejected c |}.
Definition add_rejected (c : listenerCapacity) : listenerCapacity :=
  {| lc_limit := lc_limit c; lc_used := lc_used c; lc_rejected := inc_u64 (lc_rejected c) |}.
(** [c.used.CompareAndSwap(old, new)] *)
Definition compare_and_swap (i : nat) (old new : Z) : prog admissionState bool :=
  atomically (fun s =>
    if lc_used (as_listener s i) =? old then (with_listener i (set_used new) s, true)
    else (s, false)).

Fixpoint listener_acquire (fuel : nat) (i : nat) : prog admissionState bool :=
  match fuel with
  | O => stuck
  | S fuel =>
      n ← atomically (fun s => (s, (lc_used (as_listener s i), lc_limit (as_listener s i))));
      if (n.2 >? 0) && (n.1 >=? n.2) then
        atomically (fun s => (with_listener i add_rejected s, false))
      else
        ok ← compare_and_swap i n.1 (n.1 + 1);
        if ok : bool then mret true else listener_acquire fuel i
  end.

Fixpoint listener_release_loop (fuel : nat) (i : nat) : prog admissionState unit :=
  match fuel with
  | O => stuck
  | S fuel =>
      n ← atomically (fun s => (s, lc_used (as_listener s i)));
      if n <=? 0 then mret tt
      else
        ok ← compare_and_swap i n (n - 1);
        if ok : bool then mret tt else listener_release_loop fuel i
  end.
(** A nil capacity has nothing to release. *)
Definition listener_release (fuel : nat) (listener : option nat) : prog admissionState unit :=
  match listener with None => mret tt | Some i => listener_release_loop fuel i end.
Definition listener_current (listener : option listenerCapacity) : Z :=
  match listener with None => 0 | Some c => lc_used c end.

(** ** admissionController *)
(** The locked section: the lease, or the limit that is exhausted. *)
Definition open_section (peer : string) (listener : option nat) (s : admissionState)
    : admissionState * result nat :=
  let a := as_ctl s in
  let lim := ac_limits a in
  if (MaxConnections lim >? 0)
     && (ac_opening a + ac_active a + ac_draining a >=? MaxConnections lim)
  then (with_ctl (count_reject LimitConnections) s,
        inr (LimitError LimitConnections (MaxConnections lim)))
  else if negb (bool_decide (peer = "")) && (MaxConnectionsPerPeer lim >? 0)
     && (peer_count peer a >=? MaxConnectionsPerPeer lim)
  then (with_ctl (count_reject LimitConnectionsPerPeer) s,
        inr (LimitError LimitConnectionsPerPeer (MaxConnectionsPerPeer lim)))
  else
    let lease := {| cl_peer := peer; cl_listener := listener; cl_state := connectionOpening |} in
    (with_leases (fun ls => ls ++ [lease])
       (with_ctl (fun a => peer_add peer (set_phase connectionOpening (fun n => n + 1) a)) s),
     inl (length (as_leases s))).

Definition acquireOpeningWithListener (fuel : nat) (peer : string) (listener : option nat)
    : prog admissionState (result nat) :=
  ok ← match listener with None => mret true | Some i => listener_acquire fuel i end;
  if negb ok then
    atomically (fun s =>
      (with_ctl (count_reject LimitConnectionsPerListener) s,
       inr (LimitError LimitConnectionsPerListener
              (match listener with Some i => lc_limit (as_listener s i) | None => 0 end))))
  else
    r ← atomically (open_section peer listener);
    match r with
    | inl j => mret (inl j)
    | inr e => listener_release fuel listener ≫= fun _ => mret (inr e)
    end.
Definition acquireOpening (fuel : nat) (peer : string) : prog admissionState (result nat) :=
  acquireOpeningWithListener fuel peer None.

(** ** connectionLease *)
Definition set_state (st : connectionLeaseState) (l : connectionLease) : connectionLease :=
  {| cl_peer := cl_peer l; cl_listener := cl_listener l; cl_state := st |}.

(** [lease.mu] and [a.mu] are both held. *)
Definition activate_section (j : nat) (s : admissionState) : admissionState * bool :=
  match as_leases s !! j with
  | None => (s, false)
  | Some l =>
      match cl_state l with
      | connectionActive => (s, true)
      | connectionDraining | connectionReleased => (s, false)
      | connectionOpening =>
          (with_leases (fun ls => <[j := set_state connectionActive l]> ls)
             (with_ctl (fun a =>
                set_phase connectionActive (fun n => n + 1) (set_phase connectionOpening dec_pos a)) s),
           true)
      end
  end.
Definition activate (j : nat) : prog admissionState bool := atomically (activate_section j).

Definition drain_section (j : nat) (s : admissionState) : admissionState * bool :=
  match as_leases s !! j with
  | None => (s, false)
  | Some l =>
      if negb (bool_decide (cl_state l = connectionActive)) then (s, false)
      else
        (with_leases (fun ls => <[j := set_state connectionDraining l]> ls)
           (with_ctl (fun a =>
              set_phase connectionDraining (fun n => n + 1) (set_phase connectionActive dec_pos a)) s),
         true)
  end.
Definition beginDrain (j : nat) : prog admissionState bool := atomically (drain_section j).

(** The lease is marked released under its own lock; the counters follow. *)
Definition release_mark (j : nat) (s : admissionState) : admissionState * option connectionLease :=
  match as_leases s !! j with
  | None => (s, None)
  | Some l =>
      if bool_decide (cl_state l = connectionReleased) then (s, None)
      else (with_leases (fun ls => <[j := set_state connectionReleased l]> ls) s, Some l)
  end.
Definition release_count (l : connectionLease) (a : admissionController) : admissionController :=
  peer_remove (cl_peer l) (set_phase (cl_state l) dec_pos a).
Definition release (fuel : nat) (j : nat) : prog admissionState unit :=
  r ← atomically (release_mark j);
  match r with
  | None => mret tt
  | Some l =>
      atomically (fun s => (with_ctl (release_count l) s, tt)) ≫= fun _ =>
      listener_release fuel (cl_listener l)
  end.

Definition acquireConnection (fuel : nat) (peer : string) : prog admissionState (result nat) :=
  r ← acquireOpening fuel peer;
  match r with
  | inr e => mret (inr e)
  | inl j => activate j ≫= fun _ => mret (inl j)
  end.

(** ** activityLease *)
Definition acquire_activity (handshake : bool) (s : admissionState) : admissionState * result nat :=
  let a := as_ctl s in
  let max := (if handshake then MaxConcurrentHandshakes else MaxPendingUpgrades) (ac_limits a) in
  let kind := if handshake then LimitHandshakes else LimitUpgrades in
  if (max >? 0) && ((if handshake then ac_handshakes a else ac_upgrades a) >=? max)
  then (with_ctl (count_reject kind) s, inr (LimitError kind max))
  else (with_activities (fun ls => ls ++ [{| al_handshake := handshake; al_released := false |}])
          (with_ctl (set_activity handshake (fun n => n + 1)) s),
        inl (length (as_activities s))).
Definition acquireHandshake : prog admissionState (result nat) := atomically (acquire_activity true).
Definition acquireUpgrade : prog admissionState (result nat) := atomically (acquire_activity false).

(** [released.CompareAndSwap(false, true)], then the counter. *)
Definition release_activity_mark (j : nat) (s : admissionState) : admissionState * option bool :=
  match as_activities s !! j with
  | None => (s, None)
  | Some l =>
      if al_released l then (s, None)
      else (with_activities
              (fun ls => <[j := {| al_handshake := al_handshake l; al_released := true |}]> ls) s,
            Some (al_handshake l))
  end.
Definition releaseActivity (j : nat) : prog admissionState bool :=
  r ← atomically (release_activity_mark j);
  match r with
  | None => mret false
  | Some h => atomically (fun s => (with_ctl (set_activity h dec_pos) s, true))
  end.

(** ** Observation *)
Record admissionSnapshot := {
  OpeningConnections : Z; ActiveConnections : Z; DrainingConnections : Z;
  ActiveHandshakes : Z; PendingUpgrades : Z; GlobalQueuedBytes : Z;
  RejectedConnections : Z; RejectedPeers : Z; RejectedListeners : Z;
  RejectedHandshakes : Z; RejectedUpgrades : Z; RejectedQueuedBytes : Z }.
Definition snapshot (a : admissionController) : admissionSnapshot :=
  {| OpeningConnections := ac_opening a; ActiveConnections := ac_active a;
     DrainingConnections := ac_draining a; ActiveHandshakes := ac_handshakes a;
     PendingUpgrades := ac_upgrades a; GlobalQueuedBytes := globalCurrent (Some (ac_bytes a));
     RejectedConnections := ac_rejectedConnections a; RejectedPeers := ac_rejectedPeers a;
     RejectedListeners := ac_rejectedListeners a; RejectedHandshakes := ac_rejectedHandshakes a;
     RejectedUpgrades := ac_rejectedUpgrades a; RejectedQueuedBytes := gq_rejected (ac_bytes a) |}.
Definition idle (a : admissionController) : bool :=
  (ac_opening a =? 0) && (ac_active a =? 0) && (ac_draining a =? 0)
  && (ac_handshakes a =? 0) && (ac_upgrades a =? 0).

(** ** Goroutines sharing one controller

    Every operation names the lease it works on by its number, so any goroutine
    may activate, drain or release any lease, any number of times. *)
Inductive admission_op :=
  | Open (peer : string) (listener : option nat)
  | Connect (peer : string)
  | Activate (j : nat)
  | Drain (j : nat)
  | Release (j : nat)
  | Handshake
  | Upgrade
  | ReleaseActivity (j : nat).

Definition admission_op_prog (fuel : nat) (o : admission_op) : prog admissionState unit :=
  match o with
  | Open peer listener => acquireOpeningWithListener fuel peer listener ≫= fun _ => mret tt
  | Connect peer => acquireConnection fuel peer ≫= fun _ => mret tt
  | Activate j => activate j ≫= fun _ => mret tt
  | Drain j => beginDrain j ≫= fun _ => mret tt
  | Release j => release fuel j
  | Handshake => acquireHandshake ≫= fun _ => mret tt
  | Upgrade => acquireUpgrade ≫= fun _ => mret tt
  | ReleaseActivity j => releaseActivity j ≫= fun _ => mret tt
  end.
Fixpoint admission_goroutine (fuel : nat) (ops : list admission_op) : prog admissionState unit :=
  match ops with
  | [] => mret tt
  | o :: rest => admission_op_prog fuel o ≫= fun _ => admission_goroutine fuel rest
  end.

(** ** Invariant

    A goroutine owns the lease whose counters it has still to release ([Owed]), a
    listener slot no lease accounts for ([OwedListener]), an activity ([OwedActivity]),
    what it saw in a listener's counter ([Seen], valid while the number of swaps still to come
    is [k]), an upper bound on that number ([AtMost]), and the swaps it may perform ([Credit]). *)
#[global] Instance lease_eq_dec : EqDecision connectionLease.
Proof. solve_decision. Defined.
#[global] Instance leaseState_countable : Countable connectionLeaseState.
Proof.
  refine (inj_countable'
    (fun s => match s with connectionOpening => 0 | connectionActive => 1
              | connectionDraining => 2 | connectionReleased => 3 end)%nat
    (fun n => match n with 0 => connectionOpening | 1 => connectionActive
              | 2 => connectionDraining | _ => connectionReleased end)%nat _).
  by intros [].
Defined.
#[global] Instance lease_countable : Countable connectionLease.
Proof.
  refine (inj_countable'
    (fun l => (cl_peer l, cl_listener l, cl_state l))
    (fun x => {| cl_peer := x.1.1; cl_listener := x.1.2; cl_state := x.2 |}) _).
  by intros [].
Defined.
Inductive tok :=
  | Owed (l : connectionLease) | OwedListener (i : nat) | OwedActivity (h : bool)
  | Seen (i : nat) (v : Z) (k : nat) | AtMost (k : nat) | Credit.
#[global] Instance tok_eq_dec : EqDecision tok.
Proof. solve_decision. Defined.
#[global] Instance tok_countable : Countable tok.
Proof.
  refine (inj_countable'
    (fun t => match t with
      | Owed l => inl (inl l) | OwedListener i => inl (inr (inl i)) | OwedActivity h => inl (inr (inr h))
      | Seen i v k => inr (inl (i, v, k)) | AtMost k => inr (inr (inl k)) | Credit => inr (inr (inr tt)) end)
    (fun x => match x with
      | inl (inl l) => Owed l | inl (inr (inl i)) => OwedListener i | inl (inr (inr h)) => OwedActivity h
      | inr (inl (i, v, k)) => Seen i v k | inr (inr (inl k)) => AtMost k | inr (inr (inr _)) => Credit end) _).
  by intros [].
Defined.

Definition ind (P : Prop) `{Decision P} : Z := if decide P then 1 else 0.
Definition wphase (st : connectionLeaseState) (l : connectionLease) : Z := ind (cl_state l = st).
Definition wpeer (p : string) (l : connectionLease) : Z :=
  ind (cl_state l <> connectionReleased /\ cl_peer l = p /\ p <> "").
Definition wlis (i : nat) (l : connectionLease) : Z :=
  ind (cl_state l <> connectionReleased /\ cl_listener l = Some i).
Definition wact (h : bool) (l : activityLease) : Z := ind (al_released l = false /\ al_handshake l = h).
Definition tphase (st : connectionLeaseState) (t : tok) : Z :=
  match t with Owed l => wphase st l | _ => 0 end.
Definition tpeer (p : string) (t : tok) : Z := match t with Owed l => wpeer p l | _ => 0 end.
Definition tlis (i : nat) (t : tok) : Z :=
  match t with Owed l => wlis i l | OwedListener j => ind (j = i) | _ => 0 end.
Definition tact (h : bool) (t : tok) : Z := match t with OwedActivity h' => ind (h' = h) | _ => 0 end.

Definition phase (st : connectionLeaseState) (a : admissionController) : Z :=
  match st with
  | connectionOpening => ac_opening a
  | connectionActive => ac_active a
  | connectionDraining => ac_draining a
  | connectionReleased => 0
  end.
Definition activity (h : bool) (a : admissionController) : Z :=
  if h then ac_handshakes a else ac_upgrades a.
(** A zero count has no entry. *)
Definition entry (n : Z) : option Z := if n =? 0 then None else Some n.

Section invariant.
Variable L : Limits.
Variable bound : nat.

Definition phase_inv (a : admissionController) (ls : list connectionLease) (m : gmultiset tok) : Prop :=
  forall st, st <> connectionReleased -> phase st a = lsum (wphase st) ls + msum (tphase st) m.
Definition peer_inv (a : admissionController) (ls : list connectionLease) (m : gmultiset tok) : Prop :=
  forall p, ac_perPeer a !! p = entry (lsum (wpeer p) ls + msum (tpeer p) m).
Definition lis_inv (f : nat -> listenerCapacity) (ls : list connectionLease) (m : gmultiset tok) : Prop :=
  forall i, lc_used (f i) = lsum (wlis i) ls + msum (tlis i) m
    /\ lc_limit (f i) = MaxConnectionsPerListener L
    /\ (0 < MaxConnectionsPerListener L -> lc_used (f i) <= MaxConnectionsPerListener L).
Definition act_inv (a : admissionController) (ls : list activityLease) (m : gmultiset tok) : Prop :=
  forall h, activity h a = lsum (wact h) ls + msum (tact h) m.
Record cas_inv (f : nat -> listenerCapacity) (m : gmultiset tok) : Prop := {
  cas_bound : (multiplicity Credit m <= bound)%nat;
  cas_most : forall k, AtMost k ∈ m -> (multiplicity Credit m <= k)%nat;
  cas_seen : forall i v k, Seen i v k ∈ m ->
    (multiplicity Credit m <= k)%nat /\ (multiplicity Credit m = k -> lc_used (f i) = v);
}.
Record limits_inv (a : admissionController) : Prop := {
  li_limits : ac_limits a = L;
  li_connections : 0 < MaxConnections L ->
    ac_opening a + ac_active a + ac_draining a <= MaxConnections L;
  li_peers : 0 < MaxConnectionsPerPeer L ->
    forall p, peer_count p a <= MaxConnectionsPerPeer L;
  li_handshakes : 0 < MaxConcurrentHandshakes L -> ac_handshakes a <= MaxConcurrentHandshakes L;
  li_upgrades : 0 < MaxPendingUpgrades L -> ac_upgrades a <= MaxPendingUpgrades L;
}.
Record adm_inv (s : admissionState) (m : gmultiset tok) : Prop := {
  ai_phase : phase_inv (as_ctl s) (as_leases s) m;
  ai_peer : peer_inv (as_ctl s) (as_leases s) m;
  ai_lis : lis_inv (as_listener s) (as_leases s) m;
  ai_act : act_inv (as_ctl s) (as_activities s) m;
  ai_cas : cas_inv (as_listener s) m;
  ai_limits : limits_inv (as_ctl s);
  ai_owed : forall l, Owed l ∈ m -> cl_state l <> connectionReleased;
}.
Definition never : admissionState -> gmultiset tok -> Prop := fun _ _ => False.

(** *** Sums *)
Lemma ind_nonneg (P : Prop) `{Decision P} : 0 <= ind P.
Proof. unfold ind. case_decide; lia. Qed.
Lemma tphase_nonneg st m : 0 <= msum (tphase st) m.
Proof. apply msum_nonneg. intros [] _; simpl; try lia. apply ind_nonneg. Qed.
Lemma tpeer_nonneg p m : 0 <= msum (tpeer p) m.
Proof. apply msum_nonneg. intros [] _; simpl; try lia. apply ind_nonneg. Qed.
Lemma tlis_nonneg i m : 0 <= msum (tlis i) m.
Proof. apply msum_nonneg. intros [] _; simpl; try lia; apply ind_nonneg. Qed.
Lemma tact_nonneg h m : 0 <= msum (tact h) m.
Proof. apply msum_nonneg. intros [] _; simpl; try lia. apply ind_nonneg. Qed.
Lemma lsum_ind_nonneg {A} (P : A -> Prop) `{forall x, Decision (P x)} l : 0 <= lsum (fun x => ind (P x)) l.
Proof. apply lsum_nonneg. intros. apply ind_nonneg. Qed.
Lemma wphase_nonneg st ls : 0 <= lsum (wphase st) ls.
Proof. apply lsum_ind_nonneg. Qed.
Lemma wpeer_nonneg p ls : 0 <= lsum (wpeer p) ls.
Proof. apply lsum_ind_nonneg. Qed.
Lemma wlis_nonneg i ls : 0 <= lsum (wlis i) ls.
Proof. apply lsum_ind_nonneg. Qed.
Lemma wact_nonneg h ls : 0 <= lsum (wact h) ls.
Proof. apply lsum_ind_nonneg. Qed.

Lemma lsum_ind_in {A} (P : A -> Prop) `{forall x, Decision (P x)} l j x :
  l !! j = Some x -> P x -> 1 <= lsum (fun x => ind (P x)) l.
Proof.
  intros Hj HP. transitivity (ind (P x)); [unfold ind; by rewrite decide_True|].
  apply (lsum_elem_le (fun y => ind (P y)) l x); [intros; apply ind_nonneg|].
  by eapply list_elem_of_lookup_2.
Qed.

Lemma entry_default n : default 0 (entry n) = n.
Proof. unfold entry. destruct (n =? 0) eqn:E; simpl; lia. Qed.
Lemma dec_pos_pos x : 0 < x -> dec_pos x = x - 1.
Proof. unfold dec_pos. intros. rewrite Z.gtb_ltb. zbool; lia. Qed.

(** *** Tokens that only bookkeep swaps *)
Definition subtoks (m' m : gmultiset tok) : Prop :=
  (forall k, AtMost k ∈ m' -> AtMost k ∈ m) /\ (forall i v k, Seen i v k ∈ m' -> Seen i v k ∈ m).

Lemma cas_less f m m' :
  subtoks m' m -> (multiplicity Credit m' <= multiplicity Credit m)%nat ->
  cas_inv f m -> cas_inv f m'.
Proof.
  intros [Ha Hs] Hle [Hb Hm Hse]. split; [lia|..].
  - intros k Hk%Ha%Hm. lia.
  - intros i v k Hin%Hs. destruct (Hse _ _ _ Hin) as [? Hv]. split; [lia|]. intros. apply Hv. lia.
Qed.
(** A successful swap invalidates what the others saw. *)
Lemma cas_swap f f' m m' :
  subtoks m' m -> (multiplicity Credit m' < multiplicity Credit m)%nat ->
  cas_inv f m -> cas_inv f' m'.
Proof.
  intros [Ha Hs] Hlt [Hb Hm Hse]. split; [lia|..].
  - intros k Hk%Ha%Hm. lia.
  - intros i v k Hin%Hs. destruct (Hse _ _ _ Hin) as [? Hv]. lia.
Qed.

Lemma subtoks_drop X m : subtoks m (X ⊎ m).
Proof. split; intros; apply gmultiset_elem_of_disj_union; auto. Qed.
Lemma subtoks_add t m :
  match t with AtMost _ | Seen _ _ _ => False | _ => True end -> subtoks ({[+ t +]} ⊎ m) m.
Proof.
  intros Ht. split; intros *; rewrite gmultiset_elem_of_disj_union, gmultiset_elem_of_singleton;
    destruct t; naive_solver.
Qed.
Lemma subtoks_trans m1 m2 m3 : subtoks m1 m2 -> subtoks m2 m3 -> subtoks m1 m3.
Proof. intros [? ?] [? ?]. split; eauto. Qed.

(** *** The sections

    [holding listener m]: the slot of [listener] is accounted for by a token. *)
Definition slot (listener : option nat) : gmultiset tok :=
  match listener with Some i => {[+ OwedListener i +]} | None => ∅ end.

Lemma msum_slot_lis i listener : msum (tlis i) (slot listener) = ind (listener = Some i).
Proof.
  destruct listener as [j|]; simpl; [rewrite msum_single; simpl|rewrite msum_empty; done].
  unfold ind. repeat case_decide; congruence.
Qed.
Lemma msum_slot (w : tok -> Z) listener :
  (forall i, w (OwedListener i) = 0) -> msum w (slot listener) = 0.
Proof. intros Hw. destruct listener; simpl; [by rewrite msum_single|apply msum_empty]. Qed.
Lemma subtoks_slot listener m : subtoks m (slot listener ⊎ m).
Proof. apply subtoks_drop. Qed.
Lemma credit_slot listener m : multiplicity Credit (slot listener ⊎ m) = multiplicity Credit m.
Proof. rewrite multiplicity_disj_union. destruct listener; multiset_solver. Qed.

Ltac decide_ind := unfold ind; repeat case_decide; try lia; exfalso; naive_solver.

(** *** What each update changes *)
Lemma phase_set st' st f a :
  st' <> connectionReleased ->
  phase st' (set_phase st f a) = if decide (st' = st) then f (phase st' a) else phase st' a.
Proof. intros Hst. destruct st', st; done. Qed.
Lemma phase_peer_add st p a : phase st (peer_add p a) = phase st a.
Proof. unfold peer_add. case_decide; by destruct st. Qed.
Lemma phase_peer_remove st p a : phase st (peer_remove p a) = phase st a.
Proof. unfold peer_remove. case_decide; by destruct st. Qed.
Lemma activity_peer_add h p a : activity h (peer_add p a) = activity h a.
Proof. unfold peer_add. case_decide; by destruct h. Qed.
Lemma activity_peer_remove h p a : activity h (peer_remove p a) = activity h a.
Proof. unfold peer_remove. case_decide; by destruct h. Qed.
Lemma activity_set_phase h st f a : activity h (set_phase st f a) = activity h a.
Proof. by destruct h. Qed.
Lemma limits_peer_add p a : ac_limits (peer_add p a) = ac_limits a.
Proof. unfold peer_add. by case_decide. Qed.
Lemma limits_peer_remove p a : ac_limits (peer_remove p a) = ac_limits a.
Proof. unfold peer_remove. by case_decide. Qed.
Lemma perPeer_add q p a :
  ac_perPeer (peer_add p a) !! q
  = if decide (p = q /\ q <> "") then Some (default 0 (ac_perPeer a !! q) + 1) else ac_perPeer a !! q.
Proof.
  unfold peer_add. repeat case_decide; simpl; try naive_solver.
  - destruct_and!. subst. by rewrite lookup_insert_eq.
  - rewrite lookup_insert_ne; [done|]. naive_solver.
Qed.
Lemma perPeer_remove q p a n :
  ac_perPeer a !! q = entry n -> 0 <= n ->
  (p = q -> q <> "" -> 1 <= n) ->
  ac_perPeer (peer_remove p a) !! q = entry (n - ind (p = q /\ q <> "")).
Proof.
  intros Hn Hnn Hpos. unfold peer_remove, ind. destruct (decide (p = "")) as [->|Hp].
  { rewrite decide_False by naive_solver. by rewrite Z.sub_0_r. }
  simpl. destruct (decide (p = q)) as [->|Hne].
  - rewrite Hn, entry_default, decide_True by done. specialize (Hpos eq_refl Hp).
    destruct (n <=? 1) eqn:E; [rewrite lookup_delete_eq|rewrite lookup_insert_eq];
      unfold entry; zbool; done || (exfalso; lia).
  - rewrite decide_False by naive_solver. rewrite Z.sub_0_r, <- Hn.
    destruct (_ <=? 1); [by rewrite lookup_delete_ne|by rewrite lookup_insert_ne].
Qed.
Lemma entry_succ n : 0 <= n -> Some (n + 1) = entry (n + 1).
Proof. unfold entry. intros. zbool; done || lia. Qed.

(** The limits hold again when every count that may have grown is within its limit. *)
Lemma limits_step a a' :
  ac_limits a' = ac_limits a -> limits_inv a ->
  (0 < MaxConnections L -> ac_opening a' + ac_active a' + ac_draining a' <= MaxConnections L) ->
  (0 < MaxConnectionsPerPeer L -> forall p, peer_count p a' <= peer_count p a
     \/ peer_count p a' <= MaxConnectionsPerPeer L) ->
  (forall h, activity h a' <= activity h a) ->
  limits_inv a'.
Proof.
  intros El [Hlim Hco Hper Hh Hu] HC HP HA. split; [congruence|done|..].
  - intros Hpos p. specialize (Hper Hpos p). destruct (HP Hpos p); lia.
  - intros Hpos. specialize (Hh Hpos). specialize (HA true). simpl in HA. lia.
  - intros Hpos. specialize (Hu Hpos). specialize (HA false). simpl in HA. lia.
Qed.

(** What an admitted connection was checked against. *)
Lemma open_checks peer listener s s' j :
  ac_limits (as_ctl s) = L -> open_section peer listener s = (s', inl j) ->
  (0 < MaxConnections L ->
     ac_opening (as_ctl s) + ac_active (as_ctl s) + ac_draining (as_ctl s) < MaxConnections L) /\
  (peer <> "" -> 0 < MaxConnectionsPerPeer L -> peer_count peer (as_ctl s) < MaxConnectionsPerPeer L) /\
  s' = with_leases
         (fun ls => ls ++ [{| cl_peer := peer; cl_listener := listener; cl_state := connectionOpening |}])
         (with_ctl (fun a => peer_add peer (set_phase connectionOpening (fun n => n + 1) a)) s) /\
  j = length (as_leases s).
Proof.
  unfold open_section. cbv zeta. intros Hlim E. rewrite Hlim in E.
  destruct (_ && _) eqn:E1; [done|]. destruct (_ && _ && _) eqn:E2; [done|]. injection E as <- <-.
  rewrite Z.gtb_ltb, Z.geb_leb in *. split_and!; [lia| |done..].
  intros Hp Hpos. rewrite bool_decide_eq_false_2 in E2 by done. simpl in E2. lia.
Qed.

Lemma open_ok peer listener s s' j m :
  open_section peer listener s = (s', inl j) ->
  adm_inv s (slot listener ⊎ m) -> adm_inv s' m.
Proof.
  intros E [Hp Hpe Hl Ha Hc Hli Ho].
  destruct (open_checks _ _ _ _ _ (li_limits _ Hli) E) as (Hmax & Hpeer & -> & ->). clear E.
  set (a := as_ctl s) in *.
  split; cbn [as_ctl as_listener as_leases as_activities with_leases with_ctl]; fold a.
  - intros st Hst. specialize (Hp st Hst). rewrite msum_union, msum_slot in Hp by done.
    rewrite phase_peer_add, phase_set, lsum_snoc by done.
    unfold wphase at 2. simpl. decide_ind.
  - intros p. specialize (Hpe p). rewrite msum_union, msum_slot in Hpe by done.
    rewrite perPeer_add, lsum_snoc. unfold wpeer at 2. simpl. rewrite Hpe, entry_default.
    pose proof (wpeer_nonneg p (as_leases s)). pose proof (tpeer_nonneg p m). unfold ind.
    destruct (decide (peer = p /\ p <> "")) as [[-> Hne]|Hne].
    + rewrite decide_True by done. rewrite entry_succ by lia. f_equal. lia.
    + rewrite decide_False by naive_solver. f_equal. lia.
  - intros i. destruct (Hl i) as (Hu & ? & ?). split_and!; [|done..].
    rewrite msum_union, msum_slot_lis in Hu. rewrite lsum_snoc.
    unfold wlis at 2. simpl. rewrite Hu. decide_ind.
  - intros h. specialize (Ha h). rewrite msum_union, msum_slot in Ha by done.
    by rewrite activity_peer_add, activity_set_phase.
  - eapply cas_less; [apply subtoks_slot| |exact Hc]. by rewrite credit_slot.
  - apply (limits_step a); [by rewrite limits_peer_add|done|..].
    + intros Hpos. specialize (Hmax Hpos).
      pose proof (phase_peer_add connectionOpening peer (set_phase connectionOpening (fun n => n + 1) a)) as P1.
      pose proof (phase_peer_add connectionActive peer (set_phase connectionOpening (fun n => n + 1) a)) as P2.
      pose proof (phase_peer_add connectionDraining peer (set_phase connectionOpening (fun n => n + 1) a)) as P3.
      simpl in *. lia.
    + intros Hpos p. unfold peer_count in *. rewrite perPeer_add. simpl.
      destruct (decide (peer = p /\ p <> "")) as [[-> Hne]|Hne]; [right; simpl|left; lia].
      specialize (Hpeer Hne Hpos). lia.
    + intros h. by rewrite activity_peer_add, activity_set_phase.
  - intros l Hin. apply Ho. apply gmultiset_elem_of_disj_union. auto.
Qed.

Lemma reject_inv k s m : adm_inv s m -> adm_inv (with_ctl (count_reject k) s) m.
Proof.
  intros [Hp Hpe Hl Ha Hc [] Ho]. by split.
Qed.

Lemma total_phases a :
  ac_opening a + ac_active a + ac_draining a
  = phase connectionOpening a + phase connectionActive a + phase connectionDraining a.
Proof. done. Qed.

(** A live lease moves from one phase to another. *)
Lemma move_inv j l st s m :
  as_leases s !! j = Some l -> cl_state l <> connectionReleased -> st <> connectionReleased ->
  cl_state l <> st -> adm_inv s m ->
  adm_inv (with_leases (fun ls => <[j := set_state st l]> ls)
             (with_ctl (fun a => set_phase st (fun n => n + 1) (set_phase (cl_state l) dec_pos a)) s)) m.
Proof.
  intros Hj Hlive Hst Hne [Hp Hpe Hl Ha Hc Hli Ho].
  assert (0 < phase (cl_state l) (as_ctl s)) as Hpos.
  { rewrite Hp by done. pose proof (tphase_nonneg (cl_state l) m).
    assert (1 <= lsum (wphase (cl_state l)) (as_leases s)) by (by eapply lsum_ind_in). lia. }
  assert (forall st', st' <> connectionReleased ->
    phase st' (set_phase st (fun n => n + 1) (set_phase (cl_state l) dec_pos (as_ctl s)))
    = phase st' (as_ctl s) - ind (cl_state l = st') + ind (st = st')) as Hph.
  { intros st' Hst'. rewrite !phase_set by done. unfold ind.
    repeat case_decide; subst; try congruence; rewrite ?dec_pos_pos by done; lia. }
  split; cbn [as_ctl as_listener as_leases as_activities with_leases with_ctl].
  - intros st' Hst'. rewrite Hph, (lsum_insert _ _ _ _ _ Hj), Hp by done. unfold wphase at 3 4. simpl. lia.
  - intros p. rewrite (lsum_insert _ _ _ _ _ Hj).
    assert (wpeer p (set_state st l) = wpeer p l) as -> by (unfold wpeer; simpl; decide_ind).
    replace (lsum (wpeer p) (as_leases s) - wpeer p l + wpeer p l) with (lsum (wpeer p) (as_leases s)) by lia.
    apply Hpe.
  - intros i. destruct (Hl i) as (Hu & ? & ?). split_and!; [|done..]. rewrite (lsum_insert _ _ _ _ _ Hj).
    assert (wlis i (set_state st l) = wlis i l) as -> by (unfold wlis; simpl; decide_ind). lia.
  - intros h. by rewrite !activity_set_phase.
  - done.
  - apply (limits_step (as_ctl s)); [done..|auto| |].
    + intros HM. pose proof (li_connections _ Hli HM). rewrite total_phases, !Hph by done.
      rewrite total_phases in *. unfold ind. destruct (cl_state l), st; simpl in *; done || lia.
    + left. done.
    + intros h. by rewrite !activity_set_phase.
  - done.
Qed.

(** A live lease is marked; its counters are owed. *)
Lemma mark_inv j l s m :
  as_leases s !! j = Some l -> cl_state l <> connectionReleased -> adm_inv s m ->
  adm_inv (with_leases (fun ls => <[j := set_state connectionReleased l]> ls) s) ({[+ Owed l +]} ⊎ m).
Proof.
  intros Hj Hlive [Hp Hpe Hl Ha Hc Hli Ho].
  split; cbn [as_ctl as_listener as_leases as_activities with_leases].
  - intros st Hst. rewrite (lsum_insert _ _ _ _ _ Hj), msum_union, msum_single, Hp by done.
    simpl. assert (wphase st (set_state connectionReleased l) = 0) as -> by (unfold wphase; simpl; decide_ind). lia.
  - intros p. rewrite (lsum_insert _ _ _ _ _ Hj), msum_union, msum_single, Hpe. f_equal. simpl.
    assert (wpeer p (set_state connectionReleased l) = 0) as -> by (unfold wpeer; simpl; decide_ind). lia.
  - intros i. destruct (Hl i) as (Hu & ? & ?). split_and!; [|done..].
    rewrite (lsum_insert _ _ _ _ _ Hj), msum_union, msum_single, Hu. simpl.
    assert (wlis i (set_state connectionReleased l) = 0) as -> by (unfold wlis; simpl; decide_ind). lia.
  - intros h. rewrite msum_union, msum_single. simpl. rewrite Ha. lia.
  - eapply cas_less; [by apply subtoks_add| |exact Hc].
    rewrite multiplicity_disj_union, multiplicity_singleton_ne by done. lia.
  - done.
  - intros l' [[= ->]%gmultiset_elem_of_singleton|?]%gmultiset_elem_of_disj_union; auto.
Qed.

Lemma count_inv l s m :
  adm_inv s ({[+ Owed l +]} ⊎ m) -> adm_inv (with_ctl (release_count l) s) (slot (cl_listener l) ⊎ m).
Proof.
  intros [Hp Hpe Hl Ha Hc Hli Ho].
  assert (cl_state l <> connectionReleased) as Hlive
    by (apply Ho; rewrite gmultiset_elem_of_disj_union, gmultiset_elem_of_singleton; auto).
  assert (forall st, st <> connectionReleased ->
    phase st (release_count l (as_ctl s)) = phase st (as_ctl s) - wphase st l) as Hph.
  { intros st Hst. unfold release_count. rewrite phase_peer_remove, phase_set by done.
    unfold wphase, ind. repeat case_decide; subst; try congruence; [|lia].
    apply dec_pos_pos. rewrite Hp, msum_union, msum_single by done. simpl.
    pose proof (wphase_nonneg (cl_state l) (as_leases s)). pose proof (tphase_nonneg (cl_state l) m).
    unfold wphase at 2. unfold ind. rewrite decide_True by done. lia. }
  split; cbn [as_ctl as_listener as_leases as_activities with_ctl].
  - intros st Hst. rewrite Hph, Hp, !msum_union, msum_single, msum_slot by done. simpl. lia.
  - intros p. specialize (Hpe p). rewrite msum_union, msum_single in Hpe. simpl in Hpe.
    pose proof (wpeer_nonneg p (as_leases s)). pose proof (tpeer_nonneg p m).
    assert (wpeer p l = ind (cl_peer l = p /\ p <> "")) as E by (unfold wpeer; decide_ind).
    unfold release_count. erewrite perPeer_remove; [|exact Hpe|rewrite E; pose proof (ind_nonneg (cl_peer l = p /\ p <> "")); lia|].
    + f_equal. rewrite E, msum_union, msum_slot by done. lia.
    + intros ? ?. rewrite E. unfold ind. rewrite decide_True by done. lia.
  - intros i. destruct (Hl i) as (Hu & ? & ?). split_and!; [|done..].
    rewrite msum_union, msum_single in Hu. simpl in Hu. rewrite Hu, msum_union, msum_slot_lis.
    unfold wlis at 2. decide_ind.
  - intros h. specialize (Ha h). unfold release_count. rewrite activity_peer_remove, activity_set_phase, Ha.
    rewrite !msum_union, msum_single, msum_slot by done. simpl. lia.
  - eapply cas_less; [| |exact Hc]; [|rewrite credit_slot, multiplicity_disj_union; lia].
    destruct (cl_listener l); simpl; [|rewrite (left_id_L ∅ (⊎)); apply subtoks_drop].
    eapply subtoks_trans; [by apply subtoks_add|apply subtoks_drop].
  - apply (limits_step (as_ctl s)); [by unfold release_count; rewrite limits_peer_remove|done|..].
    + intros HM. pose proof (li_connections _ Hli HM). rewrite total_phases, !Hph by done.
      rewrite total_phases in *. pose proof (ind_nonneg (cl_state l = connectionOpening)).
      pose proof (ind_nonneg (cl_state l = connectionActive)).
      pose proof (ind_nonneg (cl_state l = connectionDraining)). unfold wphase. lia.
    + intros _ p. left. unfold peer_count, release_count, peer_remove. case_decide; [done|]. simpl.
      destruct (decide (cl_peer l = p)) as [<-|Hne].
      * destruct (_ <=? 1) eqn:E; [rewrite lookup_delete_eq|rewrite lookup_insert_eq]; simpl; [|lia].
        specialize (Hpe (cl_peer l)). rewrite Hpe, entry_default, msum_union, msum_single. simpl.
        pose proof (wpeer_nonneg (cl_peer l) (as_leases s)). pose proof (tpeer_nonneg (cl_peer l) m).
        pose proof (ind_nonneg (cl_state l <> connectionReleased /\ cl_peer l = cl_peer l /\ cl_peer l <> "")).
        unfold wpeer at 2. lia.
      * destruct (_ <=? 1); [by rewrite lookup_delete_ne|by rewrite lookup_insert_ne].
    + intros h. unfold release_count. by rewrite activity_peer_remove, activity_set_phase.
  - intros l' [Hin|?]%gmultiset_elem_of_disj_union.
    + destruct (cl_listener l); simpl in Hin; multiset_solver.
    + apply Ho, gmultiset_elem_of_disj_union. auto.
Qed.

(** *** Activities *)
Lemma activity_set h' h f a : activity h' (set_activity h f a) = if decide (h' = h) then f (activity h' a) else activity h' a.
Proof. by destruct h', h. Qed.

Definition activity_limit (h : bool) : Z :=
  if h then MaxConcurrentHandshakes L else MaxPendingUpgrades L.
Lemma limits_activity h f a :
  limits_inv a -> (0 < activity_limit h -> f (activity h a) <= activity_limit h) ->
  limits_inv (set_activity h f a).
Proof.
  intros [Hlim Hco Hper Hh Hu] Hf. destruct h; simpl in *; by split.
Qed.

Lemma activity_ok h s s' r m :
  acquire_activity h s = (s', r) -> adm_inv s m -> adm_inv s' m.
Proof.
  unfold acquire_activity. cbv zeta. intros E HI. pose proof HI as [Hp Hpe Hl Ha Hc Hli Ho].
  rewrite (li_limits _ Hli) in E.
  destruct (_ && _) eqn:Ec; injection E as <- <-; [by apply reject_inv|].
  split; cbn [as_ctl as_listener as_leases as_activities with_activities with_ctl]; try done.
  - intros h'. rewrite activity_set, lsum_snoc, Ha. unfold wact at 4. simpl.
    destruct h, h'; simpl; decide_ind.
  - apply limits_activity; [done|]. intros Hpos. unfold activity_limit in *. destruct h; simpl in *; lia.
Qed.

Lemma activity_mark_inv j l s m :
  as_activities s !! j = Some l -> al_released l = false -> adm_inv s m ->
  adm_inv (with_activities
             (fun ls => <[j := {| al_handshake := al_handshake l; al_released := true |}]> ls) s)
    ({[+ OwedActivity (al_handshake l) +]} ⊎ m).
Proof.
  intros Hj Hr [Hp Hpe Hl Ha Hc Hli Ho].
  split; cbn [as_ctl as_listener as_leases as_activities with_activities].
  - intros st Hst. rewrite msum_union, msum_single. by apply Hp.
  - intros p. rewrite msum_union, msum_single. apply Hpe.
  - intros i. rewrite msum_union, msum_single. apply Hl.
  - intros h. rewrite (lsum_insert _ _ _ _ _ Hj), msum_union, msum_single, Ha. simpl.
    unfold wact at 3 4. simpl. rewrite Hr. decide_ind.
  - eapply cas_less; [by apply subtoks_add| |exact Hc].
    rewrite multiplicity_disj_union, multiplicity_singleton_ne by done. lia.
  - done.
  - intros l' [?|?]%gmultiset_elem_of_disj_union; [multiset_solver|auto].
Qed.

Lemma activity_count_inv h s m :
  adm_inv s ({[+ OwedActivity h +]} ⊎ m) -> adm_inv (with_ctl (set_activity h dec_pos) s) m.
Proof.
  intros [Hp Hpe Hl Ha Hc Hli Ho].
  assert (0 < activity h (as_ctl s)) as Hpos.
  { rewrite Ha, msum_union, msum_single. simpl. pose proof (wact_nonneg h (as_activities s)).
    pose proof (tact_nonneg h m). unfold ind. rewrite decide_True by done. lia. }
  split; cbn [as_ctl as_listener as_leases as_activities with_ctl].
  - intros st Hst. specialize (Hp st Hst). rewrite msum_union, msum_single in Hp. by destruct st.
  - intros p. specialize (Hpe p). by rewrite msum_union, msum_single in Hpe.
  - intros i. specialize (Hl i). by rewrite msum_union, msum_single in Hl.
  - intros h'. specialize (Ha h'). rewrite msum_union, msum_single in Ha. simpl in Ha.
    rewrite activity_set. unfold ind in Ha. repeat case_decide; subst; try congruence;
      rewrite ?dec_pos_pos by done; lia.
  - eapply cas_less; [apply subtoks_drop| |exact Hc]. rewrite multiplicity_disj_union. lia.
  - apply limits_activity; [done|]. intros HL. rewrite dec_pos_pos by done.
    destruct Hli as [_ _ _ Hh Hu]. unfold activity_limit in *.
    destruct h; simpl; [specialize (Hh HL)|specialize (Hu HL)]; lia.
  - intros l Hin. apply Ho, gmultiset_elem_of_disj_union. auto.
Qed.

(** *** Swaps on a listener's counter *)
Lemma credit_cons t m :
  multiplicity Credit ({[+ t +]} ⊎ m) = ((if decide (t = Credit) then 1 else 0) + multiplicity Credit m)%nat.
Proof.
  rewrite multiplicity_disj_union, multiplicity_singleton. repeat case_decide; congruence.
Qed.

(** Tokens that count nothing come and go, as long as they are true. *)
Lemma ghost_inv s X Y m :
  (forall t, t ∈ X -> match t with Seen _ _ _ | AtMost _ => True | _ => False end) ->
  (forall t, t ∈ Y -> match t with Seen _ _ _ | AtMost _ | Credit => True | _ => False end) ->
  cas_inv (as_listener s) (X ⊎ m) -> adm_inv s (Y ⊎ m) -> adm_inv s (X ⊎ m).
Proof.
  intros HX HY Hcas [Hp Hpe Hl Ha Hc Hli Ho].
  assert (forall w : tok -> Z, (forall i v k, w (Seen i v k) = 0) -> (forall k, w (AtMost k) = 0) ->
    w Credit = 0 -> msum w X = 0 /\ msum w Y = 0) as HZ.
  { intros w W1 W2 W3. split; apply msum_zero; intros t Ht; [specialize (HX t Ht)|specialize (HY t Ht)];
      by destruct t. }
  split; try done.
  - intros st Hst. specialize (Hp st Hst). destruct (HZ (tphase st)) as [E1 E2]; [done..|].
    rewrite msum_union in *. lia.
  - intros p. specialize (Hpe p). destruct (HZ (tpeer p)) as [E1 E2]; [done..|].
    rewrite msum_union, E2 in Hpe. by rewrite msum_union, E1.
  - intros i. destruct (Hl i) as (Hu & ? & ?). destruct (HZ (tlis i)) as [E1 E2]; [done..|].
    split_and!; [|done..]. rewrite msum_union in *. lia.
  - intros h. specialize (Ha h). destruct (HZ (tact h)) as [E1 E2]; [done..|].
    rewrite msum_union in *. lia.
  - intros l [Hin|Hin]%gmultiset_elem_of_disj_union; [by destruct (HX _ Hin)|].
    apply Ho, gmultiset_elem_of_disj_union. auto.
Qed.

Lemma load_inv i s m :
  adm_inv s m -> adm_inv s ({[+ Seen i (lc_used (as_listener s i)) (multiplicity Credit m) +]} ⊎ m).
Proof.
  intros HI. apply (ghost_inv s _ ∅).
  - by intros t ->%gmultiset_elem_of_singleton.
  - multiset_solver.
  - destruct HI as [_ _ _ _ [Hb Hm Hs] _ _]. split.
    + by rewrite credit_cons.
    + intros k. rewrite credit_cons, gmultiset_elem_of_disj_union, gmultiset_elem_of_singleton.
      intros [?|?]; [done|]. by apply Hm.
    + intros i' v k. rewrite credit_cons, gmultiset_elem_of_disj_union, gmultiset_elem_of_singleton.
      intros [[= -> -> ->]|?]; [done|]. by apply Hs.
  - by rewrite (left_id_L ∅ (⊎)).
Qed.

Lemma failed_swap_inv i v k s m :
  lc_used (as_listener s i) <> v -> adm_inv s ({[+ Seen i v k +]} ⊎ m) ->
  adm_inv s ({[+ AtMost (Nat.pred k) +]} ⊎ m).
Proof.
  intros Hv HI. eapply ghost_inv; [..|exact HI].
  - by intros t ->%gmultiset_elem_of_singleton.
  - by intros t ->%gmultiset_elem_of_singleton.
  - destruct HI as [_ _ _ _ [Hb Hm Hs] _ _].
    assert (multiplicity Credit m < k)%nat.
    { destruct (Hs i v k) as [? Hu];
        [rewrite gmultiset_elem_of_disj_union, gmultiset_elem_of_singleton; auto|].
      rewrite credit_cons in *. rewrite decide_False in * by done. simpl in *.
      destruct (decide (multiplicity Credit m = k)); [by destruct Hv; auto|lia]. }
    assert (cas_inv (as_listener s) m) as [Hb' Hm' Hs'].
    { eapply cas_less; [apply (subtoks_drop {[+ Seen i v k +]})|rewrite credit_cons; lia|by split]. }
    split.
    + by rewrite credit_cons, decide_False.
    + intros k'. rewrite credit_cons, decide_False, gmultiset_elem_of_disj_union,
        gmultiset_elem_of_singleton by done. intros [[= ->]|?]; [lia|]. by apply Hm'.
    + intros i' v' k'. rewrite credit_cons, decide_False, gmultiset_elem_of_disj_union,
        gmultiset_elem_of_singleton by done. intros [?|?]; [done|]. by apply Hs'.
Qed.

(** A swap by one, paid with a credit, under the listener's limit. *)
Lemma swap_inv i d X Y s m :
  (forall w : tok -> Z, (forall j, w (OwedListener j) = 0) -> (forall j v k, w (Seen j v k) = 0) ->
     w Credit = 0 -> msum w X = 0 /\ msum w Y = 0) ->
  (forall j, msum (tlis j) Y = msum (tlis j) X + (if decide (j = i) then d else 0)) ->
  subtoks (Y ⊎ m) (X ⊎ m) -> (multiplicity Credit Y < multiplicity Credit X)%nat ->
  (forall l, Owed l ∉ Y) ->
  (0 < MaxConnectionsPerListener L -> lc_used (as_listener s i) + d <= MaxConnectionsPerListener L) ->
  adm_inv s (X ⊎ m) ->
  adm_inv (with_listener i (set_used (lc_used (as_listener s i) + d)) s) (Y ⊎ m).
Proof.
  intros HZ Hd Hsub Hcr HY Hlim [Hp Hpe Hl Ha Hc Hli Ho].
  split; cbn [as_ctl as_listener as_leases as_activities with_listener].
  - intros st Hst. specialize (Hp st Hst). destruct (HZ (tphase st)) as [E1 E2]; [done..|].
    rewrite msum_union in *. lia.
  - intros p. specialize (Hpe p). destruct (HZ (tpeer p)) as [E1 E2]; [done..|].
    rewrite msum_union, E1 in Hpe. by rewrite msum_union, E2.
  - intros j. destruct (Hl j) as (Hu & ? & ?). specialize (Hd j). rewrite msum_union in *. unfold fupd.
    destruct (decide (j = i)) as [->|Hne]; simpl; split_and!; done || lia.
  - intros h. specialize (Ha h). destruct (HZ (tact h)) as [E1 E2]; [done..|].
    rewrite msum_union in *. lia.
  - eapply cas_swap; [exact Hsub| |exact Hc]. rewrite !multiplicity_disj_union. lia.
  - done.
  - intros l [Hin|Hin]%gmultiset_elem_of_disj_union; [by destruct (HY l)|].
    apply Ho, gmultiset_elem_of_disj_union. auto.
Qed.

(** *** The swap loops

    A failed swap means that another goroutine spent one of the credits left, so
    a loop with more iterations than credits never runs out. *)
Definition most (k : nat) (W : gmultiset tok) : Prop :=
  (W = ∅ /\ k = bound) \/ W = {[+ AtMost k +]}.

Lemma most_credits k W m s :
  most k W -> adm_inv s (W ⊎ m) -> (multiplicity Credit m <= k)%nat /\ adm_inv s m.
Proof.
  intros [[-> ->] | ->] HI.
  - rewrite (left_id_L ∅ (⊎)) in HI. split; [|done]. by destruct HI as [_ _ _ _ [] _ _].
  - split.
    + destruct HI as [_ _ _ _ [_ Hm _] _ _]. specialize (Hm k).
      rewrite credit_cons, decide_False in Hm by done. apply Hm.
      rewrite gmultiset_elem_of_disj_union, gmultiset_elem_of_singleton. auto.
    + rewrite <- (left_id_L ∅ (⊎) m). eapply (ghost_inv s ∅); [multiset_solver| | |exact HI].
      * by intros t ->%gmultiset_elem_of_singleton.
      * rewrite (left_id_L ∅ (⊎)). destruct HI as [_ _ _ _ Hc _ _].
        eapply cas_less; [apply (subtoks_drop {[+ AtMost k +]})|rewrite credit_cons; lia|done].
Qed.

Lemma drop_seen i v k s m : adm_inv s ({[+ Seen i v k +]} ⊎ m) -> adm_inv s m.
Proof.
  intros HI. rewrite <- (left_id_L ∅ (⊎) m). eapply (ghost_inv s ∅); [multiset_solver| | |exact HI].
  - by intros t ->%gmultiset_elem_of_singleton.
  - rewrite (left_id_L ∅ (⊎)). destruct HI as [_ _ _ _ Hc _ _].
    eapply cas_less; [apply (subtoks_drop {[+ Seen i v k +]})|rewrite credit_cons; lia|done].
Qed.

Lemma rejected_inv i s m : adm_inv s m -> adm_inv (with_listener i add_rejected s) m.
Proof.
  intros [Hp Hpe Hl Ha [Hb Hm Hs] Hli Ho]. split; try done.
  - intros j. specialize (Hl j). simpl. unfold fupd. by case_decide; subst.
  - split; [done..|]. intros j v k Hin. destruct (Hs _ _ _ Hin) as [? Hu]. split; [done|].
    simpl. unfold fupd. case_decide; subst; auto.
Qed.

(** One round of either loop: read, then try to swap. *)
Lemma wp_swap i v k d X Y m (Q : bool -> gmultiset tok -> Prop) :
  X = {[+ Seen i v k +]} ⊎ ({[+ Credit +]} ⊎ Y) ->
  (forall w : tok -> Z, (forall j, w (OwedListener j) = 0) -> msum w Y = 0) ->
  (d = 1 /\ Y = ∅ /\ (0 < MaxConnectionsPerListener L -> v < MaxConnectionsPerListener L)) \/
    (d = -1 /\ Y = {[+ OwedListener i +]}) ->
  Q true ((if decide (d = 1) then {[+ OwedListener i +]} else ∅) ⊎ m) ->
  Q false ({[+ AtMost (Nat.pred k) +]} ⊎ ({[+ Credit +]} ⊎ Y ⊎ m)) ->
  wp adm_inv never (compare_and_swap i v (v + d)) (X ⊎ m) Q.
Proof.
  intros -> HY Hd HT HF. apply wp_section. intros s F s' r HI.
  destruct (lc_used (as_listener s i) =? v) eqn:E; intros [= <- <-].
  - apply Z.eqb_eq in E. subst v.
    exists ((if decide (d = 1) then {[+ OwedListener i +]} else ∅) ⊎ m). split; [|done].
    simpl in *. rewrite <- (assoc_L (⊎)) in *.
    eapply (swap_inv i d ({[+ Seen i (lc_used (as_listener s i)) k +]} ⊎ ({[+ Credit +]} ⊎ Y))
      (if decide (d = 1) then {[+ OwedListener i +]} else ∅) s (m ⊎ F)); [..|exact HI].
    + intros w W1 W2 W3. rewrite !msum_union, !msum_single, HY, W2, W3 by done. split; [done|].
      destruct (decide _); [by rewrite msum_single|apply msum_empty].
    + intros j. rewrite !msum_union, !msum_single. simpl.
      destruct Hd as [(-> & -> & _)|(-> & ->)].
      * rewrite decide_True, msum_single, msum_empty by done. simpl. decide_ind.
      * rewrite decide_False, msum_single, msum_empty by done. simpl. decide_ind.
    + destruct (decide (d = 1)).
      * eapply subtoks_trans; [by apply subtoks_add|]. apply subtoks_drop.
      * rewrite (left_id_L ∅ (⊎)). apply subtoks_drop.
    + rewrite !multiplicity_disj_union, multiplicity_singleton_eq.
      destruct (decide _); rewrite ?multiplicity_singleton_ne, ?multiplicity_empty by done; lia.
    + intros l. destruct (decide _); [by rewrite gmultiset_elem_of_singleton|].
      apply gmultiset_not_elem_of_empty.
    + intros HL. destruct Hd as [(-> & _ & Hlt)|(-> & _)]; [specialize (Hlt HL); lia|].
      destruct HI as [_ _ Hl _ _ _ _]. destruct (Hl i) as (_ & _ & Hle). specialize (Hle HL). lia.
  - apply Z.eqb_neq in E. exists ({[+ AtMost (Nat.pred k) +]} ⊎ ({[+ Credit +]} ⊎ Y ⊎ m)).
    split; [|done]. simpl in *. rewrite <- (assoc_L (⊎)).
    apply (failed_swap_inv i v); [done|]. by rewrite !(assoc_L (⊎)) in *.
Qed.

Lemma wp_listener_acquire i fuel k W m (Q : bool -> gmultiset tok -> Prop) :
  most k W -> (k < fuel)%nat ->
  Q true ({[+ OwedListener i +]} ⊎ m) -> Q false ({[+ Credit +]} ⊎ m) ->
  wp adm_inv never (listener_acquire fuel i) (W ⊎ ({[+ Credit +]} ⊎ m)) Q.
Proof.
  intros HW Hf HT HF. revert k W HW Hf. induction fuel as [|fuel IH]; intros k W HW Hf; [lia|].
  cbn [listener_acquire]. apply wp_bind, wp_section. intros s F s' r HI [= <- <-]. simpl in HI.
  rewrite <- (assoc_L (⊎)) in HI. destruct (most_credits _ _ _ _ HW HI) as [Hk HI'].
  set (c := multiplicity Credit ({[+ Credit +]} ⊎ m ⊎ F)) in *.
  exists ({[+ Seen i (lc_used (as_listener s i)) c +]} ⊎ ({[+ Credit +]} ⊎ m)).
  split; [simpl; rewrite <- (assoc_L (⊎)); by apply load_inv|]. cbn [fst snd].
  destruct HI' as [_ _ Hl _ _ _ _]. destruct (Hl i) as (_ & El & _). rewrite El.
  destruct (_ && _) eqn:Ec.
  - apply wp_section. intros s1 F1 s2 r HI1 [= <- <-]. exists ({[+ Credit +]} ⊎ m). split; [|done].
    apply rejected_inv. simpl in *. rewrite <- (assoc_L (⊎)) in HI1. by eapply drop_seen.
  - apply wp_bind. rewrite (assoc_L (⊎)).
    eapply (wp_swap i _ c 1 _ ∅); [by rewrite (right_id_L ∅ (⊎))|intros; apply msum_empty| | |].
    + left. split_and!; [done..|]. intros. lia.
    + exact HT.
    + rewrite (right_id_L ∅ (⊎)). apply (IH (Nat.pred c)); [by right|].
      assert (1 <= c)%nat; [|lia]. unfold c. rewrite !multiplicity_disj_union, multiplicity_singleton_eq. lia.
Qed.

Lemma wp_listener_release_loop i fuel k W m (Q : unit -> gmultiset tok -> Prop) :
  most k W -> (k < fuel)%nat -> Q tt m ->
  wp adm_inv never (listener_release_loop fuel i)
    (W ⊎ ({[+ Credit +]} ⊎ ({[+ OwedListener i +]} ⊎ m))) Q.
Proof.
  intros HW Hf HQ. revert k W HW Hf. induction fuel as [|fuel IH]; intros k W HW Hf; [lia|].
  cbn [listener_release_loop]. apply wp_bind, wp_section. intros s F s' r HI [= <- <-]. simpl in HI.
  rewrite <- (assoc_L (⊎)) in HI. destruct (most_credits _ _ _ _ HW HI) as [Hk HI'].
  set (R := {[+ Credit +]} ⊎ ({[+ OwedListener i +]} ⊎ m)) in *.
  set (c := multiplicity Credit (R ⊎ F)) in *.
  exists ({[+ Seen i (lc_used (as_listener s i)) c +]} ⊎ R).
  split; [simpl; rewrite <- (assoc_L (⊎)); by apply load_inv|].
  assert (1 <= lc_used (as_listener s i)) as Hu.
  { destruct HI' as [_ _ Hl _ _ _ _]. destruct (Hl i) as (-> & _ & _). unfold R.
    rewrite !msum_union, !msum_single. simpl. pose proof (wlis_nonneg i (as_leases s)).
    pose proof (tlis_nonneg i m). pose proof (tlis_nonneg i F). unfold ind. rewrite decide_True by done. lia. }
  replace (_ <=? 0) with false by lia. apply wp_bind. unfold R. rewrite !(assoc_L (⊎)).
  replace (lc_used (as_listener s i) - 1) with (lc_used (as_listener s i) + -1) by lia.
  eapply (wp_swap i _ c (-1) _ {[+ OwedListener i +]}); [by rewrite (assoc_L (⊎))| | | |].
  - intros w Hw. by rewrite msum_single.
  - by right.
  - rewrite decide_False by done. by rewrite (left_id_L ∅ (⊎)).
  - rewrite <- !(assoc_L (⊎)). apply (IH (Nat.pred c)); [by right|].
    assert (1 <= c)%nat; [|lia]. unfold c, R. rewrite !multiplicity_disj_union, multiplicity_singleton_eq. lia.
Qed.

(** *** The methods *)
Definition clean (m : gmultiset tok) : Prop :=
  (forall l, Owed l ∉ m) /\ (forall i, OwedListener i ∉ m) /\ (forall h, OwedActivity h ∉ m).
Definition stocked (k : nat) (m : gmultiset tok) : Prop :=
  clean m /\ (k <= multiplicity Credit m)%nat.

Lemma clean_credit m : clean ({[+ Credit +]} ⊎ m) <-> clean m.
Proof.
  unfold clean. setoid_rewrite gmultiset_elem_of_disj_union. setoid_rewrite gmultiset_elem_of_singleton.
  naive_solver.
Qed.
Lemma stocked_swap k m : stocked k m -> stocked k ({[+ Credit +]} ⊎ m).
Proof. intros [Hc Hk]. split; [by apply clean_credit|]. rewrite credit_cons. lia. Qed.
Lemma stocked_take k m :
  stocked (S k) m -> exists m', m = {[+ Credit +]} ⊎ m' /\ stocked k m'.
Proof.
  intros [Hc Hk]. exists (m ∖ {[+ Credit +]}).
  assert (m = {[+ Credit +]} ⊎ m ∖ {[+ Credit +]}) as E
    by (apply gmultiset_disj_union_difference', elem_of_multiplicity; lia).
  split; [done|]. split.
  - apply clean_credit. by rewrite <- E.
  - rewrite multiplicity_difference, multiplicity_singleton_eq. lia.
Qed.
Lemma stocked_le k k' m : (k' <= k)%nat -> stocked k m -> stocked k' m.
Proof. intros ? [? ?]. split; [done|lia]. Qed.

Variable fuel : nat.
Hypothesis fuel_ok : (bound < fuel)%nat.

Lemma wp_listener_release listener m (Q : unit -> gmultiset tok -> Prop) :
  (forall m', m' = m \/ m' = {[+ Credit +]} ⊎ m -> Q tt m') ->
  wp adm_inv never (listener_release fuel listener) (slot listener ⊎ ({[+ Credit +]} ⊎ m)) Q.
Proof.
  intros HQ. destruct listener as [i|]; simpl.
  - replace ({[+ OwedListener i +]} ⊎ ({[+ Credit +]} ⊎ m))
      with (∅ ⊎ ({[+ Credit +]} ⊎ ({[+ OwedListener i +]} ⊎ m))) by multiset_solver.
    apply (wp_listener_release_loop i fuel bound); [by left|done|auto].
  - apply wp_ret. rewrite (left_id_L ∅ (⊎)). auto.
Qed.

Lemma wp_open_listener listener m (Q : bool -> gmultiset tok -> Prop) :
  (forall m', m' = m \/ m' = {[+ Credit +]} ⊎ m -> Q true (slot listener ⊎ m')) ->
  Q false ({[+ Credit +]} ⊎ m) ->
  wp adm_inv never (match listener with None => mret true | Some i => listener_acquire fuel i end)
    ({[+ Credit +]} ⊎ m) Q.
Proof.
  intros HT HF. destruct listener as [i|].
  - rewrite <- (left_id_L ∅ (⊎) ({[+ Credit +]} ⊎ m)).
    apply (wp_listener_acquire i fuel bound); [by left|done|apply (HT m); auto|done].
  - apply wp_ret. rewrite <- (left_id_L ∅ (⊎) ({[+ Credit +]} ⊎ m)). apply (HT ({[+ Credit +]} ⊎ m)). auto.
Qed.

Lemma wp_acquireOpening peer listener k m (Q : result nat -> gmultiset tok -> Prop) :
  stocked k m -> (forall r m', stocked k m' -> Q r m') ->
  wp adm_inv never (acquireOpeningWithListener fuel peer listener)
    ({[+ Credit +]} ⊎ ({[+ Credit +]} ⊎ m)) Q.
Proof.
  intros Hm HQ. apply wp_bind, wp_open_listener.
  - intros m' Hm'. assert (stocked k m') as Hs by (destruct Hm' as [-> | ->]; eauto using stocked_swap).
    assert (exists m0, m' = {[+ Credit +]} ⊎ m0 /\ stocked k m0) as (m0 & -> & Hs0)
      by (destruct Hm' as [-> | ->]; eauto using stocked_swap).
    apply wp_bind, wp_section. intros s F s' r HI E. destruct r as [j|e].
    + exists ({[+ Credit +]} ⊎ m0). split; [|by apply HQ]. eapply open_ok; [exact E|].
      simpl in HI. by rewrite <- (assoc_L (⊎)) in HI.
    + exists (slot listener ⊎ ({[+ Credit +]} ⊎ m0)). split.
      { unfold open_section in E. cbv zeta in E. repeat case_match; simplify_eq; by apply reject_inv. }
      apply wp_bind, wp_listener_release. intros m1 [-> | ->]; apply HQ; eauto using stocked_swap.
  - cbn [negb]. apply wp_section. intros s F s' r HI [= <- <-].
    exists ({[+ Credit +]} ⊎ ({[+ Credit +]} ⊎ m)). split; [by apply reject_inv|].
    apply HQ. eauto using stocked_swap.
Qed.

Lemma wp_activate j k m (Q : bool -> gmultiset tok -> Prop) :
  stocked k m -> (forall r m', stocked k m' -> Q r m') -> wp adm_inv never (activate j) m Q.
Proof.
  intros Hm HQ. apply wp_section. intros s F s' r HI E. exists m. split; [|by apply HQ].
  unfold activate_section in E. destruct (as_leases s !! j) as [l|] eqn:Hj; [|by simplify_eq].
  destruct (cl_state l) eqn:Hst; simplify_eq; try done.
  rewrite <- Hst. apply move_inv; [done|by rewrite Hst|done|by rewrite Hst|done].
Qed.

Lemma wp_drain j k m (Q : bool -> gmultiset tok -> Prop) :
  stocked k m -> (forall r m', stocked k m' -> Q r m') -> wp adm_inv never (beginDrain j) m Q.
Proof.
  intros Hm HQ. apply wp_section. intros s F s' r HI E. exists m. split; [|by apply HQ].
  unfold drain_section in E. destruct (as_leases s !! j) as [l|] eqn:Hj; [|by simplify_eq].
  destruct (bool_decide _) eqn:Hst; cbn [negb] in E; simplify_eq; [|done]. apply bool_decide_eq_true in Hst.
  rewrite <- Hst. apply move_inv; [done|by rewrite Hst|done|by rewrite Hst|done].
Qed.

Lemma wp_lease_release j k m (Q : unit -> gmultiset tok -> Prop) :
  stocked k m -> (forall m', stocked k m' -> Q tt m') ->
  wp adm_inv never (release fuel j) ({[+ Credit +]} ⊎ m) Q.
Proof.
  intros Hm HQ. apply wp_bind, wp_section. intros s F s' r HI E. unfold release_mark in E.
  assert (forall s1, adm_inv s1 ({[+ Credit +]} ⊎ m ∙ F) -> exists m', adm_inv s1 (m' ∙ F) /\
    wp adm_inv never (mret tt) m' Q) as Hskip
    by (intros s1 ?; exists ({[+ Credit +]} ⊎ m); split; [done|]; apply wp_ret, HQ, stocked_swap, Hm).
  destruct (as_leases s !! j) as [l|] eqn:Hj; [|simplify_eq; by apply Hskip].
  destruct (bool_decide _) eqn:Hst; simplify_eq; [by apply Hskip|]. clear Hskip.
  apply bool_decide_eq_false in Hst. exists ({[+ Owed l +]} ⊎ ({[+ Credit +]} ⊎ m)). split.
  { simpl in *. rewrite <- !(assoc_L (⊎)) in *. by apply mark_inv. }
  apply wp_bind, wp_section. intros s1 F1 s2 r HI1 [= <- <-].
  exists (slot (cl_listener l) ⊎ ({[+ Credit +]} ⊎ m)). split.
  { simpl in *. rewrite <- !(assoc_L (⊎)) in *. by apply count_inv. }
  apply wp_listener_release. intros m' [-> | ->]; eauto using stocked_swap.
Qed.

Lemma wp_activity h k m (Q : result nat -> gmultiset tok -> Prop) :
  stocked k m -> (forall r m', stocked k m' -> Q r m') ->
  wp adm_inv never (atomically (acquire_activity h)) m Q.
Proof.
  intros Hm HQ. apply wp_section. intros s F s' r HI E. exists m. split; [|by apply HQ].
  by eapply activity_ok.
Qed.

Lemma wp_releaseActivity j k m (Q : bool -> gmultiset tok -> Prop) :
  stocked k m -> (forall r m', stocked k m' -> Q r m') -> wp adm_inv never (releaseActivity j) m Q.
Proof.
  intros Hm HQ. apply wp_bind, wp_section. intros s F s' r HI E. unfold release_activity_mark in E.
  destruct (as_activities s !! j) as [l|] eqn:Hj; [|simplify_eq; exists m; split; [done|by apply HQ]].
  destruct (al_released l) eqn:Hr; simplify_eq; [exists m; split; [done|by apply HQ]|].
  exists ({[+ OwedActivity (al_handshake l) +]} ⊎ m). split.
  { simpl in *. rewrite <- !(assoc_L (⊎)) in *. by apply activity_mark_inv. }
  apply wp_section. intros s1 F1 s2 r HI1 [= <- <-]. exists m. split; [|by apply HQ].
  simpl in *. rewrite <- !(assoc_L (⊎)) in *. by apply activity_count_inv.
Qed.

Lemma wp_admission_op o k m (Q : unit -> gmultiset tok -> Prop) :
  stocked (2 + k) m -> (forall m', stocked k m' -> Q tt m') ->
  wp adm_inv never (admission_op_prog fuel o) m Q.
Proof.
  intros Hm HQ. pose proof (stocked_le (2 + k) k m ltac:(lia) Hm) as Hk.
  destruct (stocked_take _ _ Hm) as (m1 & E1 & H1). destruct (stocked_take _ _ H1) as (m2 & E2 & H2).
  destruct o as [p l|p|j|j|j| | |j]; unfold admission_op_prog; try apply wp_bind.
  - rewrite E1, E2. eapply wp_acquireOpening; [exact H2|]. eauto.
  - rewrite E1, E2. apply wp_bind. eapply wp_acquireOpening; [exact H2|]. intros [j|e] m' Hm'; [|by apply HQ].
    apply wp_bind. eapply wp_activate; [exact Hm'|]. intros. by apply HQ.
  - eapply wp_activate; eauto.
  - eapply wp_drain; eauto.
  - rewrite E1. apply (wp_lease_release j k); [apply (stocked_le (S k)); [lia|exact H1]|done].
  - eapply wp_activity; eauto.
  - eapply wp_activity; eauto.
  - eapply wp_releaseActivity; eauto.
Qed.

Lemma wp_admission_goroutine ops m :
  stocked (2 * length ops) m -> wp adm_inv never (admission_goroutine fuel ops) m (fun _ => clean).
Proof.
  revert m. induction ops as [|o ops IH]; intros m Hm; [apply Hm|]. cbn [admission_goroutine].
  apply wp_bind. eapply (wp_admission_op o (2 * length ops)); [|by auto].
  apply (stocked_le (2 * length (o :: ops))); [simpl; lia|exact Hm].
Qed.
End invariant.

(** ** Reachable states *)
Definition admission_pool (fuel : nat) (L : Limits) (opss : list (list admission_op)) : pool admissionState :=
  (new_admission L, admission_goroutine fuel <$> opss).
(** Twice the number of operations: each swaps a listener's counter at most twice. *)
Definition swaps (opss : list (list admission_op)) : nat := 2 * length (mjoin opss).

(** Leases of a phase, live leases of a peer and of a listener, activities. *)
Definition leases_in (st : connectionLeaseState) (s : admissionState) : Z :=
  Z.of_nat (length (filter (fun l => cl_state l = st) (as_leases s))).
Definition leases_of_peer (p : string) (s : admissionState) : Z :=
  Z.of_nat (length (filter (fun l => cl_state l <> connectionReleased /\ cl_peer l = p /\ p <> "") (as_leases s))).
Definition leases_of_listener (i : nat) (s : admissionState) : Z :=
  Z.of_nat (length (filter (fun l => cl_state l <> connectionReleased /\ cl_listener l = Some i) (as_leases s))).
Definition activities_in (h : bool) (s : admissionState) : Z :=
  Z.of_nat (length (filter (fun l => al_released l = false /\ al_handshake l = h) (as_activities s))).

Lemma admission_inv_init L k : (0 <= MaxConnectionsPerListener L) ->
  (0 <= MaxConnections L) -> (0 <= MaxConnectionsPerPeer L) ->
  adm_inv L k (new_admission L) (copies Credit k).
Proof.
  intros HL HC HP.
  assert (forall w : tok -> Z, w Credit = 0 -> msum w (copies Credit k) = 0) as Hz
    by (intros w Hw; apply msum_zero; by intros t ->%elem_copies).
  split; simpl.
  - intros st Hst. rewrite Hz by done. by destruct st.
  - intros p. by rewrite Hz.
  - intros i. rewrite Hz by done. simpl. split_and!; [done..|lia].
  - intros h. rewrite Hz by done. by destruct h.
  - split; [by rewrite mult_copies|by intros j ?%elem_copies|by intros i v j ?%elem_copies].
  - split; simpl; done || lia.
  - by intros l ?%elem_copies.
Qed.

Lemma count_zero {A} (P : A -> Prop) `{forall x, Decision (P x)} l :
  Z.of_nat (length (filter P l)) = 0 <-> Forall (fun x => ~ P x) l.
Proof.
  induction l as [|x l IH]; [by split; [constructor|]|]. rewrite filter_cons, Forall_cons_iff, <- IH.
  case_decide; simpl; [split; [lia|tauto]|tauto].
Qed.

(** The idle test, when the counters are exact. *)
Lemma idle_spec s :
  (forall st, st <> connectionReleased -> phase st (as_ctl s) = leases_in st s) ->
  (forall h, activity h (as_ctl s) = activities_in h s) ->
  idle (as_ctl s) = true <->
    Forall (fun l => cl_state l = connectionReleased) (as_leases s) /\
    Forall (fun l => al_released l = true) (as_activities s).
Proof.
  intros Hph Hact. unfold idle. rewrite !andb_true_iff, !Z.eqb_eq.
  change (ac_opening (as_ctl s)) with (phase connectionOpening (as_ctl s)).
  change (ac_active (as_ctl s)) with (phase connectionActive (as_ctl s)).
  change (ac_draining (as_ctl s)) with (phase connectionDraining (as_ctl s)).
  change (ac_handshakes (as_ctl s)) with (activity true (as_ctl s)).
  change (ac_upgrades (as_ctl s)) with (activity false (as_ctl s)).
  rewrite !Hph, !Hact by done. unfold leases_in, activities_in. rewrite !count_zero, !Forall_forall.
  split.
  - intros ((((H1 & H2) & H3) & H4) & H5). split; intros l Hl.
    + specialize (H1 l Hl). specialize (H2 l Hl). specialize (H3 l Hl). by destruct (cl_state l).
    + specialize (H4 l Hl). specialize (H5 l Hl). destruct (al_released l), (al_handshake l); naive_solver.
  - intros [H1 H2]. split_and!; intros l Hl; [rewrite (H1 l Hl)..|rewrite (H2 l Hl)|rewrite (H2 l Hl)]; naive_solver.
Qed.

(** The counters are exact: each phase counts the leases in it, a peer and a listener
    their live leases, and the controller is idle exactly when everything was released. *)
Definition exact_counts (s : admissionState) : Prop :=
  ac_opening (as_ctl s) = leases_in connectionOpening s /\
  ac_active (as_ctl s) = leases_in connectionActive s /\
  ac_draining (as_ctl s) = leases_in connectionDraining s /\
  (forall p, ac_perPeer (as_ctl s) !! p = entry (leases_of_peer p s)) /\
  (forall i, lc_used (as_listener s i) = leases_of_listener i s) /\
  (forall h, activity h (as_ctl s) = activities_in h s) /\
  (idle (as_ctl s) = true <->
     Forall (fun l => cl_state l = connectionReleased) (as_leases s) /\
     Forall (fun l => al_released l = true) (as_activities s)).
Lemma settled_counts L bound s m : clean m -> adm_inv L bound s m -> exact_counts s.
Proof.
  intros (C1 & C2 & C3) [Hp Hpe Hl Ha _ _ _].
  assert (forall st, msum (tphase st) m = 0) as Z1
    by (intros; apply msum_zero; intros [] Hin; try done; by destruct (C1 l)).
  assert (forall p, msum (tpeer p) m = 0) as Z2
    by (intros; apply msum_zero; intros [] Hin; try done; by destruct (C1 l)).
  assert (forall i, msum (tlis i) m = 0) as Z3
    by (intros; apply msum_zero; intros [] Hin; try done; [by destruct (C1 l)|by destruct (C2 i0)]).
  assert (forall h, msum (tact h) m = 0) as Z4
    by (intros; apply msum_zero; intros [] Hin; try done; by destruct (C3 h0)).
  assert (forall st, st <> connectionReleased -> phase st (as_ctl s) = leases_in st s) as Hph.
  { intros st Hs. rewrite Hp, Z1, Z.add_0_r by done. apply lsum_length. }
  assert (forall h, activity h (as_ctl s) = activities_in h s) as Hact.
  { intros h. rewrite Ha, Z4, Z.add_0_r. apply lsum_length. }
  split_and!; [by apply (Hph connectionOpening)|by apply (Hph connectionActive)|
    by apply (Hph connectionDraining)| | |done|].
  - intros p. rewrite Hpe, Z2, Z.add_0_r. f_equal. apply lsum_length.
  - intros i. destruct (Hl i) as (-> & _ & _). rewrite Z3, Z.add_0_r. apply lsum_length.
  - apply idle_spec; done.
Qed.
(** No limit is exceeded; a limit of zero is no limit. *)
Definition within_limits (L : Limits) (s : admissionState) : Prop :=
  let a := as_ctl s in
  (0 < MaxConnections L -> ac_opening a + ac_active a + ac_draining a <= MaxConnections L) /\
  (0 < MaxConnectionsPerPeer L -> forall p, peer_count p a <= MaxConnectionsPerPeer L) /\
  (0 < MaxConnectionsPerListener L -> forall i, listener_current (Some (as_listener s i)) <= MaxConnectionsPerListener L) /\
  (0 < MaxConcurrentHandshakes L -> ac_handshakes a <= MaxConcurrentHandshakes L) /\
  (0 < MaxPendingUpgrades L -> ac_upgrades a <= MaxPendingUpgrades L).
Lemma inv_within_limits L bound s m : adm_inv L bound s m -> within_limits L s.
Proof.
  intros [_ _ Hl _ _ [_ ? ? ? ?] _]. split_and!; try done. intros HL i. destruct (Hl i) as (_ & _ & Hle). auto.
Qed.
Lemma clean_sum ms : Forall clean ms -> clean (gsum ms).
Proof.
  intros Hms. induction Hms as [|m ms (H1 & H2 & H3) _ (I1 & I2 & I3)]; [split_and!; multiset_solver|].
  change (gsum (m :: ms)) with (m ⊎ gsum ms). unfold clean.
  setoid_rewrite gmultiset_elem_of_disj_union. naive_solver.
Qed.
Lemma clean_copies n m : clean (m ⊎ copies Credit n) <-> clean m.
Proof.
  unfold clean. setoid_rewrite gmultiset_elem_of_disj_union. split; [naive_solver|].
  intros (H1 & H2 & H3). split_and!; intros ? [?|?%elem_copies]; naive_solver.
Qed.

Section reachable.
Context (L : Limits) (opss : list (list admission_op)) (fuel : nat).
Hypothesis limits_ok : validate L = None.
Hypothesis fuel_ok : (swaps opss < fuel)%nat.

Lemma admission_pool_ok c :
  rtc pstep (admission_pool fuel L opss) c -> pool_ok (adm_inv L (swaps opss)) never clean c.
Proof.
  unfold validate in limits_ok. repeat (destruct (_ <? 0) eqn:? in limits_ok; [done|]).
  eapply wp_adequate with (ms := (fun ops => copies Credit (2 * length ops)) <$> opss).
  - rewrite gsum_copies. apply admission_inv_init; lia.
  - unfold owns. apply Forall2_fmap_2. apply Forall_Forall2_diag. apply Forall_forall.
    intros ops Hin. apply wp_admission_goroutine; [done|]. split; [|by rewrite mult_copies].
    split_and!; by intros ? ?%elem_copies.
Qed.

(** C21. Whatever goroutines open, activate, drain and release concurrently, no limit is
    ever exceeded: not the Engine's, not a peer's, not a listener's, not that of the
    handshakes or the upgrades (a limit of zero is no limit). *)
Theorem admission_within_limits c : rtc pstep (admission_pool fuel L opss) c -> within_limits L c.1.
Proof. intros (ms & _ & HI)%admission_pool_ok. by eapply inv_within_limits. Qed.

Lemma admission_settled c :
  rtc pstep (admission_pool fuel L opss) c -> ~ can_step c ->
  finished c /\ exists m, clean m /\ adm_inv L (swaps opss) c.1 m.
Proof.
  intros Hok%admission_pool_ok Hst. assert (finished c) as Hf.
  { destruct (pool_ok_blocked _ _ _ _ Hok Hst) as (ms & _ & Hall). destruct c as [s ts].
    eapply not_blocked_finished; [exact Hall|]. intros m _ []. }
  split; [done|]. destruct (pool_ok_finished _ _ _ _ Hok Hf) as (ms & Hms & HI).
  exists (gsum ms). split; [|done]. by apply clean_sum.
Qed.

(** C20. Every loop ends, and once no call is in progress the counters are exact, however
    often each lease was activated, drained and released: each phase
    counts the leases in it, a peer and a listener their live leases (a peer
    without one has no entry), and the controller is idle exactly when every lease
    and every activity has been released. *)
Theorem admission_counts_exact c :
  rtc pstep (admission_pool fuel L opss) c -> ~ can_step c -> finished c /\ exact_counts c.1.
Proof. intros Hr Hst. destruct (admission_settled _ Hr Hst) as (Hf & m & Hm & HI). split; [done|]. by eapply settled_counts. Qed.
End reachable.

(** ** One admission alone *)
(** How much of a limit is in use, and the limit. *)
Definition usage (peer : string) (listener : option nat) (k : LimitKind) (s : admissionState) : Z * Z :=
  let a := as_ctl s in
  match k with
  | LimitConnections => (ac_opening a + ac_active a + ac_draining a, MaxConnections (ac_limits a))
  | LimitConnectionsPerPeer =>
      if decide (peer = "") then (0, 0) else (peer_count peer a, MaxConnectionsPerPeer (ac_limits a))
  | LimitConnectionsPerListener =>
      match listener with
      | Some i => (lc_used (as_listener s i), lc_limit (as_listener s i))
      | None => (0, 0)
      end
  | _ => (0, 0)
  end.
(** The order in which the limits are checked. *)
Definition check_order (k : LimitKind) : Z :=
  match k with
  | LimitConnectionsPerListener => 0 | LimitConnections => 1 | LimitConnectionsPerPeer => 2 | _ => 3
  end.
Definition exhausted (u : Z * Z) : Prop := 0 < u.2 /\ u.2 <= u.1.
(** Everything but the rejection counters. *)
Definition same_counts (s s' : admissionState) : Prop :=
  as_leases s' = as_leases s /\ as_activities s' = as_activities s /\
  (forall i, lc_used (as_listener s' i) = lc_used (as_listener s i)) /\
  (forall st, phase st (as_ctl s') = phase st (as_ctl s)) /\
  ac_perPeer (as_ctl s') = ac_perPeer (as_ctl s).

Lemma exec_listener_acquire f i s :
  exec (listener_acquire (S f) i) s =
  [Some (if (lc_limit (as_listener s i) >? 0) && (lc_used (as_listener s i) >=? lc_limit (as_listener s i))
         then (with_listener i add_rejected s, false)
         else (with_listener i (set_used (lc_used (as_listener s i) + 1)) s, true))].
Proof.
  cbn [listener_acquire]. erewrite exec_bind by (rewrite exec_atomically; reflexivity). cbn [fst snd].
  destruct (_ && _) eqn:E; [by rewrite exec_atomically|].
  erewrite exec_bind; [|unfold compare_and_swap; rewrite exec_atomically, Z.eqb_refl; reflexivity]. done.
Qed.

Lemma exec_listener_release f i s :
  0 < lc_used (as_listener s i) ->
  exec (listener_release_loop (S f) i) s
  = [Some (with_listener i (set_used (lc_used (as_listener s i) - 1)) s, tt)].
Proof.
  intros Hpos. cbn [listener_release_loop]. erewrite exec_bind by (rewrite exec_atomically; reflexivity).
  replace (_ <=? 0) with false by lia.
  erewrite exec_bind; [|unfold compare_and_swap; rewrite exec_atomically, Z.eqb_refl; reflexivity]. done.
Qed.

(** The locked section, alone. *)
Lemma open_section_spec peer listener s :
  exists s' r, open_section peer listener s = (s', r) /\
    (forall i, as_listener s' i = as_listener s i) /\
    match r with
    | inl j =>
        ~ exhausted (usage peer listener LimitConnections s) /\
        ~ exhausted (usage peer listener LimitConnectionsPerPeer s) /\
        as_leases s' = as_leases s ++
          [{| cl_peer := peer; cl_listener := listener; cl_state := connectionOpening |}] /\
        j = length (as_leases s)
    | inr e => exists k,
        (k = LimitConnections \/
         k = LimitConnectionsPerPeer /\ ~ exhausted (usage peer listener LimitConnections s)) /\
        exhausted (usage peer listener k s) /\ e = LimitError k (usage peer listener k s).2 /\
        same_counts s s'
    end.
Proof.
  unfold open_section. cbv zeta. destruct (_ && _) eqn:E1.
  { eexists _, (inr _). split_and!; [done..|]. exists LimitConnections. unfold exhausted, same_counts. simpl.
    split_and!; [by left|lia|lia|done..]. }
  destruct (_ && _ && _) eqn:E2.
  { eexists _, (inr _). split_and!; [done..|]. exists LimitConnectionsPerPeer.
    apply andb_true_iff in E2 as [[Hp%negb_true_iff%bool_decide_eq_false H1]%andb_true_iff H2].
    unfold exhausted, same_counts. simpl. rewrite decide_False by done. simpl.
    split_and!; [right; split; [done|lia]|lia|lia|done..]. }
  eexists _, (inl _). unfold exhausted. simpl. split_and!; [done|done|lia| |done|done].
  destruct (decide (peer = "")); simpl; [lia|]. rewrite bool_decide_eq_false_2 in E2 by done. simpl in E2. lia.
Qed.

(** An uncontended admission: it succeeds exactly when no limit that applies is
    exhausted, and then creates one opening lease; a refusal names the first exhausted
    limit in the order listener, Engine, peer, and leaves every count as it was, the
    listener's slot having been given back. *)
Theorem acquireOpening_spec f peer listener s :
  (forall i, 0 <= lc_used (as_listener s i)) ->
  exists s' r, exec (acquireOpeningWithListener (S f) peer listener) s = [Some (s', r)] /\
    match r with
    | inl j =>
        (forall k, ~ exhausted (usage peer listener k s)) /\ j = length (as_leases s) /\
        as_leases s' = as_leases s ++
          [{| cl_peer := peer; cl_listener := listener; cl_state := connectionOpening |}]
    | inr e => exists k, exhausted (usage peer listener k s) /\
        e = LimitError k (usage peer listener k s).2 /\ same_counts s s' /\
        (forall k', exhausted (usage peer listener k' s) -> check_order k <= check_order k')
    end.
Proof.
  intros Hnn. unfold acquireOpeningWithListener.
  assert (forall k, (k = LimitConnections \/ k = LimitConnectionsPerPeer /\
      ~ exhausted (usage peer listener LimitConnections s)) ->
    ~ exhausted (usage peer listener LimitConnectionsPerListener s) ->
    forall k', exhausted (usage peer listener k' s) -> check_order k <= check_order k') as Hfirst.
  { intros k Hk Hl k' Hk'. destruct Hk as [-> | [-> ?]]; destruct k'; simpl; done || lia. }
  destruct listener as [i|].
  - pose proof (exec_listener_acquire f i s) as Ex.
    destruct (_ && _) eqn:E in Ex; erewrite exec_bind by exact Ex; clear Ex.
    { cbn [negb]. rewrite exec_atomically. eexists _, (inr _). split; [done|].
      exists LimitConnectionsPerListener. unfold exhausted, same_counts. simpl. unfold fupd.
      rewrite decide_True by done. simpl. split_and!; [lia|lia|done..| |done|done|].
      - intros j. case_decide; by subst.
      - intros [] _; simpl; lia. }
    cbn [negb]. set (s1 := with_listener i _ s).
    destruct (open_section_spec peer (Some i) s1) as (s2 & r & E2 & Hlis & Hr).
    erewrite exec_bind by (rewrite exec_atomically, E2; reflexivity).
    assert (~ exhausted (usage peer (Some i) LimitConnectionsPerListener s)) as Hl
      by (unfold exhausted; simpl; lia).
    destruct r as [j|e].
    + destruct Hr as (H1 & H2 & H3 & H4). exists s2, (inl j). split_and!; [done| |done..].
      intros []; try done; unfold exhausted; simpl; lia.
    + destruct Hr as (k & Hk & Hex & -> & Hs).
      assert (lc_used (as_listener s2 i) = lc_used (as_listener s i) + 1) as Eu
        by (rewrite Hlis; simpl; unfold fupd; by rewrite decide_True).
      unfold listener_release.
      erewrite exec_bind by (apply exec_listener_release; rewrite Eu; specialize (Hnn i); lia).
      eexists _, (inr _). split; [done|]. exists k.
      assert (usage peer (Some i) k s1 = usage peer (Some i) k s) as EU
        by (by destruct Hk as [-> | [-> _]]). rewrite EU in *.
      split_and!; [done..| |by apply Hfirst].
      destruct Hs as (? & ? & _ & ? & ?). split_and!; try done. intros j. simpl. unfold fupd.
      case_decide; subst; simpl; [lia|]. rewrite Hlis. simpl. unfold fupd. by rewrite decide_False.
  - cbn [negb]. destruct (open_section_spec peer None s) as (s2 & r & E2 & Hlis & Hr).
    erewrite exec_bind by reflexivity. cbn [negb].
    erewrite exec_bind by (rewrite exec_atomically, E2; reflexivity).
    assert (~ exhausted (usage peer None LimitConnectionsPerListener s)) as Hl
      by (unfold exhausted; simpl; lia).
    destruct r as [j|e].
    + destruct Hr as (H1 & H2 & H3 & H4). exists s2, (inl j). split_and!; [done| |done..].
      intros []; try done; unfold exhausted; simpl; lia.
    + destruct Hr as (k & Hk & Hex & -> & Hs). eexists _, (inr _). split; [done|]. exists k.
      split_and!; [done..|by apply Hfirst].
Qed.

Definition demo_limits : Limits :=
  {| MaxConnections := 2; MaxConnectionsPerPeer := 1; MaxConnectionsPerListener := 1;
     MaxConcurrentHandshakes := 1; MaxPendingUpgrades := 1; MaxQueuedBytesTotal := 0 |}.
(** Two goroutines compete for the same peer; one of them is refused. *)
Definition admission_demo : list (list admission_op) :=
  [[Open "192.0.2.1" (Some 0%nat); Activate 0; Handshake]; [Connect "192.0.2.1"; Release 0]].
Definition admission_demo_pool (sched : list (nat * nat)) : pool admissionState :=
  reached (admission_pool 20 demo_limits admission_demo) sched.

Definition admission_demo_end : pool admissionState := admission_demo_pool (in_turn 2 30).

Lemma demo_fuel : (swaps admission_demo < 20)%nat.
Proof. vm_compute. lia. Qed.

Lemma admission_within_limits_witness :
  rtc pstep (admission_pool 20 demo_limits admission_demo) admission_demo_end /\
  let a := as_ctl admission_demo_end.1 in
  (0 < MaxConnections demo_limits ->
     ac_opening a + ac_active a + ac_draining a <= MaxConnections demo_limits).
Proof.
  assert (rtc pstep (admission_pool 20 demo_limits admission_demo) admission_demo_end) as Hr
    by apply reached_steps.
  split; [exact Hr|].
  exact (proj1 (admission_within_limits demo_limits admission_demo 20 eq_refl
                  demo_fuel admission_demo_end Hr)).
Defined.

Lemma admission_counts_exact_witness : finished admission_demo_end.
Proof.
  assert (rtc pstep (admission_pool 20 demo_limits admission_demo) admission_demo_end) as Hr
    by apply reached_steps.
  assert (~ can_step admission_demo_end) as Hn
    by (apply finished_no_step; vm_compute; repeat constructor).
  exact (proj1 (admission_counts_exact demo_limits admission_demo 20 eq_refl
                  demo_fuel admission_demo_end Hr Hn)).
Defined.

Lemma acquireOpening_spec_witness :
  exists s' j, exec (acquireOpeningWithListener 1 "192.0.2.1" (Some 0%nat)) (new_admission demo_limits)
    = [Some (s', inl j)] /\ j = 0%nat.
Proof.
  destruct (acquireOpening_spec 0 "192.0.2.1" (Some 0%nat) (new_admission demo_limits))
    as (s' & r & E & Hr); [intros i; simpl; lia|].
  exists s', 0%nat. split; [|reflexivity]. rewrite E. vm_compute in E. injection E as _ E2.
  rewrite <- E2. reflexivity.
Defined.
