(* ===== verification/Engine.v ===== *)
(** * Engine: tracking and shutdown (transport/engine.go, engine_shutdown.go,
    engine_tracking_add.go, engine_tracking_remove.go, engine_admission.go)

    The Engine tracks its listeners and connections, counts the operations in
    progress and closes [done] when it is no longer running and nothing is left, the
    admission controller included.  [e.mu] is modelled as a lock: the calls into the
    admission controller that are made while it is held take the controller's own
    locks, so other goroutines' admission calls run in between.  Connections and
    listeners are identified by numbers. *)
From S2P Require Import Prelude Conc Kinds Errors Lifecycle Quota Limits.
Local Open Scope go_scope.

Inductive engineState := engineRunning | engineDraining | engineAborting | engineDone.
#[global] Instance engineState_eq_dec : EqDecision engineState.
Proof. solve_decision. Defined.

Record Engine := {
  e_locked : bool;
  e_state : engineState;
  e_shutdownReason : abortReason;
  e_shutdownErr : option error;
  e_activeOps : Z;
  e_streamListeners : gset nat;
  e_wsListeners : gset nat;
  e_streams : gset nat;
  e_websockets : gset nat;
  e_packets : gset nat;
  e_streamLeases : gmap nat nat;
  e_wsLeases : gmap nat nat;
  e_packetLeases : gmap nat nat;
  e_done : bool;
  e_observerStopped : bool;
  e_admission : admissionState;
  e_ctx : nat -> option error;   (* environment: [context.Cause] of the contexts in use *)
}.

Definition new_engine (limits : Limits) : Engine :=
  {| e_locked := false; e_state := engineRunning; e_shutdownReason := abortNone;
     e_shutdownErr := None; e_activeOps := 0; e_streamListeners := ∅; e_wsListeners := ∅;
     e_streams := ∅; e_websockets := ∅; e_packets := ∅; e_streamLeases := ∅; e_wsLeases := ∅;
     e_packetLeases := ∅; e_done := false; e_observerStopped := false;
     e_admission := new_admission limits; e_ctx := fun _ => None |}.

(** ** Field updates *)
Definition set_locked (b : bool) (e : Engine) : Engine :=
  {| e_locked := b; e_state := e_state e; e_shutdownReason := e_shutdownReason e;
     e_shutdownErr := e_shutdownErr e; e_activeOps := e_activeOps e;
     e_streamListeners := e_streamListeners e; e_wsListeners := e_wsListeners e;
     e_streams := e_streams e; e_websockets := e_websockets e; e_packets := e_packets e;
     e_streamLeases := e_streamLeases e; e_wsLeases := e_wsLeases e;
     e_packetLeases := e_packetLeases e; e_done := e_done e;
     e_observerStopped := e_observerStopped e; e_admission := e_admission e;
     e_ctx := e_ctx e |}.
Definition set_ops (n : Z) (e : Engine) : Engine :=
  {| e_locked := e_locked e; e_state := e_state e; e_shutdownReason := e_shutdownReason e;
     e_shutdownErr := e_shutdownErr e; e_activeOps := n;
     e_streamListeners := e_streamListeners e; e_wsListeners := e_wsListeners e;
     e_streams := e_streams e; e_websockets := e_websockets e; e_packets := e_packets e;
     e_streamLeases := e_streamLeases e; e_wsLeases := e_wsLeases e;
     e_packetLeases := e_packetLeases e; e_done := e_done e;
     e_observerStopped := e_observerStopped e; e_admission := e_admission e;
     e_ctx := e_ctx e |}.
Definition set_shutdown (st : engineState) (r : abortReason) (err : option error) (e : Engine) : Engine :=
  {| e_locked := e_locked e; e_state := st; e_shutdownReason := r;
     e_shutdownErr := err; e_activeOps := e_activeOps e;
     e_streamListeners := e_streamListeners e; e_wsListeners := e_wsListeners e;
     e_streams := e_streams e; e_websockets := e_websockets e; e_packets := e_packets e;
     e_streamLeases := e_streamLeases e; e_wsLeases := e_wsLeases e;
     e_packetLeases := e_packetLeases e; e_done := e_done e;
     e_observerStopped := e_observerStopped e; e_admission := e_admission e;
     e_ctx := e_ctx e |}.
(** [e.state = engineDone] and [doneOnce.Do(func() { e.observer.stop(); close(e.done) })] *)
Definition set_done (e : Engine) : Engine :=
  {| e_locked := e_locked e; e_state := engineDone; e_shutdownReason := e_shutdownReason e;
     e_shutdownErr := e_shutdownErr e; e_activeOps := e_activeOps e;
     e_streamListeners := e_streamListeners e; e_wsListeners := e_wsListeners e;
     e_streams := e_streams e; e_websockets := e_websockets e; e_packets := e_packets e;
     e_streamLeases := e_streamLeases e; e_wsLeases := e_wsLeases e;
     e_packetLeases := e_packetLeases e; e_done := true;
     e_observerStopped := true; e_admission := e_admission e;
     e_ctx := e_ctx e |}.

(** The two listener sets and the three connection sets with their leases. *)
Inductive listenerKind := StreamListener | WSListener.
Inductive connKind := Stream | WebSocket | Packet.
Definition set_listeners (k : listenerKind) (f : gset nat -> gset nat) (e : Engine) : Engine :=
  {| e_locked := e_locked e; e_state := e_state e; e_shutdownReason := e_shutdownReason e;
     e_shutdownErr := e_shutdownErr e; e_activeOps := e_activeOps e;
     e_streamListeners := (if k is StreamListener then f else id) (e_streamListeners e);
     e_wsListeners := (if k is WSListener then f else id) (e_wsListeners e);
     e_streams := e_streams e; e_websockets := e_websockets e; e_packets := e_packets e;
     e_streamLeases := e_streamLeases e; e_wsLeases := e_wsLeases e;
     e_packetLeases := e_packetLeases e; e_done := e_done e;
     e_observerStopped := e_observerStopped e; e_admission := e_admission e;
     e_ctx := e_ctx e |}.
Definition set_conns (k : connKind) (f : gset nat -> gset nat) (g : gmap nat nat -> gmap nat nat)
    (e : Engine) : Engine :=
  {| e_locked := e_locked e; e_state := e_state e; e_shutdownReason := e_shutdownReason e;
     e_shutdownErr := e_shutdownErr e; e_activeOps := e_activeOps e;
     e_streamListeners := e_streamListeners e; e_wsListeners := e_wsListeners e;
     e_streams := (if k is Stream then f else id) (e_streams e);
     e_websockets := (if k is WebSocket then f else id) (e_websockets e);
     e_packets := (if k is Packet then f else id) (e_packets e);
     e_streamLeases := (if k is Stream then g else id) (e_streamLeases e);
     e_wsLeases := (if k is WebSocket then g else id) (e_wsLeases e);
     e_packetLeases := (if k is Packet then g else id) (e_packetLeases e); e_done := e_done e;
     e_observerStopped := e_observerStopped e; e_admission := e_admission e;
     e_ctx := e_ctx e |}.
Definition leases_map (k : connKind) (e : Engine) : gmap nat nat :=
  match k with Stream => e_streamLeases e | WebSocket => e_wsLeases e | Packet => e_packetLeases e end.
Definition admission_lens : lens Engine admissionState :=
  {| lget := e_admission;
     lset := fun a e =>
       {| e_locked := e_locked e; e_state := e_state e; e_shutdownReason := e_shutdownReason e;
          e_shutdownErr := e_shutdownErr e; e_activeOps := e_activeOps e;
          e_streamListeners := e_streamListeners e; e_wsListeners := e_wsListeners e;
          e_streams := e_streams e; e_websockets := e_websockets e; e_packets := e_packets e;
          e_streamLeases := e_streamLeases e; e_wsLeases := e_wsLeases e;
          e_packetLeases := e_packetLeases e; e_done := e_done e;
          e_observerStopped := e_observerStopped e; e_admission := a;
          e_ctx := e_ctx e |} |}.
Definition adm {A} (p : prog admissionState A) : prog Engine A := lift admission_lens p.

(** ** The lock *)
Definition lock : prog Engine unit :=
  select (fun e => if e_locked e then [] else [(set_locked true e, tt)]).
Definition unlock : prog Engine unit := atomically (fun e => (set_locked false e, tt)).

(** Nothing is tracked and nothing is in progress. *)
Definition nothing_left (e : Engine) : bool :=
  (e_activeOps e =? 0) && bool_decide (e_streamListeners e = ∅)
  && bool_decide (e_wsListeners e = ∅) && bool_decide (e_streams e = ∅)
  && bool_decide (e_websockets e = ∅) && bool_decide (e_packets e = ∅)
  && idle (as_ctl (e_admission e)).
Definition maybe_done (e : Engine) : Engine :=
  if negb (bool_decide (e_state e = engineRunning)) && nothing_left e then set_done e else e.
Definition maybeDoneLocked : prog Engine unit := atomically (fun e => (maybe_done e, tt)).
Definition maybeDone : prog Engine unit :=
  lock ≫= fun _ => maybeDoneLocked ≫= fun _ => unlock.

(** ** engine_tracking_add.go *)
Definition beginOp : prog Engine (option error) :=
  lock ≫= fun _ =>
  err ← atomically (fun e =>
    if negb (bool_decide (e_state e = engineRunning)) then (e, Some (Sentinel ErrClosed))
    else (set_ops (e_activeOps e + 1) e, None));
  unlock ≫= fun _ => mret err.

Definition endOp : prog Engine unit :=
  lock ≫= fun _ =>
  atomically (fun e =>
    let n := e_activeOps e - 1 in (set_ops (if n <? 0 then 0 else n) e, tt)) ≫= fun _ =>
  maybeDoneLocked ≫= fun _ => unlock.

Definition addTracked (k : listenerKind) (v : nat) : prog Engine (option error) :=
  lock ≫= fun _ =>
  err ← atomically (fun e =>
    if negb (bool_decide (e_state e = engineRunning)) then (e, Some (Sentinel ErrClosed))
    else (set_listeners k (fun s => {[v]} ∪ s) e, None));
  unlock ≫= fun _ => mret err.
Definition addStreamListener : nat -> prog Engine (option error) := addTracked StreamListener.
Definition addWSListener : nat -> prog Engine (option error) := addTracked WSListener.

(** The lease the connection brings, or a new active one. *)
Definition obtain_lease (fuel : nat) (peer : string) (lease : option nat) : prog Engine (result nat) :=
  match lease with
  | None => adm (acquireConnection fuel peer)
  | Some j =>
      ok ← adm (activate j);
      mret (if ok : bool then inl j else inr (Sentinel ErrClosed))
  end.
Definition add_conn (k : connKind) (fuel : nat) (v : nat) (peer : string) (lease : option nat)
    : prog Engine (option error) :=
  lock ≫= fun _ =>
  running ← atomically (fun e => (e, bool_decide (e_state e = engineRunning)));
  err ← (if negb running then mret (Some (Sentinel ErrClosed))
         else
           r ← obtain_lease fuel peer lease;
           match r with
           | inr e => mret (Some e)
           | inl j => atomically (fun e => (set_conns k (fun s => {[v]} ∪ s) (<[v := j]>) e, None))
           end);
  unlock ≫= fun _ => mret err.
Definition addStreamWithLease := add_conn Stream.
Definition addWebSocketWithLease := add_conn WebSocket.
Definition addPacket (fuel : nat) (v : nat) (peer : string) := add_conn Packet fuel v peer None.

(** ** engine_tracking_remove.go *)
Definition removeTracked (k : listenerKind) (v : nat) : prog Engine unit :=
  lock ≫= fun _ =>
  atomically (fun e => (set_listeners k (fun s => s ∖ {[v]}) e, tt)) ≫= fun _ =>
  maybeDoneLocked ≫= fun _ => unlock.
Definition removeStreamListener := removeTracked StreamListener.
Definition removeWSListener := removeTracked WSListener.

Definition remove_conn (k : connKind) (fuel : nat) (v : nat) : prog Engine unit :=
  lock ≫= fun _ =>
  lease ← atomically (fun e =>
            (set_conns k (fun s => s ∖ {[v]}) (delete v) e, leases_map k e !! v));
  (match lease with None => mret tt | Some j => adm (release fuel j) end) ≫= fun _ =>
  maybeDoneLocked ≫= fun _ => unlock.
Definition removeStream := remove_conn Stream.
Definition removeWebSocket := remove_conn WebSocket.
Definition removePacket := remove_conn Packet.

(** ** engine_admission.go *)
Definition acquire_engine_activity (p : prog admissionState (result nat)) : prog Engine (result nat) :=
  lock ≫= fun _ =>
  running ← atomically (fun e => (e, bool_decide (e_state e = engineRunning)));
  r ← (if negb running then mret (inr (Sentinel ErrClosed)) else adm p);
  unlock ≫= fun _ => mret r.
Definition engineAcquireHandshake := acquire_engine_activity acquireHandshake.
Definition engineAcquireUpgrade := acquire_engine_activity acquireUpgrade.
Definition engineActivityRelease (j : nat) : prog Engine unit :=
  ok ← adm (releaseActivity j);
  if ok : bool then maybeDone else mret tt.

(** ** engine_shutdown.go *)
Record engineShutdownSet := {
  ss_streamListeners : list nat; ss_wsListeners : list nat; ss_streams : list nat;
  ss_websockets : list nat; ss_packets : list nat }.
Definition empty_set : engineShutdownSet :=
  {| ss_streamListeners := []; ss_wsListeners := []; ss_streams := [];
     ss_websockets := []; ss_packets := [] |}.
Definition snapshotShutdownSetLocked (e : Engine) : engineShutdownSet :=
  {| ss_streamListeners := elements (e_streamListeners e); ss_wsListeners := elements (e_wsListeners e);
     ss_streams := elements (e_streams e); ss_websockets := elements (e_websockets e);
     ss_packets := elements (e_packets e) |}.
Definition tracked_leases (e : Engine) : list nat :=
  (map_to_list (e_streamLeases e)).*2 ++ (map_to_list (e_wsLeases e)).*2
  ++ (map_to_list (e_packetLeases e)).*2.
Fixpoint drain_all (js : list nat) : prog Engine unit :=
  match js with
  | [] => mret tt
  | j :: js => adm (beginDrain j) ≫= fun _ => drain_all js
  end.

Definition beginGracefulShutdown : prog Engine (bool * engineShutdownSet) :=
  lock ≫= fun _ =>
  r ← atomically (fun e =>
        if negb (bool_decide (e_state e = engineRunning)) then (e, None)
        else (set_shutdown engineDraining (e_shutdownReason e) (e_shutdownErr e) e,
              Some (snapshotShutdownSetLocked e, tracked_leases e)));
  match r with
  | None => unlock ≫= fun _ => mret (false, empty_set)
  | Some (set, leases) =>
      drain_all leases ≫= fun _ => maybeDoneLocked ≫= fun _ =>
      unlock ≫= fun _ => mret (true, set)
  end.

Definition beginAbort (why : abortReason) : prog Engine (engineShutdownSet * bool) :=
  lock ≫= fun _ =>
  r ← atomically (fun e =>
        if bool_decide (e_state e = engineDone) || bool_decide (e_state e = engineAborting)
        then (e, None)
        else (set_shutdown engineAborting
                (if decide (e_shutdownReason e = abortNone) then why else e_shutdownReason e)
                (e_shutdownErr e) e,
              Some (snapshotShutdownSetLocked e)));
  match r with
  | None => unlock ≫= fun _ => mret (empty_set, false)
  | Some set => maybeDoneLocked ≫= fun _ => unlock ≫= fun _ => mret (set, true)
  end.

Definition recordShutdownError (err : option error) : prog Engine unit :=
  match err with
  | None => mret tt
  | Some _ =>
      lock ≫= fun _ =>
      atomically (fun e =>
        (set_shutdown (e_state e) (e_shutdownReason e)
           (match e_shutdownErr e with None => err | Some old => errors_Join [Some old; err] end) e,
         tt)) ≫= fun _ => unlock
  end.

Definition shutdownResult : prog Engine (option error) :=
  lock ≫= fun _ =>
  r ← atomically (fun e =>
        (e, match e_shutdownErr e with
            | Some err => Some err
            | None => match e_shutdownReason e with
                      | abortNone => None
                      | _ => Some (Sentinel ErrClosed)
                      end
            end));
  unlock ≫= fun _ => mret r.

(** [closing] and [graceful] stand for [closeSet] and [requestGracefulShutdown]: they
    call the members' own [Close], [requestShutdown] or [requestDrain], which end in the
    members' goroutines removing them, and return the joined errors. *)
Section shutdown.
Variable closing : engineShutdownSet -> prog Engine (option error).
Variable graceful : engineShutdownSet -> prog Engine (option error).

Definition abortRemaining (why : abortReason) : prog Engine unit :=
  r ← beginAbort why;
  if negb r.2 then mret tt
  else err ← closing r.1; recordShutdownError err.

Definition Close : prog Engine (option error) :=
  r ← beginAbort abortExplicit;
  if negb r.2 then mret None else closing r.1.

(** A context is a number, [None] being nil. *)
Definition Shutdown (ctx : option nat) : prog Engine (option error) :=
  match ctx with
  | None => mret (Some (Sentinel ErrNilContext))
  | Some ctx =>
  early ← atomically (fun e => (e, e_ctx e ctx));
  match early with
  | Some cause => mret (Some cause)
  | None =>
      r ← beginGracefulShutdown;
      (if negb r.1 then mret tt
       else
         err ← graceful r.2;
         match err with
         | None => mret tt
         | Some _ => recordShutdownError err ≫= fun _ => abortRemaining abortFailure
         end) ≫= fun _ =>
      ended ← select (fun e =>
                (if e_done e then [(e, None)] else [])
                ++ match e_ctx e ctx with Some cause => [(e, Some cause)] | None => [] end);
      match ended with
      | None => shutdownResult
      | Some cause =>
          (if r.1 : bool then abortRemaining abortCaller else mret tt) ≫= fun _ => mret (Some cause)
      end
  end
  end.
End shutdown.

(** ** Goroutines sharing one Engine

    What runs between [beginOp] and [endOp], and what runs on its own.  [HTTPConnClosed]
    is the release of an opening lease by the HTTP server of a WebSocket listener
    (httpConnLease.release), which happens outside any operation. *)
Inductive inner_op :=
  | IOpen (peer : string) (listener : option nat)
  | IRelease (j : nat)
  | IListen (k : listenerKind) (v : nat)
  | IAdd (k : connKind) (v : nat) (peer : string) (lease : option nat).
Inductive engine_op :=
  | Operation (body : list inner_op)
  | RemoveListener (k : listenerKind) (v : nat)
  | RemoveConn (k : connKind) (v : nat)
  | AcquireActivity (handshake : bool)
  | ActivityRelease (j : nat)
  | ShutdownOp (ctx : option nat) (graceful_err close_err : option error)
  | CloseOp (close_err : option error)
  | CancelCtx (ctx : nat) (cause : error)
  | HTTPConnClosed (j : nat).

Definition inner_prog (fuel : nat) (o : inner_op) : prog Engine unit :=
  match o with
  | IOpen peer listener => adm (acquireOpeningWithListener fuel peer listener) ≫= fun _ => mret tt
  | IRelease j => adm (release fuel j)
  | IListen k v => addTracked k v ≫= fun _ => mret tt
  | IAdd k v peer lease => add_conn k fuel v peer lease ≫= fun _ => mret tt
  end.
Fixpoint inner_progs (fuel : nat) (os : list inner_op) : prog Engine unit :=
  match os with
  | [] => mret tt
  | o :: os => inner_prog fuel o ≫= fun _ => inner_progs fuel os
  end.
Definition engine_op_prog (fuel : nat) (o : engine_op) : prog Engine unit :=
  match o with
  | Operation body =>
      err ← beginOp;
      match err with
      | Some _ => mret tt
      | None => inner_progs fuel body ≫= fun _ => endOp
      end
  | RemoveListener k v => removeTracked k v
  | RemoveConn k v => remove_conn k fuel v
  | AcquireActivity h =>
      (if h then engineAcquireHandshake else engineAcquireUpgrade) ≫= fun _ => mret tt
  | ActivityRelease j => engineActivityRelease j
  | ShutdownOp ctx gerr cerr =>
      Shutdown (fun _ => mret cerr) (fun _ => mret gerr) ctx ≫= fun _ => mret tt
  | CloseOp cerr => Close (fun _ => mret cerr) ≫= fun _ => mret tt
  | CancelCtx ctx cause => atomically (fun e =>
      ({| e_locked := e_locked e; e_state := e_state e; e_shutdownReason := e_shutdownReason e;
          e_shutdownErr := e_shutdownErr e; e_activeOps := e_activeOps e;
          e_streamListeners := e_streamListeners e; e_wsListeners := e_wsListeners e;
          e_streams := e_streams e; e_websockets := e_websockets e; e_packets := e_packets e;
          e_streamLeases := e_streamLeases e; e_wsLeases := e_wsLeases e;
          e_packetLeases := e_packetLeases e; e_done := e_done e;
          e_observerStopped := e_observerStopped e; e_admission := e_admission e;
          e_ctx := Quota.fupd ctx (Some cause) (e_ctx e) |}, tt))
  | HTTPConnClosed j => adm (release fuel j)
  end.
Fixpoint engine_goroutine (fuel : nat) (ops : list engine_op) : prog Engine unit :=
  match ops with
  | [] => mret tt
  | o :: rest => engine_op_prog fuel o ≫= fun _ => engine_goroutine fuel rest
  end.

(** ** Invariant

    A goroutine owns the operation it is in, the completion check it still owes, and
    the lock: merely held, held with the state known to be running, held after a
    transition into a shutdown state, or held with a check still to come. *)
Inductive etok := InOp | OweCheck | LHeld | LRun | LNew | LDirty.
#[global] Instance etok_eq_dec : EqDecision etok.
Proof. solve_decision. Defined.
#[global] Instance etok_countable : Countable etok.
Proof.
  refine (inj_countable'
    (fun t => match t with InOp => 0 | OweCheck => 1 | LHeld => 2 | LRun => 3 | LNew => 4 | LDirty => 5 end)%nat
    (fun n => match n with 0 => InOp | 1 => OweCheck | 2 => LHeld | 3 => LRun | 4 => LNew | _ => LDirty end)%nat _).
  by intros [].
Defined.
Abbreviation ghost := (gmultiset etok * gmultiset Limits.tok)%type.

Definition held_locks (m : gmultiset etok) : nat :=
  multiplicity LHeld m + multiplicity LRun m + multiplicity LNew m + multiplicity LDirty m.
Definition is_lock (t : etok) : bool := match t with InOp | OweCheck => false | _ => true end.
Lemma held_locks_cons t m : held_locks ({[+ t +]} ⊎ m) = ((if is_lock t then 1 else 0) + held_locks m)%nat.
Proof.
  unfold held_locks. rewrite !multiplicity_disj_union, !multiplicity_singleton.
  destruct t; simpl; repeat case_decide; done || lia.
Qed.
Lemma held_locks_union m m' : held_locks (m ⊎ m') = (held_locks m + held_locks m')%nat.
Proof. unfold held_locks. rewrite !multiplicity_disj_union. lia. Qed.
Lemma ops_cons t m :
  multiplicity InOp ({[+ t +]} ⊎ m) = ((if decide (t = InOp) then 1 else 0) + multiplicity InOp m)%nat.
Proof.
  rewrite multiplicity_disj_union, multiplicity_singleton. repeat case_decide; congruence.
Qed.

(** Somebody will still check for completion. *)
Definition pending (m : gmultiset etok) : Prop := OweCheck ∈ m \/ LNew ∈ m \/ LDirty ∈ m.
Lemma elem_cons (t u : etok) (m : gmultiset etok) : t ∈ {[+ u +]} ⊎ m <-> t = u \/ t ∈ m.
Proof. by rewrite gmultiset_elem_of_disj_union, gmultiset_elem_of_singleton. Qed.
Lemma pending_union m m' : pending (m ⊎ m') <-> pending m \/ pending m'.
Proof. unfold pending. rewrite !gmultiset_elem_of_disj_union. intuition auto. Qed.
Definition is_pending (t : etok) : bool := match t with OweCheck | LNew | LDirty => true | _ => false end.
Lemma pending_cons t m : pending ({[+ t +]} ⊎ m) <-> is_pending t = true \/ pending m.
Proof.
  rewrite pending_union. unfold pending at 1. rewrite !gmultiset_elem_of_singleton.
  destruct t; simpl; intuition congruence.
Qed.

Section invariant.
Variable L : Limits.
Variable bound : nat.

Record engine_inv (e : Engine) (m : ghost) : Prop := {
  ei_ops : e_activeOps e = Z.of_nat (multiplicity InOp m.1);
  ei_lock : held_locks m.1 = if e_locked e then 1%nat else 0%nat;
  ei_run : LRun ∈ m.1 -> e_state e = engineRunning;
  ei_new : LNew ∈ m.1 -> e_state e = engineDraining \/ e_state e = engineAborting;
  ei_done : e_done e = bool_decide (e_state e = engineDone);
  ei_after : e_state e = engineDone -> nothing_left e = true;
  ei_quiet : e_state e <> engineRunning -> nothing_left e = true ->
    e_state e = engineDone \/ pending m.1;
  ei_adm : adm_inv L bound (e_admission e) m.2;
}.
Definition lockless (m : gmultiset etok) : Prop := held_locks m = 0%nat.
(** Waiting for the lock, or for [done] owning nothing. *)
Definition engine_blk (e : Engine) (m : ghost) : Prop :=
  lockless m.1 /\ (e_locked e = true \/ (e_done e = false /\ m.1 = ∅)).

(** Replacing one's tokens without touching the Engine. *)
Lemma engine_inv_toks e (x y : gmultiset etok) (F : ghost) a :
  engine_inv e ((x, a) ∙ F) ->
  multiplicity InOp y = multiplicity InOp x -> held_locks y = held_locks x ->
  (LRun ∈ y -> e_state e = engineRunning) ->
  (LNew ∈ y -> e_state e = engineDraining \/ e_state e = engineAborting) ->
  (pending x -> e_state e <> engineRunning -> nothing_left e = true -> e_state e = engineDone \/ pending y) ->
  engine_inv e ((y, a) ∙ F).
Proof.
  intros [Ho Hl Hr Hn Hd Ha Hq Had] Eo El Er En Eq. simpl in *. split; simpl; try done.
  - rewrite Ho, !multiplicity_disj_union. lia.
  - rewrite <- Hl, !held_locks_union. lia.
  - intros [?|?]%gmultiset_elem_of_disj_union; [auto|]. apply Hr, gmultiset_elem_of_disj_union. auto.
  - intros [?|?]%gmultiset_elem_of_disj_union; [auto|]. apply Hn, gmultiset_elem_of_disj_union. auto.
  - intros H1 H2. rewrite pending_union. destruct (Hq H1 H2) as [?|[Hx|Hx]%pending_union]; [auto| |auto].
    destruct (Eq Hx H1 H2); auto.
Qed.

(** *** The lock *)
Lemma wp_lock m a (Q : unit -> ghost -> Prop) :
  lockless m -> Q tt ({[+ LHeld +]} ⊎ m, a) -> wp engine_inv engine_blk lock (m, a) Q.
Proof.
  intros Hm HQ. apply wp_select. intros e F HI. destruct (e_locked e) eqn:El.
  - split; [intros _; by split; [|left]|]. intros e' b Hin. by apply elem_of_nil in Hin.
  - split; [done|]. intros e' b [= -> ->]%list_elem_of_singleton.
    exists ({[+ LHeld +]} ⊎ m, a). split; [|done].
    destruct HI as [Ho Hl Hr Hn Hd Ha Hq Had]. rewrite El in Hl. simpl in *.
    split; simpl; try done.
    + rewrite <- (assoc_L (⊎)), ops_cons. done.
    + rewrite <- (assoc_L (⊎)), held_locks_cons, Hl. done.
    + rewrite <- (assoc_L (⊎)), elem_cons. intros [?|?]; [done|auto].
    + rewrite <- (assoc_L (⊎)), elem_cons. intros [?|?]; [done|auto].
    + intros H1 H2. rewrite <- (assoc_L (⊎)), pending_cons. destruct (Hq H1 H2); auto.
Qed.

Lemma wp_unlock t m a (Q : unit -> ghost -> Prop) :
  t = LHeld \/ t = LRun -> lockless m -> Q tt (m, a) ->
  wp engine_inv engine_blk unlock ({[+ t +]} ⊎ m, a) Q.
Proof.
  intros Ht Hm HQ. apply wp_section. intros e F e' b HI [= <- <-]. exists (m, a). split; [|done].
  destruct HI as [Ho Hl Hr Hn Hd Ha Hq Had]. simpl in *. rewrite <- (assoc_L (⊎)) in *.
  rewrite ops_cons in Ho. rewrite held_locks_cons in Hl. rewrite elem_cons in Hr, Hn.
  assert (is_lock t = true /\ t <> InOp) as [Et En] by (destruct Ht as [-> | ->]; done).
  rewrite Et in Hl. rewrite decide_False in Ho by done.
  split; simpl; try done; [destruct (e_locked e); lia|auto|auto|].
  intros H1 H2. specialize (Hq H1 H2). rewrite pending_cons in Hq.
  destruct Hq as [?|[?|?]]; [auto| |auto]. by destruct Ht as [-> | ->].
Qed.

(** *** Sections *)
Lemma inv_running e e' x y a (F : ghost) :
  engine_inv e ((x, a) ∙ F) -> e_state e = engineRunning -> e_state e' = engineRunning ->
  e_locked e' = e_locked e -> e_done e' = e_done e -> e_admission e' = e_admission e ->
  e_activeOps e' - e_activeOps e = Z.of_nat (multiplicity InOp y) - Z.of_nat (multiplicity InOp x) ->
  held_locks y = held_locks x -> LNew ∉ y ->
  engine_inv e' ((y, a) ∙ F).
Proof.
  intros [Ho Hl Hr Hn Hd Ha Hq Had] Es Es' El Ed Ead Eo Eh Hnew. simpl in *. split; simpl.
  - rewrite multiplicity_disj_union in *. lia.
  - rewrite El, <- Hl, !held_locks_union. lia.
  - done.
  - intros [?|HF]%gmultiset_elem_of_disj_union; [done|].
    destruct Hn as [?|?]; [by apply gmultiset_elem_of_disj_union; right|congruence..].
  - by rewrite Ed, Hd, Es, Es'.
  - congruence.
  - done.
  - by rewrite Ead.
Qed.

Lemma inv_shutdown e st r err m a (F : ghost) :
  engine_inv e (({[+ LHeld +]} ⊎ m, a) ∙ F) ->
  e_state e = engineRunning \/ e_state e = engineDraining ->
  st = engineDraining \/ st = engineAborting ->
  engine_inv (set_shutdown st r err e) (({[+ LNew +]} ⊎ m, a) ∙ F).
Proof.
  intros [Ho Hl Hr Hn Hd Ha Hq Had] Es Hst. simpl in *. rewrite <- (assoc_L (⊎)) in *.
  rewrite ops_cons in Ho. rewrite held_locks_cons in Hl. simpl in *.
  assert (e_locked e = true) as El by (revert Hl; destruct (e_locked e); [done|lia]). rewrite El in Hl.
  split; simpl; rewrite <- ?(assoc_L (⊎)).
  - by rewrite ops_cons.
  - by rewrite El, held_locks_cons.
  - rewrite elem_cons. intros [?|HR]; [done|]. exfalso.
    assert (held_locks (m ⊎ F.1) = 0%nat) as Hz by lia. unfold held_locks in Hz.
    rewrite elem_of_multiplicity in HR. lia.
  - done.
  - rewrite Hd, !bool_decide_eq_false_2; [done|..]; destruct Es, Hst; congruence.
  - intros ->. by destruct Hst.
  - intros _ _. right. rewrite pending_cons. auto.
  - done.
Qed.

(** Something disappears: a check will follow. *)
Lemma inv_shrink e e' x m a (F : ghost) :
  engine_inv e (({[+ LHeld +]} ⊎ (x ⊎ m), a) ∙ F) ->
  e_state e' = e_state e -> e_locked e' = e_locked e -> e_done e' = e_done e ->
  e_admission e' = e_admission e ->
  e_activeOps e' = e_activeOps e - Z.of_nat (multiplicity InOp x) -> held_locks x = 0%nat ->
  (nothing_left e = true -> nothing_left e' = true) ->
  engine_inv e' (({[+ LDirty +]} ⊎ m, a) ∙ F).
Proof.
  intros [Ho Hl Hr Hn Hd Ha Hq Had] Es El Ed Ead Eo Eh Hleft. simpl in *.
  rewrite <- !(assoc_L (⊎)) in *. rewrite ops_cons, multiplicity_disj_union in Ho.
  rewrite held_locks_cons, held_locks_union in Hl. simpl in *.
  split; simpl; rewrite <- ?(assoc_L (⊎)).
  - rewrite ops_cons. simpl. lia.
  - rewrite held_locks_cons, El. simpl. lia.
  - rewrite elem_cons. intros [?|?]; [done|]. rewrite Es. apply Hr. rewrite elem_cons. right.
    apply gmultiset_elem_of_disj_union. auto.
  - rewrite elem_cons. intros [?|?]; [done|]. rewrite Es. apply Hn. rewrite elem_cons. right.
    apply gmultiset_elem_of_disj_union. auto.
  - by rewrite Ed, Es.
  - rewrite Es. auto.
  - intros _ _. right. rewrite pending_cons. auto.
  - by rewrite Ead.
Qed.

Lemma nothing_left_done e : nothing_left (set_done e) = nothing_left e.
Proof. done. Qed.

Lemma inv_maybe_done e t m a (F : ghost) :
  is_lock t = true -> engine_inv e (({[+ t +]} ⊎ m, a) ∙ F) ->
  engine_inv (maybe_done e) (({[+ LHeld +]} ⊎ m, a) ∙ F).
Proof.
  intros Ht [Ho Hl Hr Hn Hd Ha Hq Had]. simpl in *. rewrite <- (assoc_L (⊎)) in *.
  rewrite ops_cons in Ho. rewrite held_locks_cons, Ht in Hl. simpl in *.
  assert (t <> InOp) as Hne by (by intros ->). rewrite decide_False in Ho by done.
  assert (forall l, is_lock l = true -> l ∉ m ⊎ F.1) as Hno.
  { intros l Hlk Hin.
    assert (held_locks (m ⊎ F.1) = 0%nat) as Hz by (revert Hl; destruct (e_locked e); lia).
    unfold held_locks in Hz. rewrite elem_of_multiplicity in Hin. destruct l; done || lia. }
  unfold maybe_done. destruct (_ && _) eqn:Ec.
  - apply andb_true_iff in Ec as [_ Hleft].
    split; simpl; rewrite <- ?(assoc_L (⊎)); rewrite ?ops_cons, ?held_locks_cons, ?elem_cons; try done.
    + intros [?|?]; [done|]. by destruct (Hno LRun).
    + intros [?|?]; [done|]. by destruct (Hno LNew).
    + auto.
  - split; simpl; rewrite <- ?(assoc_L (⊎)); rewrite ?ops_cons, ?held_locks_cons, ?elem_cons; try done.
    + intros [?|?]; [done|]. by destruct (Hno LRun).
    + intros [?|?]; [done|]. by destruct (Hno LNew).
    + intros H1 H2. rewrite H2, andb_true_r in Ec. apply negb_false_iff, bool_decide_eq_true in Ec. done.
Qed.

Lemma wp_maybeDoneLocked t m a (Q : unit -> ghost -> Prop) :
  is_lock t = true -> Q tt ({[+ LHeld +]} ⊎ m, a) ->
  wp engine_inv engine_blk maybeDoneLocked ({[+ t +]} ⊎ m, a) Q.
Proof.
  intros Ht HQ. apply wp_section. intros e F e' b HI [= <- <-]. eexists. split; [|exact HQ].
  by eapply inv_maybe_done.
Qed.

Lemma wp_check_unlock t m a (Q : unit -> ghost -> Prop) :
  is_lock t = true -> lockless m -> Q tt (m, a) ->
  wp engine_inv engine_blk (maybeDoneLocked ≫= fun _ => unlock) ({[+ t +]} ⊎ m, a) Q.
Proof.
  intros Ht Hm HQ. apply wp_bind, wp_maybeDoneLocked; [done|]. by apply wp_unlock; [left|..].
Qed.

(** *** Calls into the admission controller *)
Definition idle_mono (s s' : admissionState) : Prop :=
  idle (as_ctl s) = true -> idle (as_ctl s') = true.
Definition same_idle (s s' : admissionState) : Prop := idle (as_ctl s') = idle (as_ctl s).
(** Whoever is in an operation, or holds the lock of an Engine that is not done, may
    do anything; whoever owes a check may only release; anybody may do what does not touch
    the controller's counts. *)
Definition may_call {A} (p : prog admissionState A) (m : gmultiset etok) : Prop :=
  InOp ∈ m \/ LRun ∈ m \/ LNew ∈ m \/ ((OweCheck ∈ m \/ LDirty ∈ m) /\ respects idle_mono p)
  \/ respects same_idle p.

Lemma inv_call e s' m a a' (F : ghost) :
  engine_inv e ((m, a) ∙ F) -> adm_inv L bound s' (a' ⊎ F.2) ->
  InOp ∈ m \/ LRun ∈ m \/ LNew ∈ m \/
    ((OweCheck ∈ m \/ LDirty ∈ m) /\ idle_mono (e_admission e) s') \/ same_idle (e_admission e) s' ->
  engine_inv (lset admission_lens s' e) ((m, a') ∙ F).
Proof.
  intros [Ho Hl Hr Hn Hd Ha Hq Had] Hadm Hm. simpl in *.
  assert (forall t, t ∈ m -> t ∈ m ⊎ F.1) as Hsub by (intros; apply gmultiset_elem_of_disj_union; auto).
  assert (nothing_left (lset admission_lens s' e) = true -> e_activeOps e = 0) as Hz
    by (unfold nothing_left; simpl; destruct (e_activeOps e =? 0) eqn:E; [lia|done]).
  assert (InOp ∈ m -> e_activeOps e <> 0) as Hop
    by (intros Hin%Hsub; rewrite elem_of_multiplicity in Hin; lia).
  split; simpl; try done.
  - intros Hdone. destruct Hm as [Hm|[Hm|[Hm|[[_ Hmono]|Hsame]]]].
    + specialize (Ha Hdone). unfold nothing_left in Ha. destruct (e_activeOps e =? 0) eqn:E; [|done].
      specialize (Hop Hm). lia.
    + apply Hsub, Hr in Hm. congruence.
    + apply Hsub, Hn in Hm. destruct Hm; congruence.
    + specialize (Ha Hdone). unfold nothing_left in *. simpl.
      apply andb_true_iff in Ha as [Ha Hi]. apply andb_true_iff. split; [done|]. by apply Hmono.
    + specialize (Ha Hdone). unfold nothing_left in *. simpl. by rewrite Hsame.
  - intros H1 H2. destruct Hm as [Hm|[Hm|[Hm|[[Hm _]|Hsame]]]].
    + by destruct (Hop Hm); apply Hz.
    + by apply Hsub, Hr in Hm.
    + right. apply pending_union. left. unfold pending. auto.
    + right. apply pending_union. left. unfold pending. destruct Hm; auto.
    + apply Hq; [done|]. rewrite <- H2. unfold nothing_left. simpl. by rewrite Hsame.
Qed.

Lemma wp_adm {A} (p : prog admissionState A) m a (Q : A -> ghost -> Prop) :
  may_call p m ->
  wp (adm_inv L bound) Limits.never p a (fun x a' => Q x (m, a')) ->
  wp engine_inv engine_blk (adm p) (m, a) Q.
Proof.
  revert a. induction p as [x|B f k IH]; intros a Hm Hwp; [exact Hwp|].
  intros e F HI. pose proof (ei_adm _ _ HI) as Had.
  destruct (Hwp (e_admission e) F.2 Had) as [Hb Ho]. split.
  - intros E%map_eq_nil. by destruct (Hb E).
  - intros o Hin. apply list_elem_of_fmap in Hin as (o' & -> & Hin). specialize (Ho o' Hin).
    destruct o' as [s' b|]; [|done]. destruct Ho as (a' & Hadm & Hwp').
    exists (m, a'). split.
    + eapply inv_call; [exact HI|exact Hadm|].
      destruct Hm as [?|[?|[?|[[? Hr]|Hr]]]]; auto; destruct (Hr _ _ _ Hin); auto 6.
    + apply IH; [|done]. destruct Hm as [?|[?|[?|[[? Hr]|Hr]]]]; unfold may_call; auto;
        destruct (Hr _ _ _ Hin); auto 6.
Qed.

(** *** Releases never make an idle controller busy *)
Lemma idle_mono_refl s : idle_mono s s.
Proof. by intros ?. Qed.
Lemma idle_zero a : idle a = true ->
  ac_opening a = 0 /\ ac_active a = 0 /\ ac_draining a = 0 /\ ac_handshakes a = 0 /\ ac_upgrades a = 0.
Proof. unfold idle. rewrite !andb_true_iff. lia. Qed.
Lemma zero_idle a :
  ac_opening a = 0 -> ac_active a = 0 -> ac_draining a = 0 -> ac_handshakes a = 0 -> ac_upgrades a = 0 ->
  idle a = true.
Proof. intros. unfold idle. rewrite !andb_true_iff. lia. Qed.

Lemma release_count_idle l a : idle a = true -> idle (release_count l a) = true.
Proof.
  intros (E1 & E2 & E3 & E4 & E5)%idle_zero. unfold release_count, peer_remove.
  case_decide; apply zero_idle; simpl; repeat case_decide; by rewrite ?E1, ?E2, ?E3.
Qed.
Lemma respects_loop_release fuel i : respects idle_mono (listener_release_loop fuel i).
Proof.
  induction fuel as [|fuel IH]; [apply respects_stuck|]. cbn [listener_release_loop].
  apply respects_bind; [apply respects_atomically; intros s; apply idle_mono_refl|]. intros n. case_match; [done|].
  apply respects_bind; [|by intros []]. apply respects_atomically. intros s. case_match; by intros ?.
Qed.
Lemma respects_release fuel j : respects idle_mono (release fuel j).
Proof.
  apply respects_bind.
  - apply respects_atomically. intros s. unfold release_mark. repeat case_match; by intros ?.
  - intros [l|]; [|done]. apply respects_bind.
    + apply respects_atomically. intros s. simpl. intros Hi. by apply release_count_idle.
    + intros _. unfold listener_release. case_match; [apply respects_loop_release|done].
Qed.
Lemma respects_releaseActivity j : respects idle_mono (releaseActivity j).
Proof.
  apply respects_bind.
  - apply respects_atomically. intros s. unfold release_activity_mark. repeat case_match; by intros ?.
  - intros [h|]; [|done]. apply respects_atomically. intros s. simpl.
    intros (E1 & E2 & E3 & E4 & E5)%idle_zero. apply zero_idle; simpl; try done; destruct h; simpl;
      by rewrite ?E4, ?E5.
Qed.

(** *** The methods *)
Variable fuel : nat.
Hypothesis fuel_ok : (bound < fuel)%nat.
Abbreviation stocked := (Limits.stocked).

Lemma lockless_op m : lockless m -> lockless ({[+ InOp +]} ⊎ m).
Proof. unfold lockless. by rewrite held_locks_cons. Qed.
Lemma head_in t (m : gmultiset etok) : t ∈ {[+ t +]} ⊎ m.
Proof. rewrite elem_cons. auto. Qed.

Lemma wp_beginOp m a (Q : option error -> ghost -> Prop) :
  lockless m -> (forall e, Q (Some e) (m, a)) -> Q None ({[+ InOp +]} ⊎ m, a) ->
  wp engine_inv engine_blk beginOp (m, a) Q.
Proof.
  intros Hm HE HQ. apply wp_bind, wp_lock; [done|]. apply wp_bind, wp_section. intros e F e' b HI.
  destruct (bool_decide _) eqn:Es; cbn [negb]; intros [= <- <-].
  - apply bool_decide_eq_true in Es. exists ({[+ LHeld +]} ⊎ ({[+ InOp +]} ⊎ m), a). split.
    + eapply inv_running; [exact HI|done..| | |].
      * rewrite !ops_cons. simpl. lia.
      * by rewrite !held_locks_cons.
      * rewrite !elem_cons. intros [?|[?|Hin]]; [done..|].
        unfold lockless, held_locks in Hm. rewrite elem_of_multiplicity in Hin. lia.
    + apply wp_bind, wp_unlock; [by left|by apply lockless_op|exact HQ].
  - exists ({[+ LHeld +]} ⊎ m, a). split; [done|].
    apply wp_bind, wp_unlock; [by left|done|apply HE].
Qed.

Lemma wp_endOp m a (Q : unit -> ghost -> Prop) :
  lockless m -> Q tt (m, a) -> wp engine_inv engine_blk endOp ({[+ InOp +]} ⊎ m, a) Q.
Proof.
  intros Hm HQ. apply wp_bind, wp_lock; [by apply lockless_op|]. apply wp_bind, wp_section.
  intros e F e' b HI [= <- <-]. exists ({[+ LDirty +]} ⊎ m, a). split; [|by apply wp_check_unlock].
  assert (1 <= e_activeOps e) as Hpos.
  { rewrite (ei_ops _ _ HI). simpl. rewrite <- !(assoc_L (⊎)), !ops_cons. simpl. lia. }
  eapply inv_shrink; [exact HI|done..| | |].
  - simpl. rewrite multiplicity_singleton_eq. zbool; lia.
  - unfold held_locks. by rewrite !multiplicity_singleton_ne.
  - unfold nothing_left. destruct (e_activeOps e =? 0) eqn:E; [lia|done].
Qed.

Lemma wp_addTracked k v m a (Q : option error -> ghost -> Prop) :
  lockless m -> (forall r, Q r (m, a)) -> wp engine_inv engine_blk (addTracked k v) (m, a) Q.
Proof.
  intros Hm HQ. apply wp_bind, wp_lock; [done|]. apply wp_bind, wp_section. intros e F e' b HI.
  destruct (bool_decide _) eqn:Es; cbn [negb]; intros [= <- <-].
  - apply bool_decide_eq_true in Es. exists ({[+ LHeld +]} ⊎ m, a). split.
    + eapply inv_running; [exact HI|done..|simpl; lia|done|].
      rewrite elem_cons. intros [?|Hin]; [done|].
      unfold lockless, held_locks in Hm. rewrite elem_of_multiplicity in Hin. lia.
    + apply wp_bind, wp_unlock; [by left|done|apply HQ].
  - exists ({[+ LHeld +]} ⊎ m, a). split; [done|].
    apply wp_bind, wp_unlock; [by left|done|apply HQ].
Qed.

(** Reading the state under the lock. *)
Lemma wp_read_running m a (Q : bool -> ghost -> Prop) :
  lockless m -> Q true ({[+ LRun +]} ⊎ m, a) -> Q false ({[+ LHeld +]} ⊎ m, a) ->
  wp engine_inv engine_blk (atomically (fun e => (e, bool_decide (e_state e = engineRunning))))
    ({[+ LHeld +]} ⊎ m, a) Q.
Proof.
  intros Hm HT HF. apply wp_section. intros e F e' b HI [= <- <-].
  destruct (bool_decide _) eqn:Es; [|eauto]. apply bool_decide_eq_true in Es.
  exists ({[+ LRun +]} ⊎ m, a). split; [|done]. eapply inv_running; [exact HI|done..|rewrite !ops_cons; simpl; lia|by rewrite !held_locks_cons|].
  rewrite elem_cons. intros [?|Hin]; [done|].
  unfold lockless, held_locks in Hm. rewrite elem_of_multiplicity in Hin. lia.
Qed.

Lemma wp_obtain_lease peer lease k m a (Q : result nat -> ghost -> Prop) :
  LRun ∈ m -> stocked (2 + k) a -> (forall r a', stocked k a' -> Q r (m, a')) ->
  wp engine_inv engine_blk (obtain_lease fuel peer lease) (m, a) Q.
Proof.
  intros Hm Ha HQ. destruct lease as [j|]; unfold obtain_lease.
  - apply wp_bind, wp_adm; [right; left; done|]. eapply wp_activate; [exact Ha|].
    intros r a' Ha'. apply HQ. eapply stocked_le; [|exact Ha']. lia.
  - apply wp_adm; [right; left; done|].
    destruct (stocked_take _ _ Ha) as (a1 & -> & H1). destruct (stocked_take _ _ H1) as (a2 & -> & H2).
    unfold acquireConnection. apply wp_bind. eapply wp_acquireOpening; [exact fuel_ok|exact H2|].
    intros [j|err] a' Ha'; [|by apply HQ]. apply wp_bind. eapply wp_activate; [exact Ha'|]. intros. by apply HQ.
Qed.

Lemma wp_add_conn c v peer lease k m a (Q : option error -> ghost -> Prop) :
  lockless m -> stocked (2 + k) a -> (forall r a', stocked k a' -> Q r (m, a')) ->
  wp engine_inv engine_blk (add_conn c fuel v peer lease) (m, a) Q.
Proof.
  intros Hm Ha HQ. apply wp_bind, wp_lock; [done|]. apply wp_bind, wp_read_running; [done|..];
    cbn [negb]; apply wp_bind.
  - apply wp_bind. eapply wp_obtain_lease; [apply head_in|exact Ha|]. intros [j|err] a' Ha'.
    + apply wp_section. intros e F e' b HI [= <- <-]. exists ({[+ LRun +]} ⊎ m, a'). split.
      * assert (e_state e = engineRunning) as Es
          by (apply (ei_run _ _ HI); simpl; rewrite <- (assoc_L (⊎)); apply head_in).
        eapply inv_running; [exact HI|done..|simpl; lia|done|].
        rewrite elem_cons. intros [?|Hin]; [done|].
        unfold lockless, held_locks in Hm. rewrite elem_of_multiplicity in Hin. lia.
      * apply wp_bind, wp_unlock; [by right|done|by apply HQ].
    + apply wp_ret, wp_bind, wp_unlock; [by right|done|by apply HQ].
  - apply wp_ret, wp_bind, wp_unlock; [by left|done|]. apply HQ. eapply stocked_le; [|exact Ha]. lia.
Qed.

Lemma wp_removeTracked k v m a (Q : unit -> ghost -> Prop) :
  lockless m -> Q tt (m, a) -> wp engine_inv engine_blk (removeTracked k v) (m, a) Q.
Proof.
  intros Hm HQ. apply wp_bind, wp_lock; [done|]. apply wp_bind, wp_section.
  intros e F e' b HI [= <- <-]. exists ({[+ LDirty +]} ⊎ m, a). split; [|by apply wp_check_unlock].
  eapply (inv_shrink _ _ ∅); [by rewrite (left_id_L ∅ (⊎))|done..| | |].
  - rewrite multiplicity_empty. simpl. lia.
  - done.
  - unfold nothing_left. rewrite !andb_true_iff, !bool_decide_eq_true. simpl.
    intros ((((((? & E1) & E2) & ?) & ?) & ?) & ?). rewrite E1, E2.
    destruct k; split_and!; try done; set_solver.
Qed.

Lemma wp_remove_conn c v k m a (Q : unit -> ghost -> Prop) :
  lockless m -> stocked (1 + k) a -> (forall a', stocked k a' -> Q tt (m, a')) ->
  wp engine_inv engine_blk (remove_conn c fuel v) (m, a) Q.
Proof.
  intros Hm Ha HQ. apply wp_bind, wp_lock; [done|]. apply wp_bind, wp_section.
  intros e F e' b HI [= <- <-]. exists ({[+ LDirty +]} ⊎ m, a). split.
  - eapply (inv_shrink _ _ ∅); [by rewrite (left_id_L ∅ (⊎))|done..| | |].
    + rewrite multiplicity_empty. simpl. lia.
    + done.
    + unfold nothing_left. rewrite !andb_true_iff, !bool_decide_eq_true. simpl.
      intros ((((((? & ?) & ?) & E1) & E2) & E3) & ?). rewrite E1, E2, E3.
      destruct c; split_and!; try done; set_solver.
  - apply wp_bind. destruct (leases_map c e !! v) as [j|].
    + apply wp_adm; [right; right; right; left; split; [right; apply head_in|apply respects_release]|].
      destruct (stocked_take _ _ Ha) as (a1 & -> & H1).
      eapply wp_lease_release; [exact fuel_ok|exact H1|]. intros a' Ha'. apply wp_check_unlock; auto.
    + apply wp_ret, wp_check_unlock; [done..|]. apply HQ. eapply stocked_le; [|exact Ha]. lia.
Qed.

(** *** Activities of the Engine *)
Lemma wp_engine_activity h k m a (Q : result nat -> ghost -> Prop) :
  lockless m -> stocked k a -> (forall r a', stocked k a' -> Q r (m, a')) ->
  wp engine_inv engine_blk (acquire_engine_activity (atomically (acquire_activity h))) (m, a) Q.
Proof.
  intros Hm Ha HQ. apply wp_bind, wp_lock; [done|]. apply wp_bind, wp_read_running; [done|..];
    cbn [negb]; apply wp_bind.
  - apply wp_adm; [right; left; apply head_in|]. eapply wp_activity; [exact Ha|]. intros r a' Ha'.
    apply wp_bind, wp_unlock; [by right|done|by apply HQ].
  - apply wp_ret, wp_bind, wp_unlock; [by left|done|by apply HQ].
Qed.

Lemma maybe_done_settled e :
  e_state (maybe_done e) <> engineRunning -> nothing_left (maybe_done e) = true ->
  e_state (maybe_done e) = engineDone.
Proof.
  unfold maybe_done. destruct (_ && _) eqn:E; [done|]. intros H1 H2. rewrite H2, andb_true_r in E.
  apply negb_false_iff, bool_decide_eq_true in E. done.
Qed.

(** The check that was owed. *)
Lemma wp_maybeDone m a (Q : unit -> ghost -> Prop) :
  lockless m -> Q tt (m, a) -> wp engine_inv engine_blk maybeDone ({[+ OweCheck +]} ⊎ m, a) Q.
Proof.
  intros Hm HQ. apply wp_bind, wp_lock; [unfold lockless; by rewrite held_locks_cons|].
  apply wp_bind, wp_section. intros e F e' b HI [= <- <-]. exists ({[+ LHeld +]} ⊎ m, a).
  split; [|by apply wp_unlock; [left|..]].
  apply (inv_maybe_done _ LHeld) in HI; [|done].
  eapply engine_inv_toks; [exact HI|..].
  - by rewrite !ops_cons.
  - by rewrite !held_locks_cons.
  - rewrite elem_cons. intros [?|Hin]; [done|].
    unfold lockless, held_locks in Hm. rewrite elem_of_multiplicity in Hin. lia.
  - rewrite elem_cons. intros [?|Hin]; [done|].
    unfold lockless, held_locks in Hm. rewrite elem_of_multiplicity in Hin. lia.
  - intros _ H1 H2. left. by apply maybe_done_settled.
Qed.

Lemma wp_owe {A} (p : prog Engine A) m a Q :
  match p with Ret _ => False | Act _ _ _ => True end ->
  wp engine_inv engine_blk p ({[+ OweCheck +]} ⊎ m, a) Q -> wp engine_inv engine_blk p (m, a) Q.
Proof.
  intros Hp. apply wp_ghost; [done|..].
  - intros e F [Ho Hl Hr Hn Hd Ha Hq Had]. simpl in *. split; simpl; rewrite <- ?(assoc_L (⊎)); try done.
    + by rewrite ops_cons.
    + by rewrite held_locks_cons.
    + rewrite elem_cons. intros [?|?]; [done|auto].
    + rewrite elem_cons. intros [?|?]; [done|auto].
    + intros _ _. right. rewrite pending_cons. auto.
  - intros e [Hl [?|[_ E]]]; simpl in *.
    + split; [|auto]. unfold lockless in *. simpl in *. by rewrite held_locks_cons in Hl.
    + exfalso. assert (OweCheck ∈ (∅ : gmultiset etok)) as Hin by (rewrite <- E; apply head_in).
      by apply gmultiset_not_elem_of_empty in Hin.
Qed.

Lemma wp_engineActivityRelease j k m a (Q : unit -> ghost -> Prop) :
  lockless m -> stocked k a -> (forall a', stocked k a' -> Q tt (m, a')) ->
  wp engine_inv engine_blk (engineActivityRelease j) (m, a) Q.
Proof.
  intros Hm Ha HQ. apply wp_bind, wp_lift_bind.
  apply wp_adm.
  { right; right; right; right. apply respects_atomically. intros s. unfold release_activity_mark.
    repeat case_match; reflexivity. }
  apply wp_section. intros s F s' r HI E. unfold release_activity_mark in E.
  destruct (as_activities s !! j) as [l|] eqn:Hj; [|simplify_eq; exists a; split; [done|by apply HQ]].
  destruct (al_released l) eqn:Hr; simplify_eq; [exists a; split; [done|by apply HQ]|].
  exists ({[+ OwedActivity (al_handshake l) +]} ⊎ a). split.
  { simpl in *. rewrite <- !(assoc_L (⊎)) in *. by apply activity_mark_inv. }
  apply wp_owe; [done|]. apply wp_adm.
  { right; right; right; left. split; [left; apply head_in|]. apply respects_atomically. intros s0. simpl.
    intros (E1 & E2 & E3 & E4 & E5)%idle_zero. apply zero_idle; simpl; try done; destruct (al_handshake l);
      simpl; by rewrite ?E4, ?E5. }
  apply wp_section. intros s1 F1 s2 r HI1 [= <- <-]. exists a. split.
  { simpl in *. rewrite <- !(assoc_L (⊎)) in *. by apply activity_count_inv. }
  apply wp_maybeDone; [done|by apply HQ].
Qed.

(** *** Shutdown *)
Lemma wp_drain_all js k m a (Q : unit -> ghost -> Prop) :
  LNew ∈ m -> stocked k a -> (forall a', stocked k a' -> Q tt (m, a')) ->
  wp engine_inv engine_blk (drain_all js) (m, a) Q.
Proof.
  intros Hm Ha HQ. revert a Ha. induction js as [|j js IH]; intros a Ha; cbn [drain_all]; [by apply HQ|].
  apply wp_bind, wp_adm; [right; right; left; done|]. eapply wp_drain; [exact Ha|].
  intros r a' Ha'. by apply IH.
Qed.

Lemma wp_beginGraceful k m a (Q : bool * engineShutdownSet -> ghost -> Prop) :
  lockless m -> stocked k a -> (forall r a', stocked k a' -> Q r (m, a')) ->
  wp engine_inv engine_blk beginGracefulShutdown (m, a) Q.
Proof.
  intros Hm Ha HQ. apply wp_bind, wp_lock; [done|]. apply wp_bind, wp_section. intros e F e' b HI.
  destruct (bool_decide _) eqn:Es; cbn [negb]; intros [= <- <-].
  - apply bool_decide_eq_true in Es. exists ({[+ LNew +]} ⊎ m, a). split.
    { apply inv_shutdown; [exact HI|by left|by left]. }
    apply wp_bind. eapply wp_drain_all; [apply head_in|exact Ha|]. intros a' Ha'.
    apply wp_bind, wp_maybeDoneLocked; [done|]. apply wp_bind, wp_unlock; [by left|done|by apply HQ].
  - exists ({[+ LHeld +]} ⊎ m, a). split; [done|]. apply wp_bind, wp_unlock; [by left|done|by apply HQ].
Qed.

Lemma wp_beginAbort why m a (Q : engineShutdownSet * bool -> ghost -> Prop) :
  lockless m -> (forall r, Q r (m, a)) -> wp engine_inv engine_blk (beginAbort why) (m, a) Q.
Proof.
  intros Hm HQ. apply wp_bind, wp_lock; [done|]. apply wp_bind, wp_section. intros e F e' b HI.
  destruct (_ || _) eqn:Es; intros [= <- <-].
  - exists ({[+ LHeld +]} ⊎ m, a). split; [done|]. apply wp_bind, wp_unlock; [by left|done|by apply HQ].
  - apply orb_false_elim in Es as [E1%bool_decide_eq_false E2%bool_decide_eq_false].
    exists ({[+ LNew +]} ⊎ m, a). split.
    { apply inv_shutdown; [exact HI| |by right]. destruct (e_state e); auto; done. }
    apply wp_bind, wp_maybeDoneLocked; [done|]. apply wp_bind, wp_unlock; [by left|done|by apply HQ].
Qed.

Lemma inv_same_state e r err m : engine_inv e m -> engine_inv (set_shutdown (e_state e) r err e) m.
Proof. intros [Ho Hl Hr Hn Hd Ha Hq Had]. by split. Qed.

Lemma wp_record err m a (Q : unit -> ghost -> Prop) :
  lockless m -> Q tt (m, a) -> wp engine_inv engine_blk (recordShutdownError err) (m, a) Q.
Proof.
  intros Hm HQ. destruct err; [|by apply wp_ret]. apply wp_bind, wp_lock; [done|].
  apply wp_bind, wp_section. intros e0 F e' b HI [= <- <-]. exists ({[+ LHeld +]} ⊎ m, a).
  split; [by apply inv_same_state|]. by apply wp_unlock; [left|..].
Qed.

Lemma wp_result m a (Q : option error -> ghost -> Prop) :
  lockless m -> (forall r, Q r (m, a)) -> wp engine_inv engine_blk shutdownResult (m, a) Q.
Proof.
  intros Hm HQ. apply wp_bind, wp_lock; [done|]. apply wp_bind, wp_section. intros e F e' b HI [= <- <-].
  exists ({[+ LHeld +]} ⊎ m, a). split; [done|]. apply wp_bind, wp_unlock; [by left|done|by apply HQ].
Qed.

Lemma wp_abortRemaining cerr why m a (Q : unit -> ghost -> Prop) :
  lockless m -> Q tt (m, a) ->
  wp engine_inv engine_blk (abortRemaining (fun _ => mret cerr) why) (m, a) Q.
Proof.
  intros Hm HQ. apply wp_bind, wp_beginAbort; [done|]. intros [set []]; [|exact HQ].
  apply wp_bind, wp_ret. by apply wp_record.
Qed.

Lemma lockless_nil : lockless ∅.
Proof. done. Qed.

Lemma wp_Shutdown gerr cerr ctx k a (Q : option error -> ghost -> Prop) :
  stocked k a -> (forall r a', stocked k a' -> Q r (∅, a')) ->
  wp engine_inv engine_blk (Shutdown (fun _ => mret cerr) (fun _ => mret gerr) ctx) (∅, a) Q.
Proof.
  intros Ha HQ. destruct ctx as [c|]; unfold Shutdown; [|by apply wp_ret, HQ].
  apply wp_bind, wp_section. intros e F e' b HI [= <- <-]. exists (∅, a). split; [done|].
  destruct (e_ctx e c); [by apply wp_ret, HQ|].
  apply wp_bind. eapply wp_beginGraceful; [done|exact Ha|]. intros [own set] a' Ha'. cbn [fst snd].
  apply wp_bind.
  assert (wp engine_inv engine_blk
    (ended ← select (fun e =>
       (if e_done e then [(e, None)] else [])
       ++ match e_ctx e c with Some cause => [(e, Some cause)] | None => [] end);
     match ended with
     | None => shutdownResult
     | Some cause =>
       (if own : bool then abortRemaining (fun _ => mret cerr) abortCaller else mret tt)
         ≫= fun _ => mret (Some cause)
     end) (∅, a') Q) as Hwait.
  { apply wp_bind, wp_select. intros e1 F1 HI1. split.
    - intros [E1 _]%app_eq_nil. split; [done|]. right. by destruct (e_done e1).
    - intros e2 r Hin. assert (e2 = e1) as -> .
      { apply elem_of_app in Hin as [Hin|Hin]; repeat case_match; set_solver. }
      exists (∅, a'). split; [done|]. destruct r as [cause|].
      + apply wp_bind. destruct own; [apply wp_abortRemaining; [done|]|]; by apply wp_ret, HQ.
      + apply wp_result; [done|]. intros r. by apply HQ. }
  destruct own; cbn [negb]; [|exact Hwait]. apply wp_bind, wp_ret.
  destruct gerr; [|exact Hwait]. apply wp_bind, wp_record; [done|].
  apply wp_abortRemaining; [done|]. exact Hwait.
Qed.

(** *** Goroutines *)
Definition bracketed (o : engine_op) : bool := match o with HTTPConnClosed _ => false | _ => true end.
Definition op_size (o : engine_op) : nat := match o with Operation body => length body | _ => 1 end.

Lemma wp_inner o k a (Q : unit -> ghost -> Prop) :
  stocked (2 + k) a -> (forall a', stocked k a' -> Q tt ({[+ InOp +]} ⊎ ∅, a')) ->
  wp engine_inv engine_blk (inner_prog fuel o) ({[+ InOp +]} ⊎ ∅, a) Q.
Proof.
  intros Ha HQ. pose proof (lockless_op _ lockless_nil) as Hm.
  pose proof (stocked_le (2 + k) k a ltac:(lia) Ha) as Hk.
  destruct (stocked_take _ _ Ha) as (a1 & E1 & H1). destruct (stocked_take _ _ H1) as (a2 & E2 & H2).
  destruct o as [p l|j|lk v|ck v p l]; unfold inner_prog.
  - apply wp_bind, wp_adm; [left; apply head_in|]. rewrite E1, E2.
    eapply wp_acquireOpening; [exact fuel_ok|exact H2|]. intros. by apply HQ.
  - apply wp_adm; [left; apply head_in|]. rewrite E1.
    apply wp_lease_release with (k := k); [exact fuel_ok|apply (stocked_le (S k)); [lia|exact H1]|]. intros. by apply HQ.
  - apply wp_bind, wp_addTracked; [done|]. intros. by apply HQ.
  - apply wp_bind. eapply wp_add_conn; [done|exact Ha|]. intros. by apply HQ.
Qed.
Lemma wp_inners os k a (Q : unit -> ghost -> Prop) :
  stocked (2 * length os + k) a -> (forall a', stocked k a' -> Q tt ({[+ InOp +]} ⊎ ∅, a')) ->
  wp engine_inv engine_blk (inner_progs fuel os) ({[+ InOp +]} ⊎ ∅, a) Q.
Proof.
  revert a. induction os as [|o os IH]; intros a Ha HQ; cbn [inner_progs]; [by apply HQ|].
  apply wp_bind, (wp_inner _ (2 * length os + k)); [|by auto].
  eapply stocked_le; [|exact Ha]. simpl. lia.
Qed.

Lemma wp_engine_op o k a (Q : unit -> ghost -> Prop) :
  bracketed o = true -> stocked (2 * op_size o + k) a -> (forall a', stocked k a' -> Q tt (∅, a')) ->
  wp engine_inv engine_blk (engine_op_prog fuel o) (∅, a) Q.
Proof.
  intros Hb Ha HQ. pose proof (stocked_le (2 * op_size o + k) k a ltac:(lia) Ha) as Hk.
  destruct o as [body|lk v|ck v|h|j|ctx ge ce|ce|ctx cause|j]; unfold engine_op_prog; [..|done].
  - apply wp_bind, wp_beginOp; [done|intros; by apply HQ|].
    apply wp_bind. eapply wp_inners; [exact Ha|]. intros a' Ha'. apply wp_endOp; [done|by apply HQ].
  - apply wp_removeTracked; [done|by apply HQ].
  - eapply (wp_remove_conn _ _ k); [done| |done]. eapply stocked_le; [|exact Ha]. simpl. lia.
  - apply wp_bind. destruct h; (eapply wp_engine_activity; [done|exact Hk|]); intros; by apply HQ.
  - by eapply wp_engineActivityRelease.
  - apply wp_bind. eapply wp_Shutdown; [exact Hk|]. intros. by apply HQ.
  - apply wp_bind, wp_bind, wp_beginAbort; [done|]. intros [set []]; by apply wp_ret, HQ.
  - apply wp_section. intros e F e' b [Ho Hl Hr Hn Hd Haf Hq Had] [= <- <-]. exists (∅, a).
    split; [by split|by apply HQ].
Qed.

Definition ops_size (ops : list engine_op) : nat := sum_list_with op_size ops.
Definition engine_fin (m : ghost) : Prop := m.1 = ∅ /\ clean m.2.

Lemma wp_engine_goroutine ops a :
  forallb bracketed ops = true -> stocked (2 * ops_size ops) a ->
  wp engine_inv engine_blk (engine_goroutine fuel ops) (∅, a) (fun _ => engine_fin).
Proof.
  revert a. induction ops as [|o ops IH]; intros a Hb Ha; cbn [engine_goroutine].
  { apply wp_ret. split; [done|apply Ha]. }
  apply andb_true_iff in Hb as [Ho Hb].
  apply wp_bind, (wp_engine_op _ (2 * ops_size ops)); [done| |by auto].
  eapply stocked_le; [|exact Ha]. unfold ops_size. simpl. lia.
Qed.
End invariant.

(** ** [done] stays closed *)
Definition done_mono_rel (e e' : Engine) : Prop := e_done e = true -> e_done e' = true.
#[global] Instance done_mono_preorder : PreOrder done_mono_rel.
Proof. split; [by intros ? ?|]. intros a b c H1 H2 H3. auto. Qed.

Lemma keeps_lock : respects done_mono_rel lock.
Proof.
  apply respects_select. intros e e' b. destruct (e_locked e); [by intros ?%elem_of_nil|].
  intros [= -> ->]%list_elem_of_singleton. by intros ?.
Qed.
Lemma keeps_check : respects done_mono_rel maybeDoneLocked.
Proof. apply respects_atomically. intros e. unfold maybe_done. simpl. case_match; by intros ?. Qed.
Lemma keeps_adm {A} (p : prog admissionState A) : respects done_mono_rel (adm p).
Proof. apply respects_lift. by intros e a ?. Qed.
Lemma keeps_drain js : respects done_mono_rel (drain_all js).
Proof. induction js as [|j js IH]; [done|]. apply respects_bind; [apply keeps_adm|done]. Qed.
(** A section that does not write [done]. *)
Lemma keeps_section {B} (f : Engine -> Engine * B) :
  (forall e, e_done (f e).1 = e_done e) -> respects done_mono_rel (atomically f).
Proof. intros Hf. apply respects_atomically. intros e. unfold done_mono_rel. by rewrite Hf. Qed.

Ltac keeps :=
  repeat first
    [ apply keeps_lock | apply keeps_check | apply keeps_adm | apply keeps_drain | apply respects_ret
    | apply respects_bind; [|intros ?]
    | apply keeps_section; intros ?; cbv zeta; repeat case_match; reflexivity
    | match goal with |- respects _ (match ?x with _ => _ end) => destruct x end ].

Lemma keeps_record err : respects done_mono_rel (recordShutdownError err).
Proof. unfold recordShutdownError. keeps. Qed.
Lemma keeps_abort why : respects done_mono_rel (beginAbort why).
Proof. unfold beginAbort, unlock. keeps. Qed.
Lemma keeps_abortRemaining cerr why : respects done_mono_rel (abortRemaining (fun _ => mret cerr) why).
Proof.
  apply respects_bind; [apply keeps_abort|]. intros [set []]; [|done]. apply respects_bind; [done|].
  intros err. apply keeps_record.
Qed.
Lemma keeps_Shutdown gerr cerr ctx :
  respects done_mono_rel (Shutdown (fun _ => mret cerr) (fun _ => mret gerr) ctx).
Proof.
  destruct ctx as [c|]; [|done]. unfold Shutdown, beginGracefulShutdown, shutdownResult, unlock.
  apply respects_bind; [keeps|]. intros [cause|]; [done|]. apply respects_bind; [keeps|].
  intros [own set]. apply respects_bind.
  - destruct own; [|done]. apply respects_bind; [done|]. intros [err|]; [|done].
    apply respects_bind; [apply keeps_record|]. intros _. apply keeps_abortRemaining.
  - intros _. apply respects_bind.
    + apply respects_select. intros e e' b Hin. assert (e' = e) as -> by (repeat case_match; set_solver).
      by intros ?.
    + intros [cause|]; [|keeps]. apply respects_bind; [|done]. destruct own; [apply keeps_abortRemaining|done].
Qed.
Lemma keeps_inner fuel o : respects done_mono_rel (inner_prog fuel o).
Proof.
  destruct o as [p l|j|k v|k v p l]; unfold inner_prog, addTracked, add_conn, obtain_lease, unlock; keeps.
Qed.
Lemma keeps_inners fuel os : respects done_mono_rel (inner_progs fuel os).
Proof. induction os as [|o os IH]; [done|]. apply respects_bind; [apply keeps_inner|done]. Qed.

Lemma respects_engine_op fuel o : respects done_mono_rel (engine_op_prog fuel o).
Proof.
  destruct o as [body|k v|k v|h|j|ctx ge ce|ce|ctx cause|j]; unfold engine_op_prog.
  - unfold beginOp, endOp, unlock. apply respects_bind; [keeps|]. intros [err|]; [done|].
    apply respects_bind; [apply keeps_inners|]. intros _. keeps.
  - unfold removeTracked, unlock. keeps.
  - unfold remove_conn, unlock. keeps.
  - unfold engineAcquireHandshake, engineAcquireUpgrade, acquire_engine_activity, unlock. keeps.
  - unfold engineActivityRelease, maybeDone, unlock. keeps.
  - apply respects_bind; [apply keeps_Shutdown|done].
  - apply respects_bind; [|done]. apply respects_bind; [apply keeps_abort|]. by intros [set []].
  - keeps.
  - apply keeps_adm.
Qed.
Lemma respects_engine_goroutine fuel ops : respects done_mono_rel (engine_goroutine fuel ops).
Proof.
  induction ops as [|o ops IH]; [done|]. cbn [engine_goroutine].
  apply respects_bind; [apply respects_engine_op|done].
Qed.

(** ** Reachable states *)
Definition engine_pool (fuel : nat) (L : Limits) (opss : list (list engine_op)) : pool Engine :=
  (new_engine L, engine_goroutine fuel <$> opss).
Definition engine_swaps (opss : list (list engine_op)) : nat :=
  sum_list_with (fun ops => 2 * ops_size ops)%nat opss.
Definition all_bracketed (opss : list (list engine_op)) : bool := forallb (forallb bracketed) opss.

Lemma done_mono fuel L opss c c' :
  rtc pstep (engine_pool fuel L opss) c -> rtc pstep c c' -> e_done c.1 = true -> e_done c'.1 = true.
Proof.
  intros Hr Hr'. destruct c as [e ts], c' as [e' ts'].
  assert (Forall (respects done_mono_rel) (engine_goroutine fuel <$> opss)) as Hts
    by (apply Forall_fmap, Forall_true; intros; apply respects_engine_goroutine).
  destruct (respects_pool _ _ _ _ _ Hts Hr) as [_ Hts'].
  destruct (respects_pool _ _ _ _ _ Hts' Hr') as [Hm _]. exact Hm.
Qed.

Section reachable.
Context (L : Limits) (opss : list (list engine_op)) (fuel : nat).
Hypothesis limits_ok : validate L = None.
Hypothesis fuel_ok : (engine_swaps opss < fuel)%nat.
Hypothesis bracketed_ok : all_bracketed opss = true.

Lemma validate_nonneg :
  0 <= MaxConnectionsPerListener L /\ 0 <= MaxConnections L /\ 0 <= MaxConnectionsPerPeer L.
Proof.
  unfold validate in limits_ok. repeat (destruct (_ <? 0) eqn:? in limits_ok; [done|]). lia.
Qed.

Lemma engine_pool_ok c :
  rtc pstep (engine_pool fuel L opss) c ->
  pool_ok (engine_inv L (engine_swaps opss)) engine_blk engine_fin c.
Proof.
  destruct validate_nonneg as (? & ? & ?).
  eapply wp_adequate with (ms := (fun ops => (∅, copies Limits.Credit (2 * ops_size ops))) <$> opss).
  - assert (gsum ((fun ops => (∅ : gmultiset etok, copies Limits.Credit (2 * ops_size ops))) <$> opss)
            = (∅, copies Limits.Credit (engine_swaps opss))) as ->.
    { unfold engine_swaps. clear. induction opss as [|ops oss IH].
      - done.
      - change (((∅ : gmultiset etok, copies Limits.Credit (2 * ops_size ops)) : ghost) ∙
          gsum ((fun ops => (∅ : gmultiset etok, copies Limits.Credit (2 * ops_size ops))) <$> oss)
          = (∅, copies Limits.Credit (2 * ops_size ops + sum_list_with (fun ops => 2 * ops_size ops)%nat oss))).
        rewrite IH, <- copies_add. simpl. f_equal. }
    split; simpl; try done; try (intros Hin; by apply gmultiset_not_elem_of_empty in Hin).
    by apply admission_inv_init.
  - unfold owns. apply Forall2_fmap_2. apply Forall_Forall2_diag. apply Forall_forall.
    intros ops Hin. apply wp_engine_goroutine; [done|..].
    + unfold all_bracketed in bracketed_ok. rewrite forallb_forall in bracketed_ok. by apply bracketed_ok.
    + split; [|by rewrite mult_copies]. split_and!; by intros ? ?%elem_copies.
Qed.

(** [done] is closed only when the Engine is in its final state with nothing tracked, no
    operation in progress and the admission controller idle, and from then on no
    operation can begin and nothing can be tracked. *)
Theorem engine_done_is_final c c' :
  rtc pstep (engine_pool fuel L opss) c -> e_done c.1 = true -> rtc pstep c c' ->
  e_done c'.1 = true /\ e_state c'.1 = engineDone /\ nothing_left c'.1 = true.
Proof.
  intros Hr Hd Hr'.
  assert (e_done c'.1 = true) as Hd' by (by eapply done_mono).
  assert (pool_ok (engine_inv L (engine_swaps opss)) engine_blk engine_fin c') as (ms & _ & HI)
    by (apply engine_pool_ok; by etrans).
  pose proof (ei_done _ _ _ _ HI) as E. rewrite Hd' in E. symmetry in E. apply bool_decide_eq_true in E.
  split_and!; [done..|]. by eapply ei_after.
Qed.

Lemma engine_stuck c :
  rtc pstep (engine_pool fuel L opss) c -> ~ can_step c ->
  exists ms, engine_inv L (engine_swaps opss) c.1 (gsum ms) /\ (gsum ms).1 = ∅ /\
    (e_done c.1 = true -> finished c).
Proof.
  intros Hok%engine_pool_ok Hst. destruct (pool_ok_blocked _ _ _ _ Hok Hst) as (ms & HI & Hall).
  destruct c as [e ts]. simpl in *.
  assert (held_locks (gsum ms).1 = 0%nat) as Hl.
  { clear HI Hok Hst. induction Hall as [|t m ts' ms' Hm _ IH]; [done|]. simpl. rewrite held_locks_union, IH.
    destruct Hm as [[_ [E _]]|[Hm _]]; [by rewrite E|by rewrite Hm]. }
  pose proof (ei_lock _ _ _ _ HI) as Hlk. rewrite Hl in Hlk.
  assert (e_locked e = false) as Hnl by (by destruct (e_locked e)).
  assert (Forall (fun m : ghost => m.1 = ∅) ms) as Hnil.
  { clear HI Hok Hst Hl Hlk. induction Hall as [|t m ts' ms' Hm _ IH]; constructor; auto.
    destruct Hm as [[_ [E _]]|[_ [Hm|[_ Hm]]]]; [done|congruence|done]. }
  exists ms. split_and!; [done|..].
  - clear -Hnil. induction Hnil as [|m ms Hm _ IH]; [done|]. simpl. rewrite Hm, IH. done.
  - intros Hd. eapply not_blocked_finished; [exact Hall|].
    intros m _ [_ [Hk|[Hk _]]]; congruence.
Qed.

Lemma engine_rest c :
  rtc pstep (engine_pool fuel L opss) c -> ~ can_step c ->
  e_locked c.1 = false /\ e_activeOps c.1 = 0 /\
  (e_state c.1 <> engineRunning -> nothing_left c.1 = true ->
     e_done c.1 = true /\ e_state c.1 = engineDone /\ finished c).
Proof.
  intros Hr Hst. destruct (engine_stuck _ Hr Hst) as (ms & HI & Hnil & Hfin).
  split_and!.
  - pose proof (ei_lock _ _ _ _ HI) as Hl. rewrite Hnil in Hl. by destruct (e_locked c.1).
  - rewrite (ei_ops _ _ _ _ HI), Hnil. done.
  - intros H1 H2. destruct (ei_quiet _ _ _ _ HI H1 H2) as [Hs|Hp].
    + assert (e_done c.1 = true) as Hd by (rewrite (ei_done _ _ _ _ HI), Hs; done). auto.
    + rewrite Hnil in Hp. destruct Hp as [Hp|[Hp|Hp]]; by apply gmultiset_not_elem_of_empty in Hp.
Qed.
End reachable.

(** C18. As long as every lease is released inside an operation of the Engine or with the resource
    that holds it, as all callers of the Engine do but one ([all_bracketed] leaves out the
    release of an opening lease by the HTTP server of a WebSocket listener, for which
    [http_release_loses_done] shows the opposite): no completion is lost and nothing deadlocks.
    When no goroutine can move, the lock is free and no operation is in progress, and if the
    Engine is shutting down with nothing tracked and the admission controller idle, then
    [done] is closed and every call, each Shutdown included, has returned. *)
Theorem engine_no_lost_done L opss fuel c :
  validate L = None -> (engine_swaps opss < fuel)%nat -> all_bracketed opss = true ->
  rtc pstep (engine_pool fuel L opss) c -> ~ can_step c ->
  e_locked c.1 = false /\ e_activeOps c.1 = 0 /\
  (e_state c.1 <> engineRunning -> nothing_left c.1 = true ->
     e_done c.1 = true /\ e_state c.1 = engineDone /\ finished c).
Proof. intros Hl Hf Hb. by apply engine_rest. Qed.

(** A lease released by the HTTP server of a WebSocket listener is not followed by a
    completion check: a connection accepted before [Close] and closed by its peer
    before the upgrade leaves an Engine with nothing left whose [done] is never closed. *)
Theorem http_release_loses_done :
  exists c, rtc pstep (engine_pool 10 {| MaxConnections := 0; MaxConnectionsPerPeer := 0;
      MaxConnectionsPerListener := 0; MaxConcurrentHandshakes := 0; MaxPendingUpgrades := 0;
      MaxQueuedBytesTotal := 0 |}
      [[Operation [IOpen "192.0.2.1" None]; CloseOp None; HTTPConnClosed 0]]) c /\
    finished c /\ e_state c.1 = engineAborting /\ nothing_left c.1 = true /\ e_done c.1 = false.
Proof.
  destruct (run_schedule (engine_pool 10 {| MaxConnections := 0; MaxConnectionsPerPeer := 0;
      MaxConnectionsPerListener := 0; MaxConcurrentHandshakes := 0; MaxPendingUpgrades := 0;
      MaxQueuedBytesTotal := 0 |}
      [[Operation [IOpen "192.0.2.1" None]; CloseOp None; HTTPConnClosed 0]])
      (replicate 14 (0, 0)%nat)) as [c|] eqn:E.
  - exists c. split; [by eapply run_schedule_steps|]. vm_compute in E. injection E as <-.
    split_and!; try reflexivity. repeat constructor.
  - vm_compute in E. discriminate E.
Qed.

Definition engine_demo_limits : Limits :=
  {| MaxConnections := 2; MaxConnectionsPerPeer := 0; MaxConnectionsPerListener := 0;
     MaxConcurrentHandshakes := 0; MaxPendingUpgrades := 0; MaxQueuedBytesTotal := 0 |}.
(** An Engine with a listener that is closed while an operation is under way. *)
Definition engine_demo : list (list engine_op) :=
  [[Operation [IListen StreamListener 0]; RemoveListener StreamListener 0]; [CloseOp None]].
Definition engine_end : pool Engine :=
  reached (engine_pool 20 engine_demo_limits engine_demo) (in_turn 2 40).

Lemma engine_demo_fuel : (engine_swaps engine_demo < 20)%nat.
Proof. vm_compute. lia. Qed.
Lemma engine_demo_reached : rtc pstep (engine_pool 20 engine_demo_limits engine_demo) engine_end.
Proof. apply reached_steps. Qed.

Lemma engine_done_is_final_witness :
  e_done engine_end.1 = true /\ e_state engine_end.1 = engineDone /\ nothing_left engine_end.1 = true.
Proof.
  exact (engine_done_is_final engine_demo_limits engine_demo 20 eq_refl engine_demo_fuel eq_refl
           engine_end engine_end engine_demo_reached eq_refl (rtc_refl _ _)).
Defined.

Lemma engine_no_lost_done_witness : e_done engine_end.1 = true /\ finished engine_end.
Proof.
  assert (~ can_step engine_end) as Hn by (apply finished_no_step; vm_compute; repeat constructor).
  destruct (engine_no_lost_done engine_demo_limits engine_demo 20 engine_end eq_refl engine_demo_fuel eq_refl
              engine_demo_reached Hn) as (_ & _ & H).
  destruct H as (Hd & _ & Hf); [vm_compute; discriminate|reflexivity|]. split; [exact Hd|exact Hf].
Defined.
