(* ===== verification/Classify.v ===== *)
(** * Classify: from raw causes to typed operational errors

    Models transport/error_classify.go with its platform variants
    (error_classify_unix.go, error_classify_windows.go), the normalisers of the
    resource types (conn.go, packet.go, listener.go, websocket.go,
    websocket_graceful.go) and [mapOperationTimeout] (timeouts.go).

    [websocket.CloseStatus] belongs to github.com/coder/websocket: it is the
    parameter [CloseStatus] of the [WebSocketLib] class. *)
From S2P Require Import Prelude Kinds Errors.

Class WebSocketLib := { CloseStatus : error -> Z }.

(** Status codes of RFC 6455. *)
Definition StatusNormalClosure : Z := 1000.
Definition StatusGoingAway : Z := 1001.
Definition StatusProtocolError : Z := 1002.
Definition StatusUnsupportedData : Z := 1003.
Definition StatusInvalidFramePayloadData : Z := 1007.
Definition StatusPolicyViolation : Z := 1008.
Definition StatusMessageTooBig : Z := 1009.
Definition StatusInternalError : Z := 1011.

Inductive classifyHint := hintNone | hintTLSHandshake | hintWSUpgrade | hintWireDecode
  | hintMessageDecode.
#[global] Instance classifyHint_eq_dec : EqDecision classifyHint.
Proof. solve_decision. Defined.

Definition establishedIOOp (op : Op) : bool :=
  match op with
  | OpRead | OpWrite | OpSend | OpReceive | OpClose => true
  | _ => false
  end.

(** The build tag picks one of the two platform classifiers. *)
Inductive platform := Unix | Windows.
#[global] Instance platform_eq_dec : EqDecision platform.
Proof. solve_decision. Defined.

Definition wsaConnRefused : sentinel := WSAErrno 10061.
Definition wsaConnReset : sentinel := WSAErrno 10054.
Definition wsaConnAborted : sentinel := WSAErrno 10053.
Definition wsaShutdown : sentinel := WSAErrno 10058.
Definition wsaNotConn : sentinel := WSAErrno 10057.

Definition classifyPlatformCause_unix (op : Op) (err : error) : option (ErrorKind * sentinel) :=
  if errors_Is err (Errno ECONNREFUSED) then Some (ErrorRefused, ErrConnectionRefused)
  else if errors_Is err (Errno ECONNRESET) then Some (ErrorReset, ErrConnectionReset)
  else if errors_Is err (Errno EPIPE) then Some (ErrorPeerClosed, ErrPeerClosed)
  else if errors_Is err (Errno ENOTCONN) && establishedIOOp op
  then Some (ErrorPeerClosed, ErrPeerClosed)
  else None.

Definition classifyPlatformCause_windows (op : Op) (err : error) : option (ErrorKind * sentinel) :=
  if errors_Is err wsaConnRefused then Some (ErrorRefused, ErrConnectionRefused)
  else if errors_Is err wsaConnReset || errors_Is err wsaConnAborted
  then Some (ErrorReset, ErrConnectionReset)
  else if errors_Is err wsaShutdown then Some (ErrorPeerClosed, ErrPeerClosed)
  else if errors_Is err wsaNotConn && establishedIOOp op
  then Some (ErrorPeerClosed, ErrPeerClosed)
  else None.

Definition classifyPlatformCause (pf : platform) :=
  match pf with
  | Unix => classifyPlatformCause_unix
  | Windows => classifyPlatformCause_windows
  end.

Definition as_foreign (t : foreign_type) (err : error) : bool :=
  match errors_As (is_foreign t) err with Some _ => true | None => false end.

Definition isTLSCause (err : error) : bool :=
  as_foreign FCertificateVerificationError err
  || as_foreign FUnknownAuthorityError err
  || as_foreign FHostnameError err
  || as_foreign FCertificateInvalidError err.

(** Third component [ok]; the category may be nil even when [ok]. *)
Definition classifyWSStatus (status : Z) : ErrorKind * option sentinel * bool :=
  if (status =? StatusNormalClosure) || (status =? StatusGoingAway)
  then (ErrorUnknown, None, false)
  else if (status =? StatusProtocolError) || (status =? StatusUnsupportedData)
       || (status =? StatusInvalidFramePayloadData) || (status =? StatusPolicyViolation)
  then (ErrorProtocol, Some ErrProtocolViolation, true)
  else if status =? StatusMessageTooBig then (ErrorTooLarge, Some ErrMessageTooLarge, true)
  else if status =? StatusInternalError then (ErrorUnknown, None, true)
  else (ErrorUnknown, None, false).

(** [errors.As(err, &netErr) && netErr.Timeout()] *)
Definition net_timeout (err : error) : bool :=
  match errors_As is_net_error err with
  | Some n => match net_error n with Some b => b | None => false end
  | None => false
  end.

(** The [switch] of [classifyOperational]: the first sentinel that matches gives
    the kind and, for some, a broad category to add. *)
Definition sentinel_rules : list (list sentinel * ErrorKind * option sentinel) :=
  [ ([ErrClosed], ErrorClosed, None);
    ([ErrWouldBlock], ErrorBackpressure, None);
    ([ErrMessageTooLarge; ErrDatagramTooLarge], ErrorTooLarge, None);
    ([ErrFrameTooLarge], ErrorTooLarge, Some ErrMessageTooLarge);
    ([ErrFrameExceedsQueueBudget; ErrReadBufferFull], ErrorResourceExhausted,
      Some ErrResourceExhausted);
    ([ErrInvalidFramer], ErrorUnknown, None);
    ([ErrPeerClosed], ErrorPeerClosed, None);
    ([ErrConnectionRefused], ErrorRefused, None);
    ([ErrConnectionReset], ErrorReset, None);
    ([ErrDNS], ErrorDNS, None);
    ([ErrTLS], ErrorTLS, None);
    ([ErrProtocolViolation], ErrorProtocol, None) ].

Definition with_category (category : option sentinel) (cause : error) : error :=
  match category with Some cat => categorized cat (Some cause) | None => cause end.

Definition match_sentinel (cause : error) : option (ErrorKind * option sentinel) :=
  match List.find (fun '(ss, _, _) => existsb (errors_Is cause) ss) sentinel_rules with
  | Some (_, k, cat) => Some (k, cat)
  | None => None
  end.

Section classify.
Context `{WebSocketLib} (pf : platform).

(** The kind and the category [classifyOperational] settles on for a cause that
    is not yet a typed error. *)
Definition classify_cause (op : Op) (cause : error) (hint : classifyHint)
    : ErrorKind * option sentinel :=
  match errors_As is_TimeoutError cause with
  | Some _ => (ErrorTimeout, None)
  | None =>
  if errors_Is cause ErrTimeout then (ErrorTimeout, None)
  else if net_timeout cause then (ErrorTimeout, Some ErrTimeout)
  else if (match errors_As is_LimitError cause with Some _ => true | None => false end)
          || errors_Is cause ErrResourceExhausted
  then (ErrorResourceExhausted, None)
  else
  match match_sentinel cause with
  | Some kc => kc
  | None =>
  if as_foreign FDNSError cause then (ErrorDNS, Some ErrDNS)
  else
  match classifyPlatformCause pf op cause with
  | Some (kind, category) => (kind, Some category)
  | None =>
  if isTLSCause cause || bool_decide (hint = hintTLSHandshake)
  then (ErrorTLS, Some ErrTLS)
  else
  let '(kind, category, ok) :=
    if CloseStatus cause =? -1 then (ErrorUnknown, None, false)
    else classifyWSStatus (CloseStatus cause) in
  if ok then (kind, category)
  else if bool_decide (hint = hintWireDecode) || bool_decide (hint = hintMessageDecode)
          || bool_decide (hint = hintWSUpgrade)
  then (ErrorProtocol, Some ErrProtocolViolation)
  else (ErrorUnknown, None)
  end end end.

Definition classifyOperational (op : Op) (protocol : Scheme) (local remote : option net_addr)
    (cause : option error) (hint : classifyHint) : option error :=
  match cause with
  | None => None
  | Some c =>
      match errors_As is_OpError c with
      | Some _ => Some c
      | None =>
          let '(kind, category) := classify_cause op c hint in
          envelopeOperational op protocol local remote kind (Some (with_category category c))
      end
  end.

(** ** Normalisers *)
Definition isTimeoutFailure (err : option error) : bool :=
  match err with Some e => net_timeout e | None => false end.

Definition normalizeConnError (err : option error) : option error :=
  if Is err IoEOF || Is err NetErrClosed then None else err.
Definition normalizePacketError (err : option error) : option error :=
  if Is err NetErrClosed then None else err.
Definition normalizeListenerError (err : option error) : option error :=
  if Is err NetErrClosed then None else err.

Definition normalizeWSError (err : option error) : option error :=
  match err with
  | None => None
  | Some e =>
      if errors_Is e IoEOF || errors_Is e NetErrClosed then None
      else if (CloseStatus e =? StatusNormalClosure) || (CloseStatus e =? StatusGoingAway)
      then None else Some e
  end.

Definition isNormalWSClose (err : option error) : bool :=
  match err with
  | None => true
  | Some e =>
      if errors_Is e ContextCanceled then false
      else (CloseStatus e =? StatusNormalClosure) || (CloseStatus e =? StatusGoingAway)
  end.

(** [joinCloseResult] (stream_graceful.go). *)
Definition joinCloseResult (primary secondary : option error) : option error :=
  match primary with
  | None => secondary
  | Some _ =>
      match secondary with
      | None => primary
      | Some s => if errors_Is s NetErrClosed then primary
                  else errors_Join [primary; secondary]
      end
  end.

(** [parent] and [operation] stand for the [context.Cause] of the two contexts. *)
Definition mapOperationTimeout (parent operation : option error) (kind : TimeoutKind)
    (err : option error) : option error :=
  match err with
  | None => None
  | Some _ =>
      match parent with
      | Some c => Some c
      | None =>
          if Is operation ContextDeadlineExceeded then Some (TimeoutError kind err) else err
      end
  end.
End classify.

(** ** Properties *)

(** The sentinels one of which a typed error of a given kind always matches. *)
Definition kind_sentinels (k : ErrorKind) : list sentinel :=
  match k with
  | ErrorClosed => [ErrClosed]
  | ErrorPeerClosed => [ErrPeerClosed]
  | ErrorTimeout => [ErrTimeout]
  | ErrorRefused => [ErrConnectionRefused]
  | ErrorReset => [ErrConnectionReset]
  | ErrorDNS => [ErrDNS]
  | ErrorTLS => [ErrTLS]
  | ErrorProtocol => [ErrProtocolViolation]
  | ErrorResourceExhausted => [ErrResourceExhausted]
  | ErrorBackpressure => [ErrWouldBlock]
  | ErrorTooLarge => [ErrMessageTooLarge; ErrDatagramTooLarge]
  | _ => []
  end.
Definition kind_matches (k : ErrorKind) (e : error) : Prop :=
  kind_sentinels k = [] \/ existsb (errors_Is e) (kind_sentinels k) = true.

Lemma errors_Is_with_category cat c t :
  errors_Is (with_category cat c) t =
    (match cat with Some k => bool_decide (t = k) | None => false end) || errors_Is c t.
Proof. destruct cat; [apply errors_Is_categorized | done]. Qed.

Lemma errors_As_with_category P cat c :
  (forall k, P (CategorizedCause k c) = false) ->
  errors_As P (with_category cat c) = errors_As P c.
Proof. destruct cat; [|done]. intros HP. by apply errors_As_categorized. Qed.

Lemma kind_matches_category k cat c :
  cat ∈ kind_sentinels k -> kind_matches k (with_category (Some cat) c).
Proof.
  intros Hin. right. apply existsb_exists. exists cat. split.
  - by apply list_elem_of_In.
  - rewrite errors_Is_with_category. by rewrite bool_decide_true.
Qed.

Lemma kind_matches_is k c t : t ∈ kind_sentinels k -> errors_Is c t = true -> kind_matches k c.
Proof.
  intros Hin Hc. right. apply existsb_exists. exists t. split; [by apply list_elem_of_In|done].
Qed.

Lemma errors_Is_of_node c n t : n ∈ nodes c -> node_is t n = true -> errors_Is c t = true.
Proof. intros Hin Hn. apply existsb_exists. exists n. by rewrite <- list_elem_of_In. Qed.

Lemma errors_Is_as_timeout c n :
  errors_As is_TimeoutError c = Some n -> errors_Is c ErrTimeout = true.
Proof.
  intros [Hin%list_elem_of_In HP]%find_some. eapply errors_Is_of_node; [done|].
  by destruct n.
Qed.

Lemma nodes_limit_in c k l :
  LimitError k l ∈ nodes c -> Sentinel ErrResourceExhausted ∈ nodes c.
Proof.
  revert c. fix IH 1. intros c.
  assert (IHs : forall es, LimitError k l ∈ flat_map nodes es ->
    Sentinel ErrResourceExhausted ∈ flat_map nodes es).
  { induction es as [|x es IHes]; simpl; [by intros ?%elem_of_nil|].
    rewrite !elem_of_app. intros [?|?]; [left; by apply IH | right; by apply IHes]. }
  destruct c as [s|t w|es|? ? ? ? ? [w|]|? [w|]|k' l'|cat w|f es]; simpl;
    rewrite !elem_of_cons; intros [Heq|Hin]; try discriminate Heq;
    try (right; by apply IH); try (right; by apply IHs); try (by inversion Hin).
  all: right; by left.
Qed.

Lemma errors_Is_as_limit c n :
  errors_As is_LimitError c = Some n -> errors_Is c ErrResourceExhausted = true.
Proof.
  intros [Hin%list_elem_of_In HP]%find_some. destruct n; try done.
  eapply errors_Is_of_node; [by eapply nodes_limit_in | by apply bool_decide_true].
Qed.

Lemma match_sentinel_kind c k cat :
  match_sentinel c = Some (k, cat) -> kind_matches k (with_category cat c).
Proof.
  unfold match_sentinel. destruct (List.find _ _) as [[[ss k'] cat']|] eqn:E; [|done].
  intros [= -> ->]. apply find_some in E as [Hin Hex].
  repeat (destruct Hin as [[= <- <- <-]|Hin];
    [first [ by left
           | apply kind_matches_category; set_solver
           | apply existsb_exists in Hex as (t & Ht%list_elem_of_In & Hc);
             eapply kind_matches_is; [|exact Hc]; set_solver ]|]).
  destruct Hin.
Qed.

Lemma classifyPlatformCause_kind pf op c k cat :
  classifyPlatformCause pf op c = Some (k, cat) -> cat ∈ kind_sentinels k.
Proof.
  destruct pf; unfold classifyPlatformCause, classifyPlatformCause_unix,
    classifyPlatformCause_windows; repeat case_match; intros; simplify_eq; set_solver.
Qed.

Lemma classifyWSStatus_kind st k cat :
  classifyWSStatus st = (k, cat, true) ->
  match cat with Some s => s ∈ kind_sentinels k | None => k = ErrorUnknown end.
Proof.
  unfold classifyWSStatus; repeat case_match; intros; simplify_eq; first [done | set_solver].
Qed.

Section properties.
Context `{WebSocketLib} (pf : platform).

Lemma classify_cause_kind op c hint k cat :
  classify_cause pf op c hint = (k, cat) -> kind_matches k (with_category cat c).
Proof.
  unfold classify_cause.
  destruct (errors_As is_TimeoutError c) as [n|] eqn:Et.
  { intros [= <- <-]. eapply kind_matches_is; [|by eapply errors_Is_as_timeout]. set_solver. }
  destruct (errors_Is c ErrTimeout) eqn:Ei.
  { intros [= <- <-]. eapply kind_matches_is; [|exact Ei]. set_solver. }
  destruct (net_timeout c).
  { intros [= <- <-]. apply kind_matches_category. set_solver. }
  destruct (_ || _) eqn:El.
  { intros [= <- <-]. eapply kind_matches_is with (t := ErrResourceExhausted); [set_solver|].
    apply orb_true_iff in El as [El|El]; [|done].
    destruct (errors_As is_LimitError c) eqn:E; [by eapply errors_Is_as_limit | done]. }
  destruct (match_sentinel c) as [[k' cat']|] eqn:Em.
  { intros [= <- <-]. by apply match_sentinel_kind. }
  destruct (as_foreign FDNSError c).
  { intros [= <- <-]. apply kind_matches_category. set_solver. }
  destruct (classifyPlatformCause pf op c) as [[k' cat']|] eqn:Ep.
  { intros [= <- <-]. apply kind_matches_category. by eapply classifyPlatformCause_kind. }
  destruct (isTLSCause c || _).
  { intros [= <- <-]. apply kind_matches_category. set_solver. }
  destruct (if _ =? _ then _ else _) as [[k' cat'] ok] eqn:Ews.
  destruct ok.
  { intros [= <- <-]. destruct (_ =? _); [done|].
    apply classifyWSStatus_kind in Ews.
    destruct cat'; [by apply kind_matches_category | subst; by left]. }
  destruct (_ || _ || _).
  { intros [= <- <-]. apply kind_matches_category. set_solver. }
  intros [= <- <-]. by left.
Qed.

Lemma classifyOperational_fresh op protocol local remote c hint :
  errors_As is_OpError c = None ->
  classifyOperational pf op protocol local remote (Some c) hint =
    let '(kind, category) := classify_cause pf op c hint in
    Some (OpError op protocol kind (snapshotAddr local) (snapshotAddr remote)
            (Some (with_category category c))).
Proof.
  intros E. unfold classifyOperational. rewrite E.
  destruct (classify_cause pf op c hint) as [kind category].
  unfold envelopeOperational. by rewrite errors_As_with_category, E.
Qed.

Lemma classifyOperational_keeps_is op protocol local remote c hint t :
  errors_Is c t = true ->
  Is (classifyOperational pf op protocol local remote (Some c) hint) t = true.
Proof.
  intros Hc. destruct (errors_As is_OpError c) eqn:E.
  - unfold classifyOperational. by rewrite E.
  - rewrite classifyOperational_fresh by done.
    destruct (classify_cause _ _ _ _) as [kind category]. cbn -[nodes].
    rewrite errors_Is_op, errors_Is_with_category, Hc. by destruct category; rewrite orb_true_r.
Qed.

Lemma classifyOperational_typed op protocol local remote c hint :
  exists e n, classifyOperational pf op protocol local remote (Some c) hint = Some e
    /\ errors_As is_OpError e = Some n.
Proof.
  destruct (errors_As is_OpError c) as [n|] eqn:E.
  - exists c, n. split; [|done]. unfold classifyOperational. by rewrite E.
  - rewrite classifyOperational_fresh by done.
    destruct (classify_cause _ _ _ _) as [kind category]. by do 2 eexists.
Qed.

(** A classified error is never wrapped again: classifying any result of the
    classifier, for another operation and with another hint, returns it as it is. *)
Theorem classifyOperational_idempotent op protocol local remote cause hint
    op' protocol' local' remote' hint' :
  let e := classifyOperational pf op protocol local remote cause hint in
  classifyOperational pf op' protocol' local' remote' e hint' = e.
Proof.
  destruct cause as [c|]; [|done]. cbv zeta.
  destruct (classifyOperational_typed op protocol local remote c hint) as (e & n & -> & En).
  unfold classifyOperational. by rewrite En.
Qed.

(** A raw cause becomes exactly one [*Error] that carries the operation, the
    protocol and the addresses, keeps every error the cause matched, and whose
    kind agrees with the sentinels it matches. *)
Theorem classifyOperational_sound op protocol local remote c hint :
  errors_As is_OpError c = None ->
  exists kind inner,
    classifyOperational pf op protocol local remote (Some c) hint =
      Some (OpError op protocol kind (snapshotAddr local) (snapshotAddr remote) (Some inner))
    /\ (forall t, errors_Is c t = true -> errors_Is inner t = true)
    /\ kind_matches kind inner.
Proof.
  intros E. rewrite classifyOperational_fresh by done.
  destruct (classify_cause pf op c hint) as [kind category] eqn:Ec.
  exists kind, (with_category category c). split; [done|]. split.
  - intros t Ht. rewrite errors_Is_with_category, Ht. by destruct category; rewrite orb_true_r.
  - by eapply classify_cause_kind.
Qed.

(** A cause the classifier files under backpressure is never also an exhausted
    Engine-wide limit: the shared quota's [errors.Join(ErrWouldBlock, LimitError)]
    is reported as resource exhaustion, while it still matches [ErrWouldBlock]. *)
Theorem joined_limit_is_exhaustion op protocol local remote hint n :
  exists inner,
    classifyOperational pf op protocol local remote
      (Some (Join [Sentinel ErrWouldBlock; LimitError LimitQueuedBytes n])) hint =
      Some (OpError op protocol ErrorResourceExhausted (snapshotAddr local)
              (snapshotAddr remote) (Some inner))
    /\ errors_Is inner ErrWouldBlock = true
    /\ errors_Is inner ErrResourceExhausted = true.
Proof.
  rewrite classifyOperational_fresh by done. eexists. split; [reflexivity|]. done.
Qed.
End properties.

(** The timeout mapping prefers the caller's own cancellation, and otherwise
    reports the Engine's deadline with the raw error preserved. *)
Theorem mapOperationTimeout_spec parent operation kind (e : error) :
  match parent with
  | Some c => mapOperationTimeout parent operation kind (Some e) = Some c
  | None =>
      if Is operation ContextDeadlineExceeded
      then exists r, mapOperationTimeout parent operation kind (Some e) = Some r
             /\ errors_Is r ErrTimeout = true
             /\ (forall t, errors_Is e t = true -> errors_Is r t = true)
             /\ isTimeoutFailure (Some r) = true
      else mapOperationTimeout parent operation kind (Some e) = Some e
  end.
Proof.
  unfold mapOperationTimeout. destruct parent as [c|]; [done|].
  destruct (Is operation ContextDeadlineExceeded); [|done].
  eexists. split; [reflexivity|]. split; [done|]. split; [|done].
  intros t Ht. unfold errors_Is. simpl. fold (errors_Is e t). rewrite Ht. by rewrite orb_true_r.
Qed.

(** A read that failed with a reset is reported as [ErrorReset]. *)
Lemma classifyOperational_sound_witness :
  let lib := {| CloseStatus := fun _ => -1 |} in
  exists kind inner,
    classifyOperational Unix OpRead SchemeTCP None None (Some (Sentinel (Errno ECONNRESET))) hintNone =
      Some (OpError OpRead SchemeTCP kind None None (Some inner))
    /\ (forall t, errors_Is (Sentinel (Errno ECONNRESET)) t = true -> errors_Is inner t = true)
    /\ kind_matches kind inner.
Proof.
  cbv zeta.
  apply (@classifyOperational_sound {| CloseStatus := fun _ => -1 |} Unix OpRead SchemeTCP None None
           (Sentinel (Errno ECONNRESET)) hintNone).
  reflexivity.
Defined.
