(* ===== verification/Encoding.v ===== *)
(** * Encoding: the encodings of the Go standard library the code uses

    - [BigEndian]: [binary.BigEndian] put/get of 16 and 32 bit integers;
    - [Utf8]: [utf8.Valid], proved equivalent to "is the concatenation of the
      encodings of Unicode scalar values";
    - [Base64]: [base64.RawStdEncoding], with the newline skipping of its decoder,
      and the round trip. *)
From S2P Require Import Prelude.

Module BigEndian.
Definition PutUint16 (v : Z) : bytes := [to_byte (Z.shiftr v 8); to_byte v].
Definition PutUint32 (v : Z) : bytes :=
[to_byte (Z.shiftr v 24); to_byte (Z.shiftr v 16); to_byte (Z.shiftr v 8); to_byte v].
Definition Uint16 (b0 b1 : byte) : Z := Z.lor (Z.shiftl (u8 b0) 8) (u8 b1).
Definition Uint32 (b0 b1 b2 b3 : byte) : Z :=
Z.lor (Z.lor (Z.lor (Z.shiftl (u8 b0) 24) (Z.shiftl (u8 b1) 16)) (Z.shiftl (u8 b2) 8)) (u8 b3).

Lemma Uint16_val b0 b1 : Uint16 b0 b1 = u8 b0 * 256 + u8 b1.
Proof. unfold Uint16. pose proof (u8_range b1). apply lor_shiftl_add; lia. Qed.

Lemma Uint32_val b0 b1 b2 b3 :
Uint32 b0 b1 b2 b3 = u8 b0 * 2 ^ 24 + u8 b1 * 2 ^ 16 + u8 b2 * 2 ^ 8 + u8 b3.
Proof.
unfold Uint32. pose proof (u8_range b0); pose proof (u8_range b1).
pose proof (u8_range b2); pose proof (u8_range b3).
rewrite (Z.shiftl_mul_pow2 (u8 b1) 16), (Z.shiftl_mul_pow2 (u8 b2) 8) by lia.
rewrite lor_shiftl_add by lia.
replace (u8 b0 * 2 ^ 24 + u8 b1 * 2 ^ 16) with (Z.shiftl (u8 b0 * 2 ^ 8 + u8 b1) 16)
  by (rewrite Z.shiftl_mul_pow2; lia).
rewrite lor_shiftl_add by lia.
replace ((u8 b0 * 2 ^ 8 + u8 b1) * 2 ^ 16 + u8 b2 * 2 ^ 8)
  with (Z.shiftl ((u8 b0 * 2 ^ 8 + u8 b1) * 2 ^ 8 + u8 b2) 8)
  by (rewrite Z.shiftl_mul_pow2; lia).
rewrite lor_shiftl_add by lia. rewrite ?Z.shiftl_mul_pow2 by lia. lia.
Qed.

Lemma Uint16_range b0 b1 : 0 <= Uint16 b0 b1 < 2 ^ 16.
Proof. rewrite Uint16_val. pose proof (u8_range b0); pose proof (u8_range b1). lia. Qed.
Lemma Uint32_range b0 b1 b2 b3 : 0 <= Uint32 b0 b1 b2 b3 < 2 ^ 32.
Proof.
rewrite Uint32_val. pose proof (u8_range b0); pose proof (u8_range b1).
pose proof (u8_range b2); pose proof (u8_range b3). lia.
Qed.

Lemma Uint16_Put v : 0 <= v < 2 ^ 16 -> Uint16 (to_byte (Z.shiftr v 8)) (to_byte v) = v.
Proof.
intros. rewrite Uint16_val, !u8_to_byte, Z.shiftr_div_pow2 by lia.
change (2 ^ 8) with 256. Z.div_mod_to_equations. lia.
Qed.
Lemma Uint32_Put v : 0 <= v < 2 ^ 32 ->
Uint32 (to_byte (Z.shiftr v 24)) (to_byte (Z.shiftr v 16)) (to_byte (Z.shiftr v 8)) (to_byte v) = v.
Proof.
intros. rewrite Uint32_val, !u8_to_byte, !Z.shiftr_div_pow2 by lia.
change (2 ^ 24) with (256 * 256 * 256). change (2 ^ 16) with (256 * 256).
change (2 ^ 8) with 256. rewrite <- !Z.div_div by lia.
Z.div_mod_to_equations. lia.
Qed.
Lemma Put_Uint16 b0 b1 : PutUint16 (Uint16 b0 b1) = [b0; b1].
Proof.
unfold PutUint16. rewrite Uint16_val. pose proof (u8_range b0); pose proof (u8_range b1).
rewrite Z.shiftr_div_pow2 by lia.
f_equal; [|f_equal]; apply u8_inj; rewrite u8_to_byte; change (2 ^ 8) with 256;
  Z.div_mod_to_equations; lia.
Qed.
End BigEndian.

Module Utf8.
Definition in_range (lo hi : Z) (b : byte) : bool := (lo <=? u8 b) && (u8 b <=? hi).

(** The table [first] of unicode/utf8 with its accept ranges: the size of the
  sequence a non-ASCII first byte opens and the range of its second byte. *)
Definition first (b : byte) : option (nat * Z * Z) :=
let v := u8 b in
if v <? 0xC2 then None
else if v <=? 0xDF then Some (2%nat, 0x80, 0xBF)
else if v =? 0xE0 then Some (3%nat, 0xA0, 0xBF)
else if v <=? 0xEC then Some (3%nat, 0x80, 0xBF)
else if v =? 0xED then Some (3%nat, 0x80, 0x9F)
else if v <=? 0xEF then Some (3%nat, 0x80, 0xBF)
else if v =? 0xF0 then Some (4%nat, 0x90, 0xBF)
else if v <=? 0xF3 then Some (4%nat, 0x80, 0xBF)
else if v =? 0xF4 then Some (4%nat, 0x80, 0x8F)
else None.

Definition cont : byte -> bool := in_range 0x80 0xBF.

Fixpoint Valid (p : bytes) : bool :=
match p with
| [] => true
| b0 :: r0 =>
    if u8 b0 <? 0x80 then Valid r0
    else match first b0 with
         | None => false
         | Some (size, lo, hi) =>
             match r0 with
             | [] => false
             | b1 :: r1 =>
                 if negb (in_range lo hi b1) then false
                 else if (size =? 2)%nat then Valid r1
                 else match r1 with
                      | [] => false
                      | b2 :: r2 =>
                          if negb (cont b2) then false
                          else if (size =? 3)%nat then Valid r2
                          else match r2 with
                               | [] => false
                               | b3 :: r3 => if negb (cont b3) then false else Valid r3
                               end
                      end
             end
         end
end.

(** ** Reference: sequences of encoded scalar values *)
Definition scalar (c : Z) : Prop := 0 <= c < 0xD800 \/ 0xE000 <= c <= 0x10FFFF.

Definition EncodeRune (c : Z) : bytes :=
if c <? 0x80 then [to_byte c]
else if c <? 0x800 then [to_byte (0xC0 + c / 64); to_byte (0x80 + c `mod` 64)]
else if c <? 0x10000
then [to_byte (0xE0 + c / 4096); to_byte (0x80 + (c / 64) `mod` 64); to_byte (0x80 + c `mod` 64)]
else [to_byte (0xF0 + c / 262144); to_byte (0x80 + (c / 4096) `mod` 64);
      to_byte (0x80 + (c / 64) `mod` 64); to_byte (0x80 + c `mod` 64)].

Lemma first_cases b size lo hi :
first b = Some (size, lo, hi) ->
(size = 2%nat /\ 0xC2 <= u8 b <= 0xDF /\ lo = 0x80 /\ hi = 0xBF) \/
(size = 3%nat /\ 0xE0 <= u8 b <= 0xEF /\
   lo = (if u8 b =? 0xE0 then 0xA0 else 0x80) /\ hi = (if u8 b =? 0xED then 0x9F else 0xBF)) \/
(size = 4%nat /\ 0xF0 <= u8 b <= 0xF4 /\
   lo = (if u8 b =? 0xF0 then 0x90 else 0x80) /\ hi = (if u8 b =? 0xF4 then 0x8F else 0xBF)).
Proof.
unfold first. intros E. bool_cases_in E; simplify_eq; bool_cases; try lia;
  first [left; repeat split; lia | right; left; repeat split; lia | right; right; repeat split; lia].
Qed.

Lemma in_range_true lo hi b : in_range lo hi b = true <-> lo <= u8 b <= hi.
Proof. unfold in_range. lia. Qed.

(** The base-64 digits of a code point. *)
Lemma digits c : 0 <= c ->
exists d e f r0 r1 r2,
  c / 64 = d /\ c / 4096 = e /\ c / 262144 = f /\
  c `mod` 64 = r0 /\ (c / 64) `mod` 64 = r1 /\ (c / 4096) `mod` 64 = r2 /\
  c = 64 * d + r0 /\ d = 64 * e + r1 /\ e = 64 * f + r2 /\
  0 <= r0 < 64 /\ 0 <= r1 < 64 /\ 0 <= r2 < 64 /\ 0 <= f.
Proof.
intros Hc. exists (c / 64), (c / 64 / 64), (c / 64 / 64 / 64), (c `mod` 64),
  ((c / 64) `mod` 64), ((c / 64 / 64) `mod` 64).
replace (c / 4096) with (c / 64 / 64) by (rewrite Z.div_div; [done|lia..]).
replace (c / 262144) with (c / 64 / 64 / 64) by (rewrite !Z.div_div; [done|lia..]).
repeat split; try apply Z.mod_pos_bound; try apply Z.div_mod; try lia.
repeat apply Z.div_pos; lia.
Qed.

Lemma digits_unique f r2 r1 r0 c :
0 <= f -> 0 <= r2 < 64 -> 0 <= r1 < 64 -> 0 <= r0 < 64 ->
c = 262144 * f + 4096 * r2 + 64 * r1 + r0 ->
c / 262144 = f /\ c / 4096 = 64 * f + r2 /\ (c / 4096) `mod` 64 = r2 /\
c / 64 = 4096 * f + 64 * r2 + r1 /\ (c / 64) `mod` 64 = r1 /\ c `mod` 64 = r0.
Proof.
intros Hf H2 H1 H0 Hc. destruct (digits c) as (d & e & f' & s0 & s1 & s2 & H); [lia|].
destruct H as (-> & -> & -> & -> & -> & -> & ? & ? & ? & ? & ? & ? & ?). lia.
Qed.

(** One encoded scalar value in front does not change validity. *)
Lemma Valid_EncodeRune c p : scalar c -> Valid (EncodeRune c ++ p) = Valid p.
Proof.
intros Hc. unfold scalar in Hc. unfold EncodeRune.
assert (forall z, 0 <= z < 256 -> u8 (to_byte z) = z) as B by apply u8_to_byte_small.
destruct (digits c) as (d & e & f & r0 & r1 & r2 & -> & -> & -> & -> & -> & -> & H); [lia|].
destruct (Z.ltb_spec c 0x80); [|destruct (Z.ltb_spec c 0x800); [|destruct (Z.ltb_spec c 0x10000)]];
  simpl; unfold first, cont, in_range; rewrite !B by lia; zbool; try lia; done.
Qed.

Lemma byte_eq (b : byte) z : u8 b = z -> b = to_byte z.
Proof. intros <-. by rewrite to_byte_u8. Qed.

Lemma cons_byte (b : byte) z (l l' : bytes) : u8 b = z -> l = l' -> b :: l = to_byte z :: l'.
Proof. intros ->%byte_eq ->. done. Qed.
Ltac bytes_eq := cbn [app]; repeat (apply cons_byte; [lia|]).

(** Exhibit the code point with the given base-64 digits as the first one. *)
Ltac rune_of f r2 r1 r0 rest :=
let c := constr:(262144 * f + 4096 * r2 + 64 * r1 + r0) in
destruct (digits_unique f r2 r1 r0 c) as (D3 & D2 & R2 & D1 & R1 & R0); try lia;
exists c, rest; split; [unfold scalar; lia|]; split; [|done];
unfold EncodeRune; rewrite ?D3, ?R2, ?R1, ?R0, ?D2, ?D1.

(** A non-empty valid string starts with the encoding of a scalar value. *)
Lemma Valid_head p : Valid p = true -> p <> [] ->
exists c q, scalar c /\ p = EncodeRune c ++ q /\ Valid q = true.
Proof.
destruct p as [|b0 r0]; [done|]. intros HV _. simpl in HV.
pose proof (u8_range b0).
destruct (Z.ltb_spec (u8 b0) 0x80).
{ exists (u8 b0), r0. split; [left; lia|]. split; [|done]. unfold EncodeRune.
  bool_cases; try lia. by rewrite to_byte_u8. }
destruct (first b0) as [[[size lo] hi]|] eqn:Ef; [|done].
destruct r0 as [|b1 r1]; [done|].
destruct (in_range lo hi b1) eqn:E1; [|done]. simpl in HV. apply in_range_true in E1.
destruct (first_cases _ _ _ _ Ef) as [(-> & ? & -> & ->)|[(-> & ? & -> & ->)|(-> & ? & -> & ->)]];
  simpl in HV.
- rune_of 0 0 (u8 b0 - 0xC0) (u8 b1 - 0x80) r1.
  zbool; try lia; by bytes_eq.
- destruct r1 as [|b2 r2]; [done|]. destruct (cont b2) eqn:E2; [|done].
  simpl in HV. apply in_range_true in E2. bool_cases_in E1; try lia;
  rune_of 0 (u8 b0 - 0xE0) (u8 b1 - 0x80) (u8 b2 - 0x80) r2;
  zbool; try lia; by bytes_eq.
- destruct r1 as [|b2 r2]; [done|]. destruct (cont b2) eqn:E2; [|done].
  simpl in HV. apply in_range_true in E2.
  destruct r2 as [|b3 r3]; [done|]. destruct (cont b3) eqn:E3; [|done].
  simpl in HV. apply in_range_true in E3. bool_cases_in E1; try lia;
  rune_of (u8 b0 - 0xF0) (u8 b1 - 0x80) (u8 b2 - 0x80) (u8 b3 - 0x80) r3;
  zbool; try lia; by bytes_eq.
Qed.

Lemma EncodeRune_nonempty c : (0 < length (EncodeRune c))%nat.
Proof. unfold EncodeRune. repeat case_match; simpl; lia. Qed.

(** The table-driven check accepts exactly the concatenations of encoded Unicode
  scalar values. *)
Lemma Valid_iff p :
Valid p = true <-> exists cs, Forall scalar cs /\ p = flat_map EncodeRune cs.
Proof.
split.
- remember (length p) as n eqn:En. revert p En.
  induction n as [n IH] using (well_founded_induction lt_wf). intros p -> HV.
  destruct (decide (p = [])) as [->|Hne]; [by exists []|].
  destruct (Valid_head p HV Hne) as (c & q & Hc & -> & Hq).
  pose proof (EncodeRune_nonempty c).
  destruct (IH (length q)) with (p := q) as (cs & Hcs & ->); [|done..|].
  { rewrite length_app. lia. }
  exists (c :: cs). by split; [constructor|].
- intros (cs & Hcs & ->). induction Hcs as [|c cs Hc _ IH]; [done|].
  simpl. by rewrite Valid_EncodeRune.
Qed.
End Utf8.

Module Base64.
(** [base64.RawStdEncoding]: the standard alphabet without padding. *)
Definition alphabet : bytes :=
[x41;x42;x43;x44;x45;x46;x47;x48;x49;x4a;x4b;x4c;x4d;x4e;x4f;x50;
 x51;x52;x53;x54;x55;x56;x57;x58;x59;x5a;
 x61;x62;x63;x64;x65;x66;x67;x68;x69;x6a;x6b;x6c;x6d;x6e;x6f;x70;
 x71;x72;x73;x74;x75;x76;x77;x78;x79;x7a;
 x30;x31;x32;x33;x34;x35;x36;x37;x38;x39;x2b;x2f]%byte.

Definition encode_char (v : Z) : byte := nth (Z.to_nat v) alphabet x00%byte.
(** The decode map: the position of a byte in the alphabet. *)
Fixpoint index_of (b : byte) (l : bytes) (i : Z) : option Z :=
match l with
| [] => None
| c :: r => if Byte.eqb b c then Some i else index_of b r (i + 1)
end.
Definition decode_char (b : byte) : option Z := index_of b alphabet 0.

(** [val >> k & 0x3F] *)
Definition sextet (val k : Z) : Z := Z.land (Z.shiftr val k) 0x3F.

Definition EncodedLen (n : Z) : Z := n / 3 * 4 + (n `mod` 3 * 8 + 5) / 6.
Definition DecodedLen (n : Z) : Z := n / 4 * 3 + n `mod` 4 * 6 / 8.

Fixpoint Encode (src : bytes) : bytes :=
match src with
| [] => []
| [a] =>
    let val := Z.shiftl (u8 a) 16 in
    [encode_char (sextet val 18); encode_char (sextet val 12)]
| [a; b] =>
    let val := Z.lor (Z.shiftl (u8 a) 16) (Z.shiftl (u8 b) 8) in
    [encode_char (sextet val 18); encode_char (sextet val 12); encode_char (sextet val 6)]
| a :: b :: c :: rest =>
    let val := Z.lor (Z.lor (Z.shiftl (u8 a) 16) (Z.shiftl (u8 b) 8)) (u8 c) in
    encode_char (sextet val 18) :: encode_char (sextet val 12)
      :: encode_char (sextet val 6) :: encode_char (sextet val 0) :: Encode rest
end.

(** The three bytes of a quantum [dbuf]. *)
Definition quantum (d0 d1 d2 d3 : Z) : byte * byte * byte :=
let val := Z.lor (Z.lor (Z.lor (Z.shiftl d0 18) (Z.shiftl d1 12)) (Z.shiftl d2 6)) d3 in
(to_byte (Z.shiftr val 16), to_byte (Z.shiftr val 8), to_byte val).

(** [dbuf] holds the sextets of the current quantum and [si] is the read position;
  newlines are skipped, and a corrupt input is reported with its offset. *)
Fixpoint decode_from (dbuf : list Z) (si : Z) (src : bytes) : bytes + Z :=
match src with
| [] =>
    match dbuf with
    | [] => inl []
    | [_] => inr (si - 1)
    | d0 :: d1 :: [] => inl [(quantum d0 d1 0 0).1.1]
    | d0 :: d1 :: d2 :: _ =>
        let q := quantum d0 d1 d2 0 in inl [q.1.1; q.1.2]
    end
| b :: rest =>
    match decode_char b with
    | Some v =>
        match dbuf with
        | [d0; d1; d2] =>
            match decode_from [] (si + 1) rest with
            | inl out => let q := quantum d0 d1 d2 v in inl (q.1.1 :: q.1.2 :: q.2 :: out)
            | inr e => inr e
            end
        | _ => decode_from (dbuf ++ [v]) (si + 1) rest
        end
    | None =>
        if Byte.eqb b x0a || Byte.eqb b x0d
        then decode_from dbuf (si + 1) rest
        else inr si
    end
end.
Definition Decode (src : bytes) : bytes + Z := decode_from [] 0 src.

(** ** Round trip *)
Lemma sextet_div val k : 0 <= k -> sextet val k = (val / 2 ^ k) `mod` 64.
Proof.
intros. unfold sextet. change 0x3F with (Z.ones 6).
rewrite Z.land_ones, Z.shiftr_div_pow2 by lia. done.
Qed.
Lemma sextet_range val k : 0 <= k -> 0 <= sextet val k < 64.
Proof.
intros. unfold sextet. change 0x3F with (Z.ones 6).
rewrite Z.land_ones by lia. by apply Z.mod_pos_bound.
Qed.

Lemma decode_encode_char v : 0 <= v < 64 -> decode_char (encode_char v) = Some v.
Proof.
intros Hv.
assert (forallb (fun n => bool_decide (decode_char (encode_char (Z.of_nat n)) = Some (Z.of_nat n)))
          (seq 0 64) = true) as Hall by (vm_compute; reflexivity).
rewrite forallb_forall in Hall. specialize (Hall (Z.to_nat v)).
rewrite Z2Nat.id in Hall by lia. rewrite bool_decide_eq_true in Hall.
apply Hall. apply in_seq. lia.
Qed.

Lemma pack3 a b c : 0 <= b < 256 -> 0 <= c < 256 ->
Z.lor (Z.lor (Z.shiftl a 16) (Z.shiftl b 8)) c = 65536 * a + 256 * b + c.
Proof.
intros. rewrite (Z.shiftl_mul_pow2 b 8) by lia. rewrite lor_shiftl_add by lia.
replace (a * 2 ^ 16 + b * 2 ^ 8) with (Z.shiftl (a * 2 ^ 8 + b) 8)
  by (rewrite Z.shiftl_mul_pow2; lia).
rewrite lor_shiftl_add by lia. lia.
Qed.

Lemma pack4 d0 d1 d2 d3 : 0 <= d1 < 64 -> 0 <= d2 < 64 -> 0 <= d3 < 64 ->
Z.lor (Z.lor (Z.lor (Z.shiftl d0 18) (Z.shiftl d1 12)) (Z.shiftl d2 6)) d3
  = 262144 * d0 + 4096 * d1 + 64 * d2 + d3.
Proof.
intros. rewrite (Z.shiftl_mul_pow2 d1 12), (Z.shiftl_mul_pow2 d2 6) by lia.
rewrite lor_shiftl_add by lia.
replace (d0 * 2 ^ 18 + d1 * 2 ^ 12) with (Z.shiftl (d0 * 2 ^ 6 + d1) 12)
  by (rewrite Z.shiftl_mul_pow2; lia).
rewrite lor_shiftl_add by lia.
replace ((d0 * 2 ^ 6 + d1) * 2 ^ 12 + d2 * 2 ^ 6)
  with (Z.shiftl ((d0 * 2 ^ 6 + d1) * 2 ^ 6 + d2) 6) by (rewrite Z.shiftl_mul_pow2; lia).
rewrite lor_shiftl_add by lia. lia.
Qed.

(** Splitting a 24-bit value into sextets and packing them gives it back. *)
Lemma sextets_split val : 0 <= val < 2 ^ 24 ->
262144 * sextet val 18 + 4096 * sextet val 12 + 64 * sextet val 6 + sextet val 0 = val.
Proof.
intros. rewrite !sextet_div by lia. destruct (Utf8.digits val) as (d & e & f & r0 & r1 & r2 & H');
  [lia|]. change (2 ^ 0) with 1. change (2 ^ 6) with 64. change (2 ^ 12) with 4096.
change (2 ^ 18) with 262144. rewrite Z.div_1_r.
destruct H' as (-> & -> & -> & -> & -> & -> & ? & ? & ? & ? & ? & ? & ?).
rewrite (Z.mod_small f) by lia. lia.
Qed.

Lemma quantum_sextets val : 0 <= val < 2 ^ 24 ->
quantum (sextet val 18) (sextet val 12) (sextet val 6) (sextet val 0) =
  (to_byte (val / 65536), to_byte (val / 256), to_byte val).
Proof.
intros. unfold quantum.
pose proof (sextet_range val 12); pose proof (sextet_range val 6); pose proof (sextet_range val 0).
rewrite pack4 by lia. rewrite sextets_split by lia. by rewrite !Z.shiftr_div_pow2 by lia.
Qed.

Lemma to_byte_mul256 (x : Z) (b : byte) : to_byte (256 * x + u8 b) = b.
Proof.
apply u8_inj. rewrite u8_to_byte. pose proof (u8_range b).
rewrite Z.add_comm, Z.mul_comm, Z.mod_add by lia. apply Z.mod_small. lia.
Qed.

Lemma quantum_bytes (a b c : byte) val :
val = 65536 * u8 a + 256 * u8 b + u8 c ->
quantum (sextet val 18) (sextet val 12) (sextet val 6) (sextet val 0) = (a, b, c).
Proof.
intros ->. pose proof (u8_range a); pose proof (u8_range b); pose proof (u8_range c).
rewrite quantum_sextets by lia. f_equal; [f_equal|].
- replace (_ / 65536) with (256 * 0 + u8 a) by (Z.div_mod_to_equations; lia).
  apply to_byte_mul256.
- replace (_ / 256) with (256 * u8 a + u8 b) by (Z.div_mod_to_equations; lia).
  apply to_byte_mul256.
- replace (65536 * u8 a + 256 * u8 b + u8 c) with (256 * (256 * u8 a + u8 b) + u8 c) by lia.
  apply to_byte_mul256.
Qed.

Lemma Encode3_ind (P : bytes -> Prop) :
P [] -> (forall a, P [a]) -> (forall a b, P [a; b]) ->
(forall a b c l, P l -> P (a :: b :: c :: l)) -> forall l, P l.
Proof.
intros H0 H1 H2 H3. fix IH 1.
intros [|a [|b [|c l]]]; [exact H0 | exact (H1 a) | exact (H2 a b) | exact (H3 a b c l (IH l))].
Qed.

Ltac decode_step :=
cbn [decode_from app]; rewrite decode_encode_char by (apply sextet_range; lia).

Lemma decode_from_Encode src : forall si, decode_from [] si (Encode src) = inl src.
Proof.
induction src as [|a|a b|a b c src IH] using Encode3_ind; intros si; cbn [Encode]; [done|..].
- set (val := Z.shiftl (u8 a) 16). do 2 decode_step. cbn [decode_from].
  assert (val = 65536 * u8 a + 256 * u8 x00%byte + u8 x00%byte) as Hv.
  { unfold val. rewrite Z.shiftl_mul_pow2; [|lia]. change (u8 x00%byte) with 0. lia. }
  pose proof (quantum_bytes a x00%byte x00%byte val Hv) as Hq.
  replace (sextet val 6) with 0 in Hq; [replace (sextet val 0) with 0 in Hq; [by rewrite Hq|]|];
    rewrite sextet_div, Hv by lia; change (u8 x00%byte) with 0;
    change (2 ^ 6) with 64; change (2 ^ 0) with 1; Z.div_mod_to_equations; lia.
- set (val := Z.lor (Z.shiftl (u8 a) 16) (Z.shiftl (u8 b) 8)). do 3 decode_step. cbn [decode_from].
  pose proof (u8_range b).
  assert (val = 65536 * u8 a + 256 * u8 b + u8 x00%byte) as Hv.
  { unfold val. rewrite <- (Z.lor_0_r (Z.lor _ _)). rewrite pack3 by lia. done. }
  pose proof (quantum_bytes a b x00%byte val Hv) as Hq.
  replace (sextet val 0) with 0 in Hq; [by rewrite Hq|].
  rewrite sextet_div, Hv by lia. change (u8 x00%byte) with 0. change (2 ^ 0) with 1.
  Z.div_mod_to_equations; lia.
- set (val := Z.lor _ (u8 c)). do 4 decode_step. rewrite IH.
  pose proof (u8_range b); pose proof (u8_range c).
  by rewrite (quantum_bytes a b c val) by (apply pack3; lia).
Qed.

Theorem Decode_Encode src : Decode (Encode src) = inl src.
Proof. apply decode_from_Encode. Qed.

Lemma Encode_length src : zlen (Encode src) = EncodedLen (zlen src).
Proof.
induction src as [|a|a b|a b c src IH] using Encode3_ind; [done..|].
cbn [Encode]. rewrite !zlen_cons, IH. unfold EncodedLen.
pose proof (zlen_nonneg src). set (n := zlen src) in *.
replace (1 + (1 + (1 + n))) with (n + 1 * 3) by lia.
rewrite Z.div_add, Z.mod_add by lia. lia.
Qed.
End Base64.
