(* ===== verification/Secure.v ===== *)
(** * Secure: message ciphers and key wrappers

    Models secure/secure.go (the [Cipher] and [AuthenticatedCipher] interfaces),
    secure/aesgcm.go, secure/rsa.go and the Go side of secure/gmssl/gmssl.go.  The
    primitives themselves (an AEAD of crypto/cipher, SM4-GCM and SM2 of GmSSL,
    RSA-OAEP of crypto/rsa) are parameters with their documented laws.

    Random bytes come from an explicit supply [rnd]; a read of more bytes than it
    holds is the read error of [io.ReadFull]. *)
From S2P Require Import Prelude Kinds Errors.
Local Open Scope go_scope.

(** ** secure.go *)
Definition AlgNone : Z := 0x0000.
Definition AlgAESGCM : Z := 0x0001.
Definition AlgSM4GCM : Z := 0x0002.
Definition AlgSM3Digest : Z := 0x0003.
Definition AlgRSAOAEP : Z := 0x0004.
Definition AlgSM2 : Z := 0x0005.

(** The two methods [AuthenticatedCipher] adds: supply, dst, plaintext, aad. *)
Record AADOps := {
  SealAAD : bytes -> bytes -> bytes -> bytes -> result bytes;
  OpenAAD : bytes -> bytes -> bytes -> result bytes;
}.
(** [Authenticated] is the outcome of the type assertion to [AuthenticatedCipher]. *)
Record Cipher := {
  Algorithm : Z;
  Seal : bytes -> bytes -> bytes -> result bytes;
  Open : bytes -> bytes -> result bytes;
  Authenticated : option AADOps;
}.

(** What a reversible cipher promises to the framers above it. *)
Class CipherOk (c : Cipher) := {
  cipher_algorithm : 0 <= Algorithm c < 2 ^ 16;
  cipher_open_seal : forall rnd p ct, Seal c rnd [] p = inl ct -> Open c [] ct = inl p;
  cipher_open_seal_aad : forall ops, Authenticated c = Some ops ->
    forall rnd p aad ct, SealAAD ops rnd [] p aad = inl ct -> OpenAAD ops [] ct aad = inl p;
}.

(** The error value a failed read of the random source carries. *)
Definition rand_error : error := Foreign {| f_id := 1; f_type := FOther; f_timeout := None |} [].
(** [io.ReadFull(rand.Reader, make([]byte, n))]. *)
Definition read_rand (n : Z) (rnd : bytes) : result bytes :=
  if zlen rnd <? n then inr rand_error else inl (take (Z.to_nat n) rnd).

Lemma read_rand_length n rnd b : 0 <= n -> read_rand n rnd = inl b -> zlen b = n.
Proof.
  unfold read_rand, zlen. intros Hn. case_match; [done|]. intros [= <-].
  rewrite length_take. lia.
Qed.

(** ** aesgcm.go *)
Module AESGCM.
(** crypto/cipher.AEAD as the code uses it: nonce, text, additional data. *)
Record AEAD := {
NonceSize : Z;
aead_Seal : bytes -> bytes -> bytes -> bytes;
aead_Open : bytes -> bytes -> bytes -> result bytes;
}.
Class AEADOk (a : AEAD) := {
aead_nonce_size : 0 <= NonceSize a;
aead_open_seal : forall nonce p aad, zlen nonce = NonceSize a ->
  aead_Open a nonce (aead_Seal a nonce p aad) aad = inl p;
}.

Definition aes_SealAAD (a : AEAD) (rnd dst plaintext aad : bytes) : result bytes :=
match read_rand (NonceSize a) rnd with
| inr e => inr (Errorf "secure: generate nonce" e)
| inl nonce => inl ((dst ++ nonce) ++ aead_Seal a nonce plaintext aad)
end.

Definition aes_OpenAAD (a : AEAD) (dst ciphertext aad : bytes) : result bytes :=
if zlen ciphertext <? NonceSize a then inr (Sentinel ErrCiphertextTooShort)
else
  match aead_Open a (slice 0 (NonceSize a) ciphertext)
          (drop (Z.to_nat (NonceSize a)) ciphertext) aad with
  | inl plaintext => inl (dst ++ plaintext)
  | inr e => inr (Errorf "secure: authenticate ciphertext" e)
  end.

Definition aesGCM (a : AEAD) : Cipher := {|
Algorithm := AlgAESGCM;
Seal := fun rnd dst plaintext => aes_SealAAD a rnd dst plaintext [];
Open := fun dst ciphertext => aes_OpenAAD a dst ciphertext [];
Authenticated := Some {| SealAAD := aes_SealAAD a; OpenAAD := aes_OpenAAD a |};
|}.

Lemma aes_open_seal a `{!AEADOk a} rnd p aad ct :
aes_SealAAD a rnd [] p aad = inl ct -> aes_OpenAAD a [] ct aad = inl p.
Proof.
unfold aes_SealAAD, aes_OpenAAD. intros Hs. pose proof (@aead_nonce_size a _) as Hn.
destruct (read_rand _ _) as [nonce|e] eqn:E; [|done]. injection Hs as <-.
apply read_rand_length in E; [|done]. pose proof (zlen_nonneg (aead_Seal a nonce p aad)).
cbn [app]. rewrite zlen_app. destruct (Z.ltb_spec (zlen nonce + zlen (aead_Seal a nonce p aad))
  (NonceSize a)); [lia|].
unfold slice. rewrite Z.sub_0_r, <- E. change (Z.to_nat 0) with 0%nat. rewrite drop_0.
unfold zlen. rewrite Nat2Z.id, take_app_length, drop_app_length.
by rewrite aead_open_seal.
Qed.

#[global] Instance aesGCM_ok a `{!AEADOk a} : CipherOk (aesGCM a).
Proof.
split; [done| |].
- intros rnd p ct Hs. exact (aes_open_seal a rnd p [] ct Hs).
- intros ops [= <-] rnd p aad ct Hs. exact (aes_open_seal a rnd p aad ct Hs).
Qed.

(** An AEAD that satisfies the law, for concrete runs: it appends a checksum of nonce, text
    and additional data. *)
Definition checksum (l : bytes) : byte := to_byte (lsum u8 l).
Definition checksum_AEAD : AEAD := {|
NonceSize := 2;
aead_Seal := fun nonce p aad => p ++ [checksum (nonce ++ p ++ aad)];
aead_Open := fun nonce ct aad =>
  let p := take (pred (length ct)) ct in
  if bool_decide (ct = p ++ [checksum (nonce ++ p ++ aad)]) then inl p else inr rand_error;
|}.
#[global] Instance checksum_AEAD_ok : AEADOk checksum_AEAD.
Proof.
split; [done|]. intros nonce p aad _. cbn. rewrite length_app, Nat.add_comm. cbn. by rewrite take_app_length, bool_decide_true.
Qed.
End AESGCM.

(** ** gmssl.go: SM4-GCM *)
Module SM4.
Definition sm4KeySize : Z := 16.
Definition sm4NonceSize : Z := 12.
Definition sm4TagSize : Z := 16.

(** The C shims: [None] is a return value other than 1. *)
Record GmSSL := {
gm_encrypt : bytes -> bytes -> bytes -> bytes -> option (bytes * bytes);   (* key iv aad in *)
gm_decrypt : bytes -> bytes -> bytes -> bytes -> bytes -> option bytes;    (* key iv aad in tag *)
}.
Class GmSSLOk (g : GmSSL) := {
gm_lengths : forall key iv aad p body tag, gm_encrypt g key iv aad p = Some (body, tag) ->
  zlen tag = sm4TagSize;
gm_decrypt_encrypt : forall key iv aad p body tag, gm_encrypt g key iv aad p = Some (body, tag) ->
  gm_decrypt g key iv aad body tag = Some p;
}.

Definition NewSM4GCM (key : bytes) : result bytes :=
if negb (zlen key =? sm4KeySize) then inr (Sentinel GmErrInvalidKeySize) else inl key.

Definition sm4_SealAAD (g : GmSSL) (key rnd dst plaintext aad : bytes) : result bytes :=
match read_rand sm4NonceSize rnd with
| inr _ => inr (Sentinel GmErrGmSSL)
| inl nonce =>
    match gm_encrypt g key nonce aad plaintext with
    | None => inr (Sentinel GmErrGmSSL)
    | Some (body, tag) => inl ((dst ++ nonce) ++ (body ++ tag))
    end
end.

Definition sm4_OpenAAD (g : GmSSL) (key dst ciphertext aad : bytes) : result bytes :=
if zlen ciphertext <? sm4NonceSize + sm4TagSize then inr (Sentinel GmErrCiphertextTooShort)
else
  let n := zlen ciphertext in
  let nonce := slice 0 sm4NonceSize ciphertext in
  let body := slice sm4NonceSize (n - sm4TagSize) ciphertext in
  let tag := drop (Z.to_nat (n - sm4TagSize)) ciphertext in
  match gm_decrypt g key nonce aad body tag with
  | None => inr (Sentinel GmErrGmSSL)
  | Some plain => inl (dst ++ plain)
  end.

Definition SM4GCM (g : GmSSL) (key : bytes) : Cipher := {|
Algorithm := AlgSM4GCM;
Seal := fun rnd dst plaintext => sm4_SealAAD g key rnd dst plaintext [];
Open := fun dst ciphertext => sm4_OpenAAD g key dst ciphertext [];
Authenticated := Some {| SealAAD := sm4_SealAAD g key; OpenAAD := sm4_OpenAAD g key |};
|}.

Lemma sm4_open_seal g `{!GmSSLOk g} key rnd p aad ct :
sm4_SealAAD g key rnd [] p aad = inl ct -> sm4_OpenAAD g key [] ct aad = inl p.
Proof.
unfold sm4_SealAAD, sm4_OpenAAD. intros Hs.
destruct (read_rand _ _) as [nonce|e] eqn:E; [|done]. apply read_rand_length in E; [|done].
destruct (gm_encrypt _ _ _ _ _) as [[body tag]|] eqn:Ee; [|done]. injection Hs as <-.
pose proof (gm_lengths _ _ _ _ _ _ Ee) as Ht. pose proof (zlen_nonneg body).
cbn [app]. rewrite !zlen_app. rewrite E, Ht.
destruct (Z.ltb_spec (sm4NonceSize + (zlen body + sm4TagSize)) (sm4NonceSize + sm4TagSize)); [lia|].
unfold slice. rewrite Z.sub_0_r. change (Z.to_nat 0) with 0%nat. rewrite drop_0.
replace (sm4NonceSize + (zlen body + sm4TagSize) - sm4TagSize) with (sm4NonceSize + zlen body) by lia.
replace (sm4NonceSize + zlen body - sm4NonceSize) with (zlen body) by lia.
rewrite <- E. rewrite Z2Nat.inj_add by apply zlen_nonneg. unfold zlen. rewrite !Nat2Z.id.
rewrite <- drop_drop, take_app_length, drop_app_length, take_app_length, drop_app_length.
by rewrite (gm_decrypt_encrypt _ _ _ _ _ _ Ee).
Qed.

#[global] Instance SM4GCM_ok g `{!GmSSLOk g} key : CipherOk (SM4GCM g key).
Proof.
split; [done| |].
- intros rnd p ct Hs. exact (sm4_open_seal g key rnd p [] ct Hs).
- intros ops [= <-] rnd p aad ct Hs. exact (sm4_open_seal g key rnd p aad ct Hs).
Qed.

(** C shims that satisfy the laws, for concrete runs: the tag repeats a checksum. *)
Definition checksum_GmSSL : GmSSL :=
let tag key iv aad p := replicate 16 (AESGCM.checksum (key ++ iv ++ aad ++ p)) in {|
gm_encrypt := fun key iv aad p => Some (p, tag key iv aad p);
gm_decrypt := fun key iv aad body t => if bool_decide (t = tag key iv aad body) then Some body else None;
|}.
#[global] Instance checksum_GmSSL_ok : GmSSLOk checksum_GmSSL.
Proof. split; intros key iv aad p body tag [= <- <-]; [done|]. cbn -[replicate]. by rewrite bool_decide_true. Qed.
End SM4.

(** ** rsa.go *)
Module RSA.
Definition MinRSAKeyBits : Z := 2048.

(** Nil pointers are [None]; [primes] is [len(key.Primes)]. *)
Record PublicKey := { pub_N : option Z; pub_E : Z }.
Record PrivateKey := { priv_pub : PublicKey; priv_D : option Z; priv_primes : Z }.
Record RSAOAEP := { rsa_public : option PublicKey; rsa_private : option PrivateKey }.

Definition BitLen (n : Z) : Z := if n =? 0 then 0 else Z.log2 (Z.abs n) + 1.

Definition validateRSAPublicKey (key : option PublicKey) : option error :=
match key with
| None => Some (Sentinel ErrInvalidRSAKey)
| Some k =>
    match pub_N k with
    | None => Some (Sentinel ErrInvalidRSAKey)
    | Some n =>
        if (n <=? 0) || (pub_E k <? 3) || (Z.rem (pub_E k) 2 =? 0)
        then Some (Sentinel ErrInvalidRSAKey)
        else if BitLen n <? MinRSAKeyBits then Some (Sentinel ErrRSAKeyTooSmall)
        else None
    end
end.

Definition validateRSAPrivateKey (key : option PrivateKey) : option error :=
match key with
| None => Some (Sentinel ErrInvalidRSAKey)
| Some k =>
    match validateRSAPublicKey (Some (priv_pub k)) with
    | Some e => Some e
    | None =>
        match priv_D k with
        | None => Some (Sentinel ErrInvalidRSAKey)
        | Some d => if (d <=? 0) || (priv_primes k <? 2)
                    then Some (Sentinel ErrInvalidRSAKey) else None
        end
    end
end.

Section oaep.
(** [rsa.EncryptOAEP]/[rsa.DecryptOAEP] with SHA-512 and an empty label. *)
Context (EncryptOAEP : bytes -> PublicKey -> bytes -> result bytes)
      (DecryptOAEP : PrivateKey -> bytes -> result bytes).

Definition Wrap (r : RSAOAEP) (rnd key : bytes) : result bytes :=
match rsa_public r with
| None => inr (Sentinel ErrMissingPublicKey)
| Some pub =>
    match validateRSAPublicKey (Some pub) with
    | Some e => inr e
    | None => match EncryptOAEP rnd pub key with
              | inl wrapped => inl wrapped
              | inr e => inr (Errorf "secure: rsa-oaep wrap" e)
              end
    end
end.

Definition Unwrap (r : RSAOAEP) (wrapped : bytes) : result bytes :=
match rsa_private r with
| None => inr (Sentinel ErrMissingPrivateKey)
| Some priv =>
    match validateRSAPrivateKey (Some priv) with
    | Some e => inr e
    | None => match DecryptOAEP priv wrapped with
              | inl key => inl key
              | inr e => inr (Errorf "secure: rsa-oaep unwrap" e)
              end
    end
end.

(** Wrapping never succeeds under a key of fewer than 2048 bits, an even or
  tiny exponent, or a modulus that is missing or not positive. *)
Lemma Wrap_strong_key r rnd key wrapped :
Wrap r rnd key = inl wrapped ->
exists pub n, rsa_public r = Some pub /\ pub_N pub = Some n /\
  2 ^ (MinRSAKeyBits - 1) <= n /\ 3 <= pub_E pub /\ Z.odd (pub_E pub) = true.
Proof.
unfold Wrap, validateRSAPublicKey. destruct (rsa_public r) as [pub|]; [|done].
destruct (pub_N pub) as [n|] eqn:EN; [|done].
destruct (_ || _ || _) eqn:E1; [done|]. destruct (BitLen n <? MinRSAKeyBits) eqn:E2; [done|].
intros _. exists pub, n. apply orb_false_iff in E1 as [[E1 E3]%orb_false_iff E4].
assert (MinRSAKeyBits - 1 <= Z.log2 n) as Hl.
{ unfold BitLen in E2. destruct (Z.eqb_spec n 0); [lia|]. rewrite Z.abs_eq in E2 by lia. lia. }
repeat split; [done| |lia|].
- apply Z.log2_le_pow2; lia.
- rewrite Z.rem_mod_nonneg in E4 by lia. rewrite Zmod_odd in E4. by destruct (Z.odd _).
Qed.
End oaep.

(** A 2048-bit key with exponent 65537 and an encryption that copies. *)
Lemma Wrap_strong_key_witness :
let r := {| rsa_public := Some {| pub_N := Some (2 ^ 2047); pub_E := 65537 |}; rsa_private := None |} in
exists pub n, rsa_public r = Some pub /\ pub_N pub = Some n /\
  2 ^ (MinRSAKeyBits - 1) <= n /\ 3 <= pub_E pub /\ Z.odd (pub_E pub) = true.
Proof.
cbv zeta. apply (Wrap_strong_key (fun _ _ key => inl key) _ [] [x01%byte] [x01%byte]).
vm_compute. reflexivity.
Defined.
End RSA.
