(* ===== verification/Message.v ===== *)
(** * Message: application messages and their validation (message.go) *)
From S2P Require Import Prelude Kinds Errors Encoding.

Record Message := { msg_Type : PayloadType; msg_Data : bytes }.

Definition Text (s : bytes) : Message := {| msg_Type := PayloadText; msg_Data := s |}.
Definition Bin (b : bytes) : Message := {| msg_Type := PayloadBinary; msg_Data := b |}.

Definition Validate (m : Message) : option error :=
  match msg_Type m with
  | PayloadBinary => None
  | PayloadText => if Utf8.Valid (msg_Data m) then None else Some (Sentinel ErrInvalidUTF8)
  | PayloadOther _ => Some (Sentinel ErrInvalidPayloadType)
  end.

Lemma Validate_named m :
  Validate m = None -> msg_Type m = PayloadBinary \/ msg_Type m = PayloadText.
Proof. unfold Validate. destruct (msg_Type m); auto. done. Qed.

(** A message validates exactly when it is binary, or text whose bytes are the
    concatenation of encoded Unicode scalar values. *)
Theorem Validate_iff m :
  Validate m = None <->
  msg_Type m = PayloadBinary \/
  (msg_Type m = PayloadText /\
     exists cs, Forall Utf8.scalar cs /\ msg_Data m = flat_map Utf8.EncodeRune cs).
Proof.
  unfold Validate. rewrite <- Utf8.Valid_iff. destruct (msg_Type m).
  - naive_solver.
  - destruct (Utf8.Valid (msg_Data m)); naive_solver.
  - naive_solver.
Qed.
