(* ===== verification/Endpoint.v ===== *)
(** * Endpoint: typed endpoints and their textual form (endpoint.go)

    Go strings are byte strings, modelled by [string].  [net/url]'s [Parse] and
    [URL.String] are arguments of the definitions that call them and are written out in
    Url.v, with the round trip of endpoints through their text; [URL.Port],
    [URL.Hostname], [strconv.ParseUint], [strconv.Itoa], [strings.ToLower] and
    [net.JoinHostPort] are written out. *)
From S2P Require Import Prelude Kinds Errors.
From Stdlib Require Import Ascii.
Local Open Scope string_scope.
Local Open Scope Z_scope.

Record Endpoint := {
  ep_Scheme : Scheme;
  ep_Host : string;
  ep_Port : Z;                     (* uint16 *)
  ep_Path : string;
  ep_RawQuery : string;
}.
#[global] Instance Endpoint_eq_dec : EqDecision Endpoint.
Proof. solve_decision. Defined.

(** The fields of [url.URL] the code reads or writes. *)
Record url := {
  u_Scheme : string;
  u_User : bool;                   (* User != nil *)
  u_Host : string;
  u_Path : string;
  u_RawQuery : string;
  u_Fragment : string;
}.

(** ** Standard library string operations *)
Definition is_digit (c : ascii) : bool :=
  bool_decide (48 <= Z.of_nat (nat_of_ascii c) <= 57).
Definition digit_value (c : ascii) : Z := Z.of_nat (nat_of_ascii c) - 48.
Definition digit (d : Z) : ascii := ascii_of_nat (Z.to_nat (48 + d)).

Fixpoint all_digits (s : string) : bool :=
  match s with EmptyString => true | String c r => is_digit c && all_digits r end.

Definition contains_colon := fix go (s : string) : bool :=
  match s with
  | EmptyString => false
  | String c r => bool_decide (c = ":"%char) || go r
  end.

(** The text before and after the last colon ([strings.LastIndexByte]). *)
Fixpoint cut_last_colon (s : string) : option (string * string) :=
  match s with
  | EmptyString => None
  | String c r =>
      match cut_last_colon r with
      | Some (a, b) => Some (String c a, b)
      | None => if bool_decide (c = ":"%char) then Some ("", r) else None
      end
  end.

Fixpoint strip_suffix_bracket (s : string) : option string :=
  match s with
  | EmptyString => None
  | String c EmptyString => if bool_decide (c = "]"%char) then Some "" else None
  | String c r => option_map (String c) (strip_suffix_bracket r)
  end.
(** The bracket removal of [url.splitHostPort]. *)
Definition strip_brackets (h : string) : string :=
  match h with
  | String c r =>
      if bool_decide (c = "["%char) then default h (strip_suffix_bracket r) else h
  | EmptyString => h
  end.

(** [url.splitHostPort]: a trailing [:digits] is the port. *)
Definition splitHostPort (hp : string) : string * string :=
  let '(host, port) :=
    match cut_last_colon hp with
    | Some (a, b) => if all_digits b then (a, b) else (hp, "")
    | None => (hp, "")
    end in
  (strip_brackets host, port).
Definition u_Hostname (u : url) : string := fst (splitHostPort (u_Host u)).
Definition u_Port (u : url) : string := snd (splitHostPort (u_Host u)).

(** [strconv.ParseUint(s, 10, 16)]; [None] for a syntax or a range error. *)
Fixpoint parse_digits (n : Z) (s : string) : option Z :=
  match s with
  | EmptyString => Some n
  | String c r =>
      if is_digit c
      then let n := n * 10 + digit_value c in
           if 65535 <? n then None else parse_digits n r
      else None
  end.
Definition ParseUint16 (s : string) : option Z :=
  match s with EmptyString => None | _ => parse_digits 0 s end.

(** [strconv.Itoa] of a non-negative number below ten to the fuel. *)
Fixpoint itoa_loop (fuel : nat) (n : Z) (acc : string) : string :=
  match fuel with
  | O => acc
  | S fuel =>
      let acc := String (digit (n `mod` 10)) acc in
      if n <? 10 then acc else itoa_loop fuel (n / 10) acc
  end.
Definition Itoa (n : Z) : string := itoa_loop 20 n "".

Definition JoinHostPort (host port : string) : string :=
  if contains_colon host then "[" ++ host ++ "]:" ++ port else host ++ ":" ++ port.

(** ** endpoint.go *)
Definition parseScheme (raw : string) : result Scheme :=
  let l := ToLower raw in
  if bool_decide (l = "tcp") then inl SchemeTCP
  else if bool_decide (l = "udp") then inl SchemeUDP
  else if bool_decide (l = "tls") then inl SchemeTLS
  else if bool_decide (l = "ws") then inl SchemeWS
  else if bool_decide (l = "wss") then inl SchemeWSS
  else inr (Errorf raw ErrUnsupportedScheme).

Definition endpointPort (scheme : Scheme) (raw : string) : result Z :=
  match raw with
  | EmptyString =>
      match scheme with
      | SchemeTLS | SchemeWSS => inl 443
      | SchemeWS => inl 80
      | _ => inr (Sentinel ErrMissingPort)
      end
  | _ =>
      match ParseUint16 raw with
      | Some v => inl v
      | None => inr (Errorf ("invalid port " ++ raw) ErrInvalidEndpoint)
      end
  end.

Definition is_ws (s : Scheme) : bool :=
  bool_decide (s = SchemeWS) || bool_decide (s = SchemeWSS).

Definition Endpoint_Validate (e : Endpoint) : option error :=
  match ep_Scheme e with
  | SchemeTCP | SchemeUDP | SchemeTLS =>
      if negb (bool_decide (ep_Path e = "")) && negb (bool_decide (ep_Path e = "/"))
      then Some (Sentinel ErrUnexpectedPath)
      else if negb (bool_decide (ep_RawQuery e = ""))
      then Some (Sentinel ErrUnexpectedQuery)
      else None
  | SchemeWS | SchemeWSS =>
      if bool_decide (ep_Path e = "") then Some (Sentinel ErrInvalidEndpoint) else None
  | SchemeOther _ => Some (Sentinel ErrUnsupportedScheme)
  end.

Definition ValidateDial (e : Endpoint) : option error :=
  match Endpoint_Validate e with
  | Some err => Some err
  | None =>
      if bool_decide (ep_Host e = "") then Some (Sentinel ErrMissingHost)
      else if ep_Port e =? 0 then Some (Sentinel ErrMissingPort)
      else None
  end.

(** [ParseEndpoint] after [url.Parse] has answered. *)
Definition ParseEndpoint (url_Parse : string -> result url) (raw : string) : result Endpoint :=
  match url_Parse raw with
  | inr err => inr (Errorf "" ErrInvalidEndpoint)     (* "%w: %v": only the sentinel is wrapped *)
  | inl u =>
      if bool_decide (u_Scheme u = "") || bool_decide (u_Host u = "") || u_User u ||
         negb (bool_decide (u_Fragment u = ""))
      then inr (Sentinel ErrInvalidEndpoint)
      else
      (try scheme := parseScheme (u_Scheme u) in
       try port := endpointPort scheme (u_Port u) in
       let path := if is_ws scheme && bool_decide (u_Path u = "") then "/" else u_Path u in
       let e := {| ep_Scheme := scheme; ep_Host := u_Hostname u; ep_Port := port;
                   ep_Path := path; ep_RawQuery := u_RawQuery u |} in
       match Endpoint_Validate e with
       | Some err => inr err
       | None => inl e
       end)%go
  end.

Definition Address (e : Endpoint) : string := JoinHostPort (ep_Host e) (Itoa (ep_Port e)).

Definition defaultPort (s : Scheme) : Z :=
  match s with SchemeWS => 80 | SchemeTLS | SchemeWSS => 443 | _ => 0 end.

(** The [url.URL] literal that [URL] prints. *)
Definition endpoint_url (e : Endpoint) : url :=
  let path := if is_ws (ep_Scheme e) && bool_decide (ep_Path e = "") then "/" else ep_Path e in
  let host :=
    if (defaultPort (ep_Scheme e) =? ep_Port e) && negb (bool_decide (ep_Host e = ""))
    then if contains_colon (ep_Host e) then "[" ++ ep_Host e ++ "]" else ep_Host e
    else Address e in
  {| u_Scheme := Scheme_String (ep_Scheme e); u_User := false; u_Host := host;
     u_Path := path; u_RawQuery := ep_RawQuery e; u_Fragment := "" |}.

Definition URL (url_String : url -> string) (e : Endpoint) : string :=
  url_String (endpoint_url e).

Definition WithPort (e : Endpoint) (port : Z) : Endpoint :=
  {| ep_Scheme := ep_Scheme e; ep_Host := ep_Host e; ep_Port := port;
     ep_Path := ep_Path e; ep_RawQuery := ep_RawQuery e |}.

(** ** Decimal printing and parsing *)
Lemma digit_ok d : 0 <= d < 10 ->
  is_digit (digit d) = true /\ digit_value (digit d) = d /\ digit d <> ":"%char.
Proof.
  intros. assert (d = 0 \/ d = 1 \/ d = 2 \/ d = 3 \/ d = 4 \/ d = 5 \/ d = 6 \/ d = 7 \/
                  d = 8 \/ d = 9) as Hd by lia.
  by repeat (destruct Hd as [->|Hd]; [vm_compute; repeat split; done|]); subst.
Qed.

Lemma is_digit_colon c : is_digit c = true -> c <> ":"%char.
Proof. by intros H ->. Qed.

Lemma digits_no_colon s : all_digits s = true -> contains_colon s = false.
Proof.
  induction s as [|c r IH]; [done|]. simpl. intros [Hc Hr]%andb_true_iff.
  rewrite (bool_decide_false _ (is_digit_colon c Hc)). by apply IH.
Qed.

Lemma itoa_loop_digits fuel n acc :
  0 <= n -> all_digits acc = true -> all_digits (itoa_loop fuel n acc) = true.
Proof.
  revert n acc. induction fuel as [|fuel IH]; intros n acc Hn Ha; [done|]. simpl.
  destruct (digit_ok (n mod 10)) as (Hd & _ & _); [apply Z.mod_pos_bound; lia|].
  assert (all_digits (String (digit (n mod 10)) acc) = true) by (simpl; by rewrite Hd).
  destruct (n <? 10); [done|]. apply IH; [apply Z.div_pos; lia|done].
Qed.

(** Parsing the digits of [n] in front of [acc] continues from [n]. *)
Lemma parse_itoa fuel n acc :
  0 <= n <= 65535 -> n < 10 ^ Z.of_nat fuel -> (0 < fuel)%nat ->
  parse_digits 0 (itoa_loop fuel n acc) = parse_digits n acc.
Proof.
  revert n acc. induction fuel as [|fuel IH]; intros n acc Hn Hf Hpos; [lia|].
  cbn [itoa_loop].
  destruct (digit_ok (n mod 10)) as (Hd & Hv & _); [apply Z.mod_pos_bound; lia|].
  destruct (n <? 10) eqn:E; zbool.
  - cbn [parse_digits]. rewrite Hd, Hv, Z.mod_small by lia.
    rewrite Z.add_0_l. destruct (65535 <? n) eqn:E2; [zbool; lia|done].
  - pose proof (Z.div_mod n 10). pose proof (Z.mod_pos_bound n 10).
    destruct fuel as [|fuel]; [lia|].
    rewrite IH; [|lia| |lia].
    + cbn [parse_digits]. rewrite Hd, Hv. replace (n / 10 * 10 + n mod 10) with n by lia.
      destruct (65535 <? n) eqn:E2; [zbool; lia|done].
    + rewrite Nat2Z.inj_succ, Z.pow_succ_r in Hf by lia. apply Z.div_lt_upper_bound; lia.
Qed.

Lemma itoa_loop_nonempty fuel n acc :
  (0 < fuel)%nat -> exists c r, itoa_loop fuel n acc = String c r.
Proof.
  revert n acc. induction fuel as [|fuel IH]; [lia|]. intros n acc _. cbn [itoa_loop].
  destruct (n <? 10); [eauto|]. destruct fuel; [cbn; eauto|]. apply IH. lia.
Qed.

Lemma ParseUint16_Itoa n : 0 <= n <= 65535 -> ParseUint16 (Itoa n) = Some n.
Proof.
  intros. unfold ParseUint16, Itoa.
  destruct (itoa_loop_nonempty 20 n "") as (c & r & E); [lia|].
  pose proof (parse_itoa 20 n "" ltac:(lia) ltac:(lia) ltac:(lia)) as H1.
  rewrite E in *. by rewrite H1.
Qed.

Lemma ParseUint16_range s v : ParseUint16 s = Some v -> 0 <= v <= 65535.
Proof.
  assert (forall s n, 0 <= n <= 65535 -> parse_digits n s = Some v -> 0 <= v <= 65535) as Hgen.
  { clear s. induction s as [|c r IH]; intros n Hn; simpl; [intros [= ->]; lia|].
    destruct (is_digit c) eqn:Hc; [|done].
    destruct (65535 <? _) eqn:E; [done|]. zbool. intros. eapply IH; [|done].
    unfold is_digit in Hc. apply bool_decide_eq_true in Hc. unfold digit_value in *. lia. }
  destruct s; [done|]. apply Hgen. lia.
Qed.

(** ** Host and port *)
Lemma str_app_assoc (a b c : string) : (a ++ b) ++ c = a ++ b ++ c.
Proof. induction a as [|x a IH]; [done|]. change (String x ((a ++ b) ++ c) = String x (a ++ b ++ c)). by rewrite IH. Qed.

Lemma cut_none s : contains_colon s = false -> cut_last_colon s = None.
Proof.
  induction s as [|c r IH]; [done|]. simpl. intros [Hc Hr]%orb_false_iff.
  by rewrite IH, Hc.
Qed.

Lemma cut_app a b :
  contains_colon b = false -> cut_last_colon (a ++ ":" ++ b) = Some (a, b).
Proof.
  intros Hb. induction a as [|c r IH].
  - simpl. by rewrite cut_none.
  - change (String c r ++ ":" ++ b) with (String c (r ++ ":" ++ b)).
    cbn [cut_last_colon]. by rewrite IH.
Qed.

Lemma all_digits_bracket s : all_digits (s ++ "]") = false.
Proof. induction s as [|c r IH]; [done|]. simpl. rewrite IH. by destruct (is_digit c). Qed.

Lemma cut_bracket s a b : cut_last_colon (s ++ "]") = Some (a, b) -> all_digits b = false.
Proof.
  revert a b. induction s as [|c r IH]; intros a b; [done|].
  change (String c r ++ "]") with (String c (r ++ "]")). cbn [cut_last_colon].
  destruct (cut_last_colon (r ++ "]")) as [[a' b']|].
  - intros [= <- <-]. by eapply IH.
  - case_bool_decide; [|done]. intros [= <- <-]. apply all_digits_bracket.
Qed.

Lemma strip_suffix_app h : strip_suffix_bracket (h ++ "]") = Some h.
Proof.
  induction h as [|c r IH]; [done|].
  change (String c r ++ "]") with (String c (r ++ "]")). cbn [strip_suffix_bracket].
  rewrite IH. by destruct r.
Qed.

Lemma strip_bracketed h : strip_brackets ("[" ++ h ++ "]") = h.
Proof.
  change ("[" ++ h ++ "]") with (String "[" (h ++ "]")). unfold strip_brackets.
  by rewrite bool_decide_true, strip_suffix_app.
Qed.

(** A host whose text is not itself bracketed. *)
Definition plain_host (h : string) : bool :=
  match h with String c _ => negb (bool_decide (c = "["%char)) | EmptyString => true end.

Lemma strip_plain h : plain_host h = true -> strip_brackets h = h.
Proof. destruct h as [|c r]; [done|]. simpl. by case_bool_decide. Qed.

Lemma split_join h p :
  plain_host h = true -> all_digits p = true -> splitHostPort (JoinHostPort h p) = (h, p).
Proof.
  intros Hh Hp. unfold splitHostPort, JoinHostPort.
  assert (contains_colon p = false) as Hc by by apply digits_no_colon.
  destruct (contains_colon h) eqn:E.
  - replace ("[" ++ h ++ "]:" ++ p) with (("[" ++ h ++ "]") ++ ":" ++ p).
  2:{ by rewrite !str_app_assoc. }
    by rewrite cut_app, Hp, strip_bracketed.
  - by rewrite cut_app, Hp, strip_plain.
Qed.

Lemma split_bare h :
  plain_host h = true ->
  splitHostPort (if contains_colon h then "[" ++ h ++ "]" else h) = (h, "").
Proof.
  intros Hh. unfold splitHostPort. destruct (contains_colon h) eqn:E.
  - destruct (cut_last_colon ("[" ++ h ++ "]")) as [[a b]|] eqn:Ec; cycle 1.
    { by rewrite strip_bracketed. }
    change ("[" ++ h ++ "]") with (("[" ++ h) ++ "]") in Ec.
    rewrite (cut_bracket _ _ _ Ec). by rewrite strip_bracketed.
  - by rewrite cut_none, strip_plain.
Qed.

Lemma Itoa_digits n : 0 <= n -> all_digits (Itoa n) = true.
Proof. intros. by apply itoa_loop_digits. Qed.

(** The printed form names the default port of its scheme by leaving it out, so
    a TCP or UDP endpoint with port zero and a host prints without a port. *)
Definition port_printed (e : Endpoint) : bool :=
  negb ((defaultPort (ep_Scheme e) =? ep_Port e) && negb (bool_decide (ep_Host e = ""))).

Lemma endpoint_url_split e :
  plain_host (ep_Host e) = true -> 0 <= ep_Port e ->
  splitHostPort (u_Host (endpoint_url e)) =
    (ep_Host e, if port_printed e then Itoa (ep_Port e) else "").
Proof.
  intros Hh Hp. unfold endpoint_url, port_printed. cbn [u_Host].
  destruct (_ && _); cbn [negb].
  - by apply split_bare.
  - by apply split_join; [|apply Itoa_digits].
Qed.

Lemma parseScheme_String s : is_ws s || IsSession s || IsPacket s = true ->
  parseScheme (Scheme_String s) = inl s.
Proof. by destruct s. Qed.

Lemma endpointPort_printed s p :
  0 <= p <= 65535 -> endpointPort s (Itoa p) = inl p.
Proof.
  intros Hp. unfold endpointPort.
  destruct (itoa_loop_nonempty 20 p "" ltac:(lia)) as (c & r & E).
  pose proof (ParseUint16_Itoa p Hp) as H. unfold Itoa in *. rewrite E in *. by rewrite H.
Qed.

Lemma Validate_scheme e : Endpoint_Validate e = None ->
  IsSession (ep_Scheme e) || IsPacket (ep_Scheme e) = true.
Proof. unfold Endpoint_Validate. by destruct (ep_Scheme e). Qed.

Lemma Validate_ws_path e : Endpoint_Validate e = None ->
  is_ws (ep_Scheme e) && bool_decide (ep_Path e = "") = false.
Proof.
  unfold Endpoint_Validate.
  destruct (ep_Scheme e); try done; simpl; by case_bool_decide.
Qed.

Lemma bare_host_nonempty (h : string) : h <> "" ->
  (if contains_colon h then "[" ++ h ++ "]" else h) <> "".
Proof. intros Hne. destruct (contains_colon h); done. Qed.

Lemma JoinHostPort_nonempty h p : JoinHostPort h p <> "".
Proof. unfold JoinHostPort. destruct (contains_colon h); [done|]. by destruct h. Qed.

Lemma endpoint_url_host_nonempty e : u_Host (endpoint_url e) <> "".
Proof.
  unfold endpoint_url. cbn [u_Host].
  destruct (_ && negb _) eqn:E; [|apply JoinHostPort_nonempty].
  apply andb_true_iff in E as [_ E]. apply bare_host_nonempty.
  intros Hh. rewrite bool_decide_true in E; done.
Qed.

(** [ParseEndpoint] of an endpoint's own URL, up to the port. *)
Lemma ParseEndpoint_own_url P S e :
  Endpoint_Validate e = None -> plain_host (ep_Host e) = true -> 0 <= ep_Port e <= 65535 ->
  P (URL S e) = inl (endpoint_url e) ->
  ParseEndpoint P (URL S e) =
    (try port := endpointPort (ep_Scheme e)
                   (if port_printed e then Itoa (ep_Port e) else "") in
     inl (WithPort e port))%go.
Proof.
  intros HV Hh Hp HP. unfold ParseEndpoint. rewrite HP.
  rewrite (bool_decide_false (u_Host (endpoint_url e) = ""))
    by apply endpoint_url_host_nonempty.
  unfold u_Port, u_Hostname. rewrite endpoint_url_split by (done || lia).
  pose proof (Validate_scheme e HV) as HS. pose proof (Validate_ws_path e HV) as Hpath.
  cbn [u_Scheme u_User u_Fragment u_RawQuery u_Path endpoint_url fst snd].
  rewrite parseScheme_String by (destruct (ep_Scheme e); done).
  rewrite Hpath. rewrite Hpath.
  replace (bool_decide (Scheme_String (ep_Scheme e) = "")) with false
    by (destruct (ep_Scheme e); done).
  cbn. destruct (endpointPort _ _) as [port|]; [|done].
  replace (Endpoint_Validate _) with (Endpoint_Validate e)
    by (unfold Endpoint_Validate; by destruct e).
  by rewrite HV.
Qed.

(** Whatever [net/url] answers, an endpoint [ParseEndpoint] returns is valid and
    has a 16-bit port. *)
Theorem ParseEndpoint_valid url_Parse raw e :
  ParseEndpoint url_Parse raw = inl e ->
  Endpoint_Validate e = None /\ 0 <= ep_Port e <= 65535.
Proof.
  unfold ParseEndpoint. destruct (url_Parse raw) as [u|]; [|done].
  destruct (_ || _); [done|].
  destruct (parseScheme _) as [s|]; [|done].
  destruct (endpointPort s (u_Port u)) as [p|] eqn:Hp; [|done].
  set (e' := Build_Endpoint _ _ _ _ _). destruct (Endpoint_Validate e') eqn:HV; [done|].
  intros [= <-]. split; [done|]. cbn [ep_Port e'].
  unfold endpointPort in Hp.
  destruct (u_Port u); [by destruct s; simplify_eq|].
  destruct (ParseUint16 _) eqn:E; simplify_eq. by eapply ParseUint16_range.
Qed.

Definition demo_endpoint : Endpoint :=
  {| ep_Scheme := SchemeWSS; ep_Host := "::1"; ep_Port := 443; ep_Path := "/chat"; ep_RawQuery := "" |}.

Lemma ParseEndpoint_valid_witness :
  Endpoint_Validate demo_endpoint = None /\ 0 <= ep_Port demo_endpoint <= 65535.
Proof.
  apply (ParseEndpoint_valid (fun _ => inl (endpoint_url demo_endpoint)) "wss://[::1]/chat").
  reflexivity.
Defined.
