(* ===== verification/NetAddr.v ===== *)
(** * NetAddr: the text of network addresses

    Go's [net.IP.To4], [net.IP.String] (with [netip.Addr.String]) and the [String] methods
    of [*net.UDPAddr] and [*net.TCPAddr], which the transport compares and uses as keys;
    [canonicalIP] of transport/limits.go. *)
From Stdlib Require Import Ascii.
From S2P Require Import Prelude Kinds Errors Encoding Endpoint.
Local Open Scope string_scope.
Local Open Scope Z_scope.

(** ** net.IP *)
Definition v4InV6Prefix : bytes := replicate 10 (to_byte 0) ++ [to_byte 255; to_byte 255].
Definition To4 (ip : bytes) : option bytes :=
  if zlen ip =? 4 then Some ip
  else if (zlen ip =? 16) && bool_decide (take 12 ip = v4InV6Prefix) then Some (drop 12 ip)
  else None.

Definition hex_digit (n : Z) : ascii := ascii_of_nat (Z.to_nat (if n <? 10 then 48 + n else 87 + n)).
(** [appendHex]: no leading zeros; [fuel] digits at most. *)
Fixpoint hex_loop (fuel : nat) (n : Z) (acc : string) : string :=
  match fuel with
  | O => acc
  | S fuel => let acc := String (hex_digit (n `mod` 16)) acc in
              if n <? 16 then acc else hex_loop fuel (n / 16) acc
  end.
Definition appendHex (n : Z) : string := hex_loop 4 n "".
(** [hexString]: two digits a byte. *)
Fixpoint hexString (b : bytes) : string :=
  match b with
  | [] => ""
  | x :: b => let v := u8 x in String (hex_digit (v / 16)) (String (hex_digit (v `mod` 16)) (hexString b))
  end.

Definition string4 (ip : bytes) : string := String.concat "." (Itoa <$> (u8 <$> ip)).

(** The eight groups of an IPv6 address. *)
Fixpoint groups (b : bytes) : list Z :=
  match b with
  | x :: y :: b => (u8 x * 256 + u8 y) :: groups b
  | _ => []
  end.
Fixpoint zero_run (gs : list Z) : nat :=
  match gs with 0 :: gs => S (zero_run gs) | _ => O end.
(** The first longest run of at least two zero groups, from index [i] on. *)
Fixpoint longest_run (i : nat) (gs : list Z) (best : nat * nat) : nat * nat :=
  match gs with
  | [] => best
  | _ :: rest =>
      let l := zero_run gs in
      longest_run (S i) rest
        (if (2 <=? l)%nat && (best.2 - best.1 <? l)%nat then (i, i + l)%nat else best)
  end.
Definition hex_groups (gs : list Z) : string := String.concat ":" (appendHex <$> gs).
Definition string6 (ip : bytes) : string :=
  let gs := groups ip in
  let '(b, e) := longest_run 0 gs (255, 255)%nat in
  if (b =? 255)%nat then hex_groups gs
  else hex_groups (take b gs) ++ "::" ++ hex_groups (drop e gs).

Definition IP_String (ip : bytes) : string :=
  if zlen ip =? 0 then "<nil>"
  else if negb (zlen ip =? 4) && negb (zlen ip =? 16) then "?" ++ hexString ip
  else match To4 ip with Some v4 => string4 v4 | None => string6 ip end.

(** [canonicalIP] *)
Definition canonicalIP (ip : bytes) : string :=
  match To4 ip with Some v4 => IP_String v4 | None => IP_String ip end.

(** ** Addresses *)
Definition ipEmptyString (ip : bytes) : string := if zlen ip =? 0 then "" else IP_String ip.
Definition ipaddr_String (a : ipaddr) : string :=
  let ip := ipEmptyString (ip_bytes a) in
  JoinHostPort (if bool_decide (ip_zone a = "") then ip else ip ++ "%" ++ ip_zone a) (Itoa (ip_port a)).
Definition ptr_String {A} (f : A -> string) (a : option A) : string :=
  match a with Some a => f a | None => "<nil>" end.
(** [addr.String()]; a nil [*staticAddr] panics. *)
Definition Addr_String (a : net_addr) : option string :=
  match a with
  | TCPAddr a | UDPAddr a => Some (ptr_String ipaddr_String a)
  | StaticAddr _ v => Some v
  | StaticAddrPtr a => match a with Some (_, v) => Some v | None => None end
  | OtherAddr s => Some s
  end.

(** An IPv4 address and its IPv4-in-IPv6 form are one peer. *)
Lemma To4_mapped v4 : length v4 = 4%nat -> To4 (v4InV6Prefix ++ v4) = Some v4.
Proof.
  intros Hl. unfold To4. rewrite zlen_app. change (zlen v4InV6Prefix) with 12.
  unfold zlen. rewrite Hl. cbn [Z.eqb Z.of_nat]. rewrite bool_decide_true; [done|].
  by rewrite take_app_length' by done.
Qed.
Lemma To4_self v4 : length v4 = 4%nat -> To4 v4 = Some v4.
Proof. intros Hl. unfold To4, zlen. by rewrite Hl. Qed.
Lemma IP_String_mapped v4 : length v4 = 4%nat -> IP_String (v4InV6Prefix ++ v4) = IP_String v4.
Proof.
  intros Hl. unfold IP_String. rewrite To4_mapped, To4_self by done. unfold zlen. rewrite length_app, Hl. done.
Qed.

Example IP_String_texts :
  IP_String (to_byte <$> [192; 168; 0; 1]) = "192.168.0.1" /\
  IP_String (to_byte <$> [32; 1; 13; 184; 0; 0; 0; 0; 0; 0; 0; 0; 0; 0; 0; 1]) = "2001:db8::1" /\
  IP_String (replicate 16 (to_byte 0)) = "::" /\
  ipaddr_String {| ip_bytes := replicate 15 (to_byte 0) ++ [to_byte 1]; ip_port := 80; ip_zone := "" |} = "[::1]:80".
Proof. vm_compute. done. Qed.
