(* ===== verification/HostPort.v ===== *)
(** * HostPort: peers and bound addresses

    [peerKey] (transport/limits.go) and [boundEndpoint] (transport/tcp.go), on
    [net.SplitHostPort] and [net.ParseIP] of the standard library. *)
From Stdlib Require Import Ascii.
From S2P Require Import Prelude Kinds Errors Endpoint NetAddr.
Local Open Scope go_scope.
Local Open Scope string_scope.
Local Open Scope list_scope.
Local Open Scope Z_scope.

(** ** Strings as lists of characters *)
Definition chars (s : string) : list ascii := String.list_ascii_of_string s.
Definition text (l : list ascii) : string := String.string_of_list_ascii l.
(** The part before the first [c] and the part after it. *)
Fixpoint cut (c : ascii) (l : list ascii) : option (list ascii * list ascii) :=
  match l with
  | [] => None
  | x :: l => if bool_decide (x = c) then Some ([], l)
              else match cut c l with Some (a, b) => Some (x :: a, b) | None => None end
  end.
(** The same at the last [c]. *)
Fixpoint cut_last (c : ascii) (l : list ascii) : option (list ascii * list ascii) :=
  match l with
  | [] => None
  | x :: l => match cut_last c l with
              | Some (a, b) => Some (x :: a, b)
              | None => if bool_decide (x = c) then Some ([], l) else None
              end
  end.
Fixpoint split_on (c : ascii) (l : list ascii) : list (list ascii) :=
  match l with
  | [] => [[]]
  | x :: l =>
      if bool_decide (x = c) then [] :: split_on c l
      else match split_on c l with p :: ps => (x :: p) :: ps | [] => [[x]] end
  end.
Definition has (c : ascii) (l : list ascii) : bool := bool_decide (c ∈ l).

(** [net.SplitHostPort]; [None] for an error. *)
Definition SplitHostPort (hostport : string) : option (string * string) :=
  match cut_last ":" (chars hostport) with
  | None => None
  | Some (before, port) =>
      match before with
      | "["%char :: inner =>
          match cut "]" inner with
          | Some (host, []) => if has "[" host || has "[" port || has "]" port then None else Some (text host, text port)
          | _ => None
          end
      | host => if has ":" host || has "[" host || has "]" host || has "[" port || has "]" port then None
                else Some (text host, text port)
      end
  end.

(** ** [net.ParseIP] *)
Definition dec_digit (c : ascii) : option Z := if is_digit c then Some (digit_value c) else None.
Definition hex_value (c : ascii) : option Z :=
  let n := Z.of_nat (nat_of_ascii c) in
  if (48 <=? n) && (n <=? 57) then Some (n - 48)
  else if (97 <=? n) && (n <=? 102) then Some (n - 87)
  else if (65 <=? n) && (n <=? 70) then Some (n - 55)
  else None.
(** One field of a dotted quad: no leading zero, at most 255. *)
Definition quad_field (f : list ascii) : option Z :=
  match f with
  | [] => None
  | [c] => dec_digit c
  | "0"%char :: _ => None
  | _ => foldl (fun acc c => match acc, dec_digit c with
                             | Some v, Some d => if 255 <? v * 10 + d then None else Some (v * 10 + d)
                             | _, _ => None
                             end) (Some 0) f
  end.
Definition parseIPv4Fields (l : list ascii) : option bytes :=
  match split_on "." l with
  | [a; b; c; d] =>
      match quad_field a, quad_field b, quad_field c, quad_field d with
      | Some a, Some b, Some c, Some d => Some (to_byte <$> [a; b; c; d])
      | _, _, _, _ => None
      end
  | _ => None
  end.
(** The hexadecimal digits at the front, at most four: their value, how many, and the rest. *)
Fixpoint hex_field (acc : Z) (off : nat) (l : list ascii) : option (Z * nat * list ascii) :=
  match l with
  | c :: l' =>
      match hex_value c with
      | Some d => if (3 <? off)%nat then None else hex_field (acc * 16 + d) (S off) l'
      | None => Some (acc, off, l)
      end
  | [] => Some (acc, off, [])
  end.
(** The fields from byte [i] on: the bytes, and where a [::] stood. *)
Fixpoint ipv6_fields (fuel : nat) (i : nat) (ellipsis : option nat) (l : list ascii) : option (bytes * option nat) :=
  match fuel with
  | O => None
  | S fuel =>
      match hex_field 0 0 l with
      | None | Some (_, O, _) => None
      | Some (_, _, "."%char :: _) =>
          if negb (bool_decide (is_Some ellipsis)) && negb (i =? 12)%nat then None
          else if (12 <? i)%nat then None
          else match parseIPv4Fields l with Some b => Some (b, ellipsis) | None => None end
      | Some (acc, _, rest) =>
          let here := [to_byte (acc / 256); to_byte (acc `mod` 256)] in
          let i := (i + 2)%nat in
          match rest with
          | [] => Some (here, ellipsis)
          | ":"%char :: ":"%char :: rest =>
              if bool_decide (is_Some ellipsis) then None
              else match rest with
                   | [] => Some (here, Some i)
                   | _ => if (i =? 16)%nat then None else
                          match ipv6_fields fuel i (Some i) rest with Some (b, e) => Some (here ++ b, e) | None => None end
                   end
          | ":"%char :: rest =>
              if (i =? 16)%nat then None else
              match ipv6_fields fuel i ellipsis rest with Some (b, e) => Some (here ++ b, e) | None => None end
          | _ => None
          end
      end
  end.
(** A [::] stands for at least one zero field. *)
Definition expand (r : option (bytes * option nat)) : option bytes :=
  match r with
  | None => None
  | Some (b, ellipsis) =>
      if (length b <? 16)%nat then
        match ellipsis with
        | Some e => Some (take e b ++ replicate (16 - length b) (to_byte 0) ++ drop e b)
        | None => None
        end
      else match ellipsis with Some _ => None | None => Some b end
  end.
Definition parseIPv6 (l : list ascii) : option bytes :=
  match l with
  | ":"%char :: ":"%char :: [] => Some (replicate 16 (to_byte 0))
  | ":"%char :: ":"%char :: rest => expand (ipv6_fields 9 0 (Some 0%nat) rest)
  | _ => expand (ipv6_fields 9 0 None l)
  end.
(** The first of [.], [:] and [%] decides; an address with a zone is none. *)
Fixpoint ip_kind (l : list ascii) : option ascii :=
  match l with
  | [] => None
  | c :: l => if bool_decide (c ∈ ["."%char; ":"%char; "%"%char]) then Some c else ip_kind l
  end.
Definition ParseIP (s : string) : option bytes :=
  let l := chars s in
  match ip_kind l with
  | Some "."%char => option_map (fun b => v4InV6Prefix ++ b) (parseIPv4Fields l)
  | Some ":"%char => if has "%" l then None else parseIPv6 l
  | _ => None
  end.

(** ** peerKey, boundEndpoint *)
(** [addr.String()] of a nil [*staticAddr] panics; no caller passes one. *)
Definition peerKey (addr : option net_addr) : string :=
  match addr with
  | None => ""
  | Some (TCPAddr None) | Some (UDPAddr None) => ""
  | Some (TCPAddr (Some a)) | Some (UDPAddr (Some a)) => canonicalIP (ip_bytes a)
  | Some other =>
      match SplitHostPort (default "" (Addr_String other)) with
      | None => ""
      | Some (host, _) => match ParseIP host with None => host | Some ip => canonicalIP ip end
      end
  end.

Definition boundEndpoint (endpoint : Endpoint) (addr : net_addr) : Endpoint :=
  match SplitHostPort (default "" (Addr_String addr)) with
  | None => endpoint
  | Some (host, portText) =>
      match ParseUint16 portText with
      | None => endpoint
      | Some port =>
          {| ep_Scheme := ep_Scheme endpoint;
             ep_Host := if bool_decide (ep_Host endpoint <> "" /\ ep_Host endpoint <> "0.0.0.0" /\ ep_Host endpoint <> "::")
                        then ep_Host endpoint else host;
             ep_Port := port; ep_Path := ep_Path endpoint; ep_RawQuery := ep_RawQuery endpoint |}
      end
  end.

Example ParseIP_texts :
  ParseIP "192.168.0.1" = Some (v4InV6Prefix ++ (to_byte <$> [192; 168; 0; 1])) /\
  ParseIP "2001:db8::1" = Some (to_byte <$> [32; 1; 13; 184; 0; 0; 0; 0; 0; 0; 0; 0; 0; 0; 0; 1]) /\
  ParseIP "::" = Some (replicate 16 (to_byte 0)) /\ ParseIP "fe80::1%eth0" = None /\ ParseIP "1.2.3" = None /\
  ParseIP "01.2.3.4" = None /\ ParseIP "::ffff:1.2.3.4" = Some (v4InV6Prefix ++ (to_byte <$> [1; 2; 3; 4])) /\
  ParseIP "1::2::3" = None /\ ParseIP "1:2:3:4:5:6:7::" = Some (to_byte <$> [0;1;0;2;0;3;0;4;0;5;0;6;0;7;0;0]) /\ ParseIP "1:2:3:4:5:6:7:8:9" = None.
Proof. vm_compute. done. Qed.

(** ** Joining and splitting *)
Lemma chars_app s t : chars (s ++ t) = chars s ++ chars t.
Proof. unfold chars. induction s as [|c s IH]; [done|]. simpl. f_equal. exact IH. Qed.
Lemma text_chars s : text (chars s) = s.
Proof. apply String.string_of_list_ascii_of_string. Qed.
Lemma cut_last_none c l : c ∉ l -> cut_last c l = None.
Proof.
  induction l as [|x l IH]; intros Hc; [done|]. apply not_elem_of_cons in Hc as [Hx Hl]. cbn. rewrite (IH Hl), bool_decide_false; [done|congruence].
Qed.
Lemma cut_last_app c a b : c ∉ b -> cut_last c (a ++ c :: b) = Some (a, b).
Proof.
  intros Hb. induction a as [|x a IH]; cbn; [by rewrite (cut_last_none _ _ Hb), bool_decide_true|]. by rewrite IH.
Qed.
Lemma cut_app_first c a b : c ∉ a -> cut c (a ++ c :: b) = Some (a, b).
Proof.
  induction a as [|x a IH]; intros Ha; cbn; [by rewrite bool_decide_true|]. apply not_elem_of_cons in Ha as [Hx Ha].
  rewrite bool_decide_false by congruence. by rewrite (IH Ha).
Qed.
Lemma has_false c l : c ∉ l -> has c l = false.
Proof. intros Hc. by apply bool_decide_false. Qed.
Lemma contains_colon_has s : contains_colon s = has ":" (chars s).
Proof.
  induction s as [|c s IH]; [done|]. change (contains_colon (String c s)) with (bool_decide (c = ":"%char) || contains_colon s).
  change (chars (String c s)) with (c :: chars s). rewrite IH. unfold has. destruct (bool_decide_reflect (c = ":"%char)) as [->|Hne]; cbn [orb].
  - symmetry. apply bool_decide_true. left.
  - apply bool_decide_ext. rewrite elem_of_cons. naive_solver.
Qed.
(** The characters [net.SplitHostPort] gives a meaning to. *)
Definition plain_port (p : string) : Prop := ":"%char ∉ chars p /\ "["%char ∉ chars p /\ "]"%char ∉ chars p.
Definition bracket_free (h : string) : Prop := "["%char ∉ chars h /\ "]"%char ∉ chars h.
Lemma not_bracketed {A} (f g : list ascii -> A) l :
  "["%char ∉ l -> match l with "["%char :: inner => f inner | host => g host end = g l.
Proof. destruct l as [|c l]; [done|]. intros [Hc _]%not_elem_of_cons. by destruct c as [[] [] [] [] [] [] [] []]. Qed.
Lemma SplitHostPort_JoinHostPort h p : bracket_free h -> plain_port p -> SplitHostPort (JoinHostPort h p) = Some (h, p).
Proof.
  intros [H1 H2] (P1 & P2 & P3). unfold SplitHostPort, JoinHostPort. rewrite contains_colon_has. destruct (has ":" (chars h)) eqn:E.
  - assert (chars ("[" ++ h ++ "]:" ++ p) = ("["%char :: chars h ++ ["]"%char]) ++ ":"%char :: chars p) as ->.
    { rewrite !chars_app. cbn. by rewrite <- app_assoc. }
    rewrite cut_last_app by done. cbn [app]. rewrite (cut_app_first _ (chars h) []) by done. rewrite !has_false by done. cbn [orb]. by rewrite !text_chars.
  - assert (chars (h ++ ":" ++ p) = chars h ++ ":"%char :: chars p) as -> by (by rewrite !chars_app).
    rewrite cut_last_app by done.
    etrans; [refine (not_bracketed _ (fun host => if has ":" host || has "[" host || has "]" host || has "[" (chars p) || has "]" (chars p) then None
      else Some (text host, text (chars p))) (chars h) H1)|]. rewrite E, !has_false by done. cbn [orb]. by rewrite !text_chars.
Qed.
Lemma digits_chars s c : all_digits s = true -> c ∈ chars s -> is_digit c = true.
Proof.
  induction s as [|x s IH]; [by intros _ ?%elem_of_nil|]. change (all_digits (String x s)) with (is_digit x && all_digits s). intros [Hx Hs]%andb_true_iff.
  change (chars (String x s)) with (x :: chars s). intros [->|?]%elem_of_cons; auto.
Qed.
Lemma plain_Itoa n : 0 <= n -> plain_port (Itoa n).
Proof. intros Hn%Itoa_digits. split_and!; intros Hc%(digits_chars _ _ Hn); done. Qed.
(** C38. The endpoint a listener reports has the port it was bound to, zero in the request
    included, the host of the request unless that is a wildcard, and nothing else changed. *)
Theorem boundEndpoint_bound e addr host port :
  Addr_String addr = Some (JoinHostPort host (Itoa port)) -> bracket_free host -> 0 <= port <= 65535 ->
  boundEndpoint e addr =
    {| ep_Scheme := ep_Scheme e;
       ep_Host := if bool_decide (ep_Host e ∈ [""; "0.0.0.0"; "::"]) then host else ep_Host e;
       ep_Port := port; ep_Path := ep_Path e; ep_RawQuery := ep_RawQuery e |}.
Proof.
  intros Ha Hh Hp. unfold boundEndpoint. rewrite Ha. change (default "" (Some ?x)) with x.
  rewrite SplitHostPort_JoinHostPort by (done || apply plain_Itoa; lia). rewrite ParseUint16_Itoa by done. f_equal.
  repeat case_bool_decide; set_solver.
Qed.
Lemma boundEndpoint_bound_witness :
  boundEndpoint {| ep_Scheme := SchemeTCP; ep_Host := "::"; ep_Port := 0; ep_Path := ""; ep_RawQuery := "" |} (StaticAddr "tcp" "[2001:db8::1]:9000")
  = {| ep_Scheme := SchemeTCP; ep_Host := "2001:db8::1"; ep_Port := 9000; ep_Path := ""; ep_RawQuery := "" |}.
Proof.
  refine (eq_trans (boundEndpoint_bound _ _ "2001:db8::1" 9000 _ _ _) _); [reflexivity| |lia|vm_compute; reflexivity].
  split; refine (bool_decide_eq_false_1 (_ ∈ _) _); vm_compute; reflexivity.
Defined.
