(* ===== verification/Url.v ===== *)
(** * Url: the text of endpoints

    [Parse] and [URL.String] of net/url as endpoint.go uses them, and the round trip of
    endpoints through their text.

    The two releases of Go the project is built with differ in one point: with more than one
    colon in a host without brackets, 1.25 takes the text after the last one for the port
    and 1.26 the text after the first; [strict] says which, and the theorems hold for both.
    Of the fields of [url.URL] those that endpoint.go does not read (Opaque, RawPath,
    ForceQuery, OmitHost, RawFragment) are left out. *)
From Stdlib Require Import Ascii.
From S2P Require Import Prelude Kinds Errors Endpoint NetAddr HostPort.
Local Open Scope go_scope.
Local Open Scope string_scope.
Local Open Scope list_scope.
Local Open Scope Z_scope.

(** ** Percent encoding *)
Inductive encoding := encodePath | encodeHost | encodeZone | encodeUserPassword | encodeFragment.
#[global] Instance encoding_eq_dec : EqDecision encoding.
Proof. solve_decision. Defined.
Definition code (c : ascii) : Z := Z.of_nat (nat_of_ascii c).
Definition is_letter (c : ascii) : bool :=
  (97 <=? code c) && (code c <=? 122) || (65 <=? code c) && (code c <=? 90).
Definition among (s : string) (c : ascii) : bool := has c (chars s).
Definition quote : ascii := ascii_of_nat 34.
Definition host_mode (mode : encoding) : bool := match mode with encodeHost | encodeZone => true | _ => false end.
Definition shouldEscape (c : ascii) (mode : encoding) : bool :=
  if is_letter c || is_digit c then false
  else if host_mode mode && (among "!$&'()*+,;=:[]<>" c || bool_decide (c = quote)) then false
  else if among "-_.~" c then false
  else if among "$&+,/:;=?@" c
  then match mode with
       | encodePath => bool_decide (c = "?"%char)
       | encodeUserPassword => among "@/?:" c
       | encodeFragment => false
       | encodeHost | encodeZone => true
       end
  else match mode with encodeFragment => negb (among "!()*" c) | _ => true end.

Definition hex_digit (n : Z) : ascii := ascii_of_nat (Z.to_nat (if n <? 10 then 48 + n else 55 + n)).
Definition escape_char (mode : encoding) (c : ascii) : list ascii :=
  if shouldEscape c mode then ["%"%char; hex_digit (code c / 16); hex_digit (code c `mod` 16)] else [c].
Definition escape (mode : encoding) (l : list ascii) : list ascii := l ≫= escape_char mode.
(** The escape [%xy] is allowed in this part of a URL. *)
Definition allowed (mode : encoding) (x y : Z) : bool :=
  let v := x * 16 + y in
  match mode with
  | encodeHost => negb (x <? 8) || (v =? 37)
  | encodeZone => (v =? 37) || (v =? 32) || negb (shouldEscape (ascii_of_nat (Z.to_nat v)) encodeHost)
  | _ => true
  end.
Fixpoint unescape (mode : encoding) (l : list ascii) : option (list ascii) :=
  match l with
  | [] => Some []
  | c :: l' =>
      if bool_decide (c = "%"%char) then
        match l' with
        | a :: b :: rest =>
            match hex_value a, hex_value b with
            | Some x, Some y =>
                if allowed mode x y then option_map (cons (ascii_of_nat (Z.to_nat (x * 16 + y)))) (unescape mode rest) else None
            | _, _ => None
            end
        | _ => None
        end
      else if host_mode mode && (code c <? 128) && shouldEscape c mode then None
      else option_map (cons c) (unescape mode l')
  end.

(** ** Parse *)
Section parse.
Context (strict : bool).

Definition is_ctl (c : ascii) : bool := (code c <? 32) || (code c =? 127).
(** [Some None]: no scheme; [None]: an error. *)
Fixpoint scheme_loop (first : bool) (l : list ascii) : option (option (list ascii * list ascii)) :=
  match l with
  | [] => Some None
  | c :: l =>
      let next := match scheme_loop false l with
                  | Some (Some (s, rest)) => Some (Some (c :: s, rest))
                  | r => r
                  end in
      if is_letter c then next
      else if is_digit c || among "+-." c then if first then Some None else next
      else if bool_decide (c = ":"%char) then if first then None else Some (Some ([], l))
      else Some None
  end.
Definition getScheme (raw : list ascii) : option (list ascii * list ascii) :=
  match scheme_loop true raw with
  | None => None
  | Some None => Some ([], raw)
  | Some (Some p) => Some p
  end.

(** [strings.Cut]: before and after; [strings.Index] of a text. *)
Definition Cut (c : ascii) (l : list ascii) : list ascii * list ascii := default (l, []) (cut c l).
Fixpoint index_text (t l : list ascii) : option (list ascii * list ascii) :=
  if bool_decide (take (length t) l = t) then Some ([], l)
  else match l with
       | [] => None
       | c :: l => match index_text t l with Some (a, b) => Some (c :: a, b) | None => None end
       end.
Definition validOptionalPort (port : list ascii) : bool :=
  match port with
  | [] => true
  | c :: digits => bool_decide (c = ":"%char) && forallb is_digit digits
  end.
(** [netip.ParseAddr] gives an IPv6 address, with or without a zone. *)
Definition is_ipv6 (l : list ascii) : bool :=
  bool_decide (ip_kind l = Some ":"%char) &&
  match cut "%" l with
  | Some (addr, zone) => negb (bool_decide (zone = [])) && bool_decide (is_Some (parseIPv6 addr))
  | None => bool_decide (is_Some (parseIPv6 l))
  end.
Definition bracketed (hostname : list ascii) : option (list ascii) :=
  match index_text (chars "%25") hostname with
  | Some (addr, zone) =>
      match unescape encodeHost addr, unescape encodeZone zone with
      | Some addr, Some zone => Some (addr ++ zone)
      | _, _ => None
      end
  | None => unescape encodeHost hostname
  end.
Definition parseHost (host : list ascii) : option (list ascii) :=
  match cut_last "[" host with
  | Some (_ :: _, _) => None
  | Some ([], inner) =>
      match cut_last "]" inner with
      | None => None
      | Some (hostname, colonPort) =>
          if negb (validOptionalPort colonPort) then None
          else match unescape encodeHost colonPort, bracketed hostname with
               | Some colonPort, Some name => if is_ipv6 name then Some ("["%char :: name ++ "]"%char :: colonPort) else None
               | _, _ => None
               end
      end
  | None =>
      match (if strict then cut ":" host else cut_last ":" host) with
      | Some (_, port) => if forallb is_digit port then unescape encodeHost host else None
      | None => unescape encodeHost host
      end
  end.
Definition validUserinfo (l : list ascii) : bool :=
  forallb (fun c => is_letter c || is_digit c || among "-._:~!$&'()*+,;=%@" c) l.
(** Whether there is user information, and the host. *)
Definition parseAuthority (authority : list ascii) : option (bool * list ascii) :=
  match cut_last "@" authority with
  | None => option_map (pair false) (parseHost authority)
  | Some (userinfo, host) =>
      match parseHost host with
      | None => None
      | Some host =>
          if negb (validUserinfo userinfo) then None
          else let '(username, password) := Cut ":" userinfo in
               match unescape encodeUserPassword username, unescape encodeUserPassword password with
               | Some _, Some _ => Some (true, host)
               | _, _ => None
               end
      end
  end.

Definition prefixed (t : string) (l : list ascii) : bool := bool_decide (take (length (chars t)) l = chars t).
Definition with_path (scheme : string) (user : bool) (host query rest : list ascii) : option url :=
  match unescape encodePath rest with
  | None => None
  | Some path => Some {| u_Scheme := scheme; u_User := user; u_Host := text host; u_Path := text path;
                         u_RawQuery := text query; u_Fragment := "" |}
  end.
(** The text up to the first slash, and the rest from it on. *)
Definition split_path (l : list ascii) : list ascii * list ascii :=
  match cut "/" l with Some (a, b) => (a, "/"%char :: b) | None => (l, []) end.
Definition parse (raw : list ascii) : option url :=
  if existsb is_ctl raw then None
  else if bool_decide (raw = ["*"%char]) then with_path "" false [] [] raw
  else
    match getScheme raw with
    | None => None
    | Some (scheme, rest) =>
        let scheme := ToLower (text scheme) in
        let '(rest, query) := Cut "?" rest in
        if negb (prefixed "/" rest) && negb (bool_decide (scheme = "")) then with_path scheme false [] query []   (* Opaque *)
        else if negb (prefixed "/" rest) && has ":" (Cut "/" rest).1 then None
        else if (negb (bool_decide (scheme = "")) || negb (prefixed "///" rest)) && prefixed "//" rest then
          let '(authority, rest) := split_path (drop 2 rest) in
          match parseAuthority authority with
          | None => None
          | Some (user, host) => with_path scheme user host query rest
          end
        else with_path scheme false [] query rest
    end.
Definition parse_error : error := Foreign {| f_id := 40; f_type := FOther; f_timeout := None |} [].
Definition url_Parse (raw : string) : result url :=
  let '(u, frag) := Cut "#" (chars raw) in
  match parse u with
  | None => inr parse_error
  | Some u =>
      match frag with
      | [] => inl u
      | _ => match unescape encodeFragment frag with
             | None => inr parse_error
             | Some f => inl {| u_Scheme := u_Scheme u; u_User := u_User u; u_Host := u_Host u; u_Path := u_Path u;
                                u_RawQuery := u_RawQuery u; u_Fragment := text f |}
             end
      end
  end.
End parse.

(** ** String *)
Definition EscapedPath (path : list ascii) : list ascii :=
  if bool_decide (path = ["*"%char]) then path else escape encodePath path.
(** Of a URL with a scheme and a host, and without user information and fragment, as
    [Endpoint.URL] makes them. *)
Definition url_String (u : url) : string :=
  let path := EscapedPath (chars (u_Path u)) in
  text (chars (u_Scheme u) ++ chars "://" ++ escape encodeHost (chars (u_Host u)) ++
        (match path with [] => [] | c :: _ => if bool_decide (c = "/"%char) then path else "/"%char :: path end) ++
        (if bool_decide (u_RawQuery u = "") then [] else "?"%char :: chars (u_RawQuery u))).

(** The examples of endpoint_test.go. *)
Example url_texts strict :
  ParseEndpoint (url_Parse strict) "tcp://127.0.0.1:9000" =
    inl {| ep_Scheme := SchemeTCP; ep_Host := "127.0.0.1"; ep_Port := 9000; ep_Path := ""; ep_RawQuery := "" |} /\
  ParseEndpoint (url_Parse strict) "udp://:9001" =
    inl {| ep_Scheme := SchemeUDP; ep_Host := ""; ep_Port := 9001; ep_Path := ""; ep_RawQuery := "" |} /\
  ParseEndpoint (url_Parse strict) "tls://example.com" =
    inl {| ep_Scheme := SchemeTLS; ep_Host := "example.com"; ep_Port := 443; ep_Path := ""; ep_RawQuery := "" |} /\
  ParseEndpoint (url_Parse strict) "wss://example.com/realtime?token=x" =
    inl {| ep_Scheme := SchemeWSS; ep_Host := "example.com"; ep_Port := 443; ep_Path := "/realtime"; ep_RawQuery := "token=x" |} /\
  ParseEndpoint (url_Parse strict) "tcp://127.0.0.1:1/path" = inr (Sentinel ErrUnexpectedPath) /\
  ParseEndpoint (url_Parse strict) "ws://[fe80::1%25eth0]/a%20b" =
    inl {| ep_Scheme := SchemeWS; ep_Host := "fe80::1%eth0"; ep_Port := 80; ep_Path := "/a b"; ep_RawQuery := "" |} /\
  ParseEndpoint (url_Parse strict) "ws://user@host/x" = inr (Sentinel ErrInvalidEndpoint) /\
  ParseEndpoint (url_Parse strict) "ws://[1.2.3.4]/x" = inr (Errorf "" ErrInvalidEndpoint).
Proof. destruct strict; vm_compute; done. Qed.

(** ** Escaping and unescaping *)
(** A boolean property of characters, checked on all of them. *)
Lemma every_ascii (P : ascii -> bool) : forallb P (ascii_of_nat <$> seq 0 256) = true -> forall c, P c = true.
Proof.
  intros HP c. apply (proj1 (forallb_forall _ _) HP). rewrite <- (ascii_nat_embedding c).
  apply list_elem_of_In, list_elem_of_fmap_2, elem_of_seq. pose proof (nat_ascii_bounded c). lia.
Qed.
Ltac not_in := refine (bool_decide_eq_false_1 (_ ∈ _) _); vm_compute; reflexivity.
Ltac ascii_cases := apply (every_ascii _); vm_compute; reflexivity.
Lemma hex_char c :
  hex_value (hex_digit (code c / 16)) = Some (code c / 16) /\ hex_value (hex_digit (code c `mod` 16)) = Some (code c `mod` 16) /\
  ascii_of_nat (Z.to_nat (code c / 16 * 16 + code c `mod` 16)) = c.
Proof.
  assert (bool_decide (hex_value (hex_digit (code c / 16)) = Some (code c / 16)) &&
          bool_decide (hex_value (hex_digit (code c `mod` 16)) = Some (code c `mod` 16)) &&
          bool_decide (ascii_of_nat (Z.to_nat (code c / 16 * 16 + code c `mod` 16)) = c) = true) as H.
  { revert c. ascii_cases. }
  apply andb_prop in H as [[H1 H2]%andb_prop H3]. by apply bool_decide_eq_true in H1, H2, H3.
Qed.
(** [c], escaped for [m1], is read back for [m2]. *)
Definition passes (m1 m2 : encoding) (c : ascii) : bool :=
  if shouldEscape c m1 then allowed m2 (code c / 16) (code c `mod` 16)
  else negb (bool_decide (c = "%"%char)) && negb (host_mode m2 && (code c <? 128) && shouldEscape c m2).
Lemma unescape_escape m1 m2 l rest :
  forallb (passes m1 m2) l = true -> unescape m2 (escape m1 l ++ rest) = option_map (app l) (unescape m2 rest).
Proof.
  induction l as [|c l IH]; intros Hl; [cbn; by destruct (unescape m2 rest)|]. apply andb_prop in Hl as [Hc Hl].
  unfold escape. rewrite bind_cons, <- app_assoc. fold (escape m1 l). unfold escape_char, passes in *. destruct (shouldEscape c m1).
  - destruct (hex_char c) as (E1 & E2 & E3). cbn [app unescape]. rewrite bool_decide_true, E1, E2, Hc, E3, (IH Hl) by done.
    by destruct (unescape m2 rest).
  - apply andb_prop in Hc as [Hp Hs]. apply negb_true_iff in Hp, Hs. cbn [app unescape]. rewrite Hp, Hs, (IH Hl).
    by destruct (unescape m2 rest).
Qed.
Lemma unescape_escape_all m1 m2 l : forallb (passes m1 m2) l = true -> unescape m2 (escape m1 l) = Some l.
Proof. intros Hl. rewrite <- (app_nil_r (escape m1 l)), unescape_escape by done. cbn. by rewrite app_nil_r. Qed.
(** A path is read back whatever bytes it has. *)
Lemma unescape_path l : unescape encodePath (escape encodePath l) = Some l.
Proof. apply unescape_escape_all, forallb_forall. intros c _. revert c. ascii_cases. Qed.

Lemma escape_app m l l' : escape m (l ++ l') = escape m l ++ escape m l'.
Proof. apply bind_app. Qed.
Lemma escape_id m l : forallb (fun c => negb (shouldEscape c m)) l = true -> escape m l = l.
Proof.
  induction l as [|c l IH]; [done|]. intros [Hc%negb_true_iff Hl]%andb_prop. unfold escape. rewrite bind_cons.
  fold (escape m l). unfold escape_char. by rewrite Hc, (IH Hl).
Qed.
(** What is in an escaped text. *)
Lemma escaped_char m c : forallb (fun x => negb (shouldEscape x m) || bool_decide (x = "%"%char)) (escape_char m c) = true.
Proof. revert c. destruct m; ascii_cases. Qed.
Lemma elem_of_escape m l x : x ∈ escape m l -> shouldEscape x m = false \/ x = "%"%char.
Proof.
  intros (c & Hx & Hc)%list_elem_of_bind. pose proof (escaped_char m c) as H. rewrite forallb_forall in H.
  specialize (H x (proj1 (list_elem_of_In _ _) Hx)). apply orb_prop in H as [H%negb_true_iff|H%bool_decide_eq_true]; auto.
Qed.
Lemma not_escaped m l x : shouldEscape x m = true -> x <> "%"%char -> x ∉ escape m l.
Proof. intros Hs Hp [?|?]%elem_of_escape; congruence. Qed.
(** A character that is not made by escaping was there before. *)
Lemma escape_keeps m l x :
  x <> "%"%char -> hex_value x = None -> x ∉ l -> x ∉ escape m l.
Proof.
  intros Hp Hh Hx (c & Hc & Hl)%list_elem_of_bind. unfold escape_char in Hc. destruct (hex_char c) as (E1 & E2 & _).
  destruct (shouldEscape c m); [|apply list_elem_of_singleton in Hc; congruence].
  repeat (apply elem_of_cons in Hc as [->|Hc]; [congruence|]). by apply elem_of_nil in Hc.
Qed.

(** ** Hosts *)
(** What a host may be made of: of a name, of an IPv6 address, of its zone. *)
Definition name_char (c : ascii) : bool :=
  ((128 <=? code c) || bool_decide (c = "%"%char) || negb (shouldEscape c encodeHost)) && negb (among "[:" c).
Definition addr_char (c : ascii) : bool := negb (shouldEscape c encodeHost) && negb (among "[" c).
Definition zone_char (c : ascii) : bool := addr_char c || among " %" c.
(** A name or an IPv4 address, or an IPv6 address with or without a zone. *)
Definition printable_host (h : string) : bool :=
  if contains_colon h then
    is_ipv6 (chars h) && (let '(addr, zone) := Cut "%" (chars h) in forallb addr_char addr && forallb zone_char zone)
  else forallb name_char (chars h).

Lemma forallb_weaken {A} (P Q : A -> bool) l :
  (forall x, implb (P x) (Q x) = true) -> forallb P l = true -> forallb Q l = true.
Proof.
  rewrite !forallb_forall. intros HPQ HP x Hx. specialize (HP x Hx). specialize (HPQ x). rewrite HP in HPQ. done.
Qed.
Lemma name_passes c : implb (name_char c) (passes encodeHost encodeHost c) = true.
Proof. revert c. ascii_cases. Qed.
Lemma addr_passes c : implb (addr_char c) (passes encodeHost encodeHost c) = true.
Proof. revert c. ascii_cases. Qed.
Lemma zone_passes c : implb (zone_char c) (passes encodeHost encodeZone c) = true.
Proof. revert c. ascii_cases. Qed.
Lemma not_among (P : ascii -> bool) x l : forallb P l = true -> P x = false -> x ∉ l.
Proof. rewrite forallb_forall. intros Hl Hx Hin. rewrite (Hl x (proj1 (list_elem_of_In _ _) Hin)) in Hx. done. Qed.

(** The port after a host, with its colon. *)
Definition port_text (p : string) : list ascii := if bool_decide (p = "") then [] else ":"%char :: chars p.
Lemma port_digits p : all_digits p = true -> forallb is_digit (chars p) = true.
Proof. induction p as [|c p IH]; [done|]. cbn. intros [-> ?]%andb_prop. by apply IH. Qed.
Lemma digit_plain c : implb (is_digit c) (negb (shouldEscape c encodeHost) && passes encodeHost encodeHost c) = true.
Proof. revert c. ascii_cases. Qed.
Lemma port_text_ok p : all_digits p = true ->
  escape encodeHost (port_text p) = port_text p /\ forallb (passes encodeHost encodeHost) (port_text p) = true /\
  validOptionalPort (port_text p) = true /\ "["%char ∉ port_text p /\ "]"%char ∉ port_text p.
Proof.
  intros Hp%port_digits. unfold port_text. destruct (bool_decide (p = "")); [split_and!; try done; by intros ?%elem_of_nil|].
  split_and!.
  - apply escape_id. apply andb_true_intro. split; [done|]. revert Hp. apply forallb_weaken. intros x. pose proof (digit_plain x). by destruct (is_digit x), (shouldEscape x encodeHost).
  - apply andb_true_intro. split; [done|]. revert Hp. apply forallb_weaken. intros x. pose proof (digit_plain x) as H. by destruct (is_digit x), (shouldEscape x encodeHost), (passes encodeHost encodeHost x).
  - done.
  - apply not_elem_of_cons. split; [done|]. by eapply not_among.
  - apply not_elem_of_cons. split; [done|]. by eapply not_among.
Qed.

Lemma cut_absent c l : c ∉ l -> cut c l = None.
Proof.
  induction l as [|x l IH]; intros Hc; [done|]. apply not_elem_of_cons in Hc as [Hx Hl]. cbn. by rewrite bool_decide_false, (IH Hl) by congruence.
Qed.
Lemma cut_spec c l a b : cut c l = Some (a, b) -> l = a ++ c :: b /\ c ∉ a.
Proof.
  revert a b. induction l as [|x l IH]; intros a b; [done|]. cbn. case_bool_decide as E.
  - intros [= <- <-]. subst. split; [done|]. apply not_elem_of_nil.
  - destruct (cut c l) as [[a' b']|]; [|done]. intros [= <- <-]. destruct (IH a' b' eq_refl) as [-> Hc]. split; [done|].
    apply not_elem_of_cons. by split; [congruence|].
Qed.
Lemma cut_absent_inv c l : cut c l = None -> c ∉ l.
Proof.
  induction l as [|x l IH]; [intros _; apply not_elem_of_nil|]. cbn. case_bool_decide as E; [done|]. destruct (cut c l) as [[]|]; [done|].
  intros _. apply not_elem_of_cons. split; [congruence|auto].
Qed.
Lemma index_text_none c t l : c ∉ l -> index_text (c :: t) l = None.
Proof.
  induction l as [|x l IH]; intros Hc; cbn; [done|]. apply not_elem_of_cons in Hc as [Hx Hl].
  rewrite bool_decide_false, (IH Hl) by congruence. done.
Qed.
Lemma index_text_first c t a b : c ∉ a -> index_text (c :: t) (a ++ (c :: t) ++ b) = Some (a, (c :: t) ++ b).
Proof.
  induction a as [|x a IH]; intros Hc.
  - cbn [app]. cbn [index_text length take]. rewrite take_app_length, bool_decide_true by done. done.
  - apply not_elem_of_cons in Hc as [Hx Ha]. specialize (IH Ha). cbn [app] in *. cbn [index_text length take] in *.
    rewrite bool_decide_false by congruence. by rewrite IH.
Qed.

Section hosts.
Context (strict : bool).
Lemma parse_name h p :
  forallb name_char h = true -> all_digits p = true ->
  parseHost strict (escape encodeHost (h ++ port_text p)) = Some (h ++ port_text p).
Proof.
  intros Hh Hp. destruct (port_text_ok p Hp) as (Ee & Epp & _ & Hb & _). unfold parseHost.
  assert (forallb (passes encodeHost encodeHost) (h ++ port_text p) = true) as Hpass.
  { rewrite forallb_app. apply andb_true_intro. split; [|done]. revert Hh. apply forallb_weaken, name_passes. }
  rewrite cut_last_none.
  2:{ apply escape_keeps; [done..|]. apply not_elem_of_app. split; [by eapply not_among|done]. }
  rewrite (unescape_escape_all _ _ _ Hpass), escape_app, Ee.
  assert (":"%char ∉ escape encodeHost h) as Hc by (apply escape_keeps; [done..|]; by eapply not_among).
  unfold port_text in *. destruct (bool_decide (p = "")) eqn:E.
  - rewrite app_nil_r. rewrite cut_absent, cut_last_none by done. by destruct strict.
  - rewrite cut_app_first by done. rewrite cut_last_app.
    2:{ by eapply not_among; [apply port_digits|]. }
    destruct strict; by rewrite (port_digits p Hp).
Qed.
Lemma bracketed_literal h addr zone :
  Cut "%" h = (addr, zone) -> is_ipv6 h = true -> forallb addr_char addr = true -> forallb zone_char zone = true ->
  bracketed (escape encodeHost h) = Some h.
Proof.
  intros Ec Hv Ha Hz. assert (escape encodeHost addr = addr) as Eid.
  { apply escape_id. revert Ha. apply forallb_weaken. intros x. unfold addr_char. by destruct (shouldEscape x encodeHost), (among "[" x). }
  assert ("%"%char ∉ addr) as Hp by (by eapply not_among).
  assert (unescape encodeHost addr = Some addr) as Eu.
  { rewrite <- Eid at 1. apply unescape_escape_all. revert Ha. apply forallb_weaken, addr_passes. }
  unfold Cut in Ec. destruct (cut "%" h) as [[a z]|] eqn:E; cbn in Ec; simplify_eq.
  - apply cut_spec in E as [-> _]. rewrite escape_app, Eid. unfold bracketed.
    change (escape encodeHost ("%"%char :: zone)) with (chars "%25" ++ escape encodeHost zone).
    change (chars "%25") with ("%"%char :: ["2"%char; "5"%char]). rewrite index_text_first by done. rewrite Eu.
    change (("%"%char :: ["2"%char; "5"%char]) ++ escape encodeHost zone) with (escape encodeHost ["%"%char] ++ escape encodeHost zone).
    rewrite unescape_escape, unescape_escape_all; [done| |done]. revert Hz. apply forallb_weaken, zone_passes.
  - rewrite Eid. unfold bracketed. change (chars "%25") with ("%"%char :: ["2"%char; "5"%char]). by rewrite index_text_none.
Qed.
Lemma parse_literal h p addr zone :
  Cut "%" h = (addr, zone) -> is_ipv6 h = true -> forallb addr_char addr = true -> forallb zone_char zone = true ->
  all_digits p = true ->
  parseHost strict (escape encodeHost ("["%char :: h ++ "]"%char :: port_text p)) = Some ("["%char :: h ++ "]"%char :: port_text p).
Proof.
  intros Ec Hv Ha Hz Hp. destruct (port_text_ok p Hp) as (Ee & Epp & Evo & Hb & Hb').
  assert (escape encodeHost ("["%char :: h ++ "]"%char :: port_text p) = "["%char :: escape encodeHost h ++ "]"%char :: port_text p) as ->.
  { change ("["%char :: h ++ "]"%char :: port_text p) with (["["%char] ++ h ++ ["]"%char] ++ port_text p). by rewrite !escape_app, Ee. }
  assert ("["%char ∉ h) as Hh.
  { assert ("["%char ∉ addr) by (by eapply not_among). assert ("["%char ∉ zone) by (by eapply not_among).
    unfold Cut in Ec. destruct (cut "%" h) as [[a z]|] eqn:E; cbn in Ec; simplify_eq; [|done].
    apply cut_spec in E as [-> _]. set_solver. }
  assert (cut_last "[" ("["%char :: escape encodeHost h ++ "]"%char :: port_text p) = Some ([], escape encodeHost h ++ "]"%char :: port_text p)) as Eb.
  { apply (cut_last_app "[" []), not_elem_of_app. split; [by apply escape_keeps|]. by apply not_elem_of_cons. }
  unfold parseHost. rewrite Eb.
  rewrite cut_last_app by done. rewrite Evo. cbn [negb].
  rewrite <- Ee, (unescape_escape_all _ _ _ Epp), Ee, (bracketed_literal h addr zone) by done. by rewrite Hv.
Qed.
End hosts.

(** ** Endpoints *)
(** A path that starts with a slash, or none, and a query a URL can carry. *)
Definition printable (e : Endpoint) : bool :=
  printable_host (ep_Host e) && (bool_decide (ep_Path e = "") || prefixed "/" (chars (ep_Path e))) &&
  forallb (fun c => negb (is_ctl c) && negb (bool_decide (c = "#"%char))) (chars (ep_RawQuery e)).

Lemma chars_text l : chars (text l) = l.
Proof. apply String.list_ascii_of_string_of_list_ascii. Qed.
Lemma chars_nil s : chars s = [] -> s = "".
Proof. by destruct s. Qed.
(** The host of an endpoint's URL, as a name or a literal with a port. *)
Lemma url_host e :
  0 <= ep_Port e ->
  let p := if port_printed e then Itoa (ep_Port e) else "" in
  all_digits p = true /\
  chars (u_Host (endpoint_url e)) =
    if contains_colon (ep_Host e) then "["%char :: chars (ep_Host e) ++ "]"%char :: port_text p
    else chars (ep_Host e) ++ port_text p.
Proof.
  intros Hp p. split; [unfold p; destruct (port_printed e); [by apply Itoa_digits|done]|].
  unfold endpoint_url, p, port_printed, Address, JoinHostPort, port_text. cbn [u_Host]. destruct (_ && _); cbn [negb].
  - rewrite bool_decide_true by done. destruct (contains_colon _); [by rewrite !chars_app|by rewrite app_nil_r].
  - destruct (itoa_loop_nonempty 20 (ep_Port e) "" ltac:(lia)) as (c & r & E). fold (Itoa (ep_Port e)) in E.
    rewrite bool_decide_false by by rewrite E.
    destruct (contains_colon _); rewrite !chars_app; [|done]. done.
Qed.
Section endpoints.
Context (strict : bool).
Lemma parse_host_printed e :
  0 <= ep_Port e -> printable_host (ep_Host e) = true ->
  parseHost strict (escape encodeHost (chars (u_Host (endpoint_url e)))) = Some (chars (u_Host (endpoint_url e))).
Proof.
  intros Hp Hh. destruct (url_host e Hp) as [Hd ->]. unfold printable_host in Hh. destruct (contains_colon (ep_Host e)).
  - destruct (Cut "%" (chars (ep_Host e))) as [addr zone] eqn:Ec. apply andb_prop in Hh as [Hv [Ha Hz]%andb_prop]. by eapply parse_literal.
  - by apply parse_name.
Qed.
Lemma parse_authority_printed e :
  0 <= ep_Port e -> printable_host (ep_Host e) = true ->
  parseAuthority strict (escape encodeHost (chars (u_Host (endpoint_url e)))) = Some (false, chars (u_Host (endpoint_url e))).
Proof.
  intros Hp Hh. unfold parseAuthority. rewrite cut_last_none by (by apply not_escaped). by rewrite parse_host_printed.
Qed.

(** The printed path: nothing, or a slash and more. *)
Lemma printed_path path :
  bool_decide (path = "") || prefixed "/" (chars path) = true ->
  match EscapedPath (chars path) with
  | [] => []
  | c :: _ => if bool_decide (c = "/"%char) then EscapedPath (chars path) else "/"%char :: EscapedPath (chars path)
  end = escape encodePath (chars path) /\
  (escape encodePath (chars path) = [] \/ exists p, escape encodePath (chars path) = "/"%char :: p).
Proof.
  intros [->%bool_decide_eq_true|Hp]%orb_prop; [split; [done|by left]|].
  unfold prefixed in Hp. destruct (chars path) as [|c p]; [done|]. cbn in Hp. apply bool_decide_eq_true in Hp. injection Hp as ->.
  unfold EscapedPath. rewrite bool_decide_false by done.
  change (escape encodePath ("/"%char :: p)) with ("/"%char :: escape encodePath p). split; [done|]. right. by eexists.
Qed.
Lemma ctl_escaped c : implb (is_ctl c) (shouldEscape c encodeHost && shouldEscape c encodePath && negb (bool_decide (c = "%"%char))) = true.
Proof. revert c. ascii_cases. Qed.
Lemma no_ctl m l : m = encodeHost \/ m = encodePath -> existsb is_ctl (escape m l) = false.
Proof.
  intros Hm. apply not_true_iff_false. intros (c & Hin%list_elem_of_In & Hc)%existsb_exists. pose proof (ctl_escaped c) as H. rewrite Hc in H.
  apply andb_prop in H as [[H1 H2]%andb_prop H3%negb_true_iff%bool_decide_eq_false].
  revert Hin. apply not_escaped; [|done]. by destruct Hm as [->| ->].
Qed.
(** [parse] on the parts of a URL. *)
Definition query_text (q : string) : list ascii := if bool_decide (q = "") then [] else "?"%char :: chars q.
Lemma cut_query l q : "?"%char ∉ l -> Cut "?" (l ++ query_text q) = (l, chars q).
Proof.
  intros Hl. unfold Cut, query_text. case_bool_decide as E.
  - subst. by rewrite app_nil_r, cut_absent.
  - by rewrite cut_app_first.
Qed.
Lemma split_authority H P : "/"%char ∉ H -> P = [] \/ (exists p, P = "/"%char :: p) -> split_path (H ++ P) = (H, P).
Proof.
  intros HH [->|[p ->]]; unfold split_path; [by rewrite app_nil_r, cut_absent|]. by rewrite cut_app_first.
Qed.
Lemma parse_parts s H P q host path :
  IsSession s || IsPacket s = true -> "?"%char ∉ H -> "/"%char ∉ H -> "?"%char ∉ P -> P = [] \/ (exists p, P = "/"%char :: p) ->
  parseAuthority strict H = Some (false, host) -> unescape encodePath P = Some path ->
  existsb is_ctl (H ++ P ++ query_text q) = false ->
  parse strict (chars (Scheme_String s) ++ chars "://" ++ H ++ P ++ query_text q) =
    Some {| u_Scheme := Scheme_String s; u_User := false; u_Host := text host; u_Path := text path; u_RawQuery := q; u_Fragment := "" |}.
Proof.
  intros Hs HqH HsH HqP HP HA HU Hctl. unfold parse.
  assert (existsb is_ctl (chars (Scheme_String s) ++ chars "://" ++ H ++ P ++ query_text q) = false) as ->.
  { rewrite !existsb_app in *. rewrite Hctl. by destruct s. }
  rewrite bool_decide_false by by destruct s.
  assert (getScheme (chars (Scheme_String s) ++ chars "://" ++ H ++ P ++ query_text q) =
    Some (chars (Scheme_String s), (["/"%char; "/"%char] ++ H ++ P) ++ query_text q)) as ->.
  { rewrite <- app_assoc, <- app_assoc. by destruct s. }
  rewrite cut_query.
  2:{ rewrite !not_elem_of_app. split_and!; [|done..]. not_in. }
  assert (ToLower (text (chars (Scheme_String s))) = Scheme_String s) as -> by by destruct s.
  cbn [app]. change (prefixed "/" ("/"%char :: _)) with true. change (prefixed "//" ("/"%char :: "/"%char :: _)) with true.
  assert (bool_decide (Scheme_String s = "") = false) as -> by by destruct s. cbn [negb orb andb]. change (drop 2 ("/"%char :: "/"%char :: ?l)) with l.
  rewrite split_authority by done. rewrite HA. unfold with_path. by rewrite HU, text_chars.
Qed.
(** [net/url] reads back the URL of an endpoint. *)
Lemma parse_printed (e : Endpoint) :
  Endpoint_Validate e = None -> 0 <= ep_Port e -> printable e = true ->
  url_Parse strict (url_String (endpoint_url e)) = inl (endpoint_url e).
Proof.
  intros HV Hp [[Hh Hpath]%andb_prop Hq]%andb_prop.
  pose proof (Validate_ws_path e HV) as Hws. pose proof (Validate_scheme e HV) as HS.
  destruct (printed_path _ Hpath) as [EP HP]. pose proof (parse_authority_printed e Hp Hh) as HA.
  assert (endpoint_url e = {| u_Scheme := Scheme_String (ep_Scheme e); u_User := false; u_Host := text (chars (u_Host (endpoint_url e)));
    u_Path := text (chars (ep_Path e)); u_RawQuery := ep_RawQuery e; u_Fragment := "" |}) as Eu.
  { rewrite !text_chars. unfold endpoint_url. by rewrite Hws. }
  set (H := escape encodeHost (chars (u_Host (endpoint_url e)))) in *. set (P := escape encodePath (chars (ep_Path e))) in *.
  assert (url_String (endpoint_url e) = text (chars (Scheme_String (ep_Scheme e)) ++ chars "://" ++ H ++ P ++ query_text (ep_RawQuery e))) as ->.
  { unfold url_String. rewrite <- EP. unfold H, endpoint_url. rewrite Hws. done. }
  assert ("#"%char ∉ query_text (ep_RawQuery e) /\ existsb is_ctl (query_text (ep_RawQuery e)) = false) as [Hf Hctl].
  { unfold query_text. destruct (bool_decide (ep_RawQuery e = "")); [split; [apply not_elem_of_nil|done]|]. split.
    - apply not_elem_of_cons. split; [done|]. by eapply not_among.
    - cbn. apply not_true_iff_false. intros (c & Hin & Hc)%existsb_exists. rewrite forallb_forall in Hq. specialize (Hq c Hin). by rewrite Hc in Hq. }
  unfold url_Parse. rewrite chars_text. unfold Cut at 1. rewrite cut_absent.
  2:{ rewrite !not_elem_of_app. split_and!; [destruct (ep_Scheme e); not_in|not_in| | |done];
      by apply not_escaped. }
  cbn [from_option id]. rewrite (parse_parts _ H P _ (chars (u_Host (endpoint_url e))) (chars (ep_Path e))); [by rewrite <- Eu|done|by apply not_escaped|by apply not_escaped|by apply not_escaped|done|done|apply unescape_path|].
  rewrite !existsb_app, Hctl. unfold H, P. by rewrite !no_ctl by auto.
Qed.
End endpoints.

Lemma printable_plain h : printable_host h = true -> plain_host h = true.
Proof.
  intros Hh. assert ("["%char ∉ chars h) as Hb; [|destruct h as [|c h]; [done|]; cbn in *; apply not_elem_of_cons in Hb as [Hc _]; by rewrite bool_decide_false by congruence].
  unfold printable_host in Hh. destruct (contains_colon h); [|by eapply not_among].
  apply andb_prop in Hh as [_ Hh]. unfold Cut in Hh. destruct (cut "%" (chars h)) as [[a z]|] eqn:E; cbn in Hh; apply andb_prop in Hh as [Ha Hz].
  - apply cut_spec in E as [-> _]. assert ("["%char ∉ a) by (by eapply not_among). assert ("["%char ∉ z) by (by eapply not_among). set_solver.
  - by eapply not_among.
Qed.
(** The port of a TCP or UDP endpoint that asks for any port on a named host. *)
Definition drops_port (e : Endpoint) : bool :=
  (IsPacket (ep_Scheme e) || bool_decide (ep_Scheme e = SchemeTCP)) && negb (bool_decide (ep_Host e = "")) && (ep_Port e =? 0).
(** C34. Printing a valid endpoint and parsing the text gives the endpoint back, for every
    scheme, every 16-bit port, a host that is empty, a name, an IPv4 address or an IPv6
    address with or without a zone, any path that starts with a slash whatever its bytes, and
    any query without a control character and '#' ([printable]); except that the port zero
    of a TCP or UDP endpoint with a host is not printed, and the text is then refused. *)
Theorem ParseEndpoint_URL_roundtrip strict e :
  Endpoint_Validate e = None -> 0 <= ep_Port e <= 65535 -> printable e = true ->
  ParseEndpoint (url_Parse strict) (URL url_String e) = if drops_port e then inr (Sentinel ErrMissingPort) else inl e.
Proof.
  intros HV Hp He. pose proof He as [[Hh _]%andb_prop _]%andb_prop.
  rewrite ParseEndpoint_own_url by (done || by apply printable_plain || (apply parse_printed; [done|lia|done])).
  assert (WithPort e (ep_Port e) = e) as Hid by by destruct e.
  pose proof (Validate_scheme e HV) as HS. unfold drops_port, port_printed in *.
  destruct ((defaultPort (ep_Scheme e) =? ep_Port e) && negb (bool_decide (ep_Host e = ""))) eqn:E; cbn [negb].
  - apply andb_prop in E as [Ep%Z.eqb_eq Eh]. rewrite Eh, andb_true_r. rewrite <- Ep.
    destruct e as [s h p path q]; cbn in *. subst p. destruct s; try done.
  - rewrite endpointPort_printed by done. rewrite Hid.
    assert ((IsPacket (ep_Scheme e) || bool_decide (ep_Scheme e = SchemeTCP)) && negb (bool_decide (ep_Host e = "")) && (ep_Port e =? 0) = false) as ->; [|done].
    apply not_true_iff_false. intros [[Hs Hne]%andb_prop Hz%Z.eqb_eq]%andb_prop. rewrite Hne, Hz in E.
    by destruct (ep_Scheme e).
Qed.
Definition demo_wss : Endpoint :=
  {| ep_Scheme := SchemeWSS; ep_Host := "fe80::1%eth0"; ep_Port := 8443; ep_Path := "/a b?"; ep_RawQuery := "x=1&y=?" |}.
Lemma ParseEndpoint_URL_roundtrip_witness :
  URL url_String demo_wss = "wss://[fe80::1%25eth0]:8443/a%20b%3F?x=1&y=?" /\
  ParseEndpoint (url_Parse true) (URL url_String demo_wss) = inl demo_wss.
Proof.
  split; [vm_compute; reflexivity|]. apply (ParseEndpoint_URL_roundtrip true demo_wss); [reflexivity|vm_compute; split; discriminate|vm_compute; reflexivity].
Defined.
