(* ===== verification/Wire.v ===== *)
(** * Wire: the v1 envelope codec (wire/wire.go)

    [Codec] with [Encode], [DecodeOne], [Decode] and [ParseHeader], the [Framer]
    interface with the laws the stream reader relies on, and the proof that the
    codec implements them for every cipher that satisfies [CipherOk]. *)
From S2P Require Import Prelude Kinds Errors Encoding Secure Message.
Local Open Scope go_scope.

Definition Magic : Z := 0x4f47.
Definition Version : Z := 1.
Definition HeaderSize : Z := 10.
Definition FlagText : Z := Z.shiftl 1 0.
Definition FlagEncrypted : Z := Z.shiftl 1 1.
Definition knownFlags : Z := Z.lor FlagText FlagEncrypted.
Definition DefaultMaxPayload : Z := Z.shiftl 16 20.
Definition max_uint32 : Z := 2 ^ 32 - 1.

Record Header := { h_Magic : Z; h_Version : Z; h_Flags : Z; h_Algorithm : Z; h_Length : Z }.

(** ** The Framer interface

    The first argument of [f_Encode] is the random supply of the message cipher. *)
Record Framer := {
  f_Encode : bytes -> Message -> result bytes;
  f_DecodeOne : bytes -> result (Message * Z);
}.

Class FramerOk (f : Framer) := {
  (** an encoded message is a non-empty frame that decodes to the message, whatever
      follows it, and consumes exactly the frame *)
  framer_decode_encode : forall rnd m frame rest,
    f_Encode f rnd m = inl frame ->
    f_DecodeOne f (frame ++ rest) = inl (m, zlen frame) /\ 0 < zlen frame;
  (** a proper prefix of a frame is reported as incomplete *)
  framer_need_more : forall rnd m frame p q,
    f_Encode f rnd m = inl frame -> frame = p ++ q -> q <> [] ->
    f_DecodeOne f p = inr (Sentinel ErrNeedMore);
  (** a success consumes between one byte and the whole input, and yields a valid
      message *)
  framer_consumed : forall src m n,
    f_DecodeOne f src = inl (m, n) -> 1 <= n <= zlen src;
  framer_valid : forall src m n, f_DecodeOne f src = inl (m, n) -> Validate m = None;
}.

(** ** Codec *)
Record Codec := { c_Cipher : option Cipher; c_MaxPayload : Z }.

Definition New (cipher : option Cipher) : Codec :=
  {| c_Cipher := cipher; c_MaxPayload := DefaultMaxPayload |}.

Definition maxPayload (c : Codec) : Z :=
  if c_MaxPayload c =? 0 then DefaultMaxPayload else c_MaxPayload c.

Definition validateSemanticHeader (flags algorithm : Z) : option error :=
  if negb (Z.ldiff flags knownFlags =? 0) then Some (Sentinel ErrUnsupportedFlags)
  else if (Z.land flags FlagEncrypted =? 0) && negb (algorithm =? AlgNone)
  then Some (Sentinel ErrAlgorithmMismatch)
  else None.

Definition semanticAAD (flags algorithm : Z) : bytes :=
  BigEndian.PutUint16 Magic ++ [to_byte Version; to_byte flags] ++ BigEndian.PutUint16 algorithm.

Definition header_bytes (flags algorithm length : Z) : bytes :=
  BigEndian.PutUint16 Magic ++ [to_byte Version; to_byte flags]
    ++ BigEndian.PutUint16 algorithm ++ BigEndian.PutUint32 length.

(** Encryption, and base64 for text, of the payload. *)
Definition seal_payload (cipher : Cipher) (rnd : bytes) (m : Message) (flags : Z) : result bytes :=
  match (match Authenticated cipher with
         | Some ops => SealAAD ops rnd [] (msg_Data m) (semanticAAD flags (Algorithm cipher))
         | None => Seal cipher rnd [] (msg_Data m)
         end) with
  | inr e => inr (Errorf "wire: encrypt payload" e)
  | inl payload =>
      inl (if bool_decide (msg_Type m = PayloadText) then Base64.Encode payload else payload)
  end.

Definition Encode (c : Codec) (rnd : bytes) (m : Message) : result bytes :=
  match Validate m with
  | Some e => inr e
  | None =>
    if zlen (msg_Data m) >? maxPayload c then inr (Sentinel ErrFrameTooLarge)
    else
      let flags := if bool_decide (msg_Type m = PayloadText) then FlagText else 0 in
      let sealed :=
        match c_Cipher c with
        | None => inl (flags, AlgNone, msg_Data m)
        | Some cipher =>
            let flags := Z.lor flags FlagEncrypted in
            try payload := seal_payload cipher rnd m flags in
            inl (flags, Algorithm cipher, payload)
        end in
      try (flags, algorithm, payload) := sealed in
      if (zlen payload >? maxPayload c) || (zlen payload >? max_uint32)
      then inr (Sentinel ErrFrameTooLarge)
      else inl (header_bytes flags algorithm (zlen payload) ++ payload)
  end.

Definition at_ (src : bytes) (i : nat) : byte := nth i src x00%byte.

(** The error of a corrupt base64 text at an offset. *)
Definition corrupt_input (offset : Z) : error :=
  Foreign {| f_id := offset; f_type := FOther; f_timeout := None |} [].

(** Base64 for text, then decryption, of a received payload. *)
Definition open_payload (cipher : Cipher) (kind : PayloadType) (flags algorithm : Z)
    (payload : bytes) : result bytes :=
  let decoded :=
    if bool_decide (kind = PayloadText) then
      match Base64.Decode payload with
      | inl d => inl d
      | inr off => inr (Errorf "wire: decode encrypted text" (corrupt_input off))
      end
    else inl payload in
  try payload := decoded in
  match (match Authenticated cipher with
         | Some ops => OpenAAD ops [] payload (semanticAAD flags algorithm)
         | None => Open cipher [] payload
         end) with
  | inr e => inr (Errorf "wire: decrypt payload" e)
  | inl plaintext => inl plaintext
  end.

Definition DecodeOne (c : Codec) (src : bytes) : result (Message * Z) :=
  if zlen src <? HeaderSize then inr (Sentinel ErrNeedMore)
  else if negb (BigEndian.Uint16 (at_ src 0) (at_ src 1) =? Magic) then inr (Sentinel ErrBadMagic)
  else if negb (u8 (at_ src 2) =? Version) then inr (Sentinel ErrUnsupportedVersion)
  else
    let flags := u8 (at_ src 3) in
    let algorithm := BigEndian.Uint16 (at_ src 4) (at_ src 5) in
    match validateSemanticHeader flags algorithm with
    | Some e => inr e
    | None =>
      let length := BigEndian.Uint32 (at_ src 6) (at_ src 7) (at_ src 8) (at_ src 9) in
      if length >? maxPayload c then inr (Sentinel ErrFrameTooLarge)
      else
        let encrypted := negb (Z.land flags FlagEncrypted =? 0) in
        let check :=
          if encrypted then
            match c_Cipher c with
            | None => Some (Sentinel ErrMissingCipher)
            | Some cipher =>
                if negb (Algorithm cipher =? algorithm)
                then Some (Sentinel ErrAlgorithmMismatch) else None
            end
          else None in
        match check with
        | Some e => inr e
        | None =>
          if length + HeaderSize >? max_int then inr (Sentinel ErrFrameTooLarge)
          else
            let total := HeaderSize + length in
            if zlen src <? total then inr (Sentinel ErrNeedMore)
            else
              let payload := slice HeaderSize total src in
              let kind := if negb (Z.land flags FlagText =? 0) then PayloadText else PayloadBinary in
              let opened :=
                if encrypted then
                  match c_Cipher c with
                  | Some cipher => open_payload cipher kind flags algorithm payload
                  | None => inr (Sentinel ErrMissingCipher)   (* excluded by [check] *)
                  end
                else inl payload in
              try payload := opened in
              if zlen payload >? maxPayload c then inr (Sentinel ErrFrameTooLarge)
              else
                let m := {| msg_Type := kind; msg_Data := payload |} in
                match Validate m with
                | Some e => inr e
                | None => inl (m, total)
                end
        end
    end.

Definition Decode (c : Codec) (src : bytes) : result Message :=
  try (m, n) := DecodeOne c src in
  if negb (n =? zlen src) then inr (Sentinel ErrTrailingData) else inl m.

Definition ParseHeader (src : bytes) : result Header :=
  if zlen src <? HeaderSize then inr (Sentinel ErrNeedMore)
  else
    let h := {| h_Magic := BigEndian.Uint16 (at_ src 0) (at_ src 1);
                h_Version := u8 (at_ src 2);
                h_Flags := u8 (at_ src 3);
                h_Algorithm := BigEndian.Uint16 (at_ src 4) (at_ src 5);
                h_Length := BigEndian.Uint32 (at_ src 6) (at_ src 7) (at_ src 8) (at_ src 9) |} in
    if negb (h_Magic h =? Magic) then inr (Sentinel ErrBadMagic)
    else if negb (h_Version h =? Version) then inr (Sentinel ErrUnsupportedVersion)
    else match validateSemanticHeader (h_Flags h) (h_Algorithm h) with
         | Some e => inr e
         | None => inl h
         end.

Definition codec_framer (c : Codec) : Framer :=
  {| f_Encode := Encode c; f_DecodeOne := DecodeOne c |}.

(** ** Decoding behind a well-formed header *)
Lemma zlen_header flags alg len : zlen (header_bytes flags alg len) = HeaderSize.
Proof. done. Qed.

(** What remains of [DecodeOne] once a complete frame has been delimited. *)
Definition finish_frame (c : Codec) (flags alg len : Z) (payload : bytes) : result (Message * Z) :=
  let kind := if negb (Z.land flags FlagText =? 0) then PayloadText else PayloadBinary in
  let opened :=
    if negb (Z.land flags FlagEncrypted =? 0) then
      match c_Cipher c with
      | Some cipher => open_payload cipher kind flags alg payload
      | None => inr (Sentinel ErrMissingCipher)
      end
    else inl payload in
  try payload := opened in
  if zlen payload >? maxPayload c then inr (Sentinel ErrFrameTooLarge)
  else match Validate {| msg_Type := kind; msg_Data := payload |} with
       | Some e => inr e
       | None => inl ({| msg_Type := kind; msg_Data := payload |}, HeaderSize + len)
       end.

(** The header is acceptable to the codec. *)
Definition header_ok (c : Codec) (flags alg len : Z) : Prop :=
  0 <= flags < 256 /\ 0 <= alg < 2 ^ 16 /\ 0 <= len <= max_uint32 /\ len <= maxPayload c /\
  validateSemanticHeader flags alg = None /\
  (Z.land flags FlagEncrypted = 0 \/ exists cipher, c_Cipher c = Some cipher /\ Algorithm cipher = alg).

Lemma DecodeOne_header c flags alg len tail :
  header_ok c flags alg len ->
  DecodeOne c (header_bytes flags alg len ++ tail) =
    if zlen tail <? len then inr (Sentinel ErrNeedMore)
    else finish_frame c flags alg len (take (Z.to_nat len) tail).
Proof.
  intros (Hf & Ha & Hl & Hm & Hv & Hc). unfold DecodeOne.
  pose proof (zlen_nonneg tail) as Ht.
  rewrite zlen_app, zlen_header.
  replace (HeaderSize + zlen tail <? HeaderSize) with false by (symmetry; lia).
  change (BigEndian.Uint16 (at_ _ 0) (at_ _ 1) =? Magic) with true.
  change (u8 (at_ _ 2) =? Version) with true. cbn [negb].
  change (at_ (header_bytes flags alg len ++ tail) 3) with (to_byte flags).
  change (at_ (header_bytes flags alg len ++ tail) 4) with (to_byte (Z.shiftr alg 8)).
  change (at_ (header_bytes flags alg len ++ tail) 5) with (to_byte alg).
  change (at_ (header_bytes flags alg len ++ tail) 6) with (to_byte (Z.shiftr len 24)).
  change (at_ (header_bytes flags alg len ++ tail) 7) with (to_byte (Z.shiftr len 16)).
  change (at_ (header_bytes flags alg len ++ tail) 8) with (to_byte (Z.shiftr len 8)).
  change (at_ (header_bytes flags alg len ++ tail) 9) with (to_byte len).
  unfold max_uint32 in Hl.
  rewrite BigEndian.Uint16_Put, BigEndian.Uint32_Put, u8_to_byte_small by lia.
  rewrite Hv. replace (len >? maxPayload c) with false by (symmetry; lia).
  replace (len + HeaderSize >? max_int) with false by (symmetry; unfold HeaderSize, max_int; lia).
  replace (HeaderSize + zlen tail <? HeaderSize + len) with (zlen tail <? len)
    by (destruct (Z.ltb_spec (zlen tail) len), (Z.ltb_spec (HeaderSize + zlen tail) (HeaderSize + len));
        lia).
  assert ((if negb (Z.land flags FlagEncrypted =? 0)
           then match c_Cipher c with
                | None => Some (Sentinel ErrMissingCipher)
                | Some cipher => if negb (Algorithm cipher =? alg)
                                 then Some (Sentinel ErrAlgorithmMismatch) else None
                end
           else None) = None) as ->.
  { destruct Hc as [->|(cipher & -> & ->)]; [done|]. rewrite Z.eqb_refl. by case_match. }
  destruct (zlen tail <? len); [done|]. unfold finish_frame, slice.
  replace (HeaderSize + len - HeaderSize) with len by lia.
  change (drop (Z.to_nat HeaderSize) (header_bytes flags alg len ++ tail)) with tail.
  done.
Qed.

Lemma maxPayload_nonneg c : 0 <= c_MaxPayload c -> 0 < maxPayload c.
Proof. unfold maxPayload, DefaultMaxPayload. intros. case_match; [done|lia]. Qed.

(** ** What [Encode] produces *)
Record encoded (c : Codec) (m : Message) (frame : bytes) := {
  enc_flags : Z; enc_alg : Z; enc_payload : bytes;
  enc_frame : frame = header_bytes enc_flags enc_alg (zlen enc_payload) ++ enc_payload;
  enc_ok : header_ok c enc_flags enc_alg (zlen enc_payload);
  enc_finish : finish_frame c enc_flags enc_alg (zlen enc_payload) enc_payload
                 = inl (m, HeaderSize + zlen enc_payload);
}.

Definition codec_ok (c : Codec) : Prop := forall cipher, c_Cipher c = Some cipher -> CipherOk cipher.

Lemma open_seal_payload cipher `{!CipherOk cipher} rnd m flags payload :
  seal_payload cipher rnd m flags = inl payload ->
  open_payload cipher (msg_Type m) flags (Algorithm cipher) payload = inl (msg_Data m).
Proof.
  unfold seal_payload, open_payload. intros Hs.
  destruct (match Authenticated cipher with Some _ => _ | None => _ end) as [ct|e] eqn:E; [|done].
  injection Hs as <-.
  replace (if bool_decide _ then match Base64.Decode _ with inl d => inl d | inr off => _ end else _)
    with (@inl bytes error ct) by (case_bool_decide; [by rewrite Base64.Decode_Encode | done]).
  destruct (Authenticated cipher) as [ops|] eqn:EA.
  - by rewrite (cipher_open_seal_aad _ EA _ _ _ _ E).
  - by rewrite (cipher_open_seal _ _ _ E).
Qed.

Lemma kind_of_text (t : PayloadType) x :
  t = PayloadBinary \/ t = PayloadText ->
  x = 0 \/ x = FlagEncrypted ->
  (if negb (Z.land (Z.lor (if bool_decide (t = PayloadText) then FlagText else 0) x) FlagText =? 0)
   then PayloadText else PayloadBinary) = t.
Proof. by intros [->| ->] [->| ->]. Qed.

Lemma Encode_encoded c rnd m frame :
  codec_ok c -> Encode c rnd m = inl frame -> encoded c m frame.
Proof.
  intros Hc. unfold Encode. destruct (Validate m) as [e|] eqn:HV; [done|].
  pose proof (Validate_named m HV) as Ht.
  destruct (zlen (msg_Data m) >? maxPayload c) eqn:HL; [done|].
  destruct (c_Cipher c) as [cipher|] eqn:EC.
  - destruct (seal_payload cipher rnd m _) as [payload|e] eqn:ES; [|done].
    destruct (_ || _) eqn:HB; [done|]. intros [= <-].
    apply orb_false_iff in HB as [HB1 HB2]. specialize (Hc _ EC).
    pose proof (zlen_nonneg payload).
    econstructor; [reflexivity| |].
    + pose proof cipher_algorithm. repeat split; try lia.
      * by destruct Ht as [-> | ->].
      * by destruct Ht as [-> | ->].
      * destruct Ht as [-> | ->]; unfold validateSemanticHeader; simpl; done.
      * right. eauto.
    + unfold finish_frame. rewrite kind_of_text by auto.
      replace (negb (Z.land _ FlagEncrypted =? 0)) with true by (by destruct Ht as [-> | ->]).
      rewrite EC, (open_seal_payload _ _ _ _ _ ES), HL. destruct m as [t d]; simpl in *.
      by rewrite HV.
  - destruct (_ || _) eqn:HB; [done|]. intros [= <-].
    apply orb_false_iff in HB as [HB1 HB2]. pose proof (zlen_nonneg (msg_Data m)).
    econstructor; [reflexivity| |].
    + repeat split; try lia; try done; destruct Ht as [-> | ->]; try done; by left.
    + unfold finish_frame.
      replace (negb (Z.land _ FlagEncrypted =? 0)) with false by (by destruct Ht as [-> | ->]).
      rewrite HL. destruct m as [t d]; simpl in *.
      replace (if negb _ then PayloadText else PayloadBinary) with t by (by destruct Ht as [-> | ->]).
      by rewrite HV.
Qed.

(** ** The codec implements the Framer contract *)
Lemma finish_frame_payload c flags alg len payload rest :
  len = zlen payload ->
  finish_frame c flags alg len (take (Z.to_nat len) (payload ++ rest)) =
  finish_frame c flags alg len payload.
Proof. intros ->. unfold zlen. by rewrite Nat2Z.id, take_app_length. Qed.

Lemma DecodeOne_encoded c m frame rest :
  encoded c m frame -> DecodeOne c (frame ++ rest) = inl (m, zlen frame).
Proof.
  intros [flags alg payload -> Hok Hfin]. rewrite <- app_assoc, DecodeOne_header by done.
  pose proof (zlen_nonneg rest). rewrite zlen_app.
  replace (zlen payload + zlen rest <? zlen payload) with false by (symmetry; lia).
  rewrite finish_frame_payload, Hfin by done. by rewrite zlen_app, zlen_header.
Qed.

Lemma DecodeOne_encoded_prefix c m frame p q :
  encoded c m frame -> frame = p ++ q -> q <> [] -> DecodeOne c p = inr (Sentinel ErrNeedMore).
Proof.
  intros [flags alg payload -> Hok Hfin] E Hq.
  assert (0 < zlen q) by (destruct q; [done|rewrite zlen_cons; pose proof (zlen_nonneg q); lia]).
  assert (zlen p + zlen q = HeaderSize + zlen payload) as HL
    by (rewrite <- zlen_app, <- E, zlen_app; done).
  destruct (Z.ltb_spec (zlen p) HeaderSize).
  { unfold DecodeOne. by replace (zlen p <? HeaderSize) with true by (symmetry; lia). }
  assert (exists t, p = header_bytes flags alg (zlen payload) ++ t) as [t ->].
  { exists (drop 10 p). rewrite <- (take_drop 10 p) at 1. f_equal.
    assert (take 10 (p ++ q) = header_bytes flags alg (zlen payload)) as <- by (by rewrite <- E).
    rewrite take_app_le; [done|]. unfold zlen, HeaderSize in *. lia. }
  rewrite DecodeOne_header by done. rewrite zlen_app, zlen_header in HL.
  by replace (zlen t <? zlen payload) with true by (symmetry; lia).
Qed.

Lemma DecodeOne_consumed c src m n :
  DecodeOne c src = inl (m, n) -> HeaderSize <= n <= zlen src /\ Validate m = None.
Proof.
  unfold DecodeOne. intros H. repeat case_match; simplify_eq; (split; [|done]);
    pose proof (BigEndian.Uint32_range (at_ src 6) (at_ src 7) (at_ src 8) (at_ src 9)); lia.
Qed.

#[global] Instance codec_framer_ok c : codec_ok c -> FramerOk (codec_framer c).
Proof.
  intros Hc. split; simpl.
  - intros rnd m frame rest HE. pose proof (Encode_encoded _ _ _ _ Hc HE) as He.
    split; [by apply DecodeOne_encoded|]. destruct He as [flags alg payload -> _ _].
    rewrite zlen_app, zlen_header. pose proof (zlen_nonneg payload). unfold HeaderSize. lia.
  - intros rnd m frame p q HE. eapply DecodeOne_encoded_prefix. by eapply Encode_encoded.
  - intros src m n [? _]%DecodeOne_consumed. unfold HeaderSize in *. lia.
  - intros src m n [_ ?]%DecodeOne_consumed. done.
Qed.

(** ** Properties *)

(** C30. Encode/decode round trip: a frame the codec produced decodes to the message it
    was made from and consumes exactly the frame, whatever bytes follow, for every
    cipher that inverts its own sealing (with or without associated data, text
    carried in base64 or not). *)
Theorem Encode_DecodeOne_roundtrip c rnd m frame rest :
  codec_ok c -> Encode c rnd m = inl frame ->
  DecodeOne c (frame ++ rest) = inl (m, zlen frame).
Proof. intros Hc HE. apply DecodeOne_encoded. by eapply Encode_encoded. Qed.

(** Incremental decoding: every proper prefix of a frame is answered with
    [ErrNeedMore], so the reader can never misparse a frame that is still arriving. *)
Theorem Encode_prefix_need_more c rnd m p q :
  codec_ok c -> Encode c rnd m = inl (p ++ q) -> q <> [] ->
  DecodeOne c p = inr (Sentinel ErrNeedMore).
Proof. intros Hc HE Hq. eapply DecodeOne_encoded_prefix; [by eapply Encode_encoded|done..]. Qed.

(** [Decode] accepts exactly one frame and rejects trailing bytes. *)
Theorem Decode_exact c rnd m frame rest :
  codec_ok c -> Encode c rnd m = inl frame ->
  Decode c frame = inl m /\
  (rest <> [] -> Decode c (frame ++ rest) = inr (Sentinel ErrTrailingData)).
Proof.
  intros Hc HE. unfold Decode. split.
  - rewrite <- (app_nil_r frame) at 1. rewrite (DecodeOne_encoded c m) by (by eapply Encode_encoded).
    by rewrite Z.eqb_refl.
  - intros Hr. rewrite (DecodeOne_encoded c m) by (by eapply Encode_encoded).
    rewrite zlen_app. destruct rest; [done|]. rewrite zlen_cons.
    pose proof (zlen_nonneg rest). destruct (Z.eqb_spec (zlen frame) (zlen frame + (1 + zlen rest)));
      [lia|done].
Qed.

(** C39. No decoded message is larger than the configured maximum, is invalid, or was
    delimited by fewer bytes than a header or more than the input holds. *)
Theorem DecodeOne_bounds c src m n :
  DecodeOne c src = inl (m, n) ->
  HeaderSize <= n <= zlen src /\ zlen (msg_Data m) <= maxPayload c
  /\ n - HeaderSize <= maxPayload c /\ Validate m = None.
Proof.
  intros H. destruct (DecodeOne_consumed _ _ _ _ H) as [? ?]. split; [done|].
  unfold DecodeOne in H. repeat case_match; simplify_eq; cbn [msg_Data]; split_and!; done || lia.
Qed.

(** The header parser and the decoder agree: a frame that decodes has a header
    that parses, with the length that was consumed, and both refuse an unknown
    flag or an algorithm on a plaintext frame with the same error. *)
Theorem DecodeOne_ParseHeader c src :
  match ParseHeader src with
  | inl h => (forall m n, DecodeOne c src = inl (m, n) -> n = HeaderSize + h_Length h)
             /\ Z.ldiff (h_Flags h) knownFlags = 0
  | inr e => DecodeOne c src = inr e
  end.
Proof.
  unfold ParseHeader, DecodeOne. cbn [h_Magic h_Version h_Flags h_Algorithm h_Length].
  destruct (zlen src <? HeaderSize); [done|].
  destruct (negb (_ =? Magic)); [done|]. destruct (negb (_ =? Version)); [done|].
  destruct (validateSemanticHeader _ _) as [e|] eqn:EV; [done|].
  split.
  - intros m n H. repeat case_match; simplify_eq; done.
  - unfold validateSemanticHeader in EV. cbn [h_Flags]. repeat case_match; simplify_eq. lia.
Qed.

(** No frame is longer than the header and the payload limit. *)
Lemma Encode_frame_bound c rnd m frame :
  Encode c rnd m = inl frame -> zlen frame <= HeaderSize + maxPayload c.
Proof.
  unfold Encode. destruct (Validate m); [done|]. destruct (_ >? _); [done|]. cbv zeta.
  match goal with |- context [match ?x with _ => _ end] => destruct x as [[[flags alg] payload]|]; [|done] end.
  destruct (_ || _) eqn:E; [done|]. intros Hx. apply orb_false_elim in E as [E _].
  assert (frame = header_bytes flags alg (zlen payload) ++ payload) as -> by congruence.
  rewrite zlen_app, zlen_header. lia.
Qed.

(** A text frame of the plain codec. *)
Definition demo_codec : Codec := New None.
Definition demo_message : Message := Text [x68; x69]%byte.
Definition demo_frame : bytes :=
  [x4f; x47; x01; x01; x00; x00; x00; x00; x00; x02; x68; x69]%byte.

Lemma demo_codec_ok : codec_ok demo_codec.
Proof. by intros cipher H. Qed.

(** The same message sealed: the nonce 1, 2, the text and its tag, in base64. *)
Definition sealing_codec : Codec := New (Some (AESGCM.aesGCM AESGCM.checksum_AEAD)).
Definition sealed_frame : bytes := match Encode sealing_codec [x01; x02]%byte demo_message with inl f => f | inr _ => [] end.
Lemma Encode_DecodeOne_roundtrip_witness :
  DecodeOne demo_codec (demo_frame ++ [x00]%byte) = inl (demo_message, 12) /\
  zlen sealed_frame = 17 /\ DecodeOne sealing_codec (sealed_frame ++ [x00]%byte) = inl (demo_message, 17).
Proof.
  split; [|split; [vm_compute; reflexivity|]].
  - apply (Encode_DecodeOne_roundtrip demo_codec [] demo_message demo_frame [x00]%byte); [apply demo_codec_ok|reflexivity].
  - apply (Encode_DecodeOne_roundtrip sealing_codec [x01; x02]%byte demo_message sealed_frame [x00]%byte); [|vm_compute; reflexivity].
    intros cipher [= <-]. apply AESGCM.aesGCM_ok, AESGCM.checksum_AEAD_ok.
Defined.

Lemma Encode_prefix_need_more_witness :
  DecodeOne demo_codec (take 11 demo_frame) = inr (Sentinel ErrNeedMore).
Proof.
  apply (Encode_prefix_need_more demo_codec [] demo_message (take 11 demo_frame) [x69]%byte).
  - apply demo_codec_ok.
  - reflexivity.
  - discriminate.
Defined.

Lemma Decode_exact_witness :
  Decode demo_codec demo_frame = inl demo_message /\
  ([x00]%byte <> [] -> Decode demo_codec (demo_frame ++ [x00]%byte) = inr (Sentinel ErrTrailingData)).
Proof.
  apply (Decode_exact demo_codec [] demo_message demo_frame [x00]%byte).
  - apply demo_codec_ok.
  - reflexivity.
Defined.

Lemma DecodeOne_bounds_witness :
  HeaderSize <= 12 <= zlen demo_frame /\ zlen (msg_Data demo_message) <= maxPayload demo_codec
  /\ 12 - HeaderSize <= maxPayload demo_codec /\ Validate demo_message = None.
Proof. apply (DecodeOne_bounds demo_codec demo_frame demo_message 12). reflexivity. Defined.
