(* ===== verification/Reader.v ===== *)
(** * Reader: the read loop of a stream Session (readerLoop of transport/conn.go)

    The loop appends what each [Read] returns to [pending], decodes every complete frame, hands
    the messages to the handler and keeps the rest.  The socket is a list of
    [read_event]s, one per iteration, with the results of the deadline calls; whether
    the session is found closing is an oracle consulted at every [isClosing].
    Deadlines, observer events and buffer capacities (which do not change what is
    delivered) are not part of the state. *)
From S2P Require Import Prelude Kinds Errors Classify Encoding Message Wire.
Local Open Scope go_scope.

Record connEnv := {
  ce_protocol : Scheme; ce_local : option net_addr; ce_remote : option net_addr;
  ce_framer : Framer; ce_wireFramer : bool;
  ce_maxRead : Z; ce_readIdle : bool;   (* [timeouts.ReadIdle > 0] *)
}.

(** One iteration: [SetReadDeadline], [Read], [SetReadDeadline(time.Time{})]. *)
Record read_event := {
  re_setErr : option error; re_data : bytes; re_err : option error; re_clearErr : option error }.

(** What the loop has done: bytes not yet decoded, messages handed to the handler
    (in order), the counters of the session, the [isClosing] calls made. *)
Record reader := {
  r_pending : bytes; r_delivered : list Message;
  r_bytesRX : Z; r_messagesRX : Z; r_decodeErrors : Z; r_checks : nat }.
Definition new_reader : reader :=
  {| r_pending := []; r_delivered := []; r_bytesRX := 0; r_messagesRX := 0; r_decodeErrors := 0;
     r_checks := 0 |}.

(** How the loop ends: the session was closing, [initiateClose] with an error, or the end of
    the stream ([markReadClosed]). *)
Inductive reader_end := EndClosing | EndInitiate (cause : option error) | EndRead.

Section loop.
Context `{WebSocketLib} (pf : platform) (c : connEnv) (closing : nat -> bool).

Definition operationalError (op : Op) (cause : error) (hint : classifyHint) : option error :=
  classifyOperational pf op (ce_protocol c) (ce_local c) (ce_remote c) (Some cause) hint.

Definition isClosing (r : reader) : bool * reader :=
  (closing (r_checks r),
   {| r_pending := r_pending r; r_delivered := r_delivered r; r_bytesRX := r_bytesRX r;
      r_messagesRX := r_messagesRX r; r_decodeErrors := r_decodeErrors r; r_checks := S (r_checks r) |}).
Definition set_pending (p : bytes) (r : reader) : reader :=
  {| r_pending := p; r_delivered := r_delivered r; r_bytesRX := r_bytesRX r;
     r_messagesRX := r_messagesRX r; r_decodeErrors := r_decodeErrors r; r_checks := r_checks r |}.
Definition count_decode_error (r : reader) : reader :=
  {| r_pending := r_pending r; r_delivered := r_delivered r; r_bytesRX := r_bytesRX r;
     r_messagesRX := r_messagesRX r; r_decodeErrors := inc_u64 (r_decodeErrors r);
     r_checks := r_checks r |}.
(** Counters, then [OnMessage]. *)
Definition deliver (m : Message) (r : reader) : reader :=
  {| r_pending := r_pending r; r_delivered := r_delivered r ++ [m];
     r_bytesRX := add_u64 (r_bytesRX r) (zlen (msg_Data m)); r_messagesRX := inc_u64 (r_messagesRX r);
     r_decodeErrors := r_decodeErrors r; r_checks := r_checks r |}.

Definition fail_decode (cause : error) (hint : classifyHint) (r : reader) : reader * reader_end :=
  (count_decode_error r, EndInitiate (operationalError OpRead cause hint)).

(** The inner loop over [remaining]; on exit the bytes consumed are dropped from [pending]. Every
    round consumes at least one byte, so [fuel] is the number of bytes and one more. *)
Fixpoint decode_loop (fuel : nat) (remaining : bytes) (r : reader) : reader + (reader * reader_end) :=
  match fuel with
  | O => inl (set_pending remaining r)
  | S fuel =>
      match remaining with
      | [] => inl (set_pending [] r)
      | _ =>
          match f_DecodeOne (ce_framer c) remaining with
          | inr err =>
              if errors_Is err ErrNeedMore then inl (set_pending remaining r)
              else inr (fail_decode (Errorf "transport: decode frame" err)
                          (if ce_wireFramer c then hintWireDecode else hintNone) r)
          | inl (msg, consumed) =>
              if (consumed <=? 0) || (consumed >? zlen remaining)
              then inr (fail_decode (Sentinel ErrInvalidFramer) hintNone r)
              else
                match Validate msg with
                | Some err =>
                    inr (fail_decode (Errorf "transport: invalid message" err) hintMessageDecode r)
                | None =>
                    let '(stop, r) := isClosing (deliver msg r) in
                    if stop : bool then inr (r, EndClosing)
                    else decode_loop fuel (drop (Z.to_nat consumed) remaining) r
                end
          end
      end
  end.

(** The handling of [n > 0] bytes. *)
Definition take_chunk (data : bytes) (r : reader) : reader + (reader * reader_end) :=
  let pending := r_pending r ++ data in
  match decode_loop (S (length pending)) pending r with
  | inr e => inr e
  | inl r =>
      if zlen (r_pending r) >? ce_maxRead c
      then inr (fail_decode (Sentinel ErrReadBufferFull) hintNone r)
      else inl r
  end.

(** One iteration: [inl] continues. *)
Definition read_once (ev : read_event) (r : reader) : reader + (reader * reader_end) :=
  match (if ce_readIdle c then re_setErr ev else None) with
  | Some err => inr (r, EndInitiate (operationalError OpRead
                           (Errorf "transport: set read deadline" err) hintNone))
  | None =>
      let clear := if ce_readIdle c then re_clearErr ev else None in
      match clear, re_err ev with
      | Some err, None =>
          inr (r, EndInitiate (operationalError OpRead
                    (Errorf "transport: clear read deadline" err) hintNone))
      | _, _ =>
          let some_bytes := negb (bool_decide (re_data ev = [])) in
          let readErr := if some_bytes && isTimeoutFailure (re_err ev) then None else re_err ev in
          match (if some_bytes then take_chunk (re_data ev) r else inl r) with
          | inr e => inr e
          | inl r =>
              match readErr with
              | Some err =>
                  let '(stop, r) := isClosing r in
                  if stop : bool then inr (r, EndClosing)
                  else if ce_readIdle c && isTimeoutFailure (Some err) then
                    inr (r, EndInitiate (operationalError OpRead
                              (TimeoutError TimeoutReadIdle (Some err)) hintNone))
                  else match normalizeConnError (Some err) with
                       | Some err => inr (r, EndInitiate (operationalError OpRead err hintNone))
                       | None => inr (r, EndRead)
                       end
              | None =>
                  let '(stop, r) := isClosing r in
                  if stop : bool then inr (r, EndClosing) else inl r
              end
          end
      end
  end.

(** The loop; [None] is a session still waiting for input. *)
Fixpoint read_all (evs : list read_event) (r : reader) : reader * option reader_end :=
  match evs with
  | [] => (r, None)
  | ev :: evs =>
      match read_once ev r with
      | inl r => read_all evs r
      | inr (r, e) => (r, Some e)
      end
  end.
(** [OnOpen], then the loop. *)
Definition readerLoop (evs : list read_event) : reader * option reader_end :=
  let '(stop, r) := isClosing new_reader in
  if stop : bool then (r, Some EndClosing) else read_all evs r.
End loop.

Definition retainedReadCapacity (readSize : Z) : Z :=
  if readSize >? max_int / 4 then readSize else readSize * 4.

(** ** Reference: decoding a whole byte string at once *)
Inductive fate := Waiting (rest : bytes) | Broken (cause : error) (hint : classifyHint).

Section reference.
Context (f : Framer) (wire : bool).

Fixpoint greedy (fuel : nat) (b : bytes) : list Message * fate :=
  match fuel with
  | O => ([], Waiting b)
  | S fuel =>
      match b with
      | [] => ([], Waiting [])
      | _ =>
          match f_DecodeOne f b with
          | inr err =>
              if errors_Is err ErrNeedMore then ([], Waiting b)
              else ([], Broken (Errorf "transport: decode frame" err)
                          (if wire then hintWireDecode else hintNone))
          | inl (m, n) =>
              if (n <=? 0) || (n >? zlen b) then ([], Broken (Sentinel ErrInvalidFramer) hintNone)
              else match Validate m with
                   | Some err => ([], Broken (Errorf "transport: invalid message" err) hintMessageDecode)
                   | None => let '(ms, fa) := greedy fuel (drop (Z.to_nat n) b) in (m :: ms, fa)
                   end
          end
      end
  end.
Definition frames (b : bytes) : list Message * fate := greedy (S (length b)) b.

(** A framer whose verdict on a string does not change when more bytes arrive. *)
Class FramerStable := {
  stable_ok : forall b m n ext, f_DecodeOne f b = inl (m, n) -> f_DecodeOne f (b ++ ext) = inl (m, n);
  stable_err : forall b e ext, f_DecodeOne f b = inr e -> errors_Is e ErrNeedMore = false ->
    f_DecodeOne f (b ++ ext) = inr e;
  stable_consumed : forall b m n, f_DecodeOne f b = inl (m, n) -> 1 <= n <= zlen b;
}.

(** More fuel than bytes changes nothing. *)
Lemma greedy_fuel k k' b : (length b < k)%nat -> (length b < k')%nat -> greedy k b = greedy k' b.
Proof.
  revert k' b. induction k as [|k IH]; intros [|k'] b Hk Hk'; [lia..|].
  destruct b as [|x b]; [done|]. cbn [greedy].
  destruct (f_DecodeOne f (x :: b)) as [[m n]|e]; [|done].
  destruct ((n <=? 0) || _) eqn:En; [done|]. destruct (Validate m); [done|].
  rewrite (IH k' (drop (Z.to_nat n) (x :: b))); [done|..]; rewrite length_drop;
    apply orb_false_elim in En as [En _]; simpl length in *; lia.
Qed.

Lemma frames_step x b m n :
  f_DecodeOne f (x :: b) = inl (m, n) -> 1 <= n <= zlen (x :: b) -> Validate m = None ->
  frames (x :: b) = let '(ms, fa) := frames (drop (Z.to_nat n) (x :: b)) in (m :: ms, fa).
Proof.
  intros Hd Hn Hv. unfold frames at 1. cbn [greedy]. rewrite Hd, Hv.
  replace ((n <=? 0) || (n >? zlen (x :: b))) with false by (symmetry; rewrite Z.gtb_ltb; lia).
  unfold frames. rewrite (greedy_fuel _ (S (length (drop (Z.to_nat n) (x :: b))))); [done|..];
    rewrite length_drop; simpl length in *; lia.
Qed.

Context `{!FramerStable}.

(** What is decoded of a prefix is decoded of the whole. *)
Lemma frames_app b1 b2 :
  frames (b1 ++ b2) =
  match frames b1 with
  | (ms, Waiting rest) => let '(ms', fa) := frames (rest ++ b2) in (ms ++ ms', fa)
  | (ms, Broken cause hint) => (ms, Broken cause hint)
  end.
Proof.
  remember (length b1) as k eqn:Ek. revert b1 Ek.
  induction (lt_wf k) as [k _ IH]. intros b1 ->. destruct b1 as [|x b1].
  { unfold frames at 2. simpl. by destruct (frames b2). }
  destruct (f_DecodeOne f (x :: b1)) as [[m n]|e] eqn:Hd.
  - pose proof (stable_consumed _ _ _ Hd) as Hn. pose proof (stable_ok _ _ _ b2 Hd) as Hd'.
    destruct (Validate m) as [err|] eqn:Hv.
    + unfold frames. change ((x :: b1) ++ b2) with (x :: (b1 ++ b2)) in *. cbn [greedy].
      rewrite Hd, Hd', Hv.
      replace ((n <=? 0) || (n >? zlen (x :: b1))) with false by (symmetry; rewrite Z.gtb_ltb; lia).
      replace ((n <=? 0) || (n >? zlen (x :: b1 ++ b2))) with false; [done|].
      rewrite Z.gtb_ltb, !zlen_cons, zlen_app in *. pose proof (zlen_nonneg b2). lia.
    + change ((x :: b1) ++ b2) with (x :: (b1 ++ b2)) in *.
      rewrite (frames_step _ _ _ _ Hd Hn Hv).
      rewrite (frames_step _ _ _ _ Hd'); [|rewrite !zlen_cons, zlen_app in *; pose proof (zlen_nonneg b2); lia|done].
      rewrite zlen_cons in Hn. unfold zlen in Hn.
      replace (drop (Z.to_nat n) (x :: b1 ++ b2)) with (drop (Z.to_nat n) (x :: b1) ++ b2)
        by (change (x :: b1 ++ b2) with ((x :: b1) ++ b2); rewrite drop_app_le; [done|simpl; lia]).
      rewrite (IH (length (drop (Z.to_nat n) (x :: b1)))); [|rewrite length_drop; simpl; lia|done].
      destruct (frames (drop (Z.to_nat n) (x :: b1))) as [ms [rest|cause hint]]; [|done].
      by destruct (frames (rest ++ b2)).
  - unfold frames at 2. cbn [greedy]. rewrite Hd. destruct (errors_Is e ErrNeedMore) eqn:He.
    + by destruct (frames ((x :: b1) ++ b2)).
    + unfold frames. change ((x :: b1) ++ b2) with (x :: (b1 ++ b2)). cbn [greedy].
      pose proof (stable_err _ _ b2 Hd He) as Hd'. change ((x :: b1) ++ b2) with (x :: (b1 ++ b2)) in Hd'.
      by rewrite Hd', He.
Qed.

(** The rest of a waiting string has nothing to decode. *)
Lemma frames_rest b ms rest : frames b = (ms, Waiting rest) -> frames rest = ([], Waiting rest).
Proof.
  remember (length b) as k eqn:Ek. revert b Ek ms. induction (lt_wf k) as [k _ IH]. intros b -> ms.
  destruct b as [|x b]; [unfold frames; simpl; by intros [= <- <-]|].
  destruct (f_DecodeOne f (x :: b)) as [[m n]|e] eqn:Hd.
  - pose proof (stable_consumed _ _ _ Hd) as Hn. destruct (Validate m) as [err|] eqn:Hv.
    { unfold frames. cbn [greedy]. rewrite Hd, Hv. by case_match. }
    rewrite (frames_step _ _ _ _ Hd Hn Hv).
    destruct (frames (drop (Z.to_nat n) (x :: b))) as [ms' fa] eqn:E. intros [= <- ->].
    eapply (IH (length (drop (Z.to_nat n) (x :: b)))); [|done|exact E].
    rewrite length_drop. rewrite zlen_cons in Hn. unfold zlen in Hn. simpl. lia.
  - unfold frames at 1. cbn [greedy]. rewrite Hd. destruct (errors_Is e ErrNeedMore) eqn:He; [|done].
    intros [= <- <-]. unfold frames. cbn [greedy]. by rewrite Hd, He.
Qed.
End reference.

(** ** The loop against the reference *)
Definition data_event (b : bytes) : read_event :=
  {| re_setErr := None; re_data := b; re_err := None; re_clearErr := None |}.
Definition never_closing : nat -> bool := fun _ => false.

Section agree.
Context `{WebSocketLib} (pf : platform) (c : connEnv) `{!FramerStable (ce_framer c)}.
Abbreviation reference := (frames (ce_framer c) (ce_wireFramer c)).
Abbreviation failure cause hint := (EndInitiate (operationalError pf c OpRead cause hint)).

Lemma decode_loop_greedy fuel b r :
  match greedy (ce_framer c) (ce_wireFramer c) fuel b with
  | (ms, Waiting rest) => exists r', decode_loop pf c never_closing fuel b r = inl r' /\
      r_pending r' = rest /\ r_delivered r' = r_delivered r ++ ms
  | (ms, Broken cause hint) => exists r',
      decode_loop pf c never_closing fuel b r = inr (r', failure cause hint) /\
      r_delivered r' = r_delivered r ++ ms
  end.
Proof.
  revert b r. induction fuel as [|fuel IH]; intros b r; cbn [greedy decode_loop].
  { eexists. split_and!; [done..|]. by rewrite app_nil_r. }
  destruct b as [|x b]; [eexists; split_and!; [done..|]; by rewrite app_nil_r|].
  destruct (f_DecodeOne (ce_framer c) (x :: b)) as [[m n]|e].
  - destruct ((n <=? 0) || _); [eexists; split; [done|]; by rewrite app_nil_r|].
    destruct (Validate m); [eexists; split; [done|]; by rewrite app_nil_r|].
    cbn [isClosing never_closing].
    match goal with |- context [decode_loop _ _ _ fuel ?b' ?r'] => specialize (IH b' r') end.
    destruct (greedy _ _ fuel _) as [ms [rest|cause hint]]; simpl in IH;
      [destruct IH as (r' & E & Ep & Ed) | destruct IH as (r' & E & Ed)]; exists r';
      rewrite Ed, <- (assoc_L (++)); by split_and!.
  - destruct (errors_Is e ErrNeedMore); (eexists; split_and!; [done..|]; by rewrite app_nil_r).
Qed.

(** One chunk of data, read without error. *)
Lemma read_once_data b r :
  frames (ce_framer c) (ce_wireFramer c) (r_pending r) = ([], Waiting (r_pending r)) ->
  match reference (r_pending r ++ b) with
  | (ms, Waiting rest) => zlen rest <= ce_maxRead c ->
      exists r', read_once pf c never_closing (data_event b) r = inl r' /\
        r_pending r' = rest /\ r_delivered r' = r_delivered r ++ ms
  | (ms, Broken cause hint) => exists r',
      read_once pf c never_closing (data_event b) r = inr (r', failure cause hint) /\
      r_delivered r' = r_delivered r ++ ms
  end.
Proof.
  intros Hp. unfold read_once. cbn [data_event re_setErr re_clearErr re_err re_data].
  assert (isTimeoutFailure None = false) as Ht by done.
  destruct b as [|x b].
  { rewrite app_nil_r, Hp. intros _. rewrite !app_nil_r.
    destruct (ce_readIdle c); simpl; eexists; by split_and!. }
  rewrite bool_decide_eq_false_2 by done. cbn [negb andb].
  pose proof (decode_loop_greedy (S (length (r_pending r ++ x :: b))) (r_pending r ++ x :: b) r) as Hg.
  unfold frames. unfold take_chunk.
  destruct (greedy _ _ _ (r_pending r ++ x :: b)) as [ms [rest|cause hint]].
  - destruct Hg as (r' & -> & Ep & Ed). intros Hm. rewrite Ep.
    replace (zlen rest >? ce_maxRead c) with false by lia.
    destruct (ce_readIdle c); simpl; eexists; by split_and!.
  - destruct Hg as (r' & -> & Ed). destruct (ce_readIdle c); simpl; eexists; by split_and!.
Qed.

(** The buffer limit is never exceeded by an incomplete frame. *)
Definition fits_buffer (b0 : bytes) (chunks : list bytes) : Prop :=
  forall k ms rest, reference (b0 ++ mjoin (take k chunks)) = (ms, Waiting rest) -> zlen rest <= ce_maxRead c.

Lemma read_all_reference chunks r b0 ms0 :
  reference b0 = (ms0, Waiting (r_pending r)) -> fits_buffer b0 chunks ->
  exists r' e, read_all pf c never_closing (data_event <$> chunks) r = (r', e) /\
    match reference (b0 ++ mjoin chunks) with
    | (ms, Waiting rest) =>
        e = None /\ r_pending r' = rest /\ exists ms', ms = ms0 ++ ms' /\ r_delivered r' = r_delivered r ++ ms'
    | (ms, Broken cause hint) =>
        e = Some (failure cause hint) /\ exists ms', ms = ms0 ++ ms' /\ r_delivered r' = r_delivered r ++ ms'
    end.
Proof.
  revert r b0 ms0. induction chunks as [|b chunks IH]; intros r b0 ms0 Hb0 Hfit.
  { simpl. rewrite app_nil_r, Hb0. eexists _, _. split_and!; [done..|]. exists []. by rewrite !app_nil_r. }
  pose proof (frames_rest _ _ _ _ _ Hb0) as Hrest.
  pose proof (read_once_data b r Hrest) as Hread.
  assert (reference (b0 ++ b) = match reference (r_pending r ++ b) with
     (ms', fa) => (ms0 ++ ms', fa) end) as Eb by (by rewrite frames_app, Hb0).
  cbn [fmap list_fmap read_all mjoin list_join]. rewrite (assoc_L (++)).
  destruct (reference (r_pending r ++ b)) as [ms1 [rest|cause hint]].
  - destruct Hread as (r1 & -> & Ep & Ed).
    { apply (Hfit 1%nat (ms0 ++ ms1)). simpl. by rewrite app_nil_r. }
    destruct (IH r1 (b0 ++ b) (ms0 ++ ms1)) as (r' & e & E & Hm).
    { by rewrite Ep. }
    { intros k ms rest' Hk. apply (Hfit (S k) ms). simpl. by rewrite (assoc_L (++)). }
    exists r', e. split; [done|].
    destruct (reference ((b0 ++ b) ++ mjoin chunks)) as [ms [rest'|cause hint]].
    + destruct Hm as (? & ? & ms' & -> & Ed'). split_and!; [done..|]. exists (ms1 ++ ms').
      rewrite Ed', Ed, !(assoc_L (++)). done.
    + destruct Hm as (? & ms' & -> & Ed'). split_and!; [done..|]. exists (ms1 ++ ms').
      rewrite Ed', Ed, !(assoc_L (++)). done.
  - destruct Hread as (r1 & -> & Ed). eexists _, _. split; [done|].
    rewrite (frames_app _ _ (b0 ++ b)), Eb. split; [done|]. by exists ms1.
Qed.
End agree.

(** The codec's verdict depends on the frame only. *)
Lemma at_app b ext i : (i < length b)%nat -> at_ (b ++ ext) i = at_ b i.
Proof. intros. unfold at_. by rewrite app_nth1. Qed.
#[global] Instance codec_stable c : FramerStable (codec_framer c).
Proof.
  assert (forall b ext e, DecodeOne c b = e -> e <> inr (Sentinel ErrNeedMore) -> DecodeOne c (b ++ ext) = e) as Hst.
  { intros b ext e He Hne. unfold DecodeOne in He.
    destruct (zlen b <? HeaderSize) eqn:E1; [congruence|]. unfold HeaderSize, zlen in E1.
    unfold DecodeOne. rewrite zlen_app. pose proof (zlen_nonneg ext).
    replace (zlen b + zlen ext <? HeaderSize) with false by (unfold HeaderSize, zlen in *; lia).
    rewrite !at_app by lia.
    destruct (negb _); [done|]. destruct (negb _); [done|]. cbv zeta in *.
    destruct (validateSemanticHeader _ _); [done|]. destruct (_ >? maxPayload c); [done|].
    set (len := BigEndian.Uint32 _ _ _ _) in *.
    destruct (if negb (Z.land _ FlagEncrypted =? 0) then _ else _); [done|].
    destruct (len + HeaderSize >? max_int); [done|].
    destruct (zlen b <? HeaderSize + len) eqn:E2; [congruence|].
    replace (zlen b + zlen ext <? HeaderSize + len) with false by lia.
    assert (slice HeaderSize (HeaderSize + len) (b ++ ext) = slice HeaderSize (HeaderSize + len) b) as ->.
    { unfold slice. assert (0 <= len) by (apply BigEndian.Uint32_range).
      unfold HeaderSize, zlen in *. rewrite drop_app_le by lia. rewrite take_app_le; [done|].
      rewrite length_drop. lia. }
    done. }
  split; simpl.
  - intros b m n ext Hd. by apply Hst.
  - intros b e ext Hd He. apply Hst; [done|]. intros [= ->]. done.
  - intros b m n Hd. apply DecodeOne_consumed in Hd as [Hd _]. unfold HeaderSize in Hd. lia.
Qed.

(** ** Properties *)

(** C31. Chunking does not matter: however the bytes of a stream are split into reads, the loop
    delivers exactly the messages that decoding the whole byte string yields, keeps the
    same incomplete tail, and ends with the same decode error if there is one, as
    long as no incomplete frame exceeds the buffer limit. Holds for every framer whose
    verdict is stable under more input, whatever the bytes. *)
Theorem readerLoop_chunking `{WebSocketLib} pf c `{!FramerStable (ce_framer c)} (chunks : list bytes) :
  fits_buffer c [] chunks ->
  exists r e, readerLoop pf c never_closing (data_event <$> chunks) = (r, e) /\
    match frames (ce_framer c) (ce_wireFramer c) (mjoin chunks) with
    | (ms, Waiting rest) => e = None /\ r_delivered r = ms /\ r_pending r = rest
    | (ms, Broken cause hint) =>
        e = Some (EndInitiate (operationalError pf c OpRead cause hint)) /\ r_delivered r = ms
    end.
Proof.
  intros Hfit. unfold readerLoop. cbn [isClosing never_closing].
  match goal with |- context [read_all _ _ _ _ ?r] => set (r0 := r) end.
  destruct (read_all_reference pf c chunks r0 [] [] eq_refl Hfit) as (r & e & E & Hm).
  exists r, e. split; [done|]. simpl in Hm.
  destruct (frames _ _ (mjoin chunks)) as [ms [rest|cause hint]].
  - destruct Hm as (-> & <- & ms' & -> & Ed). by split_and!.
  - destruct Hm as (-> & ms' & -> & Ed). by split_and!.
Qed.

(** A stream of encoded frames, none longer than the buffer limit, followed by a proper
    prefix of another. *)
Inductive encoded_stream (f : Framer) (limit : Z) : list Message -> bytes -> bytes -> Prop :=
  | stream_end rnd m frame p q :
      f_Encode f rnd m = inl frame -> zlen frame <= limit -> frame = p ++ q -> q <> [] ->
      encoded_stream f limit [] p p
  | stream_frame rnd m frame ms tail b :
      f_Encode f rnd m = inl frame -> zlen frame <= limit -> encoded_stream f limit ms tail b ->
      encoded_stream f limit (m :: ms) tail (frame ++ b).

Section streams.
Context (f : Framer) (limit : Z) (wire : bool) `{!FramerOk f}.

Lemma encoded_stream_frames ms tail b :
  encoded_stream f limit ms tail b -> frames f wire b = (ms, Waiting tail) /\ zlen tail <= limit.
Proof.
  induction 1 as [rnd m frame p q He Hl -> Hq|rnd m frame ms tail b He Hl _ [IH Ht]].
  - split.
    + destruct p as [|x p]; [done|]. unfold frames. cbn [greedy].
      by rewrite (framer_need_more _ _ _ _ _ He eq_refl Hq).
    + rewrite zlen_app in Hl. pose proof (zlen_nonneg q). lia.
  - split; [|done]. destruct (framer_decode_encode rnd m frame b He) as [Hd Hpos].
    pose proof (framer_valid _ _ _ Hd) as Hv.
    destruct frame as [|x frame]; [done|]. change ((x :: frame) ++ b) with (x :: (frame ++ b)) in *.
    rewrite (frames_step _ _ _ _ _ _ Hd); [| |done].
    + change (x :: (frame ++ b)) with ((x :: frame) ++ b).
      unfold zlen. rewrite Nat2Z.id, drop_app_length, IH. done.
    + change (x :: (frame ++ b)) with ((x :: frame) ++ b). rewrite zlen_app.
      pose proof (zlen_nonneg b). lia.
Qed.

(** A prefix of such a stream is one. *)
Lemma encoded_stream_prefix ms tail b b1 b2 :
  encoded_stream f limit ms tail b -> b = b1 ++ b2 ->
  exists ms1 tail1, encoded_stream f limit ms1 tail1 b1.
Proof.
  intros Hs. revert b1 b2. induction Hs as [rnd m frame p q He Hl -> Hq|rnd m frame ms tail b He Hl Hs IH];
    intros b1 b2 Hb.
  - subst p. rewrite <- (assoc_L (++)) in *. eexists [], b1. eapply stream_end; [exact He|done|done|].
    by destruct b2.
  - destruct (decide (length b1 < length frame)%nat) as [Hlt|Hge].
    + exists [], b1. pose proof (f_equal (take (length frame)) Hb) as E.
      rewrite take_app_length in E. 
      eapply (stream_end _ _ rnd m frame b1 (drop (length b1) frame)); [done|done| |].
      * rewrite <- (take_drop (length b1) frame) at 1. f_equal.
        pose proof (f_equal (take (length b1)) Hb) as E'. rewrite take_app_length in E'.
        rewrite take_app_le in E' by lia. done.
      * intros E'%(f_equal length). rewrite length_drop in E'. simpl in E'. lia.
    + assert (b1 = frame ++ drop (length frame) b1) as Eb1.
      { rewrite <- (take_drop (length frame) b1) at 1. f_equal.
        pose proof (f_equal (take (length frame)) Hb) as E. rewrite take_app_length in E.
        rewrite take_app_le in E by lia. done. }
      destruct (IH (drop (length frame) b1) b2) as (ms1 & tail1 & H1).
      { apply (app_inv_head frame). rewrite (assoc_L (++)), <- Eb1. done. }
      exists (m :: ms1), tail1. rewrite Eb1. by eapply stream_frame.
Qed.
End streams.

(** The loop on a stream of frames, against the reference decoder. *)
Lemma readerLoop_stream `{WebSocketLib} pf c `{!FramerStable (ce_framer c), !FramerOk (ce_framer c)}
    (ms : list Message) (tail : bytes) (chunks : list bytes) :
  encoded_stream (ce_framer c) (ce_maxRead c) ms tail (mjoin chunks) ->
  exists r, readerLoop pf c never_closing (data_event <$> chunks) = (r, None) /\
    r_delivered r = ms /\ r_pending r = tail.
Proof.
  intros Hs. destruct (encoded_stream_frames _ _ (ce_wireFramer c) _ _ _ Hs) as [E _].
  unfold readerLoop. cbn [isClosing never_closing].
  match goal with |- context [read_all _ _ _ _ ?r] => set (r0 := r) end.
  destruct (read_all_reference pf c chunks r0 [] [] eq_refl) as (r & e & Er & Hm).
  { intros k ms' rest Hk. rewrite <- (take_drop k chunks), join_app in Hs.
    destruct (encoded_stream_prefix _ _ _ _ _ _ _ Hs eq_refl) as (ms1 & tail1 & H1).
    destruct (encoded_stream_frames _ _ (ce_wireFramer c) _ _ _ H1) as [E1 Hl]. simpl in Hk. congruence. }
  simpl in Hm. rewrite E in Hm. destruct Hm as (-> & Ep & ms' & -> & Ed). by exists r.
Qed.

(** What was sent is what is received: frames encoded by the peer's framer and split into
    reads at arbitrary points are delivered as the messages they encode, in order, the
    incomplete last frame is kept, and the session stays open. *)
Theorem readerLoop_delivers `{WebSocketLib} pf c `{!FramerStable (ce_framer c), !FramerOk (ce_framer c)}
    (ms : list Message) (tail : bytes) (chunks : list bytes) :
  encoded_stream (ce_framer c) (ce_maxRead c) ms tail (mjoin chunks) ->
  exists r, readerLoop pf c never_closing (data_event <$> chunks) = (r, None) /\
    r_delivered r = ms /\ r_pending r = tail.
Proof. exact (readerLoop_stream pf c ms tail chunks). Qed.

(** Two messages whose frames are cut in the middle of the second. *)
Definition demo_env : connEnv :=
  {| ce_protocol := SchemeTCP; ce_local := None; ce_remote := None;
     ce_framer := codec_framer demo_codec; ce_wireFramer := true; ce_maxRead := 64;
     ce_readIdle := false |}.
Definition demo_chunks : list bytes :=
  [demo_frame ++ take 3 demo_frame; drop 3 demo_frame ++ take 5 demo_frame].

Lemma readerLoop_chunking_witness :
  let lib := {| CloseStatus := fun _ => -1 |} in
  exists r e, readerLoop Unix demo_env never_closing (data_event <$> demo_chunks) = (r, e) /\
    e = None /\ r_delivered r = [demo_message; demo_message].
Proof.
  cbv zeta.
  destruct (@readerLoop_chunking {| CloseStatus := fun _ => -1 |} Unix demo_env
              (codec_stable demo_codec) demo_chunks) as (r & e & E & Hm).
  - intros k ms rest. assert (mjoin (take k demo_chunks) = [] \/
      mjoin (take k demo_chunks) = mjoin (take 1 demo_chunks) \/
      mjoin (take k demo_chunks) = mjoin demo_chunks) as Hk
      by (destruct k as [|[|[|k]]]; simpl; auto).
    destruct Hk as [-> | [-> | ->]]; intros H; vm_compute in H; injection H as <- <-; vm_compute;
      discriminate.
  - exists r, e. split; [exact E|]. vm_compute in Hm. destruct Hm as (H1 & H2 & _).
    split; [exact H1|exact H2].
Defined.

Lemma readerLoop_delivers_witness :
  let lib := {| CloseStatus := fun _ => -1 |} in
  exists r, readerLoop Unix demo_env never_closing (data_event <$> demo_chunks) = (r, None) /\
    r_delivered r = [demo_message; demo_message] /\ r_pending r = take 5 demo_frame.
Proof.
  cbv zeta.
  apply (@readerLoop_delivers {| CloseStatus := fun _ => -1 |} Unix demo_env
           (codec_stable demo_codec) (codec_framer_ok demo_codec demo_codec_ok)).
  change (mjoin demo_chunks) with (demo_frame ++ (demo_frame ++ take 5 demo_frame)).
  apply (stream_frame _ _ [] demo_message demo_frame); [reflexivity|vm_compute; discriminate|].
  apply (stream_frame _ _ [] demo_message demo_frame); [reflexivity|vm_compute; discriminate|].
  apply (stream_end _ _ [] demo_message demo_frame _ (drop 5 demo_frame));
    [reflexivity|vm_compute; discriminate|reflexivity|discriminate].
Defined.
