(* ===== verification/WsCodec.v ===== *)
(** * WsCodec: messages on a WebSocket (transport/websocket.go)

    [encode] and [decode] of a WebSocket session: the payload limit, encryption bound to
    the protocol and the kind of message, and base64 for encrypted text, which has to stay
    valid UTF-8.  The two message types are those of github.com/coder/websocket; a value
    of another type is [MessageOther]. *)
From S2P Require Import Prelude Kinds Errors Encoding Secure Message Wire.
Local Open Scope go_scope.

Inductive MessageType := MessageText | MessageBinary | MessageOther (n : Z).

(** What [encode] and [decode] read of a session. *)
Record wsCodec := { wc_protocol : Scheme; wc_cipher : option Cipher; wc_maxMessage : Z }.

Definition wsAAD (protocol : Scheme) (kind : PayloadType) : bytes :=
  [x4f; x47]%byte ++ [to_byte (scheme_value protocol); to_byte (payload_value kind)].

Definition ws_encode (c : wsCodec) (rnd : bytes) (m : Message) : result (MessageType * bytes) :=
  match Validate m with
  | Some e => inr e
  | None =>
      if zlen (msg_Data m) >? wc_maxMessage c then inr (Sentinel ErrMessageTooLarge)
      else
        let typ := if bool_decide (msg_Type m = PayloadText) then MessageText else MessageBinary in
        let sealed :=
          match wc_cipher c with
          | None => inl (msg_Data m)
          | Some cipher =>
              let aad := wsAAD (wc_protocol c) (msg_Type m) in
              match (match Authenticated cipher with
                     | Some ops => SealAAD ops rnd [] (msg_Data m) aad
                     | None => Seal cipher rnd [] (msg_Data m)
                     end) with
              | inr e => inr (Errorf "transport: websocket encrypt" e)
              | inl payload =>
                  inl (if bool_decide (msg_Type m = PayloadText) then Base64.Encode payload else payload)
              end
          end in
        try payload := sealed in
        if zlen payload >? wc_maxMessage c then inr (Sentinel ErrMessageTooLarge)
        else inl (typ, payload)
  end.

(** [fmt.Errorf] without a wrapped error. *)
Definition unsupported_type : error := Foreign {| f_id := 3; f_type := FOther; f_timeout := None |} [].

Definition ws_open (c : wsCodec) (cipher : Cipher) (kind : PayloadType) (data : bytes) : result bytes :=
  let decoded :=
    if bool_decide (kind = PayloadText) then
      match Base64.Decode data with
      | inl d => inl d
      | inr off => inr (Errorf "transport: websocket text base64" (corrupt_input off))
      end
    else inl data in
  try data := decoded in
  let aad := wsAAD (wc_protocol c) kind in
  match (match Authenticated cipher with
         | Some ops => OpenAAD ops [] data aad
         | None => Open cipher [] data
         end) with
  | inr e => inr (Errorf "transport: websocket decrypt" e)
  | inl plaintext => inl plaintext
  end.

Definition ws_decode (c : wsCodec) (typ : MessageType) (payload : bytes) : result Message :=
  match (match typ with
         | MessageText => Some PayloadText
         | MessageBinary => Some PayloadBinary
         | MessageOther _ => None
         end) with
  | None => inr unsupported_type
  | Some kind =>
      if zlen payload >? wc_maxMessage c then inr (Sentinel ErrMessageTooLarge)
      else
        let opened :=
          match wc_cipher c with None => inl payload | Some cipher => ws_open c cipher kind payload end in
        try data := opened in
        if zlen data >? wc_maxMessage c then inr (Sentinel ErrMessageTooLarge)
        else
          let m := {| msg_Type := kind; msg_Data := data |} in
          match Validate m with
          | Some e => inr e
          | None => inl m
          end
  end.

(** ** Properties *)
Definition ws_codec_ok (c : wsCodec) : Prop := forall cipher, wc_cipher c = Some cipher -> CipherOk cipher.

(** The payload carries the data. *)
Lemma ws_open_seal c cipher `{!CipherOk cipher} rnd m ct :
  (match Authenticated cipher with
   | Some ops => SealAAD ops rnd [] (msg_Data m) (wsAAD (wc_protocol c) (msg_Type m))
   | None => Seal cipher rnd [] (msg_Data m)
   end) = inl ct ->
  ws_open c cipher (msg_Type m)
    (if bool_decide (msg_Type m = PayloadText) then Base64.Encode ct else ct) = inl (msg_Data m).
Proof.
  intros Hs. unfold ws_open.
  replace (if bool_decide _ then match Base64.Decode _ with inl d => inl d | inr off => _ end else _)
    with (@inl bytes error ct) by (case_bool_decide; [by rewrite Base64.Decode_Encode | done]).
  destruct (Authenticated cipher) as [ops|] eqn:EA.
  - by rewrite (cipher_open_seal_aad _ EA _ _ _ _ Hs).
  - by rewrite (cipher_open_seal _ _ _ Hs).
Qed.

(** What a WebSocket session sends, a session of the same protocol, limit and cipher
    receives: the message comes back unchanged, and the payload is within the limit. *)
Theorem ws_decode_encode c rnd m typ payload :
  ws_codec_ok c -> ws_encode c rnd m = inl (typ, payload) ->
  ws_decode c typ payload = inl m /\ zlen payload <= wc_maxMessage c.
Proof.
  intros Hc. unfold ws_encode. destruct (Validate m) as [|] eqn:Hv; [done|].
  destruct (_ >? _) eqn:El; [done|]. cbv zeta.
  match goal with |- context [match ?x with inl payload => _ | inr e => _ end] => destruct x as [p|] eqn:Es; [|done] end.
  destruct (zlen p >? _) eqn:Ep; [done|]. intros [= <- <-]. split; [|lia].
  unfold ws_decode. rewrite Ep.
  assert (match (if bool_decide (msg_Type m = PayloadText) then MessageText else MessageBinary) with
          | MessageText => Some PayloadText | MessageBinary => Some PayloadBinary | MessageOther _ => None
          end = Some (msg_Type m)) as ->.
  { by destruct (Validate_named _ Hv) as [-> | ->]. }
  assert (match wc_cipher c with None => inl p | Some cipher => ws_open c cipher (msg_Type m) p end
          = inl (msg_Data m)) as ->.
  { destruct (wc_cipher c) as [cipher|] eqn:Ec; [|by simplify_eq].
    pose proof (Hc cipher Ec).
    destruct (match Authenticated cipher with Some _ => _ | None => _ end) as [ct|] eqn:Ect; [|done].
    simplify_eq. by apply ws_open_seal with rnd. }
  cbv zeta. rewrite El. destruct m as [t d]. cbn [msg_Type msg_Data] in *. by rewrite Hv.
Qed.

(** Whatever bytes the peer sends, a decoded message is valid, of the kind of the
    WebSocket message that carried it, and neither it nor its payload exceeds the
    limit. *)
Theorem ws_decode_bounds c typ payload m :
  ws_decode c typ payload = inl m ->
  Validate m = None /\ zlen (msg_Data m) <= wc_maxMessage c /\ zlen payload <= wc_maxMessage c /\
  (typ = MessageText /\ msg_Type m = PayloadText \/ typ = MessageBinary /\ msg_Type m = PayloadBinary).
Proof.
  unfold ws_decode. destruct typ; [| |done].
  all: destruct (zlen payload >? _) eqn:E1; [done|]; cbv zeta;
    match goal with |- context [match ?x with inl data => _ | inr e => _ end] => destruct x as [d|]; [|done] end;
    destruct (zlen d >? _) eqn:E2; [done|]; destruct (Validate _) eqn:Hv; [done|]; intros [= <-];
    cbn [msg_Data msg_Type]; split_and!; [done|lia|lia|auto].
Qed.

(** A session without a cipher. *)
Definition demo_ws : wsCodec := {| wc_protocol := SchemeWS; wc_cipher := None; wc_maxMessage := 16 |}.
Lemma ws_decode_encode_witness : ws_decode demo_ws MessageText [x68; x69]%byte = inl demo_message.
Proof.
  apply (ws_decode_encode demo_ws [] demo_message); [|reflexivity]. intros cipher H. discriminate H.
Defined.
Lemma ws_decode_bounds_witness : Validate (Bin [x00]%byte) = None.
Proof. apply (ws_decode_bounds demo_ws MessageBinary [x00]%byte). reflexivity. Defined.
