(* ===== verification/Options.v ===== *)
(** * Options: Engine configuration (transport/options.go, timeouts.go, tls.go, observer.go)

    The [config] record, every [With*] option as a function that either updates the
    record or rejects its argument, the option loop of [New], the derived timeouts,
    and the constructors of ciphers, framers and TLS configurations.  Durations are
    [int64] nanoseconds. *)
From S2P Require Import Prelude Kinds Errors Limits Secure Message Wire Endpoint.
Local Open Scope go_scope.

Definition Second : Z := 1000000000.
Definition defaultWriteQueue : Z := 256.
Definition defaultMaxQueuedBytes : Z := Z.shiftl 64 20.
Definition defaultReadBuffer : Z := Z.shiftl 64 10.
Definition defaultMaxBufferedRead : Z := Z.shiftl 32 20.
Definition defaultMaxMessageBytes : Z := Z.shiftl 16 20.
Definition defaultMaxDatagramBytes : Z := 65507.
Definition defaultTLSHandshakeTimeout : Z := 10 * Second.
Definition defaultWSHandshakeTimeout : Z := 10 * Second.
Definition defaultWSWriteTimeout : Z := 10 * Second.
Definition defaultWSCloseTimeout : Z := 10 * Second.
Definition defaultWSPingInterval : Z := 30 * Second.
Definition defaultWSPongTimeout : Z := 10 * Second.
Definition defaultConnectTimeout : Z := 10 * Second.
Definition defaultHandshakeTimeout : Z := 10 * Second.
Definition defaultWriteTimeout : Z := 10 * Second.
Definition defaultObserverBuffer : Z := 1024.

(** A factory may answer differently at each call; the argument numbers the calls. *)
Definition FramerFactory : Type := nat -> option Framer.
Definition CipherFactory : Type := nat -> option Cipher * option error.

Record TCPConfig := {
  NoDelay : bool; KeepAlive : bool; KeepAlivePeriod : Z;
  ReadBufferBytes : Z; WriteBufferBytes : Z }.

Record WebSocketConfig := {
  OriginPatterns : list string; Subprotocols : list string;
  ws_HandshakeTimeout : Z; ws_WriteTimeout : Z; ws_CloseTimeout : Z;
  ws_PingInterval : Z; ws_PongTimeout : Z }.

Record Timeouts := {
  t_Connect : Z; t_Handshake : Z; t_Write : Z;
  t_ReadIdle : Z; t_ConnectionIdle : Z; t_MaxLifetime : Z }.

Record timeoutOverrides := { o_tlsHandshake : bool; o_wsHandshake : bool; o_wsWrite : bool }.

(** The fields of [tls.Config] the code reads or writes. *)
Record tlsConfig := {
  MinVersion : Z; MaxVersion : Z; ServerName : string;
  Certificates : list Z;            (* the certificates, by identity *)
  GetCertificate : bool; GetConfigForClient : bool }.   (* callbacks set *)
Definition VersionTLS13 : Z := 0x0304.

Record config := {
  cfg_cipher : option Cipher;
  cfg_cipherFactory : option CipherFactory;
  cfg_framerFactory : option FramerFactory;
  cfg_clientTLS : option tlsConfig;
  cfg_serverTLS : option tlsConfig;
  cfg_tlsHandshakeTimeout : Z;
  cfg_timeouts : Timeouts;
  cfg_overrides : timeoutOverrides;
  cfg_tcp : TCPConfig;
  cfg_ws : WebSocketConfig;
  cfg_limits : Limits;
  cfg_observer : option Z;
  cfg_observerBuffer : Z;
  cfg_writeQueue : Z;
  cfg_maxQueuedBytes : Z;
  cfg_readBuffer : Z;
  cfg_maxBufferedRead : Z;
  cfg_maxMessageBytes : Z;
  cfg_maxDatagramBytes : Z;
}.

(** Field assignments. *)
Definition set_cipher (x : option Cipher) (y : option CipherFactory) (c : config) : config :=
  Build_config
    x y (cfg_framerFactory c) (cfg_clientTLS c) (cfg_serverTLS c)
    (cfg_tlsHandshakeTimeout c) (cfg_timeouts c) (cfg_overrides c) (cfg_tcp c) (cfg_ws
    c) (cfg_limits c) (cfg_observer c) (cfg_observerBuffer c) (cfg_writeQueue c)
    (cfg_maxQueuedBytes c) (cfg_readBuffer c) (cfg_maxBufferedRead c)
    (cfg_maxMessageBytes c) (cfg_maxDatagramBytes c).

Definition set_framerFactory (x : option FramerFactory) (c : config) : config :=
  Build_config
    (cfg_cipher c) (cfg_cipherFactory c) x (cfg_clientTLS c) (cfg_serverTLS c)
    (cfg_tlsHandshakeTimeout c) (cfg_timeouts c) (cfg_overrides c) (cfg_tcp c) (cfg_ws
    c) (cfg_limits c) (cfg_observer c) (cfg_observerBuffer c) (cfg_writeQueue c)
    (cfg_maxQueuedBytes c) (cfg_readBuffer c) (cfg_maxBufferedRead c)
    (cfg_maxMessageBytes c) (cfg_maxDatagramBytes c).

Definition set_clientTLS (x : option tlsConfig) (c : config) : config :=
  Build_config
    (cfg_cipher c) (cfg_cipherFactory c) (cfg_framerFactory c) x (cfg_serverTLS c)
    (cfg_tlsHandshakeTimeout c) (cfg_timeouts c) (cfg_overrides c) (cfg_tcp c) (cfg_ws
    c) (cfg_limits c) (cfg_observer c) (cfg_observerBuffer c) (cfg_writeQueue c)
    (cfg_maxQueuedBytes c) (cfg_readBuffer c) (cfg_maxBufferedRead c)
    (cfg_maxMessageBytes c) (cfg_maxDatagramBytes c).

Definition set_serverTLS (x : option tlsConfig) (c : config) : config :=
  Build_config
    (cfg_cipher c) (cfg_cipherFactory c) (cfg_framerFactory c) (cfg_clientTLS c) x
    (cfg_tlsHandshakeTimeout c) (cfg_timeouts c) (cfg_overrides c) (cfg_tcp c) (cfg_ws
    c) (cfg_limits c) (cfg_observer c) (cfg_observerBuffer c) (cfg_writeQueue c)
    (cfg_maxQueuedBytes c) (cfg_readBuffer c) (cfg_maxBufferedRead c)
    (cfg_maxMessageBytes c) (cfg_maxDatagramBytes c).

Definition set_tlsHandshakeTimeout (x : Z) (y : timeoutOverrides) (c : config) : config :=
  Build_config
    (cfg_cipher c) (cfg_cipherFactory c) (cfg_framerFactory c) (cfg_clientTLS c)
    (cfg_serverTLS c) x (cfg_timeouts c) y (cfg_tcp c) (cfg_ws c) (cfg_limits c)
    (cfg_observer c) (cfg_observerBuffer c) (cfg_writeQueue c) (cfg_maxQueuedBytes c)
    (cfg_readBuffer c) (cfg_maxBufferedRead c) (cfg_maxMessageBytes c)
    (cfg_maxDatagramBytes c).

Definition set_timeouts (x : Timeouts) (c : config) : config :=
  Build_config
    (cfg_cipher c) (cfg_cipherFactory c) (cfg_framerFactory c) (cfg_clientTLS c)
    (cfg_serverTLS c) (cfg_tlsHandshakeTimeout c) x (cfg_overrides c) (cfg_tcp c)
    (cfg_ws c) (cfg_limits c) (cfg_observer c) (cfg_observerBuffer c) (cfg_writeQueue c)
    (cfg_maxQueuedBytes c) (cfg_readBuffer c) (cfg_maxBufferedRead c)
    (cfg_maxMessageBytes c) (cfg_maxDatagramBytes c).

Definition set_tcp (x : TCPConfig) (c : config) : config :=
  Build_config
    (cfg_cipher c) (cfg_cipherFactory c) (cfg_framerFactory c) (cfg_clientTLS c)
    (cfg_serverTLS c) (cfg_tlsHandshakeTimeout c) (cfg_timeouts c) (cfg_overrides c) x
    (cfg_ws c) (cfg_limits c) (cfg_observer c) (cfg_observerBuffer c) (cfg_writeQueue c)
    (cfg_maxQueuedBytes c) (cfg_readBuffer c) (cfg_maxBufferedRead c)
    (cfg_maxMessageBytes c) (cfg_maxDatagramBytes c).

Definition set_ws (x : WebSocketConfig) (y : timeoutOverrides) (c : config) : config :=
  Build_config
    (cfg_cipher c) (cfg_cipherFactory c) (cfg_framerFactory c) (cfg_clientTLS c)
    (cfg_serverTLS c) (cfg_tlsHandshakeTimeout c) (cfg_timeouts c) y (cfg_tcp c) x
    (cfg_limits c) (cfg_observer c) (cfg_observerBuffer c) (cfg_writeQueue c)
    (cfg_maxQueuedBytes c) (cfg_readBuffer c) (cfg_maxBufferedRead c)
    (cfg_maxMessageBytes c) (cfg_maxDatagramBytes c).

Definition set_limits (x : Limits) (c : config) : config :=
  Build_config
    (cfg_cipher c) (cfg_cipherFactory c) (cfg_framerFactory c) (cfg_clientTLS c)
    (cfg_serverTLS c) (cfg_tlsHandshakeTimeout c) (cfg_timeouts c) (cfg_overrides c)
    (cfg_tcp c) (cfg_ws c) x (cfg_observer c) (cfg_observerBuffer c) (cfg_writeQueue c)
    (cfg_maxQueuedBytes c) (cfg_readBuffer c) (cfg_maxBufferedRead c)
    (cfg_maxMessageBytes c) (cfg_maxDatagramBytes c).

Definition set_observer (x : option Z) (c : config) : config :=
  Build_config
    (cfg_cipher c) (cfg_cipherFactory c) (cfg_framerFactory c) (cfg_clientTLS c)
    (cfg_serverTLS c) (cfg_tlsHandshakeTimeout c) (cfg_timeouts c) (cfg_overrides c)
    (cfg_tcp c) (cfg_ws c) (cfg_limits c) x (cfg_observerBuffer c) (cfg_writeQueue c)
    (cfg_maxQueuedBytes c) (cfg_readBuffer c) (cfg_maxBufferedRead c)
    (cfg_maxMessageBytes c) (cfg_maxDatagramBytes c).

Definition set_observerBuffer (x : Z) (c : config) : config :=
  Build_config
    (cfg_cipher c) (cfg_cipherFactory c) (cfg_framerFactory c) (cfg_clientTLS c)
    (cfg_serverTLS c) (cfg_tlsHandshakeTimeout c) (cfg_timeouts c) (cfg_overrides c)
    (cfg_tcp c) (cfg_ws c) (cfg_limits c) (cfg_observer c) x (cfg_writeQueue c)
    (cfg_maxQueuedBytes c) (cfg_readBuffer c) (cfg_maxBufferedRead c)
    (cfg_maxMessageBytes c) (cfg_maxDatagramBytes c).

Definition set_writeQueue (x : Z) (c : config) : config :=
  Build_config
    (cfg_cipher c) (cfg_cipherFactory c) (cfg_framerFactory c) (cfg_clientTLS c)
    (cfg_serverTLS c) (cfg_tlsHandshakeTimeout c) (cfg_timeouts c) (cfg_overrides c)
    (cfg_tcp c) (cfg_ws c) (cfg_limits c) (cfg_observer c) (cfg_observerBuffer c) x
    (cfg_maxQueuedBytes c) (cfg_readBuffer c) (cfg_maxBufferedRead c)
    (cfg_maxMessageBytes c) (cfg_maxDatagramBytes c).

Definition set_maxQueuedBytes (x : Z) (c : config) : config :=
  Build_config
    (cfg_cipher c) (cfg_cipherFactory c) (cfg_framerFactory c) (cfg_clientTLS c)
    (cfg_serverTLS c) (cfg_tlsHandshakeTimeout c) (cfg_timeouts c) (cfg_overrides c)
    (cfg_tcp c) (cfg_ws c) (cfg_limits c) (cfg_observer c) (cfg_observerBuffer c)
    (cfg_writeQueue c) x (cfg_readBuffer c) (cfg_maxBufferedRead c) (cfg_maxMessageBytes
    c) (cfg_maxDatagramBytes c).

Definition set_readBuffer (x : Z) (c : config) : config :=
  Build_config
    (cfg_cipher c) (cfg_cipherFactory c) (cfg_framerFactory c) (cfg_clientTLS c)
    (cfg_serverTLS c) (cfg_tlsHandshakeTimeout c) (cfg_timeouts c) (cfg_overrides c)
    (cfg_tcp c) (cfg_ws c) (cfg_limits c) (cfg_observer c) (cfg_observerBuffer c)
    (cfg_writeQueue c) (cfg_maxQueuedBytes c) x (cfg_maxBufferedRead c)
    (cfg_maxMessageBytes c) (cfg_maxDatagramBytes c).

Definition set_maxBufferedRead (x : Z) (c : config) : config :=
  Build_config
    (cfg_cipher c) (cfg_cipherFactory c) (cfg_framerFactory c) (cfg_clientTLS c)
    (cfg_serverTLS c) (cfg_tlsHandshakeTimeout c) (cfg_timeouts c) (cfg_overrides c)
    (cfg_tcp c) (cfg_ws c) (cfg_limits c) (cfg_observer c) (cfg_observerBuffer c)
    (cfg_writeQueue c) (cfg_maxQueuedBytes c) (cfg_readBuffer c) x (cfg_maxMessageBytes
    c) (cfg_maxDatagramBytes c).

Definition set_maxMessageBytes (x : Z) (c : config) : config :=
  Build_config
    (cfg_cipher c) (cfg_cipherFactory c) (cfg_framerFactory c) (cfg_clientTLS c)
    (cfg_serverTLS c) (cfg_tlsHandshakeTimeout c) (cfg_timeouts c) (cfg_overrides c)
    (cfg_tcp c) (cfg_ws c) (cfg_limits c) (cfg_observer c) (cfg_observerBuffer c)
    (cfg_writeQueue c) (cfg_maxQueuedBytes c) (cfg_readBuffer c) (cfg_maxBufferedRead c)
    x (cfg_maxDatagramBytes c).

Definition set_maxDatagramBytes (x : Z) (c : config) : config :=
  Build_config
    (cfg_cipher c) (cfg_cipherFactory c) (cfg_framerFactory c) (cfg_clientTLS c)
    (cfg_serverTLS c) (cfg_tlsHandshakeTimeout c) (cfg_timeouts c) (cfg_overrides c)
    (cfg_tcp c) (cfg_ws c) (cfg_limits c) (cfg_observer c) (cfg_observerBuffer c)
    (cfg_writeQueue c) (cfg_maxQueuedBytes c) (cfg_readBuffer c) (cfg_maxBufferedRead c)
    (cfg_maxMessageBytes c) x.

Definition defaultConfig : config := {|
  cfg_cipher := None; cfg_cipherFactory := None; cfg_framerFactory := None;
  cfg_clientTLS := None; cfg_serverTLS := None;
  cfg_tlsHandshakeTimeout := defaultTLSHandshakeTimeout;
  cfg_timeouts := {| t_Connect := defaultConnectTimeout; t_Handshake := defaultHandshakeTimeout;
                     t_Write := defaultWriteTimeout; t_ReadIdle := 0; t_ConnectionIdle := 0;
                     t_MaxLifetime := 0 |};
  cfg_overrides := {| o_tlsHandshake := false; o_wsHandshake := false; o_wsWrite := false |};
  cfg_tcp := {| NoDelay := true; KeepAlive := true; KeepAlivePeriod := 30 * Second;
                ReadBufferBytes := 0; WriteBufferBytes := 0 |};
  cfg_ws := {| OriginPatterns := []; Subprotocols := [];
               ws_HandshakeTimeout := defaultWSHandshakeTimeout;
               ws_WriteTimeout := defaultWSWriteTimeout; ws_CloseTimeout := defaultWSCloseTimeout;
               ws_PingInterval := defaultWSPingInterval; ws_PongTimeout := defaultWSPongTimeout |};
  cfg_limits := {| MaxConnections := 0; MaxConnectionsPerPeer := 0;
                   MaxConnectionsPerListener := 0; MaxConcurrentHandshakes := 0;
                   MaxPendingUpgrades := 0; MaxQueuedBytesTotal := 0 |};
  cfg_observer := None; cfg_observerBuffer := defaultObserverBuffer;
  cfg_writeQueue := defaultWriteQueue; cfg_maxQueuedBytes := defaultMaxQueuedBytes;
  cfg_readBuffer := defaultReadBuffer; cfg_maxBufferedRead := defaultMaxBufferedRead;
  cfg_maxMessageBytes := defaultMaxMessageBytes;
  cfg_maxDatagramBytes := defaultMaxDatagramBytes |}.

(** ** Options

    A Go [Option] is [func( *config) error]. *)
Definition Option : Type := config -> result config.
Definition reject (s : sentinel) : result config := inr (Sentinel s).

Definition WithLimits (limits : Limits) : Option := fun c =>
  match validate limits with Some err => inr err | None => inl (set_limits limits c) end.

Definition WithCipher (cipher : option Cipher) : Option := fun c =>
  if bool_decide (is_Some (cfg_framerFactory c)) then reject ErrConflictingCodecOptions
  else inl (set_cipher cipher None c).

Definition WithCipherFactory (factory : option CipherFactory) : Option := fun c =>
  match factory with
  | None => reject ErrNilCipherFactory
  | Some _ =>
      if bool_decide (is_Some (cfg_framerFactory c)) then reject ErrConflictingCodecOptions
      else inl (set_cipher None factory c)
  end.

Definition WithFramerFactory (factory : option FramerFactory) : Option := fun c =>
  match factory with
  | None => reject ErrNilFramer
  | Some _ =>
      if bool_decide (is_Some (cfg_cipher c)) || bool_decide (is_Some (cfg_cipherFactory c))
      then reject ErrConflictingCodecOptions
      else inl (set_framerFactory factory c)
  end.

Definition WithTLSClientConfig (cfg : option tlsConfig) : Option := fun c =>
  match cfg with None => reject ErrTLSConfigRequired | Some _ => inl (set_clientTLS cfg c) end.
Definition WithTLSServerConfig (cfg : option tlsConfig) : Option := fun c =>
  match cfg with None => reject ErrTLSConfigRequired | Some _ => inl (set_serverTLS cfg c) end.

Definition WithTLSHandshakeTimeout (timeout : Z) : Option := fun c =>
  if timeout <=? 0 then reject ErrInvalidTimeout
  else inl (set_tlsHandshakeTimeout timeout
              {| o_tlsHandshake := true; o_wsHandshake := o_wsHandshake (cfg_overrides c);
                 o_wsWrite := o_wsWrite (cfg_overrides c) |} c).

Definition WithTCPConfig (cfg : TCPConfig) : Option := fun c =>
  if KeepAlive cfg && (KeepAlivePeriod cfg <=? 0) then reject ErrInvalidTimeout
  else if (ReadBufferBytes cfg <? 0) || (WriteBufferBytes cfg <? 0) then reject ErrInvalidBuffer
  else inl (set_tcp cfg c).

Definition WithWebSocketConfig (cfg : WebSocketConfig) : Option := fun c =>
  if (ws_HandshakeTimeout cfg <=? 0) || (ws_WriteTimeout cfg <=? 0) || (ws_PongTimeout cfg <=? 0)
     || (ws_PingInterval cfg <? 0) || (ws_CloseTimeout cfg <? 0)
  then reject ErrInvalidWebSocketConfig
  else
    let close := if ws_CloseTimeout cfg =? 0 then defaultWSCloseTimeout else ws_CloseTimeout cfg in
    inl (set_ws
      {| OriginPatterns := OriginPatterns cfg; Subprotocols := Subprotocols cfg;
         ws_HandshakeTimeout := ws_HandshakeTimeout cfg; ws_WriteTimeout := ws_WriteTimeout cfg;
         ws_CloseTimeout := close; ws_PingInterval := ws_PingInterval cfg;
         ws_PongTimeout := ws_PongTimeout cfg |}
      {| o_tlsHandshake := o_tlsHandshake (cfg_overrides c); o_wsHandshake := true;
         o_wsWrite := true |} c).

Definition WithWriteQueue (size : Z) : Option := fun c =>
  if (size <=? 0) || (size =? max_int) then reject ErrInvalidQueueSize
  else inl (set_writeQueue size c).
Definition WithMaxQueuedBytes (size : Z) : Option := fun c =>
  if size <=? 0 then reject ErrInvalidQueuedBytes else inl (set_maxQueuedBytes size c).
Definition WithReadBuffer (size : Z) : Option := fun c =>
  if size <=? 0 then reject ErrInvalidBuffer else inl (set_readBuffer size c).
Definition WithMaxBufferedRead (size : Z) : Option := fun c =>
  if size <=? 0 then reject ErrInvalidBuffer else inl (set_maxBufferedRead size c).
Definition WithMaxMessageBytes (size : Z) : Option := fun c =>
  if (size <=? 0) || (wrap_u 64 size >? max_uint32) then reject ErrInvalidMessageSize
  else inl (set_maxMessageBytes size c).
Definition WithMaxDatagramBytes (size : Z) : Option := fun c =>
  if (size <=? 0) || (size >? 65507) then reject ErrInvalidDatagramSize
  else inl (set_maxDatagramBytes size c).
Definition WithObserver (observer : option Z) : Option := fun c => inl (set_observer observer c).
Definition WithObserverBuffer (size : Z) : Option := fun c =>
  if size <=? 0 then reject ErrInvalidObserverBuffer else inl (set_observerBuffer size c).

Definition normalizeTimeouts (t : Timeouts) : result Timeouts :=
  if existsb (fun d => d <? 0) [t_Connect t; t_Handshake t; t_Write t; t_ReadIdle t;
                                t_ConnectionIdle t; t_MaxLifetime t]
  then inr (Sentinel ErrInvalidTimeout)
  else inl
    {| t_Connect := if t_Connect t =? 0 then defaultConnectTimeout else t_Connect t;
       t_Handshake := if t_Handshake t =? 0 then defaultHandshakeTimeout else t_Handshake t;
       t_Write := if t_Write t =? 0 then defaultWriteTimeout else t_Write t;
       t_ReadIdle := t_ReadIdle t; t_ConnectionIdle := t_ConnectionIdle t;
       t_MaxLifetime := t_MaxLifetime t |}.
Definition WithTimeouts (timeouts : Timeouts) : Option := fun c =>
  try normalized := normalizeTimeouts timeouts in inl (set_timeouts normalized c).

(** The option loop of [New]: nil options are skipped, the first error wins. *)
Fixpoint apply_options (c : config) (opts : list (option Option)) : result config :=
  match opts with
  | [] => inl c
  | None :: opts => apply_options c opts
  | Some opt :: opts => try c := opt c in apply_options c opts
  end.
(** The configuration of the Engine that [New] builds. *)
Definition New_config (opts : list (option Option)) : result config :=
  try cfg := apply_options defaultConfig opts in
  match validate (cfg_limits cfg) with Some err => inr err | None => inl cfg end.

(** ** Derived values *)
Definition effectiveTLSHandshakeTimeout (c : config) : Z :=
  if o_tlsHandshake (cfg_overrides c) then cfg_tlsHandshakeTimeout c
  else t_Handshake (cfg_timeouts c).
Definition effectiveWSHandshakeTimeout (c : config) : Z :=
  if o_wsHandshake (cfg_overrides c) then ws_HandshakeTimeout (cfg_ws c)
  else t_Handshake (cfg_timeouts c).
Definition effectiveWSWriteTimeout (c : config) : Z :=
  if o_wsWrite (cfg_overrides c) then ws_WriteTimeout (cfg_ws c) else t_Write (cfg_timeouts c).

(** The [call]-th creation of a cipher, nil being allowed when none is configured. *)
Definition newCipher (c : config) (call : nat) : result (option Cipher) :=
  match cfg_cipherFactory c with
  | None => inl (cfg_cipher c)
  | Some factory =>
      match factory call with
      | (_, Some err) => inr (Errorf "transport: create cipher" err)
      | (None, None) => inr (Sentinel ErrNilCipher)
      | (Some cipher, None) => inl (Some cipher)
      end
  end.

Definition newFramer (c : config) (call : nat) : result Framer :=
  match cfg_framerFactory c with
  | Some factory =>
      match factory call with None => inr (Sentinel ErrNilFramer) | Some framer => inl framer end
  | None =>
      try cipher := newCipher c call in
      inl (codec_framer {| c_Cipher := c_Cipher (New cipher);
                           c_MaxPayload := wrap_u 32 (cfg_maxMessageBytes c) |})
  end.

(** ** tls.go *)
Definition enforceTLS13 (cfg : tlsConfig) : result tlsConfig :=
  let min := if MinVersion cfg =? 0 then inl VersionTLS13
             else if MinVersion cfg <? VersionTLS13 then inr (Sentinel ErrTLSVersion)
             else inl (MinVersion cfg) in
  try min := min in
  if negb (MaxVersion cfg =? 0) && (MaxVersion cfg <? VersionTLS13)
  then inr (Sentinel ErrTLSVersion)
  else inl {| MinVersion := min; MaxVersion := MaxVersion cfg; ServerName := ServerName cfg;
              Certificates := Certificates cfg; GetCertificate := GetCertificate cfg;
              GetConfigForClient := GetConfigForClient cfg |}.

Definition emptyTLS : tlsConfig :=
  {| MinVersion := 0; MaxVersion := 0; ServerName := ""; Certificates := [];
     GetCertificate := false; GetConfigForClient := false |}.

Definition clientTLSConfig (c : config) (endpoint : Endpoint) : result tlsConfig :=
  try cfg := enforceTLS13 (default emptyTLS (cfg_clientTLS c)) in
  inl {| MinVersion := MinVersion cfg; MaxVersion := MaxVersion cfg;
         ServerName := if bool_decide (ServerName cfg = ""%string) then ep_Host endpoint
                       else ServerName cfg;
         Certificates := Certificates cfg; GetCertificate := GetCertificate cfg;
         GetConfigForClient := GetConfigForClient cfg |}.

Definition serverTLSConfig (c : config) : result tlsConfig :=
  match cfg_serverTLS c with
  | None => inr (Sentinel ErrTLSConfigRequired)
  | Some cfg =>
      try cfg := enforceTLS13 cfg in
      if bool_decide (Certificates cfg = []) && negb (GetCertificate cfg)
         && negb (GetConfigForClient cfg)
      then inr (Sentinel ErrTLSCertificateRequired)
      else inl cfg
  end.

(** ** The invariant of an accepted configuration *)
(** The exported options with their arguments. *)
Inductive setting :=
  | Limits_ (l : Limits) | Cipher_ (c : option Cipher) | CipherFactory_ (f : option CipherFactory)
  | FramerFactory_ (f : option FramerFactory) | TLSClient_ (t : option tlsConfig)
  | TLSServer_ (t : option tlsConfig) | TLSHandshakeTimeout_ (d : Z) | TCP_ (t : TCPConfig)
  | WebSocket_ (w : WebSocketConfig) | WriteQueue_ (n : Z) | MaxQueuedBytes_ (n : Z)
  | ReadBuffer_ (n : Z) | MaxBufferedRead_ (n : Z) | MaxMessageBytes_ (n : Z)
  | MaxDatagramBytes_ (n : Z) | Observer_ (o : option Z) | ObserverBuffer_ (n : Z)
  | Timeouts_ (t : Timeouts) | Nil_.

Definition option_of (s : setting) : option Option :=
  match s with
  | Limits_ l => Some (WithLimits l) | Cipher_ c => Some (WithCipher c)
  | CipherFactory_ f => Some (WithCipherFactory f)
  | FramerFactory_ f => Some (WithFramerFactory f)
  | TLSClient_ t => Some (WithTLSClientConfig t) | TLSServer_ t => Some (WithTLSServerConfig t)
  | TLSHandshakeTimeout_ d => Some (WithTLSHandshakeTimeout d) | TCP_ t => Some (WithTCPConfig t)
  | WebSocket_ w => Some (WithWebSocketConfig w) | WriteQueue_ n => Some (WithWriteQueue n)
  | MaxQueuedBytes_ n => Some (WithMaxQueuedBytes n) | ReadBuffer_ n => Some (WithReadBuffer n)
  | MaxBufferedRead_ n => Some (WithMaxBufferedRead n)
  | MaxMessageBytes_ n => Some (WithMaxMessageBytes n)
  | MaxDatagramBytes_ n => Some (WithMaxDatagramBytes n) | Observer_ o => Some (WithObserver o)
  | ObserverBuffer_ n => Some (WithObserverBuffer n) | Timeouts_ t => Some (WithTimeouts t)
  | Nil_ => None
  end.

(** The arguments whose width matters are 64-bit integers. *)
Definition setting_i64 (s : setting) : Prop :=
  match s with WriteQueue_ n | MaxMessageBytes_ n => n < 2 ^ 63 | _ => True end.

Record config_ok (c : config) : Prop := {
  (** a custom framer excludes ciphers, and a cipher excludes a cipher factory *)
  ok_codec : cfg_framerFactory c <> None -> cfg_cipher c = None /\ cfg_cipherFactory c = None;
  ok_cipher : cfg_cipher c = None \/ cfg_cipherFactory c = None;
  ok_queue : 0 < cfg_writeQueue c /\ cfg_writeQueue c + 1 < 2 ^ 63;
  ok_sizes : 0 < cfg_maxQueuedBytes c /\ 0 < cfg_readBuffer c /\ 0 < cfg_maxBufferedRead c /\
             0 < cfg_observerBuffer c;
  ok_message : 0 < cfg_maxMessageBytes c <= max_uint32;
  ok_datagram : 0 < cfg_maxDatagramBytes c <= 65507;
  ok_bounded : 0 < t_Connect (cfg_timeouts c) /\ 0 < t_Handshake (cfg_timeouts c) /\
               0 < t_Write (cfg_timeouts c) /\ 0 < cfg_tlsHandshakeTimeout c;
  ok_idle : 0 <= t_ReadIdle (cfg_timeouts c) /\ 0 <= t_ConnectionIdle (cfg_timeouts c) /\
            0 <= t_MaxLifetime (cfg_timeouts c);
  ok_ws : 0 < ws_HandshakeTimeout (cfg_ws c) /\ 0 < ws_WriteTimeout (cfg_ws c) /\
          0 < ws_CloseTimeout (cfg_ws c) /\ 0 <= ws_PingInterval (cfg_ws c) /\
          0 < ws_PongTimeout (cfg_ws c);
  ok_tcp : (KeepAlive (cfg_tcp c) = true -> 0 < KeepAlivePeriod (cfg_tcp c)) /\
           0 <= ReadBufferBytes (cfg_tcp c) /\ 0 <= WriteBufferBytes (cfg_tcp c);
  ok_limits : validate (cfg_limits c) = None;
}.

Lemma default_ok : config_ok defaultConfig.
Proof. split; vm_compute; intuition congruence. Qed.

(** Reads the tests of an option off the equation that says it succeeded. *)
Ltac option_cases :=
  repeat match goal with
         | H : (if ?b then _ else _) = inl _ |- _ => destruct b eqn:?; [try done|try done]
         | H : match ?x with _ => _ end = inl _ |- _ => destruct x eqn:?; try done
         end;
  simplify_eq.

Ltac unfold_option H :=
  cbv delta [WithLimits WithCipher WithCipherFactory WithFramerFactory WithTLSClientConfig
    WithTLSServerConfig WithTLSHandshakeTimeout WithTCPConfig WithWebSocketConfig
    WithWriteQueue WithMaxQueuedBytes WithReadBuffer WithMaxBufferedRead WithMaxMessageBytes
    WithMaxDatagramBytes WithObserver WithObserverBuffer WithTimeouts max_int reject] in H;
  cbv beta zeta in H.

Lemma normalize_ok t t' : normalizeTimeouts t = inl t' ->
  (0 < t_Connect t' /\ 0 < t_Handshake t' /\ 0 < t_Write t') /\
  0 <= t_ReadIdle t' /\ 0 <= t_ConnectionIdle t' /\ 0 <= t_MaxLifetime t'.
Proof.
  unfold normalizeTimeouts. cbn [existsb].
  destruct (_ || _) eqn:E; [done|]. intros [= <-]. cbn.
  repeat (apply orb_false_iff in E as [? E]).
  unfold defaultConnectTimeout, defaultHandshakeTimeout, defaultWriteTimeout, Second.
  bool_cases; lia.
Qed.

Lemma setting_preserves s o c c' :
  option_of s = Some o -> setting_i64 s -> config_ok c -> o c = inl c' -> config_ok c'.
Proof.
  intros Hs Hr [] Hc.
  destruct s; cbn in Hs; simplify_eq; cbn [setting_i64] in Hr;
    unfold_option Hc;
    option_cases; (split; cbn -[validate max_uint32 Z.pow]; try done; try lia).
  - intros Hf. apply bool_decide_eq_false in Heqb.
    destruct (cfg_framerFactory c); [destruct Heqb; eauto|done].
  - by right.
  - intros Hf. apply bool_decide_eq_false in Heqb.
    destruct (cfg_framerFactory c); [destruct Heqb; eauto|done].
  - by left.
  - intros _. apply orb_false_iff in Heqb as [H1 H2].
    apply bool_decide_eq_false in H1, H2.
    by apply eq_None_not_Some in H1, H2.
  - destruct (KeepAlive t); simpl in *; split_and!; lia.
  - unfold defaultWSCloseTimeout, Second. bool_cases; lia.
  - unfold wrap_u in *. rewrite Z.mod_small in *; lia.
  - apply normalize_ok in Heqs. lia.
  - apply normalize_ok in Heqs. lia.
Qed.

Lemma apply_options_ok ss c c' :
  Forall setting_i64 ss -> config_ok c -> apply_options c (option_of <$> ss) = inl c' ->
  config_ok c'.
Proof.
  intros Hr. revert c. induction Hr as [|s ss Hs Hr IH]; intros c Hc; cbn; [by intros [= <-]|].
  destruct (option_of s) as [o|] eqn:Eo; [|by apply IH].
  destruct (o c) as [c1|] eqn:E; [|done]. apply IH. by eapply setting_preserves.
Qed.

(** C35. Whatever options are given, in whatever order and however often, [New]
    either fails or works with a configuration whose sizes, deadlines and limits are
    in range and whose codec options do not contradict each other; in particular
    [writeQueue + 1], the capacity of the slot channels, does not overflow. *)
Theorem New_config_ok ss c :
  Forall setting_i64 ss -> New_config (option_of <$> ss) = inl c -> config_ok c.
Proof.
  intros Hr. unfold New_config.
  destruct (apply_options _ _) as [c1|] eqn:E; [|done].
  destruct (validate _); [done|]. intros [= <-].
  by eapply apply_options_ok; [| |exact E]; [|apply default_ok].
Qed.

(** ** Derived timeouts *)
Definition last_tls (acc : option Z) (s : setting) : option Z :=
  match s with TLSHandshakeTimeout_ d => Some d | _ => acc end.
Definition last_ws (acc : option WebSocketConfig) (s : setting) : option WebSocketConfig :=
  match s with WebSocket_ w => Some w | _ => acc end.
Definition last_timeouts (acc : option Timeouts) (s : setting) : option Timeouts :=
  match s with Timeouts_ t => Some t | _ => acc end.
(** A timeout of the shared policy, with its default. *)
Definition policy (field : Timeouts -> Z) (dflt : Z) (t : option Timeouts) : Z :=
  match t with Some t => if field t =? 0 then dflt else field t | None => dflt end.

(** What a configuration remembers of the options applied so far. *)
Record remembers (c : config) (tls : option Z) (ws : option WebSocketConfig)
    (t : option Timeouts) : Prop := {
  rem_tls : o_tlsHandshake (cfg_overrides c) = bool_decide (is_Some tls) /\
            forall d, tls = Some d -> cfg_tlsHandshakeTimeout c = d;
  rem_ws : o_wsHandshake (cfg_overrides c) = bool_decide (is_Some ws) /\
            o_wsWrite (cfg_overrides c) = bool_decide (is_Some ws) /\
            forall w, ws = Some w -> ws_HandshakeTimeout (cfg_ws c) = ws_HandshakeTimeout w /\
            ws_WriteTimeout (cfg_ws c) = ws_WriteTimeout w;
  rem_policy : t_Handshake (cfg_timeouts c) = policy t_Handshake defaultHandshakeTimeout t /\
            t_Write (cfg_timeouts c) = policy t_Write defaultWriteTimeout t;
}.

Lemma setting_remembers s o c c' tls ws t :
  option_of s = Some o -> o c = inl c' -> remembers c tls ws t ->
  remembers c' (last_tls tls s) (last_ws ws s) (last_timeouts t s).
Proof.
  intros Hs Hc [[? ?] [? [? ?]] [? ?]].
  destruct s; cbn in Hs; simplify_eq; unfold_option Hc;
    try (unfold normalizeTimeouts in Hc; cbn [existsb] in Hc); option_cases; split; cbn;
    naive_solver.
Qed.

Lemma apply_options_remembers ss c c' tls ws t :
  apply_options c (option_of <$> ss) = inl c' -> remembers c tls ws t ->
  remembers c' (foldl last_tls tls ss) (foldl last_ws ws ss) (foldl last_timeouts t ss).
Proof.
  revert c tls ws t. induction ss as [|s ss IH]; intros c tls ws t; cbn; [by intros [= <-]|].
  destruct (option_of s) as [o|] eqn:Eo; cycle 1.
  { destruct s; simplify_eq/=. apply IH. }
  destruct (o c) as [c1|] eqn:E; [|done]. intros Ha Hr.
  eapply IH; [done|]. by eapply setting_remembers.
Qed.

(** The timeout an operation runs under is that of the last protocol-specific option
    ([WithTLSHandshakeTimeout], [WithWebSocketConfig]) if one was given, before or
    after [WithTimeouts]; otherwise that of the last [WithTimeouts], zero meaning
    the default; otherwise the default. *)
Theorem effective_timeouts_spec ss c :
  New_config (option_of <$> ss) = inl c ->
  let policy_ := foldl last_timeouts None ss in
  let handshake := policy t_Handshake defaultHandshakeTimeout policy_ in
  effectiveTLSHandshakeTimeout c = default handshake (foldl last_tls None ss) /\
  effectiveWSHandshakeTimeout c =
    default handshake (ws_HandshakeTimeout <$> foldl last_ws None ss) /\
  effectiveWSWriteTimeout c =
    default (policy t_Write defaultWriteTimeout policy_)
      (ws_WriteTimeout <$> foldl last_ws None ss).
Proof.
  unfold New_config. destruct (apply_options _ _) as [c1|] eqn:E; [|done].
  destruct (validate _); [done|]. intros [= <-].
  destruct (apply_options_remembers _ _ _ None None None E) as [[Ht1 Ht2] (Hw1 & Hw2 & Hw3) [Hp1 Hp2]].
  { by split. }
  unfold effectiveTLSHandshakeTimeout, effectiveWSHandshakeTimeout, effectiveWSWriteTimeout.
  rewrite Ht1, Hw1, Hw2, Hp1, Hp2.
  destruct (foldl last_tls None ss); destruct (foldl last_ws None ss); simpl; naive_solver.
Qed.

(** ** Framers *)
Lemma newFramer_codec c call f :
  config_ok c -> cfg_framerFactory c = None -> newFramer c call = inl f ->
  exists cipher, newCipher c call = inl cipher /\
    f = codec_framer {| c_Cipher := cipher; c_MaxPayload := cfg_maxMessageBytes c |} /\
    maxPayload {| c_Cipher := cipher; c_MaxPayload := cfg_maxMessageBytes c |} =
      cfg_maxMessageBytes c.
Proof.
  intros Hok Hf. unfold newFramer. rewrite Hf.
  destruct (newCipher c call) as [cipher|]; [|done]. intros [= <-].
  destruct (ok_message c Hok). unfold wrap_u, max_uint32 in *. rewrite Z.mod_small by lia.
  exists cipher. split_and!; [done..|]. unfold maxPayload. simpl.
  destruct (_ =? 0) eqn:E; [lia|done].
Qed.

Lemma Encode_data_bound c rnd m frame :
  Encode c rnd m = inl frame -> Validate m = None /\ zlen (msg_Data m) <= maxPayload c.
Proof.
  unfold Encode. destruct (Validate m); [done|].
  destruct (_ >? _) eqn:E; [done|]. intros _. split; [done|]. lia.
Qed.

Lemma header_bytes_length flags alg len : zlen (header_bytes flags alg len) = HeaderSize.
Proof. reflexivity. Qed.

Lemma Encode_plain c rnd m :
  c_Cipher c = None -> Validate m = None -> zlen (msg_Data m) <= maxPayload c ->
  maxPayload c <= max_uint32 ->
  exists frame, Encode c rnd m = inl frame /\ zlen frame = HeaderSize + zlen (msg_Data m).
Proof.
  intros Hc HV Hlen Hmax. unfold Encode. rewrite HV, Hc.
  destruct (_ >? _) eqn:E; [lia|].
  destruct (zlen (msg_Data m) >? max_uint32) eqn:E2; [lia|]. cbn [orb].
  eexists. split; [done|].
  rewrite zlen_app, header_bytes_length. done.
Qed.

(** The codec an Engine builds for a stream enforces exactly the configured message
    size: what it encodes is a valid message within [maxMessageBytes], and without a
    cipher it encodes every such message, in [HeaderSize] more bytes. *)
Theorem newFramer_limit ss c call f :
  Forall setting_i64 ss -> New_config (option_of <$> ss) = inl c ->
  cfg_framerFactory c = None -> newFramer c call = inl f ->
  (forall rnd m frame, f_Encode f rnd m = inl frame ->
     Validate m = None /\ zlen (msg_Data m) <= cfg_maxMessageBytes c) /\
  (newCipher c call = inl None -> forall rnd m,
     Validate m = None -> zlen (msg_Data m) <= cfg_maxMessageBytes c ->
     exists frame, f_Encode f rnd m = inl frame /\
       zlen frame = HeaderSize + zlen (msg_Data m)).
Proof.
  intros Hr HN Hf Hn.
  assert (config_ok c) as Hok.
  { unfold New_config in HN. destruct (apply_options _ _) as [c1|] eqn:E; [|done].
    destruct (validate _); simplify_eq. eapply apply_options_ok; [done|apply default_ok|done]. }
  destruct (newFramer_codec c call f Hok Hf Hn) as (cipher & Hc & -> & Hmax). split.
  - intros rnd m frame HE. apply Encode_data_bound in HE. by rewrite Hmax in HE.
  - intros Hc' rnd m HV Hlen. rewrite Hc in Hc'. simplify_eq.
    apply Encode_plain; simpl; [done|done|by rewrite Hmax|]. rewrite Hmax. apply (ok_message c Hok).
Qed.

(** ** TLS *)
Lemma enforceTLS13_spec cfg t :
  enforceTLS13 cfg = inl t ->
  VersionTLS13 <= MinVersion t /\ (MaxVersion t = 0 \/ VersionTLS13 <= MaxVersion t) /\
  ServerName t = ServerName cfg /\ Certificates t = Certificates cfg /\
  GetCertificate t = GetCertificate cfg /\ GetConfigForClient t = GetConfigForClient cfg.
Proof.
  unfold enforceTLS13. destruct (MinVersion cfg =? 0) eqn:E1.
  - destruct (_ && _) eqn:E3; [done|]. intros [= <-]. cbn. split_and!; try done. lia.
  - destruct (MinVersion cfg <? VersionTLS13) eqn:E2; [done|].
    destruct (_ && _) eqn:E3; [done|]. intros [= <-]. cbn. split_and!; try done; lia.
Qed.

(** No TLS configuration the Engine uses allows a version below 1.3; a client that
    names its host always verifies a server name, and a server has a certificate. *)
Theorem tls13_enforced c e :
  (forall t, clientTLSConfig c e = inl t ->
     VersionTLS13 <= MinVersion t /\ (MaxVersion t = 0 \/ VersionTLS13 <= MaxVersion t) /\
     (ep_Host e <> ""%string -> ServerName t <> ""%string)) /\
  (forall t, serverTLSConfig c = inl t ->
     VersionTLS13 <= MinVersion t /\ (MaxVersion t = 0 \/ VersionTLS13 <= MaxVersion t) /\
     (Certificates t <> [] \/ GetCertificate t = true \/ GetConfigForClient t = true)).
Proof.
  split; intros t.
  - unfold clientTLSConfig. destruct (enforceTLS13 _) as [t1|] eqn:E; [|done].
    apply enforceTLS13_spec in E as (? & ? & _). intros [= <-]. cbn. split_and!; [done..|].
    intros. by case_bool_decide.
  - unfold serverTLSConfig. destruct (cfg_serverTLS c) as [s|]; [|done].
    destruct (enforceTLS13 s) as [t1|] eqn:E; [|done].
    apply enforceTLS13_spec in E as (? & ? & _).
    destruct (_ && _) eqn:E2; [done|]. intros [= <-]. split_and!; [done..|].
    destruct (GetCertificate t1), (GetConfigForClient t1); auto.
    left. intros HC. rewrite bool_decide_true in E2; done.
Qed.

(** A larger queue and one policy, and a WebSocket configuration given first. *)
Definition demo_settings : list setting :=
  [WebSocket_ {| OriginPatterns := []; Subprotocols := []; ws_HandshakeTimeout := Second;
                 ws_WriteTimeout := 2 * Second; ws_CloseTimeout := 0; ws_PingInterval := 0;
                 ws_PongTimeout := Second |};
   WriteQueue_ 512; MaxMessageBytes_ 1024; Nil_;
   Timeouts_ {| t_Connect := 0; t_Handshake := 3 * Second; t_Write := 0; t_ReadIdle := 0;
                t_ConnectionIdle := 0; t_MaxLifetime := 0 |}].
Definition demo_config : config :=
  match New_config (option_of <$> demo_settings) with inl c => c | inr _ => defaultConfig end.

Lemma demo_config_new : New_config (option_of <$> demo_settings) = inl demo_config.
Proof. reflexivity. Qed.
Lemma demo_settings_i64 : Forall setting_i64 demo_settings.
Proof. repeat constructor. Qed.

Lemma New_config_ok_witness : config_ok demo_config.
Proof. apply (New_config_ok demo_settings); [apply demo_settings_i64|apply demo_config_new]. Defined.

Lemma effective_timeouts_spec_witness :
  effectiveTLSHandshakeTimeout demo_config = 3 * Second /\
  effectiveWSHandshakeTimeout demo_config = Second /\
  effectiveWSWriteTimeout demo_config = 2 * Second.
Proof. apply (effective_timeouts_spec demo_settings demo_config demo_config_new). Defined.

Lemma newFramer_limit_witness :
  exists f, newFramer demo_config 0 = inl f /\
  forall rnd m frame, f_Encode f rnd m = inl frame ->
     Validate m = None /\ zlen (msg_Data m) <= cfg_maxMessageBytes demo_config.
Proof.
  eexists. split; [reflexivity|].
  apply (newFramer_limit demo_settings demo_config 0 _ demo_settings_i64 demo_config_new eq_refl eq_refl).
Defined.
