(* ===== verification/ActivityClock.v ===== *)
(** * ActivityClock: idle and lifetime expiry (transport/activity_clock.go)

    Instants are nanoseconds on one axis on which Go's zero [time.Time] is 0;
    durations are [int64].  The watcher goroutine ([run]), the goroutines that call
    [touch] and the passing of time are the steps of [clock_step]: [touch] is three
    steps (read the time, store it, signal [wake]) and an iteration of [run] is the
    load of the deadline, the arming of the timer, the [select], and after a timer
    event the second load and the comparison.  [time.Until] and [timer.Reset] are taken
    at one instant. *)
From S2P Require Import Prelude Kinds.
From stdpp Require Import relations.
Local Open Scope Z_scope.

Record activityClock := {
  ac_born : Z;
  ac_lastActivityNS : Z;
  ac_wake : bool;                  (* the one-element buffer of [wake] is full *)
  ac_connectionIdle : Z;
  ac_maxLifetime : Z }.

(** [None] is the nil clock. *)
Definition newActivityClock (now connectionIdle maxLifetime : Z) : option activityClock :=
  if (connectionIdle <=? 0) && (maxLifetime <=? 0) then None
  else Some {| ac_born := now; ac_lastActivityNS := 0; ac_wake := false;
               ac_connectionIdle := connectionIdle; ac_maxLifetime := maxLifetime |}.

Definition set_last (v : Z) (c : activityClock) : activityClock :=
  {| ac_born := ac_born c; ac_lastActivityNS := v; ac_wake := ac_wake c;
     ac_connectionIdle := ac_connectionIdle c; ac_maxLifetime := ac_maxLifetime c |}.
Definition set_wake (w : bool) (c : activityClock) : activityClock :=
  {| ac_born := ac_born c; ac_lastActivityNS := ac_lastActivityNS c; ac_wake := w;
     ac_connectionIdle := ac_connectionIdle c; ac_maxLifetime := ac_maxLifetime c |}.

(** [time.Since(born)] saturates at the ends of [int64]. *)
Definition Since (now born : Z) : Z := Z.max (- 2 ^ 63) (Z.min max_int (now - born)).

(** The three effects of [touch]; the send on a full buffer takes the default branch. *)
Definition touch_sample (now : Z) (c : activityClock) : Z := Since now (ac_born c).
Definition touch_store (elapsed : Z) (c : activityClock) : activityClock := set_last elapsed c.
Definition touch_signal (c : activityClock) : activityClock := set_wake true c.
Definition touch (now : Z) (c : activityClock) : activityClock :=
  touch_signal (touch_store (touch_sample now c) c).

Definition IsZero (t : Z) : bool := t =? 0.

Definition nextDeadline (c : activityClock) : Z * TimeoutKind :=
  let '(deadline, kind) :=
    if ac_connectionIdle c >? 0
    then (ac_born c + add_i64 (ac_lastActivityNS c) (ac_connectionIdle c), TimeoutConnectionIdle)
    else (0, TimeoutNone) in
  if ac_maxLifetime c >? 0 then
    let lifetime := ac_born c + ac_maxLifetime c in
    if IsZero deadline || negb (lifetime >? deadline)
    then (lifetime, TimeoutMaxLifetime)
    else (deadline, kind)
  else (deadline, kind).

(** ** The watcher *)
Inductive watcher :=
  | Looping                                   (* at the head of the loop *)
  | Arming (deadline : Z)                     (* deadline loaded, timer not yet reset *)
  | Waiting (fire : Z)                        (* in the select, the timer armed for [fire] *)
  | Checking (deadline : Z) (kind : TimeoutKind) (last : Z)   (* after the timer: reloaded *)
  | Expired (kind : TimeoutKind) (at_ last : Z)               (* [expire] called *)
  | Returned.

(** One iteration up to the [select]. *)
Definition run_load (c : activityClock) : watcher :=
  let '(deadline, kind) := nextDeadline c in
  if bool_decide (kind = TimeoutNone) then Returned else Arming deadline.
Definition run_arm (now deadline : Z) : watcher :=
  let delay := deadline - now in
  let delay := if delay <? 0 then 0 else delay in
  Waiting (now + delay).
(** The timer branch; [last] is the activity the reload saw. *)
Definition run_reload (c : activityClock) : watcher :=
  let '(deadline, kind) := nextDeadline c in Checking deadline kind (ac_lastActivityNS c).
Definition run_check (now deadline : Z) (kind : TimeoutKind) (last : Z) : watcher :=
  if negb (deadline >? now) then Expired kind now last else Looping.

Record clock_sys := {
  cs_clock : activityClock; cs_now : Z;
  cs_samples : list Z;             (* touches that read the time and did not store it yet *)
  cs_signals : nat;                (* touches that stored and did not signal yet *)
  cs_run : watcher }.

Inductive clock_step : clock_sys -> clock_sys -> Prop :=
  | step_tick c now ss n r now' : now <= now' ->
      clock_step (Build_clock_sys c now ss n r) (Build_clock_sys c now' ss n r)
  | step_sample c now ss n r :
      clock_step (Build_clock_sys c now ss n r)
                 (Build_clock_sys c now (touch_sample now c :: ss) n r)
  | step_store c now ss1 e ss2 n r :
      clock_step (Build_clock_sys c now (ss1 ++ e :: ss2) n r)
                 (Build_clock_sys (touch_store e c) now (ss1 ++ ss2) (S n) r)
  | step_signal c now ss n r :
      clock_step (Build_clock_sys c now ss (S n) r)
                 (Build_clock_sys (touch_signal c) now ss n r)
  | step_load c now ss n :
      clock_step (Build_clock_sys c now ss n Looping) (Build_clock_sys c now ss n (run_load c))
  | step_arm c now ss n d :
      clock_step (Build_clock_sys c now ss n (Arming d))
                 (Build_clock_sys c now ss n (run_arm now d))
  | step_closing c now ss n f :
      clock_step (Build_clock_sys c now ss n (Waiting f)) (Build_clock_sys c now ss n Returned)
  | step_wake c now ss n f : ac_wake c = true ->
      clock_step (Build_clock_sys c now ss n (Waiting f))
                 (Build_clock_sys (set_wake false c) now ss n Looping)
  | step_timer c now ss n f : f <= now ->
      clock_step (Build_clock_sys c now ss n (Waiting f))
                 (Build_clock_sys c now ss n (run_reload c))
  | step_check c now ss n d k last :
      clock_step (Build_clock_sys c now ss n (Checking d k last))
                 (Build_clock_sys c now ss n (run_check now d k last)).

Definition start (c : activityClock) : clock_sys :=
  {| cs_clock := c; cs_now := ac_born c; cs_samples := []; cs_signals := 0; cs_run := Looping |}.

(** ** What the watcher does when nobody disturbs it *)
(** Its own steps; with [touch] and [closing] left out they are all it does. *)
Inductive own_step : clock_sys -> clock_sys -> Prop :=
  | own_load c now ss n : own_step (Build_clock_sys c now ss n Looping) (Build_clock_sys c now ss n (run_load c))
  | own_arm c now ss n d : own_step (Build_clock_sys c now ss n (Arming d)) (Build_clock_sys c now ss n (run_arm now d))
  | own_wake c now ss n f : ac_wake c = true ->
      own_step (Build_clock_sys c now ss n (Waiting f)) (Build_clock_sys (set_wake false c) now ss n Looping)
  | own_timer c now ss n f : f <= now ->
      own_step (Build_clock_sys c now ss n (Waiting f)) (Build_clock_sys c now ss n (run_reload c))
  | own_check c now ss n d k last :
      own_step (Build_clock_sys c now ss n (Checking d k last)) (Build_clock_sys c now ss n (run_check now d k last)).
Lemma own_step_clock s s' : own_step s s' -> clock_step s s'.
Proof. destruct 1; by constructor. Qed.
(** A run of [n] of them, time passing at will in between. *)
Inductive undisturbed : nat -> clock_sys -> clock_sys -> Prop :=
  | und_refl s : undisturbed 0 s s
  | und_tick k s s' c now ss n r now' : undisturbed k s s' -> s' = Build_clock_sys c now ss n r -> now <= now' ->
      undisturbed k s (Build_clock_sys c now' ss n r)
  | und_own k s s' s'' : undisturbed k s s' -> own_step s' s'' -> undisturbed (S k) s s''.

(** ** Invariant *)
Section clock.
Context (born idle lifetime : Z).

(** The policy applies at [now] to a session whose last activity was [last]. *)
Definition overdue (k : TimeoutKind) (last now : Z) : Prop :=
  match k with
  | TimeoutConnectionIdle => 0 < idle /\ born + last + idle <= now
  | TimeoutMaxLifetime => 0 < lifetime /\ born + lifetime <= now
  | _ => False
  end.

(** The instants for which no [int64] sum of the code overflows. *)
Definition horizon (now : Z) : Prop := now - born + Z.max 0 idle <= max_int.

Definition deadline (c : activityClock) : Z := (nextDeadline c).1.

Record clock_inv (s : clock_sys) : Prop := {
  inv_params : ac_born (cs_clock s) = born /\ ac_connectionIdle (cs_clock s) = idle /\
               ac_maxLifetime (cs_clock s) = lifetime;
  inv_time : born <= cs_now s;
  inv_last : 0 <= ac_lastActivityNS (cs_clock s) <= cs_now s - born;
  inv_samples : Forall (fun e => 0 <= e <= cs_now s - born) (cs_samples s);
  inv_run :
    match cs_run s with
    | Arming d => ac_wake (cs_clock s) = true \/ (0 < cs_signals s)%nat \/ d = deadline (cs_clock s)
    | Waiting f => ac_wake (cs_clock s) = true \/ (0 < cs_signals s)%nat \/
                   f <= Z.max (cs_now s) (deadline (cs_clock s))
    | Checking d k last => forall now, d <= now -> overdue k last now
    | Expired k at_ last => at_ <= cs_now s /\ overdue k last at_
    | Looping | Returned => True
    end;
}.

Hypothesis born_pos : 0 < born.
Hypothesis enabled : 0 < idle \/ 0 < lifetime.

Lemma add_i64_small a b : 0 <= a -> 0 <= b -> a + b <= max_int -> add_i64 a b = a + b.
Proof. unfold add_i64, wrap_i64, max_int. intros. rewrite Z.mod_small; lia. Qed.

(** The deadline is the earlier of the two policies that are enabled. *)
Lemma nextDeadline_spec c :
  ac_born c = born -> ac_connectionIdle c = idle -> ac_maxLifetime c = lifetime ->
  0 <= ac_lastActivityNS c -> ac_lastActivityNS c + Z.max 0 idle <= max_int ->
  let '(d, k) := nextDeadline c in
  (forall now, d <= now <-> overdue k (ac_lastActivityNS c) now) /\
  (0 < idle -> d <= born + ac_lastActivityNS c + idle) /\ (0 < lifetime -> d <= born + lifetime).
Proof.
  intros Hb Hi Hl H0 Hmax. unfold nextDeadline, IsZero. rewrite Hb, Hi, Hl.
  destruct (idle >? 0) eqn:E1.
  - rewrite add_i64_small by lia.
    destruct (lifetime >? 0) eqn:E2; [destruct (_ || _) eqn:E3|]; simpl; split_and!; lia.
  - destruct (lifetime >? 0) eqn:E2; [|lia]. simpl. split_and!; lia.
Qed.

Lemma nextDeadline_kind c :
  ac_connectionIdle c = idle -> ac_maxLifetime c = lifetime -> (nextDeadline c).2 <> TimeoutNone.
Proof.
  intros Hi Hl. unfold nextDeadline. rewrite Hi, Hl.
  destruct (idle >? 0) eqn:E1, (lifetime >? 0) eqn:E2; try lia; try done.
  by destruct (_ || _).
Qed.

Lemma inv_deadline s : clock_inv s -> horizon (cs_now s) ->
  let '(d, k) := nextDeadline (cs_clock s) in
  forall now, d <= now <-> overdue k (ac_lastActivityNS (cs_clock s)) now.
Proof.
  intros [(Hb & Hi & Hl) Ht Hlast _ _] Hh. unfold horizon in Hh.
  pose proof (nextDeadline_spec (cs_clock s) Hb Hi Hl ltac:(lia) ltac:(lia)) as H.
  destruct (nextDeadline _) as [d k]. apply H.
Qed.

Lemma clock_step_inv s s' :
  clock_step s s' -> horizon (cs_now s') -> clock_inv s -> clock_inv s'.
Proof.
  intros Hs Hh Hinv. pose proof Hinv as [(Hb & Hi & Hl) Ht Hlast Hsm Hr]. unfold horizon in Hh.
  destruct Hs; cbn in *.
  - split; cbn; [done|lia|lia| |].
    + eapply Forall_impl; [exact Hsm|]. cbn. lia.
    + destruct r; try done; naive_solver lia.
  - split; cbn; try done. constructor; [|done].
    unfold touch_sample, Since. rewrite Hb. unfold max_int in *. lia.
  - apply Forall_app in Hsm as [H1 H2]. inversion H2; subst.
    split; cbn; try done. { apply Forall_app; done. }
    destruct r; try done; right; left; lia.
  - split; cbn; try done. destruct r; auto.
  - split; cbn; try done. unfold run_load, deadline.
    destruct (nextDeadline c) as [d k]. case_bool_decide; cbn; auto.
  - split; cbn; try done.
    destruct (d - now <? 0) eqn:E; destruct Hr as [?|[?|Hr]]; auto;
      right; right; unfold deadline in *; rewrite <- Hr; lia.
  - by split.
  - by split.
  - split; cbn; try done. unfold run_reload.
    pose proof (inv_deadline _ Hinv) as Hd. cbn in Hd. specialize (Hd Hh).
    destruct (nextDeadline c) as [d k]. cbn. intros now' Hn. by apply Hd.
  - split; cbn; try done. unfold run_check.
    destruct (d >? now) eqn:E; cbn; [done|]. split; [lia|]. apply Hr. lia.
Qed.

(** All clocks of a run stay inside the horizon if the last one does. *)
Lemma clock_now_mono s s' : rtc clock_step s s' -> cs_now s <= cs_now s'.
Proof.
  intros H. induction H as [|s s1 s' Hs H IH]; [done|].
  destruct Hs; cbn in *; lia.
Qed.

Lemma clock_reach_inv s s' :
  rtc clock_step s s' -> horizon (cs_now s') -> clock_inv s -> clock_inv s'.
Proof.
  intros H. induction H as [|s s1 s' Hs H IH]; [done|]. intros Hh Hinv.
  apply IH; [done|]. eapply clock_step_inv; [done| |done].
  apply clock_now_mono in H. unfold horizon in *. lia.
Qed.

Lemma start_inv c : ac_born c = born -> ac_connectionIdle c = idle ->
  ac_maxLifetime c = lifetime -> ac_lastActivityNS c = 0 -> clock_inv (start c).
Proof. intros. split; cbn; try done; try lia. Qed.

(** *** Undisturbed runs *)
(** The session as the last [touch] left it; its limits do not overflow. *)
Record as_touched (last : Z) (s : clock_sys) : Prop := {
  at_params : ac_born (cs_clock s) = born /\ ac_connectionIdle (cs_clock s) = idle /\ ac_maxLifetime (cs_clock s) = lifetime;
  at_last : ac_lastActivityNS (cs_clock s) = last;
  at_range : 0 <= last /\ last + Z.max 0 idle <= max_int }.
Lemma own_step_touched last s s' : own_step s s' -> as_touched last s -> as_touched last s'.
Proof. intros Hs [? ? ?]. by destruct Hs; split. Qed.
Lemma touched_deadline last s : as_touched last s ->
  let '(d, k) := nextDeadline (cs_clock s) in
  (forall now, d <= now <-> overdue k last now) /\ k <> TimeoutNone /\
  (forall k' now, overdue k' last now -> d <= now).
Proof.
  intros [(Hb & Hi & Hl) <- [H0 H1]].
  pose proof (nextDeadline_spec (cs_clock s) Hb Hi Hl H0 H1) as Hd. pose proof (nextDeadline_kind (cs_clock s) Hi Hl) as Hk.
  destruct (nextDeadline _) as [d k]. destruct Hd as (Hd & Hidle & Hlife). split_and!; [done..|].
  intros k' now Ho. destruct k'; cbn in Ho; try done; lia.
Qed.

(** What the watcher reports is due for that last activity, if it had not looked before. *)
Definition looked_right (last : Z) (s : clock_sys) : Prop :=
  match cs_run s with
  | Checking d k l => l = last /\ forall now, d <= now -> overdue k last now
  | Expired k at_ l => l = last /\ overdue k last at_
  | _ => True
  end.
Lemma own_step_right last s s' : own_step s s' -> as_touched last s -> looked_right last s -> looked_right last s'.
Proof.
  intros Hs Ht Hr. pose proof (touched_deadline _ _ Ht) as Hd. destruct Ht as [_ Hl _].
  unfold looked_right in *. destruct Hs as [c now ss n|c now ss n d|c now ss n f Hw|c now ss n f Hf|c now ss n d k l]; cbn in *; try done.
  - unfold run_load. destruct (nextDeadline c). by case_bool_decide.
  - unfold run_reload. destruct (nextDeadline c). split; [done|]. intros now'. apply Hd.
  - unfold run_check. destruct Hr as [-> Hr]. destruct (d >? now) eqn:E; cbn; [done|]. split; [done|]. apply Hr. lia.
Qed.

(** How many steps an overdue session has left at most. *)
Definition steps_left (s : clock_sys) : nat :=
  let w := ac_wake (cs_clock s) in
  match cs_run s with
  | Expired _ _ _ | Returned => 0
  | Checking d _ _ => if d <=? cs_now s then 1 else 8
  | Waiting _ => if w then 5 else 2
  | Arming _ => if w then 6 else 3
  | Looping => if w then 7 else 4
  end.
Definition on_time (s : clock_sys) : Prop :=
  deadline (cs_clock s) <= cs_now s /\
  match cs_run s with
  | Arming d => ac_wake (cs_clock s) = true \/ d = deadline (cs_clock s)
  | Waiting f => ac_wake (cs_clock s) = true \/ f <= cs_now s
  | Returned => False
  | _ => True
  end.
Lemma own_step_on_time last s s' :
  own_step s s' -> as_touched last s -> on_time s -> on_time s' /\ (steps_left s' < steps_left s)%nat.
Proof.
  intros Hs Ht Ho. pose proof (touched_deadline _ _ Ht) as Hd. unfold on_time, deadline in *.
  destruct Hs as [c now ss n|c now ss n d|c now ss n f Hw|c now ss n f Hf|c now ss n d k l]; destruct Ho as [Hle Hr]; cbn in *.
  - unfold run_load. destruct (nextDeadline c) as [d k] eqn:E. destruct Hd as (_ & Hk & _). rewrite bool_decide_false by done. cbn.
    rewrite ?E. cbn in *. split; [auto|]. destruct (ac_wake c); lia.
  - split; [split; [done|]|destruct (ac_wake c); lia]. destruct Hr as [?|Hr]; [by left|]. right. destruct (_ <? 0) eqn:E; lia.
  - rewrite Hw. split; [by split|lia].
  - unfold run_reload. destruct (nextDeadline c) as [d k] eqn:E. cbn in *. rewrite ?E. cbn. split; [by split|].
    rewrite (proj2 (Z.leb_le d now)) by done. destruct (ac_wake c); lia.
  - unfold run_check. destruct (d >? now) eqn:E; cbn.
    + split; [by split|]. destruct (d <=? now) eqn:E2; [lia|]. destruct (ac_wake c); lia.
    + split; [by split|]. destruct (d <=? now); lia.
Qed.
Lemma on_time_moves s : on_time s -> (exists k at_ l, cs_run s = Expired k at_ l) \/ exists s', own_step s s'.
Proof.
  intros [Hle Hr]. destruct s as [c now ss n [| d | f | d k l | k at_ l |]]; cbn in *; try (right; eexists; by constructor); [|by left; eauto|done].
  destruct Hr as [Hw|Hf]; right; eexists; [by apply own_wake|by apply own_timer].
Qed.
Lemma undisturbed_touched last n s s' : undisturbed n s s' -> as_touched last s -> as_touched last s'.
Proof. induction 1 as [s|k s s' c now ss n r now' _ IH -> Hn|k s s' s'' _ IH Hs]; intros Ht; [done|by destruct (IH Ht)|]. eapply own_step_touched; eauto. Qed.
Lemma undisturbed_right last n s s' :
  undisturbed n s s' -> as_touched last s -> looked_right last s -> looked_right last s'.
Proof.
  induction 1 as [s|k s s' c now ss n r now' _ IH -> Hn|k s s' s'' Hu IH Hs]; intros Ht Hr; [done|by apply (IH Ht)|].
  eapply own_step_right; [done|by eapply undisturbed_touched|auto].
Qed.
Lemma undisturbed_on_time last n s s' :
  undisturbed n s s' -> as_touched last s -> on_time s -> on_time s' /\ (n + steps_left s' <= steps_left s)%nat.
Proof.
  induction 1 as [s|k s s' c now ss n r now' _ IH -> Hn|k s s' s'' Hu IH Hs]; intros Ht Ho; [by split|..].
  - destruct (IH Ht Ho) as [[Hle Hr] Hs]. cbn in *. split; [split; cbn; [lia|destruct r; auto; destruct Hr; auto; right; lia]|].
    etrans; [|exact Hs]. apply Nat.add_le_mono_l. destruct r as [| | |d ? ?| |]; cbn; try lia.
    destruct (d <=? now) eqn:E1, (d <=? now') eqn:E2; lia.
  - destruct (IH Ht Ho) as [Ho' Hle]. destruct (own_step_on_time last _ _ Hs) as [Ho'' Hlt]; [by eapply undisturbed_touched|done|].
    split; [done|]. lia.
Qed.
End clock.

(** ** Properties *)
Section properties.
Context (now0 idle lifetime : Z) (c : activityClock) (s : clock_sys).
Hypothesis created : newActivityClock now0 idle lifetime = Some c.
Hypothesis now_pos : 0 < now0.
Hypothesis reached : rtc clock_step (start c) s.
Hypothesis in_horizon : horizon now0 idle (cs_now s).

Lemma reached_inv : (0 < idle \/ 0 < lifetime) /\ clock_inv now0 idle lifetime s.
Proof.
  unfold newActivityClock in created. destruct (_ && _) eqn:E; [done|]. simplify_eq.
  assert (0 < idle \/ 0 < lifetime) by lia. split; [done|].
  eapply clock_reach_inv; [done|done|done|done|]. by apply start_inv.
Qed.

Lemma reached_touched : as_touched now0 idle lifetime (ac_lastActivityNS (cs_clock s)) s.
Proof.
  destruct reached_inv as [_ [Hp Ht Hlast _ _]]. unfold horizon in in_horizon. split; [done|done|lia].
Qed.
Lemma reached_on_time k :
  overdue now0 idle lifetime k (ac_lastActivityNS (cs_clock s)) (cs_now s) -> cs_signals s = 0%nat -> cs_run s <> Returned -> on_time s.
Proof.
  intros Ho Hsig Hr. destruct reached_inv as [Hen Hinv].
  pose proof (touched_deadline now0 idle lifetime now_pos Hen _ _ reached_touched) as Hd. pose proof (inv_run _ _ _ _ Hinv) as Hrun.
  assert (deadline (cs_clock s) <= cs_now s) as Hle by (unfold deadline; destruct (nextDeadline _); by eapply Hd).
  split; [done|]. destruct (cs_run s); try done; destruct Hrun as [?|[?|?]]; auto; lia.
Qed.
Lemma reached_right :
  match cs_run s with Checking _ _ _ | Expired _ _ _ => False | _ => True end -> looked_right now0 idle lifetime (ac_lastActivityNS (cs_clock s)) s.
Proof. unfold looked_right. by destruct (cs_run s). Qed.
End properties.

(** C33. For a session that was born at [now0] and any interleaving of [touch]es, closing and
    the watcher that reached [s], as long as the instants and the idle limit do not overflow
    [int64] ([horizon]):
    - the session is expired only when it is overdue, for the activity the watcher saw last:
      the idle limit has passed since then, or the lifetime since the birth;
    - no touch is lost: if from [s] on nobody touches the session and the watcher has not
      just looked, what it reports is due for the last activity stored in [s];
    - no expiry is late: if the session is overdue in [s] with no signal of a [touch] still to
      come and the watcher has not returned, then whatever it does and however time passes,
      it is never blocked and expires the session within eight of its own steps. *)
Theorem activity_expiry now0 idle lifetime c s :
  newActivityClock now0 idle lifetime = Some c -> 0 < now0 -> rtc clock_step (start c) s -> horizon now0 idle (cs_now s) ->
  (forall k at_ last, cs_run s = Expired k at_ last -> overdue now0 idle lifetime k last at_) /\
  (match cs_run s with Checking _ _ _ | Expired _ _ _ => False | _ => True end ->
   forall n s' k at_ last, undisturbed n s s' -> cs_run s' = Expired k at_ last ->
     last = ac_lastActivityNS (cs_clock s) /\ overdue now0 idle lifetime k last at_) /\
  ((exists k, overdue now0 idle lifetime k (ac_lastActivityNS (cs_clock s)) (cs_now s)) ->
   cs_signals s = 0%nat -> cs_run s <> Returned ->
   forall n s', undisturbed n s s' ->
     (exists k at_ last, cs_run s' = Expired k at_ last) \/ (n < 8)%nat /\ exists s'', own_step s' s'').
Proof.
  intros Hc Hn Hr Hh. destruct (reached_inv _ _ _ _ _ Hc Hn Hr Hh) as [Hen Hinv].
  pose proof (reached_touched _ _ _ _ _ Hc Hn Hr Hh) as Ht. split_and!.
  - intros k at_ last E. pose proof (inv_run _ _ _ _ Hinv) as H. rewrite E in H. apply H.
  - intros Hf n s' k at_ last Hu E. pose proof (undisturbed_right _ _ _ Hn Hen _ _ _ _ Hu Ht (reached_right _ _ _ _ Hf)) as H.
    unfold looked_right in H. rewrite E in H. destruct H as [-> H]. by split.
  - intros [k Ho] Hsig Hret n s' Hu. pose proof (reached_on_time _ _ _ _ _ Hc Hn Hr Hh k Ho Hsig Hret) as Hot.
    destruct (undisturbed_on_time _ _ _ Hn Hen _ _ _ _ Hu Ht Hot) as [Hot' Hle].
    destruct (on_time_moves _ Hot') as [He|[s'' Hs]]; [by left|]. right. split; [|by eauto].
    assert (steps_left s <= 8)%nat by (unfold steps_left; repeat case_match; lia).
    destruct (own_step_on_time _ _ _ Hn Hen _ _ _ Hs (undisturbed_touched _ _ _ _ _ _ _ Hu Ht) Hot') as [_ Hlt]. lia.
Qed.

(** [last + connectionIdle] is an [int64] sum: an idle timeout close to the largest
    duration, which [WithTimeouts] accepts, makes the deadline of a session that
    has just been active lie before its birth. *)
Theorem activity_idle_overflow born :
  0 < born ->
  exists c, newActivityClock born max_int 0 = Some c /\
    nextDeadline (touch (born + 1) c) = (born - 2 ^ 63, TimeoutConnectionIdle).
Proof.
  intros. eexists. split; [reflexivity|].
  unfold nextDeadline, touch, touch_signal, touch_store, touch_sample, Since. cbn.
  replace (born + 1 - born) with 1 by lia. f_equal.
Qed.

(** A session born at 100, touched at 105, with an idle limit of 10 and no lifetime. *)
Definition demo_clock : activityClock :=
  {| ac_born := 100; ac_lastActivityNS := 0; ac_wake := false; ac_connectionIdle := 10;
     ac_maxLifetime := 0 |}.
Definition demo_touched : activityClock := set_last 5 demo_clock.
Definition demo_waiting : clock_sys :=
  {| cs_clock := demo_touched; cs_now := 115; cs_samples := []; cs_signals := 0;
     cs_run := Waiting 115 |}.

Lemma demo_waiting_reached : rtc clock_step (start demo_clock) demo_waiting.
Proof.
  eapply rtc_l; [apply (step_tick demo_clock 100 [] 0 Looping 105); lia|].
  eapply rtc_l; [apply (step_sample demo_clock 105 [] 0 Looping)|].
  eapply rtc_l; [apply (step_store demo_clock 105 [] 5 [] 0 Looping)|].
  eapply rtc_l; [apply (step_signal (touch_store 5 demo_clock) 105 [] 0 Looping)|].
  eapply rtc_l; [apply step_load|]. eapply rtc_l; [apply step_arm|].
  eapply rtc_l; [apply step_wake; reflexivity|].
  eapply rtc_l; [apply step_load|]. eapply rtc_l; [apply step_arm|].
  eapply rtc_l; [apply (step_tick _ 105 [] 0 _ 115); lia|]. apply rtc_refl.
Qed.

(** At 115, ten after its last activity, the session of [demo_waiting] is overdue. *)
Lemma activity_expiry_witness :
  overdue 100 10 0 TimeoutConnectionIdle 5 115 /\
  forall n s', undisturbed n demo_waiting s' ->
    (exists k at_ last, cs_run s' = Expired k at_ last) \/ (n < 8)%nat /\ exists s'', own_step s' s''.
Proof.
  assert (overdue 100 10 0 TimeoutConnectionIdle 5 115) as Ho by (vm_compute; split; [reflexivity|discriminate]).
  split; [exact Ho|].
  destruct (activity_expiry 100 10 0 demo_clock demo_waiting eq_refl ltac:(lia) demo_waiting_reached ltac:(vm_compute; discriminate)) as (_ & _ & H).
  apply H; [exists TimeoutConnectionIdle; exact Ho|reflexivity|discriminate].
Defined.

Lemma activity_idle_overflow_witness :
  exists c, newActivityClock 1 max_int 0 = Some c /\
    nextDeadline (touch 2 c) = (1 - 2 ^ 63, TimeoutConnectionIdle).
Proof. apply (activity_idle_overflow 1). lia. Defined.
