(* ===== verification/Observer.v ===== *)
(** * Observer: asynchronous delivery of events (transport/observer.go)

    The bounded queue between the goroutines that [emit] and the one that runs
    [run].  The state keeps, beside the fields of [observerDispatcher], the history the
    properties speak of: what [emit] accepted, what [run] received from the queue
    and what was handed to [Observe].  Whether a call of the user's [Observe]
    panics is an argument. *)
From S2P Require Import Prelude Conc Kinds Errors.
Local Open Scope go_scope.

(** ** ogrenet/observer.go *)
Inductive ResourceKind := ResourceEngine | ResourceListener | ResourceSession | ResourcePacketConn.
Inductive EventKind := EventAccept | EventConnect | EventHandshake | EventRead | EventWrite
  | EventBackpressure | EventDrop | EventClose.
Record Event := {
  ev_Kind : EventKind; ev_Resource : ResourceKind; ev_ResourceID : Z; ev_ParentID : Z;
  ev_Protocol : Scheme; ev_Local : option net_addr; ev_Remote : option net_addr;
  ev_Bytes : Z; ev_Duration : Z; ev_Err : option error }.

(** ** observerDispatcher *)
Record observerDispatcher := {
  d_cap : Z;                       (* cap(queue) *)
  d_queue : list Event;
  d_stopCh : bool;                 (* closed *)
  d_stopped : bool;
  d_stopOnce : bool;               (* the function of [stopOnce] has run *)
  d_dropped : Z; d_panics : Z;     (* uint64 *)
  (* history *)
  d_accepted : list Event; d_taken : list Event; d_observed : list Event; d_refused : Z }.

Definition newObserverDispatcher (size : Z) : observerDispatcher :=
  {| d_cap := size; d_queue := []; d_stopCh := false; d_stopped := false; d_stopOnce := false;
     d_dropped := 0; d_panics := 0; d_accepted := []; d_taken := []; d_observed := [];
     d_refused := 0 |}.

(** [d.queue <- event], or the default branch: whether there was room. *)
Definition send_event (e : Event) (d : observerDispatcher) : observerDispatcher * bool :=
  if zlen (d_queue d) <? d_cap d
  then ({| d_cap := d_cap d; d_queue := d_queue d ++ [e]; d_stopCh := d_stopCh d;
           d_stopped := d_stopped d; d_stopOnce := d_stopOnce d; d_dropped := d_dropped d;
           d_panics := d_panics d; d_accepted := d_accepted d ++ [e]; d_taken := d_taken d;
           d_observed := d_observed d; d_refused := d_refused d |}, true)
  else (d, false).
Definition count_dropped (d : observerDispatcher) : observerDispatcher :=
  {| d_cap := d_cap d; d_queue := d_queue d; d_stopCh := d_stopCh d; d_stopped := d_stopped d;
     d_stopOnce := d_stopOnce d; d_dropped := inc_u64 (d_dropped d); d_panics := d_panics d;
     d_accepted := d_accepted d; d_taken := d_taken d; d_observed := d_observed d;
     d_refused := d_refused d + 1 |}.

Definition emit (e : Event) : prog observerDispatcher bool :=
  stopped ← atomically (fun d => (d, d_stopped d));
  if stopped : bool then mret false
  else
    sent ← atomically (send_event e);
    if sent : bool then mret true
    else atomically (fun d => (count_dropped d, tt)) ≫= fun _ => mret false.

Definition store_stopped (d : observerDispatcher) : observerDispatcher :=
  {| d_cap := d_cap d; d_queue := d_queue d; d_stopCh := d_stopCh d; d_stopped := true;
     d_stopOnce := d_stopOnce d; d_dropped := d_dropped d; d_panics := d_panics d;
     d_accepted := d_accepted d; d_taken := d_taken d; d_observed := d_observed d;
     d_refused := d_refused d |}.
(** [stopOnce.Do(func() { close(d.stopCh) })]; a second [close] would panic. *)
Definition close_stopCh (d : observerDispatcher) : option (observerDispatcher * unit) :=
  if d_stopOnce d then Some (d, tt)
  else if d_stopCh d then None
  else Some ({| d_cap := d_cap d; d_queue := d_queue d; d_stopCh := true; d_stopped := d_stopped d;
                d_stopOnce := true; d_dropped := d_dropped d; d_panics := d_panics d;
                d_accepted := d_accepted d; d_taken := d_taken d; d_observed := d_observed d;
                d_refused := d_refused d |}, tt).
Definition stop : prog observerDispatcher unit :=
  atomically (fun d => (store_stopped d, tt)) ≫= fun _ => atomic_panic close_stopCh.

(** [d.observer.Observe(event)] with the recovery of [observe]. *)
Definition observe (panics_on : Event -> bool) (e : Event) (d : observerDispatcher) : observerDispatcher :=
  {| d_cap := d_cap d; d_queue := d_queue d; d_stopCh := d_stopCh d; d_stopped := d_stopped d;
     d_stopOnce := d_stopOnce d; d_dropped := d_dropped d;
     d_panics := if panics_on e then inc_u64 (d_panics d) else d_panics d;
     d_accepted := d_accepted d; d_taken := d_taken d; d_observed := d_observed d ++ [e];
     d_refused := d_refused d |}.

(** The two cases of the [select] of [run]; [None] is the closed [stopCh]. *)
Definition run_cases (d : observerDispatcher) : list (observerDispatcher * option Event) :=
  (if d_stopCh d then [(d, None)] else []) ++
  match d_queue d with
  | [] => []
  | e :: q =>
      [({| d_cap := d_cap d; d_queue := q; d_stopCh := d_stopCh d; d_stopped := d_stopped d;
           d_stopOnce := d_stopOnce d; d_dropped := d_dropped d; d_panics := d_panics d;
           d_accepted := d_accepted d; d_taken := d_taken d ++ [e]; d_observed := d_observed d;
           d_refused := d_refused d |}, Some e)]
  end.

(** ** Ghost state: the one runner *)
Inductive runner := Idle (seen : nat) | Busy (seen : nat) (e : Event).
Section run.
Context (panics_on : Event -> bool).

(** [run] for up to [fuel] events. *)
Fixpoint run (fuel : nat) : prog observerDispatcher unit :=
  match fuel with
  | O => stuck
  | S fuel =>
      next ← select run_cases;
      match next with
      | None => mret tt
      | Some e => atomically (fun d => (observe panics_on e d, tt)) ≫= fun _ => run fuel
      end
  end.

Inductive observer_op := Emit (e : Event) | Stop.
Fixpoint client (ops : list observer_op) : prog observerDispatcher unit :=
  match ops with
  | [] => mret tt
  | Emit e :: ops => emit e ≫= fun _ => client ops
  | Stop :: ops => stop ≫= fun _ => client ops
  end.
(** The dispatcher goroutine and any number of clients. *)
Definition observer_pool (size : Z) (fuel : nat) (opss : list (list observer_op)) : pool observerDispatcher :=
  (newObserverDispatcher size, run fuel :: (client <$> opss)).

(** The history agrees with the queue, and the runner knows what it has taken. *)
Definition obs_inv (d : observerDispatcher) (m : (excl runner)) : Prop :=
  d_accepted d = d_taken d ++ d_queue d /\ 0 <= d_cap d /\ zlen (d_queue d) <= d_cap d /\
  d_stopCh d = d_stopOnce d /\
  d_dropped d = wrap_u 64 (d_refused d) /\
  match m with
  | Nobody => d_taken d = d_observed d /\ d_stopCh d = true
  | Owner (Idle n) => d_taken d = d_observed d /\ length (d_taken d) = n
  | Owner (Busy n e) => d_taken d = d_observed d ++ [e] /\ length (d_taken d) = n
  | Conflict => False
  end.
(** The runner waits for an event or has used its fuel; no one else ever waits. *)
Definition obs_blk (fuel : nat) (d : observerDispatcher) (m : (excl runner)) : Prop :=
  exists n, m = Owner (Idle n) /\ (d_queue d = [] /\ d_stopCh d = false \/ (fuel <= n)%nat).
Definition obs_fin (m : (excl runner)) : Prop := m = Nobody.

Section proofs.
Context (fuel0 : nat).
Notation obs_wp := (wp obs_inv (obs_blk fuel0)).

Lemma send_event_inv e d m : obs_inv d m -> obs_inv (send_event e d).1 m.
Proof.
  unfold send_event. destruct (zlen (d_queue d) <? d_cap d) eqn:E; [|done].
  intros (Ha & Hc & Hq & Hs & Hd & Hm).
  split_and!; cbn; try done; [rewrite Ha; by rewrite app_assoc|].
  rewrite zlen_app. change (zlen [e]) with 1. lia.
Qed.

Lemma wrap_u_inc w z : 0 < w -> wrap_u w (wrap_u w z + 1) = wrap_u w (z + 1).
Proof. intros. unfold wrap_u. rewrite Z.add_mod_idemp_l; [done|]. lia. Qed.

Lemma wp_emit e (Q : bool -> (excl runner) -> Prop) :
  (forall b, Q b Nobody) -> obs_wp (emit e) Nobody Q.
Proof.
  intros HQ. apply wp_bind, wp_section. intros d F d' b HI [= <- <-].
  exists Nobody. split; [done|]. destruct (d_stopped d); [by apply wp_ret|].
  apply wp_bind, wp_section. intros d1 F1 d' sent HI1 Es.
  exists Nobody. pose proof (send_event_inv e _ _ HI1) as H'. rewrite Es in H'. split; [done|].
  destruct sent; [by apply wp_ret|].
  apply wp_bind, wp_section. intros d2 F2 d3 [] (? & ? & ? & ? & Hd & Hm) [= <-].
  exists Nobody. split; [|by apply wp_ret]. split_and!; cbn; try done.
  rewrite Hd. unfold inc_u64. by rewrite wrap_u_inc.
Qed.

Lemma wp_stop (Q : unit -> (excl runner) -> Prop) : Q tt Nobody -> obs_wp stop Nobody Q.
Proof.
  intros HQ. apply wp_bind, wp_section. intros d F d' [] HI [= <-]. exists Nobody. split; [done|].
  apply wp_atomic_panic. intros d1 F1 (Ha & Hc & Hq & Hs & Hd & Hm). unfold close_stopCh.
  destruct (d_stopOnce d1) eqn:Eo.
  - exists d1, tt, Nobody. unfold obs_inv. by rewrite Eo.
  - rewrite Hs. eexists _, tt, Nobody. split; [done|]. split; [|done]. split_and!; cbn; try done.
    cbn in Hm. destruct F1 as [|[]|]; naive_solver.
Qed.

Lemma wp_client ops : obs_wp (client ops) Nobody (fun _ => obs_fin).
Proof.
  induction ops as [|[e|] ops IH]; [done| |]; cbn [client]; apply wp_bind.
  - by apply wp_emit.
  - by apply wp_stop.
Qed.

Lemma excl_owner r F d : obs_inv d (Owner r ∙ F) -> F = Nobody.
Proof. by destruct F as [|[]|]; intros (_ & _ & _ & _ & _ & H). Qed.

Lemma wp_run fuel n :
  (fuel + n = fuel0)%nat -> obs_wp (run fuel) (Owner (Idle n)) (fun _ => obs_fin).
Proof.
  revert n. induction fuel as [|fuel IH]; intros n Hn; cbn [run].
  { apply wp_stuck. intros d F HI. exists n. split; [done|]. right. lia. }
  apply wp_bind, wp_select. intros d F HI. pose proof (excl_owner _ _ _ HI) as ->.
  destruct HI as (Ha & Hc & Hq & Hs & Hd & Ht & Hlen). unfold run_cases. split.
  { intros [H1 H2]%app_nil. exists n. split; [done|]. left.
    by destruct (d_queue d), (d_stopCh d). }
  intros d' b [Hin|Hin]%elem_of_app.
  - destruct (d_stopCh d) eqn:Es; [|by apply elem_of_nil in Hin].
    apply list_elem_of_singleton in Hin as [= -> ->]. exists Nobody.
    split; [|by apply wp_ret]. split_and!; cbn; (done || congruence).
  - destruct (d_queue d) as [|e q] eqn:Eq; [by apply elem_of_nil in Hin|].
    apply list_elem_of_singleton in Hin as [= -> ->]. exists (Owner (Busy (S n) e)). split.
    + rewrite zlen_cons in Hq. split_and!; cbn; try done; try lia.
      * by rewrite Ha, <- app_assoc.
      * rewrite length_app, Hlen. simpl. split; [by rewrite Ht|lia].
    + apply wp_bind, wp_section. intros d1 F1 d2 [] HI1 [= <-].
      pose proof (excl_owner _ _ _ HI1) as ->. destruct HI1 as (? & ? & ? & ? & ? & Ht1 & Hl1).
      exists (Owner (Idle (S n))). split; [by split_and!|]. apply IH. lia.
Qed.
End proofs.

Lemma observer_pool_ok size fuel opss c :
  0 <= size -> rtc pstep (observer_pool size fuel opss) c -> pool_ok obs_inv (obs_blk fuel) obs_fin c.
Proof.
  intros Hsize. eapply wp_adequate with (ms := Owner (Idle 0) :: replicate (length opss) Nobody).
  - cbn [gsum foldr]. fold (gsum (replicate (length opss) (@Nobody runner))).
    rewrite gsum_nil by by apply Forall_replicate. split_and!; cbn; done.
  - constructor; [apply wp_run; lia|]. induction opss; constructor; [apply wp_client|done].
Qed.
End run.

(** ** Properties *)

(** Under every interleaving of emitters, stoppers and the dispatcher: nothing
    panics (the stop channel is closed once, a panicking [Observe] is recovered), the
    queue never exceeds its capacity, events reach the observer in the order they
    were accepted, each once, with at most one in flight between queue and observer,
    and [dropped] counts exactly the events refused for a full queue (modulo 2^64). *)
Theorem observer_fifo panics_on size fuel opss c :
  0 <= size -> rtc pstep (observer_pool panics_on size fuel opss) c ->
  ~ panics c /\ zlen (d_queue c.1) <= d_cap c.1 /\
  (exists inflight, d_accepted c.1 = d_observed c.1 ++ inflight ++ d_queue c.1 /\
     (length inflight <= 1)%nat) /\
  d_dropped c.1 = wrap_u 64 (d_refused c.1).
Proof.
  intros Hs Hr. pose proof (observer_pool_ok _ _ _ _ _ Hs Hr) as Hok.
  split; [exact (pool_ok_no_panic _ _ _ _ Hok)|].
  destruct Hok as (ms & _ & Ha & Hc & Hq & _ & Hd & Hm).
  split; [done|]. split; [|done].
  destruct (gsum ms) as [|[n|n e]|]; cbn in Hm; [| | |done];
    destruct Hm as [Ht _]; rewrite Ha, Ht; [exists []|exists []|exists [e]]; simpl;
    rewrite <- ?app_assoc; (split; [done|lia]).
Qed.

Lemma blocked_runner fuel d (ts : list (prog observerDispatcher unit)) ms :
  Forall2 (fun t m => (t = Ret tt /\ obs_fin m) \/ obs_blk fuel d m) ts ms ->
  gsum ms = Nobody \/ exists n, Owner (Idle n) ∈ ms /\
    (d_queue d = [] /\ d_stopCh d = false \/ (fuel <= n)%nat).
Proof.
  induction 1 as [|t m ts ms [[_ Hm]|(n & -> & Hb)] _ [IH|(n' & ? & ?)]]; [by left|..].
  - left. rewrite Hm. exact IH.
  - right. exists n'. split; [by right|done].
  - right. exists n. split; [by left|done].
  - right. exists n. split; [by left|done].
Qed.

Lemma client_never_blocks ops : never_blocks (client ops).
Proof.
  induction ops as [|[e|] ops IH]; [done| |]; cbn [client]; apply never_blocks_bind; try done.
  - apply never_blocks_bind; [apply never_blocks_atomically|]. intros []; [done|].
    apply never_blocks_bind; [apply never_blocks_atomically|]. by intros [].
  - apply never_blocks_bind; [apply never_blocks_atomically|]. intros _.
    apply never_blocks_atomic_panic.
Qed.

(** Observation never holds up the transport: [emit] and [stop] never wait, so in a
    pool that can no longer move at most the dispatcher (goroutine 0) is left; and
    unless it was stopped, every accepted event has been observed (the bound on
    [fuel], the number of events the modelled loop may take, is not reached). *)
Theorem observer_nonblocking panics_on size fuel opss c :
  0 <= size -> rtc pstep (observer_pool panics_on size fuel opss) c -> ~ can_step c ->
  (length (d_accepted c.1) < fuel)%nat ->
  (forall i t, c.2 !! i = Some t -> i <> 0%nat -> t = Ret tt) /\
  (d_stopCh c.1 = true \/ d_observed c.1 = d_accepted c.1).
Proof.
  intros Hs Hr Hst Hf. pose proof (observer_pool_ok _ _ _ _ _ Hs Hr) as Hok. split.
  - intros i t Hi Hne.
    eapply (never_blocks_pool (fun i => i <> 0%nat)); [|exact Hr|done| |done|done].
    + intros [|j] t' Hj Ht; [done|]. cbn in Ht. apply list_lookup_fmap_Some in Ht as (ops & -> & _).
      apply client_never_blocks.
    + exact (pool_ok_no_panic _ _ _ _ Hok).
  - destruct (pool_ok_blocked _ _ _ _ Hok Hst) as (ms & (Ha & _ & _ & _ & _ & Hm) & Hall).
    destruct (d_stopCh c.1) eqn:Es; [by left|right].
    destruct (blocked_runner _ _ _ _ Hall) as [E|(n & Hin & Hb)]; [by rewrite E in Hm; destruct Hm|].
    destruct (gsum_elem _ _ Hin) as [[|r|] EF]; rewrite EF in Hm; cbn in Hm; [|done..].
    destruct Hm as [Ht Hl]. rewrite Ha, length_app in Hf.
    destruct Hb as [[Hq _]|?]; [|lia]. by rewrite Ha, Hq, Ht, app_nil_r.
Qed.

Definition demo_event : Event :=
  {| ev_Kind := EventRead; ev_Resource := ResourceSession; ev_ResourceID := 1; ev_ParentID := 0;
     ev_Protocol := SchemeTCP; ev_Local := None; ev_Remote := None; ev_Bytes := 3; ev_Duration := 0;
     ev_Err := None |}.
(** Three events for a queue of two, then the dispatcher runs. *)
Definition observer_demo : pool observerDispatcher :=
  reached (observer_pool (fun _ => false) 2 10 [[Emit demo_event; Emit demo_event; Emit demo_event]])
    (replicate 12 (1, 0)%nat ++ replicate 6 (0, 0)%nat).

Lemma observer_fifo_witness :
  d_dropped observer_demo.1 = 1 /\ zlen (d_queue observer_demo.1) <= d_cap observer_demo.1.
Proof.
  split; [reflexivity|].
  exact (proj1 (proj2 (observer_fifo (fun _ => false) 2 10 [[Emit demo_event; Emit demo_event; Emit demo_event]]
           observer_demo ltac:(lia) (reached_steps _ _)))).
Defined.

Lemma observer_nonblocking_witness : d_observed observer_demo.1 = d_accepted observer_demo.1.
Proof.
  assert (~ can_step observer_demo) as Hn by (apply pool_blocked_no_step; reflexivity).
  destruct (observer_nonblocking (fun _ => false) 2 10 [[Emit demo_event; Emit demo_event; Emit demo_event]]
              observer_demo ltac:(lia) (reached_steps _ _) Hn) as [_ [H|H]].
  - vm_compute. lia.
  - vm_compute in H. discriminate.
  - exact H.
Defined.
