(* ===== verification/Stats.v ===== *)
(** * Stats: resource ages and statistics snapshots (transport/stats.go)

    The clock is an argument of the operations that read it; the zero [time.Time] is 0. *)
From S2P Require Import Prelude Conc Kinds Errors Limits Observer ActivityClock.

(** ** resourceAge *)
Record resourceAge := { age_started : Z; age_finalNS : Z }.
Definition newResourceAge (now : Z) : resourceAge := {| age_started := now; age_finalNS := 0 |}.

Definition positiveElapsed (now start : Z) : Z :=
  if IsZero start then 0
  else let elapsed := Since now start in if elapsed <=? 0 then 1 else elapsed.

Definition age_current (now : Z) (a : option resourceAge) : Z :=
  match a with
  | None => 0
  | Some a =>
      if IsZero (age_started a) then 0
      else if age_finalNS a >? 0 then wrap_i64 (age_finalNS a - 1)
      else positiveElapsed now (age_started a)
  end.

(** The value is computed before the [CompareAndSwap]; [now] is when. *)
Definition age_freeze (now : Z) (a : resourceAge) : resourceAge :=
  if IsZero (age_started a) then a
  else
    let v := add_i64 (positiveElapsed now (age_started a)) 1 in
    if age_finalNS a =? 0 then {| age_started := age_started a; age_finalNS := v |} else a.

(** ** Snapshots *)
Definition nonNegativeUint64 (v : Z) : Z := if v <=? 0 then 0 else v.

Record EngineStats := {
  es_OpeningConnections : Z; es_ActiveConnections : Z; es_DrainingConnections : Z;
  es_ActiveHandshakes : Z; es_PendingUpgrades : Z; es_GlobalQueuedBytes : Z;
  es_RejectedConnections : Z; es_RejectedPeers : Z; es_RejectedListeners : Z;
  es_RejectedHandshakes : Z; es_RejectedUpgrades : Z; es_RejectedQueuedBytes : Z;
  es_ObserverDroppedEvents : Z; es_ObserverPanics : Z }.

(** [Engine.Stats] on the snapshot of its controller and its observer, nil or not. *)
Definition Engine_Stats (admission : option admissionController)
    (observer : option observerDispatcher) : EngineStats :=
  match admission with
  | None =>
      {| es_OpeningConnections := 0; es_ActiveConnections := 0; es_DrainingConnections := 0;
         es_ActiveHandshakes := 0; es_PendingUpgrades := 0; es_GlobalQueuedBytes := 0;
         es_RejectedConnections := 0; es_RejectedPeers := 0; es_RejectedListeners := 0;
         es_RejectedHandshakes := 0; es_RejectedUpgrades := 0; es_RejectedQueuedBytes := 0;
         es_ObserverDroppedEvents := 0; es_ObserverPanics := 0 |}
  | Some a =>
      let s := snapshot a in
      {| es_OpeningConnections := nonNegativeUint64 (OpeningConnections s);
         es_ActiveConnections := nonNegativeUint64 (ActiveConnections s);
         es_DrainingConnections := nonNegativeUint64 (DrainingConnections s);
         es_ActiveHandshakes := nonNegativeUint64 (ActiveHandshakes s);
         es_PendingUpgrades := nonNegativeUint64 (PendingUpgrades s);
         es_GlobalQueuedBytes := nonNegativeUint64 (GlobalQueuedBytes s);
         es_RejectedConnections := RejectedConnections s; es_RejectedPeers := RejectedPeers s;
         es_RejectedListeners := RejectedListeners s; es_RejectedHandshakes := RejectedHandshakes s;
         es_RejectedUpgrades := RejectedUpgrades s; es_RejectedQueuedBytes := RejectedQueuedBytes s;
         es_ObserverDroppedEvents := match observer with Some d => d_dropped d | None => 0 end;
         es_ObserverPanics := match observer with Some d => d_panics d | None => 0 end |}
  end.

Record ListenerStats := {
  ls_ResourceID : Z; ls_Protocol : Scheme; ls_Local : option net_addr; ls_Age : Z;
  ls_AcceptedConnections : Z; ls_RejectedConnections : Z; ls_CurrentConnections : Z }.
Record listenerCounters := { lcn_accepted : Z; lcn_age : resourceAge }.

(** [listener.Stats] and [wsListener.Stats]. *)
Definition Listener_Stats (now id : Z) (scheme : Scheme) (local : option net_addr)
    (stats : option listenerCounters) (capacity : option listenerCapacity) : ListenerStats :=
  {| ls_ResourceID := id; ls_Protocol := scheme; ls_Local := local;
     ls_Age := match stats with Some c => age_current now (Some (lcn_age c)) | None => 0 end;
     ls_AcceptedConnections := match stats with Some c => lcn_accepted c | None => 0 end;
     ls_RejectedConnections := match capacity with Some c => lc_rejected c | None => 0 end;
     ls_CurrentConnections :=
       match capacity with Some _ => nonNegativeUint64 (listener_current capacity) | None => 0 end |}.

Record sessionCounters := {
  sc_bytesRX : Z; sc_bytesTX : Z; sc_messagesRX : Z; sc_messagesTX : Z;
  sc_backpressure : Z; sc_decodeErrors : Z; sc_age : resourceAge }.
Definition newSessionCounters (now : Z) : sessionCounters :=
  {| sc_bytesRX := 0; sc_bytesTX := 0; sc_messagesRX := 0; sc_messagesTX := 0;
     sc_backpressure := 0; sc_decodeErrors := 0; sc_age := newResourceAge now |}.
Record SessionStats := {
  ss_ResourceID : Z; ss_Protocol : Scheme; ss_Local : option net_addr; ss_Remote : option net_addr;
  ss_Age : Z; ss_BytesRX : Z; ss_BytesTX : Z; ss_MessagesRX : Z; ss_MessagesTX : Z;
  ss_QueuedFrames : Z; ss_QueuedBytes : Z; ss_Backpressure : Z; ss_DecodeErrors : Z }.

Definition sessionStatsSnapshot (now id : Z) (protocol : Scheme) (local remote : option net_addr)
    (counters : option sessionCounters) : SessionStats :=
  match counters with
  | None =>
      {| ss_ResourceID := id; ss_Protocol := protocol; ss_Local := local; ss_Remote := remote;
         ss_Age := 0; ss_BytesRX := 0; ss_BytesTX := 0; ss_MessagesRX := 0; ss_MessagesTX := 0;
         ss_QueuedFrames := 0; ss_QueuedBytes := 0; ss_Backpressure := 0; ss_DecodeErrors := 0 |}
  | Some c =>
      {| ss_ResourceID := id; ss_Protocol := protocol; ss_Local := local; ss_Remote := remote;
         ss_Age := age_current now (Some (sc_age c)); ss_BytesRX := sc_bytesRX c;
         ss_BytesTX := sc_bytesTX c; ss_MessagesRX := sc_messagesRX c;
         ss_MessagesTX := sc_messagesTX c; ss_QueuedFrames := 0; ss_QueuedBytes := 0;
         ss_Backpressure := sc_backpressure c; ss_DecodeErrors := sc_decodeErrors c |}
  end.

Record packetCounters := {
  pc_bytesRX : Z; pc_bytesTX : Z; pc_packetsRX : Z; pc_packetsTX : Z;
  pc_backpressure : Z; pc_droppedDatagrams : Z; pc_age : resourceAge }.
Definition newPacketCounters (now : Z) : packetCounters :=
  {| pc_bytesRX := 0; pc_bytesTX := 0; pc_packetsRX := 0; pc_packetsTX := 0;
     pc_backpressure := 0; pc_droppedDatagrams := 0; pc_age := newResourceAge now |}.
Record PacketConnStats := {
  ps_ResourceID : Z; ps_Protocol : Scheme; ps_Local : option net_addr; ps_Remote : option net_addr;
  ps_Age : Z; ps_BytesRX : Z; ps_BytesTX : Z; ps_PacketsRX : Z; ps_PacketsTX : Z;
  ps_QueuedPackets : Z; ps_QueuedBytes : Z; ps_Backpressure : Z; ps_DroppedDatagrams : Z }.
(** [packetConn.Stats]; the length of [slots] and the bytes of the quota, when not nil. *)
Definition PacketConn_Stats (now id : Z) (local remote : option net_addr)
    (stats : option packetCounters) (slots quota : option Z) : PacketConnStats :=
  let counter f := match stats with Some c => f c | None => 0 end in
  {| ps_ResourceID := id; ps_Protocol := SchemeUDP; ps_Local := local; ps_Remote := remote;
     ps_Age := counter (fun c => age_current now (Some (pc_age c)));
     ps_BytesRX := counter pc_bytesRX; ps_BytesTX := counter pc_bytesTX;
     ps_PacketsRX := counter pc_packetsRX; ps_PacketsTX := counter pc_packetsTX;
     ps_QueuedPackets := match slots with Some n => n | None => 0 end;
     ps_QueuedBytes := match quota with Some n => nonNegativeUint64 n | None => 0 end;
     ps_Backpressure := counter pc_backpressure; ps_DroppedDatagrams := counter pc_droppedDatagrams |}.

(** ** Ages *)
Lemma positiveElapsed_pos now start :
  0 < start -> 0 < positiveElapsed now start <= Z.max 1 (now - start).
Proof.
  intros. unfold positiveElapsed, IsZero, Since, max_int.
  destruct (start =? 0) eqn:E; [lia|]. destruct (_ <=? 0) eqn:E2; lia.
Qed.

Definition freeze_all (times : list Z) (a : resourceAge) : resourceAge :=
  foldl (fun a t => age_freeze t a) a times.

Lemma freeze_frozen times a : age_finalNS a <> 0 -> freeze_all times a = a.
Proof.
  intros Ha. induction times as [|t times IH]; [done|]. cbn.
  replace (age_freeze t a) with a; [done|]. unfold age_freeze.
  destruct (IsZero _); [done|]. destruct (_ =? 0) eqn:E; [lia|done].
Qed.

(** The age of a resource is positive, and the first [freeze] fixes it: whatever
    freezes follow, and whenever it is read, it is the age at that first
    freeze (for resources younger than the 292 years an [int64] can hold). *)
Theorem age_frozen_once t0 t ts now :
  0 < t0 -> t - t0 < max_int ->
  age_current now (Some (newResourceAge t0)) = positiveElapsed now t0 /\
  age_current now (Some (freeze_all (t :: ts) (newResourceAge t0))) = positiveElapsed t t0 /\
  0 < positiveElapsed t t0.
Proof.
  intros Hp Ht. pose proof (positiveElapsed_pos t t0 Hp) as [Hpos Hle].
  assert (age_freeze t (newResourceAge t0) =
            {| age_started := t0; age_finalNS := positiveElapsed t t0 + 1 |}) as Hf.
  { unfold age_freeze, newResourceAge, IsZero, add_i64, wrap_i64, max_int in *. cbn [age_started age_finalNS].
    destruct (t0 =? 0) eqn:E; [lia|]. rewrite Z.mod_small by lia. cbn. f_equal. lia. }
  unfold freeze_all. cbn [foldl]. rewrite Hf.
  change (foldl _ ?a ts) with (freeze_all ts a). rewrite freeze_frozen by (cbn; lia).
  unfold age_current, newResourceAge, IsZero, wrap_i64, max_int in *. cbn [age_started age_finalNS].
  destruct (t0 =? 0) eqn:E; [lia|]. split_and!; [done| |done].
  destruct (_ >? 0) eqn:E2; [|lia]. rewrite Z.mod_small by lia. lia.
Qed.

Lemma age_frozen_once_witness :
  age_current 500 (Some (freeze_all [150; 300] (newResourceAge 100))) = 50.
Proof.
  apply (proj1 (proj2 (age_frozen_once 100 150 [300] 500 ltac:(lia) ltac:(vm_compute; reflexivity)))).
Defined.
