(* ===== verification/SendPath.v ===== *)
(** * SendPath: the outbound half that packet connections and sessions share

    Every connection of the transport has the same way out: the admission gate, a bounded
    number of slots, the two-level byte quota, a bounded queue that one writer empties, an
    ack channel per request, and the [closeOnce] that closes the gate, the channel
    [closing] and the socket.  The model is generic in what a request carries; Packet.v
    uses it for transport/packet.go.

    The identity of an ack channel is the position of its request among those sent to
    the queue. *)
From S2P Require Import Prelude Conc Kinds Errors Gate Quota.
Local Open Scope go_scope.
Local Open Scope Z_scope.

Section path.
Context {X : Type}.

Record request := Request {
  rq_id : nat; rq_item : X;
  rq_ack : bool;                   (* the request carries an ack channel *)
  rq_bytes : Z }.

Record sendPath := Path {
  sp_gate : sendGate;   (* gate *)
  sp_quota : quotaState;   (* quota, its parent, the contexts and the closing channel *)
  sp_slots : Z;   (* len(slots) *)
  sp_slotcap : Z;   (* cap(slots) *)
  sp_queue : list request;   (* the buffered requests *)
  sp_qcap : Z;   (* cap(queue) *)
  sp_once : bool;   (* closeOnce has run *)
  sp_physical : Z;   (* number of closes of the socket *)
  sp_ackbuf : gmap nat (option error);   (* ack channels holding a result *)
  sp_loops : Z;   (* loops still running *)
  sp_done : bool;   (* done is closed *)
  sp_written : list X;   (* history: items the socket has taken *)
  sp_admitted : list request;   (* history: requests sent to the queue *)
  sp_handled : list request;   (* history: requests answered *)
  sp_acked : list (nat * option error);   (* history: results sent on ack channels *)
}.

(** Field assignments. *)
Definition put_gate (x : sendGate) (s : sendPath) : sendPath :=
  Path
    x (sp_quota s) (sp_slots s) (sp_slotcap s) (sp_queue s) (sp_qcap s) (sp_once s)
    (sp_physical s) (sp_ackbuf s) (sp_loops s) (sp_done s) (sp_written s) (sp_admitted s)
    (sp_handled s) (sp_acked s).
Definition put_quota (x : quotaState) (s : sendPath) : sendPath :=
  Path
    (sp_gate s) x (sp_slots s) (sp_slotcap s) (sp_queue s) (sp_qcap s) (sp_once s)
    (sp_physical s) (sp_ackbuf s) (sp_loops s) (sp_done s) (sp_written s) (sp_admitted s)
    (sp_handled s) (sp_acked s).
Definition put_slots (x : Z) (s : sendPath) : sendPath :=
  Path
    (sp_gate s) (sp_quota s) x (sp_slotcap s) (sp_queue s) (sp_qcap s) (sp_once s)
    (sp_physical s) (sp_ackbuf s) (sp_loops s) (sp_done s) (sp_written s) (sp_admitted s)
    (sp_handled s) (sp_acked s).
Definition put_queue (x : list request) (s : sendPath) : sendPath :=
  Path
    (sp_gate s) (sp_quota s) (sp_slots s) (sp_slotcap s) x (sp_qcap s) (sp_once s)
    (sp_physical s) (sp_ackbuf s) (sp_loops s) (sp_done s) (sp_written s) (sp_admitted s)
    (sp_handled s) (sp_acked s).
Definition put_once (x : bool) (s : sendPath) : sendPath :=
  Path
    (sp_gate s) (sp_quota s) (sp_slots s) (sp_slotcap s) (sp_queue s) (sp_qcap s) x
    (sp_physical s) (sp_ackbuf s) (sp_loops s) (sp_done s) (sp_written s) (sp_admitted s)
    (sp_handled s) (sp_acked s).
Definition put_physical (x : Z) (s : sendPath) : sendPath :=
  Path
    (sp_gate s) (sp_quota s) (sp_slots s) (sp_slotcap s) (sp_queue s) (sp_qcap s) (sp_once
    s) x (sp_ackbuf s) (sp_loops s) (sp_done s) (sp_written s) (sp_admitted s) (sp_handled
    s) (sp_acked s).
Definition put_ackbuf (x : gmap nat (option error)) (s : sendPath) : sendPath :=
  Path
    (sp_gate s) (sp_quota s) (sp_slots s) (sp_slotcap s) (sp_queue s) (sp_qcap s) (sp_once
    s) (sp_physical s) x (sp_loops s) (sp_done s) (sp_written s) (sp_admitted s) (sp_handled
    s) (sp_acked s).
Definition put_loops (x : Z) (s : sendPath) : sendPath :=
  Path
    (sp_gate s) (sp_quota s) (sp_slots s) (sp_slotcap s) (sp_queue s) (sp_qcap s) (sp_once
    s) (sp_physical s) (sp_ackbuf s) x (sp_done s) (sp_written s) (sp_admitted s)
    (sp_handled s) (sp_acked s).
Definition put_done (x : bool) (s : sendPath) : sendPath :=
  Path
    (sp_gate s) (sp_quota s) (sp_slots s) (sp_slotcap s) (sp_queue s) (sp_qcap s) (sp_once
    s) (sp_physical s) (sp_ackbuf s) (sp_loops s) x (sp_written s) (sp_admitted s)
    (sp_handled s) (sp_acked s).
Definition put_written (x : list X) (s : sendPath) : sendPath :=
  Path
    (sp_gate s) (sp_quota s) (sp_slots s) (sp_slotcap s) (sp_queue s) (sp_qcap s) (sp_once
    s) (sp_physical s) (sp_ackbuf s) (sp_loops s) (sp_done s) x (sp_admitted s) (sp_handled
    s) (sp_acked s).
Definition put_admitted (x : list request) (s : sendPath) : sendPath :=
  Path
    (sp_gate s) (sp_quota s) (sp_slots s) (sp_slotcap s) (sp_queue s) (sp_qcap s) (sp_once
    s) (sp_physical s) (sp_ackbuf s) (sp_loops s) (sp_done s) (sp_written s) x (sp_handled
    s) (sp_acked s).
Definition put_handled (x : list request) (s : sendPath) : sendPath :=
  Path
    (sp_gate s) (sp_quota s) (sp_slots s) (sp_slotcap s) (sp_queue s) (sp_qcap s) (sp_once
    s) (sp_physical s) (sp_ackbuf s) (sp_loops s) (sp_done s) (sp_written s) (sp_admitted s)
    x (sp_acked s).
Definition put_acked (x : list (nat * option error)) (s : sendPath) : sendPath :=
  Path
    (sp_gate s) (sp_quota s) (sp_slots s) (sp_slotcap s) (sp_queue s) (sp_qcap s) (sp_once
    s) (sp_physical s) (sp_ackbuf s) (sp_loops s) (sp_done s) (sp_written s) (sp_admitted s)
    (sp_handled s) x.

Definition gate_in : lens sendPath sendGate := {| lget := sp_gate; lset := put_gate |}.
Definition quota_in : lens sendPath quotaState := {| lget := sp_quota; lset := put_quota |}.

Definition path_closing (s : sendPath) : bool := qs_closing (sp_quota s) 0.
Definition path_ctx (k : nat) (s : sendPath) : option error := qs_ctx (sp_quota s) k.
Definition path_ctx_done (k : nat) (s : sendPath) : bool :=
  match path_ctx k s with Some _ => true | None => false end.

(** ** Slots *)
Definition path_take_slot (s : sendPath) : sendPath := put_slots (sp_slots s + 1) s.
Definition path_slot_free (s : sendPath) : bool := sp_slots s <? sp_slotcap s.
Definition acquireSlot (k : nat) : prog sendPath (option error) :=
  select (fun s => ready (path_ctx_done k s) s (path_ctx k s)
                   ++ ready (path_closing s) s (Some (Sentinel ErrClosed))
                   ++ ready (path_slot_free s) (path_take_slot s) None).
Definition tryAcquireSlot : prog sendPath (option error) :=
  select (or_default (Some (Sentinel ErrWouldBlock)) (fun s =>
    ready (path_closing s) s (Some (Sentinel ErrClosed)) ++ ready (path_slot_free s) (path_take_slot s) None)).
(** Receiving from the channel of slots: blocks if there is none. *)
Definition releaseSlot : prog sendPath unit :=
  select (fun s => ready (0 <? sp_slots s) (put_slots (sp_slots s - 1) s) tt).

(** ** Bytes *)
Definition path_acquire (fuel k : nat) (n : Z) : prog sendPath (option error) :=
  lift quota_in (acquire (local_lens 0) (Some global_lens) (fun s => qs_ctx s k)
                   (fun s => qs_closing s 0%nat) fuel n).
Definition path_tryAcquire (n : Z) : prog sendPath (option error) :=
  lift quota_in (tryAcquire (local_lens 0) (Some global_lens) n).
Definition path_release (n : Z) : prog sendPath unit :=
  lift quota_in (release (local_lens 0) (Some global_lens) n).

(** ** The queue *)
Inductive offer_case := OfferCtx | OfferClosing | Offered (id : nat) | OfferFull.
Definition path_enqueue (item : X) (ack : bool) (bytes : Z) (s : sendPath) : sendPath :=
  let req := {| rq_id := length (sp_admitted s); rq_item := item; rq_ack := ack; rq_bytes := bytes |} in
  put_admitted (sp_admitted s ++ [req]) (put_queue (sp_queue s ++ [req]) s).
Definition path_queue_case (item : X) (ack : bool) (bytes : Z) (s : sendPath) : list (sendPath * offer_case) :=
  ready (zlen (sp_queue s) <? sp_qcap s) (path_enqueue item ack bytes s) (Offered (length (sp_admitted s))).
(** The [select] of a blocking send, and that of a send that does not block. *)
Definition path_offer (k : nat) (item : X) (bytes : Z) : prog sendPath offer_case :=
  select (fun s => ready (path_ctx_done k s) s OfferCtx ++ ready (path_closing s) s OfferClosing
                   ++ path_queue_case item true bytes s).
Definition path_tryOffer (item : X) (bytes : Z) : prog sendPath offer_case :=
  select (or_default OfferFull (fun s =>
    ready (path_closing s) s OfferClosing ++ path_queue_case item false bytes s)).

(** The wait for the writer's answer; when [closing] is seen, a last look at it. *)
Inductive answer_wait := AnswerIs (r : option error) | AnswerCtx | AnswerClosing.
Definition answer_case (id : nat) (s : sendPath) : list (sendPath * answer_wait) :=
  match sp_ackbuf s !! id with
  | Some r => [(put_ackbuf (delete id (sp_ackbuf s)) s, AnswerIs r)]
  | None => []
  end.
Definition path_await (k id : nat) : prog sendPath answer_wait :=
  r ← select (fun s => answer_case id s ++ ready (path_ctx_done k s) s AnswerCtx
                       ++ ready (path_closing s) s AnswerClosing);
  match r with
  | AnswerClosing => select (or_default AnswerClosing (answer_case id))
  | _ => mret r
  end.

(** The writer's side. *)
Definition path_dequeue {B} (f : request -> B) (s : sendPath) : list (sendPath * B) :=
  match sp_queue s with [] => [] | req :: q => [(put_queue q s, f req)] end.
Definition path_next : prog sendPath (option request) := select (or_default None (path_dequeue Some)).
(** Sending a result on the ack channel of a request, if it has one: blocks while the
    channel's one-element buffer is full. *)
Definition path_answer (req : request) (r : option error) : prog sendPath unit :=
  select (fun s =>
    let s' := put_handled (sp_handled s ++ [req]) s in
    if rq_ack req then
      match sp_ackbuf s !! rq_id req with
      | Some _ => []
      | None => [(put_acked (sp_acked s ++ [(rq_id req, r)])
                    (put_ackbuf (<[rq_id req := r]> (sp_ackbuf s)) s'), tt)]
      end
    else [(s', tt)]).

(** ** Closing *)
Definition path_enter_once : prog sendPath bool := atomically (fun s => (put_once true s, negb (sp_once s))).
Definition path_close_gate : prog sendPath unit := lift gate_in close.
(** [close(closing)] *)
Definition path_close_chan : prog sendPath unit :=
  atomic_panic (fun s =>
    if path_closing s then None
    else Some (put_quota {| qs_local := qs_local (sp_quota s); qs_global := qs_global (sp_quota s);
                            qs_ctx := qs_ctx (sp_quota s);
                            qs_closing := fupd 0 true (qs_closing (sp_quota s)) |} s, tt)).
Definition path_close_socket : prog sendPath unit :=
  atomically (fun s => (put_physical (sp_physical s + 1) s, tt)).
(** A later call of [closeOnce.Do] waits for the body to return. *)
Definition path_once_wait : prog sendPath unit := select (fun s => ready (0 <? sp_physical s) s tt).

(** [loops.Done()], [loops.Wait()] and [close(done)]. *)
Definition path_loop_done : prog sendPath unit := atomically (fun s => (put_loops (sp_loops s - 1) s, tt)).
Definition path_loops_wait : prog sendPath unit := select (fun s => ready (sp_loops s =? 0) s tt).
Definition path_close_done : prog sendPath unit :=
  atomic_panic (fun s => if sp_done s then None else Some (put_done true s, tt)).
Definition path_await_closing : prog sendPath unit := select (fun s => ready (path_closing s) s tt).

(** Waiting for [done], or for a context. *)
Definition path_await_done (k : nat) : prog sendPath bool :=
  select (fun s => ready (path_ctx_done k s) s true ++ ready (sp_done s) s false).
(** A context ends. *)
Definition path_cancel (k : nat) (e : error) : prog sendPath unit :=
  atomically (fun s => (put_quota {| qs_local := qs_local (sp_quota s); qs_global := qs_global (sp_quota s);
    qs_ctx := fupd k (Some e) (qs_ctx (sp_quota s)); qs_closing := qs_closing (sp_quota s) |} s, tt)).

(** A new way out. *)
Definition new_path (writeQueue maxQueuedBytes maxTotal n : Z) : sendPath := {|
  sp_gate := newSendGate; sp_quota := new_state (fun _ => maxQueuedBytes) maxTotal;
  sp_slots := 0; sp_slotcap := writeQueue + 1; sp_queue := []; sp_qcap := writeQueue;
  sp_once := false; sp_physical := 0; sp_ackbuf := ∅; sp_loops := n; sp_done := false;
  sp_written := []; sp_admitted := []; sp_handled := []; sp_acked := [] |}.
End path.
Arguments request : clear implicits.
Arguments sendPath : clear implicits.
