(* ===== verification/SendPathInv.v ===== *)
(** * SendPathInv: the invariant of the outbound half of a connection

    The shares the goroutines own, the invariant that ties them to the state of
    SendPath.v, one lemma per program, and the state of a way out that is open while
    nothing can move: empty. *)
From S2P Require Import Prelude Conc Kinds Errors Gate Quota SendPath.
Local Open Scope go_scope.
Local Open Scope Z_scope.

(** What the writer is doing: between two requests, having answered [n], with every
    answered item on the wire ([clean]), the gate known to be drained, the queue known to
    be empty; or in the middle of a request. *)
Inductive write_phase := PFresh | PWrote | PFailed.
Inductive ptok (X : Type) :=
  | PIdle (n : nat) (clean drained empty : bool)
  | PBusy (n : nat) (req : request X) (ph : write_phase) (drained : bool).
Arguments PIdle {X}.
Arguments PBusy {X}.

Section inv.
Context {X : Type}.

Record pshare := PShare {
  ps_q : gmultiset Quota.tok;   (* bytes charged, and the credits of Quota.v *)
  ps_g : nat * nat;   (* senders inside the gate, witnesses that it is closed *)
  ps_slot : nat;   (* slots held *)
  ps_op : nat;   (* sends that may still be admitted *)
  ps_ack : gmultiset nat;   (* requests whose answer it waits for *)
  ps_loop : nat;   (* the loops it is *)
  ps_fin : nat;   (* the finalizer *)
  ps_close : nat;   (* the right to close [closing] *)
  ps_phys : nat;   (* the duty to close the socket *)
  ps_ran : nat;   (* witnesses that [closeOnce] has been entered *)
  ps_know : nat;   (* witnesses that [closing] is closed *)
  ps_w : excl (ptok X);   (* the writer *)
}.
Definition own_q (x : gmultiset Quota.tok) (m : pshare) : pshare :=
  PShare
    x (ps_g m) (ps_slot m) (ps_op m) (ps_ack m) (ps_loop m) (ps_fin m) (ps_close m) (ps_phys
    m) (ps_ran m) (ps_know m) (ps_w m).
Definition own_g (x : nat * nat) (m : pshare) : pshare :=
  PShare
    (ps_q m) x (ps_slot m) (ps_op m) (ps_ack m) (ps_loop m) (ps_fin m) (ps_close m) (ps_phys
    m) (ps_ran m) (ps_know m) (ps_w m).
Definition own_slot (x : nat) (m : pshare) : pshare :=
  PShare
    (ps_q m) (ps_g m) x (ps_op m) (ps_ack m) (ps_loop m) (ps_fin m) (ps_close m) (ps_phys m)
    (ps_ran m) (ps_know m) (ps_w m).
Definition own_op (x : nat) (m : pshare) : pshare :=
  PShare
    (ps_q m) (ps_g m) (ps_slot m) x (ps_ack m) (ps_loop m) (ps_fin m) (ps_close m) (ps_phys
    m) (ps_ran m) (ps_know m) (ps_w m).
Definition own_ack (x : gmultiset nat) (m : pshare) : pshare :=
  PShare
    (ps_q m) (ps_g m) (ps_slot m) (ps_op m) x (ps_loop m) (ps_fin m) (ps_close m) (ps_phys
    m) (ps_ran m) (ps_know m) (ps_w m).
Definition own_loop (x : nat) (m : pshare) : pshare :=
  PShare
    (ps_q m) (ps_g m) (ps_slot m) (ps_op m) (ps_ack m) x (ps_fin m) (ps_close m) (ps_phys m)
    (ps_ran m) (ps_know m) (ps_w m).
Definition own_fin (x : nat) (m : pshare) : pshare :=
  PShare
    (ps_q m) (ps_g m) (ps_slot m) (ps_op m) (ps_ack m) (ps_loop m) x (ps_close m) (ps_phys
    m) (ps_ran m) (ps_know m) (ps_w m).
Definition own_close (x : nat) (m : pshare) : pshare :=
  PShare
    (ps_q m) (ps_g m) (ps_slot m) (ps_op m) (ps_ack m) (ps_loop m) (ps_fin m) x (ps_phys m)
    (ps_ran m) (ps_know m) (ps_w m).
Definition own_phys (x : nat) (m : pshare) : pshare :=
  PShare
    (ps_q m) (ps_g m) (ps_slot m) (ps_op m) (ps_ack m) (ps_loop m) (ps_fin m) (ps_close m) x
    (ps_ran m) (ps_know m) (ps_w m).
Definition own_ran (x : nat) (m : pshare) : pshare :=
  PShare
    (ps_q m) (ps_g m) (ps_slot m) (ps_op m) (ps_ack m) (ps_loop m) (ps_fin m) (ps_close m)
    (ps_phys m) x (ps_know m) (ps_w m).
Definition own_know (x : nat) (m : pshare) : pshare :=
  PShare
    (ps_q m) (ps_g m) (ps_slot m) (ps_op m) (ps_ack m) (ps_loop m) (ps_fin m) (ps_close m)
    (ps_phys m) (ps_ran m) x (ps_w m).
Definition own_w (x : excl (ptok X)) (m : pshare) : pshare :=
  PShare
    (ps_q m) (ps_g m) (ps_slot m) (ps_op m) (ps_ack m) (ps_loop m) (ps_fin m) (ps_close m)
    (ps_phys m) (ps_ran m) (ps_know m) x.
#[global] Program Instance ghost_pshare : Ghost pshare := {|
  gop := fun a b => PShare
    (ps_q a ∙ ps_q b) (ps_g a ∙ ps_g b) (ps_slot a ∙ ps_slot b) (ps_op a ∙ ps_op b) (ps_ack
    a ∙ ps_ack b) (ps_loop a ∙ ps_loop b) (ps_fin a ∙ ps_fin b) (ps_close a ∙ ps_close b)
    (ps_phys a ∙ ps_phys b) (ps_ran a ∙ ps_ran b) (ps_know a ∙ ps_know b) (ps_w a ∙ ps_w b);
  gnil := PShare gnil gnil gnil gnil gnil gnil gnil gnil gnil gnil gnil gnil |}.
Next Obligation. intros a b c. cbn [ps_q ps_g ps_slot ps_op ps_ack ps_loop ps_fin ps_close ps_phys ps_ran ps_know ps_w]. f_equal; apply gop_assoc. Qed.
Next Obligation. intros a b. cbv beta. f_equal; apply gop_comm. Qed.
Next Obligation. intros []. cbn [ps_q ps_g ps_slot ps_op ps_ack ps_loop ps_fin ps_close ps_phys ps_ran ps_know ps_w]. f_equal; apply gop_nil. Qed.

(** ** Invariant *)
Definition path_queued (q : list (request X)) : gmultiset Quota.tok :=
  foldr (fun r acc => req_toks (rq_bytes r) ⊎ acc) ∅ q.
#[local] Arguments path_queued : simpl never.
Lemma path_queued_app a b : path_queued (a ++ b) = path_queued a ⊎ path_queued b.
Proof.
  induction a as [|r a IH]; [symmetry; apply (left_id_L ∅ (⊎))|].
  change (req_toks (rq_bytes r) ⊎ path_queued (a ++ b) = req_toks (rq_bytes r) ⊎ path_queued a ⊎ path_queued b).
  by rewrite IH, (assoc_L (⊎)).
Qed.
Lemma path_queued_single r : path_queued [r] = req_toks (rq_bytes r).
Proof. apply (right_id_L ∅ (⊎)). Qed.

(** In a [strict] path the writer leaves only after [closing] is closed. *)
Definition path_writer (strict : bool) (s : sendPath X) (w : excl (ptok X)) : Prop :=
  match w with
  | Nobody => sp_queue s = [] /\ g_drained (sp_gate s) = true /\ sp_handled s = sp_admitted s /\
              (strict = true -> path_closing s = true)
  | Owner (PIdle n clean dr em) =>
      sp_admitted s = sp_handled s ++ sp_queue s /\ length (sp_handled s) = n /\
      (clean = true -> sp_written s = rq_item <$> sp_handled s) /\
      (dr = true -> g_drained (sp_gate s) = true) /\
      (em = true -> g_drained (sp_gate s) = true /\ sp_queue s = [])
  | Owner (PBusy n req ph dr) =>
      sp_admitted s = sp_handled s ++ req :: sp_queue s /\ length (sp_handled s) = n /\
      match ph with
      | PFresh => sp_written s = rq_item <$> sp_handled s
      | PWrote => sp_written s = rq_item <$> (sp_handled s ++ [req])
      | PFailed => True
      end /\ (dr = true -> g_drained (sp_gate s) = true)
  | Conflict => False
  end.

Lemma path_writer_mono strict s s' w :
  sp_queue s' = sp_queue s -> sp_admitted s' = sp_admitted s -> sp_handled s' = sp_handled s ->
  sp_written s' = sp_written s -> (g_drained (sp_gate s) = true -> g_drained (sp_gate s') = true) ->
  (path_closing s = true -> path_closing s' = true) -> path_writer strict s w -> path_writer strict s' w.
Proof.
  intros Eq Ea Eh Ew Hd Hc. destruct w as [|[]|]; cbn; rewrite ?Eq, ?Ea, ?Eh, ?Ew; [| | |done].
  - intros (? & ? & ? & ?). split_and!; auto.
  - intros (? & ? & ? & ? & Hem). split_and!; auto. intros [? ?]%Hem. auto.
  - intros (? & ? & ? & ?). split_and!; auto.
Qed.

Section record.
Context {strict : bool} (lim : site -> Z) (bound total : nat) (wq : Z) (item_ok : X -> Z -> Prop).
Record path_inv (s : sendPath X) (m : pshare) : Prop := {
  pi_quota : quota_inv lim bound (sp_quota s) (ps_q m ⊎ path_queued (sp_queue s));
  pi_gate : gate_inv (sp_gate s) (ps_g m);
  pi_slots : sp_slots s = Z.of_nat (ps_slot m + length (sp_queue s));
  pi_closing : path_closing s = true -> g_closed (sp_gate s) = true;
  pi_once : (ps_close m + Nat.b2n (path_closing s))%nat = Nat.b2n (sp_once s);
  pi_phys : 0 <= sp_physical s /\ sp_physical s + Z.of_nat (ps_phys m) = Z.of_nat (Nat.b2n (path_closing s));
  pi_ops : (length (sp_admitted s) + ps_op m <= total)%nat;
  pi_items : Forall (fun r => item_ok (rq_item r) (rq_bytes r)) (sp_admitted s);
  pi_ids : forall i r, sp_admitted s !! i = Some r -> rq_id r = i /\ 0 <= rq_bytes r;
  pi_loops : sp_loops s = Z.of_nat (ps_loop m);
  pi_fin : (ps_fin m + Nat.b2n (sp_done s))%nat = 1%nat;
  pi_acks : (sp_acked s).*1 = rq_id <$> filter (fun r => rq_ack r = true) (sp_handled s);
  pi_nil : forall id, (id, None) ∈ sp_acked s -> (id < length (sp_written s))%nat;
  pi_buf : forall id r, sp_ackbuf s !! id = Some r -> id ∈ (sp_acked s).*1;
  pi_wait : forall id, id ∈ ps_ack m -> multiplicity id (ps_ack m) = 1%nat /\
    (exists r, sp_admitted s !! id = Some r /\ rq_ack r = true) /\
    (id ∈ (sp_acked s).*1 -> is_Some (sp_ackbuf s !! id));
  pi_written : sp_written s `prefix_of` rq_item <$> sp_admitted s;
  pi_caps : sp_slotcap s = wq + 1 /\ sp_qcap s = wq /\ sp_slots s <= wq + 1 /\ zlen (sp_queue s) <= wq;
  pi_ran : (0 < ps_ran m)%nat -> sp_once s = true;
  pi_know : (0 < ps_know m)%nat -> path_closing s = true;
  pi_writer : path_writer strict s (ps_w m);
}.
End record.

(** A goroutine that waits owes no close. *)
Definition settled_share (m : pshare) : Prop := ps_close m = 0%nat /\ ps_phys m = 0%nat.
(** It owns nothing another goroutine may wait for. *)
Definition at_rest (m : pshare) : Prop :=
  (ps_g m).1 = 0%nat /\ ps_slot m = 0%nat /\ Quota.idle (ps_q m).
(** What a caller inside waits for. *)
Definition path_wait (s : sendPath X) (m : pshare) : Prop :=
  (sp_slotcap s <= sp_slots s /\ ps_slot m = 0%nat /\ Quota.idle (ps_q m)) \/
  quota_blk (sp_quota s) (ps_q m) \/
  sp_qcap s <= zlen (sp_queue s) \/
  ((exists id, id ∈ ps_ack m /\ sp_ackbuf s !! id = None) /\ ps_slot m = 0%nat /\ Quota.idle (ps_q m)).
(** Who waits, for what: a caller inside; a second closer; and, of the goroutines of the
    connection itself ([own]), a loop that only waits for [closing], the writer that has
    seen [closing], for the senders inside, the finalizer for the loops, or somebody for
    [done]. *)
Definition path_blk (own : bool) (s : sendPath X) (m : pshare) : Prop :=
  settled_share m /\
  ((path_closing s = false /\ ps_w m = Nobody /\ path_wait s m) \/
   at_rest m /\
   ((sp_once s = true /\ sp_physical s = 0) \/
    own = true /\
    ((path_closing s = false /\ ps_w m = Nobody) \/
    (path_closing s = true /\ g_drained (sp_gate s) = false) \/
    (ps_loop m = 0%nat /\ ps_w m = Nobody /\ (sp_loops s <> 0 \/ sp_done s = false /\ ps_fin m = 0%nat))))).
Definition caller_share (m : pshare) : Prop := settled_share m /\ ps_w m = Nobody.
Lemma blk_wait own s m : caller_share m -> path_closing s = false -> path_wait s m -> path_blk own s m.
Proof. intros [? ?] ? ?. split; [done|]. by left. Qed.
Lemma path_blk_own own s m : path_blk own s m -> path_blk true s m.
Proof. intros [? [?|[? [?|[-> ?]]]]]; (split; [done|]); [by left|right..]; (split; [done|]); [by left|by right]. Qed.

(** ** The programs *)
Section programs.
Context {strict : bool} (lim : site -> Z) (bound total : nat) (wq : Z) (item_ok : X -> Z -> Prop) (own : bool).
Hypothesis lim_ok : forall c, 0 <= lim c < 2 ^ 62.
Abbreviation inv := (path_inv (strict:=strict) lim bound total wq item_ok).
Abbreviation pwp := (wp inv (path_blk own)).

Lemma own_q_id m : own_q (ps_q m) m = m. Proof. by destruct m. Qed.
Lemma own_g_id m : own_g (ps_g m) m = m. Proof. by destruct m. Qed.

Lemma path_inside_not_drained s m : inv s m -> (0 < (ps_g m).1)%nat -> g_drained (sp_gate s) = false.
Proof.
  intros HI Hg. destruct (pi_gate _ _ _ _ _ _ _ HI) as (Ha & -> & _). rewrite Ha.
  apply andb_false_iff. right. apply Z.eqb_neq. lia.
Qed.

(** *** The quota *)
Lemma path_quota_get s m F :
  inv s (m ∙ F) ->
  quota_inv lim bound (lget quota_in s) (ps_q m ∙ (ps_q F ∙ path_queued (sp_queue s))).
Proof. intros HI. pose proof (pi_quota _ _ _ _ _ _ _ HI) as Hq. cbn in *. by rewrite (assoc_L (⊎)). Qed.
Lemma path_quota_put s m F t mt :
  inv s (m ∙ F) -> quota_step (lget quota_in s) t ->
  quota_inv lim bound t (mt ∙ (ps_q F ∙ path_queued (sp_queue s))) ->
  inv (lset quota_in t s) (own_q mt m ∙ F).
Proof.
  intros [] HR Hq. assert (path_closing (put_quota t s) = path_closing s) as Hc.
  { unfold path_closing. cbn. destruct HR as [HR _]. cbn in HR. by rewrite HR. }
  split; cbn -[path_closing]; rewrite ?Hc; try done.
  - cbn in Hq. by rewrite <- (assoc_L (⊎)).
  - apply (path_writer_mono _ s); try done. by rewrite Hc.
Qed.
Lemma wp_path_quota {A} Blk (BlkT : quotaState -> gmultiset Quota.tok -> Prop) (p : prog quotaState A) m Q :
  respects quota_step p -> (forall s mt, BlkT (sp_quota s) mt -> Blk s (own_q mt m)) ->
  wp (quota_inv lim bound) BlkT p (ps_q m) (fun a mt => Q a (own_q mt m)) ->
  wp inv Blk (lift quota_in p) m Q.
Proof.
  apply (wp_lift quota_in) with (R := quota_step) (stored := fun s => path_queued (sp_queue s)).
  - done.
  - done.
  - apply own_q_id.
  - apply path_quota_get.
  - apply path_quota_put.
Qed.

Lemma wp_path_acquire fuel k j n m q (Q : option error -> pshare -> Prop) :
  (bound < fuel)%nat -> caller_share m -> 0 <= n ->
  ps_q m = {[+ Quota.Credit +]} ⊎ ({[+ Quota.Credit +]} ⊎ q) -> stocked j q ->
  (forall e q', stocked j q' -> Q (Some e) (own_q q' m)) -> Q None (own_q (req_toks n ⊎ q) m) ->
  pwp (path_acquire fuel k n) m Q.
Proof.
  intros Hf Hq Hn E Hs HE HQ.
  eapply (wp_path_quota _ (fun t mt => quota_blk t mt /\ qs_closing t 0%nat = false)); [apply acquire_step| |].
  - intros s mt [Hb Hc]. apply blk_wait; [done..|]. right. by left.
  - rewrite E. eapply wp_acquire; [exact lim_ok| |done..| |].
    + intros s m' Hb Hc. by split.
    + intros e q' Hq'. by apply HE.
    + by rewrite acquired_req.
Qed.
Lemma wp_path_tryAcquire {Blk} j n m q (Q : option error -> pshare -> Prop) :
  0 <= n -> ps_q m = {[+ Quota.Credit +]} ⊎ ({[+ Quota.Credit +]} ⊎ q) -> stocked j q ->
  (forall e q', stocked j q' -> Q (Some e) (own_q q' m)) -> Q None (own_q (req_toks n ⊎ q) m) ->
  wp inv Blk (path_tryAcquire n) m Q.
Proof.
  intros Hn E Hs HE HQ. eapply (wp_path_quota _ (fun _ _ => False)); [apply tryAcquire_step|done|].
  rewrite E. eapply wp_tryAcquire; [exact lim_ok|done|done| |].
  - intros e q' Hq'. by apply HE.
  - by rewrite acquired_req.
Qed.
Lemma wp_path_release {Blk} n m q (Q : unit -> pshare -> Prop) :
  0 <= n -> ps_q m = req_toks n ⊎ q -> Q tt (own_q q m) -> wp inv Blk (path_release n) m Q.
Proof.
  intros Hn E HQ. eapply (wp_path_quota _ (fun _ _ => False)); [apply release_step|done|].
  rewrite E, <- acquired_req. by apply wp_release.
Qed.

(** *** The gate *)
Lemma path_gate_get s m F : inv s (m ∙ F) -> gate_inv (lget gate_in s) (ps_g m ∙ (ps_g F ∙ gnil)).
Proof. intros HI. rewrite gop_nil_r. apply (pi_gate _ _ _ _ _ _ _ HI). Qed.
Lemma path_gate_put s m F t mt :
  inv s (m ∙ F) -> gate_mono (lget gate_in s) t -> gate_inv t (mt ∙ (ps_g F ∙ gnil)) ->
  inv (lset gate_in t s) (own_g mt m ∙ F).
Proof.
  intros [] [HR1 HR2] Hg. rewrite gop_nil_r in Hg. cbn in HR1, HR2. split; cbn; try done; [by auto|].
  by apply (path_writer_mono _ s).
Qed.
Lemma wp_path_gate {A} Blk (p : prog sendGate A) m Q :
  respects gate_mono p ->
  wp gate_inv (fun _ _ => False) p (ps_g m) (fun a mt => Q a (own_g mt m)) -> wp inv Blk (lift gate_in p) m Q.
Proof.
  intros Hr. apply (wp_lift gate_in) with (R := gate_mono) (stored := fun _ => gnil); try done.
  - apply own_g_id.
  - apply path_gate_get.
  - apply path_gate_put.
Qed.
Lemma wp_path_enter {Blk} m (Q : bool -> pshare -> Prop) :
  ps_g m = (0, 0)%nat -> Q true (own_g (1, 0)%nat m) -> Q false m -> wp inv Blk (lift gate_in enter) m Q.
Proof.
  intros E HT HF. apply wp_path_gate; [apply enter_mono|]. rewrite E. apply wp_enter; [done|].
  by rewrite <- E, own_g_id.
Qed.
Lemma wp_path_leave {Blk} m (Q : unit -> pshare -> Prop) :
  ps_g m = (1, 0)%nat -> Q tt (own_g (0, 0)%nat m) -> wp inv Blk (lift gate_in leave) m Q.
Proof. intros E HQ. apply wp_path_gate; [apply leave_mono|]. rewrite E. by apply wp_leave. Qed.
Lemma wp_path_close_gate Blk m (Q : unit -> pshare -> Prop) :
  ps_g m = (0, 0)%nat -> Q tt (own_g (0, 1)%nat m) -> wp inv Blk path_close_gate m Q.
Proof. intros E HQ. apply wp_path_gate; [apply close_mono|]. rewrite E. by apply wp_close. Qed.

(** *** Slots *)
Lemma path_inv_take_slot s m F :
  inv s (m ∙ F) -> path_slot_free s = true -> inv (path_take_slot s) (own_slot (S (ps_slot m)) m ∙ F).
Proof. unfold path_slot_free. intros [] Hf%Z.ltb_lt. split; cbn in *; done || lia. Qed.
Lemma wp_releaseSlot {Blk} m n (Q : unit -> pshare -> Prop) :
  ps_slot m = S n -> Q tt (own_slot n m) -> wp inv Blk releaseSlot m Q.
Proof.
  intros E HQ. apply wp_select. intros s F HI. assert (0 <? sp_slots s = true) as Hs.
  { pose proof (pi_slots _ _ _ _ _ _ _ HI) as Hs. cbn in Hs. rewrite E in Hs. lia. }
  rewrite Hs. split; [done|]. intros s' [] (_ & -> & _)%elem_ready.
  exists (own_slot n m). split; [|done]. destruct HI. split; cbn in *; done || lia.
Qed.
Lemma wp_acquireSlot k m (Q : option error -> pshare -> Prop) :
  caller_share m -> ps_slot m = 0%nat -> Quota.idle (ps_q m) ->
  (forall e, Q (Some e) m) -> Q None (own_slot 1 m) -> pwp (acquireSlot k) m Q.
Proof.
  intros Hq Hs Hi HE HQ. apply wp_select. intros s F HI. split.
  - intros [_ [?%ready_nil Hf%ready_nil]%app_eq_nil]%app_eq_nil. apply blk_wait; [done..|]. left.
    unfold path_slot_free in Hf. split_and!; [lia|done..].
  - intros s' r. rewrite !elem_of_app, !elem_ready.
    intros [(Hd & -> & ->)|[(_ & -> & ->)|(Hf & -> & ->)]].
    + exists m. split; [done|]. unfold path_ctx_done in Hd. by case_match.
    + eauto.
    + eexists. split; [by apply path_inv_take_slot|]. by rewrite Hs.
Qed.
Lemma wp_tryAcquireSlot {Blk} m (Q : option error -> pshare -> Prop) :
  ps_slot m = 0%nat -> (forall e, Q (Some e) m) -> Q None (own_slot 1 m) -> wp inv Blk tryAcquireSlot m Q.
Proof.
  intros Hs HE HQ. apply wp_select. intros s F HI. split; [by intros ?%default_ready|].
  intros s' r [Hin|(_ & -> & ->)]%elem_default; [|eauto].
  rewrite elem_of_app, !elem_ready in Hin. destruct Hin as [(_ & -> & ->)|(Hf & -> & ->)]; [eauto|].
  eexists. split; [by apply path_inv_take_slot|]. by rewrite Hs.
Qed.

(** *** The queue *)
(** The share of a caller. *)
Definition pclient (q : gmultiset Quota.tok) (g slot op : nat) (ack : gmultiset nat) : pshare :=
  PShare q (g, 0%nat) slot op ack 0 0 0 0 0 0 Nobody.

Lemma path_handled s m : inv s m -> sp_handled s `prefix_of` sp_admitted s.
Proof.
  intros HI. pose proof (pi_writer _ _ _ _ _ _ _ HI) as Hw. destruct (ps_w m) as [|[]|]; cbn in Hw; [| | |done].
  - destruct Hw as (_ & _ & -> & _). done.
  - destruct Hw as (-> & _). by apply prefix_app_r.
  - destruct Hw as (-> & _). by apply prefix_app_r.
Qed.
Lemma path_handled_id s m i r : inv s m -> sp_handled s !! i = Some r -> rq_id r = i.
Proof.
  intros HI Hi. apply (pi_ids _ _ _ _ _ _ _ HI). destruct (path_handled _ _ HI) as [rest ->].
  by apply lookup_app_l_Some.
Qed.
Lemma path_acked_id s m id : inv s m -> id ∈ (sp_acked s).*1 -> (id < length (sp_handled s))%nat.
Proof.
  intros HI. rewrite (pi_acks _ _ _ _ _ _ _ HI).
  intros (r & -> & [_ Hr]%list_elem_of_filter)%list_elem_of_fmap. apply list_elem_of_lookup in Hr as [i Hi].
  rewrite (path_handled_id _ _ _ _ HI Hi). by eapply lookup_lt_Some.
Qed.
(** Every request with an ack channel that was handled has an answer. *)
Lemma path_answered s m i r :
  inv s m -> sp_handled s !! i = Some r -> rq_ack r = true -> i ∈ (sp_acked s).*1.
Proof.
  intros HI Hi Ha. rewrite (pi_acks _ _ _ _ _ _ _ HI), <- (path_handled_id _ _ _ _ HI Hi).
  apply list_elem_of_fmap_2, list_elem_of_filter. split; [done|]. by eapply list_elem_of_lookup_2.
Qed.

Lemma path_writer_enqueue s w item ack bytes :
  g_drained (sp_gate s) = false -> path_writer strict s w -> path_writer strict (path_enqueue item ack bytes s) w.
Proof.
  intros Hd Hw. destruct w as [|[]|]; cbn in *; [| | |done].
  - destruct Hw as (_ & ? & _). congruence.
  - destruct Hw as (-> & ? & ? & ? & Hem). split_and!; auto; [by rewrite <- (assoc_L (++))|].
    intros [? _]%Hem. congruence.
  - destruct Hw as (-> & ? & ? & ?). split_and!; auto. by rewrite <- (assoc_L (++)).
Qed.
Lemma path_wait_enqueue s m req F :
  inv s m -> ps_ack m = ∅ ⊎ F -> rq_id req = length (sp_admitted s) ->
  forall id, id ∈ (if rq_ack req then {[+ rq_id req +]} else ∅) ⊎ F ->
    multiplicity id ((if rq_ack req then {[+ rq_id req +]} else ∅) ⊎ F) = 1%nat /\
    (exists r, (sp_admitted s ++ [req]) !! id = Some r /\ rq_ack r = true) /\
    (id ∈ (sp_acked s).*1 -> is_Some (sp_ackbuf s !! id)).
Proof.
  intros HI EF Hid. rewrite (left_id_L ∅ (⊎)) in EF.
  assert (forall id, id ∈ F -> multiplicity id F = 1%nat /\ (id < length (sp_admitted s))%nat /\
    (exists r, (sp_admitted s ++ [req]) !! id = Some r /\ rq_ack r = true) /\
    (id ∈ (sp_acked s).*1 -> is_Some (sp_ackbuf s !! id))) as Hold.
  { intros id Hin. rewrite <- EF in Hin. destruct (pi_wait _ _ _ _ _ _ _ HI id Hin) as (? & (r & Hr & ?) & ?).
    rewrite EF in *. pose proof (lookup_lt_Some _ _ _ Hr). split_and!; try done.
    exists r. split; [|done]. by apply lookup_app_l_Some. }
  intros id [Hin|Hin]%gmultiset_elem_of_disj_union.
  - destruct (rq_ack req) eqn:Ea; [|multiset_solver]. apply gmultiset_elem_of_singleton in Hin as ->. split_and!.
    + rewrite multiplicity_disj_union, multiplicity_singleton_eq. assert (multiplicity (rq_id req) F = 0%nat) as ->; [|lia].
      apply not_elem_of_multiplicity. intros Hin. destruct (Hold _ Hin) as (_ & ? & _). lia.
    + exists req. split; [|done]. rewrite Hid. by apply list_lookup_middle.
    + intros Hk%(path_acked_id _ _ _ HI). destruct (path_handled _ _ HI) as [rest E].
      apply (f_equal length) in E. rewrite length_app in E. lia.
  - destruct (Hold _ Hin) as (Hm & Hlt & ? & ?). split_and!; [|done..]. rewrite multiplicity_disj_union, Hm.
    destruct (rq_ack req); [|by rewrite multiplicity_empty]. rewrite multiplicity_singleton_ne; [done|]. lia.
Qed.

Lemma path_inv_enqueue s q op F item ack bytes :
  inv s (pclient (req_toks bytes ⊎ q) 1 1 (S op) ∅ ∙ F) -> zlen (sp_queue s) < sp_qcap s -> 0 <= bytes ->
  item_ok item bytes ->
  inv (path_enqueue item ack bytes s)
    (pclient q 1 0 op (if ack then {[+ length (sp_admitted s) +]} else ∅) ∙ F).
Proof.
  intros HI Hcap Hb Hok. assert (g_drained (sp_gate s) = false) as Hd.
  { eapply path_inside_not_drained; [exact HI|]. cbn. lia. }
  pose proof (fun req Hid => path_wait_enqueue s _ req (ps_ack F) HI eq_refl Hid) as Hwait.
  destruct HI. split; try done; cbn -[disj_union] in *.
  - rewrite path_queued_app, path_queued_single. cbn -[disj_union].
    match goal with |- quota_inv _ _ _ ?m1 => replace m1 with
      (req_toks bytes ⊎ q ⊎ ps_q F ⊎ path_queued (sp_queue s)) end; [done|].
    apply gmultiset_eq. intros x. rewrite !multiplicity_disj_union. lia.
  - rewrite length_app. cbn. lia.
  - rewrite length_app. cbn. lia.
  - apply Forall_app. split; [done|]. by apply Forall_singleton.
  - intros i r Hi. rewrite lookup_app in Hi. destruct (sp_admitted s !! i) eqn:E; [simplify_eq; eauto|].
    apply lookup_ge_None in E. pose proof (lookup_lt_Some _ _ _ Hi). cbn in *.
    assert (i = length (sp_admitted s)) as -> by lia. rewrite Nat.sub_diag in Hi. by simplify_eq/=.
  - by apply (Hwait {| rq_id := length (sp_admitted s); rq_item := item; rq_ack := ack; rq_bytes := bytes |}).
  - rewrite fmap_app. by apply prefix_app_r.
  - rewrite zlen_app. unfold zlen at 2. cbn. lia.
  - by apply path_writer_enqueue.
Qed.

Lemma elem_path_queue (item : X) ack bytes (s s' : sendPath X) a :
  (s', a) ∈ path_queue_case item ack bytes s ->
  zlen (sp_queue s) < sp_qcap s /\ s' = path_enqueue item ack bytes s /\ a = Offered (length (sp_admitted s)).
Proof. unfold path_queue_case. rewrite elem_ready. intros (?%Z.ltb_lt & -> & ->). done. Qed.

Lemma wp_path_offer k item bytes q op (Q : offer_case -> pshare -> Prop) :
  0 <= bytes -> item_ok item bytes -> Q OfferCtx (pclient (req_toks bytes ⊎ q) 1 1 (S op) ∅) ->
  Q OfferClosing (pclient (req_toks bytes ⊎ q) 1 1 (S op) ∅) ->
  (forall id, Q (Offered id) (pclient q 1 0 op {[+ id +]})) ->
  pwp (path_offer k item bytes) (pclient (req_toks bytes ⊎ q) 1 1 (S op) ∅) Q.
Proof.
  intros Hb Hok HX HC HO. apply wp_select. intros s F HI. split.
  - intros [_ [? Hf]%app_eq_nil]%app_eq_nil. apply blk_wait; [done|by eapply ready_nil|]. right. right. left.
    apply ready_nil in Hf. lia.
  - intros s' a. rewrite !elem_of_app, !elem_ready.
    intros [(_ & -> & ->)|[(_ & -> & ->)|(Hc & -> & ->)%elem_path_queue]]; [by eauto..|].
    eexists. split; [by apply (path_inv_enqueue s q op F item true)|]. apply HO.
Qed.
Lemma wp_path_tryOffer {Blk} item bytes q op (Q : offer_case -> pshare -> Prop) :
  0 <= bytes -> item_ok item bytes -> Q OfferFull (pclient (req_toks bytes ⊎ q) 1 1 (S op) ∅) ->
  Q OfferClosing (pclient (req_toks bytes ⊎ q) 1 1 (S op) ∅) ->
  (forall id, Q (Offered id) (pclient q 1 0 op ∅)) ->
  wp inv Blk (path_tryOffer item bytes) (pclient (req_toks bytes ⊎ q) 1 1 (S op) ∅) Q.
Proof.
  intros Hb Hok HX HC HO. apply wp_select. intros s F HI. split; [by intros ?%default_ready|].
  intros s' a [Hin|(_ & -> & ->)]%elem_default; [|by eauto]. rewrite elem_of_app, elem_ready in Hin.
  destruct Hin as [(_ & -> & ->)|(Hc & -> & ->)%elem_path_queue]; [by eauto|].
  eexists. split; [by apply (path_inv_enqueue s q op F item false)|]. apply HO.
Qed.

(** *** Waiting for an answer *)
Lemma path_inv_take_answer s q op id F :
  inv s (pclient q 1 0 op {[+ id +]} ∙ F) ->
  inv (put_ackbuf (delete id (sp_ackbuf s)) s) (pclient q 1 0 op ∅ ∙ F).
Proof.
  intros HI. pose proof (pi_wait _ _ _ _ _ _ _ HI) as Hw. cbn -[disj_union] in Hw.
  assert (id ∉ ps_ack F) as HidF.
  { destruct (Hw id) as [Hm _]; [multiset_solver|]. rewrite multiplicity_disj_union, multiplicity_singleton_eq in Hm.
    apply not_elem_of_multiplicity. lia. }
  destruct HI. split; try done; cbn -[disj_union] in *.
  - intros i r [_ Hr]%lookup_delete_Some. eauto.
  - intros i Hi. rewrite (left_id_L ∅ (⊎)) in *. assert (i <> id) by congruence.
    destruct (Hw i) as (Hm & ? & Hbuf); [multiset_solver|].
    rewrite multiplicity_disj_union, multiplicity_singleton_ne in Hm by done. split_and!; [done..|].
    intros [x Hx]%Hbuf. exists x. by apply lookup_delete_Some.
Qed.
Lemma path_inv_drop_answer s q op id F :
  inv s (pclient q 1 0 op {[+ id +]} ∙ F) -> inv s (pclient q 1 0 op ∅ ∙ F).
Proof.
  intros HI. pose proof (pi_wait _ _ _ _ _ _ _ HI) as Hw. cbn -[disj_union] in Hw.
  destruct HI. split; try done; cbn -[disj_union] in *. intros i Hi. rewrite (left_id_L ∅ (⊎)) in *.
  destruct (Hw i) as (Hm & ? & Hbuf); [multiset_solver|]. split_and!; [|done..].
  rewrite multiplicity_disj_union in Hm. rewrite elem_of_multiplicity in Hi. lia.
Qed.
Lemma elem_answer_case id (s s' : sendPath X) r :
  (s', r) ∈ answer_case id s -> s' = put_ackbuf (delete id (sp_ackbuf s)) s /\ exists e, r = AnswerIs e.
Proof.
  unfold answer_case. case_match; rewrite ?list_elem_of_singleton, ?elem_of_nil; naive_solver.
Qed.
Lemma wp_path_await k id q op (Q : answer_wait -> pshare -> Prop) :
  Quota.idle q -> (forall r, Q r (pclient q 1 0 op ∅)) ->
  pwp (path_await k id) (pclient q 1 0 op {[+ id +]}) Q.
Proof.
  intros Hi HQ. apply wp_bind, wp_select. intros s F HI. split.
  { intros [Ha [_ ?%ready_nil]%app_eq_nil]%app_eq_nil. apply blk_wait; [done..|]. right. right. right.
    split; [|done]. exists id. split; [multiset_solver|]. unfold answer_case in Ha. by case_match. }
  intros s' r. rewrite !elem_of_app, !elem_ready.
  intros [[-> [e ->]]%elem_answer_case|[(_ & -> & ->)|(_ & -> & ->)]].
  - eexists. split; [by apply path_inv_take_answer|]. by apply wp_ret.
  - eexists. split; [by eapply path_inv_drop_answer|]. by apply wp_ret.
  - eexists. split; [exact HI|]. clear s F HI. apply wp_select. intros s F HI.
    split; [by intros ?%default_ready|].
    intros s' r [[-> [e ->]]%elem_answer_case|(_ & -> & ->)]%elem_default.
    + eexists. split; [by apply path_inv_take_answer|done].
    + eexists. split; [by eapply path_inv_drop_answer|done].
Qed.
End programs.
End inv.
Arguments pshare : clear implicits.
#[global] Arguments path_queued : simpl never.
