(* ===== verification/SendPathWriter.v ===== *)
(** * SendPathWriter: the writer and the closers of the outbound half of a connection

    The writer's half of SendPath.v, closing, the end of the loops, and the state of a
    way out that is open while nothing can move: empty. *)
From S2P Require Import Prelude Conc Kinds Errors Gate Quota SendPath SendPathInv.
Local Open Scope go_scope.
Local Open Scope Z_scope.

Section writer.
Context {X : Type} {strict : bool} (lim : site -> Z) (bound total : nat) (wq : Z) (item_ok : X -> Z -> Prop) (own : bool).
Hypothesis lim_ok : forall c, 0 <= lim c < 2 ^ 62.
Abbreviation inv := (path_inv (strict:=strict) lim bound total wq item_ok).
Abbreviation pwp := (wp inv (path_blk own)).
Implicit Types (s : sendPath X) (m F : pshare X) (req : request X).

(** The share of the writer, [kn] telling whether it knows that [closing] is closed. *)
Definition pwriter (q : gmultiset Quota.tok) (slot kn : nat) (w : ptok X) : pshare X :=
  PShare q (0, 0)%nat slot 0 ∅ 1 0 0 0 0 kn (Owner w).

Lemma pwriter_alone s w (x : excl (ptok X)) : path_writer strict s (Owner w ∙ x) -> x = Nobody.
Proof. by destruct x. Qed.
Lemma pwriter_get s q slot kn w F :
  inv s (pwriter q slot kn w ∙ F) -> path_writer strict s (Owner w) /\ ps_w F = Nobody.
Proof.
  intros HI. pose proof (pi_writer _ _ _ _ _ _ _ HI) as Hw. pose proof (pwriter_alone _ _ _ Hw) as E.
  cbn -[path_writer] in Hw, E. rewrite E in Hw. done.
Qed.
(** Changing what only the writer knows. *)
Lemma path_inv_writer s q slot kn w w' F :
  inv s (pwriter q slot kn w ∙ F) -> (path_writer strict s (Owner w) -> path_writer strict s (Owner w')) ->
  inv s (pwriter q slot kn w' ∙ F).
Proof.
  intros HI Hw. destruct (pwriter_get _ _ _ _ _ _ HI) as [Hi E].
  destruct HI. split; try done. cbn -[path_writer]. rewrite E. auto.
Qed.

(** *** Requests *)
Lemma path_inv_dequeue s q slot kn n clean dr em req rest F :
  inv s (pwriter q slot kn (PIdle n clean dr em) ∙ F) -> sp_queue s = req :: rest ->
  inv (put_queue rest s)
    (pwriter (req_toks (rq_bytes req) ⊎ q) (S slot) kn (PBusy n req (if clean then PFresh else PFailed) dr) ∙ F)
  /\ 0 <= rq_bytes req.
Proof.
  intros HI E. destruct (pwriter_get _ _ _ _ _ _ HI) as [(Ha & Hn & Hc & Hd & Hem) EF].
  assert (0 <= rq_bytes req) as Hb.
  { apply (pi_ids _ _ _ _ _ _ _ HI (length (sp_handled s)) req). by rewrite Ha, E, lookup_app_r, Nat.sub_diag by lia. }
  split; [|done]. destruct HI. split; try done; cbn -[disj_union] in *; rewrite ?E in *; cbn -[disj_union] in *.
  - change (path_queued (req :: rest)) with (req_toks (rq_bytes req) ⊎ path_queued rest) in pi_quota.
    match goal with |- quota_inv _ _ _ ?m1 => replace m1 with
      (q ⊎ ps_q F ⊎ (req_toks (rq_bytes req) ⊎ path_queued rest)) end; [done|].
    apply gmultiset_eq. intros x. rewrite !multiplicity_disj_union. lia.
  - lia.
  - rewrite zlen_cons in pi_caps. lia.
  - rewrite EF. cbn. split_and!; [done..|by destruct clean; auto|done].
Qed.
(** The socket takes the item, or fails. *)
Lemma path_inv_wrote s q slot kn n req dr F :
  inv s (pwriter q slot kn (PBusy n req PFresh dr) ∙ F) ->
  inv (put_written (sp_written s ++ [rq_item req]) s) (pwriter q slot kn (PBusy n req PWrote dr) ∙ F).
Proof.
  intros HI. destruct (pwriter_get _ _ _ _ _ _ HI) as [(Ha & Hn & Hw & Hd) EF].
  destruct HI. split; try done; cbn -[disj_union] in *.
  - intros id Hid%pi_nil. rewrite length_app. lia.
  - rewrite Hw, Ha, !fmap_app, fmap_cons. apply prefix_app. exists (rq_item <$> sp_queue s). done.
  - rewrite EF. cbn. split_and!; [done..| |done]. by rewrite Hw, fmap_app.
Qed.
Lemma path_inv_failed s q slot kn n req dr F :
  inv s (pwriter q slot kn (PBusy n req PFresh dr) ∙ F) -> inv s (pwriter q slot kn (PBusy n req PFailed dr) ∙ F).
Proof. intros HI. eapply path_inv_writer; [exact HI|]. cbn. intros (? & ? & _ & ?). done. Qed.

Definition is_pwrote (ph : write_phase) : bool := match ph with PWrote => true | _ => false end.
Lemma path_req_id s q slot kn n req ph dr F :
  inv s (pwriter q slot kn (PBusy n req ph dr) ∙ F) ->
  rq_id req = length (sp_handled s) /\ sp_ackbuf s !! rq_id req = None.
Proof.
  intros HI. destruct (pwriter_get _ _ _ _ _ _ HI) as [(Ha & Hn & _) _].
  assert (rq_id req = length (sp_handled s)) as Hid.
  { apply (pi_ids _ _ _ _ _ _ _ HI _ req). by rewrite Ha, lookup_app_r, Nat.sub_diag by lia. }
  split; [done|]. destruct (sp_ackbuf s !! rq_id req) eqn:E; [|done].
  apply (pi_buf _ _ _ _ _ _ _ HI), (path_acked_id _ _ _ _ _ _ _ _ HI) in E. lia.
Qed.
Lemma path_answer_state s q slot kn n req ph dr F r :
  inv s (pwriter q slot kn (PBusy n req ph dr) ∙ F) -> (r = None -> ph = PWrote) ->
  let s' := put_handled (sp_handled s ++ [req]) s in
  inv (if rq_ack req then put_acked (sp_acked s ++ [(rq_id req, r)]) (put_ackbuf (<[rq_id req := r]> (sp_ackbuf s)) s')
       else s')
    (pwriter q slot kn (PIdle (S n) (is_pwrote ph) dr false) ∙ F).
Proof.
  intros HI Hr s'. destruct (path_req_id _ _ _ _ _ _ _ _ _ HI) as [Hid Hbuf].
  destruct (pwriter_get _ _ _ _ _ _ HI) as [(Ha & Hn & Hw & Hd) EF].
  assert (path_writer strict s' (Owner (PIdle (S n) (is_pwrote ph) dr false))) as Hw'.
  { cbn. split_and!; [by rewrite <- (assoc_L (++))|rewrite length_app; cbn; lia|by destruct ph|done|done]. }
  subst s'. destruct (rq_ack req) eqn:Ea; destruct HI; split; try done; cbn -[disj_union] in *; rewrite ?EF; try done.
  - by rewrite fmap_app, list.filter_app, fmap_app, pi_acks, filter_cons_True by done.
  - intros id [?|[= -> <-]%list_elem_of_singleton]%elem_of_app; [auto|].
    rewrite Hr in Hw by done. rewrite Hw, length_fmap, length_app. cbn. lia.
  - intros id r0 [[<- _]|[_ Hr0]]%lookup_insert_Some; rewrite fmap_app; apply elem_of_app; [right; by left|].
    left. eauto.
  - intros id Hin. destruct (pi_wait id Hin) as (? & ? & Hb). split_and!; [done..|].
    rewrite fmap_app, elem_of_app. intros [[x Hx]%Hb| ->%list_elem_of_singleton].
    + destruct (decide (rq_id req = id)) as [->|Hne]; [rewrite lookup_insert_eq; eauto|].
      rewrite lookup_insert_ne by done. eauto.
    + rewrite lookup_insert_eq. eauto.
  - by rewrite list.filter_app, fmap_app, pi_acks, filter_cons_False, app_nil_r by congruence.
Qed.
Lemma wp_path_answer {Blk} req r q slot kn n ph dr (Q : unit -> pshare X -> Prop) :
  (r = None -> ph = PWrote) -> Q tt (pwriter q slot kn (PIdle (S n) (is_pwrote ph) dr false)) ->
  wp inv Blk (path_answer req r) (pwriter q slot kn (PBusy n req ph dr)) Q.
Proof.
  intros Hr HQ. apply wp_select. intros s F HI. pose proof (path_answer_state _ _ _ _ _ _ _ _ _ _ HI Hr) as HI'.
  destruct (path_req_id _ _ _ _ _ _ _ _ _ HI) as [_ Hbuf]. cbv zeta in *. rewrite Hbuf.
  destruct (rq_ack req); (split; [done|]); intros s' [] [= ->]%list_elem_of_singleton; eauto.
Qed.

(** The fuel of a loop is never used up: a request is answered once. *)
Lemma path_no_fuel s q slot kn n clean dr em F :
  inv s (pwriter q slot kn (PIdle n clean dr em) ∙ F) -> (n <= total)%nat.
Proof.
  intros HI. destruct (pwriter_get _ _ _ _ _ _ HI) as [(Ha & Hn & _) _].
  pose proof (pi_ops _ _ _ _ _ _ _ HI) as Ho. rewrite Ha, length_app in Ho. lia.
Qed.
Lemma path_inv_idle s q slot kn n clean dr em dr' em' F :
  inv s (pwriter q slot kn (PIdle n clean dr em) ∙ F) ->
  (dr' = true -> dr = true \/ g_drained (sp_gate s) = true) ->
  (em' = true -> g_drained (sp_gate s) = true /\ sp_queue s = []) ->
  inv s (pwriter q slot kn (PIdle n clean dr' em') ∙ F).
Proof.
  intros HI Hd He. eapply path_inv_writer; [exact HI|]. cbn. intros (? & ? & ? & Hdr & ?).
  split_and!; [done..| |done]. intros [->|?]%Hd; auto.
Qed.
Lemma elem_path_dequeue {B} (f : request X -> B) s s' b :
  (s', b) ∈ path_dequeue f s -> exists req rest, sp_queue s = req :: rest /\ s' = put_queue rest s /\ b = f req.
Proof.
  unfold path_dequeue. destruct (sp_queue s) eqn:E; [by intros ?%elem_of_nil|].
  intros [= -> ->]%list_elem_of_singleton. eauto.
Qed.
Lemma path_dequeue_nil {B} (f : request X -> B) s : path_dequeue f s = [] -> sp_queue s = [].
Proof. unfold path_dequeue. by case_match. Qed.
(** Taking what is left, once no sender is inside. *)
Lemma wp_path_next {Blk} q kn n clean em (Q : option (request X) -> pshare X -> Prop) :
  Q None (pwriter q 0 kn (PIdle n clean true true)) ->
  (forall req, 0 <= rq_bytes req -> Q (Some req)
     (pwriter (req_toks (rq_bytes req) ⊎ q) 1 kn (PBusy n req (if clean then PFresh else PFailed) true))) ->
  wp inv Blk path_next (pwriter q 0 kn (PIdle n clean true em)) Q.
Proof.
  intros HN HS. apply wp_select. intros s F HI. split; [by intros ?%default_ready|].
  intros s' r [(req & rest & E & -> & ->)%elem_path_dequeue|(E%path_dequeue_nil & -> & ->)]%elem_default.
  - destruct (path_inv_dequeue _ _ _ _ _ _ _ _ _ _ _ HI E) as [HI' Hb]. eauto.
  - eexists. split; [|exact HN]. destruct (pwriter_get _ _ _ _ _ _ HI) as [(_ & _ & _ & Hd & _) _].
    eapply path_inv_idle; [exact HI|by left|]. auto.
Qed.
(** *** Closing *)
Lemma path_inv_knows s m F kn : inv s (m ∙ F) -> path_closing s = true -> inv s (own_know kn (own_ran 0 m) ∙ F).
Proof.
  intros HI Hc. assert (sp_once s = true) as Ho.
  { pose proof (pi_once _ _ _ _ _ _ _ HI) as H1. rewrite Hc in H1. destruct (sp_once s); [done|cbn in H1; lia]. }
  destruct HI. by split.
Qed.
Lemma path_inv_once s m F :
  inv s (m ∙ F) -> ps_close m = 0%nat ->
  inv (put_once true s) ((if sp_once s then own_ran 1 m else own_close 1 m) ∙ F).
Proof.
  intros HI E. destruct (sp_once s) eqn:Eo; destruct HI; rewrite Eo in *; split; try done; cbn -[path_closing] in *.
  change (path_closing (put_once true s)) with (path_closing s). lia.
Qed.
Lemma wp_path_enter_once {Blk} m (Q : bool -> pshare X -> Prop) :
  ps_close m = 0%nat -> Q true (own_close 1 m) -> Q false (own_ran 1 m) -> wp inv Blk path_enter_once m Q.
Proof.
  intros E HT HF. apply wp_section. intros s F s' b HI [= <- <-]. eexists. split; [by apply path_inv_once|].
  by destruct (sp_once s).
Qed.
Lemma wp_path_close_chan {Blk} m (Q : unit -> pshare X -> Prop) :
  ps_close m = 1%nat -> ps_phys m = 0%nat -> ps_g m = (0, 1)%nat ->
  Q tt (own_g (0, 0)%nat (own_phys 1 (own_close 0 m))) -> wp inv Blk path_close_chan m Q.
Proof.
  intros Ec Ep Eg HQ. apply wp_atomic_panic. intros s F HI. pose proof (pi_once _ _ _ _ _ _ _ HI) as Ho. cbn in Ho.
  destruct (path_closing s) eqn:E; [rewrite Ec in Ho; destruct (sp_once s); cbn in Ho; lia|].
  do 3 eexists. split; [done|]. split; [|exact HQ].
  assert (g_closed (sp_gate s) = true) as Hg.
  { destruct (pi_gate _ _ _ _ _ _ _ HI) as (_ & _ & Hw). apply Hw. cbn. rewrite Eg. cbn. lia. }
  assert (path_closing (put_quota {| qs_local := qs_local (sp_quota s); qs_global := qs_global (sp_quota s);
            qs_ctx := qs_ctx (sp_quota s); qs_closing := fupd 0 true (qs_closing (sp_quota s)) |} s) = true) as Hcl
    by (unfold path_closing; cbn; apply fupd_same).
  destruct HI. rewrite E in *. split; rewrite ?Hcl; try done; cbn -[path_closing disj_union] in *; try lia.
  - destruct pi_gate as (? & ? & Hw). rewrite Eg in *. cbn in *. done.
  - apply (path_writer_mono _ s); try done.
Qed.
Lemma wp_path_close_socket {Blk} m kn (Q : unit -> pshare X -> Prop) :
  ps_phys m = 1%nat -> Q tt (own_know kn (own_ran 0 (own_phys 0 m))) -> wp inv Blk path_close_socket m Q.
Proof.
  intros E HQ. apply wp_atomically. intros s F HI. eexists. split; [|exact HQ].
  assert (path_closing s = true) as Hc.
  { destruct (pi_phys _ _ _ _ _ _ _ HI) as [? Hp]. cbn in Hp. rewrite E in Hp.
    destruct (path_closing s); [done|cbn in Hp; lia]. }
  apply (path_inv_knows _ (own_phys 0 m)); [|done]. destruct HI. split; try done; cbn -[path_closing] in *.
  change (path_closing (put_physical _ s)) with (path_closing s). rewrite E in *. lia.
Qed.
Lemma wp_path_once_wait Blk m kn (Q : unit -> pshare X -> Prop) :
  (forall s, sp_once s = true -> sp_physical s = 0 -> Blk s m) -> ps_ran m = 1%nat ->
  Q tt (own_know kn (own_ran 0 m)) -> wp inv Blk path_once_wait m Q.
Proof.
  intros HB E HQ. apply wp_select. intros s F HI. pose proof (pi_phys _ _ _ _ _ _ _ HI) as [Hp0 Hp]. split.
  - intros Hn%ready_nil. apply HB; [|lia]. apply (pi_ran _ _ _ _ _ _ _ HI). cbn. lia.
  - intros s' [] (Hn & -> & _)%elem_ready. eexists. split; [|exact HQ]. apply path_inv_knows; [done|].
    destruct (path_closing s); [done|cbn in Hp; lia].
Qed.
Lemma blk_once s m : settled_share m -> at_rest m -> sp_once s = true -> sp_physical s = 0 -> path_blk own s m.
Proof. intros. split; [done|]. right. split; [done|]. by left. Qed.

(** *** The end of the loops *)
Lemma wp_path_loop_done {Blk} m (Q : unit -> pshare X -> Prop) :
  ps_loop m = 1%nat -> Q tt (own_loop 0 m) -> wp inv Blk path_loop_done m Q.
Proof.
  intros E HQ. apply wp_atomically. intros s F HI. eexists. split; [|exact HQ].
  destruct HI. split; try done. cbn in *. rewrite E in *. lia.
Qed.
(** The writer leaves when the queue is empty for good. *)
Lemma wp_path_writer_done {Blk} q kn n clean (Q : unit -> pshare X -> Prop) :
  (strict = true -> kn = 1%nat) -> Q tt (PShare q (0, 0)%nat 0 0 ∅ 0 0 0 0 0 0 Nobody) ->
  wp inv Blk path_loop_done (pwriter q 0 kn (PIdle n clean true true)) Q.
Proof.
  intros Hkn HQ. apply wp_atomically. intros s F HI. eexists. split; [|exact HQ].
  destruct (pwriter_get _ _ _ _ _ _ HI) as [(Ha & _ & _ & Hd & He) EF]. destruct He as [_ Hq]; [done|].
  assert (strict = true -> path_closing s = true) as Hc
    by (intros ->%Hkn; apply (pi_know _ _ _ _ _ _ _ HI); cbn; lia).
  rewrite Hq, app_nil_r in Ha. destruct HI. split; try done; cbn -[disj_union] in *; [lia|intros; apply pi_know; lia|].
  rewrite EF. cbn. auto.
Qed.
Lemma wp_path_loops_wait m (Q : unit -> pshare X -> Prop) :
  own = true -> caller_share m -> at_rest m -> ps_loop m = 0%nat -> Q tt m -> pwp path_loops_wait m Q.
Proof.
  intros Hown [Hs Hw] Hr E HQ. apply wp_select. intros s F HI. split.
  - intros Hn%ready_nil. split; [done|]. right. split; [done|]. right. split; [done|]. right. right. split_and!; [done..|]. left. lia.
  - intros s' [] (_ & -> & _)%elem_ready. eauto.
Qed.
Lemma wp_path_await_done k m (Q : bool -> pshare X -> Prop) :
  own = true -> caller_share m -> at_rest m -> ps_loop m = 0%nat -> ps_fin m = 0%nat -> (forall b, Q b m) ->
  pwp (path_await_done k) m Q.
Proof.
  intros Hown [Hs Hw] Hr El Ef HQ. apply wp_select. intros s F HI. split.
  - intros [_ Hn%ready_nil]%app_eq_nil. split; [done|]. right. split; [done|]. right. split; [done|]. right. right. auto.
  - intros s' b. rewrite elem_of_app, !elem_ready. intros [(_ & -> & ->)|(_ & -> & ->)]; eauto.
Qed.
Lemma wp_path_close_done {Blk} m (Q : unit -> pshare X -> Prop) :
  ps_fin m = 1%nat -> Q tt (own_fin 0 m) -> wp inv Blk path_close_done m Q.
Proof.
  intros E HQ. apply wp_atomic_panic. intros s F HI. pose proof (pi_fin _ _ _ _ _ _ _ HI) as Hf. cbn in Hf.
  destruct (sp_done s) eqn:Ed; [cbn in Hf; lia|]. do 3 eexists. split; [done|]. split; [|exact HQ].
  destruct HI. rewrite Ed in *. split; try done. cbn in *. lia.
Qed.
Lemma wp_path_await_closing m (Q : unit -> pshare X -> Prop) :
  own = true -> caller_share m -> at_rest m -> Q tt m -> pwp path_await_closing m Q.
Proof.
  intros Hown [Hs Hw] Hr HQ. apply wp_select. intros s F HI. split.
  - intros Hn%ready_nil. split; [done|]. right. split; [done|]. right. split; [done|]. by left.
  - intros s' [] (_ & -> & _)%elem_ready. eauto.
Qed.
Lemma put_gate_id s : put_gate (sp_gate s) s = s.
Proof. by destruct s. Qed.
Lemma wp_path_await_gate q n clean dr em (Q : unit -> pshare X -> Prop) :
  own = true -> Quota.idle q -> Q tt (pwriter q 0 1 (PIdle n clean true em)) ->
  pwp (lift gate_in await_done) (pwriter q 0 1 (PIdle n clean dr em)) Q.
Proof.
  intros Hown Hi HQ s F HI. cbn. unfold gate_done. destruct (g_drained (sp_gate s)) eqn:E; cbn.
  - split; [done|]. intros o ->%list_elem_of_singleton. rewrite put_gate_id. eexists. split; [|exact HQ].
    eapply path_inv_idle; [exact HI|by right|].
    by destruct (pwriter_get _ _ _ _ _ _ HI) as [(_ & _ & _ & _ & He) _].
  - split; [|by intros o ?%elem_of_nil]. intros _. split; [done|]. right. split; [done|]. right. split; [done|]. right. left.
    split; [|done]. apply (pi_know _ _ _ _ _ _ _ HI). cbn. lia.
Qed.
Lemma wp_path_cancel {Blk} k e m (Q : unit -> pshare X -> Prop) : Q tt m -> wp inv Blk (path_cancel k e) m Q.
Proof.
  intros HQ. apply wp_atomically. intros s F HI. exists m. split; [|done].
  by destruct HI; split.
Qed.

(** ** When nothing can move *)
(** A goroutine that has returned. *)
Definition path_fin m : Prop :=
  settled_share m /\ at_rest m /\ ps_ack m = ∅ /\ ps_loop m = 0%nat /\ ps_fin m = 0%nat /\ ps_w m = Nobody.
(** The writer waits for a request, none having failed. *)
Definition idle_writer s m : Prop :=
  settled_share m /\ at_rest m /\ path_closing s = false /\ sp_queue s = [] /\
  exists n dr em, ps_w m = Owner (PIdle n true dr em).

(** Nobody waits for a close that nobody is making. *)
Lemma settled_sum s ms :
  inv s (gsum ms) -> (forall m, m ∈ ms -> settled_share m) ->
  sp_once s = path_closing s /\ sp_physical s = Z.of_nat (Nat.b2n (path_closing s)).
Proof.
  intros HI Hs. assert (ps_close (gsum ms) = 0%nat) as Hc by (apply sum_none; [done..|]; intros m Hm; by apply Hs).
  assert (ps_phys (gsum ms) = 0%nat) as Hp by (apply sum_none; [done..|]; intros m Hm; by apply Hs).
  pose proof (pi_once _ _ _ _ _ _ _ HI) as Ho. pose proof (pi_phys _ _ _ _ _ _ _ HI) as [_ Hph]. rewrite Hc in Ho.
  split; [by destruct (sp_once s), (path_closing s)|lia].
Qed.

(** In a strict path the writer is there as long as [closing] is open. *)
Lemma strict_alive s m : inv s m -> strict = true -> path_closing s = false -> ps_w m <> Nobody.
Proof.
  intros HI Hst Hc Ew. pose proof (pi_writer _ _ _ _ _ _ _ HI) as Hw. rewrite Ew in Hw.
  destruct Hw as (_ & _ & _ & Hcl). rewrite Hcl in Hc by done. done.
Qed.

Section stopped.
Context s (ms : list (pshare X)).
Hypothesis HI : inv s (gsum ms).
Hypothesis Hms : forall m, m ∈ ms -> path_fin m \/ path_blk true s m \/ idle_writer s m.

Lemma stopped_settled m : m ∈ ms -> settled_share m.
Proof. intros Hm. by destruct (Hms m Hm) as [[? _]|[[? _]|[? _]]]. Qed.
Lemma no_second_closer : ~ (sp_once s = true /\ sp_physical s = 0).
Proof. destruct (settled_sum _ _ HI stopped_settled) as [-> ->]. by intros [-> ?]. Qed.

(** Closing: everybody has returned. *)
Lemma closing_rest : path_closing s = true -> forall m, m ∈ ms -> at_rest m.
Proof.
  intros Hc m Hm. destruct (Hms m Hm) as [(_ & ? & _)|[[_ [(? & _)|[? _]]]|(_ & _ & ? & _)]]; done || congruence.
Qed.
Lemma rest_gate : (forall m, m ∈ ms -> at_rest m) -> (ps_g (gsum ms)).1 = 0%nat.
Proof. intros Hr. apply (sum_none (fun m => (ps_g m).1)); [done..|]. intros m Hm. by apply Hr. Qed.
Lemma closing_drained : path_closing s = true -> g_drained (sp_gate s) = true.
Proof.
  intros Hc. destruct (pi_gate _ _ _ _ _ _ _ HI) as (Ha & -> & _).
  by rewrite (pi_closing _ _ _ _ _ _ _ HI Hc), Ha, rest_gate by by apply closing_rest.
Qed.
Lemma closing_loops : path_closing s = true -> sp_loops s = 0.
Proof.
  intros Hc. rewrite (pi_loops _ _ _ _ _ _ _ HI). destruct (decide (ps_loop (gsum ms) = 0%nat)) as [->|Hne]; [done|].
  destruct (sum_owner ps_loop ltac:(done) ltac:(done) ms) as (m & Hm & Hpos); [lia|]. exfalso.
  pose proof (closing_drained Hc). pose proof no_second_closer.
  destruct (Hms m Hm) as [(_ & _ & _ & ? & _)|[[_ [(? & _)|[_ [?|[_ [[? _]|[[_ ?]|(? & _)]]]]]]]|(_ & _ & ? & _)]];
    congruence || lia || done.
Qed.
Lemma closing_done : path_closing s = true -> sp_done s = true.
Proof.
  intros Hc. pose proof (pi_fin _ _ _ _ _ _ _ HI) as Hf. destruct (sp_done s) eqn:Ed; [done|]. cbn in Hf.
  destruct (sum_owner ps_fin ltac:(done) ltac:(done) ms) as (m & Hm & Hpos); [lia|]. exfalso.
  pose proof (closing_drained Hc). pose proof no_second_closer. pose proof (closing_loops Hc).
  destruct (Hms m Hm) as [(_ & _ & _ & _ & ? & _)|[[_ [(? & _)|[_ [?|[_ [[? _]|[[_ ?]|(_ & _ & [?|[_ ?]])]]]]]]]|(_ & _ & ? & _)]];
    congruence || lia || done.
Qed.
Lemma closing_nobody_blocked : path_closing s = true -> forall m, m ∈ ms -> path_fin m.
Proof.
  intros Hc m Hm. pose proof (closing_drained Hc). pose proof no_second_closer. pose proof (closing_loops Hc).
  pose proof (closing_done Hc).
  destruct (Hms m Hm) as [?|[[_ [(? & _)|[_ [?|[_ [[? _]|[[_ ?]|(_ & _ & [?|[? _]])]]]]]]]|(_ & _ & ? & _)]];
    congruence || lia || done.
Qed.

(** Open: the writer waits for a request, and everything admitted has been answered. *)
Hypothesis Halive : path_closing s = false -> ps_w (gsum ms) <> Nobody.
Lemma open_writer : path_closing s = false -> exists m, m ∈ ms /\ idle_writer s m.
Proof.
  intros Hc. pose proof (pi_writer _ _ _ _ _ _ _ HI) as Hw. destruct (ps_w (gsum ms)) as [|w|] eqn:Ew; [| |done].
  { by destruct (Halive Hc). }
  destruct (sum_excl ps_w ms w) as (m & Hm & Em); [done..|]. exists m. split; [done|].
  pose proof no_second_closer.
  destruct (Hms m Hm) as [(_ & _ & _ & _ & _ & ?)|[[_ [(_ & ? & _)|[_ [?|[_ [[_ ?]|[[? _]|(_ & ? & _)]]]]]]]|?]]; congruence || done.
Qed.
Lemma open_handled :
  path_closing s = false -> sp_queue s = [] /\ sp_handled s = sp_admitted s /\ sp_written s = rq_item <$> sp_admitted s.
Proof.
  intros Hc. destruct (open_writer Hc) as (m & Hm & _ & _ & _ & Hq & n & dr & em & Ew). split; [done|].
  pose proof (pi_writer _ _ _ _ _ _ _ HI) as Hw. destruct (gsum_elem _ _ Hm) as [F EF]. rewrite EF in Hw.
  change (path_writer strict s (ps_w m ∙ ps_w F)) in Hw. rewrite Ew in Hw. pose proof (pwriter_alone _ _ _ Hw) as EFw.
  rewrite EFw in Hw. destruct Hw as (-> & _ & Hwr & _). rewrite Hq, app_nil_r. auto.
Qed.
(** A caller that waits for an answer has one. *)
Lemma open_no_ack m id :
  path_closing s = false -> m ∈ ms -> id ∈ ps_ack m -> sp_ackbuf s !! id <> None.
Proof.
  intros Hc Hm Hid Hn. destruct (open_handled Hc) as (_ & Hh & _). destruct (gsum_elem _ _ Hm) as [F EF].
  destruct (pi_wait _ _ _ _ _ _ _ HI id) as (_ & (r & Hr & Hack) & Hbuf).
  { rewrite EF. cbn. by apply gmultiset_elem_of_disj_union; left. }
  rewrite <- Hh in Hr. destruct (Hbuf (path_answered _ _ _ _ _ _ _ _ _ HI Hr Hack)) as [x Hx]. congruence.
Qed.
Lemma open_wait m :
  path_closing s = false -> 1 <= wq -> m ∈ ms -> at_rest m \/ path_wait s m /\ sp_qcap s > zlen (sp_queue s).
Proof.
  intros Hc Hwq Hm. destruct (open_handled Hc) as [Hq _]. pose proof (pi_caps _ _ _ _ _ _ _ HI) as (_ & Hcap & _ & _).
  rewrite Hq. change (zlen (@nil (request X))) with 0. pose proof no_second_closer.
  destruct (Hms m Hm) as [(_ & ? & _)|[[_ [(_ & _ & ?)|[? _]]]|(_ & ? & _)]]; auto. right. split; [done|lia].
Qed.
Lemma open_quota m :
  path_closing s = false -> 1 <= wq -> m ∈ ms -> Quota.idle (ps_q m) \/ quota_blk (sp_quota s) (ps_q m).
Proof.
  intros Hc Hwq Hm. destruct (open_wait m Hc Hwq Hm) as [(_ & _ & ?)|[[(_ & _ & ?)|[?|[?|(_ & _ & ?)]]] ?]];
    auto. lia.
Qed.
Lemma open_no_quota_wait m :
  path_closing s = false -> 1 <= wq -> m ∈ ms -> ~ quota_blk (sp_quota s) (ps_q m).
Proof.
  intros Hc Hwq Hm. destruct (open_handled Hc) as [Hq _].
  apply (nobody_waits lim bound (sp_quota s) (ps_q <$> ms)).
  - rewrite <- (sum_field ps_q) by done. pose proof (pi_quota _ _ _ _ _ _ _ HI) as HQ. rewrite Hq in HQ.
    change (path_queued []) with (∅ : gmultiset Quota.tok) in HQ. by rewrite (right_id_L ∅ (⊎)) in HQ.
  - intros q (m' & -> & Hm')%list_elem_of_fmap. by apply open_quota.
  - by apply list_elem_of_fmap_2.
Qed.
(** Nobody waits inside, everybody is at rest: an open way out on which nothing can move
    is empty. *)
Lemma open_slots : path_closing s = false -> 1 <= wq -> sp_slots s = 0.
Proof.
  intros Hc Hwq. assert (ps_slot (gsum ms) = 0%nat) as Hs.
  { apply (sum_none ps_slot); [done..|]. intros m Hm. pose proof (open_no_quota_wait m Hc Hwq Hm).
    destruct (open_wait m Hc Hwq Hm) as [(_ & ? & _)|[[(_ & ? & _)|[?|[?|(_ & ? & _)]]] ?]]; done || lia. }
  destruct (open_handled Hc) as [Hq _]. by rewrite (pi_slots _ _ _ _ _ _ _ HI), Hs, Hq.
Qed.
Lemma open_no_wait m : path_closing s = false -> 1 <= wq -> m ∈ ms -> ~ path_wait s m.
Proof.
  intros Hc Hwq Hm Hw. pose proof (open_no_quota_wait m Hc Hwq Hm). pose proof (open_slots Hc Hwq).
  destruct (open_handled Hc) as [Hq _]. pose proof (pi_caps _ _ _ _ _ _ _ HI) as (Hcap & Hqc & _).
  destruct Hw as [[? _]|[?|[Hf|[(id & Hid & Hn) _]]]]; [lia|done|rewrite Hq in Hf; unfold zlen in Hf; simpl length in Hf; lia|].
  by destruct (open_no_ack m id Hc Hm Hid).
Qed.
Lemma open_rest : path_closing s = false -> 1 <= wq -> forall m, m ∈ ms -> at_rest m.
Proof.
  intros Hc Hwq m Hm. pose proof (open_no_wait m Hc Hwq Hm). by destruct (open_wait m Hc Hwq Hm) as [?|[? _]].
Qed.
(** What is given back then. *)
Lemma rest_given_back :
  (forall m, m ∈ ms -> at_rest m) -> sp_queue s = [] ->
  sp_slots s = 0 /\ g_active (sp_gate s) = 0 /\ current (qs_local (sp_quota s) 0) = 0 /\
  globalCurrent (Some (qs_global (sp_quota s))) = 0.
Proof.
  intros Hr Hq. assert (forall x, c_used (cell_at x (sp_quota s)) = 0) as Hu.
  { intros x. destruct (pi_quota _ _ _ _ _ _ _ HI) as [_ Hcell]. destruct (Hcell x) as [_ -> _ _ _ _ _].
    destruct (unlimited _ _); [done|]. rewrite Hq. change (path_queued []) with (∅ : gmultiset Quota.tok).
    rewrite (right_id_L ∅ (⊎)), (sum_field ps_q) by done. apply idle_gsum, Forall_fmap, Forall_forall.
    intros m Hm%list_elem_of_In. apply (Hr m Hm). }
  split_and!; [| |apply (Hu (Some 0%nat))|].
  - rewrite (pi_slots _ _ _ _ _ _ _ HI), Hq, (sum_none ps_slot); [done..|]. intros m Hm. by apply Hr.
  - destruct (pi_gate _ _ _ _ _ _ _ HI) as (-> & _). by rewrite rest_gate.
  - unfold globalCurrent. specialize (Hu None). cbn in Hu. unfold global_cell in Hu. cbn in Hu. rewrite Hu. by case_match.
Qed.
End stopped.

(** ** The first shares *)
Lemma path_inv_init k qb qt loops :
  lim = limits_of (fun _ => qb) qt -> 0 <= qb < 2 ^ 62 -> 0 <= qt < 2 ^ 62 -> 0 <= wq -> k = bound ->
  inv (new_path wq qb qt (Z.of_nat loops))
    (PShare (copies Quota.Credit k) (0, 0)%nat 0 total ∅ loops 1 0 0 0 0 (Owner (PIdle 0 true false false))).
Proof.
  intros -> Hqb Hqt Hwq ->. split; cbn -[copies disj_union Nat.mul]; try done.
  - change (path_queued []) with (∅ : gmultiset Quota.tok). rewrite (right_id_L ∅ (⊎)).
    apply (quota_inv_init (fun _ => qb) qt [] 1); [done..|cbv; lia].
  - split_and!; cbn; done || lia.
  - by intros id ?%elem_of_nil.
  - intros id Hin. multiset_solver.
  - split_and!; cbn; done || lia.
  - lia.
  - lia.
Qed.
(** Requests are told apart by their position. *)
Lemma path_acked_once s m : inv s m -> NoDup (sp_acked s).*1.
Proof.
  intros HI. rewrite (pi_acks _ _ _ _ _ _ _ HI).
  pose proof (fun i r => path_handled_id _ _ _ _ _ s m i r HI) as Hid. apply NoDup_fmap_2_strong.
  - intros x y [_ Hx]%list_elem_of_filter [_ Hy]%list_elem_of_filter E.
    apply list_elem_of_lookup in Hx as [i Hi], Hy as [j Hj].
    apply Hid in Hi as Ei. apply Hid in Hj as Ej. congruence.
  - apply list.NoDup_filter, NoDup_alt. intros i j r Hi Hj. apply Hid in Hi, Hj. congruence.
Qed.
End writer.
