(* ===== verification/Service.v ===== *)
(** * Service: what a connection promises its users

    [service] is what a user of a connection may rely on, without its queue, its quota, its
    gate and its goroutines: a log of the items accepted, the part of it the socket has
    taken, and the answers given.  [path_moves] is what one section of any goroutine may do
    to the way out of SendPath.v, and [path_refines] shows that, under the invariant, it is
    one step of the service or none.  PacketSpec.v and WebsocketSpec.v use it for packet
    connections and WebSocket sessions. *)
From stdpp Require Import sorting.
From S2P Require Import Prelude Conc Kinds Errors Gate Quota SendPath SendPathInv SendPathWriter.
Local Open Scope go_scope.
Local Open Scope Z_scope.

(** ** How one section moves the way out *)
Section moves.
Context {X : Type}.
Implicit Types s : sendPath X.

(** What one section does to the histories. *)
Inductive path_event (s s' : sendPath X) : Prop :=
| ev_none :
    sp_admitted s' = sp_admitted s -> sp_written s' = sp_written s -> sp_acked s' = sp_acked s -> path_event s s'
| ev_admit r :
    sp_admitted s' = sp_admitted s ++ [r] -> sp_written s' = sp_written s -> sp_acked s' = sp_acked s -> path_event s s'
| ev_write d :
    sp_admitted s' = sp_admitted s -> sp_written s' = sp_written s ++ [d] -> sp_acked s' = sp_acked s -> path_event s s'
| ev_answer a :
    sp_admitted s' = sp_admitted s -> sp_written s' = sp_written s -> sp_acked s' = sp_acked s ++ [a] -> path_event s s'.

(** What has been closed or cancelled stays so; [fin] tells whether [done] may be closed,
    [can] which contexts may be cancelled. *)
Record path_moves (fin : bool) (can : nat -> bool) s s' : Prop := {
  mv_once : sp_once s = true -> sp_once s' = true;
  mv_closing : path_closing s = true -> path_closing s' = true;
  mv_done : sp_done s = true -> sp_done s' = true;
  mv_fin : fin = false -> sp_done s' = sp_done s;
  mv_ctx : forall k, path_ctx_done k s = true -> path_ctx_done k s' = true;
  mv_can : forall k, can k = false -> path_ctx k s' = path_ctx k s;
  mv_event : path_event s s';
}.

Context (fin : bool) (can : nat -> bool).
Abbreviation moves := (path_moves fin can).
(** A section that leaves the quotas, the contexts, [closing] and [done] alone. *)
Lemma moves_event_only s s' :
  sp_quota s' = sp_quota s -> sp_done s' = sp_done s -> (sp_once s = true -> sp_once s' = true) ->
  path_event s s' -> moves s s'.
Proof.
  intros Eq Ed Ho He. split; unfold path_closing, path_ctx_done, path_ctx; rewrite ?Eq, ?Ed; auto.
Qed.
Lemma moves_quiet s s' :
  sp_quota s' = sp_quota s -> sp_done s' = sp_done s -> (sp_once s = true -> sp_once s' = true) ->
  sp_admitted s' = sp_admitted s -> sp_written s' = sp_written s -> sp_acked s' = sp_acked s -> moves s s'.
Proof. intros Eq Ed Ho E1 E2 E3. apply moves_event_only; [done..|by apply ev_none]. Qed.
Lemma moves_refl s : moves s s.
Proof. by apply moves_quiet. Qed.
Lemma moves_gate {A} (q : prog sendGate A) : respects moves (lift gate_in q).
Proof. apply respects_lift. intros s t. by apply moves_quiet. Qed.
Lemma moves_quota {A} (q : prog quotaState A) : respects quota_step q -> respects moves (lift quota_in q).
Proof.
  apply respects_lift_along. intros s t [Ec Ex]. cbn in Ec, Ex.
  split; unfold path_closing, path_ctx_done, path_ctx; cbn; rewrite ?Ec, ?Ex; auto. by apply ev_none.
Qed.
Lemma moves_acquire fuel k n : respects moves (path_acquire fuel k n).
Proof. apply moves_quota, acquire_step. Qed.
Lemma moves_tryAcquire n : respects moves (path_tryAcquire n).
Proof. apply moves_quota, tryAcquire_step. Qed.
Lemma moves_release n : respects moves (path_release n).
Proof. apply moves_quota, release_step. Qed.
End moves.

(** The cases of a [select] that is built from [ready], the queue and the ack buffer. *)
Ltac move_cases :=
  repeat match goal with
  | H : _ ∈ _ ++ _ |- _ => apply elem_of_app in H as [H|H]
  | H : _ ∈ ready _ _ _ |- _ => apply elem_ready in H as (_ & -> & _)
  | H : _ ∈ or_default _ _ _ |- _ => apply elem_default in H as [H|(_ & -> & _)]
  | H : _ ∈ answer_case _ _ |- _ => unfold answer_case in H
  | H : _ ∈ path_queue_case _ _ _ _ |- _ => unfold path_queue_case in H
  | H : _ ∈ path_dequeue _ _ |- _ => unfold path_dequeue in H
  | H : _ ∈ match ?x with _ => _ end |- _ => destruct x eqn:?
  | H : _ ∈ [] |- _ => by apply elem_of_nil in H
  | H : _ ∈ [_] |- _ => apply list_elem_of_singleton in H; simplify_eq/=
  end.

Section path_programs.
Context {X : Type}.
Context (fin : bool) (can : nat -> bool).
Abbreviation calm := (respects (@path_moves X fin can)).

Ltac quiet :=
  first [ apply respects_select; intros s s' b Hin; move_cases; by apply moves_quiet
        | apply respects_atomically; intros s; by apply moves_quiet
        | apply respects_atomic_panic; intros s s' b E; repeat case_match; simplify_eq; by apply moves_quiet ].

Lemma moves_acquireSlot k : calm (acquireSlot k).
Proof. quiet. Qed.
Lemma moves_slot : calm tryAcquireSlot /\ calm releaseSlot.
Proof. split; quiet. Qed.
Lemma moves_offer k x n : calm (path_offer k x n).
Proof.
  apply respects_select; intros s s' b Hin; move_cases; try by apply moves_quiet.
  apply moves_event_only; [done..|by eapply ev_admit].
Qed.
Lemma moves_tryOffer x n : calm (path_tryOffer x n).
Proof.
  apply respects_select; intros s s' b Hin; move_cases; try by apply moves_quiet.
  apply moves_event_only; [done..|by eapply ev_admit].
Qed.
Lemma moves_await k id : calm (path_await k id).
Proof. apply respects_bind; [quiet|]. intros []; first [apply respects_ret|quiet]. Qed.
Lemma moves_next : calm path_next.
Proof. quiet. Qed.
Lemma moves_answer req r : calm (path_answer req r).
Proof.
  apply respects_select. intros s s' b Hin. cbv zeta in Hin. move_cases; [|by apply moves_quiet].
  apply moves_event_only; [done..|by eapply ev_answer].
Qed.
Lemma moves_close :
  calm path_enter_once /\ calm path_close_socket /\ calm path_once_wait /\
  calm path_loop_done /\ calm path_loops_wait /\ calm path_await_closing.
Proof. split_and!; quiet. Qed.
Lemma moves_close_chan : calm path_close_chan.
Proof.
  apply respects_atomic_panic. intros s s' b E. case_match; simplify_eq. split; cbn; auto.
  by apply ev_none.
Qed.
Lemma moves_close_done : fin = true -> calm path_close_done.
Proof.
  intros ->. apply respects_atomic_panic. intros s s' b E. case_match; simplify_eq. split; cbn; auto; [done|].
  by apply ev_none.
Qed.
Lemma moves_await_done k : calm (path_await_done k).
Proof. quiet. Qed.
Lemma moves_cancel k e : can k = true -> calm (path_cancel k e).
Proof.
  intros Hk. apply respects_atomically. intros s. split; cbn; auto; [| |by apply ev_none].
  - intros j Hj. unfold path_ctx_done, path_ctx. cbn. unfold fupd. by case_decide.
  - intros j Hj. unfold path_ctx. cbn. unfold fupd. case_decide; [congruence|done].
Qed.
End path_programs.

(** ** The service *)
Record service (X : Type) := Service {
  sv_log : list X;                              (* accepted, in order *)
  sv_out : list X;                              (* taken by the socket *)
  sv_answers : list (nat * option error) }.     (* position in the log and result *)
Arguments Service {_} _ _ _.
Arguments sv_log {_} _.
Arguments sv_out {_} _.
Arguments sv_answers {_} _.
Definition service_init {X} : service X := {| sv_log := []; sv_out := []; sv_answers := [] |}.

(** An item is accepted if it is as [fit] says; the socket takes the next one of the log;
    a call is answered after those before it, and with success only when the socket has
    its item. *)
Inductive service_step {X} (fit : X -> Prop) : service X -> service X -> Prop :=
| sv_accept log out ans d :
    fit d -> service_step fit (Service log out ans) (Service (log ++ [d]) out ans)
| sv_transmit log out ans d :
    out `prefix_of` log -> log !! length out = Some d ->
    service_step fit (Service log out ans) (Service log (out ++ [d]) ans)
| sv_answer log out ans id r :
    (id < length log)%nat -> Forall (fun a => a.1 < id)%nat ans -> (r = None -> (id < length out)%nat) ->
    service_step fit (Service log out ans) (Service log out (ans ++ [(id, r)])).
(** What a state of the way out stands for. *)
Definition path_service {X} (s : sendPath X) : service X :=
  {| sv_log := rq_item <$> sp_admitted s; sv_out := sp_written s; sv_answers := sp_acked s |}.

(** Results are given in the order of admission. *)
Lemma acked_in_order {X} strict lim bound total wq (item_ok : X -> Z -> Prop) s m acked id r :
  path_inv (strict:=strict) lim bound total wq item_ok s m -> sp_acked s = acked ++ [(id, r)] ->
  (id < length (sp_admitted s))%nat /\ Forall (fun a => a.1 < id)%nat acked.
Proof.
  intros HI E. split.
  { destruct (path_handled _ _ _ _ _ _ _ HI) as [rest Er]. rewrite Er, length_app. apply Nat.lt_lt_add_r.
    eapply (path_acked_id _ _ _ _ _ _ _ _ HI). rewrite E. apply list_elem_of_fmap. exists (id, r). split; [done|].
    apply elem_of_app. right. left. }
  assert (forall hs k, (forall i q, hs !! i = Some q -> rq_id q = (k + i)%nat) ->
    StronglySorted lt (rq_id <$> filter (fun q : request X => rq_ack q = true) hs) /\
    Forall (le k) (rq_id <$> filter (fun q : request X => rq_ack q = true) hs)) as Hs.
  { induction hs as [|q hs IH]; intros k Hk; [by split; constructor|].
    destruct (IH (S k)) as [Hs Hl]. { intros i q' Hi. rewrite (Hk (S i) q' Hi). lia. }
    pose proof (Hk 0%nat q eq_refl) as Hq. rewrite filter_cons.
    destruct (decide (rq_ack q = true)); cbn.
    - split; constructor; [done| |lia|]; (eapply Forall_impl; [|exact Hl]); cbn; intros; lia.
    - split; [done|]. eapply Forall_impl; [|exact Hl]. cbn. intros; lia. }
  destruct (Hs (sp_handled s) 0%nat) as [Hsorted _].
  { intros i q Hi. by rewrite (path_handled_id _ _ _ _ _ _ _ _ _ HI Hi). }
  rewrite <- (pi_acks _ _ _ _ _ _ _ HI), E, fmap_app in Hsorted. apply Forall_forall. intros a Ha%list_elem_of_In.
  eapply (StronglySorted_app_1_elem_of lt); [exact Hsorted| |left]. by apply list_elem_of_fmap_2.
Qed.

(** A section that starts where it may and ends in the invariant is a step of the service
    or none. *)
Lemma path_refines {X} strict lim bound total wq (item_ok : X -> Z -> Prop) fit fin can s s' m :
  path_inv (strict:=strict) lim bound total wq item_ok s' m -> (forall x n, item_ok x n -> fit x) ->
  path_moves fin can s s' ->
  path_service s' = path_service s \/ service_step fit (path_service s) (path_service s').
Proof.
  intros HP Hfit Hm. unfold path_service. destruct (mv_event _ _ _ _ Hm) as [Ea Ew Ek|r Ea Ew Ek|d Ea Ew Ek|[id r] Ea Ew Ek].
  - left. by rewrite Ea, Ew, Ek.
  - right. rewrite Ew, Ek, Ea, fmap_app. pose proof (pi_items _ _ _ _ _ _ _ HP) as Hit. rewrite Ea in Hit.
    apply Forall_app in Hit as [_ Hok]. apply Forall_cons_1 in Hok as [Hok _]. apply sv_accept, (Hfit _ _ Hok).
  - right. rewrite Ew, Ek, Ea. pose proof (pi_written _ _ _ _ _ _ _ HP) as Hw. rewrite Ew, Ea in Hw.
    apply sv_transmit; [by eapply prefix_app_l|]. destruct Hw as [rest ->].
    by rewrite <- (assoc_L (++)), lookup_app_r, Nat.sub_diag by done.
  - right. rewrite Ew, Ek, Ea. destruct (acked_in_order _ _ _ _ _ _ _ _ _ _ _ HP Ek) as [Hid Hord].
    rewrite Ea in Hid. apply sv_answer; [by rewrite length_fmap|done|]. intros ->.
    rewrite <- Ew. apply (pi_nil _ _ _ _ _ _ _ HP). rewrite Ek. apply elem_of_app. right. left.
Qed.
