(* ===== verification/Poller.v ===== *)
(** * Poller: what the native pollers share

    epoll/epoll_linux.go and kqueue/kqueue_bsd.go wrap a kernel object in the same way: a
    read-write lock keeps the descriptors alive while a system call uses them, an atomic
    flag admits one [Wait] at a time, and [Close] wakes the [Wait] that holds the lock
    before it takes the lock itself.  The wrapper is modelled here over a [Backend], the
    part that differs; Epoll.v and Kqueue.v are the two instances and hold the operations
    with their own names.

    The kernel is given from outside: what a wait finds ready, when it is interrupted or
    fails ([round]), and whether a change of the interest set is refused.  A system call on
    descriptors that are closed is recorded in [po_stale]. *)
From S2P Require Import Prelude Conc.
Local Open Scope go_scope.
Local Open Scope string_scope.
Local Open Scope list_scope.
Local Open Scope Z_scope.

Inductive errno := EINTR | EAGAIN | EBADF | EEXIST | ENOENT | Errno (n : Z).
#[global] Instance errno_eq_dec : EqDecision errno.
Proof. solve_decision. Defined.
(** The sentinels of the two packages, and a wrapped error of a system call. *)
Inductive poll_error := ErrClosed | ErrConcurrentWait | ErrNoEvents | ErrReserved | SysError (what : string) (e : errno).

(** What differs: the kernel's state, the events as the kernel reports them, how they are
    handed out ([None] for the internal wake event), when a wait has no deadline, what
    signalling the wake event does to its counter, and whether delivering it resets it. *)
Class Backend := {
  bk_kernel : Type; bk_raw : Type; bk_event : Type; bk_source : Type;
  bk_report : bk_kernel -> list bk_source -> list bk_raw;
  bk_wake : bk_raw;
  bk_decode : bk_raw -> option bk_event;
  bk_blocks : Z -> Z -> bool;
  bk_signal : Z -> Z;
  bk_clears : bool;
}.
(** What the wrapper relies on. *)
Class BackendOk `{Backend} := {
  bk_good : bk_kernel -> Prop;
  bk_fine : bk_event -> Prop;
  wake_hidden : bk_decode bk_wake = None;
  report_fine : forall k srcs raw, bk_good k -> raw ∈ bk_report k srcs -> exists e, bk_decode raw = Some e /\ bk_fine e;
  signal_pos : forall n, 0 <= n -> 0 < bk_signal n;
}.

Section poller.
Context `{Backend}.

Record poller := Poller {
  po_readers : Z;   (* mu: read locks held *)
  po_writer : bool;   (* mu: a writer waits or holds the lock *)
  po_closed : bool;
  po_waiting : bool;
  po_open : bool;   (* the descriptors are open *)
  po_wake : Z;   (* the counter of the wake event *)
  po_kernel : bk_kernel;
  po_stale : bool;   (* history: a system call on closed descriptors *)
  po_results : list (nat * list bk_event);   (* history: events returned, with the length of dst *)
}.
Definition put_readers (x : Z) (p : poller) : poller :=
  Poller x (po_writer p) (po_closed p) (po_waiting p) (po_open p) (po_wake p) (po_kernel p) (po_stale p) (po_results p).
Definition put_writer (x : bool) (p : poller) : poller :=
  Poller (po_readers p) x (po_closed p) (po_waiting p) (po_open p) (po_wake p) (po_kernel p) (po_stale p) (po_results p).
Definition put_closed (x : bool) (p : poller) : poller :=
  Poller (po_readers p) (po_writer p) x (po_waiting p) (po_open p) (po_wake p) (po_kernel p) (po_stale p) (po_results p).
Definition put_waiting (x : bool) (p : poller) : poller :=
  Poller (po_readers p) (po_writer p) (po_closed p) x (po_open p) (po_wake p) (po_kernel p) (po_stale p) (po_results p).
Definition put_open (x : bool) (p : poller) : poller :=
  Poller (po_readers p) (po_writer p) (po_closed p) (po_waiting p) x (po_wake p) (po_kernel p) (po_stale p) (po_results p).
Definition put_wake (x : Z) (p : poller) : poller :=
  Poller (po_readers p) (po_writer p) (po_closed p) (po_waiting p) (po_open p) x (po_kernel p) (po_stale p) (po_results p).
Definition put_kernel (x : bk_kernel) (p : poller) : poller :=
  Poller (po_readers p) (po_writer p) (po_closed p) (po_waiting p) (po_open p) (po_wake p) x (po_stale p) (po_results p).
Definition put_stale (x : bool) (p : poller) : poller :=
  Poller (po_readers p) (po_writer p) (po_closed p) (po_waiting p) (po_open p) (po_wake p) (po_kernel p) x (po_results p).
Definition put_results (x : list (nat * list bk_event)) (p : poller) : poller :=
  Poller (po_readers p) (po_writer p) (po_closed p) (po_waiting p) (po_open p) (po_wake p) (po_kernel p) (po_stale p) x.
Definition new_poller (k : bk_kernel) : poller := Poller 0 false false false true 0 k false [].

(** ** The lock *)
Definition rlock : prog poller unit :=
  select (fun p => ready (negb (po_writer p)) (put_readers (po_readers p + 1) p) tt).
Definition runlock : prog poller unit := atomically (fun p => (put_readers (po_readers p - 1) p, tt)).
(** A writer announces itself, which keeps new readers out, and waits for those inside. *)
Definition lock : prog poller unit :=
  select (fun p => ready (negb (po_writer p)) (put_writer true p) tt) ≫= fun _ =>
  select (fun p => ready (po_readers p =? 0) p tt).
Definition unlock : prog poller unit := atomically (fun p => (put_writer false p, tt)).
Definition load_closed : prog poller bool := atomically (fun p => (p, po_closed p)).

Definition syscall {B} (bad : B) (f : poller -> poller * B) : prog poller B :=
  atomically (fun p => if po_open p then f p else (put_stale true p, bad)).
(** [RLock], the test of [closed], the body, [RUnlock]. *)
Definition guarded {A} (closed : A) (body : prog poller A) : prog poller A :=
  rlock ≫= fun _ =>
  c ← load_closed;
  if c : bool then runlock ≫= fun _ => mret closed
  else r ← body; runlock ≫= fun _ => mret r.

(** ** Changing what is watched *)
(** A call: whether it names what is reserved, how its error is described, and what the
    kernel does. *)
Record call := Call { ca_reserved : bool; ca_what : string; ca_do : bk_kernel -> bk_kernel * option errno }.
Definition control (c : call) : prog poller (option poll_error) :=
  if ca_reserved c then mret (Some ErrReserved)
  else
    guarded (Some ErrClosed)
      (e ← syscall (Some EBADF) (fun p => let '(k, e) := ca_do c (po_kernel p) in (put_kernel k p, e));
       mret (match e with Some e => Some (SysError (ca_what c) e) | None => None end)).

(** ** Waking *)
(** The write that signals the wake event, interrupted [intr] times. *)
Fixpoint signalWake (intr : nat) : prog poller (option errno) :=
  match intr with
  | O => syscall (Some EBADF) (fun p => (put_wake (bk_signal (po_wake p)) p, None))
  | S intr => syscall (Some EBADF) (fun p => (p, Some EINTR)) ≫= fun e =>
      match e with Some EINTR => signalWake intr | e => mret e end
  end.
Definition Wake (intr : nat) : prog poller (option poll_error) :=
  guarded (Some ErrClosed)
    (e ← signalWake intr; mret (match e with Some e => Some (SysError "wake" e) | None => None end)).
(** The read that resets it, interrupted [intr] times. *)
Fixpoint drainWake (intr : nat) : prog poller unit :=
  match intr with
  | O => syscall tt (fun p => (put_wake 0 p, tt))
  | S intr => syscall tt (fun p => (p, tt)) ≫= fun _ => drainWake intr
  end.

(** ** Waiting *)
(** One call of the kernel, at [rd_elapsed] after the start: what it finds ready before and
    after the wake event, an interruption (and the time then), or a failure. *)
Inductive found := Found (before after : list bk_source) (intr : nat) | Interrupted (elapsed : Z) | Failed (e : errno).
Record round := { rd_elapsed : Z; rd_found : found }.
Inductive kernel_wait := Events (evs : list bk_raw) (intr : nat) | WaitErr (e : errno) (elapsed : Z).

Definition delivered (wake : bool) (p : poller) : poller := if bk_clears && wake then put_wake 0 p else p.
(** With nothing ready a wait without deadline blocks until the wake event is signalled,
    one with a deadline returns nothing. *)
Definition kernel_wait_on (blocks : bool) (n : nat) (r : round) : prog poller kernel_wait :=
  select (fun p =>
    if negb (po_open p) then [(put_stale true p, WaitErr EBADF 0)]
    else
      let woken := 0 <? po_wake p in
      match rd_found r with
      | Interrupted elapsed => [(p, WaitErr EINTR elapsed)]
      | Failed e => [(p, WaitErr e 0)]
      | Found before after intr =>
          let front := take n (bk_report (po_kernel p) before) in
          let room := (length front <? n)%nat in
          let rest := take (n - length front - 1) (bk_report (po_kernel p) after) in
          if woken && room then [(delivered true p, Events (front ++ bk_wake :: rest) intr)]
          else
            match take n (bk_report (po_kernel p) before ++ bk_report (po_kernel p) after) with
            | [] => if blocks then [] else [(p, Events [] 0)]
            | evs => [(p, Events evs intr)]
            end
      end).

(** Filling [dst]: the wake event is drained and skipped; a write past the end panics. *)
Fixpoint collect (n : nat) (evs : list bk_raw) (intr : nat) (out : list bk_event) : prog poller (list bk_event) :=
  match evs with
  | [] => mret out
  | ev :: evs =>
      match bk_decode ev with
      | None => (if bk_clears then mret tt else drainWake intr) ≫= fun _ => collect n evs intr out
      | Some e =>
          atomic_panic (fun p => if (length out <? n)%nat then Some (p, tt) else None) ≫= fun _ =>
          collect n evs intr (out ++ [e])
      end
  end.

Definition wait_result : Type := list bk_event + poll_error.
(** One turn of the loop: the result, or another turn after an interruption. *)
Definition wait_round (n : nat) (timeout : Z) (r : round) (again : prog poller wait_result) : prog poller wait_result :=
  rlock ≫= fun _ =>
  c ← load_closed;
  if c : bool then runlock ≫= fun _ => mret (inr ErrClosed)
  else
    w ← kernel_wait_on (bk_blocks timeout (rd_elapsed r)) n r;
    out ← match w with Events evs intr => collect n evs intr [] | WaitErr _ _ => mret [] end;
    runlock ≫= fun _ =>
    c ← load_closed;
    if c : bool then mret (inr ErrClosed)
    else
      match w with
      | WaitErr EINTR elapsed => if (0 <=? timeout) && (timeout <=? elapsed) then mret (inl []) else again
      | WaitErr e _ => mret (inr (SysError "wait" e))
      | Events _ _ => mret (inl out)
      end.
(** After the rounds given, nothing happens any more. *)
Fixpoint wait_rounds (n : nat) (timeout : Z) (rs : list round) : prog poller wait_result :=
  match rs with
  | [] => wait_round n timeout {| rd_elapsed := timeout; rd_found := Found [] [] 0 |} (mret (inl []))
  | r :: rs => wait_round n timeout r (wait_rounds n timeout rs)
  end.
Definition Wait (n : nat) (timeout : Z) (rs : list round) : prog poller wait_result :=
  if (n =? 0)%nat then mret (inr ErrNoEvents)
  else
    c ← load_closed;
    if c : bool then mret (inr ErrClosed)
    else
      won ← atomically (fun p => if po_waiting p then (p, false) else (put_waiting true p, true));
      if negb won then mret (inr ErrConcurrentWait)
      else
        r ← wait_rounds n timeout rs;
        atomically (fun p => (put_waiting false p, tt)) ≫= fun _ => mret r.

(** ** Closing *)
(** [errs] are the results of closing the descriptors; what is returned is their join. *)
Definition Close (intr : nat) (errs : list errno) : prog poller (list errno) :=
  won ← atomically (fun p => if po_closed p then (p, false) else (put_closed true p, true));
  if negb won then mret []
  else
    signalWake intr ≫= fun _ =>
    lock ≫= fun _ =>
    atomically (fun p => (put_open false p, tt)) ≫= fun _ =>
    unlock ≫= fun _ =>
    mret (filter (fun e => e <> EBADF) errs).

(** ** Goroutines sharing one poller *)
Inductive poll_op :=
  | OControl (c : call)
  | OWake (intr : nat)
  | OWait (n : nat) (timeout : Z) (rs : list round)
  | OClose (intr : nat) (errs : list errno)
  | OWorld (f : bk_kernel -> bk_kernel).   (* the kernel's state changes by itself *)
(** The caller of [Wait] keeps what it got. *)
Definition keep (n : nat) (r : wait_result) : prog poller unit :=
  match r with
  | inl evs => atomically (fun p => (put_results (po_results p ++ [(n, evs)]) p, tt))
  | inr _ => mret tt
  end.
Definition poll_op_prog (o : poll_op) : prog poller unit :=
  match o with
  | OControl c => control c ≫= fun _ => mret tt
  | OWake intr => Wake intr ≫= fun _ => mret tt
  | OWait n timeout rs => Wait n timeout rs ≫= keep n
  | OClose intr errs => Close intr errs ≫= fun _ => mret tt
  | OWorld f => atomically (fun p => (put_kernel (f (po_kernel p)) p, tt))
  end.
Fixpoint poll_client (ops : list poll_op) : prog poller unit :=
  match ops with
  | [] => mret tt
  | o :: ops => poll_op_prog o ≫= fun _ => poll_client ops
  end.
Definition poll_pool (k : bk_kernel) (opss : list (list poll_op)) : pool poller :=
  (new_poller k, poll_client <$> opss).
End poller.
