(* ===== verification/PollerProofs.v ===== *)
(** * PollerProofs: no use after close, and no lost wake-up

    The invariant of the state that the goroutines of Poller.v share, and the
    properties of every reachable state of every pool of them. *)
From S2P Require Import Prelude Conc Poller.
Local Open Scope go_scope.
Local Open Scope Z_scope.

(** ** Shares
    What a goroutine owns of the lock ([h_r] read locks, [h_w] the writer's place, which
    tells whether it has the lock), of the descriptors ([h_a]: a read lock under which it
    has found [closed] unset; [h_c]: it has set [closed] and the descriptors are still
    open, with whether it has signalled the wake event) and of the one [Wait] ([h_t], which
    tells whether it is about to enter the kernel). *)
Record polShare := PolShare { h_r : nat; h_a : nat; h_w : excl bool; h_c : excl bool; h_t : excl bool }.
#[global] Program Instance ghost_polShare : Ghost polShare := {|
  gop := fun a b => PolShare (h_r a ∙ h_r b) (h_a a ∙ h_a b) (h_w a ∙ h_w b)
    (h_c a ∙ h_c b) (h_t a ∙ h_t b);
  gnil := PolShare 0 0 Nobody Nobody Nobody |}.
Next Obligation. intros a b c. cbn [h_r h_a h_w h_c h_t]. f_equal; apply gop_assoc. Qed.
Next Obligation. intros a b. cbv beta. f_equal; apply gop_comm. Qed.
Next Obligation. intros []. cbn [h_r h_a h_w h_c h_t]. f_equal; apply gop_nil. Qed.

Section proofs.
Context `{BackendOk}.

Record pol_inv (p : poller) (m : polShare) : Prop := {
  li_readers : po_readers p = Z.of_nat (h_r m + h_a m);
  li_open : (0 < h_a m)%nat -> po_open p = true;
  li_writer : match h_w m with Nobody => po_writer p = false | Owner _ => po_writer p = true | Conflict => False end;
  li_alone : h_w m = Owner true -> (h_r m + h_a m = 0)%nat;
  li_closed : po_writer p = true -> po_closed p = true;
  li_closer : match h_c m with
              | Nobody => po_closed p = negb (po_open p)
              | Owner _ => po_closed p = true /\ po_open p = true
              | Conflict => False
              end;
  li_wait : match h_t m with Nobody => po_waiting p = false | Owner _ => po_waiting p = true | Conflict => False end;
  li_armed : h_t m = Owner true -> po_closed p = true -> h_c m <> Owner false -> 0 < po_wake p;
  li_wake : 0 <= po_wake p;
  li_fresh : po_stale p = false;
  li_good : bk_good (po_kernel p);
  li_results : Forall (fun r => (length r.2 <= r.1)%nat /\ Forall bk_fine r.2) (po_results p);
}.
(** Who waits, for what: for the writer to leave, for the readers to leave, or, if it calls
    [Wait] ([w]), in the kernel for something to happen. *)
Definition pol_blk (w : bool) (p : poller) (m : polShare) : Prop :=
  h_c m <> Owner false /\
  ((po_writer p = true /\ (h_r m + h_a m = 0)%nat /\ h_w m = Nobody) \/
   (po_readers p <> 0 /\ po_closed p = true /\ (h_r m + h_a m = 0)%nat) \/
   (w = true /\ po_wake p = 0 /\ h_w m = Nobody /\ h_t m = Owner true)).
Definition pol_fin (m : polShare) : Prop := m = gnil.
Context (w : bool).
Abbreviation pwp := (wp pol_inv (pol_blk w)).

(** Shares by role. *)
Definition reader (active : bool) (t : excl bool) : polShare :=
  if active then PolShare 0 1 Nobody Nobody t else PolShare 1 0 Nobody Nobody t.
Definition waiter (t : excl bool) : polShare := PolShare 0 0 Nobody Nobody t.
Definition closer (w c : excl bool) : polShare := PolShare 0 0 w c Nobody.

Ltac inv_split HI := destruct HI as [Irdr Iopen Iwr Ialone Icl Iclr Iwait Iarm Iwake Ifresh Igood Ires]; cbn in *.
(** A section that changes one field at most. *)
Ltac inv_solve :=
  split; cbn in *; try done; try lia; try (intros; lia); auto;
  try match goal with Hal : ?x = Owner true -> _ |- ?x = Owner true -> _ => intros Hx; specialize (Hal Hx); lia end.

Lemma wp_rlock t (Q : unit -> polShare -> Prop) : Q tt (reader false t) -> pwp rlock (waiter t) Q.
Proof.
  intros HQ. apply wp_select. intros p F HI. destruct (po_writer p) eqn:Ew; cbn.
  - split; [|by intros ? ? ?%elem_of_nil]. intros _. split; [done|]. by left.
  - split; [done|]. intros p' [] [= ->]%list_elem_of_singleton. exists (reader false t). split; [|done].
    inv_split HI. destruct (h_w F) eqn:Ef; [|congruence|done]. inv_solve; rewrite ?Ef; done.
Qed.
Lemma wp_runlock a t (Q : unit -> polShare -> Prop) : Q tt (waiter t) -> pwp runlock (reader a t) Q.
Proof.
  intros HQ. apply wp_atomically. intros p F HI. exists (waiter t). split; [|done]. destruct a; inv_split HI; inv_solve.
Qed.
(** The test of [closed] under a read lock: if it is unset, the descriptors stay open. *)
Lemma wp_check t t' (Q : bool -> polShare -> Prop) :
  t' = t \/ t = Owner false /\ t' = Owner true -> Q true (reader false t) -> Q false (reader true t') ->
  pwp load_closed (reader false t) Q.
Proof.
  intros Ht Hc Ho. apply wp_atomically. intros p F HI. cbn. destruct (po_closed p) eqn:Ec; [by exists (reader false t)|].
  exists (reader true t'). split; [|done]. inv_split HI. rewrite Ec in *.
  assert (po_open p = true) as Eo by (destruct (h_c F), (po_open p); naive_solver).
  split; cbn; rewrite ?Ec; try done; try lia; auto.
  - intros Hx. specialize (Ialone Hx). lia.
  - destruct Ht as [->|[-> ->]]; [done|]. by destruct (h_t F).
Qed.
Lemma wp_poll_look t (Q : bool -> polShare -> Prop) : (forall b, Q b (waiter t)) -> pwp load_closed (waiter t) Q.
Proof. intros HQ. apply wp_atomically. intros p F HI. by exists (waiter t). Qed.

(** A system call of a goroutine that keeps the descriptors open. *)
Lemma wp_syscall {B} (bad : B) (f : poller -> poller * B) m m' (Q : B -> polShare -> Prop) :
  (forall p F, pol_inv p (m ∙ F) -> po_open p = true /\ pol_inv (f p).1 (m' ∙ F)) ->
  (forall p, Q (f p).2 m') -> pwp (syscall bad f) m Q.
Proof.
  intros Hf HQ. apply wp_atomically. intros p F HI. destruct (Hf p F HI) as [-> HI']. by exists m'.
Qed.
Lemma reader_open p t F : pol_inv p (reader true t ∙ F) -> po_open p = true.
Proof. intros HI. inv_split HI. auto with lia. Qed.

(** *** Changing what is watched *)
Definition keeps_good (f : bk_kernel -> bk_kernel * option errno) : Prop := forall k, bk_good k -> bk_good (f k).1.
Lemma wp_guarded {A} (closed : A) body (Q : A -> polShare -> Prop) :
  Q closed (waiter Nobody) -> pwp body (reader true Nobody) (fun r m => m = reader true Nobody /\ Q r (waiter Nobody)) ->
  pwp (guarded closed body) (waiter Nobody) Q.
Proof.
  intros Hc Hb. apply wp_bind, wp_rlock, wp_bind, (wp_check _ Nobody); [by left| |].
  - by apply wp_bind, wp_runlock.
  - apply wp_bind. eapply wp_mono; [|exact Hb]. intros r m [-> HQ]. by apply wp_bind, wp_runlock.
Qed.
Lemma wp_control c (Q : option poll_error -> polShare -> Prop) :
  (ca_reserved c = false -> keeps_good (ca_do c)) -> (forall r, Q r (waiter Nobody)) -> pwp (control c) (waiter Nobody) Q.
Proof.
  intros Hf HQ. unfold control. destruct (ca_reserved c); [apply HQ|]. specialize (Hf eq_refl). apply wp_guarded; [apply HQ|].
  apply wp_bind, (wp_syscall _ _ _ (reader true Nobody)); [|by intros p; destruct (ca_do c _)].
  intros p F HI. split; [by eapply reader_open|]. pose proof (Hf (po_kernel p)) as Hk. destruct (ca_do c (po_kernel p)) as [k e].
  inv_split HI. inv_solve.
Qed.

(** *** Waking *)
Lemma signal_inv p m F :
  pol_inv p (m ∙ F) -> pol_inv (put_wake (bk_signal (po_wake p)) p) (m ∙ F).
Proof.
  intros HI. pose proof (signal_pos (po_wake p) (li_wake _ _ HI)). inv_split HI. inv_solve.
Qed.
Lemma wp_signalWake intr m m' (Q : option errno -> polShare -> Prop) :
  (forall p F, pol_inv p (m ∙ F) -> po_open p = true) ->
  (forall p F, pol_inv p (m ∙ F) -> pol_inv (put_wake (bk_signal (po_wake p)) p) (m' ∙ F)) ->
  Q None m' -> pwp (signalWake intr) m Q.
Proof.
  intros Ho Hs HQ. induction intr as [|intr IH]; cbn [signalWake].
  - apply (wp_syscall _ _ _ m'); [|done]. intros p F HI. split; [by eapply Ho|by apply Hs].
  - apply wp_bind, (wp_syscall _ _ _ m); [|done]. intros p F HI. split; [by eapply Ho|done].
Qed.
Lemma wp_Wake intr (Q : option poll_error -> polShare -> Prop) :
  (forall r, Q r (waiter Nobody)) -> pwp (Wake intr) (waiter Nobody) Q.
Proof.
  intros HQ. apply wp_guarded; [apply HQ|]. apply wp_bind, (wp_signalWake _ _ (reader true Nobody)); [| |by split].
  - intros p F. apply reader_open.
  - intros p F. apply signal_inv.
Qed.
(** Only the one [Wait] resets the wake event, when it is back from the kernel. *)
Lemma reset_inv p F : pol_inv p (reader true (Owner false) ∙ F) -> pol_inv (put_wake 0 p) (reader true (Owner false) ∙ F).
Proof. intros HI. inv_split HI. inv_solve. by destruct (h_t F). Qed.
Lemma wp_drainWake intr (Q : unit -> polShare -> Prop) :
  Q tt (reader true (Owner false)) -> pwp (drainWake intr) (reader true (Owner false)) Q.
Proof.
  intros HQ. induction intr as [|intr IH]; cbn [drainWake].
  - apply (wp_syscall _ _ _ (reader true (Owner false))); [|done].
    intros p F HI. split; [by eapply reader_open|by apply reset_inv].
  - apply wp_bind, (wp_syscall _ _ _ (reader true (Owner false))); [|done]. intros p F HI. split; [by eapply reader_open|done].
Qed.

(** *** Waiting *)
(** What the kernel reports can be handed out, or is the wake event. *)
Definition raw_fine (ev : bk_raw) : Prop := match bk_decode ev with Some e => bk_fine e | None => True end.
Lemma report_raw_fine p m srcs : pol_inv p m -> Forall raw_fine (bk_report (po_kernel p) srcs).
Proof.
  intros HI. apply Forall_forall. intros raw Hin%list_elem_of_In.
  destruct (report_fine _ _ _ (li_good _ _ HI) Hin) as (e & E & He). unfold raw_fine. by rewrite E.
Qed.
Lemma unarm_inv p F : pol_inv p (reader true (Owner true) ∙ F) -> pol_inv p (reader true (Owner false) ∙ F).
Proof. intros HI. inv_split HI. inv_solve; by destruct (h_t F). Qed.
Lemma delivered_inv p b F :
  pol_inv p (reader true (Owner false) ∙ F) -> pol_inv (delivered b p) (reader true (Owner false) ∙ F).
Proof. intros HI. unfold delivered. destruct (_ && _); [by apply reset_inv|done]. Qed.

Lemma wp_kernel_wait blocks n r (Q : kernel_wait -> polShare -> Prop) :
  w = true -> (0 < n)%nat ->
  (forall evs intr, (length evs <= n)%nat -> Forall raw_fine evs -> Q (Events evs intr) (reader true (Owner false))) ->
  (forall e x, Q (WaitErr e x) (reader true (Owner false))) ->
  pwp (kernel_wait_on blocks n r) (reader true (Owner true)) Q.
Proof.
  intros Hw Hn Hev Herr. apply wp_select. intros p F HI. pose proof (reader_open _ _ _ HI) as Eo. rewrite Eo. cbn [negb].
  assert (forall srcs, Forall raw_fine (bk_report (po_kernel p) srcs)) as Hfine by (intros; by eapply report_raw_fine).
  destruct (rd_found r) as [before after intr|x|e].
  - set (front := take n (bk_report (po_kernel p) before)). destruct ((0 <? po_wake p) && (length front <? n)%nat) eqn:Ew.
    { split; [done|]. intros p' ev0 [= -> ->]%list_elem_of_singleton. exists (reader true (Owner false)).
      apply andb_prop in Ew as [_ Hr%Nat.ltb_lt]. split; [by apply delivered_inv, unarm_inv|]. apply Hev.
      - rewrite length_app. cbn. rewrite length_take. lia.
      - apply Forall_app. split; [by apply Forall_take|]. constructor; [|by apply Forall_take]. unfold raw_fine. by rewrite wake_hidden. }
    destruct (take n (_ ++ _)) as [|ev evs] eqn:Et.
    + assert (front = []) as Ef.
      { unfold front. rewrite take_app in Et. by apply app_eq_nil in Et as [-> _]. }
      rewrite Ef in Ew. cbn [length] in Ew. replace (0 <? n)%nat with true in Ew by (symmetry; by apply Nat.ltb_lt).
      rewrite andb_true_r in Ew. apply Z.ltb_ge in Ew. pose proof (li_wake _ _ HI). destruct blocks; (split; [try done|]).
      * intros _. split; [done|]. right. right. split_and!; [done|lia|done|done].
      * by intros ? ? ?%elem_of_nil.
      * intros p' ev0 [= -> ->]%list_elem_of_singleton. exists (reader true (Owner false)). split; [by apply unarm_inv|].
        apply Hev; [cbn; lia|done].
    + split; [done|]. intros p' ev0 [= -> ->]%list_elem_of_singleton. exists (reader true (Owner false)). split; [by apply unarm_inv|].
      apply Hev; rewrite <- Et; [rewrite length_take; lia|]. apply Forall_take, Forall_app. by split.
  - split; [done|]. intros p' ev0 [= -> ->]%list_elem_of_singleton. exists (reader true (Owner false)). split; [by apply unarm_inv|done].
  - split; [done|]. intros p' ev0 [= -> ->]%list_elem_of_singleton. exists (reader true (Owner false)). split; [by apply unarm_inv|done].
Qed.
Lemma wp_collect n evs intr out (Q : list bk_event -> polShare -> Prop) :
  (length out + length evs <= n)%nat -> Forall raw_fine evs -> Forall bk_fine out ->
  (forall out, (length out <= n)%nat -> Forall bk_fine out -> Q out (reader true (Owner false))) ->
  pwp (collect n evs intr out) (reader true (Owner false)) Q.
Proof.
  intros Hn Hevs Hout HQ. revert out Hn Hout. induction Hevs as [|ev evs Hev _ IH]; intros out Hn Hout; cbn [collect length] in *.
  - apply HQ; [lia|done].
  - unfold raw_fine in Hev. destruct (bk_decode ev) as [e|].
    + apply wp_bind, wp_atomic_panic. intros p F HI. exists p, tt, (reader true (Owner false)).
      replace (length out <? n)%nat with true by (symmetry; apply Nat.ltb_lt; lia). split_and!; [done..|].
      apply IH; [rewrite length_app; cbn; lia|]. apply Forall_app. by split; [|constructor].
    + apply wp_bind. destruct bk_clears; [by apply IH; [lia|]|]. apply wp_drainWake, IH; [lia|done].
Qed.

(** A result that respects the length of [dst] and holds fine events. *)
Definition result_fine (n : nat) (r : wait_result) : Prop :=
  match r with inl evs => (length evs <= n)%nat /\ Forall bk_fine evs | inr _ => True end.
Abbreviation waited n Q := (forall r, result_fine n r -> Q r (waiter (Owner false))).
Lemma wp_wait_round n timeout r again (Q : wait_result -> polShare -> Prop) :
  w = true -> (0 < n)%nat -> waited n Q -> pwp again (waiter (Owner false)) Q ->
  pwp (wait_round n timeout r again) (waiter (Owner false)) Q.
Proof.
  intros Hw Hn HQ Hagain. apply wp_bind, wp_rlock, wp_bind, (wp_check _ (Owner true)); [by right| |].
  { apply wp_bind, wp_runlock. by apply HQ. }
  apply wp_bind, wp_kernel_wait; [done|done| |].
  - intros evs intr Hlen Hfine. apply wp_bind, wp_collect; [done..|]. intros out Ho Hf. apply wp_bind, wp_runlock, wp_bind, wp_poll_look.
    intros []; by apply HQ.
  - intros e x. apply wp_bind, wp_ret, wp_bind, wp_runlock, wp_bind, wp_poll_look. intros []; [by apply HQ|].
    destruct e; try by apply HQ. destruct (_ && _); [|done]. apply HQ. split; [cbn; lia|done].
Qed.
Lemma wp_wait_rounds n timeout rs (Q : wait_result -> polShare -> Prop) :
  w = true -> (0 < n)%nat -> waited n Q -> pwp (wait_rounds n timeout rs) (waiter (Owner false)) Q.
Proof.
  intros Hw Hn HQ. induction rs as [|r rs IH]; apply wp_wait_round; try done. apply HQ. split; [cbn; lia|done].
Qed.
Lemma wp_Wait n timeout rs (Q : wait_result -> polShare -> Prop) :
  w = true -> (forall r, result_fine n r -> Q r (waiter Nobody)) -> pwp (Wait n timeout rs) (waiter Nobody) Q.
Proof.
  intros Hw HQ. unfold Wait. destruct (n =? 0)%nat eqn:En; [by apply HQ|]. apply Nat.eqb_neq in En.
  apply wp_bind, wp_poll_look. intros []; [by apply HQ|]. apply wp_bind, wp_atomically. intros p F HI.
  destruct (po_waiting p) eqn:Ew; [exists (waiter Nobody); split; [done|by apply HQ]|].
  exists (waiter (Owner false)). split.
  { inv_split HI. destruct (h_t F) eqn:Et; [|congruence|done]. inv_solve; by rewrite Et. }
  apply wp_bind, wp_wait_rounds; [done|lia|]. intros r Hr. apply wp_bind, wp_atomically. intros p2 F2 HI2.
  exists (waiter Nobody). split; [|by apply HQ]. inv_split HI2. destruct (h_t F2) eqn:Et; [|done..]. inv_solve; by rewrite Et.
Qed.

(** *** Closing *)
Lemma wp_poll_lock (Q : unit -> polShare -> Prop) : Q tt (closer (Owner true) (Owner true)) -> pwp lock (closer Nobody (Owner true)) Q.
Proof.
  intros HQ. apply wp_bind, wp_select. intros p F HI. destruct (po_writer p) eqn:Ew; cbn [ready negb].
  { split; [|by intros ? ? ?%elem_of_nil]. intros _. split; [done|]. by left. }
  split; [done|]. intros p' [] [= ->]%list_elem_of_singleton. exists (closer (Owner false) (Owner true)). split.
  { inv_split HI. destruct (h_w F) eqn:Ef; [|congruence|done]. inv_solve; rewrite ?Ef; try done.
    intros _. destruct (h_c F); [apply Iclr|done..]. }
  apply wp_select. clear p F HI Ew. intros p F HI. destruct (po_readers p =? 0) eqn:Er; cbn [ready].
  - split; [done|]. intros p' [] [= ->]%list_elem_of_singleton. exists (closer (Owner true) (Owner true)). split; [|done].
    apply Z.eqb_eq in Er. inv_split HI. destruct (h_w F) eqn:Ef; [|done..]. inv_solve; rewrite ?Ef; try done; lia.
  - split; [|by intros ? ? ?%elem_of_nil]. intros _. apply Z.eqb_neq in Er. split; [done|]. right. left.
    inv_split HI. split_and!; [done| |done]. destruct (h_w F); [by apply Icl|done..].
Qed.
Lemma wp_poll_Close intr errs (Q : list errno -> polShare -> Prop) :
  (forall r, Q r (waiter Nobody)) -> pwp (Close intr errs) (waiter Nobody) Q.
Proof.
  intros HQ. apply wp_bind, wp_atomically. intros p F HI.
  destruct (po_closed p) eqn:Ec; [exists (waiter Nobody); split; [done|apply HQ]|].
  exists (closer Nobody (Owner false)). split.
  { inv_split HI. rewrite Ec in Iclr. destruct (h_c F) eqn:Ef; [|naive_solver..]. inv_solve; rewrite ?Ef; try done.
    by destruct (po_open p). }
  apply wp_bind, (wp_signalWake _ _ (closer Nobody (Owner true))).
  - clear. intros p F HI. inv_split HI. destruct (h_c F); [apply Iclr|done..].
  - clear. intros p F HI. pose proof (signal_pos (po_wake p) (li_wake _ _ HI)). inv_split HI.
    destruct (h_c F) eqn:Ef; [|done..]. inv_solve; by rewrite Ef.
  - apply wp_bind, wp_poll_lock, wp_bind, wp_atomically. clear - HQ. intros p F HI. exists (closer (Owner true) Nobody). split.
    { inv_split HI. destruct (h_w F) eqn:Ef, (h_c F) eqn:Eg; try done. destruct Iclr as [Ec _].
      assert (h_r F + h_a F = 0)%nat by auto. inv_solve; rewrite ?Ef, ?Eg; try done; lia. }
    apply wp_bind, wp_atomically. clear - HQ. intros p F HI. exists (waiter Nobody). split; [|apply HQ]. inv_split HI.
    destruct (h_w F) eqn:Ef; [|done..]. inv_solve; by rewrite Ef.
Qed.

(** *** Pools *)
(** The kernel's state stays good whatever the caller asks of it. *)
Definition op_good (o : poll_op) : Prop :=
  match o with
  | OControl c => ca_reserved c = false -> keeps_good (ca_do c)
  | OWorld f => forall k, bk_good k -> bk_good (f k)
  | _ => True
  end.
Definition waits (o : poll_op) : bool := match o with OWait _ _ _ => true | _ => false end.
Lemma wp_poll_op o (Q : unit -> polShare -> Prop) :
  op_good o -> (waits o = true -> w = true) -> Q tt (waiter Nobody) -> pwp (poll_op_prog o) (waiter Nobody) Q.
Proof.
  intros Hgood Hw HQ. destruct o as [c|intr|n timeout rs|intr errs|f]; unfold poll_op_prog.
  - by apply wp_bind, wp_control.
  - by apply wp_bind, wp_Wake.
  - apply wp_bind, wp_Wait; [by apply Hw|]. intros [evs|] Hr; [|done]. apply wp_atomically. intros p F HI. exists (waiter Nobody).
    split; [|done]. inv_split HI. inv_solve. apply Forall_app. by split; [|constructor].
  - by apply wp_bind, wp_poll_Close.
  - apply wp_atomically. intros p F HI. exists (waiter Nobody). split; [|done]. inv_split HI. inv_solve.
Qed.
Lemma wp_poll_client ops :
  Forall op_good ops -> (existsb waits ops = true -> w = true) -> pwp (poll_client ops) gnil (fun _ => pol_fin).
Proof.
  induction 1 as [|o ops Ho _ IH]; intros Hw; [done|]. cbn [poll_client existsb] in *. apply wp_bind, wp_poll_op; [done| |].
  - intros E. apply Hw. by rewrite E.
  - apply IH. intros E. apply Hw. rewrite E. apply orb_true_r.
Qed.
End proofs.

Section pools.
Context `{BackendOk}.

(** *** [closed] stays set *)
Definition closed_grows (p p' : poller) : Prop := po_closed p = true -> po_closed p' = true.
Ltac grows :=
  repeat first
    [ apply respects_ret
    | apply respects_atomically; intros ? Hc; repeat case_match; simplify_eq/=; first [done|congruence]
    | apply respects_atomic_panic; intros ? ? ? Hin Hc; repeat case_match; simplify_eq/=; first [done|congruence]
    | apply respects_select; intros ? ? ? Hin Hc; cbv zeta in Hin; unfold ready, delivered in Hin;
      repeat case_match; first [by apply elem_of_nil in Hin|apply list_elem_of_singleton in Hin; simplify_eq/=; first [done|congruence]]
    | apply respects_bind; [|intros ?]
    | match goal with |- respects _ (match ?x with _ => _ end) => destruct x end ].
Lemma signal_grows intr : respects closed_grows (signalWake intr).
Proof. induction intr as [|intr IH]; cbn [signalWake]; unfold syscall; [grows|]. apply respects_bind; [grows|]. intros [[]|]; done. Qed.
Lemma drain_grows intr : respects closed_grows (drainWake intr).
Proof. induction intr as [|intr IH]; cbn [drainWake]; unfold syscall; [grows|]. apply respects_bind; [grows|done]. Qed.
Lemma collect_grows n evs intr out : respects closed_grows (collect n evs intr out).
Proof.
  revert out. induction evs as [|ev evs IH]; intros out; cbn [collect]; [grows|]. destruct (bk_decode ev).
  - apply respects_bind; [grows|intros _; apply IH].
  - apply respects_bind; [|intros _; apply IH]. destruct bk_clears; [grows|apply drain_grows].
Qed.
Lemma wait_grows n timeout rs : respects closed_grows (wait_rounds n timeout rs).
Proof.
  assert (forall r again, respects closed_grows again -> respects closed_grows (wait_round n timeout r again)) as Hr.
  { intros r again Ha. unfold wait_round, rlock, load_closed, runlock. apply respects_bind; [grows|intros _].
    apply respects_bind; [grows|intros []]; [grows|]. apply respects_bind; [unfold kernel_wait_on; grows|]. intros w.
    apply respects_bind; [destruct w; [apply collect_grows|grows]|]. intros out. apply respects_bind; [grows|intros _].
    apply respects_bind; [grows|intros []]; [grows|]. destruct w as [|[] ?]; try apply respects_ret.
    destruct (_ && _); [apply respects_ret|done]. }
  induction rs as [|r rs IH]; apply Hr; [apply respects_ret|done].
Qed.
Lemma client_grows ops : respects closed_grows (poll_client ops).
Proof.
  induction ops as [|o ops IH]; [apply respects_ret|]. apply respects_bind; [|done].
  destruct o as [c|intr|n timeout rs|intr errs|f]; unfold poll_op_prog; try (apply respects_bind; [|intros ?]).
  - unfold control, guarded, rlock, load_closed, runlock, syscall. destruct (ca_reserved c); grows.
  - apply respects_ret.
  - unfold Wake, guarded, rlock, load_closed, runlock. repeat first [apply signal_grows|progress grows].
  - apply respects_ret.
  - unfold Wait, load_closed. destruct (n =? 0)%nat; [apply respects_ret|]. repeat first [apply wait_grows|progress grows].
  - unfold keep. grows.
  - unfold Close, lock, unlock. repeat first [apply signal_grows|progress grows].
  - apply respects_ret.
  - grows.
Qed.

Section reachable.
Context (k : bk_kernel) (opss : list (list poll_op)).
Hypothesis k_good : bk_good k.
Hypothesis ops_good : Forall (Forall op_good) opss.

(** Whether the goroutine at a position calls [Wait]. *)
Definition waits_at (i : nat) : bool := match opss !! i with Some ops => existsb waits ops | None => false end.
Lemma poll_ok c : rtc pstep (poll_pool k opss) c -> pool_ok_at pol_inv (fun i => pol_blk (waits_at i)) pol_fin c.
Proof.
  intros Hr. eapply (wp_adequate_at _ _ _ _ _ (replicate (length opss) gnil)); [| |exact Hr].
  - rewrite gsum_nil by by apply Forall_replicate. split; cbn; try done; lia.
  - unfold poll_pool. cbn [snd]. split; [by rewrite length_fmap, length_replicate|]. intros i t m Ht Hm.
    apply list_lookup_fmap_Some in Ht as (ops & -> & Hi). apply lookup_replicate in Hm as [-> _].
    apply wp_poll_client; [by eapply Forall_lookup_1|]. unfold waits_at. by rewrite Hi.
Qed.
(** Whatever the interleaving, no system call uses a closed descriptor, [Wait] does not
    write past its slice, and what it returns are fine events only. *)
Lemma poll_safe c :
  rtc pstep (poll_pool k opss) c ->
  ~ panics c /\ po_stale c.1 = false /\
  Forall (fun r => (length r.2 <= r.1)%nat /\ Forall bk_fine r.2) (po_results c.1).
Proof.
  intros Hok%poll_ok. split; [exact (pool_ok_no_panic _ _ _ _ (pool_ok_at_any _ _ _ _ Hok))|]. destruct Hok as (ms & _ & HI).
  split; [apply (li_fresh _ _ HI)|apply (li_results _ _ HI)].
Qed.
Section stopped.
Context (p : poller) (ms : list polShare).
Hypothesis HI : pol_inv p (gsum ms).
Hypothesis Hms : forall m, m ∈ ms -> pol_fin m \/ exists w, pol_blk w p m.

Lemma all_signalled : h_c (gsum ms) <> Owner false.
Proof.
  intros E. destruct (sum_excl h_c ms false) as (m & Hm & Em); [done..|].
  destruct (Hms m Hm) as [->|(w & ? & _)]; done.
Qed.
Lemma in_kernel m : m ∈ ms -> h_t m = Owner true -> h_t (gsum ms) = Owner true.
Proof.
  intros Hm Et. destruct (gsum_elem _ _ Hm) as [F EF]. pose proof (li_wait _ _ HI) as Hw. rewrite EF in *. cbn in *.
  rewrite Et in *. by destruct (h_t F).
Qed.
(** The wake-up of a [Close] is not lost. *)
Lemma kernel_open m : m ∈ ms -> h_t m = Owner true -> po_wake p = 0 -> po_closed p = false.
Proof.
  intros Hm Et Ew. destruct (po_closed p) eqn:Ec; [|done].
  pose proof (li_armed _ _ HI (in_kernel m Hm Et) Ec all_signalled). lia.
Qed.
Lemma no_readers : po_closed p = true -> po_readers p = 0.
Proof.
  intros Hc. destruct (decide (po_readers p = 0)) as [|Hne]; [done|]. rewrite (li_readers _ _ HI) in Hne.
  assert (forall a b : polShare, h_r (a ∙ b) + h_a (a ∙ b) = h_r a + h_a a + (h_r b + h_a b))%nat as Hop.
  { intros a b. change (h_r a + h_r b + (h_a a + h_a b) = h_r a + h_a a + (h_r b + h_a b))%nat. lia. }
  destruct (sum_owner (fun m => h_r m + h_a m)%nat Hop eq_refl ms) as (m & Hm & Hp); [lia|].
  destruct (Hms m Hm) as [->|(w & _ & [(_ & ? & _)|[(_ & _ & ?)|(_ & Ew & _ & Et)]])]; try (cbn in Hp; lia).
  by rewrite (kernel_open m Hm Et Ew) in Hc.
Qed.
Lemma no_writer : po_writer p = false.
Proof.
  destruct (po_writer p) eqn:Ew; [|done]. pose proof (li_writer _ _ HI) as Hw. rewrite Ew in Hw.
  destruct (h_w (gsum ms)) as [|b|] eqn:E; [done| |done]. destruct (sum_excl h_w ms b) as (m & Hm & Em); [done..|].
  destruct (Hms m Hm) as [->|(w & _ & [(_ & _ & ?)|[(Hne & Hc & _)|(_ & _ & ? & _)]])]; try congruence; try done.
  by rewrite no_readers in Hne.
Qed.
(** What is left waits in the kernel of an open poller. *)
Lemma rest_blocked w m : m ∈ ms -> pol_blk w p m -> po_closed p = false /\ po_wake p = 0 /\ h_t m = Owner true /\ w = true.
Proof.
  intros Hm [_ [(? & _)|[(Hne & Hc & _)|(Hw & Ew & _ & Et)]]].
  - by rewrite no_writer in *.
  - by rewrite no_readers in Hne.
  - split_and!; [by eapply kernel_open|done..].
Qed.
End stopped.

(** When nothing can move, everybody has returned but for one [Wait] on an open poller. *)
Lemma poll_rest c :
  rtc pstep (poll_pool k opss) c -> ~ can_step c ->
  if po_closed c.1 then finished c
  else exists j, forall i t, c.2 !! i = Some t ->
    t = Ret tt \/ (i = j /\ waits_at i = true /\ po_waiting c.1 = true /\ po_wake c.1 = 0).
Proof.
  intros Hok%poll_ok Hst. destruct (pool_ok_at_blocked _ _ _ _ Hok Hst) as (ms & HI & Hlen & Hall). destruct c as [p ts].
  cbn [fst snd] in *. assert (forall i m, ms !! i = Some m -> exists t, ts !! i = Some t) as Hts.
  { intros i m Hi. apply lookup_lt_is_Some_2. rewrite Hlen. by eapply lookup_lt_Some. }
  assert (forall m, m ∈ ms -> pol_fin m \/ exists w, pol_blk w p m) as Hms.
  { intros m [i Hi]%list_elem_of_lookup. destruct (Hts i m Hi) as [t Ht]. destruct (Hall i t m Ht Hi) as [[_ ?]|?]; eauto. }
  assert (forall i t, ts !! i = Some t -> t = Ret tt \/ exists m, ms !! i = Some m /\ pol_blk (waits_at i) p m) as Hone.
  { intros i t Ht. destruct (lookup_lt_is_Some_2 ms i) as [m Hm]; [rewrite <- Hlen; by eapply lookup_lt_Some|].
    destruct (Hall i t m Ht Hm) as [[? _]|?]; eauto. }
  destruct (po_closed p) eqn:Ec.
  { apply Forall_lookup_2. intros i t Ht. destruct (Hone i t Ht) as [?|(m & Hm & Hb)]; [done|].
    destruct (rest_blocked _ _ HI Hms _ m (list_elem_of_lookup_2 _ _ _ Hm) Hb) as [? _]. congruence. }
  assert (h_t (gsum ms) = Owner true \/ h_t (gsum ms) <> Owner true) as [Et|Hne] by (destruct (h_t (gsum ms)) as [|[]|]; auto).
  - destruct (sum_excl h_t ms true) as (m & [j Hj]%list_elem_of_lookup & Em); [done..|]. exists j. intros i t Ht.
    destruct (Hone i t Ht) as [?|(m' & Hm' & Hb)]; [by left|]. right. pose proof (li_wait _ _ HI) as Hw. rewrite Et in Hw.
    destruct (rest_blocked _ _ HI Hms _ m' (list_elem_of_lookup_2 _ _ _ Hm') Hb) as (_ & Ew & Em' & Hat).
    split_and!; [|done..]. eapply (excl_unique h_t); [done| |exact Hm'|exact Hj|done..]. by rewrite Et.
  - exists 0%nat. intros i t Ht. destruct (Hone i t Ht) as [?|(m & Hm & Hb)]; [by left|]. destruct Hne.
    destruct (rest_blocked _ _ HI Hms _ m (list_elem_of_lookup_2 _ _ _ Hm) Hb) as (_ & _ & Em & _).
    by eapply (in_kernel p ms HI m (list_elem_of_lookup_2 _ _ _ Hm)).
Qed.

(** [Close] always completes: when a goroutine that does not itself call [Wait] calls it,
    every schedule ends with everybody returned, whatever waits in the kernel. *)
Definition closes (o : poll_op) : bool := match o with OClose _ _ => true | _ => false end.
Lemma at_once_Close intr errs : at_once (fun p => po_closed p = true) (Close intr errs).
Proof. apply at_once_then. intros p. cbn. destruct (po_closed p) eqn:E; eexists _, _; by split. Qed.
Lemma ensures_closes ops : existsb closes ops = true -> ensures (fun p => po_closed p = true) (poll_client ops).
Proof.
  induction ops as [|o ops IH]; [done|]. intros [Ho|Ho]%orb_prop; [|by apply ensures_later; auto].
  apply ensures_then. destruct o; try discriminate Ho. apply ensures_then, at_once_ensures, at_once_Close.
Qed.
Lemma poll_closes :
  existsb (fun ops => existsb closes ops && negb (existsb waits ops)) opss = true ->
  inevitable (fun c => finished c /\ po_closed c.1 = true) (poll_pool k opss).
Proof.
  intros (ops & [i Hi]%list_elem_of_In%list_elem_of_lookup & [Hc Hw]%andb_prop)%existsb_exists.
  apply inevitable_end. intros c Hr Hst. pose proof (poll_rest c Hr Hst) as Hend.
  destruct (po_closed c.1) eqn:Ec; [done|]. destruct Hend as [j Hj].
  destruct (ensures_pool (fun p => po_closed p = true) (poll_pool k opss) c i (poll_client ops)) as [?|(q & Hq & He)]; [|done| | |congruence|].
  - apply Forall_fmap, Forall_true. intros os. apply client_grows.
  - unfold poll_pool. cbn. by rewrite list_lookup_fmap, Hi.
  - by apply ensures_closes.
  - destruct (Hj i q Hq) as [->|(_ & Hat & _)]; [done|]. unfold waits_at in Hat. rewrite Hi in Hat. by rewrite Hat in Hw.
Qed.
End reachable.
End pools.
