(* ===== verification/Epoll.v ===== *)
(** * Epoll: the Linux poller (epoll/epoll_linux.go)

    The operations of the package on the wrapper of Poller.v.  The kernel's part is the
    interest set with the documented results of [epoll_ctl]; [refused] stands for any other
    failure the kernel reports. *)
From S2P Require Import Prelude Conc Poller PollerProofs.
Local Open Scope go_scope.
Local Open Scope string_scope.
Local Open Scope list_scope.
Local Open Scope Z_scope.

Definition wakeData : Z := 2 ^ 64 - 1.
(** [Event], and the kernel's [EpollEvent], whose data are two 32-bit halves. *)
Record Event := { ev_Events : Z; ev_Data : Z }.
Record EpollEvent := { ee_Events : Z; ee_Fd : Z; ee_Pad : Z }.

(** Conversions between [int32] and [uint32]. *)
Definition wrap_i32 (z : Z) : Z := (z + 2 ^ 31) `mod` 2 ^ 32 - 2 ^ 31.
Definition putData (events data : Z) : EpollEvent :=
  {| ee_Events := events; ee_Fd := wrap_i32 (wrap_u 32 data); ee_Pad := wrap_i32 (wrap_u 32 (Z.shiftr data 32)) |}.
Definition eventData (ev : EpollEvent) : Z :=
  Z.lor (wrap_u 32 (ee_Fd ev)) (Z.shiftl (wrap_u 32 (ee_Pad ev)) 32).

Definition MaxInt32 : Z := 2 ^ 31 - 1.
Definition Millisecond : Z := 1000000.
Definition timeoutMillis (timeout elapsed : Z) : Z :=
  if timeout <? 0 then -1
  else
    let remaining := timeout - elapsed in
    if remaining <=? 0 then 0
    else
      let ms := remaining `quot` Millisecond in
      let ms := if negb (remaining `rem` Millisecond =? 0) then ms + 1 else ms in
      if ms >? MaxInt32 then MaxInt32 else ms.

(** ** The kernel *)
Record interest := { in_wakeFD : Z; in_set : gmap Z EpollEvent }.
Inductive ctl_op := CtlAdd | CtlMod | CtlDel.
Definition epoll_ctl (refused : option errno) (op : ctl_op) (fd : Z) (ev : EpollEvent) (k : interest)
    : interest * option errno :=
  match refused with
  | Some e => (k, Some e)
  | None =>
      match op, in_set k !! fd with
      | CtlAdd, Some _ => (k, Some EEXIST)
      | CtlAdd, None | CtlMod, Some _ => ({| in_wakeFD := in_wakeFD k; in_set := <[fd := ev]> (in_set k) |}, None)
      | CtlDel, Some _ => ({| in_wakeFD := in_wakeFD k; in_set := delete fd (in_set k) |}, None)
      | _, None => (k, Some ENOENT)
      end
  end.
(** A wait reports the descriptors found ready, with their masks and the data registered. *)
Definition report_one (k : interest) (src : Z * Z) : option EpollEvent :=
  if src.1 =? in_wakeFD k then None
  else
    match in_set k !! src.1 with
    | Some ev => Some {| ee_Events := src.2; ee_Fd := ee_Fd ev; ee_Pad := ee_Pad ev |}
    | None => None
    end.
(** The eventfd counter saturates one below the largest value. *)
Definition eventfd_add (n : Z) : Z := if n + 1 >? 2 ^ 64 - 2 then n else n + 1.
Definition decode_event (ev : EpollEvent) : option Event :=
  let data := eventData ev in
  if data =? wakeData then None else Some {| ev_Events := ee_Events ev; ev_Data := data |}.
Definition Readable : Z := 1.
#[global] Instance epoll_backend : Backend := {
  bk_kernel := interest; bk_raw := EpollEvent; bk_event := Event; bk_source := Z * Z;
  bk_report k srcs := omap (report_one k) srcs;
  bk_wake := putData Readable wakeData;
  bk_decode := decode_event;
  bk_blocks timeout elapsed := timeoutMillis timeout elapsed =? -1;
  bk_signal := eventfd_add;
  bk_clears := false;
}.

(** ** The operations *)
(** The results of [epoll_create1], [eventfd] and the registration of the wake descriptor;
    the second component lists the descriptors closed again. *)
Definition Open (create eventfd : Z + errno) (registered : option errno) : (poller + poll_error) * list Z :=
  match create with
  | inr e => (inr (SysError "create" e), [])
  | inl fd =>
      match eventfd with
      | inr e => (inr (SysError "create wake eventfd" e), [fd])
      | inl wakeFD =>
          let k := {| in_wakeFD := wakeFD; in_set := ∅ |} in
          match epoll_ctl registered CtlAdd wakeFD (putData Readable wakeData) k with
          | (_, Some e) => (inr (SysError "register wake eventfd" e), [wakeFD; fd])
          | (k, None) => (inl (new_poller k), [])
          end
      end
  end.
(** [ctl] refuses the reserved value, and otherwise makes the system call under the lock. *)
Definition ctl_call (op : ctl_op) (fd events data : Z) (refused : option errno) : call :=
  Call (data =? wakeData) "control" (epoll_ctl refused op fd (putData events data)).
Definition ctl (op : ctl_op) (fd events data : Z) (refused : option errno) : prog poller (option poll_error) :=
  control (ctl_call op fd events data refused).
Definition Add (fd events data : Z) := ctl CtlAdd fd events data.
Definition Mod (fd events data : Z) := ctl CtlMod fd events data.
Definition del_call (fd : Z) (refused : option errno) : call := Call false "delete" (epoll_ctl refused CtlDel fd (putData 0 0)).
Definition Del (fd : Z) (refused : option errno) : prog poller (option poll_error) := control (del_call fd refused).

(** A caller's operations; [EGone]: the owner of a descriptor closes it, and the kernel
    forgets it. *)
Inductive epoll_op :=
  | EAdd (fd events data : Z) (refused : option errno) | EMod (fd events data : Z) (refused : option errno)
  | EDel (fd : Z) (refused : option errno) | EWake (intr : nat) | EWait (n : nat) (timeout : Z) (rs : list round)
  | EClose (intr : nat) (epollErr wakeErr : option errno) | EGone (fd : Z).
Definition forget (fd : Z) (k : interest) : interest :=
  {| in_wakeFD := in_wakeFD k; in_set := delete fd (in_set k) |}.
Definition to_op (o : epoll_op) : poll_op :=
  match o with
  | EAdd fd events data refused => OControl (ctl_call CtlAdd fd events data refused)
  | EMod fd events data refused => OControl (ctl_call CtlMod fd events data refused)
  | EDel fd refused => OControl (del_call fd refused)
  | EWake intr => OWake intr
  | EWait n timeout rs => OWait n timeout rs
  | EClose intr e1 e2 => OClose intr (omap id [e1; e2])
  | EGone fd => OWorld (forget fd)
  end.
Definition epoll_pool (wakeFD : Z) (opss : list (list epoll_op)) : pool poller :=
  @poll_pool epoll_backend {| in_wakeFD := wakeFD; in_set := {[wakeFD := putData Readable wakeData]} |} (map (map to_op) opss).
(** The pool runs the operations above. *)
Lemma to_op_runs :
  (forall fd events data refused, poll_op_prog (to_op (EAdd fd events data refused)) = (Add fd events data refused ≫= fun _ => mret tt)) /\
  (forall fd events data refused, poll_op_prog (to_op (EMod fd events data refused)) = (Mod fd events data refused ≫= fun _ => mret tt)) /\
  (forall fd refused, poll_op_prog (to_op (EDel fd refused)) = (Del fd refused ≫= fun _ => mret tt)).
Proof. done. Qed.

(** ** Data and timeouts *)
Lemma wrap_u_wrap_i32 z : wrap_u 32 (wrap_i32 z) = wrap_u 32 z.
Proof.
  unfold wrap_u, wrap_i32. rewrite <- (Z.mod_add (_ - 2 ^ 31) 1) by lia.
  replace ((z + 2 ^ 31) `mod` 2 ^ 32 - 2 ^ 31 + 1 * 2 ^ 32) with ((z + 2 ^ 31) `mod` 2 ^ 32 + 2 ^ 31) by lia.
  rewrite Zplus_mod_idemp_l. replace (z + 2 ^ 31 + 2 ^ 31) with (z + 1 * 2 ^ 32) by lia. by rewrite Z.mod_add by lia.
Qed.
(** The 64-bit value given to [Add] or [Mod] survives its split into the two 32-bit
    halves of the kernel's event, whatever its bits. *)
Theorem eventData_putData events data : 0 <= data < 2 ^ 64 -> eventData (putData events data) = data.
Proof.
  intros Hd. unfold eventData, putData. cbn [ee_Fd ee_Pad]. rewrite !wrap_u_wrap_i32. unfold wrap_u.
  rewrite Z.shiftr_div_pow2 by lia. rewrite !Z.mod_mod by lia.
  assert (0 <= data / 2 ^ 32 < 2 ^ 32) as Hq by (split; [apply Z.div_pos; lia|apply Z.div_lt_upper_bound; lia]).
  rewrite (Z.mod_small (data / 2 ^ 32)) by done.
  rewrite Z.lor_comm, lor_shiftl_add by (try apply Z.mod_pos_bound; lia). pose proof (Z.div_mod data (2 ^ 32)). lia.
Qed.
(** [timeoutMillis] is -1 exactly for an unlimited wait; otherwise it is within what
    the kernel accepts, and the wait never ends early: it is the remaining time rounded
    up to milliseconds, less than one millisecond too long, unless it is capped. *)
Theorem timeoutMillis_spec timeout elapsed :
  let ms := timeoutMillis timeout elapsed in
  (ms = -1 <-> timeout < 0) /\ -1 <= ms <= MaxInt32 /\
  (0 <= timeout -> ms < MaxInt32 ->
     timeout - elapsed <= ms * Millisecond /\ (0 < ms -> ms * Millisecond < timeout - elapsed + Millisecond)).
Proof.
  cbv zeta. unfold timeoutMillis, MaxInt32, Millisecond. destruct (timeout <? 0) eqn:Et; [apply Z.ltb_lt in Et; lia|].
  apply Z.ltb_ge in Et. cbv zeta. destruct (timeout - elapsed <=? 0) eqn:Er; [apply Z.leb_le in Er; lia|]. apply Z.leb_gt in Er.
  pose proof (Z.quot_rem' (timeout - elapsed) 1000000) as Hq.
  pose proof (Z.rem_bound_pos (timeout - elapsed) 1000000 ltac:(lia) ltac:(lia)) as Hb.
  set (q := (timeout - elapsed) `quot` 1000000) in *. set (r := (timeout - elapsed) `rem` 1000000) in *.
  destruct (r =? 0) eqn:E0; [apply Z.eqb_eq in E0|apply Z.eqb_neq in E0]; cbn [negb]; destruct (_ >? _) eqn:Ec;
    rewrite Z.gtb_ltb in Ec; (apply Z.ltb_lt in Ec || apply Z.ltb_ge in Ec); lia.
Qed.

(** ** The interest set *)
(** Only the internal descriptor carries the reserved value, and it stays registered. *)
Definition data_of (o : epoll_op) : list Z :=
  match o with EAdd _ _ data _ | EMod _ _ data _ => [data] | _ => [] end.
Definition fd_of (o : epoll_op) : option Z :=
  match o with EAdd fd _ _ _ | EMod fd _ _ _ | EDel fd _ | EGone fd => Some fd | _ => None end.
Record set_good (wakeFD : Z) (datas : list Z) (k : interest) : Prop := {
  sg_fd : in_wakeFD k = wakeFD;
  sg_wake : in_set k !! wakeFD = Some (putData Readable wakeData);
  sg_user : forall fd ev, in_set k !! fd = Some ev -> fd <> wakeFD -> eventData ev ∈ datas /\ eventData ev <> wakeData;
}.
Definition event_fine (datas : list Z) (e : Event) : Prop := ev_Data e ∈ datas /\ ev_Data e <> wakeData.
#[refine, global] Instance epoll_ok (wakeFD : Z) (datas : list Z) : BackendOk := {
  bk_good := set_good wakeFD datas;
  bk_fine := event_fine datas;
}.
Proof.
  - reflexivity.
  - intros k srcs raw Hk ([fd mask] & _ & Hsrc)%list_elem_of_omap. unfold report_one in Hsrc. cbn in Hsrc.
    rewrite (sg_fd _ _ _ Hk) in Hsrc. destruct (fd =? wakeFD) eqn:Ef; [done|]. apply Z.eqb_neq in Ef.
    destruct (in_set k !! fd) as [ev|] eqn:Es; [|done]. simplify_eq.
    destruct (sg_user _ _ _ Hk _ _ Es Ef) as [Hin Hne]. unfold bk_decode, epoll_backend, decode_event.
    change (eventData {| ee_Events := mask; ee_Fd := ee_Fd ev; ee_Pad := ee_Pad ev |}) with (eventData ev).
    apply Z.eqb_neq in Hne as Hb. rewrite Hb. eexists. split; [done|]. by split.
  - intros n Hn. unfold bk_signal, epoll_backend, eventfd_add. destruct (_ >? _) eqn:E; lia.
Defined.

(** ** Every interleaving *)
Section reachable.
Context (wakeFD : Z) (opss : list (list epoll_op)).
(** The callers name descriptors of their own, and 64-bit data. *)
Hypothesis own_fds : Forall (fun o => fd_of o <> Some wakeFD) (mjoin opss).
Hypothesis data_ok : Forall (fun o => Forall (fun d => 0 <= d < 2 ^ 64) (data_of o)) (mjoin opss).
Abbreviation datas := (mjoin opss ≫= data_of).
#[local] Existing Instance epoll_ok.
Abbreviation good := (@op_good epoll_backend (epoll_ok wakeFD datas)).

Lemma ctl_good refused op fd events data :
  fd <> wakeFD -> (op = CtlDel \/ 0 <= data < 2 ^ 64 /\ data ∈ datas /\ data <> wakeData) ->
  @keeps_good epoll_backend (epoll_ok wakeFD datas) (epoll_ctl refused op fd (putData events data)).
Proof.
  intros Hfd Hd k Hk. unfold epoll_ctl. destruct refused; [done|].
  assert (op <> CtlDel -> set_good wakeFD datas {| in_wakeFD := in_wakeFD k; in_set := <[fd := putData events data]> (in_set k) |}) as Hins.
  { intros Hop. destruct Hd as [?|(Hr & Hin & Hne)]; [done|]. destruct Hk as [E1 E2 E3]. split; cbn; [done|by rewrite lookup_insert_ne|].
    intros fd' ev [(<- & <-)|[_ Hl]]%lookup_insert_Some Hne'; [by rewrite eventData_putData|by eapply E3]. }
  destruct op, (in_set k !! fd) eqn:E; cbn; try done; try (by apply Hins).
  destruct Hk as [E1 E2 E3]. split; cbn; [done|by rewrite lookup_delete_ne|].
  intros fd' ev [_ Hl]%lookup_delete_Some. by apply E3.
Qed.
Lemma ops_good : Forall (Forall good) (map (map to_op) opss).
Proof.
  apply Forall_fmap, Forall_forall. intros ops Hops%list_elem_of_In. apply Forall_fmap, Forall_forall. intros o Ho%list_elem_of_In.
  assert (o ∈ mjoin opss) as Hin by (apply list_elem_of_join; eauto).
  pose proof (proj1 (Forall_forall _ _) own_fds o (proj1 (list_elem_of_In _ _) Hin)) as Hfd.
  pose proof (proj1 (Forall_forall _ _) data_ok o (proj1 (list_elem_of_In _ _) Hin)) as Hd.
  assert (forall d, d ∈ data_of o -> d ∈ datas) as Hds by (intros d Hdo; apply list_elem_of_bind; eauto).
  destruct o as [fd events data refused|fd events data refused|fd refused|intr|n timeout rs|intr e1 e2|fd]; cbn in *; try exact I.
  1,2: intros Hr; apply ctl_good; [congruence|right]; apply Forall_cons_1 in Hd as [Hd _];
    split; [exact Hd|split; [apply Hds; left|by apply Z.eqb_neq]].
  - intros _. apply ctl_good; [congruence|by left].
  - intros k [E1 E2 E3]. split; cbn; [done|rewrite lookup_delete_ne; [done|congruence]|].
    intros fd' ev [_ Hl]%lookup_delete_Some. by apply E3.
Qed.
Lemma start_good : set_good wakeFD datas {| in_wakeFD := wakeFD; in_set := {[wakeFD := putData Readable wakeData]} |}.
Proof. split; cbn; [done|by rewrite lookup_singleton_eq|]. intros fd ev [<- _]%lookup_singleton_Some. done. Qed.

(** C25. However [Add], [Mod], [Del], [Wake], [Wait] and [Close] interleave: no system
    call is made on the descriptors of the poller after they are closed, [Wait] never
    writes past its slice, the events it returns carry data that was given to [Add] or
    [Mod] and never the internal wake event, and the registration of the wake descriptor
    survives. *)
Theorem epoll_safe c :
  rtc pstep (epoll_pool wakeFD opss) c ->
  ~ panics c /\ po_stale c.1 = false /\
  Forall (fun r => (length r.2 <= r.1)%nat /\ Forall (fun e => ev_Data e ∈ datas /\ ev_Data e <> wakeData) r.2) (po_results c.1) /\
  in_set (po_kernel c.1) !! wakeFD = Some (putData Readable wakeData).
Proof.
  intros Hr. destruct (@poll_safe epoll_backend (epoll_ok wakeFD datas) _ _ start_good ops_good c Hr) as (? & ? & ?).
  split_and!; [done..|]. destruct (@poll_ok epoll_backend (epoll_ok wakeFD datas) _ _ start_good ops_good c Hr) as (ms & _ & HI).
  apply (li_good _ _ HI).
Qed.

(** No wake-up is lost: when nothing can move, everybody has returned if the poller is
    closed, and otherwise everybody but at most one caller of [Wait], which no [Wake] is
    pending for. *)
Theorem epoll_settles c :
  rtc pstep (epoll_pool wakeFD opss) c -> ~ can_step c ->
  if po_closed c.1 then finished c
  else exists j, forall i t, c.2 !! i = Some t ->
    t = Ret tt \/ (i = j /\ po_waiting c.1 = true /\ po_wake c.1 = 0).
Proof.
  intros Hr Hst. pose proof (@poll_rest epoll_backend (epoll_ok wakeFD datas) _ _ start_good ops_good c Hr Hst) as Hend.
  destruct (po_closed c.1); [done|]. destruct Hend as [j Hj]. exists j. intros i t Ht. destruct (Hj i t Ht) as [?|(? & _ & ? & ?)]; auto.
Qed.

(** C26. [Close] always completes, also while a [Wait] without deadline holds the lock:
    when a goroutine that does not itself call [Wait] calls it, every schedule ends with
    everybody returned. *)
Theorem epoll_closes :
  existsb (fun ops => existsb (fun o => match o with EClose _ _ _ => true | _ => false end) ops &&
                      negb (existsb (fun o => match o with EWait _ _ _ => true | _ => false end) ops)) opss = true ->
  inevitable (fun c => finished c /\ po_closed c.1 = true) (epoll_pool wakeFD opss).
Proof.
  intros Ha. apply (@poll_closes epoll_backend (epoll_ok wakeFD datas) _ _ start_good ops_good).
  apply existsb_exists in Ha as (ops & Hin & Ha). apply existsb_exists. exists (map to_op ops). split; [by apply in_map|].
  rewrite <- Ha. clear Ha Hin. f_equal; [|f_equal]; (induction ops as [|[] ops IH]; [done|cbn; by rewrite ?IH..]).
Qed.
End reachable.

(** ** A poller that is closed while a [Wait] without deadline is in the kernel *)
Definition demo_epoll_ops : list (list epoll_op) :=
  [[EAdd 7 Readable 42 None; EWait 2 (-1) [{| rd_elapsed := 0; rd_found := Found [(7, 1)] [] 0 |}; {| rd_elapsed := 0; rd_found := Interrupted 5 |}];
    EWait 2 (-1) []]; [EWake 1; EClose 0 None (Some EBADF)]].
Definition demo_epoll : pool poller := epoll_pool 3 demo_epoll_ops.
(** The first goroutine as far as it gets, then in turn. *)
Definition demo_epoll_got : pool poller := reached demo_epoll (replicate 40 (0, 0)%nat).
Definition demo_epoll_end : pool poller := reached demo_epoll (replicate 40 (0, 0)%nat ++ mjoin (replicate 4 (in_turn 2 20))).
Lemma demo_epoll_own : Forall (fun o => fd_of o <> Some 3) (mjoin demo_epoll_ops).
Proof. by repeat constructor. Qed.
Lemma demo_epoll_data : Forall (fun o => Forall (fun d => 0 <= d < 2 ^ 64) (data_of o)) (mjoin demo_epoll_ops).
Proof. repeat constructor; lia. Qed.
Lemma eventData_putData_witness : eventData (putData Readable (2 ^ 63 + 5)) = 2 ^ 63 + 5.
Proof. apply (eventData_putData Readable (2 ^ 63 + 5)). lia. Defined.
Lemma epoll_safe_witness :
  po_results demo_epoll_got.1 = [(2%nat, [{| ev_Events := 1; ev_Data := 42 |}])] /\ po_stale demo_epoll_got.1 = false.
Proof.
  split; [vm_compute; reflexivity|].
  destruct (epoll_safe 3 demo_epoll_ops demo_epoll_own demo_epoll_data demo_epoll_got (reached_steps _ _)) as (_ & Hs & _). exact Hs.
Defined.
Lemma epoll_settles_witness : finished demo_epoll_end.
Proof.
  assert (finished demo_epoll_end) as Hf by (apply all_returned; vm_compute; reflexivity).
  pose proof (epoll_settles 3 demo_epoll_ops demo_epoll_own demo_epoll_data demo_epoll_end) as Hs.
  assert (po_closed demo_epoll_end.1 = true) as E by (vm_compute; reflexivity). rewrite E in Hs. apply Hs.
  - exact (reached_steps _ _).
  - exact (finished_no_step _ Hf).
Defined.
Lemma epoll_closes_witness : inevitable (fun c => finished c /\ po_closed c.1 = true) demo_epoll.
Proof. apply (epoll_closes 3 demo_epoll_ops demo_epoll_own demo_epoll_data). vm_compute. reflexivity. Defined.
