(* ===== verification/Kqueue.v ===== *)
(** * Kqueue: the BSD poller (kqueue/kqueue_bsd.go)

    The operations of the package on the wrapper of Poller.v.  The kernel's part is the set
    of registered identities with the documented results of [kevent]; [refused] stands for
    any other failure the kernel reports.  The wake event is triggered by one call and
    reset by its delivery. *)
From S2P Require Import Prelude Conc Poller PollerProofs.
Local Open Scope go_scope.
Local Open Scope string_scope.
Local Open Scope list_scope.
Local Open Scope Z_scope.

Definition wakeIdent : Z := 2 ^ 64 - 1.
(** [unix.EVFILT_USER], [unix.EV_ADD], [unix.EV_DELETE] (their values on darwin). *)
Definition User : Z := -10.
Definition EV_ADD : Z := 1.
Definition EV_DELETE : Z := 2.
(** [Change], [Event] and the kernel's [Kevent_t] have the same fields. *)
Record kevent := { kv_Ident : Z; kv_Filter : Z; kv_Flags : Z; kv_Fflags : Z; kv_Data : Z }.
Definition identity (ev : kevent) : Z * Z := (kv_Ident ev, kv_Filter ev).
Definition reserved_id : Z * Z := (wakeIdent, User).
Definition reserved (c : kevent) : bool := (kv_Ident c =? wakeIdent) && (kv_Filter c =? User).

(** ** The kernel *)
Definition kevent_change (refused : option errno) (c : kevent) (k : gset (Z * Z)) : gset (Z * Z) * option errno :=
  match refused with
  | Some e => (k, Some e)
  | None =>
      if negb (Z.land (kv_Flags c) EV_ADD =? 0) then ({[identity c]} ∪ k, None)
      else if decide (identity c ∈ k) then
        (if negb (Z.land (kv_Flags c) EV_DELETE =? 0) then k ∖ {[identity c]} else k, None)
      else (k, Some ENOENT)
  end.
Definition report_one (k : gset (Z * Z)) (ev : kevent) : option kevent :=
  if negb (reserved ev) && bool_decide (identity ev ∈ k) then Some ev else None.
Definition wake_event : kevent := {| kv_Ident := wakeIdent; kv_Filter := User; kv_Flags := 0; kv_Fflags := 0; kv_Data := 0 |}.
(** The timespec of a wait: none without a deadline. *)
Definition remaining (timeout elapsed : Z) : option Z :=
  if 0 <=? timeout then Some (if timeout - elapsed <? 0 then 0 else timeout - elapsed) else None.
#[global] Instance kqueue_backend : Backend := {
  bk_kernel := gset (Z * Z); bk_raw := kevent; bk_event := kevent; bk_source := kevent;
  bk_report k srcs := omap (report_one k) srcs;
  bk_wake := wake_event;
  bk_decode ev := if reserved ev then None else Some ev;
  bk_blocks timeout elapsed := match remaining timeout elapsed with Some _ => false | None => true end;
  bk_signal _ := 1;
  bk_clears := true;
}.
(** ** The operations *)
(** The results of [kqueue] and of the registration of the wake event; the second
    component lists the descriptors closed again. *)
Definition Open (create : Z + errno) (registered : option errno) : (poller + poll_error) * list Z :=
  match create with
  | inr e => (inr (SysError "create" e), [])
  | inl fd =>
      match kevent_change registered {| kv_Ident := wakeIdent; kv_Filter := User; kv_Flags := EV_ADD; kv_Fflags := 0; kv_Data := 0 |} ∅ with
      | (_, Some e) => (inr (SysError "register wake event" e), [fd])
      | (k, None) => (inl (new_poller k), [])
      end
  end.
Definition apply_call (c : kevent) (refused : option errno) : call := Call (reserved c) "apply" (kevent_change refused c).
Definition Apply (c : kevent) (refused : option errno) : prog poller (option poll_error) := control (apply_call c refused).
Definition Del (ident filter : Z) (refused : option errno) : prog poller (option poll_error) :=
  Apply {| kv_Ident := ident; kv_Filter := filter; kv_Flags := EV_DELETE; kv_Fflags := 0; kv_Data := 0 |} refused.

Inductive kqueue_op :=
  | KApply (c : kevent) (refused : option errno) | KWake | KWait (n : nat) (timeout : Z) (rs : list round)
  | KClose (closeErr : option errno) | KGone (ident filter : Z).
Definition to_op (o : kqueue_op) : poll_op :=
  match o with
  | KApply c refused => OControl (apply_call c refused)
  | KWake => OWake 0
  | KWait n timeout rs => OWait n timeout rs
  | KClose e => OClose 0 (omap id [e])
  | KGone ident filter => OWorld (fun k => if bool_decide ((ident, filter) = reserved_id) then k else k ∖ {[(ident, filter)]})
  end.
Definition kqueue_pool (opss : list (list kqueue_op)) : pool poller :=
  @poll_pool kqueue_backend {[reserved_id]} (map (map to_op) opss).
Lemma kq_to_op_runs : forall c refused, poll_op_prog (to_op (KApply c refused)) = (Apply c refused ≫= fun _ => mret tt).
Proof. done. Qed.

(** ** The registrations *)
Lemma reserved_spec c : reserved c = true <-> identity c = reserved_id.
Proof.
  unfold reserved, identity, reserved_id. rewrite andb_true_iff, !Z.eqb_eq. split; [by intros [-> ->]|by intros [= -> ->]].
Qed.
#[refine, global] Instance kqueue_ok : BackendOk := {
  bk_good k := reserved_id ∈ k;
  bk_fine ev := identity ev <> reserved_id;
}.
Proof.
  - reflexivity.
  - intros k srcs raw Hk (ev & _ & Hev)%list_elem_of_omap. unfold report_one in Hev. destruct (negb _ && _) eqn:E; [|done].
    simplify_eq. apply andb_prop in E as [E%negb_true_iff _]. exists raw. unfold bk_decode, kqueue_backend. rewrite E.
    split; [done|]. intros Hid%reserved_spec. congruence.
  - intros n _. unfold bk_signal, kqueue_backend. lia.
Defined.
Lemma change_good refused c : reserved c = false -> keeps_good (kevent_change refused c).
Proof.
  intros Hc k Hk. assert (identity c <> reserved_id) as Hne by (intros E%reserved_spec; congruence).
  unfold kevent_change, bk_good, kqueue_ok in *. cbn in *. destruct refused; [done|]. repeat case_match; cbn; set_solver.
Qed.

(** ** Every interleaving *)
Section reachable.
Context (opss : list (list kqueue_op)).

Lemma kq_ops_good : Forall (Forall op_good) (map (map to_op) opss).
Proof.
  apply Forall_fmap, Forall_true. intros ops. apply Forall_fmap, Forall_true. intros [c refused| |n timeout rs|e|ident filter]; cbn; try done.
  - apply change_good.
  - intros k Hk. case_bool_decide; [done|]. set_solver.
Qed.
Lemma kq_start_good : bk_good ({[reserved_id]} : bk_kernel).
Proof. unfold bk_good, kqueue_ok. cbn. set_solver. Qed.

(** C36. However [Apply], [Del], [Wake], [Wait] and [Close] interleave: no system call is
    made on the kqueue after it is closed, [Wait] never writes past its slice and never
    returns the internal wake event, and no caller can remove or change its
    registration. *)
Theorem kqueue_safe c :
  rtc pstep (kqueue_pool opss) c ->
  ~ panics c /\ po_stale c.1 = false /\
  Forall (fun r => (length r.2 <= r.1)%nat /\ Forall (fun ev => identity ev <> reserved_id) r.2) (po_results c.1) /\
  reserved_id ∈ po_kernel c.1.
Proof.
  intros Hr. destruct (poll_safe _ _ kq_start_good kq_ops_good c Hr) as (? & ? & ?). split_and!; [done..|].
  destruct (poll_ok _ _ kq_start_good kq_ops_good c Hr) as (ms & _ & HI). apply (li_good _ _ HI).
Qed.
(** [Close] always completes, also while a [Wait] without deadline holds the lock:
    when a goroutine that does not itself call [Wait] calls it, every schedule ends with
    everybody returned. *)
Theorem kqueue_closes :
  existsb (fun ops => existsb (fun o => match o with KClose _ => true | _ => false end) ops &&
                      negb (existsb (fun o => match o with KWait _ _ _ => true | _ => false end) ops)) opss = true ->
  inevitable (fun c => finished c /\ po_closed c.1 = true) (kqueue_pool opss).
Proof.
  intros Ha. apply (poll_closes _ _ kq_start_good kq_ops_good).
  apply existsb_exists in Ha as (ops & Hin & Ha). apply existsb_exists. exists (map to_op ops). split; [by apply in_map|].
  rewrite <- Ha. clear Ha Hin. f_equal; [|f_equal]; (induction ops as [|[] ops IH]; [done|cbn; by rewrite ?IH..]).
Qed.
End reachable.

Definition demo_kqueue_ops : list (list kqueue_op) := [[KWait 2 (-1) []; KWait 2 (-1) []]; [KWake; KClose None]].
Lemma kqueue_safe_witness :
  po_stale (reached (kqueue_pool demo_kqueue_ops) (mjoin (replicate 4 (in_turn 2 20)))).1 = false.
Proof. destruct (kqueue_safe demo_kqueue_ops _ (reached_steps _ (mjoin (replicate 4 (in_turn 2 20))))) as (_ & Hs & _). exact Hs. Defined.
Lemma kqueue_closes_witness : inevitable (fun c => finished c /\ po_closed c.1 = true) (kqueue_pool demo_kqueue_ops).
Proof. apply (kqueue_closes demo_kqueue_ops). vm_compute. reflexivity. Defined.
