(* ===== verification/Iocp.v ===== *)
(** * Iocp: the Windows completion port (iocp/iocp_windows.go)

    A [Port] shared by goroutines that associate handles, post packets, wait for them with
    [Get] and close the port.  Any number of [Get] calls may block in the kernel while they
    hold the read lock, so [Close] posts one wake packet for each of them before it takes
    the lock.

    The kernel's part: a first-in first-out queue of completion packets and the keys of the
    associated handles.  What it reports besides is given by the arguments of the
    operations; a system call on the closed handle is recorded in [io_stale].  [IComplete]
    is the end of an overlapped operation on an associated handle. *)
From S2P Require Import Prelude Conc.
Local Open Scope go_scope.
Local Open Scope string_scope.
Local Open Scope list_scope.
Local Open Scope Z_scope.

Definition reservedKey : Z := 2 ^ 64 - 1.
Record Completion := { cp_Bytes : Z; cp_Key : Z; cp_Overlapped : option Z }.
#[global] Instance Completion_eq_dec : EqDecision Completion.
Proof. solve_decision. Defined.
#[global] Program Instance Completion_countable : Countable Completion :=
  inj_countable' (fun c => (cp_Bytes c, cp_Key c, cp_Overlapped c))
    (fun x => {| cp_Bytes := x.1.1; cp_Key := x.1.2; cp_Overlapped := x.2 |}) _.
Next Obligation. by intros []. Qed.
Definition no_completion : Completion := {| cp_Bytes := 0; cp_Key := 0; cp_Overlapped := None |}.
(** Error numbers of the system. *)
Definition WAIT_TIMEOUT : Z := 258.
Definition INVALID_HANDLE : Z := 6.
Definition INVALID_PARAMETER : Z := 87.
Inductive iocp_error := ErrClosed | ErrTimeout | ErrReservedKey | UnexpectedHandle | SysError (what : string) (e : Z).

Definition INFINITE : Z := 2 ^ 32 - 1.
Definition Millisecond : Z := 1000000.
Definition timeoutMillis (timeout : Z) : Z :=
  if timeout <? 0 then INFINITE
  else if timeout =? 0 then 0
  else
    let ms := timeout `quot` Millisecond in
    let ms := if negb (timeout `rem` Millisecond =? 0) then ms + 1 else ms in
    if ms >=? 2 ^ 32 - 1 then 2 ^ 32 - 1 - 1 else wrap_u 32 ms.

(** ** The state *)
(** A packet with the status of the operation it completes. *)
Definition packet : Type := Completion * option Z.
Definition wake_packet : packet := ({| cp_Bytes := 0; cp_Key := reservedKey; cp_Overlapped := None |}, None).
Definition is_wake (c : Completion) : bool :=
  (cp_Key c =? reservedKey) && match cp_Overlapped c with None => true | Some _ => false end.
Record Port := MkPort {
  io_readers : Z;   (* mu: read locks held *)
  io_writer : bool;   (* mu: a writer waits or holds the lock *)
  io_closed : bool;
  io_waiters : Z;
  io_handle : Z;
  io_open : bool;   (* the handle is open *)
  io_queue : list packet;
  io_keys : gmap Z Z;   (* the associated handles *)
  io_stale : bool;   (* history: a system call on the closed handle *)
  io_posted : list packet;   (* history: packets queued by callers and operations *)
  io_taken : list packet;   (* history: those dequeued *)
  io_results : list Completion;   (* history: those returned by Get *)
  io_lost : nat;   (* history: wake packets the kernel refused *)
}.
Definition put_readers (x : Z) (p : Port) : Port :=
  MkPort x (io_writer p) (io_closed p) (io_waiters p) (io_handle p) (io_open p) (io_queue p) (io_keys p) (io_stale p) (io_posted p) (io_taken p) (io_results p) (io_lost p).
Definition put_writer (x : bool) (p : Port) : Port :=
  MkPort (io_readers p) x (io_closed p) (io_waiters p) (io_handle p) (io_open p) (io_queue p) (io_keys p) (io_stale p) (io_posted p) (io_taken p) (io_results p) (io_lost p).
Definition put_closed (p : Port) : Port :=
  MkPort (io_readers p) (io_writer p) true (io_waiters p) (io_handle p) (io_open p) (io_queue p) (io_keys p) (io_stale p) (io_posted p) (io_taken p) (io_results p) (io_lost p).
Definition put_waiters (x : Z) (p : Port) : Port :=
  MkPort (io_readers p) (io_writer p) (io_closed p) x (io_handle p) (io_open p) (io_queue p) (io_keys p) (io_stale p) (io_posted p) (io_taken p) (io_results p) (io_lost p).
Definition put_gone (p : Port) : Port :=
  MkPort (io_readers p) (io_writer p) (io_closed p) (io_waiters p) 0 false (io_queue p) (io_keys p) (io_stale p) (io_posted p) (io_taken p) (io_results p) (io_lost p).
Definition put_queue (x : list packet) (p : Port) : Port :=
  MkPort (io_readers p) (io_writer p) (io_closed p) (io_waiters p) (io_handle p) (io_open p) x (io_keys p) (io_stale p) (io_posted p) (io_taken p) (io_results p) (io_lost p).
Definition put_keys (x : gmap Z Z) (p : Port) : Port :=
  MkPort (io_readers p) (io_writer p) (io_closed p) (io_waiters p) (io_handle p) (io_open p) (io_queue p) x (io_stale p) (io_posted p) (io_taken p) (io_results p) (io_lost p).
Definition put_stale (p : Port) : Port :=
  MkPort (io_readers p) (io_writer p) (io_closed p) (io_waiters p) (io_handle p) (io_open p) (io_queue p) (io_keys p) true (io_posted p) (io_taken p) (io_results p) (io_lost p).
Definition put_posted (x : list packet) (p : Port) : Port :=
  MkPort (io_readers p) (io_writer p) (io_closed p) (io_waiters p) (io_handle p) (io_open p) (io_queue p) (io_keys p) (io_stale p) x (io_taken p) (io_results p) (io_lost p).
Definition put_taken (x : list packet) (p : Port) : Port :=
  MkPort (io_readers p) (io_writer p) (io_closed p) (io_waiters p) (io_handle p) (io_open p) (io_queue p) (io_keys p) (io_stale p) (io_posted p) x (io_results p) (io_lost p).
Definition put_results (x : list Completion) (p : Port) : Port :=
  MkPort (io_readers p) (io_writer p) (io_closed p) (io_waiters p) (io_handle p) (io_open p) (io_queue p) (io_keys p) (io_stale p) (io_posted p) (io_taken p) x (io_lost p).
Definition put_lost (x : nat) (p : Port) : Port :=
  MkPort (io_readers p) (io_writer p) (io_closed p) (io_waiters p) (io_handle p) (io_open p) (io_queue p) (io_keys p) (io_stale p) (io_posted p) (io_taken p) (io_results p) x.
Definition new_port (handle : Z) : Port := MkPort 0 false false 0 handle true [] ∅ false [] [] [] 0.
(** The result of [CreateIoCompletionPort] for a new port. *)
Definition Open (create : Z + Z) : Port + iocp_error :=
  match create with
  | inl h => inl (new_port h)
  | inr e => inr (SysError "create" e)
  end.

(** ** The lock *)
Definition rlock : prog Port unit :=
  select (fun p => ready (negb (io_writer p)) (put_readers (io_readers p + 1) p) tt).
Definition runlock : prog Port unit := atomically (fun p => (put_readers (io_readers p - 1) p, tt)).
Definition lock : prog Port unit :=
  select (fun p => ready (negb (io_writer p)) (put_writer true p) tt) ≫= fun _ =>
  select (fun p => ready (io_readers p =? 0) p tt).
Definition unlock : prog Port unit := atomically (fun p => (put_writer false p, tt)).
Definition load_closed : prog Port bool := atomically (fun p => (p, io_closed p)).
Definition syscall {B} (bad : B) (f : Port -> Port * B) : prog Port B :=
  atomically (fun p => if io_open p then f p else (put_stale p, bad)).
Definition guarded {A} (closed : A) (body : prog Port A) : prog Port A :=
  rlock ≫= fun _ =>
  c ← load_closed;
  if c : bool then runlock ≫= fun _ => mret closed
  else r ← body; runlock ≫= fun _ => mret r.

(** ** The operations *)
(** [CreateIoCompletionPort] on an existing port: it returns the handle of the port,
    unless the kernel refuses; a handle is associated once. *)
Definition associate (handle key : Z) (refused : option Z) (p : Port) : Port * (Z + Z) :=
  match refused, io_keys p !! handle with
  | Some e, _ => (p, inr e)
  | None, Some _ => (p, inr INVALID_PARAMETER)
  | None, None => (put_keys (<[handle := key]> (io_keys p)) p, inl (io_handle p))
  end.
Definition Associate (handle key : Z) (refused : option Z) : prog Port (option iocp_error) :=
  if key =? reservedKey then mret (Some ErrReservedKey)
  else
    guarded (Some ErrClosed)
      (r ← syscall (inr INVALID_HANDLE) (associate handle key refused);
       match r with
       | inr e => mret (Some (SysError "associate handle" e))
       | inl h => atomically (fun p => (p, if h =? io_handle p then None else Some UnexpectedHandle))
       end).

Definition enqueue (pk : packet) (p : Port) : Port :=
  put_queue (io_queue p ++ [pk]) (if is_wake pk.1 then p else put_posted (io_posted p ++ [pk]) p).
Definition post (c : Completion) (refused : option Z) : prog Port (option Z) :=
  syscall (Some INVALID_HANDLE)
    (fun p => match refused with Some e => (p, Some e) | None => (enqueue (c, None) p, None) end).
Definition Post (c : Completion) (refused : option Z) : prog Port (option iocp_error) :=
  if cp_Key c =? reservedKey then mret (Some ErrReservedKey)
  else
    guarded (Some ErrClosed)
      (e ← post c refused; mret (match e with Some e => Some (SysError "post completion" e) | None => None end)).

(** [GetQueuedCompletionStatus]: the first packet; with none, the call fails at the end of
    the timeout, and waits without one. *)
Definition dequeue (timeout : Z) (fails : option Z) : prog Port (Completion * option Z) :=
  select (fun p =>
    if negb (io_open p) then [(put_stale p, (no_completion, Some INVALID_HANDLE))]
    else
      match fails, io_queue p with
      | Some e, _ => [(p, (no_completion, Some e))]
      | None, pk :: q =>
          [(put_queue q (if is_wake pk.1 then p else put_taken (io_taken p ++ [pk]) p), pk)]
      | None, [] => if timeoutMillis timeout =? INFINITE then [] else [(p, (no_completion, Some WAIT_TIMEOUT))]
      end).
Definition Get (timeout : Z) (fails : option Z) : prog Port (Completion * option iocp_error) :=
  c ← load_closed;
  if c : bool then mret (no_completion, Some ErrClosed)
  else
    atomically (fun p => (put_waiters (io_waiters p + 1) p, tt)) ≫= fun _ =>
    r ← guarded (no_completion, Some ErrClosed)
      ('(c, err) ← dequeue timeout fails;
       if is_wake c then mret (no_completion, Some ErrClosed)
       else
         match err with
         | None => mret (c, None)
         | Some e =>
             if e =? WAIT_TIMEOUT then mret (no_completion, Some ErrTimeout)
             else
               cl ← load_closed;
               if cl : bool then mret (no_completion, Some ErrClosed)
               else mret (c, Some (SysError "get completion" e))
         end);
    atomically (fun p => (put_waiters (io_waiters p - 1) p, tt)) ≫= fun _ => mret r.

(** One wake packet for each of the waiters of the snapshot; the kernel may refuse any of
    them ([refused] by position, [None] beyond its end), and its answer is ignored. *)
Definition post_wake (refused : option Z) : prog Port unit :=
  syscall tt (fun p => match refused with
                       | Some _ => (put_lost (S (io_lost p)) p, tt)
                       | None => (enqueue wake_packet p, tt)
                       end).
Fixpoint post_wakes (n : nat) (refused : list (option Z)) : prog Port unit :=
  match n with
  | O => mret tt
  | S n => post_wake (default None (head refused)) ≫= fun _ => post_wakes n (tail refused)
  end.
Definition Close (closeErr : option Z) (refused : list (option Z)) : prog Port (option iocp_error) :=
  won ← atomically (fun p => if io_closed p then (p, false) else (put_closed p, true));
  if negb won then mret None
  else
    waiters ← atomically (fun p => (p, io_waiters p));
    post_wakes (Z.to_nat waiters) refused ≫= fun _ =>
    lock ≫= fun _ =>
    r ← syscall (Some INVALID_HANDLE) (fun p => match closeErr with Some e => (p, Some e) | None => (put_gone p, None) end);
    unlock ≫= fun _ =>
    mret (match r with Some e => Some (SysError "close" e) | None => None end).

(** ** Goroutines sharing one port *)
Inductive iocp_op :=
  | IAssociate (handle key : Z) (refused : option Z)
  | IPost (c : Completion) (refused : option Z)
  | IGet (timeout : Z) (fails : option Z)
  | IClose (closeErr : option Z) (refused : list (option Z))   (* the answers to its wake packets *)
  | IComplete (handle bytes overlapped : Z) (status : option Z).
(** The caller of [Get] keeps what it is given without an error. *)
Definition keep (r : Completion * option iocp_error) : prog Port unit :=
  match r.2 with
  | None => atomically (fun p => (put_results (io_results p ++ [r.1]) p, tt))
  | Some _ => mret tt
  end.
Definition complete (handle bytes overlapped : Z) (status : option Z) (p : Port) : Port :=
  match io_keys p !! handle with
  | Some key => enqueue ({| cp_Bytes := bytes; cp_Key := key; cp_Overlapped := Some overlapped |}, status) p
  | None => p
  end.
Definition iocp_op_prog (o : iocp_op) : prog Port unit :=
  match o with
  | IAssociate handle key refused => Associate handle key refused ≫= fun _ => mret tt
  | IPost c refused => Post c refused ≫= fun _ => mret tt
  | IGet timeout fails => Get timeout fails ≫= keep
  | IClose closeErr refused => Close closeErr refused ≫= fun _ => mret tt
  | IComplete handle bytes overlapped status => atomically (fun p => (complete handle bytes overlapped status p, tt))
  end.
Fixpoint iocp_client (ops : list iocp_op) : prog Port unit :=
  match ops with
  | [] => mret tt
  | o :: ops => iocp_op_prog o ≫= fun _ => iocp_client ops
  end.
Definition iocp_pool (handle : Z) (opss : list (list iocp_op)) : pool Port :=
  (new_port handle, iocp_client <$> opss).

(** ** Timeouts *)
(** [timeoutMillis] fits in 32 bits and is INFINITE exactly for an unlimited wait;
    otherwise the wait never ends early: it is the timeout rounded up to milliseconds,
    less than one too long, unless it is capped one below INFINITE. *)
Theorem iocp_timeoutMillis_spec timeout :
  let ms := timeoutMillis timeout in
  0 <= ms <= INFINITE /\ (ms = INFINITE <-> timeout < 0) /\
  (0 <= timeout -> ms < INFINITE - 1 -> timeout <= ms * Millisecond < timeout + Millisecond).
Proof.
  cbv zeta. unfold timeoutMillis, INFINITE, Millisecond. destruct (timeout <? 0) eqn:Et; [apply Z.ltb_lt in Et; lia|].
  apply Z.ltb_ge in Et. destruct (timeout =? 0) eqn:E0; [apply Z.eqb_eq in E0; lia|]. apply Z.eqb_neq in E0. cbv zeta.
  pose proof (Z.quot_rem' timeout 1000000) as Hq.
  pose proof (Z.rem_bound_pos timeout 1000000 ltac:(lia) ltac:(lia)) as Hb.
  assert (0 <= timeout `quot` 1000000) by (apply Z.quot_pos; lia).
  set (q := timeout `quot` 1000000) in *. set (r := timeout `rem` 1000000) in *.
  set (ms := if negb (r =? 0) then q + 1 else q).
  assert (q <= ms <= q + 1 /\ timeout <= ms * 1000000 < timeout + 1000000).
  { unfold ms. destruct (r =? 0) eqn:Er; [apply Z.eqb_eq in Er|apply Z.eqb_neq in Er]; cbn [negb]; lia. }
  destruct (ms >=? 2 ^ 32 - 1) eqn:Ec; rewrite Z.geb_leb in Ec; (apply Z.leb_le in Ec || apply Z.leb_gt in Ec); [lia|].
  unfold wrap_u. rewrite Z.mod_small by lia. lia.
Qed.

(** ** Shares
    What a goroutine owns of the lock ([g_r] read locks, [g_w] the writer's place), the
    read locks under which it has found [closed] unset ([g_a]), its place in the count of
    waiters without or with the right to still wait in the kernel ([g_g], [g_k]), and, for the
    goroutine that has set [closed], the wake packets it still has to post ([g_c]; [None]
    before it has read the count), and the completions it has dequeued and not yet handed
    to its caller ([g_p]). *)
Record ioShare := IoShare {
  g_r : nat; g_a : nat; g_g : nat; g_k : nat; g_w : excl bool; g_c : excl (option nat); g_p : gmultiset Completion }.
#[global] Program Instance ghost_ioShare : Ghost ioShare := {|
  gop := fun a b => IoShare (g_r a ∙ g_r b) (g_a a ∙ g_a b) (g_g a ∙ g_g b) (g_k a ∙ g_k b) (g_w a ∙ g_w b) (g_c a ∙ g_c b)
    (g_p a ∙ g_p b);
  gnil := IoShare 0 0 0 0 Nobody Nobody gnil |}.
Next Obligation. intros a b c. cbn [g_r g_a g_g g_k g_w g_c g_p]. f_equal; apply gop_assoc. Qed.
Next Obligation. intros a b. cbv beta. f_equal; apply gop_comm. Qed.
Next Obligation. intros []. cbn [g_r g_a g_g g_k g_w g_c g_p]. f_equal; apply gop_nil. Qed.

Definition user (pk : packet) : bool := negb (is_wake pk.1).
Definition users (q : list packet) : list packet := filter (fun pk => user pk = true) q.
Definition wakes (q : list packet) : nat := length (filter (fun pk => user pk = false) q).
Definition left_to_post (c : excl (option nat)) : nat := match c with Owner (Some n) => n | _ => 0 end.
#[local] Arguments wakes : simpl never.
#[local] Arguments users : simpl never.
#[local] Arguments left_to_post : simpl never.
(** The packets without a failure, however often each. *)
Definition completions (pks : list packet) : gmultiset Completion :=
  list_to_set_disj (omap (fun pk => match pk.2 with None => Some pk.1 | Some _ => None end) pks).
#[local] Arguments completions : simpl never.
#[local] Arguments disj_union : simpl never.
#[local] Arguments gmultiset_disj_union : simpl never.
Record io_inv (p : Port) (m : ioShare) : Prop := {
  ii_readers : io_readers p = Z.of_nat (g_r m + g_a m);
  ii_open : io_closed p = false \/ (0 < g_a m)%nat \/ g_c m <> Nobody -> io_open p = true;
  ii_writer : match g_w m with Nobody => io_writer p = false | Owner _ => io_writer p = true | Conflict => False end;
  ii_alone : g_w m = Owner true -> (g_r m + g_a m = 0)%nat;
  ii_closed : io_writer p = true -> io_closed p = true;
  ii_closer : match g_c m with Nobody => True | Owner _ => io_closed p = true | Conflict => False end;
  ii_waiters : io_waiters p = Z.of_nat (g_g m + g_k m);
  ii_woken : io_closed p = true -> g_c m <> Owner None -> (g_k m <= wakes (io_queue p) + left_to_post (g_c m) + io_lost p)%nat;
  ii_lost : (0 < io_lost p)%nat -> io_closed p = true;
  ii_fresh : io_stale p = false;
  ii_fifo : io_posted p = io_taken p ++ users (io_queue p);
  ii_keys : map_Forall (fun _ key => key <> reservedKey) (io_keys p);
  ii_posted : Forall (fun pk => cp_Key pk.1 <> reservedKey) (io_posted p);
  ii_results : completions (io_taken p) = list_to_set_disj (io_results p) ⊎ g_p m;
}.
(** Who waits, for what: for the writer to leave, for the readers to leave, or, if it calls
    [Get] without a timeout ([w]), in the kernel for a packet. *)
Definition io_blk (w : bool) (p : Port) (m : ioShare) : Prop :=
  (g_c m = Nobody \/ g_c m = Owner (Some 0%nat)) /\
  ((io_writer p = true /\ (g_r m + g_a m = 0)%nat /\ g_w m = Nobody) \/
   (io_readers p <> 0 /\ io_closed p = true /\ (g_r m + g_a m = 0)%nat) \/
   (w = true /\ io_queue p = [] /\ g_w m = Nobody /\ (0 < g_k m)%nat)).
Definition io_fin (m : ioShare) : Prop := m = gnil.

Section proofs.
Context (w : bool).
Abbreviation iwp := (wp io_inv (io_blk w)).

(** Shares by role. *)
Definition idle (g : nat) (P : gmultiset Completion) : ioShare := IoShare 0 0 g 0 Nobody Nobody P.
Definition reading (g : nat) : ioShare := IoShare 1 0 g 0 Nobody Nobody ∅.
Definition active (g k : nat) (P : gmultiset Completion) : ioShare := IoShare 0 1 g k Nobody Nobody P.
Definition closer (w : excl bool) (c : excl (option nat)) : ioShare := IoShare 0 0 0 0 w c ∅.

Ltac inv_split HI :=
  destruct HI as [Irdr Iopen Iwr Ialone Icl Iclr Iwait Iwok Ilost Ifresh Ififo Ikeys Ipost Ires]; cbn in *.
Ltac inv_solve :=
  split; cbn in *; try done; try lia; try (intros; lia); auto;
  try match goal with
      | Hal : ?x = Owner true -> _ |- ?x = Owner true -> _ => intros Hx; specialize (Hal Hx); lia
      | Hw : _ = true -> ?x <> Owner None -> _ |- _ = true -> ?x <> Owner None -> _ => intros Hx Hy; specialize (Hw Hx Hy); lia
      | Ho : _ \/ _ -> ?x = true |- _ \/ _ -> ?x = true => intros Hx; apply Ho; destruct Hx as [|[|]]; auto; right; left; lia
      end.

Lemma wp_rlock_io g (Q : unit -> ioShare -> Prop) : Q tt (reading g) -> iwp rlock (idle g ∅) Q.
Proof.
  intros HQ. apply wp_select. intros p F HI. destruct (io_writer p) eqn:Ew; cbn.
  - split; [|by intros ? ? ?%elem_of_nil]. intros _. split; [by left|]. by left.
  - split; [done|]. intros p' [] [= ->]%list_elem_of_singleton. exists (reading g). split; [|done].
    inv_split HI. destruct (g_w F) eqn:Ef; [|congruence|done]. inv_solve; rewrite ?Ef; done.
Qed.
Lemma wp_runlock_reading g (Q : unit -> ioShare -> Prop) : Q tt (idle g ∅) -> iwp runlock (reading g) Q.
Proof. intros HQ. apply wp_atomically. intros p F HI. exists (idle g ∅). split; [|done]. inv_split HI. inv_solve. Qed.
Lemma wp_runlock_active g k P (Q : unit -> ioShare -> Prop) : Q tt (idle (g + k) P) -> iwp runlock (active g k P) Q.
Proof.
  intros HQ. apply wp_atomically. intros p F HI. exists (idle (g + k) P). split; [|done]. inv_split HI. inv_solve.
Qed.
(** The test of [closed] under a read lock; a counted goroutine may then wait. *)
Lemma wp_check_io g (Q : bool -> ioShare -> Prop) :
  Q true (reading g) -> Q false (active 0 g ∅) -> iwp load_closed (reading g) Q.
Proof.
  intros Hc Ho. apply wp_atomically. intros p F HI. cbn. destruct (io_closed p) eqn:Ec; [by exists (reading g)|].
  exists (active 0 g ∅). split; [|done]. inv_split HI. rewrite Ec in *. inv_solve; rewrite ?Ec; try done; auto.
Qed.
Lemma wp_look_io m (Q : bool -> ioShare -> Prop) : (forall b, Q b m) -> iwp load_closed m Q.
Proof. intros HQ. apply wp_atomically. intros p F HI. by exists m. Qed.
Lemma wp_syscall_io {B} (bad : B) (f : Port -> Port * B) m m' (Q : B -> ioShare -> Prop) :
  (forall p F, io_inv p (m ∙ F) -> io_open p = true /\ io_inv (f p).1 (m' ∙ F)) ->
  (forall p, Q (f p).2 m') -> iwp (syscall bad f) m Q.
Proof. intros Hf HQ. apply wp_atomically. intros p F HI. destruct (Hf p F HI) as [-> HI']. by exists m'. Qed.
Lemma active_open p g k P F : io_inv p (active g k P ∙ F) -> io_open p = true.
Proof. intros HI. inv_split HI. apply Iopen. right. left. lia. Qed.
Lemma wp_guarded_io {A} g (closed : A) body (Q : A -> ioShare -> Prop) :
  Q closed (idle g ∅) -> iwp body (active 0 g ∅) (fun r m => exists h k P, m = active h k P /\ (h + k = g)%nat /\ Q r (idle g P)) ->
  iwp (guarded closed body) (idle g ∅) Q.
Proof.
  intros Hc Hb. apply wp_bind, wp_rlock_io, wp_bind, wp_check_io.
  - by apply wp_bind, wp_runlock_reading.
  - apply wp_bind. eapply wp_mono; [|exact Hb]. intros r m (h & k & P & -> & <- & HQ). by apply wp_bind, wp_runlock_active.
Qed.

(** *** Packets *)
Lemma wakes_app q q' : wakes (q ++ q') = (wakes q + wakes q')%nat.
Proof. unfold wakes. by rewrite list.filter_app, length_app. Qed.
Lemma users_app q q' : users (q ++ q') = users q ++ users q'.
Proof. apply list.filter_app. Qed.
Lemma users_cons pk q : users (pk :: q) = if is_wake pk.1 then users q else pk :: users q.
Proof. unfold users. rewrite filter_cons. unfold user. by destruct (is_wake pk.1). Qed.
Lemma enqueue_user p m pk :
  user pk = true -> cp_Key pk.1 <> reservedKey -> io_inv p m -> io_inv (enqueue pk p) m.
Proof.
  intros Hu Hk HI. unfold enqueue, user in *. apply negb_true_iff in Hu as Hw. rewrite Hw. inv_split HI. inv_solve.
  - intros Hc Hn. rewrite wakes_app. specialize (Iwok Hc Hn). lia.
  - by rewrite users_app, users_cons, Hw, app_assoc, <- Ififo.
  - apply Forall_app. by split; [|constructor].
Qed.
Lemma key_user c : cp_Key c <> reservedKey -> is_wake c = false.
Proof. intros Hk%Z.eqb_neq. unfold is_wake. by rewrite Hk. Qed.
Lemma wp_post_user c refused (Q : option Z -> ioShare -> Prop) :
  cp_Key c <> reservedKey -> (forall r, Q r (active 0 0 ∅)) -> iwp (post c refused) (active 0 0 ∅) Q.
Proof.
  intros Hk HQ. apply (wp_syscall_io _ _ _ (active 0 0 ∅)); [|by intros; destruct refused].
  intros p F HI. split; [by eapply active_open|]. destruct refused; [done|]. apply enqueue_user; [|done..].
  unfold user. cbn. by rewrite key_user.
Qed.
Lemma wp_Post c refused (Q : option iocp_error -> ioShare -> Prop) :
  (forall r, Q r (idle 0 ∅)) -> iwp (Post c refused) (idle 0 ∅) Q.
Proof.
  intros HQ. unfold Post. destruct (cp_Key c =? reservedKey) eqn:E; [apply HQ|]. apply Z.eqb_neq in E.
  apply wp_guarded_io; [apply HQ|]. apply wp_bind, wp_post_user; [done|]. intros r. exists 0%nat, 0%nat, ∅. by split.
Qed.
Lemma wp_Associate handle key refused (Q : option iocp_error -> ioShare -> Prop) :
  (forall r, Q r (idle 0 ∅)) -> iwp (Associate handle key refused) (idle 0 ∅) Q.
Proof.
  intros HQ. unfold Associate. destruct (key =? reservedKey) eqn:E; [apply HQ|]. apply Z.eqb_neq in E.
  apply wp_guarded_io; [apply HQ|]. apply wp_bind, (wp_syscall_io _ _ _ (active 0 0 ∅)).
  - intros p F HI. split; [by eapply active_open|]. unfold associate.
    destruct refused; [done|]. destruct (io_keys p !! handle); [done|]. inv_split HI. inv_solve. by apply map_Forall_insert_2.
  - intros p. destruct (associate handle key refused p).2 as [h|e]; [|exists 0%nat, 0%nat, ∅; by split].
    apply wp_atomically. intros p' F HI. exists (active 0 0 ∅). split; [done|]. exists 0%nat, 0%nat, ∅. by split.
Qed.

(** *** Getting *)
(** What the caller is then given, of a packet that was dequeued. *)
Definition handed (pk : Completion * option Z) : gmultiset Completion :=
  match pk.2 with None => if is_wake pk.1 then ∅ else {[+ pk.1 +]} | Some _ => ∅ end.
Lemma completions_snoc pks pk : completions (pks ++ [pk]) = completions pks ⊎ match pk.2 with None => {[+ pk.1 +]} | Some _ => ∅ end.
Proof.
  unfold completions. rewrite omap_app, list_to_set_disj_app. f_equal. cbn. destruct pk.2; [done|].
  by rewrite list_to_set_disj_cons, list_to_set_disj_nil, (right_id_L ∅ (⊎)).
Qed.
Lemma hand_over (A B C : gmultiset Completion) : A ⊎ (∅ ⊎ B) ⊎ C = A ⊎ (C ⊎ B).
Proof. by rewrite (left_id_L ∅ (⊎)), <- (assoc_L (⊎)), (comm_L (⊎) B). Qed.
Lemma received (A B C : gmultiset Completion) : A ⊎ (C ⊎ B) = A ⊎ (C ⊎ ∅) ⊎ (∅ ⊎ B).
Proof. by rewrite (left_id_L ∅ (⊎)), (right_id_L ∅ (⊎)), (assoc_L (⊎)). Qed.
Lemma wp_dequeue timeout fails (Q : Completion * option Z -> ioShare -> Prop) :
  (timeout < 0 -> w = true) -> (forall pk, Q pk (active 1 0 (handed pk))) ->
  iwp (dequeue timeout fails) (active 0 1 ∅) Q.
Proof.
  intros Hw HQ. apply wp_select. intros p F HI. pose proof (active_open _ _ _ _ _ HI) as Eo. rewrite Eo. cbn [negb].
  assert (forall e, exists m, io_inv p (m ∙ F) /\ Q (no_completion, Some e) m) as Hdone.
  { intros e. exists (active 1 0 ∅). split; [inv_split HI; inv_solve|apply (HQ (no_completion, Some e))]. }
  destruct fails as [e|]; [split; [done|]; by intros p' pk [= -> ->]%list_elem_of_singleton|].
  destruct (io_queue p) as [|pk q] eqn:Eq.
  - destruct (timeoutMillis timeout =? INFINITE) eqn:Et; [|split; [done|]; by intros p' pk [= -> ->]%list_elem_of_singleton].
    split; [|by intros ? ? ?%elem_of_nil]. intros _. split; [by left|]. right. right. split_and!; [|done|done|cbn; lia].
    apply Hw. apply Z.eqb_eq in Et. pose proof (iocp_timeoutMillis_spec timeout) as (_ & Hinf & _). by apply Hinf.
  - split; [done|]. intros p' pk' [= -> ->]%list_elem_of_singleton. exists (active 1 0 (handed pk)). split; [|apply HQ].
    assert (wakes (io_queue p) <= S (wakes q))%nat as Hwk.
    { rewrite Eq. unfold wakes. rewrite filter_cons. case_decide; cbn; lia. }
    destruct (is_wake pk.1) eqn:Ewk; inv_split HI; rewrite Eq, users_cons, Ewk in Ififo;
      unfold handed; rewrite ?Ewk; inv_solve.
    + rewrite Ires. by destruct pk.2.
    + by rewrite <- app_assoc.
    + rewrite completions_snoc, Ires. apply hand_over.
Qed.
(** What [Get] returns without an error is the completion its share stands for. *)
Definition given (r : Completion * option iocp_error) : gmultiset Completion :=
  match r.2 with None => {[+ r.1 +]} | Some _ => ∅ end.
Lemma wp_Get timeout fails (Q : Completion * option iocp_error -> ioShare -> Prop) :
  (timeout < 0 -> w = true) -> (forall r, Q r (idle 0 (given r))) -> iwp (Get timeout fails) (idle 0 ∅) Q.
Proof.
  intros Hw HQ. apply wp_bind, wp_look_io. intros [|]; [apply (HQ (_, Some ErrClosed))|].
  apply wp_bind, wp_atomically. intros p F HI. exists (idle 1 ∅). split; [inv_split HI; inv_solve|]. clear p F HI. cbn [snd].
  assert (forall r P, P = given r -> iwp (atomically (fun p => (put_waiters (io_waiters p - 1) p, tt)) ≫= fun _ => mret r) (idle 1 P) Q) as Hend.
  { intros r P ->. apply wp_bind, wp_atomically. intros p F HI. exists (idle 0 (given r)). split; [inv_split HI; inv_solve|apply HQ]. }
  apply wp_bind, wp_guarded_io; [by apply Hend|]. apply wp_bind, wp_dequeue; [done|]. intros [c err].
  assert (forall r P, P = given r -> exists h k P', active 1 0 P = active h k P' /\ (h + k = 1)%nat /\
    iwp (atomically (fun p => (put_waiters (io_waiters p - 1) p, tt)) ≫= fun _ => mret r) (idle 1 P') Q) as Hout.
  { intros r P HP. exists 1%nat, 0%nat, P. split_and!; [done..|]. by apply Hend. }
  unfold handed. cbn [fst snd]. destruct (is_wake c); [apply Hout; by destruct err|].
  destruct err as [e|]; [|by apply Hout]. destruct (e =? WAIT_TIMEOUT); [by apply Hout|].
  apply wp_bind, wp_look_io. intros [|]; by apply Hout.
Qed.
Lemma wp_keep r (Q : unit -> ioShare -> Prop) : Q tt (idle 0 ∅) -> iwp (keep r) (idle 0 (given r)) Q.
Proof.
  intros HQ. unfold keep, given. destruct r.2; [done|]. apply wp_atomically. intros p F HI. exists (idle 0 ∅). split; [|done].
  inv_split HI. inv_solve. rewrite Ires, list_to_set_disj_app, list_to_set_disj_cons, list_to_set_disj_nil. apply received.
Qed.

(** *** Closing *)
Lemma closer_facts p v c F : io_inv p (closer v (Owner c) ∙ F) -> g_c F = Nobody /\ io_closed p = true /\ io_open p = true.
Proof. intros HI. inv_split HI. destruct (g_c F) eqn:Ef; [|done..]. split_and!; [done..|]. apply Iopen. by right; right. Qed.
Lemma wp_post_wakes n refused (Q : unit -> ioShare -> Prop) :
  Q tt (closer Nobody (Owner (Some 0%nat))) -> iwp (post_wakes n refused) (closer Nobody (Owner (Some n))) Q.
Proof.
  intros HQ. revert refused. induction n as [|n IH]; intros refused; [done|]. cbn [post_wakes].
  apply wp_bind, (wp_syscall_io _ _ _ (closer Nobody (Owner (Some n)))); [|intros p; by destruct (default None (head refused))].
  intros p F HI. destruct (closer_facts _ _ _ _ HI) as (Ef & Ec & Eo). split; [done|]. inv_split HI. rewrite Ef in *.
  destruct (default None (head refused)); [by inv_solve; rewrite ?Ef; try done; intros _ _; specialize (Iwok Ec ltac:(done)); unfold left_to_post in *; cbn in *; lia|].
  inv_solve; rewrite ?Ef; try done.
  - intros _ _. rewrite wakes_app. specialize (Iwok Ec ltac:(done)). unfold left_to_post in *. cbn in *.
    change (wakes [_]) with 1%nat. change (is_wake _) with true. cbn. lia.
  - rewrite users_app. change (users [_]) with (@nil packet). by rewrite app_nil_r.
Qed.
Lemma wp_lock_io (Q : unit -> ioShare -> Prop) :
  Q tt (closer (Owner true) (Owner (Some 0%nat))) -> iwp lock (closer Nobody (Owner (Some 0%nat))) Q.
Proof.
  intros HQ. apply wp_bind, wp_select. intros p F HI. destruct (io_writer p) eqn:Ew; cbn [ready negb].
  { split; [|by intros ? ? ?%elem_of_nil]. intros _. split; [by right|]. by left. }
  split; [done|]. intros p' [] [= ->]%list_elem_of_singleton. exists (closer (Owner false) (Owner (Some 0%nat))). split.
  { destruct (closer_facts _ _ _ _ HI) as (_ & Ec & _). inv_split HI. destruct (g_w F) eqn:Ef; [|congruence|done]. inv_solve; rewrite ?Ef; done. }
  apply wp_select. clear p F HI Ew. intros p F HI. destruct (io_readers p =? 0) eqn:Er; cbn [ready].
  - split; [done|]. intros p' [] [= ->]%list_elem_of_singleton. exists (closer (Owner true) (Owner (Some 0%nat))). split; [|done].
    apply Z.eqb_eq in Er. inv_split HI. destruct (g_w F) eqn:Ef; [|done..]. inv_solve; rewrite ?Ef; try done; lia.
  - split; [|by intros ? ? ?%elem_of_nil]. intros _. apply Z.eqb_neq in Er. split; [by right|]. right. left.
    destruct (closer_facts _ _ _ _ HI) as (_ & Ec & _). done.
Qed.
Lemma wp_Close_io closeErr refused (Q : option iocp_error -> ioShare -> Prop) :
  (forall r, Q r (idle 0 ∅)) -> iwp (Close closeErr refused) (idle 0 ∅) Q.
Proof.
  intros HQ. apply wp_bind, wp_atomically. intros p F HI.
  destruct (io_closed p) eqn:Ec; [exists (idle 0 ∅); split; [done|apply HQ]|].
  exists (closer Nobody (Owner None)). split.
  { inv_split HI. rewrite Ec in *. destruct (g_c F) eqn:Ef; [|done..]. inv_solve; rewrite ?Ef; try done; auto. }
  cbn [snd negb]. apply wp_bind, wp_atomically. clear p F HI Ec. intros p F HI. exists (closer Nobody (Owner (Some (Z.to_nat (io_waiters p))))). split.
  { destruct (closer_facts _ _ _ _ HI) as (Ef & Ec & Eo). inv_split HI. rewrite Ef in *. inv_solve; rewrite ?Ef; try done.
    intros _ _. unfold left_to_post. cbn. lia. }
  cbn [snd]. apply wp_bind, wp_post_wakes, wp_bind, wp_lock_io, wp_bind, (wp_syscall_io _ _ _ (closer (Owner true) Nobody)).
  - clear - HQ. intros p F HI. destruct (closer_facts _ _ _ _ HI) as (Ef & Ec & Eo). split; [done|]. inv_split HI.
    rewrite Ef in *. destruct (g_w F) eqn:Eg; [|done..]. assert (g_r F + g_a F = 0)%nat by auto.
    destruct closeErr; inv_solve; rewrite ?Ef, ?Eg; try done; intros [?|[?|?]]; try done; try lia; congruence.
  - intros p'. apply wp_bind, wp_atomically. clear - HQ. intros p F HI. exists (idle 0 ∅). split; [|apply HQ]. inv_split HI.
    destruct (g_w F) eqn:Ef; [|done..]. inv_solve; by rewrite Ef.
Qed.

Definition waits (o : iocp_op) : bool := match o with IGet timeout _ => timeout <? 0 | _ => false end.
Lemma wp_iocp_op o (Q : unit -> ioShare -> Prop) :
  (waits o = true -> w = true) -> Q tt (idle 0 ∅) -> iwp (iocp_op_prog o) (idle 0 ∅) Q.
Proof.
  intros Hw HQ. destruct o as [handle key refused|c refused|timeout fails|closeErr wakeErrs|handle bytes overlapped status]; unfold iocp_op_prog.
  - by apply wp_bind, wp_Associate.
  - by apply wp_bind, wp_Post.
  - apply wp_bind, wp_Get; [intros Ht; by apply Hw, Z.ltb_lt|]. intros r. by apply wp_keep.
  - by apply wp_bind, wp_Close_io.
  - apply wp_atomically. intros p F HI. exists (idle 0 ∅). split; [|done]. cbn. unfold complete.
    destruct (io_keys p !! handle) as [key|] eqn:E; [|done]. pose proof (ii_keys _ _ HI _ _ E) as Hk.
    apply enqueue_user; [|done..]. unfold user, is_wake. cbn. by rewrite andb_false_r.
Qed.
Lemma wp_iocp_client ops :
  (existsb waits ops = true -> w = true) -> iwp (iocp_client ops) gnil (fun _ => io_fin).
Proof.
  induction ops as [|o ops IH]; intros Hw; [done|]. cbn [iocp_client existsb] in *. apply wp_bind, wp_iocp_op.
  - intros E. apply Hw. by rewrite E.
  - apply IH. intros E. apply Hw. rewrite E. apply orb_true_r.
Qed.
End proofs.

(** *** [closed] stays set *)
Definition io_closed_grows (p p' : Port) : Prop := io_closed p = true -> io_closed p' = true.
Ltac io_grows :=
  repeat first
    [ apply respects_ret
    | apply respects_atomically; intros ? Hc; unfold associate, complete, enqueue in *; repeat case_match; simplify_eq/=; first [done|congruence]
    | apply respects_select; intros ? ? ? Hin Hc; cbv zeta in Hin; unfold ready in Hin;
      repeat case_match; first [by apply elem_of_nil in Hin|apply list_elem_of_singleton in Hin; simplify_eq/=; first [done|congruence]]
    | apply respects_bind; [|intros ?]
    | match goal with |- respects _ (match ?x with _ => _ end) => destruct x end ].
Lemma post_wakes_grows n refused : respects io_closed_grows (post_wakes n refused).
Proof.
  revert refused. induction n as [|n IH]; intros refused; cbn [post_wakes]; [io_grows|].
  apply respects_bind; [unfold post_wake, syscall; io_grows|done].
Qed.
Lemma iocp_client_grows ops : respects io_closed_grows (iocp_client ops).
Proof.
  induction ops as [|o ops IH]; [apply respects_ret|]. apply respects_bind; [|done].
  destruct o as [handle key refused|c refused|timeout fails|closeErr wakeErrs|handle bytes overlapped status]; unfold iocp_op_prog.
  - unfold Associate, guarded, rlock, runlock, load_closed, syscall. io_grows.
  - unfold Post, post, guarded, rlock, runlock, load_closed, syscall. io_grows.
  - unfold Get, keep, dequeue, guarded, rlock, runlock, load_closed. io_grows.
  - unfold Close, lock, unlock, syscall. repeat first [apply post_wakes_grows|progress io_grows].
  - io_grows.
Qed.

(** ** Every interleaving *)
Section reachable.
Context (handle : Z) (opss : list (list iocp_op)).
Definition waits_at (i : nat) : bool := match opss !! i with Some ops => existsb waits ops | None => false end.
Lemma iocp_ok c : rtc pstep (iocp_pool handle opss) c -> pool_ok_at io_inv (fun i => io_blk (waits_at i)) io_fin c.
Proof.
  intros Hr. eapply (wp_adequate_at _ _ _ _ _ (replicate (length opss) gnil)); [| |exact Hr].
  - rewrite gsum_nil by by apply Forall_replicate. split; cbn; try done; try lia.
  - unfold iocp_pool. cbn [snd]. split; [by rewrite length_fmap, length_replicate|]. intros i t m Ht Hm.
    apply list_lookup_fmap_Some in Ht as (ops & -> & Hi). apply lookup_replicate in Hm as [-> _].
    apply wp_iocp_client. unfold waits_at. by rewrite Hi.
Qed.

Section stopped.
Context (p : Port) (ms : list ioShare).
Hypothesis HI : io_inv p (gsum ms).
Hypothesis Hms : forall m, m ∈ ms -> io_fin m \/ exists w, io_blk w p m.
Lemma all_posted : g_c (gsum ms) = Nobody \/ g_c (gsum ms) = Owner (Some 0%nat).
Proof.
  destruct (g_c (gsum ms)) as [|c|] eqn:E; [by left| |by pose proof (ii_closer _ _ HI) as Hc; rewrite E in Hc].
  right. destruct (sum_excl g_c ms c) as (m & Hm & Em); [done..|].
  destruct (Hms m Hm) as [->|(w & [?|?] & _)]; [by cbn in Em|congruence..].
Qed.
(** With every wake packet posted, no [Get] is left in the kernel of a closed port. *)
Hypothesis none_lost : io_lost p = 0%nat.
Lemma kernel_open_io m : m ∈ ms -> (0 < g_k m)%nat -> io_queue p = [] -> io_closed p = false.
Proof.
  intros Hm Hk Eq. destruct (io_closed p) eqn:Ec; [|done].
  assert (g_k (gsum ms) <= 0)%nat as Hle.
  { pose proof (ii_woken _ _ HI Ec) as Hw. rewrite Eq, none_lost in Hw. change (wakes []) with 0%nat in Hw.
    destruct all_posted as [E|E]; rewrite E in Hw; apply Hw; done. }
  destruct (gsum_elem _ _ Hm) as [F EF]. rewrite EF in Hle. change (g_k (m ∙ F)) with (g_k m + g_k F)%nat in Hle. lia.
Qed.
Lemma no_readers_io : io_closed p = true -> io_readers p = 0.
Proof.
  intros Hc. destruct (decide (io_readers p = 0)) as [|Hne]; [done|]. rewrite (ii_readers _ _ HI) in Hne.
  assert (forall a b : ioShare, g_r (a ∙ b) + g_a (a ∙ b) = g_r a + g_a a + (g_r b + g_a b))%nat as Hop.
  { intros a b. change (g_r a + g_r b + (g_a a + g_a b) = g_r a + g_a a + (g_r b + g_a b))%nat. lia. }
  destruct (sum_owner (fun m => g_r m + g_a m)%nat Hop eq_refl ms) as (m & Hm & Hp); [lia|].
  destruct (Hms m Hm) as [->|(w & _ & [(_ & ? & _)|[(_ & _ & ?)|(_ & Eq & _ & Hk)]])]; try (cbn in Hp; lia).
  by rewrite (kernel_open_io m Hm Hk Eq) in Hc.
Qed.
Lemma no_writer_io : io_writer p = false.
Proof.
  destruct (io_writer p) eqn:Ew; [|done]. pose proof (ii_writer _ _ HI) as Hw. rewrite Ew in Hw.
  destruct (g_w (gsum ms)) as [|b|] eqn:E; [done| |done]. destruct (sum_excl g_w ms b) as (m & Hm & Em); [done..|].
  destruct (Hms m Hm) as [->|(w & _ & [(_ & _ & ?)|[(Hne & Hc & _)|(_ & _ & ? & _)]])]; try congruence; try done.
  by rewrite no_readers_io in Hne.
Qed.
Lemma rest_blocked_io w m : m ∈ ms -> io_blk w p m -> io_closed p = false /\ io_queue p = [] /\ w = true.
Proof.
  intros Hm [_ [(? & _)|[(Hne & Hc & _)|(Hw & Eq & _ & Hk)]]].
  - by rewrite no_writer_io in *.
  - by rewrite no_readers_io in Hne.
  - split_and!; [by eapply kernel_open_io|done..].
Qed.
End stopped.
Lemma iocp_rest c :
  rtc pstep (iocp_pool handle opss) c -> ~ can_step c -> io_lost c.1 = 0%nat ->
  forall i t, c.2 !! i = Some t -> t = Ret tt \/ (io_closed c.1 = false /\ io_queue c.1 = [] /\ waits_at i = true).
Proof.
  intros Hok%iocp_ok Hst Hlost. destruct (pool_ok_at_blocked _ _ _ _ Hok Hst) as (ms & HI & Hlen & Hall). destruct c as [p ts].
  cbn [fst snd] in *. intros i t Ht.
  assert (forall m, m ∈ ms -> io_fin m \/ exists w, io_blk w p m) as Hms.
  { intros m [j Hj]%list_elem_of_lookup. destruct (lookup_lt_is_Some_2 ts j) as [u Hu]; [rewrite Hlen; by eapply lookup_lt_Some|].
    destruct (Hall j u m Hu Hj) as [[_ ?]|?]; eauto. }
  destruct (lookup_lt_is_Some_2 ms i) as [m Hm]; [rewrite <- Hlen; by eapply lookup_lt_Some|].
  destruct (Hall i t m Ht Hm) as [[? _]|Hb]; [by left|]. right.
  exact (rest_blocked_io p ms HI Hms Hlost _ m (list_elem_of_lookup_2 _ _ _ Hm) Hb).
Qed.

(** C27. However [Associate], [Post], [Get], [Close] and the operations of associated
    handles interleave: no system call is made on the closed handle, packets are dequeued
    in the order they were queued, none twice and none lost, no caller is given the
    internal wake packet, and no completion without failure is returned twice; once all
    calls have returned, each such completion that was dequeued has been returned. *)
Theorem iocp_safe c :
  rtc pstep (iocp_pool handle opss) c ->
  ~ panics c /\ io_stale c.1 = false /\
  io_posted c.1 = io_taken c.1 ++ users (io_queue c.1) /\
  Forall (fun comp => cp_Key comp <> reservedKey) (io_results c.1) /\
  list_to_set_disj (io_results c.1) ⊆ completions (io_taken c.1) /\
  (finished c -> list_to_set_disj (io_results c.1) = completions (io_taken c.1)).
Proof.
  intros Hok%iocp_ok. pose proof (pool_ok_at_any _ _ _ _ Hok) as Hany. split; [by eapply pool_ok_no_panic|].
  destruct Hany as (ms & Hts & HI). assert (list_to_set_disj (io_results c.1) ⊆ completions (io_taken c.1)) as Hsub.
  { rewrite (ii_results _ _ HI). apply gmultiset_disj_union_subseteq_l. }
  split_and!; [apply (ii_fresh _ _ HI)|apply (ii_fifo _ _ HI)| |done|].
  - apply Forall_forall. intros comp Hin. assert (comp ∈ completions (io_taken c.1)) as Hc.
    { eapply gmultiset_elem_of_subseteq; [|exact Hsub]. apply elem_of_list_to_set_disj. by apply list_elem_of_In. }
    unfold completions in Hc. apply elem_of_list_to_set_disj, list_elem_of_omap in Hc as ([comp' st] & Htk & E).
    cbn in E. destruct st; [done|]. injection E as ->. pose proof (ii_posted _ _ HI) as Hp. rewrite (ii_fifo _ _ HI) in Hp.
    apply Forall_app in Hp as [Hp _]. rewrite Forall_forall in Hp. apply (Hp _ (proj1 (list_elem_of_In _ _) Htk)).
  - intros Hf. destruct (pool_ok_finished _ _ _ c (ex_intro _ ms (conj Hts HI)) Hf) as (ms' & Hfin & HI').
    rewrite (ii_results _ _ HI'), (gsum_nil ms') by done. cbn. symmetry. apply (right_id_L ∅ (⊎)).
Qed.
Lemma iocp_lost_closed c : rtc pstep (iocp_pool handle opss) c -> (0 < io_lost c.1)%nat -> io_closed c.1 = true.
Proof. intros Hok%iocp_ok. destruct (pool_ok_at_any _ _ _ _ Hok) as (ms & _ & HI). apply (ii_lost _ _ HI). Qed.
(** C28. Once [Close] is called by a goroutine that does not itself wait without a timeout, every
    schedule ends with the port closed; and everybody has returned by then, whatever number of
    [Get] calls waits in the kernel, unless the kernel has refused one of the wake packets. *)
Theorem iocp_closes :
  existsb (fun ops => existsb (fun o => match o with IClose _ _ => true | _ => false end) ops && negb (existsb waits ops)) opss = true ->
  inevitable (fun c => io_closed c.1 = true /\ (finished c \/ (0 < io_lost c.1)%nat)) (iocp_pool handle opss).
Proof.
  intros (ops & [i Hi]%list_elem_of_In%list_elem_of_lookup & [Hc Hw]%andb_prop)%existsb_exists.
  apply inevitable_end. intros c Hr Hst. destruct (decide (io_lost c.1 = 0%nat)) as [Hl|Hl].
  2:{ split; [apply iocp_lost_closed; [done|lia]|right; lia]. }
  pose proof (iocp_rest c Hr Hst Hl) as Hend.
  assert (io_closed c.1 = true) as Ec.
  { destruct (ensures_pool (fun p => io_closed p = true) (iocp_pool handle opss) c i (iocp_client ops)) as [?|(q & Hq & He)]; [|done| | |done|].
    - apply Forall_fmap, Forall_true. intros os. apply iocp_client_grows.
    - unfold iocp_pool. cbn. by rewrite list_lookup_fmap, Hi.
    - clear Hw Hi. induction ops as [|o ops IH]; [done|]. apply orb_prop in Hc as [Ho|Ho]; [|by apply ensures_later; auto].
      apply ensures_then. destruct o; try discriminate Ho. apply ensures_then, ensures_then, ensures_atomically.
      intros p. by destruct (io_closed p) eqn:E.
    - destruct (Hend i q Hq) as [->|(_ & _ & Hat)]; [done|]. unfold waits_at in Hat. rewrite Hi in Hat. by rewrite Hat in Hw. }
  split; [done|]. left. apply Forall_lookup_2. intros j t Ht. destruct (Hend j t Ht) as [?|(? & _)]; [done|congruence].
Qed.
End reachable.

(** ** A port that is closed while two [Get] calls wait *)
Definition demo_completion : Completion := {| cp_Bytes := 42; cp_Key := 7; cp_Overlapped := None |}.
Definition demo_iocp_ops : list (list iocp_op) :=
  [[IGet (-1) None; IGet (-1) None]; [IGet (-1) None]; [IAssociate 5 9 None; IPost demo_completion None; IClose None []]; [IComplete 5 10 77 None]].
Definition demo_iocp_end : pool Port := reached (iocp_pool 3 demo_iocp_ops) (in_turn 2 8 ++ mjoin (replicate 4 (in_turn 4 20))).
Lemma iocp_safe_witness :
  io_results demo_iocp_end.1 = [demo_completion] /\ completions (io_taken demo_iocp_end.1) = list_to_set_disj [demo_completion].
Proof.
  destruct (iocp_safe 3 demo_iocp_ops demo_iocp_end (reached_steps _ _)) as (_ & _ & _ & _ & _ & Hf).
  assert (io_results demo_iocp_end.1 = [demo_completion]) as E by (vm_compute; reflexivity).
  split; [exact E|]. rewrite <- E. symmetry. apply Hf, all_returned. vm_compute. reflexivity.
Defined.
Lemma iocp_closes_witness :
  inevitable (fun c => io_closed c.1 = true /\ (finished c \/ (0 < io_lost c.1)%nat)) (iocp_pool 3 demo_iocp_ops).
Proof. apply (iocp_closes 3 demo_iocp_ops). vm_compute. reflexivity. Defined.
(** The exception is real: a refused wake packet leaves [Get] in the kernel and [Close] at the lock. *)
Example iocp_wake_refused :
  let c := reached (iocp_pool 3 [[IGet (-1) None]; [IClose None [Some 1450]]]) (in_turn 2 8 ++ in_turn 2 40) in
  pool_blocked c = true /\ io_closed c.1 = true /\ io_open c.1 = true /\ io_lost c.1 = 1%nat.
Proof. vm_compute. done. Qed.
