(* ===== verification/ClientErrors.v ===== *)
(** * ClientErrors: errors of the HTTP and QUIC clients

    Models quic/errors.go, the error types of client/http3.go and
    client/facade_fallback.go, and the classification that decides whether a request may
    be tried again with another protocol.

    As in Errors.v a non-nil [error] is a tree whose leaves are sentinels or values of
    foreign types; the two clients share no error with the transport package, so the tree
    is one of its own.  The types of crypto/tls, crypto/x509, net and quic-go that the code
    looks for are constructors of [foreign_type]; what such a value answers to [Timeout()]
    (as a [net.Error]) and which sentinels its own [Is] matches are part of the value. *)
From S2P Require Import Prelude.
Local Open Scope go_scope.
Local Open Scope string_scope.
Local Open Scope list_scope.
Local Open Scope Z_scope.

Inductive HTTPProtocol := HTTP1 | HTTP2 | HTTP3 | OtherProtocol (n : Z).
#[global] Instance HTTPProtocol_eq_dec : EqDecision HTTPProtocol.
Proof. solve_decision. Defined.
Definition HTTPProtocol_String (p : HTTPProtocol) : string :=
  match p with HTTP1 => "http/1.1" | HTTP2 => "h2" | HTTP3 => "h3" | OtherProtocol _ => "unknown" end.

(** ** Error values *)
Inductive sentinel :=
  (* client/facade.go, client/facade_http2.go *)
  | ErrInvalidHTTPClientConfig | ErrHTTPClientTransportClosed | ErrNoApplicableHTTPProtocol | errHTTPProtocolUnavailable
  (* client/http.go, client/http3.go *)
  | ErrInvalidHTTPConfig | ErrInvalidHTTPProtocol | ErrHTTPSTLSVersion
  | ErrInvalidHTTP3Config | ErrHTTP3TLSVersion | ErrHTTP3TransportClosed
  (* internal/quicpolicy, quic *)
  | ErrALPNRequired | ErrInvalidTimeout | ErrTLSVersion | ErrNilContext | ErrEmptyAddress
  | ErrCanceled | ErrTimeout | ErrClosed | ErrProtocol | ErrResourceExhausted | ErrMessageTooLarge | ErrDatagramsDisabled
  (* standard library and quic-go *)
  | ContextCanceled | ContextDeadlineExceeded | IoEOF | IoErrUnexpectedEOF | NetErrClosed
  | Http3ErrTransportClosed | QuicgoErrTransportClosed.
#[global] Instance sentinel_eq_dec : EqDecision sentinel.
Proof. solve_decision. Defined.

Inductive foreign_type :=
  | AlertError (alert : Z) | UnknownAuthorityError | HostnameError | CertificateInvalidError   (* crypto/tls, crypto/x509 *)
  | DNSError | NetOpError (op : string)   (* net *)
  | H3Error   (* http3.Error *)
  | TransportError | ApplicationError | StatelessResetError | VersionNegotiationError | IdleTimeoutError
  | HandshakeTimeoutError | StreamError | StreamLimitReachedError | DatagramTooLargeError   (* quic-go *)
  | OtherType.
#[global] Instance foreign_type_eq_dec : EqDecision foreign_type.
Proof. solve_decision. Defined.
Record foreign := { fr_type : foreign_type; fr_timeout : option bool; fr_is : list sentinel }.

Inductive QuicOp := OpDial | OpOpenStream | OpAcceptStream | OpReadStream | OpWriteStream | OpCloseStream | OpSendDatagram
  | OpReceiveDatagram | OpClose.
Inductive QuicErrorKind := ErrorUnknown | ErrorCanceled | ErrorTimeout | ErrorClosed | ErrorProtocol | ErrorResourceExhausted
  | ErrorMessageTooLarge.
#[global] Instance QuicErrorKind_eq_dec : EqDecision QuicErrorKind.
Proof. solve_decision. Defined.
Definition QuicErrorKind_String (k : QuicErrorKind) : string :=
  match k with
  | ErrorCanceled => "canceled" | ErrorTimeout => "timeout" | ErrorClosed => "closed" | ErrorProtocol => "protocol"
  | ErrorResourceExhausted => "resource_exhausted" | ErrorMessageTooLarge => "message_too_large" | ErrorUnknown => "unknown"
  end.
Inductive HTTP3ErrorKind := HTTP3ErrorUnknown | HTTP3ErrorTransport | HTTP3ErrorProtocol | HTTP3ErrorClosed.
#[global] Instance HTTP3ErrorKind_eq_dec : EqDecision HTTP3ErrorKind.
Proof. solve_decision. Defined.

Inductive error :=
  | Sentinel (s : sentinel)
  | New (text : string)                             (* errors.New("...") *)
  | Errorf (text : string) (wrapped : error)        (* fmt.Errorf("...%w", wrapped) *)
  | Join (es : list error)                          (* errors.Join, nils dropped *)
  | HTTP3Error (kind : HTTP3ErrorKind) (cause : option error)
  | HTTPFallbackError (attempts : list (HTTPProtocol * option error))
  | QuicError (op : QuicOp) (kind : QuicErrorKind) (cause : option error)
  | Foreign (f : foreign) (wrapped : list error).
Coercion Sentinel : sentinel >-> error.
Abbreviation result A := (A + error)%type.

(** The tree in the order in which [errors.Is] and [errors.As] visit it. *)
Fixpoint nodes (e : error) : list error :=
  e :: match e with
       | Sentinel _ | New _ => []
       | Errorf _ c => nodes c
       | Join es => flat_map nodes es
       | HTTP3Error _ c => match c with Some c => nodes c | None => [] end
       | HTTPFallbackError attempts => flat_map (fun a => match a with (_, Some c) => nodes c | (_, None) => [] end) attempts
       | QuicError _ _ c => match c with Some c => nodes c | None => [] end
       | Foreign _ es => flat_map nodes es
       end.

(** [Error.Is] of the quic package. *)
Definition kind_is (kind : QuicErrorKind) (target : sentinel) : bool :=
  match target with
  | ErrCanceled => bool_decide (kind = ErrorCanceled)
  | ErrTimeout => bool_decide (kind = ErrorTimeout)
  | ErrClosed => bool_decide (kind = ErrorClosed)
  | ErrProtocol => bool_decide (kind = ErrorProtocol)
  | ErrResourceExhausted => bool_decide (kind = ErrorResourceExhausted)
  | ErrMessageTooLarge => bool_decide (kind = ErrorMessageTooLarge)
  | _ => false
  end.
Definition node_is (t : sentinel) (e : error) : bool :=
  match e with
  | Sentinel s => bool_decide (s = t)
  | QuicError _ kind _ => kind_is kind t
  | Foreign f _ => bool_decide (t ∈ fr_is f)
  | _ => false
  end.
Definition errors_Is (e : error) (t : sentinel) : bool := existsb (node_is t) (nodes e).
Definition errors_As (P : error -> bool) (e : error) : option error := List.find P (nodes e).
Definition has_type (P : foreign_type -> bool) (e : error) : bool :=
  match e with Foreign f _ => P (fr_type f) | _ => false end.
(** [errors.As] with a target of a foreign type. *)
Definition As_type (t : foreign_type) (e : error) : bool := existsb (has_type (fun u => bool_decide (u = t))) (nodes e).
(** The method sets decide which values are a [net.Error]: it needs [Timeout] and
    [Temporary].  [*Error] of the quic package has only the first. *)
Definition net_error (e : error) : option bool :=
  match e with
  | Sentinel ContextDeadlineExceeded => Some true
  | Foreign f _ => fr_timeout f
  | _ => None
  end.
(** [errors.As(err, &netErr) && netErr.Timeout()]. *)
Definition net_timeout (e : error) : bool :=
  match errors_As (fun n => match net_error n with Some _ => true | None => false end) e with
  | Some n => match net_error n with Some b => b | None => false end
  | None => false
  end.

(** ** quic/errors.go *)
Definition classifyError (err : option error) : QuicErrorKind :=
  match err with
  | None => ErrorUnknown
  | Some err =>
      if errors_Is err ContextDeadlineExceeded then ErrorTimeout
      else if errors_Is err ContextCanceled then ErrorCanceled
      else if As_type IdleTimeoutError err then ErrorTimeout
      else if As_type HandshakeTimeoutError err then ErrorTimeout
      else if As_type DatagramTooLargeError err then ErrorMessageTooLarge
      else if As_type StreamLimitReachedError err then ErrorResourceExhausted
      else if As_type TransportError err then ErrorProtocol
      else if As_type VersionNegotiationError err then ErrorProtocol
      else if As_type ApplicationError err then ErrorClosed
      else if As_type StreamError err then ErrorClosed
      else if As_type StatelessResetError err then ErrorClosed
      else if net_timeout err then ErrorTimeout
      else if errors_Is err NetErrClosed then ErrorClosed
      else ErrorUnknown
  end.
Definition wrapError (op : QuicOp) (err : option error) : option error :=
  match err with
  | None => None
  | Some e => Some (QuicError op (classifyError err) (Some e))
  end.
(** [Error.Timeout]. *)
Definition Timeout (e : error) : bool := match e with QuicError _ kind _ => bool_decide (kind = ErrorTimeout) | _ => false end.

(** ** client/http3.go *)
Definition mapHTTP3Error (err : option error) : option error :=
  match err with
  | None => None
  | Some e =>
      if errors_Is e ContextCanceled || errors_Is e ContextDeadlineExceeded then Some e
      else if errors_Is e Http3ErrTransportClosed || errors_Is e QuicgoErrTransportClosed || errors_Is e ErrHTTP3TransportClosed
      then Some (HTTP3Error HTTP3ErrorClosed (Some (Join [Sentinel ErrHTTP3TransportClosed; e])))
      else if As_type H3Error e then Some (HTTP3Error HTTP3ErrorProtocol (Some e))
      else if As_type TransportError e || As_type ApplicationError e || As_type StatelessResetError e
              || As_type VersionNegotiationError e || As_type IdleTimeoutError e || As_type HandshakeTimeoutError e
      then Some (HTTP3Error HTTP3ErrorTransport (Some e))
      else Some e
  end.

(** ** client/facade_fallback.go *)
Definition newHTTPFallbackError (attempts : list (HTTPProtocol * error)) : error :=
  HTTPFallbackError (map (fun a => (a.1, Some a.2)) attempts).
Inductive fallbackClass := fallbackNever | fallbackPreRequest | fallbackAmbiguousAfterSend.
#[global] Instance fallbackClass_eq_dec : EqDecision fallbackClass.
Proof. solve_decision. Defined.
Definition tlsAlertNoApplicationProtocol : Z := 120.

Definition as_alert (e : error) : option Z :=
  match errors_As (has_type (fun t => match t with AlertError _ => true | _ => false end)) e with
  | Some (Foreign {| fr_type := AlertError a |} _) => Some a
  | _ => None
  end.
Definition as_HTTP3Error (e : error) : option HTTP3ErrorKind :=
  match errors_As (fun n => match n with HTTP3Error _ _ => true | _ => false end) e with
  | Some (HTTP3Error kind _) => Some kind
  | _ => None
  end.
Definition as_OpError (e : error) : option string :=
  match errors_As (has_type (fun t => match t with NetOpError _ => true | _ => false end)) e with
  | Some (Foreign {| fr_type := NetOpError op |} _) => Some op
  | _ => None
  end.
Definition classify_h3 (e : error) (kind : HTTP3ErrorKind) : fallbackClass :=
  if bool_decide (kind = HTTP3ErrorProtocol) || bool_decide (kind = HTTP3ErrorClosed) then fallbackNever
  else if As_type ApplicationError e then fallbackNever
  else if As_type VersionNegotiationError e || As_type HandshakeTimeoutError e then fallbackPreRequest
  else if As_type TransportError e then fallbackNever
  else if As_type StatelessResetError e || As_type IdleTimeoutError e || As_type StreamError e then fallbackAmbiguousAfterSend
  else fallbackNever.
Definition classify_tail (e : error) : fallbackClass :=
  if errors_Is e IoEOF || errors_Is e IoErrUnexpectedEOF || errors_Is e NetErrClosed then fallbackAmbiguousAfterSend
  else if net_timeout e then fallbackNever
  else fallbackNever.
Definition classifyFallback (err : option error) : fallbackClass :=
  match err with
  | None => fallbackNever
  | Some e =>
      if errors_Is e ContextCanceled || errors_Is e ContextDeadlineExceeded then fallbackNever
      else if errors_Is e ErrHTTPClientTransportClosed || errors_Is e ErrHTTP3TransportClosed then fallbackNever
      else if errors_Is e errHTTPProtocolUnavailable then fallbackPreRequest
      else if As_type UnknownAuthorityError e || As_type HostnameError e || As_type CertificateInvalidError e then fallbackNever
      else
        match as_alert e with
        | Some alert => if alert =? tlsAlertNoApplicationProtocol then fallbackPreRequest else fallbackNever
        | None =>
            match as_HTTP3Error e with
            | Some kind => classify_h3 e kind
            | None =>
                if As_type DNSError e then fallbackPreRequest
                else
                  match as_OpError e with
                  | Some op =>
                      if String.eqb op "dial" then fallbackPreRequest
                      else if String.eqb op "read" || String.eqb op "write" then fallbackAmbiguousAfterSend
                      else classify_tail e
                  | None => classify_tail e
                  end
            end
        end
  end.

(** ** What wrapping keeps *)
Lemma errors_Is_nodes e e' t : (forall n, n ∈ nodes e -> n ∈ nodes e') -> errors_Is e t = true -> errors_Is e' t = true.
Proof.
  intros Hsub (n & Hin%list_elem_of_In & Hn)%existsb_exists. apply existsb_exists. exists n. split; [|done].
  by apply list_elem_of_In, Hsub.
Qed.
Lemma As_type_nodes e e' t : (forall n, n ∈ nodes e -> n ∈ nodes e') -> As_type t e = true -> As_type t e' = true.
Proof.
  intros Hsub (n & Hin%list_elem_of_In & Hn)%existsb_exists. apply existsb_exists. exists n. split; [|done].
  by apply list_elem_of_In, Hsub.
Qed.

(** The kind of an error is justified by what it wraps. *)
Definition justified (kind : QuicErrorKind) (e : error) : bool :=
  match kind with
  | ErrorTimeout => errors_Is e ContextDeadlineExceeded || As_type IdleTimeoutError e || As_type HandshakeTimeoutError e || net_timeout e
  | ErrorCanceled => errors_Is e ContextCanceled
  | ErrorMessageTooLarge => As_type DatagramTooLargeError e
  | ErrorResourceExhausted => As_type StreamLimitReachedError e
  | ErrorProtocol => As_type TransportError e || As_type VersionNegotiationError e
  | ErrorClosed => As_type ApplicationError e || As_type StreamError e || As_type StatelessResetError e || errors_Is e NetErrClosed
  | ErrorUnknown => true
  end.
Lemma classify_justified e : justified (classifyError (Some e)) e = true.
Proof.
  unfold classifyError. repeat (match goal with |- context [if ?b then _ else _] => destruct b eqn:? end);
    unfold justified; rewrite ?orb_true_iff; tauto.
Qed.
(** [classifyError] gives a kind its cause justifies, and gives up only on an error
    that justifies none. *)
Theorem quic_classify_sound e :
  justified (classifyError (Some e)) e = true /\
  (classifyError (Some e) = ErrorUnknown ->
   forall kind, kind <> ErrorUnknown -> justified kind e = false).
Proof.
  split; [apply classify_justified|].
  unfold classifyError. repeat (match goal with |- context [if ?b then _ else _] => destruct b eqn:? end); try done.
  intros _ [] Hk; try done; unfold justified; rewrite ?orb_false_iff; done.
Qed.

(** [mapHTTP3Error] leaves a cancelled or expired context alone, turns a closed
    transport into [ErrHTTP3TransportClosed], and otherwise only adds a classification:
    whatever the error of the dependency matched, the result matches. *)
Theorem mapHTTP3Error_keeps e :
  exists e', mapHTTP3Error (Some e) = Some e' /\
    (forall t, errors_Is e t = true -> errors_Is e' t = true) /\
    (forall t, As_type t e = true -> As_type t e' = true) /\
    (errors_Is e ContextCanceled || errors_Is e ContextDeadlineExceeded = true -> e' = e) /\
    (forall t, errors_Is e' t = true -> errors_Is e t = true \/
       (t = ErrHTTP3TransportClosed /\ (errors_Is e Http3ErrTransportClosed = true \/ errors_Is e QuicgoErrTransportClosed = true))).
Proof.
  unfold mapHTTP3Error.
  destruct (errors_Is e ContextCanceled || errors_Is e ContextDeadlineExceeded); [exists e; split_and!; auto|].
  destruct (errors_Is e Http3ErrTransportClosed || errors_Is e QuicgoErrTransportClosed || errors_Is e ErrHTTP3TransportClosed) eqn:Ec.
  { eexists. split; [done|].
    set (e' := HTTP3Error _ _). assert (forall n, n ∈ nodes e -> n ∈ nodes e') as Hsub.
    { intros n Hn. unfold e'. cbn. rewrite app_nil_r. right. right. by right. }
    split; [intros t; by apply errors_Is_nodes|]. split; [intros t; by apply As_type_nodes|]. split; [done|].
    intros t Ht. assert (errors_Is e' t = bool_decide (ErrHTTP3TransportClosed = t) || errors_Is e t) as Hi.
    { unfold e', errors_Is. cbn [nodes flat_map]. by rewrite app_nil_r. }
    rewrite Hi in Ht. apply orb_prop in Ht as [Ht|Ht]; [|by left]. apply bool_decide_eq_true in Ht as <-.
    apply orb_prop in Ec as [[?|?]%orb_prop|?]; auto. }
  assert (forall kind, let e' := HTTP3Error kind (Some e) in
    (forall t, errors_Is e t = true -> errors_Is e' t = true) /\ (forall t, As_type t e = true -> As_type t e' = true) /\
    (false = true -> e' = e) /\
    (forall t, errors_Is e' t = true -> errors_Is e t = true \/
       (t = ErrHTTP3TransportClosed /\ (errors_Is e Http3ErrTransportClosed = true \/ errors_Is e QuicgoErrTransportClosed = true)))) as Hwrap.
  { intros kind e'. assert (forall n, n ∈ nodes e -> n ∈ nodes e') as Hsub by (intros n Hn; by right).
    split; [intros t; by apply errors_Is_nodes|]. split; [intros t; by apply As_type_nodes|]. split; [done|]. by left. }
  destruct (As_type H3Error e); [eexists; split; [done|apply Hwrap]|].
  destruct (_ || As_type HandshakeTimeoutError e); [eexists; split; [done|apply Hwrap]|]. exists e. split_and!; auto.
Qed.

(** What forbids another attempt, and what allows one. *)
Definition forbids (e : error) : bool :=
  errors_Is e ContextCanceled || errors_Is e ContextDeadlineExceeded
  || errors_Is e ErrHTTPClientTransportClosed || errors_Is e ErrHTTP3TransportClosed
  || negb (errors_Is e errHTTPProtocolUnavailable) &&
     (As_type UnknownAuthorityError e || As_type HostnameError e || As_type CertificateInvalidError e).
Definition before_request (e : error) : bool :=
  errors_Is e errHTTPProtocolUnavailable || bool_decide (as_alert e = Some tlsAlertNoApplicationProtocol)
  || As_type VersionNegotiationError e || As_type HandshakeTimeoutError e || As_type DNSError e
  || bool_decide (as_OpError e = Some "dial").
Definition connection_lost (e : error) : bool :=
  As_type StatelessResetError e || As_type IdleTimeoutError e || As_type StreamError e
  || bool_decide (as_OpError e = Some "read") || bool_decide (as_OpError e = Some "write")
  || errors_Is e IoEOF || errors_Is e IoErrUnexpectedEOF || errors_Is e NetErrClosed.
(** A TLS alert other than no_application_protocol, a protocol or closed HTTP/3 error, an
    application error or a transport error of QUIC (without an alert): terminal. *)
Definition rejected (e : error) : bool :=
  match as_alert e with
  | Some alert => negb (alert =? tlsAlertNoApplicationProtocol)
  | None =>
      match as_HTTP3Error e with
      | Some kind =>
          bool_decide (kind = HTTP3ErrorProtocol) || bool_decide (kind = HTTP3ErrorClosed) || As_type ApplicationError e
          || negb (As_type VersionNegotiationError e || As_type HandshakeTimeoutError e) && As_type TransportError e
      | None => false
      end
  end.
(** C40. The decision to fall back is conservative: a cancelled request, a closed
    transport, a certificate that does not verify and a rejection by the peer are final;
    another attempt is made only on evidence that the request was not sent or that the
    connection was lost. *)
Theorem fallback_sound e :
  (forbids e = true -> classifyFallback (Some e) = fallbackNever) /\
  (rejected e = true -> errors_Is e errHTTPProtocolUnavailable = false -> classifyFallback (Some e) = fallbackNever) /\
  match classifyFallback (Some e) with
  | fallbackPreRequest => before_request e = true
  | fallbackAmbiguousAfterSend => connection_lost e = true
  | fallbackNever => True
  end.
Proof.
  unfold forbids, rejected, before_request, connection_lost, classifyFallback, classify_h3, classify_tail.
  destruct (errors_Is e ContextCanceled || errors_Is e ContextDeadlineExceeded) eqn:E1; [done|].
  destruct (errors_Is e ErrHTTPClientTransportClosed), (errors_Is e ErrHTTP3TransportClosed); try done.
  clear E1. cbn [orb negb andb].
  destruct (errors_Is e errHTTPProtocolUnavailable); [done|]. cbn [orb negb andb].
  destruct (As_type UnknownAuthorityError e || As_type HostnameError e || As_type CertificateInvalidError e); [done|].
  split; [done|]. destruct (as_alert e) as [alert|]; cbn [orb].
  { destruct (alert =? tlsAlertNoApplicationProtocol) eqn:Ea; [|done]. apply Z.eqb_eq in Ea as ->. by rewrite bool_decide_true. }
  rewrite bool_decide_false by done. cbn [orb]. destruct (as_HTTP3Error e) as [kind|].
  - destruct (bool_decide (kind = HTTP3ErrorProtocol) || bool_decide (kind = HTTP3ErrorClosed)) eqn:Ek; [done|]. cbn [orb].
    destruct (As_type ApplicationError e); [done|]. cbn [orb].
    destruct (As_type VersionNegotiationError e || As_type HandshakeTimeoutError e) eqn:Ev; [split; [done|]; rewrite !orb_true_iff in *; tauto|]. cbn [negb andb].
    destruct (As_type TransportError e); [done|]. split; [done|].
    destruct (As_type StatelessResetError e || As_type IdleTimeoutError e || As_type StreamError e) eqn:El; [|done].
    rewrite !orb_true_iff in *. tauto.
  - split; [done|]. destruct (As_type DNSError e); [by rewrite !orb_true_r|].
    destruct (as_OpError e) as [op|].
    + destruct (String.eqb op "dial") eqn:Ed; [apply String.eqb_eq in Ed as ->; by rewrite !orb_true_r|].
      destruct (String.eqb op "read" || String.eqb op "write") eqn:Er.
      * apply orb_prop in Er as [Er|Er]; apply String.eqb_eq in Er as ->; by rewrite ?orb_true_r.
      * destruct (errors_Is e IoEOF || errors_Is e IoErrUnexpectedEOF || errors_Is e NetErrClosed) eqn:Et;
          [rewrite !orb_true_iff in *; tauto|by destruct (net_timeout e)].
    + destruct (errors_Is e IoEOF || errors_Is e IoErrUnexpectedEOF || errors_Is e NetErrClosed) eqn:Et;
        [rewrite !orb_true_iff in *; tauto|by destruct (net_timeout e)].
Qed.
