(* ===== verification/HttpConfig.v ===== *)
(** * HttpConfig: configuration of the HTTP and QUIC clients

    Models client/http.go, client/protocols_go124.go, client/facade_http2.go,
    internal/quicpolicy/policy.go, quic/config.go, the configuration of client/http3.go and
    [validateHTTPClientConfig] of client/facade.go.

    Durations are int64 nanoseconds.  Of a [tls.Config] the fields the code reads or writes
    are modelled, [tc_rest] standing for the others; of an [http.Transport] the fields it
    sets. *)
From S2P Require Import Prelude ClientErrors.
Local Open Scope go_scope.
Local Open Scope string_scope.
Local Open Scope list_scope.
Local Open Scope Z_scope.

Definition Second : Z := 1000000000.
Definition VersionTLS13 : Z := 0x0304.
(** [tls.ConnectionState], and [tls.Config]. *)
Record connState := { cs_NegotiatedProtocol : string; cs_rest : Z }.
Record tlsConfig := {
  tc_MinVersion : Z; tc_MaxVersion : Z; tc_NextProtos : list string;
  tc_VerifyConnection : option (connState -> option error); tc_rest : Z }.
Definition empty_tls : tlsConfig :=
  {| tc_MinVersion := 0; tc_MaxVersion := 0; tc_NextProtos := []; tc_VerifyConnection := None; tc_rest := 0 |}.
Definition set_min (v : Z) (c : tlsConfig) : tlsConfig :=
  {| tc_MinVersion := v; tc_MaxVersion := tc_MaxVersion c; tc_NextProtos := tc_NextProtos c;
     tc_VerifyConnection := tc_VerifyConnection c; tc_rest := tc_rest c |}.
Definition set_protos (ps : list string) (c : tlsConfig) : tlsConfig :=
  {| tc_MinVersion := tc_MinVersion c; tc_MaxVersion := tc_MaxVersion c; tc_NextProtos := ps;
     tc_VerifyConnection := tc_VerifyConnection c; tc_rest := tc_rest c |}.
Definition set_verify (f : connState -> option error) (c : tlsConfig) : tlsConfig :=
  {| tc_MinVersion := tc_MinVersion c; tc_MaxVersion := tc_MaxVersion c; tc_NextProtos := tc_NextProtos c;
     tc_VerifyConnection := Some f; tc_rest := tc_rest c |}.

(** ** client/http.go *)
Definition defaultConnectTimeout : Z := 10 * Second.
Definition defaultTLSHandshakeTimeout : Z := 10 * Second.
Definition defaultResponseHeaderTimeout : Z := 30 * Second.
Definition defaultExpectContinueTimeout : Z := Second.
Definition defaultIdleConnTimeout : Z := 90 * Second.
Definition defaultKeepAlive : Z := 30 * Second.
Definition defaultMaxIdleConns : Z := 100.
Definition defaultMaxIdleConnsPerHost : Z := 16.
Definition defaultMaxConnsPerHost : Z := 64.
Definition defaultMaxResponseHeader : Z := Z.shiftl 1 20.

(** A [ProxyFunc] is known by its identity. *)
Record HTTPConfig := {
  hc_Protocols : list HTTPProtocol;
  hc_ConnectTimeout : Z; hc_TLSHandshakeTimeout : Z; hc_ResponseHeaderTimeout : Z; hc_ExpectContinueTimeout : Z;
  hc_IdleConnTimeout : Z; hc_KeepAlive : Z;
  hc_MaxIdleConns : Z; hc_MaxIdleConnsPerHost : Z; hc_MaxConnsPerHost : Z; hc_MaxResponseHeaderBytes : Z;
  hc_DisableCompression : bool; hc_TLSConfig : option tlsConfig; hc_Proxy : option Z }.
Definition set_http_protocols (ps : list HTTPProtocol) (c : HTTPConfig) : HTTPConfig :=
  {| hc_Protocols := ps; hc_ConnectTimeout := hc_ConnectTimeout c; hc_TLSHandshakeTimeout := hc_TLSHandshakeTimeout c;
     hc_ResponseHeaderTimeout := hc_ResponseHeaderTimeout c; hc_ExpectContinueTimeout := hc_ExpectContinueTimeout c;
     hc_IdleConnTimeout := hc_IdleConnTimeout c; hc_KeepAlive := hc_KeepAlive c; hc_MaxIdleConns := hc_MaxIdleConns c;
     hc_MaxIdleConnsPerHost := hc_MaxIdleConnsPerHost c; hc_MaxConnsPerHost := hc_MaxConnsPerHost c;
     hc_MaxResponseHeaderBytes := hc_MaxResponseHeaderBytes c; hc_DisableCompression := hc_DisableCompression c;
     hc_TLSConfig := hc_TLSConfig c; hc_Proxy := hc_Proxy c |}.

Definition durations (cfg : HTTPConfig) : list Z :=
  [hc_ConnectTimeout cfg; hc_TLSHandshakeTimeout cfg; hc_ResponseHeaderTimeout cfg; hc_ExpectContinueTimeout cfg;
   hc_IdleConnTimeout cfg; hc_KeepAlive cfg].
Definition validateNonNegativeDurations (cfg : HTTPConfig) : option error :=
  if existsb (fun d => d <? 0) (durations cfg) then Some (Sentinel ErrInvalidHTTPConfig) else None.
Fixpoint normalize_protocols_loop (ps seen out : list HTTPProtocol) : result (list HTTPProtocol) :=
  match ps with
  | [] => inl out
  | p :: ps =>
      match p with
      | HTTP1 | HTTP2 =>
          if bool_decide (p ∈ seen) then normalize_protocols_loop ps seen out
          else normalize_protocols_loop ps (p :: seen) (out ++ [p])
      | _ => inr (Errorf "protocol" ErrInvalidHTTPProtocol)
      end
  end.
Definition normalizeProtocols (ps : list HTTPProtocol) : result (list HTTPProtocol) :=
  match ps with [] => inl [HTTP1; HTTP2] | _ => normalize_protocols_loop ps [] [] end.
Definition or_default_to (dflt v : Z) : Z := if v =? 0 then dflt else v.
Definition normalizeHTTPConfig (cfg : HTTPConfig) : result HTTPConfig :=
  match validateNonNegativeDurations cfg with
  | Some e => inr e
  | None =>
      if (hc_MaxIdleConns cfg <? 0) || (hc_MaxIdleConnsPerHost cfg <? 0) || (hc_MaxConnsPerHost cfg <? 0)
         || (hc_MaxResponseHeaderBytes cfg <? 0)
      then inr (Sentinel ErrInvalidHTTPConfig)
      else
        match normalizeProtocols (hc_Protocols cfg) with
        | inr e => inr e
        | inl protocols =>
            inl {| hc_Protocols := protocols;
                   hc_ConnectTimeout := or_default_to defaultConnectTimeout (hc_ConnectTimeout cfg);
                   hc_TLSHandshakeTimeout := or_default_to defaultTLSHandshakeTimeout (hc_TLSHandshakeTimeout cfg);
                   hc_ResponseHeaderTimeout := or_default_to defaultResponseHeaderTimeout (hc_ResponseHeaderTimeout cfg);
                   hc_ExpectContinueTimeout := or_default_to defaultExpectContinueTimeout (hc_ExpectContinueTimeout cfg);
                   hc_IdleConnTimeout := or_default_to defaultIdleConnTimeout (hc_IdleConnTimeout cfg);
                   hc_KeepAlive := or_default_to defaultKeepAlive (hc_KeepAlive cfg);
                   hc_MaxIdleConns := or_default_to defaultMaxIdleConns (hc_MaxIdleConns cfg);
                   hc_MaxIdleConnsPerHost := or_default_to defaultMaxIdleConnsPerHost (hc_MaxIdleConnsPerHost cfg);
                   hc_MaxConnsPerHost := or_default_to defaultMaxConnsPerHost (hc_MaxConnsPerHost cfg);
                   hc_MaxResponseHeaderBytes := or_default_to defaultMaxResponseHeader (hc_MaxResponseHeaderBytes cfg);
                   hc_DisableCompression := hc_DisableCompression cfg;
                   hc_TLSConfig := hc_TLSConfig cfg; hc_Proxy := hc_Proxy cfg |}
        end
  end.
Definition normalizeTLSConfig (cfg : option tlsConfig) : result tlsConfig :=
  let out := match cfg with None => empty_tls | Some c => c end in
  let out := if tc_MinVersion out =? 0 then set_min VersionTLS13 out else out in
  if tc_MinVersion out <? VersionTLS13 then inr (Sentinel ErrHTTPSTLSVersion)
  else inl (set_protos [] out).

(** The [http.Transport] that is built, with its set of [http.Protocols]. *)
Record httpTransport := {
  ht_cfg : HTTPConfig; ht_TLSClientConfig : option tlsConfig; ht_HTTP1 : bool; ht_HTTP2 : bool }.
Fixpoint applyHTTPProtocols (ps : list HTTPProtocol) (set : bool * bool) : result (bool * bool) :=
  match ps with
  | [] => inl set
  | HTTP1 :: ps => applyHTTPProtocols ps (true, set.2)
  | HTTP2 :: ps => applyHTTPProtocols ps (set.1, true)
  | _ :: _ => inr (Sentinel ErrInvalidHTTPProtocol)
  end.
Definition NewHTTPTransport (cfg : HTTPConfig) : result httpTransport :=
  match normalizeHTTPConfig cfg with
  | inr e => inr e
  | inl normalized =>
      match normalizeTLSConfig (hc_TLSConfig normalized) with
      | inr e => inr e
      | inl tlsCfg =>
          match applyHTTPProtocols (hc_Protocols normalized) (false, false) with
          | inr e => inr e
          | inl set => inl {| ht_cfg := normalized; ht_TLSClientConfig := Some tlsCfg; ht_HTTP1 := set.1; ht_HTTP2 := set.2 |}
          end
      end
  end.
(** ** client/facade_http2.go *)
Definition verify_h2 (previousVerify : option (connState -> option error)) (state : connState) : option error :=
  match match previousVerify with Some f => f state | None => None end with
  | Some err => Some err
  | None =>
      if String.eqb (cs_NegotiatedProtocol state) "h2" then None
      else Some (Errorf "wanted h2" errHTTPProtocolUnavailable)
  end.
Definition prepareFacadeHTTP2Transport (t : httpTransport) : httpTransport :=
  match ht_TLSClientConfig t with
  | None => t
  | Some c =>
      {| ht_cfg := ht_cfg t;
         ht_TLSClientConfig := Some (set_verify (verify_h2 (tc_VerifyConnection c)) (set_protos ["h2"; "http/1.1"] c));
         ht_HTTP1 := ht_HTTP1 t; ht_HTTP2 := ht_HTTP2 t |}
  end.

(** ** internal/quicpolicy/policy.go *)
Record policyConfig := {
  pc_TLSConfig : option tlsConfig; pc_ALPN : string; pc_HandshakeTimeout : Z; pc_IdleTimeout : Z; pc_EnableDatagrams : bool;
  pc_MaxIncomingStreams : Z; pc_MaxIncomingUniStreams : Z }.
Record quicConfig := {
  qc_HandshakeIdleTimeout : Z; qc_MaxIdleTimeout : Z;
  qc_InitialStreamReceiveWindow : Z; qc_MaxStreamReceiveWindow : Z;
  qc_InitialConnectionReceiveWindow : Z; qc_MaxConnectionReceiveWindow : Z;
  qc_MaxIncomingStreams : Z; qc_MaxIncomingUniStreams : Z; qc_Allow0RTT : bool; qc_EnableDatagrams : bool }.
Definition DefaultHandshakeTimeout : Z := 5 * Second.
Definition DefaultIdleTimeout : Z := 30 * Second.
Definition DefaultMaxIncomingStreams : Z := 32.
Definition DefaultInitialStreamReceiveWindow : Z := Z.shiftl 512 10.
Definition DefaultMaxStreamReceiveWindow : Z := Z.shiftl 4 20.
Definition DefaultInitialConnectionReceiveWindow : Z := Z.shiftl 1 20.
Definition DefaultMaxConnectionReceiveWindow : Z := Z.shiftl 8 20.
Definition Build (c : policyConfig) : result (tlsConfig * quicConfig) :=
  if String.eqb (pc_ALPN c) "" then inr (Sentinel ErrALPNRequired)
  else if (pc_HandshakeTimeout c <? 0) || (pc_IdleTimeout c <? 0) then inr (Sentinel ErrInvalidTimeout)
  else
    let tlsCfg := match pc_TLSConfig c with Some t => t | None => empty_tls end in
    if negb (tc_MinVersion tlsCfg =? 0) && (tc_MinVersion tlsCfg <? VersionTLS13) then inr (Sentinel ErrTLSVersion)
    else if negb (tc_MaxVersion tlsCfg =? 0) && (tc_MaxVersion tlsCfg <? VersionTLS13) then inr (Sentinel ErrTLSVersion)
    else
      let tlsCfg := if tc_MinVersion tlsCfg =? 0 then set_min VersionTLS13 tlsCfg else tlsCfg in
      inl (set_protos [pc_ALPN c] tlsCfg,
           {| qc_HandshakeIdleTimeout := or_default_to DefaultHandshakeTimeout (pc_HandshakeTimeout c);
              qc_MaxIdleTimeout := or_default_to DefaultIdleTimeout (pc_IdleTimeout c);
              qc_InitialStreamReceiveWindow := DefaultInitialStreamReceiveWindow;
              qc_MaxStreamReceiveWindow := DefaultMaxStreamReceiveWindow;
              qc_InitialConnectionReceiveWindow := DefaultInitialConnectionReceiveWindow;
              qc_MaxConnectionReceiveWindow := DefaultMaxConnectionReceiveWindow;
              qc_MaxIncomingStreams := pc_MaxIncomingStreams c; qc_MaxIncomingUniStreams := pc_MaxIncomingUniStreams c;
              qc_Allow0RTT := false; qc_EnableDatagrams := pc_EnableDatagrams c |}).
(** quic/config.go *)
Record QuicClientConfig := {
  qcc_TLSConfig : option tlsConfig; qcc_ALPN : string; qcc_HandshakeTimeout : Z; qcc_IdleTimeout : Z; qcc_EnableDatagrams : bool }.
Definition quic_build (c : QuicClientConfig) : result (tlsConfig * quicConfig) :=
  Build {| pc_TLSConfig := qcc_TLSConfig c; pc_ALPN := qcc_ALPN c; pc_HandshakeTimeout := qcc_HandshakeTimeout c;
           pc_IdleTimeout := qcc_IdleTimeout c; pc_EnableDatagrams := qcc_EnableDatagrams c;
           pc_MaxIncomingStreams := DefaultMaxIncomingStreams; pc_MaxIncomingUniStreams := -1 |}.

(** ** client/http3.go *)
Record HTTP3Config := {
  h3_TLSConfig : option tlsConfig; h3_HandshakeTimeout : Z; h3_IdleTimeout : Z; h3_MaxResponseHeaderBytes : Z;
  h3_DisableCompression : bool; h3_EnableDatagrams : bool }.
Record normalizedHTTP3Config := {
  n3_tlsConfig : tlsConfig; n3_quicConfig : quicConfig; n3_maxResponseHeaderBytes : Z;
  n3_disableCompression : bool; n3_enableDatagrams : bool }.
Definition defaultHTTP3MaxResponseHeaderBytes : Z := Z.shiftl 1 20.
Definition http3MaxIncomingUniStreams : Z := 16.
Definition NextProtoH3 : string := "h3".
(** [int] has [bits] bits. *)
Definition maxInt (bits : Z) : Z := Z.shiftr (2 ^ bits - 1) 1.
Definition normalizeHTTP3Config (bits : Z) (cfg : HTTP3Config) : result normalizedHTTP3Config :=
  if (h3_HandshakeTimeout cfg <? 0) || (h3_IdleTimeout cfg <? 0) || (h3_MaxResponseHeaderBytes cfg <? 0)
  then inr (Sentinel ErrInvalidHTTP3Config)
  else if (h3_MaxResponseHeaderBytes cfg >? 0) && (h3_MaxResponseHeaderBytes cfg >? maxInt bits)
  then inr (Sentinel ErrInvalidHTTP3Config)
  else
    match Build {| pc_TLSConfig := h3_TLSConfig cfg; pc_ALPN := NextProtoH3; pc_HandshakeTimeout := h3_HandshakeTimeout cfg;
                   pc_IdleTimeout := h3_IdleTimeout cfg; pc_EnableDatagrams := h3_EnableDatagrams cfg;
                   pc_MaxIncomingStreams := -1; pc_MaxIncomingUniStreams := http3MaxIncomingUniStreams |} with
    | inr err =>
        if errors_Is err ErrTLSVersion then inr (Errorf "policy" ErrHTTP3TLSVersion)
        else if errors_Is err ErrInvalidTimeout then inr (Errorf "policy" ErrInvalidHTTP3Config)
        else inr err
    | inl (tlsCfg, quicCfg) =>
        let headerBytes := or_default_to defaultHTTP3MaxResponseHeaderBytes (h3_MaxResponseHeaderBytes cfg) in
        inl {| n3_tlsConfig := tlsCfg; n3_quicConfig := quicCfg; n3_maxResponseHeaderBytes := headerBytes;
               n3_disableCompression := h3_DisableCompression cfg; n3_enableDatagrams := h3_EnableDatagrams cfg |}
    end.

(** ** client/facade.go *)
Inductive HTTPFallbackPolicy := HTTPFallbackDisabled | HTTPFallbackSafeReplay | OtherPolicy (n : Z).
#[global] Instance HTTPFallbackPolicy_eq_dec : EqDecision HTTPFallbackPolicy.
Proof. solve_decision. Defined.
Record HTTPClientConfig := {
  cc_Protocols : list HTTPProtocol; cc_HTTP : HTTPConfig; cc_HTTP3 : HTTP3Config; cc_Fallback : HTTPFallbackPolicy }.
Fixpoint check_protocols (ps seen : list HTTPProtocol) (hasHTTP3 : bool) : result bool :=
  match ps with
  | [] => inl hasHTTP3
  | p :: ps =>
      match p with
      | OtherProtocol _ => inr (Errorf "protocol" ErrInvalidHTTPClientConfig)
      | _ =>
          if bool_decide (p ∈ seen) then inr (Errorf "duplicate protocol" ErrInvalidHTTPClientConfig)
          else check_protocols ps (p :: seen) (hasHTTP3 || bool_decide (p = HTTP3))
      end
  end.
Definition validateHTTPClientConfig (cfg : HTTPClientConfig) : result (list HTTPProtocol) :=
  if (length (cc_Protocols cfg) =? 0)%nat || negb (length (hc_Protocols (cc_HTTP cfg)) =? 0)%nat
  then inr (Sentinel ErrInvalidHTTPClientConfig)
  else if negb (bool_decide (cc_Fallback cfg = HTTPFallbackDisabled)) && negb (bool_decide (cc_Fallback cfg = HTTPFallbackSafeReplay))
  then inr (Sentinel ErrInvalidHTTPClientConfig)
  else
    match check_protocols (cc_Protocols cfg) [] false with
    | inr e => inr e
    | inl hasHTTP3 =>
        if hasHTTP3 && match hc_Proxy (cc_HTTP cfg) with Some _ => true | None => false end
        then inr (Errorf "HTTP/3 cannot be combined with HTTP proxy configuration" ErrInvalidHTTPClientConfig)
        else inl (cc_Protocols cfg)
    end.

(** ** Lists of protocols *)
Definition h12 (p : HTTPProtocol) : bool := match p with HTTP1 | HTTP2 => true | _ => false end.
Lemma normalize_loop_spec ps seen out :
  (forall p, p ∈ seen <-> p ∈ out) -> NoDup out ->
  match normalize_protocols_loop ps seen out with
  | inl r => NoDup r /\ Forall (fun p => h12 p = true) ps /\ (forall p, p ∈ r <-> p ∈ out \/ p ∈ ps)
  | inr e => errors_Is e ErrInvalidHTTPProtocol = true /\ Exists (fun p => h12 p = false) ps
  end.
Proof.
  revert seen out. induction ps as [|p ps IH]; intros seen out Hs Hn; cbn [normalize_protocols_loop].
  { split_and!; [done|done|]. intros p. rewrite elem_of_nil. tauto. }
  assert (h12 p = true -> match (if bool_decide (p ∈ seen) then normalize_protocols_loop ps seen out
    else normalize_protocols_loop ps (p :: seen) (out ++ [p])) with
    | inl r => NoDup r /\ Forall (fun p => h12 p = true) (p :: ps) /\ (forall q, q ∈ r <-> q ∈ out \/ q ∈ p :: ps)
    | inr e => errors_Is e ErrInvalidHTTPProtocol = true /\ Exists (fun p => h12 p = false) (p :: ps)
    end) as Hstep.
  { intros Hp. case_bool_decide as Hin.
    - specialize (IH seen out Hs Hn). destruct (normalize_protocols_loop ps seen out); [|naive_solver].
      destruct IH as (? & ? & Hr). split_and!; [done|by constructor|]. intros q. rewrite Hr, elem_of_cons.
      split; [naive_solver|]. intros [?|[->|?]]; auto. left. by apply Hs.
    - specialize (IH (p :: seen) (out ++ [p])). destruct (normalize_protocols_loop ps (p :: seen) (out ++ [p])).
      + destruct IH as (? & ? & Hr); [set_solver| |].
        { apply list.NoDup_app. split; [done|]. split; [|apply NoDup_singleton]. intros q Hq ->%list_elem_of_singleton. by apply Hin, Hs. }
        split_and!; [done|by constructor|]. set_solver.
      + destruct IH as [? ?]; [set_solver| |naive_solver].
        apply list.NoDup_app. split; [done|]. split; [|apply NoDup_singleton]. intros q Hq ->%list_elem_of_singleton. by apply Hin, Hs. }
  destruct p; try (by apply Hstep); (split; [done|by left]).
Qed.
Lemma normalize_loop_same ps seen out :
  Forall (fun p => h12 p = true) ps -> NoDup ps -> (forall p, p ∈ ps -> p ∉ seen) ->
  normalize_protocols_loop ps seen out = inl (out ++ ps).
Proof.
  revert seen out. induction ps as [|p ps IH]; intros seen out Hv Hn Hd; cbn [normalize_protocols_loop]; [by rewrite app_nil_r|].
  apply Forall_cons_1 in Hv as [Hp Hv]. apply list.NoDup_cons in Hn as [Hnin Hn].
  rewrite (bool_decide_false (p ∈ seen)) by (apply Hd; left). rewrite (IH (p :: seen) (out ++ [p])), <- app_assoc.
  - by destruct p.
  - done.
  - done.
  - intros q Hq [->|Hin]%elem_of_cons; [done|]. apply (Hd q); [by right|done].
Qed.
Lemma normalizeProtocols_spec ps :
  match normalizeProtocols ps with
  | inl r => r <> [] /\ NoDup r /\ Forall (fun p => h12 p = true) r /\ (ps <> [] -> forall p, p ∈ r <-> p ∈ ps) /\ normalizeProtocols r = inl r
  | inr e => errors_Is e ErrInvalidHTTPProtocol = true /\ Exists (fun p => h12 p = false) ps
  end.
Proof.
  unfold normalizeProtocols at 1. destruct ps as [|p ps].
  { split_and!; [done| |by repeat constructor|done|done]. repeat constructor; set_solver. }
  pose proof (normalize_loop_spec (p :: ps) [] [] ltac:(done) (NoDup_nil_2)) as Hl.
  destruct (normalize_protocols_loop (p :: ps) [] []) as [r|e]; [|done]. destruct Hl as (Hn & Hv & Hr).
  assert (r <> []) as Hne by (intros ->; assert (p ∈ []) as ?%elem_of_nil by (apply Hr; right; left); done).
  assert (Forall (fun p => h12 p = true) r) as Hvr.
  { apply Forall_forall. intros q [Hq%elem_of_nil|Hq]%list_elem_of_In%Hr; [done|]. rewrite Forall_forall in Hv. apply Hv. by apply list_elem_of_In. }
  split_and!; [done..| |].
  - intros _ q. rewrite Hr. split; [intros [Hq%elem_of_nil|?]; done|auto].
  - unfold normalizeProtocols. destruct r; [done|]. rewrite normalize_loop_same; [done..|]. intros q _. apply not_elem_of_nil.
Qed.

(** ** Defaults *)
Ltac split_forall := repeat match goal with H : Forall _ (_ :: _) |- _ => apply Forall_cons_1 in H as [? H] end.
Lemma or_default_pos d v : 0 < d -> 0 <= v -> 0 < or_default_to d v.
Proof. unfold or_default_to. destruct (v =? 0) eqn:E; [done|]. apply Z.eqb_neq in E. lia. Qed.
Lemma or_default_kept d v : v <> 0 -> or_default_to d v = v.
Proof. intros Hv%Z.eqb_neq. unfold or_default_to. by rewrite Hv. Qed.
Lemma not_negative (vs : list Z) : existsb (fun v => v <? 0) vs = false -> Forall (fun v => 0 <= v) vs.
Proof.
  induction vs as [|v vs IH]; [done|]. intros [Hv%Z.ltb_ge Hvs]%orb_false_elim. constructor; auto.
Qed.
Lemma some_negative (vs : list Z) : existsb (fun v => v <? 0) vs = true -> Exists (fun v => v < 0) vs.
Proof. intros (v & Hin & Hv%Z.ltb_lt)%existsb_exists. apply Exists_exists. eauto. Qed.
Definition limits_of (cfg : HTTPConfig) : list Z :=
  [hc_MaxIdleConns cfg; hc_MaxIdleConnsPerHost cfg; hc_MaxConnsPerHost cfg; hc_MaxResponseHeaderBytes cfg].
Definition settings (cfg : HTTPConfig) : list Z := durations cfg ++ limits_of cfg.
Lemma limits_test cfg :
  (hc_MaxIdleConns cfg <? 0) || (hc_MaxIdleConnsPerHost cfg <? 0) || (hc_MaxConnsPerHost cfg <? 0) || (hc_MaxResponseHeaderBytes cfg <? 0)
  = existsb (fun v => v <? 0) (limits_of cfg).
Proof. cbn. by rewrite orb_false_r, !orb_assoc. Qed.
(** A configuration in which nothing is left to default is kept. *)
Lemma normalize_kept cfg :
  Forall (fun v => 0 < v) (settings cfg) -> normalizeProtocols (hc_Protocols cfg) = inl (hc_Protocols cfg) ->
  normalizeHTTPConfig cfg = inl cfg.
Proof.
  intros Hpos Hp. unfold normalizeHTTPConfig, validateNonNegativeDurations. rewrite limits_test.
  assert (forall vs, Forall (fun v => 0 < v) vs -> existsb (fun v => v <? 0) vs = false) as Hneg.
  { intros vs Hvs. destruct (existsb _ vs) eqn:E; [|done]. apply some_negative, Exists_exists in E as (v & Hin & Hv).
    rewrite Forall_forall in Hvs. specialize (Hvs v Hin). cbn in Hvs. lia. }
  apply Forall_app in Hpos as [Hd Hl]. rewrite (Hneg _ Hd), (Hneg _ Hl), Hp. unfold durations, limits_of in *.
  split_forall. destruct cfg. cbn in *.
  by rewrite !or_default_kept by lia.
Qed.

(** Every setting of an HTTP client that is accepted is bounded: no duration or limit
    is left at zero, those the caller gave are kept, the protocols are a non-empty list
    of HTTP/1.1 and HTTP/2 without repetitions that says what the caller asked for, and
    normalising again changes nothing; what is refused has a negative setting or an
    unknown protocol, and the error says which. *)
Theorem normalizeHTTPConfig_spec cfg :
  match normalizeHTTPConfig cfg with
  | inl c =>
      Forall (fun v => 0 < v) (settings c) /\ Forall2 (fun v v' => v <> 0 -> v' = v) (settings cfg) (settings c) /\
      hc_Protocols c <> [] /\ NoDup (hc_Protocols c) /\ Forall (fun p => h12 p = true) (hc_Protocols c) /\
      (hc_Protocols cfg <> [] -> forall p, p ∈ hc_Protocols c <-> p ∈ hc_Protocols cfg) /\
      normalizeHTTPConfig c = inl c
  | inr e =>
      (errors_Is e ErrInvalidHTTPConfig = true /\ Exists (fun v => v < 0) (settings cfg)) \/
      (errors_Is e ErrInvalidHTTPProtocol = true /\ Exists (fun p => h12 p = false) (hc_Protocols cfg))
  end.
Proof.
  unfold normalizeHTTPConfig at 1. unfold validateNonNegativeDurations. rewrite limits_test.
  destruct (existsb (fun d => d <? 0) (durations cfg)) eqn:Ed.
  { left. split; [done|]. apply Exists_app. left. by apply some_negative. }
  destruct (existsb (fun d => d <? 0) (limits_of cfg)) eqn:El.
  { left. split; [done|]. apply Exists_app. right. by apply some_negative. }
  pose proof (normalizeProtocols_spec (hc_Protocols cfg)) as Hp.
  destruct (normalizeProtocols (hc_Protocols cfg)) as [ps|e]; [|by right]. destruct Hp as (Hne & Hn & Hv & Hin & Hid).
  set (c := {| hc_Protocols := ps |}). apply not_negative in Ed, El. unfold durations, limits_of in Ed, El. split_forall.
  assert (Forall (fun v => 0 < v) (settings c)) as Hpos.
  { unfold settings, durations, limits_of. repeat constructor; (apply or_default_pos; [done|lia]). }
  split_and!; try done.
  - repeat constructor; intros Hv0; by apply or_default_kept.
  - by apply normalize_kept.
Qed.

(** No client of the package speaks TLS below 1.3: whatever transport is built, for
    HTTP/1.1 and HTTP/2 (also as a slot of the facade) or for QUIC, has a minimum version
    of at least 1.3; a QUIC configuration offers exactly its protocol, has no early data,
    bounded timeouts and receive windows, and no maximum version that excludes TLS 1.3. *)
Theorem client_tls13 (cfg : HTTPConfig) (pc : policyConfig) :
  match NewHTTPTransport cfg with
  | inl t =>
      match ht_TLSClientConfig t, ht_TLSClientConfig (prepareFacadeHTTP2Transport t) with
      | Some c, Some c' => VersionTLS13 <= tc_MinVersion c /\ VersionTLS13 <= tc_MinVersion c' /\ tc_NextProtos c = []
      | _, _ => False
      end
  | inr _ => True
  end /\
  match Build pc with
  | inl (t, q) =>
      VersionTLS13 <= tc_MinVersion t /\ (tc_MaxVersion t = 0 \/ VersionTLS13 <= tc_MaxVersion t) /\ tc_NextProtos t = [pc_ALPN pc] /\
      qc_Allow0RTT q = false /\ 0 < qc_HandshakeIdleTimeout q /\ 0 < qc_MaxIdleTimeout q /\
      0 < qc_InitialStreamReceiveWindow q <= qc_MaxStreamReceiveWindow q /\
      0 < qc_InitialConnectionReceiveWindow q <= qc_MaxConnectionReceiveWindow q
  | inr _ => True
  end.
Proof.
  split.
  - unfold NewHTTPTransport. destruct (normalizeHTTPConfig cfg) as [n|]; [|done]. unfold normalizeTLSConfig.
    set (out := match hc_TLSConfig n with None => empty_tls | Some c => c end).
    set (out' := if tc_MinVersion out =? 0 then set_min VersionTLS13 out else out).
    destruct (tc_MinVersion out' <? VersionTLS13) eqn:Ev; [done|]. apply Z.ltb_ge in Ev.
    destruct (applyHTTPProtocols _ _); [|done]. by cbn.
  - unfold Build. destruct (String.eqb _ _); [done|]. destruct (_ || _) eqn:Et; [done|].
    apply orb_false_elim in Et as [?%Z.ltb_ge ?%Z.ltb_ge].
    set (t := match pc_TLSConfig pc with Some t => t | None => empty_tls end).
    destruct (negb (tc_MinVersion t =? 0) && (tc_MinVersion t <? VersionTLS13)) eqn:Emin; [done|].
    destruct (negb (tc_MaxVersion t =? 0) && (tc_MaxVersion t <? VersionTLS13)) eqn:Emax; [done|].
    assert (tc_MaxVersion t = 0 \/ VersionTLS13 <= tc_MaxVersion t) as Hmax.
    { destruct (tc_MaxVersion t =? 0) eqn:E; [left; by apply Z.eqb_eq|right; by apply Z.ltb_ge]. }
    split_and!; try (apply or_default_pos; [done|lia]); try done.
    + cbn. destruct (tc_MinVersion t =? 0) eqn:E; [done|]. by apply Z.ltb_ge.
    + by destruct (tc_MinVersion t =? 0).
Qed.

(** A slot of the facade that is configured for HTTP/2 never carries a request over
    another protocol: its connections are accepted exactly when the caller's own check
    accepts them and "h2" was negotiated, and a peer that negotiates something else is
    reported as an error that lets the facade try its next protocol. *)
Theorem facade_http2_strict (t : httpTransport) (c : tlsConfig) (state : connState) :
  ht_TLSClientConfig t = Some c ->
  exists c' verify, ht_TLSClientConfig (prepareFacadeHTTP2Transport t) = Some c' /\ tc_VerifyConnection c' = Some verify /\
    tc_NextProtos c' = ["h2"; "http/1.1"] /\ tc_MinVersion c' = tc_MinVersion c /\
    let previous := match tc_VerifyConnection c with Some f => f state | None => None end in
    (verify state = None <-> previous = None /\ cs_NegotiatedProtocol state = "h2") /\
    (previous = None -> cs_NegotiatedProtocol state <> "h2" -> classifyFallback (verify state) = fallbackPreRequest) /\
    (forall err, previous = Some err -> verify state = Some err).
Proof.
  intros Hc. unfold prepareFacadeHTTP2Transport. rewrite Hc. eexists _, _. split; [done|]. split; [done|].
  split; [done|]. split; [done|]. cbv zeta. unfold verify_h2.
  destruct (match tc_VerifyConnection c with Some f => f state | None => None end) as [err|]; [naive_solver|].
  destruct (String.eqb (cs_NegotiatedProtocol state) "h2") eqn:E.
  - apply String.eqb_eq in E. naive_solver.
  - apply String.eqb_neq in E. naive_solver.
Qed.

(** ** The configuration of the facade *)
Definition known (p : HTTPProtocol) : bool := match p with OtherProtocol _ => false | _ => true end.
Lemma check_protocols_spec ps seen has :
  match check_protocols ps seen has with
  | inl h => Forall (fun p => known p = true) ps /\ NoDup ps /\ (forall p, p ∈ ps -> p ∉ seen) /\ h = has || bool_decide (HTTP3 ∈ ps)
  | inr e => errors_Is e ErrInvalidHTTPClientConfig = true /\
      ~ (Forall (fun p => known p = true) ps /\ NoDup ps /\ (forall p, p ∈ ps -> p ∉ seen))
  end.
Proof.
  revert seen has. induction ps as [|p ps IH]; intros seen has; cbn [check_protocols].
  { split_and!; [done|constructor|set_solver|]. rewrite bool_decide_false by set_solver. by rewrite orb_false_r. }
  assert (known p = true -> match (if bool_decide (p ∈ seen) then inr (Errorf "duplicate protocol" ErrInvalidHTTPClientConfig)
    else check_protocols ps (p :: seen) (has || bool_decide (p = HTTP3))) with
    | inl h => Forall (fun p => known p = true) (p :: ps) /\ NoDup (p :: ps) /\ (forall q, q ∈ p :: ps -> q ∉ seen) /\ h = has || bool_decide (HTTP3 ∈ p :: ps)
    | inr e => errors_Is e ErrInvalidHTTPClientConfig = true /\
        ~ (Forall (fun p => known p = true) (p :: ps) /\ NoDup (p :: ps) /\ (forall q, q ∈ p :: ps -> q ∉ seen))
    end) as Hstep.
  { intros Hp. destruct (bool_decide (p ∈ seen)) eqn:Hin.
    { apply bool_decide_eq_true in Hin. split; [done|]. intros (_ & _ & Hd). apply (Hd p); [left|done]. }
    apply bool_decide_eq_false in Hin.
    specialize (IH (p :: seen) (has || bool_decide (p = HTTP3))). destruct (check_protocols ps _ _) as [h|e].
    - destruct IH as (Hv & Hn & Hd & ->). split_and!.
      + by constructor.
      + constructor; [|done]. intros Hin'. apply (Hd p Hin'). left.
      + intros q [->|Hq]%elem_of_cons Hs; [done|]. apply (Hd q Hq). by right.
      + rewrite <- orb_assoc. f_equal. rewrite <- bool_decide_or. apply bool_decide_ext. rewrite elem_of_cons. naive_solver.
    - destruct IH as [He Hno]. split; [done|]. intros (Hv & Hn & Hd). apply Hno. apply Forall_cons_1 in Hv as [_ Hv].
      apply list.NoDup_cons in Hn as [Hnp Hn]. split_and!; [done..|]. intros q Hq [->|Hs]%elem_of_cons; [done|]. apply (Hd q); [by right|done]. }
  destruct p; try (by apply Hstep). split; [done|]. intros (Hv%Forall_cons_1 & _). by destruct Hv.
Qed.
Lemma validateHTTPClientConfig_same cfg ps : validateHTTPClientConfig cfg = inl ps -> ps = cc_Protocols cfg.
Proof.
  unfold validateHTTPClientConfig. destruct (_ || _); [done|]. destruct (_ && _); [done|]. destruct (check_protocols _ _ _); [|done].
  destruct (_ && _); [done|]. by intros [= <-].
Qed.
(** [validateHTTPClientConfig] accepts exactly the configurations with a non-empty
    list of known protocols without repetitions, no second source of protocols, a known
    policy, and no proxy beside HTTP/3; it keeps their order, and every refusal is an
    [ErrInvalidHTTPClientConfig]. *)
Theorem validateHTTPClientConfig_spec cfg :
  (forall ps, validateHTTPClientConfig cfg = inl ps <->
     ps = cc_Protocols cfg /\ ps <> [] /\ Forall (fun p => known p = true) ps /\ NoDup ps /\ hc_Protocols (cc_HTTP cfg) = [] /\
     (cc_Fallback cfg = HTTPFallbackDisabled \/ cc_Fallback cfg = HTTPFallbackSafeReplay) /\
     (HTTP3 ∈ ps -> hc_Proxy (cc_HTTP cfg) = None)) /\
  (forall e, validateHTTPClientConfig cfg = inr e -> errors_Is e ErrInvalidHTTPClientConfig = true).
Proof.
  unfold validateHTTPClientConfig.
  destruct (length (cc_Protocols cfg) =? 0)%nat eqn:E0; cbn [orb].
  { apply Nat.eqb_eq, nil_length_inv in E0. split; [|naive_solver]. intros ps. split; [done|]. intros (-> & ? & _). congruence. }
  assert (cc_Protocols cfg <> []) as Ep by (intros E; by rewrite E in E0). clear E0.
  destruct (hc_Protocols (cc_HTTP cfg)) as [|q qs] eqn:Eh; [|cbn; naive_solver]. cbn [length Nat.eqb negb].
  assert ((cc_Fallback cfg = HTTPFallbackDisabled \/ cc_Fallback cfg = HTTPFallbackSafeReplay) <->
    negb (bool_decide (cc_Fallback cfg = HTTPFallbackDisabled)) && negb (bool_decide (cc_Fallback cfg = HTTPFallbackSafeReplay)) = false) as Hf.
  { destruct (cc_Fallback cfg); cbn; naive_solver. }
  destruct (negb _ && negb _); [naive_solver|].
  pose proof (check_protocols_spec (cc_Protocols cfg) [] false) as Hc. destruct (check_protocols _ _ _) as [has|e].
  - destruct Hc as (Hv & Hn & _ & ->). cbn [orb].
    destruct (bool_decide (HTTP3 ∈ cc_Protocols cfg) && _) eqn:Ex.
    + apply andb_prop in Ex as [H3%bool_decide_eq_true Hx]. split; [|naive_solver]. intros ps. split; [done|].
      intros (-> & _ & _ & _ & _ & _ & Hpx). by rewrite (Hpx H3) in Hx.
    + split; [|done]. intros ps. split; [|naive_solver]. intros [= <-]. split_and!; try done; [by apply Hf|].
      intros H3. rewrite bool_decide_true in Ex by done. by destruct (hc_Proxy (cc_HTTP cfg)).
  - destruct Hc as [He Hno]. split; [|naive_solver]. intros ps. split; [done|].
    intros (-> & _ & Hv & Hn & _). destruct Hno. split_and!; [done..|]. intros q _. apply not_elem_of_nil.
Qed.

Lemma facade_http2_strict_witness :
  classifyFallback (verify_h2 None {| cs_NegotiatedProtocol := "http/1.1"; cs_rest := 0 |}) = fallbackPreRequest.
Proof.
  destruct (facade_http2_strict {| ht_cfg := set_http_protocols [HTTP2] (Build_HTTPConfig [] 0 0 0 0 0 0 0 0 0 0 false None None);
      ht_TLSClientConfig := Some empty_tls; ht_HTTP1 := false; ht_HTTP2 := true |} empty_tls
    {| cs_NegotiatedProtocol := "http/1.1"; cs_rest := 0 |} eq_refl) as (c' & verify & Hc & Hv & _ & _ & _ & Hf & _).
  injection Hc as <-. injection Hv as <-. apply Hf; [reflexivity|discriminate].
Defined.
