(* ===== verification/HttpClient.v ===== *)
(** * HttpClient: the ordered protocol facade (client/facade.go, client/facade_fallback.go)

    One request of [HTTPClientTransport]: which protocols are tried, in which order, with
    which body, and what is reported.  The transports of the slots (net/http's and the
    HTTP/3 one), [context.Cause] and the request's [GetBody] are functions given from
    outside: [rt] and [cause] answer per attempt, [rq_GetBody] per call.  The rest of a
    request is copied by [Request.Clone] and plays no part in the decisions.

    The construction of the slots is modelled with the configuration of HttpConfig.v. *)
From S2P Require Import Prelude ClientErrors HttpConfig.
Local Open Scope go_scope.
Local Open Scope string_scope.
Local Open Scope list_scope.
Local Open Scope Z_scope.

(** ** Requests *)
Inductive body := NilBody | NoBody | BodyOf (id : Z).
#[global] Instance body_eq_dec : EqDecision body.
Proof. solve_decision. Defined.
Record Request := {
  rq_Method : string;
  rq_Scheme : option string;   (* of the URL, which may be nil *)
  rq_Body : body;
  rq_GetBody : option (nat -> body + error);
}.
(** The request of one attempt, with its [HTTPAttemptInfo]. *)
Record attempt := { at_Protocol : HTTPProtocol; at_Index : nat; at_Body : body }.

Definition protocolApplies (protocol : HTTPProtocol) (req : Request) : bool :=
  match rq_Scheme req with
  | None => false
  | Some scheme =>
      let scheme := ToLower scheme in
      match protocol with
      | HTTP1 => String.eqb scheme "http" || String.eqb scheme "https"
      | HTTP2 | HTTP3 => String.eqb scheme "https"
      | OtherProtocol _ => false
      end
  end.
Definition isSafeReplayMethod (method : string) : bool :=
  let method := if String.eqb method "" then "GET" else method in
  String.eqb method "GET" || String.eqb method "HEAD" || String.eqb method "OPTIONS" || String.eqb method "TRACE".
Definition requestCanReplay (req : Request) : bool :=
  if negb (isSafeReplayMethod (rq_Method req)) then false
  else match rq_Body req with
       | NilBody | NoBody => true
       | BodyOf _ => match rq_GetBody req with Some _ => true | None => false end
       end.
Definition cloneAttemptRequest (original : Request) (protocol : HTTPProtocol) (index : nat) : attempt + error :=
  if (index =? 0)%nat || match rq_Body original with NilBody | NoBody => true | BodyOf _ => false end
  then inl {| at_Protocol := protocol; at_Index := index; at_Body := rq_Body original |}
  else
    match rq_GetBody original with
    | None => inr (New "request body is not replayable")
    | Some GetBody =>
        match GetBody index with
        | inr err => inr err
        | inl b => inl {| at_Protocol := protocol; at_Index := index; at_Body := b |}
        end
    end.

(** ** One request *)
Section roundTrip.
Context {response : Type}.
(** What the slots return, and the cause of the request's context after an attempt. *)
Context (rt : attempt -> option response * option error) (cause : attempt -> option error).
Record HTTPClientTransport := { ct_attempts : list HTTPProtocol; ct_fallback : HTTPFallbackPolicy; ct_closed : bool }.
Inductive reply := Response (r : response) (err : option error) | Failure (err : error).

(** The error of an attempt without a response. *)
Definition attempt_error (a : attempt) : error :=
  match (rt a).2 with
  | Some err => err
  | None => New "client: protocol transport returned nil response and nil error"
  end.
(** The loop over the applicable slots; the attempts made are listed first. *)
Fixpoint attempts_loop (fallback : HTTPFallbackPolicy) (req : Request) (canReplay : bool) (index : nat)
    (applicable : list HTTPProtocol) (failures : list (HTTPProtocol * error)) : list attempt * reply :=
  match applicable with
  | [] => ([], Failure (newHTTPFallbackError failures))
  | protocol :: rest =>
      match cloneAttemptRequest req protocol index with
      | inr err =>
          let prepErr := Errorf "client: prepare attempt" err in
          ([], Failure (match failures with
                        | [] => prepErr
                        | _ => newHTTPFallbackError (failures ++ [(protocol, prepErr)])
                        end))
      | inl attemptReq =>
          match (rt attemptReq).1 with
          | Some resp => ([attemptReq], Response resp (rt attemptReq).2)
          | None =>
              let err := attempt_error attemptReq in
              match cause attemptReq with
              | Some c => ([attemptReq], Failure c)
              | None =>
                  let failures := failures ++ [(protocol, err)] in
                  if match rest with [] => true | _ => false end || negb (bool_decide (fallback = HTTPFallbackSafeReplay))
                     || negb canReplay || bool_decide (classifyFallback (Some err) = fallbackNever)
                  then ([attemptReq], Failure (if (length failures =? 1)%nat then err else newHTTPFallbackError failures))
                  else
                    let '(sent, out) := attempts_loop fallback req canReplay (S index) rest failures in
                    (attemptReq :: sent, out)
              end
          end
      end
  end.
Definition applicable_slots (t : HTTPClientTransport) (req : Request) : list HTTPProtocol :=
  List.filter (fun p => protocolApplies p req) (ct_attempts t).
Definition roundTrip (t : option HTTPClientTransport) (req : option Request) : list attempt * reply :=
  match t with
  | None => ([], Failure ErrHTTPClientTransportClosed)
  | Some t =>
      if ct_closed t then ([], Failure ErrHTTPClientTransportClosed)
      else
        match req with
        | None => ([], Failure (Errorf "nil request" ErrInvalidHTTPClientConfig))
        | Some req =>
            match applicable_slots t req with
            | [] => ([], Failure ErrNoApplicableHTTPProtocol)
            | applicable => attempts_loop (ct_fallback t) req (requestCanReplay req) 0 applicable []
            end
        end
  end.

(** ** What is sent *)
(** After an attempt the loop goes on. *)
Definition goes_on (t : HTTPClientTransport) (req : Request) (a : attempt) : Prop :=
  ct_fallback t = HTTPFallbackSafeReplay /\ requestCanReplay req = true /\
  (rt a).1 = None /\ cause a = None /\ classifyFallback (Some (attempt_error a)) <> fallbackNever.

Lemma loop_sends t req index applicable failures :
  let '(sent, out) := attempts_loop (ct_fallback t) req (requestCanReplay req) index applicable failures in
  (forall p rest a, applicable = p :: rest -> cloneAttemptRequest req p index = inl a -> sent !! 0%nat = Some a) /\
  (forall i a, sent !! i = Some a -> exists p, applicable !! i = Some p /\ cloneAttemptRequest req p (index + i) = inl a) /\
  (forall i a, sent !! i = Some a -> (S i < length sent)%nat -> goes_on t req a) /\
  (forall i a p b, sent !! i = Some a -> goes_on t req a -> applicable !! S i = Some p ->
     cloneAttemptRequest req p (index + S i) = inl b -> sent !! S i = Some b).
Proof.
  revert index failures. induction applicable as [|p rest IH]; intros index failures; cbn [attempts_loop].
  { split_and!; intros; try done. }
  destruct (cloneAttemptRequest req p index) as [a|e] eqn:Ec; [|split_and!; intros; simplify_eq; congruence].
  assert (~ goes_on t req a \/ rest = [] ->
    (forall q rest' b, p :: rest = q :: rest' -> cloneAttemptRequest req q index = inl b -> [a] !! 0%nat = Some b) /\
    (forall i b, [a] !! i = Some b -> exists q, (p :: rest) !! i = Some q /\ cloneAttemptRequest req q (index + i) = inl b) /\
    (forall i b, [a] !! i = Some b -> (S i < length [a])%nat -> goes_on t req b) /\
    (forall i b q d, [a] !! i = Some b -> goes_on t req b -> (p :: rest) !! S i = Some q ->
       cloneAttemptRequest req q (index + S i) = inl d -> [a] !! S i = Some d)) as Hstop.
  { intros Hs. split_and!.
    - intros q rest' b [= <- <-] ?. cbn. congruence.
    - intros [|i] b [= <-]. exists p. by rewrite Nat.add_0_r.
    - intros [|i] b [= <-]; cbn; lia.
    - intros [|i] b q d [= <-] Hg Hq. destruct Hs as [?|Hs]; [done|by rewrite Hs in Hq]. }
  destruct ((rt a).1) as [r|] eqn:Er; [apply Hstop; left; intros (_ & _ & ? & _); congruence|].
  destruct (cause a) as [c|] eqn:Ea; [apply Hstop; left; intros (_ & _ & _ & ? & _); congruence|].
  destruct (_ || _) eqn:Es.
  { apply Hstop. apply orb_prop in Es as [Es|Es%bool_decide_eq_true]; [|left; by intros (_ & _ & _ & _ & ?)].
    apply orb_prop in Es as [Es|Es%negb_true_iff]; [|left; intros (_ & ? & _); congruence].
    apply orb_prop in Es as [Es|Es]; [right; by destruct rest|].
    left. intros (? & _). by rewrite bool_decide_true in Es. }
  assert (goes_on t req a) as Hgo.
  { apply orb_false_elim in Es as [Es E4%bool_decide_eq_false]. apply orb_false_elim in Es as [Es E3%negb_false_iff].
    apply orb_false_elim in Es as [_ E2%negb_false_iff%bool_decide_eq_true]. by split_and!. }
  specialize (IH (S index) (failures ++ [(p, attempt_error a)])).
  destruct (attempts_loop _ _ _ (S index) rest _) as [sent out]. destruct IH as (H0 & H1 & H2 & H3). split_and!.
  - intros q rest' b [= <- <-] ?. cbn. congruence.
  - intros [|i] b Hb; cbn in Hb; [simplify_eq; exists p; by rewrite Nat.add_0_r|]. rewrite Nat.add_succ_r, <- Nat.add_succ_l. by apply H1.
  - intros [|i] b Hb Hl; cbn in Hb; [by simplify_eq|]. apply (H2 i); [done|]. cbn in Hl. lia.
  - intros [|i] b q d Hb Hg Hq Hd; cbn in Hb, Hq |- *.
    + destruct rest as [|q' rest]; [done|]. cbn in Hq. simplify_eq. eapply H0; [done|]. by rewrite Nat.add_1_r in Hd.
    + eapply (H3 i); [done..|]. by rewrite Nat.add_succ_r, <- Nat.add_succ_l in Hd.
Qed.

(** ** What is reported *)
Definition failures_of (sent : list attempt) : list (HTTPProtocol * error) := map (fun a => (at_Protocol a, attempt_error a)) sent.
Definition report (failures : list (HTTPProtocol * error)) : error :=
  match failures with [(_, err)] => err | _ => newHTTPFallbackError failures end.
Definition prepare_error (protocol : HTTPProtocol) (err : error) (failures : list (HTTPProtocol * error)) : error :=
  let prepErr := Errorf "client: prepare attempt" err in
  match failures with [] => prepErr | _ => newHTTPFallbackError (failures ++ [(protocol, prepErr)]) end.
Lemma clone_protocol req p i a : cloneAttemptRequest req p i = inl a -> at_Protocol a = p /\ at_Index a = i.
Proof. unfold cloneAttemptRequest. intros Hc. repeat case_match; by simplify_eq. Qed.
Lemma loop_reports t req index applicable failures :
  applicable <> [] ->
  let '(sent, out) := attempts_loop (ct_fallback t) req (requestCanReplay req) index applicable failures in
  match out with
  | Response r err => exists a, list.last sent = Some a /\ rt a = (Some r, err)
  | Failure e =>
      (forall a, a ∈ sent -> (rt a).1 = None) /\
      ((exists a, list.last sent = Some a /\ cause a = Some e) \/
       (sent <> [] /\ e = report (failures ++ failures_of sent)) \/
       (exists p err, applicable !! length sent = Some p /\ cloneAttemptRequest req p (index + length sent) = inr err /\
          e = prepare_error p err (failures ++ failures_of sent)))
  end.
Proof.
  revert index failures. induction applicable as [|p rest IH]; intros index failures Hne; [done|]. clear Hne. cbn [attempts_loop].
  destruct (cloneAttemptRequest req p index) as [a|e] eqn:Ec.
  2:{ split; [by intros ? ?%elem_of_nil|]. right. right. exists p, e. split; [done|]. cbn. rewrite Nat.add_0_r, app_nil_r. split; [done|].
      unfold prepare_error. by destruct failures. }
  destruct (clone_protocol _ _ _ _ Ec) as [Hp _].
  destruct ((rt a).1) as [r|] eqn:Er; [exists a; split; [done|]; by destruct (rt a); simplify_eq/=|].
  destruct (cause a) as [c|] eqn:Ea; [split; [by intros b ->%list_elem_of_singleton|]; left; by exists a|].
  assert (failures_of [a] = [(p, attempt_error a)]) as Hfa by (unfold failures_of; cbn; by rewrite Hp).
  destruct (_ || _) eqn:Es.
  { split; [by intros b ->%list_elem_of_singleton|]. right. left. split; [done|]. rewrite Hfa.
    unfold report. destruct failures as [|f [|f' fs]]; [done| |]; by destruct f. }
  assert (rest <> []) as Hrest by (by destruct rest).
  specialize (IH (S index) (failures ++ [(p, attempt_error a)]) Hrest).
  destruct (attempts_loop _ _ _ (S index) rest _) as [sent out].
  assert (forall q b, list.last sent = Some b -> list.last (q :: sent) = Some b) as Hlast by (intros q b Hb; rewrite list.last_cons, Hb; done).
  destruct out as [r err|e]; [destruct IH as (b & Hb & Hr); exists b; auto|]. destruct IH as [Hno Hwhy].
  assert (failures ++ failures_of (a :: sent) = (failures ++ [(p, attempt_error a)]) ++ failures_of sent) as Hf.
  { change (failures_of (a :: sent)) with (failures_of [a] ++ failures_of sent). by rewrite Hfa, app_assoc. }
  split; [intros b [->|Hb]%elem_of_cons; auto|]. rewrite Hf.
  destruct Hwhy as [(b & Hb & Hc)|[[Hs He]|(q & err & Hq & Hc & He)]]; [left; exists b; auto|right; left; by split|].
  right. right. exists q, err. cbn [length]. rewrite Nat.add_succ_r, <- Nat.add_succ_l. auto.
Qed.
(** No failure is hidden by the error that reports it. *)
Lemma fallback_error_is fs p err s : (p, err) ∈ fs -> errors_Is err s = true -> errors_Is (newHTTPFallbackError fs) s = true.
Proof.
  intros Hin. apply errors_Is_nodes. intros n Hn. right. unfold newHTTPFallbackError. apply list_elem_of_In, in_flat_map.
  exists (p, Some err). split; [|by apply list_elem_of_In]. apply in_map_iff. exists (p, err). split; [done|]. by apply list_elem_of_In.
Qed.
Lemma report_is fs p err s : (p, err) ∈ fs -> errors_Is err s = true -> errors_Is (report fs) s = true.
Proof.
  intros Hin Hs. unfold report. destruct fs as [|[q e] [|f fs]]; [by apply elem_of_nil in Hin| |by eapply fallback_error_is].
  apply list_elem_of_singleton in Hin. by simplify_eq.
Qed.
Lemma prepare_is fs q perr p err s : (p, err) ∈ fs -> errors_Is err s = true -> errors_Is (prepare_error q perr fs) s = true.
Proof.
  intros Hin Hs. unfold prepare_error. destruct fs as [|f fs]; [by apply elem_of_nil in Hin|].
  eapply fallback_error_is; [|done]. apply elem_of_app. by left.
Qed.
Lemma failures_of_elem sent a : a ∈ sent -> (at_Protocol a, attempt_error a) ∈ failures_of sent.
Proof. intros Ha. apply list_elem_of_fmap. by exists a. Qed.

(** ** The facade *)
(** C22. The attempts of a request follow the configured order of the protocols that apply
    to its URL, one attempt each, numbered from zero, the first with the request's own body
    and every later one with a fresh body from [GetBody]; a further attempt is made only
    after a failure without response that the policy, the method and the classification
    allow to repeat, the context being alive, so that a request that is not a safe one is
    sent at most once; and it is made whenever they do. *)
Theorem roundTrip_sends t req :
  let '(sent, _) := roundTrip (Some t) (Some req) in
  (forall i a, sent !! i = Some a ->
     applicable_slots t req !! i = Some (at_Protocol a) /\ at_Index a = i /\ (i = 0%nat -> at_Body a = rq_Body req) /\
     (forall id, (0 < i)%nat -> rq_Body req = BodyOf id -> exists GetBody, rq_GetBody req = Some GetBody /\ GetBody i = inl (at_Body a))) /\
  (forall i a, sent !! i = Some a -> (S i < length sent)%nat -> goes_on t req a) /\
  (isSafeReplayMethod (rq_Method req) = false \/ ct_fallback t <> HTTPFallbackSafeReplay -> (length sent <= 1)%nat) /\
  (ct_closed t = true -> sent = []) /\
  (ct_closed t = false -> applicable_slots t req <> [] -> sent <> []) /\
  (forall i a p b, sent !! i = Some a -> goes_on t req a -> applicable_slots t req !! S i = Some p ->
     cloneAttemptRequest req p (S i) = inl b -> sent !! S i = Some b).
Proof.
  unfold roundTrip. destruct (ct_closed t); [split_and!; intros; try done; cbn; lia|].
  destruct (applicable_slots t req) as [|p0 rest] eqn:Es; [split_and!; intros; try done; cbn; lia|]. rewrite <- Es in *.
  pose proof (loop_sends t req 0 (applicable_slots t req) []) as Hl. destruct (attempts_loop _ _ _ _ _ _) as [sent out].
  destruct Hl as (H0 & H1 & H2 & H3). split_and!; try done.
  - intros i a Ha. destruct (H1 i a Ha) as (p & Hp & Hc). destruct (clone_protocol _ _ _ _ Hc) as [-> Hi]. cbn in Hi.
    split_and!; [done|done| |]; unfold cloneAttemptRequest in Hc; cbn in Hc.
    + intros ->. by simplify_eq/=.
    + intros id Hpos Hb. rewrite Hb in Hc. destruct i; [lia|]. cbn in Hc. destruct (rq_GetBody req) as [G|]; [|done].
      exists G. split; [done|]. destruct (G (S i)); by simplify_eq.
  - intros Hno. destruct sent as [|a [|b sent]]; [cbn; lia..|]. destruct (H2 0%nat a eq_refl) as (Hf & Hr & _); [cbn; lia|].
    destruct Hno as [Hm|]; [|done]. unfold requestCanReplay in Hr. by rewrite Hm in Hr.
  - intros _ _. intros Hnil. specialize (H0 p0 rest {| at_Protocol := p0; at_Index := 0; at_Body := rq_Body req |}).
    rewrite Es, Hnil in H0. by specialize (H0 eq_refl eq_refl).
Qed.
(** C23. The outcome of a request on an open facade is the response of the last attempt,
    the cause of its context, or an error that names every attempt in order and matches
    whatever the failure of any of them matches; no response is ever thrown away. *)
Theorem roundTrip_reports t req :
  ct_closed t = false -> applicable_slots t req <> [] ->
  let '(sent, out) := roundTrip (Some t) (Some req) in
  match out with
  | Response r err => exists a, list.last sent = Some a /\ rt a = (Some r, err)
  | Failure e =>
      (forall a, a ∈ sent -> (rt a).1 = None) /\
      ((exists a, list.last sent = Some a /\ cause a = Some e) \/
       ((e = report (failures_of sent) \/
         exists p err, applicable_slots t req !! length sent = Some p /\ cloneAttemptRequest req p (length sent) = inr err /\
           e = prepare_error p err (failures_of sent)) /\
        forall a s, a ∈ sent -> errors_Is (attempt_error a) s = true -> errors_Is e s = true))
  end.
Proof.
  intros Hc Hne. unfold roundTrip. rewrite Hc. destruct (applicable_slots t req) as [|p0 rest] eqn:Es; [done|].
  pose proof (loop_reports t req 0 (p0 :: rest) [] Hne) as Hl. destruct (attempts_loop _ _ _ _ _ _) as [sent out].
  destruct out as [r err|e]; [done|]. destruct Hl as [Hno Hwhy]. split; [done|].
  destruct Hwhy as [?|[[_ ->]|(p & err & Hp & Hce & ->)]]; [by left|right..]; (split; [naive_solver|]).
  - intros a s Ha%failures_of_elem. by eapply report_is.
  - intros a s Ha%failures_of_elem. by eapply prepare_is.
Qed.
End roundTrip.

(** ** The slots *)
(** A slot holds one transport. *)
Inductive slot := SlotHTTP (t : httpTransport) | SlotHTTP3 (n : normalizedHTTP3Config).
Definition buildProtocolTransport (bits : Z) (protocol : HTTPProtocol) (cfg : HTTPClientConfig) : slot + error :=
  match protocol with
  | HTTP1 =>
      match NewHTTPTransport (set_http_protocols [HTTP1] (cc_HTTP cfg)) with inl t => inl (SlotHTTP t) | inr e => inr e end
  | HTTP2 =>
      match NewHTTPTransport (set_http_protocols [HTTP2] (cc_HTTP cfg)) with
      | inl t => inl (SlotHTTP (prepareFacadeHTTP2Transport t))
      | inr e => inr e
      end
  | HTTP3 => match normalizeHTTP3Config bits (cc_HTTP3 cfg) with inl n => inl (SlotHTTP3 n) | inr e => inr e end
  | OtherProtocol n => inr (Errorf "protocol" ErrInvalidHTTPClientConfig)
  end.
(** The slots built, or the error with the slots that are closed again. *)
Fixpoint build_slots (bits : Z) (protocols : list HTTPProtocol) (cfg : HTTPClientConfig) (attempts : list (HTTPProtocol * slot))
    : list (HTTPProtocol * slot) + error * list (HTTPProtocol * slot) :=
  match protocols with
  | [] => inl attempts
  | p :: rest =>
      match buildProtocolTransport bits p cfg with
      | inr err => inr (err, attempts)
      | inl rt => build_slots bits rest cfg (attempts ++ [(p, rt)])
      end
  end.
Definition NewHTTPRoundTripper (bits : Z) (cfg : HTTPClientConfig)
    : HTTPClientTransport * list (HTTPProtocol * slot) + error * list (HTTPProtocol * slot) :=
  match validateHTTPClientConfig cfg with
  | inr e => inr (e, [])
  | inl protocols =>
      match build_slots bits protocols cfg [] with
      | inr r => inr r
      | inl slots => inl ({| ct_attempts := map fst slots; ct_fallback := cc_Fallback cfg; ct_closed := false |}, slots)
      end
  end.
(** A slot that speaks one protocol only. *)
Definition strict (p : HTTPProtocol) (s : slot) : Prop :=
  match p, s with
  | HTTP1, SlotHTTP t => ht_HTTP1 t = true /\ ht_HTTP2 t = false
  | HTTP2, SlotHTTP t =>
      ht_HTTP1 t = false /\ ht_HTTP2 t = true /\
      exists c verify, ht_TLSClientConfig t = Some c /\ tc_VerifyConnection c = Some verify /\
        forall state, verify state = None -> cs_NegotiatedProtocol state = "h2"
  | HTTP3, SlotHTTP3 n => tc_NextProtos (n3_tlsConfig n) = ["h3"]
  | _, _ => False
  end.
Lemma single_protocol p cfg t :
  h12 p = true -> NewHTTPTransport (set_http_protocols [p] cfg) = inl t ->
  ht_HTTP1 t = bool_decide (p = HTTP1) /\ ht_HTTP2 t = bool_decide (p = HTTP2) /\ ht_TLSClientConfig t <> None.
Proof.
  intros Hp. unfold NewHTTPTransport, normalizeHTTPConfig.
  destruct (validateNonNegativeDurations _); [done|]. destruct (_ || _); [done|].
  assert (normalizeProtocols (hc_Protocols (set_http_protocols [p] cfg)) = inl [p]) as -> by (by destruct p).
  cbn [hc_TLSConfig]. destruct (normalizeTLSConfig _); [|done]. destruct p; try done; intros [= <-]; by cbn.
Qed.
Lemma build_strict bits p cfg s : buildProtocolTransport bits p cfg = inl s -> strict p s.
Proof.
  destruct p; cbn [buildProtocolTransport]; [| | |done].
  - destruct (NewHTTPTransport _) as [t|] eqn:E; [|done]. intros [= <-].
    by destruct (single_protocol HTTP1 _ _ eq_refl E) as (? & ? & _).
  - destruct (NewHTTPTransport _) as [t|] eqn:E; [|done]. intros [= <-].
    destruct (single_protocol HTTP2 _ _ eq_refl E) as (H1 & H2 & Hc). destruct (ht_TLSClientConfig t) as [c|] eqn:Ec; [|done].
    unfold strict, prepareFacadeHTTP2Transport. rewrite Ec. cbn. split_and!; [done..|]. eexists _, _. split; [done|]. split; [done|].
    intros state. unfold verify_h2. destruct (match _ with Some f => f state | None => None end); [done|].
    by destruct (String.eqb_spec (cs_NegotiatedProtocol state) "h2").
  - unfold normalizeHTTP3Config. destruct (_ || _); [done|]. destruct (_ && _); [done|].
    destruct (Build _) as [[tc qc]|err] eqn:Eb; [|repeat case_match; done]. intros [= <-]. cbn.
    unfold Build in Eb. repeat case_match; simplify_eq; done.
Qed.
Lemma build_slots_spec bits ps cfg acc :
  match build_slots bits ps cfg acc with
  | inl slots => map fst slots = map fst acc ++ ps /\ (Forall (fun x => strict x.1 x.2) acc -> Forall (fun x => strict x.1 x.2) slots)
  | inr (e, closed) => exists n p, map fst closed = map fst acc ++ take n ps /\ ps !! n = Some p /\ buildProtocolTransport bits p cfg = inr e
  end.
Proof.
  revert acc. induction ps as [|p ps IH]; intros acc; cbn [build_slots]; [by rewrite app_nil_r|].
  destruct (buildProtocolTransport bits p cfg) as [s|err] eqn:E.
  - specialize (IH (acc ++ [(p, s)])). destruct (build_slots bits ps cfg (acc ++ [(p, s)])) as [slots|[e closed]].
    + destruct IH as [Hm Hs]. rewrite map_app, <- app_assoc in Hm. split; [done|]. intros Hacc. apply Hs, Forall_app. split; [done|].
      constructor; [by eapply build_strict|done].
    + destruct IH as (n & q & Hm & Hq & He). rewrite map_app, <- app_assoc in Hm. exists (S n), q. done.
  - exists 0%nat, p. cbn. by rewrite app_nil_r.
Qed.
(** The facade has one slot per configured protocol, in the configured order, and each
    slot speaks its protocol only; when a slot cannot be built the ones before it, and only
    those, are closed again. *)
Theorem NewHTTPRoundTripper_slots bits cfg :
  match NewHTTPRoundTripper bits cfg with
  | inl (t, slots) =>
      ct_attempts t = cc_Protocols cfg /\ ct_fallback t = cc_Fallback cfg /\ ct_closed t = false /\
      map fst slots = cc_Protocols cfg /\ Forall (fun x => strict x.1 x.2) slots
  | inr (e, closed) =>
      (validateHTTPClientConfig cfg = inr e /\ closed = []) \/
      (exists n p, map fst closed = take n (cc_Protocols cfg) /\ cc_Protocols cfg !! n = Some p /\ buildProtocolTransport bits p cfg = inr e)
  end.
Proof.
  unfold NewHTTPRoundTripper. pose proof (validateHTTPClientConfig_same cfg) as Hv.
  destruct (validateHTTPClientConfig cfg) as [ps|e]; [|by left]. rewrite (Hv ps eq_refl).
  pose proof (build_slots_spec bits (cc_Protocols cfg) cfg []) as Hb.
  destruct (build_slots bits (cc_Protocols cfg) cfg []) as [slots|[e closed]]; [|by right].
  destruct Hb as [Hm Hs]. cbn. rewrite Hm. split_and!; try done. by apply Hs.
Qed.

(** ** A request that falls back from HTTP/3 to HTTP/2 *)
Definition demo_transport : HTTPClientTransport :=
  {| ct_attempts := [HTTP3; HTTP2; HTTP1]; ct_fallback := HTTPFallbackSafeReplay; ct_closed := false |}.
Definition demo_get : Request :=
  {| rq_Method := "GET"; rq_Scheme := Some "HTTPS"; rq_Body := BodyOf 1; rq_GetBody := Some (fun i => inl (BodyOf (Z.of_nat i + 10))) |}.
Definition demo_dns : error := Foreign {| fr_type := DNSError; fr_timeout := Some false; fr_is := [] |} [].
Definition demo_rt (a : attempt) : option Z * option error :=
  match at_Protocol a with HTTP2 => (Some 200, None) | _ => (None, Some demo_dns) end.
Lemma roundTrip_reports_witness :
  roundTrip demo_rt (fun _ => None) (Some demo_transport) (Some demo_get)
  = ([{| at_Protocol := HTTP3; at_Index := 0; at_Body := BodyOf 1 |}; {| at_Protocol := HTTP2; at_Index := 1; at_Body := BodyOf 11 |}],
     Response 200 None) /\
  exists a, list.last [{| at_Protocol := HTTP3; at_Index := 0; at_Body := BodyOf 1 |}; {| at_Protocol := HTTP2; at_Index := 1; at_Body := BodyOf 11 |}]
    = Some a /\ demo_rt a = (Some 200, None).
Proof.
  split; [vm_compute; reflexivity|].
  exact (roundTrip_reports demo_rt (fun _ => None) demo_transport demo_get eq_refl ltac:(vm_compute; discriminate)).
Defined.
