(* ===== verification/HttpClose.v ===== *)
(** * HttpClose: closing the HTTP clients while requests are in progress

    [HTTP3Transport] with its dialer (client/http3.go, client/http3_dial.go) and the [Close]
    of the facade (client/facade.go), as goroutines that share them.  The requests are given
    by what the resolver, the sockets and quic-go answer.

    The dialer opens one UDP socket and one QUIC transport on it when they are first needed;
    both are numbered by [d_opened], and the two histories list which were closed. *)
From S2P Require Import Prelude Conc ClientErrors HttpConfig.
Local Open Scope go_scope.
Local Open Scope string_scope.
Local Open Scope list_scope.
Local Open Scope Z_scope.

(** [sync.Once]: others wait while the function runs. *)
Inductive once := Unstarted | InProgress | Finished.
Record clients := Clients {
  d_closed : bool; d_transport : option nat;   (* http3Dialer *)
  d_opened : nat; d_transports_closed : list nat; d_sockets_closed : list nat;   (* history *)
  t_closed : bool; t_once : once; t_closeErr : option error;   (* HTTP3Transport *)
  t_raw_closes : nat; t_seen : list (option error);   (* history: closings of raw, results of Close *)
  f_closed : bool; f_once : once; f_closeErr : option error;   (* HTTPClientTransport *)
}.
Definition on_dialer (closed : bool) (tr : option nat) (opened : nat) (trs socks : list nat) (s : clients) : clients :=
  Clients closed tr opened trs socks (t_closed s) (t_once s) (t_closeErr s) (t_raw_closes s) (t_seen s) (f_closed s) (f_once s) (f_closeErr s).
Definition on_transport (closed : bool) (o : once) (err : option error) (raws : nat) (seen : list (option error)) (s : clients) : clients :=
  Clients (d_closed s) (d_transport s) (d_opened s) (d_transports_closed s) (d_sockets_closed s) closed o err raws seen (f_closed s) (f_once s) (f_closeErr s).
Definition on_facade (closed : bool) (o : once) (err : option error) (s : clients) : clients :=
  Clients (d_closed s) (d_transport s) (d_opened s) (d_transports_closed s) (d_sockets_closed s)
    (t_closed s) (t_once s) (t_closeErr s) (t_raw_closes s) (t_seen s) closed o err.
Definition new_clients : clients := Clients false None 0 [] [] false Unstarted None 0 [] false Unstarted None.

(** ** http3Dialer *)
(** What the dial is given: the result of resolving, of [listenUDP] and of quic-go. *)
Record dial_env := { de_resolve : option error; de_listen : option error; de_dial : option error }.
Definition dial_section (listen : option error) (s : clients) : clients * (nat + error) :=
  if d_closed s then (s, inr (Sentinel ErrHTTP3TransportClosed))
  else
    match d_transport s with
    | Some tr => (s, inl tr)
    | None =>
        match listen with
        | Some err => (s, inr err)
        | None =>
            (on_dialer false (Some (d_opened s)) (S (d_opened s)) (d_transports_closed s) (d_sockets_closed s) s, inl (d_opened s))
        end
    end.
Definition Dial (env : dial_env) : prog clients (option error) :=
  match de_resolve env with
  | Some err => mret (Some err)
  | None =>
      r ← atomically (dial_section (de_listen env));
      match r with
      | inr err => mret (Some err)
      | inl tr =>
          atomically (fun s => (s, if bool_decide (tr ∈ d_transports_closed s) then Some (Sentinel QuicgoErrTransportClosed) else de_dial env))
      end
  end.
Definition dialer_Close (trErr udpErr : option error) : prog clients (option error) :=
  taken ← atomically (fun s =>
    if d_closed s then (s, None)
    else (on_dialer true None (d_opened s) (d_transports_closed s) (d_sockets_closed s) s, d_transport s));
  match taken with
  | None => mret None
  | Some tr =>
      atomically (fun s => (on_dialer (d_closed s) (d_transport s) (d_opened s) (d_transports_closed s ++ [tr]) (d_sockets_closed s) s, tt)) ≫= fun _ =>
      atomically (fun s => (on_dialer (d_closed s) (d_transport s) (d_opened s) (d_transports_closed s) (d_sockets_closed s ++ [tr]) s, tt)) ≫= fun _ =>
      mret (match trErr with Some e => Some e | None => udpErr end)
  end.

(** ** HTTP3Transport *)
(** A request: whether it dials, what http3 then answers, and the cause of its context. *)
Record request_env := { re_dial : option dial_env; re_raw : option error; re_cause : option error }.
Definition raw_RoundTrip (env : request_env) : prog clients (option error) :=
  match re_dial env with
  | None => mret (re_raw env)
  | Some d => e ← Dial d; mret (match e with Some e => Some e | None => re_raw env end)
  end.
Definition h3_RoundTrip (env : request_env) : prog clients (option error) :=
  c ← atomically (fun s => (s, t_closed s));
  if c : bool then mret (Some (HTTP3Error HTTP3ErrorClosed (Some (Sentinel ErrHTTP3TransportClosed))))
  else
    e ← raw_RoundTrip env;
    mret (match e with
          | Some err => match re_cause env with Some cause => Some cause | None => mapHTTP3Error (Some err) end
          | None => None
          end).
(** What closing returns: of http3, of the QUIC transport and of the socket. *)
Record close_env := { ce_raw : option error; ce_tr : option error; ce_udp : option error }.
Definition h3_once : prog clients bool :=
  select (fun s => match t_once s with
    | Unstarted => [(on_transport (t_closed s) InProgress (t_closeErr s) (t_raw_closes s) (t_seen s) s, true)]
    | InProgress => []
    | Finished => [(s, false)]
    end).
Definition h3_close_body (env : close_env) : prog clients unit :=
  atomically (fun s => (on_transport true (t_once s) (t_closeErr s) (t_raw_closes s) (t_seen s) s, tt)) ≫= fun _ =>
  atomically (fun s => (on_transport (t_closed s) (t_once s) (ce_raw env) (S (t_raw_closes s)) (t_seen s) s, tt)) ≫= fun _ =>
  err ← dialer_Close (ce_tr env) (ce_udp env);
  atomically (fun s => (on_transport (t_closed s) Finished
    (match err, t_closeErr s with Some e, None => Some e | _, old => old end) (t_raw_closes s) (t_seen s) s, tt)).
Definition h3_Close (env : close_env) : prog clients (option error) :=
  won ← h3_once;
  (if won : bool then h3_close_body env else mret tt) ≫= fun _ =>
  atomically (fun s => (on_transport (t_closed s) (t_once s) (t_closeErr s) (t_raw_closes s) (t_seen s ++ [t_closeErr s]) s, t_closeErr s)).

(** ** HTTPClientTransport *)
(** Each slot closes its idle connections; the one of HTTP/3 is closed as well. *)
Fixpoint closeProtocolTransports (env : close_env) (slots : list HTTPProtocol) (errs : list error) : prog clients (option error) :=
  match slots with
  | [] => mret (match errs with [] => None | _ => Some (Join errs) end)
  | HTTP3 :: slots =>
      e ← h3_Close env;
      closeProtocolTransports env slots (errs ++ match e with Some e => [Errorf (HTTPProtocol_String HTTP3) e] | None => [] end)
  | _ :: slots => closeProtocolTransports env slots errs
  end.
Definition facade_once : prog clients bool :=
  select (fun s => match f_once s with
    | Unstarted => [(on_facade (f_closed s) InProgress (f_closeErr s) s, true)]
    | InProgress => []
    | Finished => [(s, false)]
    end).
Definition facade_Close (slots : list HTTPProtocol) (env : close_env) : prog clients (option error) :=
  won ← facade_once;
  (if won : bool then
     atomically (fun s => (on_facade true (f_once s) (f_closeErr s) s, tt)) ≫= fun _ =>
     e ← closeProtocolTransports env slots [];
     atomically (fun s => (on_facade (f_closed s) Finished e s, tt))
   else mret tt) ≫= fun _ =>
  atomically (fun s => (s, f_closeErr s)).
(** An attempt of the facade in its HTTP/3 slot. *)
Definition facade_RoundTrip (env : request_env) : prog clients (option error) :=
  c ← atomically (fun s => (s, f_closed s));
  if c : bool then mret (Some (Sentinel ErrHTTPClientTransportClosed)) else h3_RoundTrip env.

(** ** Goroutines sharing the clients *)
Inductive client_op :=
  | CRequest (env : request_env) | CFacadeRequest (env : request_env) | CClose (env : close_env)
  | CFacadeClose (env : close_env).
Definition client_op_prog (slots : list HTTPProtocol) (o : client_op) : prog clients unit :=
  match o with
  | CRequest env => h3_RoundTrip env ≫= fun _ => mret tt
  | CFacadeRequest env => facade_RoundTrip env ≫= fun _ => mret tt
  | CClose env => h3_Close env ≫= fun _ => mret tt
  | CFacadeClose env => facade_Close slots env ≫= fun _ => mret tt
  end.
Fixpoint client_ops (slots : list HTTPProtocol) (ops : list client_op) : prog clients unit :=
  match ops with
  | [] => mret tt
  | o :: ops => client_op_prog slots o ≫= fun _ => client_ops slots ops
  end.
(** [slots] are the protocols of the facade. *)
Definition clients_pool (slots : list HTTPProtocol) (opss : list (list client_op)) : pool clients :=
  (new_clients, client_ops slots <$> opss).

(** ** Shares
    The owner of a running [Once]: [o_f] for the facade (with whether it has set [closed]), and [o_t] for the transport with how
    far it is (1: [closed] is set; 2: http3 is closed; 3: it has taken the QUIC transport and
    the socket from the dialer; 4: it has closed the first; 5: it is done with both).  Who
    has found that function finished owns a token of [o_s]. *)
Record cliShare := CliShare { o_t : excl nat; o_f : excl bool; o_s : nat }.
#[global] Program Instance ghost_cliShare : Ghost cliShare := {|
  gop := fun a b => CliShare (o_t a ∙ o_t b) (o_f a ∙ o_f b) (o_s a ∙ o_s b); gnil := CliShare Nobody Nobody 0 |}.
Next Obligation. intros a b c. cbn [o_t o_f o_s]. f_equal; apply gop_assoc. Qed.
Next Obligation. intros a b. cbv beta. f_equal; apply gop_comm. Qed.
Next Obligation. intros []. cbn [o_t o_f o_s]. f_equal; apply gop_nil. Qed.

(** The dialer, by who has its resources. *)
Definition pending (k : excl nat) : option bool :=
  match k with Owner 3%nat => Some false | Owner 4%nat => Some true | _ => None end.
Definition dialer_inv (s : clients) (k : excl nat) : Prop :=
  match pending k with
  | Some b =>
      d_closed s = true /\ d_transport s = None /\ d_opened s = 1%nat /\
      d_transports_closed s = (if b then [0%nat] else []) /\ d_sockets_closed s = []
  | None =>
      if d_closed s then d_transport s = None /\ (d_opened s <= 1)%nat /\
        d_transports_closed s = seq 0 (d_opened s) /\ d_sockets_closed s = seq 0 (d_opened s)
      else d_transport s = (if (d_opened s =? 0)%nat then None else Some 0%nat) /\ (d_opened s <= 1)%nat /\
        d_transports_closed s = [] /\ d_sockets_closed s = []
  end.
Section proofs.
Context (slots : list HTTPProtocol).

Record cli_inv (s : clients) (m : cliShare) : Prop := {
  ci_dialer : dialer_inv s (o_t m);
  ci_once : match t_once s, o_t m with
            | Unstarted, Nobody => t_closed s = false /\ t_raw_closes s = 0%nat /\ d_closed s = false /\ t_seen s = []
            | InProgress, Owner ph => t_seen s = [] /\ t_closed s = (1 <=? ph)%nat /\
                t_raw_closes s = (if (2 <=? ph)%nat then 1 else 0)%nat /\ d_closed s = (3 <=? ph)%nat
            | Finished, Nobody => t_closed s = true /\ t_raw_closes s = 1%nat /\ d_closed s = true /\
                Forall (fun r => r = t_closeErr s) (t_seen s)
            | _, _ => False
            end;
  ci_facade : match f_once s, o_f m with
              | Unstarted, Nobody => f_closed s = false
              | InProgress, Owner b => f_closed s = b
              | Finished, Nobody => f_closed s = true /\ (HTTP3 ∈ slots -> t_once s = Finished)
              | _, _ => False
              end;
  ci_over : (0 < o_s m)%nat -> t_once s = Finished;
}.
Definition cli_blk (s : clients) (m : cliShare) : Prop :=
  o_t m = Nobody /\ (t_once s = InProgress \/ (f_once s = InProgress /\ o_f m = Nobody)).
Definition cli_fin (m : cliShare) : Prop := o_t m = Nobody /\ o_f m = Nobody.

Abbreviation cwp := (wp cli_inv cli_blk).
Ltac ci_split HI := destruct HI as [Id It If Io]; cbn in *.

Lemma dial_inv listen s m : cli_inv s m -> cli_inv (dial_section listen s).1 m.
Proof.
  intros HI. unfold dial_section. destruct (d_closed s) eqn:Ec; [done|]. destruct (d_transport s) eqn:Et; [done|].
  destruct listen; [done|]. destruct HI as [Id It If Io]. split; cbn; [|by rewrite Ec in It|done|done].
  unfold dialer_inv in *. destruct (pending (o_t m)); [destruct Id; congruence|]. rewrite Ec, Et in Id. cbn.
  destruct Id as (Htr & Hle & Hts & Hss). destruct (d_opened s); [|done]. by split_and!.
Qed.
Lemma wp_Dial env m (Q : option error -> cliShare -> Prop) : (forall r, Q r m) -> cwp (Dial env) m Q.
Proof.
  intros HQ. unfold Dial. destruct (de_resolve env); [apply HQ|]. apply wp_bind, wp_atomically. intros s F HI. exists m.
  split; [by apply dial_inv|]. destruct (dial_section _ s).2; [|apply HQ]. apply wp_atomically. intros s' F' HI'. by exists m.
Qed.
Lemma wp_h3_RoundTrip env m (Q : option error -> cliShare -> Prop) : (forall r, Q r m) -> cwp (h3_RoundTrip env) m Q.
Proof.
  intros HQ. apply wp_bind, wp_atomically. intros s F HI. exists m. split; [done|]. cbn. destruct (t_closed s); [apply HQ|].
  apply wp_bind. unfold raw_RoundTrip. destruct (re_dial env); [|apply HQ]. apply wp_bind, wp_Dial. intros r. apply HQ.
Qed.
(** The share of the goroutine that runs the function of the transport's [Once], or not. *)
Definition closing (ph : nat) (f : excl bool) (n : nat) : cliShare := CliShare (Owner ph) f n.
Definition holding (f : excl bool) (n : nat) : cliShare := CliShare Nobody f n.
(** One section of that function. *)
Lemma wp_closing {B} (g : clients -> clients * B) ph ph' f n (Q : B -> cliShare -> Prop) :
  (forall s, dialer_inv s (Owner ph) -> t_seen s = [] /\ t_closed s = (1 <=? ph)%nat /\
     t_raw_closes s = (if (2 <=? ph)%nat then 1 else 0)%nat /\ d_closed s = (3 <=? ph)%nat -> t_once s = InProgress ->
     let s' := (g s).1 in dialer_inv s' (Owner ph') /\ t_once s' = InProgress /\ f_once s' = f_once s /\ f_closed s' = f_closed s /\
     t_seen s' = [] /\ t_closed s' = (1 <=? ph')%nat /\ t_raw_closes s' = (if (2 <=? ph')%nat then 1 else 0)%nat /\ d_closed s' = (3 <=? ph')%nat /\
     Q (g s).2 (closing ph' f n)) ->
  cwp (atomically g) (closing ph f n) Q.
Proof.
  intros Hg. apply wp_atomically. intros s F HI. exists (closing ph' f n). ci_split HI.
  destruct (o_t F) eqn:Ef; cbn in *; [|by destruct (t_once s)..]. destruct (t_once s) eqn:Eo; try done.
  destruct (Hg s Id It Eo) as (H1 & H2 & H3 & H4 & H5 & H6 & H7 & H8 & HQ). split; [|done].
  split; cbn; rewrite ?Ef, ?H2, ?H3, ?H4; done.
Qed.

Lemma wp_dialer_Close trErr udpErr f n (Q : option error -> cliShare -> Prop) :
  (forall r, Q r (closing 5 f n)) -> cwp (dialer_Close trErr udpErr) (closing 2 f n) Q.
Proof.
  intros HQ. apply wp_bind. set (Q' := fun taken m => match taken with Some tr => tr = 0%nat /\ m = closing 3 f n | None => m = closing 5 f n end).
  assert (cwp (atomically (fun s => if d_closed s then (s, None)
    else (on_dialer true None (d_opened s) (d_transports_closed s) (d_sockets_closed s) s, d_transport s))) (closing 2 f n) Q') as Htake.
  { apply wp_atomically. intros s F HI. ci_split HI. destruct (o_t F) eqn:Ef; cbn in *; [|by destruct (t_once s)..].
    destruct (t_once s) eqn:Eo; try done. destruct It as (E1 & E2 & E3 & E4). unfold dialer_inv in Id. cbn in Id. rewrite E4 in *.
    destruct Id as (Htr & Hle & Hts & Hss). destruct (d_opened s) as [|[|k]] eqn:En; [| |lia]; rewrite Htr; cbn.
    - exists (closing 5 f n). split; [|done]. split; cbn; rewrite ?Ef, ?Eo; [|by split_and!|done|intros Hp; specialize (Io Hp); congruence].
      unfold dialer_inv. cbn. rewrite Hts, Hss. by split_and!.
    - exists (closing 3 f n). split; [|done]. split; cbn; rewrite ?Ef, ?Eo; [|by split_and!|done|intros Hp; specialize (Io Hp); congruence].
      unfold dialer_inv. cbn. by split_and!. }
  eapply wp_mono; [|exact Htake]. intros [tr|] m; [intros [-> ->]|intros ->; apply HQ].
  apply wp_bind, (wp_closing _ _ 4).
  intros s Hd (E1 & E2 & E3 & E4) Eo. unfold dialer_inv in Hd. cbn in Hd. destruct Hd as (H1 & H2 & H3 & H4 & H5).
  split; [unfold dialer_inv; cbn; rewrite H4; by split_and!|]. split_and!; try done.
  apply wp_bind, (wp_closing _ _ 5). clear - HQ. intros s Hd (E1 & E2 & E3 & E4) Eo. unfold dialer_inv in Hd. cbn in Hd.
  destruct Hd as (H1 & H2 & H3 & H4 & H5). split; [|split_and!; try done; apply HQ].
  unfold dialer_inv. cbn. rewrite H1, H3, H4, H5. split_and!; done || lia.
Qed.
Lemma wp_h3_close_body env f n (Q : unit -> cliShare -> Prop) :
  Q tt (holding f (S n)) -> cwp (h3_close_body env) (closing 0 f n) Q.
Proof.
  intros HQ. apply wp_bind, (wp_closing _ _ 1). intros s Hd (E1 & E2 & E3 & E4) Eo. split_and!; try done.
  apply wp_bind, (wp_closing _ _ 2). clear s Hd E1 E2 E3 E4 Eo. intros s Hd (E1 & E2 & E3 & E4) Eo.
  split; [done|]. split_and!; try done; [by cbn; rewrite E3|].
  apply wp_bind, wp_dialer_Close. intros err. apply wp_atomically. clear s Hd E1 E2 E3 E4 Eo. intros s F HI. exists (holding f (S n)). split; [|done].
  ci_split HI. destruct (o_t F) eqn:Ef; cbn in *; [|by destruct (t_once s)..]. destruct (t_once s) eqn:Eo; try done.
  destruct It as (E1 & E2 & E3 & E4). split; cbn; rewrite ?Ef; [done|rewrite E1; by split_and!| |done].
  destruct (f_once s), (excl_op f (o_f F)); naive_solver.
Qed.
Lemma wp_h3_once f n (Q : bool -> cliShare -> Prop) : Q true (closing 0 f n) -> Q false (holding f (S n)) -> cwp h3_once (holding f n) Q.
Proof.
  intros Ht Hf. apply wp_select. intros s F HI. destruct (t_once s) eqn:Eo.
  - split; [done|]. intros s' b [= -> ->]%list_elem_of_singleton. exists (closing 0 f n). split; [|done].
    ci_split HI. rewrite Eo in *. destruct (o_t F) eqn:Ef; [|done..]. destruct It as (E1 & E2 & E3 & E4).
    split; cbn; rewrite ?Ef; [done|by split_and!| |intros Hp; specialize (Io Hp); congruence].
    destruct (f_once s), (excl_op f (o_f F)); naive_solver.
  - split; [|by intros ? ? ?%elem_of_nil]. intros _. split; [done|]. by left.
  - split; [done|]. intros s' b [= -> ->]%list_elem_of_singleton. exists (holding f (S n)). split; [|done]. ci_split HI. by split.
Qed.
Lemma wp_h3_Close env f n (Q : option error -> cliShare -> Prop) :
  (forall r, Q r (holding f (S n))) -> cwp (h3_Close env) (holding f n) Q.
Proof.
  intros HQ. assert (cwp (atomically (fun s => (on_transport (t_closed s) (t_once s) (t_closeErr s) (t_raw_closes s)
    (t_seen s ++ [t_closeErr s]) s, t_closeErr s))) (holding f (S n)) Q) as Hread.
  { apply wp_atomically. intros s F HI. exists (holding f (S n)). split; [|apply HQ]. ci_split HI. rewrite (Io ltac:(lia)) in It.
    split; cbn; [done| |done|intros _; apply Io; lia]. rewrite (Io ltac:(lia)). destruct (o_t F); [|done..].
    destruct It as (E1 & E2 & E3 & E4). split_and!; [done..|]. apply Forall_app. by split; [|constructor]. }
  apply wp_bind, wp_h3_once.
  - by apply wp_bind, wp_h3_close_body.
  - exact Hread.
Qed.
Lemma wp_closeProtocolTransports env ps errs f n (Q : option error -> cliShare -> Prop) :
  (forall r k, (n <= k)%nat -> (HTTP3 ∈ ps -> (0 < k)%nat) -> Q r (holding f k)) -> cwp (closeProtocolTransports env ps errs) (holding f n) Q.
Proof.
  revert errs n. induction ps as [|p ps IH]; intros errs n HQ; cbn [closeProtocolTransports]; [apply HQ; [lia|by intros ?%elem_of_nil]|].
  destruct p; try (apply IH; intros r k Hk Hin; apply HQ; [done|intros Hc%elem_of_cons; destruct Hc; [done|auto]]).
  apply wp_bind, wp_h3_Close. intros r. apply IH. intros r' k Hk _. apply HQ; lia.
Qed.
Lemma wp_facade_Close env n (Q : option error -> cliShare -> Prop) :
  (forall r k, Q r (holding Nobody k)) -> cwp (facade_Close slots env) (holding Nobody n) Q.
Proof.
  intros HQ. assert (forall k, cwp (atomically (fun s => (s, f_closeErr s))) (holding Nobody k) Q) as Hread.
  { intros k. apply wp_atomically. intros s F HI. exists (holding Nobody k). split; [done|apply HQ]. }
  apply wp_bind, wp_select. intros s F HI. destruct (f_once s) eqn:Eo.
  - split; [done|]. intros s' b [= -> ->]%list_elem_of_singleton. exists (holding (Owner false) n). split.
    { ci_split HI. rewrite Eo in If. destruct (o_f F); [|done..]. by split. }
    apply wp_bind, wp_bind, wp_atomically. clear s F HI Eo. intros s F HI. exists (holding (Owner true) n). split.
    { ci_split HI. split; [done..| |done]. cbn. destruct (f_once s), (o_f F); done. }
    apply wp_bind, wp_closeProtocolTransports. intros e k _ Hk. apply wp_atomically. clear s F HI. intros s F HI. exists (holding Nobody k). split; [|done].
    ci_split HI. split; [done..| |done]. cbn. destruct (f_once s), (o_f F); try done. split; [done|]. intros H3. apply Io. specialize (Hk H3). lia.
  - split; [|by intros ? ? ?%elem_of_nil]. intros _. split; [done|]. by right.
  - split; [done|]. intros s' b [= -> ->]%list_elem_of_singleton. by exists (holding Nobody n).
Qed.
Lemma wp_client_ops ops n : cwp (client_ops slots ops) (holding Nobody n) (fun _ => cli_fin).
Proof.
  revert n. induction ops as [|o ops IH]; intros n; [done|]. apply wp_bind. destruct o as [env|env|env|env]; unfold client_op_prog; apply wp_bind.
  - apply wp_h3_RoundTrip. intros r. apply IH.
  - apply wp_bind, wp_atomically. intros s F HI. exists (holding Nobody n). split; [done|]. cbn. destruct (f_closed s); [apply IH|].
    apply wp_h3_RoundTrip. intros r. apply IH.
  - apply (wp_h3_Close _ Nobody). intros r. apply IH.
  - apply wp_facade_Close. intros r k. apply IH.
Qed.
End proofs.

(** ** Every interleaving *)
Section reachable.
Context (slots : list HTTPProtocol) (opss : list (list client_op)).
Lemma clients_ok c : rtc pstep (clients_pool slots opss) c -> pool_ok (cli_inv slots) cli_blk cli_fin c.
Proof.
  apply wp_adequate_nil; [split; cbn; [split_and!; done || lia|done|done|intros; lia]|]. apply Forall_fmap, Forall_true. intros ops. apply (wp_client_ops slots ops 0).
Qed.
Lemma clients_rest c : rtc pstep (clients_pool slots opss) c -> ~ can_step c -> finished c.
Proof.
  intros Hok%clients_ok Hst. destruct (pool_ok_blocked _ _ _ _ Hok Hst) as (ms & HI & Hts). destruct c as [s ts]. cbn [fst snd] in *.
  assert (forall m, m ∈ ms -> cli_fin m \/ cli_blk s m) as Hms.
  { intros m [i Hi]%list_elem_of_lookup. destruct (Forall2_lookup_r _ _ _ _ _ Hts Hi) as (t & _ & [[_ ?]|?]); auto. }
  assert (t_once s <> InProgress) as Ht.
  { intros E. pose proof (ci_once _ _ _ HI) as Ho. rewrite E in Ho. destruct (o_t (gsum ms)) as [|ph|] eqn:Eo; [done| |done].
    destruct (sum_excl o_t ms ph) as (m & Hm & Em); [done..|]. destruct (Hms m Hm) as [[? _]|[? _]]; congruence. }
  assert (f_once s <> InProgress) as Hf.
  { intros E. pose proof (ci_facade _ _ _ HI) as Ho. rewrite E in Ho. destruct (o_f (gsum ms)) as [|b|] eqn:Eo; [done| |done].
    destruct (sum_excl o_f ms b) as (m & Hm & Em); [done..|]. destruct (Hms m Hm) as [[_ ?]|[_ [?|[_ ?]]]]; congruence. }
  eapply not_blocked_finished; [exact Hts|]. intros m Hm [_ [?|[? _]]]; done.
Qed.

(** *** The transport is closed *)
Definition closed_stays (s s' : clients) : Prop :=
  (t_once s = Finished -> t_once s' = Finished) /\ (f_once s = Finished -> f_once s' = Finished).
Ltac ci_grows :=
  repeat first
    [ apply respects_ret
    | apply respects_atomically; intros ?; split; intros Hc; unfold dial_section in *; repeat case_match; simplify_eq/=; first [done|congruence]
    | apply respects_select; intros ? ? ? Hin; split; intros Hc; repeat case_match; first [by apply elem_of_nil in Hin|apply list_elem_of_singleton in Hin; simplify_eq/=; first [done|congruence]]
    | apply respects_bind; [|intros ?]
    | match goal with |- respects _ (match ?x with _ => _ end) => destruct x end ].
Lemma h3_Close_stays env : respects closed_stays (h3_Close env).
Proof. unfold h3_Close, h3_once, h3_close_body, dialer_Close. ci_grows. Qed.
Lemma client_ops_stay ops : respects closed_stays (client_ops slots ops).
Proof.
  induction ops as [|o ops IH]; [apply respects_ret|]. apply respects_bind; [|done].
  destruct o as [env|env|env|env]; unfold client_op_prog; (apply respects_bind; [|intros; apply respects_ret]).
  - unfold h3_RoundTrip, raw_RoundTrip, Dial. ci_grows.
  - unfold facade_RoundTrip, h3_RoundTrip, raw_RoundTrip, Dial. ci_grows.
  - apply h3_Close_stays.
  - assert (forall errs, respects closed_stays (closeProtocolTransports env slots errs)) as Hs.
    { clear IH. induction slots as [|p ps IHs]; intros errs; cbn [closeProtocolTransports]; [apply respects_ret|].
      destruct p; try apply IHs. apply respects_bind; [apply h3_Close_stays|]. intros. apply IHs. }
    unfold facade_Close, facade_once. repeat first [apply Hs|progress ci_grows].
Qed.
(** Who closes the transport, by itself or through the facade. *)
Definition closes (o : client_op) : bool :=
  match o with CClose _ => true | CFacadeClose _ => bool_decide (HTTP3 ∈ slots) | _ => false end.
Lemma ensures_h3_Close env : ensures (fun s => t_once s = Finished) (h3_Close env).
Proof.
  intros s s' b Hin. apply list_elem_of_fmap in Hin as ([s1 b1] & [= -> ->] & Hin). destruct (t_once s) eqn:E.
  - apply list_elem_of_singleton in Hin as [= -> ->]. right. apply ensures_then. unfold h3_close_body.
    do 3 (apply ensures_later; intros ?). by apply ensures_atomically.
  - by apply elem_of_nil in Hin.
  - apply list_elem_of_singleton in Hin as [= -> ->]. by left.
Qed.
(** When a goroutine that closes it has returned, the transport is closed. *)
Lemma closes_finished c i ops :
  rtc pstep (clients_pool slots opss) c -> finished c -> opss !! i = Some ops -> existsb closes ops = true -> t_once c.1 = Finished.
Proof.
  intros Hr Hf Hi Hc. destruct (clients_ok c Hr) as (ms & _ & HI).
  destruct (ensures_pool (fun s => t_once s = Finished \/ (HTTP3 ∈ slots /\ f_once s = Finished)) (clients_pool slots opss) c i (client_ops slots ops))
    as [[?|[H3 Hfo]]|(q & Hq & He)]; [|done| | |done| |].
  - apply Forall_fmap, Forall_true. intros os. eapply respects_impl; [|apply client_ops_stay]. cbn. intros s s' [H1 H2]. naive_solver.
  - unfold clients_pool. cbn. by rewrite list_lookup_fmap, Hi.
  - clear Hi. induction ops as [|o ops IH]; [done|]. apply orb_prop in Hc as [Ho|Ho]; [|by apply ensures_later; auto].
    apply ensures_then. destruct o as [env|env|env|env]; try discriminate Ho; apply ensures_then.
    + eapply ensures_impl; [|apply ensures_h3_Close]. auto.
    + apply bool_decide_eq_true in Ho. intros s s' b Hin. apply list_elem_of_fmap in Hin as ([s1 b1] & [= -> ->] & Hin).
      destruct (f_once s) eqn:E; [|by apply elem_of_nil in Hin|]; apply list_elem_of_singleton in Hin as [= -> ->]; [|left; by right].
      right. apply ensures_then. do 2 (apply ensures_later; intros ?). apply ensures_atomically. intros s0. by right.
  - pose proof (ci_facade _ _ _ HI) as Hfa. rewrite Hfo in Hfa. destruct (o_f (gsum ms)); [|done..]. by apply Hfa.
  - pose proof (Forall_lookup_1 _ _ _ _ Hf Hq) as ->. done.
Qed.

(** C24. No request and no [Close] waits for ever, whoever closes first, and nothing is
    leaked: every schedule ends with everybody returned, and if anybody closed the
    transport, by itself or through a facade with an HTTP/3 slot, every socket and QUIC
    transport that was ever opened is then closed, exactly once.  (How long the network
    takes to answer a request is not modelled: what is excluded is waiting on the locks,
    the Once and each other.) *)
Theorem http3_closes :
  inevitable (fun c => finished c /\
    (existsb (existsb closes) opss = true ->
     t_closed c.1 = true /\ t_raw_closes c.1 = 1%nat /\ d_transport c.1 = None /\
     d_sockets_closed c.1 = seq 0 (d_opened c.1) /\ d_transports_closed c.1 = seq 0 (d_opened c.1)))
    (clients_pool slots opss).
Proof.
  apply inevitable_end. intros c Hr Hst. pose proof (clients_rest c Hr Hst) as Hf. split; [done|].
  intros (ops & [i Hi]%list_elem_of_In%list_elem_of_lookup & Hc)%existsb_exists.
  pose proof (closes_finished c i ops Hr Hf Hi Hc) as Ht. destruct (clients_ok c Hr) as (ms & _ & HI). destruct HI as [Id It _ _]. rewrite Ht in It.
  destruct (o_t (gsum ms)) eqn:Eo; [|done..]. destruct It as (E1 & E2 & E3 & _). unfold dialer_inv in Id. cbn in Id. rewrite E3 in Id.
  destruct Id as (H1 & _ & H2 & H3). by split_and!.
Qed.
End reachable.

