(* ===== verification/QuicClient.v ===== *)
(** * QuicClient: connections and streams of the QUIC client (quic/client.go, quic/stream.go)

    What quic-go answers to a call is an argument; the wrapper decides which calls are made
    and how their errors are reported.  [CloseWithError] runs in any number of goroutines. *)
From S2P Require Import Prelude Conc ClientErrors HttpConfig.
Local Open Scope go_scope.
Local Open Scope string_scope.
Local Open Scope list_scope.
Local Open Scope Z_scope.

(** ** Operations *)
Record Conn := { qn_datagrams : bool }.
(** [quicgo.DialAddr], given by what it answers. *)
Definition Dial (ctx : bool) (address : string) (cfg : QuicClientConfig) (dial : tlsConfig -> quicConfig -> option error)
    : Conn + error :=
  if negb ctx then inr (Sentinel ErrNilContext)
  else if String.eqb address "" then inr (Sentinel ErrEmptyAddress)
  else
    match quic_build cfg with
    | inr err => inr err
    | inl (tlsConfig, quicConfig) =>
        match dial tlsConfig quicConfig with
        | Some err => match wrapError OpDial (Some err) with Some e => inr e | None => inl {| qn_datagrams := qcc_EnableDatagrams cfg |} end
        | None => inl {| qn_datagrams := qcc_EnableDatagrams cfg |}
        end
    end.
(** [OpenStream] and [AcceptStream] return the stream or the wrapped error. *)
Definition stream_call {A} (op : QuicOp) (ctx : bool) (raw : A + error) : option A * option error :=
  if negb ctx then (None, Some (Sentinel ErrNilContext))
  else match raw with inl s => (Some s, None) | inr err => (None, wrapError op (Some err)) end.
Definition OpenStream {A} : bool -> A + error -> option A * option error := stream_call OpOpenStream.
Definition AcceptStream {A} : bool -> A + error -> option A * option error := stream_call OpAcceptStream.
Definition SendDatagram (c : Conn) (raw : option error) : option error :=
  if negb (qn_datagrams c) then Some (Sentinel ErrDatagramsDisabled) else wrapError OpSendDatagram raw.
Definition ReceiveDatagram (c : Conn) (ctx : bool) (raw : bytes + error) : option bytes * option error :=
  if negb ctx then (None, Some (Sentinel ErrNilContext))
  else if negb (qn_datagrams c) then (None, Some (Sentinel ErrDatagramsDisabled))
  else match raw with inl payload => (Some payload, None) | inr err => (None, wrapError OpReceiveDatagram (Some err)) end.
(** The context of the connection: whether it is done, its cause and its error. *)
Definition Err (done : bool) (cause : option error) (ctxErr : error) : option error :=
  if done then wrapError OpClose (Some (match cause with Some c => c | None => ctxErr end)) else None.
(** [Stream.Read]: the end of the stream is not wrapped. *)
Definition stream_Read (raw : Z * option error) : Z * option error :=
  match raw with
  | (n, None) => (n, None)
  | (n, Some (Sentinel IoEOF)) => (n, Some (Sentinel IoEOF))
  | (n, Some err) => (n, wrapError OpReadStream (Some err))
  end.
Definition stream_Write (raw : Z * option error) : Z * option error :=
  match raw with (n, None) => (n, None) | (n, Some err) => (n, wrapError OpWriteStream (Some err)) end.
Definition CloseWrite (raw : option error) : option error := wrapError OpCloseStream raw.

(** ** Closing *)
(** The [Once] and the close requests handed to quic-go, with code and reason. *)
Inductive close_state := NotClosed | Closing | Closed (closeErr : option error).
Record connState := { cn_once : close_state; cn_sent : list (Z * string); cn_results : list (option error) }.
Definition close_once (code : Z) (reason : string) : prog connState bool :=
  select (fun s => match cn_once s with
    | NotClosed => [({| cn_once := Closing; cn_sent := cn_sent s ++ [(code, reason)]; cn_results := cn_results s |}, true)]
    | Closing => []
    | Closed _ => [(s, false)]
    end).
Definition CloseWithError (code : Z) (reason : string) (raw : option error) : prog connState (option error) :=
  won ← close_once code reason;
  (if won : bool then
     atomically (fun s => ({| cn_once := Closed (wrapError OpClose raw); cn_sent := cn_sent s; cn_results := cn_results s |}, tt))
   else mret tt) ≫= fun _ =>
  atomically (fun s =>
    let r := match cn_once s with Closed e => e | _ => None end in
    ({| cn_once := cn_once s; cn_sent := cn_sent s; cn_results := cn_results s ++ [r] |}, r)).
Definition Close (raw : option error) : prog connState (option error) := CloseWithError 0 "" raw.
Definition close_pool (calls : list (Z * string * option error)) : pool connState :=
  ({| cn_once := NotClosed; cn_sent := []; cn_results := [] |},
   (fun c => CloseWithError c.1.1 c.1.2 c.2 ≫= fun _ => mret tt) <$> calls).

(** ** Errors *)
(** An error of the package: one of its own checks, or typed with the operation and a kind
    that its cause justifies, the cause being kept. *)
Definition typed (op : QuicOp) (raw e : error) : Prop := exists kind, e = QuicError op kind (Some raw) /\ justified kind raw = true.
Lemma wrap_typed op raw : exists e, wrapError op (Some raw) = Some e /\ typed op raw e.
Proof. eexists. split; [done|]. eexists. split; [done|]. apply classify_justified. Qed.

(** Every failure that quic-go reports reaches the caller typed with the operation it
    belongs to and a kind its cause justifies; only the plain end of a stream is passed on
    as it is, and success stays success.  Datagrams are refused, without a call, unless they
    were enabled. *)
Theorem quic_errors_typed {A} (c : Conn) (raw : error) (ok : A) (payload : bytes) (n : Z) :
  (forall op : QuicOp, stream_call op true (inl ok) = (Some ok, None) /\
     exists e, stream_call op true (inr raw : A + error) = (None, Some e) /\ typed op raw e) /\
  (qn_datagrams c = false -> (forall r, SendDatagram c r = Some (Sentinel ErrDatagramsDisabled)) /\
     forall r, ReceiveDatagram c true r = (None, Some (Sentinel ErrDatagramsDisabled))) /\
  (qn_datagrams c = true -> SendDatagram c None = None /\ ReceiveDatagram c true (inl payload) = (Some payload, None) /\
     (exists e, SendDatagram c (Some raw) = Some e /\ typed OpSendDatagram raw e) /\
     exists e, ReceiveDatagram c true (inr raw) = (None, Some e) /\ typed OpReceiveDatagram raw e) /\
  (raw <> Sentinel IoEOF -> exists e, stream_Read (n, Some raw) = (n, Some e) /\ typed OpReadStream raw e) /\
  stream_Read (n, Some (Sentinel IoEOF)) = (n, Some (Sentinel IoEOF)) /\
  (exists e, stream_Write (n, Some raw) = (n, Some e) /\ typed OpWriteStream raw e) /\
  (forall cause ctxErr, exists e, Err true cause ctxErr = Some e /\ typed OpClose (match cause with Some x => x | None => ctxErr end) e).
Proof.
  assert (forall op, typed op raw (QuicError op (classifyError (Some raw)) (Some raw))) as Ht.
  { intros op. eexists. split; [done|]. apply classify_justified. }
  split_and!; try done.
  - intros op. split; [done|]. eexists. by split.
  - intros Hd. unfold SendDatagram, ReceiveDatagram. rewrite Hd. by split.
  - intros Hd. unfold SendDatagram, ReceiveDatagram. rewrite Hd. split_and!; try done; (eexists; by split).
  - intros Hne. unfold stream_Read. destruct raw as [[]| | | | | | |]; try done; (eexists; by split).
  - eexists. by split.
  - intros cause ctxErr. apply wrap_typed.
Qed.

(** ** Every interleaving of closings *)
(** The goroutine that runs the function of the [Once] owns it; who has found it finished
    owns a token. *)
Definition close_inv (s : connState) (m : excl unit * nat) : Prop :=
  match cn_once s, m.1 with
  | NotClosed, Nobody => cn_sent s = [] /\ cn_results s = [] /\ m.2 = 0%nat
  | Closing, Owner _ => length (cn_sent s) = 1%nat /\ cn_results s = [] /\ m.2 = 0%nat
  | Closed e, Nobody => length (cn_sent s) = 1%nat /\ Forall (fun r => r = e) (cn_results s)
  | _, _ => False
  end.
Definition close_blk (s : connState) (m : excl unit * nat) : Prop := cn_once s = Closing /\ m.1 = Nobody.
Lemma wp_read_result (Q : option error -> excl unit * nat -> Prop) :
  (forall r, Q r (Nobody, 1%nat)) ->
  wp close_inv close_blk (atomically (fun s =>
    let r := match cn_once s with Closed e => e | _ => None end in
    ({| cn_once := cn_once s; cn_sent := cn_sent s; cn_results := cn_results s ++ [r] |}, r))) (Nobody, 1%nat) Q.
Proof.
  intros HQ. apply wp_atomically. intros s F HI. exists (Nobody, 1%nat). split; [|apply HQ]. unfold close_inv in *. cbn in *.
  destruct (cn_once s), F.1; try done; [naive_solver..|]. destruct HI as [? ?]. split; [done|]. apply Forall_app. by split; [|constructor].
Qed.
Lemma wp_CloseWithError code reason raw (Q : option error -> excl unit * nat -> Prop) :
  (forall r, Q r (Nobody, 1%nat)) -> wp close_inv close_blk (CloseWithError code reason raw) gnil Q.
Proof.
  intros HQ. apply wp_bind, wp_select. intros s F HI. unfold close_inv in HI. cbn in HI. destruct (cn_once s) eqn:Eo.
  - split; [done|]. intros s' b [= -> ->]%list_elem_of_singleton. exists (Owner tt, 0%nat). split.
    { unfold close_inv. cbn. destruct F.1; [|done..]. destruct HI as (-> & -> & ?). by split_and!. }
    apply wp_bind, wp_atomically. clear s F HI Eo. intros s F HI. exists (Nobody, 1%nat). split; [|by apply wp_read_result].
    unfold close_inv in *. cbn in *. destruct (cn_once s), F.1; try done. destruct HI as (? & -> & _). by split.
  - split; [|by intros ? ? ?%elem_of_nil]. done.
  - split; [done|]. intros s' b [= -> ->]%list_elem_of_singleton. exists (Nobody, 1%nat). split.
    { unfold close_inv. cbn. by rewrite Eo. }
    by apply wp_bind, wp_ret, wp_read_result.
Qed.
(** However many goroutines close a connection, with whatever codes: exactly one close
    request is sent to the peer, nobody waits for ever, and all of them return the result
    of that request. *)
Theorem quic_close_once calls :
  inevitable (fun c => finished c /\ (calls <> [] -> length (cn_sent c.1) = 1%nat /\
    exists r, cn_once c.1 = Closed r /\ Forall (fun r' => r' = r) (cn_results c.1))) (close_pool calls).
Proof.
  apply inevitable_end. intros c Hr Hst.
  assert (pool_ok close_inv close_blk (fun m => m = (Nobody, 1%nat)) c) as Hok.
  { eapply wp_adequate_nil; [| |exact Hr]; [done|]. apply Forall_fmap, Forall_true. intros x. by apply wp_bind, wp_CloseWithError. }
  assert (length c.2 = length calls) as Hlen.
  { assert (length c.2 = length (close_pool calls).2) as ->; [|apply length_fmap].
    clear - Hr. induction Hr as [c|c1 c2 c3 Hs _ IH]; [done|]. rewrite IH. inversion Hs; subst; cbn. by rewrite length_insert. }
  destruct (pool_ok_blocked _ _ _ _ Hok Hst) as (ms & HI & Hts). destruct c as [s ts]. cbn [fst snd] in *.
  assert (cn_once s <> Closing) as Hno.
  { intros E. unfold close_inv in HI. rewrite E in HI. destruct (gsum ms).1 as [|[]|] eqn:Eo; [done| |done].
    destruct (sum_excl fst ms tt) as (m & [i Hi]%list_elem_of_lookup & Em); [done..|].
    destruct (Forall2_lookup_r _ _ _ _ _ Hts Hi) as (t & _ & [[_ ->]|[_ ?]]); [done|congruence]. }
  assert (finished (s, ts)) as Hf by (eapply not_blocked_finished; [exact Hts|]; intros m _ [? _]; done).
  split; [done|]. intros Hne. unfold close_inv in HI.
  assert (0 < (gsum ms).2)%nat as Htok.
  { destruct ms as [|m ms]; [destruct calls; [done|]; apply Forall2_length in Hts; cbn in *; congruence|].
    inversion Hts as [|t m' ts' ms' [[_ Em]|[? _]]]; subst; [|done]. change (gsum _) with ((Nobody, 1%nat) ∙ gsum ms). cbn. lia. }
  destruct (cn_once s) as [| |r]; [destruct (gsum ms).1; naive_solver lia|done|]. destruct (gsum ms).1; [|done..].
  destruct HI as [? ?]. split; [done|]. by exists r.
Qed.
