(* ===== verification/Setup.v ===== *)
(** * Setup: what connection set-up works on

    The Engine, its sockets and sessions, its listeners and the goroutines they start, as
    one state shared by all of them, with the TCP sockets of transport/tcp.go, the building
    of sessions (engine_stream_dial.go, websocket_client.go) and the calls of the Engine that
    set-up makes.  The programs that dial and accept are in StreamSetup.v, HttpTracker.v,
    WsServer.v and WsDial.v.

    Pointers to listeners, sessions, httpConnLeases and wsDialAdmissions are indices into the
    tables of the state; sockets are numbered in the order in which they are opened.  The
    network and the libraries are given by what they answer. *)
From S2P Require Import Prelude Conc Kinds Errors Classify Endpoint NetAddr HostPort Secure Wire Reader.
From S2P Require Import Quota Limits Engine Options ActivityClock Observer Stats HttpClose.
Local Open Scope go_scope.

(** ** Data *)
(** A [net.Conn]: the socket, or the TLS connection over it. *)
Inductive net_conn := RawConn (c : nat) | TLSConn (c : nat).
#[global] Instance net_conn_eq_dec : EqDecision net_conn.
Proof. solve_decision. Defined.
#[global] Instance net_conn_countable : Countable net_conn.
Proof.
  refine (inj_countable' (fun k => match k with RawConn c => inl c | TLSConn c => inr c end)
    (fun x => match x with inl c => RawConn c | inr c => TLSConn c end) _).
  by intros [].
Defined.
(** The socket below; [physicalStreamCloser] closes this one. *)
Definition physicalStreamCloser (k : net_conn) : nat := match k with RawConn c | TLSConn c => c end.

(** The fields of [conn] that its construction fixes; the channels by their capacities. *)
Record conn_parts := {
  cp_id : Z; cp_protocol : Scheme; cp_endpoint : Endpoint; cp_raw : net_conn; cp_physical : nat;
  cp_framer : Framer; cp_wireFramer : bool; cp_queue : Z; cp_quota : Z; cp_frameSlots : Z;
  cp_readSize : Z; cp_maxRead : Z; cp_timeouts : Timeouts; cp_activity : option activityClock }.
(** The same for [wsSession]. *)
Record ws_parts := {
  wp_id : Z; wp_protocol : Scheme; wp_endpoint : Endpoint; wp_local : option net_addr; wp_remote : option net_addr;
  wp_cipher : option Cipher; wp_maxMessage : Z; wp_writeTO : Z; wp_readIdle : Z; wp_activity : option activityClock;
  wp_pingEvery : Z; wp_pongTO : Z; wp_queue : Z; wp_quota : Z; wp_frameSlots : Z; wp_physical : option nat }.
Inductive session := StreamSession (p : conn_parts) | WSSession (p : ws_parts).
(** The socket a session closes. *)
Definition session_socket (x : session) : option nat :=
  match x with StreamSession p => Some (cp_physical p) | WSSession p => wp_physical p end.
Definition session_id (x : session) : Z := match x with StreamSession p => cp_id p | WSSession p => wp_id p end.

(** An unbuffered channel with at most one receiver: nobody receives, somebody waits, or a
    value has been handed over. *)
Inductive rendezvous := NoReceiver | Receiving | Handed (k : net_conn).

Inductive httpConnLeaseState := httpConnLeaseHeld | httpConnLeaseTransferred | httpConnLeaseReleased.
#[global] Instance httpConnLeaseState_eq_dec : EqDecision httpConnLeaseState.
Proof. solve_decision. Defined.
Record httpConnLease := {
  hl_tracker : nat;   (* of which wsListener *)
  hl_lease : nat; hl_physical : nat; hl_state : httpConnLeaseState }.

(** [wsDialAdmission], with the answer of the dial that the [http.Transport] waits for, whether the
    request has got it and whether it has gone without. *)
Record wsDialAdmission := {
  da_lease : option nat; da_local : option net_addr; da_remote : option net_addr; da_physical : option nat;
  da_connectDone : bool; da_connectDuration : Z; da_connectErr : option error;
  da_dialed : option (result net_conn); da_received : bool; da_abandoned : bool }.

(** What a [go] statement starts. *)
Inductive task :=
  | TWatch (i : nat)                      (* listener.watchContext *)
  | TAccept (i : nat)                     (* listener.acceptLoop *)
  | THandle (i c : nat)                   (* listener.handleAccepted *)
  | TWsWatch (i : nat) | TWsServe (i : nat)   (* of listenWebSocket *)
  | TGated (i : nat)                      (* gatedTLSListener.acceptLoop *)
  | THandshake (i c : nat)                (* gatedTLSListener.handshake *)
  | TServeConn (i : nat) (k : net_conn)   (* a connection of the http.Server *)
  | TDial (d : nat) (endpoint : Endpoint).   (* a dial of the http.Transport *)

(** ** Listeners *)
Record listener := Listener {
  li_id : Z;
  li_endpoint : Endpoint;
  li_addr : option net_addr;   (* ln.Addr() *)
  li_prepare : option tlsConfig;   (* prepare, with the configuration it closes over *)
  li_capacity : nat;
  li_accepted : Z;   (* stats *)
  li_age : resourceAge;
  li_ctx : bool;   (* ctx is done *)
  li_lnClosed : bool;   (* ln is closed *)
  li_closing : bool;   (* closing is closed *)
  li_done : bool;   (* done is closed *)
  li_closeOnce : once;
  li_finalOnce : once;
  li_err : option error;
  li_delays : list Z;   (* history: the delays of acceptLoop *)
}.
Definition set_li_id (x : Z) (l : listener) : listener :=
  Listener
    x (li_endpoint l) (li_addr l) (li_prepare l) (li_capacity l) (li_accepted l) (li_age l) (li_ctx l)
    (li_lnClosed l) (li_closing l) (li_done l) (li_closeOnce l) (li_finalOnce l) (li_err l) (li_delays
    l).
Definition set_li_endpoint (x : Endpoint) (l : listener) : listener :=
  Listener
    (li_id l) x (li_addr l) (li_prepare l) (li_capacity l) (li_accepted l) (li_age l) (li_ctx l)
    (li_lnClosed l) (li_closing l) (li_done l) (li_closeOnce l) (li_finalOnce l) (li_err l) (li_delays
    l).
Definition set_li_addr (x : option net_addr) (l : listener) : listener :=
  Listener
    (li_id l) (li_endpoint l) x (li_prepare l) (li_capacity l) (li_accepted l) (li_age l) (li_ctx l)
    (li_lnClosed l) (li_closing l) (li_done l) (li_closeOnce l) (li_finalOnce l) (li_err l) (li_delays
    l).
Definition set_li_prepare (x : option tlsConfig) (l : listener) : listener :=
  Listener
    (li_id l) (li_endpoint l) (li_addr l) x (li_capacity l) (li_accepted l) (li_age l) (li_ctx l)
    (li_lnClosed l) (li_closing l) (li_done l) (li_closeOnce l) (li_finalOnce l) (li_err l) (li_delays
    l).
Definition set_li_capacity (x : nat) (l : listener) : listener :=
  Listener
    (li_id l) (li_endpoint l) (li_addr l) (li_prepare l) x (li_accepted l) (li_age l) (li_ctx l)
    (li_lnClosed l) (li_closing l) (li_done l) (li_closeOnce l) (li_finalOnce l) (li_err l) (li_delays
    l).
Definition set_li_accepted (x : Z) (l : listener) : listener :=
  Listener
    (li_id l) (li_endpoint l) (li_addr l) (li_prepare l) (li_capacity l) x (li_age l) (li_ctx l)
    (li_lnClosed l) (li_closing l) (li_done l) (li_closeOnce l) (li_finalOnce l) (li_err l) (li_delays
    l).
Definition set_li_age (x : resourceAge) (l : listener) : listener :=
  Listener
    (li_id l) (li_endpoint l) (li_addr l) (li_prepare l) (li_capacity l) (li_accepted l) x (li_ctx l)
    (li_lnClosed l) (li_closing l) (li_done l) (li_closeOnce l) (li_finalOnce l) (li_err l) (li_delays
    l).
Definition set_li_ctx (x : bool) (l : listener) : listener :=
  Listener
    (li_id l) (li_endpoint l) (li_addr l) (li_prepare l) (li_capacity l) (li_accepted l) (li_age l) x
    (li_lnClosed l) (li_closing l) (li_done l) (li_closeOnce l) (li_finalOnce l) (li_err l) (li_delays
    l).
Definition set_li_lnClosed (x : bool) (l : listener) : listener :=
  Listener
    (li_id l) (li_endpoint l) (li_addr l) (li_prepare l) (li_capacity l) (li_accepted l) (li_age l)
    (li_ctx l) x (li_closing l) (li_done l) (li_closeOnce l) (li_finalOnce l) (li_err l) (li_delays l).
Definition set_li_closing (x : bool) (l : listener) : listener :=
  Listener
    (li_id l) (li_endpoint l) (li_addr l) (li_prepare l) (li_capacity l) (li_accepted l) (li_age l)
    (li_ctx l) (li_lnClosed l) x (li_done l) (li_closeOnce l) (li_finalOnce l) (li_err l) (li_delays l).
Definition set_li_done (x : bool) (l : listener) : listener :=
  Listener
    (li_id l) (li_endpoint l) (li_addr l) (li_prepare l) (li_capacity l) (li_accepted l) (li_age l)
    (li_ctx l) (li_lnClosed l) (li_closing l) x (li_closeOnce l) (li_finalOnce l) (li_err l) (li_delays
    l).
Definition set_li_closeOnce (x : once) (l : listener) : listener :=
  Listener
    (li_id l) (li_endpoint l) (li_addr l) (li_prepare l) (li_capacity l) (li_accepted l) (li_age l)
    (li_ctx l) (li_lnClosed l) (li_closing l) (li_done l) x (li_finalOnce l) (li_err l) (li_delays l).
Definition set_li_finalOnce (x : once) (l : listener) : listener :=
  Listener
    (li_id l) (li_endpoint l) (li_addr l) (li_prepare l) (li_capacity l) (li_accepted l) (li_age l)
    (li_ctx l) (li_lnClosed l) (li_closing l) (li_done l) (li_closeOnce l) x (li_err l) (li_delays l).
Definition set_li_err (x : option error) (l : listener) : listener :=
  Listener
    (li_id l) (li_endpoint l) (li_addr l) (li_prepare l) (li_capacity l) (li_accepted l) (li_age l)
    (li_ctx l) (li_lnClosed l) (li_closing l) (li_done l) (li_closeOnce l) (li_finalOnce l) x (li_delays
    l).
Definition set_li_delays (x : list Z) (l : listener) : listener :=
  Listener
    (li_id l) (li_endpoint l) (li_addr l) (li_prepare l) (li_capacity l) (li_accepted l) (li_age l)
    (li_ctx l) (li_lnClosed l) (li_closing l) (li_done l) (li_closeOnce l) (li_finalOnce l) (li_err l) x.
Record wsListener := WsListener {
  wl_id : Z;
  wl_endpoint : Endpoint;
  wl_addr : option net_addr;   (* serveLn.Addr() *)
  wl_path : string;   (* the path the handler answers to *)
  wl_tls : option tlsConfig;   (* of the gatedTLSListener, if there is one *)
  wl_capacity : nat;
  wl_accepted : Z;   (* stats *)
  wl_age : resourceAge;
  wl_ctx : bool;   (* lctx is done *)
  wl_gctx : bool;   (* the context of the gatedTLSListener is done *)
  wl_gerr : option (error * bool);   (* its err, and whether it is temporary *)
  wl_gonce : once;   (* its closeOnce *)
  wl_ready : rendezvous;   (* its ready *)
  wl_lnClosed : bool;   (* the listening socket is closed *)
  wl_serving : bool;   (* the http.Server has the listener *)
  wl_shutdown : bool;   (* the http.Server is closed *)
  wl_closing : bool;
  wl_done : bool;
  wl_closeOnce : once;
  wl_err : option error;
  wl_leases : gmap net_conn nat;   (* the tracker *)
  wl_byLease : gmap nat net_conn;
}.
Definition set_wl_id (x : Z) (l : wsListener) : wsListener :=
  WsListener
    x (wl_endpoint l) (wl_addr l) (wl_path l) (wl_tls l) (wl_capacity l) (wl_accepted l) (wl_age l)
    (wl_ctx l) (wl_gctx l) (wl_gerr l) (wl_gonce l) (wl_ready l) (wl_lnClosed l) (wl_serving l)
    (wl_shutdown l) (wl_closing l) (wl_done l) (wl_closeOnce l) (wl_err l) (wl_leases l) (wl_byLease l).
Definition set_wl_endpoint (x : Endpoint) (l : wsListener) : wsListener :=
  WsListener
    (wl_id l) x (wl_addr l) (wl_path l) (wl_tls l) (wl_capacity l) (wl_accepted l) (wl_age l) (wl_ctx l)
    (wl_gctx l) (wl_gerr l) (wl_gonce l) (wl_ready l) (wl_lnClosed l) (wl_serving l) (wl_shutdown l)
    (wl_closing l) (wl_done l) (wl_closeOnce l) (wl_err l) (wl_leases l) (wl_byLease l).
Definition set_wl_addr (x : option net_addr) (l : wsListener) : wsListener :=
  WsListener
    (wl_id l) (wl_endpoint l) x (wl_path l) (wl_tls l) (wl_capacity l) (wl_accepted l) (wl_age l)
    (wl_ctx l) (wl_gctx l) (wl_gerr l) (wl_gonce l) (wl_ready l) (wl_lnClosed l) (wl_serving l)
    (wl_shutdown l) (wl_closing l) (wl_done l) (wl_closeOnce l) (wl_err l) (wl_leases l) (wl_byLease l).
Definition set_wl_path (x : string) (l : wsListener) : wsListener :=
  WsListener
    (wl_id l) (wl_endpoint l) (wl_addr l) x (wl_tls l) (wl_capacity l) (wl_accepted l) (wl_age l)
    (wl_ctx l) (wl_gctx l) (wl_gerr l) (wl_gonce l) (wl_ready l) (wl_lnClosed l) (wl_serving l)
    (wl_shutdown l) (wl_closing l) (wl_done l) (wl_closeOnce l) (wl_err l) (wl_leases l) (wl_byLease l).
Definition set_wl_tls (x : option tlsConfig) (l : wsListener) : wsListener :=
  WsListener
    (wl_id l) (wl_endpoint l) (wl_addr l) (wl_path l) x (wl_capacity l) (wl_accepted l) (wl_age l)
    (wl_ctx l) (wl_gctx l) (wl_gerr l) (wl_gonce l) (wl_ready l) (wl_lnClosed l) (wl_serving l)
    (wl_shutdown l) (wl_closing l) (wl_done l) (wl_closeOnce l) (wl_err l) (wl_leases l) (wl_byLease l).
Definition set_wl_capacity (x : nat) (l : wsListener) : wsListener :=
  WsListener
    (wl_id l) (wl_endpoint l) (wl_addr l) (wl_path l) (wl_tls l) x (wl_accepted l) (wl_age l) (wl_ctx l)
    (wl_gctx l) (wl_gerr l) (wl_gonce l) (wl_ready l) (wl_lnClosed l) (wl_serving l) (wl_shutdown l)
    (wl_closing l) (wl_done l) (wl_closeOnce l) (wl_err l) (wl_leases l) (wl_byLease l).
Definition set_wl_accepted (x : Z) (l : wsListener) : wsListener :=
  WsListener
    (wl_id l) (wl_endpoint l) (wl_addr l) (wl_path l) (wl_tls l) (wl_capacity l) x (wl_age l) (wl_ctx l)
    (wl_gctx l) (wl_gerr l) (wl_gonce l) (wl_ready l) (wl_lnClosed l) (wl_serving l) (wl_shutdown l)
    (wl_closing l) (wl_done l) (wl_closeOnce l) (wl_err l) (wl_leases l) (wl_byLease l).
Definition set_wl_age (x : resourceAge) (l : wsListener) : wsListener :=
  WsListener
    (wl_id l) (wl_endpoint l) (wl_addr l) (wl_path l) (wl_tls l) (wl_capacity l) (wl_accepted l) x
    (wl_ctx l) (wl_gctx l) (wl_gerr l) (wl_gonce l) (wl_ready l) (wl_lnClosed l) (wl_serving l)
    (wl_shutdown l) (wl_closing l) (wl_done l) (wl_closeOnce l) (wl_err l) (wl_leases l) (wl_byLease l).
Definition set_wl_ctx (x : bool) (l : wsListener) : wsListener :=
  WsListener
    (wl_id l) (wl_endpoint l) (wl_addr l) (wl_path l) (wl_tls l) (wl_capacity l) (wl_accepted l) (wl_age
    l) x (wl_gctx l) (wl_gerr l) (wl_gonce l) (wl_ready l) (wl_lnClosed l) (wl_serving l) (wl_shutdown
    l) (wl_closing l) (wl_done l) (wl_closeOnce l) (wl_err l) (wl_leases l) (wl_byLease l).
Definition set_wl_gctx (x : bool) (l : wsListener) : wsListener :=
  WsListener
    (wl_id l) (wl_endpoint l) (wl_addr l) (wl_path l) (wl_tls l) (wl_capacity l) (wl_accepted l) (wl_age
    l) (wl_ctx l) x (wl_gerr l) (wl_gonce l) (wl_ready l) (wl_lnClosed l) (wl_serving l) (wl_shutdown l)
    (wl_closing l) (wl_done l) (wl_closeOnce l) (wl_err l) (wl_leases l) (wl_byLease l).
Definition set_wl_gerr (x : option (error * bool)) (l : wsListener) : wsListener :=
  WsListener
    (wl_id l) (wl_endpoint l) (wl_addr l) (wl_path l) (wl_tls l) (wl_capacity l) (wl_accepted l) (wl_age
    l) (wl_ctx l) (wl_gctx l) x (wl_gonce l) (wl_ready l) (wl_lnClosed l) (wl_serving l) (wl_shutdown l)
    (wl_closing l) (wl_done l) (wl_closeOnce l) (wl_err l) (wl_leases l) (wl_byLease l).
Definition set_wl_gonce (x : once) (l : wsListener) : wsListener :=
  WsListener
    (wl_id l) (wl_endpoint l) (wl_addr l) (wl_path l) (wl_tls l) (wl_capacity l) (wl_accepted l) (wl_age
    l) (wl_ctx l) (wl_gctx l) (wl_gerr l) x (wl_ready l) (wl_lnClosed l) (wl_serving l) (wl_shutdown l)
    (wl_closing l) (wl_done l) (wl_closeOnce l) (wl_err l) (wl_leases l) (wl_byLease l).
Definition set_wl_ready (x : rendezvous) (l : wsListener) : wsListener :=
  WsListener
    (wl_id l) (wl_endpoint l) (wl_addr l) (wl_path l) (wl_tls l) (wl_capacity l) (wl_accepted l) (wl_age
    l) (wl_ctx l) (wl_gctx l) (wl_gerr l) (wl_gonce l) x (wl_lnClosed l) (wl_serving l) (wl_shutdown l)
    (wl_closing l) (wl_done l) (wl_closeOnce l) (wl_err l) (wl_leases l) (wl_byLease l).
Definition set_wl_lnClosed (x : bool) (l : wsListener) : wsListener :=
  WsListener
    (wl_id l) (wl_endpoint l) (wl_addr l) (wl_path l) (wl_tls l) (wl_capacity l) (wl_accepted l) (wl_age
    l) (wl_ctx l) (wl_gctx l) (wl_gerr l) (wl_gonce l) (wl_ready l) x (wl_serving l) (wl_shutdown l)
    (wl_closing l) (wl_done l) (wl_closeOnce l) (wl_err l) (wl_leases l) (wl_byLease l).
Definition set_wl_serving (x : bool) (l : wsListener) : wsListener :=
  WsListener
    (wl_id l) (wl_endpoint l) (wl_addr l) (wl_path l) (wl_tls l) (wl_capacity l) (wl_accepted l) (wl_age
    l) (wl_ctx l) (wl_gctx l) (wl_gerr l) (wl_gonce l) (wl_ready l) (wl_lnClosed l) x (wl_shutdown l)
    (wl_closing l) (wl_done l) (wl_closeOnce l) (wl_err l) (wl_leases l) (wl_byLease l).
Definition set_wl_shutdown (x : bool) (l : wsListener) : wsListener :=
  WsListener
    (wl_id l) (wl_endpoint l) (wl_addr l) (wl_path l) (wl_tls l) (wl_capacity l) (wl_accepted l) (wl_age
    l) (wl_ctx l) (wl_gctx l) (wl_gerr l) (wl_gonce l) (wl_ready l) (wl_lnClosed l) (wl_serving l) x
    (wl_closing l) (wl_done l) (wl_closeOnce l) (wl_err l) (wl_leases l) (wl_byLease l).
Definition set_wl_closing (x : bool) (l : wsListener) : wsListener :=
  WsListener
    (wl_id l) (wl_endpoint l) (wl_addr l) (wl_path l) (wl_tls l) (wl_capacity l) (wl_accepted l) (wl_age
    l) (wl_ctx l) (wl_gctx l) (wl_gerr l) (wl_gonce l) (wl_ready l) (wl_lnClosed l) (wl_serving l)
    (wl_shutdown l) x (wl_done l) (wl_closeOnce l) (wl_err l) (wl_leases l) (wl_byLease l).
Definition set_wl_done (x : bool) (l : wsListener) : wsListener :=
  WsListener
    (wl_id l) (wl_endpoint l) (wl_addr l) (wl_path l) (wl_tls l) (wl_capacity l) (wl_accepted l) (wl_age
    l) (wl_ctx l) (wl_gctx l) (wl_gerr l) (wl_gonce l) (wl_ready l) (wl_lnClosed l) (wl_serving l)
    (wl_shutdown l) (wl_closing l) x (wl_closeOnce l) (wl_err l) (wl_leases l) (wl_byLease l).
Definition set_wl_closeOnce (x : once) (l : wsListener) : wsListener :=
  WsListener
    (wl_id l) (wl_endpoint l) (wl_addr l) (wl_path l) (wl_tls l) (wl_capacity l) (wl_accepted l) (wl_age
    l) (wl_ctx l) (wl_gctx l) (wl_gerr l) (wl_gonce l) (wl_ready l) (wl_lnClosed l) (wl_serving l)
    (wl_shutdown l) (wl_closing l) (wl_done l) x (wl_err l) (wl_leases l) (wl_byLease l).
Definition set_wl_err (x : option error) (l : wsListener) : wsListener :=
  WsListener
    (wl_id l) (wl_endpoint l) (wl_addr l) (wl_path l) (wl_tls l) (wl_capacity l) (wl_accepted l) (wl_age
    l) (wl_ctx l) (wl_gctx l) (wl_gerr l) (wl_gonce l) (wl_ready l) (wl_lnClosed l) (wl_serving l)
    (wl_shutdown l) (wl_closing l) (wl_done l) (wl_closeOnce l) x (wl_leases l) (wl_byLease l).
Definition set_wl_leases (x : gmap net_conn nat) (l : wsListener) : wsListener :=
  WsListener
    (wl_id l) (wl_endpoint l) (wl_addr l) (wl_path l) (wl_tls l) (wl_capacity l) (wl_accepted l) (wl_age
    l) (wl_ctx l) (wl_gctx l) (wl_gerr l) (wl_gonce l) (wl_ready l) (wl_lnClosed l) (wl_serving l)
    (wl_shutdown l) (wl_closing l) (wl_done l) (wl_closeOnce l) (wl_err l) x (wl_byLease l).
Definition set_wl_byLease (x : gmap nat net_conn) (l : wsListener) : wsListener :=
  WsListener
    (wl_id l) (wl_endpoint l) (wl_addr l) (wl_path l) (wl_tls l) (wl_capacity l) (wl_accepted l) (wl_age
    l) (wl_ctx l) (wl_gctx l) (wl_gerr l) (wl_gonce l) (wl_ready l) (wl_lnClosed l) (wl_serving l)
    (wl_shutdown l) (wl_closing l) (wl_done l) (wl_closeOnce l) (wl_err l) (wl_leases l) x.

(** ** The state *)
Record world := World {
  w_engine : Engine;
  w_nextID : Z;   (* Engine.nextID, uint64 *)
  w_now : Z;   (* the clock *)
  w_events : list Event;   (* history: events given to the observer *)
  w_sockets : list (net_addr * net_addr);   (* every socket opened so far: its local and remote address *)
  w_closed : gset nat;   (* history: sockets that were closed *)
  w_sessions : list session;   (* every session built so far *)
  w_started : list nat;   (* history: sessions that were started *)
  w_factory : nat;   (* calls of the framer or cipher factory so far *)
  w_capacities : nat;   (* listener capacities in use *)
  w_listeners : list listener;   (* every stream listener made so far *)
  w_wsListeners : list wsListener;   (* every WebSocket listener made so far *)
  w_holders : list httpConnLease;   (* every httpConnLease made so far *)
  w_dials : list wsDialAdmission;   (* every wsDialAdmission made so far *)
  w_go : list (bool * task);   (* the goroutines started so far, and whether each has begun *)
}.
Definition set_w_engine (x : Engine) (s : world) : world :=
  World
    x (w_nextID s) (w_now s) (w_events s) (w_sockets s) (w_closed s) (w_sessions s) (w_started s)
    (w_factory s) (w_capacities s) (w_listeners s) (w_wsListeners s) (w_holders s) (w_dials s) (w_go s).
Definition set_w_nextID (x : Z) (s : world) : world :=
  World
    (w_engine s) x (w_now s) (w_events s) (w_sockets s) (w_closed s) (w_sessions s) (w_started s)
    (w_factory s) (w_capacities s) (w_listeners s) (w_wsListeners s) (w_holders s) (w_dials s) (w_go s).
Definition set_w_now (x : Z) (s : world) : world :=
  World
    (w_engine s) (w_nextID s) x (w_events s) (w_sockets s) (w_closed s) (w_sessions s) (w_started s)
    (w_factory s) (w_capacities s) (w_listeners s) (w_wsListeners s) (w_holders s) (w_dials s) (w_go s).
Definition set_w_events (x : list Event) (s : world) : world :=
  World
    (w_engine s) (w_nextID s) (w_now s) x (w_sockets s) (w_closed s) (w_sessions s) (w_started s)
    (w_factory s) (w_capacities s) (w_listeners s) (w_wsListeners s) (w_holders s) (w_dials s) (w_go s).
Definition set_w_sockets (x : list (net_addr * net_addr)) (s : world) : world :=
  World
    (w_engine s) (w_nextID s) (w_now s) (w_events s) x (w_closed s) (w_sessions s) (w_started s)
    (w_factory s) (w_capacities s) (w_listeners s) (w_wsListeners s) (w_holders s) (w_dials s) (w_go s).
Definition set_w_closed (x : gset nat) (s : world) : world :=
  World
    (w_engine s) (w_nextID s) (w_now s) (w_events s) (w_sockets s) x (w_sessions s) (w_started s)
    (w_factory s) (w_capacities s) (w_listeners s) (w_wsListeners s) (w_holders s) (w_dials s) (w_go s).
Definition set_w_sessions (x : list session) (s : world) : world :=
  World
    (w_engine s) (w_nextID s) (w_now s) (w_events s) (w_sockets s) (w_closed s) x (w_started s)
    (w_factory s) (w_capacities s) (w_listeners s) (w_wsListeners s) (w_holders s) (w_dials s) (w_go s).
Definition set_w_started (x : list nat) (s : world) : world :=
  World
    (w_engine s) (w_nextID s) (w_now s) (w_events s) (w_sockets s) (w_closed s) (w_sessions s) x
    (w_factory s) (w_capacities s) (w_listeners s) (w_wsListeners s) (w_holders s) (w_dials s) (w_go s).
Definition set_w_factory (x : nat) (s : world) : world :=
  World
    (w_engine s) (w_nextID s) (w_now s) (w_events s) (w_sockets s) (w_closed s) (w_sessions s)
    (w_started s) x (w_capacities s) (w_listeners s) (w_wsListeners s) (w_holders s) (w_dials s) (w_go
    s).
Definition set_w_capacities (x : nat) (s : world) : world :=
  World
    (w_engine s) (w_nextID s) (w_now s) (w_events s) (w_sockets s) (w_closed s) (w_sessions s)
    (w_started s) (w_factory s) x (w_listeners s) (w_wsListeners s) (w_holders s) (w_dials s) (w_go s).
Definition set_w_listeners (x : list listener) (s : world) : world :=
  World
    (w_engine s) (w_nextID s) (w_now s) (w_events s) (w_sockets s) (w_closed s) (w_sessions s)
    (w_started s) (w_factory s) (w_capacities s) x (w_wsListeners s) (w_holders s) (w_dials s) (w_go s).
Definition set_w_wsListeners (x : list wsListener) (s : world) : world :=
  World
    (w_engine s) (w_nextID s) (w_now s) (w_events s) (w_sockets s) (w_closed s) (w_sessions s)
    (w_started s) (w_factory s) (w_capacities s) (w_listeners s) x (w_holders s) (w_dials s) (w_go s).
Definition set_w_holders (x : list httpConnLease) (s : world) : world :=
  World
    (w_engine s) (w_nextID s) (w_now s) (w_events s) (w_sockets s) (w_closed s) (w_sessions s)
    (w_started s) (w_factory s) (w_capacities s) (w_listeners s) (w_wsListeners s) x (w_dials s) (w_go
    s).
Definition set_w_dials (x : list wsDialAdmission) (s : world) : world :=
  World
    (w_engine s) (w_nextID s) (w_now s) (w_events s) (w_sockets s) (w_closed s) (w_sessions s)
    (w_started s) (w_factory s) (w_capacities s) (w_listeners s) (w_wsListeners s) (w_holders s) x (w_go
    s).
Definition set_w_go (x : list (bool * task)) (s : world) : world :=
  World
    (w_engine s) (w_nextID s) (w_now s) (w_events s) (w_sockets s) (w_closed s) (w_sessions s)
    (w_started s) (w_factory s) (w_capacities s) (w_listeners s) (w_wsListeners s) (w_holders s)
    (w_dials s) x.

Definition new_world (limits : Limits) (now : Z) : world :=
  World (new_engine limits) 0 now [] [] ∅ [] [] 0 0 [] [] [] [] [].

Definition engine_lens : lens world Engine := {| lget := w_engine; lset := set_w_engine |}.
(** A call into the Engine, and one into its admission controller. *)
Definition eng {A} (p : prog Engine A) : prog world A := lift engine_lens p.

(** ** Sections *)
Definition read {A} (f : world -> A) : prog world A := atomically (fun s => (s, f s)).
Definition modify (f : world -> world) : prog world unit := atomically (fun s => (f s, tt)).
Definition go (t : task) : prog world unit := modify (fun s => set_w_go (w_go s ++ [(false, t)]) s).
Definition time_Now : prog world Z := read w_now.
(** [e.nextID.Add(1)] *)
Definition next_id : prog world Z :=
  atomically (fun s => let n := inc_u64 (w_nextID s) in (set_w_nextID n s, n)).
(** A call of a factory of the configuration. *)
Definition next_factory : prog world nat := atomically (fun s => (set_w_factory (S (w_factory s)) s, w_factory s)).
Definition next_capacity : prog world nat := atomically (fun s => (set_w_capacities (S (w_capacities s)) s, w_capacities s)).
(** A socket is opened by a dial or an accept, and closed. *)
Definition open_socket (local remote : net_addr) : prog world nat :=
  atomically (fun s => (set_w_sockets (w_sockets s ++ [(local, remote)]) s, length (w_sockets s))).
Definition close_socket (c : nat) : prog world unit := modify (fun s => set_w_closed ({[c]} ∪ w_closed s) s).
Definition close_opt (c : option nat) : prog world unit := match c with Some c => close_socket c | None => mret tt end.
Definition LocalAddr (c : nat) (s : world) : option net_addr := fst <$> w_sockets s !! c.
Definition RemoteAddr (c : nat) (s : world) : option net_addr := snd <$> w_sockets s !! c.
Definition new_session (x : session) : prog world nat :=
  atomically (fun s => (set_w_sessions (w_sessions s ++ [x]) s, length (w_sessions s))).
Definition start_session (v : nat) : prog world unit := modify (fun s => set_w_started (w_started s ++ [v]) s).

(** ** tcp.go: socket options *)
Inductive sockopt :=
  | SetNoDelay (b : bool) | SetKeepAlive (b : bool) | SetKeepAlivePeriod (d : Z) | SetReadBuffer (n : Z) | SetWriteBuffer (n : Z).
(** [o], then the rest; the options set and the error. *)
Definition set_option (answer : sockopt -> option error) (o : sockopt) (what : string)
    (rest : list sockopt * option error) : list sockopt * option error :=
  match answer o with
  | Some err => ([], Some (Errorf what err))
  | None => (o :: rest.1, rest.2)
  end.
Definition configureTCP (tcp : TCPConfig) (answer : sockopt -> option error) : list sockopt * option error :=
  set_option answer (SetNoDelay (NoDelay tcp)) "transport: set TCP_NODELAY"
 (set_option answer (SetKeepAlive (KeepAlive tcp)) "transport: set TCP keepalive"
 ((if KeepAlive tcp then set_option answer (SetKeepAlivePeriod (KeepAlivePeriod tcp)) "transport: set TCP keepalive period" else id)
 ((if ReadBufferBytes tcp >? 0 then set_option answer (SetReadBuffer (ReadBufferBytes tcp)) "transport: set TCP read buffer" else id)
 ((if WriteBufferBytes tcp >? 0 then set_option answer (SetWriteBuffer (WriteBufferBytes tcp)) "transport: set TCP write buffer" else id)
  ([], None))))).
(** [KeepAlive] of the [net.Dialer]. *)
Definition dialer_KeepAlive (tcp : TCPConfig) : Z := if KeepAlive tcp then KeepAlivePeriod tcp else -1.

(** ** What the network and the libraries answer *)
(** A connection of the network: its addresses, and, when it is a [*net.TCPConn], the answers of its setters. *)
Record net_peer := { np_local : net_addr; np_remote : net_addr; np_tcp : option (sockopt -> option error) }.
(** [net.Dialer.DialContext] with the causes of the caller's context and of the bounded one afterwards. *)
Record dial_answer := { dl_result : result net_peer; dl_parent : option error; dl_operation : option error }.
Record dial_call := { dc_keepAlive : Z; dc_timeout : Z; dc_address : string }.
(** [tls.Conn.HandshakeContext] likewise; [ha_after] is the cause of the caller's context when it is read again. *)
Record handshake_answer := { ha_err : option error; ha_parent : option error; ha_operation : option error; ha_after : option error }.
(** [net.ListenConfig.Listen]: the address bound, and whether it is a [*net.TCPListener]. *)
Record listen_answer := { la_result : result (net_addr * bool); la_cause : option error }.
(** [net.Listener.Accept]; the flag says that the error is a [net.Error] and temporary. *)
Inductive accept_answer := Arrives (p : net_peer) | AcceptFails (err : error) (temporary : bool).
(** An error made by [fmt.Errorf] or [errors.New] without a wrapped one. *)
Definition plain_error (n : Z) : error := Foreign {| f_id := n; f_type := FOther; f_timeout := None |} [].

Section setup.
Context `{WebSocketLib} (pf : platform) (cfg : config) (fuel : nat).

(** [classifyOperational] of an error, which is never nil. *)
Definition classified (op : Op) (protocol : Scheme) (local remote : option net_addr) (cause : error) (hint : classifyHint) : error :=
  default cause (classifyOperational pf op protocol local remote (Some cause) hint).
Definition handshake (timeout_answer : Z -> handshake_answer) : option error :=
  let a := timeout_answer (effectiveTLSHandshakeTimeout cfg) in
  mapOperationTimeout (ha_parent a) (ha_operation a) TimeoutHandshake (ha_err a).

(** ** Observation *)
Definition observing : bool := match cfg_observer cfg with Some _ => true | None => false end.
Definition emit_event (ev : Event) : prog world unit :=
  if observing then modify (fun s => set_w_events (w_events s ++ [ev]) s) else mret tt.
Definition observeSetup (kind : EventKind) (resourceID parentID : Z) (protocol : Scheme) (local remote : option net_addr)
    (duration : Z) (err : option error) : prog world unit :=
  emit_event {| ev_Kind := kind; ev_Resource := ResourceSession; ev_ResourceID := resourceID; ev_ParentID := parentID;
                ev_Protocol := protocol; ev_Local := local; ev_Remote := remote; ev_Bytes := 0;
                ev_Duration := duration; ev_Err := err |}.
(** [if observing { t = time.Now() }] and [if observing { d = positiveElapsed(t) }] *)
Definition stamp : prog world Z := if observing then time_Now else mret 0.
Definition elapsed (start : Z) : prog world Z :=
  if observing then now ← time_Now; mret (positiveElapsed now start) else mret 0.

(** ** The Engine's operations, on leases *)
Definition acquire_opening (addr : option net_addr) (capacity : option nat) : prog world (result nat) :=
  eng (adm (acquireOpeningWithListener fuel (peerKey addr) capacity)).
Definition lease_release (j : nat) : prog world unit := eng (adm (release fuel j)).
Definition acquire_handshake : prog world (result nat) := eng engineAcquireHandshake.
Definition acquire_upgrade : prog world (result nat) := eng engineAcquireUpgrade.
Definition activity_release (j : nat) : prog world unit := eng (engineActivityRelease j).

(** ** tcp.go: dialing and listening *)
Definition dialTCP (network : dial_call -> dial_answer) (endpoint : Endpoint) : prog world (result nat) :=
  let answer := network {| dc_keepAlive := dialer_KeepAlive (cfg_tcp cfg); dc_timeout := t_Connect (cfg_timeouts cfg);
                           dc_address := Address endpoint |} in
  match dl_result answer with
  | inr err =>
      let mapped := mapOperationTimeout (dl_parent answer) (dl_operation answer) TimeoutConnect (Some err) in
      match dl_parent answer with
      | Some cause => mret (inr cause)
      | None => mret (inr (classified OpDial (ep_Scheme endpoint) None None (default err mapped) hintNone))
      end
  | inl peer =>
      c ← open_socket (np_local peer) (np_remote peer);
      let failed err :=
        close_socket c;;
        mret (inr (classified OpDial (ep_Scheme endpoint) (Some (np_local peer)) (Some (np_remote peer)) err hintNone)) in
      match np_tcp peer with
      | None => failed (plain_error 30)
      | Some setters =>
          match (configureTCP (cfg_tcp cfg) setters).2 with
          | Some err => failed err
          | None => mret (inl c)
          end
      end
  end.
(** The address of the listening socket. *)
Definition listenTCP (network : string -> listen_answer) (endpoint : Endpoint) : result net_addr :=
  let answer := network (Address endpoint) in
  match la_result answer with
  | inr err =>
      match la_cause answer with
      | Some cause => inr cause
      | None => inr (classified OpListen (ep_Scheme endpoint) None None err hintNone)
      end
  | inl (addr, true) => inl addr
  | inl (addr, false) => inr (classified OpListen (ep_Scheme endpoint) (Some addr) None (plain_error 31) hintNone)
  end.

(** ** engine_stream_dial.go: adopting a stream *)
Definition conn_remote (k : net_conn) (s : world) : option net_addr := RemoteAddr (physicalStreamCloser k) s.
Definition conn_local (k : net_conn) (s : world) : option net_addr := LocalAddr (physicalStreamCloser k) s.
Definition with_activity (now : Z) (x : session) : session :=
  match x with
  | StreamSession p =>
      StreamSession {| cp_id := cp_id p; cp_protocol := cp_protocol p; cp_endpoint := cp_endpoint p; cp_raw := cp_raw p;
        cp_physical := cp_physical p; cp_framer := cp_framer p; cp_wireFramer := cp_wireFramer p; cp_queue := cp_queue p;
        cp_quota := cp_quota p; cp_frameSlots := cp_frameSlots p; cp_readSize := cp_readSize p; cp_maxRead := cp_maxRead p;
        cp_timeouts := cp_timeouts p;
        cp_activity := newActivityClock now (t_ConnectionIdle (cp_timeouts p)) (t_MaxLifetime (cp_timeouts p)) |}
  | WSSession p => WSSession p
  end.
Definition adoptStreamWithLease (raw : net_conn) (endpoint : Endpoint) (lease : option nat) : prog world (result nat) :=
  n ← next_factory;
  match newFramer cfg n with
  | inr err => mret (inr err)
  | inl framer =>
      id ← next_id;
      v ← new_session (StreamSession
        {| cp_id := id; cp_protocol := ep_Scheme endpoint; cp_endpoint := endpoint; cp_raw := raw;
           cp_physical := physicalStreamCloser raw; cp_framer := framer;
           cp_wireFramer := match cfg_framerFactory cfg with None => true | Some _ => false end;
           cp_queue := cfg_writeQueue cfg; cp_quota := cfg_maxQueuedBytes cfg; cp_frameSlots := cfg_writeQueue cfg + 1;
           cp_readSize := cfg_readBuffer cfg; cp_maxRead := cfg_maxBufferedRead cfg; cp_timeouts := cfg_timeouts cfg;
           cp_activity := None |});
      remote ← read (conn_remote raw);
      err ← eng (addStreamWithLease fuel v (peerKey remote) lease);
      match err with
      | Some err => mret (inr err)
      | None =>
          now ← time_Now;
          modify (fun s => set_w_sessions (alter (with_activity now) v (w_sessions s)) s);;
          start_session v;;
          mret (inl v)
      end
  end.
Definition adoptStream (raw : net_conn) (endpoint : Endpoint) : prog world (result nat) := adoptStreamWithLease raw endpoint None.

(** ** websocket_client.go: building a WebSocket session *)
Definition newWSSession (endpoint : Endpoint) (local remote : option net_addr) (cipher : option Cipher) (physical : option nat)
    : prog world nat :=
  id ← next_id;
  now ← time_Now;
  new_session (WSSession
    {| wp_id := id; wp_protocol := ep_Scheme endpoint; wp_endpoint := endpoint; wp_local := local; wp_remote := remote;
       wp_cipher := cipher; wp_maxMessage := cfg_maxMessageBytes cfg; wp_writeTO := effectiveWSWriteTimeout cfg;
       wp_readIdle := t_ReadIdle (cfg_timeouts cfg);
       wp_activity := newActivityClock now (t_ConnectionIdle (cfg_timeouts cfg)) (t_MaxLifetime (cfg_timeouts cfg));
       wp_pingEvery := ws_PingInterval (cfg_ws cfg); wp_pongTO := ws_PongTimeout (cfg_ws cfg);
       wp_queue := cfg_writeQueue cfg; wp_quota := cfg_maxQueuedBytes cfg; wp_frameSlots := cfg_writeQueue cfg + 1;
       wp_physical := physical |}).
End setup.
