(* ===== verification/StreamSetup.v ===== *)
(** * StreamSetup: dialing and accepting streams

    transport/engine_stream_dial.go, engine_stream_listener.go and listener.go, on the
    state of Setup.v. *)
From S2P Require Import Prelude Conc Kinds Errors Classify Endpoint NetAddr HostPort.
From S2P Require Import Quota Limits Engine Options ActivityClock Observer Stats HttpClose Setup.
Local Open Scope go_scope.

(** The [i]-th listener; there is one wherever the code has a pointer to it. *)
Definition nil_listener : listener :=
  Listener 0 {| ep_Scheme := SchemeTCP; ep_Host := ""; ep_Port := 0; ep_Path := ""; ep_RawQuery := "" |} None None 0 0
    (newResourceAge 0) true true true true Finished Finished None [].
Definition lis {A} (i : nat) (f : listener -> A) (s : world) : A := f (default nil_listener (w_listeners s !! i)).
Definition on_lis (i : nat) (f : listener -> listener) (s : world) : world := set_w_listeners (alter f i (w_listeners s)) s.

(** [sync.Once]: whether this call runs the function; it waits while another one does. *)
Definition once_enter (get : world -> once) (put : once -> world -> world) : prog world bool :=
  select (fun s => match get s with
                   | Unstarted => [(put InProgress s, true)]
                   | InProgress => []
                   | Finished => [(s, false)]
                   end).

(** A dial of a stream: the network, and the TLS handshake by configuration and timeout. *)
Record stream_dial := { sd_network : dial_call -> dial_answer; sd_handshake : tlsConfig -> Z -> handshake_answer }.

Section stream.
Context `{WebSocketLib} (pf : platform) (cfg : config) (fuel : nat).

(** ** engine_stream_dial.go *)
(** The TLS part of [dialStream], with the events it emits when it fails; [inl] is the
    connection and the duration of the handshake. *)
Definition dial_tls (env : stream_dial) (endpoint : Endpoint) (raw : nat) (local remote : option net_addr) (connectDuration : Z)
    : prog world ((net_conn * Z) + error) :=
  let scheme := ep_Scheme endpoint in
  let connected := observeSetup cfg EventConnect 0 0 scheme local remote connectDuration None in
  match clientTLSConfig cfg endpoint with
  | inr err => connected;; close_socket raw;; mret (inr err)
  | inl tlscfg =>
      handshakeStart ← stamp cfg;
      h ← acquire_handshake;
      waited ← elapsed cfg handshakeStart;
      match h with
      | inr err =>
          let opErr := classified pf OpHandshake scheme local remote err hintNone in
          connected;;
          observeSetup cfg EventHandshake 0 0 scheme local remote waited (Some opErr);;
          close_socket raw;; mret (inr opErr)
      | inl act =>
          handshakeStart ← stamp cfg;
          let answer := sd_handshake env tlscfg in
          let err := handshake cfg answer in
          handshakeDuration ← elapsed cfg handshakeStart;
          activity_release act;;
          match err with
          | Some err =>
              close_socket raw;;
              let opErr := match ha_after (answer (effectiveTLSHandshakeTimeout cfg)) with
                           | Some cause => cause
                           | None => classified pf OpHandshake scheme local remote err hintTLSHandshake
                           end in
              connected;;
              observeSetup cfg EventHandshake 0 0 scheme local remote handshakeDuration (Some opErr);;
              mret (inr opErr)
          | None => mret (inl (TLSConn raw, handshakeDuration))
          end
      end
  end.
(** From the admitted connection on; the caller releases the lease on an error. *)
Definition dial_adopt (endpoint : Endpoint) (stream : net_conn) (connectDuration : Z) (handshaken : option Z) (lease : nat)
    : prog world (result nat) :=
  let scheme := ep_Scheme endpoint in
  c ← adoptStreamWithLease cfg fuel stream endpoint (Some lease);
  local ← read (conn_local stream);
  remote ← read (conn_remote stream);
  match c with
  | inr err =>
      observeSetup cfg EventConnect 0 0 scheme local remote connectDuration None;;
      (match handshaken with Some d => observeSetup cfg EventHandshake 0 0 scheme local remote d None | None => mret tt end);;
      close_socket (physicalStreamCloser stream);;
      mret (inr (if errors_Is err ErrClosed || errors_Is err ErrResourceExhausted
                 then classified pf OpDial scheme local remote err hintNone else err))
  | inl v =>
      id ← read (fun s => match w_sessions s !! v with Some x => session_id x | None => 0 end);
      observeSetup cfg EventConnect id 0 scheme local remote connectDuration None;;
      (match handshaken with Some d => observeSetup cfg EventHandshake id 0 scheme local remote d None | None => mret tt end);;
      mret (inl v)
  end.
Definition dialStream (env : stream_dial) (endpoint : Endpoint) : prog world (result nat) :=
  let scheme := ep_Scheme endpoint in
  connectStart ← stamp cfg;
  r ← dialTCP pf cfg (sd_network env) endpoint;
  connectDuration ← elapsed cfg connectStart;
  match r with
  | inr err => observeSetup cfg EventConnect 0 0 scheme None None connectDuration (Some err);; mret (inr err)
  | inl raw =>
      local ← read (LocalAddr raw);
      remote ← read (RemoteAddr raw);
      l ← acquire_opening fuel remote None;
      match l with
      | inr err =>
          observeSetup cfg EventConnect 0 0 scheme local remote connectDuration None;;
          close_socket raw;;
          mret (inr (classified pf OpDial scheme local remote err hintNone))
      | inl lease =>
          out ← (match scheme with
                 | SchemeTLS =>
                     t ← dial_tls env endpoint raw local remote connectDuration;
                     match t with
                     | inr err => mret (inr err)
                     | inl (stream, d) => dial_adopt endpoint stream connectDuration (Some d) lease
                     end
                 | _ => dial_adopt endpoint (RawConn raw) connectDuration None lease
                 end);
          match out with
          | inr err => lease_release fuel lease;; mret (inr err)
          | inl v => mret (inl v)
          end
      end
  end.

(** ** listener.go *)
(** What the network does to the [i]-th listener, what its connections answer, and what
    closing its socket returns. *)
Context (arrivals : nat -> list accept_answer) (ln_close : nat -> option error).
Context (tls_answers : nat -> tlsConfig -> Z -> handshake_answer).

Definition set_err (cause : option error) (l : listener) : listener :=
  match cause with Some e => set_li_err (Some e) l | None => l end.
(** [close(ch)] of a channel that is closed panics. *)
Definition close_channel (i : nat) (get : listener -> bool) (put : bool -> listener -> listener) : prog world unit :=
  atomic_panic (fun s => if lis i get s then None else Some (on_lis i (put true) s, tt)).
Definition initiateClose (i : nat) (cause : option error) : prog world (option error) :=
  won ← once_enter (lis i li_closeOnce) (fun o => on_lis i (set_li_closeOnce o));
  if negb won then mret None
  else
    let cause := match cause with
                 | Some e => match errors_As is_OpError e with Some _ => cause | None => normalizeListenerError cause end
                 | None => None
                 end in
    modify (on_lis i (set_err cause));;
    close_channel i li_closing set_li_closing;;
    modify (on_lis i (set_li_ctx true));;
    modify (on_lis i (set_li_lnClosed true));;
    modify (on_lis i (set_li_closeOnce Finished));;
    mret (match ln_close i with
          | Some e => if errors_Is e NetErrClosed then None else Some e
          | None => None
          end).
Definition Close_listener (i : nat) : prog world (option error) := initiateClose i None.

Definition watchContext (i : nat) : prog world unit :=
  cancelled ← select (fun s => ready (lis i li_ctx s) s true ++ ready (lis i li_done s) s false);
  if cancelled : bool then initiateClose i None;; mret tt else mret tt.

Definition isClosing (i : nat) : prog world bool := read (lis i li_closing).
Definition operationalError (i : nat) (op : Op) (cause : error) : prog world error :=
  read (fun s => classified pf op (lis i (fun l => ep_Scheme (li_endpoint l)) s) (lis i li_addr s) None cause hintNone).

Definition finalize (i : nat) : prog world unit :=
  won ← once_enter (lis i li_finalOnce) (fun o => on_lis i (set_li_finalOnce o));
  if negb won then mret tt
  else
    initiateClose i None;;
    now ← time_Now;
    modify (on_lis i (fun l => set_li_age (age_freeze now (li_age l)) l));;
    ev ← read (lis i (fun l =>
      {| ev_Kind := EventClose; ev_Resource := ResourceListener; ev_ResourceID := li_id l; ev_ParentID := 0;
         ev_Protocol := ep_Scheme (li_endpoint l); ev_Local := li_addr l; ev_Remote := None; ev_Bytes := 0;
         ev_Duration := 0; ev_Err := li_err l |}));
    emit_event cfg ev;;
    close_channel i li_done set_li_done;;
    eng (removeStreamListener i);;
    modify (on_lis i (set_li_finalOnce Finished)).

(** A pause of [acceptLoop], on the timer or until the listener closes. *)
Definition Millisecond : Z := 1000000.
Definition next_delay (delay : Z) : Z :=
  if delay =? 0 then 5 * Millisecond else let d := delay * 2 in if d >? Second then Second else d.
Definition waitOrClosed (i : nat) (delay : Z) : prog world bool :=
  modify (on_lis i (fun l => set_li_delays (li_delays l ++ [delay]) l));;
  select (fun s => [(s, true)] ++ ready (lis i li_closing s) s false).

(** [l.ln.Accept()] with what the network has for it, nothing being a wait for [Close]. *)
Definition Accept (closed : world -> bool) (next : option accept_answer) : prog world (result (nat * net_peer) * bool) :=
  select (fun s =>
    if closed s then [(s, (inr (Sentinel NetErrClosed), false))]
    else match next with
         | None => []
         | Some (AcceptFails err temporary) => [(s, (inr err, temporary))]
         | Some (Arrives p) =>
             [(set_w_sockets (w_sockets s ++ [(np_local p, np_remote p)]) s, (inl (length (w_sockets s), p), false))]
         end).
(** One round of [acceptLoop]: the next delay, or [None] to return. *)
Definition accept_step (i : nat) (next : option accept_answer) (delay : Z) : prog world (option Z) :=
  r ← Accept (lis i li_lnClosed) next;
  match r with
  | (inr err, temporary) =>
      closing ← isClosing i;
      if closing : bool then mret None
      else if temporary : bool then
        let delay := next_delay delay in
        again ← waitOrClosed i delay;
        mret (if again : bool then Some delay else None)
      else
        (match normalizeListenerError (Some err) with
         | Some e => opErr ← operationalError i OpAccept e; initiateClose i (Some opErr)
         | None => initiateClose i None
         end);;
        mret None
  | (inl (c, p), _) =>
      match np_tcp p with
      | Some setters =>
          match (configureTCP (cfg_tcp cfg) setters).2 with
          | Some _ => close_socket c;; mret (Some 0)
          | None => go (THandle i c);; mret (Some 0)
          end
      | None => go (THandle i c);; mret (Some 0)
      end
  end.
Fixpoint accept_rounds (i : nat) (answers : list accept_answer) (delay : Z) : prog world unit :=
  match answers with
  | [] => accept_step i None delay;; mret tt
  | a :: answers =>
      d ← accept_step i (Some a) delay;
      match d with Some d => accept_rounds i answers d | None => mret tt end
  end.
Definition acceptLoop (i : nat) : prog world unit := accept_rounds i (arrivals i) 0;; finalize i.

(** [l.prepare], made by [listenStream] for TLS. *)
Definition prepare (tlscfg : tlsConfig) (raw : nat) : prog world (result net_conn * Z) :=
  started ← stamp cfg;
  h ← acquire_handshake;
  waited ← elapsed cfg started;
  match h with
  | inr err => mret (inr err, waited)
  | inl act =>
      started ← stamp cfg;
      let err := handshake cfg (tls_answers raw tlscfg) in
      duration ← elapsed cfg started;
      activity_release act;;
      mret (match err with Some err => inr err | None => inl (TLSConn raw) end, duration)
  end.

(** From the lease on; the answer says whether the lease was transferred. *)
Definition accept_adopt (i raw : nat) (endpoint : Endpoint) (lease : nat) (tls : option tlsConfig) : prog world bool :=
  id ← read (lis i li_id);
  local ← read (LocalAddr raw);
  remote ← read (RemoteAddr raw);
  p ← (match tls with Some tlscfg => prepare tlscfg raw | None => mret (inl (RawConn raw), 0) end);
  match p with
  | (inr prepareErr, duration) =>
      (if observing cfg then
         observeSetup cfg EventHandshake 0 id (ep_Scheme endpoint) local remote duration
           (Some (classified pf OpHandshake (ep_Scheme endpoint) local remote prepareErr hintTLSHandshake))
       else mret tt);;
      close_socket raw;; mret false
  | (inl conn, duration) =>
      r ← adoptStreamWithLease cfg fuel conn endpoint (Some lease);
      match r with
      | inr err =>
          close_socket raw;;
          (if negb (errors_Is err ErrClosed) && negb (errors_Is err ErrResourceExhausted)
           then initiateClose i (Some err);; mret tt else mret tt);;
          mret false
      | inl v =>
          modify (on_lis i (fun l => set_li_accepted (inc_u64 (li_accepted l)) l));;
          sid ← read (fun s => match w_sessions s !! v with Some x => session_id x | None => 0 end);
          (match tls with
           | Some _ => observeSetup cfg EventHandshake sid id (ep_Scheme endpoint) local remote duration None
           | None => mret tt
           end);;
          emit_event cfg {| ev_Kind := EventAccept; ev_Resource := ResourceSession; ev_ResourceID := sid; ev_ParentID := id;
                            ev_Protocol := ep_Scheme endpoint; ev_Local := local; ev_Remote := remote; ev_Bytes := 0;
                            ev_Duration := 0; ev_Err := None |};;
          mret true
      end
  end.
Definition handleAccepted (i raw : nat) : prog world unit :=
  refused ← eng beginOp;
  match refused with
  | Some _ => close_socket raw
  | None =>
      remote ← read (RemoteAddr raw);
      l ← read (lis i id);
      r ← acquire_opening fuel remote (Some (li_capacity l));
      (match r with
       | inr _ => close_socket raw
       | inl lease =>
           transferred ← accept_adopt i raw (li_endpoint l) lease (li_prepare l);
           if transferred : bool then mret tt else lease_release fuel lease
       end);;
      eng endOp
  end.

(** ** engine_stream_listener.go *)
Definition listenStream (network : string -> listen_answer) (endpoint : Endpoint) : prog world (result nat) :=
  match listenTCP pf network endpoint with
  | inr err => mret (inr err)
  | inl addr =>
      match (match ep_Scheme endpoint with
             | SchemeTLS => try tlscfg := serverTLSConfig cfg in inl (Some tlscfg)
             | _ => inl None
             end) with
      | inr err => mret (inr err)   (* ln is closed *)
      | inl prepare =>
          id ← next_id;
          capacity ← next_capacity;
          now ← time_Now;
          i ← atomically (fun s =>
            (set_w_listeners (w_listeners s ++
               [Listener id (boundEndpoint endpoint addr) (Some addr) prepare capacity 0 (newResourceAge now)
                  false false false false Unstarted Unstarted None []]) s, length (w_listeners s)));
          err ← eng (addStreamListener i);
          match err with
          | Some err =>
              modify (on_lis i (set_li_ctx true));;
              modify (on_lis i (set_li_lnClosed true));;
              mret (inr err)
          | None => go (TWatch i);; go (TAccept i);; mret (inl i)
          end
      end
  end.
End stream.

(** ** The back-off of acceptLoop *)
(** The pause after the [n]-th temporary error in a row. *)
Definition pause (n : nat) : Z := Nat.iter n next_delay 0.
(** After temporary errors the accept loop pauses 5, 10, 20, ... milliseconds, and a second
    from the ninth on: it never spins and never stops for longer. *)
Theorem pause_backoff n : pause (S n) = Z.min (5 * Millisecond * 2 ^ Z.of_nat n) Second /\ 5 * Millisecond <= pause (S n) <= Second.
Proof.
  assert (1 <= 2 ^ Z.of_nat n) as Hp by (pose proof (Z.pow_pos_nonneg 2 (Z.of_nat n)); lia).
  assert (pause (S n) = Z.min (5 * Millisecond * 2 ^ Z.of_nat n) Second) as E; [|rewrite E; unfold Millisecond, Second; lia].
  clear Hp. induction n as [|n IH]; [done|]. change (pause (S (S n))) with (next_delay (pause (S n))). rewrite IH. clear IH.
  rewrite Nat2Z.inj_succ, Z.pow_succ_r by lia. assert (1 <= 2 ^ Z.of_nat n) by (pose proof (Z.pow_pos_nonneg 2 (Z.of_nat n)); lia).
  unfold next_delay, Millisecond, Second. destruct (Z.eqb_spec (Z.min (5 * 1000000 * 2 ^ Z.of_nat n) 1000000000) 0); [lia|]. cbv zeta.
  destruct (Z.gtb_spec (Z.min (5 * 1000000 * 2 ^ Z.of_nat n) 1000000000 * 2) 1000000000); lia.
Qed.
