(* ===== verification/HttpTracker.v ===== *)
(** * HttpTracker: the connections of the WebSocket server's HTTP listener

    transport/websocket_server_admission.go, websocket_tls.go and the accepting part of
    tcp.go, on the state of Setup.v.  An [httpConnLease] holds the lease of a connection
    from [Accept] until the upgrade handler takes it or the connection closes; the tracker
    of a listener finds it by the connection. *)
From S2P Require Import Prelude Conc Kinds Errors Classify Endpoint NetAddr HostPort.
From S2P Require Import Quota Limits Engine Options ActivityClock Observer Stats HttpClose Setup StreamSetup.
Local Open Scope go_scope.

Definition nil_wsListener : wsListener :=
  WsListener 0 {| ep_Scheme := SchemeWS; ep_Host := ""; ep_Port := 0; ep_Path := ""; ep_RawQuery := "" |} None "" None 0 0
    (newResourceAge 0) true true None Finished NoReceiver true false true true true Finished None ∅ ∅.
Definition wsl {A} (i : nat) (f : wsListener -> A) (s : world) : A := f (default nil_wsListener (w_wsListeners s !! i)).
Definition on_wsl (i : nat) (f : wsListener -> wsListener) (s : world) : world := set_w_wsListeners (alter f i (w_wsListeners s)) s.
Definition holder_state (h : nat) (s : world) : option httpConnLeaseState := hl_state <$> w_holders s !! h.
Definition set_holder (st : httpConnLeaseState) (h : httpConnLease) : httpConnLease :=
  {| hl_tracker := hl_tracker h; hl_lease := hl_lease h; hl_physical := hl_physical h; hl_state := st |}.

(** ** httpConnTracker *)
Definition detach (h : nat) (l : wsListener) : wsListener :=
  match wl_byLease l !! h with
  | Some conn => set_wl_leases (delete conn (wl_leases l)) (set_wl_byLease (delete h (wl_byLease l)) l)
  | None => l
  end.
Definition detachHolder (t h : nat) : prog world unit := modify (on_wsl t (detach h)).
(** The holder is local until it is in the maps. *)
Definition register_section (t c lease : nat) (s : world) : world * nat :=
  let h := length (w_holders s) in
  (on_wsl t (fun l => set_wl_leases (<[RawConn c := h]> (wl_leases l)) (set_wl_byLease (<[h := RawConn c]> (wl_byLease l)) l))
     (set_w_holders (w_holders s ++ [{| hl_tracker := t; hl_lease := lease; hl_physical := c; hl_state := httpConnLeaseHeld |}]) s), h).
Definition register (t c lease : nat) : prog world nat := atomically (register_section t c lease).
Definition lookup_conn (t : nat) (k : net_conn) : prog world (option nat) := read (wsl t (fun l => wl_leases l !! k)).
Definition rebind_section (t : nat) (old new : net_conn) (s : world) : world * bool :=
  match wsl t wl_leases s !! old with
  | None => (s, false)
  | Some h =>
      (on_wsl t (fun l => set_wl_leases (<[new := h]> (delete old (wl_leases l))) (set_wl_byLease (<[h := new]> (wl_byLease l)) l)) s, true)
  end.
Definition rebind (t : nat) (old new : net_conn) : prog world bool := atomically (rebind_section t old new).

(** ** httpConnLease *)
(** The locked part of [takeWithPhysical] and [release]: what the lease was, if it was held. *)
Definition leave (h : nat) (st : httpConnLeaseState) (s : world) : world * option httpConnLease :=
  match w_holders s !! h with
  | Some l =>
      if bool_decide (hl_state l = httpConnLeaseHeld)
      then (set_w_holders (<[h := set_holder st l]> (w_holders s)) s, Some l)
      else (s, None)
  | None => (s, None)
  end.
(** The lease and the socket. *)
Definition takeWithPhysical (h : nat) : prog world (option (nat * nat)) :=
  r ← atomically (leave h httpConnLeaseTransferred);
  match r with
  | None => mret None
  | Some l => detachHolder (hl_tracker l) h;; mret (Some (hl_lease l, hl_physical l))
  end.
Definition take_lease (h : nat) : prog world (option nat) :=
  r ← takeWithPhysical h; mret (match r with Some (lease, _) => Some lease | None => None end).

Section tracker.
Context (fuel : nat).
Definition holder_release (h : nat) : prog world unit :=
  r ← atomically (leave h httpConnLeaseReleased);
  match r with
  | None => mret tt
  | Some l => detachHolder (hl_tracker l) h;; lease_release fuel (hl_lease l)
  end.
Definition releaseConn (t : nat) (k : net_conn) : prog world unit :=
  h ← lookup_conn t k;
  match h with Some h => holder_release h | None => mret tt end.
Fixpoint release_all (hs : list nat) : prog world unit :=
  match hs with [] => mret tt | h :: hs => holder_release h;; release_all hs end.
Definition closeAll (t : nat) : prog world unit :=
  all ← read (wsl t (fun l => (map_to_list (wl_leases l)).*2));
  release_all all.

(** [connContext] and [httpConnLeaseFromContext]: what the requests of a connection find. *)
Definition connContext (t : nat) (k : net_conn) : prog world (option nat) := lookup_conn t k.
Inductive ConnState := StateNew | StateActive | StateIdle | StateHijacked | StateClosed.
Definition connState (t : nat) (k : net_conn) (state : ConnState) : prog world unit :=
  match state with StateClosed => releaseConn t k | _ => mret tt end.
End tracker.

Section http.
Context (cfg : config) (fuel : nat).

(** ** admittedHTTPListener over configuredTCPListener *)
(** One connection that the network has for the [t]-th listener: [Some] what [Accept]
    returns (an error with whether it is temporary), or [None] when it goes on to the next one. *)
Definition accept_http (t : nat) (next : option accept_answer) : prog world (option (nat + error * bool)) :=
  r ← Accept (wsl t wl_lnClosed) next;
  match r with
  | (inr err, temporary) => mret (Some (inr (err, temporary)))
  | (inl (c, p), _) =>
      match np_tcp p with
      | None => close_socket c;; mret None
      | Some setters =>
          match (configureTCP (cfg_tcp cfg) setters).2 with
          | Some _ => close_socket c;; mret None
          | None =>
              refused ← eng beginOp;
              match refused with
              | Some _ => close_socket c;; mret None
              | None =>
                  capacity ← read (wsl t wl_capacity);
                  l ← acquire_opening fuel (Some (np_remote p)) (Some capacity);
                  (match l with inl lease => register t c lease;; mret tt | inr _ => mret tt end);;
                  eng endOp;;
                  match l with
                  | inl _ => mret (Some (inl c))
                  | inr _ => close_socket c;; mret None
                  end
              end
          end
      end
  end.

(** ** gatedTLSListener *)
Definition set_gctx (l : wsListener) : wsListener := set_wl_gctx true l.
(** [acceptLoop]: a goroutine per connection, until [Accept] fails. *)
Definition gated_round (t : nat) (next : option accept_answer) : prog world bool :=
  r ← accept_http t next;
  match r with
  | None => mret true
  | Some (inl c) => go (THandshake t c);; mret true
  | Some (inr err) =>
      done ← read (wsl t wl_gctx);
      (if done : bool then mret tt else modify (on_wsl t (set_wl_gerr (Some err))));;
      modify (on_wsl t set_gctx);;
      mret false
  end.
Fixpoint gated_rounds (t : nat) (answers : list accept_answer) : prog world unit :=
  match answers with
  | [] => gated_round t None;; mret tt
  | a :: answers => more ← gated_round t (Some a); if more : bool then gated_rounds t answers else mret tt
  end.
(** [handshake], with what TLS answers; the last [select] hands the connection to [Accept]. *)
Definition gated_handshake (tls_answers : nat -> tlsConfig -> Z -> handshake_answer) (t c : nat) : prog world unit :=
  h ← acquire_handshake;
  match h with
  | inr _ => releaseConn fuel t (RawConn c);; close_socket c
  | inl act =>
      tlscfg ← read (wsl t (fun l => default emptyTLS (wl_tls l)));
      (match handshake cfg (tls_answers c tlscfg) with
       | Some _ => releaseConn fuel t (RawConn c);; close_socket c
       | None =>
           ok ← rebind t (RawConn c) (TLSConn c);
           if negb ok then close_socket c
           else
             sent ← select (fun s =>
               match wsl t wl_ready s with
               | Receiving => [(on_wsl t (set_wl_ready (Handed (TLSConn c))) s, true)]
               | _ => []
               end ++ ready (wsl t wl_gctx s) s false);
             if sent : bool then mret tt
             else releaseConn fuel t (TLSConn c);; close_socket c
       end);;
      activity_release act
  end.
(** [Accept] of the gated listener: it waits on [ready] and on its context. *)
Definition gated_Accept (t : nat) : prog world (net_conn + error * bool) :=
  modify (on_wsl t (set_wl_ready Receiving));;
  select (fun s =>
    match wsl t wl_ready s with
    | Handed k => [(on_wsl t (set_wl_ready NoReceiver) s, inl k)]
    | _ => ready (wsl t wl_gctx s) (on_wsl t (set_wl_ready NoReceiver) s) (inr (default (Sentinel NetErrClosed, false) (wsl t wl_gerr s)))
    end).
Definition gated_Close (t : nat) : prog world unit :=
  won ← once_enter (wsl t wl_gonce) (fun o => on_wsl t (set_wl_gonce o));
  if negb won then mret tt
  else
    modify (on_wsl t set_gctx);;
    modify (on_wsl t (set_wl_lnClosed true));;
    modify (on_wsl t (set_wl_gonce Finished)).
End http.
