(* ===== verification/WsServer.v ===== *)
(** * WsServer: the WebSocket listener and its upgrades (transport/websocket_server.go)

    The [http.Server] is modelled by what the code uses of it: [Serve] accepts until it is
    shut down or [Accept] fails for good, each connection has a goroutine that answers its
    requests and closes it unless the handler took it over, and [Close] waits for [Serve].
    ([Close] also closes the connections being served; here each of them ends by itself, at
    any moment.)  The requests of a connection, and what the WebSocket library answers, are arguments. *)
From S2P Require Import Prelude Conc Kinds Errors Classify Endpoint NetAddr HostPort Secure.
From S2P Require Import Quota Limits Engine Options ActivityClock Observer Stats HttpClose Setup StreamSetup HttpTracker.
Local Open Scope go_scope.

(** A request: its path, and how [websocket.Accept] fails on it, if it does: the error, the
    status of the response it has written and whether the connection is closed after that. *)
Record ws_request := { rq_path : string; rq_accept : option (error * Z * bool) }.
(** What became of it: a response, with whether the connection is closed after it, or the
    connection was taken over. *)
Inductive served := Answered (status : Z) (close : bool) | Hijacked.

Section server.
Context `{WebSocketLib} (pf : platform) (cfg : config) (fuel : nat).
Context (ResolveTCPAddr : string -> option ipaddr).
Context (arrivals : nat -> list accept_answer) (ln_close : nat -> option error).
Context (requests : nat -> list ws_request).

Definition parseRemoteAddr (raw : string) : net_addr :=
  match ResolveTCPAddr raw with Some a => TCPAddr (Some a) | None => StaticAddr "tcp" raw end.

(** ** The upgrade handler *)
(** From the lease on: whether it was transferred to a session. *)
Definition upgrade_adopt (t : nat) (lease physical : nat) (local remote : option net_addr) (handshakeDuration : Z) : prog world bool :=
  n ← next_factory;
  match newCipher cfg n with
  | inr _ => close_socket physical;; mret false
  | inl cipher =>
      bound ← read (wsl t wl_endpoint);
      listenerID ← read (wsl t wl_id);
      v ← newWSSession cfg bound local remote cipher (Some physical);
      err ← eng (addWebSocketWithLease fuel v (peerKey remote) (Some lease));
      match err with
      | Some _ => close_socket physical;; mret false
      | None =>
          modify (on_wsl t (fun l => set_wl_accepted (inc_u64 (wl_accepted l)) l));;
          id ← read (fun s => match w_sessions s !! v with Some x => session_id x | None => 0 end);
          observeSetup cfg EventHandshake id listenerID (ep_Scheme bound) local remote handshakeDuration None;;
          emit_event cfg {| ev_Kind := EventAccept; ev_Resource := ResourceSession; ev_ResourceID := id; ev_ParentID := listenerID;
                            ev_Protocol := ep_Scheme bound; ev_Local := local; ev_Remote := remote; ev_Bytes := 0;
                            ev_Duration := 0; ev_Err := None |};;
          start_session v;;
          mret true
      end
  end.
Definition upgrade_observed (t : nat) (remote : option net_addr) (duration : Z) (err : error) (hint : classifyHint) : prog world unit :=
  local ← read (wsl t wl_addr);
  scheme ← read (wsl t (fun l => ep_Scheme (wl_endpoint l)));
  id ← read (wsl t wl_id);
  if observing cfg then
    observeSetup cfg EventHandshake 0 id scheme local remote duration (Some (classified pf OpUpgrade scheme local remote err hint))
  else mret tt.
(** The handler of a request on the connection [k], whose context holds [holder]. *)
Definition upgrade (t : nat) (k : net_conn) (holder : option nat) (rq : ws_request) : prog world served :=
  path ← read (wsl t wl_path);
  if negb (bool_decide (rq_path rq = path)) then mret (Answered 404 false)
  else
    refused ← eng beginOp;
    match refused with
    | Some _ => mret (Answered 503 true)
    | None =>
        out ← (match holder with
               | None => mret (Answered 503 true)
               | Some h =>
                   raw ← read (conn_remote k);
                   let remote := Some (parseRemoteAddr (default "" (raw ≫= Addr_String))) in
                   handshakeStart ← stamp cfg;
                   u ← acquire_upgrade;
                   match u with
                   | inr err =>
                       d ← elapsed cfg handshakeStart;
                       upgrade_observed t remote d err hintNone;;
                       mret (Answered 503 true)
                   | inl act =>
                       handshakeDuration ← elapsed cfg handshakeStart;
                       activity_release act;;
                       match rq_accept rq with
                       | Some (err, status, close) => upgrade_observed t remote handshakeDuration err hintWSUpgrade;; mret (Answered status close)
                       | None =>
                           r ← takeWithPhysical h;
                           match r with
                           | None => close_socket (physicalStreamCloser k);; mret Hijacked
                           | Some (lease, physical) =>
                               local ← read (wsl t wl_addr);
                               transferred ← upgrade_adopt t lease physical local remote handshakeDuration;
                               (if transferred : bool then mret tt else lease_release fuel lease;; close_socket physical);;
                               mret Hijacked
                           end
                       end
                   end
               end);
        eng endOp;;
        mret out
    end.

(** ** The http.Server *)
(** Whether the connection is still the server's at the end. *)
Fixpoint serve_requests (t : nat) (k : net_conn) (holder : option nat) (rqs : list ws_request) : prog world bool :=
  match rqs with
  | [] => mret true
  | rq :: rqs =>
      r ← upgrade t k holder rq;
      match r with
      | Hijacked => mret false
      | Answered _ true => mret true
      | Answered _ false => serve_requests t k holder rqs
      end
  end.
Definition serve_conn (t : nat) (k : net_conn) : prog world unit :=
  holder ← connContext t k;
  own ← serve_requests t k holder (requests (physicalStreamCloser k));
  if own : bool then close_socket (physicalStreamCloser k);; connState fuel t k StateClosed
  else connState fuel t k StateHijacked.

(** Closing the listener the server was given. *)
Definition close_serveLn (t : nat) : prog world unit :=
  tls ← read (wsl t wl_tls);
  match tls with Some _ => gated_Close t | None => modify (on_wsl t (set_wl_lnClosed true)) end.
(** What [Serve] returns when [Accept] has failed, if it does; [Some None] is [http.ErrServerClosed]. *)
Definition serve_failed (t : nat) (err : error * bool) : prog world (option (option error)) :=
  down ← read (wsl t wl_shutdown);
  mret (if down : bool then Some None else if err.2 : bool then None else Some (Some err.1)).
Fixpoint serve_rounds (t : nat) (answers : list accept_answer) : prog world (option error) :=
  match answers with
  | [] =>
      r ← accept_http cfg fuel t None;
      out ← serve_failed t (match r with Some (inr err) => err | _ => (Sentinel NetErrClosed, false) end);
      mret (default None out)
  | a :: answers =>
      r ← accept_http cfg fuel t (Some a);
      match r with
      | None => serve_rounds t answers
      | Some (inl c) => go (TServeConn t (RawConn c));; serve_rounds t answers
      | Some (inr err) =>
          out ← serve_failed t err;
          match out with None => serve_rounds t answers | Some e => mret e end
      end
  end.
(** The same over the gated listener.  Once its context is done, [Accept] answers the same
    for ever: with a temporary error the server retries until it is shut down. *)
Definition serve_tls_failed (t : nat) (err : error * bool) : prog world (option error) :=
  out ← serve_failed t err;
  match out with
  | Some e => mret e
  | None => select (fun s => ready (wsl t wl_shutdown s) s None)
  end.
Fixpoint serve_tls_rounds (t : nat) (answers : list accept_answer) : prog world (option error) :=
  match answers with
  | [] => (* every connection was received *)
      err ← select (fun s => ready (wsl t wl_gctx s) s (default (Sentinel NetErrClosed, false) (wsl t wl_gerr s)));
      serve_tls_failed t err
  | _ :: answers =>
      r ← gated_Accept t;
      match r with
      | inl k => go (TServeConn t k);; serve_tls_rounds t answers
      | inr err => serve_tls_failed t err
      end
  end.
Definition Serve (t : nat) : prog world (option error) :=
  serving ← atomically (fun s => if wsl t wl_shutdown s then (s, false) else (on_wsl t (set_wl_serving true) s, true));
  err ← (if serving : bool then
           tls ← read (wsl t wl_tls);
           e ← (match tls with Some _ => serve_tls_rounds t (arrivals t) | None => serve_rounds t (arrivals t) end);
           modify (on_wsl t (set_wl_serving false));;
           mret e
         else mret None);
  close_serveLn t;;
  mret err.
Definition server_Close (t : nat) : prog world unit :=
  serving ← atomically (fun s => (on_wsl t (set_wl_shutdown true) s, wsl t wl_serving s));
  if serving : bool then
    close_serveLn t;;
    select (fun s => ready (negb (wsl t wl_serving s)) s tt)
  else mret tt.

(** ** wsListener *)
Definition close_ws_channel (t : nat) (get : wsListener -> bool) (put : bool -> wsListener -> wsListener) : prog world unit :=
  atomic_panic (fun s => if wsl t get s then None else Some (on_wsl t (put true) s, tt)).
Definition cancel_ws (l : wsListener) : wsListener := set_wl_ctx true (set_wl_gctx true l).
Definition wsListener_Close (t : nat) : prog world (option error) :=
  won ← once_enter (wsl t wl_closeOnce) (fun o => on_wsl t (set_wl_closeOnce o));
  if negb won then mret None
  else
    close_ws_channel t wl_closing set_wl_closing;;
    modify (on_wsl t cancel_ws);;
    server_Close t;;
    close_serveLn t;;
    closeAll fuel t;;
    modify (on_wsl t (set_wl_closeOnce Finished));;
    mret (match ln_close t with
          | Some e => if errors_Is e NetErrClosed then None else Some e
          | None => None
          end).
(** The two goroutines of [listenWebSocket]. *)
Definition ws_watch (t : nat) : prog world unit :=
  cancelled ← select (fun s => ready (wsl t wl_ctx s) s true ++ ready (wsl t wl_done s) s false);
  if cancelled : bool then wsListener_Close t;; mret tt else mret tt.
Definition ws_serve (t : nat) : prog world unit :=
  err ← Serve t;
  let err := match err with Some e => if errors_Is e NetErrClosed then None else Some e | None => None end in
  modify (on_wsl t (set_wl_err err));;
  wsListener_Close t;;
  now ← time_Now;
  modify (on_wsl t (fun l => set_wl_age (age_freeze now (wl_age l)) l));;
  ev ← read (wsl t (fun l =>
    {| ev_Kind := EventClose; ev_Resource := ResourceListener; ev_ResourceID := wl_id l; ev_ParentID := 0;
       ev_Protocol := ep_Scheme (wl_endpoint l); ev_Local := wl_addr l; ev_Remote := None; ev_Bytes := 0;
       ev_Duration := 0; ev_Err := wl_err l |}));
  emit_event cfg ev;;
  close_ws_channel t wl_done set_wl_done;;
  eng (removeWSListener t).

Definition listenWebSocket (network : string -> listen_answer) (endpoint : Endpoint) : prog world (result nat) :=
  if cfg_framerFactory cfg then mret (inr (Sentinel ErrFramerNotSupported))
  else if negb (bool_decide (ep_RawQuery endpoint = "")) then mret (inr (Sentinel ErrInvalidWebSocketConfig))
  else
  match listenTCP pf network endpoint with
  | inr err => mret (inr err)
  | inl addr =>
      capacity ← next_capacity;
      match (match ep_Scheme endpoint with
             | SchemeWSS => try tlscfg := serverTLSConfig cfg in inl (Some tlscfg)
             | _ => inl None
             end) with
      | inr err => mret (inr err)   (* rawLn is closed *)
      | inl tls =>
          id ← next_id;
          now ← time_Now;
          t ← atomically (fun s =>
            (set_w_wsListeners (w_wsListeners s ++
               [WsListener id (boundEndpoint endpoint addr) (Some addr)
                  (if bool_decide (ep_Path endpoint = "") then "/" else ep_Path endpoint) tls capacity 0 (newResourceAge now)
                  false false None Unstarted NoReceiver false false false false false Unstarted None ∅ ∅]) s, length (w_wsListeners s)));
          (match tls with Some _ => go (TGated t) | None => mret tt end);;
          err ← eng (addWSListener t);
          match err with
          | Some err =>
              modify (on_wsl t cancel_ws);;
              close_serveLn t;;
              closeAll fuel t;;
              mret (inr err)
          | None => go (TWsWatch t);; go (TWsServe t);; mret (inl t)
          end
      end
  end.
End server.
