(* ===== verification/WsDial.v ===== *)
(** * WsDial: dialing a WebSocket (transport/websocket_client.go, websocket_dial_admission.go)

    [websocket.Dial] sends its request through an [http.Transport] whose dial functions are
    the Engine's.  net/http documents that a dial runs concurrently with the request that
    initiated it: it is a goroutine of its own, and a request whose context ends does not wait for it. A connection
    that nobody waits for is closed by the transport, whose idle connections are closed
    before [dialWebSocket] returns.  What the network, TLS and the server answer are arguments. *)
From S2P Require Import Prelude Conc Kinds Errors Classify Endpoint NetAddr HostPort Secure.
From S2P Require Import Quota Limits Engine Options ActivityClock Observer Stats HttpClose Setup StreamSetup.
Local Open Scope go_scope.

(** One call of [dialWebSocket]: [wd_upgrade] is the error of the upgrade on a connection,
    [wd_gives_up] the error with which the request may end while it waits for one, and
    [wd_cause] the cause of the context after a failure. *)
Record ws_dial := {
  wd_network : dial_call -> dial_answer; wd_handshake : tlsConfig -> Z -> handshake_answer;
  wd_upgrade : option error; wd_gives_up : option error; wd_cause : option error }.

(** ** wsDialAdmission *)
Definition nil_dial : wsDialAdmission :=
  {| da_lease := None; da_local := None; da_remote := None; da_physical := None; da_connectDone := false; da_connectDuration := 0;
     da_connectErr := None; da_dialed := None; da_received := false; da_abandoned := false |}.
Definition dial {A} (d : nat) (f : wsDialAdmission -> A) (s : world) : A := f (default nil_dial (w_dials s !! d)).
Definition on_dial (d : nat) (f : wsDialAdmission -> wsDialAdmission) (s : world) : world := set_w_dials (alter f d (w_dials s)) s.

Definition record_connect (local remote : option net_addr) (duration : Z) (err : option error) (a : wsDialAdmission) : wsDialAdmission :=
  if da_connectDone a then a
  else {| da_lease := da_lease a; da_local := local; da_remote := remote; da_physical := da_physical a; da_connectDone := true;
          da_connectDuration := duration; da_connectErr := err; da_dialed := da_dialed a;
          da_received := da_received a; da_abandoned := da_abandoned a |}.
Definition recordConnect (d : nat) (local remote : option net_addr) (duration : Z) (err : option error) : prog world unit :=
  modify (on_dial d (record_connect local remote duration err)).
Definition connectInfo (a : wsDialAdmission) : option net_addr * option net_addr * Z * option error * bool :=
  (da_local a, da_remote a, da_connectDuration a, da_connectErr a, da_connectDone a).
Definition set_section (d lease : nat) (local remote : option net_addr) (physical : nat) (s : world) : world * option error :=
  match dial d da_lease s with
  | Some _ => (s, Some (plain_error 32))
  | None =>
      (on_dial d (fun a => {| da_lease := Some lease; da_local := local; da_remote := remote; da_physical := Some physical;
         da_connectDone := da_connectDone a; da_connectDuration := da_connectDuration a; da_connectErr := da_connectErr a;
         da_dialed := da_dialed a;
          da_received := da_received a; da_abandoned := da_abandoned a |}) s, None)
  end.
Definition set_admission (d lease : nat) (local remote : option net_addr) (physical : nat) : prog world (option error) :=
  atomically (set_section d lease local remote physical).
Definition taken (a : wsDialAdmission) : wsDialAdmission :=
  {| da_lease := None; da_local := da_local a; da_remote := da_remote a; da_physical := None; da_connectDone := da_connectDone a;
     da_connectDuration := da_connectDuration a; da_connectErr := da_connectErr a; da_dialed := da_dialed a;
          da_received := da_received a; da_abandoned := da_abandoned a |}.
(** The lease, the addresses and the socket. *)
Definition take_admission (d : nat) : prog world wsDialAdmission :=
  atomically (fun s => (on_dial d taken s, dial d id s)).

Section dial.
Context `{WebSocketLib} (pf : platform) (cfg : config) (fuel : nat).

Definition release_opt (lease : option nat) : prog world unit := match lease with Some j => lease_release fuel j | None => mret tt end.
Definition release_admission (d : nat) : prog world unit :=
  a ← take_admission d;
  close_opt (da_physical a);;
  release_opt (da_lease a).

(** ** newWebSocketHTTPTransport *)
(** The settings of the [http.Transport], and its dial functions. *)
Definition dialRaw (d : nat) (endpoint : Endpoint) (env : ws_dial) : prog world (result (nat * nat)) :=
  started ← stamp cfg;
  let answer := wd_network env {| dc_keepAlive := dialer_KeepAlive (cfg_tcp cfg); dc_timeout := t_Connect (cfg_timeouts cfg);
                                  dc_address := Address endpoint |} in
  match dl_result answer with
  | inr err =>
      duration ← elapsed cfg started;
      let mapped := default err (mapOperationTimeout (dl_parent answer) (dl_operation answer) TimeoutConnect (Some err)) in
      (if observing cfg then recordConnect d None None duration (Some mapped) else mret tt);;
      mret (inr mapped)
  | inl peer =>
      raw ← open_socket (np_local peer) (np_remote peer);
      duration ← elapsed cfg started;
      (if observing cfg then recordConnect d (Some (np_local peer)) (Some (np_remote peer)) duration None else mret tt);;
      match (match np_tcp peer with Some setters => (configureTCP (cfg_tcp cfg) setters).2 | None => None end) with
      | Some err => close_socket raw;; mret (inr err)
      | None =>
          l ← acquire_opening fuel (Some (np_remote peer)) None;
          match l with
          | inr err => close_socket raw;; mret (inr err)
          | inl lease => mret (inl (raw, lease))
          end
      end
  end.
Definition keep_admission (d : nat) (k : net_conn) (lease : nat) : prog world (result net_conn) :=
  let raw := physicalStreamCloser k in
  local ← read (LocalAddr raw);
  remote ← read (RemoteAddr raw);
  err ← set_admission d lease local remote raw;
  match err with
  | Some err => lease_release fuel lease;; close_socket raw;; mret (inr err)
  | None => mret (inl k)
  end.
Definition DialContext (d : nat) (endpoint : Endpoint) (env : ws_dial) : prog world (result net_conn) :=
  r ← dialRaw d endpoint env;
  match r with
  | inr err => mret (inr err)
  | inl (raw, lease) => keep_admission d (RawConn raw) lease
  end.
Definition DialTLSContext (d : nat) (endpoint : Endpoint) (env : ws_dial) (tlscfg : tlsConfig) : prog world (result net_conn) :=
  r ← dialRaw d endpoint env;
  match r with
  | inr err => mret (inr err)
  | inl (raw, lease) =>
      let failed err := lease_release fuel lease;; close_socket raw;; mret (inr err) in
      h ← acquire_handshake;
      match h with
      | inr err => failed err
      | inl act =>
          let err := handshake cfg (wd_handshake env tlscfg) in
          activity_release act;;
          match err with
          | Some err => failed err
          | None => keep_admission d (TLSConn raw) lease
          end
      end
  end.
Record http_transport := {
  ht_TLSHandshakeTimeout : Z; ht_ResponseHeaderTimeout : Z; ht_DialTLS : option tlsConfig }.
Definition newWebSocketHTTPTransport (endpoint : Endpoint) : prog world (result (http_transport * nat)) :=
  match (match ep_Scheme endpoint with
         | SchemeWSS => try tlscfg := clientTLSConfig cfg endpoint in inl (Some tlscfg)
         | _ => inl None
         end) with
  | inr err => mret (inr err)
  | inl tls =>
      d ← atomically (fun s => (set_w_dials (w_dials s ++ [nil_dial]) s, length (w_dials s)));
      mret (inl ({| ht_TLSHandshakeTimeout := effectiveTLSHandshakeTimeout cfg;
                    ht_ResponseHeaderTimeout := effectiveWSHandshakeTimeout cfg; ht_DialTLS := tls |}, d))
  end.

(** ** The transport *)
(** A dial: the answer goes to the request, or, when that has gone, the connection is closed. *)
Definition transport_dial (d : nat) (endpoint : Endpoint) (env : ws_dial) : prog world unit :=
  r ← (match ep_Scheme endpoint with
       | SchemeWSS => match clientTLSConfig cfg endpoint with inl tlscfg => DialTLSContext d endpoint env tlscfg | inr err => mret (inr err) end
       | _ => DialContext d endpoint env
       end);
  abandoned ← atomically (fun s => (on_dial d (fun a =>
      {| da_lease := da_lease a; da_local := da_local a; da_remote := da_remote a; da_physical := da_physical a;
         da_connectDone := da_connectDone a; da_connectDuration := da_connectDuration a; da_connectErr := da_connectErr a;
         da_dialed := Some r; da_received := da_received a; da_abandoned := da_abandoned a |}) s, dial d da_abandoned s));
  match abandoned, r with
  | true, inl k => close_socket (physicalStreamCloser k)
  | _, _ => mret tt
  end.
Definition receive (a : wsDialAdmission) : wsDialAdmission :=
  {| da_lease := da_lease a; da_local := da_local a; da_remote := da_remote a; da_physical := da_physical a;
     da_connectDone := da_connectDone a; da_connectDuration := da_connectDuration a; da_connectErr := da_connectErr a;
     da_dialed := da_dialed a; da_received := true; da_abandoned := da_abandoned a |}.
Definition abandon (a : wsDialAdmission) : wsDialAdmission :=
  {| da_lease := da_lease a; da_local := da_local a; da_remote := da_remote a; da_physical := da_physical a;
     da_connectDone := da_connectDone a; da_connectDuration := da_connectDuration a; da_connectErr := da_connectErr a;
     da_dialed := da_dialed a; da_received := da_received a; da_abandoned := true |}.
(** [websocket.Dial]: the connection of the WebSocket; and when a connection was there. *)
Definition websocket_Dial (d : nat) (endpoint : Endpoint) (env : ws_dial) : prog world (result net_conn * option Z) :=
  go (TDial d endpoint);;
  r ← select (fun s =>
    match dial d da_dialed s with Some r => [(on_dial d receive s, inl r)] | None => [] end ++
    match wd_gives_up env with Some e => [(on_dial d abandon s, inr (e, dial d da_dialed s))] | None => [] end);
  match r with
  | inr (e, Some (inl k)) => close_socket (physicalStreamCloser k);; mret (inr e, None)
  | inr (e, _) => mret (inr e, None)
  | inl (inr err) => mret (inr err, None)
  | inl (inl k) =>
      gotConn ← stamp cfg;
      match wd_upgrade env with
      | Some err => close_socket (physicalStreamCloser k);; mret (inr err, Some gotConn)
      | None => mret (inl k, Some gotConn)
      end
  end.

(** ** dialWebSocket *)
(** What the [d]-th of them meets. *)
Context (dials : nat -> ws_dial).
(** The error of a failed [websocket.Dial]. *)
Definition dial_error (scheme : Scheme) (local remote cause : option _) (err : error) : error :=
  match cause with
  | Some cause => cause
  | None =>
      let err := if isTimeoutFailure (Some err)
                 then match errors_As is_TimeoutError err with
                      | Some _ => err
                      | None => TimeoutError TimeoutHandshake (Some err)
                      end
                 else err in
      let resultErr := classified pf OpUpgrade scheme local remote err hintWSUpgrade in
      match scheme, errors_As is_OpError resultErr with
      | SchemeWSS, Some (OpError _ protocol ErrorTLS l r c) => OpError OpHandshake protocol ErrorTLS l r c
      | _, _ => resultErr
      end
  end.
(** What is left of the handshake when the moment of the connection is unknown. *)
Definition handshake_duration (now setupStart connectDuration : Z) (gotConn : option Z) : Z :=
  match gotConn with
  | Some t => if IsZero t then let d := positiveElapsed now setupStart - connectDuration in if d <=? 0 then 1 else d
              else positiveElapsed now t
  | None => let d := positiveElapsed now setupStart - connectDuration in if d <=? 0 then 1 else d
  end.
(** From the lease on: the session, or the error with the lease still to be released. *)
Definition dial_ws_adopt (endpoint : Endpoint) (lease physical : option nat) (k : net_conn) (local remote : option net_addr)
    (cipher : option Cipher) (connectDuration handshakeDuration : Z) : prog world (result nat) :=
  let scheme := ep_Scheme endpoint in
  let local := match local with Some a => Some a | None => Some (StaticAddr (Scheme_String scheme) "unknown") end in
  let remote := match remote with Some a => Some a | None => Some (StaticAddr (Scheme_String scheme) (Address endpoint)) end in
  v ← newWSSession cfg endpoint local remote cipher physical;
  err ← eng (addWebSocketWithLease fuel v (peerKey remote) lease);
  match err with
  | Some err =>
      (match physical with Some c => close_socket c | None => close_socket (physicalStreamCloser k) end);;
      mret (inr (classified pf OpUpgrade scheme local remote err hintNone))
  | None =>
      id ← read (fun s => match w_sessions s !! v with Some x => session_id x | None => 0 end);
      observeSetup cfg EventConnect id 0 scheme local remote connectDuration None;;
      observeSetup cfg EventHandshake id 0 scheme local remote handshakeDuration None;;
      start_session v;;
      mret (inl v)
  end.
(** With the transport in place, up to its deferred calls. *)
Definition dial_ws (d : nat) (endpoint : Endpoint) (env : ws_dial) : prog world (result nat) :=
  let scheme := ep_Scheme endpoint in
  setupStart ← stamp cfg;
  r ← websocket_Dial d endpoint env;
  info ← read (dial d connectInfo);
  now ← stamp cfg;
  let '(connectLocal, connectRemote, connectDuration, connectErr, connectDone) :=
    if observing cfg then info else (None, None, 0, None, false) in
  let handshakeDuration := if observing cfg then handshake_duration now setupStart connectDuration r.2 else 0 in
  match r.1 with
  | inr err =>
      let resultErr := dial_error scheme connectLocal connectRemote (wd_cause env) err in
      (if connectDone then
         match connectErr with
         | Some e =>
             observeSetup cfg EventConnect 0 0 scheme connectLocal connectRemote connectDuration
               (Some (classified pf OpDial scheme connectLocal connectRemote e hintNone))
         | None =>
             observeSetup cfg EventConnect 0 0 scheme connectLocal connectRemote connectDuration None;;
             observeSetup cfg EventHandshake 0 0 scheme connectLocal connectRemote handshakeDuration (Some resultErr)
         end
       else mret tt);;
      mret (inr resultErr)
  | inl k =>
      n ← next_factory;
      match newCipher cfg n with
      | inr err =>
          close_socket (physicalStreamCloser k);;
          mret (inr (classified pf OpUpgrade scheme connectLocal connectRemote err hintNone))
      | inl cipher =>
          a ← take_admission d;
          match da_lease a with
          | None =>
              close_opt (da_physical a);;
              close_socket (physicalStreamCloser k);;
              mret (inr (classified pf OpUpgrade scheme (da_local a) (da_remote a) (plain_error 33) hintNone))
          | Some lease =>
              out ← dial_ws_adopt endpoint (Some lease) (da_physical a) k (da_local a) (da_remote a) cipher connectDuration handshakeDuration;
              match out with
              | inr err => lease_release fuel lease;; close_opt (da_physical a);; mret (inr err)
              | inl v => mret (inl v)
              end
          end
      end
  end.
Definition dialWebSocket (endpoint : Endpoint) : prog world (result nat) :=
  let scheme := ep_Scheme endpoint in
  if cfg_framerFactory cfg then mret (inr (Sentinel ErrFramerNotSupported))
  else
    u ← acquire_upgrade;
    match u with
    | inr err => mret (inr (classified pf OpUpgrade scheme None None err hintNone))
    | inl act =>
        t ← newWebSocketHTTPTransport endpoint;
        out ← (match t with
               | inr err => mret (inr err)
               | inl (_, d) => r ← dial_ws d endpoint (dials d); release_admission d;; mret r
               end);
        activity_release act;;
        mret out
    end.
End dial.
