(* ===== verification/SetupPool.v ===== *)
(** * SetupPool: everything that sets connections up, sharing one Engine

    [Engine.Listen] and [Engine.Dial] (transport/engine_session_api.go), the goroutines they
    start, and the closing of listeners by their owners, by their contexts and by
    [Engine.Close] (engine_shutdown.go).

    A goroutine started by a [go] statement is a worker of the pool: the [n]-th waits until the
    [n]-th [go] statement has run. *)
From S2P Require Import Prelude Conc Kinds Errors Classify Endpoint NetAddr HostPort.
From S2P Require Import Lifecycle Quota Limits Engine Options ActivityClock Observer Stats HttpClose Setup StreamSetup HttpTracker WsServer WsDial.
Local Open Scope go_scope.

(** What the network and the libraries answer, by listener, socket and dial. *)
Record surroundings := {
  en_stream_arrivals : nat -> list accept_answer; en_ws_arrivals : nat -> list accept_answer;
  en_stream_close : nat -> option error; en_ws_close : nat -> option error;
  en_tls : nat -> tlsConfig -> Z -> handshake_answer;
  en_requests : nat -> list ws_request;
  en_dials : nat -> ws_dial;
  en_resolve : string -> option ipaddr }.

Inductive setup_op :=
  | SListen (ctx : bool) (network : string -> listen_answer) (endpoint : Endpoint)   (* [ctx]: the context is not nil *)
  | SDial (ctx : bool) (env : stream_dial) (endpoint : Endpoint)
  | SCloseListener (i : nat) | SCloseWSListener (t : nat)
  | SCancel (i : nat) | SCancelWS (t : nat)   (* of the context given to Listen *)
  | SEnd (k : connKind) (v : nat)             (* a session has ended *)
  | SAbort                                    (* Engine.Close *)
  | STick (d : Z).

Section pool.
Context `{WebSocketLib} (pf : platform) (cfg : config) (fuel : nat) (en : surroundings).

(** ** engine_session_api.go *)
Definition Listen (ctx : bool) (network : string -> listen_answer) (endpoint : Endpoint) : prog world (result nat) :=
  if negb ctx then mret (inr (Sentinel ErrNilContext))
  else match Endpoint_Validate endpoint with
  | Some err => mret (inr err)
  | None =>
      if negb (IsSession (ep_Scheme endpoint)) then mret (inr (Sentinel ErrProtocolMismatch))
      else
        refused ← eng beginOp;
        match refused with
        | Some err => mret (inr err)
        | None =>
            r ← (match ep_Scheme endpoint with
                 | SchemeTCP | SchemeTLS => listenStream pf cfg network endpoint
                 | SchemeWS | SchemeWSS => listenWebSocket pf cfg fuel network endpoint
                 | _ => mret (inr (Sentinel ErrProtocolMismatch))
                 end);
            eng endOp;;
            mret r
        end
  end.
Definition Dial (ctx : bool) (env : stream_dial) (endpoint : Endpoint) : prog world (result nat) :=
  if negb ctx then mret (inr (Sentinel ErrNilContext))
  else match ValidateDial endpoint with
  | Some err => mret (inr err)
  | None =>
      if negb (IsSession (ep_Scheme endpoint)) then mret (inr (Sentinel ErrProtocolMismatch))
      else
        refused ← eng beginOp;
        match refused with
        | Some err => mret (inr err)
        | None =>
            r ← (match ep_Scheme endpoint with
                 | SchemeTCP | SchemeTLS => dialStream pf cfg fuel env endpoint
                 | SchemeWS | SchemeWSS => dialWebSocket pf cfg fuel (en_dials en) endpoint
                 | _ => mret (inr (Sentinel ErrProtocolMismatch))
                 end);
            eng endOp;;
            mret r
        end
  end.

(** ** Closing listeners *)
Definition stream_close (i : nat) : prog world unit := initiateClose (en_stream_close en) i None;; mret tt.
Definition ws_close (t : nat) : prog world unit := wsListener_Close fuel (en_ws_close en) t;; mret tt.
Fixpoint close_each (close : nat -> prog world unit) (ls : list nat) : prog world unit :=
  match ls with [] => mret tt | i :: ls => close i;; close_each close ls end.
(** The listeners of [closeSet]. *)
Definition close_listeners (set : engineShutdownSet) : prog world unit :=
  close_each stream_close (ss_streamListeners set);;
  close_each ws_close (ss_wsListeners set).

(** ** Goroutines *)
Definition run_task (t : task) : prog world unit :=
  match t with
  | TWatch i => watchContext (en_stream_close en) i
  | TAccept i => acceptLoop pf cfg (en_stream_arrivals en) (en_stream_close en) i
  | THandle i c => handleAccepted pf cfg fuel (en_stream_close en) (en_tls en) i c
  | TWsWatch t => ws_watch fuel (en_ws_close en) t
  | TWsServe t => ws_serve cfg fuel (en_ws_arrivals en) (en_ws_close en) t
  | TGated t => gated_rounds cfg fuel t (en_ws_arrivals en t)
  | THandshake t c => gated_handshake cfg fuel (en_tls en) t c
  | TServeConn t k => serve_conn pf cfg fuel (en_resolve en) (en_requests en) t k
  | TDial d endpoint => transport_dial cfg fuel d endpoint (en_dials en d)
  end.
Definition worker (n : nat) : prog world unit :=
  t ← select (fun s => match w_go s !! n with
                       | Some (false, t) => [(set_w_go (<[n := (true, t)]> (w_go s)) s, t)]
                       | _ => []
                       end);
  run_task t.
Definition setup_op_prog (o : setup_op) : prog world unit :=
  match o with
  | SListen ctx network endpoint => Listen ctx network endpoint;; mret tt
  | SDial ctx env endpoint => Dial ctx env endpoint;; mret tt
  | SCloseListener i => stream_close i
  | SCloseWSListener t => ws_close t
  | SCancel i => modify (on_lis i (set_li_ctx true))
  | SCancelWS t => modify (on_wsl t cancel_ws)
  | SEnd k v => eng (remove_conn k fuel v)
  | SAbort => r ← eng (beginAbort abortExplicit); if r.2 : bool then close_listeners r.1 else mret tt
  | STick d => modify (fun s => set_w_now (w_now s + Z.max 0 d) s)
  end.
Fixpoint setup_client (ops : list setup_op) : prog world unit :=
  match ops with
  | [] => mret tt
  | o :: ops => setup_op_prog o;; setup_client ops
  end.
(** The callers, and the workers for their [go] statements. *)
Definition setup_pool (now : Z) (workers : nat) (opss : list (list setup_op)) : pool world :=
  (new_world (cfg_limits cfg) now, (worker <$> seq 0 workers) ++ (setup_client <$> opss)).
End pool.
