(* ===== verification/Frames.v ===== *)
(** * Frames: several small invariants over one pool

    A pool whose state has many parts is verified one concern at a time.  Each concern has
    its own invariant over shares of its own; a program that does not touch what the
    invariant is about only [frames] it, which follows from its text.

    [awp] is the weakest precondition of Conc.v with two of its obligations
    optional, because a concern may leave them to others: a section may panic where [Pan] allows
    it, judging by the states in which the section panics, and only with [live] must
    no section be [dead], blocked in every state (the end of an unrolled loop). *)
From S2P Require Import Prelude Conc.
Local Open Scope go_scope.

Lemma alter_some {A} (l : list A) i (g : A -> A) x : l !! i = Some x -> alter g i l = <[i := g x]> l.
Proof. revert i. induction l as [|y l IH]; intros [|i] Hi; simplify_eq/=; [done|]. f_equal. by apply IH. Qed.
Lemma alter_none {A} (l : list A) i (g : A -> A) : l !! i = None -> alter g i l = l.
Proof. revert i. induction l as [|y l IH]; intros [|i] Hi; simplify_eq/=; [done..|]. f_equal. by apply IH. Qed.

Lemma fmap_alter_same {A B} (g : A -> B) f (l : list A) i : (forall x, g (f x) = g x) -> g <$> alter f i l = g <$> l.
Proof.
  intros Hf. revert i. induction l as [|x l IH]; intros [|i]; [done..| |].
  - change (alter f 0%nat (x :: l)) with (f x :: l). cbn. by rewrite Hf.
  - change (alter f (S i) (x :: l)) with (x :: alter f i l). cbn. by rewrite IH.
Qed.

Definition dead {S B} (f : S -> list (outcome S B)) : Prop := forall s, f s = [].
Definition panicking {S B} (f : S -> list (outcome S B)) (s : S) : Prop := Panic ∈ f s.
Definition panic_section {S B} (f : S -> option (S * B)) (s : S) : list (outcome S B) :=
  match f s with Some (s', b) => [Done s' b] | None => [Panic] end.
Lemma panicking_section {S B} (f : S -> option (S * B)) s : panicking (panic_section f) s <-> f s = None.
Proof. unfold panicking, panic_section. destruct (f s) as [[]|]; rewrite list_elem_of_singleton; naive_solver. Qed.
(** Panics are another concern's, and no section panics. *)
Definition any_panic {S} (P : S -> Prop) : Prop := True.
Definition no_panic {S} (P : S -> Prop) : Prop := False.

Section awp.
Context {S M : Type} `{Ghost M} (Inv : S -> M -> Prop) (Blk : S -> M -> Prop) (live : bool) (Pan : (S -> Prop) -> Prop).

Fixpoint awp {A} (p : prog S A) (m : M) (Q : A -> M -> Prop) : Prop :=
  match p with
  | Ret a => Q a m
  | Act B f k =>
      forall s F, Inv s (m ∙ F) ->
        (live = true -> ~ dead f) /\ (f s = [] -> ~ dead f -> Blk s m) /\
        forall o, o ∈ f s ->
          match o with
          | Panic => Pan (panicking f)
          | Done s' b => exists m', Inv s' (m' ∙ F) /\ awp (k b) m' Q
          end
  end.

Lemma awp_mono {A} (p : prog S A) m (Q Q' : A -> M -> Prop) : (forall a m', Q a m' -> Q' a m') -> awp p m Q -> awp p m Q'.
Proof.
  intros HQ. revert m. induction p as [a|B f k IH]; intros m; cbn; [auto|].
  intros Hwp s F HI. destruct (Hwp s F HI) as (Hd & HB & Ho). split_and!; [done..|].
  intros o Hin. specialize (Ho o Hin). destruct o as [s' b|]; [|done]. destruct Ho as (m' & ? & ?). eauto.
Qed.
Lemma awp_bind {A B} (p : prog S A) (g : A -> prog S B) m Q : awp p m (fun a m' => awp (g a) m' Q) -> awp (p ≫= g) m Q.
Proof.
  revert m. induction p as [a|C f k IH]; intros m; cbn; [auto|].
  intros Hwp s F HI. destruct (Hwp s F HI) as (Hd & HB & Ho). split_and!; [done..|].
  intros o Hin. specialize (Ho o Hin). destruct o as [s' b|]; [|done]. destruct Ho as (m' & ? & ?). eauto.
Qed.
Lemma awp_ret {A} (a : A) m (Q : A -> M -> Prop) : Q a m -> awp (mret a) m Q.
Proof. done. Qed.
Lemma awp_atomically {B} (f : S -> S * B) m (Q : B -> M -> Prop) :
  (forall s F, Inv s (m ∙ F) -> exists m', Inv (f s).1 (m' ∙ F) /\ Q (f s).2 m') -> awp (atomically f) m Q.
Proof.
  intros Hf s F HI. destruct (Hf s F HI) as (m' & HI' & HQ). split_and!.
  - intros _ Hd. specialize (Hd s). cbn in Hd. by destruct (f s).
  - by destruct (f s).
  - destruct (f s) as [s' b]. intros o ->%list_elem_of_singleton. eauto.
Qed.
Lemma awp_select {B} (cases : S -> list (S * B)) m (Q : B -> M -> Prop) :
  (live = true -> exists s, cases s <> []) ->
  (forall s F, Inv s (m ∙ F) ->
     (cases s = [] -> Blk s m) /\ forall s' b, (s', b) ∈ cases s -> exists m', Inv s' (m' ∙ F) /\ Q b m') ->
  awp (select cases) m Q.
Proof.
  intros Hl Hf s F HI. destruct (Hf s F HI) as [HB Hc]. split_and!.
  - intros Hlive Hd. destruct (Hl Hlive) as [s0 Hs]. apply Hs. by eapply map_eq_nil, Hd.
  - intros E%map_eq_nil _. auto.
  - intros o ([s' b] & -> & Hin)%list_elem_of_fmap. destruct (Hc _ _ Hin) as (m' & ? & ?). eauto.
Qed.
Lemma awp_atomic_panic {B} (f : S -> option (S * B)) m (Q : B -> M -> Prop) :
  (forall s F, Inv s (m ∙ F) ->
     match f s with None => Pan (panicking (panic_section f)) | Some (s', b) => exists m', Inv s' (m' ∙ F) /\ Q b m' end) ->
  awp (atomic_panic f) m Q.
Proof.
  intros Hf s F HI. specialize (Hf s F HI). split_and!.
  - intros _ Hd. specialize (Hd s). cbn in Hd. by destruct (f s) as [[]|].
  - by destruct (f s) as [[]|].
  - destruct (f s) as [[s' b]|]; by intros o ->%list_elem_of_singleton.
Qed.
(** What the program does not use is framed. *)
Lemma awp_frame {A} (p : prog S A) X m (Q : A -> M -> Prop) :
  (forall s n, Blk s n -> Blk s (X ∙ n)) -> awp p m Q -> awp p (X ∙ m) (fun r m' => exists n, m' = X ∙ n /\ Q r n).
Proof.
  intros HX. revert m. induction p as [a|B f k IH]; intros m Hwp; [by exists m|]. intros s F HI.
  rewrite (gop_comm X m), <- gop_assoc in HI. destruct (Hwp s _ HI) as (Hd & HB & Ho). split_and!; [done|auto|].
  intros o Hin. specialize (Ho o Hin). destruct o as [s' b|]; [|done]. destruct Ho as (m' & HI' & Hk).
  exists (X ∙ m'). split; [by rewrite (gop_comm X m'), <- gop_assoc|]. by apply IH.
Qed.
(** The end of an unrolled loop, where that is not a concern. *)
Lemma awp_stuck {B} m (Q : B -> M -> Prop) : live = false -> awp stuck m Q.
Proof. intros Hl s F HI. split_and!; [congruence| |by intros ? ?%elem_of_nil]. intros _ Hd. destruct Hd. by intros ?. Qed.

(** Programs of a component, and of a component of a component. *)
Lemma awp_lift_bind {T A B} (L : lens S T) (p : prog T A) (k : A -> prog T B) m Q :
  awp (lift L p) m (fun x m' => awp (lift L (k x)) m' Q) -> awp (lift L (p ≫= k)) m Q.
Proof.
  revert m. induction p as [x|C f g IH]; intros m Hwp; [exact Hwp|].
  intros s F HI. destruct (Hwp s F HI) as (Hd & Hb & Ho). split_and!; [exact Hd|exact Hb|].
  intros o Hin. specialize (Ho o Hin). destruct o as [s' b|]; [|done].
  destruct Ho as (m' & HI' & Hwp'). exists m'. split; [done|]. by apply IH.
Qed.
Lemma awp_lift2_bind {T U A B} (L : lens S T) (L' : lens T U) (p : prog U A) (k : A -> prog U B) m Q :
  awp (lift L (lift L' p)) m (fun x m' => awp (lift L (lift L' (k x))) m' Q) -> awp (lift L (lift L' (p ≫= k))) m Q.
Proof.
  revert m. induction p as [x|C f g IH]; intros m Hwp; [exact Hwp|].
  intros s F HI. destruct (Hwp s F HI) as (Hd & Hb & Ho). split_and!; [exact Hd|exact Hb|].
  intros o Hin. specialize (Ho o Hin). destruct o as [s' b|]; [|done].
  destruct Ho as (m' & HI' & Hwp'). exists m'. split; [done|]. by apply IH.
Qed.
Lemma awp_lift_sec {T B} (L : lens S T) (f : T -> T * B) m (Q : B -> M -> Prop) :
  (forall s F, Inv s (m ∙ F) -> exists m', Inv (lset L (f (lget L s)).1 s) (m' ∙ F) /\ Q (f (lget L s)).2 m') ->
  awp (lift L (atomically f)) m Q.
Proof.
  intros Hf s F HI. destruct (Hf s F HI) as (m' & HI' & HQ). split_and!.
  - intros _ Hd. specialize (Hd s). cbn in Hd. by destruct (f (lget L s)).
  - by destruct (f (lget L s)).
  - destruct (f (lget L s)) as [t b]. intros o ->%list_elem_of_singleton. eauto.
Qed.
Lemma awp_lift2_sec {T U B} (L : lens S T) (L' : lens T U) (f : U -> U * B) m (Q : B -> M -> Prop) :
  (forall s F, Inv s (m ∙ F) ->
     let r := f (lget L' (lget L s)) in exists m', Inv (lset L (lset L' r.1 (lget L s)) s) (m' ∙ F) /\ Q r.2 m') ->
  awp (lift L (lift L' (atomically f))) m Q.
Proof.
  intros Hf s F HI. destruct (Hf s F HI) as (m' & HI' & HQ). cbv zeta in *. split_and!.
  - intros _ Hd. specialize (Hd s). cbn in Hd. by destruct (f (lget L' (lget L s))).
  - cbn. by destruct (f (lget L' (lget L s))).
  - cbn. destruct (f (lget L' (lget L s))) as [t b]. intros o ->%list_elem_of_singleton. eauto.
Qed.

(** ** Adequacy *)
Variable Fin : M -> Prop.
Definition awp_ok (c : pool S) : Prop :=
  exists ms, Forall2 (fun t m => awp t m (fun _ => Fin)) c.2 ms /\ Inv c.1 (gsum ms).
Lemma awp_ok_step c c' : awp_ok c -> pstep c c' -> awp_ok c'.
Proof.
  intros (ms & Hts & HI) Hs. destruct Hs as [s ts i B f k s' b Hi Hin]. cbn in *.
  destruct (Forall2_lookup_l _ _ _ _ _ Hts Hi) as (m & Hm & Hwp).
  destruct (gsum_lookup _ _ _ Hm) as (F & EF & EF'). rewrite EF in HI.
  destruct (Hwp _ _ HI) as (_ & _ & Ho). specialize (Ho _ Hin) as (m' & HI' & Hwp').
  exists (<[i := m']> ms). cbn. rewrite EF'. split; [|done]. by apply Forall2_insert.
Qed.
Lemma awp_adequate s ts ms c :
  Inv s (gsum ms) -> Forall2 (fun t m => awp t m (fun _ => Fin)) ts ms -> rtc pstep (s, ts) c -> awp_ok c.
Proof.
  intros HI Hts Hr. assert (awp_ok (s, ts)) as Hok by (by exists ms).
  clear HI Hts. induction Hr as [|c1 c2 c3 Hs _ IH]; [done|]. apply IH. by eapply awp_ok_step.
Qed.
Lemma awp_ok_at c i B f k :
  awp_ok c -> c.2 !! i = Some (Act B f k) -> (live = true -> ~ dead f) /\ (Panic ∈ f c.1 -> Pan (panicking f)).
Proof.
  intros (ms & Hts & HI) Hi. destruct (Forall2_lookup_l _ _ _ _ _ Hts Hi) as (m & Hm & Hwp).
  destruct (gsum_lookup _ _ _ Hm) as (F & EF & _). rewrite EF in HI. destruct (Hwp _ _ HI) as (Hd & _ & Ho).
  split; [done|]. intros Hin. exact (Ho _ Hin).
Qed.
End awp.

(** No goroutine of the pool is at the end of an unrolled loop. *)
Definition lively {S} (c : pool S) : Prop := forall i B f k, c.2 !! i = Some (Act B f k) -> ~ dead f.
Section rest.
Context {S M : Type} `{Ghost M} {Inv Blk : S -> M -> Prop} {live : bool} {Pan : (S -> Prop) -> Prop} {Fin : M -> Prop}.
Lemma awp_lively c : live = true -> awp_ok Inv Blk live Pan Fin c -> lively c.
Proof. intros Hl Hok i B f k Hi. by apply (awp_ok_at _ _ _ _ _ _ _ _ _ _ Hok Hi). Qed.
Lemma awp_panics c : awp_ok Inv Blk live Pan Fin c -> panics c -> exists i B f k, c.2 !! i = Some (Act B f k) /\ Panic ∈ f c.1 /\ Pan (panicking f).
Proof. intros Hok (i & B & f & k & Hi & Hin). exists i, B, f, k. split_and!; [done..|]. by apply (awp_ok_at _ _ _ _ _ _ _ _ _ _ Hok Hi). Qed.
(** What a concern knows of a pool at rest. *)
Lemma awp_rest c :
  awp_ok Inv Blk live Pan Fin c -> ~ can_step c -> ~ panics c -> lively c ->
  exists ms, Inv c.1 (gsum ms) /\ Forall2 (fun t m => (t = Ret tt /\ Fin m) \/ (t <> Ret tt /\ Blk c.1 m)) c.2 ms.
Proof.
  intros (ms & Hts & HI) Hst Hp Hl. exists ms. split; [done|].
  apply Forall2_same_length_lookup_2; [by eapply Forall2_length|]. intros i t m Hi Hm.
  pose proof (Forall2_lookup_lr _ _ _ _ _ _ Hts Hi Hm) as Hwp. destruct t as [[]|B f k]; [left; by split|right]. split; [done|].
  destruct (gsum_lookup _ _ _ Hm) as (F & EF & _). rewrite EF in HI. destruct (Hwp _ _ HI) as (_ & HB & _). apply HB.
  - destruct (f c.1) as [|[s' b|] os] eqn:E; [done| |].
    + destruct Hst. destruct c as [s ts]. cbn in *. eexists. econstructor; [done|]. rewrite E. left.
    + destruct Hp. exists i, B, f, k. split; [done|]. rewrite E. left.
  - by eapply Hl.
Qed.
End rest.

(** ** Goroutines that may wait for different things *)
Section each.
Context {S M : Type} `{Ghost M} (Inv : S -> M -> Prop) (BlkAt : nat -> S -> M -> Prop) (live : bool) (Pan : (S -> Prop) -> Prop) (Fin : M -> Prop).
Definition awp_each (c : pool S) : Prop :=
  exists ms, length ms = length c.2 /\ Inv c.1 (gsum ms) /\
    forall i t m, c.2 !! i = Some t -> ms !! i = Some m -> awp Inv (BlkAt i) live Pan t m (fun _ => Fin).
Lemma awp_each_step c c' : awp_each c -> pstep c c' -> awp_each c'.
Proof.
  intros (ms & El & HI & Hts) Hs. destruct Hs as [s ts i B f k s' b Hi Hin]. cbn in *.
  destruct (lookup_lt_is_Some_2 ms i) as [m Hm]; [rewrite El; by eapply lookup_lt_Some|]. pose proof (Hts i _ m Hi Hm) as Hwp.
  destruct (gsum_lookup _ _ _ Hm) as (F & EF & EF'). rewrite EF in HI. destruct (Hwp _ _ HI) as (_ & _ & Ho). specialize (Ho _ Hin) as (m' & HI' & Hwp').
  exists (<[i := m']> ms). cbn [fst snd]. rewrite EF'. split_and!; [by rewrite !length_insert|done|]. intros j t n Hj Hn. destruct (decide (i = j)) as [<-|Hne].
  - rewrite (list_lookup_insert_eq ts) in Hj by (by eapply lookup_lt_Some). rewrite (list_lookup_insert_eq ms) in Hn by (by eapply lookup_lt_Some). by simplify_eq.
  - rewrite (list_lookup_insert_ne ts) in Hj by done. rewrite (list_lookup_insert_ne ms) in Hn by done. by eapply Hts.
Qed.
Lemma awp_each_adequate c c' : awp_each c -> rtc pstep c c' -> awp_each c'.
Proof. intros Hok Hr. induction Hr as [|c1 c2 c3 Hs _ IH]; [done|]. apply IH. by eapply awp_each_step. Qed.
Lemma awp_each_rest c :
  awp_each c -> ~ can_step c -> ~ panics c -> lively c ->
  exists ms, length ms = length c.2 /\ Inv c.1 (gsum ms) /\
    forall i t m, c.2 !! i = Some t -> ms !! i = Some m -> (t = Ret tt /\ Fin m) \/ (t <> Ret tt /\ BlkAt i c.1 m).
Proof.
  intros (ms & El & HI & Hts) Hst Hp Hl. exists ms. split_and!; [done..|]. intros i t m Hi Hm. pose proof (Hts i t m Hi Hm) as Hwp.
  destruct t as [[]|B f k]; [left; by split|right]. split; [done|].
  destruct (gsum_lookup _ _ _ Hm) as (F & EF & _). rewrite EF in HI. destruct (Hwp _ _ HI) as (_ & HB & _). apply HB.
  - destruct (f c.1) as [|[s' b|] os] eqn:E; [done| |].
    + destruct Hst. destruct c as [s ts]. cbn in *. eexists. econstructor; [done|]. rewrite E. left.
    + destruct Hp. exists i, B, f, k. split; [done|]. rewrite E. left.
  - by eapply Hl.
Qed.
End each.

(** ** Programs that leave a view of the state alone *)
Section frames.
Context {S V : Type} (view : S -> V) (Wait : S -> Prop) (live : bool) (Pan : (S -> Prop) -> Prop).
Fixpoint frames {A} (p : prog S A) : Prop :=
  match p with
  | Ret _ => True
  | Act B f k =>
      forall s, (live = true -> ~ dead f) /\ (f s = [] -> ~ dead f -> Wait s) /\
        forall o, o ∈ f s -> match o with Panic => Pan (panicking f) | Done s' b => view s' = view s /\ frames (k b) end
  end.

Lemma frames_bind {A B} (p : prog S A) (g : A -> prog S B) : frames p -> (forall a, frames (g a)) -> frames (p ≫= g).
Proof.
  intros Hp Hg. induction p as [a|C f k IH]; [apply Hg|]. intros s. destruct (Hp s) as (Hd & Hb & Ho). split_and!; [done..|].
  intros o Hin. specialize (Ho o Hin). destruct o as [s' b|]; [|done]. destruct Ho. split; [done|]. by apply IH.
Qed.
Lemma frames_ret {A} (a : A) : frames (mret a).
Proof. done. Qed.
Lemma frames_atomically {B} (f : S -> S * B) : (forall s, view (f s).1 = view s) -> frames (atomically f).
Proof.
  intros Hf s. specialize (Hf s). split_and!.
  - intros _ Hd. specialize (Hd s). cbn in Hd. by destruct (f s).
  - by destruct (f s).
  - destruct (f s) as [s' b]. by intros o ->%list_elem_of_singleton.
Qed.
Lemma frames_select {B} (cases : S -> list (S * B)) :
  (live = true -> exists s, cases s <> []) -> (forall s, cases s = [] -> Wait s) ->
  (forall s s' b, (s', b) ∈ cases s -> view s' = view s) -> frames (select cases).
Proof.
  intros Hl Hw Hc s. split_and!.
  - intros Hlive Hd. destruct (Hl Hlive) as [s0 Hs]. apply Hs. by eapply map_eq_nil, Hd.
  - intros E%map_eq_nil _. auto.
  - intros o ([s' b] & -> & Hin)%list_elem_of_fmap. split; [by eapply Hc|done].
Qed.
Lemma frames_atomic_panic {B} (f : S -> option (S * B)) :
  ((exists s, f s = None) -> Pan (panicking (panic_section f))) -> (forall s s' b, f s = Some (s', b) -> view s' = view s) -> frames (atomic_panic f).
Proof.
  intros Hc Hf s. specialize (Hf s). split_and!.
  - intros _ Hd. specialize (Hd s). cbn in Hd. by destruct (f s) as [[]|].
  - by destruct (f s) as [[]|].
  - destruct (f s) as [[s' b]|] eqn:E; intros o ->%list_elem_of_singleton; [|apply Hc; eauto]. by split; [eapply Hf|].
Qed.
Lemma frames_stuck {B} : live = false -> frames (@stuck S B).
Proof. intros Hl s. split_and!; [congruence| |by intros ? ?%elem_of_nil]. intros _ Hd. destruct Hd. by intros ?. Qed.
End frames.

(** A component's program, when the view sees of the component only [view']. *)
Lemma frames_lift {S V T U A} (view : S -> V) (Wait : S -> Prop) (view' : T -> U) (Wait' : T -> Prop) live (Pan : (S -> Prop) -> Prop) (L : lens S T) (p : prog T A) :
  (forall s t, view' t = view' (lget L s) -> view (lset L t s) = view s) ->
  (forall s, Wait' (lget L s) -> Wait s) -> (forall t : T, exists s, lget L s = t) ->
  frames view' Wait' live no_panic p -> frames view Wait live Pan (lift L p).
Proof.
  intros Hv Hw Hg. induction p as [a|B f k IH]; [done|]. intros Hp s.
  assert (forall d : dead (fun s => map (fun o => match o with Done t b => Done (lset L t s) b | Panic => Panic end) (f (lget L s))), dead f) as Hdead.
  { intros d t. destruct (Hg t) as [s0 <-]. by eapply map_eq_nil, (d s0). }
  destruct (Hp (lget L s)) as (Hd & Hb & Ho). split_and!.
  - intros Hl d. by apply Hd, Hdead.
  - intros E%map_eq_nil Hn. apply Hw, Hb; [done|]. intros d. apply Hn. intros s0. by rewrite (d (lget L s0)).
  - intros o (o' & -> & Hin)%list_elem_of_fmap. specialize (Ho _ Hin). destruct o' as [t b|]; [|done].
    destruct Ho. split; [by apply Hv|]. by apply IH.
Qed.
(** A coarser view, waiting for more, and more panics left to others. *)
Lemma frames_weaken {S U V A} (view : S -> U) (view' : S -> V) (Wait Wait' : S -> Prop) live (Pan Pan' : (S -> Prop) -> Prop) (p : prog S A) :
  (forall s s', view s' = view s -> view' s' = view' s) -> (forall s, Wait s -> Wait' s) -> (forall P, Pan P -> Pan' P) ->
  frames view Wait live Pan p -> frames view' Wait' live Pan' p.
Proof.
  intros Hv Hw HP. induction p as [a|B f k IH]; [done|]. intros Hp s. destruct (Hp s) as (Hd & Hb & Ho). split_and!; [done|auto|].
  intros o Hin. specialize (Ho o Hin). destruct o as [s' b|]; [|auto]. destruct Ho. split; [by apply Hv|]. by apply IH.
Qed.
(** An invariant of the view is framed. *)
Lemma awp_frames {S M V A} `{Ghost M} (Inv Blk : S -> M -> Prop) live Pan (view : S -> V) (Wait : S -> Prop) (p : prog S A) m (Q : A -> M -> Prop) :
  (forall s s' n, view s' = view s -> Inv s n -> Inv s' n) -> (forall s, Wait s -> Blk s m) ->
  frames view Wait live Pan p -> (forall a, Q a m) -> awp Inv Blk live Pan p m Q.
Proof.
  intros HI HB Hp HQ. induction p as [a|B f k IH]; [apply HQ|]. intros s F Hs. destruct (Hp s) as (Hd & Hb & Ho).
  split_and!; [done|auto|]. intros o Hin. specialize (Ho o Hin). destruct o as [s' b|]; [|done]. destruct Ho as [E Hk].
  exists m. split; [by eapply HI|]. by apply IH.
Qed.

#[global] Arguments awp : simpl never.
#[global] Arguments frames : simpl never.
