(* ===== verification/SetupLock.v ===== *)
(** * SetupLock: the Engine's lock and the admission counters during set-up

    Two concerns of the programs of SetupPool.v.  Nobody waits while holding the lock of the
    Engine: at rest it is free.  And the compare-and-swap loops of the admission
    controller end: a lease that is not released carries the credit for its release. *)
From S2P Require Import Prelude Conc Kinds Errors Classify Endpoint NetAddr HostPort Secure.
From S2P Require Import Lifecycle Quota Limits Engine Options ActivityClock Observer Stats HttpClose Setup StreamSetup HttpTracker WsServer WsDial SetupPool Frames.
Local Open Scope go_scope.

(** ** Leases that carry a credit *)
Definition live (l : connectionLease) : bool := negb (bool_decide (cl_state l = connectionReleased)).
Definition live_leases (s : admissionState) : nat := length (List.filter live (as_leases s)).
Lemma live_insert ls j l l' :
  ls !! j = Some l ->
  (length (List.filter live (<[j := l']> ls)) + (if live l then 1 else 0) = length (List.filter live ls) + (if live l' then 1 else 0))%nat.
Proof.
  revert j. induction ls as [|x ls IH]; intros [|j] Hj; simplify_eq/=; [destruct (live l), (live l'); cbn; lia|].
  specialize (IH _ Hj). destruct (live x); cbn; lia.
Qed.
Lemma copies_S n : copies Limits.Credit (S n) = {[+ Limits.Credit +]} ⊎ copies Limits.Credit n.
Proof. change (S n) with (1 + n)%nat. rewrite <- copies_add. f_equal. Qed.

Section funded.
Context (L : Limits) (bound fuel : nat).
Hypothesis fuel_ok : (bound < fuel)%nat.
Definition funded (s : admissionState) (m : gmultiset Limits.tok) : Prop := adm_inv L bound s (m ⊎ copies Limits.Credit (live_leases s)).
Definition same_live (s s' : admissionState) : Prop := live_leases s' = live_leases s.

Lemma funded_same {A} (p : prog admissionState A) m Q : respects same_live p -> wp (adm_inv L bound) never p m Q -> wp funded never p m Q.
Proof.
  revert m. induction p as [a|B f k IH]; intros m Hr Hwp; [done|]. intros s F HI. unfold funded in HI. simpl in HI.
  rewrite <- (assoc_L (⊎)) in HI. destruct (Hwp s _ HI) as [Hb Ho]. split; [done|]. intros o Hin. specialize (Ho o Hin).
  destruct o as [s' b|]; [|done]. destruct (Hr _ _ _ Hin) as [E Hk]. destruct Ho as (m' & HI' & Hwp').
  exists m'. split; [|by apply IH]. unfold funded. rewrite E. simpl in *. by rewrite <- (assoc_L (⊎)).
Qed.
Lemma same_live_list s s' : as_leases s' = as_leases s -> same_live s s'.
Proof. unfold same_live, live_leases. by intros ->. Qed.
Lemma live_swap i old new : respects same_live (compare_and_swap i old new).
Proof. apply respects_atomically. intros s. apply same_live_list. by case_match. Qed.
Lemma live_listener_acquire n i : respects same_live (listener_acquire n i).
Proof.
  induction n as [|n IH]; [apply respects_stuck|]. apply respects_bind; [by apply respects_atomically|].
  intros v. case_match; [by apply respects_atomically|]. apply respects_bind; [apply live_swap|]. by intros [].
Qed.
Lemma live_listener_release n l : respects same_live (listener_release n l).
Proof.
  destruct l as [i|]; [|done]. cbn. induction n as [|n IH]; [apply respects_stuck|]. apply respects_bind; [by apply respects_atomically|].
  intros v. case_match; [done|]. apply respects_bind; [apply live_swap|]. by intros [].
Qed.

(** An admission costs two credits, one of which a new lease keeps. *)
Lemma funded_acquire peer listener k m (Q : result nat -> gmultiset Limits.tok -> Prop) :
  stocked (2 + k) m -> (forall r m', stocked k m' -> Q r m') -> wp funded never (acquireOpeningWithListener fuel peer listener) m Q.
Proof.
  intros (m1 & -> & (m2 & -> & Hm)%stocked_take)%stocked_take HQ.
  apply wp_bind, funded_same; [destruct listener; [apply live_listener_acquire|done]|]. apply wp_open_listener; [done|..].
  - intros m' Hm'. assert (exists m0, m' = {[+ Limits.Credit +]} ⊎ m0 /\ stocked k m0) as (m0 & -> & Hs)
      by (destruct Hm' as [-> | ->]; eauto using stocked_swap).
    apply wp_bind, wp_section. intros s F s' r HI E. unfold funded in HI. simpl in HI. destruct r as [j|e].
    + exists m0. split; [|by apply wp_ret, HQ]. destruct (open_checks L _ _ _ _ _ (li_limits _ _ (ai_limits _ _ _ _ HI)) E) as (_ & _ & Es' & _).
      unfold funded. replace (live_leases s') with (S (live_leases s))
        by (rewrite Es'; unfold live_leases; cbn [as_leases with_leases with_ctl]; rewrite List.filter_app, length_app; change (length (List.filter live [?x])) with 1%nat; lia).
      rewrite copies_S. eapply open_ok; [exact E|]. simpl.
      replace (Limits.slot listener ⊎ (m0 ⊎ F ⊎ ({[+ Limits.Credit +]} ⊎ copies Limits.Credit (live_leases s))))
        with (slot listener ⊎ ({[+ Limits.Credit +]} ⊎ m0) ⊎ F ⊎ copies Limits.Credit (live_leases s)); [done|]. multiset_solver.
    + exists (slot listener ⊎ ({[+ Limits.Credit +]} ⊎ m0)). split.
      { unfold funded. unfold open_section in E. cbv zeta in E. simpl. repeat case_match; simplify_eq; by apply reject_inv. }
      apply wp_bind, funded_same; [apply live_listener_release|]. apply wp_listener_release; [done|].
      intros m3 [-> | ->]; apply wp_ret, HQ; eauto using stocked_swap.
  - cbn [negb]. apply wp_section. intros s F s' r HI [= <- <-].
    exists ({[+ Limits.Credit +]} ⊎ ({[+ Limits.Credit +]} ⊎ m2)). split; [by apply reject_inv|]. apply HQ. eauto using stocked_swap.
Qed.
(** A release is paid for by the lease. *)
Lemma funded_release j k m (Q : unit -> gmultiset Limits.tok -> Prop) :
  stocked k m -> (forall m', stocked k m' -> Q tt m') -> wp funded never (release fuel j) m Q.
Proof.
  intros Hm HQ. apply wp_bind, wp_section. intros s F s' r HI E. unfold release_mark in E. unfold funded in HI. simpl in HI.
  destruct (as_leases s !! j) as [l|] eqn:Hj; [|simplify_eq; exists m; split; [done|by apply wp_ret, HQ]].
  destruct (bool_decide _) eqn:Hst; simplify_eq; [exists m; split; [done|by apply wp_ret, HQ]|].
  apply bool_decide_eq_false in Hst. exists ({[+ Owed l +]} ⊎ ({[+ Limits.Credit +]} ⊎ m)). split.
  - unfold funded, live_leases in *. simpl. pose proof (live_insert _ _ _ (set_state connectionReleased l) Hj) as E.
    unfold live at 2 4 in E. rewrite (bool_decide_false (cl_state l = _)), bool_decide_true in E by done. cbn in E.
    rewrite Nat.add_0_r in E. rewrite <- E, Nat.add_1_r, copies_S in HI.
    replace ({[+ Owed l +]} ⊎ ({[+ Limits.Credit +]} ⊎ m) ⊎ F ⊎ copies Limits.Credit (length (List.filter live (<[j:=set_state connectionReleased l]> (as_leases s)))))
      with ({[+ Owed l +]} ⊎ (m ⊎ F ⊎ ({[+ Limits.Credit +]} ⊎ copies Limits.Credit (length (List.filter live (<[j:=set_state connectionReleased l]> (as_leases s)))))))
      by multiset_solver. by apply mark_inv.
  - apply wp_bind, wp_section. intros s1 F1 s2 r HI1 [= <- <-]. exists (slot (cl_listener l) ⊎ ({[+ Limits.Credit +]} ⊎ m)). split.
    { unfold funded in *. simpl in *. rewrite <- !(assoc_L (⊎)) in *. by apply count_inv. }
    apply funded_same; [apply live_listener_release|]. apply wp_listener_release; [done|].
    intros m' [-> | ->]; eauto using stocked_swap.
Qed.
Lemma live_activate j : respects same_live (activate j).
Proof.
  apply respects_atomically. intros s. unfold activate_section.
  destruct (as_leases s !! j) as [l|] eqn:Hj; [|done]. destruct (cl_state l) eqn:Hst; try done.
  unfold same_live, live_leases. cbn. pose proof (live_insert _ _ _ (set_state connectionActive l) Hj) as E.
  unfold live at 2 4 in E. rewrite !bool_decide_false in E by (rewrite ?Hst; done). cbn in E. lia.
Qed.
Lemma funded_activate j k m (Q : bool -> gmultiset Limits.tok -> Prop) :
  stocked k m -> (forall r m', stocked k m' -> Q r m') -> wp funded never (activate j) m Q.
Proof. intros Hm HQ. apply funded_same; [apply live_activate|]. by apply (wp_activate _ _ _ k). Qed.
Lemma funded_connection peer k m (Q : result nat -> gmultiset Limits.tok -> Prop) :
  stocked (2 + k) m -> (forall r m', stocked k m' -> Q r m') -> wp funded never (acquireConnection fuel peer) m Q.
Proof.
  intros Hm HQ. apply wp_bind, (funded_acquire _ _ k); [done|]. intros [j|e] m' Hm'; [|by apply wp_ret, HQ].
  apply wp_bind, (funded_activate _ k); [done|]. intros. by apply wp_ret, HQ.
Qed.
Lemma funded_activity h k m (Q : result nat -> gmultiset Limits.tok -> Prop) :
  stocked k m -> (forall r m', stocked k m' -> Q r m') -> wp funded never (atomically (acquire_activity h)) m Q.
Proof.
  intros Hm HQ. apply funded_same; [|by apply (Limits.wp_activity _ _ _ k)]. apply respects_atomically. intros s. apply same_live_list.
  unfold acquire_activity. by case_match.
Qed.
Lemma funded_releaseActivity j k m (Q : bool -> gmultiset Limits.tok -> Prop) :
  stocked k m -> (forall r m', stocked k m' -> Q r m') -> wp funded never (releaseActivity j) m Q.
Proof.
  intros Hm HQ. apply funded_same; [|by apply (wp_releaseActivity _ _ _ k)]. apply respects_bind; [|by intros [[]|]; [apply respects_atomically..|]].
  apply respects_atomically. intros s. apply same_live_list. unfold release_activity_mark. by repeat case_match.
Qed.
End funded.

Create HintDb costs.
(** ** The concern *)
Definition one (b : bool) : nat := if b then 1%nat else 0%nat.
Section lock.
Context (L : Limits) (bound fuel : nat).
Hypothesis fuel_ok : (bound < fuel)%nat.
Abbreviation share := (nat * gmultiset Limits.tok)%type.
Definition lock_inv (s : world) (m : share) : Prop :=
  m.1 = one (e_locked (w_engine s)) /\ funded L bound (e_admission (w_engine s)) m.2.
Definition lock_blk (s : world) (m : share) : Prop := m.1 = 0%nat /\ clean m.2.
Definition lock_fin (m : share) : Prop := m.1 = 0%nat /\ clean m.2.
Abbreviation lwp := (awp lock_inv lock_blk true any_panic).
Definition lock_view (s : world) : bool * admissionState := (e_locked (w_engine s), e_admission (w_engine s)).

(** A program that begins with [i] locks and ends with [o], and the credits it may use. *)
Definition costs (i o n : nat) {A} (p : prog world A) : Prop :=
  forall k a, stocked (n + k) a -> lwp p (i, a) (fun _ g => g.1 = o /\ stocked k g.2).

Lemma costs_bind i j o n n' {A B} (p : prog world A) (g : A -> prog world B) :
  costs i j n p -> (forall x, costs j o n' (g x)) -> costs i o (n + n') (p ≫= g).
Proof.
  intros Hp Hg k a Ha. apply awp_bind. eapply awp_mono; [|apply (Hp (n' + k)%nat)]; [|by rewrite Nat.add_assoc].
  intros x [? ?] [? ?]. simplify_eq/=. by apply Hg.
Qed.
Lemma costs_then i j o n {A B} (p : prog world A) (g : A -> prog world B) :
  costs i j 0 p -> (forall x, costs j o n (g x)) -> costs i o n (p ≫= g).
Proof. apply (costs_bind _ _ _ 0). Qed.
Lemma costs_eng_then i j o n {A B} (p : prog Engine A) (g : A -> prog Engine B) :
  costs i j 0 (eng p) -> (forall x, costs j o n (eng (g x))) -> costs i o n (eng (p ≫= g)).
Proof.
  intros Hp Hg k a Ha. apply awp_lift_bind. eapply awp_mono; [|by apply (Hp (n + k)%nat)].
  intros x [? ?] [? ?]. simplify_eq/=. by apply Hg.
Qed.
Lemma costs_le i o n n' {A} (p : prog world A) : (n <= n')%nat -> costs i o n p -> costs i o n' p.
Proof. intros Hn Hp k a Ha. apply Hp. eapply stocked_le; [|exact Ha]. lia. Qed.
Lemma costs_ret i n {A} (x : A) : costs i i n (mret x).
Proof. intros k a Ha. apply awp_ret. split; [done|]. eapply stocked_le; [|exact Ha]. lia. Qed.
Lemma costs_eng_ret i n {A} (x : A) : costs i i n (eng (mret x)).
Proof. apply costs_ret. Qed.
Lemma lock_inv_view s s' m : lock_view s' = lock_view s -> lock_inv s m -> lock_inv s' m.
Proof. unfold lock_inv, lock_view. by intros [= -> ->]. Qed.
Lemma costs_frames i n {A} (p : prog world A) :
  frames lock_view (fun _ => i = 0%nat) true any_panic p -> costs i i n p.
Proof.
  intros Hp k a Ha. eapply awp_frames; [apply lock_inv_view| |exact Hp|]; cbn.
  - intros ? Hi. split; [done|]. apply Ha.
  - intros ?. split; [done|]. eapply stocked_le; [|exact Ha]. lia.
Qed.
Lemma costs_sec i n {B} (f : world -> world * B) : (forall s, lock_view (f s).1 = lock_view s) -> costs i i n (atomically f).
Proof. intros Hf. by apply costs_frames, frames_atomically. Qed.
Lemma costs_panic i n {B} (f : world -> option (world * B)) :
  (forall s s' b, f s = Some (s', b) -> lock_view s' = lock_view s) -> costs i i n (atomic_panic f).
Proof. intros Hf. by apply costs_frames, frames_atomic_panic. Qed.
Lemma costs_select n {B} (cases : world -> list (world * B)) :
  (exists s, cases s <> []) -> (forall s s' b, (s', b) ∈ cases s -> lock_view s' = lock_view s) -> costs 0 0 n (select cases).
Proof. intros He Hc. by apply costs_frames, frames_select. Qed.
Lemma costs_eng_sec i n {B} (f : Engine -> Engine * B) :
  (forall e, e_locked (f e).1 = e_locked e /\ e_admission (f e).1 = e_admission e) -> costs i i n (eng (atomically f)).
Proof.
  intros Hf k a Ha. apply awp_lift_sec. intros s F HI. exists (i, a). split.
  - eapply lock_inv_view; [|exact HI]. unfold lock_view. cbn. destruct (Hf (w_engine s)) as [-> ->]. done.
  - split; [done|]. eapply stocked_le; [|exact Ha]. lia.
Qed.
Lemma costs_lock n : costs 0 1 n (eng lock).
Proof.
  intros k a Ha. intros s F [E1 E2]. cbn in E1. split_and!.
  - intros _ Hd. specialize (Hd (set_w_engine (set_locked false (w_engine s)) s)). done.
  - intros _ _. split; [done|]. apply Ha.
  - intros o. cbn. destruct (e_locked (w_engine s)) eqn:El; [by intros ?%elem_of_nil|].
    intros ->%list_elem_of_singleton. exists (1%nat, a). split; [|split; [done|eapply stocked_le; [|exact Ha]; lia]].
    split; [cbn in *; lia|exact E2].
Qed.
Lemma costs_unlock n : costs 1 0 n (eng unlock).
Proof.
  intros k a Ha. apply awp_lift_sec. intros s F [E1 E2]. exists (0%nat, a). split.
  - split; [|exact E2]. cbn in *. destruct (e_locked (w_engine s)); cbn in *; lia.
  - split; [done|]. eapply stocked_le; [|exact Ha]. lia.
Qed.
Lemma costs_adm i n {A} (p : prog admissionState A) :
  (forall k a Q, stocked (n + k) a -> (forall r a', stocked k a' -> Q r a') -> wp (funded L bound) never p a Q) ->
  costs i i n (eng (adm p)).
Proof.
  intros Hp k a Ha. specialize (Hp k a (fun _ => stocked k) Ha ltac:(done)). clear Ha.
  revert a Hp. induction p as [x|B f g IH]; intros a Hp; [by split|]. intros s F [E1 E2]. destruct (Hp _ _ E2) as [Hb Ho]. split_and!.
  - intros _ Hd. apply Hb. specialize (Hd s). cbn in Hd. by do 2 eapply map_eq_nil.
  - intros E. destruct Hb. cbn in E. by do 2 eapply map_eq_nil.
  - intros o. cbn. rewrite map_map. intros (o' & -> & Hin)%list_elem_of_fmap. specialize (Ho _ Hin).
    destruct o' as [t b|]; [|done]. destruct Ho as (a' & HI' & Hk). exists (i, a'). split; [by split|by apply IH].
Qed.

Ltac costs_leaf :=
  first
    [ apply costs_ret | apply costs_eng_ret | apply costs_lock | apply costs_unlock
    | solve [auto 2 with costs nocore]
    | apply costs_sec; intros ?; cbv beta zeta; repeat case_match; reflexivity
    | apply costs_panic; intros ? ? ? ?; repeat case_match; simplify_eq; reflexivity
    | apply costs_eng_sec; intros ?; cbv beta zeta; repeat case_match; by split ].
Ltac costs :=
  repeat first
    [ costs_leaf
    | eapply costs_eng_then; [|intros ?]
    | eapply costs_then; [solve [costs]|intros ?]
    | match goal with |- costs _ _ _ (match ?x with _ => _ end) => destruct x
                    | |- costs _ _ _ (eng (match ?x with _ => _ end)) => destruct x end ].

(** *** The Engine *)
Lemma costs_maybeDoneLocked i n : costs i i n (eng maybeDoneLocked).
Proof. apply costs_eng_sec. intros e. unfold maybe_done. by case_match. Qed.
#[local] Hint Resolve costs_maybeDoneLocked : costs.
Lemma costs_beginOp n : costs 0 0 n (eng beginOp).
Proof. unfold beginOp. costs. Qed.
Lemma costs_endOp n : costs 0 0 n (eng endOp).
Proof. unfold endOp. costs. Qed.
Lemma costs_addTracked k v n : costs 0 0 n (eng (addTracked k v)).
Proof. unfold addTracked. costs. Qed.
Lemma costs_removeTracked k v n : costs 0 0 n (eng (removeTracked k v)).
Proof. unfold removeTracked. costs. Qed.
Lemma costs_beginAbort why n : costs 0 0 n (eng (beginAbort why)).
Proof. unfold beginAbort. costs. Qed.
Lemma costs_activity (h : bool) i n : costs i i n (eng (adm (atomically (acquire_activity h)))).
Proof. apply (costs_le _ _ 0); [lia|]. apply costs_adm. intros k a Q. by apply funded_activity. Qed.
Lemma costs_release j i n : costs i i n (eng (adm (release fuel j))).
Proof. apply (costs_le _ _ 0); [lia|]. apply costs_adm. intros k a Q Ha HQ. eapply funded_release; eauto. Qed.
#[local] Hint Resolve costs_beginOp costs_endOp costs_addTracked costs_removeTracked costs_beginAbort costs_activity costs_release : costs.
Lemma costs_acquire_handshake n : costs 0 0 n acquire_handshake.
Proof. unfold acquire_handshake, engineAcquireHandshake, acquire_engine_activity, acquireHandshake. costs. Qed.
Lemma costs_acquire_upgrade n : costs 0 0 n acquire_upgrade.
Proof. unfold acquire_upgrade, engineAcquireUpgrade, acquire_engine_activity, acquireUpgrade. costs. Qed.
Lemma costs_activity_release j n : costs 0 0 n (activity_release j).
Proof.
  unfold activity_release, engineActivityRelease, maybeDone. apply costs_eng_then with 0%nat; [|intros ?; costs].
  apply costs_adm. intros k a Q. by apply funded_releaseActivity.
Qed.
Lemma costs_lease_release j n : costs 0 0 n (lease_release fuel j).
Proof. apply costs_release. Qed.
Lemma costs_remove_conn k v n : costs 0 0 n (eng (remove_conn k fuel v)).
Proof. unfold remove_conn. costs. Qed.
(** A connection that brings its lease. *)
Lemma costs_add_conn k v peer j n : costs 0 0 n (eng (add_conn k fuel v peer (Some j))).
Proof.
  assert (forall i n, costs i i n (eng (adm (activate j)))) as Ha.
  { intros i n'. apply (costs_le _ _ 0); [lia|]. apply costs_adm. intros k' a Q Hk HQ. by apply (funded_activate L bound fuel fuel_ok _ k'). }
  unfold add_conn, obtain_lease. costs.
Qed.
Lemma costs_acquire_opening addr capacity n : costs 0 0 (2 + n) (acquire_opening fuel addr capacity).
Proof. apply (costs_le _ _ 2); [lia|]. apply costs_adm. intros k a Q. by apply funded_acquire. Qed.
#[local] Hint Resolve costs_acquire_handshake costs_acquire_upgrade costs_activity_release costs_lease_release costs_remove_conn costs_add_conn : costs.

(** *** Building blocks of the programs *)
Section programs.
Context `{WebSocketLib} (pf : platform) (cfg : config) (en : surroundings).
Lemma costs_emit ev n : costs 0 0 n (emit_event cfg ev).
Proof. unfold emit_event. costs. Qed.
Lemma costs_observe kind a b sc l r d err n : costs 0 0 n (observeSetup cfg kind a b sc l r d err).
Proof. apply costs_emit. Qed.
Lemma costs_stamp n : costs 0 0 n (stamp cfg).
Proof. unfold stamp. costs. Qed.
Lemma costs_elapsed t n : costs 0 0 n (elapsed cfg t).
Proof. unfold elapsed. costs. Qed.
Lemma costs_close_opt c n : costs 0 0 n (close_opt c).
Proof. unfold close_opt. costs. Qed.
#[local] Hint Resolve costs_emit costs_observe costs_stamp costs_elapsed costs_close_opt : costs.
Lemma costs_dialTCP network e n : costs 0 0 n (dialTCP pf cfg network e).
Proof. unfold dialTCP. cbv zeta. costs. Qed.
Lemma costs_adopt raw e j n : costs 0 0 n (adoptStreamWithLease cfg fuel raw e (Some j)).
Proof. unfold adoptStreamWithLease, addStreamWithLease. costs. Qed.
Lemma costs_newWSSession e l r c ph n : costs 0 0 n (newWSSession cfg e l r c ph).
Proof. unfold newWSSession. costs. Qed.
#[local] Hint Resolve costs_dialTCP costs_adopt costs_newWSSession : costs.
Lemma costs_dial_tls env e raw l r d n : costs 0 0 n (dial_tls pf cfg env e raw l r d).
Proof. unfold dial_tls. cbv zeta. costs. Qed.
Lemma costs_dial_adopt e k d h j n : costs 0 0 n (dial_adopt pf cfg fuel e k d h j).
Proof. unfold dial_adopt. cbv zeta. costs. Qed.
#[local] Hint Resolve costs_dial_tls costs_dial_adopt : costs.
Lemma costs_dialStream env e : costs 0 0 2 (dialStream pf cfg fuel env e).
Proof.
  unfold dialStream. cbv zeta. eapply costs_then; [costs_leaf|intros ?]. eapply costs_then; [costs_leaf|intros r].
  eapply costs_then; [costs_leaf|intros ?]. destruct r; [|costs]. do 2 (eapply costs_then; [costs_leaf|intros ?]).
  apply (costs_bind _ 0 _ 2 0); [apply (costs_acquire_opening _ _ 0)|intros ?]. costs.
Qed.

(** A [select] that is ready where no listener is open. *)
Lemma costs_choose n {B} (cases : world -> list (world * B)) :
  cases (new_world L 0) <> [] -> (forall s s' b, (s', b) ∈ cases s -> lock_view s' = lock_view s) -> costs 0 0 n (select cases).
Proof. intros He. apply costs_select. by exists (new_world L 0). Qed.
Ltac branches := intros ? ? ?; cbv beta zeta; repeat case_match; rewrite ?elem_of_app, ?elem_ready, ?elem_of_nil, ?list_elem_of_singleton; naive_solver.
Lemma costs_once get put n :
  get (new_world L 0) = Finished -> (forall o s, lock_view (put o s) = lock_view s) -> costs 0 0 n (once_enter get put).
Proof. intros Hg Hp. apply costs_choose; [by rewrite Hg|]. intros s s' b. destruct (get s); rewrite ?elem_of_nil, ?list_elem_of_singleton; naive_solver. Qed.
Lemma costs_initiateClose lc i cause n : costs 0 0 n (initiateClose lc i cause).
Proof.
  unfold initiateClose, close_channel. cbv zeta. eapply costs_then; [by apply costs_once|intros ?]. costs.
Qed.
#[local] Hint Resolve costs_initiateClose : costs.
Lemma costs_watchContext lc i n : costs 0 0 n (watchContext lc i).
Proof. unfold watchContext. eapply costs_then; [apply costs_choose; [done|branches]|intros ?]. costs. Qed.
Lemma costs_finalize lc i n : costs 0 0 n (finalize cfg lc i).
Proof. unfold finalize, close_channel, removeStreamListener. eapply costs_then; [by apply costs_once|intros ?]. costs. Qed.
Lemma costs_wait i d n : costs 0 0 n (waitOrClosed i d).
Proof. unfold waitOrClosed. eapply costs_then; [costs_leaf|intros ?]. apply costs_choose; [done|branches]. Qed.
Lemma costs_Accept closed next n : closed (new_world L 0) = true -> costs 0 0 n (Accept closed next).
Proof. intros Hc. apply costs_choose; [by rewrite Hc|]. branches. Qed.
#[local] Hint Resolve costs_watchContext costs_finalize costs_wait : costs.
Lemma costs_accept_step lc i next d n : costs 0 0 n (accept_step pf cfg lc i next d).
Proof. unfold accept_step, isClosing, operationalError. eapply costs_then; [by apply costs_Accept|intros ?]. cbv zeta. costs. Qed.
#[local] Hint Resolve costs_accept_step : costs.
Lemma costs_accept_rounds lc i answers d n : costs 0 0 n (accept_rounds pf cfg lc i answers d).
Proof. revert d. induction answers as [|a answers IH]; intros d; cbn [accept_rounds]; costs. Qed.
Lemma costs_acceptLoop arr lc i n : costs 0 0 n (acceptLoop pf cfg arr lc i).
Proof. unfold acceptLoop. eapply costs_then; [apply costs_accept_rounds|intros ?]. costs. Qed.
Lemma costs_prepare tls c raw n : costs 0 0 n (prepare cfg tls c raw).
Proof. unfold prepare. cbv zeta. costs. Qed.
#[local] Hint Resolve costs_prepare : costs.
Lemma costs_accept_adopt lc tls i raw e j c n : costs 0 0 n (accept_adopt pf cfg fuel lc tls i raw e j c).
Proof. unfold accept_adopt. costs. Qed.
#[local] Hint Resolve costs_accept_adopt : costs.
Lemma costs_handleAccepted lc tls i raw : costs 0 0 2 (handleAccepted pf cfg fuel lc tls i raw).
Proof.
  unfold handleAccepted. eapply costs_then; [costs_leaf|intros [?|]]; [costs|]. do 2 (eapply costs_then; [costs_leaf|intros ?]).
  apply (costs_bind _ 0 _ 2 0); [apply (costs_acquire_opening _ _ 0)|intros ?]. costs.
Qed.
Lemma costs_listenStream network e n : costs 0 0 n (listenStream pf cfg network e).
Proof. unfold listenStream, addStreamListener. costs. Qed.

(** *** HTTP *)
Lemma costs_holder_release h n : costs 0 0 n (holder_release fuel h).
Proof. unfold holder_release, leave. costs. Qed.
#[local] Hint Resolve costs_holder_release : costs.
Lemma costs_releaseConn t k n : costs 0 0 n (releaseConn fuel t k).
Proof. unfold releaseConn. costs. Qed.
Lemma costs_release_all hs n : costs 0 0 n (release_all fuel hs).
Proof. induction hs as [|h hs IH]; cbn [release_all]; [costs|]. eapply costs_then; [costs_leaf|intros ?]. apply IH. Qed.
#[local] Hint Resolve costs_releaseConn costs_release_all : costs.
Lemma costs_closeAll t n : costs 0 0 n (closeAll fuel t).
Proof. unfold closeAll. costs. Qed.
Lemma costs_accept_http t next : costs 0 0 2 (accept_http cfg fuel t next).
Proof.
  unfold accept_http. eapply costs_then; [by apply costs_Accept|]. intros [[[c p]|err] tmp]; [|costs].
  destruct (np_tcp p); [|costs]. destruct (configureTCP _ _).2; [costs|].
  eapply costs_then; [costs_leaf|intros [?|]]; [costs|]. eapply costs_then; [costs_leaf|intros ?].
  apply (costs_bind _ 0 _ 2 0); [apply (costs_acquire_opening _ _ 0)|intros ?]. unfold register, register_section. costs.
Qed.
Lemma costs_gated_round t next : costs 0 0 2 (gated_round cfg fuel t next).
Proof. unfold gated_round. apply (costs_bind _ 0 _ 2 0); [apply costs_accept_http|intros ?]. costs. Qed.
Lemma costs_gated_rounds t answers : costs 0 0 (2 * S (length answers)) (gated_rounds cfg fuel t answers).
Proof.
  induction answers as [|a answers IH]; cbn [gated_rounds length].
  - apply (costs_bind _ 0 _ 2 0); [apply costs_gated_round|intros ?]. costs.
  - replace (2 * S (S (length answers)))%nat with (2 + 2 * S (length answers))%nat by lia.
    apply (costs_bind _ 0); [apply costs_gated_round|]. intros []; [done|costs].
Qed.
Lemma costs_gated_handshake tls t c n : costs 0 0 n (gated_handshake cfg fuel tls t c).
Proof.
  unfold gated_handshake. eapply costs_then; [costs_leaf|intros [act|err]]; [|costs]. eapply costs_then; [costs_leaf|intros ?].
  eapply costs_then; [|intros ?; costs]. destruct (handshake _ _); [costs|].
  eapply costs_then; [unfold rebind, rebind_section; costs|]. intros []; [|costs]. cbn [negb].
  eapply costs_then; [apply costs_choose; [done|branches]|intros []]; costs.
Qed.
Lemma costs_gated_Accept t n : costs 0 0 n (gated_Accept t).
Proof. unfold gated_Accept. eapply costs_then; [costs_leaf|intros ?]. apply costs_choose; [done|branches]. Qed.
Lemma costs_gated_Close t n : costs 0 0 n (gated_Close t).
Proof. unfold gated_Close. eapply costs_then; [by apply costs_once|intros ?]. costs. Qed.
#[local] Hint Resolve costs_closeAll costs_gated_Close costs_gated_Accept : costs.

(** *** The WebSocket server *)
Lemma costs_take h n : costs 0 0 n (takeWithPhysical h).
Proof. unfold takeWithPhysical, leave. costs. Qed.
Lemma costs_upgrade_adopt t j ph l r d n : costs 0 0 n (upgrade_adopt cfg fuel t j ph l r d).
Proof. unfold upgrade_adopt, addWebSocketWithLease. costs. Qed.
Lemma costs_upgrade_observed t r d err h n : costs 0 0 n (upgrade_observed pf cfg t r d err h).
Proof. unfold upgrade_observed. costs. Qed.
#[local] Hint Resolve costs_take costs_upgrade_adopt costs_upgrade_observed : costs.
Lemma costs_upgrade resolve t k h rq n : costs 0 0 n (upgrade pf cfg fuel resolve t k h rq).
Proof. unfold upgrade. cbv zeta. costs. Qed.
#[local] Hint Resolve costs_upgrade : costs.
Lemma costs_serve_requests resolve t k h rqs n : costs 0 0 n (serve_requests pf cfg fuel resolve t k h rqs).
Proof. induction rqs as [|rq rqs IH]; cbn [serve_requests]; costs. Qed.
#[local] Hint Resolve costs_serve_requests : costs.
Lemma costs_serve_conn resolve requests t k n : costs 0 0 n (serve_conn pf cfg fuel resolve requests t k).
Proof. unfold serve_conn, connContext, connState. costs. Qed.
Lemma costs_close_serveLn t n : costs 0 0 n (close_serveLn t).
Proof. unfold close_serveLn. costs. Qed.
Lemma costs_serve_failed t err n : costs 0 0 n (serve_failed t err).
Proof. unfold serve_failed. costs. Qed.
#[local] Hint Resolve costs_close_serveLn costs_serve_failed : costs.
Lemma costs_serve_rounds t answers : costs 0 0 (2 * S (length answers)) (serve_rounds cfg fuel t answers).
Proof.
  induction answers as [|a answers IH]; cbn [serve_rounds length].
  - apply (costs_bind _ 0 _ 2 0); [apply costs_accept_http|intros ?]. costs.
  - replace (2 * S (S (length answers)))%nat with (2 + 2 * S (length answers))%nat by lia.
    apply (costs_bind _ 0); [apply costs_accept_http|]. intros ?. costs.
Qed.
Lemma costs_serve_tls_failed t err n : costs 0 0 n (serve_tls_failed t err).
Proof. unfold serve_tls_failed. eapply costs_then; [costs_leaf|intros []]; [costs|]. apply costs_choose; [done|branches]. Qed.
#[local] Hint Resolve costs_serve_tls_failed : costs.
Lemma costs_serve_tls_rounds t answers n : costs 0 0 n (serve_tls_rounds t answers).
Proof.
  induction answers as [|a answers IH]; cbn [serve_tls_rounds]; [|costs].
  eapply costs_then; [apply costs_choose; [done|branches]|intros ?]. costs.
Qed.
Lemma costs_Serve arr t : costs 0 0 (2 * S (length (arr t))) (Serve cfg fuel arr t).
Proof.
  unfold Serve. eapply costs_then; [costs_leaf|intros serving]. rewrite <- (Nat.add_0_r (2 * _)).
  apply (costs_bind _ 0); [|intros ?; costs]. destruct serving; [|costs]. eapply costs_then; [costs_leaf|intros tls].
  rewrite <- (Nat.add_0_r (2 * _)). apply (costs_bind _ 0); [|intros ?; costs].
  destruct tls; [apply costs_serve_tls_rounds|apply costs_serve_rounds].
Qed.
Lemma costs_server_Close t n : costs 0 0 n (server_Close t).
Proof.
  unfold server_Close. eapply costs_then; [costs_leaf|intros []]; [|costs]. eapply costs_then; [costs_leaf|intros ?].
  apply costs_choose; [done|branches].
Qed.
#[local] Hint Resolve costs_server_Close : costs.
Lemma costs_wsListener_Close lc t n : costs 0 0 n (wsListener_Close fuel lc t).
Proof. unfold wsListener_Close, close_ws_channel. eapply costs_then; [by apply costs_once|intros ?]. costs. Qed.
#[local] Hint Resolve costs_wsListener_Close : costs.
Lemma costs_ws_watch lc t n : costs 0 0 n (ws_watch fuel lc t).
Proof. unfold ws_watch. eapply costs_then; [apply costs_choose; [done|branches]|intros ?]. costs. Qed.
Lemma costs_ws_serve arr lc t : costs 0 0 (2 * S (length (arr t))) (ws_serve cfg fuel arr lc t).
Proof.
  unfold ws_serve, close_ws_channel, removeWSListener. cbv zeta. rewrite <- (Nat.add_0_r (2 * _)).
  apply (costs_bind _ 0); [apply costs_Serve|intros ?]. costs.
Qed.
Lemma costs_listenWebSocket network e n : costs 0 0 n (listenWebSocket pf cfg fuel network e).
Proof. unfold listenWebSocket, addWSListener. costs. Qed.

(** *** Dialing a WebSocket *)
Lemma costs_release_admission d n : costs 0 0 n (release_admission fuel d).
Proof. unfold release_admission, take_admission, release_opt. costs. Qed.
Lemma costs_dialRaw d e env : costs 0 0 2 (dialRaw cfg fuel d e env).
Proof.
  unfold dialRaw, recordConnect. cbv zeta. eapply costs_then; [costs_leaf|intros ?]. destruct (dl_result _); [|costs].
  do 3 (eapply costs_then; [solve [costs]|intros ?]). destruct (match np_tcp _ with Some _ => _ | None => _ end); [costs|].
  apply (costs_bind _ 0 _ 2 0); [apply (costs_acquire_opening _ _ 0)|intros ?]. costs.
Qed.
Lemma costs_keep_admission d k j n : costs 0 0 n (keep_admission fuel d k j).
Proof. unfold keep_admission, set_admission, set_section. cbv zeta. costs. Qed.
#[local] Hint Resolve costs_release_admission costs_keep_admission : costs.
Lemma costs_transport_dial d e env : costs 0 0 2 (transport_dial cfg fuel d e env).
Proof.
  unfold transport_dial. apply (costs_bind _ 0 _ 2 0).
  - assert (costs 0 0 2 (DialContext cfg fuel d e env)) as Hd
      by (unfold DialContext; apply (costs_bind _ 0 _ 2 0); [apply costs_dialRaw|intros ?; costs]).
    assert (forall tls, costs 0 0 2 (DialTLSContext cfg fuel d e env tls)) as Ht
      by (intros tls; unfold DialTLSContext; cbv zeta; apply (costs_bind _ 0 _ 2 0); [apply costs_dialRaw|intros ?; costs]).
    destruct (ep_Scheme e); try done. destruct (clientTLSConfig cfg e); [done|costs].
  - intros r. costs.
Qed.
Lemma costs_websocket_Dial d e env n : costs 0 0 n (websocket_Dial cfg d e env).
Proof.
  unfold websocket_Dial. eapply costs_then; [costs_leaf|intros ?]. eapply costs_then; [|intros ?; costs].
  apply costs_select; [|branches].
  exists (set_w_dials (replicate (S d) {| da_lease := None; da_local := None; da_remote := None; da_physical := None; da_connectDone := false;
    da_connectDuration := 0; da_connectErr := None; da_dialed := Some (inl (RawConn 0)); da_received := false; da_abandoned := false |}) (new_world L 0)).
  unfold dial. cbn [w_dials set_w_dials]. rewrite lookup_replicate_2 by lia. done.
Qed.
#[local] Hint Resolve costs_websocket_Dial : costs.
Lemma costs_dial_ws_adopt e j ph k l r c cd hd n : costs 0 0 n (dial_ws_adopt pf cfg fuel e (Some j) ph k l r c cd hd).
Proof. unfold dial_ws_adopt, addWebSocketWithLease. cbv zeta. costs. Qed.
#[local] Hint Resolve costs_dial_ws_adopt : costs.
Lemma costs_dial_ws d e env n : costs 0 0 n (dial_ws pf cfg fuel d e env).
Proof. unfold dial_ws, take_admission. cbv zeta. costs. Qed.
#[local] Hint Resolve costs_dial_ws : costs.
Lemma costs_dialWebSocket dials e n : costs 0 0 n (dialWebSocket pf cfg fuel dials e).
Proof. unfold dialWebSocket, newWebSocketHTTPTransport. cbv zeta. costs. Qed.

(** *** The pool *)
#[local] Hint Resolve costs_listenStream costs_listenWebSocket costs_dialWebSocket : costs.
Lemma costs_Listen ctx network e n : costs 0 0 n (Listen pf cfg fuel ctx network e).
Proof. unfold Listen. costs. Qed.
Lemma costs_Dial ctx env e : costs 0 0 2 (Dial pf cfg fuel en ctx env e).
Proof.
  unfold Dial. destruct ctx; [|costs]. cbn [negb]. destruct (ValidateDial e); [costs|]. destruct (negb _); [costs|].
  eapply costs_then; [costs_leaf|intros [?|]]; [costs|]. apply (costs_bind _ 0 _ 2 0); [|intros ?; costs].
  destruct (ep_Scheme e); try (by costs); apply costs_dialStream.
Qed.
Lemma costs_close_each close ls n : (forall i, costs 0 0 0 (close i)) -> costs 0 0 n (close_each close ls).
Proof. intros Hc. induction ls as [|i ls IH]; cbn [close_each]; costs. Qed.
Lemma costs_close_listeners set n : costs 0 0 n (close_listeners fuel en set).
Proof.
  unfold close_listeners, stream_close, ws_close. eapply costs_then; [apply costs_close_each; intros ?; costs|intros ?].
  apply costs_close_each. intros ?. costs.
Qed.
#[local] Hint Resolve costs_Listen costs_close_listeners : costs.
Lemma costs_op o : costs 0 0 2 (setup_op_prog pf cfg fuel en o).
Proof.
  destruct o; cbn [setup_op_prog]; unfold stream_close, ws_close; try (by costs).
  apply (costs_bind _ 0 _ 2 0); [apply costs_Dial|intros ?; costs].
Qed.
Lemma costs_client ops : costs 0 0 (2 * length ops) (setup_client pf cfg fuel en ops).
Proof.
  induction ops as [|o ops IH]; cbn [setup_client length]; [costs|].
  replace (2 * S (length ops))%nat with (2 + 2 * length ops)%nat by lia. apply (costs_bind _ 0); [apply costs_op|done].
Qed.
Context (amax : nat) (Hamax : forall t, (length (en_ws_arrivals en t) <= amax)%nat).
Lemma costs_task t : costs 0 0 (2 * S amax) (run_task pf cfg fuel en t).
Proof.
  destruct t as [i|i|i c|t|t|t|t c|t k|d e]; cbn [run_task].
  - apply costs_watchContext.
  - apply costs_acceptLoop.
  - eapply costs_le; [|apply costs_handleAccepted]. lia.
  - apply costs_ws_watch.
  - eapply costs_le; [|apply costs_ws_serve]. specialize (Hamax t). lia.
  - eapply costs_le; [|apply costs_gated_rounds]. specialize (Hamax t). lia.
  - apply costs_gated_handshake.
  - apply costs_serve_conn.
  - eapply costs_le; [|apply costs_transport_dial]. lia.
Qed.
Lemma costs_worker w : costs 0 0 (2 * S amax) (worker pf cfg fuel en w).
Proof.
  unfold worker. eapply costs_then; [|apply costs_task]. apply costs_select; [|branches].
  exists (set_w_go (replicate (S w) (false, TWatch 0)) (new_world L 0)). cbn [w_go set_w_go]. by rewrite lookup_replicate_2 by lia.
Qed.
End programs.
End lock.

(** ** The pool *)
Section pool.
Context `{WebSocketLib} (pf : platform) (cfg : config) (fuel : nat) (en : surroundings) (now : Z) (workers amax : nat) (opss : list (list setup_op)).
(** The compare-and-swaps of all goroutines, at most; enough rounds for each loop. *)
Definition setup_swaps : nat := (workers * (2 * S amax) + 2 * length (mjoin opss))%nat.
Hypothesis limits_ok : validate (cfg_limits cfg) = None.
Hypothesis fuel_ok : (setup_swaps < fuel)%nat.
Hypothesis arrivals_ok : forall t, (length (en_ws_arrivals en t) <= amax)%nat.
Abbreviation start := (setup_pool pf cfg fuel en now workers opss).

Lemma gsum_shares {O} (f : O -> nat) (os : list O) :
  gsum ((fun o => (0%nat, copies Limits.Credit (f o))) <$> os) = (0%nat, copies Limits.Credit (sum_list_with f os)).
Proof.
  induction os as [|o os IH]; [done|].
  change (gsum ((fun o => (0%nat, copies Limits.Credit (f o))) <$> o :: os)) with ((0%nat, copies Limits.Credit (f o)) ∙ gsum ((fun o => (0%nat, copies Limits.Credit (f o))) <$> os)).
  rewrite IH. change (sum_list_with f (o :: os)) with (f o + sum_list_with f os)%nat. by rewrite <- copies_add.
Qed.
Lemma sum_const {O} n (os : list O) : sum_list_with (fun _ => n) os = (length os * n)%nat.
Proof. induction os as [|o os IH]; cbn; lia. Qed.
Lemma gsum_app {M} `{Ghost M} (xs ys : list M) : gsum (xs ++ ys) = gsum xs ∙ gsum ys.
Proof. induction xs as [|x xs IH]; [symmetry; apply gop_nil|]. change (x ∙ gsum (xs ++ ys) = x ∙ gsum xs ∙ gsum ys). by rewrite IH, gop_assoc. Qed.
Lemma stocked_copies n : stocked n (copies Limits.Credit n).
Proof. split; [split_and!; by intros ? ?%elem_copies|by rewrite mult_copies]. Qed.

Lemma setup_lock_ok c :
  rtc pstep start c -> awp_ok (lock_inv (cfg_limits cfg) setup_swaps) lock_blk true any_panic lock_fin c.
Proof.
  assert (0 <= MaxConnectionsPerListener (cfg_limits cfg) /\ 0 <= MaxConnections (cfg_limits cfg) /\ 0 <= MaxConnectionsPerPeer (cfg_limits cfg)) as (? & ? & ?)
    by (unfold validate in limits_ok; repeat (destruct (_ <? 0) eqn:? in limits_ok; [done|]); lia).
  assert (forall n (p : prog world unit), costs (cfg_limits cfg) setup_swaps 0 0 n p ->
    awp (lock_inv (cfg_limits cfg) setup_swaps) lock_blk true any_panic p (0%nat, copies Limits.Credit n) (fun _ => lock_fin)) as Hc.
  { intros n p Hp. eapply awp_mono; [|apply (Hp 0%nat); rewrite Nat.add_0_r; apply stocked_copies].
    intros _ [? ?] [? [? _]]. by split. }
  eapply awp_adequate with (ms := ((fun w : nat => (0%nat, copies Limits.Credit (2 * S amax))) <$> seq 0 workers)
    ++ ((fun ops : list setup_op => (0%nat, copies Limits.Credit (2 * length ops))) <$> opss)).
  - rewrite gsum_app, (gsum_shares (fun _ : nat => 2 * S amax)%nat), (gsum_shares (fun ops : list setup_op => 2 * length ops)%nat).
    split; [done|]. cbn [gop ghost_prod snd fst]. change (gop (Ghost := ghost_mset Limits.tok)) with (disj_union (A := gmultiset Limits.tok)).
    rewrite copies_add. unfold funded. cbn [w_engine new_world new_engine e_admission].
    replace (copies Limits.Credit (live_leases (new_admission (cfg_limits cfg)))) with (∅ : gmultiset Limits.tok) by multiset_solver.
    rewrite (right_id_L ∅ (⊎)). replace (sum_list_with (fun _ => 2 * S amax)%nat (seq 0 workers) + sum_list_with (fun ops => 2 * length ops)%nat opss)%nat with setup_swaps.
    + by apply admission_inv_init.
    + unfold setup_swaps. f_equal.
      * by rewrite sum_const, length_seq.
      * clear. induction opss as [|o os IH]; [done|]. change (mjoin (o :: os)) with (o ++ mjoin os). rewrite length_app. cbn in *. lia.
  - apply Forall2_app; apply Forall2_fmap_2, Forall_Forall2_diag, Forall_forall; intros x _.
    + apply Hc, costs_worker; done.
    + apply Hc, costs_client; done.
Qed.
End pool.
