(* ===== verification/SetupLeases.v ===== *)
(** * SetupLeases: every lease of a connection is in one place

    From [acquireOpening] on, the lease of a connection is in the hands of one goroutine, in the
    tracker of a WebSocket listener, in a wsDialAdmission or with the Engine, until it is
    released: an invariant of the programs of SetupPool.v.  A goroutine owns the leases in
    its hands, and the number of a session it has built and not yet handed to the Engine. *)
From S2P Require Import Prelude Conc Kinds Errors Classify Endpoint NetAddr HostPort Secure.
From S2P Require Import Lifecycle Quota Limits Engine Options ActivityClock Observer Stats HttpClose Setup StreamSetup HttpTracker WsServer WsDial SetupPool Frames SetupLock.
Local Open Scope go_scope.

Inductive ltok := Lease (j : nat) | Fresh (v : nat) | Dialing (d : nat).
#[global] Instance ltok_eq_dec : EqDecision ltok.
Proof. solve_decision. Defined.
#[global] Instance ltok_countable : Countable ltok.
Proof.
  refine (inj_countable' (fun x => match x with Lease j => inl j | Fresh v => inr (inl v) | Dialing d => inr (inr d) end)
    (fun x => match x with inl j => Lease j | inr (inl v) => Fresh v | inr (inr d) => Dialing d end) _).
  by intros [].
Defined.

(** ** Multisets of leases *)
Definition vals (m : gmap nat nat) : gmultiset nat := list_to_set_disj (map_to_list m).*2.
Lemma vals_insert m v j : m !! v = None -> vals (<[v := j]> m) = {[+ j +]} ⊎ vals m.
Proof. intros Hv. unfold vals. rewrite map_to_list_insert by done. cbn [fmap list_fmap snd]. by rewrite list_to_set_disj_cons. Qed.
Lemma vals_delete m v j : m !! v = Some j -> vals m = {[+ j +]} ⊎ vals (delete v m).
Proof. intros Hv. rewrite <- (vals_insert _ v) by apply lookup_delete_eq. by rewrite insert_delete_id. Qed.
Definition held_lease (x : httpConnLease) : option nat := if bool_decide (hl_state x = httpConnLeaseHeld) then Some (hl_lease x) else None.
(** How often a list of leases in places has [j]. *)
Definition occ (j : nat) (l : list (option nat)) : nat := length (List.filter (fun x => bool_decide (x = Some j)) l).
Lemma occ_app j l l' : occ j (l ++ l') = (occ j l + occ j l')%nat.
Proof. unfold occ. by rewrite List.filter_app, length_app. Qed.
Lemma occ_insert j l i x y : l !! i = Some x -> (occ j (<[i := y]> l) + one (bool_decide (x = Some j)) = occ j l + one (bool_decide (y = Some j)))%nat.
Proof.
  unfold occ. revert i. induction l as [|z l IH]; intros [|i] Hi; simplify_eq/=.
  - repeat case_bool_decide; cbn; lia.
  - specialize (IH i Hi). repeat case_bool_decide; cbn in *; lia.
Qed.
Lemma occ_in j l i : l !! i = Some (Some j) -> (1 <= occ j l)%nat.
Proof.
  unfold occ. revert i. induction l as [|z l IH]; intros [|i] Hi; simplify_eq/=.
  - rewrite bool_decide_true by done. cbn. lia.
  - specialize (IH _ Hi). case_bool_decide; cbn; lia.
Qed.

(** ** The concern *)
Definition dial_of (t : task) : option nat := match t with TDial d _ => Some d | _ => None end.
Definition marks (a : admissionState) : list bool := (fun l => bool_decide (cl_state l = connectionReleased)) <$> as_leases a.
Definition see (s : world) : list (option nat) * (gmap nat nat * gmap nat nat * gmap nat nat * list bool) * list (option nat) * nat * list nat :=
  (held_lease <$> w_holders s,
   (e_streamLeases (w_engine s), e_wsLeases (w_engine s), e_packetLeases (w_engine s), marks (e_admission (w_engine s))),
   da_lease <$> w_dials s, length (w_sessions s), omap (fun e => dial_of e.2) (w_go s)).
Definition tracked (s : world) : gmultiset nat :=
  vals (e_streamLeases (w_engine s)) ⊎ vals (e_wsLeases (w_engine s)) ⊎ vals (e_packetLeases (w_engine s)).
(** Each lease is in one place, or released: in the hands of a goroutine, which [c] counts, or in the state. *)
Definition place_ok (c : nat -> nat) (held : list (option nat)) (tracked : gmultiset nat) (parked : list (option nat)) (released : list bool) : Prop :=
  forall j, (c j + occ j held + multiplicity j tracked + occ j parked + one (default false (released !! j)) = one (j <? length released)%nat)%nat.
(** The sessions that are not with the Engine yet. *)
Definition fresh_ok (c : nat -> nat) (sessions : nat) (maps : connKind -> gmap nat nat) : Prop :=
  (forall v, (1 <= c v)%nat -> c v = 1%nat /\ (v < sessions)%nat /\ forall k, maps k !! v = None) /\
  forall k v, is_Some (maps k !! v) -> (v < sessions)%nat.
(** The dials that are under way. *)
Definition dials_ok (c : nat -> nat) (dials : nat) (tasks : list nat) : Prop :=
  (forall d, (1 <= c d)%nat -> (d < dials)%nat) /\ forall d, d ∈ tasks -> (d < dials)%nat.
Record leases_inv (s : world) (m : gmultiset ltok) : Prop := {
  le_place : place_ok (fun j => multiplicity (Lease j) m) (held_lease <$> w_holders s) (tracked s) (da_lease <$> w_dials s) (marks (e_admission (w_engine s)));
  le_fresh : fresh_ok (fun v => multiplicity (Fresh v) m) (length (w_sessions s)) (fun k => leases_map k (w_engine s));
  le_dials : dials_ok (fun d => multiplicity (Dialing d) m) (length (w_dials s)) (omap (fun e => dial_of e.2) (w_go s)) }.
Lemma fresh_ext c c' n maps maps' : (forall v, c' v = c v) -> (forall k, maps' k = maps k) -> fresh_ok c n maps -> fresh_ok c' n maps'.
Proof. intros Hc Hm [H1 H2]. split; [intros v; rewrite Hc; intros Hv; setoid_rewrite Hm; by apply H1|]. intros k v. rewrite Hm. apply H2. Qed.
Lemma dials_ext c c' n ts : (forall d, c' d = c d) -> dials_ok c n ts -> dials_ok c' n ts.
Proof. intros Hc [H1 H2]. split; [|done]. intros d. rewrite Hc. apply H1. Qed.
Lemma mult_ne (x y : ltok) m : x <> y -> multiplicity x ({[+ y +]} ⊎ m) = multiplicity x m.
Proof. intros Hne. by rewrite multiplicity_disj_union, multiplicity_singleton_ne. Qed.
Lemma mult_under (x y : ltok) m n : x <> y -> multiplicity x (m ⊎ ({[+ y +]} ⊎ n)) = multiplicity x (m ⊎ n).
Proof. intros Hne. by rewrite !(multiplicity_disj_union m), mult_ne. Qed.
Lemma cons_frame (x : ltok) (m F : gmultiset ltok) : {[+ x +]} ⊎ m ∙ F = {[+ x +]} ⊎ (m ∙ F).
Proof. symmetry. apply (assoc_L (⊎)). Qed.
Lemma mult_lease j i m : multiplicity (Lease j) ({[+ Lease i +]} ⊎ m) = (one (bool_decide (j = i)) + multiplicity (Lease j) m)%nat.
Proof.
  destruct (decide (j = i)) as [->|Hne].
  - by rewrite multiplicity_disj_union, multiplicity_singleton_eq, bool_decide_true.
  - by rewrite mult_ne, bool_decide_false by congruence.
Qed.

(** What a goroutine with a lease in its hands may wait for: the lock of the Engine, and the end of another [initiateClose]. *)
Definition stalls (s : world) : Prop := e_locked (w_engine s) = true \/ exists i, lis i li_closeOnce s = InProgress.
Definition leases_fin (m : gmultiset ltok) : Prop := forall j, multiplicity (Lease j) m = 0%nat.
Definition leases_blk (s : world) (m : gmultiset ltok) : Prop := stalls s \/ leases_fin m.
Abbreviation pwp := (awp leases_inv leases_blk false any_panic).
Lemma leases_inv_see s s' m : see s' = see s -> leases_inv s m -> leases_inv s' m.
Proof.
  unfold see. intros [= E1 E2 E3 E4 E5 E6 E7 E8] [H1 H2 H3].
  assert (length (w_dials s') = length (w_dials s)) as Ed by (by rewrite <- !(length_fmap da_lease), E6).
  split.
  - unfold tracked. by rewrite E1, E2, E3, E4, E5, E6.
  - rewrite E7. eapply fresh_ext; [done| |exact H2]. by intros [].
  - by rewrite E8, Ed.
Qed.

(** The leases in a share: at most one, which one. *)
Definition holds (o : option nat) (m : gmultiset ltok) : Prop := forall j, multiplicity (Lease j) m = one (bool_decide (o = Some j)).
Definition lspec {A} (o : option nat) (p : prog world A) (R : A -> option nat) : Prop :=
  forall m, holds o m -> pwp p m (fun r m' => holds (R r) m').
Lemma lspec_bind {A B} o (p : prog world A) (k : A -> prog world B) R R' :
  lspec o p R -> (forall r, lspec (R r) (k r) R') -> lspec o (p ≫= k) R'.
Proof. intros Hp Hk m Hm. apply awp_bind. eapply awp_mono; [|by apply Hp]. intros r m'. apply Hk. Qed.
Lemma lspec_ret {A} o (x : A) : lspec o (mret x) (fun _ => o).
Proof. intros m Hm. by apply awp_ret. Qed.
(** The result decides. *)
Lemma lspec_returns {A} o (x : A) R : R x = o -> lspec o (mret x) R.
Proof. intros E m Hm. apply awp_ret. by rewrite E. Qed.
(** A program that leaves all leases where they are, and does not wait for more than one may with a lease in hand. *)
Abbreviation unmoved := (frames see stalls false any_panic).
Abbreviation patient := (frames see (fun _ => True) false any_panic).
Lemma lspec_unmoved {A} o (p : prog world A) : unmoved p -> lspec o p (fun _ => o).
Proof. intros Hp m Hm. eapply awp_frames; [apply leases_inv_see| |exact Hp|done]. by left. Qed.
Lemma lspec_patient {A} (p : prog world A) : patient p -> lspec None p (fun _ => None).
Proof. intros Hp m Hm. eapply awp_frames; [apply leases_inv_see| |exact Hp|done]. intros s _. right. intros j. by rewrite Hm. Qed.

(** ** Programs that leave the leases alone *)
Create HintDb unmoved.
Definition esee (e : Engine) : gmap nat nat * gmap nat nat * gmap nat nat * list bool :=
  (e_streamLeases e, e_wsLeases e, e_packetLeases e, marks (e_admission e)).
Abbreviation eunmoved := (frames esee (fun e => e_locked e = true) false no_panic).
Abbreviation aunmoved := (frames marks (fun _ => False) false no_panic).
Lemma unmoved_eng {A} (p : prog Engine A) : eunmoved p -> unmoved (eng p).
Proof.
  apply frames_lift.
  - intros s e [= E1 E2 E3 E4]. unfold see. cbn in *. by rewrite E1, E2, E3, E4.
  - intros s E. by left.
  - intros e. by exists (set_w_engine e (new_world (ac_limits (as_ctl (e_admission e))) 0)).
Qed.
Lemma eunmoved_adm {A} (p : prog admissionState A) : aunmoved p -> eunmoved (adm p).
Proof.
  apply frames_lift; [|done|].
  - intros e a E. unfold esee. cbn in *. by rewrite E.
  - intros a. by exists (lset admission_lens a (new_engine (ac_limits (as_ctl a)))).
Qed.
Lemma marks_insert (ls : list connectionLease) (j : nat) l l' :
  ls !! j = Some l -> bool_decide (cl_state l' = connectionReleased) = bool_decide (cl_state l = connectionReleased) ->
  (fun l => bool_decide (cl_state l = connectionReleased)) <$> (<[j := l']> ls) = (fun l => bool_decide (cl_state l = connectionReleased)) <$> ls.
Proof. intros Hj E. rewrite list_fmap_insert, E. apply list_insert_id. by rewrite list_lookup_fmap, Hj. Qed.
Lemma aunmoved_activate j : aunmoved (activate j).
Proof.
  apply frames_atomically. intros s. unfold activate_section. destruct (as_leases s !! j) as [l|] eqn:Hj; [|done].
  destruct (cl_state l) eqn:Hs; try done. cbn. apply marks_insert with l; [done|]. by rewrite Hs.
Qed.
Lemma eunmoved_lock : eunmoved lock.
Proof.
  apply frames_select; [done| |].
  - intros e. by destruct (e_locked e).
  - intros e e' b. destruct (e_locked e); [by intros ?%elem_of_nil|]. by intros [= -> ->]%list_elem_of_singleton.
Qed.
Lemma eunmoved_done : eunmoved maybeDoneLocked.
Proof. apply frames_atomically. intros e. unfold maybe_done. by case_match. Qed.
#[global] Hint Resolve eunmoved_lock eunmoved_done aunmoved_activate : unmoved.
Ltac unmoved_leaf :=
  first
    [ apply frames_ret | solve [auto 2 with unmoved nocore] | by apply frames_stuck
    | apply frames_atomically; intros ?; cbv beta zeta; repeat case_match; reflexivity
    | apply frames_atomic_panic; [done|]; intros ? ? ? ?; repeat case_match; simplify_eq; reflexivity ].
Ltac unmoved :=
  repeat first
    [ unmoved_leaf
    | apply eunmoved_adm
    | apply frames_bind; [|intros ?]
    | match goal with |- frames _ _ _ _ (match ?x with _ => _ end) => destruct x end ].
Lemma aunmoved_listener_acquire n i : aunmoved (listener_acquire n i).
Proof. unfold compare_and_swap. induction n as [|n IH]; cbn [listener_acquire]; unfold compare_and_swap; unmoved. Qed.
Lemma aunmoved_listener_release n l : aunmoved (listener_release n l).
Proof.
  destruct l as [i|]; cbn [listener_release]; [|unmoved]. induction n as [|n IH]; cbn [listener_release_loop]; unfold compare_and_swap; unmoved.
Qed.
Lemma aunmoved_releaseActivity j : aunmoved (releaseActivity j).
Proof. unfold releaseActivity, release_activity_mark. unmoved. Qed.
#[global] Hint Resolve aunmoved_listener_acquire aunmoved_listener_release aunmoved_releaseActivity : unmoved.
Lemma eunmoved_beginOp : eunmoved beginOp.
Proof. unfold beginOp, unlock. unmoved. Qed.
Lemma eunmoved_endOp : eunmoved endOp.
Proof. unfold endOp, unlock. unmoved. Qed.
Lemma eunmoved_addTracked k v : eunmoved (addTracked k v).
Proof. unfold addTracked, unlock. unmoved. Qed.
Lemma eunmoved_removeTracked k v : eunmoved (removeTracked k v).
Proof. unfold removeTracked, unlock. unmoved. Qed.
Lemma eunmoved_beginAbort why : eunmoved (beginAbort why).
Proof. unfold beginAbort, unlock. unmoved. Qed.
Lemma eunmoved_acquire_activity (h : bool) : eunmoved (acquire_engine_activity (atomically (acquire_activity h))).
Proof. unfold acquire_engine_activity, unlock, acquire_activity. unmoved. Qed.
Lemma eunmoved_activityRelease j : eunmoved (engineActivityRelease j).
Proof. unfold engineActivityRelease, maybeDone, unlock. unmoved. Qed.
Lemma unmoved_beginOp : unmoved (eng beginOp).
Proof. apply unmoved_eng, eunmoved_beginOp. Qed.
Lemma unmoved_endOp : unmoved (eng endOp).
Proof. apply unmoved_eng, eunmoved_endOp. Qed.
Lemma unmoved_addTracked k v : unmoved (eng (addTracked k v)).
Proof. apply unmoved_eng, eunmoved_addTracked. Qed.
Lemma unmoved_removeTracked k v : unmoved (eng (removeTracked k v)).
Proof. apply unmoved_eng, eunmoved_removeTracked. Qed.
Lemma unmoved_beginAbort why : unmoved (eng (beginAbort why)).
Proof. apply unmoved_eng, eunmoved_beginAbort. Qed.
Lemma unmoved_handshake : unmoved acquire_handshake.
Proof. apply unmoved_eng, (eunmoved_acquire_activity true). Qed.
Lemma unmoved_upgrade : unmoved acquire_upgrade.
Proof. apply unmoved_eng, (eunmoved_acquire_activity false). Qed.
Lemma unmoved_activity_release j : unmoved (activity_release j).
Proof. apply unmoved_eng, eunmoved_activityRelease. Qed.
#[global] Hint Resolve unmoved_beginOp unmoved_endOp unmoved_addTracked unmoved_removeTracked unmoved_beginAbort unmoved_handshake unmoved_upgrade unmoved_activity_release : unmoved.

(** Sections of the world. *)
Lemma unmoved_go t : dial_of t = None -> unmoved (go t).
Proof. intros Ht. apply frames_atomically. intros s. unfold see. cbn. rewrite omap_app. cbn. rewrite Ht. by rewrite app_nil_r. Qed.
Lemma unmoved_activity v now : unmoved (modify (fun s => set_w_sessions (alter (with_activity now) v (w_sessions s)) s)).
Proof. apply frames_atomically. intros s. unfold see. cbn. by rewrite length_alter. Qed.
Lemma unmoved_on_dial d f {B} (g : world -> B) :
  (forall a, da_lease (f a) = da_lease a) -> unmoved (atomically (fun s => (on_dial d f s, g s))).
Proof. intros Hf. apply frames_atomically. intros s. unfold see. cbn. by rewrite fmap_alter_same. Qed.
#[global] Hint Resolve unmoved_activity : unmoved.

(** ** Leases that move *)
Lemma lspec_adm_bind {A B} o (p : prog admissionState A) (k : A -> prog admissionState B) R R' :
  lspec o (eng (adm p)) R -> (forall r, lspec (R r) (eng (adm (k r))) R') -> lspec o (eng (adm (p ≫= k))) R'.
Proof. intros Hp Hk m Hm. apply awp_lift2_bind. eapply awp_mono; [|by apply Hp]. intros r m'. apply Hk. Qed.
Lemma lspec_eng_bind {A B} o (p : prog Engine A) (k : A -> prog Engine B) R R' :
  lspec o (eng p) R -> (forall r, lspec (R r) (eng (k r)) R') -> lspec o (eng (p ≫= k)) R'.
Proof. intros Hp Hk m Hm. apply awp_lift_bind. eapply awp_mono; [|by apply Hp]. intros r m'. apply Hk. Qed.
Lemma lspec_aunmoved {A} o (p : prog admissionState A) : aunmoved p -> lspec o (eng (adm p)) (fun _ => o).
Proof. intros Hp. apply lspec_unmoved, unmoved_eng, eunmoved_adm, Hp. Qed.
Lemma holds_take j m : holds None m -> holds (Some j) ({[+ Lease j +]} ⊎ m).
Proof.
  intros Hm j'. rewrite multiplicity_disj_union, Hm. destruct (decide (j = j')) as [->|Hne].
  - rewrite multiplicity_singleton_eq, bool_decide_false, bool_decide_true by done. done.
  - rewrite multiplicity_singleton_ne, !bool_decide_false by congruence. done.
Qed.
Lemma holds_give j m : holds (Some j) m -> exists m', m = {[+ Lease j +]} ⊎ m' /\ holds None m'.
Proof.
  intros Hm. exists (m ∖ {[+ Lease j +]}). assert (Lease j ∈ m) as Hin.
  { apply elem_of_multiplicity. rewrite Hm, bool_decide_true by done. cbn. lia. }
  split; [by apply gmultiset_disj_union_difference'|]. intros j'. rewrite multiplicity_difference, Hm.
  destruct (decide (j = j')) as [->|Hne].
  - rewrite multiplicity_singleton_eq, bool_decide_true by done. by rewrite bool_decide_false.
  - rewrite multiplicity_singleton_ne, !bool_decide_false by congruence. done.
Qed.
Lemma lease_other x j m : (forall j, x <> Lease j) -> multiplicity (Lease j) ({[+ x +]} ⊎ m) = multiplicity (Lease j) m.
Proof. intros Hx. rewrite multiplicity_disj_union, multiplicity_singleton_ne; [done|]. intros E. by apply (Hx j). Qed.
Lemma holds_other o x m : (forall j, x <> Lease j) -> holds o ({[+ x +]} ⊎ m) <-> holds o m.
Proof. intros Hx. unfold holds. by setoid_rewrite (lease_other x _ m Hx). Qed.

Ltac others := first [eapply fresh_ext; [| |eassumption]; [intros ?; cbv beta; by rewrite ?mult_ne by done|done] | eapply dials_ext; [|eassumption]; intros ?; cbv beta; first [by rewrite ?mult_ne by done | by rewrite mult_under by done]].
Lemma marks_snoc_lookup (ms : list bool) j : default false ((ms ++ [false]) !! j) = default false (ms !! j).
Proof.
  destruct (decide (j < length ms)%nat); [by rewrite lookup_app_l|]. rewrite lookup_app_r, (lookup_ge_None_2 ms) by lia.
  by destruct (j - length ms)%nat.
Qed.
Lemma open_inv peer l s m j a' :
  open_section peer l (e_admission (w_engine s)) = (a', inl j) -> leases_inv s m ->
  leases_inv (set_w_engine (lset admission_lens a' (w_engine s)) s) ({[+ Lease j +]} ⊎ m).
Proof.
  intros E [H1 H2 H3]. unfold open_section in E. cbv zeta in E. repeat case_match; simplify_eq.
  split; [|others..]. intros j. specialize (H1 j). cbv beta in *. rewrite mult_lease.
  change (tracked (set_w_engine _ s)) with (tracked s). unfold marks in *. cbn [e_admission w_engine set_w_engine lset admission_lens as_leases with_leases with_ctl w_holders w_dials].
  rewrite fmap_app, length_app. cbn [fmap list_fmap length]. rewrite marks_snoc_lookup, length_fmap in *.
  destruct (decide (j = length (as_leases (e_admission (w_engine s))))) as [->|Hne].
  - rewrite bool_decide_true by done. replace (_ <? _ + 1)%nat with true by (symmetry; apply Nat.ltb_lt; lia).
    replace (_ <? _)%nat with false in H1 by (symmetry; apply Nat.ltb_ge; lia). cbn [one] in *. lia.
  - rewrite bool_decide_false by done. replace (j <? length (as_leases (e_admission (w_engine s))) + 1)%nat with (j <? length (as_leases (e_admission (w_engine s))))%nat; [done|].
    destruct (Nat.ltb_spec j (length (as_leases (e_admission (w_engine s))))), (Nat.ltb_spec j (length (as_leases (e_admission (w_engine s))) + 1)); lia.
Qed.
Lemma lspec_acquire fuel addr capacity :
  lspec None (acquire_opening fuel addr capacity) (fun r => match r with inl j => Some j | inr _ => None end).
Proof.
  apply lspec_adm_bind with (fun _ => None); [apply lspec_aunmoved; destruct capacity; unmoved|]. intros ok.
  destruct ok; cbn [negb].
  - apply lspec_adm_bind with (fun r => match r with inl j => Some j | inr _ => None end).
    + intros m Hm. apply awp_lift2_sec. intros s F HI. cbv zeta. cbn [lget engine_lens admission_lens].
      destruct (open_section _ _ _) as [a' [j|err]] eqn:E; cbn [fst snd].
      * exists ({[+ Lease j +]} ⊎ m). split; [|by apply holds_take]. pose proof (open_inv _ _ _ _ _ _ E HI) as HI'.
        by rewrite cons_frame.
      * exists m. split; [|done]. eapply leases_inv_see; [|exact HI]. unfold open_section in E. cbv zeta in E. by repeat case_match; simplify_eq.
    + intros [j|err]; [by apply lspec_returns|]. eapply lspec_adm_bind; [apply lspec_aunmoved; unmoved|]. intros ?. by apply lspec_returns.
  - intros m Hm. apply awp_lift2_sec. intros s F HI. cbv zeta. exists m. split; [|done]. by eapply leases_inv_see; [|exact HI].
Qed.

(** *** Release *)
Lemma lease_mark_inv j s m a' r :
  release_mark j (e_admission (w_engine s)) = (a', r) -> leases_inv s ({[+ Lease j +]} ⊎ m) ->
  leases_inv (set_w_engine (lset admission_lens a' (w_engine s)) s) m.
Proof.
  intros E [H1 H2 H3]. split; [|others..].
  pose proof (H1 j) as Hj. cbv beta in Hj. rewrite mult_lease, bool_decide_true in Hj by done. unfold marks in Hj. rewrite length_fmap in Hj.
  unfold release_mark in E. destruct (as_leases (e_admission (w_engine s)) !! j) as [l|] eqn:El.
  - assert (bool_decide (cl_state l = connectionReleased) = false) as Hst.
    { destruct (Nat.ltb_spec j (length (as_leases (e_admission (w_engine s))))); cbn [one] in Hj; [|lia].
      rewrite list_lookup_fmap, El in Hj. cbn in Hj. destruct (bool_decide _); [cbn in Hj; lia|done]. }
    rewrite Hst in E. injection E as <- _. intros i. specialize (H1 i). cbv beta in *. rewrite mult_lease in H1.
    change (tracked (set_w_engine _ s)) with (tracked s). unfold marks in *. cbn [e_admission w_engine set_w_engine lset admission_lens as_leases with_leases with_ctl w_holders w_dials].
    rewrite length_fmap, length_insert, list_fmap_insert in *. destruct (decide (i = j)) as [->|Hne].
    + rewrite list_lookup_insert_eq by (rewrite length_fmap; by eapply lookup_lt_Some). rewrite list_lookup_fmap, El in H1. cbn [default from_option id fmap option_fmap option_map] in H1.
      rewrite Hst, bool_decide_true in H1 by done. rewrite (bool_decide_true (cl_state (set_state connectionReleased l) = connectionReleased)) by done. cbn [default from_option id one] in *. lia.
    + rewrite list_lookup_insert_ne by done. rewrite bool_decide_false in H1 by done. exact H1.
  - apply lookup_ge_None in El. destruct (Nat.ltb_spec j (length (as_leases (e_admission (w_engine s))))); cbn [one] in Hj; lia.
Qed.
Lemma lspec_release fuel j : lspec (Some j) (eng (adm (release fuel j))) (fun _ => None).
Proof.
  apply lspec_adm_bind with (fun _ => None).
  - intros m Hm. destruct (holds_give _ _ Hm) as (m' & -> & Hm'). apply awp_lift2_sec. intros s F HI. cbv zeta. cbn [lget engine_lens admission_lens].
    destruct (release_mark _ _) as [a' r] eqn:E. exists m'. split; [|done]. rewrite cons_frame in HI. by eapply lease_mark_inv.
  - intros [l|]; [|by apply lspec_returns]. eapply lspec_adm_bind; [apply lspec_aunmoved; unmoved|]. intros ?. apply lspec_aunmoved. unmoved.
Qed.
Lemma lspec_lease_release fuel j : lspec (Some j) (lease_release fuel j) (fun _ => None).
Proof. apply lspec_release. Qed.

(** *** The Engine *)
Lemma tracked_leases_map s k : exists n, tracked s = vals (leases_map k (w_engine s)) ⊎ n /\
  forall f g, tracked (set_w_engine (set_conns k f g (w_engine s)) s) = vals (g (leases_map k (w_engine s))) ⊎ n.
Proof.
  unfold tracked. destruct k; cbn [leases_map w_engine set_w_engine set_conns e_streamLeases e_wsLeases e_packetLeases].
  - eexists. split; [rewrite <- (assoc_L (⊎)); done|]. intros f g. by rewrite <- (assoc_L (⊎)).
  - exists (vals (e_streamLeases (w_engine s)) ⊎ vals (e_packetLeases (w_engine s))). split; [multiset_solver|]. intros f g. multiset_solver.
  - exists (vals (e_streamLeases (w_engine s)) ⊎ vals (e_wsLeases (w_engine s))). split; [multiset_solver|]. intros f g. multiset_solver.
Qed.
#[local] Instance connKind_eq_dec : EqDecision connKind.
Proof. solve_decision. Defined.
Lemma leases_map_set k k' f g e : leases_map k' (set_conns k f g e) = if decide (k = k') then g (leases_map k' e) else leases_map k' e.
Proof. by destruct k, k'. Qed.

Lemma add_inv k f j v s m :
  leases_inv s ({[+ Lease j +]} ⊎ ({[+ Fresh v +]} ⊎ m)) -> leases_inv (set_w_engine (set_conns k f (<[v := j]>) (w_engine s)) s) m.
Proof.
  intros [H1 [H2 H2'] H3]. destruct (H2 v) as (Hv & Hlt & Hn).
  { cbv beta. rewrite mult_ne, multiplicity_disj_union, multiplicity_singleton_eq by done. lia. }
  cbv beta in *. rewrite mult_ne, multiplicity_disj_union, multiplicity_singleton_eq in Hv by done.
  split; [|split|others].
  - intros i. specialize (H1 i). cbv beta in H1. rewrite mult_lease, mult_ne in H1 by done. destruct (tracked_leases_map s k) as (n & En & Es).
    rewrite Es, vals_insert by apply Hn. rewrite En in H1. rewrite !multiplicity_disj_union in *.
    destruct (decide (i = j)) as [->|Hne]; [rewrite multiplicity_singleton_eq|rewrite multiplicity_singleton_ne by done];
      [rewrite bool_decide_true in H1 by done|rewrite bool_decide_false in H1 by done]; cbn [one] in H1; cbn [w_holders w_dials w_engine set_w_engine set_conns e_admission]; lia.
  - intros v' Hv'. destruct (decide (v' = v)) as [->|Hne]; [lia|]. destruct (H2 v') as (? & ? & Hn').
    { by rewrite mult_ne, mult_ne by (try done; congruence). }
    rewrite mult_ne, mult_ne in * by (try done; congruence). split_and!; [done..|]. intros k'. cbn [w_engine set_w_engine]. rewrite leases_map_set.
    case_decide; [|done]. rewrite lookup_insert_ne by done. apply Hn'.
  - intros k' v'. cbn [w_engine set_w_engine w_sessions]. rewrite leases_map_set. case_decide; [|apply H2'].
    destruct (decide (v = v')) as [->|Hne]; [done|]. rewrite lookup_insert_ne by done. apply H2'.
Qed.
Lemma remove_inv k f j v s m :
  leases_map k (w_engine s) !! v = Some j -> leases_inv s m ->
  leases_inv (set_w_engine (set_conns k f (delete v) (w_engine s)) s) ({[+ Lease j +]} ⊎ m).
Proof.
  intros Hv [H1 [H2 H2'] H3].
  assert (forall k' v', leases_map k' (set_conns k f (delete v) (w_engine s)) !! v' = None \/
    leases_map k' (set_conns k f (delete v) (w_engine s)) !! v' = leases_map k' (w_engine s) !! v') as Hd.
  { intros k' v'. rewrite leases_map_set. case_decide; [|by right]. destruct (decide (v = v')) as [->|]; [left; apply lookup_delete_eq|right; by apply lookup_delete_ne]. }
  split; [|split|others].
  - intros i. specialize (H1 i). cbv beta in *. rewrite mult_lease. destruct (tracked_leases_map s k) as (n & En & Es).
    rewrite Es. rewrite En, (vals_delete _ v j) in H1 by done. rewrite !multiplicity_disj_union in *.
    destruct (decide (i = j)) as [->|Hne]; [rewrite multiplicity_singleton_eq in H1|rewrite multiplicity_singleton_ne in H1 by done];
      [rewrite bool_decide_true by done|rewrite bool_decide_false by done]; cbn [one] in *; cbn [w_holders w_dials w_engine set_w_engine set_conns e_admission]; lia.
  - intros v'. cbv beta. rewrite mult_ne by done. intros Hv'. destruct (H2 v' Hv') as (? & ? & Hn'). split_and!; [done..|].
    intros k'. cbn [w_engine set_w_engine]. destruct (Hd k' v') as [->| ->]; [done|apply Hn'].
  - intros k' v'. cbn [w_engine set_w_engine w_sessions]. destruct (Hd k' v') as [->| ->]; [by intros [? ?]|apply H2'].
Qed.
Lemma lspec_remove k fuel v : lspec None (eng (remove_conn k fuel v)) (fun _ => None).
Proof.
  eapply lspec_eng_bind; [apply lspec_unmoved, unmoved_eng; unmoved|]. intros ?.
  apply lspec_eng_bind with (fun r => r).
  - intros m Hm. apply awp_lift_sec. intros s F HI. cbn [lget engine_lens fst snd lset]. destruct (leases_map k (w_engine s) !! v) as [j|] eqn:E.
    + exists ({[+ Lease j +]} ⊎ m). split; [|by apply holds_take]. rewrite cons_frame. by apply remove_inv.
    + exists m. split; [|done]. eapply leases_inv_see; [|exact HI]. unfold see. destruct k; cbn in *; by rewrite delete_id.
  - intros j. apply lspec_eng_bind with (fun _ => None); [|intros ?; apply lspec_unmoved, unmoved_eng; unfold unlock; unmoved].
    destruct j as [j|]; [apply lspec_release|by apply lspec_returns].
Qed.
(** The caller keeps its lease when the connection is refused. *)
Definition keeps {A} (o : option nat) (r : option A) : option nat := match r with Some _ => o | None => None end.
Lemma pwp_add k fuel v peer j m (Q : option error -> gmultiset ltok -> Prop) :
  holds (Some j) m -> (forall m', holds None m' -> Q None m') -> (forall e m', holds (Some j) m' -> Q (Some e) m') ->
  pwp (eng (add_conn k fuel v peer (Some j))) ({[+ Fresh v +]} ⊎ m) Q.
Proof.
  intros Hm HN HS. assert (holds (Some j) ({[+ Fresh v +]} ⊎ m)) as Hm' by by apply holds_other.
  assert (forall A (p : prog Engine A) m Q, eunmoved p -> (forall x, Q x m) -> pwp (eng p) m Q) as Hq.
  { intros A p m0 Q' Hp HQ. eapply awp_frames; [apply leases_inv_see| |by apply unmoved_eng|done]. by left. }
  unfold add_conn. apply awp_lift_bind, Hq; [unmoved|]. intros _. apply awp_lift_bind, Hq; [unmoved|]. intros running.
  apply awp_lift_bind. apply awp_mono with (fun r m' => holds (keeps (Some j) r) m').
  { intros r m0 Hr. apply awp_lift_bind, Hq; [unfold unlock; unmoved|]. intros _. destruct r; [by apply HS|by apply HN]. }
  destruct running; cbn [negb]; [|done]. unfold obtain_lease. apply awp_lift_bind, awp_lift_bind, Hq; [unmoved|]. intros []; [|done]. cbn.
  destruct (holds_give _ _ Hm) as (m0 & -> & Hm0). apply awp_lift_sec. intros s F HI. exists m0. split; [|done].
  apply add_inv. replace ({[+ Lease j +]} ⊎ ({[+ Fresh v +]} ⊎ (m0 ∙ F))) with ({[+ Fresh v +]} ⊎ ({[+ Lease j +]} ⊎ m0) ∙ F); [done|].
  rewrite !cons_frame. generalize (m0 ∙ F). intros n. multiset_solver.
Qed.

(** *** Sessions, trackers and dials *)
Lemma session_inv x s m : leases_inv s m -> leases_inv (set_w_sessions (w_sessions s ++ [x]) s) ({[+ Fresh (length (w_sessions s)) +]} ⊎ m).
Proof.
  intros [H1 [H2 H2'] H3]. split; [|split|others].
  - intros j. cbv beta. rewrite mult_ne by done. apply H1.
  - intros v. cbv beta. cbn [w_sessions w_engine set_w_sessions]. rewrite length_app. cbn [length]. destruct (decide (v = length (w_sessions s))) as [->|Hne].
    + intros _. rewrite multiplicity_disj_union, multiplicity_singleton_eq. split_and!; [|lia|].
      * destruct (multiplicity (Fresh _) m) eqn:E; [done|]. destruct (H2 (length (w_sessions s))) as (_ & ? & _); lia.
      * intros k. destruct (leases_map k (w_engine s) !! _) eqn:E; [|done]. specialize (H2' k (length (w_sessions s)) ltac:(eauto)). lia.
    + rewrite mult_ne by congruence. intros Hv. destruct (H2 v Hv) as (? & ? & ?). split_and!; [done|lia|done].
  - intros k v Hv. cbn [w_sessions w_engine set_w_sessions] in *. rewrite length_app. specialize (H2' k v Hv). lia.
Qed.
Lemma pwp_new_session x m (Q : nat -> gmultiset ltok -> Prop) : (forall v, Q v ({[+ Fresh v +]} ⊎ m)) -> pwp (new_session x) m Q.
Proof. intros HQ. apply awp_atomically. intros s F HI. eexists. split; [|apply HQ]. rewrite cons_frame. by apply session_inv. Qed.
Lemma lspec_register t c j : lspec (Some j) (register t c j) (fun _ => None).
Proof.
  intros m Hm. destruct (holds_give _ _ Hm) as (m' & -> & Hm'). apply awp_atomically. intros s F HI. exists m'. split; [|done].
  rewrite cons_frame in HI. destruct HI as [H1 H2 H3]. split; [|others..]. intros i. specialize (H1 i). cbv beta in *. rewrite mult_lease in H1.
  cbn [register_section fst on_wsl set_w_wsListeners set_w_holders w_holders w_dials w_engine]. rewrite fmap_app, occ_app.
  change (tracked (on_wsl _ _ _)) with (tracked s). replace (occ i (held_lease <$> [_])) with (one (bool_decide (i = j))); [lia|].
  change (held_lease <$> [?x]) with [Some j]. unfold occ. cbn [List.filter]. do 2 case_bool_decide; simplify_eq; done.
Qed.
Lemma held_insert h st y s m :
  w_holders s !! h = Some y -> hl_state y = httpConnLeaseHeld -> st <> httpConnLeaseHeld -> leases_inv s m ->
  leases_inv (set_w_holders (<[h := set_holder st y]> (w_holders s)) s) ({[+ Lease (hl_lease y) +]} ⊎ m).
Proof.
  intros Hy Hst Hne [H1 H2 H3]. split; [|others..]. intros i. specialize (H1 i). cbv beta in *. rewrite mult_lease.
  cbn [set_w_holders w_holders w_dials w_engine]. change (tracked (set_w_holders _ _)) with (tracked s). rewrite list_fmap_insert.
  assert (held_lease (set_holder st y) = None) as -> by (unfold held_lease; cbn; by rewrite bool_decide_false).
  pose proof (occ_insert i (held_lease <$> w_holders s) h (Some (hl_lease y)) None) as E.
  rewrite list_lookup_fmap, Hy in E. cbn [fmap option_fmap option_map] in E. unfold held_lease in E at 1. rewrite bool_decide_true in E by done.
  specialize (E eq_refl). rewrite (bool_decide_false (None = Some i)) in E by done. cbn [one] in E. rewrite Nat.add_0_r in E.
  replace (bool_decide (i = hl_lease y)) with (bool_decide (Some (hl_lease y) = Some i)) by (do 2 case_bool_decide; simplify_eq; done). lia.
Qed.
Lemma lspec_leave h st : st <> httpConnLeaseHeld -> lspec None (atomically (leave h st)) (fun r => hl_lease <$> r).
Proof.
  intros Hne m Hm. apply awp_atomically. intros s F HI. unfold leave. destruct (w_holders s !! h) as [y|] eqn:Hy; [|by exists m].
  case_bool_decide; [|by exists m]. cbn [fst snd]. exists ({[+ Lease (hl_lease y) +]} ⊎ m). split; [|by apply holds_take].
  rewrite cons_frame. by apply held_insert.
Qed.

(** In a goroutine that works on the [d]-th dial. *)
Definition dspec {A} (d : nat) (o : option nat) (p : prog world A) (R : A -> option nat) : Prop :=
  forall m, holds o m -> pwp p ({[+ Dialing d +]} ⊎ m) (fun r m' => exists n, m' = {[+ Dialing d +]} ⊎ n /\ holds (R r) n).
Lemma dspec_lspec {A} d o (p : prog world A) R : lspec o p R -> dspec d o p R.
Proof.
  intros Hp m Hm. refine (awp_frame leases_inv leases_blk false any_panic p ({[+ Dialing d +]} : gmultiset ltok) m _ _ (Hp m Hm)).
  intros s n [?|Hn]; [by left|right]. intros j. change ({[+ Dialing d +]} ∙ n) with ({[+ Dialing d +]} ⊎ n). by rewrite mult_ne.
Qed.
Lemma dspec_bind {A B} d o (p : prog world A) (k : A -> prog world B) R R' :
  dspec d o p R -> (forall r, dspec d (R r) (k r) R') -> dspec d o (p ≫= k) R'.
Proof. intros Hp Hk m Hm. apply awp_bind. eapply awp_mono; [|by apply Hp]. intros r m' (n & -> & Hn). by apply Hk. Qed.
Lemma dspec_returns {A} d o (x : A) R : R x = o -> dspec d o (mret x) R.
Proof. intros E. by apply dspec_lspec, lspec_returns. Qed.
Lemma parked_alter (ds : list wsDialAdmission) d a f : ds !! d = Some a -> da_lease <$> alter f d ds = <[d := da_lease (f a)]> (da_lease <$> ds).
Proof. intros Ha. by rewrite (alter_some _ _ _ a), list_fmap_insert. Qed.
Lemma dspec_set d j local remote physical :
  dspec d (Some j) (set_admission d j local remote physical) (fun r => keeps (Some j) r).
Proof.
  intros m Hm. destruct (holds_give _ _ Hm) as (m' & -> & Hm'). apply awp_atomically. intros s F HI. unfold set_section.
  destruct (dial d da_lease s) as [j'|] eqn:Ed; cbn [fst snd].
  - eexists. split; [exact HI|]. by exists ({[+ Lease j +]} ⊎ m').
  - exists ({[+ Dialing d +]} ⊎ m'). split; [|by exists m']. rewrite !cons_frame in *.
    assert (exists a, w_dials s !! d = Some a) as [a Ha].
    { apply lookup_lt_is_Some. apply (proj1 (le_dials _ _ HI)). cbv beta. rewrite multiplicity_disj_union, multiplicity_singleton_eq. lia. }
    assert (da_lease a = None) as Hn by (unfold dial in Ed; by rewrite Ha in Ed).
    destruct HI as [H1 H2 H3]. unfold on_dial. split; cbn [set_w_dials w_holders w_dials w_engine w_go w_sessions]; [|others|rewrite length_alter; others].
    intros i. specialize (H1 i). cbv beta in *. rewrite mult_ne, mult_lease in H1 by done. rewrite mult_ne by done.
    change (tracked (set_w_dials _ _)) with (tracked s). rewrite (parked_alter _ _ a) by done. cbn [da_lease].
    pose proof (occ_insert i (da_lease <$> w_dials s) d None (Some j)) as E. rewrite list_lookup_fmap, Ha in E. cbn [fmap option_fmap option_map] in E.
    rewrite Hn in E. specialize (E eq_refl). rewrite (bool_decide_false (None = Some i)) in E by done. cbn [one] in E.
    replace (bool_decide (i = j)) with (bool_decide (Some j = Some i)) in H1 by (do 2 case_bool_decide; simplify_eq; done). lia.
Qed.
Lemma lspec_take d : lspec None (take_admission d) da_lease.
Proof.
  intros m Hm. apply awp_atomically. intros s F HI. cbn [fst snd]. unfold dial at 1. destruct (w_dials s !! d) as [a|] eqn:Ha; cbn [default from_option id].
  2: { exists m. split; [|done]. eapply leases_inv_see; [|exact HI]. unfold see, on_dial. cbn. by rewrite alter_none. }
  destruct (da_lease a) as [j|] eqn:Ej.
  - exists ({[+ Lease j +]} ⊎ m). split; [|by apply holds_take]. rewrite cons_frame.
    destruct HI as [H1 H2 H3]. unfold on_dial. split; cbn [set_w_dials w_holders w_dials w_engine w_go w_sessions]; [|others|rewrite length_alter; others].
    intros i. specialize (H1 i). cbv beta in *. rewrite mult_lease. change (tracked (set_w_dials _ _)) with (tracked s). rewrite (parked_alter _ _ a) by done.
    pose proof (occ_insert i (da_lease <$> w_dials s) d (Some j) None) as E. rewrite list_lookup_fmap, Ha in E. cbn [fmap option_fmap option_map] in E.
    rewrite Ej in E. specialize (E eq_refl). rewrite (bool_decide_false (None = Some i)) in E by done. cbn [one taken da_lease] in *.
    replace (bool_decide (i = j)) with (bool_decide (Some j = Some i)) by (do 2 case_bool_decide; simplify_eq; done). lia.
  - exists m. split; [|done]. eapply leases_inv_see; [|exact HI]. unfold see, on_dial. cbn. rewrite (parked_alter _ _ a) by done. cbn.
    rewrite list_insert_id; [done|]. by rewrite list_lookup_fmap, Ha, <- Ej.
Qed.

(** ** The programs *)
Create HintDb leases.
#[global] Hint Resolve lspec_acquire lspec_lease_release lspec_remove lspec_register lspec_take : leases.
Ltac leasing_leaf := first [by apply lspec_returns | solve [eauto 2 with leases nocore] | apply lspec_unmoved; solve [unmoved]].
Ltac leasing :=
  repeat (cbv beta iota zeta; lazymatch goal with
    | |- lspec _ (_ ≫= _) _ => eapply lspec_bind; [solve [leasing]|intros ?]
    | |- lspec _ (match ?x with _ => _ end) _ => first [solve [eauto 2 with leases nocore] | destruct x]
    | |- _ => leasing_leaf
    end).
Section programs.
Context `{WebSocketLib} (pf : platform) (cfg : config) (fuel : nat) (en : surroundings).
Lemma unmoved_emit ev : unmoved (emit_event cfg ev).
Proof. unfold emit_event. unmoved. Qed.
Lemma unmoved_observe kind a b sc l r d err : unmoved (observeSetup cfg kind a b sc l r d err).
Proof. apply unmoved_emit. Qed.
Lemma unmoved_stamp : unmoved (stamp cfg).
Proof. unfold stamp. unmoved. Qed.
Lemma unmoved_elapsed t : unmoved (elapsed cfg t).
Proof. unfold elapsed. unmoved. Qed.
Lemma unmoved_close_opt c : unmoved (close_opt c).
Proof. unfold close_opt. unmoved. Qed.
#[local] Hint Resolve unmoved_emit unmoved_observe unmoved_stamp unmoved_elapsed unmoved_close_opt : unmoved.
Lemma unmoved_dialTCP network e : unmoved (dialTCP pf cfg network e).
Proof. unfold dialTCP. cbv zeta. unmoved. Qed.
Lemma unmoved_dial_tls env e raw l r d : unmoved (dial_tls pf cfg env e raw l r d).
Proof. unfold dial_tls. cbv zeta. unmoved. Qed.
Lemma unmoved_prepare tls c raw : unmoved (prepare cfg tls c raw).
Proof. unfold prepare. cbv zeta. unmoved. Qed.
Lemma unmoved_closeOnce i : unmoved (once_enter (lis i li_closeOnce) (fun o => on_lis i (set_li_closeOnce o))).
Proof.
  apply frames_select; [done| |].
  - intros s. destruct (lis i li_closeOnce s) eqn:E; [done| |done]. intros _. right. by exists i.
  - intros s s' b. destruct (lis i li_closeOnce s); rewrite ?elem_of_nil, ?list_elem_of_singleton; naive_solver.
Qed.
#[local] Hint Resolve unmoved_dialTCP unmoved_dial_tls unmoved_prepare unmoved_closeOnce : unmoved.
Lemma unmoved_initiateClose lc i cause : unmoved (initiateClose lc i cause).
Proof. unfold initiateClose, close_channel. cbv zeta. unmoved. Qed.
#[local] Hint Resolve unmoved_initiateClose : unmoved.
(** *** Streams *)
Lemma lspec_adopt raw e j : lspec (Some j) (adoptStreamWithLease cfg fuel raw e (Some j)) (fun r => match r with inl _ => None | inr _ => Some j end).
Proof.
  unfold adoptStreamWithLease. eapply lspec_bind; [leasing_leaf|intros n]. destruct (newFramer cfg n); [|leasing].
  eapply lspec_bind; [leasing_leaf|intros id]. intros m Hm. apply awp_bind, pwp_new_session. intros v. apply awp_bind.
  eapply awp_frames; [apply leases_inv_see|by left|by apply frames_atomically|]. intros remote. apply awp_bind.
  apply pwp_add; [done|..].
  - intros m' Hm'. revert m' Hm'. change (lspec None (now ← time_Now; modify (fun s => set_w_sessions (alter (with_activity now) v (w_sessions s)) s);; start_session v;; mret (inl v))
      (fun r : result nat => match r with inl _ => None | inr _ => Some j end)). leasing.
  - intros err m' Hm'. by apply awp_ret.
Qed.
#[local] Hint Resolve lspec_adopt : leases.
Lemma lspec_dial_adopt e k d h j : lspec (Some j) (dial_adopt pf cfg fuel e k d h j) (fun r => match r with inl _ => None | inr _ => Some j end).
Proof. unfold dial_adopt. leasing. Qed.
#[local] Hint Resolve lspec_dial_adopt : leases.
Lemma lspec_dialStream env e : lspec None (dialStream pf cfg fuel env e) (fun _ => None).
Proof. unfold dialStream. leasing. Qed.
#[local] Hint Resolve lspec_dialStream : leases.
(** A [select] of a goroutine with no lease in its hands. *)
Lemma waiting_select {B} (cases : world -> list (world * B)) :
  (forall s s' b, (s', b) ∈ cases s -> see s' = see s) -> lspec None (select cases) (fun _ => None).
Proof. intros Hc. apply lspec_patient. by apply frames_select. Qed.
Ltac branches := intros ? ? ?; cbv beta zeta; repeat case_match; rewrite ?elem_of_app, ?elem_ready, ?elem_of_nil, ?list_elem_of_singleton; naive_solver.
Lemma lspec_once get put : (forall o s, see (put o s) = see s) -> lspec None (once_enter get put) (fun _ => None).
Proof. intros Hp. apply waiting_select. branches. Qed.
Lemma lspec_Accept closed next : lspec None (Accept closed next) (fun _ => None).
Proof. apply waiting_select. branches. Qed.
Lemma lspec_go t : dial_of t = None -> lspec None (go t) (fun _ => None).
Proof. intros Ht. by apply lspec_unmoved, unmoved_go. Qed.
#[local] Hint Extern 1 (lspec _ (go _) _) => (apply lspec_go; reflexivity) : leases.
#[local] Hint Resolve lspec_Accept : leases.
Lemma lspec_watchContext lc i : lspec None (watchContext lc i) (fun _ => None).
Proof. unfold watchContext. eapply lspec_bind; [apply waiting_select; branches|intros ?]. leasing. Qed.
Lemma lspec_finalize lc i : lspec None (finalize cfg lc i) (fun _ => None).
Proof. unfold finalize, close_channel, removeStreamListener. eapply lspec_bind; [by apply lspec_once|intros ?]. leasing. Qed.
Lemma lspec_wait i d : lspec None (waitOrClosed i d) (fun _ => None).
Proof. unfold waitOrClosed. eapply lspec_bind; [leasing|intros ?]. apply waiting_select. branches. Qed.
#[local] Hint Resolve lspec_finalize lspec_wait : leases.
Lemma lspec_accept_step lc i next d : lspec None (accept_step pf cfg lc i next d) (fun _ => None).
Proof. unfold accept_step, isClosing, operationalError. leasing. Qed.
#[local] Hint Resolve lspec_accept_step : leases.
Lemma lspec_accept_rounds lc i answers d : lspec None (accept_rounds pf cfg lc i answers d) (fun _ => None).
Proof. revert d. induction answers as [|a answers IH]; intros d; cbn [accept_rounds]; leasing. Qed.
#[local] Hint Resolve lspec_accept_rounds : leases.
Lemma lspec_acceptLoop arr lc i : lspec None (acceptLoop pf cfg arr lc i) (fun _ => None).
Proof. unfold acceptLoop. leasing. Qed.
Lemma lspec_accept_adopt lc tls i raw e j c :
  lspec (Some j) (accept_adopt pf cfg fuel lc tls i raw e j c) (fun r => if r : bool then None else Some j).
Proof. unfold accept_adopt. leasing. Qed.
#[local] Hint Resolve lspec_accept_adopt : leases.
Lemma lspec_handleAccepted lc tls i raw : lspec None (handleAccepted pf cfg fuel lc tls i raw) (fun _ => None).
Proof. unfold handleAccepted. leasing. Qed.
Lemma lspec_listenStream network e : lspec None (listenStream pf cfg network e) (fun _ => None).
Proof. unfold listenStream, addStreamListener. leasing. Qed.
#[local] Hint Resolve lspec_listenStream : leases.

(** *** HTTP *)
Lemma lspec_holder_release h : lspec None (holder_release fuel h) (fun _ => None).
Proof. unfold holder_release, detachHolder. eapply lspec_bind; [by apply lspec_leave|]. intros [l|]; cbn [fmap option_fmap option_map]; leasing. Qed.
#[local] Hint Resolve lspec_holder_release : leases.
Lemma lspec_takeWithPhysical h : lspec None (takeWithPhysical h) (fun r => fst <$> r).
Proof. unfold takeWithPhysical, detachHolder. eapply lspec_bind; [by apply lspec_leave|]. intros [l|]; cbn [fmap option_fmap option_map]; leasing. Qed.
Lemma lspec_releaseConn t k : lspec None (releaseConn fuel t k) (fun _ => None).
Proof. unfold releaseConn, lookup_conn. leasing. Qed.
Lemma lspec_release_all hs : lspec None (release_all fuel hs) (fun _ => None).
Proof. induction hs as [|h hs IH]; cbn [release_all]; leasing. Qed.
#[local] Hint Resolve lspec_releaseConn lspec_release_all : leases.
Lemma lspec_closeAll t : lspec None (closeAll fuel t) (fun _ => None).
Proof. unfold closeAll. leasing. Qed.
Lemma lspec_accept_http t next : lspec None (accept_http cfg fuel t next) (fun _ => None).
Proof. unfold accept_http. leasing. Qed.
#[local] Hint Resolve lspec_closeAll lspec_accept_http : leases.
Lemma lspec_gated_round t next : lspec None (gated_round cfg fuel t next) (fun _ => None).
Proof. unfold gated_round. leasing. Qed.
#[local] Hint Resolve lspec_gated_round : leases.
Lemma lspec_gated_rounds t answers : lspec None (gated_rounds cfg fuel t answers) (fun _ => None).
Proof. induction answers as [|a answers IH]; cbn [gated_rounds]; leasing. Qed.
Lemma lspec_rebind t old new : lspec None (rebind t old new) (fun _ => None).
Proof. apply lspec_unmoved, frames_atomically. intros s. unfold rebind_section. by case_match. Qed.
#[local] Hint Resolve lspec_rebind : leases.
Lemma lspec_gated_handshake tls t c : lspec None (gated_handshake cfg fuel tls t c) (fun _ => None).
Proof.
  unfold gated_handshake. eapply lspec_bind; [leasing|intros [act|err]]; [|leasing]. eapply lspec_bind; [leasing|intros tlscfg].
  eapply lspec_bind; [|intros ?; leasing]. destruct (handshake _ _); [leasing|]. eapply lspec_bind; [leasing|intros []]; cbn [negb]; [|leasing].
  eapply lspec_bind; [apply waiting_select; branches|intros ?]. leasing.
Qed.
Lemma lspec_gated_Accept t : lspec None (gated_Accept t) (fun _ => None).
Proof. unfold gated_Accept. eapply lspec_bind; [leasing|intros ?]. apply waiting_select. branches. Qed.
Lemma lspec_gated_Close t : lspec None (gated_Close t) (fun _ => None).
Proof. unfold gated_Close. eapply lspec_bind; [by apply lspec_once|intros ?]. leasing. Qed.
#[local] Hint Resolve lspec_gated_Accept lspec_gated_Close lspec_takeWithPhysical : leases.

(** *** The WebSocket server *)
Lemma lspec_newWSSession {A} e l r c ph o (k : nat -> prog world A) R :
  (forall v m, holds o m -> pwp (k v) ({[+ Fresh v +]} ⊎ m) (fun r m' => holds (R r) m')) -> lspec o (newWSSession cfg e l r c ph ≫= k) R.
Proof.
  intros Hk m Hm. apply awp_bind. unfold newWSSession. apply awp_bind.
  eapply awp_frames; [apply leases_inv_see|by left|by apply frames_atomically|]. intros id. apply awp_bind.
  eapply awp_frames; [apply leases_inv_see|by left|by apply frames_atomically|]. intros now. apply pwp_new_session. intros v. by apply Hk.
Qed.
Lemma lspec_upgrade_adopt t j ph l r d :
  lspec (Some j) (upgrade_adopt cfg fuel t j ph l r d) (fun b => if b : bool then None else Some j).
Proof.
  unfold upgrade_adopt. eapply lspec_bind; [leasing|intros n]. destruct (newCipher cfg n); [|leasing].
  do 2 (eapply lspec_bind; [leasing|intros ?]). apply lspec_newWSSession. intros v m Hm. apply awp_bind, pwp_add; [done|..].
  - intros m' Hm'. match goal with |- pwp ?p _ _ => enough (lspec None p (fun b => if b : bool then None else Some j)) as Hs by by apply Hs end. leasing.
  - intros err m' Hm'. match goal with |- pwp ?p _ _ => enough (lspec (Some j) p (fun b => if b : bool then None else Some j)) as Hs by by apply Hs end. leasing.
Qed.
#[local] Hint Resolve lspec_upgrade_adopt : leases.
Lemma lspec_upgrade resolve t k h rq : lspec None (upgrade pf cfg fuel resolve t k h rq) (fun _ => None).
Proof.
  unfold upgrade, upgrade_observed. leasing.
Qed.
#[local] Hint Resolve lspec_upgrade : leases.
Lemma lspec_serve_requests resolve t k h rqs : lspec None (serve_requests pf cfg fuel resolve t k h rqs) (fun _ => None).
Proof. induction rqs as [|rq rqs IH]; cbn [serve_requests]; leasing. Qed.
#[local] Hint Resolve lspec_serve_requests : leases.
Lemma lspec_serve_conn resolve requests t k : lspec None (serve_conn pf cfg fuel resolve requests t k) (fun _ => None).
Proof. unfold serve_conn, connContext, lookup_conn, connState. leasing. Qed.
Lemma lspec_close_serveLn t : lspec None (close_serveLn t) (fun _ => None).
Proof. unfold close_serveLn. leasing. Qed.
Lemma lspec_serve_failed t err : lspec None (serve_failed t err) (fun _ => None).
Proof. unfold serve_failed. leasing. Qed.
#[local] Hint Resolve lspec_close_serveLn lspec_serve_failed : leases.
Lemma lspec_serve_rounds t answers : lspec None (serve_rounds cfg fuel t answers) (fun _ => None).
Proof. induction answers as [|a answers IH]; cbn [serve_rounds]; leasing. Qed.
Lemma lspec_serve_tls_failed t err : lspec None (serve_tls_failed t err) (fun _ => None).
Proof. unfold serve_tls_failed. eapply lspec_bind; [leasing|intros []]; [leasing|]. apply waiting_select. branches. Qed.
#[local] Hint Resolve lspec_serve_rounds lspec_serve_tls_failed : leases.
Lemma lspec_serve_tls_rounds t answers : lspec None (serve_tls_rounds t answers) (fun _ => None).
Proof.
  induction answers as [|a answers IH]; cbn [serve_tls_rounds]; [|leasing].
  eapply lspec_bind; [apply waiting_select; branches|intros ?]. leasing.
Qed.
#[local] Hint Resolve lspec_serve_tls_rounds : leases.
Lemma lspec_Serve arr t : lspec None (Serve cfg fuel arr t) (fun _ => None).
Proof. unfold Serve. leasing. Qed.
Lemma lspec_server_Close t : lspec None (server_Close t) (fun _ => None).
Proof.
  unfold server_Close. eapply lspec_bind; [leasing|intros []]; [|leasing]. eapply lspec_bind; [leasing|intros ?]. apply waiting_select. branches.
Qed.
#[local] Hint Resolve lspec_Serve lspec_server_Close : leases.
Lemma lspec_wsListener_Close lc t : lspec None (wsListener_Close fuel lc t) (fun _ => None).
Proof. unfold wsListener_Close, close_ws_channel. eapply lspec_bind; [by apply lspec_once|intros ?]. leasing. Qed.
#[local] Hint Resolve lspec_wsListener_Close : leases.
Lemma lspec_ws_watch lc t : lspec None (ws_watch fuel lc t) (fun _ => None).
Proof. unfold ws_watch. eapply lspec_bind; [apply waiting_select; branches|intros ?]. leasing. Qed.
Lemma lspec_ws_serve arr lc t : lspec None (ws_serve cfg fuel arr lc t) (fun _ => None).
Proof. unfold ws_serve, close_ws_channel, removeWSListener. leasing. Qed.
Lemma lspec_listenWebSocket network e : lspec None (listenWebSocket pf cfg fuel network e) (fun _ => None).
Proof. unfold listenWebSocket, addWSListener. leasing. Qed.
#[local] Hint Resolve lspec_listenWebSocket : leases.

(** *** Dialing a WebSocket *)
Lemma see_on_dial d f s : (forall a, da_lease (f a) = da_lease a) -> see (on_dial d f s) = see s.
Proof. intros Hf. unfold see. cbn. by rewrite fmap_alter_same. Qed.
Lemma unmoved_record d l r du err : unmoved (recordConnect d l r du err).
Proof. apply unmoved_on_dial. intros a. unfold record_connect. by case_match. Qed.
#[local] Hint Resolve unmoved_record : unmoved.
Lemma lspec_dialRaw d e env : lspec None (dialRaw cfg fuel d e env) (fun r => match r with inl (_, j) => Some j | inr _ => None end).
Proof. unfold dialRaw. leasing. Qed.
Lemma lspec_release_admission d : lspec None (release_admission fuel d) (fun _ => None).
Proof.
  unfold release_admission, release_opt. eapply lspec_bind; [apply lspec_take|]. intros a. cbv beta.
  eapply lspec_bind; [apply lspec_unmoved; unmoved|intros ?]. cbv beta. destruct (da_lease a); leasing.
Qed.
#[local] Hint Resolve lspec_dialRaw lspec_release_admission : leases.
Lemma dspec_keep_admission d k j : dspec d (Some j) (keep_admission fuel d k j) (fun _ => None).
Proof.
  unfold keep_admission. do 2 (eapply dspec_bind; [apply dspec_lspec; leasing|intros ?]). eapply dspec_bind; [apply dspec_set|].
  intros [err|]; cbn [keeps]; apply dspec_lspec; leasing.
Qed.
Lemma dspec_DialContext d e env : dspec d None (DialContext cfg fuel d e env) (fun _ => None).
Proof.
  unfold DialContext. eapply dspec_bind; [apply dspec_lspec, lspec_dialRaw|]. intros [[raw j]|err]; [apply dspec_keep_admission|by apply dspec_returns].
Qed.
Lemma dspec_DialTLSContext d e env tls : dspec d None (DialTLSContext cfg fuel d e env tls) (fun _ => None).
Proof.
  unfold DialTLSContext. eapply dspec_bind; [apply dspec_lspec, lspec_dialRaw|]. intros [[raw j]|err]; [|by apply dspec_returns]. cbv zeta.
  eapply dspec_bind; [apply dspec_lspec; leasing|]. intros [act|err]; [|apply dspec_lspec; leasing].
  eapply dspec_bind; [apply dspec_lspec; leasing|intros ?]. destruct (handshake _ _); [apply dspec_lspec; leasing|apply dspec_keep_admission].
Qed.
Lemma dspec_transport_dial d e env : dspec d None (transport_dial cfg fuel d e env) (fun _ => None).
Proof.
  unfold transport_dial. eapply dspec_bind with (R := fun _ => None).
  - destruct (ep_Scheme e); try apply dspec_DialContext. destruct (clientTLSConfig cfg e); [apply dspec_DialTLSContext|by apply dspec_returns].
  - intros r. eapply dspec_bind; [apply dspec_lspec, lspec_unmoved; by apply unmoved_on_dial|intros ?]. apply dspec_lspec. leasing.
Qed.
Lemma dspec_go d e : dspec d None (go (TDial d e)) (fun _ => None).
Proof.
  intros m Hm. apply awp_atomically. intros s F HI. exists ({[+ Dialing d +]} ⊎ m). split; [|by exists m].
  destruct HI as [H1 H2 [H3 H3']]. split; [done..|]. split; [done|]. intros d'. cbn [w_go set_w_go fst]. rewrite omap_app, elem_of_app.
  intros [?|Hd]; [by apply H3'|]. apply list_elem_of_singleton in Hd as ->. apply H3. cbv beta.
  rewrite cons_frame, multiplicity_disj_union, multiplicity_singleton_eq. lia.
Qed.
Lemma dspec_websocket_Dial d e env : dspec d None (websocket_Dial cfg d e env) (fun _ => None).
Proof.
  unfold websocket_Dial. eapply dspec_bind; [apply dspec_go|intros ?]. apply dspec_bind with (R := fun _ => None); [|intros ?; apply dspec_lspec; leasing].
  apply dspec_lspec, waiting_select. intros s s' b. rewrite elem_of_app. intros [Hin|Hin]; repeat case_match;
    rewrite ?elem_of_nil, ?list_elem_of_singleton in Hin; simplify_eq; done || by apply see_on_dial.
Qed.
Lemma dspec_dial_ws d e env : dspec d None (dial_ws pf cfg fuel d e env) (fun _ => None).
Proof.
  unfold dial_ws. cbv zeta. eapply dspec_bind; [apply dspec_lspec; leasing|intros start]. eapply dspec_bind; [apply dspec_websocket_Dial|intros r].
  apply dspec_lspec. do 2 (eapply lspec_bind; [leasing|intros ?]). destruct r as [[k|err] got]; cbn [fst snd].
  - destruct (if observing cfg then _ else _) as [[[[? ?] ?] ?] ?]. eapply lspec_bind; [leasing|intros n]. destruct (newCipher cfg n); [|leasing].
    eapply lspec_bind; [apply lspec_take|intros a]. cbv beta. destruct (da_lease a) as [j|]; [|leasing].
    apply lspec_bind with (fun r => match r with inl _ => None | inr _ => Some j end); [|intros ?; leasing].
    unfold dial_ws_adopt. cbv zeta. apply lspec_newWSSession. intros v m Hm. apply awp_bind, pwp_add; [done|..].
    + intros m' Hm'. match goal with |- pwp ?p _ _ => enough (lspec None p (fun r => match r with inl _ => None | inr _ => Some j end)) as Hs by by apply Hs end. leasing.
    + intros err m' Hm'. match goal with |- pwp ?p _ _ => enough (lspec (Some j) p (fun r => match r with inl _ => None | inr _ => Some j end)) as Hs by by apply Hs end. leasing.
  - destruct (if observing cfg then _ else _) as [[[[? ?] ?] ?] ?]. leasing.
Qed.
Lemma pwp_new_dial m (Q : nat -> gmultiset ltok -> Prop) :
  (forall d, Q d ({[+ Dialing d +]} ⊎ m)) -> pwp (atomically (fun s => (set_w_dials (w_dials s ++ [nil_dial]) s, length (w_dials s)))) m Q.
Proof.
  intros HQ. apply awp_atomically. intros s F [H1 H2 [H3 H3']]. exists ({[+ Dialing (length (w_dials s)) +]} ⊎ m). split; [|apply HQ]. rewrite cons_frame. split; [|others|split].
  - intros j. specialize (H1 j). cbv beta in *. rewrite mult_ne by done. cbn [fst set_w_dials w_dials w_holders w_engine]. rewrite fmap_app, occ_app.
    change (tracked (set_w_dials _ _)) with (tracked s). change (occ j (da_lease <$> [nil_dial])) with 0%nat. lia.
  - intros d. cbv beta. cbn [fst set_w_dials w_dials]. rewrite length_app. cbn [length]. destruct (decide (d = length (w_dials s))) as [->|Hne]; [lia|].
    rewrite mult_ne by congruence. intros Hd. specialize (H3 d Hd). lia.
  - intros d Hd. cbn [fst set_w_dials w_dials w_go] in *. rewrite length_app. specialize (H3' d Hd). lia.
Qed.
Lemma lspec_dialWebSocket dials e : lspec None (dialWebSocket pf cfg fuel dials e) (fun _ => None).
Proof.
  unfold dialWebSocket. cbv zeta. destruct (cfg_framerFactory cfg); [leasing|]. eapply lspec_bind; [leasing|intros [act|err]]; [|leasing].
  unfold newWebSocketHTTPTransport. destruct (match ep_Scheme e with SchemeWSS => _ | _ => _ end) as [tls|err]; intros m Hm.
  2: { do 2 apply awp_bind, awp_ret. match goal with |- pwp ?p _ _ => enough (lspec None p (fun _ => None)) as Hs by by apply Hs end. leasing. }
  apply awp_bind, awp_bind, pwp_new_dial. intros d. apply awp_ret.
  assert (dspec d None (r ← dial_ws pf cfg fuel d e (dials d); release_admission fuel d;; mret r) (fun _ => None)) as Hd
    by (eapply dspec_bind; [apply dspec_dial_ws|intros r; apply dspec_lspec; leasing]).
  apply awp_bind. eapply awp_mono; [|by apply Hd]. intros r m' (n & -> & Hn). cbv beta.
  match goal with |- pwp ?p _ _ => enough (lspec None p (fun _ => None)) as Hs by (apply Hs; by apply holds_other) end. leasing.
Qed.
#[local] Hint Resolve lspec_dialWebSocket : leases.

(** *** The pool *)
Lemma lspec_Listen ctx network e : lspec None (Listen pf cfg fuel ctx network e) (fun _ => None).
Proof. unfold Listen. leasing. Qed.
Lemma lspec_Dial ctx env e : lspec None (Dial pf cfg fuel en ctx env e) (fun _ => None).
Proof. unfold Dial. leasing. Qed.
Lemma lspec_close_each close ls : (forall i, lspec None (close i) (fun _ => None)) -> lspec None (close_each close ls) (fun _ => None).
Proof. intros Hc. induction ls as [|i ls IH]; cbn [close_each]; leasing. Qed.
Lemma lspec_close_listeners set : lspec None (close_listeners fuel en set) (fun _ => None).
Proof.
  unfold close_listeners, stream_close, ws_close. eapply lspec_bind; [apply lspec_close_each; intros ?; leasing|intros ?].
  apply lspec_close_each. intros ?. leasing.
Qed.
#[local] Hint Resolve lspec_Listen lspec_Dial lspec_close_listeners : leases.
Lemma lspec_op o : lspec None (setup_op_prog pf cfg fuel en o) (fun _ => None).
Proof. destruct o; cbn [setup_op_prog]; unfold stream_close, ws_close; leasing. Qed.
#[local] Hint Resolve lspec_op : leases.
Lemma lspec_client ops : lspec None (setup_client pf cfg fuel en ops) (fun _ => None).
Proof. induction ops as [|o ops IH]; cbn [setup_client]; leasing. Qed.
Lemma lspec_task t : dial_of t = None -> lspec None (run_task pf cfg fuel en t) (fun _ => None).
Proof.
  destruct t as [i|i|i c|t|t|t|t c|t k|d e]; intros Ht; cbn [run_task]; [..|done].
  - apply lspec_watchContext.
  - apply lspec_acceptLoop.
  - apply lspec_handleAccepted.
  - apply lspec_ws_watch.
  - apply lspec_ws_serve.
  - apply lspec_gated_rounds.
  - apply lspec_gated_handshake.
  - apply lspec_serve_conn.
Qed.
(** A worker is given the dial its task is about. *)
Definition task_toks (t : task) : gmultiset ltok := match dial_of t with Some d => {[+ Dialing d +]} | None => ∅ end.
Lemma pwp_worker w : pwp (worker pf cfg fuel en w) ∅ (fun _ => leases_fin).
Proof.
  unfold worker. apply awp_bind, awp_select; [done|]. intros s F HI. split; [intros _; right; intros j; by rewrite multiplicity_empty|].
  intros s' t Hin. destruct (w_go s !! w) as [[[] t']|] eqn:Ew; [by apply elem_of_nil in Hin| |by apply elem_of_nil in Hin].
  apply list_elem_of_singleton in Hin as [= -> ->].
  assert (omap (fun e => dial_of e.2) (<[w := (true, t')]> (w_go s)) = omap (fun e : bool * task => dial_of e.2) (w_go s)) as Eo.
  { clear -Ew. revert w Ew. induction (w_go s) as [|x l IH]; intros [|w] Ew; [done..| |]; cbn in Ew.
    - injection Ew as ->. done.
    - change (<[S w := (true, t')]> (x :: l)) with (x :: <[w := (true, t')]> l). cbn. by rewrite (IH w Ew). }
  assert (forall n, leases_inv s n -> leases_inv (set_w_go (<[w := (true, t')]> (w_go s)) s) n) as Hsee.
  { intros n. apply leases_inv_see. unfold see. cbn. by rewrite Eo. }
  destruct (dial_of t') as [d|] eqn:Et.
  - destruct t'; try done. injection Et as ->. exists ({[+ Dialing d +]} ⊎ ∅). split.
    + apply Hsee. rewrite cons_frame. destruct HI as [H1 H2 [H3 H3']]. split; [|others|split; [|done]].
      * intros j. cbv beta. rewrite mult_ne by done. apply H1.
      * intros d'. cbv beta. destruct (decide (d' = d)) as [->|Hne]; [|rewrite mult_ne by congruence; apply H3]. intros _. apply H3'.
        apply list_elem_of_omap. exists (false, TDial d endpoint). split; [by eapply list_elem_of_lookup_2|done].
    + eapply awp_mono; [|apply dspec_transport_dial; intros j; by rewrite multiplicity_empty].
      intros [] m (n & -> & Hn) j. rewrite mult_ne by done. by rewrite Hn.
  - exists ∅. split; [by apply Hsee|]. eapply awp_mono; [|apply lspec_task; [done|]; intros j; by rewrite multiplicity_empty].
    intros [] m Hm j. by rewrite Hm.
Qed.
Lemma setup_leases_ok now workers opss c :
  rtc pstep (setup_pool pf cfg fuel en now workers opss) c -> awp_ok leases_inv leases_blk false any_panic leases_fin c.
Proof.
  eapply awp_adequate with (ms := ((fun _ => ∅) <$> seq 0 workers) ++ ((fun _ => ∅) <$> opss)).
  - rewrite gsum_nil by (apply Forall_app; split; apply Forall_fmap, Forall_true; done). change (gnil (M := gmultiset ltok)) with (∅ : gmultiset ltok).
    split; [|split|split].
    + intros j. cbv beta. rewrite multiplicity_empty. change (tracked (new_world (cfg_limits cfg) now)) with (vals ∅ ⊎ vals ∅ ⊎ vals ∅).
      unfold vals. rewrite map_to_list_empty, !multiplicity_disj_union. change (list_to_set_disj ([] : list (nat * nat)).*2) with (∅ : gmultiset nat). by rewrite multiplicity_empty.
    + intros v. cbv beta. rewrite multiplicity_empty. lia.
    + intros [] v [? Hv]; cbn in Hv; by rewrite lookup_empty in Hv.
    + intros d. cbv beta. rewrite multiplicity_empty. lia.
    + intros d Hd. by apply elem_of_nil in Hd.
  - apply Forall2_app; apply Forall2_fmap_2, Forall_Forall2_diag, Forall_forall; intros x _; [apply pwp_worker|].
    eapply awp_mono; [|apply lspec_client; intros j; by rewrite multiplicity_empty]. intros [] m Hm j. by rewrite Hm.
Qed.
End programs.
