(* ===== verification/SetupQuiet.v ===== *)
(** * SetupQuiet: the programs that leave the life of the listeners alone

    Dials, handshakes, admission, HTTP connections and upgrades neither open nor close a
    listener: they change nothing of what [seen] shows, never panic, and block only on the
    Engine's mutex.  The concerns about listeners frame them. *)
From S2P Require Import Prelude Conc Kinds Errors Classify Endpoint NetAddr HostPort Secure.
From S2P Require Import Lifecycle Quota Limits Engine Options ActivityClock Observer Stats HttpClose Setup StreamSetup HttpTracker WsServer WsDial Frames.
Local Open Scope go_scope.

(** ** What is seen of a listener *)
Record lview := { lv_ctx : bool; lv_ln : bool; lv_closing : bool; lv_done : bool; lv_once : once; lv_final : once }.
Definition look (l : listener) : lview :=
  {| lv_ctx := li_ctx l; lv_ln := li_lnClosed l; lv_closing := li_closing l; lv_done := li_done l; lv_once := li_closeOnce l; lv_final := li_finalOnce l |}.
Record wview := {
  wv_ctx : bool; wv_gctx : bool; wv_gonce : once; wv_ln : bool; wv_serving : bool; wv_shutdown : bool; wv_closing : bool; wv_done : bool; wv_once : once }.
Definition wlook (l : wsListener) : wview :=
  {| wv_ctx := wl_ctx l; wv_gctx := wl_gctx l; wv_gonce := wl_gonce l; wv_ln := wl_lnClosed l; wv_serving := wl_serving l;
     wv_shutdown := wl_shutdown l; wv_closing := wl_closing l; wv_done := wl_done l; wv_once := wl_closeOnce l |}.
(** The stream listeners, and the WebSocket listeners, with the Engine's sets and the goroutines. *)
Definition cview (s : world) : list lview * gset nat * list (bool * task) := (look <$> w_listeners s, e_streamListeners (w_engine s), w_go s).
Definition wsee (s : world) : list wview * gset nat * list (bool * task) := (wlook <$> w_wsListeners s, e_wsListeners (w_engine s), w_go s).
Definition seen (s : world) := (cview s, wsee s).
Lemma on_lis_same i f s : (forall l, look (f l) = look l) -> cview (on_lis i f s) = cview s.
Proof. intros Hf. unfold cview, on_lis. cbn. rewrite (fmap_alter_same look); done. Qed.
Lemma on_wsl_same t f s : (forall l, wlook (f l) = wlook l) -> wsee (on_wsl t f s) = wsee s.
Proof. intros Hf. unfold wsee, on_wsl. cbn. rewrite (fmap_alter_same wlook); done. Qed.
Lemma seen_wsl t f s : (forall l, wlook (f l) = wlook l) -> seen (on_wsl t f s) = seen s.
Proof. intros Hf. unfold seen. by rewrite (on_wsl_same t f s Hf). Qed.

Definition locked (s : world) : Prop := e_locked (w_engine s) = true.
Abbreviation quiet := (frames seen locked false no_panic).
(** The same of the Engine and of its admission controller. *)
Abbreviation eframes view := (frames view (fun e => e_locked e = true) false no_panic).
Abbreviation equiet := (eframes (fun e => (e_streamListeners e, e_wsListeners e))).
Abbreviation aquiet := (frames (fun _ : admissionState => tt) (fun _ => False) false no_panic).
Lemma frames_eng {A V} (view : world -> V) Wait Pan {U} (view' : Engine -> U) (p : prog Engine A) :
  (forall s e, view' e = view' (w_engine s) -> view (set_w_engine e s) = view s) -> (forall s, locked s -> Wait s) ->
  eframes view' p -> frames view Wait false Pan (eng p).
Proof.
  intros Hv Hw. apply frames_lift; [exact Hv|exact Hw|].
  intros e. by exists (set_w_engine e (new_world (ac_limits (as_ctl (e_admission e))) 0)).
Qed.
Lemma quiet_eng {A} (p : prog Engine A) : equiet p -> quiet (eng p).
Proof. apply frames_eng; [|done]. intros s e [= E1 E2]. unfold seen, cview, wsee. cbn. by rewrite E1, E2. Qed.
Lemma eframes_adm {A U} (view : Engine -> U) (p : prog admissionState A) :
  (forall e a, view (lset admission_lens a e) = view e) -> aquiet p -> eframes view (adm p).
Proof. intros Hv. apply frames_lift; [by intros; apply Hv|done|]. intros a. by exists (lset admission_lens a (new_engine (ac_limits (as_ctl a)))). Qed.
Lemma eframes_lock {U} (view : Engine -> U) : (forall e, view (set_locked true e) = view e) -> eframes view lock.
Proof.
  intros Hv. apply frames_select; [done| |].
  - intros e. by destruct (e_locked e).
  - intros e e' b. destruct (e_locked e); [by intros ?%elem_of_nil|]. intros [= -> ->]%list_elem_of_singleton. apply Hv.
Qed.
Create HintDb quiet.
Ltac quiet_leaf :=
  first
    [ apply frames_ret | solve [auto 2 with quiet nocore] | by apply frames_stuck
    | apply frames_atomically; intros ?; cbv beta zeta; repeat case_match; reflexivity
    | apply frames_atomically; intros ?; cbv beta zeta; repeat case_match; cbn [fst];
      first [reflexivity | rewrite seen_wsl by (intros ?; unfold detach; cbv beta; repeat case_match; reflexivity); reflexivity]
    | by apply eframes_lock
    | apply frames_atomically; intros ?; unfold maybe_done; by case_match ].
Ltac quiet :=
  repeat first
    [ quiet_leaf
    | apply eframes_adm; [done|]
    | apply frames_bind; [|intros ?]
    | match goal with |- frames _ _ _ _ (match ?x with _ => _ end) => destruct x end ].
(** ** The Engine *)
Lemma aquiet_listener_acquire n i : aquiet (listener_acquire n i).
Proof. induction n as [|n IH]; cbn [listener_acquire]; unfold compare_and_swap; quiet. Qed.
Lemma aquiet_listener_release n l : aquiet (listener_release n l).
Proof. destruct l as [i|]; cbn [listener_release]; [|quiet]. induction n as [|n IH]; cbn [listener_release_loop]; unfold compare_and_swap; quiet. Qed.
#[global] Hint Resolve aquiet_listener_acquire aquiet_listener_release : quiet.
Lemma aquiet_release n j : aquiet (release n j).
Proof. unfold release, release_mark. quiet. Qed.
#[global] Hint Resolve aquiet_release : quiet.
Lemma quiet_lock : quiet (eng lock).
Proof. apply quiet_eng. quiet. Qed.
Lemma quiet_unlock : quiet (eng unlock).
Proof. apply quiet_eng. unfold unlock. quiet. Qed.
Lemma quiet_done : quiet (eng maybeDoneLocked).
Proof. apply quiet_eng. unfold maybeDoneLocked. quiet. Qed.
Lemma quiet_acquire n addr c : quiet (acquire_opening n addr c).
Proof. apply quiet_eng. unfold acquireOpeningWithListener, open_section. quiet. Qed.
Lemma quiet_release n j : quiet (lease_release n j).
Proof. apply quiet_eng. quiet. Qed.
Lemma quiet_beginOp : quiet (eng beginOp).
Proof. apply quiet_eng. unfold beginOp, unlock. quiet. Qed.
Lemma quiet_endOp : quiet (eng endOp).
Proof. apply quiet_eng. unfold endOp, unlock, maybeDoneLocked. quiet. Qed.
Lemma quiet_abort why : quiet (eng (beginAbort why)).
Proof. apply quiet_eng. unfold beginAbort, unlock, maybeDoneLocked. quiet. Qed.
Lemma quiet_handshake : quiet acquire_handshake.
Proof. apply quiet_eng. unfold engineAcquireHandshake, acquire_engine_activity, acquireHandshake, acquire_activity, unlock. quiet. Qed.
Lemma quiet_upgrade : quiet acquire_upgrade.
Proof. apply quiet_eng. unfold engineAcquireUpgrade, acquire_engine_activity, acquireUpgrade, acquire_activity, unlock. quiet. Qed.
Lemma quiet_activity_release j : quiet (activity_release j).
Proof. apply quiet_eng. unfold engineActivityRelease, maybeDone, releaseActivity, release_activity_mark, unlock, maybeDoneLocked. quiet. Qed.
Lemma quiet_remove_conn k n v : quiet (eng (remove_conn k n v)).
Proof. apply quiet_eng. unfold remove_conn, unlock, maybeDoneLocked. quiet. Qed.
Lemma quiet_add_conn k n v peer j : quiet (eng (add_conn k n v peer (Some j))).
Proof. apply quiet_eng. unfold add_conn, obtain_lease, activate, activate_section, unlock, maybeDoneLocked. quiet. Qed.
#[global] Hint Resolve quiet_lock quiet_unlock quiet_done quiet_acquire quiet_release quiet_beginOp quiet_endOp quiet_abort quiet_handshake quiet_upgrade
  quiet_activity_release quiet_remove_conn quiet_add_conn : quiet.
(** Each set of listeners is left alone by the other kind. *)
Lemma add_ws_frames v : eframes e_streamListeners (addWSListener v).
Proof. unfold addWSListener, addTracked, unlock. quiet. Qed.
Lemma remove_ws_frames v : eframes e_streamListeners (removeWSListener v).
Proof. unfold removeWSListener, removeTracked, unlock, maybeDoneLocked. quiet. Qed.
Lemma add_stream_frames v : eframes e_wsListeners (addStreamListener v).
Proof. unfold addStreamListener, addTracked, unlock. quiet. Qed.
Lemma remove_stream_frames v : eframes e_wsListeners (removeStreamListener v).
Proof. unfold removeStreamListener, removeTracked, unlock, maybeDoneLocked. quiet. Qed.

(** ** Connections *)
Section programs.
Context `{WebSocketLib} (pf : platform) (cfg : config) (fuel : nat).
Lemma quiet_emit ev : quiet (emit_event cfg ev).
Proof. unfold emit_event. quiet. Qed.
Lemma quiet_observe kind a b sc l r d err : quiet (observeSetup cfg kind a b sc l r d err).
Proof. apply quiet_emit. Qed.
Lemma quiet_stamp : quiet (stamp cfg).
Proof. unfold stamp. quiet. Qed.
Lemma quiet_elapsed t : quiet (elapsed cfg t).
Proof. unfold elapsed. quiet. Qed.
Lemma quiet_close_opt c : quiet (close_opt c).
Proof. unfold close_opt. quiet. Qed.
#[local] Hint Resolve quiet_emit quiet_observe quiet_stamp quiet_elapsed quiet_close_opt : quiet.
Lemma quiet_dialTCP network e : quiet (dialTCP pf cfg network e).
Proof. unfold dialTCP. cbv zeta. quiet. Qed.
Lemma quiet_adopt raw e j : quiet (adoptStreamWithLease cfg fuel raw e (Some j)).
Proof. unfold adoptStreamWithLease, addStreamWithLease. quiet. Qed.
Lemma quiet_newWSSession e l r c ph : quiet (newWSSession cfg e l r c ph).
Proof. unfold newWSSession. quiet. Qed.
Lemma quiet_prepare tls c raw : quiet (prepare cfg tls c raw).
Proof. unfold prepare. cbv zeta. quiet. Qed.
Lemma quiet_dial_tls env e raw l r d : quiet (dial_tls pf cfg env e raw l r d).
Proof. unfold dial_tls. cbv zeta. quiet. Qed.
#[local] Hint Resolve quiet_dialTCP quiet_adopt quiet_newWSSession quiet_prepare quiet_dial_tls : quiet.
Lemma quiet_dial_adopt e k d h j : quiet (dial_adopt pf cfg fuel e k d h j).
Proof. unfold dial_adopt. cbv zeta. quiet. Qed.
#[local] Hint Resolve quiet_dial_adopt : quiet.
Lemma quiet_dialStream env e : quiet (dialStream pf cfg fuel env e).
Proof. unfold dialStream. cbv zeta. quiet. Qed.
(** *** HTTP and WebSockets *)
Lemma quiet_holder_release h : quiet (holder_release fuel h).
Proof. unfold holder_release, leave, detachHolder. quiet. Qed.
#[local] Hint Resolve quiet_holder_release : quiet.
Lemma quiet_release_all hs : quiet (release_all fuel hs).
Proof. induction hs as [|h hs IH]; cbn [release_all]; quiet. Qed.
#[local] Hint Resolve quiet_release_all : quiet.
Lemma quiet_releaseConn t k : quiet (releaseConn fuel t k).
Proof. unfold releaseConn, lookup_conn. quiet. Qed.
Lemma quiet_closeAll t : quiet (closeAll fuel t).
Proof. unfold closeAll. quiet. Qed.
Lemma quiet_take h : quiet (takeWithPhysical h).
Proof. unfold takeWithPhysical, leave, detachHolder. quiet. Qed.
Lemma quiet_rebind t old new : quiet (rebind t old new).
Proof. unfold rebind, rebind_section. quiet. Qed.
#[local] Hint Resolve quiet_releaseConn quiet_closeAll quiet_take quiet_rebind : quiet.
Lemma quiet_register t c j : quiet (register t c j).
Proof. unfold register, register_section. quiet. Qed.
Lemma quiet_upgrade_adopt t j ph l r d : quiet (upgrade_adopt cfg fuel t j ph l r d).
Proof. unfold upgrade_adopt, addWebSocketWithLease. quiet. Qed.
#[local] Hint Resolve quiet_upgrade_adopt : quiet.
Lemma quiet_upgrade_request resolve t k h rq : quiet (upgrade pf cfg fuel resolve t k h rq).
Proof. unfold upgrade, upgrade_observed. cbv zeta. quiet. Qed.
#[local] Hint Resolve quiet_upgrade_request : quiet.
Lemma quiet_serve_requests resolve t k h rqs : quiet (serve_requests pf cfg fuel resolve t k h rqs).
Proof. induction rqs as [|rq rqs IH]; cbn [serve_requests]; quiet. Qed.
#[local] Hint Resolve quiet_serve_requests : quiet.
Lemma quiet_serve_conn resolve requests t k : quiet (serve_conn pf cfg fuel resolve requests t k).
Proof. unfold serve_conn, connContext, lookup_conn, connState. quiet. Qed.
Lemma quiet_dialRaw d e env : quiet (dialRaw cfg fuel d e env).
Proof. unfold dialRaw, recordConnect. cbv zeta. quiet. Qed.
Lemma quiet_keep_admission d k j : quiet (keep_admission fuel d k j).
Proof. unfold keep_admission, set_admission, set_section. cbv zeta. quiet. Qed.
Lemma quiet_release_admission d : quiet (release_admission fuel d).
Proof. unfold release_admission, take_admission, release_opt. quiet. Qed.
#[local] Hint Resolve quiet_dialRaw quiet_keep_admission quiet_release_admission : quiet.
Lemma quiet_transport_dial d e env : quiet (transport_dial cfg fuel d e env).
Proof. unfold transport_dial, DialContext, DialTLSContext. cbv zeta. quiet. Qed.
Lemma quiet_dial_ws_adopt e j ph k l r c cd hd : quiet (dial_ws_adopt pf cfg fuel e (Some j) ph k l r c cd hd).
Proof. unfold dial_ws_adopt, addWebSocketWithLease. cbv zeta. quiet. Qed.
End programs.
#[global] Hint Resolve quiet_emit quiet_observe quiet_stamp quiet_elapsed quiet_close_opt quiet_dialTCP quiet_adopt quiet_newWSSession quiet_prepare
  quiet_dial_tls quiet_dial_adopt quiet_dialStream quiet_holder_release quiet_release_all quiet_releaseConn quiet_closeAll quiet_take quiet_rebind
  quiet_register quiet_upgrade_adopt quiet_upgrade_request quiet_serve_requests quiet_serve_conn quiet_dialRaw quiet_keep_admission quiet_release_admission
  quiet_transport_dial quiet_dial_ws_adopt : quiet.
