(* ===== verification/StreamClosing.v ===== *)
(** * StreamClosing: how a stream listener closes (transport/listener.go)

    A listener is closed by its owner, by its context, by its accept loop after an error, by a
    connection it cannot adopt and by the Engine, in any order and concurrently.  A goroutine
    owns the part it plays: the function of [closeOnce] it runs, the accept loop, the watcher of the
    context.  A [go] statement hands the part of the goroutine to the worker that will run it. *)
From S2P Require Import Prelude Conc Kinds Errors Classify Endpoint NetAddr HostPort Secure.
From S2P Require Import Lifecycle Quota Limits Engine Options ActivityClock Observer Stats HttpClose Setup StreamSetup HttpTracker WsServer WsDial SetupPool Frames SetupLock SetupQuiet.
Local Open Scope go_scope.

Inductive part :=
  | OncePre (i : nat)    (* runs the function of closeOnce *)
  | OnceClosing (i : nat)   (* the same, closing is closed *)
  | OnceCancelled (i : nat)   (* the same, and the context is done *)
  | OnceLast (i : nat)   (* the same, and the socket is closed *)
  | Building (i : nat)   (* listenStream has made the listener *)
  | Accepting (i : nat)  (* the accept loop *)
  | Finishing (i : nat)  (* runs the function of finalOnce *)
  | Closed (i : nat)     (* the same, done is closed *)
  | Removed (i : nat)    (* the same, the Engine has forgotten the listener *)
  | Watching (i : nat)   (* watches the context *)
  | Idle (n : nat).      (* the worker of the n-th go statement, which has not begun *)
#[global] Instance part_eq_dec : EqDecision part.
Proof. solve_decision. Defined.
#[global] Instance part_countable : Countable part.
Proof.
  refine (inj_countable'
    (fun x => match x with
      | OncePre i => (0, i) | OnceClosing i => (1, i) | Building i => (2, i) | Accepting i => (3, i) | Finishing i => (4, i)
      | Closed i => (5, i) | Removed i => (6, i) | Watching i => (7, i) | Idle n => (8, n) | OnceCancelled i => (9, i) | OnceLast i => (10, i) end%nat)
    (fun '(k, i) => match k with
      | 0 => OncePre i | 1 => OnceClosing i | 2 => Building i | 3 => Accepting i | 4 => Finishing i
      | 5 => Closed i | 6 => Removed i | 7 => Watching i | 8 => Idle i | 9 => OnceCancelled i | _ => OnceLast i end%nat) _).
  by intros [].
Defined.
(** Facts are sets. *)
#[global] Program Instance ghost_gset A `{Countable A} : Ghost (gset A) := {| gop := fun x y => x ∪ y; gnil := ∅ |}.
Next Obligation. intros; cbn. by rewrite (assoc_L (∪)). Qed.
Next Obligation. intros; cbn. by rewrite (comm_L (∪)). Qed.
Next Obligation. intros; cbn. by rewrite (left_id_L ∅ (∪)). Qed.

(** ** What the concern sees *)
(** The part a goroutine plays that has not begun. *)
Definition task_part (t : task) : option part :=
  match t with TAccept i => Some (Accepting i) | TWatch i => Some (Watching i) | _ => None end.
Definition waiting (e : bool * task) : option part := if e.1 then None else task_part e.2.
Definition pending (x : part) (gs : list (bool * task)) : nat := length (List.filter (fun e => bool_decide (waiting e = Some x)) gs).
Lemma pending_app x gs gs' : pending x (gs ++ gs') = (pending x gs + pending x gs')%nat.
Proof. unfold pending. by rewrite List.filter_app, length_app. Qed.
Lemma pending_one x e : pending x [e] = one (bool_decide (waiting e = Some x)).
Proof. unfold pending. cbn [List.filter]. by case_bool_decide. Qed.
Lemma pending_begin x gs n t :
  gs !! n = Some (false, t) -> (pending x (<[n := (true, t)]> gs) + one (bool_decide (task_part t = Some x)) = pending x gs)%nat.
Proof.
  unfold pending. revert n. induction gs as [|e gs IH]; intros [|n] Hn; [done..| |].
  - injection Hn as ->. change (<[0%nat := (true, t)]> ((false, t) :: gs)) with ((true, t) :: gs). cbn [List.filter].
    rewrite (bool_decide_false (waiting (true, t) = Some x)) by done. change (waiting (false, t)) with (task_part t). case_bool_decide; cbn [length one]; lia.
  - specialize (IH _ Hn). change (<[S n := (true, t)]> (e :: gs)) with (e :: <[n := (true, t)]> gs). cbn [List.filter]. destruct (bool_decide (waiting e = Some x)); cbn [length]; lia.
Qed.
Definition in_progress (o : once) : bool := match o with InProgress => true | _ => false end.
Definition begun (n : nat) (gs : list (bool * task)) : bool := match gs !! n with Some (b, _) => b | None => false end.
Definition loops (i : nat) (gs : list (bool * task)) : Prop := exists b, (b, TAccept i) ∈ gs.

(** ** The invariant of a listener; [c] counts the parts *)
Record lis_ok (i : nat) (l : lview) (tracked : bool) (looping : Prop) (c : part -> nat) : Prop := {
  lo_once : (c (OncePre i) + c (OnceClosing i) + c (OnceCancelled i) + c (OnceLast i))%nat = one (in_progress (lv_once l));
  lo_pre : (1 <= c (OncePre i))%nat -> lv_closing l = false;
  lo_closing : (1 <= c (OnceClosing i) + c (OnceCancelled i) + c (OnceLast i))%nat -> lv_closing l = true;
  lo_cancelled : (1 <= c (OnceCancelled i) + c (OnceLast i))%nat -> lv_ctx l = true;
  lo_last : (1 <= c (OnceLast i))%nat -> lv_ln l = true;
  lo_before : lv_once l = Unstarted -> lv_closing l = false;
  lo_after : lv_once l = Finished -> lv_closing l = true /\ lv_ctx l = true /\ lv_ln l = true;
  lo_role : (c (Building i) + c (Accepting i) + c (Finishing i) + c (Closed i) + c (Removed i) <= 1)%nat;
  lo_tracked : (c (Accepting i) + c (Finishing i) + c (Closed i))%nat = one tracked;
  lo_idle : (1 <= c (Building i) + c (Accepting i))%nat -> lv_final l = Unstarted;
  lo_open : (1 <= c (Building i) + c (Accepting i) + c (Finishing i))%nat -> lv_done l = false;
  lo_done : lv_done l = true -> lv_once l = Finished;
  lo_loop : looping -> lv_done l = true \/ (1 <= c (Accepting i) + c (Finishing i))%nat;
  lo_watch : tracked = true -> lv_once l = Unstarted -> (1 <= c (Watching i))%nat }.
Definition index (x : part) : option nat :=
  match x with
  | OncePre i | OnceClosing i | OnceCancelled i | OnceLast i | Building i | Accepting i | Finishing i | Closed i | Removed i | Watching i => Some i
  | Idle _ => None
  end.
Definition parts (m : gmultiset part) (s : world) (x : part) : nat := (multiplicity x m + pending x (w_go s))%nat.
Abbreviation share := (gmultiset part * gset nat)%type.
Definition is_tracked (i : nat) (s : world) : bool := bool_decide (i ∈ e_streamListeners (w_engine s)).
Record closing_inv (workers : nat) (s : world) (g : share) : Prop := {
  ci_each : forall i l, w_listeners s !! i = Some l -> lis_ok i (look l) (is_tracked i s) (loops i (w_go s)) (parts g.1 s);
  ci_index : forall x i, index x = Some i -> (1 <= parts g.1 s x)%nat -> (i < length (w_listeners s))%nat;
  ci_tracked : forall i, is_tracked i s = true -> (i < length (w_listeners s))%nat;
  ci_loop : forall i, loops i (w_go s) -> (i < length (w_listeners s))%nat;
  ci_idle : forall n, (n < workers)%nat -> begun n (w_go s) = false -> (1 <= multiplicity (Idle n) g.1)%nat;
  ci_fact : forall i, i ∈ g.2 -> exists l, w_listeners s !! i = Some l /\ li_closeOnce l = Finished }.

(** ** Blocked goroutines *)
Definition running (x : part) : bool := match x with OncePre _ | OnceClosing _ | OnceCancelled _ | OnceLast _ => true | _ => false end.
Definition calm (m : gmultiset part) : Prop := forall x, x ∈ m -> running x = false.
(** Waiting for another goroutine, and for something to happen to the listener. *)
Definition stalled (s : world) : Prop := e_locked (w_engine s) = true \/ exists i, lis i li_closeOnce s = InProgress.
Definition resting (s : world) (m : gmultiset part) : Prop :=
  m = ∅ \/
  (exists i, m = {[+ Accepting i +]} /\ lis i li_lnClosed s = false) \/
  (exists i, m = {[+ Watching i +]} /\ lis i li_ctx s = false /\ lis i li_done s = false) \/
  (exists n, m = {[+ Idle n +]} /\ forall t, w_go s !! n <> Some (false, t)).
Definition closing_blk (s : world) (g : share) : Prop := calm g.1 /\ (stalled s \/ resting s g.1).
Definition closing_fin (g : share) : Prop := g.1 = ∅.
(** The panics of the WebSocket listeners are not this concern's. *)
Definition ws_panic (P : world -> Prop) : Prop :=
  exists t get, (get = wl_closing \/ get = wl_done) /\ forall s, P s <-> wsl t get s = true.

(** ** Sections *)
Definition same_part (x y : part) : bool :=
  match x, y with
  | OncePre i, OncePre j | OnceClosing i, OnceClosing j | OnceCancelled i, OnceCancelled j | OnceLast i, OnceLast j
  | Building i, Building j | Accepting i, Accepting j | Finishing i, Finishing j | Closed i, Closed j | Removed i, Removed j
  | Watching i, Watching j | Idle i, Idle j => (i =? j)%nat
  | _, _ => false
  end.
Lemma same_part_spec x y : same_part x y = true <-> x = y.
Proof. destruct x, y; cbn; rewrite ?Nat.eqb_eq; naive_solver. Qed.
Lemma parts_cons x y m s : parts ({[+ x +]} ⊎ m) s y = (one (same_part y x) + parts m s y)%nat.
Proof.
  unfold parts. rewrite multiplicity_disj_union. destruct (same_part y x) eqn:E.
  - apply same_part_spec in E as ->. rewrite multiplicity_singleton_eq. cbn [one]. lia.
  - rewrite multiplicity_singleton_ne; [cbn [one]; lia|]. intros Hxy. apply same_part_spec in Hxy. congruence.
Qed.
Lemma parts_self x m s : parts ({[+ x +]} ⊎ m) s x = S (parts m s x).
Proof. rewrite parts_cons. by rewrite (proj2 (same_part_spec x x)). Qed.
Lemma lis_ext i l b P P' c c' :
  (forall x, index x = Some i -> c' x = c x) -> (P' -> P) -> lis_ok i l b P c -> lis_ok i l b P' c'.
Proof. intros Hc HP []. split; rewrite ?Hc by done; auto. Qed.
Lemma lis_at i s l : w_listeners s !! i = Some l -> forall A (f : listener -> A), lis i f s = f l.
Proof. intros Hl A f. unfold lis. by rewrite Hl. Qed.

Create HintDb plain.
Create HintDb parting.
Section concern.
Context (workers : nat).
Abbreviation inv := (closing_inv workers).
Abbreviation cwp := (awp inv closing_blk false ws_panic).
Lemma inv_view s s' g : cview s' = cview s -> inv s g -> inv s' g.
Proof.
  intros [= E1 E2 E3] [H1 H2 H3 H4 H5 H6].
  assert (length (w_listeners s') = length (w_listeners s)) as El by (by rewrite <- !(length_fmap look), E1).
  assert (forall i l, w_listeners s' !! i = Some l -> exists l', w_listeners s !! i = Some l' /\ look l' = look l) as Hl.
  { intros i l Hi. assert ((look <$> w_listeners s') !! i = Some (look l)) as Hi' by (by rewrite list_lookup_fmap, Hi).
    rewrite E1, list_lookup_fmap in Hi'. apply fmap_Some in Hi' as (l' & ? & ?). by exists l'. }
  unfold is_tracked, parts in *. split; unfold is_tracked, parts; rewrite ?E2, ?E3, ?El; try done.
  - intros i l (l' & Hi & <-)%Hl. by apply H1.
  - intros i Hi. destruct (H6 i Hi) as (l & Hl' & Hf). destruct (lookup_lt_is_Some_2 (w_listeners s') i) as [l' Hi']; [rewrite El; by eapply lookup_lt_Some|].
    exists l'. split; [done|]. apply Hl in Hi' as (l2 & Hl2 & [= _ _ _ _ <- _]). by simplify_eq.
Qed.
(** One listener changes. *)
Lemma lis_change i f A B s n X :
  inv s (A ⊎ n, X) -> (i < length (w_listeners s))%nat -> (forall x, x ∈ A \/ x ∈ B -> index x = Some i) ->
  (forall l, w_listeners s !! i = Some l -> lis_ok i (look l) (is_tracked i s) (loops i (w_go s)) (parts (A ⊎ n) s) ->
     lis_ok i (look (f l)) (is_tracked i s) (loops i (w_go s)) (parts (B ⊎ n) s) /\ (li_closeOnce l = Finished -> li_closeOnce (f l) = Finished)) ->
  inv (on_lis i f s) (B ⊎ n, X).
Proof.
  intros [H1 H2 H3 H4 H5 H6] Hlt Hx Hf. destruct (lookup_lt_is_Some_2 _ _ Hlt) as [l0 Hl0]. cbn [fst snd] in *.
  destruct (Hf l0 Hl0 (H1 i l0 Hl0)) as [Hok Hfin].
  assert (forall y j, index y = Some j -> j <> i -> parts (B ⊎ n) s y = parts (A ⊎ n) s y) as Hother.
  { intros y j Hy Hj. unfold parts. rewrite !multiplicity_disj_union. f_equal. f_equal.
    assert (y ∉ A /\ y ∉ B) as [Ha Hb] by (split; intros Hin; specialize (Hx y ltac:(auto)); congruence).
    rewrite not_elem_of_multiplicity in Ha, Hb. lia. }
  unfold on_lis. split; cbn [w_listeners set_w_listeners w_engine w_go fst snd]; rewrite ?length_alter; try done.
  - intros j l Hj. change (parts (B ⊎ n) (set_w_listeners _ s)) with (parts (B ⊎ n) s). change (is_tracked j (set_w_listeners _ s)) with (is_tracked j s).
    destruct (decide (j = i)) as [->|Hne].
    + rewrite list_lookup_alter_eq, Hl0 in Hj. by injection Hj as <-.
    + rewrite list_lookup_alter_ne in Hj by done. eapply lis_ext; [|done|by apply H1]. intros x Hxi. by eapply Hother.
  - intros x j Hj Hc. change (parts (B ⊎ n) (set_w_listeners _ s)) with (parts (B ⊎ n) s) in Hc.
    destruct (decide (j = i)) as [->|Hne]; [done|]. apply (H2 x); [done|]. by rewrite <- (Hother x j).
  - intros k Hk Hb. specialize (H5 k Hk Hb). rewrite !multiplicity_disj_union in *.
    assert (Idle k ∉ A) as Ha by (intros Hin; by specialize (Hx (Idle k) ltac:(auto))). rewrite not_elem_of_multiplicity in Ha. lia.
  - intros j Hj. destruct (H6 j Hj) as (l & Hl & Hfi). destruct (decide (j = i)) as [->|Hne].
    + exists (f l). rewrite list_lookup_alter_eq, Hl. simplify_eq. auto.
    + exists l. by rewrite list_lookup_alter_ne.
Qed.

Ltac toks := rewrite ?parts_cons in *; cbn [same_part one] in *; rewrite ?Nat.eqb_refl in *; cbn [one] in *.
(** The fields of [lis_ok], from those before. *)
Ltac field := intros; first [done | lia | match goal with F : (1 <= _)%nat -> _ |- _ => apply F; lia end | by auto | exfalso; lia
  | split_and!; match goal with F : (1 <= _)%nat -> _ |- _ => apply F; lia end].
Ltac fields l H := repeat match goal with HI : closing_inv _ _ _ |- _ => clear HI | Hl : w_listeners _ !! _ = Some _ |- _ => clear Hl end; destruct H as [F1 F2 F3 F4 F5 F6 F7 F8 F9 F10 F11 F12 F13 F14];
  destruct l as [? ? ? ? ? ? ? ctx ln cl dn onc fin ? ?];
  cbn [look lv_ctx lv_ln lv_closing lv_done lv_once lv_final li_ctx li_lnClosed li_closing li_done li_closeOnce li_finalOnce] in *; split;
  cbn [look lv_ctx lv_ln lv_closing lv_done lv_once lv_final set_li_ctx set_li_lnClosed set_li_closing set_li_done set_li_closeOnce set_li_finalOnce
       li_ctx li_lnClosed li_closing li_done li_closeOnce li_finalOnce]; toks;
  try (by field); try (destruct onc; cbn [in_progress one] in *; by field).
Lemma index_cons i x A : index x = Some i -> (forall y, y ∈ A -> index y = Some i) -> forall y, y ∈ ({[+ x +]} ⊎ A : gmultiset part) -> index y = Some i.
Proof. intros Hx HA y [->%gmultiset_elem_of_singleton|?]%gmultiset_elem_of_disj_union; auto. Qed.
(** A part with index [i] is given and taken. *)
Lemma lis_swap i f x y s n X :
  inv s ({[+ x +]} ⊎ n, X) -> index x = Some i -> index y = Some i ->
  (forall l, w_listeners s !! i = Some l -> lis_ok i (look l) (is_tracked i s) (loops i (w_go s)) (parts ({[+ x +]} ⊎ n) s) ->
     lis_ok i (look (f l)) (is_tracked i s) (loops i (w_go s)) (parts ({[+ y +]} ⊎ n) s) /\ (li_closeOnce l = Finished -> li_closeOnce (f l) = Finished)) ->
  inv (on_lis i f s) ({[+ y +]} ⊎ n, X).
Proof.
  intros HI Hx Hy Hf. eapply lis_change; [exact HI| | |exact Hf].
  - apply (ci_index _ _ _ HI x i Hx). cbn [fst]. rewrite parts_self. lia.
  - intros z [->%gmultiset_elem_of_singleton| ->%gmultiset_elem_of_singleton]; done.
Qed.
Lemma inv_close_channel i s n X :
  inv s ({[+ OncePre i +]} ⊎ n, X) -> lis i li_closing s = false /\ inv (on_lis i (set_li_closing true) s) ({[+ OnceClosing i +]} ⊎ n, X).
Proof.
  intros HI. split.
  - destruct (lookup_lt_is_Some_2 (w_listeners s) i) as [l Hl].
    { apply (ci_index _ _ _ HI (OncePre i) i eq_refl). cbn [fst]. toks. lia. }
    rewrite (lis_at _ _ _ Hl). apply (lo_pre _ _ _ _ _ (ci_each _ _ _ HI i l Hl)). cbn [fst]. toks. lia.
  - apply (lis_swap _ _ (OncePre i)); [done..|]. intros l Hl H. split; [fields l H|done].
Qed.
Lemma inv_cancel i s n X : inv s ({[+ OnceClosing i +]} ⊎ n, X) -> inv (on_lis i (set_li_ctx true) s) ({[+ OnceCancelled i +]} ⊎ n, X).
Proof. intros HI. apply (lis_swap _ _ (OnceClosing i)); [done..|]. intros l Hl H. split; [fields l H|done]. Qed.
Lemma inv_close_ln i s n X : inv s ({[+ OnceCancelled i +]} ⊎ n, X) -> inv (on_lis i (set_li_lnClosed true) s) ({[+ OnceLast i +]} ⊎ n, X).
Proof. intros HI. apply (lis_swap _ _ (OnceCancelled i)); [done..|]. intros l Hl H. split; [fields l H|done]. Qed.
(** Parts of the [i]-th listener that are given up. *)
Lemma lis_drop i f A s n X :
  inv s (A ⊎ n, X) -> (i < length (w_listeners s))%nat -> (forall x, x ∈ A -> index x = Some i) ->
  (forall l, w_listeners s !! i = Some l -> lis_ok i (look l) (is_tracked i s) (loops i (w_go s)) (parts (A ⊎ n) s) ->
     lis_ok i (look (f l)) (is_tracked i s) (loops i (w_go s)) (parts n s) /\ (li_closeOnce l = Finished -> li_closeOnce (f l) = Finished)) ->
  inv (on_lis i f s) (n, X).
Proof.
  intros HI Hlt Hx Hf. rewrite <- (left_id_L ∅ (⊎) n). eapply lis_change; [exact HI|done| |].
  - intros x [?|Hin]; [auto|]. multiset_solver.
  - intros l Hl H. rewrite (left_id_L ∅ (⊎) n). by apply Hf.
Qed.
Lemma single_index i x y : index x = Some i -> y ∈ ({[+ x +]} : gmultiset part) -> index y = Some i.
Proof. by intros Hx ->%gmultiset_elem_of_singleton. Qed.
Lemma part_lt i x s n X : inv s ({[+ x +]} ⊎ n, X) -> index x = Some i -> (i < length (w_listeners s))%nat.
Proof. intros HI Hx. apply (ci_index _ _ _ HI x i Hx). cbn [fst]. rewrite parts_self. lia. Qed.
Lemma add_fact i s n X l : inv s (n, X) -> w_listeners s !! i = Some l -> li_closeOnce l = Finished -> inv s (n, {[i]} ∪ X).
Proof. intros [H1 H2 H3 H4 H5 H6] Hl Hi. split; try done. intros j. cbn. rewrite elem_of_union, elem_of_singleton. intros [->|?]; eauto. Qed.
Lemma inv_finish i s n X : inv s ({[+ OnceLast i +]} ⊎ n, X) -> inv (on_lis i (set_li_closeOnce Finished) s) (n, {[i]} ∪ X).
Proof.
  intros HI. pose proof (part_lt _ _ _ _ _ HI eq_refl) as Hlt. destruct (lookup_lt_is_Some_2 _ _ Hlt) as [l0 Hl0].
  apply (add_fact _ _ _ _ (set_li_closeOnce Finished l0)); [|cbn; by rewrite list_lookup_alter_eq, Hl0|done].
  - apply (lis_drop i _ {[+ OnceLast i +]}); [done..| |]; [intros x; by apply single_index|]. intros l Hl H. split; [fields l H|done].
Qed.
(** A watcher that closes is not needed any more. *)
Definition only_watching (i : nat) (A : gmultiset part) : Prop := A = ∅ \/ A = {[+ Watching i +]}.
Lemma index_watching i A x : only_watching i A -> x ∈ A -> index x = Some i.
Proof. intros [-> | ->]; [multiset_solver|]. by intros ->%gmultiset_elem_of_singleton. Qed.
Lemma inv_enter i A s n X l :
  w_listeners s !! i = Some l -> li_closeOnce l = Unstarted -> only_watching i A -> inv s (A ⊎ n, X) ->
  inv (on_lis i (set_li_closeOnce InProgress) s) ({[+ OncePre i +]} ⊎ n, X).
Proof.
  intros Hl Hu HA HI. eapply lis_change; [exact HI|by eapply lookup_lt_Some| |].
  - intros x [Hx| ->%gmultiset_elem_of_singleton]; [by eapply index_watching|done].
  - intros l' Hl' H. simplify_eq. split; [|congruence].
    destruct HA as [-> | ->]; [rewrite (left_id_L ∅ (⊎)) in H|]; fields l H; naive_solver.
Qed.
Lemma inv_entered i A s n X l :
  w_listeners s !! i = Some l -> li_closeOnce l = Finished -> only_watching i A -> inv s (A ⊎ n, X) -> inv s (n, {[i]} ∪ X).
Proof.
  intros Hl Hu HA HI. apply (add_fact _ _ _ _ l); [|done..]. apply (inv_view (on_lis i id s)); [symmetry; by apply on_lis_same|].
  apply (lis_drop i _ A); [done|by eapply lookup_lt_Some|intros x; by apply index_watching|].
  intros l' Hl' H. simplify_eq. split; [|done].
  destruct HA as [-> | ->]; [by rewrite (left_id_L ∅ (⊎)) in H|]. fields l H.
Qed.
(** The context ends. *)
Lemma inv_ctx i s n X : inv s (n, X) -> inv (on_lis i (set_li_ctx true) s) (n, X).
Proof.
  intros HI. destruct (decide (i < length (w_listeners s))%nat) as [Hlt|Hge].
  - apply (lis_drop i _ ∅); [by rewrite (left_id_L ∅ (⊎))|done|multiset_solver|]. intros l Hl H. rewrite (left_id_L ∅ (⊎)) in H. split; [|done].
    destruct H. split; try done. intros Hf. destruct (lo_after0 Hf) as (? & ? & ?). done.
  - eapply inv_view; [|exact HI]. unfold cview, on_lis. cbn. rewrite alter_none; [done|]. by apply lookup_ge_None; lia.
Qed.
(** *** The accept loop *)
Lemma inv_final i s n X :
  inv s ({[+ Accepting i +]} ⊎ n, X) -> lis i li_finalOnce s = Unstarted /\ inv (on_lis i (set_li_finalOnce InProgress) s) ({[+ Finishing i +]} ⊎ n, X).
Proof.
  intros HI. split.
  - destruct (lookup_lt_is_Some_2 _ _ (part_lt _ _ _ _ _ HI eq_refl)) as [l Hl]. rewrite (lis_at _ _ _ Hl).
    apply (lo_idle _ _ _ _ _ (ci_each _ _ _ HI i l Hl)). cbn [fst]. toks. lia.
  - apply (lis_swap _ _ (Accepting i)); [done..|]. intros l Hl H. split; [fields l H|done].
Qed.
Lemma inv_close_done i s n X :
  i ∈ X -> inv s ({[+ Finishing i +]} ⊎ n, X) -> lis i li_done s = false /\ inv (on_lis i (set_li_done true) s) ({[+ Closed i +]} ⊎ n, X).
Proof.
  intros Hi HI. destruct (lookup_lt_is_Some_2 _ _ (part_lt _ _ _ _ _ HI eq_refl)) as [l Hl]. split.
  - rewrite (lis_at _ _ _ Hl). apply (lo_open _ _ _ _ _ (ci_each _ _ _ HI i l Hl)). cbn [fst]. toks. lia.
  - destruct (ci_fact _ _ _ HI i Hi) as (l0 & Hl0 & Hf). cbn in Hl0. simplify_eq. apply (lis_swap _ _ (Finishing i)); [done..|]. intros l' Hl' H. simplify_eq. split; [|done].
    fields l H; by auto.
Qed.
Lemma inv_final_over i s n X : inv s ({[+ Removed i +]} ⊎ n, X) -> inv (on_lis i (set_li_finalOnce Finished) s) (n, X).
Proof.
  intros HI. apply (lis_drop i _ {[+ Removed i +]}); [done|by eapply part_lt|intros x; by apply single_index|]. intros l Hl H. split; [fields l H|done].
Qed.
(** *** The Engine's set of listeners *)
Definition set_tracked (f : gset nat -> gset nat) (s : world) : world := set_w_engine (set_listeners StreamListener f (w_engine s)) s.
Lemma tracked_change i f A B s n X :
  inv s (A ⊎ n, X) -> (i < length (w_listeners s))%nat -> (forall x, x ∈ A \/ x ∈ B -> index x = Some i) ->
  (forall j, j <> i -> is_tracked j (set_tracked f s) = is_tracked j s) ->
  (forall l, w_listeners s !! i = Some l -> lis_ok i (look l) (is_tracked i s) (loops i (w_go s)) (parts (A ⊎ n) s) ->
     lis_ok i (look l) (is_tracked i (set_tracked f s)) (loops i (w_go s)) (parts (B ⊎ n) s)) ->
  inv (set_tracked f s) (B ⊎ n, X).
Proof.
  intros [H1 H2 H3 H4 H5 H6] Hlt Hx Ht Hf. destruct (lookup_lt_is_Some_2 _ _ Hlt) as [l0 Hl0]. cbn [fst snd] in *.
  pose proof (Hf l0 Hl0 (H1 i l0 Hl0)) as Hok.
  assert (forall y j, index y = Some j -> j <> i -> parts (B ⊎ n) s y = parts (A ⊎ n) s y) as Hother.
  { intros y j Hy Hj. unfold parts. rewrite !multiplicity_disj_union. f_equal. f_equal.
    assert (y ∉ A /\ y ∉ B) as [Ha Hb] by (split; intros Hin; specialize (Hx y ltac:(auto)); congruence).
    rewrite not_elem_of_multiplicity in Ha, Hb. lia. }
  split; cbn [w_listeners set_tracked set_w_engine w_engine w_go fst snd]; try done.
  - intros j l Hj. change (parts (B ⊎ n) (set_tracked f s)) with (parts (B ⊎ n) s). destruct (decide (j = i)) as [->|Hne]; [by simplify_eq|].
    rewrite Ht by done. eapply lis_ext; [|done|by apply H1]. intros x Hxi. by eapply Hother.
  - intros x j Hj Hc. change (parts (B ⊎ n) (set_tracked f s)) with (parts (B ⊎ n) s) in Hc.
    destruct (decide (j = i)) as [->|Hne]; [done|]. apply (H2 x); [done|]. by rewrite <- (Hother x j).
  - intros j Hj. destruct (decide (j = i)) as [->|Hne]; [done|]. apply H3. by rewrite <- Ht.
  - intros k Hk Hb. specialize (H5 k Hk Hb). rewrite !multiplicity_disj_union in *.
    assert (Idle k ∉ A) as Ha by (intros Hin; by specialize (Hx (Idle k) ltac:(auto))). rewrite not_elem_of_multiplicity in Ha. lia.
Qed.
Lemma inv_track i s n X : inv s ({[+ Building i +]} ⊎ n, X) -> inv (set_tracked (fun x => {[i]} ∪ x) s) ({[+ Watching i +]} ⊎ ({[+ Accepting i +]} ⊎ n), X).
Proof.
  intros HI. pose proof (part_lt _ _ _ _ _ HI eq_refl) as Hlt. rewrite (assoc_L (⊎)). apply (tracked_change i _ {[+ Building i +]}); [done..| | |].
  - intros x [Hx|Hx]; [by eapply single_index; [|exact Hx]|]. apply gmultiset_elem_of_disj_union in Hx as [Hx|Hx]; by eapply single_index; [|exact Hx].
  - intros j Hj. unfold is_tracked. cbn. apply bool_decide_ext. set_solver.
  - intros l Hl H. assert (is_tracked i (set_tracked (fun x => {[i]} ∪ x) s) = true) as -> by (apply bool_decide_eq_true; cbn; set_solver).
    rewrite <- (assoc_L (⊎)). destruct (is_tracked i s); fields l H.
Qed.
Lemma inv_untrack i s n X : inv s ({[+ Closed i +]} ⊎ n, X) -> inv (set_tracked (fun x => x ∖ {[i]}) s) ({[+ Removed i +]} ⊎ n, X).
Proof.
  intros HI. pose proof (part_lt _ _ _ _ _ HI eq_refl) as Hlt. apply (tracked_change i _ {[+ Closed i +]}); [done..| | |].
  - intros x [Hx|Hx]; by eapply single_index; [|exact Hx].
  - intros j Hj. unfold is_tracked. cbn. apply bool_decide_ext. set_solver.
  - intros l Hl H. assert (is_tracked i (set_tracked (fun x => x ∖ {[i]}) s) = false) as -> by (apply bool_decide_eq_false; cbn; set_solver).
    destruct (is_tracked i s); fields l H.
Qed.
(** *** Goroutines *)
Definition task_share (t : task) : gmultiset part := match task_part t with Some x => {[+ x +]} | None => ∅ end.
Lemma mult_task x t : multiplicity x (task_share t) = one (bool_decide (task_part t = Some x)).
Proof.
  unfold task_share. destruct (task_part t) as [y|]; [|by rewrite multiplicity_empty, bool_decide_false].
  destruct (decide (y = x)) as [->|Hne]; [by rewrite multiplicity_singleton_eq, bool_decide_true|].
  rewrite multiplicity_singleton_ne, bool_decide_false by congruence. done.
Qed.
Lemma idle_task n t : multiplicity (Idle n) (task_share t) = 0%nat.
Proof. rewrite mult_task, bool_decide_false; [done|]. by destruct t. Qed.
Lemma parts_go t n s x : parts n (set_w_go (w_go s ++ [(false, t)]) s) x = parts (task_share t ⊎ n) s x.
Proof.
  unfold parts. cbn [w_go set_w_go]. rewrite pending_app, pending_one, multiplicity_disj_union, mult_task. change (waiting (false, t)) with (task_part t). lia.
Qed.
Lemma begun_app k gs t : begun k (gs ++ [(false, t)]) = begun k gs.
Proof.
  unfold begun. destruct (decide (k < length gs)%nat); [by rewrite lookup_app_l|]. rewrite lookup_app_r, (lookup_ge_None_2 gs) by lia.
  by destruct (k - length gs)%nat as [|[|?]].
Qed.
Lemma loops_app i gs t : loops i (gs ++ [(false, t)]) -> loops i gs \/ t = TAccept i.
Proof. intros [b [?|[= _ <-]%list_elem_of_singleton]%elem_of_app]; [left; by exists b|by right]. Qed.
Lemma inv_go t s n X : inv s (task_share t ⊎ n, X) -> inv (set_w_go (w_go s ++ [(false, t)]) s) (n, X).
Proof.
  intros [H1 H2 H3 H4 H5 H6]. split; cbn [w_listeners w_engine w_go set_w_go fst snd] in *; try done.
  - intros i l Hl. pose proof (H1 i l Hl) as H. change (is_tracked i (set_w_go _ s)) with (is_tracked i s).
    assert (lis_ok i (look l) (is_tracked i s) (loops i (w_go s)) (parts n (set_w_go (w_go s ++ [(false, t)]) s))) as H'
      by (eapply lis_ext; [|done|exact H]; intros; apply parts_go).
    destruct H'. split; try done. intros [Hlo| ->]%loops_app; [by apply lo_loop0|]. right. rewrite !parts_go. unfold parts.
    rewrite !multiplicity_disj_union, !mult_task, (bool_decide_true (task_part (TAccept i) = Some (Accepting i))) by done. cbn [one]. lia.
  - intros x i Hi. rewrite parts_go. by apply H2.
  - intros i [?| ->]%loops_app; [auto|]. apply (H2 (Accepting i)); [done|]. unfold parts.
    rewrite multiplicity_disj_union, mult_task, bool_decide_true by done. cbn [one]. lia.
  - intros k Hk. rewrite begun_app. intros Hb. specialize (H5 k Hk Hb). rewrite multiplicity_disj_union, idle_task in H5. lia.
Qed.
Lemma loops_begin i gs k t : gs !! k = Some (false, t) -> loops i (<[k := (true, t)]> gs) -> loops i gs.
Proof.
  intros Hk [b [j Hj]%list_elem_of_lookup]. apply list_lookup_insert_Some in Hj as [(<- & [= <- ->] & _)|[_ Hj]].
  - exists false. by eapply list_elem_of_lookup_2.
  - exists b. by eapply list_elem_of_lookup_2.
Qed.
Lemma inv_begin k t s n X :
  w_go s !! k = Some (false, t) -> inv s ({[+ Idle k +]} ⊎ n, X) -> inv (set_w_go (<[k := (true, t)]> (w_go s)) s) (task_share t ⊎ n, X).
Proof.
  intros Hk [H1 H2 H3 H4 H5 H6].
  assert (forall x i, index x = Some i -> parts (task_share t ⊎ n) (set_w_go (<[k := (true, t)]> (w_go s)) s) x = parts ({[+ Idle k +]} ⊎ n) s x) as Hp.
  { intros x i Hx. rewrite parts_cons. replace (same_part x (Idle k)) with false by (by destruct x). unfold parts. cbn [w_go set_w_go one].
    rewrite multiplicity_disj_union, mult_task. pose proof (pending_begin x _ _ _ Hk). lia. }
  split; cbn [w_listeners w_engine w_go set_w_go fst snd] in *; try done.
  - intros i l Hl. change (is_tracked i (set_w_go _ s)) with (is_tracked i s). eapply lis_ext; [|by apply loops_begin|by apply H1].
    intros x Hx. by eapply Hp.
  - intros x i Hi. erewrite Hp by done. by apply H2.
  - intros i Hlo. eapply H4, loops_begin; done.
  - intros j Hj. destruct (decide (j = k)) as [->|Hne].
    + unfold begun. by rewrite list_lookup_insert_eq by by eapply lookup_lt_Some.
    + unfold begun at 1. rewrite list_lookup_insert_ne by done. intros Hb. specialize (H5 j Hj Hb). rewrite !multiplicity_disj_union, idle_task in *.
      rewrite multiplicity_singleton_ne in H5 by congruence. lia.
Qed.
Lemma inv_new l s n X :
  look l = {| lv_ctx := false; lv_ln := false; lv_closing := false; lv_done := false; lv_once := Unstarted; lv_final := Unstarted |} ->
  inv s (n, X) -> inv (set_w_listeners (w_listeners s ++ [l]) s) ({[+ Building (length (w_listeners s)) +]} ⊎ n, X).
Proof.
  intros El [H1 H2 H3 H4 H5 H6]. set (i := length (w_listeners s)). cbn [fst snd] in *.
  assert (forall x, index x = Some i -> parts n s x = 0%nat) as Hz.
  { intros x Hx. destruct (parts n s x) eqn:E; [done|]. specialize (H2 x i Hx). unfold i in *. lia. }
  assert (is_tracked i s = false) as Ht by (destruct (is_tracked i s) eqn:E; [|done]; specialize (H3 i E); unfold i in *; lia).
  assert (~ loops i (w_go s)) as Hlo by (intros E; specialize (H4 i E); unfold i in *; lia).
  split; cbn [w_listeners w_engine w_go set_w_listeners fst snd] in *; rewrite ?length_app; try done.
  - intros j l' Hj. change (is_tracked j (set_w_listeners _ s)) with (is_tracked j s). change (parts _ (set_w_listeners _ s)) with (parts ({[+ Building i +]} ⊎ n) s).
    apply lookup_snoc_Some in Hj as [[Hlt Hj]|[-> <-]].
    + eapply lis_ext; [|done|by apply H1]. intros x Hx. rewrite parts_cons. replace (same_part x (Building i)) with false; [done|].
      destruct (same_part x (Building i)) eqn:E; [|done]. apply same_part_spec in E as ->. injection Hx as <-. unfold i in Hlt. lia.
    + fold i. rewrite El, Ht. split; cbn [lv_ctx lv_ln lv_closing lv_done lv_once lv_final]; rewrite ?parts_cons, ?Hz by done; cbn [same_part one in_progress]; rewrite ?Nat.eqb_refl; cbn [one]; done || lia.
  - intros x j Hj Hc. change (parts _ (set_w_listeners _ s)) with (parts ({[+ Building i +]} ⊎ n) s) in Hc. rewrite parts_cons in Hc. cbn [length].
    destruct (same_part x (Building i)) eqn:E; [apply same_part_spec in E as ->; injection Hj as <-; unfold i; lia|]. specialize (H2 x j Hj Hc). lia.
  - intros j Hj. specialize (H3 j Hj). lia.
  - intros j Hj. specialize (H4 j Hj). lia.
  - intros k Hk Hb. rewrite multiplicity_disj_union. specialize (H5 k Hk Hb). lia.
  - intros j Hj. destruct (H6 j Hj) as (l' & Hl' & ?). exists l'. split; [|done]. by apply lookup_app_l_Some.
Qed.
(** ** Programs, by the parts they begin and end with *)
Definition cspec {A} (m : gmultiset part) (p : prog world A) (R : A -> gmultiset part) : Prop :=
  forall X, cwp p (m, X) (fun r g => g.1 = R r /\ X ⊆ g.2).
Lemma cspec_bind {A B} m (p : prog world A) (k : A -> prog world B) R R' :
  cspec m p R -> (forall r, cspec (R r) (k r) R') -> cspec m (p ≫= k) R'.
Proof.
  intros Hp Hk X. apply awp_bind. eapply awp_mono; [|apply Hp]. intros r [m' X'] [E HX]. cbn [fst snd] in E, HX. subst m'.
  eapply awp_mono; [|apply Hk]. intros r' [m'' X''] [E' HX']. cbn in *. split; [done|set_solver].
Qed.
Lemma cspec_returns {A} m (x : A) R : R x = m -> cspec m (mret x) R.
Proof. intros E X. by apply awp_ret. Qed.
Lemma cspec_sec {B} m (f : world -> world * B) R :
  (forall s n X, inv s (m ⊎ n, X) -> inv (f s).1 (R (f s).2 ⊎ n, X)) -> cspec m (atomically f) R.
Proof. intros Hf X. apply awp_atomically. intros s [n Y] HI. exists (R (f s).2, X). split; [by apply Hf|done]. Qed.
Lemma cspec_panic {B} m (f : world -> option (world * B)) R :
  (forall s n X, inv s (m ⊎ n, X) -> exists s' b, f s = Some (s', b) /\ inv s' (R b ⊎ n, X)) -> cspec m (atomic_panic f) R.
Proof.
  intros Hf X. apply awp_atomic_panic. intros s [n Y] HI. destruct (Hf s n _ HI) as (s' & b & -> & HI'). exists (R b, X). by split.
Qed.
Lemma calm_empty : calm ∅.
Proof. intros x. multiset_solver. Qed.
Lemma calm_single x : running x = false -> calm {[+ x +]}.
Proof. by intros Hx y ->%gmultiset_elem_of_singleton. Qed.
#[local] Hint Resolve calm_empty calm_single : core.
Abbreviation plain := (frames cview stalled false ws_panic).
Abbreviation patient := (frames cview (fun _ => True) false ws_panic).
Lemma cspec_plain {A} m (p : prog world A) : calm m -> plain p -> cspec m p (fun _ => m).
Proof.
  intros Hm Hp X. eapply awp_frames; [apply inv_view| |exact Hp|done]. intros s Hs. split; [done|by left].
Qed.
Lemma cspec_patient {A} (p : prog world A) : patient p -> cspec ∅ p (fun _ => ∅).
Proof. intros Hp X. eapply awp_frames; [apply inv_view| |exact Hp|done]. intros s _. split; [done|]. right. by left. Qed.
Lemma cspec_eng_bind {A B} m (p : prog Engine A) (k : A -> prog Engine B) R R' :
  cspec m (eng p) R -> (forall r, cspec (R r) (eng (k r)) R') -> cspec m (eng (p ≫= k)) R'.
Proof.
  intros Hp Hk X. apply awp_lift_bind. eapply awp_mono; [|apply Hp]. intros r [m' X'] [E HX]. cbn [fst snd] in E, HX. subst m'.
  eapply awp_mono; [|apply Hk]. intros r' [m'' X''] [E' HX']. cbn in *. split; [done|set_solver].
Qed.
Lemma cspec_eng_sec {B} m (f : Engine -> Engine * B) R :
  (forall s n X, inv s (m ⊎ n, X) -> inv (set_w_engine (f (w_engine s)).1 s) (R (f (w_engine s)).2 ⊎ n, X)) -> cspec m (eng (atomically f)) R.
Proof. intros Hf X. apply awp_lift_sec. intros s [n Y] HI. exists (R (f (w_engine s)).2, X). split; [by apply Hf|done]. Qed.
Lemma cspec_go t : cspec (task_share t) (go t) (fun _ => ∅).
Proof. apply cspec_sec. intros s n X HI. rewrite (left_id_L ∅ (⊎)). by apply inv_go. Qed.
Lemma cspec_go_with m t : cspec (task_share t ⊎ m) (go t) (fun _ => m).
Proof. apply cspec_sec. intros s n X HI. rewrite <- (assoc_L (⊎)) in HI. by apply inv_go. Qed.

(** *** initiateClose *)
Lemma cwp_initiateClose lc i cause A m X :
  only_watching i A -> calm m ->
  cwp (initiateClose lc i cause) (A ⊎ m, X) (fun _ g => g.1 = m /\ X ⊆ g.2 /\ ((exists x, x ∈ m /\ index x = Some i) -> i ∈ g.2)).
Proof.
  intros HA Hm. assert (calm (A ⊎ m)) as HAm.
  { intros x [Hx|Hx]%gmultiset_elem_of_disj_union; [|auto]. destruct HA as [-> | ->]; [multiset_solver|]. by apply gmultiset_elem_of_singleton in Hx as ->. }
  unfold initiateClose. apply awp_bind, awp_select; [done|]. intros s [n Y] HI. change ((A ⊎ m, X) ∙ (n, Y)) with (A ⊎ m ⊎ n, X ∪ Y) in HI.
  rewrite <- (assoc_L (⊎)) in HI. split.
  { destruct (lis i li_closeOnce s) eqn:E; [done| |done]. intros _. split; [done|]. left. right. by exists i. }
  intros s' won Hin. destruct (w_listeners s !! i) as [l|] eqn:Hl.
  2: { unfold lis in Hin. rewrite Hl in Hin. apply list_elem_of_singleton in Hin as [= -> ->]. exists (m, X). split.
       - destruct HA as [-> | ->]; [by rewrite (left_id_L ∅ (⊎)) in HI|]. apply lookup_ge_None in Hl. pose proof (part_lt _ _ _ _ _ HI eq_refl). lia.
       - apply awp_ret. split_and!; [done..|]. intros (x & Hx & Hi). apply lookup_ge_None in Hl.
         pose proof (ci_index _ _ _ HI x i Hi) as Hlt. cbn [fst] in Hlt. unfold parts in Hlt. rewrite !multiplicity_disj_union in Hlt.
         rewrite elem_of_multiplicity in Hx. specialize (Hlt ltac:(lia)). lia. }
  rewrite (lis_at _ _ _ Hl) in Hin. destruct (li_closeOnce l) eqn:Eo; [| by apply elem_of_nil in Hin |].
  2: { apply list_elem_of_singleton in Hin as [= -> ->]. exists (m, {[i]} ∪ X). split.
       - change ((m, {[i]} ∪ X) ∙ (n, Y)) with (m ⊎ n, {[i]} ∪ X ∪ Y). rewrite <- (assoc_L (∪)). by eapply inv_entered.
       - apply awp_ret. cbn. set_solver. }
  apply list_elem_of_singleton in Hin as [= -> ->]. exists ({[+ OncePre i +]} ⊎ m, X). split.
  { change ((({[+ OncePre i +]} ⊎ m, X) : share) ∙ (n, Y)) with ({[+ OncePre i +]} ⊎ m ⊎ n, X ∪ Y). rewrite <- (assoc_L (⊎)). by eapply inv_enter. }
  clear s n Y HI l Hl Eo. cbn [negb]. cbv zeta.
  assert (forall f x y, (forall s n X, inv s ({[+ x +]} ⊎ n, X) -> inv (on_lis i f s) ({[+ y +]} ⊎ n, X)) ->
    cspec ({[+ x +]} ⊎ m) (modify (on_lis i f)) (fun _ => {[+ y +]} ⊎ m)) as Hstep.
  { intros f x y Hf. apply cspec_sec. intros s n Z HI. rewrite <- (assoc_L (⊎)) in *. by apply Hf. }
  apply awp_bind. eapply awp_mono; [|apply (Hstep _ _ (OncePre i))]; [|intros s n Z HI; eapply inv_view; [|exact HI]; by apply on_lis_same; intros; destruct (match cause with Some _ => _ | None => _ end)].
  intros _ [m1 X1] [E1 HX1]. cbn [fst snd] in E1, HX1. subst m1. apply awp_bind.
  eapply awp_mono; [|apply (cspec_panic _ _ (fun _ => {[+ OnceClosing i +]} ⊎ m))].
  2: { intros s n Z HI. rewrite <- (assoc_L (⊎)) in HI. destruct (inv_close_channel _ _ _ _ HI) as [-> HI']. rewrite (assoc_L (⊎)) in HI'. by eexists _, _. }
  intros _ [m2 X2] [E2 HX2]. cbn [fst snd] in E2, HX2. subst m2. apply awp_bind. eapply awp_mono; [|apply Hstep, inv_cancel].
  intros _ [m3 X3] [E3 HX3]. cbn [fst snd] in E3, HX3. subst m3. apply awp_bind. eapply awp_mono; [|apply Hstep, inv_close_ln].
  intros _ [m4 X4] [E4 HX4]. cbn [fst snd] in E4, HX4. subst m4. apply awp_bind, awp_atomically. intros s [n Y] HI. exists (m, {[i]} ∪ X4). split.
  - change ((({[+ OnceLast i +]} ⊎ m, X4) : share) ∙ (n, Y)) with ({[+ OnceLast i +]} ⊎ m ⊎ n, X4 ∪ Y) in HI. rewrite <- (assoc_L (⊎)) in HI.
    change ((m, {[i]} ∪ X4) ∙ (n, Y)) with (m ⊎ n, {[i]} ∪ X4 ∪ Y). rewrite <- (assoc_L (∪)). by apply inv_finish.
  - apply awp_ret. cbn. set_solver.
Qed.
Lemma cspec_initiateClose lc i cause m : calm m -> cspec m (initiateClose lc i cause) (fun _ => m).
Proof.
  intros Hm X. rewrite <- (left_id_L ∅ (⊎) m) at 1. eapply awp_mono; [|apply cwp_initiateClose; [by left|done]]. naive_solver.
Qed.
Lemma cspec_watcher_closes lc i cause : cspec {[+ Watching i +]} (initiateClose lc i cause) (fun _ => ∅).
Proof.
  intros X. rewrite <- (right_id_L ∅ (⊎) {[+ Watching i +]}). eapply awp_mono; [|apply cwp_initiateClose; [by right|done]]. naive_solver.
Qed.

(** ** Programs that leave the listeners alone *)
Lemma plain_quiet {A} (p : prog world A) : quiet p -> plain p.
Proof. apply frames_weaken; [by intros s s' [= ? ? ? ? ? ?]; unfold cview; congruence|by left|done]. Qed.
Lemma plain_eng {A} (p : prog Engine A) : eframes e_streamListeners p -> plain (eng p).
Proof. apply frames_eng; [|by left]. intros s e E. unfold cview. cbn in *. by rewrite E. Qed.
Lemma plain_ws_channel t (get : wsListener -> bool) put :
  get = wl_closing \/ get = wl_done -> plain (close_ws_channel t get put).
Proof.
  intros Hg. apply frames_atomic_panic.
  - intros _. exists t, get. split; [done|]. intros s. rewrite panicking_section. by destruct (wsl t get s).
  - intros s s' b. by case_match; intros; simplify_eq.
Qed.
Ltac plain_leaf :=
  first
    [ apply frames_ret | apply plain_quiet; solve [auto 2 with quiet nocore] | solve [auto 2 with plain nocore] | by apply frames_stuck
    | apply frames_atomically; intros ?; cbv beta zeta; repeat case_match; reflexivity
    | apply frames_atomically; intros ?; apply on_lis_same; intros ?; cbv beta; repeat case_match; reflexivity
    | apply plain_ws_channel; auto ].
Ltac plain :=
  repeat first
    [ plain_leaf
    | apply frames_bind; [|intros ?]
    | match goal with |- frames _ _ _ _ (match ?x with _ => _ end) => destruct x end ].
Lemma plain_ws_add v : plain (eng (addWSListener v)).
Proof. apply plain_eng, add_ws_frames. Qed.
Lemma plain_ws_remove v : plain (eng (removeWSListener v)).
Proof. apply plain_eng, remove_ws_frames. Qed.
#[local] Hint Resolve plain_ws_add plain_ws_remove : plain.

(** ** The programs *)
Ltac parting_leaf := first [by apply cspec_returns | solve [eauto 2 with parting nocore] | apply cspec_plain; [by auto|solve [plain]]].
Ltac parting :=
  repeat (cbv beta iota zeta; lazymatch goal with
    | |- cspec _ (_ ≫= _) _ => eapply cspec_bind; [solve [parting]|intros ?]
    | |- cspec _ (match ?x with _ => _ end) _ => first [solve [eauto 2 with parting nocore] | destruct x]
    | |- _ => parting_leaf
    end).
Lemma cspec_close lc i cause m : calm m -> cspec m (initiateClose lc i cause) (fun _ => m).
Proof. apply cspec_initiateClose. Qed.
#[local] Hint Extern 1 (cspec _ (initiateClose _ _ _) _) => (apply cspec_close; by auto) : parting.
Lemma cspec_go_plain t : task_part t = None -> cspec ∅ (go t) (fun _ => ∅).
Proof. intros Ht. pose proof (cspec_go t) as Hg. unfold task_share in Hg. by rewrite Ht in Hg. Qed.
#[local] Hint Extern 1 (cspec ∅ (go _) _) => (apply cspec_go_plain; reflexivity) : parting.
Lemma cspec_go_accepting i t : task_part t = None -> cspec {[+ Accepting i +]} (go t) (fun _ => {[+ Accepting i +]}).
Proof.
  intros Ht. pose proof (cspec_go_with {[+ Accepting i +]} t) as Hg. unfold task_share in Hg. by rewrite Ht, (left_id_L ∅ (⊎)) in Hg.
Qed.
#[local] Hint Extern 1 (cspec {[+ Accepting _ +]} (go _) _) => (apply cspec_go_accepting; reflexivity) : parting.
Lemma patient_select {B} (cases : world -> list (world * B)) :
  (forall s s' b, (s', b) ∈ cases s -> cview s' = cview s) -> cspec ∅ (select cases) (fun _ => ∅).
Proof. intros Hc. apply cspec_patient. by apply frames_select. Qed.
Ltac branches := intros ? ? ?; cbv beta zeta; repeat case_match; rewrite ?elem_of_app, ?elem_ready, ?elem_of_nil, ?list_elem_of_singleton; naive_solver.
Lemma cspec_once get put : (forall o s, cview (put o s) = cview s) -> cspec ∅ (once_enter get put) (fun _ => ∅).
Proof. intros Hp. apply patient_select. branches. Qed.
(** A [select] of a goroutine that plays one part. *)
Lemma cspec_select {B} m (cases : world -> list (world * B)) R :
  calm m -> (forall s, cases s = [] -> resting s m) ->
  (forall s n X s' b, inv s (m ⊎ n, X) -> (s', b) ∈ cases s -> inv s' (R b ⊎ n, X)) -> cspec m (select cases) R.
Proof.
  intros Hm Hb Hc X. apply awp_select; [done|]. intros s [n Y] HI. split; [intros E; split; [done|right; by apply Hb]|].
  intros s' b Hin. exists (R b, X). split; [by eapply Hc|done].
Qed.
Lemma inv_drop_watching i s n X :
  lis i li_done s = true -> inv s ({[+ Watching i +]} ⊎ n, X) -> inv s (n, X).
Proof.
  intros Hd HI. destruct (lookup_lt_is_Some_2 _ _ (part_lt _ _ _ _ _ HI eq_refl)) as [l Hl]. rewrite (lis_at _ _ _ Hl) in Hd.
  assert (li_closeOnce l = Finished) as Hf by (apply (lo_done _ _ _ _ _ (ci_each _ _ _ HI i l Hl)); done).
  pose proof (inv_entered i {[+ Watching i +]} s n X l Hl Hf ltac:(by right) HI) as [H1 H2 H3 H4 H5 H6]. split; try done. intros j Hj. apply H6. cbn in *. set_solver.
Qed.
Lemma cspec_watchContext lc i : cspec {[+ Watching i +]} (watchContext lc i) (fun _ => ∅).
Proof.
  unfold watchContext. eapply cspec_bind with (R := fun b : bool => if b then {[+ Watching i +]} else ∅).
  - apply cspec_select; [by auto| |].
    + intros s E. right. right. left. exists i. apply app_nil in E as [E1%ready_nil E2%ready_nil]. done.
    + intros s n X s' b HI [(Hr & -> & ->)%elem_ready|(Hr & -> & ->)%elem_ready]%elem_of_app; [done|].
      rewrite (left_id_L ∅ (⊎)). by eapply inv_drop_watching.
  - intros []; [|parting]. eapply cspec_bind; [apply cspec_watcher_closes|intros ?]. parting.
Qed.
Lemma cspec_Accept i next : cspec {[+ Accepting i +]} (Accept (lis i li_lnClosed) next) (fun _ => {[+ Accepting i +]}).
Proof.
  apply cspec_select; [by auto| |].
  - intros s. destruct (lis i li_lnClosed s) eqn:E; [done|]. intros _. right. left. by exists i.
  - intros s n X s' b HI Hin. eapply inv_view; [|exact HI]. repeat case_match; rewrite ?elem_of_nil, ?list_elem_of_singleton in Hin; simplify_eq; done.
Qed.
Lemma cspec_wait i d : cspec {[+ Accepting i +]} (waitOrClosed i d) (fun _ => {[+ Accepting i +]}).
Proof.
  unfold waitOrClosed. eapply cspec_bind; [parting|intros ?]. apply cspec_select; [by auto|done|].
  intros s n X s' b HI Hin. eapply inv_view; [|exact HI]. rewrite elem_of_app, list_elem_of_singleton, elem_ready in Hin. naive_solver.
Qed.
#[local] Hint Resolve cspec_Accept cspec_wait : parting.
Lemma cspec_untrack i : cspec {[+ Closed i +]} (eng (removeStreamListener i)) (fun _ => {[+ Removed i +]}).
Proof.
  unfold removeStreamListener, removeTracked. eapply cspec_eng_bind; [apply cspec_plain; [by auto|plain]|intros ?].
  eapply cspec_eng_bind; [apply (cspec_eng_sec _ _ (fun _ => {[+ Removed i +]})); intros s n X HI; by apply inv_untrack|intros ?].
  eapply cspec_eng_bind; [apply cspec_plain; [by auto|plain]|intros ?]. apply cspec_plain; [by auto|]. plain.
Qed.
Lemma cspec_track i : cspec {[+ Building i +]} (eng (addStreamListener i)) (fun r => match r with None => {[+ Watching i +]} ⊎ {[+ Accepting i +]} | Some _ => {[+ Building i +]} end).
Proof.
  unfold addStreamListener, addTracked. eapply cspec_eng_bind; [apply cspec_plain; [by auto|plain]|intros ?].
  eapply cspec_eng_bind with (R := fun r => match r with None => {[+ Watching i +]} ⊎ {[+ Accepting i +]} | Some _ => {[+ Building i +]} end).
  - apply cspec_eng_sec. intros s n X HI. case_match; cbn [fst snd]; [|rewrite <- (assoc_L (⊎)); by apply inv_track].
    by eapply inv_view; [|exact HI].
  - intros [err|]; (eapply cspec_eng_bind; [apply cspec_plain; [|plain]|intros ?; by apply cspec_returns]); [by auto|].
    intros x [->%gmultiset_elem_of_singleton| ->%gmultiset_elem_of_singleton]%gmultiset_elem_of_disj_union; done.
Qed.
Section programs.
Context `{WebSocketLib} (pf : platform) (cfg : config) (fuel : nat) (en : surroundings).
Lemma cspec_finalize lc i : cspec {[+ Accepting i +]} (finalize cfg lc i) (fun _ => ∅).
Proof.
  intros X. unfold finalize. apply awp_bind, awp_select; [done|]. intros s [n Y] HI.
  change ((({[+ Accepting i +]} : gmultiset part, X) : share) ∙ (n, Y)) with ({[+ Accepting i +]} ⊎ n, X ∪ Y) in HI.
  destruct (inv_final _ _ _ _ HI) as [-> HI']. split; [done|]. intros s' won [= -> ->]%list_elem_of_singleton.
  exists ({[+ Finishing i +]}, X). split; [exact HI'|]. clear s n Y HI HI'. cbn [negb]. apply awp_bind.
  rewrite <- (left_id_L ∅ (⊎) {[+ Finishing i +]}) at 1. eapply awp_mono; [|apply cwp_initiateClose; [by left|by auto]].
  intros _ [m1 X1] (E1 & HX1 & Hi). cbn [fst snd] in *. subst m1. assert (i ∈ X1) as Hi1 by (apply Hi; exists (Finishing i); split; [by apply gmultiset_elem_of_singleton|done]).
  assert (forall A (p : prog world A) Y (Q : A -> share -> Prop), cspec {[+ Finishing i +]} p (fun _ => {[+ Finishing i +]}) -> i ∈ Y ->
    (forall r Y', i ∈ Y' -> Y ⊆ Y' -> Q r ({[+ Finishing i +]}, Y')) -> cwp p ({[+ Finishing i +]}, Y) Q) as Hk.
  { intros A p Y Q Hp HY HQ. eapply awp_mono; [|apply Hp]. intros r [m' Y'] [E HY']. cbn [fst snd] in *. subst m'. apply HQ; set_solver. }
  do 4 (apply awp_bind, Hk; [parting|done|]; intros ? ? ? ?). apply awp_bind, awp_atomic_panic. intros s [n Z] HI.
  change ((({[+ Finishing i +]} : gmultiset part, Y'2) : share) ∙ (n, Z)) with ({[+ Finishing i +]} ⊎ n, Y'2 ∪ Z) in HI.
  destruct (inv_close_done i s n (Y'2 ∪ Z)) as [-> HI']; [set_solver|done|]. exists ({[+ Closed i +]}, Y'2). split; [exact HI'|].
  apply awp_mono with (fun _ g => g.1 = ∅ /\ Y'2 ⊆ g.2); [intros ? [? ?] [? ?]; cbn in *; set_solver|].
  match goal with |- cwp ?p _ _ => enough (cspec {[+ Closed i +]} p (fun _ => ∅)) as Hs by apply Hs end.
  eapply cspec_bind; [apply cspec_untrack|intros ?]. apply cspec_sec. intros s1 n1 X3 HI1. rewrite (left_id_L ∅ (⊎)). by apply inv_final_over.
Qed.
#[local] Hint Resolve cspec_finalize : parting.
Lemma cspec_accept_step lc i next d : cspec {[+ Accepting i +]} (accept_step pf cfg lc i next d) (fun _ => {[+ Accepting i +]}).
Proof. unfold accept_step, isClosing, operationalError. parting. Qed.
#[local] Hint Resolve cspec_accept_step : parting.
Lemma cspec_accept_rounds lc i answers d : cspec {[+ Accepting i +]} (accept_rounds pf cfg lc i answers d) (fun _ => {[+ Accepting i +]}).
Proof. revert d. induction answers as [|a answers IH]; intros d; cbn [accept_rounds]; parting. Qed.
#[local] Hint Resolve cspec_accept_rounds : parting.
Lemma cspec_acceptLoop arr lc i : cspec {[+ Accepting i +]} (acceptLoop pf cfg arr lc i) (fun _ => ∅).
Proof. unfold acceptLoop. parting. Qed.
Lemma cspec_accept_adopt lc tls i raw e j c : cspec ∅ (accept_adopt pf cfg fuel lc tls i raw e j c) (fun _ => ∅).
Proof. unfold accept_adopt. parting. Qed.
#[local] Hint Resolve cspec_accept_adopt : parting.
Lemma cspec_handleAccepted lc tls i raw : cspec ∅ (handleAccepted pf cfg fuel lc tls i raw) (fun _ => ∅).
Proof. unfold handleAccepted. parting. Qed.
Lemma cspec_listenStream network e : cspec ∅ (listenStream pf cfg network e) (fun _ => ∅).
Proof.
  unfold listenStream. destruct (listenTCP pf network e) as [addr|]; [|parting].
  destruct (match ep_Scheme e with SchemeTLS => _ | _ => _ end) as [prep|]; [|parting]. do 3 (eapply cspec_bind; [parting|intros ?]).
  eapply cspec_bind with (R := fun i => {[+ Building i +]}); [apply cspec_sec; intros s n X HI; rewrite (left_id_L ∅ (⊎)) in HI; by apply inv_new|].
  intros i. eapply cspec_bind; [apply cspec_track|]. intros [err|]; cbv beta iota.
  - eapply cspec_bind with (R := fun _ => {[+ Building i +]}); [apply cspec_sec; intros s n X HI; by apply inv_ctx|intros ?].
    eapply cspec_bind with (R := fun _ => ∅); [apply cspec_sec; intros s n X HI; rewrite (left_id_L ∅ (⊎))|intros ?; parting].
    apply (lis_drop i _ {[+ Building i +]}); [done|by eapply part_lt|intros x; by apply single_index|]. intros l Hl H'. split; [fields l H'|done].
    intros Hf. destruct (F7 Hf) as (? & ? & ?). done.
  - eapply cspec_bind; [apply (cspec_go_with _ (TWatch i))|intros ?]. eapply cspec_bind; [apply (cspec_go (TAccept i))|intros ?]. parting.
Qed.
#[local] Hint Resolve cspec_listenStream : parting.
(** *** HTTP and WebSockets *)
Lemma cspec_Accept_http t next : cspec ∅ (Accept (wsl t wl_lnClosed) next) (fun _ => ∅).
Proof. apply patient_select. branches. Qed.
#[local] Hint Resolve cspec_Accept_http : parting.
Lemma cspec_accept_http t next : cspec ∅ (accept_http cfg fuel t next) (fun _ => ∅).
Proof. unfold accept_http, register, register_section. parting. Qed.
#[local] Hint Resolve cspec_accept_http : parting.
Lemma cspec_gated_round t next : cspec ∅ (gated_round cfg fuel t next) (fun _ => ∅).
Proof. unfold gated_round. parting. Qed.
#[local] Hint Resolve cspec_gated_round : parting.
Lemma cspec_gated_rounds t answers : cspec ∅ (gated_rounds cfg fuel t answers) (fun _ => ∅).
Proof. induction answers as [|a answers IH]; cbn [gated_rounds]; parting. Qed.
Lemma cspec_gated_handshake tls t c : cspec ∅ (gated_handshake cfg fuel tls t c) (fun _ => ∅).
Proof.
  unfold gated_handshake. eapply cspec_bind; [parting|intros [act|err]]; [|parting]. eapply cspec_bind; [parting|intros tlscfg].
  eapply cspec_bind with (R := fun _ => ∅); [|intros ?; parting]. destruct (handshake _ _); [parting|]. eapply cspec_bind; [parting|intros []]; cbn [negb]; [|parting].
  eapply cspec_bind; [apply patient_select; branches|intros ?]. parting.
Qed.
Lemma cspec_gated_Accept t : cspec ∅ (gated_Accept t) (fun _ => ∅).
Proof. unfold gated_Accept. eapply cspec_bind; [parting|intros ?]. apply patient_select. branches. Qed.
Lemma cspec_gated_Close t : cspec ∅ (gated_Close t) (fun _ => ∅).
Proof. unfold gated_Close. eapply cspec_bind; [by apply cspec_once|intros ?]. parting. Qed.
#[local] Hint Resolve cspec_gated_Accept cspec_gated_Close : parting.
Lemma cspec_close_serveLn t : cspec ∅ (close_serveLn t) (fun _ => ∅).
Proof. unfold close_serveLn. parting. Qed.
Lemma cspec_serve_failed t err : cspec ∅ (serve_failed t err) (fun _ => ∅).
Proof. unfold serve_failed. parting. Qed.
#[local] Hint Resolve cspec_close_serveLn cspec_serve_failed : parting.
Lemma cspec_serve_rounds t answers : cspec ∅ (serve_rounds cfg fuel t answers) (fun _ => ∅).
Proof. induction answers as [|a answers IH]; cbn [serve_rounds]; parting. Qed.
Lemma cspec_serve_tls_failed t err : cspec ∅ (serve_tls_failed t err) (fun _ => ∅).
Proof. unfold serve_tls_failed. eapply cspec_bind; [parting|intros []]; [parting|]. apply patient_select. branches. Qed.
#[local] Hint Resolve cspec_serve_rounds cspec_serve_tls_failed : parting.
Lemma cspec_serve_tls_rounds t answers : cspec ∅ (serve_tls_rounds t answers) (fun _ => ∅).
Proof.
  induction answers as [|a answers IH]; cbn [serve_tls_rounds]; [|parting].
  eapply cspec_bind; [apply patient_select; branches|intros ?]. parting.
Qed.
#[local] Hint Resolve cspec_serve_tls_rounds : parting.
Lemma cspec_Serve arr t : cspec ∅ (Serve cfg fuel arr t) (fun _ => ∅).
Proof. unfold Serve. parting. Qed.
Lemma cspec_server_Close t : cspec ∅ (server_Close t) (fun _ => ∅).
Proof.
  unfold server_Close. eapply cspec_bind; [parting|intros []]; [|parting]. eapply cspec_bind; [parting|intros ?]. apply patient_select. branches.
Qed.
#[local] Hint Resolve cspec_Serve cspec_server_Close : parting.
Lemma cspec_wsListener_Close lc t : cspec ∅ (wsListener_Close fuel lc t) (fun _ => ∅).
Proof. unfold wsListener_Close. eapply cspec_bind; [by apply cspec_once|intros ?]. parting. Qed.
#[local] Hint Resolve cspec_wsListener_Close : parting.
Lemma cspec_ws_watch lc t : cspec ∅ (ws_watch fuel lc t) (fun _ => ∅).
Proof. unfold ws_watch. eapply cspec_bind; [apply patient_select; branches|intros ?]. parting. Qed.
Lemma cspec_ws_serve arr lc t : cspec ∅ (ws_serve cfg fuel arr lc t) (fun _ => ∅).
Proof. unfold ws_serve. parting. Qed.
Lemma cspec_listenWebSocket network e : cspec ∅ (listenWebSocket pf cfg fuel network e) (fun _ => ∅).
Proof. unfold listenWebSocket. parting. Qed.
#[local] Hint Resolve cspec_listenWebSocket : parting.
Lemma cspec_websocket_Dial d e env : cspec ∅ (websocket_Dial cfg d e env) (fun _ => ∅).
Proof.
  unfold websocket_Dial. eapply cspec_bind; [parting|intros ?]. eapply cspec_bind with (R := fun _ => ∅); [|intros ?; parting].
  apply patient_select. branches.
Qed.
#[local] Hint Resolve cspec_websocket_Dial : parting.
Lemma cspec_dial_ws d e env : cspec ∅ (dial_ws pf cfg fuel d e env) (fun _ => ∅).
Proof. unfold dial_ws, take_admission. parting. Qed.
#[local] Hint Resolve cspec_dial_ws : parting.
Lemma cspec_dialWebSocket dials e : cspec ∅ (dialWebSocket pf cfg fuel dials e) (fun _ => ∅).
Proof. unfold dialWebSocket, newWebSocketHTTPTransport. parting. Qed.
#[local] Hint Resolve cspec_dialWebSocket : parting.

(** *** The pool *)
Lemma cspec_Listen ctx network e : cspec ∅ (Listen pf cfg fuel ctx network e) (fun _ => ∅).
Proof. unfold Listen. parting. Qed.
Lemma cspec_Dial ctx env e : cspec ∅ (Dial pf cfg fuel en ctx env e) (fun _ => ∅).
Proof. unfold Dial. parting. Qed.
Lemma cspec_close_each close ls : (forall i, cspec ∅ (close i) (fun _ => ∅)) -> cspec ∅ (close_each close ls) (fun _ => ∅).
Proof. intros Hc. induction ls as [|i ls IH]; cbn [close_each]; parting. Qed.
Lemma cspec_close_listeners set : cspec ∅ (close_listeners fuel en set) (fun _ => ∅).
Proof.
  unfold close_listeners, stream_close, ws_close. eapply cspec_bind; [apply cspec_close_each; intros ?; parting|intros ?].
  apply cspec_close_each. intros ?. parting.
Qed.
#[local] Hint Resolve cspec_Listen cspec_Dial cspec_close_listeners : parting.
Lemma cspec_op o : cspec ∅ (setup_op_prog pf cfg fuel en o) (fun _ => ∅).
Proof.
  destruct o; cbn [setup_op_prog]; unfold stream_close, ws_close; try (by parting).
  apply cspec_sec. intros s n X HI. by apply inv_ctx.
Qed.
#[local] Hint Resolve cspec_op : parting.
Lemma cspec_client ops : cspec ∅ (setup_client pf cfg fuel en ops) (fun _ => ∅).
Proof. induction ops as [|o ops IH]; cbn [setup_client]; parting. Qed.
Lemma cspec_task t : cspec (task_share t) (run_task pf cfg fuel en t) (fun _ => ∅).
Proof.
  destruct t as [i|i|i c|t|t|t|t c|t k|d e]; cbn [run_task].
  - apply cspec_watchContext.
  - apply cspec_acceptLoop.
  - apply cspec_handleAccepted.
  - apply cspec_ws_watch.
  - apply cspec_ws_serve.
  - apply cspec_gated_rounds.
  - apply cspec_gated_handshake.
  - parting.
  - parting.
Qed.
Lemma cspec_worker k : cspec {[+ Idle k +]} (worker pf cfg fuel en k) (fun _ => ∅).
Proof.
  unfold worker. eapply cspec_bind; [|apply cspec_task]. apply cspec_select; [by auto| |].
  - intros s E. right. right. right. exists k. split; [done|]. intros t Ht. by rewrite Ht in E.
  - intros s n X s' t HI Hin. destruct (w_go s !! k) as [[[] t']|] eqn:Ek; [by apply elem_of_nil in Hin| |by apply elem_of_nil in Hin].
    apply list_elem_of_singleton in Hin as [= -> ->]. by apply inv_begin.
Qed.
End programs.
End concern.

Section pool.
Context `{WebSocketLib} (pf : platform) (cfg : config) (fuel : nat) (en : surroundings) (now : Z) (workers : nat) (opss : list (list setup_op)).
Abbreviation start := (setup_pool pf cfg fuel en now workers opss).
Lemma gsum_idle k n : (gsum ((fun i => (({[+ Idle i +]} : gmultiset part), (∅ : gset nat))) <$> seq k n)).2 = ∅ /\
  forall x, multiplicity x (gsum ((fun i => (({[+ Idle i +]} : gmultiset part), (∅ : gset nat))) <$> seq k n)).1
    = match x with Idle i => one ((k <=? i) && (i <? k + n))%nat | _ => 0%nat end.
Proof.
  revert k. induction n as [|n IH]; intros k.
  - split; [done|]. intros x. change (gsum _).1 with (∅ : gmultiset part). rewrite multiplicity_empty. destruct x; try done.
    destruct (Nat.leb_spec k n), (Nat.ltb_spec n (k + 0)); cbn [andb one]; done || lia.
  - cbn [seq]. set (g := gsum ((fun i => (({[+ Idle i +]} : gmultiset part), (∅ : gset nat))) <$> seq (S k) n)) in *.
    change (gsum ((fun i => (({[+ Idle i +]} : gmultiset part), (∅ : gset nat))) <$> k :: seq (S k) n)) with (({[+ Idle k +]} ⊎ g.1, ∅ ∪ g.2)).
    destruct (IH (S k)) as [E1 E2]. fold g in E1, E2. cbn [fst snd]. rewrite E1. split; [set_solver|]. intros x. rewrite multiplicity_disj_union, E2.
    destruct x as [| | | | | | | | | |i]; try (by rewrite multiplicity_singleton_ne). destruct (decide (i = k)) as [->|Hne].
    + rewrite multiplicity_singleton_eq. destruct (Nat.leb_spec (S k) k), (Nat.leb_spec k k), (Nat.ltb_spec k (k + S n)); cbn [andb one]; lia.
    + rewrite multiplicity_singleton_ne by congruence.
      destruct (Nat.leb_spec (S k) i), (Nat.leb_spec k i), (Nat.ltb_spec i (S k + n)), (Nat.ltb_spec i (k + S n)); cbn [andb one]; lia.
Qed.
Lemma setup_closing_ok c : rtc pstep start c -> awp_ok (closing_inv workers) closing_blk false ws_panic closing_fin c.
Proof.
  eapply awp_adequate with (ms := ((fun i => (({[+ Idle i +]} : gmultiset part), (∅ : gset nat))) <$> seq 0 workers) ++ ((fun _ => (∅, ∅)) <$> opss)).
  - rewrite gsum_app. destruct (gsum_idle 0 workers) as [E1 E2]. set (g := gsum (_ <$> seq 0 workers)) in *.
    assert (gsum ((fun _ : list setup_op => ((∅, ∅) : share)) <$> opss) = gnil) as -> by (apply gsum_nil, Forall_fmap, Forall_true; done).
    rewrite gop_nil_r. split; cbn [w_listeners w_engine w_go new_world]; try done.
    + intros x i Hi. unfold parts. rewrite E2. cbn. destruct x; try done; cbn; lia.
    + intros i [b Hb]. by apply elem_of_nil in Hb.
    + intros n Hn _. rewrite E2. cbn [Nat.leb andb]. apply Nat.ltb_lt in Hn. cbn [Nat.add]. rewrite Hn. done.
    + rewrite E1. intros i Hi. set_solver.
  - apply Forall2_app; apply Forall2_fmap_2, Forall_Forall2_diag, Forall_forall; intros x _.
    + eapply awp_mono; [|apply cspec_worker]. by intros [] [? ?] [? _].
    + eapply awp_mono; [|apply cspec_client]. by intros [] [? ?] [? _].
Qed.
End pool.
