(* ===== verification/WsClosing.v ===== *)
(** * WsClosing: how a WebSocket listener closes (transport/websocket_server.go)

    [wsListener.Close] runs once, waits for the [http.Server] to stop serving, and stops it by
    closing what it accepts from; the server's goroutine closes the listener too when it
    stops first.  A goroutine owns the part it plays, and knows which listeners have their
    socket closed and which are closed completely. *)
From S2P Require Import Prelude Conc Kinds Errors Classify Endpoint NetAddr HostPort Secure.
From S2P Require Import Lifecycle Quota Limits Engine Options ActivityClock Observer Stats HttpClose Setup StreamSetup HttpTracker WsServer WsDial SetupPool Frames SetupLock SetupQuiet StreamClosing.
Local Open Scope go_scope.

Inductive wpart :=
  | GEnter (t : nat) | GCtx (t : nat) | GLn (t : nat)   (* runs the function of the gated listener's closeOnce: entered, context done, socket closed *)
  | WEnter (t : nat)   (* runs the function of closeOnce *)
  | WClosing (t : nat)   (* the same, closing is closed *)
  | WCancelled (t : nat)   (* the same, and the contexts are done *)
  | WDown (t : nat)   (* the same, and the server is shut down *)
  | WBuilding (t : nat)   (* listenWebSocket has made the listener *)
  | WServe (t : nat)   (* the goroutine that serves *)
  | WServing (t : nat)   (* the same, the server has the listener *)
  | WEnded (t : nat)   (* the same, done is closed *)
  | WWatch (t : nat).   (* watches the context *)
#[global] Instance wpart_eq_dec : EqDecision wpart.
Proof. solve_decision. Defined.
#[global] Instance wpart_countable : Countable wpart.
Proof.
  refine (inj_countable'
    (fun x => match x with
      | GEnter t => (0, t) | GCtx t => (1, t) | GLn t => (2, t) | WEnter t => (3, t) | WClosing t => (4, t) | WCancelled t => (5, t)
      | WDown t => (6, t) | WBuilding t => (7, t) | WServe t => (8, t) | WServing t => (9, t) | WEnded t => (10, t) | WWatch t => (11, t) end%nat)
    (fun '(k, t) => match k with
      | 0 => GEnter t | 1 => GCtx t | 2 => GLn t | 3 => WEnter t | 4 => WClosing t | 5 => WCancelled t
      | 6 => WDown t | 7 => WBuilding t | 8 => WServe t | 9 => WServing t | 10 => WEnded t | _ => WWatch t end%nat) _).
  by intros [].
Defined.

(** ** What the concern sees *)
Definition wtask_part (t : task) : option wpart :=
  match t with TWsServe t => Some (WServe t) | TWsWatch t => Some (WWatch t) | _ => None end.
Definition wwaiting (e : bool * task) : option wpart := if e.1 then None else wtask_part e.2.
Definition wpending (x : wpart) (gs : list (bool * task)) : nat := length (List.filter (fun e => bool_decide (wwaiting e = Some x)) gs).
Lemma wpending_app x gs gs' : wpending x (gs ++ gs') = (wpending x gs + wpending x gs')%nat.
Proof. unfold wpending. by rewrite List.filter_app, length_app. Qed.
Lemma wpending_one x e : wpending x [e] = one (bool_decide (wwaiting e = Some x)).
Proof. unfold wpending. cbn [List.filter]. by case_bool_decide. Qed.
Lemma wpending_begin x gs n t :
  gs !! n = Some (false, t) -> (wpending x (<[n := (true, t)]> gs) + one (bool_decide (wtask_part t = Some x)) = wpending x gs)%nat.
Proof.
  unfold wpending. revert n. induction gs as [|e gs IH]; intros [|n] Hn; [done..| |].
  - injection Hn as ->. change (<[0%nat := (true, t)]> ((false, t) :: gs)) with ((true, t) :: gs). cbn [List.filter].
    rewrite (bool_decide_false (wwaiting (true, t) = Some x)) by done. change (wwaiting (false, t)) with (wtask_part t). case_bool_decide; cbn [length one]; lia.
  - specialize (IH _ Hn). change (<[S n := (true, t)]> (e :: gs)) with (e :: <[n := (true, t)]> gs). cbn [List.filter]. destruct (bool_decide (wwaiting e = Some x)); cbn [length]; lia.
Qed.
Definition serves (t : nat) (gs : list (bool * task)) : Prop := exists b, (b, TWsServe t) ∈ gs.

(** ** The invariant of a listener; [c] counts the parts *)
Record wls_ok (t : nat) (l : wview) (tracked : bool) (looping : Prop) (c : wpart -> nat) : Prop := {
  wo_gonce : (c (GEnter t) + c (GCtx t) + c (GLn t))%nat = one (in_progress (wv_gonce l));
  wo_gctx : (1 <= c (GCtx t) + c (GLn t))%nat -> wv_gctx l = true;
  wo_gln : (1 <= c (GLn t))%nat -> wv_ln l = true;
  wo_gafter : wv_gonce l = Finished -> wv_gctx l = true /\ wv_ln l = true;
  wo_once : (c (WEnter t) + c (WClosing t) + c (WCancelled t) + c (WDown t))%nat = one (in_progress (wv_once l));
  wo_pre : (1 <= c (WEnter t))%nat -> wv_closing l = false;
  wo_closing : (1 <= c (WClosing t) + c (WCancelled t) + c (WDown t))%nat -> wv_closing l = true;
  wo_cancelled : (1 <= c (WCancelled t) + c (WDown t))%nat -> wv_ctx l = true;
  wo_gcancelled : (1 <= c (WCancelled t) + c (WDown t))%nat -> wv_gctx l = true;
  wo_down : (1 <= c (WDown t))%nat -> wv_shutdown l = true;
  wo_before : wv_once l = Unstarted -> wv_closing l = false;
  wo_after : wv_once l = Finished -> wv_closing l = true /\ wv_ctx l = true /\ wv_gctx l = true /\ wv_shutdown l = true /\ wv_ln l = true;
  wo_role : (c (WBuilding t) + c (WServe t) + c (WServing t) + c (WEnded t) <= 1)%nat;
  wo_tracked : (c (WServe t) + c (WServing t) + c (WEnded t))%nat = one tracked;
  wo_open : (1 <= c (WBuilding t) + c (WServe t) + c (WServing t))%nat -> wv_done l = false;
  wo_done : wv_done l = true -> wv_once l = Finished;
  wo_loop : looping -> wv_done l = true \/ (1 <= c (WServe t) + c (WServing t))%nat;
  wo_watch : tracked = true -> wv_once l = Unstarted -> (1 <= c (WWatch t))%nat;
  wo_serving : c (WServing t) = one (wv_serving l);
  wo_shut : wv_shutdown l = true -> wv_once l = Finished \/ (1 <= c (WDown t))%nat }.
Definition windex (x : wpart) : nat :=
  match x with
  | GEnter t | GCtx t | GLn t | WEnter t | WClosing t | WCancelled t | WDown t | WBuilding t | WServe t | WServing t | WEnded t | WWatch t => t
  end.
Definition wparts (m : gmultiset wpart) (s : world) (x : wpart) : nat := (multiplicity x m + wpending x (w_go s))%nat.
(** What a goroutine may know: a listener is closed completely; its socket is closed. *)
Inductive wfact := AllClosed (t : nat) | SocketClosed (t : nat).
#[global] Instance wfact_eq_dec : EqDecision wfact.
Proof. solve_decision. Defined.
#[global] Instance wfact_countable : Countable wfact.
Proof.
  refine (inj_countable' (fun x => match x with AllClosed t => inl t | SocketClosed t => inr t end)
    (fun x => match x with inl t => AllClosed t | inr t => SocketClosed t end) _).
  by intros [].
Defined.
Definition fact_of (x : wfact) : nat := match x with AllClosed t | SocketClosed t => t end.
Definition fact_ok (x : wfact) (l : wsListener) : Prop :=
  match x with AllClosed _ => wl_closeOnce l = Finished | SocketClosed _ => wl_lnClosed l = true end.
Abbreviation wshare := (gmultiset wpart * gset wfact)%type.
Definition ws_tracked (t : nat) (s : world) : bool := bool_decide (t ∈ e_wsListeners (w_engine s)).
Record wclosing_inv (s : world) (g : wshare) : Prop := {
  wi_each : forall t l, w_wsListeners s !! t = Some l -> wls_ok t (wlook l) (ws_tracked t s) (serves t (w_go s)) (wparts g.1 s);
  wi_index : forall x, (1 <= wparts g.1 s x)%nat -> (windex x < length (w_wsListeners s))%nat;
  wi_tracked : forall t, ws_tracked t s = true -> (t < length (w_wsListeners s))%nat;
  wi_loop : forall t, serves t (w_go s) -> (t < length (w_wsListeners s))%nat;
  wi_fact : forall x, x ∈ g.2 -> exists l, w_wsListeners s !! fact_of x = Some l /\ fact_ok x l }.

(** ** Blocked goroutines *)
(** Who runs the function of the gated listener's closeOnce, or of closeOnce. *)
Definition gating (x : wpart) : bool := match x with GEnter _ | GCtx _ | GLn _ => true | _ => false end.
Definition wrunning (x : wpart) : bool := match x with WEnter _ | WClosing _ | WCancelled _ | WDown _ | WServing _ => true | _ => gating x end.
Definition ungated (m : gmultiset wpart) : Prop := forall x, x ∈ m -> gating x = false.
Definition wcalm (m : gmultiset wpart) : Prop := forall x, x ∈ m -> wrunning x = false.
Definition wresting (s : world) (m : gmultiset wpart) : Prop :=
  m = ∅ \/
  (exists t, m = {[+ WServing t +]} /\ (wsl t wl_lnClosed s = false \/ wsl t wl_gctx s = false \/ wsl t wl_shutdown s = false)) \/
  (exists t, m = {[+ WWatch t +]} /\ wsl t wl_ctx s = false /\ wsl t wl_done s = false).
Definition wclosing_blk (s : world) (g : wshare) : Prop :=
  ungated g.1 /\
  (e_locked (w_engine s) = true \/ (exists t, wsl t wl_gonce s = InProgress) \/
   (wcalm g.1 /\ exists t, wsl t wl_closeOnce s = InProgress) \/
   (exists t m, g.1 = {[+ WDown t +]} ⊎ m /\ wcalm m /\ SocketClosed t ∈ g.2 /\ wsl t wl_serving s = true) \/
   wresting s g.1).
Definition wclosing_fin (g : wshare) : Prop := g.1 = ∅.
(** The panics of the stream listeners are not this concern's. *)
Definition lis_panic (P : world -> Prop) : Prop :=
  exists i get, (get = li_closing \/ get = li_done) /\ forall s, P s <-> lis i get s = true.

(** ** Counting *)
Definition same_wpart (x y : wpart) : bool :=
  match x, y with
  | GEnter i, GEnter j | GCtx i, GCtx j | GLn i, GLn j | WEnter i, WEnter j | WClosing i, WClosing j | WCancelled i, WCancelled j
  | WDown i, WDown j | WBuilding i, WBuilding j | WServe i, WServe j | WServing i, WServing j | WEnded i, WEnded j | WWatch i, WWatch j => (i =? j)%nat
  | _, _ => false
  end.
Lemma same_wpart_spec x y : same_wpart x y = true <-> x = y.
Proof. destruct x, y; cbn; rewrite ?Nat.eqb_eq; naive_solver. Qed.
Lemma wparts_cons x y m s : wparts ({[+ x +]} ⊎ m) s y = (one (same_wpart y x) + wparts m s y)%nat.
Proof.
  unfold wparts. rewrite multiplicity_disj_union. destruct (same_wpart y x) eqn:E.
  - apply same_wpart_spec in E as ->. rewrite multiplicity_singleton_eq. cbn [one]. lia.
  - rewrite multiplicity_singleton_ne; [cbn [one]; lia|]. intros Hxy. apply same_wpart_spec in Hxy. congruence.
Qed.
Lemma wparts_self x m s : wparts ({[+ x +]} ⊎ m) s x = S (wparts m s x).
Proof. rewrite wparts_cons. by rewrite (proj2 (same_wpart_spec x x)). Qed.
Lemma wls_ext t l b P P' c c' :
  (forall x, windex x = t -> c' x = c x) -> (P' -> P) -> wls_ok t l b P c -> wls_ok t l b P' c'.
Proof. intros Hc HP []. split; rewrite ?Hc by done; auto. Qed.
Lemma wsl_at t s l : w_wsListeners s !! t = Some l -> forall A (f : wsListener -> A), wsl t f s = f l.
Proof. intros Hl A f. unfold wsl. by rewrite Hl. Qed.
Abbreviation wwp := (awp wclosing_inv wclosing_blk false lis_panic).
Lemma fact_look x l l' : wlook l' = wlook l -> fact_ok x l -> fact_ok x l'.
Proof. intros [= ? ? ? ? ? ? ? ? ?]. destruct x; cbn; congruence. Qed.
Lemma wclosing_view s s' g : wsee s' = wsee s -> wclosing_inv s g -> wclosing_inv s' g.
Proof.
  intros [= E1 E2 E3] [H1 H2 H3 H4 H6].
  assert (length (w_wsListeners s') = length (w_wsListeners s)) as El by (by rewrite <- !(length_fmap wlook), E1).
  assert (forall i l, w_wsListeners s' !! i = Some l -> exists l', w_wsListeners s !! i = Some l' /\ wlook l' = wlook l) as Hl.
  { intros i l Hi. assert ((wlook <$> w_wsListeners s') !! i = Some (wlook l)) as Hi' by (by rewrite list_lookup_fmap, Hi).
    rewrite E1, list_lookup_fmap in Hi'. apply fmap_Some in Hi' as (l' & ? & ?). by exists l'. }
  unfold ws_tracked, wparts in *. split; unfold ws_tracked, wparts; rewrite ?E2, ?E3, ?El; try done.
  - intros i l (l' & Hi & <-)%Hl. by apply H1.
  - intros x Hx. destruct (H6 x Hx) as (l & Hl' & Hf). destruct (lookup_lt_is_Some_2 (w_wsListeners s') (fact_of x)) as [l' Hi']; [rewrite El; by eapply lookup_lt_Some|].
    exists l'. split; [done|]. apply Hl in Hi' as (l2 & Hl2 & E). assert (l2 = l) as -> by congruence. by eapply fact_look; [symmetry; exact E|].
Qed.
(** One listener changes. *)
Lemma wls_change t f A B s n X :
  wclosing_inv s (A ⊎ n, X) -> (t < length (w_wsListeners s))%nat -> (forall x, x ∈ A \/ x ∈ B -> windex x = t) ->
  (forall l, w_wsListeners s !! t = Some l -> wls_ok t (wlook l) (ws_tracked t s) (serves t (w_go s)) (wparts (A ⊎ n) s) ->
     wls_ok t (wlook (f l)) (ws_tracked t s) (serves t (w_go s)) (wparts (B ⊎ n) s) /\ (forall x, fact_ok x l -> fact_ok x (f l))) ->
  wclosing_inv (on_wsl t f s) (B ⊎ n, X).
Proof.
  intros [H1 H2 H3 H4 H6] Hlt Hx Hf. destruct (lookup_lt_is_Some_2 _ _ Hlt) as [l0 Hl0]. cbn [fst snd] in *.
  destruct (Hf l0 Hl0 (H1 t l0 Hl0)) as [Hok Hfin].
  assert (forall y, windex y <> t -> wparts (B ⊎ n) s y = wparts (A ⊎ n) s y) as Hother.
  { intros y Hy. unfold wparts. rewrite !multiplicity_disj_union. f_equal. f_equal.
    assert (y ∉ A /\ y ∉ B) as [Ha Hb] by (split; intros Hin; specialize (Hx y ltac:(auto)); congruence).
    rewrite not_elem_of_multiplicity in Ha, Hb. lia. }
  unfold on_wsl. split; cbn [w_wsListeners set_w_wsListeners w_engine w_go fst snd]; rewrite ?length_alter; try done.
  - intros j l Hj. change (wparts (B ⊎ n) (set_w_wsListeners _ s)) with (wparts (B ⊎ n) s). change (ws_tracked j (set_w_wsListeners _ s)) with (ws_tracked j s).
    destruct (decide (j = t)) as [->|Hne].
    + rewrite list_lookup_alter_eq, Hl0 in Hj. by injection Hj as <-.
    + rewrite list_lookup_alter_ne in Hj by done. eapply wls_ext; [|done|by apply H1]. intros x Hxi. apply Hother. congruence.
  - intros x Hc. change (wparts (B ⊎ n) (set_w_wsListeners _ s)) with (wparts (B ⊎ n) s) in Hc.
    destruct (decide (windex x = t)) as [->|Hne]; [done|]. apply H2. by rewrite <- Hother.
  - intros x Hj. destruct (H6 x Hj) as (l & Hl & Hfi). destruct (decide (fact_of x = t)) as [<-|Hne].
    + exists (f l). rewrite list_lookup_alter_eq, Hl. simplify_eq. auto.
    + exists l. by rewrite list_lookup_alter_ne.
Qed.

Ltac wtoks := rewrite ?wparts_cons in *; cbn [same_wpart one] in *; rewrite ?Nat.eqb_refl in *; cbn [one] in *.
(** The fields of [wls_ok], from those before. *)
Ltac wfield := intros; first [done | lia | match goal with F : (1 <= _)%nat -> _ |- _ => apply F; lia end | by auto | exfalso; lia
  | split_and!; first [done | match goal with F : (1 <= _)%nat -> _ |- _ => apply F; lia end]].
Ltac wsimpl := cbn [wlook cancel_ws set_gctx wv_ctx wv_gctx wv_gonce wv_ln wv_serving wv_shutdown wv_closing wv_done wv_once wl_ctx wl_gctx wl_gonce wl_lnClosed wl_serving
  wl_shutdown wl_closing wl_done wl_closeOnce set_wl_ctx set_wl_gctx set_wl_gonce set_wl_lnClosed set_wl_serving set_wl_shutdown set_wl_closing set_wl_done set_wl_closeOnce] in *.
Ltac wfields l H :=
  repeat match goal with HI : wclosing_inv _ _ |- _ => clear HI | Hl : w_wsListeners _ !! _ = Some _ |- _ => clear Hl end;
  destruct H as [F1 F2 F3 F4 F5 F6 F7 F8 F9 F10 F11 F12 F13 F14 F15 F16 F17 F18 F19 F20];
  destruct l as [? ? ? ? ? ? ? ? ctx gctx ? gon ? ln srv shut cl dn onc ? ? ?]; wsimpl; split; wsimpl; wtoks;
  try (by wfield); try (destruct onc; cbn [in_progress one] in *; by wfield); try (destruct gon; cbn [in_progress one] in *; by wfield).
Lemma wpart_lt t x s n X : wclosing_inv s ({[+ x +]} ⊎ n, X) -> windex x = t -> (t < length (w_wsListeners s))%nat.
Proof. intros HI <-. apply (wi_index _ _ HI x). cbn [fst]. rewrite wparts_self. lia. Qed.
Lemma wpart_at t x s n X : wclosing_inv s ({[+ x +]} ⊎ n, X) -> windex x = t ->
  exists l, w_wsListeners s !! t = Some l /\ wls_ok t (wlook l) (ws_tracked t s) (serves t (w_go s)) (wparts ({[+ x +]} ⊎ n) s).
Proof. intros HI Hx. destruct (lookup_lt_is_Some_2 _ _ (wpart_lt _ _ _ _ _ HI Hx)) as [l Hl]. exists l. split; [done|]. by apply (wi_each _ _ HI). Qed.
Definition keeps (f : wsListener -> wsListener) : Prop := forall x l, fact_ok x l -> fact_ok x (f l).
Lemma wls_swap t f x y s n X :
  wclosing_inv s ({[+ x +]} ⊎ n, X) -> windex x = t -> windex y = t -> keeps f ->
  (forall l, w_wsListeners s !! t = Some l -> wls_ok t (wlook l) (ws_tracked t s) (serves t (w_go s)) (wparts ({[+ x +]} ⊎ n) s) ->
     wls_ok t (wlook (f l)) (ws_tracked t s) (serves t (w_go s)) (wparts ({[+ y +]} ⊎ n) s)) ->
  wclosing_inv (on_wsl t f s) ({[+ y +]} ⊎ n, X).
Proof.
  intros HI Hx Hy Hk Hf. eapply wls_change; [exact HI|by eapply wpart_lt| |].
  - intros z [->%gmultiset_elem_of_singleton| ->%gmultiset_elem_of_singleton]; done.
  - intros l Hl H. split; [by apply Hf|intros z; apply Hk].
Qed.
Lemma wls_drop t f A s n X :
  wclosing_inv s (A ⊎ n, X) -> (t < length (w_wsListeners s))%nat -> (forall x, x ∈ A -> windex x = t) -> keeps f ->
  (forall l, w_wsListeners s !! t = Some l -> wls_ok t (wlook l) (ws_tracked t s) (serves t (w_go s)) (wparts (A ⊎ n) s) ->
     wls_ok t (wlook (f l)) (ws_tracked t s) (serves t (w_go s)) (wparts n s)) ->
  wclosing_inv (on_wsl t f s) (n, X).
Proof.
  intros HI Hlt Hx Hk Hf. rewrite <- (left_id_L ∅ (⊎) n). eapply wls_change; [exact HI|done| |].
  - intros x [?|Hin]; [auto|]. multiset_solver.
  - intros l Hl H. rewrite (left_id_L ∅ (⊎) n). split; [by apply Hf|intros z; apply Hk].
Qed.
Lemma wsingle_index t x y : windex x = t -> y ∈ ({[+ x +]} : gmultiset wpart) -> windex y = t.
Proof. by intros Hx ->%gmultiset_elem_of_singleton. Qed.
Lemma wadd_fact x s n X l : wclosing_inv s (n, X) -> w_wsListeners s !! fact_of x = Some l -> fact_ok x l -> wclosing_inv s (n, {[x]} ∪ X).
Proof. intros [H1 H2 H3 H4 H6] Hl Hi. split; try done. intros j. cbn [snd]. rewrite elem_of_union, elem_of_singleton. intros [->|?]; eauto. Qed.
Lemma keeps_other f : (forall l, wl_closeOnce (f l) = wl_closeOnce l) -> (forall l, wl_lnClosed (f l) = wl_lnClosed l) -> keeps f.
Proof. intros H1 H2 [] l; cbn; rewrite ?H1, ?H2; done. Qed.
#[local] Hint Extern 1 (keeps _) => (by apply keeps_other) : core.
Lemma keeps_ln : keeps (set_wl_lnClosed true).
Proof. by intros [] l. Qed.
Lemma keeps_finished : keeps (set_wl_closeOnce Finished).
Proof. by intros [] l. Qed.
#[local] Hint Resolve keeps_ln keeps_finished : core.
(** ** Sections of the gated listener's Close *)
Lemma w_free t f s n X :
  keeps f ->
  (forall l b P c, wls_ok t (wlook l) b P c -> wls_ok t (wlook (f l)) b P c) ->
  wclosing_inv s (n, X) -> wclosing_inv (on_wsl t f s) (n, X).
Proof.
  intros Hk Hf HI. destruct (decide (t < length (w_wsListeners s))%nat) as [Hlt|Hge].
  - apply (wls_drop t _ ∅); [by rewrite (left_id_L ∅ (⊎))|done|multiset_solver|done|]. intros l Hl H. rewrite (left_id_L ∅ (⊎)) in H. by apply Hf.
  - eapply wclosing_view; [|exact HI]. unfold wsee, on_wsl. cbn. rewrite alter_none; [done|]. by apply lookup_ge_None; lia.
Qed.
Lemma wls_gctx t l b P c : wls_ok t (wlook l) b P c -> wls_ok t (wlook (set_gctx l)) b P c.
Proof. intros H. wfields l H; naive_solver. Qed.
Lemma wls_cancel t l b P c : wls_ok t (wlook l) b P c -> wls_ok t (wlook (cancel_ws l)) b P c.
Proof. intros H. wfields l H; naive_solver. Qed.
Lemma wls_ln t l b P c : wls_ok t (wlook l) b P c -> wls_ok t (wlook (set_wl_lnClosed true l)) b P c.
Proof. intros H. wfields l H; naive_solver. Qed.
Lemma w_gctx t s n X : wclosing_inv s (n, X) -> wclosing_inv (on_wsl t set_gctx s) (n, X).
Proof. apply w_free; [by auto|]. intros l b P c. apply wls_gctx. Qed.
Lemma w_cancel t s n X : wclosing_inv s (n, X) -> wclosing_inv (on_wsl t cancel_ws s) (n, X).
Proof. apply w_free; [by auto|]. intros l b P c. apply wls_cancel. Qed.
Lemma w_ln t s n X : wclosing_inv s (n, X) -> wclosing_inv (on_wsl t (set_wl_lnClosed true) s) (n, X).
Proof. apply w_free; [by auto|]. intros l b P c. apply wls_ln. Qed.
Lemma wg_enter t s n X l :
  w_wsListeners s !! t = Some l -> wl_gonce l = Unstarted -> wclosing_inv s (n, X) -> wclosing_inv (on_wsl t (set_wl_gonce InProgress) s) ({[+ GEnter t +]} ⊎ n, X).
Proof.
  intros Hl Hu HI. rewrite <- (left_id_L ∅ (⊎) n) in HI. eapply wls_change; [exact HI|by eapply lookup_lt_Some| |].
  - intros x [Hx| ->%gmultiset_elem_of_singleton]; [multiset_solver|done].
  - intros l' Hl' H. simplify_eq. rewrite (left_id_L ∅ (⊎)) in H. split; [wfields l H|by intros []].
Qed.
Lemma wg_ctx t s n X : wclosing_inv s ({[+ GEnter t +]} ⊎ n, X) -> wclosing_inv (on_wsl t set_gctx s) ({[+ GCtx t +]} ⊎ n, X).
Proof. intros HI. apply (wls_swap _ _ (GEnter t)); [done..|by auto|]. intros l Hl H. wfields l H; naive_solver. Qed.
Lemma wg_ln t s n X : wclosing_inv s ({[+ GCtx t +]} ⊎ n, X) -> wclosing_inv (on_wsl t (set_wl_lnClosed true) s) ({[+ GLn t +]} ⊎ n, X).
Proof. intros HI. apply (wls_swap _ _ (GCtx t)); [done..|by auto|]. intros l Hl H. wfields l H; naive_solver. Qed.
Lemma wg_finish t s n X : wclosing_inv s ({[+ GLn t +]} ⊎ n, X) -> wclosing_inv (on_wsl t (set_wl_gonce Finished) s) (n, {[SocketClosed t]} ∪ X).
Proof.
  intros HI. destruct (wpart_at t _ _ _ _ HI eq_refl) as (l & Hl & H).
  apply (wadd_fact _ _ _ _ (set_wl_gonce Finished l)); [|cbn; by rewrite list_lookup_alter_eq, Hl|].
  - apply (wls_drop t _ {[+ GLn t +]}); [done|by eapply wpart_lt|intros x; by apply wsingle_index|by auto|]. intros l' Hl' H'. wfields l' H'.
  - cbn. apply (wo_gln _ _ _ _ _ H). wtoks. lia.
Qed.
(** ** Sections of Close *)
Definition wonly_watching (t : nat) (A : gmultiset wpart) : Prop := A = ∅ \/ A = {[+ WWatch t +]}.
Lemma windex_watching t A x : wonly_watching t A -> x ∈ A -> windex x = t.
Proof. intros [-> | ->]; [multiset_solver|]. by intros ->%gmultiset_elem_of_singleton. Qed.
Lemma w_enter t A s n X l :
  w_wsListeners s !! t = Some l -> wl_closeOnce l = Unstarted -> wonly_watching t A -> wclosing_inv s (A ⊎ n, X) ->
  wclosing_inv (on_wsl t (set_wl_closeOnce InProgress) s) ({[+ WEnter t +]} ⊎ n, X).
Proof.
  intros Hl Hu HA HI. eapply wls_change; [exact HI|by eapply lookup_lt_Some| |].
  - intros x [Hx| ->%gmultiset_elem_of_singleton]; [by eapply windex_watching|done].
  - intros l' Hl' H. simplify_eq. split; [|intros [] ?; cbn in *; congruence].
    destruct HA as [-> | ->]; [rewrite (left_id_L ∅ (⊎)) in H|]; wfields l H; naive_solver.
Qed.
Lemma w_entered t A s n X l :
  w_wsListeners s !! t = Some l -> wl_closeOnce l = Finished -> wonly_watching t A -> wclosing_inv s (A ⊎ n, X) -> wclosing_inv s (n, {[AllClosed t]} ∪ X).
Proof.
  intros Hl Hu HA HI. apply (wadd_fact _ _ _ _ l); [|done..]. apply (wclosing_view (on_wsl t id s)); [symmetry; by apply on_wsl_same|].
  apply (wls_drop t _ A); [done|by eapply lookup_lt_Some|intros x; by apply windex_watching|by apply keeps_other|].
  intros l' Hl' H. simplify_eq. destruct HA as [-> | ->]; [by rewrite (left_id_L ∅ (⊎)) in H|]. wfields l H.
Qed.
Lemma w_close_channel t s n X :
  wclosing_inv s ({[+ WEnter t +]} ⊎ n, X) -> wsl t wl_closing s = false /\ wclosing_inv (on_wsl t (set_wl_closing true) s) ({[+ WClosing t +]} ⊎ n, X).
Proof.
  intros HI. split.
  - destruct (wpart_at t _ _ _ _ HI eq_refl) as (l & Hl & H). rewrite (wsl_at _ _ _ Hl). apply (wo_pre _ _ _ _ _ H). wtoks. lia.
  - apply (wls_swap _ _ (WEnter t)); [done..|by auto|]. intros l Hl H. wfields l H.
Qed.
Lemma w_cancelled t s n X : wclosing_inv s ({[+ WClosing t +]} ⊎ n, X) -> wclosing_inv (on_wsl t cancel_ws s) ({[+ WCancelled t +]} ⊎ n, X).
Proof. intros HI. apply (wls_swap _ _ (WClosing t)); [done..|by auto|]. intros l Hl H. wfields l H; naive_solver. Qed.
Lemma w_down t s n X : wclosing_inv s ({[+ WCancelled t +]} ⊎ n, X) -> wclosing_inv (on_wsl t (set_wl_shutdown true) s) ({[+ WDown t +]} ⊎ n, X).
Proof. intros HI. apply (wls_swap _ _ (WCancelled t)); [done..|by auto|]. intros l Hl H. wfields l H; naive_solver. Qed.
Lemma w_finish t s n X :
  SocketClosed t ∈ X -> wclosing_inv s ({[+ WDown t +]} ⊎ n, X) -> wclosing_inv (on_wsl t (set_wl_closeOnce Finished) s) (n, {[AllClosed t]} ∪ X).
Proof.
  intros Hs HI. destruct (wpart_at t _ _ _ _ HI eq_refl) as (l & Hl & H). destruct (wi_fact _ _ HI _ Hs) as (l' & Hl' & Hf).
  cbn in Hl', Hf. assert (l' = l) as -> by congruence.
  apply (wadd_fact _ _ _ _ (set_wl_closeOnce Finished l)); [|cbn; by rewrite list_lookup_alter_eq, Hl|done].
  apply (wls_drop t _ {[+ WDown t +]}); [done|by eapply wpart_lt|intros x; by apply wsingle_index|by auto|].
  intros l2 Hl2 H2. assert (l2 = l) as -> by congruence. clear H. wfields l H2.
Qed.
(** ** Sections of the server's goroutine *)
Lemma w_serving t s n X :
  wclosing_inv s ({[+ WServe t +]} ⊎ n, X) -> wclosing_inv (on_wsl t (set_wl_serving true) s) ({[+ WServing t +]} ⊎ n, X).
Proof.
  intros HI. apply (wls_swap _ _ (WServe t)); [done..|by auto|]. intros l Hl H. wfields l H.
Qed.
Lemma w_served t s n X :
  wclosing_inv s ({[+ WServing t +]} ⊎ n, X) -> wclosing_inv (on_wsl t (set_wl_serving false) s) ({[+ WServe t +]} ⊎ n, X).
Proof.
  intros HI. apply (wls_swap _ _ (WServing t)); [done..|by auto|]. intros l Hl H. wfields l H.
Qed.
Lemma w_close_done t s n X :
  AllClosed t ∈ X -> wclosing_inv s ({[+ WServe t +]} ⊎ n, X) -> wsl t wl_done s = false /\ wclosing_inv (on_wsl t (set_wl_done true) s) ({[+ WEnded t +]} ⊎ n, X).
Proof.
  intros Hi HI. destruct (wpart_at t _ _ _ _ HI eq_refl) as (l & Hl & H0). destruct (wi_fact _ _ HI _ Hi) as (l' & Hl' & Hf).
  cbn in Hl', Hf. assert (l' = l) as -> by congruence. split.
  - rewrite (wsl_at _ _ _ Hl). apply (wo_open _ _ _ _ _ H0). wtoks. lia.
  - apply (wls_swap _ _ (WServe t)); [done..|by auto|]. intros l2 Hl2 H2. assert (l2 = l) as -> by congruence. clear H0. wfields l H2; by auto.
Qed.
(** *** The Engine's set of listeners *)
Definition set_ws_tracked (f : gset nat -> gset nat) (s : world) : world := set_w_engine (set_listeners WSListener f (w_engine s)) s.
Lemma ws_tracked_change t f A B s n X :
  wclosing_inv s (A ⊎ n, X) -> (t < length (w_wsListeners s))%nat -> (forall x, x ∈ A \/ x ∈ B -> windex x = t) ->
  (forall j, j <> t -> ws_tracked j (set_ws_tracked f s) = ws_tracked j s) ->
  (forall l, w_wsListeners s !! t = Some l -> wls_ok t (wlook l) (ws_tracked t s) (serves t (w_go s)) (wparts (A ⊎ n) s) ->
     wls_ok t (wlook l) (ws_tracked t (set_ws_tracked f s)) (serves t (w_go s)) (wparts (B ⊎ n) s)) ->
  wclosing_inv (set_ws_tracked f s) (B ⊎ n, X).
Proof.
  intros [H1 H2 H3 H4 H6] Hlt Hx Ht Hf. destruct (lookup_lt_is_Some_2 _ _ Hlt) as [l0 Hl0]. cbn [fst snd] in *.
  pose proof (Hf l0 Hl0 (H1 t l0 Hl0)) as Hok.
  assert (forall y, windex y <> t -> wparts (B ⊎ n) s y = wparts (A ⊎ n) s y) as Hother.
  { intros y Hy. unfold wparts. rewrite !multiplicity_disj_union. f_equal. f_equal.
    assert (y ∉ A /\ y ∉ B) as [Ha Hb] by (split; intros Hin; specialize (Hx y ltac:(auto)); congruence).
    rewrite not_elem_of_multiplicity in Ha, Hb. lia. }
  split; cbn [w_wsListeners set_ws_tracked set_w_engine w_engine w_go fst snd]; try done.
  - intros j l Hj. change (wparts (B ⊎ n) (set_ws_tracked f s)) with (wparts (B ⊎ n) s). destruct (decide (j = t)) as [->|Hne]; [by simplify_eq|].
    rewrite Ht by done. eapply wls_ext; [|done|by apply H1]. intros x Hxi. apply Hother. congruence.
  - intros x Hc. change (wparts (B ⊎ n) (set_ws_tracked f s)) with (wparts (B ⊎ n) s) in Hc.
    destruct (decide (windex x = t)) as [->|Hne]; [done|]. apply H2. by rewrite <- Hother.
  - intros j Hj. destruct (decide (j = t)) as [->|Hne]; [done|]. apply H3. by rewrite <- Ht.
Qed.
Lemma w_track t s n X : wclosing_inv s ({[+ WBuilding t +]} ⊎ n, X) -> wclosing_inv (set_ws_tracked (fun x => {[t]} ∪ x) s) ({[+ WWatch t +]} ⊎ ({[+ WServe t +]} ⊎ n), X).
Proof.
  intros HI. pose proof (wpart_lt t _ _ _ _ HI eq_refl) as Hlt. rewrite (assoc_L (⊎)). apply (ws_tracked_change t _ {[+ WBuilding t +]}); [done..| | |].
  - intros x [Hx|Hx]; [by eapply wsingle_index; [|exact Hx]|]. apply gmultiset_elem_of_disj_union in Hx as [Hx|Hx]; by eapply wsingle_index; [|exact Hx].
  - intros j Hj. unfold ws_tracked. cbn. apply bool_decide_ext. set_solver.
  - intros l Hl H. assert (ws_tracked t (set_ws_tracked (fun x => {[t]} ∪ x) s) = true) as -> by (apply bool_decide_eq_true; cbn; set_solver).
    rewrite <- (assoc_L (⊎)). destruct (ws_tracked t s); wfields l H.
Qed.
Lemma w_untrack t s n X : wclosing_inv s ({[+ WEnded t +]} ⊎ n, X) -> wclosing_inv (set_ws_tracked (fun x => x ∖ {[t]}) s) (n, X).
Proof.
  intros HI. pose proof (wpart_lt t _ _ _ _ HI eq_refl) as Hlt. rewrite <- (left_id_L ∅ (⊎) n). apply (ws_tracked_change t _ {[+ WEnded t +]}); [done..| | |].
  - intros x [Hx|Hx]; [by eapply wsingle_index; [|exact Hx]|]. multiset_solver.
  - intros j Hj. unfold ws_tracked. cbn. apply bool_decide_ext. set_solver.
  - intros l Hl H. assert (ws_tracked t (set_ws_tracked (fun x => x ∖ {[t]}) s) = false) as -> by (apply bool_decide_eq_false; cbn; set_solver).
    rewrite (left_id_L ∅ (⊎)). destruct (ws_tracked t s); wfields l H.
Qed.
(** *** Goroutines *)
Definition wtask_share (t : task) : gmultiset wpart := match wtask_part t with Some x => {[+ x +]} | None => ∅ end.
Lemma mult_wtask x t : multiplicity x (wtask_share t) = one (bool_decide (wtask_part t = Some x)).
Proof.
  unfold wtask_share. destruct (wtask_part t) as [y|]; [|by rewrite multiplicity_empty, bool_decide_false].
  destruct (decide (y = x)) as [->|Hne]; [by rewrite multiplicity_singleton_eq, bool_decide_true|].
  rewrite multiplicity_singleton_ne, bool_decide_false by congruence. done.
Qed.
Lemma wparts_go t n s x : wparts n (set_w_go (w_go s ++ [(false, t)]) s) x = wparts (wtask_share t ⊎ n) s x.
Proof.
  unfold wparts. cbn [w_go set_w_go]. rewrite wpending_app, wpending_one, multiplicity_disj_union, mult_wtask. change (wwaiting (false, t)) with (wtask_part t). lia.
Qed.
Lemma serves_app i gs t : serves i (gs ++ [(false, t)]) -> serves i gs \/ t = TWsServe i.
Proof. intros [b [?|[= _ <-]%list_elem_of_singleton]%elem_of_app]; [left; by exists b|by right]. Qed.
Lemma w_go_stmt t s n X : wclosing_inv s (wtask_share t ⊎ n, X) -> wclosing_inv (set_w_go (w_go s ++ [(false, t)]) s) (n, X).
Proof.
  intros [H1 H2 H3 H4 H6]. split; cbn [w_wsListeners w_engine w_go set_w_go fst snd] in *; try done.
  - intros i l Hl. pose proof (H1 i l Hl) as H. change (ws_tracked i (set_w_go _ s)) with (ws_tracked i s).
    assert (wls_ok i (wlook l) (ws_tracked i s) (serves i (w_go s)) (wparts n (set_w_go (w_go s ++ [(false, t)]) s))) as H'
      by (eapply wls_ext; [|done|exact H]; intros; apply wparts_go).
    destruct H'. split; try done. intros [Hlo| ->]%serves_app; [by auto|]. right. rewrite !wparts_go. unfold wparts.
    rewrite !multiplicity_disj_union, !mult_wtask, (bool_decide_true (wtask_part (TWsServe i) = Some (WServe i))) by done. cbn [one]. lia.
  - intros x. rewrite wparts_go. by apply H2.
  - intros i [?| ->]%serves_app; [auto|]. apply (H2 (WServe i)). unfold wparts.
    rewrite multiplicity_disj_union, mult_wtask, bool_decide_true by done. cbn [one]. lia.
Qed.
Lemma serves_begin i gs k t : gs !! k = Some (false, t) -> serves i (<[k := (true, t)]> gs) -> serves i gs.
Proof.
  intros Hk [b [j Hj]%list_elem_of_lookup]. apply list_lookup_insert_Some in Hj as [(<- & [= <- ->] & _)|[_ Hj]].
  - exists false. by eapply list_elem_of_lookup_2.
  - exists b. by eapply list_elem_of_lookup_2.
Qed.
Lemma w_begin k t s n X :
  w_go s !! k = Some (false, t) -> wclosing_inv s (n, X) -> wclosing_inv (set_w_go (<[k := (true, t)]> (w_go s)) s) (wtask_share t ⊎ n, X).
Proof.
  intros Hk [H1 H2 H3 H4 H6].
  assert (forall x, wparts (wtask_share t ⊎ n) (set_w_go (<[k := (true, t)]> (w_go s)) s) x = wparts n s x) as Hp.
  { intros x. unfold wparts. cbn [w_go set_w_go]. rewrite multiplicity_disj_union, mult_wtask. pose proof (wpending_begin x _ _ _ Hk). lia. }
  split; cbn [w_wsListeners w_engine w_go set_w_go fst snd] in *; try done.
  - intros i l Hl. change (ws_tracked i (set_w_go _ s)) with (ws_tracked i s). eapply wls_ext; [|by apply serves_begin|by apply H1]. intros x _. apply Hp.
  - intros x. rewrite Hp. by apply H2.
  - intros i Hlo. eapply H4, serves_begin; done.
Qed.
Lemma w_new l s n X :
  wlook l = {| wv_ctx := false; wv_gctx := false; wv_gonce := Unstarted; wv_ln := false; wv_serving := false; wv_shutdown := false; wv_closing := false; wv_done := false; wv_once := Unstarted |} ->
  wclosing_inv s (n, X) -> wclosing_inv (set_w_wsListeners (w_wsListeners s ++ [l]) s) ({[+ WBuilding (length (w_wsListeners s)) +]} ⊎ n, X).
Proof.
  intros El [H1 H2 H3 H4 H6]. set (i := length (w_wsListeners s)). cbn [fst snd] in *.
  assert (forall x, windex x = i -> wparts n s x = 0%nat) as Hz.
  { intros x Hx. destruct (wparts n s x) eqn:E; [done|]. specialize (H2 x). unfold i in *. lia. }
  assert (ws_tracked i s = false) as Ht by (destruct (ws_tracked i s) eqn:E; [|done]; specialize (H3 i E); unfold i in *; lia).
  assert (~ serves i (w_go s)) as Hlo by (intros E; specialize (H4 i E); unfold i in *; lia).
  split; cbn [w_wsListeners w_engine w_go set_w_wsListeners fst snd] in *; rewrite ?length_app; try done.
  - intros j l' Hj. change (ws_tracked j (set_w_wsListeners _ s)) with (ws_tracked j s). change (wparts _ (set_w_wsListeners _ s)) with (wparts ({[+ WBuilding i +]} ⊎ n) s).
    apply lookup_snoc_Some in Hj as [[Hlt Hj]|[-> <-]].
    + eapply wls_ext; [|done|by apply H1]. intros x Hx. rewrite wparts_cons. replace (same_wpart x (WBuilding i)) with false; [done|].
      destruct (same_wpart x (WBuilding i)) eqn:E; [|done]. apply same_wpart_spec in E as ->. cbn in Hx. unfold i in *. lia.
    + fold i. rewrite El, Ht. split; cbn [wv_ctx wv_gctx wv_gonce wv_ln wv_serving wv_shutdown wv_closing wv_done wv_once]; rewrite ?wparts_cons, ?Hz by done;
        cbn [same_wpart one in_progress]; rewrite ?Nat.eqb_refl; cbn [one]; done || lia.
  - intros x Hc. change (wparts _ (set_w_wsListeners _ s)) with (wparts ({[+ WBuilding i +]} ⊎ n) s) in Hc. rewrite wparts_cons in Hc. cbn [length].
    destruct (same_wpart x (WBuilding i)) eqn:E; [apply same_wpart_spec in E as ->; cbn; unfold i; lia|]. specialize (H2 x Hc). lia.
  - intros j Hj. specialize (H3 j Hj). lia.
  - intros j Hj. specialize (H4 j Hj). lia.
  - intros j Hj. destruct (H6 j Hj) as (l' & Hl' & ?). exists l'. split; [|done]. by apply lookup_app_l_Some.
Qed.
(** ** Programs, by the parts they begin and end with *)
Definition wspec {A} (m : gmultiset wpart) (p : prog world A) (R : A -> gmultiset wpart) : Prop :=
  forall X, wwp p (m, X) (fun r g => g.1 = R r /\ X ⊆ g.2).
(** The same, and it leaves a fact behind. *)
Definition wlearns {A} (m : gmultiset wpart) (p : prog world A) (x : wfact) : Prop :=
  forall X, wwp p (m, X) (fun _ g => g.1 = m /\ X ⊆ g.2 /\ x ∈ g.2).
Lemma wspec_bind {A B} m (p : prog world A) (k : A -> prog world B) R R' :
  wspec m p R -> (forall r, wspec (R r) (k r) R') -> wspec m (p ≫= k) R'.
Proof.
  intros Hp Hk X. apply awp_bind. eapply awp_mono; [|apply Hp]. intros r [m' X'] [E HX]. cbn [fst snd] in E, HX. subst m'.
  eapply awp_mono; [|apply Hk]. intros r' [m'' X''] [E' HX']. cbn in *. split; [done|set_solver].
Qed.
Lemma wspec_returns {A} m (x : A) R : R x = m -> wspec m (mret x) R.
Proof. intros E X. by apply awp_ret. Qed.
Lemma wspec_sec {B} m (f : world -> world * B) R :
  (forall s n X, wclosing_inv s (m ⊎ n, X) -> wclosing_inv (f s).1 (R (f s).2 ⊎ n, X)) -> wspec m (atomically f) R.
Proof. intros Hf X. apply awp_atomically. intros s [n Y] HI. exists (R (f s).2, X). split; [by apply Hf|done]. Qed.
Lemma wspec_panic {B} m (f : world -> option (world * B)) R :
  (forall s n X, wclosing_inv s (m ⊎ n, X) -> exists s' b, f s = Some (s', b) /\ wclosing_inv s' (R b ⊎ n, X)) -> wspec m (atomic_panic f) R.
Proof.
  intros Hf X. apply awp_atomic_panic. intros s [n Y] HI. destruct (Hf s n _ HI) as (s' & b & -> & HI'). exists (R b, X). by split.
Qed.
Lemma wspec_eng_bind {A B} m (p : prog Engine A) (k : A -> prog Engine B) R R' :
  wspec m (eng p) R -> (forall r, wspec (R r) (eng (k r)) R') -> wspec m (eng (p ≫= k)) R'.
Proof.
  intros Hp Hk X. apply awp_lift_bind. eapply awp_mono; [|apply Hp]. intros r [m' X'] [E HX]. cbn [fst snd] in E, HX. subst m'.
  eapply awp_mono; [|apply Hk]. intros r' [m'' X''] [E' HX']. cbn in *. split; [done|set_solver].
Qed.
Lemma wspec_eng_sec {B} m (f : Engine -> Engine * B) R :
  (forall s n X, wclosing_inv s (m ⊎ n, X) -> wclosing_inv (set_w_engine (f (w_engine s)).1 s) (R (f (w_engine s)).2 ⊎ n, X)) -> wspec m (eng (atomically f)) R.
Proof. intros Hf X. apply awp_lift_sec. intros s [n Y] HI. exists (R (f (w_engine s)).2, X). split; [by apply Hf|done]. Qed.
Lemma wspec_go_with m t : wspec (wtask_share t ⊎ m) (go t) (fun _ => m).
Proof. apply wspec_sec. intros s n X HI. rewrite <- (assoc_L (⊎)) in HI. by apply w_go_stmt. Qed.
Lemma wspec_go_plain m t : wtask_part t = None -> wspec m (go t) (fun _ => m).
Proof. intros Ht. pose proof (wspec_go_with m t) as Hg. unfold wtask_share in Hg. by rewrite Ht, (left_id_L ∅ (⊎)) in Hg. Qed.
(** What a program keeps and knows may be carried along. *)
Lemma wlearns_bind {A B} m (p : prog world A) (k : A -> prog world B) x Q :
  forall X, wlearns m p x -> (forall r X', X ⊆ X' -> x ∈ X' -> wwp (k r) (m, X') Q) -> wwp (p ≫= k) (m, X) Q.
Proof.
  intros X Hp Hk. apply awp_bind. eapply awp_mono; [|apply Hp]. intros r [m' X'] (E & HX & Hx). cbn [fst snd] in *. subst m'. by apply Hk.
Qed.
Lemma wspec_bind_at {A B} m (p : prog world A) (k : A -> prog world B) R Q X :
  wspec m p R -> (forall r X', X ⊆ X' -> wwp (k r) (R r, X') Q) -> wwp (p ≫= k) (m, X) Q.
Proof.
  intros Hp Hk. apply awp_bind. eapply awp_mono; [|apply Hp]. intros r [m' X'] [E HX]. cbn [fst snd] in *. subst m'. by apply Hk.
Qed.
Lemma ungated_empty : ungated ∅.
Proof. intros x. multiset_solver. Qed.
Lemma ungated_single x : gating x = false -> ungated {[+ x +]}.
Proof. by intros Hx y ->%gmultiset_elem_of_singleton. Qed.
Lemma ungated_cons x m : gating x = false -> ungated m -> ungated ({[+ x +]} ⊎ m).
Proof. intros Hx Hm y [->%gmultiset_elem_of_singleton|?]%gmultiset_elem_of_disj_union; auto. Qed.
Lemma wcalm_ungated m : wcalm m -> ungated m.
Proof. intros Hm x Hx. specialize (Hm x Hx). by destruct x. Qed.
Lemma wcalm_empty : wcalm ∅.
Proof. intros x. multiset_solver. Qed.
Lemma wcalm_single x : wrunning x = false -> wcalm {[+ x +]}.
Proof. by intros Hx y ->%gmultiset_elem_of_singleton. Qed.
#[local] Hint Resolve ungated_empty ungated_single ungated_cons wcalm_ungated wcalm_empty wcalm_single : core.
Abbreviation wplain := (frames wsee locked false lis_panic).
Abbreviation wpatient := (frames wsee (fun _ => True) false lis_panic).
Lemma wspec_plain {A} m (p : prog world A) : ungated m -> wplain p -> wspec m p (fun _ => m).
Proof. intros Hm Hp X. eapply awp_frames; [apply wclosing_view| |exact Hp|done]. intros s Hs. split; [done|by left]. Qed.
Lemma wspec_patient {A} (p : prog world A) : wpatient p -> wspec ∅ p (fun _ => ∅).
Proof. intros Hp X. eapply awp_frames; [apply wclosing_view| |exact Hp|done]. intros s _. split; [by auto|]. do 4 right. by left. Qed.
Lemma wpatient_select {B} (cases : world -> list (world * B)) :
  (forall s s' b, (s', b) ∈ cases s -> wsee s' = wsee s) -> wspec ∅ (select cases) (fun _ => ∅).
Proof. intros Hc. apply wspec_patient. by apply frames_select. Qed.
Lemma wspec_select {B} m (cases : world -> list (world * B)) R :
  ungated m -> (forall s, cases s = [] -> wresting s m) ->
  (forall s n X s' b, wclosing_inv s (m ⊎ n, X) -> (s', b) ∈ cases s -> wclosing_inv s' (R b ⊎ n, X)) -> wspec m (select cases) R.
Proof.
  intros Hm Hb Hc X. apply awp_select; [done|]. intros s [n Y] HI. split; [intros E; split; [done|do 4 right; by apply Hb]|].
  intros s' b Hin. exists (R b, X). split; [by eapply Hc|done].
Qed.
(** ** The listener's socket is closed *)
Definition owns (t : nat) (m : gmultiset wpart) : Prop := exists x, x ∈ m /\ windex x = t.
Lemma owns_lt t m s n X : wclosing_inv s (m ⊎ n, X) -> owns t m -> (t < length (w_wsListeners s))%nat.
Proof.
  intros HI (x & Hx & <-). apply (wi_index _ _ HI x). cbn [fst]. unfold wparts. rewrite multiplicity_disj_union. rewrite elem_of_multiplicity in Hx. lia.
Qed.
Definition closes_socket (t : nat) (p : prog world unit) : Prop :=
  forall m X, ungated m -> wwp p (m, X) (fun _ g => g.1 = m /\ X ⊆ g.2 /\ (owns t m -> SocketClosed t ∈ g.2)).
Lemma closes_gated t : closes_socket t (gated_Close t).
Proof.
  intros m X Hm. unfold gated_Close. apply awp_bind, awp_select; [done|]. intros s [n Y] HI. change ((m, X) ∙ (n, Y)) with (m ⊎ n, X ∪ Y) in HI. split.
  { destruct (wsl t wl_gonce s) eqn:E; [done| |done]. intros _. split; [done|]. right. left. by exists t. }
  intros s' won Hin. destruct (w_wsListeners s !! t) as [l|] eqn:Hl.
  2: { unfold wsl in Hin. rewrite Hl in Hin. apply list_elem_of_singleton in Hin as [= -> ->]. exists (m, X). split; [exact HI|].
       apply awp_ret. split_and!; [done..|]. intros Ho. apply lookup_ge_None in Hl. pose proof (owns_lt _ _ _ _ _ HI Ho). lia. }
  rewrite (wsl_at _ _ _ Hl) in Hin. destruct (wl_gonce l) eqn:Eo; [| by apply elem_of_nil in Hin |].
  2: { apply list_elem_of_singleton in Hin as [= -> ->]. exists (m, {[SocketClosed t]} ∪ X). split.
       - change ((m, {[SocketClosed t]} ∪ X) ∙ (n, Y)) with (m ⊎ n, {[SocketClosed t]} ∪ X ∪ Y). rewrite <- (assoc_L (∪)). eapply wadd_fact; [done..|].
         by apply (wo_gafter _ _ _ _ _ (wi_each _ _ HI t l Hl)).
       - apply awp_ret. cbn. set_solver. }
  apply list_elem_of_singleton in Hin as [= -> ->]. exists ({[+ GEnter t +]} ⊎ m, X). split.
  { change ((({[+ GEnter t +]} ⊎ m, X) : wshare) ∙ (n, Y)) with ({[+ GEnter t +]} ⊎ m ⊎ n, X ∪ Y). rewrite <- (assoc_L (⊎)). by eapply wg_enter. }
  clear s n Y HI l Hl Eo. cbn [negb]. eapply wspec_bind_at with (R := fun _ => {[+ GCtx t +]} ⊎ m).
  { apply wspec_sec. intros s n Z HI. rewrite <- (assoc_L (⊎)) in *. by apply wg_ctx. }
  intros _ X1 HX1. eapply wspec_bind_at with (R := fun _ => {[+ GLn t +]} ⊎ m).
  { apply wspec_sec. intros s n Z HI. rewrite <- (assoc_L (⊎)) in *. by apply wg_ln. }
  intros _ X2 HX2. apply awp_atomically. intros s [n Y] HI. exists (m, {[SocketClosed t]} ∪ X2). split.
  - change ((({[+ GLn t +]} ⊎ m, X2) : wshare) ∙ (n, Y)) with ({[+ GLn t +]} ⊎ m ⊎ n, X2 ∪ Y) in HI. rewrite <- (assoc_L (⊎)) in HI.
    change ((m, {[SocketClosed t]} ∪ X2) ∙ (n, Y)) with (m ⊎ n, {[SocketClosed t]} ∪ X2 ∪ Y). rewrite <- (assoc_L (∪)). by apply wg_finish.
  - cbn. set_solver.
Qed.
Lemma closes_serveLn t : closes_socket t (close_serveLn t).
Proof.
  intros m X Hm. unfold close_serveLn. eapply wspec_bind_at with (R := fun _ => m); [apply wspec_sec; by intros s n Z HI|]. intros [tls|] X1 HX1.
  - eapply awp_mono; [|by apply closes_gated]. intros [] [m' X2] (? & ? & ?). cbn in *. split_and!; [done|set_solver|done].
  - apply awp_atomically. intros s [n Y] HI. change ((m, X1) ∙ (n, Y)) with (m ⊎ n, X1 ∪ Y) in HI.
    destruct (w_wsListeners s !! t) as [l|] eqn:Hl.
    + exists (m, {[SocketClosed t]} ∪ X1). split; [|cbn; set_solver].
      change ((m, {[SocketClosed t]} ∪ X1) ∙ (n, Y)) with (m ⊎ n, {[SocketClosed t]} ∪ X1 ∪ Y). rewrite <- (assoc_L (∪)).
      apply (wadd_fact _ _ _ _ (set_wl_lnClosed true l)); [by apply w_ln|cbn; by rewrite list_lookup_alter_eq, Hl|done].
    + exists (m, X1). split; [by apply w_ln|]. split_and!; [done..|]. intros Ho. apply lookup_ge_None in Hl. pose proof (owns_lt _ _ _ _ _ HI Ho). lia.
Qed.
Lemma wspec_serveLn t m : ungated m -> wspec m (close_serveLn t) (fun _ => m).
Proof. intros Hm X. eapply awp_mono; [|by apply closes_serveLn]. naive_solver. Qed.
Lemma learns_serveLn t m : ungated m -> owns t m -> wlearns m (close_serveLn t) (SocketClosed t).
Proof. intros Hm Ho X. eapply awp_mono; [|by apply closes_serveLn]. naive_solver. Qed.
Lemma owns_cons t x m : windex x = t -> owns t ({[+ x +]} ⊎ m).
Proof. intros <-. exists x. split; [multiset_solver|done]. Qed.
Lemma owns_single t x : windex x = t -> owns t {[+ x +]}.
Proof. intros <-. exists x. split; [by apply gmultiset_elem_of_singleton|done]. Qed.
#[local] Hint Resolve owns_cons owns_single : core.
