(* ===== verification/WsServing.v ===== *)
(** * WsServing: the programs of the pool, for the closing of WebSocket listeners

    [wsListener.Close], the server's goroutine and [listenWebSocket] play the parts of
    WsClosing.v; every other program leaves the WebSocket listeners alone. *)
From S2P Require Import Prelude Conc Kinds Errors Classify Endpoint NetAddr HostPort Secure.
From S2P Require Import Lifecycle Quota Limits Engine Options ActivityClock Observer Stats HttpClose Setup StreamSetup HttpTracker WsServer WsDial SetupPool Frames SetupLock SetupQuiet StreamClosing WsClosing.
Local Open Scope go_scope.

Create HintDb wplain.
Create HintDb wparting.
#[local] Hint Resolve ungated_empty ungated_single ungated_cons wcalm_ungated wcalm_empty wcalm_single owns_cons owns_single : core.

(** ** Programs that leave the WebSocket listeners alone *)
Lemma wplain_quiet {A} (p : prog world A) : quiet p -> wplain p.
Proof. apply frames_weaken; [by intros s s' [= ? ? ? ? ? ?]; unfold wsee; congruence|done..]. Qed.
Lemma wplain_eng {A} (p : prog Engine A) : eframes e_wsListeners p -> wplain (eng p).
Proof. apply frames_eng; [|done]. intros s e E. unfold wsee. cbn in *. by rewrite E. Qed.
Lemma wplain_add v : wplain (eng (addStreamListener v)).
Proof. apply wplain_eng, add_stream_frames. Qed.
Lemma wplain_remove v : wplain (eng (removeStreamListener v)).
Proof. apply wplain_eng, remove_stream_frames. Qed.
Lemma wplain_channel i (get : listener -> bool) put : get = li_closing \/ get = li_done -> wplain (close_channel i get put).
Proof.
  intros Hg. apply frames_atomic_panic.
  - intros _. exists i, get. split; [done|]. intros s. rewrite panicking_section. by destruct (lis i get s).
  - intros s s' b. by case_match; intros; simplify_eq.
Qed.
#[local] Hint Resolve wplain_add wplain_remove : wplain.
Ltac wplain_leaf :=
  first
    [ apply frames_ret | apply wplain_quiet; solve [auto 2 with quiet nocore] | solve [auto 2 with wplain nocore] | by apply frames_stuck
    | apply frames_atomically; intros ?; cbv beta zeta; repeat case_match; reflexivity
    | apply frames_atomically; intros ?; apply on_wsl_same; intros ?; cbv beta; repeat case_match; reflexivity
    | apply wplain_channel; auto ].
Ltac wplain :=
  repeat first
    [ wplain_leaf
    | apply frames_bind; [|intros ?]
    | match goal with |- frames _ _ _ _ (match ?x with _ => _ end) => destruct x end ].
Ltac wparting_leaf := first [by apply wspec_returns | solve [eauto 2 with wparting nocore] | apply wspec_plain; [by auto|solve [wplain]]].
Ltac wparting :=
  repeat (cbv beta iota zeta; lazymatch goal with
    | |- wspec _ (_ ≫= _) _ => eapply wspec_bind; [solve [wparting]|intros ?]
    | |- wspec _ (match ?x with _ => _ end) _ => first [solve [eauto 2 with wparting nocore] | destruct x]
    | |- _ => wparting_leaf
    end).
#[local] Hint Extern 1 (wspec _ (go _) _) => (apply wspec_go_plain; reflexivity) : wparting.
#[local] Hint Extern 1 (wspec _ (close_serveLn _) _) => (apply wspec_serveLn; by auto) : wparting.

(** ** Close *)
Section closing.
Context (fuel : nat).
(** The server is shut down by whoever runs the function of closeOnce. *)
Lemma wspec_server_Close t m : wcalm m -> wspec ({[+ WCancelled t +]} ⊎ m) (server_Close t) (fun _ => {[+ WDown t +]} ⊎ m).
Proof.
  intros Hm. unfold server_Close. eapply wspec_bind with (R := fun _ => {[+ WDown t +]} ⊎ m).
  { apply wspec_sec. intros s n X HI. rewrite <- (assoc_L (⊎)) in *. by apply w_down. }
  intros []; [|wparting]. intros X. eapply wlearns_bind; [by apply learns_serveLn; auto|]. intros ? X1 HX1 Hs.
  apply awp_select; [done|]. intros s [n Y] HI. split.
  - intros E%ready_nil. split; cbn [fst snd]; [by auto|]. do 3 right. left. exists t, m. cbn [fst snd]. split_and!; [done..|]. by apply negb_false_iff.
  - intros s' [] (_ & -> & _)%elem_ready. exists ({[+ WDown t +]} ⊎ m, X1). by split.
Qed.
Lemma wwp_Close lc t A m X :
  wonly_watching t A -> wcalm m ->
  wwp (wsListener_Close fuel lc t) (A ⊎ m, X) (fun _ g => g.1 = m /\ X ⊆ g.2 /\ (owns t m -> AllClosed t ∈ g.2)).
Proof.
  intros HA Hm. assert (wcalm (A ⊎ m)) as HAm.
  { intros x [Hx|Hx]%gmultiset_elem_of_disj_union; [|auto]. destruct HA as [-> | ->]; [multiset_solver|]. by apply gmultiset_elem_of_singleton in Hx as ->. }
  unfold wsListener_Close. apply awp_bind, awp_select; [done|]. intros s [n Y] HI. change ((A ⊎ m, X) ∙ (n, Y)) with (A ⊎ m ⊎ n, X ∪ Y) in HI.
  rewrite <- (assoc_L (⊎)) in HI. split.
  { destruct (wsl t wl_closeOnce s) eqn:E; [done| |done]. intros _. split; cbn [fst snd]; [by auto|]. do 2 right. left. split; [done|]. by exists t. }
  intros s' won Hin. destruct (w_wsListeners s !! t) as [l|] eqn:Hl.
  2: { unfold wsl in Hin. rewrite Hl in Hin. apply list_elem_of_singleton in Hin as [= -> ->]. exists (m, X). split.
       - destruct HA as [-> | ->]; [by rewrite (left_id_L ∅ (⊎)) in HI|]. apply lookup_ge_None in Hl. pose proof (wpart_lt t _ _ _ _ HI eq_refl). lia.
       - apply awp_ret. split_and!; [done..|]. intros Ho. apply lookup_ge_None in Hl.
         rewrite (assoc_L (⊎)), (comm_L (⊎) A), <- (assoc_L (⊎)) in HI. pose proof (owns_lt _ _ _ _ _ HI Ho). lia. }
  rewrite (wsl_at _ _ _ Hl) in Hin. destruct (wl_closeOnce l) eqn:Eo; [| by apply elem_of_nil in Hin |].
  2: { apply list_elem_of_singleton in Hin as [= -> ->]. exists (m, {[AllClosed t]} ∪ X). split.
       - change ((m, {[AllClosed t]} ∪ X) ∙ (n, Y)) with (m ⊎ n, {[AllClosed t]} ∪ X ∪ Y). rewrite <- (assoc_L (∪)). by eapply w_entered.
       - apply awp_ret. cbn. set_solver. }
  apply list_elem_of_singleton in Hin as [= -> ->]. exists ({[+ WEnter t +]} ⊎ m, X). split.
  { change ((({[+ WEnter t +]} ⊎ m, X) : wshare) ∙ (n, Y)) with ({[+ WEnter t +]} ⊎ m ⊎ n, X ∪ Y). rewrite <- (assoc_L (⊎)). by eapply w_enter. }
  clear s n Y HI l Hl Eo. cbn [negb]. eapply wspec_bind_at.
  { apply (wspec_panic _ _ (fun _ => {[+ WClosing t +]} ⊎ m)). intros s n Z HI. rewrite <- (assoc_L (⊎)) in HI.
    destruct (w_close_channel _ _ _ _ HI) as [-> HI']. rewrite (assoc_L (⊎)) in HI'. by eexists _, _. }
  intros ? X1 HX1. eapply wspec_bind_at with (R := fun _ => {[+ WCancelled t +]} ⊎ m).
  { apply wspec_sec. intros s n Z HI. rewrite <- (assoc_L (⊎)) in *. by apply w_cancelled. }
  intros ? X2 HX2. eapply wspec_bind_at; [by apply wspec_server_Close|]. intros ? X3 HX3.
  eapply wlearns_bind; [by apply learns_serveLn; auto|]. intros ? X4 HX4 Hs. eapply wspec_bind_at; [apply wspec_plain; [by auto|wplain]|]. intros ? X5 HX5.
  apply awp_bind, awp_atomically. intros s [n Y] HI. exists (m, {[AllClosed t]} ∪ X5). split; [|apply awp_ret; cbn; set_solver].
  change ((({[+ WDown t +]} ⊎ m, X5) : wshare) ∙ (n, Y)) with ({[+ WDown t +]} ⊎ m ⊎ n, X5 ∪ Y) in HI. rewrite <- (assoc_L (⊎)) in HI.
  change ((m, {[AllClosed t]} ∪ X5) ∙ (n, Y)) with (m ⊎ n, {[AllClosed t]} ∪ X5 ∪ Y). rewrite <- (assoc_L (∪)). apply w_finish; [set_solver|done].
Qed.
Lemma wspec_Close lc t m : wcalm m -> wspec m (wsListener_Close fuel lc t) (fun _ => m).
Proof. intros Hm X. rewrite <- (left_id_L ∅ (⊎) m) at 1. eapply awp_mono; [|apply wwp_Close; [by left|done]]. naive_solver. Qed.
Lemma wspec_watcher_closes lc t : wspec {[+ WWatch t +]} (wsListener_Close fuel lc t) (fun _ => ∅).
Proof. intros X. rewrite <- (right_id_L ∅ (⊎) {[+ WWatch t +]}). eapply awp_mono; [|apply wwp_Close; [by right|by auto]]. naive_solver. Qed.
Lemma learns_Close lc t : wlearns {[+ WServe t +]} (wsListener_Close fuel lc t) (AllClosed t).
Proof.
  intros X. rewrite <- (left_id_L ∅ (⊎) {[+ WServe t +]}) at 1. eapply awp_mono; [|apply wwp_Close; [by left|by auto]]. intros r g (? & ? & Ho). by auto.
Qed.
End closing.
#[local] Hint Extern 1 (wspec _ (wsListener_Close _ _ _) _) => (apply wspec_Close; by auto) : wparting.

(** ** The programs *)
Lemma wspec_untrack t : wspec {[+ WEnded t +]} (eng (removeWSListener t)) (fun _ => ∅).
Proof.
  unfold removeWSListener, removeTracked. eapply wspec_eng_bind; [wparting|intros ?].
  eapply wspec_eng_bind; [apply (wspec_eng_sec _ _ (fun _ => ∅)); intros s n X HI; rewrite (left_id_L ∅ (⊎)); by apply w_untrack|intros ?].
  eapply wspec_eng_bind; [wparting|intros ?]. wparting.
Qed.
Lemma wspec_track t : wspec {[+ WBuilding t +]} (eng (addWSListener t)) (fun r => match r with None => {[+ WWatch t +]} ⊎ {[+ WServe t +]} | Some _ => {[+ WBuilding t +]} end).
Proof.
  unfold addWSListener, addTracked. eapply wspec_eng_bind; [wparting|intros ?].
  eapply wspec_eng_bind with (R := fun r => match r with None => {[+ WWatch t +]} ⊎ {[+ WServe t +]} | Some _ => {[+ WBuilding t +]} end).
  - apply wspec_eng_sec. intros s n X HI. case_match; cbn [fst snd]; [|rewrite <- (assoc_L (⊎)); by apply w_track].
    by eapply wclosing_view; [|exact HI].
  - intros [err|]; (eapply wspec_eng_bind; [wparting|intros ?; by apply wspec_returns]).
Qed.
Definition server_share (t : nat) (m : gmultiset wpart) : Prop := m = ∅ \/ m = {[+ WServing t +]}.
Lemma ungated_server t m : server_share t m -> ungated m.
Proof. intros [-> | ->]; by auto. Qed.
#[local] Hint Resolve ungated_server : core.
Ltac wbranches := intros ? ? ?; cbv beta zeta; repeat case_match; rewrite ?elem_of_app, ?elem_ready, ?elem_of_nil, ?list_elem_of_singleton; naive_solver.
(** What keeps a server's goroutine waiting. *)
Lemma server_select {B} t m (cases : world -> list (world * B)) :
  server_share t m -> (forall s, cases s = [] -> wsl t wl_lnClosed s = false \/ wsl t wl_gctx s = false \/ wsl t wl_shutdown s = false) ->
  (forall s s' b, (s', b) ∈ cases s -> wsee s' = wsee s) -> wspec m (select cases) (fun _ => m).
Proof.
  intros Hm Hb Hc. apply wspec_select; [by eauto| |].
  - intros s E. destruct Hm as [-> | ->]; [by left|]. right. left. exists t. auto.
  - intros s n X s' b HI Hin. by eapply wclosing_view; [eapply Hc|].
Qed.
Section programs.
Context `{WebSocketLib} (pf : platform) (cfg : config) (fuel : nat) (en : surroundings).
Lemma wspec_Accept t m next : server_share t m -> wspec m (Accept (wsl t wl_lnClosed) next) (fun _ => m).
Proof.
  intros Hm. apply (server_select t); [done| |].
  - intros s. destruct (wsl t wl_lnClosed s) eqn:E; [done|]. by left.
  - wbranches.
Qed.
#[local] Hint Resolve wspec_Accept : wparting.
Lemma wspec_accept_http t m next : server_share t m -> wspec m (accept_http cfg fuel t next) (fun _ => m).
Proof. intros Hm. pose proof (ungated_server _ _ Hm). unfold accept_http. wparting. Qed.
#[local] Hint Resolve wspec_accept_http : wparting.
Lemma wspec_gctx t m : wspec m (modify (on_wsl t set_gctx)) (fun _ => m).
Proof. apply wspec_sec. intros s n X HI. by apply w_gctx. Qed.
Lemma wspec_cancel t m : wspec m (modify (on_wsl t cancel_ws)) (fun _ => m).
Proof. apply wspec_sec. intros s n X HI. by apply w_cancel. Qed.
#[local] Hint Resolve wspec_gctx wspec_cancel : wparting.
Lemma server_empty t : server_share t ∅.
Proof. by left. Qed.
Lemma server_serving t : server_share t {[+ WServing t +]}.
Proof. by right. Qed.
#[local] Hint Resolve server_empty server_serving : wparting.
Lemma wspec_gated_round t next : wspec ∅ (gated_round cfg fuel t next) (fun _ => ∅).
Proof. unfold gated_round. wparting. Qed.
#[local] Hint Resolve wspec_gated_round : wparting.
Lemma wspec_gated_rounds t answers : wspec ∅ (gated_rounds cfg fuel t answers) (fun _ => ∅).
Proof. induction answers as [|a answers IH]; cbn [gated_rounds]; wparting. Qed.
Lemma wsee_ready t x s : wsee (on_wsl t (set_wl_ready x) s) = wsee s.
Proof. by apply on_wsl_same. Qed.
Lemma wspec_gated_handshake tls t c : wspec ∅ (gated_handshake cfg fuel tls t c) (fun _ => ∅).
Proof.
  unfold gated_handshake. eapply wspec_bind; [wparting|intros [act|err]]; [|wparting]. eapply wspec_bind; [wparting|intros tlscfg].
  eapply wspec_bind with (R := fun _ => ∅); [|intros ?; wparting]. destruct (handshake _ _); [wparting|]. eapply wspec_bind; [wparting|intros []]; cbn [negb]; [|wparting].
  eapply wspec_bind with (R := fun _ => ∅); [|intros ?; wparting]. apply wpatient_select. intros s s' b [Hin|(_ & -> & _)%elem_ready]%elem_of_app; [|done].
  destruct (wsl t wl_ready s); [by apply elem_of_nil in Hin| |by apply elem_of_nil in Hin].
  apply list_elem_of_singleton in Hin as [= -> ->]. apply wsee_ready.
Qed.
Lemma wspec_gated_Accept t m : server_share t m -> wspec m (gated_Accept t) (fun _ => m).
Proof.
  intros Hm. unfold gated_Accept. eapply wspec_bind; [apply wspec_plain; [by eauto|wplain]|intros ?]. apply (server_select t); [done| |].
  - intros s. destruct (wsl t wl_ready s); try done; intros E%ready_nil; by auto.
  - intros s s' b. destruct (wsl t wl_ready s); [intros (_ & -> & _)%elem_ready..|intros [= -> ->]%list_elem_of_singleton]; apply wsee_ready.
Qed.
#[local] Hint Resolve wspec_gated_Accept : wparting.
Lemma wspec_serve_failed t m err : ungated m -> wspec m (serve_failed t err) (fun _ => m).
Proof. intros Hm. unfold serve_failed. wparting. Qed.
#[local] Hint Extern 1 (wspec _ (serve_failed _ _) _) => (apply wspec_serve_failed; by auto) : wparting.
Lemma wspec_serve_rounds t answers : wspec {[+ WServing t +]} (serve_rounds cfg fuel t answers) (fun _ => {[+ WServing t +]}).
Proof. induction answers as [|a answers IH]; cbn [serve_rounds]; wparting. Qed.
Lemma wspec_serve_tls_failed t err : wspec {[+ WServing t +]} (serve_tls_failed t err) (fun _ => {[+ WServing t +]}).
Proof.
  unfold serve_tls_failed. eapply wspec_bind; [wparting|intros []]; [wparting|]. apply (server_select t); [by right| |wbranches].
  intros s E%ready_nil. by auto.
Qed.
#[local] Hint Resolve wspec_serve_rounds wspec_serve_tls_failed : wparting.
Lemma wspec_serve_tls_rounds t answers : wspec {[+ WServing t +]} (serve_tls_rounds t answers) (fun _ => {[+ WServing t +]}).
Proof.
  induction answers as [|a answers IH]; cbn [serve_tls_rounds]; [|wparting].
  eapply wspec_bind with (R := fun _ => {[+ WServing t +]}); [|intros ?; wparting]. apply (server_select t); [by right| |wbranches]. intros s E%ready_nil. by auto.
Qed.
#[local] Hint Resolve wspec_serve_tls_rounds : wparting.
Lemma wspec_Serve arr t : wspec {[+ WServe t +]} (Serve cfg fuel arr t) (fun _ => {[+ WServe t +]}).
Proof.
  unfold Serve. eapply wspec_bind with (R := fun b : bool => if b then {[+ WServing t +]} else {[+ WServe t +]}).
  { apply wspec_sec. intros s n X HI. destruct (wsl t wl_shutdown s); cbn [fst snd]; [done|by apply w_serving]. }
  intros serving. eapply wspec_bind with (R := fun _ => {[+ WServe t +]}); [|intros ?; wparting]. destruct serving; [|wparting].
  eapply wspec_bind; [wparting|intros tls]. eapply wspec_bind with (R := fun _ => {[+ WServing t +]}); [wparting|intros ?].
  eapply wspec_bind with (R := fun _ => {[+ WServe t +]}); [|intros ?; wparting]. apply wspec_sec. intros s n X HI. by apply w_served.
Qed.
Lemma wspec_ws_watch lc t : wspec {[+ WWatch t +]} (ws_watch fuel lc t) (fun _ => ∅).
Proof.
  unfold ws_watch. eapply wspec_bind with (R := fun b : bool => if b then {[+ WWatch t +]} else ∅).
  - apply wspec_select; [by auto| |].
    + intros s E. right. right. exists t. apply app_nil in E as [E1%ready_nil E2%ready_nil]. done.
    + intros s n X s' b HI [(Hr & -> & ->)%elem_ready|(Hr & -> & ->)%elem_ready]%elem_of_app; [done|].
      rewrite (left_id_L ∅ (⊎)). destruct (wpart_at t _ _ _ _ HI eq_refl) as (l & Hl & H'). rewrite (wsl_at _ _ _ Hl) in Hr.
      pose proof (wo_done _ _ _ _ _ H' Hr) as Hf. pose proof (w_entered t {[+ WWatch t +]} s n X l Hl Hf ltac:(by right) HI) as [H1 H2 H3 H4 H6].
      split; try done. intros x Hx. apply H6. cbn [snd] in *. set_solver.
  - intros []; [|wparting]. eapply wspec_bind; [apply wspec_watcher_closes|intros ?]. wparting.
Qed.
Lemma wspec_ws_serve arr lc t : wspec {[+ WServe t +]} (ws_serve cfg fuel arr lc t) (fun _ => ∅).
Proof.
  intros X. unfold ws_serve. eapply wspec_bind_at; [apply wspec_Serve|]. intros err X1 HX1. cbv zeta.
  eapply wspec_bind_at; [wparting|]. intros ? X2 HX2. eapply wlearns_bind; [apply learns_Close|]. intros ? X3 HX3 Hc.
  do 4 (eapply wspec_bind_at; [wparting|]; intros ? ? ?). apply awp_bind, awp_atomic_panic. intros s [n Y] HI.
  match type of HI with wclosing_inv _ ((_, ?Z) ∙ _) => change ((({[+ WServe t +]} : gmultiset wpart, Z) : wshare) ∙ (n, Y)) with ({[+ WServe t +]} ⊎ n, Z ∪ Y) in HI;
    assert (AllClosed t ∈ Z) by set_solver; destruct (w_close_done t s n (Z ∪ Y)) as [-> HI']; [set_solver|done|]; exists ({[+ WEnded t +]}, Z) end.
  split; [exact HI'|]. eapply awp_mono; [|apply wspec_untrack]. intros ? g [? ?]. cbn in *. split; [done|]. set_solver.
Qed.
Lemma wspec_listenWebSocket network e : wspec ∅ (listenWebSocket pf cfg fuel network e) (fun _ => ∅).
Proof.
  unfold listenWebSocket. destruct (cfg_framerFactory cfg); [wparting|]. destruct (negb _); [wparting|]. destruct (listenTCP pf network e) as [addr|]; [|wparting].
  eapply wspec_bind; [wparting|intros cap]. destruct (match ep_Scheme e with SchemeWSS => _ | _ => _ end) as [tls|]; [|wparting].
  do 2 (eapply wspec_bind; [wparting|intros ?]).
  eapply wspec_bind with (R := fun t => {[+ WBuilding t +]}); [apply wspec_sec; intros s n X HI; rewrite (left_id_L ∅ (⊎)) in HI; by apply w_new|].
  intros t. eapply wspec_bind with (R := fun _ => {[+ WBuilding t +]}); [wparting|intros ?]. eapply wspec_bind; [apply wspec_track|]. intros [err|]; cbv beta iota.
  - eapply wspec_bind with (R := fun _ => ∅); [apply wspec_sec; intros s n X HI; rewrite (left_id_L ∅ (⊎))|intros ?; wparting].
    apply (wls_drop t _ {[+ WBuilding t +]}); [done|by eapply wpart_lt|intros x; by apply wsingle_index|by apply keeps_other|].
    intros l Hl H'. wfields l H'; naive_solver.
  - eapply wspec_bind; [apply (wspec_go_with _ (TWsWatch t))|intros ?]. rewrite <- (right_id_L ∅ (⊎) {[+ WServe t +]}).
    eapply wspec_bind; [apply (wspec_go_with _ (TWsServe t))|intros ?]. wparting.
Qed.
#[local] Hint Resolve wspec_listenWebSocket : wparting.
(** *** The stream listeners and the dials, which have no part in this *)
Abbreviation idle p := (wspec ∅ p (fun _ => ∅)).
Lemma idle_once get put : (forall o s, wsee (put o s) = wsee s) -> idle (once_enter get put).
Proof. intros Hp. apply wpatient_select. wbranches. Qed.
Lemma idle_initiateClose lc i cause : idle (initiateClose lc i cause).
Proof. unfold initiateClose. eapply wspec_bind; [by apply idle_once|intros ?]. wparting. Qed.
#[local] Hint Resolve idle_initiateClose : wparting.
Lemma idle_watchContext lc i : idle (watchContext lc i).
Proof. unfold watchContext. eapply wspec_bind; [apply wpatient_select; wbranches|intros ?]. wparting. Qed.
Lemma idle_stream_Accept i next : idle (Accept (lis i li_lnClosed) next).
Proof. apply wpatient_select. wbranches. Qed.
Lemma idle_wait i d : idle (waitOrClosed i d).
Proof. unfold waitOrClosed. eapply wspec_bind; [wparting|intros ?]. apply wpatient_select. wbranches. Qed.
Lemma idle_finalize lc i : idle (finalize cfg lc i).
Proof. unfold finalize. eapply wspec_bind; [by apply idle_once|intros ?]. wparting. Qed.
#[local] Hint Resolve idle_stream_Accept idle_wait idle_finalize : wparting.
Lemma idle_accept_step lc i next d : idle (accept_step pf cfg lc i next d).
Proof. unfold accept_step, isClosing, operationalError. wparting. Qed.
#[local] Hint Resolve idle_accept_step : wparting.
Lemma idle_accept_rounds lc i answers d : idle (accept_rounds pf cfg lc i answers d).
Proof. revert d. induction answers as [|a answers IH]; intros d; cbn [accept_rounds]; wparting. Qed.
#[local] Hint Resolve idle_accept_rounds : wparting.
Lemma idle_acceptLoop arr lc i : idle (acceptLoop pf cfg arr lc i).
Proof. unfold acceptLoop. wparting. Qed.
Lemma idle_accept_adopt lc tls i raw e j c : idle (accept_adopt pf cfg fuel lc tls i raw e j c).
Proof. unfold accept_adopt. wparting. Qed.
#[local] Hint Resolve idle_accept_adopt : wparting.
Lemma idle_handleAccepted lc tls i raw : idle (handleAccepted pf cfg fuel lc tls i raw).
Proof. unfold handleAccepted. wparting. Qed.
Lemma idle_listenStream network e : idle (listenStream pf cfg network e).
Proof. unfold listenStream. wparting. Qed.
Lemma idle_websocket_Dial d e env : idle (websocket_Dial cfg d e env).
Proof.
  unfold websocket_Dial. eapply wspec_bind; [wparting|intros ?]. eapply wspec_bind with (R := fun _ => ∅); [|intros ?; wparting].
  apply wpatient_select. wbranches.
Qed.
#[local] Hint Resolve idle_listenStream idle_websocket_Dial : wparting.
Lemma idle_dial_ws d e env : idle (dial_ws pf cfg fuel d e env).
Proof. unfold dial_ws, take_admission. wparting. Qed.
#[local] Hint Resolve idle_dial_ws : wparting.
Lemma idle_dialWebSocket dials e : idle (dialWebSocket pf cfg fuel dials e).
Proof. unfold dialWebSocket, newWebSocketHTTPTransport. wparting. Qed.
#[local] Hint Resolve idle_dialWebSocket : wparting.

(** *** The pool *)
Lemma wspec_Listen ctx network e : idle (Listen pf cfg fuel ctx network e).
Proof. unfold Listen. wparting. Qed.
Lemma wspec_Dial ctx env e : idle (Dial pf cfg fuel en ctx env e).
Proof. unfold Dial. wparting. Qed.
Lemma wspec_close_each close ls : (forall i, idle (close i)) -> idle (close_each close ls).
Proof. intros Hc. induction ls as [|i ls IH]; cbn [close_each]; wparting. Qed.
Lemma wspec_close_listeners set : idle (close_listeners fuel en set).
Proof.
  unfold close_listeners, stream_close, ws_close. eapply wspec_bind; [apply wspec_close_each; intros ?; wparting|intros ?].
  apply wspec_close_each. intros ?. wparting.
Qed.
#[local] Hint Resolve wspec_Listen wspec_Dial wspec_close_listeners : wparting.
Lemma wspec_op o : idle (setup_op_prog pf cfg fuel en o).
Proof. destruct o; cbn [setup_op_prog]; unfold stream_close, ws_close; wparting. Qed.
#[local] Hint Resolve wspec_op : wparting.
Lemma wspec_client ops : idle (setup_client pf cfg fuel en ops).
Proof. induction ops as [|o ops IH]; cbn [setup_client]; wparting. Qed.
Lemma wspec_task t : wspec (wtask_share t) (run_task pf cfg fuel en t) (fun _ => ∅).
Proof.
  destruct t as [i|i|i c|t|t|t|t c|t k|d e]; cbn [run_task].
  - apply idle_watchContext.
  - apply idle_acceptLoop.
  - apply idle_handleAccepted.
  - apply wspec_ws_watch.
  - apply wspec_ws_serve.
  - apply wspec_gated_rounds.
  - apply wspec_gated_handshake.
  - change (wtask_share _) with (∅ : gmultiset wpart). wparting.
  - change (wtask_share _) with (∅ : gmultiset wpart). wparting.
Qed.
Lemma wspec_worker k : wspec ∅ (worker pf cfg fuel en k) (fun _ => ∅).
Proof.
  unfold worker. eapply wspec_bind; [|apply wspec_task]. apply wspec_select; [by auto|by left|].
  intros s n X s' t HI Hin. destruct (w_go s !! k) as [[[] t']|] eqn:Ek; [by apply elem_of_nil in Hin| |by apply elem_of_nil in Hin].
  apply list_elem_of_singleton in Hin as [= -> ->]. rewrite (left_id_L ∅ (⊎)) in HI. by apply w_begin.
Qed.
Lemma setup_ws_closing_ok now workers opss c :
  rtc pstep (setup_pool pf cfg fuel en now workers opss) c -> awp_ok wclosing_inv wclosing_blk false lis_panic wclosing_fin c.
Proof.
  eapply awp_adequate with (ms := ((fun _ => (∅, ∅)) <$> seq 0 workers) ++ ((fun _ => (∅, ∅)) <$> opss)).
  - assert (gsum (((fun _ => (∅, ∅)) <$> seq 0 workers) ++ ((fun _ => (∅, ∅)) <$> opss)) = (gnil : wshare)) as ->.
    { apply gsum_nil. apply Forall_app_2; apply Forall_fmap, Forall_true; done. }
    change (gnil : wshare) with ((∅, ∅) : wshare). split; cbn [w_wsListeners w_engine w_go new_world fst snd]; try done.
    + intros x. unfold wparts. rewrite multiplicity_empty. cbn. lia.
    + intros t [b Hb]. by apply elem_of_nil in Hb.
  - apply Forall2_app; apply Forall2_fmap_2, Forall_Forall2_diag, Forall_forall; intros x _.
    + eapply awp_mono; [|apply wspec_worker]. by intros [] [? ?] [? _].
    + eapply awp_mono; [|apply wspec_client]. by intros [] [? ?] [? _].
Qed.
End programs.
