(* ===== verification/SetupCallers.v ===== *)
(** * SetupCallers: operations end and callers return

    What [Listen], [Dial], [Close] and a goroutine inside an operation of the Engine ([beginOp] to
    [endOp]) may wait for: the lock, the end of somebody else's [Close], and the dial that
    was started for the caller.  A goroutine owns the operation it is in and the dial it runs. *)
From S2P Require Import Prelude Conc Kinds Errors Classify Endpoint NetAddr HostPort Secure.
From S2P Require Import Lifecycle Quota Limits Engine Options ActivityClock Observer Stats HttpClose Setup StreamSetup HttpTracker WsServer WsDial SetupPool Frames SetupLock SetupQuiet StreamClosing.
Local Open Scope go_scope.

Inductive ctok := Busy | Dials (d : nat).
#[global] Instance ctok_eq_dec : EqDecision ctok.
Proof. solve_decision. Defined.
#[global] Instance ctok_countable : Countable ctok.
Proof.
  refine (inj_countable' (fun x => match x with Busy => None | Dials d => Some d end) (fun x => match x with None => Busy | Some d => Dials d end) _).
  by intros [].
Defined.
(** A wsDialAdmission was made; its dial was started; the server of a listener was shut down. *)
Inductive cfact := Made (d : nat) | Asked (d : nat) | Shut (t : nat).
#[global] Instance cfact_eq_dec : EqDecision cfact.
Proof. solve_decision. Defined.
#[global] Instance cfact_countable : Countable cfact.
Proof.
  refine (inj_countable' (fun x => match x with Made d => inl d | Asked d => inr (inl d) | Shut t => inr (inr t) end)
    (fun x => match x with inl d => Made d | inr (inl d) => Asked d | inr (inr t) => Shut t end) _).
  by intros [].
Defined.
Abbreviation cshare := (gmultiset ctok * gset cfact)%type.

(** ** The concern *)
Definition answered (a : wsDialAdmission) : bool := match da_dialed a with Some _ => true | None => false end.
Definition dial_task (e : bool * task) : option (bool * nat) := match e.2 with TDial d _ => Some (e.1, d) | _ => None end.
Definition calls (s : world) : Z * list bool * list (bool * nat) * list bool :=
  (e_activeOps (w_engine s), answered <$> w_dials s, omap dial_task (w_go s), wl_shutdown <$> w_wsListeners s).
Definition cfact_ok (x : cfact) (v : Z * list bool * list (bool * nat) * list bool) : Prop :=
  let '(_, dials, tasks, shut) := v in
  match x with
  | Made d => (d < length dials)%nat
  | Asked d => exists b, (b, d) ∈ tasks
  | Shut t => shut !! t = Some true
  end.
Record calls_ok (v : Z * list bool * list (bool * nat) * list bool) (g : cshare) : Prop := {
  ca_ops : v.1.1.1 = Z.of_nat (multiplicity Busy g.1);
  ca_task : forall b d, (b, d) ∈ v.1.2 -> v.1.1.2 !! d = Some true \/ (v.1.1.2 !! d = Some false /\ (b = false \/ (1 <= multiplicity (Dials d) g.1)%nat));
  ca_dials : forall d, (1 <= multiplicity (Dials d) g.1)%nat -> (d < length v.1.1.2)%nat;
  ca_fact : forall x, x ∈ g.2 -> cfact_ok x v }.
Definition calls_inv (s : world) (g : cshare) : Prop := calls_ok (calls s) g.
(** Somebody else is closing a listener. *)
Definition waits (s : world) : Prop :=
  (exists i, lis i li_closeOnce s = InProgress) \/ (exists t, wsl t wl_gonce s = InProgress) \/ (exists t, wsl t wl_closeOnce s = InProgress).
Definition undialing (m : gmultiset ctok) : Prop := forall d, multiplicity (Dials d) m = 0%nat.
Definition calls_blk (caller : bool) (s : world) (g : cshare) : Prop :=
  locked s \/
  (undialing g.1 /\
   ((caller = false /\ g.1 = ∅) \/ waits s \/
    (exists t, Shut t ∈ g.2 /\ wsl t wl_serving s = true) \/ (exists d, Asked d ∈ g.2 /\ dial d da_dialed s = None))).
Definition calls_fin (g : cshare) : Prop := g.1 = ∅.

Lemma undialing_empty : undialing ∅.
Proof. intros d. apply multiplicity_empty. Qed.
Lemma undialing_busy : undialing {[+ Busy +]}.
Proof. intros d. by rewrite multiplicity_singleton_ne. Qed.
#[local] Hint Resolve undialing_empty undialing_busy : core.

(** ** Sections *)
Section sections.
Context (z : Z) (D : list bool) (T : list (bool * nat)) (W : list bool) (m : gmultiset ctok) (X : gset cfact).
Hypothesis ok : calls_ok (z, D, T, W) (m, X).
Lemma calls_ops z' m' :
  z' = Z.of_nat (multiplicity Busy m') -> (forall d, multiplicity (Dials d) m' = multiplicity (Dials d) m) -> calls_ok (z', D, T, W) (m', X).
Proof. intros Hz Hd. destruct ok as [H1 H2 H3 H4]. split; cbn [fst snd] in *; [done|by setoid_rewrite Hd..|done]. Qed.
Lemma calls_new_dial : calls_ok (z, D ++ [false], T, W) (m, {[Made (length D)]} ∪ X).
Proof.
  destruct ok as [H1 H2 H3 H4]. split; cbn [fst snd] in *; [done| | |].
  - intros b d Hin. destruct (H2 b d Hin) as [Hd|[Hd Hb]]; [left|right; split; [|done]]; by apply lookup_app_l_Some.
  - intros d Hd. rewrite length_app. specialize (H3 d Hd). lia.
  - intros x [->%elem_of_singleton|Hx]%elem_of_union; [cbn; rewrite length_app; cbn; lia|]. specialize (H4 x Hx). destruct x; cbn in *; [rewrite length_app; lia|done..].
Qed.
Lemma calls_go d : (d < length D)%nat -> calls_ok (z, D, T ++ [(false, d)], W) (m, {[Asked d]} ∪ X).
Proof.
  intros Hlt. destruct ok as [H1 H2 H3 H4]. split; cbn [fst snd] in *; [done| |done|].
  - intros b d' [?|[= -> ->]%list_elem_of_singleton]%elem_of_app; [auto|]. destruct (lookup_lt_is_Some_2 _ _ Hlt) as [[] ->]; auto.
  - intros x [->%elem_of_singleton|Hx]%elem_of_union; [exists false; cbn; set_solver|]. specialize (H4 x Hx). destruct x; cbn in *; [done| |done]. destruct H4 as [b ?]. exists b. set_solver.
Qed.
Lemma calls_begin T' d :
  (forall e, e ∈ T' -> e ∈ T \/ e = (true, d)) -> (forall b d', (b, d') ∈ T -> exists b', (b', d') ∈ T') -> (exists b, (b, d) ∈ T) ->
  calls_ok (z, D, T', W) ({[+ Dials d +]} ⊎ m, X).
Proof.
  intros HT HT' [b0 Hd]. destruct ok as [H1 H2 H3 H4]. assert (forall n, multiplicity (Dials n) m <= multiplicity (Dials n) ({[+ Dials d +]} ⊎ m))%nat as Hle by (intros n; rewrite multiplicity_disj_union; lia).
  assert (d < length D)%nat as Hlt by (destruct (H2 _ _ Hd) as [E|[E _]]; by eapply lookup_lt_Some). split; cbn [fst snd] in *.
  - rewrite multiplicity_disj_union, multiplicity_singleton_ne by done. done.
  - intros b d' Hin. destruct (HT _ Hin) as [Hin'|[= -> ->]].
    + destruct (H2 _ _ Hin') as [?|[? [?|?]]]; [auto..|]. right. split; [done|]. right. specialize (Hle d'). lia.
    + destruct (lookup_lt_is_Some_2 _ _ Hlt) as [[] ->]; [auto|]. right. split; [done|]. right. rewrite multiplicity_disj_union, multiplicity_singleton_eq. lia.
  - intros n Hn. destruct (decide (n = d)) as [->|Hne]; [done|]. apply H3. rewrite multiplicity_disj_union, multiplicity_singleton_ne in Hn by congruence. lia.
  - intros x Hx. specialize (H4 x Hx). destruct x; cbn in *; [done| |done]. destruct H4 as [b ?]. eauto.
Qed.
Lemma calls_answer d n : m = {[+ Dials d +]} ⊎ n -> calls_ok (z, <[d := true]> D, T, W) (n, X).
Proof.
  intros ->. destruct ok as [H1 H2 H3 H4]. assert (d < length D)%nat as Hlt by (apply H3; cbn [fst snd]; rewrite multiplicity_disj_union, multiplicity_singleton_eq; lia).
  split; cbn [fst snd] in *.
  - rewrite multiplicity_disj_union, multiplicity_singleton_ne in H1 by done. done.
  - intros b d' Hin. destruct (decide (d' = d)) as [->|Hne]; [left; by apply list_lookup_insert_eq|]. rewrite list_lookup_insert_ne by done.
    specialize (H2 b d' Hin). rewrite multiplicity_disj_union, multiplicity_singleton_ne in H2 by congruence. done.
  - intros d' Hd. rewrite length_insert. apply H3. rewrite multiplicity_disj_union. lia.
  - intros x Hx. specialize (H4 x Hx). destruct x; cbn in *; [by rewrite length_insert|done..].
Qed.
Lemma calls_shut t : W !! t <> None -> calls_ok (z, D, T, <[t := true]> W) (m, {[Shut t]} ∪ X).
Proof.
  intros Ht. destruct ok as [H1 H2 H3 H4]. assert (t < length W)%nat as Hlt by (apply lookup_lt_is_Some_1; by destruct (W !! t)). split; cbn [fst snd] in *; [done..|].
  intros x [->%elem_of_singleton|Hx]%elem_of_union; [by apply list_lookup_insert_eq|]. specialize (H4 x Hx). destruct x as [| |u]; cbn in *; [done..|].
  destruct (decide (u = t)) as [->|]; [by apply list_lookup_insert_eq|by rewrite list_lookup_insert_ne].
Qed.
Lemma calls_new_ws b : calls_ok (z, D, T, W ++ [b]) (m, X).
Proof.
  destruct ok as [H1 H2 H3 H4]. split; cbn [fst snd] in *; [done..|]. intros x Hx. specialize (H4 x Hx). destruct x; cbn in *; [done..|]. by apply lookup_app_l_Some.
Qed.
End sections.
Section concern.
Context (caller : bool).
Abbreviation kwp := (awp calls_inv (calls_blk caller) false any_panic).
Definition kspec {A} (m : gmultiset ctok) (p : prog world A) (R : A -> gmultiset ctok) : Prop :=
  forall X, kwp p (m, X) (fun r g => g.1 = R r /\ X ⊆ g.2).
Lemma kspec_bind {A B} m (p : prog world A) (k : A -> prog world B) R R' :
  kspec m p R -> (forall r, kspec (R r) (k r) R') -> kspec m (p ≫= k) R'.
Proof.
  intros Hp Hk X. apply awp_bind. eapply awp_mono; [|apply Hp]. intros r [m' X'] [E HX]. cbn [fst snd] in E, HX. subst m'.
  eapply awp_mono; [|apply Hk]. intros r' [m'' X''] [E' HX']. cbn in *. split; [done|set_solver].
Qed.
Lemma kspec_bind_at {A B} m (p : prog world A) (k : A -> prog world B) R Q X :
  kspec m p R -> (forall r X', X ⊆ X' -> kwp (k r) (R r, X') Q) -> kwp (p ≫= k) (m, X) Q.
Proof.
  intros Hp Hk. apply awp_bind. eapply awp_mono; [|apply Hp]. intros r [m' X'] [E HX]. cbn [fst snd] in *. subst m'. by apply Hk.
Qed.
Lemma kspec_returns {A} m (x : A) R : R x = m -> kspec m (mret x) R.
Proof. intros E X. by apply awp_ret. Qed.
Lemma kspec_sec {B} m (f : world -> world * B) R :
  (forall s n X, calls_inv s (m ⊎ n, X) -> calls_inv (f s).1 (R (f s).2 ⊎ n, X)) -> kspec m (atomically f) R.
Proof. intros Hf X. apply awp_atomically. intros s [n Y] HI. exists (R (f s).2, X). split; [by apply Hf|done]. Qed.
Lemma kspec_eng_bind {A B} m (p : prog Engine A) (k : A -> prog Engine B) R R' :
  kspec m (eng p) R -> (forall r, kspec (R r) (eng (k r)) R') -> kspec m (eng (p ≫= k)) R'.
Proof.
  intros Hp Hk X. apply awp_lift_bind. eapply awp_mono; [|apply Hp]. intros r [m' X'] [E HX]. cbn [fst snd] in E, HX. subst m'.
  eapply awp_mono; [|apply Hk]. intros r' [m'' X''] [E' HX']. cbn in *. split; [done|set_solver].
Qed.
Lemma kspec_eng_sec {B} m (f : Engine -> Engine * B) R :
  (forall s n X, calls_inv s (m ⊎ n, X) -> calls_inv (set_w_engine (f (w_engine s)).1 s) (R (f (w_engine s)).2 ⊎ n, X)) -> kspec m (eng (atomically f)) R.
Proof. intros Hf X. apply awp_lift_sec. intros s [n Y] HI. exists (R (f (w_engine s)).2, X). split; [by apply Hf|done]. Qed.
Abbreviation steady := (frames calls locked false any_panic).
Lemma calls_view s s' g : calls s' = calls s -> calls_inv s g -> calls_inv s' g.
Proof. unfold calls_inv. by intros ->. Qed.
Lemma kspec_steady {A} m (p : prog world A) : steady p -> kspec m p (fun _ => m).
Proof. intros Hp X. eapply awp_frames; [apply calls_view| |exact Hp|done]. intros s Hs. by left. Qed.
(** A [select] that leaves the view alone. *)
Lemma kspec_select {B} m (cases : world -> list (world * B)) :
  undialing m -> (forall s, cases s = [] -> (caller = false /\ m = ∅) \/ waits s) -> (forall s s' b, (s', b) ∈ cases s -> calls s' = calls s) ->
  kspec m (select cases) (fun _ => m).
Proof.
  intros Hm Hb Hc X. apply awp_select; [done|]. intros s [n Y] HI. split.
  - intros E. right. cbn [fst snd]. split; [done|]. destruct (Hb s E) as [?|?]; auto.
  - intros s' b Hin. exists (m, X). split; [|done]. by eapply calls_view; [eapply Hc|].
Qed.
Lemma kspec_once m get put :
  undialing m -> (forall o s, calls (put o s) = calls s) -> (forall s, get s = InProgress -> waits s) -> kspec m (once_enter get put) (fun _ => m).
Proof.
  intros Hm Hp Hw. apply kspec_select; [done| |].
  - intros s. destruct (get s) eqn:E; [done|intros _; right; by apply Hw|done].
  - intros s s' b. destruct (get s); [intros [= -> ->]%list_elem_of_singleton; apply Hp|by intros ?%elem_of_nil|by intros [= -> ->]%list_elem_of_singleton].
Qed.
End concern.

(** ** Programs that begin and end no operation and no dial *)
Abbreviation steady := (frames calls locked false any_panic).
Create HintDb steady.
Lemma calls_wsl t f s : (forall l, wl_shutdown (f l) = wl_shutdown l) -> calls (on_wsl t f s) = calls s.
Proof. intros Hf. unfold calls, on_wsl. cbn. rewrite (fmap_alter_same wl_shutdown); done. Qed.
Lemma calls_dial d f s : (forall a, answered (f a) = answered a) -> calls (on_dial d f s) = calls s.
Proof. intros Hf. unfold calls, on_dial. cbn. rewrite (fmap_alter_same answered); done. Qed.
Lemma calls_start t s : dial_task (false, t) = None -> calls (set_w_go (w_go s ++ [(false, t)]) s) = calls s.
Proof. intros Ht. unfold calls. cbn [w_go set_w_go w_engine w_dials w_wsListeners]. rewrite omap_app. cbn [omap list_omap]. by rewrite Ht, app_nil_r. Qed.
Lemma steady_eng {A} (p : prog Engine A) : eframes e_activeOps p -> steady (eng p).
Proof. apply frames_eng; [|done]. intros s e E. unfold calls. cbn in *. by rewrite E. Qed.
Lemma steady_go t : dial_task (false, t) = None -> steady (go t).
Proof. intros Ht. apply frames_atomically. intros s. by apply calls_start. Qed.
Lemma steady_panic {B} (f : world -> option (world * B)) : (forall s s' b, f s = Some (s', b) -> calls s' = calls s) -> steady (atomic_panic f).
Proof. intros Hf. by apply frames_atomic_panic. Qed.
Ltac same_calls := cbv beta zeta; repeat case_match; simplify_eq; cbn [fst];
  first [reflexivity | rewrite calls_wsl by (intros ?; unfold detach, set_gctx, cancel_ws; cbv beta; repeat case_match; reflexivity); reflexivity
        | rewrite calls_dial by (intros ?; unfold record_connect; cbv beta; repeat case_match; reflexivity); reflexivity].
Ltac steady_leaf :=
  first
    [ apply frames_ret | solve [auto 2 with steady nocore] | by apply frames_stuck
    | apply steady_go; reflexivity
    | apply frames_atomically; intros ?; same_calls
    | apply steady_panic; intros ? ? ? ?; same_calls
    | by apply eframes_lock
    | apply frames_atomically; intros ?; unfold maybe_done; by case_match ].
Ltac steady :=
  repeat first
    [ steady_leaf
    | apply eframes_adm; [done|]
    | apply frames_bind; [|intros ?]
    | match goal with |- frames _ _ _ _ (match ?x with _ => _ end) => destruct x end ].
Lemma steady_lock : steady (eng lock).
Proof. apply steady_eng. steady. Qed.
Lemma steady_unlock : steady (eng unlock).
Proof. apply steady_eng. unfold unlock. steady. Qed.
Lemma steady_done : steady (eng maybeDoneLocked).
Proof. apply steady_eng. unfold maybeDoneLocked. steady. Qed.
#[local] Hint Resolve aquiet_listener_acquire aquiet_listener_release aquiet_release : steady.
Lemma steady_acquire n addr c : steady (acquire_opening n addr c).
Proof. apply steady_eng. unfold acquireOpeningWithListener, open_section. steady. Qed.
Lemma steady_release n j : steady (lease_release n j).
Proof. apply steady_eng. steady. Qed.
Lemma steady_abort why : steady (eng (beginAbort why)).
Proof. apply steady_eng. unfold beginAbort, unlock, maybeDoneLocked. steady. Qed.
Lemma steady_handshake : steady acquire_handshake.
Proof. apply steady_eng. unfold engineAcquireHandshake, acquire_engine_activity, acquireHandshake, acquire_activity, unlock. steady. Qed.
Lemma steady_upgrade : steady acquire_upgrade.
Proof. apply steady_eng. unfold engineAcquireUpgrade, acquire_engine_activity, acquireUpgrade, acquire_activity, unlock. steady. Qed.
Lemma steady_activity_release j : steady (activity_release j).
Proof. apply steady_eng. unfold engineActivityRelease, maybeDone, releaseActivity, release_activity_mark, unlock, maybeDoneLocked. steady. Qed.
Lemma steady_remove_conn k n v : steady (eng (remove_conn k n v)).
Proof. apply steady_eng. unfold remove_conn, unlock, maybeDoneLocked. steady. Qed.
Lemma steady_add_conn k n v peer j : steady (eng (add_conn k n v peer (Some j))).
Proof. apply steady_eng. unfold add_conn, obtain_lease, activate, activate_section, unlock, maybeDoneLocked. steady. Qed.
Lemma steady_add k v : steady (eng (addTracked k v)).
Proof. apply steady_eng. unfold addTracked, unlock. steady. Qed.
Lemma steady_remove k v : steady (eng (removeTracked k v)).
Proof. apply steady_eng. unfold removeTracked, unlock, maybeDoneLocked. steady. Qed.
#[local] Hint Resolve steady_lock steady_unlock steady_done steady_acquire steady_release steady_abort steady_handshake steady_upgrade
  steady_activity_release steady_remove_conn steady_add_conn steady_add steady_remove : steady.
Section steady_programs.
Context `{WebSocketLib} (pf : platform) (cfg : config) (fuel : nat).
Lemma steady_emit ev : steady (emit_event cfg ev).
Proof. unfold emit_event. steady. Qed.
Lemma steady_observe kind a b sc l r d err : steady (observeSetup cfg kind a b sc l r d err).
Proof. apply steady_emit. Qed.
Lemma steady_stamp : steady (stamp cfg).
Proof. unfold stamp. steady. Qed.
Lemma steady_elapsed t : steady (elapsed cfg t).
Proof. unfold elapsed. steady. Qed.
Lemma steady_close_opt c : steady (close_opt c).
Proof. unfold close_opt. steady. Qed.
#[local] Hint Resolve steady_emit steady_observe steady_stamp steady_elapsed steady_close_opt : steady.
Lemma steady_dialTCP network e : steady (dialTCP pf cfg network e).
Proof. unfold dialTCP. cbv zeta. steady. Qed.
Lemma steady_adopt raw e j : steady (adoptStreamWithLease cfg fuel raw e (Some j)).
Proof. unfold adoptStreamWithLease, addStreamWithLease. steady. Qed.
Lemma steady_newWSSession e l r c ph : steady (newWSSession cfg e l r c ph).
Proof. unfold newWSSession. steady. Qed.
Lemma steady_prepare tls c raw : steady (prepare cfg tls c raw).
Proof. unfold prepare. cbv zeta. steady. Qed.
Lemma steady_dial_tls env e raw l r d : steady (dial_tls pf cfg env e raw l r d).
Proof. unfold dial_tls. cbv zeta. steady. Qed.
#[local] Hint Resolve steady_dialTCP steady_adopt steady_newWSSession steady_prepare steady_dial_tls : steady.
Lemma steady_dial_adopt e k d h j : steady (dial_adopt pf cfg fuel e k d h j).
Proof. unfold dial_adopt. cbv zeta. steady. Qed.
#[local] Hint Resolve steady_dial_adopt : steady.
Lemma steady_dialStream env e : steady (dialStream pf cfg fuel env e).
Proof. unfold dialStream. cbv zeta. steady. Qed.
Lemma steady_holder_release h : steady (holder_release fuel h).
Proof. unfold holder_release, leave, detachHolder. steady. Qed.
#[local] Hint Resolve steady_holder_release : steady.
Lemma steady_release_all hs : steady (release_all fuel hs).
Proof. induction hs as [|h hs IH]; cbn [release_all]; steady. Qed.
#[local] Hint Resolve steady_release_all : steady.
Lemma steady_releaseConn t k : steady (releaseConn fuel t k).
Proof. unfold releaseConn, lookup_conn. steady. Qed.
Lemma steady_closeAll t : steady (closeAll fuel t).
Proof. unfold closeAll. steady. Qed.
Lemma steady_take h : steady (takeWithPhysical h).
Proof. unfold takeWithPhysical, leave, detachHolder. steady. Qed.
Lemma steady_rebind t old new : steady (rebind t old new).
Proof. unfold rebind, rebind_section. steady. Qed.
Lemma steady_register t c j : steady (register t c j).
Proof. unfold register, register_section. steady. Qed.
Lemma steady_upgrade_adopt t j ph l r d : steady (upgrade_adopt cfg fuel t j ph l r d).
Proof. unfold upgrade_adopt, addWebSocketWithLease. steady. Qed.
Lemma steady_dialRaw d e env : steady (dialRaw cfg fuel d e env).
Proof. unfold dialRaw, recordConnect. cbv zeta. steady. Qed.
Lemma steady_keep_admission d k j : steady (keep_admission fuel d k j).
Proof. unfold keep_admission, set_admission, set_section. cbv zeta. steady. Qed.
Lemma steady_release_admission d : steady (release_admission fuel d).
Proof. unfold release_admission, take_admission, release_opt. steady. Qed.
Lemma steady_dial_ws_adopt e j ph k l r c cd hd : steady (dial_ws_adopt pf cfg fuel e (Some j) ph k l r c cd hd).
Proof. unfold dial_ws_adopt, addWebSocketWithLease. cbv zeta. steady. Qed.
End steady_programs.
#[local] Hint Resolve steady_emit steady_observe steady_stamp steady_elapsed steady_close_opt steady_dialTCP steady_adopt steady_newWSSession steady_prepare
  steady_dial_tls steady_dial_adopt steady_dialStream steady_holder_release steady_release_all steady_releaseConn steady_closeAll steady_take steady_rebind
  steady_register steady_upgrade_adopt steady_dialRaw steady_keep_admission steady_release_admission steady_dial_ws_adopt : steady.

(** ** The programs *)
Create HintDb calling.
#[local] Hint Resolve undialing_empty undialing_busy : calling.
Ltac calling_leaf := first [by apply kspec_returns | solve [eauto 2 with calling nocore] | apply kspec_steady; solve [steady]].
Ltac calling :=
  repeat (cbv beta iota zeta; lazymatch goal with
    | |- kspec _ _ (_ ≫= _) _ => eapply kspec_bind; [solve [calling]|intros ?]
    | |- kspec _ _ (match ?x with _ => _ end) _ => first [solve [eauto 2 with calling nocore] | destruct x]
    | |- _ => calling_leaf
    end).
Section programs.
Context `{WebSocketLib} (pf : platform) (cfg : config) (fuel : nat) (en : surroundings).
Section any.
Context (b : bool).
Lemma kspec_beginOp : kspec b ∅ (eng beginOp) (fun r => match r with None => {[+ Busy +]} | Some _ => ∅ end).
Proof.
  unfold beginOp. eapply kspec_eng_bind; [calling|intros ?].
  eapply kspec_eng_bind with (R := fun r => match r with None => {[+ Busy +]} | Some _ => ∅ end); [|intros ?; eapply kspec_eng_bind; [calling|intros ?; by apply kspec_returns]].
  apply kspec_eng_sec. intros s n X HI. case_match; cbn [fst snd]; [by eapply calls_view; [|exact HI]|]. rewrite (left_id_L ∅ (⊎)) in HI.
  pose proof (ca_ops _ _ HI) as Ho. cbn [fst snd calls] in Ho. unfold calls_inv, calls in *. cbn [w_engine set_w_engine w_dials w_go w_wsListeners e_activeOps set_ops].
  eapply calls_ops; [exact HI| |].
  - rewrite multiplicity_disj_union, multiplicity_singleton_eq. lia.
  - intros d. by rewrite multiplicity_disj_union, multiplicity_singleton_ne.
Qed.
Lemma kspec_endOp : kspec b {[+ Busy +]} (eng endOp) (fun _ => ∅).
Proof.
  unfold endOp. eapply kspec_eng_bind; [calling|intros ?]. eapply kspec_eng_bind with (R := fun _ => ∅); [|intros ?; eapply kspec_eng_bind; [calling|intros ?; calling]].
  apply kspec_eng_sec. intros s n X HI. cbn [fst snd]. rewrite (left_id_L ∅ (⊎)). pose proof (ca_ops _ _ HI) as Ho. cbn [fst snd calls] in Ho.
  rewrite multiplicity_disj_union, multiplicity_singleton_eq in Ho.
  unfold calls_inv, calls in *. cbn [w_engine set_w_engine w_dials w_go w_wsListeners e_activeOps set_ops]. eapply calls_ops; [exact HI| |].
  - destruct (Z.ltb_spec (e_activeOps (w_engine s) - 1) 0); lia.
  - intros d. by rewrite multiplicity_disj_union, multiplicity_singleton_ne.
Qed.
#[local] Hint Resolve kspec_beginOp kspec_endOp : calling.
Lemma kspec_initiateClose m lc i cause : undialing m -> kspec b m (initiateClose lc i cause) (fun _ => m).
Proof.
  intros Hm. unfold initiateClose. eapply kspec_bind; [apply kspec_once; [done..|]; intros s E; left; by exists i|intros won]. destruct won; cbn [negb]; [|calling].
  unfold close_channel. calling.
Qed.
Lemma kspec_gated_Close m t : undialing m -> kspec b m (gated_Close t) (fun _ => m).
Proof.
  intros Hm. unfold gated_Close. eapply kspec_bind; [apply kspec_once; [done| |]; [intros o s; by apply calls_wsl|]; intros s E; right; left; by exists t|intros ?].
  unfold set_gctx. calling.
Qed.
#[local] Hint Resolve kspec_initiateClose kspec_gated_Close : calling.
Lemma kspec_close_serveLn m t : undialing m -> kspec b m (close_serveLn t) (fun _ => m).
Proof. intros Hm. unfold close_serveLn. calling. Qed.
Lemma kspec_server_Close m t : undialing m -> kspec b m (server_Close t) (fun _ => m).
Proof.
  intros Hm X. unfold server_Close. apply awp_bind, awp_atomically. intros s [n Y] HI. change ((m, X) ∙ (n, Y)) with (m ⊎ n, X ∪ Y) in HI. cbn [fst snd].
  destruct (w_wsListeners s !! t) as [l|] eqn:Hl.
  - exists (m, {[Shut t]} ∪ X). split.
    { change (((m, {[Shut t]} ∪ X) : cshare) ∙ (n, Y)) with (m ⊎ n, {[Shut t]} ∪ X ∪ Y). rewrite <- (assoc_L (∪)). unfold calls_inv, calls in *.
      unfold on_wsl. cbn [w_engine w_dials w_go w_wsListeners set_w_wsListeners].
      replace (wl_shutdown <$> alter (set_wl_shutdown true) t (w_wsListeners s)) with (<[t := true]> (wl_shutdown <$> w_wsListeners s)).
      + apply calls_shut; [done|]. by rewrite list_lookup_fmap, Hl.
      + erewrite (alter_some (w_wsListeners s)), list_fmap_insert by done. done. }
    destruct (wsl t wl_serving s); [|apply awp_ret; cbn; set_solver].
    apply kspec_bind_at with (R := fun _ => m); [by apply kspec_close_serveLn|]. intros ? X1 HX1. apply awp_select; [done|]. intros s1 [n1 Y1] HI1. split.
    + intros E%ready_nil. right. cbn [fst snd]. split; [done|]. do 2 right. left. exists t. split; [set_solver|by apply negb_false_iff].
    + intros s2 [] (_ & -> & _)%elem_ready. exists (m, X1). split; [done|]. cbn. set_solver.
  - exists (m, X). split.
    { eapply calls_view; [|exact HI]. unfold calls, on_wsl. cbn. by rewrite alter_none. }
    unfold wsl. rewrite Hl. apply awp_ret. done.
Qed.
#[local] Hint Resolve kspec_close_serveLn kspec_server_Close : calling.
Lemma kspec_wsClose m lc t : undialing m -> kspec b m (wsListener_Close fuel lc t) (fun _ => m).
Proof.
  intros Hm. unfold wsListener_Close. eapply kspec_bind; [apply kspec_once; [done| |]; [intros o s; by apply calls_wsl|]; intros s E; do 2 right; by exists t|intros won].
  unfold close_ws_channel, cancel_ws. calling.
Qed.
#[local] Hint Resolve kspec_wsClose : calling.
(** *** Dials *)
Lemma kwp_websocket_Dial m d e env X :
  undialing m -> Made d ∈ X -> awp calls_inv (calls_blk b) false any_panic (websocket_Dial cfg d e env) (m, X) (fun _ g => g.1 = m /\ X ⊆ g.2).
Proof.
  intros Hm Hd. unfold websocket_Dial. apply awp_bind, awp_atomically. intros s [n Y] HI. exists (m, {[Asked d]} ∪ X). split.
  { change ((m, X) ∙ (n, Y)) with (m ⊎ n, X ∪ Y) in HI. change (((m, {[Asked d]} ∪ X) : cshare) ∙ (n, Y)) with (m ⊎ n, {[Asked d]} ∪ X ∪ Y). rewrite <- (assoc_L (∪)).
    pose proof (ca_fact _ _ HI (Made d) ltac:(cbn; set_solver)) as Hlt. unfold calls_inv, calls in *. cbn [fst w_engine w_dials w_go w_wsListeners set_w_go].
    rewrite omap_app. change (omap dial_task [(false, TDial d e)]) with [(false, d)]. by apply calls_go. }
  clear s n Y HI. apply awp_bind, awp_select; [done|]. intros s [n Y] HI. split.
  - intros [E _]%app_nil. right. cbn [fst snd]. split; [done|]. do 3 right. exists d. split; [set_solver|]. by destruct (dial d da_dialed s).
  - intros s' r Hin. exists (m, {[Asked d]} ∪ X). split.
    + eapply calls_view; [|exact HI]. apply elem_of_app in Hin as [Hin|Hin]; case_match; rewrite ?elem_of_nil, ?list_elem_of_singleton in Hin; simplify_eq; try done; by apply calls_dial.
    + eapply awp_mono; [|refine ((_ : kspec b m _ (fun _ => m)) _); calling]. intros ? [? ?] [? ?]. cbn in *. set_solver.
Qed.
Lemma kwp_dial_ws m d e env X :
  undialing m -> Made d ∈ X -> awp calls_inv (calls_blk b) false any_panic (dial_ws pf cfg fuel d e env) (m, X) (fun _ g => g.1 = m /\ X ⊆ g.2).
Proof.
  intros Hm Hd. unfold dial_ws. cbv zeta. eapply kspec_bind_at with (R := fun _ => m); [calling|]. intros ? X1 HX1. apply awp_bind.
  eapply awp_mono; [|apply kwp_websocket_Dial; [done|set_solver]]. intros ? [m2 X2] [E HX2]. cbn [fst snd] in E, HX2. subst m2.
  eapply awp_mono; [|refine ((_ : kspec b m _ (fun _ => m)) _); unfold take_admission; calling]. intros ? [? ?] [? ?]. cbn in *. set_solver.
Qed.
Lemma kspec_dialWebSocket m dials e : undialing m -> kspec b m (dialWebSocket pf cfg fuel dials e) (fun _ => m).
Proof.
  intros Hm. unfold dialWebSocket, newWebSocketHTTPTransport. cbv zeta. destruct (cfg_framerFactory cfg); [calling|]. eapply kspec_bind; [calling|intros [act|err]]; [|calling].
  destruct (match ep_Scheme e with SchemeWSS => _ | _ => _ end) as [tls|err]; [|intros X; apply awp_bind, awp_ret; refine ((_ : kspec b m _ (fun _ => m)) X); calling].
  intros X. apply awp_bind, awp_bind, awp_atomically. intros s [n Y] HI. change ((m, X) ∙ (n, Y)) with (m ⊎ n, X ∪ Y) in HI. cbn [fst snd].
  exists (m, {[Made (length (w_dials s))]} ∪ X). split.
  { change (((m, {[Made (length (w_dials s))]} ∪ X) : cshare) ∙ (n, Y)) with (m ⊎ n, {[Made (length (w_dials s))]} ∪ X ∪ Y). rewrite <- (assoc_L (∪)).
    unfold calls_inv, calls in *. cbn [w_engine w_dials w_go w_wsListeners set_w_dials]. rewrite fmap_app. change (answered <$> [nil_dial]) with [false].
    rewrite <- (length_fmap answered). by apply calls_new_dial. }
  generalize (length (w_dials s)) as d. clear s n Y HI. intros d. apply awp_ret, awp_bind, awp_bind. eapply awp_mono; [|apply kwp_dial_ws; [done|set_solver]].
  intros ? [m2 X2] [E HX2]. cbn [fst snd] in E, HX2. subst m2. apply awp_bind. eapply awp_mono; [|refine ((_ : kspec b m _ (fun _ => m)) _); calling].
  intros ? [m3 X3] [E HX3]. cbn [fst snd] in E, HX3. subst m3. apply awp_ret.
  eapply awp_mono; [|refine ((_ : kspec b m _ (fun _ => m)) _); calling]. intros ? [? ?] [? ?]. cbn in *. set_solver.
Qed.
#[local] Hint Resolve kspec_dialWebSocket : calling.
(** *** Listening *)
Lemma kspec_listenStream m network e : kspec b m (listenStream pf cfg network e) (fun _ => m).
Proof. unfold listenStream, addStreamListener. calling. Qed.
Lemma kspec_listenWebSocket m network e : undialing m -> kspec b m (listenWebSocket pf cfg fuel network e) (fun _ => m).
Proof.
  intros Hm. unfold listenWebSocket, addWSListener. destruct (cfg_framerFactory cfg); [calling|]. destruct (negb _); [calling|]. destruct (listenTCP pf network e) as [addr|]; [|calling].
  eapply kspec_bind; [calling|intros cap]. destruct (match ep_Scheme e with SchemeWSS => _ | _ => _ end) as [tls|]; [|calling].
  do 2 (eapply kspec_bind; [calling|intros ?]). eapply kspec_bind with (R := fun _ => m).
  - apply kspec_sec. intros s n X HI. unfold calls_inv, calls in *. cbn [fst snd w_engine w_dials w_go w_wsListeners set_w_wsListeners]. rewrite fmap_app. by apply calls_new_ws.
  - intros t. unfold cancel_ws. calling.
Qed.
#[local] Hint Resolve kspec_listenStream kspec_listenWebSocket : calling.
Lemma kspec_Listen ctx network e : kspec b ∅ (Listen pf cfg fuel ctx network e) (fun _ => ∅).
Proof.
  unfold Listen. destruct ctx; cbn [negb]; [|calling]. destruct (Endpoint_Validate e); [calling|]. destruct (IsSession _); cbn [negb]; [|calling].
  eapply kspec_bind; [apply kspec_beginOp|intros [err|]]; cbv iota; [calling|]. eapply kspec_bind with (R := fun _ => {[+ Busy +]}); [calling|intros ?]. calling.
Qed.
Lemma kspec_Dial ctx env e : kspec b ∅ (Dial pf cfg fuel en ctx env e) (fun _ => ∅).
Proof.
  unfold Dial. destruct ctx; cbn [negb]; [|calling]. destruct (ValidateDial e); [calling|]. destruct (IsSession _); cbn [negb]; [|calling].
  eapply kspec_bind; [apply kspec_beginOp|intros [err|]]; cbv iota; [calling|]. eapply kspec_bind with (R := fun _ => {[+ Busy +]}); [calling|intros ?]. calling.
Qed.
Lemma kspec_close_each close ls : (forall i, kspec b ∅ (close i) (fun _ => ∅)) -> kspec b ∅ (close_each close ls) (fun _ => ∅).
Proof. intros Hc. induction ls as [|i ls IH]; cbn [close_each]; calling. Qed.
Lemma kspec_close_listeners set : kspec b ∅ (close_listeners fuel en set) (fun _ => ∅).
Proof.
  unfold close_listeners, stream_close, ws_close. eapply kspec_bind; [apply kspec_close_each; intros ?; calling|intros ?].
  apply kspec_close_each. intros ?. calling.
Qed.
#[local] Hint Resolve kspec_Listen kspec_Dial kspec_close_listeners : calling.
Lemma kspec_op o : kspec b ∅ (setup_op_prog pf cfg fuel en o) (fun _ => ∅).
Proof. destruct o; cbn [setup_op_prog]; unfold stream_close, ws_close, cancel_ws; calling. Qed.
#[local] Hint Resolve kspec_op : calling.
Lemma kspec_client ops : kspec b ∅ (setup_client pf cfg fuel en ops) (fun _ => ∅).
Proof. induction ops as [|o ops IH]; cbn [setup_client]; calling. Qed.
(** A dial runs with its own token, which its answer gives up. *)
Lemma kspec_transport_dial d e env : kspec b {[+ Dials d +]} (transport_dial cfg fuel d e env) (fun _ => ∅).
Proof.
  unfold transport_dial. eapply kspec_bind with (R := fun _ => {[+ Dials d +]}); [unfold DialContext, DialTLSContext; cbv zeta; calling|intros ?].
  eapply kspec_bind with (R := fun _ => ∅); [|intros ?; calling]. apply kspec_sec. intros s n X HI. cbn [fst snd]. rewrite (left_id_L ∅ (⊎)).
  unfold calls_inv, calls, on_dial in *. cbn [fst snd w_engine w_dials w_go w_wsListeners set_w_dials].
  assert (d < length (w_dials s))%nat as [a Ha]%lookup_lt_is_Some_2.
  { rewrite <- (length_fmap answered). apply (ca_dials _ _ HI). cbn [fst snd]. rewrite multiplicity_disj_union, multiplicity_singleton_eq. lia. }
  rewrite (alter_some _ _ _ _ Ha), list_fmap_insert. by eapply calls_answer; [exact HI|].
Qed.
End any.
(** *** The goroutines *)
#[local] Hint Resolve kspec_beginOp kspec_endOp kspec_initiateClose kspec_close_serveLn kspec_wsClose : calling.
(** A worker outside an operation may wait for the network. *)
Lemma idle_select {B} (cases : world -> list (world * B)) :
  (forall s s' r, (s', r) ∈ cases s -> calls s' = calls s) -> kspec false ∅ (select cases) (fun _ => ∅).
Proof. intros Hc. apply kspec_select; [done| |done]. by left. Qed.
Ltac cbranches := intros ? ? ?; cbv beta zeta; repeat case_match; rewrite ?elem_of_app, ?elem_ready, ?elem_of_nil, ?list_elem_of_singleton; naive_solver.
Lemma kspec_watchContext lc i : kspec false ∅ (watchContext lc i) (fun _ => ∅).
Proof. unfold watchContext. eapply kspec_bind; [apply idle_select; cbranches|intros ?]. calling. Qed.
Lemma kspec_Accept closed next : kspec false ∅ (Accept closed next) (fun _ => ∅).
Proof. apply idle_select. cbranches. Qed.
Lemma kspec_wait i d : kspec false ∅ (waitOrClosed i d) (fun _ => ∅).
Proof. unfold waitOrClosed. eapply kspec_bind; [calling|intros ?]. apply idle_select. cbranches. Qed.
Lemma kspec_finalize lc i : kspec false ∅ (finalize cfg lc i) (fun _ => ∅).
Proof.
  unfold finalize, removeStreamListener, close_channel. eapply kspec_bind; [apply idle_select; cbranches|intros ?]. calling.
Qed.
#[local] Hint Resolve kspec_Accept kspec_wait kspec_finalize : calling.
Lemma kspec_accept_step lc i next d : kspec false ∅ (accept_step pf cfg lc i next d) (fun _ => ∅).
Proof. unfold accept_step, isClosing, operationalError. calling. Qed.
#[local] Hint Resolve kspec_accept_step : calling.
Lemma kspec_accept_rounds lc i answers d : kspec false ∅ (accept_rounds pf cfg lc i answers d) (fun _ => ∅).
Proof. revert d. induction answers as [|a answers IH]; intros d; cbn [accept_rounds]; calling. Qed.
#[local] Hint Resolve kspec_accept_rounds : calling.
Lemma kspec_acceptLoop arr lc i : kspec false ∅ (acceptLoop pf cfg arr lc i) (fun _ => ∅).
Proof. unfold acceptLoop. calling. Qed.
Lemma kspec_accept_adopt lc tls i raw e j c : kspec false {[+ Busy +]} (accept_adopt pf cfg fuel lc tls i raw e j c) (fun _ => {[+ Busy +]}).
Proof. unfold accept_adopt. calling. Qed.
#[local] Hint Resolve kspec_accept_adopt : calling.
Lemma kspec_handleAccepted lc tls i raw : kspec false ∅ (handleAccepted pf cfg fuel lc tls i raw) (fun _ => ∅).
Proof. unfold handleAccepted. calling. Qed.
Lemma kspec_accept_http t next : kspec false ∅ (accept_http cfg fuel t next) (fun _ => ∅).
Proof. unfold accept_http. calling. Qed.
#[local] Hint Resolve kspec_accept_http : calling.
Lemma kspec_gated_round t next : kspec false ∅ (gated_round cfg fuel t next) (fun _ => ∅).
Proof. unfold gated_round. calling. Qed.
#[local] Hint Resolve kspec_gated_round : calling.
Lemma kspec_gated_rounds t answers : kspec false ∅ (gated_rounds cfg fuel t answers) (fun _ => ∅).
Proof. induction answers as [|a answers IH]; cbn [gated_rounds]; calling. Qed.
Lemma calls_ready t x s : calls (on_wsl t (set_wl_ready x) s) = calls s.
Proof. by apply calls_wsl. Qed.
Lemma kspec_gated_handshake tls t c : kspec false ∅ (gated_handshake cfg fuel tls t c) (fun _ => ∅).
Proof.
  unfold gated_handshake. eapply kspec_bind; [calling|intros [act|err]]; [|calling]. eapply kspec_bind; [calling|intros tlscfg].
  eapply kspec_bind with (R := fun _ => ∅); [|intros ?; calling]. destruct (handshake _ _); [calling|]. eapply kspec_bind; [calling|intros []]; cbn [negb]; [|calling].
  eapply kspec_bind with (R := fun _ => ∅); [|intros ?; calling]. apply idle_select. intros s s' x [Hin|(_ & -> & _)%elem_ready]%elem_of_app; [|done].
  destruct (wsl t wl_ready s); [by apply elem_of_nil in Hin| |by apply elem_of_nil in Hin]. apply list_elem_of_singleton in Hin as [= -> ->]. apply calls_ready.
Qed.
Lemma kspec_gated_Accept t : kspec false ∅ (gated_Accept t) (fun _ => ∅).
Proof.
  unfold gated_Accept. eapply kspec_bind; [calling|intros ?]. apply idle_select.
  intros s s' x. destruct (wsl t wl_ready s); [intros (_ & -> & _)%elem_ready..|intros [= -> ->]%list_elem_of_singleton]; apply calls_ready.
Qed.
#[local] Hint Resolve kspec_gated_Accept : calling.
Lemma kspec_upgrade resolve t k h rq : kspec false ∅ (upgrade pf cfg fuel resolve t k h rq) (fun _ => ∅).
Proof.
  unfold upgrade, upgrade_observed. eapply kspec_bind; [calling|intros ?]. destruct (negb _); [calling|].
  eapply kspec_bind; [apply kspec_beginOp|intros [err|]]; cbv iota; [calling|]. eapply kspec_bind with (R := fun _ => {[+ Busy +]}); [calling|intros ?]. calling.
Qed.
#[local] Hint Resolve kspec_upgrade : calling.
Lemma kspec_serve_requests resolve t k h rqs : kspec false ∅ (serve_requests pf cfg fuel resolve t k h rqs) (fun _ => ∅).
Proof. induction rqs as [|rq rqs IH]; cbn [serve_requests]; calling. Qed.
#[local] Hint Resolve kspec_serve_requests : calling.
Lemma kspec_serve_conn resolve requests t k : kspec false ∅ (serve_conn pf cfg fuel resolve requests t k) (fun _ => ∅).
Proof. unfold serve_conn, connContext, lookup_conn, connState. calling. Qed.
Lemma kspec_serve_failed t err : kspec false ∅ (serve_failed t err) (fun _ => ∅).
Proof. unfold serve_failed. calling. Qed.
#[local] Hint Resolve kspec_serve_failed : calling.
Lemma kspec_serve_rounds t answers : kspec false ∅ (serve_rounds cfg fuel t answers) (fun _ => ∅).
Proof. induction answers as [|a answers IH]; cbn [serve_rounds]; calling. Qed.
Lemma kspec_serve_tls_failed t err : kspec false ∅ (serve_tls_failed t err) (fun _ => ∅).
Proof. unfold serve_tls_failed. eapply kspec_bind; [calling|intros []]; [calling|]. apply idle_select. cbranches. Qed.
#[local] Hint Resolve kspec_serve_rounds kspec_serve_tls_failed : calling.
Lemma kspec_serve_tls_rounds t answers : kspec false ∅ (serve_tls_rounds t answers) (fun _ => ∅).
Proof.
  induction answers as [|a answers IH]; cbn [serve_tls_rounds]; [|calling].
  eapply kspec_bind with (R := fun _ => ∅); [|intros ?; calling]. apply idle_select. cbranches.
Qed.
#[local] Hint Resolve kspec_serve_tls_rounds : calling.
Lemma kspec_Serve arr t : kspec false ∅ (Serve cfg fuel arr t) (fun _ => ∅).
Proof. unfold Serve. calling. Qed.
#[local] Hint Resolve kspec_Serve : calling.
Lemma kspec_ws_watch lc t : kspec false ∅ (ws_watch fuel lc t) (fun _ => ∅).
Proof. unfold ws_watch. eapply kspec_bind; [apply idle_select; cbranches|intros ?]. calling. Qed.
Lemma kspec_ws_serve arr lc t : kspec false ∅ (ws_serve cfg fuel arr lc t) (fun _ => ∅).
Proof. unfold ws_serve, close_ws_channel, removeWSListener. calling. Qed.
Definition dial_share (t : task) : gmultiset ctok := match t with TDial d _ => {[+ Dials d +]} | _ => ∅ end.
Lemma kspec_task t : kspec false (dial_share t) (run_task pf cfg fuel en t) (fun _ => ∅).
Proof.
  destruct t as [i|i|i c|t|t|t|t c|t k|d e]; cbn [run_task].
  - apply kspec_watchContext.
  - apply kspec_acceptLoop.
  - apply kspec_handleAccepted.
  - apply kspec_ws_watch.
  - apply kspec_ws_serve.
  - apply kspec_gated_rounds.
  - apply kspec_gated_handshake.
  - apply kspec_serve_conn.
  - apply kspec_transport_dial.
Qed.
Lemma calls_worker k t s n X :
  w_go s !! k = Some (false, t) -> calls_inv s (n, X) -> calls_inv (set_w_go (<[k := (true, t)]> (w_go s)) s) (dial_share t ⊎ n, X).
Proof.
  intros Hk HI. destruct (dial_task (false, t)) as [[? d]|] eqn:Et.
  - destruct t as [| | | | | | | |d0 endpoint]; try done. clear Et d. rename d0 into d. unfold calls_inv, calls in *. cbn [fst snd w_engine w_dials w_go w_wsListeners set_w_go]. eapply calls_begin; [exact HI|..].
    + intros e (e0 & He & E)%list_elem_of_omap. apply list_elem_of_lookup in He as [j Hj]. apply list_lookup_insert_Some in Hj as [(_ & <- & _)|[_ Hj]].
      * right. by injection E as <-.
      * left. apply list_elem_of_omap. exists e0. split; [by eapply list_elem_of_lookup_2|done].
    + intros b' d' (e0 & He & E)%list_elem_of_omap. apply list_elem_of_lookup in He as [j Hj]. destruct (decide (j = k)) as [->|Hne].
      * rewrite Hk in Hj. injection Hj as <-. injection E as <- <-. exists true. apply list_elem_of_omap. exists (true, TDial d endpoint). split; [|done].
        apply (list_elem_of_lookup_2 _ k). apply list_lookup_insert_eq. by eapply lookup_lt_Some.
      * exists b'. apply list_elem_of_omap. exists e0. split; [|done]. apply (list_elem_of_lookup_2 _ j). by rewrite list_lookup_insert_ne.
    + exists false. apply list_elem_of_omap. exists (false, TDial d endpoint). split; [by eapply list_elem_of_lookup_2|done].
  - replace (dial_share t) with (∅ : gmultiset ctok) by (by destruct t). rewrite (left_id_L ∅ (⊎)). eapply calls_view; [|exact HI].
    unfold calls. cbn [w_engine w_dials w_go w_wsListeners set_w_go]. f_equal. f_equal. revert k Hk. induction (w_go s) as [|e gs IH]; intros [|k] Hk; [done..| |].
    + injection Hk as ->. change (<[0%nat := (true, t)]> ((false, t) :: gs)) with ((true, t) :: gs). cbn [omap list_omap]. by destruct t.
    + change (<[S k := (true, t)]> (e :: gs)) with (e :: <[k := (true, t)]> gs). cbn [omap list_omap]. by rewrite (IH _ Hk).
Qed.
Lemma kspec_worker k : kspec false ∅ (worker pf cfg fuel en k) (fun _ => ∅).
Proof.
  unfold worker. eapply kspec_bind with (R := dial_share); [|apply kspec_task]. intros X. apply awp_select; [done|]. intros s [n Y] HI. split.
  - intros _. right. split; [done|]. by left.
  - intros s' t Hin. destruct (w_go s !! k) as [[[] t']|] eqn:Ek; [by apply elem_of_nil in Hin| |by apply elem_of_nil in Hin].
    apply list_elem_of_singleton in Hin as [= -> ->]. exists (dial_share t', X). split; [|done].
    change ((∅, X) ∙ (n, Y)) with (∅ ⊎ n, X ∪ Y) in HI. rewrite (left_id_L ∅ (⊎)) in HI. by apply calls_worker.
Qed.
(** The callers are the goroutines after the workers. *)
Definition calls_at (workers i : nat) : world -> cshare -> Prop := calls_blk (workers <=? i)%nat.
Lemma setup_calls_ok now workers opss c :
  rtc pstep (setup_pool pf cfg fuel en now workers opss) c -> awp_each calls_inv (calls_at workers) false any_panic calls_fin c.
Proof.
  apply awp_each_adequate. exists (replicate (workers + length opss) (∅, ∅)). unfold setup_pool. cbn [fst snd]. split_and!.
  - by rewrite length_replicate, length_app, !length_fmap, length_seq.
  - rewrite gsum_nil by (by apply Forall_replicate). change (gnil (M := cshare)) with ((∅, ∅) : cshare). split; cbn [fst snd calls].
    + by rewrite multiplicity_empty.
    + by intros b d ?%elem_of_nil.
    + intros d. rewrite multiplicity_empty. lia.
    + set_solver.
  - intros i t m Ht [-> _]%lookup_replicate. apply lookup_app_Some in Ht as [Ht|[Hge Ht]].
    + apply list_lookup_fmap_Some in Ht as (k & -> & Hk). apply lookup_lt_Some in Hk as Hlt. rewrite length_seq in Hlt. unfold calls_at. rewrite (proj2 (Nat.leb_gt _ _)) by lia.
      eapply awp_mono; [|apply kspec_worker]. by intros [] [? ?] [? _].
    + apply list_lookup_fmap_Some in Ht as (ops & -> & _). eapply awp_mono; [|apply kspec_client]. by intros [] [? ?] [? _].
Qed.
End programs.
