(* ===== verification/SetupSpawns.v ===== *)
(** * SetupSpawns: how many goroutines the callers start

    A [Listen] starts at most three goroutines, a [Dial] one, and a listener's goroutine
    one for each connection ([amax] bounds what the network has for a listener): with so many workers, every [go] statement of SetupPool.v finds one. *)
From S2P Require Import Prelude Conc Kinds Errors Classify Endpoint NetAddr HostPort Secure.
From S2P Require Import Lifecycle Quota Limits Engine Options ActivityClock Observer Stats HttpClose Setup StreamSetup HttpTracker WsServer WsDial SetupPool Frames.
Local Open Scope go_scope.

Section spawns.
Context (amax : nat).
(** What a goroutine may start itself. *)
Definition offspring (t : task) : nat := match t with TAccept _ | TGated _ | TWsServe _ => S amax | _ => 0 end.
(** The steps a section may take with the goroutines, by what it costs. *)
Inductive starts (gs : list (bool * task)) : list (bool * task) -> nat -> nat -> Prop :=
  | starts_none n : starts gs gs n n
  | starts_go t n : starts gs (gs ++ [(false, t)]) (S (offspring t + n)) n
  | starts_begin k t n : gs !! k = Some (false, t) -> starts gs (<[k := (true, t)]> gs) n (offspring t + n).
Fixpoint spawns {A} (n : nat) (p : prog world A) : Prop :=
  match p with
  | Ret _ => True
  | Act B f k => forall s s' b, Done s' b ∈ f s -> exists n', starts (w_go s) (w_go s') n n' /\ spawns n' (k b)
  end.

Lemma starts_more gs gs' n n' d : starts gs gs' n n' -> starts gs gs' (n + d) (n' + d).
Proof.
  intros []; [constructor| |].
  - replace (S (offspring t + n0) + d)%nat with (S (offspring t + (n0 + d))) by lia. constructor.
  - replace (offspring t + n0 + d)%nat with (offspring t + (n0 + d))%nat by lia. by constructor.
Qed.
Lemma spawns_bind {A B} n n2 (p : prog world A) (k : A -> prog world B) : spawns n p -> (forall a, spawns n2 (k a)) -> spawns (n + n2) (p ≫= k).
Proof.
  revert n. induction p as [a|C f g IH]; intros n Hp Hk.
  - assert (forall B (q : prog world B) n d, spawns n q -> spawns (n + d) q) as Hmore.
    { clear. intros B q. induction q as [x|C f g IH]; intros n d Hq; [done|]. intros s s' b Hin. destruct (Hq s s' b Hin) as (n' & Hs & Hg).
      exists (n' + d)%nat. split; [by apply starts_more|by apply IH]. }
    change (spawns (n + n2) (k a)). rewrite Nat.add_comm. by apply Hmore.
  - intros s s' b Hin. destruct (Hp s s' b Hin) as (n' & Hs & Hg). exists (n' + n2)%nat. split; [by apply starts_more|]. by apply IH.
Qed.
Lemma spawns_bind0 {A B} n (p : prog world A) (k : A -> prog world B) : spawns 0 p -> (forall a, spawns n (k a)) -> spawns n (p ≫= k).
Proof. apply (spawns_bind 0). Qed.
Lemma spawns_then {A B} n (p : prog world A) (k : A -> prog world B) : spawns n p -> (forall a, spawns 0 (k a)) -> spawns n (p ≫= k).
Proof. intros Hp Hk. rewrite <- (Nat.add_0_r n). by apply spawns_bind. Qed.
Lemma spawns_more {A} n n' (p : prog world A) : (n <= n')%nat -> spawns n p -> spawns n' p.
Proof.
  intros Hn. revert n n' Hn. induction p as [x|C f g IH]; intros n n' Hn Hp; [done|]. intros s s' b Hin. destruct (Hp s s' b Hin) as (k & Hs & Hg).
  exists (k + (n' - n))%nat. split; [|eapply IH; [|done]; lia]. replace n' with (n + (n' - n))%nat at 1 by lia. by apply starts_more.
Qed.
Lemma spawns_ret {A} n (a : A) : spawns n (mret a).
Proof. done. Qed.
Lemma spawns_sec {B} n (f : world -> world * B) : (forall s, w_go (f s).1 = w_go s) -> spawns n (atomically f).
Proof.
  intros Hf s s' b Hin. specialize (Hf s). destruct (f s) as [s1 b1] eqn:E; apply list_elem_of_singleton in Hin. simplify_eq. cbn in *.
  exists n. split; [|done]. rewrite Hf. constructor.
Qed.
Lemma spawns_select {B} n (cases : world -> list (world * B)) : (forall s s' b, (s', b) ∈ cases s -> w_go s' = w_go s) -> spawns n (select cases).
Proof.
  intros Hc s s' b ([s1 b1] & E & Hin)%list_elem_of_fmap. simplify_eq. exists n. split; [|done]. rewrite (Hc _ _ _ Hin). constructor.
Qed.
Lemma spawns_panic {B} n (f : world -> option (world * B)) : (forall s s' b, f s = Some (s', b) -> w_go s' = w_go s) -> spawns n (atomic_panic f).
Proof.
  intros Hf s s' b Hin. specialize (Hf s). destruct (f s) as [[s1 b1]|] eqn:E; apply list_elem_of_singleton in Hin; simplify_eq.
  exists n. split; [|done]. rewrite (Hf s1 b1 eq_refl). constructor.
Qed.
Lemma spawns_eng {A} n (p : prog Engine A) : spawns n (eng p).
Proof.
  induction p as [a|B f k IH]; [done|]. intros s s' b (o & E & Hin)%list_elem_of_fmap. destruct o; simplify_eq. exists n. split; [constructor|apply IH].
Qed.
Lemma spawns_go t n : (S (offspring t) <= n)%nat -> spawns n (go t).
Proof.
  intros Hn s s' b Hin%list_elem_of_singleton. simplify_eq. exists (n - S (offspring t))%nat. split; [|done].
  replace n with (S (offspring t + (n - S (offspring t)))) at 1 by lia. constructor.
Qed.

(** ** The pool *)
Definition unborn (gs : list (bool * task)) : nat := sum_list_with (fun e : bool * task => if e.1 then 0 else offspring e.2)%nat gs.
Lemma unborn_app gs gs' : unborn (gs ++ gs') = (unborn gs + unborn gs')%nat.
Proof. unfold unborn. apply sum_list_with_app. Qed.
Lemma unborn_begin gs k t : gs !! k = Some (false, t) -> (unborn (<[k := (true, t)]> gs) + offspring t = unborn gs)%nat.
Proof.
  revert k. induction gs as [|e gs IH]; intros [|k] Hk; [done..| |].
  - injection Hk as ->. change (<[0%nat := (true, t)]> ((false, t) :: gs)) with ((true, t) :: gs). unfold unborn. cbn. lia.
  - specialize (IH _ Hk). change (<[S k := (true, t)]> (e :: gs)) with (e :: <[k := (true, t)]> gs). unfold unborn in *. cbn. lia.
Qed.
Lemma starts_bound gs gs' n n' : starts gs gs' n n' -> (length gs' + unborn gs' + n' <= length gs + unborn gs + n)%nat.
Proof.
  intros []; [lia| |].
  - rewrite length_app, unborn_app. unfold unborn. cbn. lia.
  - rewrite length_insert. pose proof (unborn_begin _ _ _ H). lia.
Qed.
Definition spawned (N : nat) (c : pool world) : Prop :=
  exists ns, Forall2 (fun t n => spawns n t) c.2 ns /\ (length (w_go c.1) + unborn (w_go c.1) + sum_list_with id ns <= N)%nat.
Lemma sum_insert ns i n n' : ns !! i = Some n -> (sum_list_with id (<[i := n']> ns) + n = sum_list_with id ns + n')%nat.
Proof. revert i. induction ns as [|x ns IH]; intros [|i] Hi; simplify_eq/=; [lia|]. specialize (IH _ Hi). unfold id in *. lia. Qed.
Lemma spawned_step N c c' : spawned N c -> pstep c c' -> spawned N c'.
Proof.
  intros (ns & Hns & Hle) Hs. destruct Hs as [s ts i B f k s' b Hi Hin]. cbn [fst snd] in *. destruct (Forall2_lookup_l _ _ _ _ _ Hns Hi) as (n & Hn & Hp).
  destruct (Hp s s' b Hin) as (n' & Hst & Hk). exists (<[i := n']> ns). cbn [fst snd]. split; [by apply Forall2_insert|].
  pose proof (starts_bound _ _ _ _ Hst). pose proof (sum_insert ns i n n' Hn). lia.
Qed.
Lemma spawned_reach N c c' : spawned N c -> rtc pstep c c' -> (length (w_go c'.1) <= N)%nat.
Proof.
  intros Hs Hr. assert (spawned N c') as (ns & _ & ?); [|lia]. induction Hr as [|c1 c2 c3 Hst _ IH]; [done|]. apply IH. by eapply spawned_step.
Qed.
End spawns.

(** ** The programs *)
Create HintDb spawning.
Ltac spawning_leaf :=
  first
    [ apply spawns_ret | apply spawns_eng | solve [auto 2 with spawning nocore]
    | apply spawns_sec; intros ?; cbv beta zeta; repeat case_match; reflexivity
    | apply spawns_panic; intros ? ? ? ?; cbv beta zeta in *; repeat case_match; simplify_eq; reflexivity
    | apply spawns_select; intros ? ? ?; cbv beta zeta; repeat case_match; rewrite ?elem_of_app, ?elem_ready, ?elem_of_nil, ?list_elem_of_singleton; naive_solver ].
Ltac spawning :=
  repeat (cbv beta iota zeta; first
    [ spawning_leaf
    | match goal with |- spawns _ _ (match ?x with _ => _ end) => destruct x end
    | apply spawns_bind0; [solve [spawning]|intros ?] ]).
Section programs.
Context `{WebSocketLib} (amax : nat) (pf : platform) (cfg : config) (fuel : nat) (en : surroundings).
Abbreviation none p := (spawns amax 0 p).
Lemma none_emit ev : none (emit_event cfg ev).
Proof. unfold emit_event. spawning. Qed.
Lemma none_stamp : none (stamp cfg).
Proof. unfold stamp. spawning. Qed.
Lemma none_elapsed t : none (elapsed cfg t).
Proof. unfold elapsed. spawning. Qed.
Lemma none_close_opt c : none (close_opt c).
Proof. unfold close_opt. spawning. Qed.
#[local] Hint Resolve none_emit none_stamp none_elapsed none_close_opt : spawning.
Lemma none_dialStream env e : none (dialStream pf cfg fuel env e).
Proof. unfold dialStream, dialTCP, dial_tls, dial_adopt, observeSetup, adoptStreamWithLease. spawning. Qed.
Lemma none_initiateClose lc i cause : none (initiateClose lc i cause).
Proof. unfold initiateClose, once_enter, close_channel. spawning. Qed.
#[local] Hint Resolve none_dialStream none_initiateClose : spawning.
Lemma none_finalize lc i : none (finalize cfg lc i).
Proof. unfold finalize, once_enter, close_channel. spawning. Qed.
Lemma none_handleAccepted lc tls i raw : none (handleAccepted pf cfg fuel lc tls i raw).
Proof. unfold handleAccepted, accept_adopt, prepare, observeSetup, adoptStreamWithLease. spawning. Qed.
Lemma none_watchContext lc i : none (watchContext lc i).
Proof. unfold watchContext. spawning. Qed.
#[local] Hint Resolve none_finalize : spawning.
Lemma one_accept_step lc i next d : spawns amax 1 (accept_step pf cfg lc i next d).
Proof.
  unfold accept_step, Accept, isClosing, operationalError, waitOrClosed.
  apply spawns_bind0; [spawning|intros [[[c p]|err] temporary]]; [|apply (spawns_more _ 0); [lia|]; spawning].
  assert (spawns amax 1 (go (THandle i c);; mret (Some 0))) by (apply spawns_then; [by apply spawns_go|intros ?; spawning]).
  destruct (np_tcp p); [|done]. case_match; [apply (spawns_more _ 0); [lia|]; spawning|done].
Qed.
Lemma spawns_accept_rounds lc i answers d : spawns amax (S (length answers)) (accept_rounds pf cfg lc i answers d).
Proof.
  revert d. induction answers as [|a answers IH]; intros d; cbn [accept_rounds length].
  - apply spawns_then; [apply one_accept_step|intros ?; spawning].
  - apply (spawns_bind _ 1 (S (length answers))); [apply one_accept_step|]. intros [d'|]; [apply IH|spawning].
Qed.
Lemma spawns_acceptLoop arr lc i : (length (arr i) <= amax)%nat -> spawns amax (S amax) (acceptLoop pf cfg arr lc i).
Proof.
  intros Ha. unfold acceptLoop. apply spawns_then; [|intros ?; spawning].
  eapply spawns_more; [|apply spawns_accept_rounds]. lia.
Qed.
(** *** HTTP and WebSockets *)
Lemma none_holder_release h : none (holder_release fuel h).
Proof. unfold holder_release, leave, detachHolder. spawning. Qed.
#[local] Hint Resolve none_holder_release : spawning.
Lemma none_release_all hs : none (release_all fuel hs).
Proof. induction hs as [|h hs IH]; cbn [release_all]; spawning. Qed.
#[local] Hint Resolve none_release_all : spawning.
Lemma none_closeAll t : none (closeAll fuel t).
Proof. unfold closeAll. spawning. Qed.
Lemma none_releaseConn t k : none (releaseConn fuel t k).
Proof. unfold releaseConn, lookup_conn. spawning. Qed.
Lemma none_accept_http t next : none (accept_http cfg fuel t next).
Proof. unfold accept_http, Accept, register, register_section. spawning. Qed.
#[local] Hint Resolve none_closeAll none_releaseConn none_accept_http : spawning.
Lemma one_gated_round t next : spawns amax 1 (gated_round cfg fuel t next).
Proof.
  unfold gated_round. apply spawns_bind0; [spawning|intros [[c|err]|]]; [|apply (spawns_more _ 0); [lia|]; spawning..].
  apply spawns_then; [by apply spawns_go|intros ?; spawning].
Qed.
Lemma spawns_gated_rounds t answers : spawns amax (S (length answers)) (gated_rounds cfg fuel t answers).
Proof.
  induction answers as [|a answers IH]; cbn [gated_rounds length].
  - apply spawns_then; [apply one_gated_round|intros ?; spawning].
  - apply (spawns_bind _ 1 (S (length answers))); [apply one_gated_round|]. intros []; [apply IH|spawning].
Qed.
Lemma none_gated_handshake tls t c : none (gated_handshake cfg fuel tls t c).
Proof. unfold gated_handshake, rebind, rebind_section. spawning. Qed.
Lemma none_close_serveLn t : none (close_serveLn t).
Proof. unfold close_serveLn, gated_Close, once_enter. spawning. Qed.
Lemma none_upgrade resolve t k h rq : none (upgrade pf cfg fuel resolve t k h rq).
Proof. unfold upgrade, upgrade_observed, takeWithPhysical, leave, detachHolder, upgrade_adopt, newWSSession, observeSetup. spawning. Qed.
#[local] Hint Resolve none_close_serveLn none_upgrade : spawning.
Lemma none_serve_requests resolve t k h rqs : none (serve_requests pf cfg fuel resolve t k h rqs).
Proof. induction rqs as [|rq rqs IH]; cbn [serve_requests]; spawning. Qed.
#[local] Hint Resolve none_serve_requests : spawning.
Lemma none_serve_conn resolve requests t k : none (serve_conn pf cfg fuel resolve requests t k).
Proof. unfold serve_conn, connContext, lookup_conn, connState. spawning. Qed.
Lemma none_serve_failed t err : none (serve_failed t err).
Proof. unfold serve_failed. spawning. Qed.
#[local] Hint Resolve none_serve_failed : spawning.
Lemma none_serve_tls_failed t err : none (serve_tls_failed t err).
Proof. unfold serve_tls_failed. spawning. Qed.
Lemma none_gated_Accept t : none (gated_Accept t).
Proof. unfold gated_Accept. spawning. Qed.
#[local] Hint Resolve none_serve_tls_failed none_gated_Accept : spawning.
Lemma spawns_serve_rounds t answers : spawns amax (length answers) (serve_rounds cfg fuel t answers).
Proof.
  induction answers as [|a answers IH]; cbn [serve_rounds length]; [spawning|]. apply spawns_bind0; [spawning|intros [[c|err]|]].
  - apply (spawns_bind _ 1 (length answers)); [by apply spawns_go|done].
  - apply spawns_bind0; [spawning|intros [e|]]; [spawning|]. by eapply spawns_more; [|exact IH]; lia.
  - by eapply spawns_more; [|exact IH]; lia.
Qed.
Lemma spawns_serve_tls_rounds t answers : spawns amax (length answers) (serve_tls_rounds t answers).
Proof.
  induction answers as [|a answers IH]; cbn [serve_tls_rounds length]; [spawning|]. apply spawns_bind0; [spawning|intros [k|err]].
  - apply (spawns_bind _ 1 (length answers)); [by apply spawns_go|done].
  - apply (spawns_more _ 0); [lia|]. spawning.
Qed.
Lemma none_wsListener_Close lc t : none (wsListener_Close fuel lc t).
Proof. unfold wsListener_Close, once_enter, close_ws_channel, server_Close. spawning. Qed.
#[local] Hint Resolve none_wsListener_Close : spawning.
Lemma none_ws_watch lc t : none (ws_watch fuel lc t).
Proof. unfold ws_watch. spawning. Qed.
Lemma spawns_ws_serve arr lc t : (length (arr t) <= amax)%nat -> spawns amax (S amax) (ws_serve cfg fuel arr lc t).
Proof.
  intros Ha. unfold ws_serve, Serve. apply (spawns_more _ amax); [lia|]. apply spawns_then; [|intros ?; unfold close_ws_channel; spawning].
  apply spawns_bind0; [spawning|intros serving]. apply spawns_then; [|intros ?; spawning].
  destruct serving; [|spawning]. apply spawns_bind0; [spawning|intros tls]. apply spawns_then; [|intros ?; spawning].
  destruct tls; (eapply spawns_more; [|first [apply spawns_serve_tls_rounds|apply spawns_serve_rounds]]); done.
Qed.
(** *** Callers *)
Definition listening : nat := (3 + 2 * S amax)%nat.
Lemma spawns_listenStream network e : spawns amax listening (listenStream pf cfg network e).
Proof.
  unfold listenStream. destruct (listenTCP pf network e) as [addr|]; [|spawning]. destruct (match ep_Scheme e with SchemeTLS => _ | _ => _ end) as [prep|]; [|spawning].
  do 5 (apply spawns_bind0; [spawning|intros ?]). case_match; [spawning|]. apply (spawns_bind _ 1 (2 + 2 * S amax)%nat); [by apply spawns_go|intros ?].
  apply spawns_then; [apply spawns_go; cbn; lia|]. intros ?. spawning.
Qed.
Lemma spawns_listenWebSocket network e : spawns amax listening (listenWebSocket pf cfg fuel network e).
Proof.
  unfold listenWebSocket. destruct (cfg_framerFactory cfg); [spawning|]. destruct (negb _); [spawning|]. destruct (listenTCP pf network e) as [addr|]; [|spawning].
  apply spawns_bind0; [spawning|intros ?]. destruct (match ep_Scheme e with SchemeWSS => _ | _ => _ end) as [tls|]; [|spawning]. do 3 (apply spawns_bind0; [spawning|intros ?]).
  replace listening with (2 + amax + (3 + amax))%nat by (unfold listening; lia). apply spawns_bind.
  { destruct tls; [apply spawns_go; cbn; lia|spawning]. }
  intros ?. apply spawns_bind0; [spawning|intros ?]. case_match; [spawning|]. apply (spawns_bind _ 1 (2 + amax)%nat); [by apply spawns_go|intros ?].
  apply spawns_then; [apply spawns_go; cbn; lia|]. intros ?. spawning.
Qed.
Lemma one_websocket_Dial d e env : spawns amax 1 (websocket_Dial cfg d e env).
Proof. unfold websocket_Dial. apply spawns_then; [by apply spawns_go|intros ?]. spawning. Qed.
Lemma spawns_dialWebSocket dials e : spawns amax 1 (dialWebSocket pf cfg fuel dials e).
Proof.
  unfold dialWebSocket, newWebSocketHTTPTransport, release_admission, take_admission, release_opt. destruct (cfg_framerFactory cfg); [spawning|].
  apply spawns_bind0; [spawning|intros [act|err]]; [|spawning]. apply spawns_bind0; [spawning|intros t]. apply spawns_then; [|intros ?; spawning].
  destruct t as [[tr d]|err]; [|spawning]. apply spawns_then; [|intros ?; spawning]. unfold dial_ws. cbv zeta. apply spawns_bind0; [spawning|intros ?].
  apply spawns_then; [apply one_websocket_Dial|intros ?]. unfold take_admission, dial_ws_adopt, newWSSession, observeSetup. spawning.
Qed.
Lemma none_transport_dial d e env : none (transport_dial cfg fuel d e env).
Proof. unfold transport_dial, DialContext, DialTLSContext, dialRaw, recordConnect, keep_admission, set_admission, set_section. spawning. Qed.
Lemma none_close_each close ls : (forall i, none (close i)) -> none (close_each close ls).
Proof. intros Hc. induction ls as [|i ls IH]; cbn [close_each]; spawning. Qed.
Lemma spawns_op o : spawns amax listening (setup_op_prog pf cfg fuel en o).
Proof.
  assert (forall i, none (stream_close en i)) as Hs by (intros i; unfold stream_close; spawning).
  assert (forall t, none (ws_close fuel en t)) as Hw by (intros t; unfold ws_close; spawning).
  destruct o; cbn [setup_op_prog]; try (apply (spawns_more _ 0); [lia|]; by spawning).
  - apply spawns_then; [|intros ?; spawning]. unfold Listen.
    destruct ctx; cbn [negb]; [|spawning]. destruct (Endpoint_Validate endpoint); [spawning|]. destruct (IsSession _); cbn [negb]; [|spawning]. apply spawns_bind0; [spawning|intros [?|]]; [spawning|].
    apply spawns_then; [|intros ?; spawning].
    destruct (ep_Scheme endpoint); first [apply spawns_listenStream|apply spawns_listenWebSocket|spawning].
  - apply (spawns_more _ 1); [unfold listening; lia|]. apply spawns_then; [|intros ?; spawning]. unfold Dial.
    destruct ctx; cbn [negb]; [|spawning]. destruct (ValidateDial endpoint); [spawning|]. destruct (IsSession _); cbn [negb]; [|spawning]. apply spawns_bind0; [spawning|intros [?|]]; [spawning|]. apply spawns_then; [|intros ?; spawning].
    destruct (ep_Scheme endpoint); first [apply spawns_dialWebSocket|apply (spawns_more _ 0); [lia|by spawning]].
  - apply (spawns_more _ 0); [lia|]. apply spawns_bind0; [spawning|intros r]. destruct r.2; [|spawning]. unfold close_listeners.
    apply spawns_bind0; [by apply none_close_each|intros ?]. by apply none_close_each.
Qed.
Lemma spawns_client ops : spawns amax (length ops * listening) (setup_client pf cfg fuel en ops).
Proof. induction ops as [|o ops IH]; cbn [setup_client length]; [spawning|]. apply spawns_bind; [apply spawns_op|done]. Qed.
Hypothesis stream_bound : forall i, (length (en_stream_arrivals en i) <= amax)%nat.
Hypothesis ws_bound : forall t, (length (en_ws_arrivals en t) <= amax)%nat.
Lemma spawns_task t : spawns amax (offspring amax t) (run_task pf cfg fuel en t).
Proof.
  destruct t as [i|i|i c|t|t|t|t c|t k|d e]; cbn [run_task offspring].
  - apply none_watchContext.
  - by apply spawns_acceptLoop.
  - apply none_handleAccepted.
  - apply none_ws_watch.
  - by apply spawns_ws_serve.
  - eapply spawns_more; [|apply spawns_gated_rounds]. specialize (ws_bound t). lia.
  - apply none_gated_handshake.
  - apply none_serve_conn.
  - apply none_transport_dial.
Qed.
Lemma spawns_worker k : none (worker pf cfg fuel en k).
Proof.
  intros s s' t Hin. apply list_elem_of_fmap in Hin as ([s1 t1] & E & Hin). simplify_eq. exists (offspring amax t1 + 0)%nat. destruct (w_go s !! k) as [[[] t']|] eqn:Ek; [by apply elem_of_nil in Hin| |by apply elem_of_nil in Hin].
  apply list_elem_of_singleton in Hin as [= -> ->]. split; [by constructor|]. rewrite Nat.add_0_r. apply spawns_task.
Qed.
(** The workers that are enough. *)
Definition setup_goroutines (opss : list (list setup_op)) : nat := (length (mjoin opss) * listening)%nat.
Lemma setup_spawns now workers opss c :
  rtc pstep (setup_pool pf cfg fuel en now workers opss) c -> (length (w_go c.1) <= setup_goroutines opss)%nat.
Proof.
  apply (spawned_reach amax). exists (replicate workers 0%nat ++ ((fun ops => length ops * listening)%nat <$> opss)). cbn [fst snd setup_pool]. split.
  - apply Forall2_app.
    + apply Forall2_fmap_l, Forall2_same_length_lookup_2; [by rewrite length_seq, length_replicate|]. intros i k n _ [-> _]%lookup_replicate. apply spawns_worker.
    + apply Forall2_fmap_2, Forall_Forall2_diag, Forall_forall. intros ops _. apply spawns_client.
  - change (w_go (new_world (cfg_limits cfg) now)) with (@nil (bool * task)). rewrite sum_list_with_app. unfold unborn, setup_goroutines. cbn [length sum_list_with].
    assert (sum_list_with id (replicate workers 0%nat) = 0%nat) as -> by (induction workers; done).
    induction opss as [|ops opss' IH]; [done|]. rewrite fmap_cons. change (mjoin (ops :: opss')) with (ops ++ mjoin opss'). rewrite length_app. cbn [sum_list_with]. unfold id in *. lia.
Qed.
End programs.
