(* ===== verification/SetupTheorems.v ===== *)
(** * SetupTheorems: what setting connections up guarantees

    The concerns of SetupLock.v, SetupLeases.v, StreamClosing.v, WsServing.v and SetupCallers.v together, for
    [setup_pool]: any callers of [Listen], [Dial] and [Close], with the goroutines they start,
    in any interleaving. *)
From S2P Require Import Prelude Conc Kinds Errors Classify Endpoint NetAddr HostPort Secure.
From S2P Require Import Lifecycle Quota Limits Engine Options ActivityClock Observer Stats HttpClose Setup StreamSetup HttpTracker WsServer WsDial SetupPool Frames SetupLock SetupLeases SetupQuiet StreamClosing WsClosing WsServing SetupCallers SetupSpawns.
Local Open Scope go_scope.

(** ** The states a listener may be left in *)
(** Accepting: the Engine tracks it, nothing of it is closed. *)
Definition stream_open (i : nat) (s : world) : Prop :=
  lis i li_closing s = false /\ lis i li_ctx s = false /\ lis i li_lnClosed s = false /\ lis i li_done s = false /\
  i ∈ e_streamListeners (w_engine s).
(** Closed: the context has ended, the socket is closed, [done] is closed, the Engine has forgotten it. *)
Definition stream_closed (i : nat) (s : world) : Prop :=
  lis i li_closing s = true /\ lis i li_ctx s = true /\ lis i li_lnClosed s = true /\ lis i li_done s = true /\
  i ∉ e_streamListeners (w_engine s).
(** Open: the Engine tracks it, its server has it and nothing closes it.  (A WSS listener whose
    accept loop has ended after a temporary error is open in this sense although it accepts
    nothing more, see [wss_temporary_error_stops].) *)
Definition ws_open (t : nat) (s : world) : Prop :=
  wsl t wl_closing s = false /\ wsl t wl_ctx s = false /\ wsl t wl_done s = false /\ wsl t wl_serving s = true /\
  t ∈ e_wsListeners (w_engine s).
Definition ws_closed (t : nat) (s : world) : Prop :=
  wsl t wl_closing s = true /\ wsl t wl_ctx s = true /\ wsl t wl_lnClosed s = true /\ wsl t wl_done s = true /\
  wsl t wl_shutdown s = true /\ wsl t wl_serving s = false /\ t ∉ e_wsListeners (w_engine s).
(** The places of a lease: the Engine, the tracker of a WebSocket listener, a wsDialAdmission. *)
Definition lease_places (j : nat) (s : world) : nat :=
  (multiplicity j (tracked s) + occ j (held_lease <$> w_holders s) + occ j (da_lease <$> w_dials s))%nat.
Definition lease_released (j : nat) (s : world) : bool := default false (marks (e_admission (w_engine s)) !! j).

(** A share of the sum is in somebody's hands. *)
Lemma gsum_mset {A B} `{Countable A, Ghost B} (x : A) (ms : list (gmultiset A * B)) :
  (1 <= multiplicity x (gsum ms).1)%nat -> exists m, m ∈ ms /\ x ∈ m.1.
Proof.
  intros Hx. destruct (sum_owner (fun m => multiplicity x m.1)) with (ms := ms) as (m & Hm & Hp); [|done|lia|].
  - intros a b. apply (multiplicity_disj_union a.1 b.1).
  - exists m. split; [done|]. rewrite elem_of_multiplicity. lia.
Qed.

Lemma gsum_has {A B} `{Countable A, Ghost B} (x : A) (ms : list (gmultiset A * B)) m : m ∈ ms -> x ∈ m.1 -> (1 <= multiplicity x (gsum ms).1)%nat.
Proof.
  intros [F ->]%gsum_elem Hx. change (m ∙ F).1 with (m.1 ⊎ F.1). rewrite multiplicity_disj_union. rewrite elem_of_multiplicity in Hx. lia.
Qed.
Lemma gsum_knows {A B} `{Ghost A, Countable B} (x : B) (ms : list (A * gset B)) m : m ∈ ms -> x ∈ m.2 -> x ∈ (gsum ms).2.
Proof. intros [F ->]%gsum_elem Hx. change (m ∙ F).2 with (m.2 ∪ F.2). set_solver. Qed.
(** Only some parts begin with a goroutine. *)
Lemma pending_none x gs : (forall t, task_part t <> Some x) -> pending x gs = 0%nat.
Proof.
  intros Hx. unfold pending. induction gs as [|[[] t] gs IH]; [done|exact IH|]. cbn [List.filter]. rewrite bool_decide_false; [exact IH|]. apply Hx.
Qed.
Lemma wpending_none x gs : (forall t, wtask_part t <> Some x) -> wpending x gs = 0%nat.
Proof.
  intros Hx. unfold wpending. induction gs as [|[[] t] gs IH]; [done|exact IH|]. cbn [List.filter]. rewrite bool_decide_false; [exact IH|]. apply Hx.
Qed.
Lemma wowner x s (ms : list wshare) : (forall t, wtask_part t <> Some x) -> (1 <= wparts (gsum ms).1 s x)%nat -> exists m, m ∈ ms /\ x ∈ m.1.
Proof. intros Hx Hc. unfold wparts in Hc. rewrite wpending_none, Nat.add_0_r in Hc by done. exact (gsum_mset _ _ Hc). Qed.
Lemma whas x s (ms : list wshare) m : m ∈ ms -> x ∈ m.1 -> (1 <= wparts (gsum ms).1 s x)%nat.
Proof. intros Hm Hx. pose proof (gsum_has _ _ _ Hm Hx). unfold wparts. lia. Qed.

Section pool.
Context `{WebSocketLib} (pf : platform) (cfg : config) (fuel : nat) (en : surroundings) (now : Z) (workers amax : nat) (opss : list (list setup_op)).
Abbreviation start := (setup_pool pf cfg fuel en now workers opss).

(** No channel of a listener is closed twice, and nothing else panics: each of the two
    kinds of listeners leaves only the panics of the other. *)
Lemma setup_no_panic c : rtc pstep start c -> ~ panics c.
Proof.
  intros Hr (i & B & f & k & Hi & Hin).
  destruct (awp_ok_at _ _ _ _ _ _ _ _ _ _ (setup_closing_ok _ _ _ _ _ _ _ _ Hr) Hi) as [_ Hp1]. destruct (Hp1 Hin) as (t & get & Hg & E1).
  destruct (awp_ok_at _ _ _ _ _ _ _ _ _ _ (setup_ws_closing_ok _ _ _ _ _ _ _ _ Hr) Hi) as [_ Hp2]. destruct (Hp2 Hin) as (n & get' & Hg' & E2).
  set (s := set_w_listeners (replicate (S n) (set_li_closing false (set_li_done false nil_listener))) (new_world (cfg_limits cfg) 0)).
  assert (lis n get' s = true) as Hl by (apply E2, E1; by destruct Hg as [-> | ->]).
  unfold lis in Hl. assert (w_listeners s !! n = Some (set_li_closing false (set_li_done false nil_listener))) as Es by (apply lookup_replicate_2; lia).
  rewrite Es in Hl. by destruct Hg' as [-> | ->].
Qed.

Section bounded.
Hypothesis limits_ok : validate (cfg_limits cfg) = None.
Hypothesis fuel_ok : (setup_swaps workers amax opss < fuel)%nat.
Hypothesis arrivals_ok : forall t, (length (en_ws_arrivals en t) <= amax)%nat.
Lemma setup_lively c : rtc pstep start c -> lively c.
Proof. intros Hr. exact (awp_lively c eq_refl (setup_lock_ok _ _ _ _ _ _ _ _ limits_ok fuel_ok arrivals_ok _ Hr)). Qed.
(** ** At rest *)
Section rest.
Context (c : pool world) (reach : rtc pstep start c) (still : ~ can_step c).
Lemma rest_lock : e_locked (w_engine c.1) = false /\ exact_counts (e_admission (w_engine c.1)).
Proof.
  destruct (awp_rest c (setup_lock_ok _ _ _ _ _ _ _ _ limits_ok fuel_ok arrivals_ok _ reach) still (setup_no_panic _ reach) (setup_lively _ reach)) as (ms & [E1 E2] & Hms).
  assert (forall m, m ∈ ms -> m.1 = 0%nat /\ clean m.2) as Hall.
  { intros m [i Hi]%list_elem_of_lookup. destruct (Forall2_lookup_r _ _ _ _ _ Hms Hi) as (t & _ & [[_ Hf]|[_ Hb]]); done. }
  split.
  - assert ((gsum ms).1 = 0%nat) as Hz by (apply (sum_none fst); [done..|]; intros m Hm; by apply Hall).
    rewrite Hz in E1. by destruct (e_locked (w_engine c.1)).
  - eapply settled_counts; [|exact E2]. apply clean_copies. rewrite (sum_field snd) by done. apply clean_sum, Forall_fmap, Forall_forall.
    intros m Hm. by apply Hall, list_elem_of_In.
Qed.
(** *** Stream listeners *)
Lemma stream_rest :
  exists ms, closing_inv workers c.1 (gsum ms) /\ (forall i, lis i li_closeOnce c.1 <> InProgress) /\ forall m, m ∈ ms -> resting c.1 m.1.
Proof.
  destruct (awp_rest c (setup_closing_ok _ _ _ _ _ _ _ _ reach) still (setup_no_panic _ reach) (setup_lively _ reach)) as (ms & HI & Hms).
  assert (forall m, m ∈ ms -> calm m.1 /\ (stalled c.1 \/ resting c.1 m.1)) as Hall.
  { intros m [i Hi]%list_elem_of_lookup. destruct (Forall2_lookup_r _ _ _ _ _ Hms Hi) as (t & _ & [[_ Hf]|[_ Hb]]); [|done].
    unfold closing_fin in Hf. rewrite Hf. split; [by intros x; multiset_solver|]. right. by left. }
  assert (forall i, lis i li_closeOnce c.1 <> InProgress) as Ho.
  { intros i Hp. destruct (w_listeners c.1 !! i) as [l|] eqn:Hl; [|unfold lis in Hp; by rewrite Hl in Hp]. rewrite (lis_at _ _ _ Hl) in Hp.
    pose proof (lo_once _ _ _ _ _ (ci_each _ _ _ HI i l Hl)) as H1. cbn [look lv_once] in H1. rewrite Hp in H1. cbn [in_progress one] in H1.
    assert (exists x, running x = true /\ (1 <= parts (gsum ms).1 c.1 x)%nat) as (x & Hx & Hc).
    { destruct (decide (1 <= parts (gsum ms).1 c.1 (OncePre i))%nat); [by eexists (OncePre i)|].
      destruct (decide (1 <= parts (gsum ms).1 c.1 (OnceClosing i))%nat); [by eexists (OnceClosing i)|].
      destruct (decide (1 <= parts (gsum ms).1 c.1 (OnceCancelled i))%nat); [by eexists (OnceCancelled i)|]. exists (OnceLast i). split; [done|lia]. }
    unfold parts in Hc. rewrite pending_none, Nat.add_0_r in Hc by (intros [] ?; simplify_eq/=). destruct (gsum_mset _ _ Hc) as (m & Hm & Hin).
    destruct (Hall m Hm) as [Hcalm _]. specialize (Hcalm x Hin). congruence. }
  exists ms. split_and!; [done..|]. intros m Hm. destruct (Hall m Hm) as [_ [[Hlk|[i Hi]]|?]]; [|by destruct (Ho i)|done].
  destruct rest_lock as [? _]. congruence.
Qed.
(** With a worker for each [go] statement, all goroutines have begun. *)
Hypothesis enough : (length (w_go c.1) <= workers)%nat.
Lemma rest_begun b t : (b, t) ∈ w_go c.1 -> b = true.
Proof.
  intros [n Hn]%list_elem_of_lookup. destruct stream_rest as (ms & HI & _ & Hms). destruct b; [done|]. pose proof (lookup_lt_Some _ _ _ Hn) as Hlt.
  pose proof (ci_idle _ _ _ HI n ltac:(lia)) as Hid. unfold begun in Hid. rewrite Hn in Hid. destruct (gsum_mset _ _ (Hid eq_refl)) as (m & Hm & Hin).
  destruct (Hms m Hm) as [E|[(i & E & _)|[(i & E & _)|(k & E & Hk)]]]; rewrite E in Hin; [by apply gmultiset_elem_of_empty in Hin|apply gmultiset_elem_of_singleton in Hin..]; simplify_eq.
  by destruct (Hk t).
Qed.
Lemma rest_pending x : pending x (w_go c.1) = 0%nat.
Proof.
  unfold pending. apply length_zero_iff_nil. destruct (List.filter _ _) as [|[b t] gs] eqn:E; [done|].
  assert (In (b, t) (List.filter (fun e => bool_decide (waiting e = Some x)) (w_go c.1))) as [Hin Hw]%filter_In by (rewrite E; by left).
  apply list_elem_of_In, rest_begun in Hin as ->. by apply bool_decide_eq_true in Hw.
Qed.
Lemma stream_settled i : loops i (w_go c.1) -> stream_open i c.1 \/ stream_closed i c.1.
Proof.
  intros Hlo. destruct stream_rest as (ms & HI & Ho & Hms).
  destruct (lookup_lt_is_Some_2 _ _ (ci_loop _ _ _ HI i Hlo)) as [l Hl]. pose proof (ci_each _ _ _ HI i l Hl) as Hi. specialize (Ho i). rewrite (lis_at _ _ _ Hl) in Ho.
  assert (forall x, parts (gsum ms).1 c.1 x = multiplicity x (gsum ms).1) as Hp by (intros x; unfold parts; rewrite rest_pending; lia).
  assert (forall x, (1 <= multiplicity x (gsum ms).1)%nat -> match x with
    | Accepting j => lis j li_lnClosed c.1 = false | Watching j => lis j li_ctx c.1 = false | Idle _ => True | _ => False end) as Hx.
  { intros x (m & Hm & Hin)%gsum_mset. destruct (Hms m Hm) as [E|[(j & E & ?)|[(j & E & ? & ?)|(k & E & _)]]]; rewrite E in Hin;
      [by apply gmultiset_elem_of_empty in Hin|apply gmultiset_elem_of_singleton in Hin as ->..]; done. }
  destruct Hi as [H1 H2 H3 H4 H5 H6 H7 H8 H9 H10 H11 H12 H13 H14]. rewrite !Hp in *. cbn [look lv_ctx lv_ln lv_closing lv_done lv_once] in *.
  assert (multiplicity (Finishing i) (gsum ms).1 = 0 /\ multiplicity (Closed i) (gsum ms).1 = 0)%nat as [Z1 Z2].
  { split; match goal with |- multiplicity ?x _ = 0%nat => destruct (decide (1 <= multiplicity x (gsum ms).1)%nat) as [Hin|]; [by destruct (Hx _ Hin)|lia] end. }
  rewrite Z1, Z2, !Nat.add_0_r in *. unfold stream_open, stream_closed. rewrite !(lis_at _ _ _ Hl). unfold is_tracked in H9, H14.
  destruct (li_closeOnce l) eqn:Eo; [left|done|right].
  - assert (li_done l = false) as Hd by (destruct (li_done l) eqn:Ed; [|done]; specialize (H12 eq_refl); done). destruct (H13 Hlo) as [|Ha]; [congruence|].
    destruct (bool_decide (i ∈ e_streamListeners (w_engine c.1))) eqn:Et; [|cbn [one] in H9; lia]. apply bool_decide_eq_true in Et.
    pose proof (Hx _ (H14 eq_refl eq_refl)) as Hc. pose proof (Hx _ Ha) as Hn. cbn beta iota in Hc, Hn. rewrite !(lis_at _ _ _ Hl) in Hc, Hn. split_and!; auto.
  - destruct (H7 eq_refl) as (? & ? & Hln). assert (multiplicity (Accepting i) (gsum ms).1 = 0%nat) as Z3.
    { destruct (decide (1 <= multiplicity (Accepting i) (gsum ms).1)%nat) as [Ha|]; [|lia]. specialize (Hx _ Ha). cbn beta iota in Hx. rewrite (lis_at _ _ _ Hl) in Hx. congruence. }
    destruct (H13 Hlo) as [Hd|]; [|lia]. split_and!; [done..|]. rewrite Z3 in H9. by destruct (bool_decide_reflect (i ∈ e_streamListeners (w_engine c.1))).
Qed.
(** *** WebSocket listeners *)
Lemma ws_shares : exists ms, wclosing_inv c.1 (gsum ms) /\ forall m, m ∈ ms -> wclosing_blk c.1 m.
Proof.
  destruct (awp_rest c (setup_ws_closing_ok _ _ _ _ _ _ _ _ reach) still (setup_no_panic _ reach) (setup_lively _ reach)) as (ms & HI & Hms).
  exists ms. split; [done|]. intros m [i Hi]%list_elem_of_lookup. destruct (Forall2_lookup_r _ _ _ _ _ Hms Hi) as (t & _ & [[_ Hf]|[_ Hb]]); [|done].
  unfold wclosing_fin in Hf. split; rewrite Hf; [by intros x; multiset_solver|]. do 4 right. by left.
Qed.
Section ws.
Context (ms : list wshare) (HI : wclosing_inv c.1 (gsum ms)) (Hall : forall m, m ∈ ms -> wclosing_blk c.1 m).
Lemma gate_rest t : wsl t wl_gonce c.1 <> InProgress.
Proof.
  intros Hp. destruct (w_wsListeners c.1 !! t) as [l|] eqn:Hl; [|unfold wsl in Hp; by rewrite Hl in Hp]. rewrite (wsl_at _ _ _ Hl) in Hp.
  pose proof (wo_gonce _ _ _ _ _ (wi_each _ _ HI t l Hl)) as H1. cbn [wlook wv_gonce] in H1. rewrite Hp in H1. cbn [in_progress one] in H1.
  assert (exists x, gating x = true /\ (1 <= wparts (gsum ms).1 c.1 x)%nat) as (x & Hx & Hc).
  { destruct (decide (1 <= wparts (gsum ms).1 c.1 (GEnter t))%nat); [by eexists (GEnter t)|].
    destruct (decide (1 <= wparts (gsum ms).1 c.1 (GCtx t))%nat); [by eexists (GCtx t)|]. exists (GLn t). split; [done|lia]. }
  destruct (wowner x c.1 ms) as (m & Hm & Hin); [by intros [] ?; simplify_eq/=|done|]. destruct (Hall m Hm) as [Hu _]. specialize (Hu x Hin). congruence.
Qed.
(** The server of a listener that is closed completely does not serve. *)
Lemma serving_rest t l :
  w_wsListeners c.1 !! t = Some l -> wl_serving l = true -> wl_lnClosed l = false \/ wl_gctx l = false \/ wl_shutdown l = false.
Proof.
  intros Hl Hs. pose proof (wo_serving _ _ _ _ _ (wi_each _ _ HI t l Hl)) as Hw. cbn [wlook wv_serving] in Hw. rewrite Hs in Hw. cbn [one] in Hw.
  destruct (wowner (WServing t) c.1 ms) as (m & Hm & Hin); [by intros [] ?; simplify_eq/=|lia|]. destruct rest_lock as [Hlk _].
  destruct (Hall m Hm) as [_ [?|[[t' ?]|[[Hcm _]|[(t' & m' & E & Hcm & _)|Hr]]]]]; [congruence|by destruct (gate_rest t')|by specialize (Hcm _ Hin)| |].
  - rewrite E in Hin. apply gmultiset_elem_of_disj_union in Hin as [?%gmultiset_elem_of_singleton|Hin]; [done|]. by specialize (Hcm _ Hin).
  - destruct Hr as [E|[(t' & E & Hwhy)|(t' & E & _)]]; rewrite E in Hin; [by apply gmultiset_elem_of_empty in Hin|apply gmultiset_elem_of_singleton in Hin..]; [|done].
    injection Hin as <-. by rewrite !(wsl_at _ _ _ Hl) in Hwhy.
Qed.
Lemma down_rest t m : m ∈ ms -> WDown t ∈ m.1 -> SocketClosed t ∈ m.2 -> wsl t wl_serving c.1 = false.
Proof.
  intros Hm Hd Hs. pose proof (whas _ c.1 _ _ Hm Hd) as Hc. destruct (wi_fact _ _ HI _ (gsum_knows _ _ _ Hm Hs)) as (l & Hl & Hln). cbn in Hl, Hln.
  rewrite (wsl_at _ _ _ Hl). destruct (wl_serving l) eqn:Es; [|done]. pose proof (wi_each _ _ HI t l Hl) as Hok.
  pose proof (wo_gcancelled _ _ _ _ _ Hok ltac:(lia)) as Hg. pose proof (wo_down _ _ _ _ _ Hok ltac:(lia)) as Hsd. cbn in Hg, Hsd.
  destruct (serving_rest _ _ Hl Es) as [?|[?|?]]; congruence.
Qed.
Lemma ws_blk_rest m : m ∈ ms -> (wcalm m.1 /\ exists t, wsl t wl_closeOnce c.1 = InProgress) \/ wresting c.1 m.1.
Proof.
  intros Hm. destruct rest_lock as [Hlk _]. destruct (Hall m Hm) as [_ [?|[[t ?]|[?|[(t & m' & E & _ & Hs & Hsv)|Hr]]]]]; [congruence|by destruct (gate_rest t)|by left| |by right].
  rewrite (down_rest t m Hm) in Hsv; [done| |done]. rewrite E. multiset_solver.
Qed.
Lemma once_rest t : wsl t wl_closeOnce c.1 <> InProgress.
Proof.
  intros Hp. destruct (w_wsListeners c.1 !! t) as [l|] eqn:Hl; [|unfold wsl in Hp; by rewrite Hl in Hp]. rewrite (wsl_at _ _ _ Hl) in Hp.
  pose proof (wo_once _ _ _ _ _ (wi_each _ _ HI t l Hl)) as H1. cbn [wlook wv_once] in H1. rewrite Hp in H1. cbn [in_progress one] in H1.
  assert (exists x, (x = WEnter t \/ x = WClosing t \/ x = WCancelled t \/ x = WDown t) /\ (1 <= wparts (gsum ms).1 c.1 x)%nat) as (x & Hx & Hc).
  { destruct (decide (1 <= wparts (gsum ms).1 c.1 (WEnter t))%nat); [eexists (WEnter t); auto|].
    destruct (decide (1 <= wparts (gsum ms).1 c.1 (WClosing t))%nat); [eexists (WClosing t); auto|].
    destruct (decide (1 <= wparts (gsum ms).1 c.1 (WCancelled t))%nat); [eexists (WCancelled t); auto|]. exists (WDown t). split; [auto|lia]. }
  destruct (wowner x c.1 ms) as (m & Hm & Hin); [by destruct Hx as [->|[->|[->| ->]]]; intros [] ?; simplify_eq/=|done|].
  destruct (ws_blk_rest m Hm) as [[Hcm _]|[E|[(t' & E & _)|(t' & E & _)]]].
  - specialize (Hcm x Hin). by destruct Hx as [->|[->|[->| ->]]].
  - rewrite E in Hin. by apply gmultiset_elem_of_empty in Hin.
  - rewrite E in Hin. apply gmultiset_elem_of_singleton in Hin as ->. naive_solver.
  - rewrite E in Hin. apply gmultiset_elem_of_singleton in Hin as ->. naive_solver.
Qed.
Lemma ws_parts x : (1 <= wparts (gsum ms).1 c.1 x)%nat ->
  match x with WServing _ => True | WWatch t => wsl t wl_ctx c.1 = false | _ => False end.
Proof.
  intros Hc. assert (wpending x (w_go c.1) = 0%nat) as Hz.
  { unfold wpending. apply length_zero_iff_nil. destruct (List.filter _ _) as [|[b t] gs] eqn:E; [done|].
    assert (In (b, t) (List.filter (fun e => bool_decide (wwaiting e = Some x)) (w_go c.1))) as [Hin Hw]%filter_In by (rewrite E; by left).
    apply list_elem_of_In, rest_begun in Hin as ->. by apply bool_decide_eq_true in Hw. }
  unfold wparts in Hc. rewrite Hz, Nat.add_0_r in Hc. destruct (gsum_mset _ _ Hc) as (m & Hm & Hin).
  destruct (ws_blk_rest m Hm) as [[_ [t Ht]]|[E|[(t' & E & _)|(t' & E & Hx & _)]]]; [by destruct (once_rest t)|..];
    rewrite E in Hin; [by apply gmultiset_elem_of_empty in Hin|apply gmultiset_elem_of_singleton in Hin as ->..]; done.
Qed.
End ws.
Lemma ws_listener_settled t : serves t (w_go c.1) -> ws_open t c.1 \/ ws_closed t c.1.
Proof.
  intros Hlo. destruct ws_shares as (ms & HI & Hall).
  destruct (lookup_lt_is_Some_2 _ _ (wi_loop _ _ HI t Hlo)) as [l Hl]. pose proof (once_rest ms HI Hall t) as Ho. rewrite (wsl_at _ _ _ Hl) in Ho.
  pose proof (ws_parts ms HI Hall) as Hx. pose proof (serving_rest ms HI Hall t l Hl) as Hsr.
  destruct (wi_each _ _ HI t l Hl) as [_ _ _ _ _ _ _ _ _ _ H11 H12 _ H14 _ H16 H17 H18 H19 _]. cbn [wlook wv_ctx wv_closing wv_done wv_once wv_serving wv_shutdown wv_ln wv_gctx] in *.
  assert (forall x, match x with WServing _ | WWatch _ => False | _ => True end -> wparts (gsum ms).1 c.1 x = 0%nat) as Hz.
  { intros x Hk. destruct (decide (1 <= wparts (gsum ms).1 c.1 x)%nat) as [Hin|]; [|lia]. specialize (Hx _ Hin). by destruct x. }
  rewrite (Hz (WServe t)), (Hz (WEnded t)), H19 in H14 by done. rewrite (Hz (WServe t)), H19 in H17 by done.
  unfold ws_open, ws_closed. rewrite !(wsl_at _ _ _ Hl). unfold ws_tracked in H14, H18. destruct (wl_closeOnce l) eqn:Eo; [left|done|right].
  - assert (wl_done l = false) as Hd by (destruct (wl_done l) eqn:Ed; [|done]; specialize (H16 eq_refl); done). destruct (H17 Hlo) as [|Hs]; [congruence|].
    destruct (wl_serving l) eqn:Es; [|cbn [one] in Hs; lia]. destruct (bool_decide_reflect (t ∈ e_wsListeners (w_engine c.1))) as [Et|]; [|done].
    pose proof (Hx _ (H18 eq_refl eq_refl)) as Hc. cbn beta iota in Hc. rewrite (wsl_at _ _ _ Hl) in Hc. split_and!; auto.
  - destruct (H12 eq_refl) as (? & ? & Hg & Hsd & Hln). assert (wl_serving l = false) as Hs.
    { destruct (wl_serving l) eqn:Es; [|done]. destruct (Hsr eq_refl) as [?|[?|?]]; congruence. }
    rewrite Hs in *. destruct (H17 Hlo) as [Hd|]; [|cbn [one] in *; lia]. split_and!; try done.
    by destruct (bool_decide_reflect (t ∈ e_wsListeners (w_engine c.1))).
Qed.
(** *** Leases *)
Lemma leases_settled j :
  (lease_places j c.1 + one (lease_released j c.1) = one (j <? length (as_leases (e_admission (w_engine c.1))))%nat)%nat.
Proof.
  destruct (awp_rest c (setup_leases_ok _ _ _ _ _ _ _ _ reach) still (setup_no_panic _ reach) (setup_lively _ reach)) as (ms & [Hp _ _] & Hms).
  assert (multiplicity (Lease j) (gsum ms) = 0%nat) as Hz.
  { apply (sum_none (fun m : gmultiset ltok => multiplicity (Lease j) m)); [intros a b; apply (multiplicity_disj_union a b)|done|].
    intros m [i Hi]%list_elem_of_lookup. destruct (Forall2_lookup_r _ _ _ _ _ Hms Hi) as (t & _ & [[_ Hf]|[_ Hb]]); [by apply Hf|].
    destruct Hb as [[Hlk|[k Hk]]|Hf]; [|destruct stream_rest as (? & _ & Ho & _); by destruct (Ho k)|by apply Hf]. destruct rest_lock. congruence. }
  specialize (Hp j). cbv beta in Hp. rewrite Hz in Hp. unfold lease_places, lease_released. unfold marks in Hp at 2. rewrite length_fmap in Hp. lia.
Qed.
(** *** Operations and callers *)
Lemma shut_rest t l : w_wsListeners c.1 !! t = Some l -> wl_shutdown l = true -> wl_serving l = false.
Proof.
  intros Hl Hd. destruct ws_shares as (ms & HI & Hall). destruct (wl_serving l) eqn:Es; [|done]. pose proof (wi_each _ _ HI t l Hl) as Hok.
  destruct (wo_shut _ _ _ _ _ Hok Hd) as [Hf|Hc]; [|by destruct (ws_parts ms HI Hall _ Hc)]. destruct (wo_after _ _ _ _ _ Hok Hf) as (_ & _ & Hg & _ & Hn). cbn in Hg, Hn.
  destruct (serving_rest ms HI Hall t l Hl Es) as [?|[?|?]]; congruence.
Qed.
Lemma calls_rest :
  e_activeOps (w_engine c.1) = 0 /\ forall i t, (workers <= i)%nat -> c.2 !! i = Some t -> t = Ret tt.
Proof.
  destruct (awp_each_rest _ _ _ _ _ c (setup_calls_ok _ _ _ _ _ _ _ _ reach) still (setup_no_panic _ reach) (setup_lively _ reach)) as (ms & El & HI & Hms).
  destruct rest_lock as [Hlk _]. destruct stream_rest as (_ & _ & Ho & _). destruct ws_shares as (wms & HW & Hall).
  assert (~ waits c.1) as Hw by (intros [[i Hi]|[[t Ht]|[t Ht]]]; [by destruct (Ho i)|by destruct (gate_rest wms HW Hall t)|by destruct (once_rest wms HW Hall t)]).
  assert (forall m, m ∈ ms -> exists i t, c.2 !! i = Some t /\ ms !! i = Some m) as Hat.
  { intros m [i Hi]%list_elem_of_lookup. destruct (lookup_lt_is_Some_2 c.2 i) as [t Ht]; [rewrite <- El; by eapply lookup_lt_Some|]. by exists i, t. }
  assert (forall d, multiplicity (Dials d) (gsum ms).1 = 0%nat) as Hz.
  { intros d. destruct (decide (1 <= multiplicity (Dials d) (gsum ms).1)%nat) as [Hd|]; [|lia]. destruct (gsum_mset _ _ Hd) as (m & Hm & Hin).
    destruct (Hat m Hm) as (i & t & Ht & Hi). rewrite elem_of_multiplicity in Hin.
    destruct (Hms i t m Ht Hi) as [[_ Hf]|[_ [?|[Hu _]]]]; [|congruence|rewrite Hu in Hin; lia]. unfold calls_fin in Hf. rewrite Hf, multiplicity_empty in Hin. lia. }
  assert (forall i t m, c.2 !! i = Some t -> ms !! i = Some m -> m.1 = ∅ /\ (t = Ret tt \/ (workers <=? i)%nat = false)) as Hdone.
  { intros i t m Ht Hi. pose proof (list_elem_of_lookup_2 _ _ _ Hi) as Hm. destruct (Hms i t m Ht Hi) as [[-> Hf]|[_ [?|[_ [[Hb ?]|[?|[(u & Hu & Hs)|(d & Hd & Hn)]]]]]]]; [by auto|congruence|by auto|done| |].
    - pose proof (ca_fact _ _ HI _ (gsum_knows _ _ _ Hm Hu)) as Hf. cbn in Hf. rewrite list_lookup_fmap in Hf. apply fmap_Some in Hf as (l & Hl & El').
      rewrite (wsl_at _ _ _ Hl) in Hs. rewrite (shut_rest u l Hl) in Hs; done.
    - pose proof (ca_fact _ _ HI _ (gsum_knows _ _ _ Hm Hd)) as [b Hb]. pose proof (ca_task _ _ HI b d Hb) as Ha. cbn [fst snd calls] in Ha. rewrite Hz in Ha.
      rewrite list_lookup_fmap in Ha. apply list_elem_of_omap in Hb as ([b' t'] & Hin & Ed). apply rest_begun in Hin as ->. destruct t'; try done. injection Ed as <- ->.
      unfold dial in Hn. destruct (w_dials c.1 !! d) as [a|]; cbn in Ha, Hn; [|naive_solver]. unfold answered in Ha. rewrite Hn in Ha. destruct Ha as [?|[_ [?|?]]]; [done..|lia]. }
  split.
  - pose proof (ca_ops _ _ HI) as Hops. cbn [fst snd calls] in Hops. rewrite Hops. destruct (decide (1 <= multiplicity Busy (gsum ms).1)%nat) as [Hd|]; [|lia].
    destruct (gsum_mset _ _ Hd) as (m & Hm & Hin). destruct (Hat m Hm) as (i & t & Ht & Hi). destruct (Hdone i t m Ht Hi) as [E _]. rewrite E in Hin. by apply gmultiset_elem_of_empty in Hin.
  - intros i t Hge Ht. destruct (lookup_lt_is_Some_2 ms i) as [m Hi]; [rewrite El; by eapply lookup_lt_Some|]. destruct (Hdone i t m Ht Hi) as [_ [?|Hf]]; [done|].
    apply Nat.leb_gt in Hf. lia.
Qed.
End rest.

(** ** The theorems *)
(** What is left when nothing can happen any more: no operation is under way, the lock is
    free, the admission counters are exact, every lease that was not released is in one
    place, and every listener that was started is open ([stream_open], [ws_open]) or
    completely closed. *)
Definition setup_settled (s : world) : Prop :=
  e_activeOps (w_engine s) = 0 /\ e_locked (w_engine s) = false /\ exact_counts (e_admission (w_engine s)) /\
  (forall j, (j < length (as_leases (e_admission (w_engine s))))%nat -> lease_places j s = if lease_released j s then 0%nat else 1%nat) /\
  (forall i, loops i (w_go s) -> stream_open i s \/ stream_closed i s) /\
  (forall t, serves t (w_go s) -> ws_open t s \/ ws_closed t s).
(** C5. Whatever the callers, the network and the scheduler do, every run ends, and when it does
    every call of [Listen], [Dial] and [Close] has returned and everything is settled: no operation is left open,
    no listener is half closed, and no lease was lost or released twice.  (The pool has
    a worker for each [go] statement that may run.) *)
Theorem setup_settles :
  (forall i, length (en_stream_arrivals en i) <= amax)%nat -> (setup_goroutines amax opss <= workers)%nat ->
  inevitable (fun c => Forall (fun t => t = Ret tt) (drop workers c.2) /\ setup_settled c.1) start.
Proof.
  intros Ha Hw. apply inevitable_end. intros c Hr Hst.
  assert (length (w_go c.1) <= workers)%nat as Hg by (etrans; [by eapply setup_spawns|done]). clear Hw. rename Hg into Hw. destruct (calls_rest c Hr Hst Hw) as [Ho Hc]. destruct (rest_lock c Hr Hst) as [Hl He]. split.
  - apply Forall_lookup. intros i t Ht. rewrite lookup_drop in Ht. eapply Hc; [|exact Ht]. lia.
  - split_and!; [done..| | |].
    + intros j Hj. pose proof (leases_settled c Hr Hst Hw j) as Hp. apply Nat.ltb_lt in Hj. rewrite Hj in Hp. destruct (lease_released j c.1); cbn [one] in Hp; lia.
    + intros i. by apply stream_settled.
    + intros t. by apply ws_listener_settled.
Qed.
(** C6. At every moment of every run the limits of the configuration hold, the listeners'
    connections and the dials being admitted concurrently, and no lease is in two places or
    in one after its release. *)
Theorem setup_admission c :
  rtc pstep start c -> within_limits (cfg_limits cfg) (e_admission (w_engine c.1)) /\ forall j, (lease_places j c.1 + one (lease_released j c.1) <= 1)%nat.
Proof.
  intros Hr. split.
  - destruct (setup_lock_ok _ _ _ _ _ _ _ _ limits_ok fuel_ok arrivals_ok _ Hr) as (ms & _ & [_ HI]). by eapply inv_within_limits.
  - intros j. destruct (setup_leases_ok _ _ _ _ _ _ _ _ Hr) as (ms & _ & [Hp _ _]). specialize (Hp j). cbv beta in Hp. unfold lease_places, lease_released.
    destruct (j <? _)%nat; cbn [one] in Hp; lia.
Qed.
End bounded.
(** The channel [done] of a listener is closed last. *)
Definition orderly (s : world) : Prop :=
  (forall i, (i < length (w_listeners s))%nat -> lis i li_done s = true -> lis i li_closing s = true /\ lis i li_ctx s = true /\ lis i li_lnClosed s = true) /\
  (forall t, (t < length (w_wsListeners s))%nat -> wsl t wl_done s = true ->
     wsl t wl_closing s = true /\ wsl t wl_ctx s = true /\ wsl t wl_lnClosed s = true /\ wsl t wl_shutdown s = true).
(** C7. No channel is closed twice, whoever closes a listener, how often, and however the
    closings interleave, so nothing panics; and whoever sees a listener's [Done] finds its
    socket closed and its context ended. *)
Theorem setup_safe c : rtc pstep start c -> ~ panics c /\ orderly c.1.
Proof.
  intros Hr. split; [by apply setup_no_panic|]. split.
  - intros i [l Hl]%lookup_lt_is_Some_2. rewrite !(lis_at _ _ _ Hl). intros Hd. destruct (setup_closing_ok _ _ _ _ _ _ _ _ Hr) as (ms & _ & HI).
    pose proof (ci_each _ _ _ HI i l Hl) as Hok. exact (lo_after _ _ _ _ _ Hok (lo_done _ _ _ _ _ Hok Hd)).
  - intros t [l Hl]%lookup_lt_is_Some_2. rewrite !(wsl_at _ _ _ Hl). intros Hd. destruct (setup_ws_closing_ok _ _ _ _ _ _ _ _ Hr) as (ms & _ & HI).
    pose proof (wi_each _ _ HI t l Hl) as Hok. destruct (wo_after _ _ _ _ _ Hok (wo_done _ _ _ _ _ Hok Hd)) as (? & ? & ? & ? & ?). done.
Qed.
End pool.

(** ** Concrete runs *)
Definition demo_ws_lib : WebSocketLib := {| CloseStatus := fun _ => -1 |}.
Definition demo_addr (last port : Z) : net_addr := TCPAddr (Some {| ip_bytes := to_byte <$> [192; 0; 2; last]; ip_port := port; ip_zone := "" |}).
Definition demo_peer : net_peer := {| np_local := demo_addr 1 9000; np_remote := demo_addr 7 5000; np_tcp := Some (fun _ => None) |}.
Definition demo_handshake : handshake_answer := {| ha_err := None; ha_parent := None; ha_operation := None; ha_after := None |}.
Definition demo_ws_dial (gives_up : option error) : ws_dial :=
  {| wd_network := fun _ => {| dl_result := inl demo_peer; dl_parent := None; dl_operation := None |};
     wd_handshake := fun _ _ => demo_handshake; wd_upgrade := None; wd_gives_up := gives_up; wd_cause := None |}.
Definition demo_stream_dial : stream_dial := {| sd_network := wd_network (demo_ws_dial None); sd_handshake := fun _ _ => demo_handshake |}.
Definition demo_surroundings (arrivals : list accept_answer) (gives_up : option error) : surroundings :=
  {| en_stream_arrivals := fun _ => arrivals; en_ws_arrivals := fun _ => arrivals; en_stream_close := fun _ => None; en_ws_close := fun _ => None;
     en_tls := fun _ _ _ => demo_handshake; en_requests := fun _ => [{| rq_path := "/"; rq_accept := None |}];
     en_dials := fun _ => demo_ws_dial gives_up; en_resolve := fun _ => None |}.
Definition demo_endpoint (s : Scheme) : Endpoint :=
  {| ep_Scheme := s; ep_Host := "127.0.0.1"; ep_Port := 80; ep_Path := match s with SchemeWS | SchemeWSS => "/" | _ => "" end; ep_RawQuery := "" |}.
Definition demo_listen (s : Scheme) : setup_op := SListen true (fun _ => {| la_result := inl (demo_addr 1 9000, true); la_cause := None |}) (demo_endpoint s).
Definition demo_dial_op (s : Scheme) : setup_op := SDial true demo_stream_dial (demo_endpoint s).
Definition demo_config : config :=
  set_serverTLS (Some {| MinVersion := 0; MaxVersion := 0; ServerName := ""; Certificates := [1]; GetCertificate := false; GetConfigForClient := false |}) defaultConfig.
(** The pool, with as many workers as the callers may need. *)
Definition demo_pool (arrivals : list accept_answer) (gives_up : option error) (opss : list (list setup_op)) : pool world :=
  @setup_pool demo_ws_lib Unix demo_config 1000 (demo_surroundings arrivals gives_up) 1 (setup_goroutines (length arrivals) opss) opss.
(** A stream listener and a WebSocket listener, a connection to each of them, two dials, and then [Engine.Close]. *)
Definition demo_calls : list (list setup_op) :=
  [[demo_listen SchemeTCP; demo_listen SchemeWS; SAbort]; [demo_dial_op SchemeTLS; demo_dial_op SchemeWS; SCloseListener 0]].
Lemma setup_settles_witness :
  inevitable (fun c => Forall (fun t => t = Ret tt) (drop (setup_goroutines 1 demo_calls) c.2) /\ setup_settled c.1) (demo_pool [Arrives demo_peer] None demo_calls).
Proof.
  refine (@setup_settles demo_ws_lib Unix demo_config 1000 (demo_surroundings [Arrives demo_peer] None) 1 (setup_goroutines 1 demo_calls) 1 demo_calls _ _ _ _ _).
  - vm_compute. reflexivity.
  - vm_compute. lia.
  - intros t. cbn. lia.
  - intros i. cbn. lia.
  - lia.
Defined.
Definition demo_run : pool world := reached (demo_pool [Arrives demo_peer] None demo_calls) (in_turn (setup_goroutines 1 demo_calls + 2) 40).
Lemma setup_admission_witness :
  within_limits (cfg_limits demo_config) (e_admission (w_engine demo_run.1)) /\ (lease_places 0 demo_run.1 + one (lease_released 0 demo_run.1) <= 1)%nat.
Proof.
  destruct (@setup_admission demo_ws_lib Unix demo_config 1000 (demo_surroundings [Arrives demo_peer] None) 1 (setup_goroutines 1 demo_calls) 1 demo_calls
    ltac:(vm_compute; reflexivity) ltac:(vm_compute; lia) ltac:(intros t; cbn; lia) demo_run (reached_steps _ _)) as [H1 H2].
  split; [exact H1|apply H2].
Defined.
Lemma setup_safe_witness : ~ panics demo_run /\ orderly demo_run.1.
Proof.
  exact (@setup_safe demo_ws_lib Unix demo_config 1000 (demo_surroundings [Arrives demo_peer] None) 1 (setup_goroutines 1 demo_calls) demo_calls demo_run (reached_steps _ _)).
Defined.

(** ** What the code does not guarantee *)
(** Everything has come to rest, every caller has returned, [Engine.Close] was called, and the Engine's [Done] is open for ever. *)
Definition never_done (workers : nat) (c : pool world) : Prop :=
  ~ can_step c /\ Forall (fun t => t = Ret tt) (drop workers c.2) /\ e_state (w_engine c.1) = engineAborting /\ e_done (w_engine c.1) = false.
Definition demo_abandoned : pool world :=
  reached (demo_pool [] (Some (Sentinel ContextCanceled)) [[demo_dial_op SchemeWS; SAbort]])
    (replicate 20 (10, 0) ++ replicate 5 (0, 0) ++ replicate 200 (10, 1) ++ replicate 200 (10, 0) ++ replicate 100 (0, 0))%nat.
(** A WebSocket dial whose context ends while it connects leaves its lease behind: the lease is put into the
    wsDialAdmission after the caller has emptied it, nobody ever releases it, and [Done] of the
    Engine does not close. *)
Theorem abandoned_dial_leaks :
  rtc pstep (demo_pool [] (Some (Sentinel ContextCanceled)) [[demo_dial_op SchemeWS; SAbort]]) demo_abandoned /\
  never_done 10 demo_abandoned /\ da_lease <$> w_dials demo_abandoned.1 = [Some 0%nat] /\ lease_released 0 demo_abandoned.1 = false.
Proof.
  split_and!; [apply reached_steps| |vm_compute; reflexivity..]. split_and!; [|vm_compute; repeat constructor|vm_compute; reflexivity..].
  apply pool_blocked_no_step. vm_compute. reflexivity.
Qed.
Definition demo_shutdown : pool world :=
  reached (demo_pool [Arrives demo_peer] None [[demo_listen SchemeWSS; SAbort]])
    (replicate 11 (14, 0) ++ replicate 6 (0, 0) ++ replicate 100 (14, 0) ++ replicate 100 (2, 0) ++ mjoin (replicate 8 (in_turn 15 50)))%nat.
(** The accept loop of a WSS listener may admit a connection while the Engine closes; its
    lease is released without a look at whether the Engine is done, so [Done] does not
    close although nothing is left. *)
Theorem wss_shutdown_hangs :
  rtc pstep (demo_pool [Arrives demo_peer] None [[demo_listen SchemeWSS; SAbort]]) demo_shutdown /\
  never_done 14 demo_shutdown /\ nothing_left (w_engine demo_shutdown.1) = true.
Proof.
  split_and!; [apply reached_steps| |vm_compute; reflexivity]. split_and!; [|vm_compute; repeat constructor|vm_compute; reflexivity..].
  apply pool_blocked_no_step. vm_compute. reflexivity.
Qed.
(** A listener meets a temporary error and then a connection. *)
Definition demo_temporary (s : Scheme) : pool world :=
  reached (demo_pool [AcceptFails (plain_error 1) true; Arrives demo_peer] None [[demo_listen s]]) (mjoin (replicate 8 (in_turn 10 60))).
(** A temporary error of [Accept] ends the accept loop of a WSS listener for good: the next
    connection is not accepted, and the listener is neither closed nor reports an error.  The other listeners accept it. *)
Theorem wss_temporary_error_stops :
  pool_blocked (demo_temporary SchemeWSS) = true /\ ws_open 0 (demo_temporary SchemeWSS).1 /\ w_sockets (demo_temporary SchemeWSS).1 = [] /\
  wsl 0 wl_err (demo_temporary SchemeWSS).1 = None /\
  length (w_started (demo_temporary SchemeWS).1) = 1%nat /\ length (w_started (demo_temporary SchemeTCP).1) = 1%nat.
Proof.
  split_and!; [vm_compute; reflexivity| |vm_compute; reflexivity..]. split_and!; [vm_compute; reflexivity..|].
  apply (bool_decide_eq_true_1 (0%nat ∈ e_wsListeners (w_engine (demo_temporary SchemeWSS).1))). vm_compute. reflexivity.
Qed.
