(* ===== verification/Packet.v ===== *)
(** * Packet: UDP packet connections

    Models transport/packet.go, packet_graceful.go and packet_error_helpers.go on the way
    out of SendPath.v.  A [*net.UDPAddr] is an [option ipaddr]; passed where a [net.Addr] is
    expected it becomes the interface value [UDPAddr a], which is not nil even when the
    pointer is (Errors.v).  What the socket answers to a write, and to the two deadline
    calls around it, is given per write ([dgram_io]); [net.ResolveUDPAddr] is the argument
    [resolve].  Observer events and the [OnClose] callback, which do not touch the state,
    are left out. *)
From S2P Require Import Prelude Conc Kinds Errors Classify Gate Quota SendPath Endpoint NetAddr.
Local Open Scope go_scope.
Local Open Scope string_scope.
Local Open Scope list_scope.
Local Open Scope Z_scope.

Record packetEnv := {
  pe_local : net_addr; pe_remote : option ipaddr;   (* connected to *)
  pe_maxPacket : Z;
  pe_readIdle : bool;   (* [timeouts.ReadIdle > 0] *)
}.
(** A datagram and where to send it, nil for the connected peer. *)
Record datagram := { dg_peer : option ipaddr; dg_data : bytes }.

Record packetConn := PacketConn {
  pk_path : sendPath datagram;   (* queue, quota, gate, slots, closing, done, closeOnce, loops *)
  pk_err : option error;   (* err *)
  pk_drainOnce : bool;   (* drainOnce has run *)
  pk_drainReq : bool;   (* drainReq is closed *)
  pk_writes : nat;   (* writes tried so far *)
  pk_bytesTX : Z;
  pk_packetsTX : Z;
  pk_backpressure : Z;
}.
Definition set_path (x : sendPath datagram) (p : packetConn) : packetConn :=
  PacketConn x (pk_err p) (pk_drainOnce p) (pk_drainReq p) (pk_writes p) (pk_bytesTX p) (pk_packetsTX p) (pk_backpressure p).
Definition set_err (x : option error) (p : packetConn) : packetConn :=
  PacketConn (pk_path p) x (pk_drainOnce p) (pk_drainReq p) (pk_writes p) (pk_bytesTX p) (pk_packetsTX p) (pk_backpressure p).
Definition set_drainOnce (x : bool) (p : packetConn) : packetConn :=
  PacketConn (pk_path p) (pk_err p) x (pk_drainReq p) (pk_writes p) (pk_bytesTX p) (pk_packetsTX p) (pk_backpressure p).
Definition set_drainReq (x : bool) (p : packetConn) : packetConn :=
  PacketConn (pk_path p) (pk_err p) (pk_drainOnce p) x (pk_writes p) (pk_bytesTX p) (pk_packetsTX p) (pk_backpressure p).
Definition set_writes (x : nat) (p : packetConn) : packetConn :=
  PacketConn (pk_path p) (pk_err p) (pk_drainOnce p) (pk_drainReq p) x (pk_bytesTX p) (pk_packetsTX p) (pk_backpressure p).
Definition set_TX (b k : Z) (p : packetConn) : packetConn :=
  PacketConn (pk_path p) (pk_err p) (pk_drainOnce p) (pk_drainReq p) (pk_writes p) b k (pk_backpressure p).
Definition set_backpressure (x : Z) (p : packetConn) : packetConn :=
  PacketConn (pk_path p) (pk_err p) (pk_drainOnce p) (pk_drainReq p) (pk_writes p) (pk_bytesTX p) (pk_packetsTX p) x.
Definition path_in : lens packetConn (sendPath datagram) := {| lget := pk_path; lset := set_path |}.
Definition on_path {A} (p : prog (sendPath datagram) A) : prog packetConn A := lift path_in p.

(** [newPacketConn], and [start] with [n] loops. *)
Definition newPacketConn (writeQueue maxQueuedBytes maxTotal n : Z) : packetConn :=
  PacketConn (new_path writeQueue maxQueuedBytes maxTotal n) None false false 0 0 0 0.

(** What one write meets. *)
Record dgram_io := {
  di_setErr : option error; di_write : option ipaddr -> bytes -> option error; di_clearErr : option error }.

Section packet.
Context `{WebSocketLib} (pf : platform) (env : packetEnv) (resolve : string -> result ipaddr).
Context (cause_of : nat -> error) (io : nat -> dgram_io) (qfuel : nat).

(** ** Errors *)
Definition RemoteAddr : option net_addr :=
  match pe_remote env with None => None | Some a => Some (UDPAddr (Some a)) end.
(** The conversion of a [*net.UDPAddr] to [net.Addr]. *)
Definition as_addr (peer : option ipaddr) : option net_addr := Some (UDPAddr peer).
Definition operationalError (op : Op) (cause : error) (remote : option net_addr) : option error :=
  let remote := match remote with None => RemoteAddr | r => r end in
  classifyOperational pf op SchemeUDP (Some (pe_local env)) remote (Some cause) hintNone.

Definition Err : prog packetConn (option error) := atomically (fun p => (p, pk_err p)).
Definition ctx_cause (k : nat) (p : packetConn) : option error :=
  match path_ctx k (pk_path p) with Some _ => Some (cause_of k) | None => None end.
Definition cause_or (k : nat) (q : prog packetConn (option error)) : prog packetConn (option error) :=
  c ← atomically (fun p => (p, ctx_cause k p));
  match c with Some c => mret (Some c) | None => q end.
Definition sendError (k : nat) (err : error) (remote : option net_addr) : prog packetConn (option error) :=
  cause_or k (mret (operationalError OpSend err remote)).
Definition trySendError (err : error) (peer : option net_addr) : prog packetConn (option error) :=
  (if errors_Is err ErrWouldBlock
   then atomically (fun p => (set_backpressure (inc_u64 (pk_backpressure p)) p, tt)) else mret tt) ≫= fun _ =>
  mret (operationalError OpSend err peer).
(** The terminal error, or else [ErrClosed]. *)
Definition terminal_or_closed (peer : option ipaddr) : prog packetConn (option error) :=
  t ← Err;
  mret (match t with Some t => Some t | None => operationalError OpSend ErrClosed (as_addr peer) end).

(** ** Sending *)
Definition validatePacket (data : bytes) : option error :=
  if zlen data >? pe_maxPacket env then Some (Sentinel ErrDatagramTooLarge) else None.

(** Giving back the bytes and the slot of a request that is not queued. *)
Definition unreserve (n : Z) : prog packetConn unit :=
  on_path (path_release n) ≫= fun _ => on_path releaseSlot.
Definition send_inside (k : nat) (peer : option ipaddr) (data : bytes) : prog packetConn (option error) :=
  match validatePacket data with
  | Some e => mret (operationalError OpSend e (as_addr peer))
  | None =>
      e ← on_path (acquireSlot k);
      match e with
      | Some e => sendError k e (as_addr peer)
      | None =>
          e ← on_path (path_acquire qfuel k (zlen data));
          match e with
          | Some e => r ← sendError k e (as_addr peer); on_path releaseSlot ≫= fun _ => mret r
          | None =>
              a ← on_path (path_offer k {| dg_peer := peer; dg_data := data |} (zlen data));
              match a with
              | OfferCtx => unreserve (zlen data) ≫= fun _ => mret (Some (cause_of k))
              | Offered id =>
                  w ← on_path (path_await k id);
                  match w with
                  | AnswerIs r => mret r
                  | AnswerCtx => mret (Some (cause_of k))
                  | AnswerClosing => cause_or k (terminal_or_closed peer)
                  end
              | _ => unreserve (zlen data) ≫= fun _ => cause_or k (terminal_or_closed peer)
              end
          end
      end
  end.
Definition through_gate (peer : option ipaddr) (q : prog packetConn (option error)) : prog packetConn (option error) :=
  ok ← on_path (lift gate_in enter);
  if negb ok then mret (operationalError OpSend ErrClosed (as_addr peer))
  else r ← q; on_path (lift gate_in leave) ≫= fun _ => mret r.
Definition send (ctx : option nat) (peer : option ipaddr) (data : bytes) : prog packetConn (option error) :=
  match ctx with
  | None => mret (Some (Sentinel ErrNilContext))
  | Some k => cause_or k (through_gate peer (send_inside k peer data))
  end.

Definition trySend_inside (peer : option ipaddr) (data : bytes) : prog packetConn (option error) :=
  match validatePacket data with
  | Some e => mret (operationalError OpSend e (as_addr peer))
  | None =>
      e ← on_path tryAcquireSlot;
      match e with
      | Some e => trySendError e (as_addr peer)
      | None =>
          e ← on_path (path_tryAcquire (zlen data));
          match e with
          | Some e => r ← trySendError e (as_addr peer); on_path releaseSlot ≫= fun _ => mret r
          | None =>
              a ← on_path (path_tryOffer {| dg_peer := peer; dg_data := data |} (zlen data));
              match a with
              | Offered _ => mret None
              | OfferClosing => unreserve (zlen data) ≫= fun _ => terminal_or_closed peer
              | _ => unreserve (zlen data) ≫= fun _ => trySendError ErrWouldBlock (as_addr peer)
              end
          end
      end
  end.
Definition trySend (peer : option ipaddr) (data : bytes) : prog packetConn (option error) :=
  through_gate peer (trySend_inside peer data).

Definition Send (ctx : option nat) (data : bytes) : prog packetConn (option error) :=
  match pe_remote env with
  | None => mret (Some (Sentinel ErrNotConnected))
  | Some _ => send ctx None data
  end.
Definition TrySend (data : bytes) : prog packetConn (option error) :=
  match pe_remote env with
  | None => mret (Some (Sentinel ErrNotConnected))
  | Some _ => trySend None data
  end.

(** The outer [None] is a nil dereference. *)
Definition resolvePeer (peer : option net_addr) : option (option ipaddr + option error) :=
  match peer with
  | None => Some (inr (Some (Sentinel ErrPeerRequired)))
  | Some a =>
      target ← match a with
               | UDPAddr udp => udp ← udp; Some (inl udp)
               | _ =>
                   text ← Addr_String a;
                   Some match resolve text with
                        | inr e => inr (operationalError OpSend (Errorf "transport: resolve UDP peer" e) None)
                        | inl t => inl t
                        end
               end;
      Some match target with
           | inr e => inr e
           | inl t =>
               match pe_remote env with
               | Some r =>
                   if bool_decide (ipaddr_String t = ipaddr_String r) then inl None
                   else inr (Some (Sentinel ErrPeerMismatch))
               | None => inl (Some t)
               end
           end
  end.
Definition with_peer (peer : option net_addr) (q : option ipaddr -> prog packetConn (option error))
    : prog packetConn (option error) :=
  r ← atomic_panic (fun p => match resolvePeer peer with Some r => Some (p, r) | None => None end);
  match r with inr e => mret e | inl target => q target end.
Definition SendTo (ctx : option nat) (peer : option net_addr) (data : bytes) : prog packetConn (option error) :=
  with_peer peer (fun target => send ctx target data).
Definition TrySendTo (peer : option net_addr) (data : bytes) : prog packetConn (option error) :=
  with_peer peer (fun target => trySend target data).

(** ** Closing and draining *)
Definition close_cause (cause : option error) : option error :=
  match cause with
  | None => None
  | Some c => match errors_As is_OpError c with Some _ => Some c | None => normalizePacketError (Some c) end
  end.
Definition close_body (cause : option error) : prog packetConn unit :=
  match close_cause cause with
  | Some e => atomically (fun p => (set_err (Some e) p, tt))
  | None => mret tt
  end ≫= fun _ =>
  on_path path_close_gate ≫= fun _ => on_path path_close_chan ≫= fun _ => on_path path_close_socket.
Definition initiateClose (cause : option error) : prog packetConn unit :=
  first ← on_path path_enter_once;
  if first : bool then close_body cause else on_path path_once_wait.
Definition Close : prog packetConn (option error) := initiateClose None ≫= fun _ => mret None.

(** [requestDrain]; a later call of [drainOnce.Do] waits for the first. *)
Definition requestDrain : prog packetConn unit :=
  first ← atomically (fun p => (set_drainOnce true p, negb (pk_drainOnce p)));
  if first : bool then
    on_path path_close_gate ≫= fun _ =>
    atomic_panic (fun p => if pk_drainReq p then None else Some (set_drainReq true p, tt))
  else select (fun p => ready (pk_drainReq p) p tt).

(** ** The writer *)
(** Whether the socket took the datagram, and the error. *)
Definition writeDatagram (i : dgram_io) (d : datagram) : bool * option error :=
  match di_setErr i with
  | Some e => (false, Some (Errorf "transport: set UDP write deadline" e))
  | None =>
      match di_write i (dg_peer d) (dg_data d) with
      | Some e =>
          (false, Some (if isTimeoutFailure (Some e) then TimeoutError TimeoutWrite (Some e)
                        else Errorf "transport: UDP write" e))
      | None =>
          (true, match di_clearErr i with
                 | Some e => Some (Errorf "transport: clear UDP write deadline" e)
                 | None => None
                 end)
      end
  end.
Definition write_next (d : datagram) : prog packetConn (option error) :=
  atomically (fun p =>
    let '(taken, err) := writeDatagram (io (pk_writes p)) d in
    let path := pk_path p in
    (set_writes (S (pk_writes p))
       (set_path (if taken : bool then put_written (sp_written path ++ [d]) path else path) p), err)).
Definition count_sent (n : Z) : prog packetConn unit :=
  atomically (fun p => (set_TX (add_u64 (pk_bytesTX p) n) (inc_u64 (pk_packetsTX p)) p, tt)).

Definition handleOutbound (req : request datagram) : prog packetConn bool :=
  err ← write_next (rq_item req);
  on_path (path_release (rq_bytes req)) ≫= fun _ => on_path releaseSlot ≫= fun _ =>
  match err with
  | None =>
      count_sent (rq_bytes req) ≫= fun _ => on_path (path_answer req None) ≫= fun _ => mret true
  | Some e =>
      initiateClose (operationalError OpWrite e (as_addr (dg_peer (rq_item req)))) ≫= fun _ =>
      sendErr ← terminal_or_closed (dg_peer (rq_item req));
      on_path (path_answer req sendErr) ≫= fun _ => mret false
  end.

(** [failPending(ErrClosed)]: answers up to [fuel] requests that are left. *)
Fixpoint failPending (fuel : nat) : prog packetConn unit :=
  match fuel with
  | O => stuck
  | S fuel =>
      r ← on_path path_next;
      match r with
      | None => mret tt
      | Some req =>
          on_path (path_release (rq_bytes req)) ≫= fun _ => on_path releaseSlot ≫= fun _ =>
          pendingErr ← terminal_or_closed (dg_peer (rq_item req));
          on_path (path_answer req pendingErr) ≫= fun _ => failPending fuel
      end
  end.

(** The inner loop after the gate is drained. *)
Fixpoint writer_drain (fuel : nat) : prog packetConn unit :=
  match fuel with
  | O => stuck
  | S fuel =>
      r ← on_path path_next;
      match r with
      | Some req => ok ← handleOutbound req; if ok : bool then writer_drain fuel else mret tt
      | None => initiateClose None
      end
  end.

Inductive writer_event := WriterClosing | WriterRequest (req : request datagram) | WriterSignal.
Definition next_request (p : packetConn) : list (packetConn * writer_event) :=
  (fun r : sendPath datagram * writer_event => (set_path r.1 p, r.2)) <$> path_dequeue WriterRequest (pk_path p).
Fixpoint writer_draining (n fuel : nat) : prog packetConn unit :=
  match fuel with
  | O => stuck
  | S fuel =>
      e ← select (fun p => ready (path_closing (pk_path p)) p WriterClosing ++ next_request p
                           ++ ready (gate_done (sp_gate (pk_path p))) p WriterSignal);
      match e with
      | WriterClosing => mret tt
      | WriterRequest req => ok ← handleOutbound req; if ok : bool then writer_draining n fuel else mret tt
      | WriterSignal => writer_drain n
      end
  end.
Fixpoint writer_main (n fuel : nat) : prog packetConn unit :=
  match fuel with
  | O => stuck
  | S fuel =>
      e ← select (fun p => ready (path_closing (pk_path p)) p WriterClosing ++ ready (pk_drainReq p) p WriterSignal
                           ++ next_request p);
      match e with
      | WriterClosing => mret tt
      | WriterSignal => writer_draining n n
      | WriterRequest req => ok ← handleOutbound req; if ok : bool then writer_main n fuel else mret tt
      end
  end.
(** Each phase of the loop may handle fewer than [n] requests. *)
Definition writerLoop (n : nat) : prog packetConn unit :=
  writer_main n n ≫= fun _ => on_path (lift gate_in await_done) ≫= fun _ => failPending n.

(** ** The other goroutines *)
(** How the read loop ends: it found the connection closing, or it closes it. *)
Inductive reader_end := EndClosing | EndInitiate (cause : option error).
Definition reader_tail (e : reader_end) : prog packetConn unit :=
  match e with
  | EndClosing => on_path path_await_closing
  | EndInitiate cause => initiateClose cause
  end.
(** The activity clock: a policy expires, or the connection closes. *)
Definition watcher_tail (kind : option TimeoutKind) : prog packetConn unit :=
  match kind with
  | Some k => initiateClose (operationalError OpReceive (TimeoutError k None) (as_addr (pe_remote env)))
  | None => on_path path_await_closing
  end.
Definition finalizer : prog packetConn unit :=
  on_path path_loops_wait ≫= fun _ => initiateClose None ≫= fun _ => on_path path_close_done.
(** The goroutine of [listenPacket] that waits for its context. *)
Definition listen_watch (k : nat) : prog packetConn unit :=
  cancelled ← on_path (path_await_done k);
  if cancelled : bool then initiateClose None else mret tt.

(** ** Goroutines sharing one connection *)
Inductive packet_op :=
  | PSend (ctx : option nat) (data : bytes) | PTrySend (data : bytes)
  | PSendTo (ctx : option nat) (peer : option net_addr) (data : bytes)
  | PTrySendTo (peer : option net_addr) (data : bytes)
  | PClose | PDrain | PCancel (k : nat) (e : error).
Definition packet_op_prog (o : packet_op) : prog packetConn unit :=
  match o with
  | PSend ctx data => Send ctx data ≫= fun _ => mret tt
  | PTrySend data => TrySend data ≫= fun _ => mret tt
  | PSendTo ctx peer data => SendTo ctx peer data ≫= fun _ => mret tt
  | PTrySendTo peer data => TrySendTo peer data ≫= fun _ => mret tt
  | PClose => Close ≫= fun _ => mret tt
  | PDrain => requestDrain
  | PCancel k e => on_path (path_cancel k e)
  end.
Fixpoint packet_client (ops : list packet_op) : prog packetConn unit :=
  match ops with
  | [] => mret tt
  | o :: ops => packet_op_prog o ≫= fun _ => packet_client ops
  end.

Definition loop (p : prog packetConn unit) : prog packetConn unit := p ≫= fun _ => on_path path_loop_done.
(** The goroutines of [start] and [listenPacket], then the callers. *)
Definition packet_pool (writeQueue maxQueuedBytes maxTotal : Z) (n : nat) (re : reader_end)
    (watcher : option (option TimeoutKind)) (listen : option nat) (opss : list (list packet_op)) : pool packetConn :=
  (newPacketConn writeQueue maxQueuedBytes maxTotal (if watcher then 3 else 2),
   loop (writerLoop n) :: loop (reader_tail re) :: finalizer ::
   match watcher with Some k => [loop (watcher_tail k)] | None => [] end ++
   match listen with Some k => [listen_watch k] | None => [] end ++ (packet_client <$> opss)).
End packet.

(** ** Errors of a connected socket *)
(** A send on a connected socket that is closed fails with the typed [ErrClosed] error,
    whose [Remote] is nil: the nil [*net.UDPAddr] that stands for the connected peer is not
    the nil interface [operationalError] replaces by the remote address. *)
Theorem packet_closed_send `{WebSocketLib} pf env cause_of qfuel p k data r :
  pe_remote env = Some r -> path_ctx k (pk_path p) = None -> g_closed (sp_gate (pk_path p)) = true ->
  exec (Send pf env cause_of qfuel (Some k) data) p =
    [Some (p, Some (OpError OpSend SchemeUDP ErrorClosed (snapshotAddr (Some (pe_local env))) None
                      (Some (Sentinel ErrClosed))))] /\
  operationalError pf env OpSend ErrClosed None =
    Some (OpError OpSend SchemeUDP ErrorClosed (snapshotAddr (Some (pe_local env))) (Some (UDPAddr (Some r)))
            (Some (Sentinel ErrClosed))).
Proof.
  intros Hr Hc Hg. unfold Send, send, cause_or, ctx_cause, operationalError, RemoteAddr. rewrite Hr. split; [|done].
  cbn. rewrite Hc. cbn. unfold gate_enter. rewrite Hg. cbn. by destruct p as [[]], pf.
Qed.

(** On a connected socket, [SendTo] accepts the remote address itself, and an IPv4
    remote in either of its two forms, and then sends to the connected peer; an address
    with another text is refused with [ErrPeerMismatch]; on an unconnected socket the
    address is kept, and a missing one is refused with [ErrPeerRequired]. *)
Theorem resolvePeer_spec `{WebSocketLib} pf env resolve v4 port zone a :
  length v4 = 4%nat ->
  let mapped := {| ip_bytes := v4InV6Prefix ++ v4; ip_port := port; ip_zone := zone |} in
  let plain := {| ip_bytes := v4; ip_port := port; ip_zone := zone |} in
  resolvePeer pf env resolve None = Some (inr (Some (Sentinel ErrPeerRequired))) /\
  (pe_remote env = None -> resolvePeer pf env resolve (Some (UDPAddr (Some a))) = Some (inl (Some a))) /\
  (pe_remote env = Some plain -> resolvePeer pf env resolve (Some (UDPAddr (Some mapped))) = Some (inl None)) /\
  (pe_remote env = Some mapped -> resolvePeer pf env resolve (Some (UDPAddr (Some plain))) = Some (inl None)) /\
  (pe_remote env = Some plain -> ipaddr_String a <> ipaddr_String plain ->
     resolvePeer pf env resolve (Some (UDPAddr (Some a))) = Some (inr (Some (Sentinel ErrPeerMismatch)))).
Proof.
  intros Hl mapped plain. assert (ipaddr_String mapped = ipaddr_String plain) as E.
  { unfold ipaddr_String, ipEmptyString. cbn [ip_bytes ip_port ip_zone mapped plain].
    rewrite IP_String_mapped by done. unfold zlen. by rewrite length_app, Hl. }
  unfold resolvePeer. split_and!; [done|..].
  - intros ->. done.
  - intros ->. cbn -[ipaddr_String]. by rewrite E, bool_decide_true.
  - intros ->. cbn -[ipaddr_String]. by rewrite E, bool_decide_true.
  - intros -> Hne. cbn -[ipaddr_String]. by rewrite bool_decide_false.
Qed.

(** *** Witnesses *)
Definition demo_ws : WebSocketLib := {| CloseStatus := fun _ => -1 |}.
Definition demo_peer : ipaddr := {| ip_bytes := to_byte <$> [10; 0; 0; 2]; ip_port := 53; ip_zone := "" |}.
Definition demo_packet_env : packetEnv :=
  {| pe_local := UDPAddr (Some {| ip_bytes := to_byte <$> [10; 0; 0; 1]; ip_port := 5353; ip_zone := "" |});
     pe_remote := Some demo_peer; pe_maxPacket := 8; pe_readIdle := false |}.
Definition demo_resolve (_ : string) : result ipaddr := inl demo_peer.
Definition demo_data : bytes := to_byte <$> [1; 2; 3].
(** A connection whose gate is closed. *)
Definition demo_shut : packetConn :=
  set_path (put_gate {| g_closed := true; g_active := 0; g_drained := true |} (new_path 1 64 1024 2))
    (newPacketConn 1 64 1024 2).
Lemma packet_closed_send_witness :
  exec (@Send demo_ws Unix demo_packet_env (fun _ => Sentinel ErrClosed) 8 (Some 0%nat) demo_data) demo_shut =
    [Some (demo_shut, Some (OpError OpSend SchemeUDP ErrorClosed (Some (pe_local demo_packet_env)) None
                      (Some (Sentinel ErrClosed))))].
Proof.
  apply (proj1 (@packet_closed_send demo_ws Unix demo_packet_env (fun _ => Sentinel ErrClosed) 8 demo_shut 0 demo_data
    demo_peer eq_refl ltac:(vm_compute; reflexivity) ltac:(vm_compute; reflexivity))).
Defined.
Lemma resolvePeer_spec_witness :
  @resolvePeer demo_ws Unix demo_packet_env demo_resolve
    (Some (UDPAddr (Some {| ip_bytes := v4InV6Prefix ++ (to_byte <$> [10; 0; 0; 2]); ip_port := 53; ip_zone := "" |})))
  = Some (inl None).
Proof.
  apply (@resolvePeer_spec demo_ws Unix demo_packet_env demo_resolve (to_byte <$> [10; 0; 0; 2]) 53 "" demo_peer);
    reflexivity.
Defined.
