(* ===== verification/PacketProofs.v ===== *)
(** * PacketProofs: the goroutines of a packet connection keep its invariant

    The invariant of Packet.v: that of the way out (SendPathInv.v) and who may close
    [drainReq]; then one lemma per program of Packet.v. *)
From S2P Require Import Prelude Conc Kinds Errors Classify Gate Quota SendPath SendPathInv SendPathWriter.
From S2P Require Import Endpoint NetAddr Packet.
Local Open Scope go_scope.
Local Open Scope Z_scope.

(** What a goroutine owns: its share of the way out, the duty to close [drainReq] and
    witnesses that [drainOnce] has been entered. *)
Abbreviation kshare := (pshare datagram * (nat * nat))%type.

(** A closed [drainReq] stands for a closed gate. *)
Definition drain_stored (p : packetConn) : pshare datagram :=
  if pk_drainReq p then own_g (0, 1)%nat gnil else gnil.

(** A peer that is not a nil pointer in an interface. *)
Definition usable_peer (peer : option net_addr) : bool :=
  match peer with Some (UDPAddr None) | Some (StaticAddrPtr None) => false | _ => true end.
Definition usable_op (o : packet_op) : bool :=
  match o with PSendTo _ peer _ | PTrySendTo peer _ => usable_peer peer | _ => true end.

(** A datagram fits, and names its peer exactly when the socket is not connected. *)
Definition peer_ok (env : packetEnv) (peer : option ipaddr) : Prop := peer = None <-> is_Some (pe_remote env).
Definition datagram_ok (env : packetEnv) (d : datagram) (n : Z) : Prop :=
  n = zlen (dg_data d) /\ n <= pe_maxPacket env /\ peer_ok env (dg_peer d).

Section proofs.
Context (lim : site -> Z) (bound total : nat) (wq : Z) (env : packetEnv) (own : bool).
Hypothesis lim_ok : forall c, 0 <= lim c < 2 ^ 62.
Abbreviation pinv := (path_inv (strict:=true) lim bound total wq (datagram_ok env)).

Record packet_inv (p : packetConn) (m : kshare) : Prop := {
  ki_path : pinv (pk_path p) (m.1 ∙ drain_stored p);
  ki_drain : (m.2.1 + Nat.b2n (pk_drainReq p))%nat = Nat.b2n (pk_drainOnce p);
  ki_ran : (0 < m.2.2)%nat -> pk_drainOnce p = true;
}.
(** Who waits: somebody on the way out; the writer for a request, a drain or the gate; a
    second drainer. *)
Definition packet_blk (p : packetConn) (m : kshare) : Prop :=
  m.2.1 = 0%nat /\
  (path_blk own (pk_path p) m.1 \/
   (own = true /\ idle_writer (pk_path p) m.1 /\ (pk_drainReq p = false \/ g_drained (sp_gate (pk_path p)) = false)) \/
   (path_fin m.1 /\ pk_drainOnce p = true /\ pk_drainReq p = false)).
Definition packet_fin (m : kshare) : Prop := path_fin m.1 /\ m.2.1 = 0%nat.
Abbreviation kwp := (wp packet_inv packet_blk).

Lemma respects_any {S A} (p : prog S A) : respects (fun _ _ => True) p.
Proof. induction p as [|B f k IH]; [done|]. intros s s' b _. by split. Qed.

Lemma packet_path_get p (m F : kshare) :
  packet_inv p (m ∙ F) -> pinv (lget path_in p) (m.1 ∙ (F.1 ∙ drain_stored p)).
Proof. intros [HI _ _]. by rewrite gop_assoc. Qed.
Lemma packet_path_put p (m F : kshare) t mt :
  packet_inv p (m ∙ F) -> True -> pinv t (mt ∙ (F.1 ∙ drain_stored p)) ->
  packet_inv (lset path_in t p) ((mt, m.2) ∙ F).
Proof.
  intros [_ Hd Hr] _ Ht. split; [|done..]. change (pinv t (mt ∙ F.1 ∙ drain_stored p)). by rewrite <- gop_assoc.
Qed.
(** A program of the way out. *)
Lemma wp_on_path_blk {A} BlkT (q : prog (sendPath datagram) A) m (Q : A -> kshare -> Prop) :
  (forall p mt, BlkT (pk_path p) mt -> packet_blk p (mt, m.2)) ->
  wp pinv BlkT q m.1 (fun a mt => Q a (mt, m.2)) -> kwp (on_path q) m Q.
Proof.
  apply (wp_lift path_in packet_inv packet_blk pinv BlkT (fun _ _ => True) fst (fun t m => (t, m.2)) drain_stored).
  - done.
  - done.
  - by intros [].
  - apply packet_path_get.
  - apply packet_path_put.
  - apply respects_any.
Qed.
Lemma wp_on_path {A} (q : prog (sendPath datagram) A) m (Q : A -> kshare -> Prop) :
  m.2.1 = 0%nat -> wp pinv (path_blk own) q m.1 (fun a mt => Q a (mt, m.2)) -> kwp (on_path q) m Q.
Proof. intros Hm. apply wp_on_path_blk. intros p mt Hb. split; [done|]. by left. Qed.
(** A section that only reads, or changes what the invariant does not mention. *)
Lemma wp_look {B} (f : packetConn -> B) m (Q : B -> kshare -> Prop) :
  (forall b, Q b m) -> kwp (atomically (fun p => (p, f p))) m Q.
Proof. intros HQ. apply wp_atomically. intros p F HI. exists m. by split. Qed.
Lemma wp_note (f : packetConn -> packetConn) m (Q : unit -> kshare -> Prop) :
  (forall p, pk_path (f p) = pk_path p /\ pk_drainReq (f p) = pk_drainReq p /\ pk_drainOnce (f p) = pk_drainOnce p) ->
  Q tt m -> kwp (atomically (fun p => (f p, tt))) m Q.
Proof.
  intros Hf HQ. apply wp_atomically. intros p F [HI Hd Hr]. exists m. split; [|done].
  destruct (Hf p) as (E1 & E2 & E3). split; cbn [fst]; unfold drain_stored in *; by rewrite ?E1, ?E2, ?E3.
Qed.

Context `{WebSocketLib} (pf : platform) (resolve : string -> result ipaddr).
Context (cause_of : nat -> error) (io : nat -> dgram_io) (qfuel : nat).

Lemma operationalError_some op e remote : operationalError pf env op e remote <> None.
Proof.
  unfold operationalError.
  by destruct (classifyOperational_typed pf op SchemeUDP (Some (pe_local env))
    (match remote with None => RemoteAddr env | r => r end) e hintNone) as (e' & n & -> & _).
Qed.
Lemma wp_terminal_or_closed peer m (Q : option error -> kshare -> Prop) :
  (forall e, Q (Some e) m) -> kwp (terminal_or_closed pf env peer) m Q.
Proof.
  intros HQ. apply wp_bind, wp_look. intros [t|]; apply wp_ret; [apply HQ|].
  pose proof (operationalError_some OpSend (Sentinel ErrClosed) (as_addr peer)).
  destruct (operationalError _ _ _ _ _); [apply HQ|done].
Qed.
Lemma wp_packet_cause_or k q m (Q : option error -> kshare -> Prop) :
  (forall r, Q r m) -> kwp q m Q -> kwp (cause_or cause_of k q) m Q.
Proof. intros HQ Hq. apply wp_bind, wp_look. intros [c|]; [by apply wp_ret|done]. Qed.
Lemma wp_packet_sendError k e remote m (Q : option error -> kshare -> Prop) :
  (forall r, Q r m) -> kwp (sendError pf env cause_of k e remote) m Q.
Proof. intros HQ. apply wp_packet_cause_or; [done|]. by apply wp_ret. Qed.
Lemma wp_trySendError e peer m (Q : option error -> kshare -> Prop) :
  (forall r, Q r m) -> kwp (trySendError pf env e peer) m Q.
Proof.
  intros HQ. apply wp_bind. destruct (errors_Is e ErrWouldBlock); [|by apply wp_ret, wp_ret, HQ].
  apply wp_note; [done|]. by apply wp_ret.
Qed.

(** ** Closing and draining *)
(** A goroutine that may close: outside the gate, owing nothing. *)
Definition may_close (m : kshare) : Prop :=
  at_rest m.1 /\ ps_g m.1 = (0, 0)%nat /\ settled_share m.1 /\ ps_ran m.1 = 0%nat /\ m.2.1 = 0%nat.
Lemma wp_packet_initiateClose cause m kn (Q : unit -> kshare -> Prop) :
  may_close m -> Q tt (own_know kn m.1, m.2) -> kwp (initiateClose cause) m Q.
Proof.
  intros (Hr & Hg & [Hc Hp] & Hran & Hm) HQ. destruct m as [m d]. cbn [fst snd] in *.
  apply wp_bind, wp_on_path; [done|]. apply wp_path_enter_once; [done|..].
  - assert (kwp (on_path path_close_gate ≫= fun _ => on_path path_close_chan ≫= fun _ => on_path path_close_socket)
              (own_close 1 m, d) Q) as Hbody.
    { apply wp_bind, wp_on_path; [done|]. apply wp_path_close_gate; [done|].
      apply wp_bind, wp_on_path; [done|]. apply wp_path_close_chan; [done..|].
      apply wp_on_path; [done|]. apply (wp_path_close_socket _ _ _ _ _ _ kn); [done|].
      replace (own_know kn (own_ran 0 _)) with (own_know kn m); [done|].
      destruct m. cbn in *. by subst. }
    apply wp_bind. destruct (close_cause cause); [by apply wp_note|by apply wp_ret].
  - apply wp_on_path; [done|]. apply (wp_path_once_wait _ _ _ _ _ _ _ kn); [by intros; apply blk_once|done|].
    replace (own_know kn (own_ran 0 _)) with (own_know kn m); [done|]. destruct m. cbn in *. by subst.
Qed.

(** The share of a caller. *)
Definition kclient (q : gmultiset Quota.tok) (g slot op : nat) (ack : gmultiset nat) : kshare :=
  (pclient q g slot op ack, (0, 0)%nat).
(** What a call leaves its caller with, inside the gate ([g] is 1) or outside. *)
Definition kleft (j op g : nat) (m : kshare) : Prop :=
  exists q op', m = kclient q g 0 op' ∅ /\ stocked j q /\ (op <= op')%nat.
Lemma kleft_intro j op op' g q : stocked j q -> (op <= op')%nat -> kleft j op g (kclient q g 0 op' ∅).
Proof. intros. by exists q, op'. Qed.
Lemma kleft_may_close j op m : kleft j op 0 m -> may_close m.
Proof. intros (q & op' & -> & [Hi _] & _). by split_and!. Qed.

Lemma gate_token (m : pshare datagram) : ps_g m = (0, 0)%nat -> own_g (0, 1)%nat m = m ∙ own_g (0, 1)%nat gnil.
Proof.
  destruct m as [q g slot op ack lp fn cl ph ran kn w]. cbn. intros ->. unfold own_g. cbn. f_equal; try lia.
  - by rewrite (right_id_L ∅ (⊎)).
  - by rewrite (right_id_L ∅ (⊎)).
  - by destruct w.
Qed.
Lemma packet_inv_drain p (m F : kshare) :
  packet_inv p ((own_g (0, 1)%nat m.1, (1, 0)%nat) ∙ F) -> ps_g m.1 = (0, 0)%nat ->
  pk_drainReq p = false /\ packet_inv (set_drainReq true p) ((m.1, (0, 0)%nat) ∙ F).
Proof.
  intros [HI Hd Hr] Hg. cbn in Hd. unfold drain_stored in HI.
  destruct (pk_drainReq p) eqn:E; [cbn in Hd; destruct (pk_drainOnce p); cbn in Hd; lia|]. split; [done|].
  split; [|cbn in *; lia|done]. rewrite gop_nil_r in HI. cbn [fst snd] in *.
  change (pinv (pk_path p) (m.1 ∙ F.1 ∙ own_g (0, 1)%nat gnil)).
  change (pinv (pk_path p) (own_g (0, 1)%nat m.1 ∙ F.1)) in HI. rewrite gate_token in HI by done.
  by rewrite <- gop_assoc, (gop_comm F.1), gop_assoc.
Qed.
Lemma wp_requestDrain j op m (Q : unit -> kshare -> Prop) :
  kleft j op 0 m -> (forall m', kleft j op 0 m' -> Q tt m') -> kwp requestDrain m Q.
Proof.
  intros Hm HQ. pose proof (HQ m Hm) as HQm. destruct Hm as (q & op' & -> & Hs & Ho).
  apply wp_bind, wp_section. intros p F p' first HI [= <- <-]. destruct (pk_drainOnce p) eqn:Eo; cbn [negb].
  - exists (pclient q 0 0 op' ∅, (0, 1)%nat). split.
    { destruct HI as [HI Hd Hr]. split; [done| |done]. cbn in *. by rewrite Eo in Hd. }
    apply wp_select. intros p1 F1 HI1. split.
    + intros Hn%ready_nil. split; [done|]. right. right. split_and!; [|apply (ki_ran _ _ HI1); cbn; lia|done].
      destruct Hs. by split_and!.
    + intros p2 [] (_ & -> & _)%elem_ready. eexists. split; [|exact HQm]. destruct HI1 as [HI1 Hd1 Hr1].
      split; [done|done|]. intros Hlt. apply Hr1. cbn in *. lia.
  - exists (pclient q 0 0 op' ∅, (1, 0)%nat). split.
    { destruct HI as [HI Hd Hr]. split; [done| |done]. cbn in *. rewrite Eo in Hd. cbn in Hd. lia. }
    apply wp_bind, (wp_on_path_blk (fun _ _ => False)); [done|]. apply wp_path_close_gate; [done|].
    apply wp_atomic_panic. intros p1 F1 HI1. cbn [snd] in HI1.
    destruct (packet_inv_drain _ (pclient q 0 0 op' ∅, (0, 0)%nat) _ HI1) as [E HI2]; [done|]. rewrite E.
    do 3 eexists. split; [done|]. split; [exact HI2|done].
Qed.

(** ** Sending *)
Abbreviation paid q := ({[+ Quota.Credit +]} ⊎ ({[+ Quota.Credit +]} ⊎ q)).
Hypothesis qfuel_ok : (bound < qfuel)%nat.

Section send.
Context (j op : nat) (q : gmultiset Quota.tok) (peer : option ipaddr) (data : bytes).
Hypothesis (Hq : stocked j q) (Hpeer : peer_ok env peer).
Abbreviation d := ({| dg_peer := peer; dg_data := data |}).
Lemma stocked_paid2 : stocked j (paid q).
Proof. by apply (stocked_credit lim), (stocked_credit lim). Qed.
Lemma paid_idle : Quota.idle (paid q).
Proof. by eapply (stocked_idle lim lim_ok). Qed.

Lemma wp_unreserve (Q : unit -> kshare -> Prop) :
  Q tt (kclient q 1 0 (S op) ∅) ->
  kwp (unreserve (zlen data)) (kclient (req_toks (zlen data) ⊎ q) 1 1 (S op) ∅) Q.
Proof.
  intros HQ. apply wp_bind, wp_on_path; [done|].
  eapply (wp_path_release lim bound total wq (datagram_ok env) lim_ok); [apply zlen_nonneg|done|].
  apply wp_on_path; [done|]. by apply (wp_releaseSlot _ _ _ _ _ _ 0%nat).
Qed.
Lemma wp_release_slot q' (r : option error) (Q : option error -> kshare -> Prop) :
  Q r (kclient q' 1 0 (S op) ∅) ->
  kwp (on_path releaseSlot ≫= fun _ => mret r) (kclient q' 1 1 (S op) ∅) Q.
Proof.
  intros HQ. apply wp_bind, wp_on_path; [done|]. apply (wp_releaseSlot _ _ _ _ _ _ 0%nat); [done|]. by apply wp_ret.
Qed.
Lemma valid_datagram : validatePacket env data = None -> datagram_ok env d (zlen data).
Proof.
  unfold validatePacket. rewrite Z.gtb_ltb. destruct (_ <? _) eqn:E; [done|]. intros _. split_and!; [done|lia|done].
Qed.

Ltac leave_it := apply kleft_intro; [first [done|apply stocked_paid2]|lia].
Lemma wp_send_inside k (Q : option error -> kshare -> Prop) :
  (forall r m, kleft j op 1 m -> Q r m) ->
  kwp (send_inside pf env cause_of qfuel k peer data) (kclient (paid q) 1 0 (S op) ∅) Q.
Proof.
  intros HQ. unfold send_inside. destruct (validatePacket env data) eqn:Ev; [apply wp_ret, HQ; leave_it|].
  pose proof (valid_datagram Ev) as Hd. pose proof paid_idle as Hidle.
  apply wp_bind, wp_on_path; [done|]. apply wp_acquireSlot; [done..| |].
  { intros e. apply wp_packet_sendError. intros r. apply HQ. leave_it. }
  apply wp_bind, wp_on_path; [done|].
  eapply (wp_path_acquire lim bound total wq (datagram_ok env) own lim_ok qfuel k j); [done|done|apply zlen_nonneg|done..| |].
  { intros e q' Hq'. apply wp_bind, wp_packet_sendError. intros r. apply wp_release_slot, HQ. leave_it. }
  apply wp_bind, wp_on_path; [done|]. apply wp_path_offer; [exact lim_ok|apply zlen_nonneg|done|..].
  - apply wp_bind, wp_unreserve, wp_ret, HQ. leave_it.
  - apply wp_bind, wp_unreserve, wp_packet_cause_or; [intros r; apply HQ; leave_it|].
    apply wp_terminal_or_closed. intros e. apply HQ. leave_it.
  - intros id. apply wp_bind, wp_on_path; [done|]. apply wp_path_await; [exact lim_ok|apply Hq|]. intros r.
    assert (forall x, Q x (kclient q 1 0 op ∅)) as HQ' by (intros x; apply HQ; leave_it).
    destruct r; [by apply wp_ret..|]. apply wp_packet_cause_or; [done|]. by apply wp_terminal_or_closed.
Qed.
Lemma wp_trySend_inside (Q : option error -> kshare -> Prop) :
  (forall r m, kleft j op 1 m -> Q r m) ->
  kwp (trySend_inside pf env peer data) (kclient (paid q) 1 0 (S op) ∅) Q.
Proof.
  intros HQ. unfold trySend_inside. destruct (validatePacket env data) eqn:Ev; [apply wp_ret, HQ; leave_it|].
  pose proof (valid_datagram Ev) as Hd.
  apply wp_bind, wp_on_path; [done|]. apply wp_tryAcquireSlot; [done| |].
  { intros e. apply wp_trySendError. intros r. apply HQ. leave_it. }
  apply wp_bind, wp_on_path; [done|].
  eapply (wp_path_tryAcquire lim bound total wq (datagram_ok env) lim_ok j); [apply zlen_nonneg|done..| |].
  { intros e q' Hq'. apply wp_bind, wp_trySendError. intros r. apply wp_release_slot, HQ. leave_it. }
  apply wp_bind, wp_on_path; [done|]. apply wp_path_tryOffer; [exact lim_ok|apply zlen_nonneg|done|..].
  - apply wp_bind, wp_unreserve, wp_trySendError. intros r. apply HQ. leave_it.
  - apply wp_bind, wp_unreserve, wp_terminal_or_closed. intros e. apply HQ. leave_it.
  - intros id. apply wp_ret, HQ. leave_it.
Qed.
End send.

(** Calls start and end outside the gate. *)
Definition kcall (j op : nat) (q : gmultiset Quota.tok) : kshare := kclient (paid q) 0 0 (S op) ∅.
Lemma wp_packet_through_gate j op q peer (p : prog packetConn (option error)) (Q : option error -> kshare -> Prop) :
  stocked j q ->
  (forall Q', (forall r m, kleft j op 1 m -> Q' r m) -> kwp p (kclient (paid q) 1 0 (S op) ∅) Q') ->
  (forall r m, kleft j op 0 m -> Q r m) -> kwp (through_gate pf env peer p) (kcall j op q) Q.
Proof.
  intros Hq Hp HQ. pose proof (stocked_paid2 j q Hq). apply wp_bind, wp_on_path; [done|]. apply wp_path_enter; [done| |].
  - apply wp_bind, Hp. intros r m (q' & op' & -> & ? & ?). apply wp_bind, wp_on_path; [done|].
    apply wp_path_leave; [done|]. apply wp_ret, HQ. by apply kleft_intro.
  - apply wp_ret, HQ. apply kleft_intro; [done|lia].
Qed.
Lemma wp_send j op q ctx peer data (Q : option error -> kshare -> Prop) :
  stocked j q -> peer_ok env peer -> (forall r m, kleft j op 0 m -> Q r m) ->
  kwp (send pf env cause_of qfuel ctx peer data) (kcall j op q) Q.
Proof.
  intros Hq Hp HQ. assert (kleft j op 0 (kcall j op q)) as Hl by (apply kleft_intro; [by apply stocked_paid2|lia]).
  destruct ctx as [k|]; [|by apply wp_ret, HQ]. apply wp_packet_cause_or; [auto|].
  apply wp_packet_through_gate; [done| |done]. intros Q' HQ'. by apply wp_send_inside with (j := j).
Qed.
Lemma wp_trySend j op q peer data (Q : option error -> kshare -> Prop) :
  stocked j q -> peer_ok env peer -> (forall r m, kleft j op 0 m -> Q r m) ->
  kwp (trySend pf env peer data) (kcall j op q) Q.
Proof. intros Hq Hp HQ. apply wp_packet_through_gate; [done| |done]. intros Q' HQ'. by apply wp_trySend_inside with (j := j). Qed.

Lemma resolvePeer_ok peer :
  usable_peer peer = true ->
  exists r, resolvePeer pf env resolve peer = Some r /\ forall target, r = inl target -> peer_ok env target.
Proof.
  intros Hu. unfold resolvePeer. destruct peer as [a|]; [|by eexists].
  assert (forall target : ipaddr + option error, exists r, Some match target with
    | inr e => inr e
    | inl t => match pe_remote env with
               | Some r => if bool_decide (ipaddr_String t = ipaddr_String r) then inl None
                           else inr (Some (Sentinel ErrPeerMismatch))
               | None => inl (Some t)
               end
    end = Some r /\ forall target, r = inl target -> peer_ok env target) as Hend.
  { intros [t|e]; eexists; (split; [done|]); [|done]. unfold peer_ok. destruct (pe_remote env).
    - case_bool_decide; [|done]. intros target [= <-]. split; eauto.
    - intros target [= <-]. split; [done|]. by intros [? ?]. }
  destruct a as [[]|[u|]|? ?|[[]|]|]; try done; apply Hend.
Qed.
Lemma wp_with_peer j op q peer f (Q : option error -> kshare -> Prop) :
  stocked j q -> usable_peer peer = true -> (forall r m, kleft j op 0 m -> Q r m) ->
  (forall target, peer_ok env target -> kwp (f target) (kcall j op q) Q) ->
  kwp (with_peer pf env resolve peer f) (kcall j op q) Q.
Proof.
  intros Hq Hu HQ Hf. destruct (resolvePeer_ok peer Hu) as (r & E & Hr). apply wp_bind, wp_atomic_panic.
  intros p F HI. rewrite E. do 3 eexists. split; [done|]. split; [exact HI|].
  destruct r as [target|e]; [by apply Hf, Hr|]. apply wp_ret, HQ.
  apply kleft_intro; [by apply stocked_paid2|lia].
Qed.

(** Every call. *)
Lemma wp_packet_op j op q o (Q : unit -> kshare -> Prop) :
  stocked j q -> usable_op o = true -> (forall m, kleft j op 0 m -> Q tt m) ->
  kwp (packet_op_prog pf env resolve cause_of qfuel o) (kcall j op q) Q.
Proof.
  intros Hq Hu HQ. assert (kleft j op 0 (kcall j op q)) as Hl by (apply kleft_intro; [by apply stocked_paid2|lia]).
  assert (forall (r : option error) m, kleft j op 0 m -> kwp (mret tt) m Q) as Hret by (intros r m Hm; by apply wp_ret, HQ).
  assert (is_Some (pe_remote env) -> peer_ok env None) as Hnil by done.
  destruct o as [ctx data|data|ctx peer data|peer data| | |k e]; cbn [packet_op_prog usable_op] in *.
  - apply wp_bind. unfold Send. destruct (pe_remote env) eqn:Er; [|by apply wp_ret, wp_ret, HQ].
    eapply wp_send; [done|apply Hnil; eauto|by auto].
  - apply wp_bind. unfold TrySend. destruct (pe_remote env) eqn:Er; [|by apply wp_ret, wp_ret, HQ].
    eapply wp_trySend; [done|apply Hnil; eauto|by auto].
  - apply wp_bind, wp_with_peer; [done..|]. intros target Ht. by eapply wp_send.
  - apply wp_bind, wp_with_peer; [done..|]. intros target Ht. by eapply wp_trySend.
  - apply wp_bind, wp_bind, (wp_packet_initiateClose _ _ 0%nat); [by eapply kleft_may_close|]. by apply wp_ret, wp_ret, HQ.
  - by eapply wp_requestDrain.
  - apply wp_on_path; [done|]. by apply wp_path_cancel, HQ.
Qed.
Lemma wp_packet_client ops m :
  forallb usable_op ops = true -> kleft (2 * length ops) (length ops) 0 m ->
  kwp (packet_client pf env resolve cause_of qfuel ops) m (fun _ => packet_fin).
Proof.
  revert m. induction ops as [|o ops IH]; intros m Hu (q & op & -> & Hs & Ho).
  { apply wp_ret. split; [|done]. destruct Hs. by split_and!. }
  cbn [forallb length] in *. apply andb_prop in Hu as [Hu Hus]. destruct op as [|op]; [lia|].
  replace (2 * S (length ops))%nat with (2 + 2 * length ops)%nat in Hs by lia.
  destruct (stocked_split lim lim_ok _ _ Hs) as (q' & -> & Hq'). cbn [packet_client].
  apply wp_bind, (wp_packet_op (2 * length ops) op q'); [done..|].
  intros m (q2 & op2 & -> & Hs2 & Ho2). apply IH; [done|]. apply kleft_intro; [done|lia].
Qed.
End proofs.
