(* ===== verification/PacketWriter.v ===== *)
(** * PacketWriter: the loops of a packet connection

    The writer, the ends of the read loop and of the activity clock, the finalizer and the
    watcher of [listenPacket] keep the invariant of PacketProofs.v. *)
From S2P Require Import Prelude Conc Kinds Errors Classify Gate Quota SendPath SendPathInv SendPathWriter.
From S2P Require Import Endpoint NetAddr Packet PacketProofs.
Local Open Scope go_scope.
Local Open Scope Z_scope.

Section writer.
Context (lim : site -> Z) (bound total : nat) (wq : Z) (env : packetEnv).
Hypothesis lim_ok : forall c, 0 <= lim c < 2 ^ 62.
Abbreviation pinv := (path_inv (strict:=true) lim bound total wq (datagram_ok env)).
Abbreviation inv := (packet_inv lim bound total wq env).
Abbreviation kwp := (wp inv (packet_blk true)).
Context `{WebSocketLib} (pf : platform) (io : nat -> dgram_io).

Definition kwriter (q : gmultiset Quota.tok) (slot kn : nat) (w : ptok datagram) : kshare :=
  (pwriter q slot kn w, (0, 0)%nat).
(** A change of the way out that the writer makes. *)
Lemma packet_inv_path p (t : sendPath datagram) q slot kn w q' slot' kn' w' F :
  inv p (kwriter q slot kn w ∙ F) ->
  (forall F', pinv (pk_path p) (pwriter q slot kn w ∙ F') -> pinv t (pwriter q' slot' kn' w' ∙ F')) ->
  inv (set_path t p) (kwriter q' slot' kn' w' ∙ F).
Proof.
  intros HI Hp. pose proof (packet_path_get _ _ _ _ _ _ _ _ HI) as HP. cbn in HP.
  by apply (packet_path_put _ _ _ _ _ _ (kwriter q slot kn w) F t (pwriter q' slot' kn' w') HI I), Hp.
Qed.
Lemma set_path_id p : set_path (pk_path p) p = p.
Proof. by destruct p. Qed.
Lemma packet_inv_token p q slot kn w kn' w' F :
  inv p (kwriter q slot kn w ∙ F) ->
  (forall F', pinv (pk_path p) (pwriter q slot kn w ∙ F') -> pinv (pk_path p) (pwriter q slot kn' w' ∙ F')) ->
  inv p (kwriter q slot kn' w' ∙ F).
Proof. intros HI Hp. rewrite <- (set_path_id p). by eapply packet_inv_path. Qed.
Lemma packet_inv_closing p q slot kn w F :
  inv p (kwriter q slot kn w ∙ F) -> path_closing (pk_path p) = true -> inv p (kwriter q slot 1 w ∙ F).
Proof. intros HI Hc. eapply packet_inv_token; [exact HI|]. intros F' HP. by apply (path_inv_knows _ _ _ _ _ _ _ _ 1%nat) in HP. Qed.

(** ** Writing a datagram *)
Lemma wp_packet_write_next req q slot kn n dr (Q : option error -> kshare -> Prop) :
  Q None (kwriter q slot kn (PBusy n req PWrote dr)) ->
  (forall e, Q (Some e) (kwriter q slot kn (PBusy n req PFailed dr))) ->
  kwp (write_next io (rq_item req)) (kwriter q slot kn (PBusy n req PFresh dr)) Q.
Proof.
  intros HQ HE. apply wp_section. intros p F p' r HI. unfold writeDatagram.
  assert (forall t, inv (set_path t p) (kwriter q slot kn (PBusy n req PFailed dr) ∙ F) ->
    inv (set_writes (S (pk_writes p)) (set_path t p)) (kwriter q slot kn (PBusy n req PFailed dr) ∙ F)) as Hw.
  { intros t []. by split. }
  assert (inv (set_path (pk_path p) p) (kwriter q slot kn (PBusy n req PFailed dr) ∙ F)) as Hfail.
  { eapply packet_inv_path; [exact HI|]. intros F' HP. by apply path_inv_failed. }
  destruct (di_setErr _); [intros [= <- <-]; eauto|].
  destruct (di_write _ _ _); [intros [= <- <-]; eauto|].
  assert (inv (set_path (put_written (sp_written (pk_path p) ++ [rq_item req]) (pk_path p)) p)
            (kwriter q slot kn (PBusy n req PWrote dr) ∙ F)) as Hok.
  { eapply packet_inv_path; [exact HI|]. intros F' HP. by apply path_inv_wrote. }
  destruct (di_clearErr _); intros [= <- <-].
  - eexists. split; [|apply HE]. apply Hw. eapply packet_inv_path; [exact HI|]. intros F' HP.
    eapply path_inv_writer; [by apply path_inv_wrote|]. by intros (? & ? & _ & ?).
  - eexists. split; [|exact HQ]. destruct Hok. by split.
Qed.

Lemma wp_writer_path {A} (p : prog (sendPath datagram) A) q slot kn w (Q : A -> kshare -> Prop) :
  wp pinv (path_blk true) p (pwriter q slot kn w) (fun a mt => Q a (mt, (0, 0)%nat)) ->
  kwp (on_path p) (kwriter q slot kn w) Q.
Proof. intros Hp. by apply wp_on_path. Qed.
Lemma wp_give_back {B} (req : request datagram) q kn w (Q : B -> kshare -> Prop) (p : prog packetConn B) :
  0 <= rq_bytes req -> kwp p (kwriter q 0 kn w) Q ->
  kwp (on_path (path_release (rq_bytes req)) ≫= fun _ => on_path releaseSlot ≫= fun _ => p)
    (kwriter (req_toks (rq_bytes req) ⊎ q) 1 kn w) Q.
Proof.
  intros Hb Hp. apply wp_bind, wp_writer_path.
  eapply (wp_path_release lim bound total wq (datagram_ok env) lim_ok); [done..|].
  by apply wp_bind, wp_writer_path, (wp_releaseSlot _ _ _ _ _ _ 0%nat).
Qed.
Lemma wp_answer_request req r q kn n ph dr (Q : unit -> kshare -> Prop) :
  (r = None -> ph = PWrote) -> Q tt (kwriter q 0 kn (PIdle (S n) (is_pwrote ph) dr false)) ->
  kwp (on_path (path_answer req r)) (kwriter q 0 kn (PBusy n req ph dr)) Q.
Proof. intros Hr HQ. apply wp_writer_path. by apply wp_path_answer. Qed.
Lemma kwriter_may_close q kn w : Quota.idle q -> may_close (kwriter q 0 kn w).
Proof. intros Hi. by split_and!. Qed.
(** Answering with the terminal error. *)
Lemma wp_answer_terminal {B} req q kn n ph dr (p : prog packetConn B) (Q : B -> kshare -> Prop) :
  kwp p (kwriter q 0 kn (PIdle (S n) (is_pwrote ph) dr false)) Q ->
  kwp (terminal_or_closed pf env (dg_peer (rq_item req)) ≫= fun e => on_path (path_answer req e) ≫= fun _ => p)
    (kwriter q 0 kn (PBusy n req ph dr)) Q.
Proof. intros Hp. apply wp_bind, wp_terminal_or_closed. intros e. by apply wp_bind, wp_answer_request. Qed.

Lemma wp_packet_handleOutbound (req : request datagram) q kn n dr (Q : bool -> kshare -> Prop) :
  Quota.idle q -> 0 <= rq_bytes req ->
  Q true (kwriter q 0 kn (PIdle (S n) true dr false)) -> Q false (kwriter q 0 1 (PIdle (S n) false dr false)) ->
  kwp (handleOutbound pf env io req) (kwriter (req_toks (rq_bytes req) ⊎ q) 1 kn (PBusy n req PFresh dr)) Q.
Proof.
  intros Hi Hb HT HF. apply wp_bind, wp_packet_write_next; [|intros e]; apply wp_give_back; try done.
  - apply wp_bind, wp_note; [done|]. apply wp_bind, wp_answer_request; [done|]. by apply wp_ret.
  - apply wp_bind, (wp_packet_initiateClose _ _ _ _ _ _ _ _ 1%nat); [by apply kwriter_may_close|].
    apply wp_answer_terminal with (q := q) (kn := 1%nat) (ph := PFailed). by apply wp_ret.
Qed.

(** ** The loop *)
Lemma wp_packet_no_fuel {B} q slot kn n clean dr em (Q : B -> kshare -> Prop) :
  (total < n)%nat -> kwp stuck (kwriter q slot kn (PIdle n clean dr em)) Q.
Proof.
  intros Ht. apply wp_stuck. intros p F HI. exfalso. pose proof (packet_path_get _ _ _ _ _ _ _ _ HI) as HP.
  apply path_no_fuel in HP. lia.
Qed.
Lemma wp_packet_next_left q kn n clean em (Q : option (request datagram) -> kshare -> Prop) :
  Q None (kwriter q 0 kn (PIdle n clean true true)) ->
  (forall req, 0 <= rq_bytes req -> Q (Some req)
     (kwriter (req_toks (rq_bytes req) ⊎ q) 1 kn (PBusy n req (if clean then PFresh else PFailed) true))) ->
  kwp (on_path path_next) (kwriter q 0 kn (PIdle n clean true em)) Q.
Proof. intros HN HS. apply wp_writer_path. by apply wp_path_next. Qed.

Lemma wp_packet_failPending fuel q n clean em (Q : unit -> kshare -> Prop) :
  (total < n + fuel)%nat -> (forall n' clean', Q tt (kwriter q 0 1 (PIdle n' clean' true true))) ->
  kwp (failPending pf env fuel) (kwriter q 0 1 (PIdle n clean true em)) Q.
Proof.
  intros Hf HQ. revert n clean em Hf. induction fuel as [|fuel IH]; intros n clean em Hf;
    [apply wp_packet_no_fuel; lia|]. cbn [failPending].
  apply wp_bind, wp_packet_next_left; [by apply wp_ret|]. intros req Hb. apply wp_give_back; [done|].
  apply wp_answer_terminal, IH. lia.
Qed.

(** Where the loop leaves the writer: it knows that [closing] is closed. *)
Definition writer_left (q : gmultiset Quota.tok) (m : kshare) : Prop :=
  exists n clean dr em, m = kwriter q 0 1 (PIdle n clean dr em).
Lemma packet_writer_left q n clean dr em : writer_left q (kwriter q 0 1 (PIdle n clean dr em)).
Proof. by exists n, clean, dr, em. Qed.

Lemma wp_packet_writer_drain fuel q kn n em (Q : unit -> kshare -> Prop) :
  Quota.idle q -> (total < n + fuel)%nat -> (forall m, writer_left q m -> Q tt m) ->
  kwp (writer_drain pf env io fuel) (kwriter q 0 kn (PIdle n true true em)) Q.
Proof.
  intros Hi Hf HQ. revert n em Hf. induction fuel as [|fuel IH]; intros n em Hf;
    [apply wp_packet_no_fuel; lia|]. cbn [writer_drain]. apply wp_bind, wp_packet_next_left.
  - apply (wp_packet_initiateClose _ _ _ _ _ _ _ _ 1%nat); [by apply kwriter_may_close|]. apply HQ, packet_writer_left.
  - intros req Hb. apply wp_bind, wp_packet_handleOutbound; [done..| |].
    + apply IH. lia.
    + apply wp_ret, HQ, packet_writer_left.
Qed.

Lemma elem_next_request p p' e :
  (p', e) ∈ next_request p -> exists req rest, sp_queue (pk_path p) = req :: rest /\
    p' = set_path (put_queue rest (pk_path p)) p /\ e = WriterRequest req.
Proof.
  intros ([t e'] & [= -> ->] & (req & rest & ? & -> & ->)%elem_path_dequeue)%list_elem_of_fmap. eauto.
Qed.
Lemma next_request_nil p : next_request p = [] -> sp_queue (pk_path p) = [].
Proof. unfold next_request. intros E%fmap_nil_inv. by eapply path_dequeue_nil. Qed.

(** One round: [closing], a request, or the signal [sig]. *)
Lemma wp_packet_next_event cases (sig : packetConn -> bool) q kn n (Q : writer_event -> kshare -> Prop) :
  Quota.idle q ->
  (forall p p' e, (p', e) ∈ cases p -> (path_closing (pk_path p) = true /\ p' = p /\ e = WriterClosing) \/
     (sig p = true /\ p' = p /\ e = WriterSignal) \/ (p', e) ∈ next_request p) ->
  (forall p, cases p = [] -> path_closing (pk_path p) = false /\ next_request p = [] /\
     (pk_drainReq p = false \/ g_drained (sp_gate (pk_path p)) = false)) ->
  Q WriterClosing (kwriter q 0 1 (PIdle n true false false)) ->
  (forall req, 0 <= rq_bytes req -> Q (WriterRequest req)
     (kwriter (req_toks (rq_bytes req) ⊎ q) 1 kn (PBusy n req PFresh false))) ->
  (forall p F, inv p (kwriter q 0 kn (PIdle n true false false) ∙ F) -> sig p = true ->
     exists m', inv p (m' ∙ F) /\ Q WriterSignal m') ->
  kwp (select cases) (kwriter q 0 kn (PIdle n true false false)) Q.
Proof.
  intros Hi Hc Hb HC HR HS. apply wp_select. intros p F HI. split.
  - intros (Hcl & Hq%next_request_nil & Hd)%Hb. split; [done|]. right. left. split; [done|]. split; [|done].
    split_and!; try done. cbn. eauto.
  - intros p' e [(Hcl & -> & ->)|[(Hs & -> & ->)|(req & rest & E & -> & ->)%elem_next_request]]%Hc.
    + eexists. split; [|exact HC]. by eapply packet_inv_closing.
    + eauto.
    + assert (0 <= rq_bytes req) as Hrq.
      { pose proof (packet_path_get _ _ _ _ _ _ _ _ HI) as HP. by destruct (path_inv_dequeue _ _ _ _ _ _ _ _ _ _ _ _ _ _ _ _ HP E). }
      eexists. split; [|by apply HR]. eapply packet_inv_path; [exact HI|]. intros F' HP.
      by destruct (path_inv_dequeue _ _ _ _ _ _ _ _ _ _ _ _ _ _ _ _ HP E).
Qed.

Lemma wp_writer_draining fuel0 fuel q kn n (Q : unit -> kshare -> Prop) :
  Quota.idle q -> (total < n + fuel)%nat -> (total < fuel0)%nat -> (forall m, writer_left q m -> Q tt m) ->
  kwp (writer_draining pf env io fuel0 fuel) (kwriter q 0 kn (PIdle n true false false)) Q.
Proof.
  intros Hi Hf Hf0 HQ. revert n Hf. induction fuel as [|fuel IH]; intros n Hf;
    [apply wp_packet_no_fuel; lia|]. cbn [writer_draining].
  apply wp_bind, (wp_packet_next_event _ (fun p => gate_done (sp_gate (pk_path p)))); [done|..].
  - intros p p' e. rewrite !elem_of_app, !elem_ready. naive_solver.
  - intros p [?%ready_nil [? ?%ready_nil]%app_eq_nil]%app_eq_nil. auto.
  - apply wp_ret, HQ, packet_writer_left.
  - intros req Hb. apply wp_bind, wp_packet_handleOutbound; [done..|apply IH; lia|]. apply wp_ret, HQ, packet_writer_left.
  - intros p F HI Hg. exists (kwriter q 0 kn (PIdle n true true false)). split.
    + eapply packet_inv_token; [exact HI|]. intros F' HP. eapply path_inv_idle; [exact HP|by right|done].
    + apply wp_packet_writer_drain; [done|lia|done].
Qed.
Lemma wp_packet_writer_main fuel0 fuel q kn n (Q : unit -> kshare -> Prop) :
  Quota.idle q -> (total < n + fuel)%nat -> (total < fuel0)%nat -> (forall m, writer_left q m -> Q tt m) ->
  kwp (writer_main pf env io fuel0 fuel) (kwriter q 0 kn (PIdle n true false false)) Q.
Proof.
  intros Hi Hf Hf0 HQ. revert n Hf. induction fuel as [|fuel IH]; intros n Hf;
    [apply wp_packet_no_fuel; lia|]. cbn [writer_main]. apply wp_bind, (wp_packet_next_event _ pk_drainReq); [done|..].
  - intros p p' e. rewrite !elem_of_app, !elem_ready. naive_solver.
  - intros p [?%ready_nil [?%ready_nil ?]%app_eq_nil]%app_eq_nil. auto.
  - apply wp_ret, HQ, packet_writer_left.
  - intros req Hb. apply wp_bind, wp_packet_handleOutbound; [done..|apply IH; lia|]. apply wp_ret, HQ, packet_writer_left.
  - intros p F HI _. eexists. split; [exact HI|]. apply wp_writer_draining; [done|lia|done..].
Qed.

(** ** The goroutines *)
Lemma wp_writer_goroutine n :
  (total < n)%nat -> kwp (loop (writerLoop pf env io n)) (kwriter ∅ 0 0 (PIdle 0 true false false)) (fun _ => packet_fin).
Proof.
  intros Hn. assert (Quota.idle ∅) as Hi by (intros c x; multiset_solver).
  apply wp_bind, wp_bind, wp_packet_writer_main; [done..|]. intros m (n' & clean & dr & em & ->).
  apply wp_bind, wp_writer_path, wp_path_await_gate; [done..|].
  apply wp_packet_failPending; [lia|]. intros n2 clean2. apply wp_writer_path, wp_path_writer_done; [done|]. by split_and!.
Qed.
(** A loop that only closes. *)
Definition klooper : kshare := (PShare ∅ (0, 0)%nat 0 0 ∅ 1 0 0 0 0 0 Nobody, (0, 0)%nat).
Lemma klooper_rest : at_rest klooper.1.
Proof. split_and!; [done..|]. intros c x. multiset_solver. Qed.
Lemma wp_loop_end p :
  kwp p klooper (fun _ m => m = klooper) -> kwp (loop p) klooper (fun _ => packet_fin).
Proof.
  intros Hp. apply wp_bind. eapply wp_mono; [|exact Hp]. intros [] m ->.
  apply wp_on_path; [done|]. apply wp_path_loop_done; [done|]. pose proof klooper_rest. by split_and!.
Qed.
Lemma wp_closing_loop cause : kwp (initiateClose cause) klooper (fun _ m => m = klooper).
Proof. apply (wp_packet_initiateClose _ _ _ _ _ _ _ _ 0%nat); [|done]. pose proof klooper_rest. by split_and!. Qed.
Lemma wp_waiting_loop : kwp (on_path path_await_closing) klooper (fun _ m => m = klooper).
Proof. apply wp_on_path; [done|]. apply wp_path_await_closing; [done..|apply klooper_rest|done]. Qed.
Lemma wp_reader_goroutine e : kwp (loop (reader_tail e)) klooper (fun _ => packet_fin).
Proof. apply wp_loop_end. destruct e; [apply wp_waiting_loop|apply wp_closing_loop]. Qed.
Lemma wp_watcher_goroutine k : kwp (loop (watcher_tail pf env k)) klooper (fun _ => packet_fin).
Proof. apply wp_loop_end. destruct k; [apply wp_closing_loop|apply wp_waiting_loop]. Qed.

Definition kfinal : kshare := (PShare ∅ (0, 0)%nat 0 0 ∅ 0 1 0 0 0 0 Nobody, (0, 0)%nat).
Lemma wp_packet_finalizer : kwp finalizer kfinal (fun _ => packet_fin).
Proof.
  assert (at_rest kfinal.1) as Hr by (split_and!; [done..|]; intros c x; multiset_solver).
  apply wp_bind, wp_on_path; [done|]. apply wp_path_loops_wait; [done..|].
  apply wp_bind, (wp_packet_initiateClose _ _ _ _ _ _ _ (kfinal.1, kfinal.2) 0%nat); [by split_and!|].
  apply wp_on_path; [done|]. apply wp_path_close_done; [done|]. by split_and!.
Qed.
Definition kwatch : kshare := gnil.
Lemma wp_listen_watch k : kwp (listen_watch k) kwatch (fun _ => packet_fin).
Proof.
  assert (at_rest kwatch.1) as Hr by (split_and!; [done..|]; intros c x; multiset_solver).
  assert (packet_fin kwatch) as Hfin by by split_and!.
  apply wp_bind, wp_on_path; [done|]. apply wp_path_await_done; [done..|]. intros [].
  - apply (wp_packet_initiateClose _ _ _ _ _ _ _ (kwatch.1, kwatch.2) 0%nat); [by split_and!|]. exact Hfin.
  - by apply wp_ret.
Qed.
End writer.
