(* ===== verification/PacketTheorems.v ===== *)
(** * PacketTheorems: every interleaving of a packet connection

    The properties of every reachable state of every pool made of the goroutines of one
    packet connection and any number of callers. *)
From S2P Require Import Prelude Conc Kinds Errors Classify Gate Quota SendPath SendPathInv SendPathWriter.
From S2P Require Import Endpoint NetAddr Packet PacketProofs PacketWriter.
Local Open Scope go_scope.
Local Open Scope Z_scope.

Definition packet_calls (opss : list (list packet_op)) : nat := length (mjoin opss).

Section reachable.
Context `{WebSocketLib} (pf : platform) (env : packetEnv) (resolve : string -> result ipaddr).
Context (cause_of : nat -> error) (io : nat -> dgram_io) (qfuel : nat).
Context (wq qb qt : Z) (n : nat) (re : reader_end) (watcher : option (option TimeoutKind)) (listen : option nat).
Context (opss : list (list packet_op)).
Hypothesis wq_ok : 1 <= wq.
Hypothesis qb_ok : 0 <= qb < 2 ^ 62.
Hypothesis qt_ok : 0 <= qt < 2 ^ 62.
Hypothesis n_ok : (packet_calls opss < n)%nat.
Hypothesis qfuel_ok : (2 * packet_calls opss < qfuel)%nat.
Hypothesis peers_ok : Forall (fun ops => forallb usable_op ops = true) opss.
Abbreviation lim := (limits_of (fun _ => qb) qt).
Abbreviation pinv := (path_inv (strict:=true) lim (2 * packet_calls opss) (packet_calls opss) wq (datagram_ok env)).
Abbreviation inv := (packet_inv lim (2 * packet_calls opss) (packet_calls opss) wq env).

(** The goroutines of the connection itself, then the callers. *)
Definition own_goroutines : list (prog packetConn unit) :=
  loop (writerLoop pf env io n) :: loop (reader_tail re) :: finalizer ::
  match watcher with Some k => [loop (watcher_tail pf env k)] | None => [] end ++
  match listen with Some k => [listen_watch k] | None => [] end.
Definition packet_start : pool packetConn :=
  packet_pool pf env resolve cause_of io qfuel wq qb qt n re watcher listen opss.
Lemma packet_start_eq :
  packet_start.2 = own_goroutines ++ (packet_client pf env resolve cause_of qfuel <$> opss).
Proof. unfold packet_start, packet_pool, own_goroutines. by destruct watcher, listen. Qed.

Lemma packet_lim_ok c : 0 <= lim c < 2 ^ 62.
Proof. by destruct c. Qed.

(** ** The initial shares *)
Abbreviation credits := (copies Quota.Credit).
Definition caller (ops : list packet_op) : kshare := kclient (credits (2 * length ops)) 0 0 (length ops) ∅.
Definition own_shares : list kshare :=
  kwriter ∅ 0 0 (PIdle 0 true false false) :: klooper :: kfinal ::
  (if watcher then [klooper] else []) ++ (if listen then [kwatch] else []).
Lemma gsum_packet_callers (os : list (list packet_op)) :
  gsum (caller <$> os) = kclient (credits (2 * packet_calls os)) 0 0 (packet_calls os) ∅.
Proof.
  induction os as [|ops os IH].
  - unfold kclient, pclient, packet_calls, copies. cbn. reflexivity.
  - change (caller ops ∙ gsum (caller <$> os)
            = kclient (credits (2 * packet_calls (ops :: os))) 0 0 (packet_calls (ops :: os)) ∅).
    assert (packet_calls (ops :: os) = (length ops + packet_calls os)%nat) as -> by apply length_app.
    rewrite IH, Nat.mul_add_distr_l, <- copies_add. done.
Qed.
Lemma gsum_first :
  gsum (own_shares ++ (caller <$> opss)) =
  (PShare (credits (2 * packet_calls opss)) (0, 0)%nat 0 (packet_calls opss) ∅ (if watcher then 3 else 2)
     1 0 0 0 0 (Owner (PIdle 0 true false false)), (0, 0)%nat).
Proof.
  unfold own_shares. destruct watcher, listen; cbn [app gsum foldr]; fold (gsum (caller <$> opss)).
  all: rewrite gsum_packet_callers; cbn -[copies gsum disj_union]; f_equal; f_equal; by rewrite ?(left_id_L ∅ (⊎)).
Qed.
Lemma packet_inv_start : inv packet_start.1 (gsum (own_shares ++ (caller <$> opss))).
Proof.
  rewrite gsum_first. split; [|done|by cbn; lia]. change (drain_stored packet_start.1) with (gnil : pshare datagram). rewrite gop_nil_r.
  change (pinv (new_path wq qb qt (if watcher then 3 else 2))
    (PShare (credits (2 * packet_calls opss)) (0, 0)%nat 0 (packet_calls opss) ∅ (if watcher then 3 else 2)%nat
     1 0 0 0 0 (Owner (PIdle 0 true false false)))).
  replace (if watcher then 3 else 2) with (Z.of_nat (if watcher then 3 else 2)%nat) by by destruct watcher.
  apply path_inv_init; first [done|apply packet_lim_ok|lia].
Qed.
Lemma packet_owns :
  owns_at inv (fun i => packet_blk (i <? length own_goroutines)%nat) packet_fin packet_start.2
    (own_shares ++ (caller <$> opss)).
Proof.
  rewrite packet_start_eq. pose proof packet_lim_ok as Hlim. apply owns_at_app.
  - unfold own_goroutines, own_shares.
    constructor; [by apply wp_writer_goroutine|]. constructor; [by apply wp_reader_goroutine|].
    constructor; [by apply wp_packet_finalizer|]. apply Forall2_app.
    + destruct watcher as [k|]; [|constructor]. constructor; [by apply wp_watcher_goroutine|constructor].
    + destruct listen as [k|]; [|constructor]. constructor; [by apply wp_listen_watch|constructor].
  - apply Forall2_fmap_2, Forall_Forall2_diag. eapply Forall_impl; [|exact peers_ok]. intros ops Hu.
    apply wp_packet_client; [done..|]. apply kleft_intro; [|done].
    split; [by intros c x ?%elem_copies|by rewrite mult_copies].
Qed.
Lemma packet_ok c :
  rtc pstep packet_start c ->
  pool_ok_at inv (fun i => packet_blk (i <? length own_goroutines)%nat) packet_fin c.
Proof.
  intros Hr. destruct packet_start as [s ts] eqn:E.
  eapply (wp_adequate_at inv _ packet_fin s ts (own_shares ++ (caller <$> opss))); [..|exact Hr].
  - pose proof packet_inv_start as HI. rewrite E in HI. exact HI.
  - pose proof packet_owns as Ho. rewrite E in Ho. exact Ho.
Qed.

(** ** When nothing can move *)
Section stopped.
Context (p : packetConn) (ts : list (prog packetConn unit)) (ms : list kshare).
Hypothesis HI : inv p (gsum ms).
Hypothesis Hlen : length ts = length ms.
Hypothesis Hall : forall i t m, ts !! i = Some t -> ms !! i = Some m ->
  (t = Ret tt /\ packet_fin m) \/ packet_blk (i <? length own_goroutines)%nat p m.
Definition path_shares : list (pshare datagram) := drain_stored p :: (fst <$> ms).

Lemma stopped_path : pinv (pk_path p) (gsum path_shares).
Proof.
  destruct HI as [HP _ _]. change (gsum path_shares) with (drain_stored p ∙ gsum (fst <$> ms)).
  rewrite <- (sum_field fst) by done. by rewrite gop_comm.
Qed.
Lemma stopped_one m : m ∈ ms -> exists i t, ts !! i = Some t /\ ms !! i = Some m.
Proof.
  intros [i Hi]%list_elem_of_lookup. destruct (lookup_lt_is_Some_2 ts i) as [t Ht]; [|by exists i, t].
  rewrite Hlen. by eapply lookup_lt_Some.
Qed.
Lemma stopped_drain : pk_drainOnce p = pk_drainReq p.
Proof.
  destruct HI as [_ Hd _]. rewrite (sum_none (fun m : kshare => m.2.1)) in Hd; [|done..|].
  - by destruct (pk_drainOnce p), (pk_drainReq p).
  - intros m Hm. destruct (stopped_one m Hm) as (i & t & Ht & Hi).
    by destruct (Hall i t m Ht Hi) as [[_ [_ ?]]|[? _]].
Qed.
Lemma drain_stored_fin : path_fin (drain_stored p).
Proof.
  assert (Quota.idle ∅) by (intros c x; multiset_solver).
  unfold drain_stored. by destruct (pk_drainReq p); split_and!.
Qed.
Lemma stopped_shares m : m ∈ path_shares -> path_fin m \/ path_blk true (pk_path p) m \/ idle_writer (pk_path p) m.
Proof.
  intros [->|(k & -> & Hk)%list_elem_of_fmap]%elem_of_cons; [left; apply drain_stored_fin|].
  destruct (stopped_one k Hk) as (i & t & Ht & Hi).
  destruct (Hall i t k Ht Hi) as [[_ [? _]]|[_ [?%path_blk_own|[[_ [? _]]|[? _]]]]]; auto.
Qed.

Lemma stopped_alive : path_closing (pk_path p) = false -> ps_w (gsum path_shares) <> Nobody.
Proof. by apply (strict_alive _ _ _ _ _ _ _ stopped_path). Qed.

Lemma stopped_closing : path_closing (pk_path p) = true -> finished (p, ts).
Proof.
  intros Hc. unfold finished. cbn. apply Forall_lookup_2. intros i t Ht.
  destruct (lookup_lt_is_Some_2 ms i) as [m Hm]; [rewrite <- Hlen; by eapply lookup_lt_Some|].
  destruct (Hall i t m Ht Hm) as [[? _]|[_ Hb]]; [done|]. exfalso. pose proof stopped_drain.
  pose proof (closing_drained _ _ _ _ _ _ _ stopped_path stopped_shares Hc).
  pose proof (closing_loops _ _ _ _ _ _ _ stopped_path stopped_shares Hc).
  pose proof (closing_done _ _ _ _ _ _ _ stopped_path stopped_shares Hc).
  pose proof (no_second_closer _ _ _ _ _ _ _ stopped_path stopped_shares).
  destruct Hb as [[_ [(? & _)|[_ [?|[_ [[? _]|[[_ ?]|(_ & _ & [?|[? _]])]]]]]]]|[(_ & (_ & _ & ? & _) & _)|(_ & ? & ?)]];
    congruence || done.
Qed.
Lemma stopped_open_drain : path_closing (pk_path p) = false -> pk_drainReq p = false.
Proof.
  intros Hc. destruct (pk_drainReq p) eqn:Ed; [|done]. exfalso.
  pose proof (open_rest _ _ _ _ _ _ _ stopped_path stopped_shares stopped_alive Hc wq_ok) as Hrest.
  assert (g_drained (sp_gate (pk_path p)) = true) as Hdr.
  { destruct (pi_gate _ _ _ _ _ _ _ stopped_path) as (Ha & -> & Hw).
    rewrite Ha, (rest_gate _ Hrest), Hw; [done|]. unfold path_shares, drain_stored. rewrite Ed. cbn. lia. }
  destruct (open_writer _ _ _ _ _ _ _ stopped_path stopped_shares stopped_alive Hc) as (m & Hm & _ & _ & _ & _ & k & dr & em & Ew).
  apply elem_of_cons in Hm as [->|(m' & -> & Hm')%list_elem_of_fmap].
  { destruct drain_stored_fin as (_ & _ & _ & _ & _ & ?). congruence. }
  destruct (stopped_one m' Hm') as (i & t & Ht & Hi).
  pose proof (no_second_closer _ _ _ _ _ _ _ stopped_path stopped_shares).
  destruct (Hall i t m' Ht Hi) as [[_ [(_ & _ & _ & _ & _ & ?) _]]|[_ [Hb|[(_ & _ & [?|?])|((_ & _ & _ & _ & _ & ?) & _)]]]];
    try congruence.
  destruct Hb as [_ [(_ & ? & _)|[_ [?|[_ [[_ ?]|[[? _]|(_ & ? & _)]]]]]]]; congruence || done.
Qed.
Lemma stopped_open_callers :
  path_closing (pk_path p) = false -> Forall (fun t => t = Ret tt) (drop (length own_goroutines) ts).
Proof.
  intros Hc. apply Forall_lookup_2. intros i t Ht. rewrite lookup_drop in Ht.
  destruct (lookup_lt_is_Some_2 ms (length own_goroutines + i)) as [m Hm]; [rewrite <- Hlen; by eapply lookup_lt_Some|].
  destruct (Hall _ t m Ht Hm) as [[? _]|[_ Hb]]; [done|]. exfalso.
  replace (length own_goroutines + i <? length own_goroutines)%nat with false in Hb by (symmetry; apply Nat.ltb_ge; lia).
  pose proof stopped_drain. pose proof (no_second_closer _ _ _ _ _ _ _ stopped_path stopped_shares).
  assert (~ path_wait (pk_path p) m.1).
  { eapply (open_no_wait _ _ _ _ _ _ _ stopped_path stopped_shares stopped_alive); [done..|]. right.
    apply list_elem_of_fmap_2. by eapply list_elem_of_lookup_2. }
  destruct Hb as [[_ [(_ & _ & ?)|[_ [?|[? _]]]]]|[[? _]|(_ & ? & ?)]]; congruence || done.
Qed.
Lemma stopped_once : sp_once (pk_path p) = path_closing (pk_path p).
Proof. apply (settled_sum _ _ _ _ _ _ _ stopped_path (stopped_settled _ _ stopped_shares)). Qed.
End stopped.

Lemma packet_rest c :
  rtc pstep packet_start c -> ~ can_step c ->
  pk_drainOnce c.1 = pk_drainReq c.1 /\ sp_once (pk_path c.1) = path_closing (pk_path c.1) /\
  if path_closing (pk_path c.1)
  then finished c /\ sp_done (pk_path c.1) = true /\ sp_loops (pk_path c.1) = 0 /\ sp_physical (pk_path c.1) = 1
  else pk_drainReq c.1 = false /\ Forall (fun t => t = Ret tt) (drop (length own_goroutines) c.2).
Proof.
  intros Hr Hst. pose proof (packet_ok _ Hr) as Hok. destruct c as [p ts]. cbn [fst snd] in *.
  destruct (pool_ok_at_blocked _ _ _ _ Hok Hst) as (ms & HI & Hlen & Hall). cbn [fst snd] in *.
  pose proof (stopped_path _ _ HI) as HP. pose proof (stopped_shares _ _ _ HI Hlen Hall) as Hsh.
  split; [by eapply stopped_drain|]. split; [by eapply stopped_once|].
  destruct (path_closing (pk_path p)) eqn:Hc; [|by split; [eapply stopped_open_drain|eapply stopped_open_callers]].
  destruct (settled_sum _ _ _ _ _ _ _ HP (stopped_settled _ _ Hsh)) as [_ Hphys]. rewrite Hc in Hphys.
  split_and!; [by eapply stopped_closing|by eapply closing_done|by eapply closing_loops|done].
Qed.

(** ** Properties *)

Lemma packet_within c :
  rtc pstep packet_start c ->
  ~ panics c /\ 0 <= sp_slots (pk_path c.1) <= wq + 1 /\ zlen (sp_queue (pk_path c.1)) <= wq /\
  0 <= current (qs_local (sp_quota (pk_path c.1)) 0) <= qb /\
  0 <= g_active (sp_gate (pk_path c.1)) /\ 0 <= sp_physical (pk_path c.1) <= 1 /\
  (path_closing (pk_path c.1) = true -> g_closed (sp_gate (pk_path c.1)) = true).
Proof.
  intros Hok%packet_ok. split; [exact (pool_ok_no_panic _ _ _ _ (pool_ok_at_any _ _ _ _ Hok))|].
  destruct Hok as (ms & _ & [HP _ _]). destruct HP.
  destruct pi_quota as [_ Hq], pi_gate as (Ha & _ & _). pose proof (Hq (Some 0%nat)) as [_ _ Hr _ _ _ _].
  split_and!; try lia; try done; try apply Hr. destruct (path_closing (pk_path c.1)); cbn in *; lia.
Qed.

(** C16. What the socket is given: at every moment the datagrams it has taken are the first
    of those admitted to the queue, in the order of admission; every admitted datagram is
    within the size limit and names a peer exactly when the socket is not connected; each
    request is answered at most once; and a caller is told that its datagram was sent only
    when the socket has taken it, and all those before it (no caller passing a nil pointer as
    a peer). *)
Theorem packet_order c :
  rtc pstep packet_start c ->
  sp_written (pk_path c.1) `prefix_of` rq_item <$> sp_admitted (pk_path c.1) /\
  Forall (fun r => zlen (dg_data (rq_item r)) <= pe_maxPacket env /\ peer_ok env (dg_peer (rq_item r)))
    (sp_admitted (pk_path c.1)) /\
  NoDup (sp_acked (pk_path c.1)).*1 /\
  (forall id, (id, None) ∈ sp_acked (pk_path c.1) ->
     exists r, sp_admitted (pk_path c.1) !! id = Some r /\ sp_written (pk_path c.1) !! id = Some (rq_item r)).
Proof.
  intros (ms & _ & [HP _ _])%packet_ok. split_and!; [apply HP| |by eapply path_acked_once|].
  - eapply Forall_impl; [|apply (pi_items _ _ _ _ _ _ _ HP)]. intros r (-> & ? & ?). done.
  - intros id Hid%(pi_nil _ _ _ _ _ _ _ HP). destruct (pi_written _ _ _ _ _ _ _ HP) as [rest E].
    destruct (lookup_lt_is_Some_2 (sp_written (pk_path c.1)) id Hid) as [d Hd].
    assert ((rq_item <$> sp_admitted (pk_path c.1)) !! id = Some d) as Hl by (rewrite E; by apply lookup_app_l_Some).
    apply list_lookup_fmap_Some in Hl as (r & -> & Hr). eauto.
Qed.

(** C15. A packet connection never gets stuck: when nothing can move any more, every admitted
    request has been answered exactly once in the order of admission and every slot and
    every byte charged to the connection and to the Engine has been given back; and
    either the connection is closed (all goroutines and callers have returned, [done] is
    closed, the socket was closed once), or it is open, no drain is pending, every caller
    has returned and every admitted datagram has been taken by the socket.  So every call
    returns, and a requested drain always runs to the end (no caller passing a nil pointer
    as a peer, see [packet_safe]). *)
Theorem packet_settles c :
  rtc pstep packet_start c -> ~ can_step c ->
  sp_queue (pk_path c.1) = [] /\ sp_handled (pk_path c.1) = sp_admitted (pk_path c.1) /\
  (sp_acked (pk_path c.1)).*1 = rq_id <$> filter (fun r => rq_ack r = true) (sp_admitted (pk_path c.1)) /\
  sp_slots (pk_path c.1) = 0 /\ g_active (sp_gate (pk_path c.1)) = 0 /\
  current (qs_local (sp_quota (pk_path c.1)) 0) = 0 /\ globalCurrent (Some (qs_global (sp_quota (pk_path c.1)))) = 0 /\
  if path_closing (pk_path c.1)
  then finished c /\ sp_done (pk_path c.1) = true /\ sp_loops (pk_path c.1) = 0 /\ sp_physical (pk_path c.1) = 1
  else pk_drainReq c.1 = false /\ Forall (fun t => t = Ret tt) (drop (length own_goroutines) c.2) /\
       sp_written (pk_path c.1) = rq_item <$> sp_admitted (pk_path c.1).
Proof.
  intros Hr Hst. pose proof (packet_ok _ Hr) as Hok. destruct c as [p ts]. cbn [fst snd] in *.
  destruct (pool_ok_at_blocked _ _ _ _ Hok Hst) as (ms & HI & Hlen & Hall). cbn [fst snd] in *.
  pose proof (stopped_path _ _ HI) as HP. pose proof (stopped_shares _ _ _ HI Hlen Hall) as Hsh.
  assert ((forall m, m ∈ path_shares p ms -> at_rest m) /\ sp_queue (pk_path p) = [] /\
          sp_handled (pk_path p) = sp_admitted (pk_path p)) as (Hrest & Hq & Hh).
  { destruct (path_closing (pk_path p)) eqn:Hc.
    - split; [by eapply closing_rest|]. pose proof (pi_writer _ _ _ _ _ _ _ HP) as Hw.
      rewrite (@sum_nil _ _ _ (ghost_excl (ptok datagram)) ps_w) in Hw; [|done..|].
      + by destruct Hw as (? & _ & ? & _).
      + apply Forall_forall. intros m Hm%list_elem_of_In.
        by destruct (closing_nobody_blocked _ _ _ _ _ _ _ HP Hsh Hc m Hm) as (_ & _ & _ & _ & _ & ?).
    - split; [eapply open_rest; [done|done|by eapply stopped_alive|done|done]|]. by destruct (open_handled _ _ _ _ _ _ _ HP Hsh (stopped_alive _ _ HI) Hc) as (? & ? & _). }
  destruct (rest_given_back _ _ _ _ _ _ _ HP Hrest Hq) as (? & ? & ? & ?).
  rewrite (pi_acks _ _ _ _ _ _ _ HP), Hh. split_and!; try done.
  destruct (packet_rest _ Hr Hst) as (_ & _ & Hend). cbn [fst snd] in Hend.
  destruct (path_closing (pk_path p)) eqn:Hc; [done|]. destruct Hend. split_and!; [done..|].
  by destruct (open_handled _ _ _ _ _ _ _ HP Hsh (stopped_alive _ _ HI) Hc) as (_ & _ & ?).
Qed.
End reachable.

(** C17. Whatever the callers, the socket, the peer and the timeouts do and however they
    interleave, provided that no caller passes a nil [*net.UDPAddr] or another nil pointer as
    the peer of [SendTo] or [TrySendTo] ([usable_op]; [nil_peer_panics] shows what happens
    otherwise): no goroutine of a packet connection panics (no channel is closed twice),
    the slots, the queue and the byte budget stay within their capacities, no sender is lost
    from the gate's count, and the socket is closed at most once, the gate first. *)
Theorem packet_safe `{WebSocketLib} pf env resolve cause_of io qfuel wq qb qt n re watcher listen opss c :
  1 <= wq -> 0 <= qb < 2 ^ 62 -> 0 <= qt < 2 ^ 62 -> (packet_calls opss < n)%nat -> (2 * packet_calls opss < qfuel)%nat ->
  Forall (fun ops => forallb usable_op ops = true) opss ->
  rtc pstep (packet_start pf env resolve cause_of io qfuel wq qb qt n re watcher listen opss) c ->
  ~ panics c /\ 0 <= sp_slots (pk_path c.1) <= wq + 1 /\ zlen (sp_queue (pk_path c.1)) <= wq /\
  0 <= current (qs_local (sp_quota (pk_path c.1)) 0) <= qb /\
  0 <= g_active (sp_gate (pk_path c.1)) /\ 0 <= sp_physical (pk_path c.1) <= 1 /\
  (path_closing (pk_path c.1) = true -> g_closed (sp_gate (pk_path c.1)) = true).
Proof. intros. by eapply packet_within. Qed.
(** The proviso is needed: resolvePeer dereferences the pointer before anything else. *)
Example nil_peer_panics :
  panics (@packet_start demo_ws Unix demo_packet_env demo_resolve (fun _ => Sentinel ErrClosed)
    (fun _ => {| di_setErr := None; di_write := fun _ _ => None; di_clearErr := None |}) 8 1 64 1024 4
    EndClosing None None [[PSendTo (Some 0%nat) (Some (UDPAddr None)) demo_data]]).
Proof. eexists 3%nat, _, _, _. split; [reflexivity|]. left. Qed.

(** ** A connection of one caller that sends and drains *)
Definition demo_dgram (k : nat) : dgram_io :=
  {| di_setErr := None; di_write := fun _ _ => None; di_clearErr := None |}.
Definition demo_packet_ops : list (list packet_op) :=
  [[PSend (Some 0%nat) demo_data; PSendTo (Some 0%nat) (Some (UDPAddr (Some demo_peer))) demo_data; PDrain]].
Definition demo_packet : pool packetConn :=
  @packet_start demo_ws Unix demo_packet_env demo_resolve (fun _ => Sentinel ErrClosed) demo_dgram 8 1 64 1024 4
    EndClosing None None demo_packet_ops.
(** The caller until it waits for its answer, then the writer: sent. *)
Definition demo_packet_sent : pool packetConn :=
  reached demo_packet (replicate 8 (3, 0)%nat ++ replicate 12 (0, 0)%nat).
Definition demo_packet_end : pool packetConn := reached demo_packet (mjoin (replicate 6 (in_turn 4 30))).

Lemma demo_packet_limits : 0 <= 64 < 2 ^ 62 /\ 0 <= 1024 < 2 ^ 62.
Proof. lia. Qed.
Lemma demo_packet_fuel : (packet_calls demo_packet_ops < 4)%nat /\ (2 * packet_calls demo_packet_ops < 8)%nat.
Proof. vm_compute. lia. Qed.
Lemma demo_packet_peers : Forall (fun ops => forallb usable_op ops = true) demo_packet_ops.
Proof. by repeat constructor. Qed.

Lemma packet_safe_witness : ~ panics demo_packet_sent /\ 0 <= sp_slots (pk_path demo_packet_sent.1) <= 2.
Proof.
  destruct (@packet_safe demo_ws Unix demo_packet_env demo_resolve (fun _ => Sentinel ErrClosed) demo_dgram 8 1 64 1024 4
    EndClosing None None demo_packet_ops demo_packet_sent ltac:(lia) (proj1 demo_packet_limits) (proj2 demo_packet_limits)
    (proj1 demo_packet_fuel) (proj2 demo_packet_fuel) demo_packet_peers (reached_steps _ _)) as (H1 & H2 & _).
  split; [exact H1|exact H2].
Defined.
Lemma packet_order_witness :
  exists r, sp_admitted (pk_path demo_packet_sent.1) !! 0%nat = Some r /\
    sp_written (pk_path demo_packet_sent.1) !! 0%nat = Some (rq_item r) /\ dg_data (rq_item r) = demo_data.
Proof.
  destruct (@packet_order demo_ws Unix demo_packet_env demo_resolve (fun _ => Sentinel ErrClosed) demo_dgram 8 1 64 1024 4
    EndClosing None None demo_packet_ops ltac:(lia) (proj1 demo_packet_limits) (proj2 demo_packet_limits)
    (proj1 demo_packet_fuel) (proj2 demo_packet_fuel) demo_packet_peers demo_packet_sent (reached_steps _ _)) as (_ & _ & _ & H1).
  destruct (H1 0%nat) as (r & Hr & Hw).
  - assert (sp_acked (pk_path demo_packet_sent.1) = [(0%nat, None)]) as -> by (vm_compute; reflexivity). left.
  - exists r. split; [exact Hr|]. split; [exact Hw|]. vm_compute in Hr. injection Hr as <-. vm_compute. reflexivity.
Defined.
Lemma packet_settles_witness :
  finished demo_packet_end /\ sp_done (pk_path demo_packet_end.1) = true /\ sp_slots (pk_path demo_packet_end.1) = 0 /\
  length (sp_written (pk_path demo_packet_end.1)) = 2%nat.
Proof.
  destruct (@packet_settles demo_ws Unix demo_packet_env demo_resolve (fun _ => Sentinel ErrClosed) demo_dgram 8 1 64 1024 4
    EndClosing None None demo_packet_ops ltac:(lia) (proj1 demo_packet_limits) (proj2 demo_packet_limits)
    (proj1 demo_packet_fuel) (proj2 demo_packet_fuel) demo_packet_peers demo_packet_end (reached_steps _ _))
    as (_ & _ & _ & Hs & _ & _ & _ & Hc).
  - apply finished_no_step. vm_compute. repeat constructor.
  - assert (path_closing (pk_path demo_packet_end.1) = true) as E by (vm_compute; reflexivity). rewrite E in Hc.
    destruct Hc as (Hf & Hd & _). split; [exact Hf|]. split; [exact Hd|]. split; [exact Hs|]. vm_compute. reflexivity.
Defined.
