(* ===== verification/PacketSpec.v ===== *)
(** * PacketSpec: what a packet connection promises, and that every run ends

    [packet_refines] shows that every section of every goroutine of a reachable connection
    is one step of the [service] of Service.v or none; [packet_closes] that a connection
    somebody closes or drains is closed by every schedule. *)
From S2P Require Import Prelude Conc Kinds Errors Classify Gate Quota SendPath SendPathInv SendPathWriter Service.
From S2P Require Import Endpoint NetAddr Packet PacketProofs PacketWriter PacketTheorems.
Local Open Scope go_scope.
Local Open Scope Z_scope.

(** ** How one section moves the connection *)
Definition packet_moves (p p' : packetConn) : Prop :=
  path_moves true (fun _ => true) (pk_path p) (pk_path p') /\ (pk_drainOnce p = true -> pk_drainOnce p' = true).

Section programs.
Context `{WebSocketLib} (pf : platform) (env : packetEnv) (resolve : string -> result ipaddr).
Context (cause_of : nat -> error) (io : nat -> dgram_io) (qfuel : nat).
Abbreviation calm := (respects packet_moves).

Lemma moves_on_path {A} (q : prog (sendPath datagram) A) : respects (path_moves true (fun _ => true)) q -> calm (on_path q).
Proof. apply respects_lift_along. intros p t Ht. by split. Qed.
Lemma moves_look {B} (f : packetConn -> B) : calm (atomically (fun p => (p, f p))).
Proof. apply respects_atomically. intros p. split; [|done]. by apply moves_quiet. Qed.
Lemma moves_note {B} (f : packetConn -> packetConn) (b : B) :
  (forall p, pk_path (f p) = pk_path p /\ pk_drainOnce (f p) = pk_drainOnce p) -> calm (atomically (fun p => (f p, b))).
Proof.
  intros Hf. apply respects_atomically. intros p. destruct (Hf p) as [E1 E2]. split; cbn; rewrite ?E1, ?E2; [|done].
  by apply moves_quiet.
Qed.

Create HintDb moves.
(** A program of Packet.v, section by section. *)
Ltac calm :=
  repeat first
    [ solve [auto 1 with moves nocore] | apply respects_ret | apply respects_stuck | apply moves_look | apply moves_note; intros; split; reflexivity
    | apply moves_on_path; first
        [ apply moves_gate | apply moves_acquire | apply moves_tryAcquire | apply moves_release | apply moves_acquireSlot | apply moves_slot | apply moves_offer | apply moves_tryOffer
        | apply moves_await | apply moves_next | apply moves_answer | apply moves_close | apply moves_close_chan
        | apply moves_close_done; reflexivity | apply moves_await_done | apply moves_cancel; reflexivity ]
    | apply respects_bind; [|intros ?]
    | progress cbn [negb]
    | match goal with |- calm (match ?x with _ => _ end) => destruct x end ].

Lemma moves_send k peer data : calm (send_inside pf env cause_of qfuel k peer data).
Proof.
  unfold send_inside, unreserve, sendError, cause_or, terminal_or_closed, Err. calm.
Qed.
#[local] Hint Resolve moves_send : moves.
Lemma moves_trySend peer data : calm (trySend_inside pf env peer data).
Proof.
  unfold trySend_inside, unreserve, trySendError, terminal_or_closed, Err. calm.
Qed.
#[local] Hint Resolve moves_trySend : moves.
Lemma moves_through peer q : calm q -> calm (through_gate pf env peer q).
Proof. intros Hq. unfold through_gate. calm. Qed.
Lemma moves_initiate cause : calm (initiateClose cause).
Proof. unfold initiateClose, close_body, path_close_gate. calm. Qed.
#[local] Hint Resolve moves_initiate : moves.
Lemma moves_drain : calm requestDrain.
Proof.
  unfold requestDrain, path_close_gate. apply respects_bind.
  - apply respects_atomically. intros p. split; [by apply moves_quiet|done].
  - intros []; [calm|].
    + apply respects_atomic_panic. intros p p' [] E. case_match; simplify_eq. split; [by apply moves_quiet|done].
    + apply respects_select. intros p p' b (_ & -> & _)%elem_ready. split; [by apply moves_quiet|done].
Qed.
#[local] Hint Resolve moves_drain : moves.
Lemma moves_client ops : calm (packet_client pf env resolve cause_of qfuel ops).
Proof.
  induction ops as [|o ops IH]; [done|]. apply respects_bind; [|done].
  assert (forall peer k data, calm (send pf env cause_of qfuel k peer data)) as Hs.
  { intros peer [k|] data; [|done]. unfold send, cause_or, through_gate. calm. }
  assert (forall peer data, calm (trySend pf env peer data)) as Ht by (intros; apply moves_through, moves_trySend).
  assert (forall peer q, (forall t, calm (q t)) -> calm (with_peer pf env resolve peer q)) as Hp.
  { intros peer q Hq. apply respects_bind.
    - apply respects_atomic_panic. intros p p' b E. case_match; simplify_eq. split; [by apply moves_quiet|done].
    - intros [t|e]; [apply Hq|done]. }
  destruct o; unfold packet_op_prog; try (apply respects_bind; [|done]); auto using moves_drain.
  - unfold Send. destruct (pe_remote env); [apply Hs|done].
  - unfold TrySend. destruct (pe_remote env); [apply Ht|done].
  - by apply Hp.
  - by apply Hp.
  - unfold Close. calm.
  - by apply moves_on_path, moves_cancel.
Qed.
#[local] Hint Resolve moves_client : moves.

Lemma moves_handle req : calm (handleOutbound pf env io req).
Proof.
  unfold handleOutbound. apply respects_bind.
  - apply respects_atomically. intros p. unfold write_next. destruct (writeDatagram _ _) as [[] err]; cbn; split; try done.
    + apply moves_event_only; [done..|by eapply ev_write].
    + by apply moves_quiet.
  - intros err. unfold terminal_or_closed, Err, count_sent. calm.
Qed.
#[local] Hint Resolve moves_handle : moves.
Lemma moves_pending n : calm (failPending pf env n).
Proof. induction n as [|n IH]; cbn [failPending]; [apply respects_stuck|]. unfold terminal_or_closed, Err. calm. Qed.
#[local] Hint Resolve moves_pending : moves.
Lemma moves_writer_drain n : calm (writer_drain pf env io n).
Proof.
  induction n as [|n IH]; cbn [failPending]; [apply respects_stuck|]. calm.
Qed.
#[local] Hint Resolve moves_writer_drain : moves.
Lemma moves_event (cases : packetConn -> list (packetConn * writer_event)) :
  (forall p p' e, (p', e) ∈ cases p -> p' = p \/ (p', e) ∈ next_request p) -> calm (select cases).
Proof.
  intros Hc. apply respects_select. intros p p' e [->|Hin]%Hc; [split; [by apply moves_quiet|done]|].
  apply list_elem_of_fmap in Hin as ([t b] & [= -> ->] & Hin). move_cases. split; [by apply moves_quiet|done].
Qed.
Lemma moves_writer n : calm (writerLoop pf env io n).
Proof.
  assert (forall m, calm (writer_draining pf env io n m)) as Hd.
  { induction m as [|m IH]; cbn [writer_draining]; [apply respects_stuck|]. apply respects_bind; [|intros []].
    - apply moves_event. intros p p' e Hin. move_cases; auto.
    - done.
    - calm.
    - apply moves_writer_drain. }
  assert (forall m, calm (writer_main pf env io n m)) as Hm.
  { induction m as [|m IH]; cbn [writer_main]; [apply respects_stuck|]. apply respects_bind; [|intros []].
    - apply moves_event. intros p p' e Hin. move_cases; auto.
    - done.
    - calm.
    - apply Hd. }
  unfold writerLoop. calm.
Qed.
#[local] Hint Resolve moves_writer : moves.
Lemma moves_pool wq qb qt n re watcher listen opss :
  Forall calm (packet_pool pf env resolve cause_of io qfuel wq qb qt n re watcher listen opss).2.
Proof.
  unfold packet_pool, loop. cbn [snd]. repeat apply Forall_cons_2; repeat apply Forall_app_2.
  - calm.
  - unfold reader_tail. calm.
  - unfold finalizer. calm.
  - destruct watcher; [|done]. apply Forall_singleton. unfold watcher_tail. calm.
  - destruct listen; [|done]. apply Forall_singleton. unfold listen_watch. calm.
  - apply Forall_fmap, Forall_forall. intros ops _. apply moves_client.
Qed.
End programs.

(** ** The service of a packet connection *)
(** A datagram is accepted if it is within the limit and addressed as the socket requires. *)
Definition datagram_fits (env : packetEnv) (d : datagram) : Prop :=
  zlen (dg_data d) <= pe_maxPacket env /\ peer_ok env (dg_peer d).
(** What a state of the connection stands for. *)
Definition packet_service (p : packetConn) : service datagram := path_service (pk_path p).

Section reachable.
Context `{WebSocketLib} (pf : platform) (env : packetEnv) (resolve : string -> result ipaddr).
Context (cause_of : nat -> error) (io : nat -> dgram_io) (qfuel : nat).
Context (wq qb qt : Z) (n : nat) (re : reader_end) (watcher : option (option TimeoutKind)) (listen : option nat).
Context (opss : list (list packet_op)).
Hypothesis wq_ok : 1 <= wq.
Hypothesis qb_ok : 0 <= qb < 2 ^ 62.
Hypothesis qt_ok : 0 <= qt < 2 ^ 62.
Hypothesis n_ok : (packet_calls opss < n)%nat.
Hypothesis qfuel_ok : (2 * packet_calls opss < qfuel)%nat.
Hypothesis peers_ok : Forall (fun ops => forallb usable_op ops = true) opss.
Abbreviation start := (packet_start pf env resolve cause_of io qfuel wq qb qt n re watcher listen opss).

(** C1. A packet connection implements the service: it starts as an empty one, and every
    atomic section of every goroutine, in every reachable state, is one step of the
    service or leaves it as it is, as long as no caller passes a nil pointer as a peer. *)
Theorem packet_refines :
  packet_service start.1 = service_init /\
  forall c c', rtc pstep start c -> pstep c c' ->
    packet_service c'.1 = packet_service c.1 \/ service_step (datagram_fits env) (packet_service c.1) (packet_service c'.1).
Proof.
  split; [done|]. intros c c' Hr Hs.
  destruct (respects_step _ _ _ (respects_reach _ _ _ (moves_pool _ _ _ _ _ _ _ _ _ _ _ _ _ _) Hr) Hs) as [[Hm _] _].
  assert (rtc pstep start c') as Hr' by by eapply rtc_r.
  eapply packet_ok in Hr' as (ms & _ & [HP _ _]); [|done..].
  eapply path_refines; [exact HP| |exact Hm]. intros d k (-> & ? & ?). by split.
Qed.

(** ** Closing *)
Definition closing_op (o : packet_op) : bool := match o with PClose | PDrain => true | _ => false end.
(** Somebody closes the connection or asks for a drain, the read loop fails, or a timeout
    policy expires. *)
Definition asked_to_close : bool :=
  match re with EndInitiate _ => true | EndClosing => false end ||
  match watcher with Some (Some _) => true | _ => false end || existsb closing_op (mjoin opss).
Definition close_begun (p : packetConn) : Prop := sp_once (pk_path p) = true \/ pk_drainOnce p = true.

Lemma begun_kept : Forall (respects (fun p p' => close_begun p -> close_begun p')) start.2.
Proof.
  eapply Forall_impl; [|apply (moves_pool pf env resolve cause_of io qfuel wq qb qt n re watcher listen opss)].
  intros q. apply respects_impl. intros p p' [Hm Hd] [?|?]; [left; by apply (mv_once _ _ _ _ Hm)|right; auto].
Qed.
Lemma at_once_initiate cause : at_once close_begun (loop (initiateClose cause)).
Proof. intros p. eexists _, _. split; [reflexivity|]. by left. Qed.
Lemma ensures_initiate cause : ensures close_begun (initiateClose cause).
Proof. apply ensures_then. intros p p' b Hin%list_elem_of_singleton. left. left. by simplify_eq/=. Qed.
Lemma ensures_client ops : existsb closing_op ops = true ->
  ensures close_begun (packet_client pf env resolve cause_of qfuel ops).
Proof.
  induction ops as [|o ops IH]; [done|]. intros [Ho|Ho]%orb_prop; [|by apply ensures_later; auto].
  apply ensures_then. destruct o; try discriminate Ho.
  - apply ensures_then, ensures_then, ensures_initiate.
  - apply ensures_then, ensures_atomically. intros p. by right.
Qed.
Lemma asked_rest c : asked_to_close = true -> rtc pstep start c -> ~ can_step c ->
  path_closing (pk_path c.1) = false -> close_begun c.1.
Proof.
  intros Ha Hr Hst Hc. unfold asked_to_close in Ha. apply orb_prop in Ha as [[Ha|Ha]%orb_prop|Ha].
  - apply (at_once_pool _ start c (loop (reader_tail re))); [apply begun_kept|done|right; left| |exact Hst].
    destruct re; [done|]. apply at_once_initiate.
  - assert (exists k, watcher = Some (Some k)) as [k Ew] by (destruct watcher as [[k|]|]; eauto; done).
    apply (at_once_pool _ start c (loop (watcher_tail pf env (Some k))));
      [apply begun_kept|exact Hr| |apply at_once_initiate|exact Hst].
    unfold packet_start, packet_pool. rewrite Ew. right; right; right; left.
  - apply existsb_exists in Ha as (o & (ops & Ho & Hops)%list_elem_of_In%list_elem_of_join & Hop).
    apply list_elem_of_lookup in Hops as [i Hi].
    pose proof (packet_start_eq pf env resolve cause_of io qfuel wq qb qt n re watcher listen opss) as Estart.
    set (own := own_goroutines _ _ _ _ _ _ _) in Estart.
    destruct (ensures_pool close_begun start c (length own + i)%nat (packet_client pf env resolve cause_of qfuel ops))
      as [?|(q & Hq & Hsure)]; [apply begun_kept|done| | |done|].
    + rewrite Estart, lookup_app_r by lia. by rewrite Nat.add_comm, Nat.add_sub, list_lookup_fmap, Hi.
    + apply ensures_client, existsb_exists. exists o. split; [by apply list_elem_of_In|done].
    + destruct (packet_rest pf env resolve cause_of io qfuel wq qb qt n re watcher listen opss
        wq_ok qb_ok qt_ok n_ok qfuel_ok peers_ok c Hr Hst) as (_ & _ & Hend). rewrite Hc in Hend.
      destruct Hend as [_ Hret]. rewrite <- lookup_drop in Hq. pose proof (Forall_lookup_1 _ _ _ _ Hret Hq) as ->. done.
Qed.

(** C3. Closing always completes: when somebody closes the connection or asks for a drain,
    when the read loop fails or a timeout policy expires, every schedule, whatever the
    socket answers, reaches a state in which all goroutines and callers have returned,
    [done] is closed and the socket has been closed once (no caller passing a nil pointer as
    a peer). *)
Theorem packet_closes :
  asked_to_close = true ->
  inevitable (fun c => finished c /\ sp_done (pk_path c.1) = true /\ sp_physical (pk_path c.1) = 1) start.
Proof.
  intros Ha. apply inevitable_end. intros c Hr Hst.
  destruct (packet_rest pf env resolve cause_of io qfuel wq qb qt n re watcher listen opss
    wq_ok qb_ok qt_ok n_ok qfuel_ok peers_ok c Hr Hst) as (Ed & Eo & Hend).
  destruct (path_closing (pk_path c.1)) eqn:Hc; [by destruct Hend as (? & ? & _ & ?)|].
  destruct Hend as [Er _]. destruct (asked_rest c Ha Hr Hst Hc); congruence.
Qed.
End reachable.

(** *** Witnesses *)
Lemma packet_refines_witness :
  packet_service demo_packet.1 = service_init /\
  length (sv_out (packet_service demo_packet_sent.1)) = 1%nat /\
  forall c', pstep demo_packet_sent c' ->
    packet_service c'.1 = packet_service demo_packet_sent.1 \/
    service_step (datagram_fits demo_packet_env) (packet_service demo_packet_sent.1) (packet_service c'.1).
Proof.
  destruct (@packet_refines demo_ws Unix demo_packet_env demo_resolve (fun _ => Sentinel ErrClosed) demo_dgram 8 1 64 1024 4
    EndClosing None None demo_packet_ops ltac:(lia) (proj1 demo_packet_limits) (proj2 demo_packet_limits)
    (proj1 demo_packet_fuel) (proj2 demo_packet_fuel) demo_packet_peers) as [H1 H2].
  split; [exact H1|]. split; [vm_compute; reflexivity|]. intros c'. apply H2. apply reached_steps.
Defined.
Lemma packet_closes_witness :
  inevitable (fun c => finished c /\ sp_done (pk_path c.1) = true /\ sp_physical (pk_path c.1) = 1) demo_packet.
Proof.
  apply (@packet_closes demo_ws Unix demo_packet_env demo_resolve (fun _ => Sentinel ErrClosed) demo_dgram 8 1 64 1024 4
    EndClosing None None demo_packet_ops ltac:(lia) (proj1 demo_packet_limits) (proj2 demo_packet_limits)
    (proj1 demo_packet_fuel) (proj2 demo_packet_fuel) demo_packet_peers). vm_compute. reflexivity.
Defined.
