(* ===== verification/PacketReader.v ===== *)
(** * PacketReader: the read loop of a packet connection (readerLoop of transport/packet.go)

    The socket is a list of reads, one per iteration, with the results of the deadline
    calls; whether the connection is found closing is an oracle consulted at every
    [isClosing].  Observer events and the activity clock are not part of the state. *)
From S2P Require Import Prelude Conc Kinds Errors Classify SendPath Endpoint NetAddr Packet.
Local Open Scope string_scope.
Local Open Scope list_scope.
Local Open Scope Z_scope.

(** One iteration: the bytes [buf[:n]] read, and on an unconnected socket their sender. *)
Record packet_read := {
  pr_setErr : option error; pr_peer : option ipaddr; pr_data : bytes; pr_err : option error;
  pr_clearErr : option error }.
(** Datagrams handed to the handler with their sender, counters, [isClosing] calls made. *)
Record packet_reader := {
  pr_delivered : list (option ipaddr * bytes);
  pr_bytesRX : Z; pr_packetsRX : Z; pr_droppedDatagrams : Z; pr_checks : nat }.
Definition new_packet_reader : packet_reader :=
  {| pr_delivered := []; pr_bytesRX := 0; pr_packetsRX := 0; pr_droppedDatagrams := 0; pr_checks := 0 |}.

Section loop.
Context `{WebSocketLib} (pf : platform) (env : packetEnv) (closing : nat -> bool).

Definition isClosing (r : packet_reader) : bool * packet_reader :=
  (closing (pr_checks r),
   {| pr_delivered := pr_delivered r; pr_bytesRX := pr_bytesRX r; pr_packetsRX := pr_packetsRX r;
      pr_droppedDatagrams := pr_droppedDatagrams r; pr_checks := S (pr_checks r) |}).
Definition count_drop (r : packet_reader) : packet_reader :=
  {| pr_delivered := pr_delivered r; pr_bytesRX := pr_bytesRX r; pr_packetsRX := pr_packetsRX r;
     pr_droppedDatagrams := inc_u64 (pr_droppedDatagrams r); pr_checks := pr_checks r |}.
(** Counters, then [OnPacket]. *)
Definition deliver_packet (peer : option ipaddr) (data : bytes) (r : packet_reader) : packet_reader :=
  {| pr_delivered := pr_delivered r ++ [(peer, data)]; pr_bytesRX := add_u64 (pr_bytesRX r) (zlen data);
     pr_packetsRX := inc_u64 (pr_packetsRX r); pr_droppedDatagrams := pr_droppedDatagrams r;
     pr_checks := pr_checks r |}.

(** [p.remote != nil && p.timeouts.ReadIdle > 0] *)
Definition idle_deadline : bool := match pe_remote env with Some _ => pe_readIdle env | None => false end.
Definition peer_of (ev : packet_read) : option ipaddr :=
  match pe_remote env with Some r => Some r | None => pr_peer ev end.
Definition fail_receive (cause : error) (peer : option ipaddr) (r : packet_reader) : packet_reader * reader_end :=
  (r, EndInitiate (operationalError pf env OpReceive cause (as_addr peer))).

(** A read that failed. *)
Definition read_failed (err : error) (peer : option ipaddr) (r : packet_reader) : packet_reader * reader_end :=
  let '(stop, r) := isClosing r in
  if stop : bool then (r, EndClosing)
  else if idle_deadline && isTimeoutFailure (Some err)
  then fail_receive (TimeoutError TimeoutReadIdle (Some err)) peer r
  else match normalizePacketError (Some err) with
       | Some e => fail_receive e peer r
       | None => (r, EndInitiate None)
       end.
(** One iteration: [inl] continues. *)
Definition receive_once (ev : packet_read) (r : packet_reader) : packet_reader + (packet_reader * reader_end) :=
  match (if idle_deadline then pr_setErr ev else None) with
  | Some e => inr (fail_receive (Errorf "transport: set UDP read deadline" e) (pe_remote env) r)
  | None =>
      let peer := peer_of ev in
      match (if idle_deadline then pr_clearErr ev else None), pr_err ev with
      | Some e, None => inr (fail_receive (Errorf "transport: clear UDP read deadline" e) peer r)
      | _, Some err => inr (read_failed err peer r)
      | None, None =>
          if zlen (pr_data ev) >? pe_maxPacket env then inl (count_drop r)
          else
            let '(stop, r) := isClosing (deliver_packet peer (pr_data ev) r) in
            if stop : bool then inr (r, EndClosing) else inl r
      end
  end.
(** The loop; [None] is a connection still waiting for input. *)
Fixpoint receive_all (evs : list packet_read) (r : packet_reader) : packet_reader * option reader_end :=
  match evs with
  | [] => (r, None)
  | ev :: evs =>
      match receive_once ev r with
      | inl r => receive_all evs r
      | inr (r, e) => (r, Some e)
      end
  end.
Definition readerLoop (evs : list packet_read) : packet_reader * option reader_end := receive_all evs new_packet_reader.

(** ** What is delivered *)
Definition fits_packet (ev : packet_read) : Prop := zlen (pr_data ev) <= pe_maxPacket env.
#[local] Instance fits_packet_dec ev : Decision (fits_packet ev) := decide (zlen (pr_data ev) <= pe_maxPacket env).
Definition as_received (ev : packet_read) : option ipaddr * bytes := (peer_of ev, pr_data ev).

(** The state of a reader that has seen the reads [pre]. *)
Definition has_read (pre : list packet_read) (r : packet_reader) : Prop :=
  let kept := filter fits_packet pre in
  pr_delivered r = as_received <$> kept /\
  pr_bytesRX r = wrap_u 64 (lsum (fun ev => zlen (pr_data ev)) kept) /\
  pr_packetsRX r = wrap_u 64 (Z.of_nat (length kept)) /\
  pr_droppedDatagrams r = wrap_u 64 (Z.of_nat (length pre - length kept)).

Lemma wrap_add a b : wrap_u 64 (wrap_u 64 a + b) = wrap_u 64 (a + b).
Proof. unfold wrap_u. by rewrite Zplus_mod_idemp_l. Qed.
Lemma has_read_deliver pre r ev :
  has_read pre r -> fits_packet ev -> has_read (pre ++ [ev]) (deliver_packet (peer_of ev) (pr_data ev) r).
Proof.
  intros (Hd & Hb & Hp & Hdr) Hf. unfold has_read. rewrite list.filter_app, filter_cons_True, filter_nil by done.
  cbn [deliver_packet pr_delivered pr_bytesRX pr_packetsRX pr_droppedDatagrams].
  rewrite Hd, Hb, Hp, Hdr, fmap_app, lsum_snoc, !length_app. unfold add_u64, inc_u64. rewrite !wrap_add.
  cbn [length]. split_and!; [done|done|f_equal; lia|f_equal; lia].
Qed.
Lemma has_read_drop pre r ev :
  has_read pre r -> ~ fits_packet ev -> has_read (pre ++ [ev]) (count_drop r).
Proof.
  intros (Hd & Hb & Hp & Hdr) Hf. unfold has_read. rewrite list.filter_app, filter_cons_False, filter_nil, app_nil_r by done.
  cbn [count_drop pr_delivered pr_bytesRX pr_packetsRX pr_droppedDatagrams].
  split_and!; [done..|]. rewrite Hdr, length_app. unfold inc_u64. rewrite wrap_add. f_equal. cbn [length].
  pose proof (length_filter fits_packet pre). lia.
Qed.

(** ** When it stops *)
(** Reads that go well: both deadline calls, if they are made, and the read itself. *)
Definition read_ok (ev : packet_read) : Prop :=
  (idle_deadline = true -> pr_setErr ev = None /\ pr_clearErr ev = None) /\ pr_err ev = None.
(** The loop goes on after the read [ev], [k] datagrams having been delivered before it: it
    drops an oversized datagram, and asks after a delivery whether the connection is closing. *)
Definition reads_on (k : nat) (ev : packet_read) : Prop := read_ok ev /\ (fits_packet ev -> closing k = false).
Fixpoint all_read_on (k : nat) (evs : list packet_read) : Prop :=
  match evs with
  | [] => True
  | ev :: evs => reads_on k ev /\ all_read_on (if decide (fits_packet ev) then S k else k) evs
  end.
(** How it ends at the read [ev], [k] datagrams having been delivered before it, and whether
    this one was. *)
Inductive stops_at (k : nat) (ev : packet_read) : bool -> reader_end -> Prop :=
  | stop_closing : read_ok ev -> fits_packet ev -> closing k = true -> stops_at k ev true EndClosing
  | stop_set_deadline e : idle_deadline = true -> pr_setErr ev = Some e ->
      stops_at k ev false (EndInitiate (operationalError pf env OpReceive
        (Errorf "transport: set UDP read deadline" e) (as_addr (pe_remote env))))
  | stop_clear_deadline e : idle_deadline = true -> pr_setErr ev = None -> pr_err ev = None -> pr_clearErr ev = Some e ->
      stops_at k ev false (EndInitiate (operationalError pf env OpReceive
        (Errorf "transport: clear UDP read deadline" e) (as_addr (peer_of ev))))
  | stop_error_closing e : (idle_deadline = true -> pr_setErr ev = None) -> pr_err ev = Some e -> closing k = true ->
      stops_at k ev false EndClosing
  | stop_idle e : idle_deadline = true -> pr_setErr ev = None -> pr_err ev = Some e -> closing k = false ->
      isTimeoutFailure (Some e) = true ->
      stops_at k ev false (EndInitiate (operationalError pf env OpReceive
        (TimeoutError TimeoutReadIdle (Some e)) (as_addr (peer_of ev))))
  | stop_error e : (idle_deadline = true -> pr_setErr ev = None) -> pr_err ev = Some e -> closing k = false ->
      idle_deadline && isTimeoutFailure (Some e) = false ->
      stops_at k ev false (EndInitiate match normalizePacketError (Some e) with
                                       | Some cause => operationalError pf env OpReceive cause (as_addr (peer_of ev))
                                       | None => None
                                       end).

(** One iteration, on a reader that has made the reads [pre]. *)
Definition made (pre : list packet_read) (r : packet_reader) : Prop :=
  has_read pre r /\ pr_checks r = length (filter fits_packet pre).
Lemma read_failed_spec pre ev r e :
  has_read pre r -> (idle_deadline = true -> pr_setErr ev = None) -> pr_err ev = Some e ->
  let '(r', e') := read_failed e (peer_of ev) r in
  exists delivered, stops_at (pr_checks r) ev delivered e' /\ has_read (if delivered : bool then pre ++ [ev] else pre) r'.
Proof.
  intros Hr Hset Ee. unfold read_failed, fail_receive, isClosing. cbv beta iota zeta.
  destruct (closing (pr_checks r)) eqn:Ec; [exists false; split; [by eapply stop_error_closing|done]|].
  destruct (idle_deadline && isTimeoutFailure (Some e)) eqn:Et.
  - apply andb_prop in Et as [Ei Et]. exists false. split; [by eapply stop_idle; auto|done].
  - pose proof (stop_error (pr_checks r) ev e Hset Ee Ec Et) as Hs. destruct (normalizePacketError _); exists false; by split.
Qed.
Lemma receive_once_spec pre ev r :
  made pre r ->
  match receive_once ev r with
  | inl r' => made (pre ++ [ev]) r' /\ reads_on (pr_checks r) ev /\
              pr_checks r' = (if decide (fits_packet ev) then S (pr_checks r) else pr_checks r)
  | inr (r', e) => exists delivered, stops_at (pr_checks r) ev delivered e /\
              has_read (if delivered : bool then pre ++ [ev] else pre) r'
  end.
Proof.
  intros [Hr Hk]. unfold receive_once.
  destruct (if idle_deadline then pr_setErr ev else None) as [se|] eqn:Es.
  { destruct idle_deadline eqn:Ei; [|done]. exists false. split; [by apply stop_set_deadline|done]. }
  assert (idle_deadline = true -> pr_setErr ev = None) as Hset by (intros E; by rewrite E in Es).
  destruct (if idle_deadline then pr_clearErr ev else None) as [ce|] eqn:Eclr, (pr_err ev) as [e|] eqn:Ee.
  - by apply read_failed_spec.
  - destruct idle_deadline eqn:Ei; [|done]. exists false. split; [apply stop_clear_deadline; auto|done].
  - by apply read_failed_spec.
  - assert (read_ok ev) as Hok by (split; [|done]; intros Ei; rewrite Ei in *; auto).
    rewrite Z.gtb_ltb. destruct (_ <? _) eqn:E; cbn -[has_read].
    + assert (~ fits_packet ev) as Hf by (unfold fits_packet; lia). split_and!.
      * split; [by apply has_read_drop|]. by rewrite list.filter_app, filter_cons_False, filter_nil, app_nil_r.
      * by split.
      * by rewrite decide_False.
    + assert (fits_packet ev) as Hf by (unfold fits_packet; lia). pose proof (has_read_deliver pre r ev Hr Hf) as Hd.
      destruct (closing (pr_checks r)) eqn:Ec; [exists true; split; [by apply stop_closing|exact Hd]|]. split_and!.
      * split; [exact Hd|]. rewrite list.filter_app, filter_cons_True, filter_nil, length_app by done. cbn. lia.
      * by split.
      * by rewrite decide_True.
Qed.
Lemma receive_all_spec evs pre r :
  made pre r ->
  let '(r', e) := receive_all evs r in
  exists got rest, evs = got ++ rest /\ all_read_on (pr_checks r) got /\
    match rest with
    | [] => e = None /\ has_read (pre ++ got) r'
    | ev :: _ => exists delivered stop, e = Some stop /\
        stops_at (pr_checks r + length (filter fits_packet got)) ev delivered stop /\
        has_read (pre ++ got ++ if delivered : bool then [ev] else []) r'
    end.
Proof.
  revert pre r. induction evs as [|ev evs IH]; intros pre r Hm; cbn [receive_all].
  { exists [], []. rewrite (app_nil_r pre). split_and!; [done..|]. apply Hm. }
  pose proof (receive_once_spec pre ev r Hm) as Ho. destruct (receive_once ev r) as [r1|[r1 e1]].
  - destruct Ho as (Hm1 & Hon & Ek). specialize (IH _ _ Hm1). destruct (receive_all evs r1) as [r' e].
    destruct IH as (got & rest & -> & Hg & Hend). exists (ev :: got), rest. split_and!; [done|split; [done|by rewrite <- Ek]|].
    rewrite filter_cons. destruct rest as [|ev' rest].
    + by rewrite <- (assoc_L (++)) in Hend.
    + destruct Hend as (delivered & stop & He & Hs & Hd). exists delivered, stop. split_and!; [done| |by rewrite <- (assoc_L (++)) in Hd].
      rewrite Ek in Hs. destruct (decide (fits_packet ev)); cbn [length]; [by rewrite Nat.add_succ_r|done].
  - destruct Ho as (delivered & Hs & Hd). exists [], (ev :: evs). split_and!; [done..|]. exists delivered, e1.
    rewrite filter_nil, Nat.add_0_r. split_and!; [done..|]. destruct delivered; [done|]. by rewrite app_nil_r.
Qed.

(** C29. Whatever the socket returns, the read loop goes on through the reads that go well,
    oversized datagrams included, and stops at the first after which it must (a read or a
    deadline call fails, or the connection is found closing after a delivery) with the
    outcome of the rule that applies ([stops_at]); it still waits for input exactly when all
    reads went well.  It has handed over exactly the datagrams within the size limit among
    those reads, in order and each with its sender (the connected peer on a connected
    socket), and counted their bytes, their number and the ones it dropped (as [uint64]). *)
Theorem packet_reader_delivers evs :
  let '(r, e) := readerLoop evs in
  exists got rest, evs = got ++ rest /\ all_read_on 0 got /\
    match rest with
    | [] => e = None /\ has_read got r
    | ev :: _ => exists delivered stop, e = Some stop /\
        stops_at (length (filter fits_packet got)) ev delivered stop /\
        has_read (got ++ if delivered : bool then [ev] else []) r
    end.
Proof. apply (receive_all_spec evs [] new_packet_reader). by split. Qed.
End loop.

Definition demo_read (data : bytes) : packet_read :=
  {| pr_setErr := None; pr_peer := None; pr_data := data; pr_err := None; pr_clearErr := None |}.
Definition demo_reads : list packet_read :=
  demo_read <$> [to_byte <$> [1; 2]; to_byte <$> [1; 2; 3; 4; 5; 6; 7; 8; 9]; to_byte <$> [3]].
Definition demo_reader_env : packetEnv :=
  {| pe_local := OtherAddr "local"; pe_remote := None; pe_maxPacket := 8; pe_readIdle := false |}.
Definition demo_reader_ws : WebSocketLib := {| CloseStatus := fun _ => -1 |}.
(** Two datagrams around an oversized one: both are delivered, and the loop waits for more. *)
Example demo_reader_run :
  (@readerLoop demo_reader_ws Unix demo_reader_env (fun _ => false) demo_reads).2 = None /\
  pr_delivered (@readerLoop demo_reader_ws Unix demo_reader_env (fun _ => false) demo_reads).1 =
    [(None, to_byte <$> [1; 2]); (None, to_byte <$> [3])].
Proof. vm_compute. done. Qed.
