(* ===== verification/Websocket.v ===== *)
(** * Websocket: a WebSocket session shared by its goroutines

    Models the [wsSession] of transport/websocket.go with websocket_graceful.go,
    websocket_write_state.go and websocket_error_helpers.go, on the way out of SendPath.v,
    the lifecycle of Lifecycle.v and the codec of WsCodec.v.

    What the WebSocket library answers is given from outside: [io] the result of the [k]-th
    [ws.Write] and whether its deadline had passed, [ws_close] the result of the final
    [ws.Close], a [read_event] per [ws.Read], a result per [ws.Ping].  [rnd k] is the
    randomness of the [k]-th encryption, [fires] tells whether the timer of
    [watchCloseTimeout] runs out.  The goroutine that a shutdown starts is in the pool from
    the beginning and waits for its start.  Observer events, the activity clock's touches
    and the handler's callbacks, which do not touch the state, are left out; the messages
    given to the handler are recorded in a history, and so is, in [ls_log], that the winner
    of an abort has entered [closeOnce]. *)
From S2P Require Import Prelude Conc Kinds Errors Classify Encoding Secure Message Gate Lifecycle Quota SendPath.
From S2P Require Import Endpoint NetAddr WsCodec.
Local Open Scope go_scope.
Local Open Scope string_scope.
Local Open Scope list_scope.
Local Open Scope Z_scope.

(** [wsOutbound] but for the ack channel and the number of bytes, which a request of
    SendPath.v carries. *)
Record wsFrame := { wf_typ : MessageType; wf_payload : bytes; wf_payloadBytes : Z }.

Record wsSession := WsSession {
  wx_path : sendPath wsFrame;   (* queue, quota, gate, frameSlots, closing, done, closeOnce, loops *)
  wx_life : lifeState;   (* life and err *)
  wx_enc : bool;   (* encodeSlot is taken *)
  wx_drained : bool;   (* writerDrained is closed *)
  wx_ctx : bool;   (* writeState.ctx is set *)
  wx_pending : bool;   (* writeState.pendingReadObserved *)
  wx_pendingErr : option error;   (* writeState.pendingReadErr *)
  wx_watch : bool;   (* watchCloseTimeout has been started *)
  wx_writes : nat;   (* writes tried so far *)
  wx_encodes : nat;   (* messages encoded so far *)
  wx_bytesTX : Z;
  wx_messagesTX : Z;
  wx_bytesRX : Z;
  wx_messagesRX : Z;
  wx_decodeErrors : Z;
  wx_backpressure : Z;
  wx_delivered : list Message;   (* history: messages given to the handler *)
}.
Definition wset_path (x : sendPath wsFrame) (s : wsSession) : wsSession :=
  WsSession
    x (wx_life s) (wx_enc s) (wx_drained s) (wx_ctx s) (wx_pending s) (wx_pendingErr s) (wx_watch s)
    (wx_writes s) (wx_encodes s) (wx_bytesTX s) (wx_messagesTX s) (wx_bytesRX s) (wx_messagesRX s)
    (wx_decodeErrors s) (wx_backpressure s) (wx_delivered s).
Definition wset_life (x : lifeState) (s : wsSession) : wsSession :=
  WsSession
    (wx_path s) x (wx_enc s) (wx_drained s) (wx_ctx s) (wx_pending s) (wx_pendingErr s) (wx_watch s)
    (wx_writes s) (wx_encodes s) (wx_bytesTX s) (wx_messagesTX s) (wx_bytesRX s) (wx_messagesRX s)
    (wx_decodeErrors s) (wx_backpressure s) (wx_delivered s).
Definition wset_enc (x : bool) (s : wsSession) : wsSession :=
  WsSession
    (wx_path s) (wx_life s) x (wx_drained s) (wx_ctx s) (wx_pending s) (wx_pendingErr s) (wx_watch s)
    (wx_writes s) (wx_encodes s) (wx_bytesTX s) (wx_messagesTX s) (wx_bytesRX s) (wx_messagesRX s)
    (wx_decodeErrors s) (wx_backpressure s) (wx_delivered s).
Definition wset_drained (x : bool) (s : wsSession) : wsSession :=
  WsSession
    (wx_path s) (wx_life s) (wx_enc s) x (wx_ctx s) (wx_pending s) (wx_pendingErr s) (wx_watch s)
    (wx_writes s) (wx_encodes s) (wx_bytesTX s) (wx_messagesTX s) (wx_bytesRX s) (wx_messagesRX s)
    (wx_decodeErrors s) (wx_backpressure s) (wx_delivered s).
Definition wset_ctx (x : bool) (s : wsSession) : wsSession :=
  WsSession
    (wx_path s) (wx_life s) (wx_enc s) (wx_drained s) x (wx_pending s) (wx_pendingErr s) (wx_watch s)
    (wx_writes s) (wx_encodes s) (wx_bytesTX s) (wx_messagesTX s) (wx_bytesRX s) (wx_messagesRX s)
    (wx_decodeErrors s) (wx_backpressure s) (wx_delivered s).
Definition wset_pending (x : bool) (s : wsSession) : wsSession :=
  WsSession
    (wx_path s) (wx_life s) (wx_enc s) (wx_drained s) (wx_ctx s) x (wx_pendingErr s) (wx_watch s)
    (wx_writes s) (wx_encodes s) (wx_bytesTX s) (wx_messagesTX s) (wx_bytesRX s) (wx_messagesRX s)
    (wx_decodeErrors s) (wx_backpressure s) (wx_delivered s).
Definition wset_pendingErr (x : option error) (s : wsSession) : wsSession :=
  WsSession
    (wx_path s) (wx_life s) (wx_enc s) (wx_drained s) (wx_ctx s) (wx_pending s) x (wx_watch s)
    (wx_writes s) (wx_encodes s) (wx_bytesTX s) (wx_messagesTX s) (wx_bytesRX s) (wx_messagesRX s)
    (wx_decodeErrors s) (wx_backpressure s) (wx_delivered s).
Definition wset_watch (x : bool) (s : wsSession) : wsSession :=
  WsSession
    (wx_path s) (wx_life s) (wx_enc s) (wx_drained s) (wx_ctx s) (wx_pending s) (wx_pendingErr s) x
    (wx_writes s) (wx_encodes s) (wx_bytesTX s) (wx_messagesTX s) (wx_bytesRX s) (wx_messagesRX s)
    (wx_decodeErrors s) (wx_backpressure s) (wx_delivered s).
Definition wset_writes (x : nat) (s : wsSession) : wsSession :=
  WsSession
    (wx_path s) (wx_life s) (wx_enc s) (wx_drained s) (wx_ctx s) (wx_pending s) (wx_pendingErr s)
    (wx_watch s) x (wx_encodes s) (wx_bytesTX s) (wx_messagesTX s) (wx_bytesRX s) (wx_messagesRX s)
    (wx_decodeErrors s) (wx_backpressure s) (wx_delivered s).
Definition wset_encodes (x : nat) (s : wsSession) : wsSession :=
  WsSession
    (wx_path s) (wx_life s) (wx_enc s) (wx_drained s) (wx_ctx s) (wx_pending s) (wx_pendingErr s)
    (wx_watch s) (wx_writes s) x (wx_bytesTX s) (wx_messagesTX s) (wx_bytesRX s) (wx_messagesRX s)
    (wx_decodeErrors s) (wx_backpressure s) (wx_delivered s).
Definition wset_bytesTX (x : Z) (s : wsSession) : wsSession :=
  WsSession
    (wx_path s) (wx_life s) (wx_enc s) (wx_drained s) (wx_ctx s) (wx_pending s) (wx_pendingErr s)
    (wx_watch s) (wx_writes s) (wx_encodes s) x (wx_messagesTX s) (wx_bytesRX s) (wx_messagesRX s)
    (wx_decodeErrors s) (wx_backpressure s) (wx_delivered s).
Definition wset_messagesTX (x : Z) (s : wsSession) : wsSession :=
  WsSession
    (wx_path s) (wx_life s) (wx_enc s) (wx_drained s) (wx_ctx s) (wx_pending s) (wx_pendingErr s)
    (wx_watch s) (wx_writes s) (wx_encodes s) (wx_bytesTX s) x (wx_bytesRX s) (wx_messagesRX s)
    (wx_decodeErrors s) (wx_backpressure s) (wx_delivered s).
Definition wset_bytesRX (x : Z) (s : wsSession) : wsSession :=
  WsSession
    (wx_path s) (wx_life s) (wx_enc s) (wx_drained s) (wx_ctx s) (wx_pending s) (wx_pendingErr s)
    (wx_watch s) (wx_writes s) (wx_encodes s) (wx_bytesTX s) (wx_messagesTX s) x (wx_messagesRX s)
    (wx_decodeErrors s) (wx_backpressure s) (wx_delivered s).
Definition wset_messagesRX (x : Z) (s : wsSession) : wsSession :=
  WsSession
    (wx_path s) (wx_life s) (wx_enc s) (wx_drained s) (wx_ctx s) (wx_pending s) (wx_pendingErr s)
    (wx_watch s) (wx_writes s) (wx_encodes s) (wx_bytesTX s) (wx_messagesTX s) (wx_bytesRX s) x
    (wx_decodeErrors s) (wx_backpressure s) (wx_delivered s).
Definition wset_decodeErrors (x : Z) (s : wsSession) : wsSession :=
  WsSession
    (wx_path s) (wx_life s) (wx_enc s) (wx_drained s) (wx_ctx s) (wx_pending s) (wx_pendingErr s)
    (wx_watch s) (wx_writes s) (wx_encodes s) (wx_bytesTX s) (wx_messagesTX s) (wx_bytesRX s)
    (wx_messagesRX s) x (wx_backpressure s) (wx_delivered s).
Definition wset_backpressure (x : Z) (s : wsSession) : wsSession :=
  WsSession
    (wx_path s) (wx_life s) (wx_enc s) (wx_drained s) (wx_ctx s) (wx_pending s) (wx_pendingErr s)
    (wx_watch s) (wx_writes s) (wx_encodes s) (wx_bytesTX s) (wx_messagesTX s) (wx_bytesRX s)
    (wx_messagesRX s) (wx_decodeErrors s) x (wx_delivered s).
Definition wset_delivered (x : list Message) (s : wsSession) : wsSession :=
  WsSession
    (wx_path s) (wx_life s) (wx_enc s) (wx_drained s) (wx_ctx s) (wx_pending s) (wx_pendingErr s)
    (wx_watch s) (wx_writes s) (wx_encodes s) (wx_bytesTX s) (wx_messagesTX s) (wx_bytesRX s)
    (wx_messagesRX s) (wx_decodeErrors s) (wx_backpressure s) x.

Definition path_of : lens wsSession (sendPath wsFrame) := {| lget := wx_path; lset := wset_path |}.
Definition wlife_of : lens wsSession lifeState := {| lget := wx_life; lset := wset_life |}.
Definition on_out {A} (p : prog (sendPath wsFrame) A) : prog wsSession A := lift path_of p.
Definition on_life {A} (p : prog lifeState A) : prog wsSession A := lift wlife_of p.

Definition new_ws (writeQueue maxQueuedBytes maxTotal n : Z) : wsSession :=
  WsSession (new_path writeQueue maxQueuedBytes maxTotal n) init_state false false false false None false
    0 0 0 0 0 0 0 0 [].

Record wsEnv := {
  we_codec : wsCodec;   (* protocol, cipher and maxMessage *)
  we_local : option net_addr; we_remote : option net_addr;
  we_readIdle : bool;   (* [readIdle > 0] *)
}.
(** What one [ws.Write] answers, and whether its context had run out then. *)
Record ws_io := { wi_write : option error; wi_expired : bool }.

Section websocket.
Context `{WebSocketLib} (pf : platform) (env : wsEnv).
Context (cause_of : nat -> error) (rnd : nat -> bytes) (io : nat -> ws_io) (ws_close : option error) (qfuel : nat).

(** ** Errors *)
Definition operationalError (op : Op) (cause : error) (hint : classifyHint) : option error :=
  classifyOperational pf op (wc_protocol (we_codec env)) (we_local env) (we_remote env) (Some cause) hint.
Definition Err : prog wsSession (option error) := atomically (fun s => (s, ls_err (wx_life s))).
Definition ctx_cause (k : nat) (s : wsSession) : option error :=
  match path_ctx k (wx_path s) with Some _ => Some (cause_of k) | None => None end.
Definition cause_or (k : nat) (q : prog wsSession (option error)) : prog wsSession (option error) :=
  c ← atomically (fun s => (s, ctx_cause k s));
  match c with Some c => mret (Some c) | None => q end.
Definition sendError (k : nat) (err : error) : prog wsSession (option error) :=
  cause_or k (mret (operationalError OpSend err hintNone)).
Definition trySendError (err : error) : prog wsSession (option error) :=
  (if errors_Is err ErrWouldBlock
   then atomically (fun s => (wset_backpressure (inc_u64 (wx_backpressure s)) s, tt)) else mret tt) ≫= fun _ =>
  mret (operationalError OpSend err hintNone).
Definition terminal_or_closed : prog wsSession (option error) :=
  t ← Err;
  mret (match t with Some t => Some t | None => operationalError OpSend ErrClosed hintNone end).

(** ** Closing *)
Definition isClosing : prog wsSession bool := atomically (fun s => (s, path_closing (wx_path s))).
Definition publish (reason : abortReason) (cause : option error) (l : lifeState) : lifeState :=
  match reason, cause with
  | abortFailure, Some e => publish_err (Some e) l
  | _, _ => l
  end.
(** Entering [closeOnce]; the winner of an abort is recorded. *)
Definition enter_once (aborting : bool) (s : wsSession) : wsSession * bool :=
  let life := wx_life s in
  (wset_life (if aborting then {| ls_life := ls_life life; ls_err := ls_err life; ls_log := true :: ls_log life |}
              else life)
     (wset_path (put_once true (wx_path s)) s), negb (sp_once (wx_path s))).
Definition closeOnce (aborting : bool) : prog wsSession unit :=
  first ← atomically (enter_once aborting);
  if first : bool then
    on_out path_close_gate ≫= fun _ => on_out path_close_chan ≫= fun _ => on_out path_close_socket
  else on_out path_once_wait.
Definition abort (reason : abortReason) (cause : option error) : prog wsSession bool :=
  won ← on_life (abortWith life_lens reason (publish reason cause));
  if negb won then mret false else closeOnce true ≫= fun _ => mret true.
Definition initiateClose (cause : option error) : prog wsSession unit :=
  abort abortFailure cause ≫= fun _ => mret tt.
Definition Close : prog wsSession (option error) :=
  d ← atomically (fun s => (s, sp_done (wx_path s)));
  if d : bool then mret None else abort abortExplicit None ≫= fun _ => mret None.

Definition finishLocalGraceful (err : option error) : prog wsSession unit :=
  match normalizeWSError err with
  | Some n => initiateClose (operationalError OpClose n hintNone)
  | None =>
      on_life (markReadClosed life_lens) ≫= fun _ => on_life (markWriteClosed life_lens) ≫= fun _ =>
      on_life (tryMarkTerminal life_lens) ≫= fun _ => closeOnce false
  end.
Definition markWriterDrained : prog wsSession unit := atomically (fun s => (wset_drained true s, tt)).

(** ** Shutting down *)
Definition requestShutdown : prog wsSession bool :=
  r ← on_life (requestWithPrevious life_lens closeGoalFull);
  (if r.1 : bool then
     on_out path_close_gate ≫= fun _ => atomically (fun s => (wset_watch true s, tt))
   else mret tt) ≫= fun _ => mret r.1.
Definition lifecycleResult : prog wsSession (option error) :=
  e ← Err;
  match e with
  | Some e => mret (Some e)
  | None =>
      why ← atomically (fun s => (s, reason life_lens (wx_life s)));
      mret (match why with abortNone => None | _ => Some (Sentinel ErrClosed) end)
  end.
Definition signal_seen (ch : signal) (s : wsSession) : bool := closed ch (ls_life (wx_life s)).
Inductive shutdown_wait := ShutOver | ShutCtx.
Definition shutdown_with (k : nat) : prog wsSession (option error) :=
  owner ← requestShutdown;
  w ← select (fun s => ready (sp_done (wx_path s)) s ShutOver ++ ready (signal_seen AbortCh s) s ShutOver
                       ++ ready (path_ctx_done k (wx_path s)) s ShutCtx);
  match w with
  | ShutOver => lifecycleResult
  | ShutCtx =>
      (if owner : bool then abort abortCaller None ≫= fun _ => mret tt else mret tt) ≫= fun _ =>
      mret (Some (cause_of k))
  end.
Definition Shutdown (ctx : option nat) : prog wsSession (option error) :=
  match ctx with
  | None => mret (Some (Sentinel ErrNilContext))
  | Some k => cause_or k (shutdown_with k)
  end.

(** [watchCloseTimeout], after its start. *)
Definition watchCloseTimeout (fires : bool) : prog wsSession unit :=
  drained ← select (fun s => ready (wx_drained s) s true ++ ready (signal_seen AbortCh s) s false
                             ++ ready (sp_done (wx_path s)) s false);
  if drained : bool then
    fired ← select (fun s => ready fires s true ++ ready (signal_seen AbortCh s) s false
                             ++ ready (sp_done (wx_path s)) s false);
    if fired : bool then
      abort abortFailure
        (operationalError OpClose (TimeoutError TimeoutClose (Some (Sentinel ContextDeadlineExceeded))) hintNone)
      ≫= fun _ => mret tt
    else mret tt
  else mret tt.
Definition watch_started (fires : bool) : prog wsSession unit :=
  select (fun s => ready (wx_watch s) s tt) ≫= fun _ => watchCloseTimeout fires.

(** ** Sending *)
Definition acquireEncoder (k : nat) : prog wsSession (option error) :=
  select (fun s => ready (path_ctx_done k (wx_path s)) s (path_ctx k (wx_path s))
                   ++ ready (path_closing (wx_path s)) s (Some (Sentinel ErrClosed))
                   ++ ready (negb (wx_enc s)) (wset_enc true s) None).
Definition tryAcquireEncoder : prog wsSession (option error) :=
  select (or_default (Some (Sentinel ErrWouldBlock)) (fun s =>
    ready (path_closing (wx_path s)) s (Some (Sentinel ErrClosed))
    ++ ready (negb (wx_enc s)) (wset_enc true s) None)).
Definition releaseEncoder : prog wsSession unit :=
  select (fun s => ready (wx_enc s) (wset_enc false s) tt).
(** [encode] under the encoder. *)
Definition encode_next (m : Message) : prog wsSession (result (MessageType * bytes)) :=
  r ← atomically (fun s => (wset_encodes (S (wx_encodes s)) s, ws_encode (we_codec env) (rnd (wx_encodes s)) m));
  releaseEncoder ≫= fun _ => mret r.
Definition frame (typ : MessageType) (payload : bytes) (m : Message) : wsFrame :=
  {| wf_typ := typ; wf_payload := payload; wf_payloadBytes := zlen (msg_Data m) |}.

Definition give_slot (r : option error) : prog wsSession (option error) :=
  on_out releaseSlot ≫= fun _ => mret r.
Definition unreserve (n : Z) : prog wsSession unit :=
  on_out (path_release n) ≫= fun _ => on_out releaseSlot.
Definition send_inside (k : nat) (m : Message) : prog wsSession (option error) :=
  match Validate m with
  | Some e => mret (Some e)
  | None =>
      e ← on_out (acquireSlot k);
      match e with
      | Some e => sendError k e
      | None =>
          e ← acquireEncoder k;
          match e with
          | Some e => r ← sendError k e; give_slot r
          | None =>
              enc ← encode_next m;
              match enc with
              | inr e => r ← sendError k e; give_slot r
              | inl (typ, payload) =>
                  e ← on_out (path_acquire qfuel k (zlen payload));
                  match e with
                  | Some e => r ← sendError k e; give_slot r
                  | None =>
                      a ← on_out (path_offer k (frame typ payload m) (zlen payload));
                      match a with
                      | OfferCtx => unreserve (zlen payload) ≫= fun _ => mret (Some (cause_of k))
                      | Offered id =>
                          w ← on_out (path_await k id);
                          match w with
                          | AnswerIs r => mret r
                          | AnswerCtx => mret (Some (cause_of k))
                          | AnswerClosing => cause_or k terminal_or_closed
                          end
                      | _ => unreserve (zlen payload) ≫= fun _ => cause_or k terminal_or_closed
                      end
                  end
              end
          end
      end
  end.
Definition trySend_inside (m : Message) : prog wsSession (option error) :=
  match Validate m with
  | Some e => mret (Some e)
  | None =>
      e ← on_out tryAcquireSlot;
      match e with
      | Some e => trySendError e
      | None =>
          e ← tryAcquireEncoder;
          match e with
          | Some e => r ← trySendError e; give_slot r
          | None =>
              enc ← encode_next m;
              match enc with
              | inr e => give_slot (operationalError OpSend e hintNone)
              | inl (typ, payload) =>
                  e ← on_out (path_tryAcquire (zlen payload));
                  match e with
                  | Some e => r ← trySendError e; give_slot r
                  | None =>
                      a ← on_out (path_tryOffer (frame typ payload m) (zlen payload));
                      match a with
                      | Offered _ => mret None
                      | OfferClosing => unreserve (zlen payload) ≫= fun _ => terminal_or_closed
                      | _ => unreserve (zlen payload) ≫= fun _ => trySendError ErrWouldBlock
                      end
                  end
              end
          end
      end
  end.
Definition through_gate (q : prog wsSession (option error)) : prog wsSession (option error) :=
  ok ← on_out (lift gate_in enter);
  if negb ok then mret (operationalError OpSend ErrClosed hintNone)
  else r ← q; on_out (lift gate_in leave) ≫= fun _ => mret r.
Definition Send (ctx : option nat) (m : Message) : prog wsSession (option error) :=
  match ctx with
  | None => mret (Some (Sentinel ErrNilContext))
  | Some k => cause_or k (through_gate (send_inside k m))
  end.
Definition TrySend (m : Message) : prog wsSession (option error) := through_gate (trySend_inside m).

(** ** The write in flight *)
Definition ws_begin : prog wsSession unit :=
  atomically (fun s => (wset_pendingErr None (wset_pending false (wset_ctx true s)), tt)).
Definition pendingRead : prog wsSession (option error * bool) :=
  atomically (fun s => (s, (wx_pendingErr s, wx_pending s))).
Definition ws_end : prog wsSession (option error * bool) :=
  atomically (fun s => (wset_pendingErr None (wset_pending false (wset_ctx false s)),
                        (wx_pendingErr s, wx_pending s))).
Definition deferRead (err : error) : prog wsSession bool :=
  atomically (fun s =>
    if negb (wx_ctx s) then (s, false)
    else if wx_pending s then (s, true)
    else (wset_pendingErr (Some err) (wset_pending true s), true)).
(** [expired] stands for the deadline of the context, if there is one. *)
Definition timeoutCause (expired : bool) : prog wsSession (option error) :=
  atomically (fun s => (s, if wx_ctx s && expired then Some (Sentinel ContextDeadlineExceeded) else None)).

Definition writeTimeoutOrClosed : prog wsSession error :=
  e ← Err;
  mret (match e with
        | Some e => match errors_As is_TimeoutError e with
                    | Some (TimeoutError TimeoutWrite _) => e
                    | _ => Sentinel ErrClosed
                    end
        | None => Sentinel ErrClosed
        end).

(** ** The writer *)
Definition write_next (d : wsFrame) : prog wsSession (option error * bool) :=
  atomically (fun s =>
    let i := io (wx_writes s) in
    let path := wx_path s in
    (wset_writes (S (wx_writes s))
       (wset_path (match wi_write i with None => put_written (sp_written path ++ [d]) path | Some _ => path end) s),
     (wi_write i, wi_expired i))).
Definition count_sent (d : wsFrame) : prog wsSession unit :=
  atomically (fun s => (wset_messagesTX (inc_u64 (wx_messagesTX s))
                          (wset_bytesTX (add_u64 (wx_bytesTX s) (wf_payloadBytes d)) s), tt)).
(** The cause a deferred read failure stands for. *)
Definition read_cause (pendingErr : option error) : option error :=
  match normalizeWSError pendingErr with Some n => operationalError OpRead n hintNone | None => None end.
Definition write_cause (e : error) (timedOut : option error) (pendingErr : option error) (pending : bool) : option error :=
  if (match timedOut with Some _ => true | None => false end) || isTimeoutFailure (Some e)
  then operationalError OpWrite (TimeoutError TimeoutWrite (Some e)) hintNone
  else if pending then read_cause pendingErr
  else operationalError OpWrite (Errorf "transport: websocket write" e) hintNone.
Definition handleOutbound (req : request wsFrame) : prog wsSession bool :=
  ws_begin ≫= fun _ =>
  w ← write_next (rq_item req);
  tc ← timeoutCause w.2;
  match w.1 with
  | None =>
      p ← ws_end;
      on_out (path_release (rq_bytes req)) ≫= fun _ => on_out releaseSlot ≫= fun _ =>
      count_sent (rq_item req) ≫= fun _ => on_out (path_answer req None) ≫= fun _ =>
      if p.2 : bool then initiateClose (read_cause p.1) ≫= fun _ => mret false else mret true
  | Some e =>
      p ← pendingRead;
      on_out (path_release (rq_bytes req)) ≫= fun _ => on_out releaseSlot ≫= fun _ =>
      let opErr := write_cause e tc p.1 p.2 in
      won ← abort abortFailure opErr;
      ws_end ≫= fun _ =>
      sendErr ← match opErr, won with
                | Some oe, true => mret (Some oe)
                | _, _ => t ← Err; mret (match t with Some t => Some t | None => Some (Sentinel ErrClosed) end)
                end;
      on_out (path_answer req sendErr) ≫= fun _ => mret false
  end.

(** [failPending(ErrClosed)]: one error for up to [fuel] requests that are left. *)
Fixpoint fail_rest (pendingErr : option error) (fuel : nat) : prog wsSession unit :=
  match fuel with
  | O => stuck
  | S fuel =>
      r ← on_out path_next;
      match r with
      | None => mret tt
      | Some req =>
          on_out (path_release (rq_bytes req)) ≫= fun _ => on_out releaseSlot ≫= fun _ =>
          on_out (path_answer req pendingErr) ≫= fun _ => fail_rest pendingErr fuel
      end
  end.
Definition failPending (fuel : nat) : prog wsSession unit := e ← terminal_or_closed; fail_rest e fuel.

(** The inner loop after the gate is drained. *)
Fixpoint writer_drain (fuel : nat) : prog wsSession unit :=
  match fuel with
  | O => stuck
  | S fuel =>
      r ← on_out path_next;
      match r with
      | Some req => ok ← handleOutbound req; if ok : bool then writer_drain fuel else mret tt
      | None => markWriterDrained ≫= fun _ => finishLocalGraceful ws_close
      end
  end.
Inductive writer_event := WriterClosing | WriterRequest (req : request wsFrame) | WriterSignal.
Definition next_request (s : wsSession) : list (wsSession * writer_event) :=
  (fun r : sendPath wsFrame * writer_event => (wset_path r.1 s, r.2)) <$> path_dequeue WriterRequest (wx_path s).
Fixpoint writer_graceful (n fuel : nat) : prog wsSession unit :=
  match fuel with
  | O => stuck
  | S fuel =>
      e ← select (fun s => ready (path_closing (wx_path s)) s WriterClosing ++ next_request s
                           ++ ready (gate_done (sp_gate (wx_path s))) s WriterSignal);
      match e with
      | WriterClosing => mret tt
      | WriterRequest req => ok ← handleOutbound req; if ok : bool then writer_graceful n fuel else mret tt
      | WriterSignal => writer_drain n
      end
  end.
Fixpoint writer_main (n fuel : nat) : prog wsSession unit :=
  match fuel with
  | O => stuck
  | S fuel =>
      e ← select (fun s => ready (path_closing (wx_path s)) s WriterClosing ++ ready (signal_seen FullReq s) s WriterSignal
                           ++ next_request s);
      match e with
      | WriterClosing => mret tt
      | WriterSignal => writer_graceful n n
      | WriterRequest req => ok ← handleOutbound req; if ok : bool then writer_main n fuel else mret tt
      end
  end.
(** Each phase of the loop may handle fewer than [n] requests. *)
Definition writerLoop (n : nat) : prog wsSession unit :=
  writer_main n n ≫= fun _ => on_out (lift gate_in await_done) ≫= fun _ => failPending n ≫= fun _ =>
  markWriterDrained.

(** ** The reader *)
Inductive read_event := ReadMsg (typ : MessageType) (payload : bytes) | ReadFail (err : error) (expired : bool).
(** Reading [fullRequested], [aborted] and [writerDrained], left to right. *)
Definition handshake_over (err : error) : prog wsSession bool :=
  full ← atomically (fun s => (s, signal_seen FullReq s));
  if negb full then mret false
  else
    ab ← atomically (fun s => (s, signal_seen AbortCh s));
    if ab : bool then mret false
    else if isNormalWSClose (Some err) then mret true
    else atomically (fun s => (s, wx_drained s)).
(** A failure that is neither part of the close handshake nor an idle reader: the write in
    flight may have caused it, and then the writer decides. *)
Definition read_broken (err : error) (expired : bool) : prog wsSession unit :=
  tc ← timeoutCause expired;
  match tc with
  | Some c => initiateClose (operationalError OpWrite (TimeoutError TimeoutWrite (Some c)) hintNone)
  | None =>
      d ← deferRead err;
      if d : bool then mret tt
      else
        initiateClose (match normalizeWSError (Some err) with
                       | Some n => operationalError OpRead n hintNone
                       | None => None
                       end)
  end.
Definition read_idle (err : error) : prog wsSession bool :=
  if we_readIdle env && isTimeoutFailure (Some err) then c ← isClosing; mret (negb c) else mret false.
Definition read_failed (err : error) (expired : bool) : prog wsSession unit :=
  over ← handshake_over err;
  if over : bool then on_life (markReadClosed life_lens)
  else
    idle ← read_idle err;
    if idle : bool then
      initiateClose (operationalError OpRead (TimeoutError TimeoutReadIdle (Some err)) hintNone)
    else read_broken err expired.
Definition count_received (m : Message) : prog wsSession unit :=
  atomically (fun s => (wset_delivered (wx_delivered s ++ [m])
    (wset_messagesRX (inc_u64 (wx_messagesRX s)) (wset_bytesRX (add_u64 (wx_bytesRX s) (zlen (msg_Data m))) s)), tt)).
(** After the events, the read waits for the close of the connection and fails. *)
Fixpoint reader_rounds (evs : list read_event) (last : error * bool) : prog wsSession unit :=
  match evs with
  | [] => on_out path_await_closing ≫= fun _ => read_failed last.1 last.2
  | ReadFail err expired :: _ => read_failed err expired
  | ReadMsg typ payload :: evs =>
      match ws_decode (we_codec env) typ payload with
      | inr e =>
          atomically (fun s => (wset_decodeErrors (inc_u64 (wx_decodeErrors s)) s, tt)) ≫= fun _ =>
          initiateClose (operationalError OpRead e hintMessageDecode)
      | inl m =>
          count_received m ≫= fun _ =>
          c ← isClosing;
          if c : bool then mret tt else reader_rounds evs last
      end
  end.
Definition readerLoop (evs : list read_event) (last : error * bool) : prog wsSession unit :=
  c ← isClosing;
  if c : bool then mret tt else reader_rounds evs last.

(** ** The other goroutines *)
(** A ping per tick, with its result. *)
Fixpoint pingLoop (pings : list (option error)) : prog wsSession unit :=
  tick ← select (fun s => ready (path_closing (wx_path s)) s false ++ ready (signal_seen FullReq s) s false
                          ++ ready (match pings with [] => false | _ => true end) s true);
  match pings with
  | [] => mret tt
  | r :: rest =>
      if negb tick then mret tt
      else
        match r with
        | Some e => initiateClose (operationalError OpWrite (Errorf "transport: websocket ping" e) hintNone)
        | None => pingLoop rest
        end
  end.
(** The activity clock: a policy expires, or the session closes. *)
Definition watcher_tail (kind : option TimeoutKind) : prog wsSession unit :=
  match kind with
  | Some k => initiateClose (operationalError OpRead (TimeoutError k None) hintNone)
  | None => on_out path_await_closing
  end.
Definition finalizer : prog wsSession unit :=
  on_out path_loops_wait ≫= fun _ =>
  c ← isClosing;
  (if c : bool then mret tt else initiateClose None) ≫= fun _ => on_out path_close_done.

(** ** Goroutines sharing one session *)
Inductive ws_op :=
  | WSend (ctx : option nat) (m : Message) | WTrySend (m : Message)
  | WShutdown (ctx : option nat) | WClose | WCancel (k : nat) (e : error).
Definition ws_op_prog (o : ws_op) : prog wsSession unit :=
  match o with
  | WSend ctx m => Send ctx m ≫= fun _ => mret tt
  | WTrySend m => TrySend m ≫= fun _ => mret tt
  | WShutdown ctx => Shutdown ctx ≫= fun _ => mret tt
  | WClose => Close ≫= fun _ => mret tt
  | WCancel k e => on_out (path_cancel k e)
  end.
Fixpoint ws_client (ops : list ws_op) : prog wsSession unit :=
  match ops with
  | [] => mret tt
  | o :: ops => ws_op_prog o ≫= fun _ => ws_client ops
  end.

Definition loop (p : prog wsSession unit) : prog wsSession unit := p ≫= fun _ => on_out path_loop_done.
(** What the session meets besides its callers. *)
Record ws_world := {
  ww_reads : list read_event; ww_last : error * bool;   (* of [ws.Read] *)
  ww_pings : option (list (option error));   (* with [pingEvery > 0] *)
  ww_watcher : option (option TimeoutKind);   (* with an activity clock *)
  ww_fires : bool }.
Definition ws_loops (w : ws_world) : nat :=
  (2 + (if ww_pings w then 1 else 0) + (if ww_watcher w then 1 else 0))%nat.
(** The goroutines of [start] and the watcher of the close timeout, then the callers. *)
Definition ws_goroutines (n : nat) (w : ws_world) : list (prog wsSession unit) :=
  watch_started (ww_fires w) :: loop (writerLoop n) :: loop (readerLoop (ww_reads w) (ww_last w)) :: finalizer ::
  match ww_pings w with Some ps => [loop (pingLoop ps)] | None => [] end ++
  match ww_watcher w with Some k => [loop (watcher_tail k)] | None => [] end.
Definition ws_pool (writeQueue maxQueuedBytes maxTotal : Z) (n : nat) (w : ws_world) (opss : list (list ws_op))
    : pool wsSession :=
  (new_ws writeQueue maxQueuedBytes maxTotal (Z.of_nat (ws_loops w)), ws_goroutines n w ++ (ws_client <$> opss)).
End websocket.
