(* ===== verification/WebsocketInv.v ===== *)
(** * WebsocketInv: the invariant of a shared WebSocket session

    The shares the goroutines of Websocket.v own, the invariant that ties them to the
    state, and the programs that change the lifecycle: aborting, closing, requesting a
    shutdown. *)
From S2P Require Import Prelude Conc Kinds Errors Classify Message Gate Lifecycle Quota SendPath SendPathInv SendPathWriter.
From S2P Require Import Encoding Secure Endpoint NetAddr WsCodec Websocket.
Local Open Scope go_scope.
Local Open Scope Z_scope.

Record wshare := WShare {
  wh_p : pshare wsFrame;   (* the way out *)
  wh_l : gmultiset Lifecycle.tok;   (* debts and knowledge of Lifecycle.v *)
  wh_enc : nat;   (* the encoder *)
  wh_full : nat;   (* a shutdown requested, the gate to be closed *)
  wh_term : nat;   (* the duty to enter [closeOnce] after the terminal mark *)
  wh_rdr : nat;   (* the reader, until its failure is taken over *)
  wh_w : excl bool;   (* the writer, until it leaves: whether a write is in flight *)
  wh_kf : nat;   (* witnesses that a shutdown or an abort was requested *)
  wh_ke : nat;   (* witnesses that the session has ended *)
}.
Definition wown_p (x : pshare wsFrame) (m : wshare) : wshare :=
  WShare
    x (wh_l m) (wh_enc m) (wh_full m) (wh_term m) (wh_rdr m) (wh_w m) (wh_kf m) (wh_ke m).
Definition wown_l (x : gmultiset Lifecycle.tok) (m : wshare) : wshare :=
  WShare
    (wh_p m) x (wh_enc m) (wh_full m) (wh_term m) (wh_rdr m) (wh_w m) (wh_kf m) (wh_ke m).
Definition wown_enc (x : nat) (m : wshare) : wshare :=
  WShare
    (wh_p m) (wh_l m) x (wh_full m) (wh_term m) (wh_rdr m) (wh_w m) (wh_kf m) (wh_ke m).
Definition wown_full (x : nat) (m : wshare) : wshare :=
  WShare
    (wh_p m) (wh_l m) (wh_enc m) x (wh_term m) (wh_rdr m) (wh_w m) (wh_kf m) (wh_ke m).
Definition wown_term (x : nat) (m : wshare) : wshare :=
  WShare
    (wh_p m) (wh_l m) (wh_enc m) (wh_full m) x (wh_rdr m) (wh_w m) (wh_kf m) (wh_ke m).
Definition wown_rdr (x : nat) (m : wshare) : wshare :=
  WShare
    (wh_p m) (wh_l m) (wh_enc m) (wh_full m) (wh_term m) x (wh_w m) (wh_kf m) (wh_ke m).
Definition wown_w (x : excl bool) (m : wshare) : wshare :=
  WShare
    (wh_p m) (wh_l m) (wh_enc m) (wh_full m) (wh_term m) (wh_rdr m) x (wh_kf m) (wh_ke m).
Definition wown_kf (x : nat) (m : wshare) : wshare :=
  WShare
    (wh_p m) (wh_l m) (wh_enc m) (wh_full m) (wh_term m) (wh_rdr m) (wh_w m) x (wh_ke m).
Definition wown_ke (x : nat) (m : wshare) : wshare :=
  WShare
    (wh_p m) (wh_l m) (wh_enc m) (wh_full m) (wh_term m) (wh_rdr m) (wh_w m) (wh_kf m) x.
#[global] Program Instance ghost_wshare : Ghost wshare := {|
  gop := fun a b => WShare
    (wh_p a ∙ wh_p b) (wh_l a ∙ wh_l b) (wh_enc a ∙ wh_enc b) (wh_full a ∙ wh_full b) (wh_term a ∙
    wh_term b) (wh_rdr a ∙ wh_rdr b) (wh_w a ∙ wh_w b) (wh_kf a ∙ wh_kf b) (wh_ke a ∙ wh_ke b);
  gnil := WShare gnil gnil gnil gnil gnil gnil gnil gnil gnil |}.
Next Obligation. intros a b c. cbn [wh_p wh_l wh_enc wh_full wh_term wh_rdr wh_w wh_kf wh_ke]. f_equal; apply gop_assoc. Qed.
Next Obligation. intros a b. cbv beta. f_equal; apply gop_comm. Qed.
Next Obligation. intros []. cbn [wh_p wh_l wh_enc wh_full wh_term wh_rdr wh_w wh_kf wh_ke]. f_equal; apply gop_nil. Qed.

(** ** Invariant *)
(** An abort has won, or the session is marked terminal. *)
Definition ended (l : sessionLifecycle) : Prop := l_goal l = closeGoalAbort \/ l_terminal l = true.
Definition asked (l : sessionLifecycle) : Prop := 2 <= goal_rank (l_goal l).

(** The writer leaves after its last write, when the session has ended. *)
Definition ws_writer (s : wsSession) (w : excl bool) : Prop :=
  match w with
  | Nobody => wx_ctx s = false /\ ended (ls_life (wx_life s))
  | Owner fl => wx_ctx s = fl
  | Conflict => False
  end.
Lemma ws_writer_mono s s' w :
  wx_ctx s' = wx_ctx s -> (ended (ls_life (wx_life s)) -> ended (ls_life (wx_life s'))) -> ws_writer s w -> ws_writer s' w.
Proof. intros Ec He. destruct w; cbn; rewrite ?Ec; naive_solver. Qed.

Section inv.
Context (lim : site -> Z) (bound total : nat) (wq : Z) (frame_ok : wsFrame -> Z -> Prop).
Hypothesis lim_ok : forall c, 0 <= lim c < 2 ^ 62.
Abbreviation pinv := (path_inv (strict:=false) lim bound total wq frame_ok).

Abbreviation life s := (ls_life (wx_life s)).
Record ws_inv (s : wsSession) (m : wshare) : Prop := {
  xi_path : pinv (wx_path s) (wh_p m);
  xi_life : life_inv (wx_life s) (wh_l m);
  xi_enc : Nat.b2n (wx_enc s) = wh_enc m;
  xi_log : true ∈ ls_log (wx_life s) -> sp_once (wx_path s) = true;
  xi_once : sp_once (wx_path s) = true -> ended (life s);
  xi_term : l_terminal (life s) = true -> asked (life s) /\
    (l_goal (life s) = closeGoalAbort \/ sp_once (wx_path s) = true \/ (0 < wh_term m)%nat);
  xi_full : l_goal (life s) = closeGoalFull -> g_closed (sp_gate (wx_path s)) = true \/ (0 < wh_full m)%nat;
  xi_w : ws_writer s (wh_w m);
  xi_pending : wx_pending s = true -> wx_ctx s = true;
  xi_rdr : (wh_rdr m + Nat.b2n (wx_pending s) <= 1)%nat /\
    ((wh_rdr m + Nat.b2n (wx_pending s) = 0)%nat -> asked (life s));
  xi_kf : (0 < wh_kf m)%nat -> asked (life s);
  xi_ke : (0 < wh_ke m)%nat -> ended (life s);
}.

Lemma ended_asked s m : ws_inv s m -> ended (life s) -> asked (life s).
Proof. intros HI [E|Ht%(xi_term _ _ HI)]; [unfold asked; rewrite E; cbn; lia|apply Ht]. Qed.
Lemma full_seen s m : ws_inv s m -> signal_seen FullReq s = true -> asked (life s).
Proof. intros HI Hs%bool_decide_eq_true. by apply (inv_sound _ _ (xi_life _ _ HI)) in Hs. Qed.
Lemma closing_ended s m : ws_inv s m -> path_closing (wx_path s) = true -> ended (life s).
Proof.
  intros HI Hc. apply (xi_once _ _ HI). pose proof (pi_once _ _ _ _ _ _ _ (xi_path _ _ HI)) as Ho. rewrite Hc in Ho.
  cbn in Ho. destruct (sp_once (wx_path s)); [done|cbn in Ho; lia].
Qed.

(** A goroutine that waits owes nothing. *)
Definition quiet_ws (m : wshare) : Prop :=
  settled (wh_l m) /\ wh_enc m = 0%nat /\ wh_full m = 0%nat /\ wh_term m = 0%nat.
(** It is not the writer. *)
Definition no_writer (m : wshare) : Prop := wh_w m = Nobody.

(** The goroutines of a session: the watcher of the close timeout, the writer, the reader,
    the other ones it starts, and its callers. *)
Inductive ws_role := RWatch | RWriter | RReader | ROwn | RCaller.
Definition own_role (r : ws_role) : bool := match r with RCaller => false | _ => true end.
(** Who waits: somebody on the way out; a second closer; a sender for the encoder; the writer for a request,
    a shutdown or the gate; the writer, once the session has ended, for the senders inside;
    a caller of [Shutdown]; the watcher of the close timeout. *)
Definition ws_blk (r : ws_role) (s : wsSession) (m : wshare) : Prop :=
  quiet_ws m /\
  ((no_writer m /\ (wh_rdr m = 0%nat \/ r = RReader) /\ path_blk (own_role r) (wx_path s) (wh_p m)) \/
   (settled_share (wh_p m) /\ at_rest (wh_p m) /\ sp_once (wx_path s) = true /\ sp_physical (wx_path s) = 0) \/
   (no_writer m /\ wh_rdr m = 0%nat /\ caller_share (wh_p m) /\ path_closing (wx_path s) = false /\ wx_enc s = true) \/
   (r = RWriter /\ wh_w m = Owner false /\ wh_rdr m = 0%nat /\ idle_writer (wx_path s) (wh_p m) /\
    (signal_seen FullReq s = false \/ g_drained (sp_gate (wx_path s)) = false)) \/
   (r = RWriter /\ wh_w m = Owner false /\ wh_rdr m = 0%nat /\ (0 < wh_ke m)%nat /\ settled_share (wh_p m) /\ at_rest (wh_p m) /\
    ps_w (wh_p m) <> Nobody /\ g_drained (sp_gate (wx_path s)) = false) \/
   (no_writer m /\ path_fin (wh_p m) /\ wh_rdr m = 0%nat /\
    ((0 < wh_kf m)%nat /\ sp_done (wx_path s) = false \/
     r = RWatch /\ (wx_watch s = false \/ sp_done (wx_path s) = false)))).
Definition ws_fin (m : wshare) : Prop :=
  quiet_ws m /\ path_fin (wh_p m) /\ wh_rdr m = 0%nat /\ no_writer m.

(** ** The way out *)
(** What only [closeOnce] changes, and that the gate stays closed. *)
Definition path_still (p p' : sendPath wsFrame) : Prop :=
  sp_once p' = sp_once p /\ (g_closed (sp_gate p) = true -> g_closed (sp_gate p') = true).

Lemma ws_path_get s (m F : wshare) : ws_inv s (m ∙ F) -> pinv (lget path_of s) (wh_p m ∙ (wh_p F ∙ gnil)).
Proof. intros HI. rewrite gop_nil_r. apply (xi_path _ _ HI). Qed.
Lemma ws_path_put s (m F : wshare) t mt :
  ws_inv s (m ∙ F) -> path_still (lget path_of s) t -> pinv t (mt ∙ (wh_p F ∙ gnil)) ->
  ws_inv (lset path_of t s) (wown_p mt m ∙ F).
Proof.
  intros [] [Ho Hg] Ht. rewrite gop_nil_r in Ht. cbn in Ho, Hg. split; cbn; rewrite ?Ho; try done.
  intros Hf. destruct (xi_full0 Hf); auto.
Qed.
Lemma wown_p_id m : wown_p (wh_p m) m = m.
Proof. by destruct m. Qed.
Lemma wp_out_blk {A} Blk BlkT (q : prog (sendPath wsFrame) A) m (Q : A -> wshare -> Prop) :
  respects path_still q -> (forall s mt, BlkT (wx_path s) mt -> Blk s (wown_p mt m)) ->
  wp pinv BlkT q (wh_p m) (fun a mt => Q a (wown_p mt m)) -> wp ws_inv Blk (on_out q) m Q.
Proof.
  apply (wp_lift path_of) with (R := path_still) (stored := fun _ => gnil).
  - done.
  - done.
  - apply wown_p_id.
  - apply ws_path_get.
  - apply ws_path_put.
Qed.
Lemma wp_out {A} r (q : prog (sendPath wsFrame) A) m (Q : A -> wshare -> Prop) :
  respects path_still q -> quiet_ws m -> no_writer m -> wh_rdr m = 0%nat \/ r = RReader ->
  wp pinv (path_blk (own_role r)) q (wh_p m) (fun a mt => Q a (wown_p mt m)) -> wp ws_inv (ws_blk r) (on_out q) m Q.
Proof. intros Hq Hm Ho Hr. apply wp_out_blk; [done|]. intros s mt Hb. split; [done|]. by left. Qed.

Lemma still_quiet p p' : sp_once p' = sp_once p -> sp_gate p' = sp_gate p -> path_still p p'.
Proof. intros Ho Hg. split; [done|]. by rewrite Hg. Qed.
End inv.

(** The programs of the way out do not enter [closeOnce]. *)
Ltac still :=
  first
    [ apply respects_ret
    | apply respects_select; intros s s' b Hin; cbv zeta in Hin;
      repeat match goal with
      | H : _ ∈ _ ++ _ |- _ => apply elem_of_app in H as [H|H]
      | H : _ ∈ ready _ _ _ |- _ => apply elem_ready in H as (_ & -> & _)
      | H : _ ∈ or_default _ _ _ |- _ => apply elem_default in H as [H|(_ & -> & _)]
      | H : _ ∈ answer_case _ _ |- _ => unfold answer_case in H
      | H : _ ∈ path_queue_case _ _ _ _ |- _ => unfold path_queue_case in H
      | H : _ ∈ path_dequeue _ _ |- _ => unfold path_dequeue in H
      | H : _ ∈ match ?x with _ => _ end |- _ => destruct x eqn:?
      | H : _ ∈ [] |- _ => by apply elem_of_nil in H
      | H : _ ∈ [_] |- _ => apply list_elem_of_singleton in H; simplify_eq/=
      end; by apply still_quiet
    | apply respects_atomically; intros s; by apply still_quiet
    | apply respects_atomic_panic; intros s s' b E; repeat case_match; simplify_eq; by apply still_quiet ].
Section still.
Abbreviation st := (respects path_still).
Lemma still_gate {A} (q : prog sendGate A) : respects gate_mono q -> st (lift gate_in q).
Proof. apply respects_lift_along. intros s t [Hc _]. by split. Qed.
Lemma still_quota {A} (q : prog quotaState A) : st (lift quota_in q).
Proof. apply respects_lift. intros s t. by apply still_quiet. Qed.
Lemma still_enter : st (lift gate_in enter). Proof. apply still_gate, enter_mono. Qed.
Lemma still_leave : st (lift gate_in leave). Proof. apply still_gate, leave_mono. Qed.
Lemma still_close_gate : st path_close_gate. Proof. apply still_gate, close_mono. Qed.
Lemma still_acquireSlot k : st (acquireSlot k). Proof. still. Qed.
Lemma still_tryAcquireSlot : st tryAcquireSlot. Proof. still. Qed.
Lemma still_releaseSlot : st releaseSlot. Proof. still. Qed.
Lemma still_offer k x n : st (path_offer k x n). Proof. still. Qed.
Lemma still_tryOffer x n : st (path_tryOffer x n). Proof. still. Qed.
Lemma still_await k id : st (path_await k id).
Proof. apply respects_bind; [still|]. intros []; still. Qed.
Lemma still_next : st path_next. Proof. still. Qed.
Lemma still_answer req r : st (path_answer req r). Proof. still. Qed.
Lemma still_close_chan : st path_close_chan. Proof. still. Qed.
Lemma still_close_socket : st path_close_socket. Proof. still. Qed.
Lemma still_once_wait : st path_once_wait. Proof. still. Qed.
Lemma still_loop_done : st path_loop_done. Proof. still. Qed.
Lemma still_loops_wait : st path_loops_wait. Proof. still. Qed.
Lemma still_close_done : st path_close_done. Proof. still. Qed.
Lemma still_await_closing : st path_await_closing. Proof. still. Qed.
Lemma still_cancel k e : st (path_cancel k e). Proof. still. Qed.
End still.
Create HintDb still.
#[export] Hint Resolve still_quota still_enter still_leave still_close_gate still_acquireSlot still_tryAcquireSlot
  still_releaseSlot still_offer still_tryOffer still_await still_next still_answer still_close_chan still_close_socket
  still_once_wait still_loop_done still_loops_wait still_close_done still_await_closing still_cancel : still.

(** ** Lifecycle and closing *)
(** The signals are closed one by one; the rest of the lifecycle is as it was. *)
Definition life_frozen (l l' : lifeState) : Prop :=
  l_goal (ls_life l') = l_goal (ls_life l) /\ l_terminal (ls_life l') = l_terminal (ls_life l) /\ ls_log l' = ls_log l.
Lemma frozen_once ch : respects life_frozen (once life_lens ch).
Proof. by apply respects_atomically. Qed.

Section closing.
Context (lim : site -> Z) (bound total : nat) (wq : Z) (frame_ok : wsFrame -> Z -> Prop).
Hypothesis lim_ok : forall c, 0 <= lim c < 2 ^ 62.
Abbreviation pinv := (path_inv (strict:=false) lim bound total wq frame_ok).
Abbreviation inv := (ws_inv lim bound total wq frame_ok).
Abbreviation life s := (ls_life (wx_life s)).

Lemma ws_life_get s (m F : wshare) : inv s (m ∙ F) -> life_inv (lget wlife_of s) (wh_l m ∙ (wh_l F ∙ gnil)).
Proof. intros HI. rewrite gop_nil_r. apply (xi_life _ _ _ _ _ _ _ HI). Qed.
Lemma ws_life_put s (m F : wshare) t mt :
  inv s (m ∙ F) -> life_frozen (lget wlife_of s) t -> life_inv t (mt ∙ (wh_l F ∙ gnil)) ->
  inv (lset wlife_of t s) (wown_l mt m ∙ F).
Proof.
  intros [] (Hg & Ht & Hlog) Hl. rewrite gop_nil_r in Hl. cbn in Hg, Ht, Hlog.
  split; unfold ws_writer, ended, asked in *; cbn; rewrite ?Hlog, ?Hg, ?Ht; done.
Qed.
Lemma wown_l_id m : wown_l (wh_l m) m = m.
Proof. by destruct m. Qed.
Lemma wp_on_life {A} Blk (q : prog lifeState A) m (Q : A -> wshare -> Prop) :
  respects life_frozen q -> wp life_inv never q (wh_l m) (fun a l => Q a (wown_l l m)) ->
  wp inv Blk (on_life q) m Q.
Proof.
  intros Hr. apply (wp_lift wlife_of) with (R := life_frozen) (stored := fun _ => gnil); try done.
  - apply wown_l_id.
  - apply ws_life_get.
  - apply ws_life_put.
Qed.
Lemma wp_mark ch Blk m (Q : unit -> wshare -> Prop) :
  ch = ReadCh \/ ch = WriteCh -> Q tt m -> wp inv Blk (on_life (once life_lens ch)) m Q.
Proof. intros Hch HQ. apply wp_on_life; [apply frozen_once|]. apply wp_once_free; [done|]. by rewrite wown_l_id. Qed.

(** A goroutine outside the gate that owes nothing. *)
Definition calm_ws (m : wshare) : Prop :=
  quiet_ws m /\ at_rest (wh_p m) /\ ps_g (wh_p m) = (0, 0)%nat /\ settled_share (wh_p m) /\ ps_ran (wh_p m) = 0%nat.

Lemma wp_ws_enter_once Blk aborting m l (Q : bool -> wshare -> Prop) :
  wh_l m = (if aborting : bool then {[+ Won +]} ⊎ l else l) -> (0 < wh_ke m)%nat -> ps_close (wh_p m) = 0%nat ->
  Q true (wown_p (own_close 1 (wh_p m)) (wown_l l (wown_term 0 m))) ->
  Q false (wown_p (own_ran 1 (wh_p m)) (wown_l l (wown_term 0 m))) ->
  wp inv Blk (atomically (enter_once aborting)) m Q.
Proof.
  intros El Hke Hcl HT HF. apply wp_section. intros s F s' b HI [= <- <-].
  assert (life_inv (if aborting then {| ls_life := life s; ls_err := ls_err (wx_life s);
      ls_log := true :: ls_log (wx_life s) |} else wx_life s) (l ⊎ wh_l F)) as Hl.
  { pose proof (xi_life _ _ _ _ _ _ _ HI) as Hl. cbn in Hl. rewrite El in Hl. destruct aborting; [|done].
    rewrite <- (assoc_L (⊎)) in Hl. by apply inv_report. }
  assert (ended (life s)) as He by (apply (xi_ke _ _ _ _ _ _ _ HI); cbn; lia).
  pose proof (path_inv_once _ _ _ _ _ _ _ _ (xi_path _ _ _ _ _ _ _ HI) Hcl) as Hp.
  assert (ls_life (if aborting then {| ls_life := life s; ls_err := ls_err (wx_life s);
      ls_log := true :: ls_log (wx_life s) |} else wx_life s) = life s) as Elife by by destruct aborting.
  exists (wown_p (if sp_once (wx_path s) then own_ran 1 (wh_p m) else own_close 1 (wh_p m)) (wown_l l (wown_term 0 m))).
  split; [|by destruct (sp_once (wx_path s))]. destruct HI.
  split; cbn -[ended asked ls_life ws_writer]; rewrite ?Elife; try done.
  - intros Ht. destruct (xi_term0 Ht). auto.
  - apply (ws_writer_mono s); [done| |done]. cbn -[ended ls_life]. by rewrite Elife.
Qed.

Lemma wp_ws_closeOnce role aborting m l (Q : unit -> wshare -> Prop) :
  wh_l m = (if aborting : bool then {[+ Won +]} ⊎ l else l) -> (0 < wh_ke m)%nat ->
  calm_ws (wown_l l (wown_term 0 m)) -> Q tt (wown_l l (wown_term 0 m)) -> wp inv (ws_blk role) (closeOnce aborting) m Q.
Proof.
  intros El Hke (Hq & Hr & Hg & [Hc Hp] & Hran) HQ. cbn in Hr, Hg, Hc, Hp, Hran.
  apply wp_bind, (wp_ws_enter_once _ _ _ l); [done..| |].
  - apply wp_bind, (wp_out_blk _ _ _ _ _ _ (fun _ _ => False)); [auto with still|done|].
    apply wp_path_close_gate; [done|].
    apply wp_bind, (wp_out_blk _ _ _ _ _ _ (fun _ _ => False)); [auto with still|done|].
    apply wp_path_close_chan; [done..|].
    apply (wp_out_blk _ _ _ _ _ _ (fun _ _ => False)); [auto with still|done|].
    apply (wp_path_close_socket _ _ _ _ _ _ (ps_know (wh_p m))); [done|].
    destruct m as [[] ? ? ? ? ? ? ? ?]. cbn in *. by subst.
  - apply (wp_out_blk _ _ _ _ _ _ (fun s mt => sp_once s = true /\ sp_physical s = 0 /\ mt = own_ran 1 (wh_p m)));
      [auto with still| |].
    + intros s mt (Ho & Hph & ->). split; [done|]. right. left. by split_and!.
    + apply (wp_path_once_wait _ _ _ _ _ _ _ (ps_know (wh_p m))); [done|done|].
      destruct m as [[] ? ? ? ? ? ? ? ?]. cbn in *. by subst.
Qed.

(** Whoever has seen or made the end of the session; no reader is missing from then on. *)
Definition wends (m : wshare) : wshare := wown_ke (S (wh_ke m)) (wown_rdr 0 m).
Definition wasks (m : wshare) : wshare := wown_kf (S (wh_kf m)) m.

Lemma publish_as reason cause l :
  publish reason cause l =
  publish_err (match reason, cause with abortFailure, Some e => Some e | _, _ => ls_err l end) l.
Proof. by destruct reason, cause, l. Qed.
Lemma ws_inv_abort why e s (m F : wshare) :
  why <> abortNone -> l_goal (life s) <> closeGoalAbort -> l_terminal (life s) = false -> inv s (m ∙ F) ->
  inv (wset_life (publish_err e (over life_lens (set_abort why) (wx_life s))) s)
    (wends (wown_l (abort_debts ⊎ wh_l m) m) ∙ F).
Proof.
  intros Hwhy Hg Ht HI. assert (asked (set_abort why (life s))) as Ha by (unfold asked; cbn; lia).
  assert (ended (set_abort why (life s))) as He by by left.
  destruct HI. split; cbn -[asked ended disj_union]; try done.
  - by apply abort_section_inv.
  - cbn in Ht. by rewrite Ht.
  - by apply (ws_writer_mono s).
  - cbn in *. destruct xi_rdr0. split; [lia|done].
Qed.
Lemma ws_inv_ends s (m F : wshare) : inv s (m ∙ F) -> ended (life s) -> inv s (wends m ∙ F).
Proof.
  intros HI He. pose proof (ended_asked _ _ _ _ _ _ _ HI He). destruct HI. split; try done.
  cbn in *. destruct xi_rdr0. split; [lia|done].
Qed.
Lemma ws_inv_asks s (m F : wshare) : inv s (m ∙ F) -> asked (life s) -> inv s (wasks m ∙ F).
Proof. intros [] He. by split. Qed.

Lemma frozen_abort_tail :
  respects life_frozen
    (once life_lens WriteReq ≫= fun _ => once life_lens FullReq ≫= fun _ => once life_lens AbortCh ≫= fun _ =>
     markReadClosed life_lens ≫= fun _ => markWriteClosed life_lens ≫= fun _ => mret true).
Proof. repeat (apply respects_bind; [apply frozen_once|intros _]). done. Qed.

Lemma calm_wown_l l m : calm_ws m -> settled l -> calm_ws (wown_l l (wown_term 0 (wends m))).
Proof. intros ((_ & ? & ? & ?) & ? & ? & ? & ?) Hl. unfold calm_ws, quiet_ws. by split_and!. Qed.
Lemma wp_ws_abort role why cause m (Q : bool -> wshare -> Prop) :
  why <> abortNone -> calm_ws m -> (forall r l, settled l -> Q r (wown_l l (wends m))) ->
  wp inv (ws_blk role) (abort why cause) m Q.
Proof.
  intros Hwhy Hm HQ. pose proof Hm as ((Hset & _ & _ & Ht0) & _).
  apply wp_bind. unfold abortWith. apply wp_lift_bind, wp_lift_section. intros s F t won HI. cbn [lget wlife_of life_lens].
  destruct (_ || _) eqn:Ec; intros [= <- <-].
  - exists (wends m). split.
    + apply (ws_inv_ends s) in HI; [by destruct s|].
      apply orb_prop in Ec as [?|?%bool_decide_eq_true]; [by right|by left].
    + apply wp_ret, wp_ret. exact (HQ false _ Hset).
  - apply orb_false_elim in Ec as [Ht Hg%bool_decide_eq_false].
    exists (wends (wown_l (abort_debts ⊎ wh_l m) m)). split; [rewrite publish_as; by apply ws_inv_abort|].
    apply wp_on_life; [apply frozen_abort_tail|]. apply wp_abort_tail; [done|]. intros l Hl. cbn [negb].
    apply wp_bind, (wp_ws_closeOnce _ _ _ l); [done|cbn; lia|by apply calm_wown_l|].
    apply wp_ret. specialize (HQ true l Hl). destruct m. cbn in *. by subst.
Qed.
Lemma wp_ws_initiateClose role cause m (Q : unit -> wshare -> Prop) :
  calm_ws m -> (forall l, settled l -> Q tt (wown_l l (wends m))) ->
  wp inv (ws_blk role) (initiateClose cause) m Q.
Proof. intros Hm HQ. apply wp_bind, wp_ws_abort; [done..|]. intros r l Hl. by apply wp_ret, HQ. Qed.

(** *** Shutting down *)
Lemma ws_inv_request s (m F : wshare) :
  goal_rank (l_goal (life s)) < goal_rank closeGoalFull -> inv s (m ∙ F) ->
  inv (wset_life (over life_lens (raise_goal closeGoalFull) (wx_life s)) s)
    (wasks (wown_full 1 (wown_l (request_debts closeGoalFull ⊎ wh_l m) m)) ∙ F).
Proof.
  intros Hlt HI. assert (asked (raise_goal closeGoalFull (life s))) as Ha by done.
  assert (ended (life s) -> ended (raise_goal closeGoalFull (life s))) as He.
  { intros [E|Ht]; [rewrite E in Hlt; cbn in Hlt; lia|by right]. }
  destruct HI. split; cbn -[asked ended disj_union request_debts]; try done; auto.
  - apply request_section_inv; auto.
  - intros Ht. destruct (xi_term0 Ht) as [Hasked _]. unfold asked in Hasked. cbn in Hlt. lia.
  - intros _. right. lia.
  - by apply (ws_writer_mono s).
  - by destruct xi_rdr0.
Qed.
Lemma frozen_request_tail g (prev : closeGoal) :
  respects life_frozen
    (once life_lens WriteReq ≫= fun _ =>
     (if goal_rank g >=? goal_rank closeGoalFull then once life_lens FullReq else mret tt) ≫= fun _ => mret (true, prev)).
Proof.
  apply respects_bind; [apply frozen_once|intros _]. apply respects_bind; [|done].
  destruct (_ >=? _); [apply frozen_once|done].
Qed.
Lemma wp_ws_request Blk m (Q : bool * closeGoal -> wshare -> Prop) :
  settled (wh_l m) -> (forall prev, Q (false, prev) (wasks m)) ->
  (forall prev l, settled l -> Q (true, prev) (wown_l l (wasks (wown_full 1 m)))) ->
  wp inv Blk (on_life (requestWithPrevious life_lens closeGoalFull)) m Q.
Proof.
  intros Hm HF HT. unfold requestWithPrevious. cbn [goal_rank orb Z.leb Z.geb Z.compare Pos.compare Pos.compare_cont].
  apply wp_lift_bind, wp_lift_section. intros s F t r HI. cbn [lget wlife_of life_lens].
  destruct (_ || _) eqn:Ec; intros [= <- <-].
  - exists (wasks m). split; [|apply wp_ret, HF]. apply (ws_inv_asks s) in HI; [by destruct s|].
    apply orb_prop in Ec as [Ht|Hg].
    + by apply (xi_term _ _ _ _ _ _ _ HI).
    + unfold asked. rewrite Z.geb_leb in Hg. apply Z.leb_le in Hg. exact Hg.
  - apply orb_false_elim in Ec as [_ Hg]. rewrite Z.geb_leb in Hg. apply Z.leb_gt in Hg.
    eexists. split; [by apply ws_inv_request|]. cbn [negb fst snd].
    apply wp_on_life; [apply (frozen_request_tail closeGoalFull)|]. apply (wp_request_tail closeGoalFull); [done|]. intros l Hl. by apply HT.
Qed.

Lemma ws_inv_terminal s (m F : wshare) :
  asked (life s) -> inv s (m ∙ F) ->
  inv (wset_life (over life_lens set_terminal (wx_life s)) s)
    (wends (wown_term 1 (wown_l (terminal_debts ⊎ wh_l m) m)) ∙ F).
Proof.
  intros Ha HI. assert (ended (set_terminal (life s))) as He by by right.
  destruct HI. split; cbn -[asked ended disj_union terminal_debts]; try done.
  - by apply terminal_section_inv.
  - intros _. split; [done|]. right. right. lia.
  - by apply (ws_writer_mono s).
  - cbn in *. destruct xi_rdr0. split; [lia|done].
Qed.
Lemma frozen_terminal_tail :
  respects life_frozen (markTerminalChannels life_lens ≫= fun _ => mret true).
Proof.
  apply respects_bind; [|done]. unfold markTerminalChannels, markReadClosed, markWriteClosed.
  repeat (apply respects_bind; [apply frozen_once|intros _]). apply frozen_once.
Qed.
Lemma calm_term l m : calm_ws m -> settled l -> calm_ws (wown_l l (wown_term 0 m)).
Proof. intros ((_ & ? & ? & ?) & ? & ? & ? & ?) Hl. unfold calm_ws, quiet_ws. by split_and!. Qed.

Section finish.
Context `{WebSocketLib} (pf : platform) (env : wsEnv).
Lemma wp_ws_finish role err m (Q : unit -> wshare -> Prop) :
  calm_ws m -> (0 < wh_kf m)%nat -> (forall l, settled l -> Q tt (wown_l l (wends m))) ->
  wp inv (ws_blk role) (finishLocalGraceful pf env err) m Q.
Proof.
  intros Hm Hkf HQ. unfold finishLocalGraceful. destruct (normalizeWSError err); [by apply wp_ws_initiateClose|].
  apply wp_bind, wp_mark; [auto|]. apply wp_bind, wp_mark; [auto|]. apply wp_bind.
  pose proof Hm as ((Hset & _ & _ & Ht0) & _).
  unfold tryMarkTerminal. apply wp_lift_bind, wp_lift_section. intros s F t ok HI. cbn [lget wlife_of life_lens].
  destruct (_ || _) eqn:Ec; intros [= <- <-].
  - exists (wends m). split.
    + apply (ws_inv_ends s) in HI; [by destruct s|].
      apply orb_prop in Ec as [?|?%bool_decide_eq_true]; [by right|by left].
    + apply wp_ret, (wp_ws_closeOnce _ _ _ (wh_l m)); [done|cbn; lia|by apply (calm_term _ (wends m))|].
      specialize (HQ _ Hset). destruct m. cbn in *. by subst.
  - eexists. split.
    + apply ws_inv_terminal; [|exact HI]. apply (xi_kf _ _ _ _ _ _ _ HI). cbn. lia.
    + apply wp_on_life; [apply frozen_terminal_tail|]. apply wp_bind, wp_terminal_channels; [done|]. intros l Hl _.
      apply wp_ret. apply (wp_ws_closeOnce _ _ _ l); [done|cbn; lia|by apply (calm_term _ (wends m))|].
      specialize (HQ _ Hl). destruct m. cbn in *. by subst.
Qed.
End finish.

(** Dropping the reader's token once the session is being shut down or has ended. *)
Lemma ws_inv_no_reader s (m F : wshare) :
  inv s (m ∙ F) -> (0 < wh_kf m)%nat \/ (0 < wh_ke m)%nat -> inv s (wown_rdr 0 m ∙ F).
Proof.
  intros HI Hk. assert (asked (life s)) as Ha.
  { destruct Hk; [apply (xi_kf _ _ _ _ _ _ _ HI); cbn; lia|]. eapply ended_asked; [exact HI|].
    apply (xi_ke _ _ _ _ _ _ _ HI). cbn. lia. }
  destruct HI. split; cbn in *; try done. destruct xi_rdr0. split; [lia|done].
Qed.
(** The gate is closed: the duty of the one who requested the shutdown is done. *)
Lemma ws_inv_gate_closed s (m F : wshare) p :
  inv s (wown_full 1 (wown_p (own_g (0, 1)%nat p) m) ∙ F) -> ps_g p = (0, 0)%nat ->
  inv s (wown_full 0 (wown_p p m) ∙ F).
Proof.
  intros HI Hg. pose proof (xi_path _ _ _ _ _ _ _ HI) as HP. cbn in HP.
  assert (g_closed (sp_gate (wx_path s)) = true) as Hc.
  { destruct (pi_gate _ _ _ _ _ _ _ HP) as (_ & _ & Hw). apply Hw. cbn. lia. }
  destruct HI. split; cbn -[asked ended] in *; try done; [|auto].
  destruct HP. split; try done. destruct pi_gate as (Ha & Hd & _). cbn in *. rewrite Hg. cbn.
  split_and!; [done..|]. auto.
Qed.
End closing.
