(* ===== verification/WebsocketProofs.v ===== *)
(** * WebsocketProofs: the calls on a WebSocket session keep its invariant

    One lemma per call of Websocket.v: [Send], [TrySend], [Shutdown], [Close], and the
    watcher of the close timeout. *)
From S2P Require Import Prelude Conc Kinds Errors Classify Message Gate Lifecycle Quota SendPath SendPathInv SendPathWriter.
From S2P Require Import Encoding Secure Endpoint NetAddr WsCodec Websocket WebsocketInv.
Local Open Scope go_scope.
Local Open Scope Z_scope.

(** A frame is the encoding of a message, with the length of its data. *)
Definition frame_ok (env : wsEnv) (rnd : nat -> bytes) (d : wsFrame) (n : Z) : Prop :=
  n = zlen (wf_payload d) /\
  exists k m, ws_encode (we_codec env) (rnd k) m = inl (wf_typ d, wf_payload d) /\ wf_payloadBytes d = zlen (msg_Data m).

Section proofs.
Context (lim : site -> Z) (bound total : nat) (wq : Z) (env : wsEnv) (rnd : nat -> bytes) (role : ws_role).
Hypothesis lim_ok : forall c, 0 <= lim c < 2 ^ 62.
Context `{WebSocketLib} (pf : platform) (cause_of : nat -> error) (qfuel : nat).
Hypothesis qfuel_ok : (bound < qfuel)%nat.
Abbreviation inv := (ws_inv lim bound total wq (frame_ok env rnd)).
Abbreviation xwp := (wp inv (ws_blk role)).

(** ** Sections that only read, or change what the invariant does not mention *)
Lemma wp_wlook {B} Blk (f : wsSession -> B) m (Q : B -> wshare -> Prop) :
  (forall b, Q b m) -> wp inv Blk (atomically (fun s => (s, f s))) m Q.
Proof. intros HQ. apply wp_atomically. intros s F HI. exists m. by split. Qed.
Lemma wp_wnote {B} Blk (f : wsSession -> wsSession * B) m (Q : B -> wshare -> Prop) :
  (forall s, wx_path (f s).1 = wx_path s /\ wx_life (f s).1 = wx_life s /\ wx_enc (f s).1 = wx_enc s /\
             wx_ctx (f s).1 = wx_ctx s /\ wx_pending (f s).1 = wx_pending s) ->
  (forall s, Q (f s).2 m) -> wp inv Blk (atomically f) m Q.
Proof.
  intros Hf HQ. apply wp_atomically. intros s F HI. exists m. split; [|apply HQ].
  destruct (Hf s) as (E1 & E2 & E3 & E4 & E5). destruct HI. split; unfold ws_writer in *; by rewrite ?E1, ?E2, ?E3, ?E4, ?E5.
Qed.
Lemma operationalError_ws op e h : operationalError pf env op e h <> None.
Proof.
  unfold operationalError.
  by destruct (classifyOperational_typed pf op (wc_protocol (we_codec env)) (we_local env) (we_remote env) e h)
    as (e' & n & -> & _).
Qed.
Lemma wp_ws_terminal_or_closed m (Q : option error -> wshare -> Prop) :
  (forall e, Q (Some e) m) -> xwp (terminal_or_closed pf env) m Q.
Proof.
  intros HQ. apply wp_bind, wp_wlook. intros [t|]; apply wp_ret; [apply HQ|].
  pose proof (operationalError_ws OpSend (Sentinel ErrClosed) hintNone).
  destruct (operationalError _ _ _ _ _); [apply HQ|done].
Qed.
Lemma wp_ws_cause_or k q m (Q : option error -> wshare -> Prop) :
  (forall r, Q r m) -> xwp q m Q -> xwp (cause_or cause_of k q) m Q.
Proof. intros HQ Hq. apply wp_bind, wp_wlook. intros [c|]; [by apply wp_ret|done]. Qed.
Lemma wp_ws_sendError k e m (Q : option error -> wshare -> Prop) :
  (forall r, Q r m) -> xwp (sendError pf env cause_of k e) m Q.
Proof. intros HQ. apply wp_ws_cause_or; [done|]. by apply wp_ret. Qed.
Lemma wp_ws_trySendError e m (Q : option error -> wshare -> Prop) :
  (forall r, Q r m) -> xwp (trySendError pf env e) m Q.
Proof.
  intros HQ. apply wp_bind. destruct (errors_Is e ErrWouldBlock); [|by apply wp_ret, wp_ret, HQ].
  apply wp_wnote; [done|]. intros s. by apply wp_ret.
Qed.

(** ** The share of a caller *)
Definition wclient (l : gmultiset Lifecycle.tok) (kf ke : nat) (q : gmultiset Quota.tok) (g slot op : nat)
    (ack : gmultiset nat) (enc : nat) : wshare :=
  WShare (pclient q g slot op ack) l enc 0 0 0 Nobody kf ke.
(** What a call leaves its caller with, inside the gate ([g] is 1) or outside. *)
Definition wleft (j op g : nat) (m : wshare) : Prop :=
  exists l kf ke q op', m = wclient l kf ke q g 0 op' ∅ 0 /\ settled l /\ stocked j q /\ (op <= op')%nat.
Lemma wleft_intro j op op' g l kf ke q :
  settled l -> stocked j q -> (op <= op')%nat -> wleft j op g (wclient l kf ke q g 0 op' ∅ 0).
Proof. intros. by exists l, kf, ke, q, op'. Qed.
Lemma wleft_calm j op m : wleft j op 0 m -> calm_ws m.
Proof. intros (l & kf & ke & q & op' & -> & Hl & [Hi _] & _). by split_and!. Qed.
Lemma wclient_quiet l kf ke q g slot op ack : settled l -> quiet_ws (wclient l kf ke q g slot op ack 0).
Proof. intros Hl. by split_and!. Qed.
Hint Resolve wclient_quiet : core.

(** A program of the way out, for a caller. *)
Lemma wp_out_client {A} (q : prog (sendPath wsFrame) A) l kf ke qs g slot op ack (Q : A -> wshare -> Prop) :
  respects path_still q -> settled l ->
  wp (path_inv (strict:=false) lim bound total wq (frame_ok env rnd)) (path_blk (own_role role)) q (pclient qs g slot op ack)
    (fun a mt => Q a (WShare mt l 0 0 0 0 Nobody kf ke)) ->
  xwp (on_out q) (wclient l kf ke qs g slot op ack 0) Q.
Proof. intros Hr Hl Hq. apply wp_out; [done|auto|done|by left|exact Hq]. Qed.

(** ** Sending *)
Abbreviation paid q := ({[+ Quota.Credit +]} ⊎ ({[+ Quota.Credit +]} ⊎ q)).
Section send.
Context (j op kf ke : nat) (l : gmultiset Lifecycle.tok) (q : gmultiset Quota.tok).
Hypothesis (Hl : settled l) (Hq : stocked j q).
Lemma ws_paid2 : stocked j (paid q).
Proof. by apply (stocked_credit lim), (stocked_credit lim). Qed.
Lemma ws_paid_idle : Quota.idle (paid q).
Proof. by eapply (stocked_idle lim lim_ok). Qed.

Lemma wp_ws_unreserve n (Q : unit -> wshare -> Prop) :
  0 <= n -> Q tt (wclient l kf ke q 1 0 (S op) ∅ 0) ->
  xwp (unreserve n) (wclient l kf ke (req_toks n ⊎ q) 1 1 (S op) ∅ 0) Q.
Proof.
  intros Hn HQ. apply wp_bind, wp_out_client; [apply still_quota|done|].
  eapply (wp_path_release lim bound total wq (frame_ok env rnd) lim_ok); [done..|].
  apply wp_out_client; [auto with still|done|]. by apply (wp_releaseSlot _ _ _ _ _ _ 0%nat).
Qed.
Lemma wp_ws_give_slot q' r (Q : option error -> wshare -> Prop) :
  Q r (wclient l kf ke q' 1 0 (S op) ∅ 0) -> xwp (give_slot r) (wclient l kf ke q' 1 1 (S op) ∅ 0) Q.
Proof.
  intros HQ. apply wp_bind, wp_out_client; [auto with still|done|].
  apply (wp_releaseSlot _ _ _ _ _ _ 0%nat); [done|]. by apply wp_ret.
Qed.

Lemma ws_inv_take_encoder s (m F : wshare) :
  inv s (m ∙ F) -> wx_enc s = false -> inv (wset_enc true s) (wown_enc (S (wh_enc m)) m ∙ F).
Proof. intros [] E. rewrite E in *. split; cbn in *; try done. lia. Qed.
Lemma wp_ws_acquireEncoder k (Q : option error -> wshare -> Prop) :
  (forall e, Q (Some e) (wclient l kf ke (paid q) 1 1 (S op) ∅ 0)) -> Q None (wclient l kf ke (paid q) 1 1 (S op) ∅ 1) ->
  xwp (acquireEncoder k) (wclient l kf ke (paid q) 1 1 (S op) ∅ 0) Q.
Proof.
  intros HE HQ. apply wp_select. intros s F HI. split.
  - intros [_ [?%ready_nil He%ready_nil]%app_eq_nil]%app_eq_nil. split; [auto|]. right. right. left.
    split_and!; [done..|]. by destruct (wx_enc s).
  - intros s' r. rewrite !elem_of_app, !elem_ready.
    intros [(Hd & -> & ->)|[(_ & -> & ->)|(Hf & -> & ->)]].
    + eexists. split; [exact HI|]. unfold path_ctx_done in Hd. by case_match.
    + eauto.
    + eexists. split; [apply ws_inv_take_encoder; [exact HI|]|exact HQ]. by destruct (wx_enc s).
Qed.
Lemma wp_ws_tryAcquireEncoder (Q : option error -> wshare -> Prop) :
  (forall e, Q (Some e) (wclient l kf ke (paid q) 1 1 (S op) ∅ 0)) -> Q None (wclient l kf ke (paid q) 1 1 (S op) ∅ 1) ->
  xwp tryAcquireEncoder (wclient l kf ke (paid q) 1 1 (S op) ∅ 0) Q.
Proof.
  intros HE HQ. apply wp_select. intros s F HI. split; [by intros ?%default_ready|].
  intros s' r [Hin|(_ & -> & ->)]%elem_default; [|eauto].
  rewrite elem_of_app, !elem_ready in Hin. destruct Hin as [(_ & -> & ->)|(Hf & -> & ->)]; [eauto|].
  eexists. split; [apply ws_inv_take_encoder; [exact HI|]|exact HQ]. by destruct (wx_enc s).
Qed.
Lemma wp_encode_next msg (Q : result (MessageType * bytes) -> wshare -> Prop) :
  (forall k, Q (ws_encode (we_codec env) (rnd k) msg) (wclient l kf ke (paid q) 1 1 (S op) ∅ 0)) ->
  xwp (encode_next env rnd msg) (wclient l kf ke (paid q) 1 1 (S op) ∅ 1) Q.
Proof.
  intros HQ. apply wp_bind, wp_wnote; [done|]. intros s. cbn [snd]. specialize (HQ (wx_encodes s)).
  apply wp_bind, wp_select. intros s1 F HI.
  assert (wx_enc s1 = true) as Ee.
  { pose proof (xi_enc _ _ _ _ _ _ _ HI) as He. destruct (wx_enc s1); [done|cbn in He; lia]. }
  rewrite Ee. split; [done|]. intros s' [] (_ & -> & _)%elem_ready.
  exists (wclient l kf ke (paid q) 1 1 (S op) ∅ 0). split; [|by apply wp_ret].
  destruct HI. rewrite Ee in *. split; cbn in *; try done. lia.
Qed.
Lemma encoded_ok k msg typ payload :
  ws_encode (we_codec env) (rnd k) msg = inl (typ, payload) ->
  frame_ok env rnd (frame typ payload msg) (zlen payload).
Proof. intros E. split; [done|]. by exists k, msg. Qed.

Ltac leave_it := apply wleft_intro; [done|first [done|apply ws_paid2]|lia].
Lemma wp_ws_send_inside k msg (Q : option error -> wshare -> Prop) :
  (forall r m, wleft j op 1 m -> Q r m) ->
  xwp (send_inside pf env cause_of rnd qfuel k msg) (wclient l kf ke (paid q) 1 0 (S op) ∅ 0) Q.
Proof.
  intros HQ. unfold send_inside. destruct (Validate msg); [apply wp_ret, HQ; leave_it|]. pose proof ws_paid_idle as Hidle.
  apply wp_bind, wp_out_client; [auto with still|done|]. apply wp_acquireSlot; [done..| |].
  { intros e. apply wp_ws_sendError. intros r. apply HQ. leave_it. }
  apply wp_bind, wp_ws_acquireEncoder.
  { intros e. apply wp_bind, wp_ws_sendError. intros r. apply wp_ws_give_slot, HQ. leave_it. }
  apply wp_bind, wp_encode_next. intros i.
  destruct (ws_encode (we_codec env) (rnd i) msg) as [[typ payload]|e] eqn:Ee;
    [|apply wp_bind, wp_ws_sendError; intros r; apply wp_ws_give_slot, HQ; leave_it].
  apply encoded_ok in Ee. pose proof (zlen_nonneg payload) as Hn.
  apply wp_bind, wp_out_client; [apply still_quota|done|].
  eapply (wp_path_acquire lim bound total wq (frame_ok env rnd) (own_role role) lim_ok qfuel k j); [done|done|exact Hn|done..| |].
  { intros e q' Hq'. apply wp_bind, wp_ws_sendError. intros r. apply wp_ws_give_slot, HQ. leave_it. }
  apply wp_bind, wp_out_client; [auto with still|done|]. apply wp_path_offer; [exact lim_ok|exact Hn|done|..].
  - apply wp_bind, wp_ws_unreserve; [done|]. apply wp_ret, HQ. leave_it.
  - apply wp_bind, wp_ws_unreserve; [done|]. apply wp_ws_cause_or; [intros r; apply HQ; leave_it|].
    apply wp_ws_terminal_or_closed. intros e. apply HQ. leave_it.
  - intros id. apply wp_bind, wp_out_client; [auto with still|done|].
    apply wp_path_await; [exact lim_ok|apply Hq|]. intros r.
    assert (forall x, Q x (wclient l kf ke q 1 0 op ∅ 0)) as HQ' by (intros x; apply HQ; leave_it).
    destruct r; [by apply wp_ret..|]. apply wp_ws_cause_or; [done|]. by apply wp_ws_terminal_or_closed.
Qed.
Lemma wp_ws_trySend_inside msg (Q : option error -> wshare -> Prop) :
  (forall r m, wleft j op 1 m -> Q r m) ->
  xwp (trySend_inside pf env rnd msg) (wclient l kf ke (paid q) 1 0 (S op) ∅ 0) Q.
Proof.
  intros HQ. unfold trySend_inside. destruct (Validate msg); [apply wp_ret, HQ; leave_it|].
  apply wp_bind, wp_out_client; [auto with still|done|]. apply wp_tryAcquireSlot; [done| |].
  { intros e. apply wp_ws_trySendError. intros r. apply HQ. leave_it. }
  apply wp_bind, wp_ws_tryAcquireEncoder.
  { intros e. apply wp_bind, wp_ws_trySendError. intros r. apply wp_ws_give_slot, HQ. leave_it. }
  apply wp_bind, wp_encode_next. intros i.
  destruct (ws_encode (we_codec env) (rnd i) msg) as [[typ payload]|e] eqn:Ee;
    [|apply wp_ws_give_slot, HQ; leave_it].
  apply encoded_ok in Ee. pose proof (zlen_nonneg payload) as Hn.
  apply wp_bind, wp_out_client; [apply still_quota|done|].
  eapply (wp_path_tryAcquire lim bound total wq (frame_ok env rnd) lim_ok j); [exact Hn|done..| |].
  { intros e q' Hq'. apply wp_bind, wp_ws_trySendError. intros r. apply wp_ws_give_slot, HQ. leave_it. }
  apply wp_bind, wp_out_client; [auto with still|done|]. apply wp_path_tryOffer; [exact lim_ok|exact Hn|done|..].
  - apply wp_bind, wp_ws_unreserve; [done|]. apply wp_ws_trySendError. intros r. apply HQ. leave_it.
  - apply wp_bind, wp_ws_unreserve; [done|]. apply wp_ws_terminal_or_closed. intros e. apply HQ. leave_it.
  - intros id. apply wp_ret, HQ. leave_it.
Qed.
End send.

(** ** Calls start and end outside the gate *)
Definition wcall (l : gmultiset Lifecycle.tok) (kf ke op : nat) (q : gmultiset Quota.tok) : wshare :=
  wclient l kf ke (paid q) 0 0 (S op) ∅ 0.
Section call.
Context (j op kf ke : nat) (l : gmultiset Lifecycle.tok) (q : gmultiset Quota.tok).
Hypothesis (Hl : settled l) (Hq : stocked j q).
Lemma wcall_left : wleft j op 0 (wcall l kf ke op q).
Proof. apply wleft_intro; [done|by apply ws_paid2|lia]. Qed.

Lemma wp_ws_through_gate (p : prog wsSession (option error)) (Q : option error -> wshare -> Prop) :
  (forall Q', (forall r m, wleft j op 1 m -> Q' r m) -> xwp p (wclient l kf ke (paid q) 1 0 (S op) ∅ 0) Q') ->
  (forall r m, wleft j op 0 m -> Q r m) -> xwp (through_gate pf env p) (wcall l kf ke op q) Q.
Proof.
  intros Hp HQ. apply wp_bind, wp_out_client; [auto with still|done|]. apply wp_path_enter; [done| |].
  - apply wp_bind, Hp. intros r m (l' & kf' & ke' & q' & op' & -> & ? & ? & ?).
    apply wp_bind, wp_out_client; [auto with still|done|].
    apply wp_path_leave; [done|]. apply wp_ret, HQ. by apply wleft_intro.
  - apply wp_ret, HQ, wcall_left.
Qed.
Lemma wp_ws_Send ctx msg (Q : option error -> wshare -> Prop) :
  (forall r m, wleft j op 0 m -> Q r m) -> xwp (Send pf env cause_of rnd qfuel ctx msg) (wcall l kf ke op q) Q.
Proof.
  intros HQ. pose proof wcall_left. destruct ctx as [k|]; [|by apply wp_ret, HQ].
  apply wp_ws_cause_or; [auto|]. apply wp_ws_through_gate; [|done]. intros Q' HQ'. by apply wp_ws_send_inside with (j := j).
Qed.
Lemma wp_ws_TrySend msg (Q : option error -> wshare -> Prop) :
  (forall r m, wleft j op 0 m -> Q r m) -> xwp (TrySend pf env rnd msg) (wcall l kf ke op q) Q.
Proof.
  intros HQ. apply wp_ws_through_gate; [|done]. intros Q' HQ'. by apply wp_ws_trySend_inside with (j := j).
Qed.
End call.

(** A caller outside that owes nothing stays one. *)
Lemma wleft_ends j op m l : wleft j op 0 m -> settled l -> wleft j op 0 (wown_l l (wends m)).
Proof. intros (l0 & kf & ke & q & op' & -> & _ & ? & ?) Hl. by apply wleft_intro. Qed.
Lemma wleft_asks j op m : wleft j op 0 m -> wleft j op 0 (wasks m).
Proof. intros (l0 & kf & ke & q & op' & -> & ? & ? & ?). by apply wleft_intro. Qed.
Lemma wp_left_abort j op why cause m (Q : bool -> wshare -> Prop) :
  why <> abortNone -> wleft j op 0 m -> (forall r m', wleft j op 0 m' -> Q r m') -> xwp (abort why cause) m Q.
Proof.
  intros Hwhy Hm HQ. apply wp_ws_abort; [done|by eapply wleft_calm|]. intros r l Hl. by apply HQ, wleft_ends.
Qed.
Lemma wp_ws_Close j op m (Q : option error -> wshare -> Prop) :
  wleft j op 0 m -> (forall r m', wleft j op 0 m' -> Q r m') -> xwp Close m Q.
Proof.
  intros Hm HQ. apply wp_bind, wp_wlook. intros []; [by apply wp_ret, HQ|].
  eapply wp_bind, wp_left_abort; [done..|]. intros r m' Hm'. by apply wp_ret, HQ.
Qed.

Definition wasked (j op : nat) (m : wshare) : Prop := wleft j op 0 m /\ (0 < wh_kf m)%nat.
Lemma wp_ws_requestShutdown j op m (Q : bool -> wshare -> Prop) :
  wleft j op 0 m -> (forall r m', wasked j op m' -> Q r m') -> xwp requestShutdown m Q.
Proof.
  intros (l & kf & ke & q & op' & -> & Hl & Hq & Ho) HQ.
  apply wp_bind, wp_ws_request; [done| |].
  - intros prev. apply wp_bind, wp_ret, wp_ret, HQ. split; [by apply (wleft_intro _ _ _ _ _ (S kf))|cbn; lia].
  - intros prev l' Hl'. cbn [fst]. apply wp_bind, wp_bind.
    apply (wp_out_blk _ _ _ _ _ _ (fun _ _ => False)); [auto with still|done|]. apply wp_path_close_gate; [done|].
    apply wp_atomically. intros s F HI.
    exists (wclient l' (S kf) ke q 0 0 op' ∅ 0). split.
    + apply (ws_inv_gate_closed _ _ _ _ _ _ (wclient l' (S kf) ke q 0 0 op' ∅ 0) F (pclient q 0 0 op' ∅)) in HI; [|done].
      destruct HI. by split.
    + apply wp_ret, HQ. split; [by apply (wleft_intro _ _ _ _ _ (S kf))|cbn; lia].
Qed.
Lemma wp_ws_lifecycleResult m (Q : option error -> wshare -> Prop) : (forall r, Q r m) -> xwp lifecycleResult m Q.
Proof.
  intros HQ. apply wp_bind, wp_wlook. intros [e|]; [by apply wp_ret|]. apply wp_bind, wp_wlook. intros why. by apply wp_ret.
Qed.
Lemma wasked_blk j op s m : wasked j op m -> sp_done (wx_path s) = false -> ws_blk role s m.
Proof.
  intros [(l & kf & ke & q & op' & -> & Hl & [Hi _] & _) Hk] Hd. split; [auto|]. do 5 right.
  split_and!; try done. by left.
Qed.
Lemma wp_ws_Shutdown j op ctx m (Q : option error -> wshare -> Prop) :
  wleft j op 0 m -> (forall r m', wleft j op 0 m' -> Q r m') -> xwp (Shutdown cause_of ctx) m Q.
Proof.
  intros Hm HQ. destruct ctx as [k|]; [|by apply wp_ret, HQ]. apply wp_ws_cause_or; [auto|].
  eapply wp_bind, wp_ws_requestShutdown; [done|]. intros owner m1 Hm1. pose proof Hm1 as [Hleft _].
  apply wp_bind, wp_select. intros s F HI. split.
  - intros [Hd%ready_nil _]%app_eq_nil. by eapply wasked_blk.
  - intros s' w. rewrite !elem_of_app, !elem_ready. intros Hw. exists m1.
    assert (s' = s) as -> by by destruct Hw as [(_ & -> & _)|[(_ & -> & _)|(_ & -> & _)]].
    split; [done|]. destruct w; [apply wp_ws_lifecycleResult; auto|]. apply wp_bind.
    destruct owner; [|by apply wp_ret, wp_ret, HQ]. eapply wp_bind, wp_left_abort; [done..|].
    intros r m' Hm'. by apply wp_ret, wp_ret, HQ.
Qed.

Lemma wp_ws_op j op l kf ke q o (Q : unit -> wshare -> Prop) :
  settled l -> stocked j q -> (forall m, wleft j op 0 m -> Q tt m) ->
  xwp (ws_op_prog pf env cause_of rnd qfuel o) (wcall l kf ke op q) Q.
Proof.
  intros Hl Hq HQ. pose proof (wcall_left j op kf ke l q Hl Hq) as Hc.
  assert (forall (r : option error) m, wleft j op 0 m -> xwp (mret tt) m Q) as Hret by (intros r m Hm; by apply wp_ret, HQ).
  destruct o as [ctx msg|msg|ctx| |k e]; cbn [ws_op_prog].
  - by eapply wp_bind, wp_ws_Send.
  - by eapply wp_bind, wp_ws_TrySend.
  - by eapply wp_bind, wp_ws_Shutdown.
  - by eapply wp_bind, wp_ws_Close.
  - apply wp_out_client; [auto with still|done|]. by apply wp_path_cancel, HQ.
Qed.
Lemma wp_ws_client ops m :
  wleft (2 * length ops) (length ops) 0 m -> xwp (ws_client pf env cause_of rnd qfuel ops) m (fun _ => ws_fin).
Proof.
  revert m. induction ops as [|o ops IH]; intros m (l & kf & ke & q & op & -> & Hl & Hs & Ho).
  { apply wp_ret. destruct Hs. split; [auto|]. by split_and!. }
  cbn [length] in *. destruct op as [|op]; [lia|].
  replace (2 * S (length ops))%nat with (2 + 2 * length ops)%nat in Hs by lia.
  destruct (stocked_split lim lim_ok _ _ Hs) as (q' & -> & Hq'). cbn [ws_client].
  apply wp_bind, (wp_ws_op (2 * length ops) op); [done..|].
  intros m (l2 & kf2 & ke2 & q2 & op2 & -> & ? & Hs2 & Ho2). apply IH. apply wleft_intro; [done..|lia].
Qed.
End proofs.
