(* ===== verification/WebsocketWriter.v ===== *)
(** * WebsocketWriter: the loops of a WebSocket session

    The writer with the read failures it arbitrates, the reader, the ping loop, the
    activity clock, the finalizer and the watcher of the close timeout keep the invariant
    of WebsocketInv.v. *)
From S2P Require Import Prelude Conc Kinds Errors Classify Message Gate Lifecycle Quota SendPath SendPathInv SendPathWriter.
From S2P Require Import Encoding Secure Endpoint NetAddr WsCodec Websocket WebsocketInv WebsocketProofs.
Local Open Scope go_scope.
Local Open Scope Z_scope.

Section writer.
Context (lim : site -> Z) (bound total : nat) (wq : Z) (env : wsEnv) (rnd : nat -> bytes).
Hypothesis lim_ok : forall c, 0 <= lim c < 2 ^ 62.
Context `{WebSocketLib} (pf : platform) (io : nat -> ws_io) (ws_close : option error).
Abbreviation pinv := (path_inv (strict:=false) lim bound total wq (frame_ok env rnd)).
Abbreviation inv := (ws_inv lim bound total wq (frame_ok env rnd)).
Abbreviation xwp := (wp inv (ws_blk RWriter)).

(** The share of the writer: [fl] a write is in flight, [rdr] a read failure it has taken over. *)
Definition wwriter (l : gmultiset Lifecycle.tok) (kf ke : nat) (fl : bool) (rdr : nat) (q : gmultiset Quota.tok) (slot : nat)
    (w : ptok wsFrame) : wshare :=
  WShare (pwriter q slot 0 w) l 0 0 0 rdr (Owner fl) kf ke.
Lemma wwriter_quiet l kf ke fl rdr q slot w : settled l -> quiet_ws (wwriter l kf ke fl rdr q slot w).
Proof. intros Hl. by split_and!. Qed.
Lemma wwriter_calm l kf ke fl rdr q w : settled l -> Quota.idle q -> calm_ws (wwriter l kf ke fl rdr q 0 w).
Proof. intros Hl Hi. by split_and!. Qed.

(** A program of the way out that does not wait. *)
Lemma wp_out_writer {A} (p : prog (sendPath wsFrame) A) l kf ke fl rdr q slot w (Q : A -> wshare -> Prop) :
  respects path_still p ->
  wp pinv (fun _ _ => False) p (pwriter q slot 0 w) (fun a mt => Q a (WShare mt l 0 0 0 rdr (Owner fl) kf ke)) ->
  xwp (on_out p) (wwriter l kf ke fl rdr q slot w) Q.
Proof. intros Hr Hp. by apply (wp_out_blk _ _ _ _ _ _ (fun _ _ => False)). Qed.
(** A change of the way out that the writer makes. *)
Lemma ws_inv_path s t l kf ke fl rdr q slot w q' slot' w' F :
  inv s (wwriter l kf ke fl rdr q slot w ∙ F) -> path_still (wx_path s) t ->
  (forall F', pinv (wx_path s) (pwriter q slot 0 w ∙ F') -> pinv t (pwriter q' slot' 0 w' ∙ F')) ->
  inv (wset_path t s) (wwriter l kf ke fl rdr q' slot' w' ∙ F).
Proof.
  intros HI Hst Hp. pose proof (ws_path_get _ _ _ _ _ _ _ _ HI) as HP. cbn in HP.
  by apply (ws_path_put _ _ _ _ _ _ (wwriter l kf ke fl rdr q slot w) F t (pwriter q' slot' 0 w') HI Hst), Hp.
Qed.
Lemma wset_path_id s : wset_path (wx_path s) s = s.
Proof. by destruct s. Qed.
Lemma ws_inv_token s l kf ke fl rdr q slot w w' F :
  inv s (wwriter l kf ke fl rdr q slot w ∙ F) ->
  (forall F', pinv (wx_path s) (pwriter q slot 0 w ∙ F') -> pinv (wx_path s) (pwriter q slot 0 w' ∙ F')) ->
  inv s (wwriter l kf ke fl rdr q slot w' ∙ F).
Proof. intros HI Hp. rewrite <- (wset_path_id s). by eapply ws_inv_path. Qed.

(** ** The write in flight *)
Lemma wwriter_get s l kf ke fl rdr q slot w F :
  inv s (wwriter l kf ke fl rdr q slot w ∙ F) -> wx_ctx s = fl /\ wh_w F = Nobody.
Proof. intros HI. pose proof (xi_w _ _ _ _ _ _ _ HI) as Hw. cbn in Hw. by destruct (wh_w F). Qed.
Lemma wp_ws_begin l kf ke rdr q slot w (Q : unit -> wshare -> Prop) :
  Q tt (wwriter l kf ke true rdr q slot w) -> xwp ws_begin (wwriter l kf ke false rdr q slot w) Q.
Proof.
  intros HQ. apply wp_atomically. intros s F HI. exists (wwriter l kf ke true rdr q slot w). split; [|done].
  destruct (wwriter_get _ _ _ _ _ _ _ _ _ _ HI) as [Ec EF].
  assert (wx_pending s = false) as Ep.
  { pose proof (xi_pending _ _ _ _ _ _ _ HI) as Hp. destruct (wx_pending s); [|done]. rewrite Hp in Ec; done. }
  destruct HI. rewrite Ep in *. split; cbn in *; try done. by rewrite EF.
Qed.
(** The writer takes over the failure of the reader. *)
Lemma wp_ws_end l kf ke q slot w (Q : option error * bool -> wshare -> Prop) :
  (forall e b, Q (e, b) (wwriter l kf ke false (Nat.b2n b) q slot w)) ->
  xwp ws_end (wwriter l kf ke true 0 q slot w) Q.
Proof.
  intros HQ. apply wp_atomically. intros s F HI. destruct (wwriter_get _ _ _ _ _ _ _ _ _ _ HI) as [Ec EF].
  eexists. split; [|apply HQ]. destruct HI. split; cbn in *; try done; [by rewrite EF|].
  destruct xi_rdr as [? Ha]. split; [|intros E; apply Ha]; lia.
Qed.
Lemma wp_ws_end_over l kf ke q slot w (Q : option error * bool -> wshare -> Prop) :
  (0 < ke)%nat -> (forall r, Q r (wwriter l kf ke false 0 q slot w)) ->
  xwp ws_end (wwriter l kf ke true 0 q slot w) Q.
Proof.
  intros Hke HQ. apply wp_atomically. intros s F HI. destruct (wwriter_get _ _ _ _ _ _ _ _ _ _ HI) as [Ec EF].
  assert (asked (ls_life (wx_life s))) as Ha.
  { eapply ended_asked; [exact HI|]. apply (xi_ke _ _ _ _ _ _ _ HI). cbn. lia. }
  eexists. split; [|apply HQ]. destruct HI. split; cbn in *; try done; [by rewrite EF|].
  destruct xi_rdr. split; [lia|done].
Qed.
Lemma wp_ws_write_next req l kf ke q slot n dr (Q : option error * bool -> wshare -> Prop) :
  (forall x, Q (None, x) (wwriter l kf ke true 0 q slot (PBusy n req PWrote dr))) ->
  (forall e x, Q (Some e, x) (wwriter l kf ke true 0 q slot (PBusy n req PFailed dr))) ->
  xwp (write_next io (rq_item req)) (wwriter l kf ke true 0 q slot (PBusy n req PFresh dr)) Q.
Proof.
  intros HQ HE. apply wp_section. intros s F s' r HI.
  assert (forall t w, inv (wset_path t s) (wwriter l kf ke true 0 q slot w ∙ F) ->
    inv (wset_writes (S (wx_writes s)) (wset_path t s)) (wwriter l kf ke true 0 q slot w ∙ F)) as Hw.
  { intros t w []. by split. }
  destruct (io (wx_writes s)) as [[e|] x]; intros [= <- <-].
  - eexists. split; [|apply HE]. apply Hw. eapply ws_inv_path; [exact HI|by apply still_quiet|].
    intros F' HP. by apply path_inv_failed.
  - eexists. split; [|apply HQ]. apply Hw. eapply ws_inv_path; [exact HI|by apply still_quiet|].
    intros F' HP. by apply path_inv_wrote.
Qed.

(** ** One request *)
Lemma wp_wgive_back {B} (req : request wsFrame) l kf ke fl rdr q w (Q : B -> wshare -> Prop) (p : prog wsSession B) :
  0 <= rq_bytes req -> xwp p (wwriter l kf ke fl rdr q 0 w) Q ->
  xwp (on_out (path_release (rq_bytes req)) ≫= fun _ => on_out releaseSlot ≫= fun _ => p)
    (wwriter l kf ke fl rdr (req_toks (rq_bytes req) ⊎ q) 1 w) Q.
Proof.
  intros Hb Hp. apply wp_bind, wp_out_writer; [apply still_quota|].
  eapply (wp_path_release lim bound total wq (frame_ok env rnd) lim_ok); [done..|].
  apply wp_bind, wp_out_writer; [auto with still|]. by apply (wp_releaseSlot _ _ _ _ _ _ 0%nat).
Qed.
Lemma wp_wanswer req r l kf ke fl rdr q n ph dr (Q : unit -> wshare -> Prop) :
  (r = None -> ph = PWrote) -> Q tt (wwriter l kf ke fl rdr q 0 (PIdle (S n) (is_pwrote ph) dr false)) ->
  xwp (on_out (path_answer req r)) (wwriter l kf ke fl rdr q 0 (PBusy n req ph dr)) Q.
Proof. intros Hr HQ. apply wp_out_writer; [auto with still|]. by apply wp_path_answer. Qed.

(** Where a request, or the loop, leaves a writer that does not go on: the session has ended. *)
Definition wleaves (q : gmultiset Quota.tok) (m : wshare) : Prop :=
  exists l kf ke n clean dr em, m = wwriter l kf ke false 0 q 0 (PIdle n clean dr em) /\ settled l /\ (0 < ke)%nat.
Lemma wleaves_intro l kf ke q n clean dr em :
  settled l -> (0 < ke)%nat -> wleaves q (wwriter l kf ke false 0 q 0 (PIdle n clean dr em)).
Proof. intros. by exists l, kf, ke, n, clean, dr, em. Qed.
Lemma wp_wclose cause l kf ke rdr q n clean dr em (Q : unit -> wshare -> Prop) :
  settled l -> Quota.idle q -> (forall m, wleaves q m -> Q tt m) ->
  xwp (initiateClose cause) (wwriter l kf ke false rdr q 0 (PIdle n clean dr em)) Q.
Proof.
  intros Hl Hi HQ. apply wp_ws_initiateClose; [by apply wwriter_calm|]. intros l' Hl'.
  apply HQ, (wleaves_intro l' kf (S ke)); [done|lia].
Qed.

Lemma wp_ws_handleOutbound (req : request wsFrame) l kf ke q n dr (Q : bool -> wshare -> Prop) :
  settled l -> Quota.idle q -> 0 <= rq_bytes req ->
  Q true (wwriter l kf ke false 0 q 0 (PIdle (S n) true dr false)) -> (forall m, wleaves q m -> Q false m) ->
  xwp (handleOutbound pf env io req) (wwriter l kf ke false 0 (req_toks (rq_bytes req) ⊎ q) 1 (PBusy n req PFresh dr)) Q.
Proof.
  intros Hl Hi Hb HT HF. apply wp_bind, wp_ws_begin. apply wp_bind, wp_ws_write_next; [intros x|intros e x]; cbn [fst snd];
    (apply wp_bind, wp_wlook; intros tc).
  - apply wp_bind, wp_ws_end. intros e b. apply wp_wgive_back; [done|]. apply wp_bind, wp_wnote; [done|]. intros s.
    apply wp_bind, wp_wanswer; [done|]. cbn [snd]. destruct b; [|by apply wp_ret].
    eapply wp_bind, wp_wclose; [done..|]. intros m Hm. by apply wp_ret, HF.
  - apply wp_bind, wp_wlook. intros [pe b]. apply wp_wgive_back; [done|]. cbn [fst snd]. cbv zeta.
    apply wp_bind, wp_ws_abort; [done|by apply wwriter_calm|]. intros won l' Hl'.
    apply wp_bind, (wp_ws_end_over l' kf (S ke)); [lia|]. intros r'.
    assert (forall r, xwp (on_out (path_answer req (Some r)) ≫= fun _ => mret false)
      (wwriter l' kf (S ke) false 0 q 0 (PBusy n req PFailed dr)) Q) as Hend.
    { intros r. apply wp_bind, wp_wanswer; [done|]. apply wp_ret, HF, wleaves_intro; [done|lia]. }
    apply wp_bind. destruct (write_cause _ _ _ _ _ _) as [oe|], won; try (by apply wp_ret);
      (apply wp_bind, wp_wlook; intros [t|]; by apply wp_ret).
Qed.

(** ** The loop *)
Lemma wp_ws_no_fuel {B} l kf ke fl rdr q slot n clean dr em (Q : B -> wshare -> Prop) :
  (total < n)%nat -> xwp stuck (wwriter l kf ke fl rdr q slot (PIdle n clean dr em)) Q.
Proof.
  intros Ht. apply wp_stuck. intros s F HI. exfalso. pose proof (ws_path_get _ _ _ _ _ _ _ _ HI) as HP.
  apply path_no_fuel in HP. lia.
Qed.
Lemma wp_ws_next_left l kf ke q n clean em (Q : option (request wsFrame) -> wshare -> Prop) :
  Q None (wwriter l kf ke false 0 q 0 (PIdle n clean true true)) ->
  (forall req, 0 <= rq_bytes req -> Q (Some req)
     (wwriter l kf ke false 0 (req_toks (rq_bytes req) ⊎ q) 1 (PBusy n req (if clean then PFresh else PFailed) true))) ->
  xwp (on_out path_next) (wwriter l kf ke false 0 q 0 (PIdle n clean true em)) Q.
Proof. intros HN HS. apply wp_out_writer; [auto with still|]. by apply wp_path_next. Qed.

Lemma wp_fail_rest e fuel l kf ke q n clean em (Q : unit -> wshare -> Prop) :
  (total < n + fuel)%nat -> (forall n' clean', Q tt (wwriter l kf ke false 0 q 0 (PIdle n' clean' true true))) ->
  xwp (fail_rest (Some e) fuel) (wwriter l kf ke false 0 q 0 (PIdle n clean true em)) Q.
Proof.
  intros Hf HQ. revert n clean em Hf. induction fuel as [|fuel IH]; intros n clean em Hf;
    [apply wp_ws_no_fuel; lia|]. cbn [fail_rest].
  apply wp_bind, wp_ws_next_left; [by apply wp_ret|]. intros req Hb. apply wp_wgive_back; [done|].
  apply wp_bind, wp_wanswer; [done|]. apply IH. lia.
Qed.
Lemma wp_ws_drain fuel l kf ke q n em (Q : unit -> wshare -> Prop) :
  settled l -> Quota.idle q -> (0 < kf)%nat -> (total < n + fuel)%nat -> (forall m, wleaves q m -> Q tt m) ->
  xwp (writer_drain pf env io ws_close fuel) (wwriter l kf ke false 0 q 0 (PIdle n true true em)) Q.
Proof.
  intros Hl Hi Hk Hf HQ. revert n em Hf. induction fuel as [|fuel IH]; intros n em Hf;
    [apply wp_ws_no_fuel; lia|]. cbn [writer_drain]. apply wp_bind, wp_ws_next_left.
  - apply wp_bind, wp_wnote; [done|]. intros s. apply wp_ws_finish; [by apply wwriter_calm|done|]. intros l' Hl'.
    apply HQ, (wleaves_intro l' kf (S ke)); [done|lia].
  - intros req Hb. apply wp_bind, wp_ws_handleOutbound; [done..| |].
    + apply IH. lia.
    + intros m Hm. by apply wp_ret, HQ.
Qed.

Lemma elem_ws_request s s' e :
  (s', e) ∈ next_request s -> exists req rest, sp_queue (wx_path s) = req :: rest /\
    s' = wset_path (put_queue rest (wx_path s)) s /\ e = WriterRequest req.
Proof.
  intros ([t e'] & [= -> ->] & (req & rest & ? & -> & ->)%elem_path_dequeue)%list_elem_of_fmap. eauto.
Qed.
Lemma ws_request_nil s : next_request s = [] -> sp_queue (wx_path s) = [].
Proof. unfold next_request. intros E%fmap_nil_inv. by eapply path_dequeue_nil. Qed.

(** One round: [closing], a request, or the signal [sig]. *)
Lemma wp_ws_next_event cases (sig : wsSession -> bool) l kf ke q n (Q : writer_event -> wshare -> Prop) :
  settled l -> Quota.idle q ->
  (forall s s' e, (s', e) ∈ cases s -> (path_closing (wx_path s) = true /\ s' = s /\ e = WriterClosing) \/
     (sig s = true /\ s' = s /\ e = WriterSignal) \/ (s', e) ∈ next_request s) ->
  (forall s, cases s = [] -> path_closing (wx_path s) = false /\ next_request s = [] /\
     (signal_seen FullReq s = false \/ g_drained (sp_gate (wx_path s)) = false)) ->
  (forall m, wleaves q m -> Q WriterClosing m) ->
  (forall req, 0 <= rq_bytes req -> Q (WriterRequest req)
     (wwriter l kf ke false 0 (req_toks (rq_bytes req) ⊎ q) 1 (PBusy n req PFresh false))) ->
  (forall s F, inv s (wwriter l kf ke false 0 q 0 (PIdle n true false false) ∙ F) -> sig s = true ->
     exists m', inv s (m' ∙ F) /\ Q WriterSignal m') ->
  xwp (select cases) (wwriter l kf ke false 0 q 0 (PIdle n true false false)) Q.
Proof.
  intros Hl Hi Hc Hb HC HR HS. apply wp_select. intros s F HI. split.
  - intros (Hcl & Hq%ws_request_nil & Hd)%Hb. split; [by apply wwriter_quiet|]. do 3 right. left.
    split; [done|]. split; [done|]. split; [done|]. split; [|done]. unfold idle_writer. split_and!; try done. cbn. eauto.
  - intros s' e [(Hcl & -> & ->)|[(Hs & -> & ->)|(req & rest & E & -> & ->)%elem_ws_request]]%Hc.
    + eexists. split; [|apply HC, (wleaves_intro l kf (S ke)); [done|lia]].
      by apply (ws_inv_ends _ _ _ _ _ s _ F HI), (closing_ended _ _ _ _ _ _ _ HI).
    + eauto.
    + pose proof (ws_path_get _ _ _ _ _ _ _ _ HI) as HP.
      destruct (path_inv_dequeue _ _ _ _ _ _ _ _ _ _ _ _ _ _ _ _ HP E) as [_ Hrq].
      eexists. split; [|by apply HR]. eapply ws_inv_path; [exact HI|by apply still_quiet|]. intros F' HP'.
      by destruct (path_inv_dequeue _ _ _ _ _ _ _ _ _ _ _ _ _ _ _ _ HP' E).
Qed.

Lemma wp_ws_graceful fuel0 fuel l kf ke q n (Q : unit -> wshare -> Prop) :
  settled l -> Quota.idle q -> (0 < kf)%nat -> (total < n + fuel)%nat -> (total < fuel0)%nat ->
  (forall m, wleaves q m -> Q tt m) ->
  xwp (writer_graceful pf env io ws_close fuel0 fuel) (wwriter l kf ke false 0 q 0 (PIdle n true false false)) Q.
Proof.
  intros Hl Hi Hk Hf Hf0 HQ. revert n Hf. induction fuel as [|fuel IH]; intros n Hf;
    [apply wp_ws_no_fuel; lia|]. cbn [writer_graceful].
  apply wp_bind, (wp_ws_next_event _ (fun s => gate_done (sp_gate (wx_path s)))); [done..| | | | |].
  - intros s s' e. rewrite !elem_of_app, !elem_ready. naive_solver.
  - intros s [?%ready_nil [? ?%ready_nil]%app_eq_nil]%app_eq_nil. auto.
  - intros m Hm. by apply wp_ret, HQ.
  - intros req Hb. apply wp_bind, wp_ws_handleOutbound; [done..|apply IH; lia|]. intros m Hm. by apply wp_ret, HQ.
  - intros s F HI Hg. exists (wwriter l kf ke false 0 q 0 (PIdle n true true false)). split.
    + eapply ws_inv_token; [exact HI|]. intros F' HP. eapply path_inv_idle; [exact HP|by right|done].
    + apply wp_ws_drain; [done..|lia|done].
Qed.
Lemma wp_ws_main fuel0 fuel l kf ke q n (Q : unit -> wshare -> Prop) :
  settled l -> Quota.idle q -> (total < n + fuel)%nat -> (total < fuel0)%nat -> (forall m, wleaves q m -> Q tt m) ->
  xwp (writer_main pf env io ws_close fuel0 fuel) (wwriter l kf ke false 0 q 0 (PIdle n true false false)) Q.
Proof.
  intros Hl Hi Hf Hf0 HQ. revert n Hf. induction fuel as [|fuel IH]; intros n Hf;
    [apply wp_ws_no_fuel; lia|]. cbn [writer_main]. apply wp_bind, (wp_ws_next_event _ (signal_seen FullReq)); [done..| | | | |].
  - intros s s' e. rewrite !elem_of_app, !elem_ready. naive_solver.
  - intros s [?%ready_nil [?%ready_nil ?]%app_eq_nil]%app_eq_nil. auto.
  - intros m Hm. by apply wp_ret, HQ.
  - intros req Hb. apply wp_bind, wp_ws_handleOutbound; [done..|apply IH; lia|]. intros m Hm. by apply wp_ret, HQ.
  - intros s F HI Hs. exists (wwriter l (S kf) ke false 0 q 0 (PIdle n true false false)). split.
    + apply (ws_inv_asks _ _ _ _ _ s _ F HI). by eapply full_seen.
    + apply wp_ws_graceful; [done..|lia|lia|done|done].
Qed.

(** ** The goroutines *)
Lemma wp_ws_await_gate l kf ke q n clean dr em (Q : unit -> wshare -> Prop) :
  settled l -> Quota.idle q -> (0 < ke)%nat -> Q tt (wwriter l kf ke false 0 q 0 (PIdle n clean true em)) ->
  xwp (on_out (lift gate_in await_done)) (wwriter l kf ke false 0 q 0 (PIdle n clean dr em)) Q.
Proof.
  intros Hl Hi Hke HQ s F HI. cbn. unfold gate_done. destruct (g_drained (sp_gate (wx_path s))) eqn:E; cbn.
  - split; [done|]. intros o ->%list_elem_of_singleton. rewrite put_gate_id, wset_path_id. eexists. split; [|exact HQ].
    eapply ws_inv_token; [exact HI|]. intros F' HP. eapply path_inv_idle; [exact HP|by right|].
    by destruct (pwriter_get _ _ _ _ _ _ _ _ _ _ _ HP) as [(_ & _ & _ & _ & He) _].
  - split; [|by intros o ?%elem_of_nil]. intros _. split; [by apply wwriter_quiet|]. do 4 right. left.
    by split_and!.
Qed.
Lemma wp_ws_writer_goroutine n :
  (total < n)%nat ->
  xwp (loop (writerLoop pf env io ws_close n)) (wwriter ∅ 0 0 false 0 ∅ 0 (PIdle 0 true false false)) (fun _ => ws_fin).
Proof.
  intros Hn. assert (Quota.idle ∅) as Hi by (intros c x; multiset_solver).
  apply wp_bind, wp_bind, wp_ws_main; [apply settled_nil|done..|].
  intros m (l & kf & ke & n' & clean & dr & em & -> & Hl & Hke).
  apply wp_bind, wp_ws_await_gate; [done..|]. apply wp_bind, wp_bind, wp_ws_terminal_or_closed. intros e.
  apply wp_fail_rest; [lia|]. intros n2 clean2. apply wp_atomically. intros s F HI.
  exists (WShare (pwriter ∅ 0 0 (PIdle n2 clean2 true true)) l 0 0 0 0 Nobody kf ke). split.
  - destruct (wwriter_get _ _ _ _ _ _ _ _ _ _ HI) as [Ec EF].
    assert (ended (ls_life (wx_life s))) as He by (apply (xi_ke _ _ _ _ _ _ _ HI); cbn; lia).
    destruct HI. split; try done. cbn. by rewrite EF.
  - apply (wp_out_blk _ _ _ _ _ _ (fun _ _ => False)); [auto with still|done|].
    apply wp_path_writer_done; [done|]. split; [by split_and!|]. by split_and!.
Qed.

End writer.

(** ** The other goroutines *)
Section loops.
Context (lim : site -> Z) (bound total : nat) (wq : Z) (env : wsEnv) (rnd : nat -> bytes).
Hypothesis lim_ok : forall c, 0 <= lim c < 2 ^ 62.
Context `{WebSocketLib} (pf : platform) (role : ws_role).
Hypothesis role_own : own_role role = true.
Abbreviation inv := (ws_inv lim bound total wq (frame_ok env rnd)).
Abbreviation xwp := (wp inv (ws_blk role)).

(** A loop that is not the writer; [rdr] is 1 for the reader. *)
Definition wlooper (l : gmultiset Lifecycle.tok) (kf ke rdr : nat) : wshare :=
  WShare (PShare ∅ (0, 0)%nat 0 0 ∅ 1 0 0 0 0 0 Nobody) l 0 0 0 rdr Nobody kf ke.
Lemma wlooper_rest l kf ke rdr : at_rest (wh_p (wlooper l kf ke rdr)).
Proof. split_and!; [done..|]. intros c x. multiset_solver. Qed.
Lemma wlooper_calm l kf ke rdr : settled l -> calm_ws (wlooper l kf ke rdr).
Proof. intros Hl. pose proof (wlooper_rest l kf ke rdr). by split_and!. Qed.
(** How a loop ends: the reader has been replaced, or its absence is justified. *)
Definition wloop_over (m : wshare) : Prop :=
  exists l kf ke rdr, m = wlooper l kf ke rdr /\ settled l /\ (rdr = 0%nat \/ (0 < kf)%nat \/ (0 < ke)%nat).
Lemma wloop_over_intro l kf ke rdr :
  settled l -> rdr = 0%nat \/ (0 < kf)%nat \/ (0 < ke)%nat -> wloop_over (wlooper l kf ke rdr).
Proof. intros. by exists l, kf, ke, rdr. Qed.
Lemma wp_wloop_end p m :
  xwp p m (fun _ => wloop_over) -> xwp (loop p) m (fun _ => ws_fin).
Proof.
  intros Hp. apply wp_bind. eapply wp_mono; [|exact Hp]. intros [] m' (l & kf & ke & rdr & -> & Hl & Hr).
  apply wp_lift_section. intros s F t b HI [= <- <-]. pose proof (wlooper_rest l kf ke 0).
  assert (inv s (wlooper l kf ke 0 ∙ F)) as HI'.
  { destruct Hr as [->|Hk]; [done|]. by apply (ws_inv_no_reader _ _ _ _ _ s _ F HI). }
  exists (wown_p (PShare ∅ (0, 0)%nat 0 0 ∅ 0 0 0 0 0 0 Nobody) (wlooper l kf ke 0)). split.
  - apply (ws_path_put _ _ _ _ _ _ _ _ _ _ HI'); [by apply still_quiet|].
    pose proof (ws_path_get _ _ _ _ _ _ _ _ HI') as HP. destruct HP. split; try done. cbn in *. lia.
  - split; [by split_and!|]. by split_and!.
Qed.
Lemma wp_wloop_close cause l kf ke rdr :
  settled l -> xwp (initiateClose cause) (wlooper l kf ke rdr) (fun _ => wloop_over).
Proof.
  intros Hl. apply wp_ws_initiateClose; [by apply wlooper_calm|]. intros l' Hl'.
  apply (wloop_over_intro l' kf (S ke) 0); [done|]. by left.
Qed.
Lemma wp_wloop_wait l kf ke rdr (Q : unit -> wshare -> Prop) :
  settled l -> rdr = 0%nat \/ role = RReader -> Q tt (wlooper l kf ke rdr) -> xwp (on_out path_await_closing) (wlooper l kf ke rdr) Q.
Proof.
  intros Hl Hr HQ. apply wp_out; [auto with still|by apply wlooper_calm|done|done|].
  apply wp_path_await_closing; [done..|apply wlooper_rest|done].
Qed.
Lemma wp_isClosing l kf ke rdr (Q : bool -> wshare -> Prop) :
  Q false (wlooper l kf ke rdr) -> Q true (wlooper l kf (S ke) 0) -> xwp isClosing (wlooper l kf ke rdr) Q.
Proof.
  intros HF HT. apply wp_atomically. intros s F HI. cbn [fst snd].
  destruct (path_closing (wx_path s)) eqn:Ec; [|by exists (wlooper l kf ke rdr)].
  eexists. split; [|exact HT]. apply (ws_inv_ends _ _ _ _ _ s _ F HI). by eapply closing_ended.
Qed.

(** *** The reader *)
Lemma wp_handshake err l kf ke (Q : bool -> wshare -> Prop) :
  Q false (wlooper l kf ke 1) -> (forall b, Q b (wlooper l (S kf) ke 1)) ->
  xwp (handshake_over err) (wlooper l kf ke 1) Q.
Proof.
  intros HF HT. apply wp_bind, wp_atomically. intros s F HI. cbn [fst snd].
  destruct (signal_seen FullReq s) eqn:Es; cbn [negb]; [|eexists; split; [exact HI|by apply wp_ret]].
  exists (wlooper l (S kf) ke 1). split; [apply (ws_inv_asks _ _ _ _ _ s _ F HI); by eapply full_seen|].
  apply wp_bind, wp_wlook. intros []; [by apply wp_ret|]. destruct (isNormalWSClose _); [by apply wp_ret|].
  by apply wp_wlook.
Qed.
Lemma wp_deferRead err l kf ke (Q : bool -> wshare -> Prop) :
  Q false (wlooper l kf ke 1) -> Q true (wlooper l kf ke 0) -> xwp (deferRead err) (wlooper l kf ke 1) Q.
Proof.
  intros HF HT. apply wp_section. intros s F s' b HI. destruct (wx_ctx s) eqn:Ec; cbn [negb]; [|intros [= <- <-]; by eauto].
  pose proof (xi_rdr _ _ _ _ _ _ _ HI) as [Hr _]. cbn in Hr. destruct (wx_pending s) eqn:Ep; [cbn in Hr; lia|].
  intros [= <- <-]. eexists. split; [|exact HT]. destruct HI. rewrite Ep in *. split; cbn in *; try done.
  split; lia.
Qed.
Lemma wp_read_broken err expired l kf ke :
  settled l -> xwp (read_broken pf env err expired) (wlooper l kf ke 1) (fun _ => wloop_over).
Proof.
  intros Hl. apply wp_bind, wp_wlook. intros [c|]; [by apply wp_wloop_close|]. apply wp_bind, wp_deferRead.
  - by apply wp_wloop_close.
  - apply wp_ret, wloop_over_intro; [done|]. by left.
Qed.
Lemma wp_read_failed err expired l kf ke :
  settled l -> xwp (read_failed pf env err expired) (wlooper l kf ke 1) (fun _ => wloop_over).
Proof.
  intros Hl. assert (forall kf', xwp (read_idle env err ≫= fun idle : bool =>
    if idle then initiateClose (operationalError pf env OpRead (TimeoutError TimeoutReadIdle (Some err)) hintNone)
    else read_broken pf env err expired) (wlooper l kf' ke 1) (fun _ => wloop_over)) as Hrest.
  { intros kf'. apply wp_bind. unfold read_idle.
    destruct (we_readIdle env && isTimeoutFailure (Some err)); [|by apply wp_ret, wp_read_broken].
    apply wp_bind, wp_wlook. intros []; apply wp_ret; [by apply wp_read_broken|by apply wp_wloop_close]. }
  apply wp_bind, wp_handshake; [apply Hrest|]. intros []; [|apply Hrest].
  apply wp_mark; [auto|]. apply wloop_over_intro; [done|]. right. left. lia.
Qed.
Lemma wp_reader_rounds evs last l kf ke :
  settled l -> role = RReader -> xwp (reader_rounds pf env evs last) (wlooper l kf ke 1) (fun _ => wloop_over).
Proof.
  intros Hl Hrole. induction evs as [|[typ payload|err expired] evs IH]; cbn [reader_rounds].
  - apply wp_bind, wp_wloop_wait; [done|by right|]. by apply wp_read_failed.
  - destruct (ws_decode (we_codec env) typ payload) as [m|e].
    + apply wp_bind, wp_wnote; [done|]. intros s. apply wp_bind, wp_isClosing; [exact IH|].
      apply wp_ret, wloop_over_intro; [done|]. by left.
    + apply wp_bind, wp_wnote; [done|]. intros s. by apply wp_wloop_close.
  - by apply wp_read_failed.
Qed.
Lemma wp_ws_reader_goroutine evs last :
  role = RReader -> xwp (loop (readerLoop pf env evs last)) (wlooper ∅ 0 0 1) (fun _ => ws_fin).
Proof.
  intros Hrole. apply wp_wloop_end, wp_bind, wp_isClosing; [by apply wp_reader_rounds; [apply settled_nil|]|].
  apply wp_ret, wloop_over_intro; [apply settled_nil|]. by left.
Qed.

(** *** Pings, the activity clock, the finalizer, the close timeout *)
Lemma wp_pingLoop pings l kf ke :
  settled l -> xwp (pingLoop pf env pings) (wlooper l kf ke 0) (fun _ => wloop_over).
Proof.
  intros Hl. assert (wloop_over (wlooper l kf ke 0)) as Hover by (apply wloop_over_intro; [done|by left]).
  induction pings as [|r pings IH]; cbn [pingLoop]; apply wp_bind, wp_select; intros s F HI; split.
  - intros [Hc%ready_nil _]%app_eq_nil. split; [by apply wlooper_calm|]. left. split; [done|]. split; [by left|].
    split; [done|]. right. split; [apply wlooper_rest|]. right. split; [done|]. by left.
  - intros s' b Hin. exists (wlooper l kf ke 0).
    assert (s' = s) as -> by (rewrite !elem_of_app, !elem_ready in Hin; naive_solver). split; [done|]. by apply wp_ret.
  - intros [_ [_ ?%ready_nil]%app_eq_nil]%app_eq_nil. done.
  - intros s' b Hin. exists (wlooper l kf ke 0).
    assert (s' = s) as -> by (rewrite !elem_of_app, !elem_ready in Hin; naive_solver). split; [done|].
    destruct b; cbn [negb]; [|by apply wp_ret]. destruct r; [by apply wp_wloop_close|done].
Qed.
Lemma wp_ws_ping_goroutine pings : xwp (loop (pingLoop pf env pings)) (wlooper ∅ 0 0 0) (fun _ => ws_fin).
Proof. apply wp_wloop_end, wp_pingLoop, settled_nil. Qed.
Lemma wp_ws_watcher_goroutine k : xwp (loop (watcher_tail pf env k)) (wlooper ∅ 0 0 0) (fun _ => ws_fin).
Proof.
  apply wp_wloop_end. destruct k; cbn [watcher_tail]; [apply wp_wloop_close, settled_nil|].
  apply wp_wloop_wait; [apply settled_nil|by left|]. apply wloop_over_intro; [apply settled_nil|by left].
Qed.

Definition wfinal (l : gmultiset Lifecycle.tok) (ke : nat) : wshare :=
  WShare (PShare ∅ (0, 0)%nat 0 0 ∅ 0 1 0 0 0 0 Nobody) l 0 0 0 0 Nobody 0 ke.
Lemma wp_ws_finalizer : xwp finalizer (wfinal ∅ 0) (fun _ => ws_fin).
Proof.
  assert (forall l ke, at_rest (wh_p (wfinal l ke))) as Hr by (intros l ke; split_and!; [done..|]; intros c x; multiset_solver).
  pose proof settled_nil as Hl. apply wp_bind, wp_out; [auto with still|by split_and!|done|by left|].
  apply wp_path_loops_wait; [done..|apply (Hr ∅ 0%nat)|done|].
  apply wp_bind, wp_wlook. intros c.
  assert (forall l ke, settled l -> xwp (on_out path_close_done) (wfinal l ke) (fun _ => ws_fin)) as Hend.
  { intros l ke Hs. apply (wp_out_blk _ _ _ _ _ _ (fun _ _ => False)); [auto with still|done|].
    apply wp_path_close_done; [done|]. pose proof (Hr l ke). split; [by split_and!|]. by split_and!. }
  apply wp_bind. destruct c; [by apply wp_ret, (Hend ∅ 0%nat)|].
  apply wp_ws_initiateClose; [pose proof (Hr ∅ 0%nat); by split_and!|]. intros l Hs. by apply (Hend l 1%nat).
Qed.

Definition wnone (l : gmultiset Lifecycle.tok) (ke : nat) : wshare :=
  WShare gnil l 0 0 0 0 Nobody 0 ke.
Lemma wnone_fin l ke : settled l -> ws_fin (wnone l ke).
Proof.
  intros Hl. assert (Quota.idle ∅) by (intros c x; multiset_solver). split; [by split_and!|]. by split_and!.
Qed.
Lemma wnone_blk s : role = RWatch -> wx_watch s = false \/ sp_done (wx_path s) = false -> ws_blk role s (wnone ∅ 0).
Proof.
  intros Hrole Hw. destruct (wnone_fin ∅ 0 settled_nil) as (? & ? & _). split; [done|]. do 5 right. split_and!; try done.
  right. by split.
Qed.
Lemma wp_watch_started fires : role = RWatch -> xwp (watch_started pf env fires) (wnone ∅ 0) (fun _ => ws_fin).
Proof.
  intros Hrole. pose proof (wnone_fin ∅ 0 settled_nil) as Hfin. pose proof wnone_blk as Hblk.
  apply wp_bind, wp_select. intros s F HI. split; [intros Hn%ready_nil; auto|].
  intros s' [] (_ & -> & _)%elem_ready. eexists. split; [exact HI|].
  apply wp_bind, wp_select. intros s1 F1 HI1. split; [intros [_ [_ ?%ready_nil]%app_eq_nil]%app_eq_nil; auto|].
  intros s' b Hin. exists (wnone ∅ 0).
  assert (s' = s1) as -> by (rewrite !elem_of_app, !elem_ready in Hin; naive_solver). split; [done|].
  destruct b; [|by apply wp_ret].
  apply wp_bind, wp_select. intros s2 F2 HI2. split; [intros [_ [_ ?%ready_nil]%app_eq_nil]%app_eq_nil; auto|].
  intros s' b Hin2. exists (wnone ∅ 0).
  assert (s' = s2) as -> by (rewrite !elem_of_app, !elem_ready in Hin2; naive_solver). split; [done|].
  destruct b; [|by apply wp_ret]. apply wp_bind, wp_ws_abort; [done| |].
  - destruct Hfin as (? & (? & ? & _) & _). by split_and!.
  - intros r l Hl. by apply wp_ret, (wnone_fin l 1%nat).
Qed.
End loops.
