(* ===== verification/WebsocketTheorems.v ===== *)
(** * WebsocketTheorems: every interleaving of a WebSocket session

    The properties of every reachable state of every pool made of the goroutines of one
    WebSocket session and any number of callers. *)
From S2P Require Import Prelude Conc Kinds Errors Classify Message Gate Lifecycle Quota SendPath SendPathInv SendPathWriter.
From S2P Require Import Encoding Secure Endpoint NetAddr WsCodec Websocket WebsocketInv WebsocketProofs WebsocketWriter.
Local Open Scope go_scope.
Local Open Scope Z_scope.

Definition ws_calls (opss : list (list ws_op)) : nat := length (mjoin opss).

Section reachable.
Context `{WebSocketLib} (pf : platform) (env : wsEnv).
Context (cause_of : nat -> error) (rnd : nat -> bytes) (io : nat -> ws_io) (ws_close : option error) (qfuel : nat).
Context (wq qb qt : Z) (n : nat) (w : ws_world) (opss : list (list ws_op)).
Hypothesis wq_ok : 1 <= wq.
Hypothesis qb_ok : 0 <= qb < 2 ^ 62.
Hypothesis qt_ok : 0 <= qt < 2 ^ 62.
Hypothesis n_ok : (ws_calls opss < n)%nat.
Hypothesis qfuel_ok : (2 * ws_calls opss < qfuel)%nat.
Abbreviation lim := (limits_of (fun _ => qb) qt).
Abbreviation pinv := (path_inv (strict:=false) lim (2 * ws_calls opss) (ws_calls opss) wq (frame_ok env rnd)).
Abbreviation inv := (ws_inv lim (2 * ws_calls opss) (ws_calls opss) wq (frame_ok env rnd)).
Abbreviation own := (ws_goroutines pf env io ws_close n w).

Definition ws_start : pool wsSession :=
  ws_pool pf env cause_of rnd io ws_close qfuel wq qb qt n w opss.
(** Which goroutine is at a position of the pool. *)
Definition role_of (i : nat) : ws_role :=
  match i with
  | 0%nat => RWatch | 1%nat => RWriter | 2%nat => RReader
  | S (S (S j)) => if (j <? length own - 3)%nat then ROwn else RCaller
  end.

Lemma role_rest i : role_of (S (S (S i))) = ROwn \/ role_of (S (S (S i))) = RCaller.
Proof. unfold role_of. destruct (_ <? _)%nat; auto. Qed.
Lemma role_caller i : role_of (length own + i) = RCaller.
Proof.
  unfold ws_goroutines at 1. cbn [length Nat.add]. unfold role_of. destruct (_ <? _)%nat eqn:E; [|done].
  apply Nat.ltb_lt in E. unfold ws_goroutines in E. cbn [length] in E. lia.
Qed.
Lemma role_reader i : role_of i = RReader -> i = 2%nat.
Proof. destruct i as [|[|[|i]]]; try done. destruct (role_rest i); congruence. Qed.
Lemma role_watch i : role_of i = RWatch -> i = 0%nat.
Proof. destruct i as [|[|[|i]]]; try done. destruct (role_rest i); congruence. Qed.

Lemma ws_lim_ok c : 0 <= lim c < 2 ^ 62.
Proof. by destruct c. Qed.

(** ** The initial shares *)
Abbreviation credits := (copies Quota.Credit).
Definition wcaller (ops : list ws_op) : wshare := wclient ∅ 0 0 (credits (2 * length ops)) 0 0 (length ops) ∅ 0.
Definition ws_own_shares : list wshare :=
  wnone ∅ 0 :: wwriter ∅ 0 0 false 0 ∅ 0 (PIdle 0 true false false) :: wlooper ∅ 0 0 1 :: wfinal ∅ 0 ::
  (if ww_pings w then [wlooper ∅ 0 0 0] else []) ++ (if ww_watcher w then [wlooper ∅ 0 0 0] else []).
Lemma gsum_ws_callers (os : list (list ws_op)) :
  gsum (wcaller <$> os) = wclient ∅ 0 0 (credits (2 * ws_calls os)) 0 0 (ws_calls os) ∅ 0.
Proof.
  induction os as [|ops os IH].
  - unfold wclient, pclient, ws_calls, copies. cbn. reflexivity.
  - change (wcaller ops ∙ gsum (wcaller <$> os)
            = wclient ∅ 0 0 (credits (2 * ws_calls (ops :: os))) 0 0 (ws_calls (ops :: os)) ∅ 0).
    assert (ws_calls (ops :: os) = (length ops + ws_calls os)%nat) as -> by apply length_app.
    rewrite IH, Nat.mul_add_distr_l, <- copies_add. done.
Qed.
Lemma gsum_ws_first :
  gsum (ws_own_shares ++ (wcaller <$> opss)) =
  WShare (PShare (credits (2 * ws_calls opss)) (0, 0)%nat 0 (ws_calls opss) ∅ (ws_loops w)
     1 0 0 0 0 (Owner (PIdle 0 true false false))) ∅ 0 0 0 1 (Owner false) 0 0.
Proof.
  unfold ws_own_shares, ws_loops. destruct (ww_pings w), (ww_watcher w); cbn [app gsum foldr]; fold (gsum (wcaller <$> opss)).
  all: rewrite gsum_ws_callers; cbn -[copies gsum disj_union]; f_equal; f_equal; by rewrite ?(left_id_L ∅ (⊎)).
Qed.
Lemma ws_inv_start : inv ws_start.1 (gsum (ws_own_shares ++ (wcaller <$> opss))).
Proof.
  rewrite gsum_ws_first. split; cbn -[copies ws_loops Nat.mul]; try done; try lia.
  - apply path_inv_init; first [done|apply ws_lim_ok|lia].
  - apply life_inv_init.
  - by intros ?%elem_of_nil.
Qed.
Lemma ws_owns :
  owns_at inv (fun i => ws_blk (role_of i)) ws_fin ws_start.2 (ws_own_shares ++ (wcaller <$> opss)).
Proof.
  pose proof ws_lim_ok as Hlim. unfold ws_start, ws_pool, ws_own_shares. cbn [snd]. unfold ws_goroutines. cbn [app].
  apply owns_at_cons; [by apply wp_watch_started|]. apply owns_at_cons; [by apply wp_ws_writer_goroutine|].
  apply owns_at_cons; [by apply wp_ws_reader_goroutine|]. cbn [role_of].
  rewrite (app_comm_cons _ (wcaller <$> opss)).
  match goal with |- owns_at _ _ _ (?f :: ?ps ++ ?cs) _ => change (f :: ps ++ cs) with ((f :: ps) ++ cs) end.
  apply (owns_at_app _ (fun b => ws_blk (if b then ROwn else RCaller))).
  - constructor; [by apply wp_ws_finalizer|]. apply Forall2_app.
    + destruct (ww_pings w) as [ps|]; [|constructor]. constructor; [by apply wp_ws_ping_goroutine|constructor].
    + destruct (ww_watcher w) as [k|]; [|constructor]. constructor; [by apply wp_ws_watcher_goroutine|constructor].
  - apply Forall2_fmap_2, Forall_Forall2_diag, Forall_forall. intros ops _.
    apply wp_ws_client; [done..|]. apply wleft_intro; [apply settled_nil| |done].
    split; [by intros c x ?%elem_copies|by rewrite mult_copies].
Qed.
Lemma ws_ok c : rtc pstep ws_start c -> pool_ok_at inv (fun i => ws_blk (role_of i)) ws_fin c.
Proof.
  intros Hr. destruct ws_start as [s ts] eqn:E.
  eapply (wp_adequate_at inv _ ws_fin s ts (ws_own_shares ++ (wcaller <$> opss))); [..|exact Hr].
  - pose proof ws_inv_start as HI. rewrite E in HI. exact HI.
  - pose proof ws_owns as Ho. rewrite E in Ho. exact Ho.
Qed.

(** ** When nothing can move *)
Section stopped.
Context (s : wsSession) (ts : list (prog wsSession unit)) (ms : list wshare).
Hypothesis HI : inv s (gsum ms).
Hypothesis Hlen : length ts = length ms.
Hypothesis Hall : forall i t m, ts !! i = Some t -> ms !! i = Some m ->
  (t = Ret tt /\ ws_fin m) \/ (t <> Ret tt /\ ws_blk (role_of i) s m).
Abbreviation life := (ls_life (wx_life s)).
Abbreviation shares := (wh_p <$> ms).

Lemma ws_one m : m ∈ ms -> ws_fin m \/ exists i t, ts !! i = Some t /\ ms !! i = Some m /\ ws_blk (role_of i) s m.
Proof.
  intros [i Hi]%list_elem_of_lookup. destruct (lookup_lt_is_Some_2 ts i) as [t Ht]; [rewrite Hlen; by eapply lookup_lt_Some|].
  destruct (Hall i t m Ht Hi) as [[_ ?]|[_ ?]]; [by left|]. right. by exists i, t.
Qed.
Lemma ws_stopped_path : pinv (wx_path s) (gsum shares).
Proof. rewrite <- (sum_field wh_p) by done. apply (xi_path _ _ _ _ _ _ _ HI). Qed.
Lemma ws_quiet m : m ∈ ms -> quiet_ws m.
Proof. intros [[? _]|(i & t & _ & _ & [? _])]%ws_one; done. Qed.
Lemma ws_settled m : m ∈ shares -> settled_share m.
Proof.
  intros (k & -> & Hk)%list_elem_of_fmap.
  destruct (ws_one k Hk) as [(_ & [? _] & _)|(i & t & _ & _ & _ & [(_ & _ & ? & _)|[[? _]|[(_ & _ & [? _] & _)|[(_ & _ & _ & [? _] & _)|
    [(_ & _ & _ & _ & ? & _)|(_ & [? _] & _)]]]]])]; done.
Qed.
Lemma ws_stopped_once :
  sp_once (wx_path s) = path_closing (wx_path s) /\ sp_physical (wx_path s) = Z.of_nat (Nat.b2n (path_closing (wx_path s))).
Proof. apply (settled_sum _ _ _ _ _ _ _ ws_stopped_path ws_settled). Qed.
Lemma ws_no_second : ~ (sp_once (wx_path s) = true /\ sp_physical (wx_path s) = 0).
Proof. destruct ws_stopped_once as [-> ->]. by intros [-> ?]. Qed.
Lemma ws_no_encoder : wx_enc s = false.
Proof.
  pose proof (xi_enc _ _ _ _ _ _ _ HI) as He. rewrite (sum_none wh_enc) in He; [by destruct (wx_enc s)|done..|].
  intros m Hm. by destruct (ws_quiet m Hm) as (_ & ? & _).
Qed.
Lemma ws_life_settled : settled (wh_l (gsum ms)).
Proof.
  rewrite (sum_field wh_l) by done. apply settled_gsum, Forall_fmap, Forall_forall. intros m Hm%list_elem_of_In.
  by destruct (ws_quiet m Hm) as (? & _).
Qed.
(** An end has been followed by the close. *)
Lemma ws_ended : ended life -> path_closing (wx_path s) = true.
Proof.
  intros He. rewrite <- (proj1 ws_stopped_once). destruct ws_life_settled as [Hwon _].
  assert (l_goal life = closeGoalAbort -> sp_once (wx_path s) = true) as Habort.
  { intros Hg. apply (xi_log _ _ _ _ _ _ _ HI). pose proof (inv_won _ _ (xi_life _ _ _ _ _ _ _ HI)) as Hw.
    rewrite (proj1 (not_elem_of_multiplicity _ _) Hwon) in Hw. unfold aborted in Hw. rewrite decide_True in Hw by done.
    apply list_elem_of_In, (count_occ_In Bool.bool_dec). cbn in Hw. lia. }
  destruct He as [Hg|Ht]; [auto|]. destruct (xi_term _ _ _ _ _ _ _ HI Ht) as [_ [?|[?|Hd]]]; [auto|done|].
  rewrite (sum_none wh_term) in Hd; [lia|done..|]. intros m Hm. by destruct (ws_quiet m Hm) as (_ & _ & _ & ?).
Qed.
Lemma ws_knows m : m ∈ ms -> (0 < wh_ke m)%nat -> ended life.
Proof.
  intros Hm Hk. apply (xi_ke _ _ _ _ _ _ _ HI). destruct (gsum_elem _ _ Hm) as [F ->]. cbn. lia.
Qed.
Lemma ws_knows_asked m : m ∈ ms -> (0 < wh_kf m)%nat -> asked life.
Proof.
  intros Hm Hk. apply (xi_kf _ _ _ _ _ _ _ HI). destruct (gsum_elem _ _ Hm) as [F ->]. cbn. lia.
Qed.
Lemma ws_stopped_shares m :
  m ∈ shares -> path_fin m \/ path_blk true (wx_path s) m \/ idle_writer (wx_path s) m.
Proof.
  intros (k & -> & Hk)%list_elem_of_fmap. pose proof ws_no_second. pose proof ws_no_encoder.
  destruct (ws_one k Hk) as [(_ & ? & _)|(i & t & _ & _ & _ & [(_ & _ & ?%path_blk_own)|[(_ & _ & ? & ?)|[(_ & _ & _ & _ & ?)|
    [(_ & _ & _ & ? & _)|[(_ & _ & _ & Hke & Hs & Hr & _ & Hd)|(_ & ? & _)]]]]])]; auto.
  - by destruct ws_no_second.
  - congruence.
  - right. left. split; [done|]. right. split; [done|]. right. split; [done|]. right. left. split; [|done].
    by apply ws_ended, (ws_knows k).
Qed.
(** While the session is open, its writer waits for a request. *)
Lemma ws_open_writer :
  path_closing (wx_path s) = false -> exists i m, ms !! i = Some m /\ wh_w m = Owner false /\ idle_writer (wx_path s) (wh_p m) /\
    (signal_seen FullReq s = false \/ g_drained (sp_gate (wx_path s)) = false).
Proof.
  intros Hc. assert (~ ended life) as Hne by (intros He%ws_ended; congruence).
  pose proof (xi_w _ _ _ _ _ _ _ HI) as Hw. destruct (wh_w (gsum ms)) as [|fl|] eqn:Ew; [by destruct Hw| |done].
  destruct (sum_excl wh_w ms fl) as (m & Hm & Em); [done..|]. pose proof ws_no_second. pose proof ws_no_encoder.
  destruct (ws_one m Hm) as [(_ & _ & _ & Hn)|(i & t & _ & Hi & _ & [(Hn & _)|[(_ & _ & ? & ?)|[(Hn & _)|
    [(_ & ? & _ & ? & ?)|[(_ & _ & _ & Hke & _)|(Hn & _)]]]]])]; try (unfold no_writer in Hn; congruence).
  - by destruct ws_no_second.
  - by exists i, m.
  - by destruct Hne; eapply ws_knows.
Qed.
Lemma ws_alive : path_closing (wx_path s) = false -> ps_w (gsum shares) <> Nobody.
Proof.
  intros Hc. destruct (ws_open_writer Hc) as (i & m & Hi & _ & (_ & _ & _ & _ & k & dr & em & Ew) & _).
  destruct (gsum_elem shares (wh_p m)) as [F ->]; [apply list_elem_of_fmap_2; by eapply list_elem_of_lookup_2|].
  cbn. rewrite Ew. by destruct (ps_w F).
Qed.
(** ... and nobody has asked for its end. *)
Lemma ws_not_asked : path_closing (wx_path s) = false -> ~ asked life.
Proof.
  intros Hc Ha. assert (~ ended life) as Hne by (intros He%ws_ended; congruence).
  assert (l_goal life = closeGoalFull) as Hg.
  { unfold asked in Ha. destruct (l_goal life) eqn:E; cbn in Ha; try lia; [done|]. destruct Hne. by left. }
  assert (g_closed (sp_gate (wx_path s)) = true) as Hcl.
  { destruct (xi_full _ _ _ _ _ _ _ HI Hg) as [?|Hf]; [done|]. rewrite (sum_none wh_full) in Hf; [lia|done..|].
    intros m Hm. by destruct (ws_quiet m Hm) as (_ & _ & ? & _). }
  destruct ws_life_settled as [_ Hdebt].
  assert (signal_seen FullReq s = true) as Hseen.
  { apply bool_decide_eq_true. destruct (inv_must _ _ (xi_life _ _ _ _ _ _ _ HI) FullReq Ha) as [?|?]; [done|].
    by destruct (Hdebt FullReq). }
  pose proof (open_rest _ _ _ _ _ _ _ ws_stopped_path ws_stopped_shares ws_alive Hc wq_ok) as Hrest.
  destruct (ws_open_writer Hc) as (i & m & _ & _ & _ & [?|Hd]); [congruence|].
  destruct (pi_gate _ _ _ _ _ _ _ ws_stopped_path) as (Hact & Hdr & _).
  rewrite Hcl, Hact, (rest_gate _ Hrest) in Hdr. rewrite Hd in Hdr. done.
Qed.
(** The reader is still reading. *)
Lemma ws_open_reader t : path_closing (wx_path s) = false -> ts !! 2%nat = Some t -> t <> Ret tt.
Proof.
  intros Hc Ht. pose proof (ws_not_asked Hc) as Hna. pose proof ws_no_second. pose proof ws_no_encoder.
  assert (wx_pending s = false) as Hp.
  { destruct (wx_pending s) eqn:Ep; [|done]. pose proof (xi_pending _ _ _ _ _ _ _ HI Ep) as Ec.
    destruct (ws_open_writer Hc) as (i & m & Hi & Hw & _). pose proof (xi_w _ _ _ _ _ _ _ HI) as Hww.
    destruct (gsum_elem ms m) as [F EF]; [by eapply list_elem_of_lookup_2|]. rewrite EF in Hww. unfold ws_writer in Hww.
    cbn in Hww. rewrite Hw in Hww. destruct (wh_w F); cbn in Hww; done || congruence. }
  destruct (xi_rdr _ _ _ _ _ _ _ HI) as [_ Hr]. rewrite Hp, Nat.add_0_r in Hr.
  destruct (decide (wh_rdr (gsum ms) = 0%nat)) as [E|Hne]; [by destruct Hna; apply Hr|].
  destruct (sum_owner wh_rdr ltac:(done) ltac:(done) ms) as (m & Hm & Hpos); [lia|].
  apply list_elem_of_lookup in Hm as [i Hi].
  destruct (lookup_lt_is_Some_2 ts i) as [t' Ht']; [rewrite Hlen; by eapply lookup_lt_Some|].
  destruct (Hall i t' m Ht' Hi) as [[_ (_ & _ & ? & _)]|[Hrun [_ [(_ & [?|Hrole] & _)|[(_ & _ & ? & ?)|[(_ & ? & _)|
    [(_ & _ & ? & _)|[(_ & _ & ? & _)|(_ & _ & ? & _)]]]]]]]]; try lia.
  - apply role_reader in Hrole as ->.    by simplify_eq.
  - by destruct ws_no_second.
Qed.
(** The callers have returned. *)
Lemma ws_open_callers : path_closing (wx_path s) = false -> Forall (fun t => t = Ret tt) (drop (length own) ts).
Proof.
  intros Hc. apply Forall_lookup_2. intros i t Ht. rewrite lookup_drop in Ht.
  destruct (lookup_lt_is_Some_2 ms (length own + i)) as [m Hm]; [rewrite <- Hlen; by eapply lookup_lt_Some|].
  pose proof (ws_not_asked Hc). pose proof ws_no_second. pose proof ws_no_encoder.
  assert (~ path_wait (wx_path s) (wh_p m)) as Hnw.
  { eapply (open_no_wait _ _ _ _ _ _ _ ws_stopped_path ws_stopped_shares ws_alive); [done..|].
    apply list_elem_of_fmap_2. by eapply list_elem_of_lookup_2. }
  assert (m ∈ ms) as Hin by by eapply list_elem_of_lookup_2.
  destruct (Hall _ t m Ht Hm) as [[? _]|[_ [_ Hb]]]; [done|]. exfalso. rewrite role_caller in Hb. cbn in Hb.
  destruct Hb as [(_ & _ & [_ [(_ & _ & ?)|[_ [?|[? _]]]]])|[(_ & _ & ? & ?)|[(_ & _ & _ & _ & ?)|[[? _]|[[? _]|
    (_ & _ & _ & [[Hk _]|[? _]])]]]]]; try done; try congruence; [by destruct ws_no_second|].
  by apply (ws_knows_asked m) in Hk.
Qed.
(** After the close everybody has returned, but for a watcher that was never started. *)
Lemma ws_closing_end i t :
  path_closing (wx_path s) = true -> ts !! i = Some t -> t = Ret tt \/ (i = 0%nat /\ wx_watch s = false).
Proof.
  intros Hc Ht. destruct (lookup_lt_is_Some_2 ms i) as [m Hm]; [rewrite <- Hlen; by eapply lookup_lt_Some|].
  destruct (Hall i t m Ht Hm) as [[? _]|[_ [_ Hb]]]; [by left|]. pose proof ws_no_second.
  pose proof (closing_drained _ _ _ _ _ _ _ ws_stopped_path ws_stopped_shares Hc).
  pose proof (closing_loops _ _ _ _ _ _ _ ws_stopped_path ws_stopped_shares Hc).
  pose proof (closing_done _ _ _ _ _ _ _ ws_stopped_path ws_stopped_shares Hc).
  destruct Hb as [(_ & _ & _ & [(? & _)|(_ & [?|(_ & [[? _]|[[_ ?]|(_ & _ & [?|[? _]])]])])])|[(_ & _ & ? & ?)|
    [(_ & _ & _ & ? & _)|[(_ & _ & _ & (_ & _ & ? & _) & _)|[(_ & _ & _ & _ & _ & _ & _ & ?)|
    (_ & _ & _ & [[_ ?]|[Hrole [?|?]]])]]]]]; try done; try congruence.
  - by destruct ws_no_second.
  - right. split; [|done]. by apply role_watch.
Qed.
End stopped.

(** What is at rest has come to an end, or waits for nothing but its users. *)
Lemma ws_rest c :
  rtc pstep ws_start c -> ~ can_step c ->
  if path_closing (wx_path c.1)
  then (forall i t, c.2 !! i = Some t -> t = Ret tt \/ (i = 0%nat /\ wx_watch c.1 = false)) /\
       sp_done (wx_path c.1) = true /\ sp_loops (wx_path c.1) = 0 /\ sp_physical (wx_path c.1) = 1
  else ~ asked (ls_life (wx_life c.1)) /\ ~ ended (ls_life (wx_life c.1)) /\
       Forall (fun t => t = Ret tt) (drop (length own) c.2) /\ c.2 !! 2%nat <> Some (Ret tt).
Proof.
  intros Hr Hst. destruct (pool_ok_at_rest _ _ _ _ (ws_ok _ Hr) Hst) as (ms & HI & Hlen & Hall). destruct c as [s ts].
  cbn [fst snd] in *. pose proof (ws_stopped_path _ _ HI) as HP. pose proof (ws_stopped_shares _ _ _ HI Hlen Hall) as Hsh.
  destruct (path_closing (wx_path s)) eqn:Hc.
  - destruct (ws_stopped_once _ _ _ HI Hlen Hall) as [_ Hph]. rewrite Hc in Hph.
    split_and!; [intros; by eapply ws_closing_end|by eapply closing_done|by eapply closing_loops|done].
  - split_and!; [by eapply ws_not_asked|intros He; rewrite (ws_ended _ _ _ HI Hlen Hall He) in Hc; done|
      by eapply ws_open_callers|].
    intros E. by destruct (ws_open_reader _ _ _ HI Hlen Hall _ Hc E).
Qed.

(** ** Properties *)

(** C14. Whatever the callers, the socket, the peer and the timeouts do and however they
    interleave, no goroutine of a WebSocket session panics (no channel is closed twice),
    the frame slots, the queue and the byte budget stay within their capacities, the
    socket is closed at most once, and that only after an abort has won or the session is
    marked terminal. *)
Theorem ws_safe c :
  rtc pstep ws_start c ->
  ~ panics c /\ 0 <= sp_slots (wx_path c.1) <= wq + 1 /\ zlen (sp_queue (wx_path c.1)) <= wq /\
  0 <= current (qs_local (sp_quota (wx_path c.1)) 0) <= qb /\
  0 <= g_active (sp_gate (wx_path c.1)) /\ 0 <= sp_physical (wx_path c.1) <= 1 /\
  (sp_physical (wx_path c.1) = 1 -> g_closed (sp_gate (wx_path c.1)) = true /\ ended (ls_life (wx_life c.1))).
Proof.
  intros Hok%ws_ok. split; [exact (pool_ok_no_panic _ _ _ _ (pool_ok_at_any _ _ _ _ Hok))|].
  destruct Hok as (ms & _ & HI). pose proof (closing_ended _ _ _ _ _ _ _ HI) as He.
  destruct (xi_path _ _ _ _ _ _ _ HI), pi_quota as [_ Hq], pi_gate as (Ha & _ & _).
  pose proof (Hq (Some 0%nat)) as [_ _ Hrange _ _ _ _].
  split_and!; try lia; try apply Hrange; destruct (path_closing (wx_path c.1)); cbn in *; auto; lia.
Qed.

(** C13. What the peer gets: the frames given to the WebSocket are the first of those
    admitted to the queue, in order; each decodes, with the same cipher and limit, to a
    valid message it is the encoding of; each request is answered at most once; and a
    caller is told that its message was sent only when its frame has been given to the
    WebSocket, and all those before it. *)
Theorem ws_delivers c :
  ws_codec_ok (we_codec env) -> rtc pstep ws_start c ->
  sp_written (wx_path c.1) `prefix_of` rq_item <$> sp_admitted (wx_path c.1) /\
  Forall (fun d => exists m k, ws_encode (we_codec env) (rnd k) m = inl (wf_typ d, wf_payload d) /\
            ws_decode (we_codec env) (wf_typ d) (wf_payload d) = inl m /\ Validate m = None /\
            wf_payloadBytes d = zlen (msg_Data m)) (sp_written (wx_path c.1)) /\
  NoDup (sp_acked (wx_path c.1)).*1 /\
  (forall id, (id, None) ∈ sp_acked (wx_path c.1) ->
     exists r, sp_admitted (wx_path c.1) !! id = Some r /\ sp_written (wx_path c.1) !! id = Some (rq_item r)).
Proof.
  intros Hcodec (ms & _ & HI)%ws_ok. pose proof (xi_path _ _ _ _ _ _ _ HI) as HP.
  destruct (pi_written _ _ _ _ _ _ _ HP) as [rest E]. split_and!; [by exists rest| |by eapply path_acked_once|].
  - assert (Forall (fun d => exists n, frame_ok env rnd d n) (rq_item <$> sp_admitted (wx_path c.1))) as Hall.
    { apply Forall_fmap. eapply Forall_impl; [|apply (pi_items _ _ _ _ _ _ _ HP)]. cbn. eauto. }
    rewrite E in Hall. apply Forall_app in Hall as [Hall _]. eapply Forall_impl; [|exact Hall].
    intros d (n0 & _ & k & m & Henc & Hlen). exists m, k. destruct (ws_decode_encode _ _ _ _ _ Hcodec Henc) as [Hdec _].
    split_and!; [done|done| |done]. by apply ws_decode_bounds in Hdec as [? _].
  - intros id Hid%(pi_nil _ _ _ _ _ _ _ HP).
    destruct (lookup_lt_is_Some_2 (sp_written (wx_path c.1)) id Hid) as [d Hd].
    assert ((rq_item <$> sp_admitted (wx_path c.1)) !! id = Some d) as Hl by (rewrite E; by apply lookup_app_l_Some).
    apply list_lookup_fmap_Some in Hl as (r & -> & Hr). eauto.
Qed.

(** C12. A WebSocket session never gets stuck: when nothing can move any more, every
    admitted request has been answered exactly once in the order of admission and every
    slot and every byte has been given back; and either the session is closed (all its
    goroutines and callers have returned, the watcher of the close timeout too if it was
    started, [done] is closed, the socket was closed once), or it is open, nobody has
    asked for a shutdown or an abort, every caller has returned, the reader is reading and
    every admitted frame has been given to the WebSocket.  So a read failure that the
    reader leaves to the writer is never lost, and a shutdown always runs to the end. *)
Theorem ws_settles c :
  rtc pstep ws_start c -> ~ can_step c ->
  sp_queue (wx_path c.1) = [] /\ sp_handled (wx_path c.1) = sp_admitted (wx_path c.1) /\
  (sp_acked (wx_path c.1)).*1 = rq_id <$> filter (fun r => rq_ack r = true) (sp_admitted (wx_path c.1)) /\
  sp_slots (wx_path c.1) = 0 /\ g_active (sp_gate (wx_path c.1)) = 0 /\
  current (qs_local (sp_quota (wx_path c.1)) 0) = 0 /\ globalCurrent (Some (qs_global (sp_quota (wx_path c.1)))) = 0 /\
  if path_closing (wx_path c.1)
  then (forall i t, c.2 !! i = Some t -> t = Ret tt \/ (i = 0%nat /\ wx_watch c.1 = false)) /\
       sp_done (wx_path c.1) = true /\ sp_loops (wx_path c.1) = 0 /\ sp_physical (wx_path c.1) = 1
  else ~ asked (ls_life (wx_life c.1)) /\ Forall (fun t => t = Ret tt) (drop (length own) c.2) /\
       c.2 !! 2%nat <> Some (Ret tt) /\ sp_written (wx_path c.1) = rq_item <$> sp_admitted (wx_path c.1).
Proof.
  intros Hr Hst. pose proof (ws_rest c Hr Hst) as Hend.
  destruct (pool_ok_at_rest _ _ _ _ (ws_ok _ Hr) Hst) as (ms & HI & Hlen & Hall). destruct c as [s ts]. cbn [fst snd] in *.
  pose proof (ws_stopped_path _ _ HI) as HP. pose proof (ws_stopped_shares _ _ _ HI Hlen Hall) as Hsh.
  pose proof (ws_alive _ _ _ HI Hlen Hall) as Halive.
  assert ((forall m, m ∈ wh_p <$> ms -> at_rest m) /\ sp_queue (wx_path s) = [] /\
          sp_handled (wx_path s) = sp_admitted (wx_path s)) as (Hrest & Hq & Hh).
  { destruct (path_closing (wx_path s)) eqn:Hc.
    - split; [by eapply closing_rest|]. pose proof (pi_writer _ _ _ _ _ _ _ HP) as Hw.
      rewrite (@sum_nil _ _ _ (ghost_excl (ptok wsFrame)) ps_w) in Hw; [|done..|].
      + by destruct Hw as (? & _ & ? & _).
      + apply Forall_forall. intros m Hm%list_elem_of_In.
        by destruct (closing_nobody_blocked _ _ _ _ _ _ _ HP Hsh Hc m Hm) as (_ & _ & _ & _ & _ & ?).
    - split; [exact (open_rest _ _ _ _ _ _ _ HP Hsh (fun _ => Halive eq_refl) Hc wq_ok)|].
      by destruct (open_handled _ _ _ _ _ _ _ HP Hsh (fun _ => Halive eq_refl) Hc) as (? & ? & _). }
  destruct (rest_given_back _ _ _ _ _ _ _ HP Hrest Hq) as (? & ? & ? & ?).
  rewrite (pi_acks _ _ _ _ _ _ _ HP), Hh. split_and!; try done.
  destruct (path_closing (wx_path s)) eqn:Hc; [done|]. destruct Hend as (? & _ & ? & ?). split_and!; try done.
  by destruct (open_handled _ _ _ _ _ _ _ HP Hsh (fun _ => Halive eq_refl) Hc) as (_ & _ & ?).
Qed.
End reachable.

(** ** A session whose one caller sends a message and shuts the session down *)
Definition demo_wslib : WebSocketLib := {| CloseStatus := fun e => match e with Sentinel IoEOF => 1000 | _ => -1 end |}.
(** Sealed with a lawful cipher, with nonce 1, 2. *)
Definition demo_sealing : wsCodec :=
  {| wc_protocol := SchemeWS; wc_cipher := Some (AESGCM.aesGCM AESGCM.checksum_AEAD); wc_maxMessage := 16 |}.
Lemma demo_sealing_ok : ws_codec_ok demo_sealing.
Proof. intros cipher [= <-]. apply AESGCM.aesGCM_ok, AESGCM.checksum_AEAD_ok. Qed.
Definition demo_rnd (_ : nat) : bytes := [x01; x02]%byte.
Definition demo_payload : bytes :=
  match ws_encode demo_sealing (demo_rnd 0) (Text [x68; x69]%byte) with inl f => f.2 | inr _ => [] end.
Definition demo_ws_env : wsEnv :=
  {| we_codec := demo_sealing; we_local := None; we_remote := None; we_readIdle := false |}.
Definition demo_ws_io (k : nat) : ws_io := {| wi_write := None; wi_expired := false |}.
Definition demo_world : ws_world :=
  {| ww_reads := [ReadMsg MessageText demo_payload]; ww_last := (Sentinel IoEOF, false); ww_pings := None;
     ww_watcher := None; ww_fires := false |}.
Definition demo_ws_ops : list (list ws_op) := [[WSend (Some 0%nat) (Text [x68; x69]%byte); WShutdown (Some 0%nat)]].
Definition demo_session : pool wsSession :=
  @ws_start demo_wslib Unix demo_ws_env (fun _ => Sentinel ErrClosed) demo_rnd demo_ws_io None 8 1 64 1024 4
    demo_world demo_ws_ops.
(** The caller until it waits for its answer, then the writer: sent. *)
Definition demo_session_sent : pool wsSession :=
  reached demo_session (replicate 16 (4, 0)%nat ++ replicate 14 (1, 0)%nat).
Definition demo_session_end : pool wsSession := reached demo_session (mjoin (replicate 6 (in_turn 5 30))).

Lemma demo_ws_limits : 0 <= 64 < 2 ^ 62 /\ 0 <= 1024 < 2 ^ 62.
Proof. lia. Qed.
Lemma demo_ws_fuel : (ws_calls demo_ws_ops < 4)%nat /\ (2 * ws_calls demo_ws_ops < 8)%nat.
Proof. vm_compute. lia. Qed.

Lemma ws_safe_witness : ~ panics demo_session_sent /\ 0 <= sp_slots (wx_path demo_session_sent.1) <= 2.
Proof.
  destruct (@ws_safe demo_wslib Unix demo_ws_env (fun _ => Sentinel ErrClosed) demo_rnd demo_ws_io None 8 1 64 1024 4
    demo_world demo_ws_ops ltac:(lia) (proj1 demo_ws_limits) (proj2 demo_ws_limits)
    (proj1 demo_ws_fuel) (proj2 demo_ws_fuel) demo_session_sent (reached_steps _ _)) as (H1 & H2 & _).
  split; [exact H1|exact H2].
Defined.
Lemma ws_delivers_witness :
  exists r, sp_admitted (wx_path demo_session_sent.1) !! 0%nat = Some r /\
    sp_written (wx_path demo_session_sent.1) !! 0%nat = Some (rq_item r) /\ wf_payload (rq_item r) = demo_payload /\ zlen demo_payload = 7.
Proof.
  destruct (@ws_delivers demo_wslib Unix demo_ws_env (fun _ => Sentinel ErrClosed) demo_rnd demo_ws_io None 8 1 64 1024 4
    demo_world demo_ws_ops ltac:(lia) (proj1 demo_ws_limits) (proj2 demo_ws_limits)
    (proj1 demo_ws_fuel) (proj2 demo_ws_fuel) demo_session_sent) as (_ & _ & _ & H1).
  - exact demo_sealing_ok.
  - apply reached_steps.
  - destruct (H1 0%nat) as (r & Hr & Hw).
    + assert (sp_acked (wx_path demo_session_sent.1) = [(0%nat, None)]) as -> by (vm_compute; reflexivity). left.
    + exists r. split; [exact Hr|]. split; [exact Hw|]. vm_compute in Hr. injection Hr as <-. vm_compute. split; reflexivity.
Defined.
Lemma ws_settles_witness :
  finished demo_session_end /\ sp_done (wx_path demo_session_end.1) = true /\ sp_slots (wx_path demo_session_end.1) = 0 /\
  length (sp_written (wx_path demo_session_end.1)) = 1%nat.
Proof.
  assert (finished demo_session_end) as Hf by (vm_compute; repeat constructor).
  destruct (@ws_settles demo_wslib Unix demo_ws_env (fun _ => Sentinel ErrClosed) demo_rnd demo_ws_io None 8 1 64 1024 4
    demo_world demo_ws_ops ltac:(lia) (proj1 demo_ws_limits) (proj2 demo_ws_limits)
    (proj1 demo_ws_fuel) (proj2 demo_ws_fuel) demo_session_end (reached_steps _ _))
    as (_ & _ & _ & Hs & _ & _ & _ & Hc); [apply finished_no_step; exact Hf|].
  assert (path_closing (wx_path demo_session_end.1) = true) as E by (vm_compute; reflexivity). rewrite E in Hc.
  destruct Hc as (_ & Hd & _). split; [exact Hf|]. split; [exact Hd|]. split; [exact Hs|]. vm_compute. reflexivity.
Defined.
