(* ===== verification/WebsocketSpec.v ===== *)
(** * WebsocketSpec: what a WebSocket session promises, and that every run ends

    [ws_refines] shows that every section of every goroutine of a reachable session is one
    step of the [service] of Service.v or none; [ws_closes] that a session somebody closes
    or shuts down is closed by every schedule. *)
From S2P Require Import Prelude Conc Kinds Errors Classify Message Gate Lifecycle Quota SendPath SendPathInv SendPathWriter.
From S2P Require Import Service Encoding Secure Endpoint NetAddr WsCodec Websocket WebsocketInv WebsocketProofs.
From S2P Require Import WebsocketWriter WebsocketTheorems.
Local Open Scope go_scope.
Local Open Scope Z_scope.

(** ** How one section moves the session *)
Record life_grows (l l' : lifeState) : Prop := {
  lg_goal : goal_rank (l_goal (ls_life l)) <= goal_rank (l_goal (ls_life l'));
  lg_term : l_terminal (ls_life l) = true -> l_terminal (ls_life l') = true;
  lg_signals : l_signals (ls_life l) ⊆ l_signals (ls_life l');
}.
Record ws_moves (fin : bool) (can : nat -> bool) (s s' : wsSession) : Prop := {
  wm_path : path_moves fin can (wx_path s) (wx_path s');
  wm_life : life_grows (wx_life s) (wx_life s');
}.

Lemma life_same l l' : ls_life l' = ls_life l -> life_grows l l'.
Proof. intros E. split; rewrite E; [lia|done..]. Qed.
Lemma grows_once ch : respects life_grows (once life_lens ch).
Proof. apply respects_atomically. intros l. split; cbn; [lia|done|set_solver]. Qed.
Lemma grows_request g : respects life_grows (requestWithPrevious life_lens g).
Proof.
  unfold requestWithPrevious. destruct (_ || _); [apply respects_ret|]. apply respects_bind.
  - apply respects_atomically. intros l. cbv zeta. case_match eqn:E; [by apply life_same|].
    apply orb_false_elim in E as [_ E]. rewrite Z.geb_leb in E. apply Z.leb_gt in E. split; cbn in *; [lia|done..].
  - intros [[] prev]; cbn [negb fst snd]; [|apply respects_ret]. apply respects_bind; [apply grows_once|]. intros _.
    apply respects_bind; [|done]. case_match; [apply grows_once|apply respects_ret].
Qed.
Lemma grows_abort why pub :
  (forall l, ls_life (pub l) = ls_life l) -> respects life_grows (abortWith life_lens why pub).
Proof.
  intros Hpub. apply respects_bind.
  - apply respects_atomically. intros l. cbv zeta. case_match; [by apply life_same|].
    split; cbn; rewrite Hpub; cbn; [destruct (l_goal _); cbn; lia|done..].
  - intros []; cbn [negb]; [|apply respects_ret]. repeat (apply respects_bind; [apply grows_once|intros _]). apply respects_ret.
Qed.
Lemma grows_terminal : respects life_grows (tryMarkTerminal life_lens).
Proof.
  apply respects_bind.
  - apply respects_atomically. intros l. cbv zeta. case_match; [by apply life_same|]. split; cbn; [lia|done|set_solver].
  - intros []; [|apply respects_ret]. unfold markTerminalChannels.
    repeat (apply respects_bind; [|intros _]); apply grows_once || apply respects_ret.
Qed.
Lemma publish_life why cause l : ls_life (publish why cause l) = ls_life l.
Proof. by destruct why, cause. Qed.

(** The finalizer but for its last step. *)
Definition final_start : prog wsSession unit :=
  on_out path_loops_wait ≫= fun _ => c ← isClosing; if c : bool then mret tt else initiateClose None.
Lemma finalizer_split : finalizer = (final_start ≫= fun _ => on_out path_close_done).
Proof. reflexivity. Qed.

Section programs.
Context `{WebSocketLib} (pf : platform) (env : wsEnv).
Context (cause_of : nat -> error) (rnd : nat -> bytes) (io : nat -> ws_io) (ws_close : option error) (qfuel : nat).
Context (fin : bool) (can : nat -> bool).
Abbreviation moves := (ws_moves fin can).
Abbreviation calm := (respects moves).

Lemma wmoves_same s s' : wx_path s' = wx_path s -> ls_life (wx_life s') = ls_life (wx_life s) -> moves s s'.
Proof. intros Ep El. split; [rewrite Ep; apply moves_refl|by apply life_same]. Qed.
Lemma wmoves_out {A} (q : prog (sendPath wsFrame) A) : respects (path_moves fin can) q -> calm (on_out q).
Proof. apply respects_lift_along. intros s t Ht. split; [done|by apply life_same]. Qed.
Lemma wmoves_life {A} (q : prog lifeState A) : respects life_grows q -> calm (on_life q).
Proof. apply respects_lift_along. intros s t Ht. split; [apply moves_refl|done]. Qed.
Lemma wmoves_look {B} (f : wsSession -> B) : calm (atomically (fun s => (s, f s))).
Proof. apply respects_atomically. intros s. by apply wmoves_same. Qed.
Lemma wmoves_note {B} (f : wsSession -> wsSession * B) :
  (forall s, wx_path (f s).1 = wx_path s /\ ls_life (wx_life (f s).1) = ls_life (wx_life s)) -> calm (atomically f).
Proof. intros Hf. apply respects_atomically. intros s. destruct (Hf s). by apply wmoves_same. Qed.
(** A [select] that leaves the way out and the lifecycle alone. *)
Lemma wmoves_select {B} (cases : wsSession -> list (wsSession * B)) :
  (forall s s' b, (s', b) ∈ cases s -> wx_path s' = wx_path s /\ wx_life s' = wx_life s) -> calm (select cases).
Proof. intros Hc. apply respects_select. intros s s' b [Ep El]%Hc. apply wmoves_same; congruence. Qed.

Create HintDb wmoves.
(** A program of Websocket.v, section by section. *)
Ltac calm :=
  repeat first
    [ solve [auto 1 with wmoves nocore] | apply respects_ret | apply respects_stuck | apply wmoves_look
    | apply wmoves_note; intros; repeat case_match; split; reflexivity
    | apply wmoves_out; first
        [ apply moves_gate | apply moves_acquire | apply moves_tryAcquire | apply moves_release | apply moves_acquireSlot
        | apply moves_slot | apply moves_offer | apply moves_tryOffer | apply moves_await | apply moves_next
        | apply moves_answer | apply moves_close | apply moves_close_chan | apply moves_await_done ]
    | apply wmoves_life; first
        [ apply grows_once | apply grows_request | apply grows_terminal | apply grows_abort; intros; apply publish_life ]
    | apply wmoves_select; intros; move_cases; split; reflexivity
    | apply respects_bind; [|intros ?]
    | progress cbn [negb]
    | match goal with |- calm (match ?x with _ => _ end) => destruct x end ].

(** *** Closing *)
Lemma wmoves_closeOnce b : calm (closeOnce b).
Proof.
  unfold closeOnce, path_close_gate. apply respects_bind; [|intros []; calm].
  apply respects_atomically. intros s. split; [|by destruct b; apply life_same]. cbn. by apply moves_quiet.
Qed.
#[local] Hint Resolve wmoves_closeOnce : wmoves.
Lemma wmoves_abort why cause : calm (abort why cause).
Proof. unfold abort. calm. Qed.
#[local] Hint Resolve wmoves_abort : wmoves.
Lemma wmoves_initiate cause : calm (initiateClose cause).
Proof. unfold initiateClose. calm. Qed.
#[local] Hint Resolve wmoves_initiate : wmoves.
Lemma wmoves_finish err : calm (finishLocalGraceful pf env err).
Proof. unfold finishLocalGraceful, markReadClosed, markWriteClosed. calm. Qed.
#[local] Hint Resolve wmoves_finish : wmoves.
Lemma wmoves_shutdown ctx : calm (Shutdown cause_of ctx).
Proof. unfold Shutdown, cause_or, shutdown_with, requestShutdown, path_close_gate, lifecycleResult, Err. calm. Qed.
Lemma wmoves_watch fires : calm (watch_started pf env fires).
Proof. unfold watch_started, watchCloseTimeout. calm. Qed.

(** *** Sending *)
Lemma wmoves_encode m : calm (encode_next env rnd m).
Proof. unfold encode_next, releaseEncoder. calm. Qed.
Lemma wmoves_acquireEncoder k : calm (acquireEncoder k).
Proof. unfold acquireEncoder. calm. Qed.
Lemma wmoves_tryAcquireEncoder : calm tryAcquireEncoder.
Proof. unfold tryAcquireEncoder. calm. Qed.
#[local] Hint Resolve wmoves_encode wmoves_acquireEncoder wmoves_tryAcquireEncoder : wmoves.
Lemma wmoves_through q : calm q -> calm (through_gate pf env q).
Proof. intros Hq. unfold through_gate. calm. Qed.
Lemma wmoves_send ctx m : calm (Send pf env cause_of rnd qfuel ctx m).
Proof.
  destruct ctx as [k|]; [|apply respects_ret]. unfold Send, cause_or. apply respects_bind; [calm|].
  intros [c|]; [apply respects_ret|]. apply wmoves_through.
  unfold send_inside, sendError, cause_or, give_slot, unreserve, terminal_or_closed, Err. calm.
Qed.
Lemma wmoves_trySend m : calm (TrySend pf env rnd m).
Proof.
  apply wmoves_through. unfold trySend_inside, trySendError, give_slot, unreserve, terminal_or_closed, Err. calm.
Qed.
Lemma wmoves_client ops :
  (forall k e, WCancel k e ∈ ops -> can k = true) -> calm (ws_client pf env cause_of rnd qfuel ops).
Proof.
  induction ops as [|o ops IH]; intros Hcan; [apply respects_ret|]. apply respects_bind.
  - destruct o; unfold ws_op_prog; try (apply respects_bind; [|intros; apply respects_ret]).
    + apply wmoves_send.
    + apply wmoves_trySend.
    + apply wmoves_shutdown.
    + unfold Close. calm.
    + apply wmoves_out, moves_cancel, (Hcan k e). left.
  - intros _. apply IH. intros k e Hin. apply (Hcan k e). by right.
Qed.

(** *** The goroutines of the session *)
Lemma wmoves_write d : calm (write_next io d).
Proof.
  apply respects_atomically. intros s. split; [|by apply life_same]. cbn. destruct (wi_write _); [apply moves_refl|].
  apply moves_event_only; [done..|by eapply ev_write].
Qed.
#[local] Hint Resolve wmoves_write : wmoves.
Lemma wmoves_handle req : calm (handleOutbound pf env io req).
Proof. unfold handleOutbound, ws_begin, timeoutCause, ws_end, pendingRead, count_sent, Err. calm. Qed.
#[local] Hint Resolve wmoves_handle : wmoves.
Lemma wmoves_fail e n : calm (fail_rest e n).
Proof. induction n as [|n IH]; cbn [fail_rest]; [apply respects_stuck|]. calm. Qed.
#[local] Hint Resolve wmoves_fail : wmoves.
Lemma wmoves_drain n : calm (writer_drain pf env io ws_close n).
Proof. induction n as [|n IH]; cbn [writer_drain]; [apply respects_stuck|]. unfold markWriterDrained. calm. Qed.
#[local] Hint Resolve wmoves_drain : wmoves.
Lemma wmoves_event (cases : wsSession -> list (wsSession * writer_event)) :
  (forall s s' e, (s', e) ∈ cases s -> s' = s \/ (s', e) ∈ next_request s) -> calm (select cases).
Proof.
  intros Hc. apply respects_select. intros s s' e [->|Hin]%Hc; [by apply wmoves_same|].
  apply list_elem_of_fmap in Hin as ([t b] & [= -> ->] & Hin). move_cases. split; [by apply moves_quiet|by apply life_same].
Qed.
Lemma wmoves_writer n : calm (writerLoop pf env io ws_close n).
Proof.
  assert (forall m, calm (writer_graceful pf env io ws_close n m)) as Hd.
  { induction m as [|m IH]; cbn [writer_graceful]; [apply respects_stuck|]. apply respects_bind; [|intros []; calm].
    apply wmoves_event. intros s s' e Hin. move_cases; auto. }
  assert (forall m, calm (writer_main pf env io ws_close n m)) as Hm.
  { induction m as [|m IH]; cbn [writer_main]; [apply respects_stuck|]. apply respects_bind; [|intros []; calm].
    apply wmoves_event. intros s s' e Hin. move_cases; auto. }
  unfold writerLoop, failPending, terminal_or_closed, Err, markWriterDrained. calm.
Qed.
Lemma wmoves_reader evs last : calm (readerLoop pf env evs last).
Proof.
  assert (forall err ex, calm (read_failed pf env err ex)) as Hf.
  { intros err ex. unfold read_failed, handshake_over, read_idle, read_broken, timeoutCause, deferRead, isClosing. calm. }
  assert (calm (reader_rounds pf env evs last)) as Hr.
  { induction evs as [|[typ payload|err ex] evs IH]; cbn [reader_rounds]; unfold count_received, isClosing; calm. }
  unfold readerLoop, isClosing. calm.
Qed.
Lemma wmoves_ping ps : calm (pingLoop pf env ps).
Proof. induction ps as [|p ps IH]; cbn [pingLoop]; calm. Qed.
Lemma wmoves_watcher k : calm (watcher_tail pf env k).
Proof. unfold watcher_tail. calm. Qed.
Lemma wmoves_loop p : calm p -> calm (loop p).
Proof. intros Hp. unfold loop. calm. Qed.
Lemma wmoves_final_start : calm final_start.
Proof. unfold final_start, isClosing. calm. Qed.
Lemma wmoves_finalizer : fin = true -> calm finalizer.
Proof.
  intros Hf. unfold finalizer, isClosing. repeat (apply respects_bind; [calm|intros ?]).
  by apply wmoves_out, moves_close_done.
Qed.
End programs.

(** ** What a session promises *)
(** A frame is accepted if it carries a valid message within the limit. *)
Definition frame_fits (env : wsEnv) (d : wsFrame) : Prop :=
  exists m, ws_decode (we_codec env) (wf_typ d) (wf_payload d) = inl m /\ Validate m = None /\
    wf_payloadBytes d = zlen (msg_Data m) /\ zlen (wf_payload d) <= wc_maxMessage (we_codec env).
(** What a state of the session stands for. *)
Definition ws_service (s : wsSession) : service wsFrame := path_service (wx_path s).

Definition cancels (k : nat) (o : ws_op) : bool := match o with WCancel j _ => (j =? k)%nat | _ => false end.

(** The end of the session is under way. *)
Definition begun (s : wsSession) : Prop :=
  asked (ls_life (wx_life s)) \/ l_terminal (ls_life (wx_life s)) = true \/ path_closing (wx_path s) = true \/
  signal_seen FullReq s = true.
Lemma begun_moves fin can s s' : ws_moves fin can s s' -> begun s -> begun s'.
Proof.
  intros [Hp Hl] [Ha|[Ht|[Hc|Hs]]].
  - left. pose proof (lg_goal _ _ Hl). unfold asked in *. lia.
  - right. left. by apply (lg_term _ _ Hl).
  - right. right. left. by apply (mv_closing _ _ _ _ Hp).
  - right. right. right. apply bool_decide_eq_true in Hs. apply bool_decide_eq_true. by apply (lg_signals _ _ Hl).
Qed.

Section beginnings.
Context `{WebSocketLib} (pf : platform) (env : wsEnv).
Context (cause_of : nat -> error) (rnd : nat -> bytes) (io : nat -> ws_io) (ws_close : option error) (qfuel : nat).

Lemma at_once_abort why cause : at_once begun (abort why cause).
Proof.
  intros s. cbn. destruct (_ || _) eqn:E; eexists _, _; (split; [reflexivity|]).
  - apply orb_prop in E as [E|E%bool_decide_eq_true]; [by right; left|left]. unfold asked. cbn. rewrite E. cbn. lia.
  - left. unfold asked. cbn. rewrite publish_life. cbn. lia.
Qed.
Lemma at_once_ws_initiate cause : at_once begun (initiateClose cause).
Proof. apply at_once_then, at_once_abort. Qed.

(** *** The goroutines of the session *)
Ltac hasten :=
  repeat first
    [ apply prompt_atomically | apply at_once_prompt, at_once_ws_initiate | exact I | apply prompt_lift
    | apply prompt_bind; [|intros ?] | progress cbn [negb]
    | match goal with |- prompt _ (match ?x with _ => _ end) => destruct x end ].
Lemma prompt_failed err expired : prompt begun (read_failed pf env err expired).
Proof.
  unfold read_failed, handshake_over, read_idle, read_broken, timeoutCause, deferRead, isClosing, markReadClosed. hasten.
Qed.
(** A read that fails, or a message that does not decode. *)
Definition read_fails (ev : read_event) : bool :=
  match ev with
  | ReadFail _ _ => true
  | ReadMsg typ payload => match ws_decode (we_codec env) typ payload with inl _ => false | inr _ => true end
  end.
Lemma prompt_reader evs last : existsb read_fails evs = true -> prompt begun (loop (readerLoop pf env evs last)).
Proof.
  intros Hev. apply prompt_bind; [|intros _; apply prompt_lift, prompt_atomically]. unfold readerLoop, isClosing.
  apply prompt_bind; [apply prompt_atomically|]. intros []; [exact I|].
  induction evs as [|[typ payload|err ex] evs IH]; [done| |apply prompt_failed].
  cbn [existsb read_fails reader_rounds] in *. unfold count_received, isClosing. destruct (ws_decode _ _ _); [|hasten].
  repeat (apply prompt_bind; [apply prompt_atomically|intros ?]). case_match; [exact I|by apply IH].
Qed.

Definition ping_fails (r : option error) : bool := match r with Some _ => true | None => false end.
(** One round: the session ends, or there is a tick. *)
Lemma ping_round s :
  (forall s' (tick : bool), Done s' tick ∈ map (fun '(s', b) => Done s' b) (ready (path_closing (wx_path s)) s false ++
      ready (signal_seen FullReq s) s false ++ ready true s true) -> begun s' \/ tick = true) /\
  exists s' (tick : bool), Done s' tick ∈ map (fun '(s', b) => Done s' b) (ready (path_closing (wx_path s)) s false ++
      ready (signal_seen FullReq s) s false ++ ready true s true).
Proof.
  split.
  - intros s' tick ([s2 b] & [= -> ->] & Hin)%list_elem_of_fmap. unfold begun.
    apply elem_of_app in Hin as [(? & -> & _)%elem_ready|[(? & -> & _)%elem_ready|(_ & _ & ->)%elem_ready]%elem_of_app]; auto.
  - exists s, true. apply list_elem_of_fmap. exists (s, true). split; [done|]. rewrite !elem_of_app, !elem_ready. auto.
Qed.
Lemma sure_ping ps :
  existsb ping_fails ps = true -> ensures begun (pingLoop pf env ps) /\ prompt begun (pingLoop pf env ps).
Proof.
  induction ps as [|r ps IH]; [done|]. intros Hf. split.
  - intros s s' tick Hin. destruct (proj1 (ping_round s) s' tick Hin) as [?| ->]; [by left|right].
    destruct r; [apply at_once_ensures, at_once_ws_initiate|by apply IH].
  - intros s. split; [apply (proj2 (ping_round s))|]. intros s' tick Hin.
    destruct (proj1 (ping_round s) s' tick Hin) as [?| ->]; [by left|right].
    destruct r; [apply at_once_prompt, at_once_ws_initiate|by apply IH].
Qed.

(** *** The callers *)
Definition begun_or (ctx : option nat) (s : wsSession) : Prop :=
  begun s \/ sp_done (wx_path s) = true \/ exists k, ctx = Some k /\ path_ctx_done k (wx_path s) = true.
(** A call that ends the session, unless it finds [done] closed or the context cancelled. *)
Definition ender (ctx : option nat) (o : ws_op) : bool :=
  match o with WClose => true | WShutdown (Some k) => bool_decide (ctx = Some k) | _ => false end.
Lemma begun_or_moves ctx fin can s s' : ws_moves fin can s s' -> begun_or ctx s -> begun_or ctx s'.
Proof.
  intros Hm [Hb|[Hd|(k & -> & Hc)]].
  - left. by eapply begun_moves.
  - right. left. by apply (mv_done _ _ _ _ (wm_path _ _ _ _ Hm)).
  - right. right. exists k. split; [done|]. by apply (mv_ctx _ _ _ _ (wm_path _ _ _ _ Hm)).
Qed.
Lemma ensures_Close k : ensures (begun_or k) Close.
Proof.
  intros s s' b [= -> ->]%list_elem_of_singleton. destruct (sp_done (wx_path s)) eqn:Ed; [left; by right; left|right].
  apply ensures_then, (ensures_impl begun); [by left|]. apply at_once_ensures, at_once_abort.
Qed.
Lemma at_once_request : at_once begun requestShutdown.
Proof.
  apply at_once_then. intros s. cbn. destruct (_ || _) eqn:E; eexists _, _; (split; [reflexivity|]).
  - apply orb_prop in E as [E|E]; [by right; left|left]. rewrite Z.geb_leb in E. by apply Z.leb_le in E.
  - left. unfold asked. cbn. lia.
Qed.
Lemma ensures_Shutdown k : ensures (begun_or (Some k)) (Shutdown cause_of (Some k)).
Proof.
  intros s s' b [= -> ->]%list_elem_of_singleton. unfold ctx_cause. destruct (path_ctx k (wx_path s)) eqn:Ec.
  { left. right. right. exists k. unfold path_ctx_done. by rewrite Ec. }
  right. apply ensures_then, (ensures_impl begun); [by left|]. apply at_once_ensures, at_once_request.
Qed.
Lemma ensures_ws_client k ops :
  existsb (ender k) ops = true ->
  ensures (begun_or k) (ws_client pf env cause_of rnd qfuel ops).
Proof.
  induction ops as [|o ops IH]; [done|]. intros [Ho|Ho]%orb_prop; [|by apply ensures_later; auto].
  apply ensures_then. destruct o as [| |[j|]| |]; try discriminate Ho; apply ensures_then; [|apply ensures_Close].
  apply bool_decide_eq_true in Ho as ->. apply ensures_Shutdown.
Qed.
(** The finalizer closes [done] when the end is under way. *)
Lemma ensures_final_start : ensures begun final_start.
Proof.
  apply ensures_later. intros _ s s' b [= -> ->]%list_elem_of_singleton.
  destruct (path_closing (wx_path s)) eqn:Ec; [left; by right; right; left|right]. apply at_once_ensures, at_once_ws_initiate.
Qed.
End beginnings.

Section reachable.
Context `{WebSocketLib} (pf : platform) (env : wsEnv).
Context (cause_of : nat -> error) (rnd : nat -> bytes) (io : nat -> ws_io) (ws_close : option error) (qfuel : nat).
Context (wq qb qt : Z) (n : nat) (w : ws_world) (opss : list (list ws_op)).
Hypothesis wq_ok : 1 <= wq.
Hypothesis qb_ok : 0 <= qb < 2 ^ 62.
Hypothesis qt_ok : 0 <= qt < 2 ^ 62.
Hypothesis n_ok : (ws_calls opss < n)%nat.
Hypothesis qfuel_ok : (2 * ws_calls opss < qfuel)%nat.
Abbreviation start := (ws_start pf env cause_of rnd io ws_close qfuel wq qb qt n w opss).
Abbreviation own := (ws_goroutines pf env io ws_close n w).

(** The contexts that somebody cancels. *)
Definition cancelled (k : nat) : bool := existsb (cancels k) (mjoin opss).
Lemma client_cancels ops k e : ops ∈ opss -> WCancel k e ∈ ops -> cancelled k = true.
Proof.
  intros Hops Hin. apply existsb_exists. exists (WCancel k e). split; [|by apply Nat.eqb_eq].
  apply list_elem_of_In, list_elem_of_join. eauto.
Qed.
Lemma wmoves_pool : Forall (respects (ws_moves true cancelled)) start.2.
Proof.
  unfold ws_start, ws_pool, ws_goroutines. cbn [snd app].
  repeat apply Forall_cons_2; repeat apply Forall_app_2.
  - apply wmoves_watch.
  - apply wmoves_loop, wmoves_writer.
  - apply wmoves_loop, wmoves_reader.
  - by apply wmoves_finalizer.
  - destruct (ww_pings w); [|done]. apply Forall_singleton, wmoves_loop, wmoves_ping.
  - destruct (ww_watcher w); [|done]. apply Forall_singleton, wmoves_loop, wmoves_watcher.
  - apply Forall_fmap, Forall_forall. intros ops Hops%list_elem_of_In. apply wmoves_client. intros k e. by apply client_cancels.
Qed.

(** C2. A WebSocket session implements the service: it starts as an empty one, and every
    atomic section of every goroutine, in every reachable state, is one step of the
    service or leaves it as it is; what the service accepts are frames that decode to a
    valid message within the limit. *)
Theorem ws_refines :
  ws_codec_ok (we_codec env) ->
  ws_service start.1 = service_init /\
  forall c c', rtc pstep start c -> pstep c c' ->
    ws_service c'.1 = ws_service c.1 \/ service_step (frame_fits env) (ws_service c.1) (ws_service c'.1).
Proof.
  intros Hcodec. split; [done|]. intros c c' Hr Hs.
  destruct (respects_step _ _ _ (respects_reach _ _ _ wmoves_pool Hr) Hs) as [[Hm _] _].
  assert (rtc pstep start c') as Hr' by by eapply rtc_r.
  eapply ws_ok in Hr' as (ms & _ & HI); [|done..].
  eapply path_refines; [exact (xi_path _ _ _ _ _ _ _ HI)| |exact Hm]. intros d b (_ & k & m & Henc & Hlen).
  destruct (ws_decode_encode _ _ _ _ _ Hcodec Henc) as [Hdec Hmax]. exists m. split_and!; try done.
  by apply ws_decode_bounds in Hdec as [? _].
Qed.

(** ** Ending *)
(** Until the end is under way, nobody closes [done], and contexts stay as they are. *)
Definition idle_move (s s' : wsSession) : Prop :=
  sp_done (wx_path s') = sp_done (wx_path s) /\
  forall k, cancelled k = false -> path_ctx k (wx_path s') = path_ctx k (wx_path s).
#[local] Instance idle_move_preorder : PreOrder idle_move.
Proof. split; [done|]. intros a b c [? Hab] [? Hbc]. split; [congruence|]. intros k Hk. rewrite Hbc, Hab; done. Qed.
Lemma moves_idle s s' : ws_moves false cancelled s s' -> idle_move s s'.
Proof. intros [Hp _]. split; [by apply (mv_fin _ _ _ _ Hp)|intros k; apply (mv_can _ _ _ _ Hp)]. Qed.
Lemma ws_begun_kept : Forall (respects (fun s s' => begun s -> begun s')) start.2.
Proof. eapply Forall_impl; [|apply wmoves_pool]. intros q. apply respects_impl. intros s s'. apply begun_moves. Qed.
Lemma begun_or_kept k : Forall (respects (fun s s' => begun_or k s -> begun_or k s')) start.2.
Proof. eapply Forall_impl; [|apply wmoves_pool]. intros q. apply respects_impl. intros s s'. apply begun_or_moves. Qed.
Lemma pool_until : Forall (until begun idle_move) start.2.
Proof.
  unfold ws_start, ws_pool, ws_goroutines. cbn [snd app].
  assert (forall A (q : prog wsSession A), respects (ws_moves false cancelled) q -> until begun idle_move q) as Hu.
  { intros A q Hq. apply until_respects. eapply respects_impl; [|exact Hq]. apply moves_idle. }
  repeat apply Forall_cons_2; repeat apply Forall_app_2.
  - apply Hu, wmoves_watch.
  - apply Hu, wmoves_loop, wmoves_writer.
  - apply Hu, wmoves_loop, wmoves_reader.
  - rewrite finalizer_split. apply until_ensures; [|apply ensures_final_start].
    eapply respects_impl; [|apply wmoves_final_start]. apply moves_idle.
  - destruct (ww_pings w); [|done]. apply Forall_singleton, Hu, wmoves_loop, wmoves_ping.
  - destruct (ww_watcher w); [|done]. apply Forall_singleton, Hu, wmoves_loop, wmoves_watcher.
  - apply Forall_fmap, Forall_forall. intros ops Hops%list_elem_of_In. apply Hu, wmoves_client. intros k e. by apply client_cancels.
Qed.

(** A call that ends the session: [Close], or [Shutdown] with a context nobody cancels. *)
Definition ending_op (o : ws_op) : bool :=
  match o with WClose => true | WShutdown (Some k) => negb (cancelled k) | _ => false end.
(** Somebody ends the session, a read or a ping fails, or a timeout policy expires. *)
Definition asked_to_end : bool :=
  existsb ending_op (mjoin opss) || existsb (read_fails env) (ww_reads w) ||
  match ww_pings w with Some ps => existsb ping_fails ps | None => false end ||
  match ww_watcher w with Some (Some _) => true | _ => false end.

Section rest.
Context (c : pool wsSession).
Hypothesis Hr : rtc pstep start c.
Hypothesis Hst : ~ can_step c.
Hypothesis Hopen : path_closing (wx_path c.1) = false.

Lemma open_end :
  ~ begun c.1 /\ Forall (fun t => t = Ret tt) (drop (length own) c.2) /\ c.2 !! 2%nat <> Some (Ret tt).
Proof.
  pose proof (ws_rest pf env cause_of rnd io ws_close qfuel wq qb qt n w opss wq_ok qb_ok qt_ok n_ok qfuel_ok c Hr Hst) as Hend.
  rewrite Hopen in Hend. destruct Hend as (Hna & Hne & Hcall & Hread). split_and!; [|done|done].
  destruct (ws_ok pf env cause_of rnd io ws_close qfuel wq qb qt n w opss wq_ok qb_ok qt_ok n_ok qfuel_ok c Hr) as (ms & _ & HI).
  intros [?|[?|[?|Hs%(full_seen _ _ _ _ _ _ _ HI)]]]; [done|destruct Hne; by right|congruence|done].
Qed.
Lemma open_idle : idle_move start.1 c.1.
Proof.
  destruct (until_pool begun idle_move start c ws_begun_kept pool_until Hr) as [Hb|?]; [|done].
  by destruct (proj1 open_end).
Qed.
Lemma open_no_op : existsb ending_op (mjoin opss) = false.
Proof.
  destruct open_end as (Hnb & Hcall & _). destruct open_idle as [Hdone Hctx].
  apply not_true_iff_false. intros (o & (ops & Ho & Hops)%list_elem_of_In%list_elem_of_join & Hop)%existsb_exists.
  apply list_elem_of_lookup in Hops as [i Hi].
  assert (exists ctx, ender ctx o = true /\ ~ begun_or ctx c.1) as (ctx & Hend & Hnot).
  { exists (match o with WShutdown k => k | _ => None end). destruct o as [| |[k|]| |]; try done; split; try done.
    - by apply bool_decide_eq_true.
    - intros [?|[Hd|(j & [= <-] & Hj)]]; [done|by rewrite Hdone in Hd|]. unfold path_ctx_done in Hj.
      by rewrite Hctx in Hj by by apply negb_true_iff.
    - intros [?|[Hd|(j & [=] & _)]]; [done|by rewrite Hdone in Hd]. }
  destruct (ensures_pool (begun_or ctx) start c (length own + i)%nat (ws_client pf env cause_of rnd qfuel ops))
    as [?|(q & Hq & Hsure)]; [apply begun_or_kept|done| | |done|].
  - unfold ws_start, ws_pool. cbn [snd]. rewrite lookup_app_r by lia.
    by rewrite Nat.add_comm, Nat.add_sub, list_lookup_fmap, Hi.
  - apply ensures_ws_client, existsb_exists. exists o. split; [by apply list_elem_of_In|done].
  - rewrite <- lookup_drop in Hq. pose proof (Forall_lookup_1 _ _ _ _ Hcall Hq) as ->. done.
Qed.
Lemma open_not_asked : asked_to_end = false.
Proof.
  destruct open_end as (Hnb & _ & Hread). unfold asked_to_end. rewrite open_no_op. repeat apply orb_false_intro; [done|..].
  - apply not_true_iff_false. intros Hf. destruct (prompt_pool begun start c 2 (loop (readerLoop pf env (ww_reads w) (ww_last w))))
      as [?|[[] ?]]; [apply ws_begun_kept|done|done|by apply prompt_reader|done|done|done].
  - destruct (ww_pings w) as [ps|] eqn:Ep; [|done]. apply not_true_iff_false. intros [He Hp]%(sure_ping pf env). destruct Hnb.
    apply (sure_pool begun start c 4 (loop (pingLoop pf env ps))); [apply ws_begun_kept|done| | | |done].
    + unfold ws_start, ws_pool, ws_goroutines. by rewrite Ep.
    + by apply ensures_then.
    + apply prompt_bind; [done|]. intros _. apply prompt_lift, prompt_atomically.
  - destruct (ww_watcher w) as [[k|]|] eqn:Ew; [|done..]. destruct Hnb.
    apply (at_once_pool begun start c (loop (watcher_tail pf env (Some k)))); [apply ws_begun_kept|done| | |done].
    + unfold ws_start, ws_pool, ws_goroutines. rewrite Ew. cbn [snd app]. set_solver.
    + apply at_once_then, at_once_ws_initiate.
Qed.
End rest.

(** C4. Ending always completes: when somebody calls [Close], or [Shutdown] with a context
    that nobody cancels, when a read or a ping fails, a message does not decode or a
    timeout policy expires, every schedule, whatever the WebSocket answers, reaches a
    state in which all goroutines and callers have returned (but for the watcher of the
    close timeout when it was never started), [done] is closed and the socket has been
    closed once. *)
Theorem ws_closes :
  asked_to_end = true ->
  inevitable (fun c => (forall i t, c.2 !! i = Some t -> t = Ret tt \/ (i = 0%nat /\ wx_watch c.1 = false)) /\
    sp_done (wx_path c.1) = true /\ sp_physical (wx_path c.1) = 1) start.
Proof.
  intros Ha. apply inevitable_end. intros c Hr Hst.
  destruct (path_closing (wx_path c.1)) eqn:Hc; [|by rewrite (open_not_asked c Hr Hst Hc) in Ha].
  pose proof (ws_rest pf env cause_of rnd io ws_close qfuel wq qb qt n w opss wq_ok qb_ok qt_ok n_ok qfuel_ok c Hr Hst) as Hend.
  rewrite Hc in Hend. by destruct Hend as (? & ? & _ & ?).
Qed.
End reachable.

(** *** Witnesses *)
Lemma ws_refines_witness :
  ws_service demo_session.1 = service_init /\ length (sv_out (ws_service demo_session_sent.1)) = 1%nat /\
  forall c', pstep demo_session_sent c' ->
    ws_service c'.1 = ws_service demo_session_sent.1 \/
    service_step (frame_fits demo_ws_env) (ws_service demo_session_sent.1) (ws_service c'.1).
Proof.
  destruct (@ws_refines demo_wslib Unix demo_ws_env (fun _ => Sentinel ErrClosed) demo_rnd demo_ws_io None 8 1 64 1024 4
    demo_world demo_ws_ops ltac:(lia) (proj1 demo_ws_limits) (proj2 demo_ws_limits)
    (proj1 demo_ws_fuel) (proj2 demo_ws_fuel)) as [H1 H2]; [exact demo_sealing_ok|].
  split; [exact H1|]. split; [vm_compute; reflexivity|]. intros c'. apply H2. apply reached_steps.
Defined.
Lemma ws_closes_witness :
  inevitable (fun c => (forall i t, c.2 !! i = Some t -> t = Ret tt \/ (i = 0%nat /\ wx_watch c.1 = false)) /\
    sp_done (wx_path c.1) = true /\ sp_physical (wx_path c.1) = 1) demo_session.
Proof.
  apply (@ws_closes demo_wslib Unix demo_ws_env (fun _ => Sentinel ErrClosed) demo_rnd demo_ws_io None 8 1 64 1024 4
    demo_world demo_ws_ops ltac:(lia) (proj1 demo_ws_limits) (proj2 demo_ws_limits)
    (proj1 demo_ws_fuel) (proj2 demo_ws_fuel)). vm_compute. reflexivity.
Defined.

(** ** [done] and the socket *)
(** A session whose only caller closes it, with a close handshake that fails. *)
Definition early_start : pool wsSession :=
  @ws_start demo_wslib Unix demo_ws_env (fun _ => Sentinel ErrClosed) demo_rnd demo_ws_io
    (Some (Sentinel ContextDeadlineExceeded)) 8 1 64 1024 4
    {| ww_reads := [ReadFail (Sentinel IoEOF) false]; ww_last := (Sentinel IoEOF, false); ww_pings := None;
       ww_watcher := None; ww_fires := false |} [[WClose]].
(** The caller wins the abort and has closed the gate, nothing else; the writer sees the
    gate drained, its close handshake fails and its own abort loses, and so do the
    reader's and the finalizer's, none of which waits: [done] is closed while [closing]
    and the socket are still open. *)
Example done_before_close :
  exists c, rtc pstep early_start c /\ sp_done (wx_path c.1) = true /\ path_closing (wx_path c.1) = false /\
    sp_physical (wx_path c.1) = 0.
Proof.
  exists (reached early_start (replicate 9 (4, 0)%nat ++ replicate 30 (1, 0)%nat ++ replicate 30 (2, 0)%nat
    ++ replicate 10 (3, 0)%nat)).
  split; [apply reached_steps|]. vm_compute. auto.
Qed.
