(* ===== verification/Session.v ===== *)
(** * Session: sending and closing on a stream Session

    transport/conn.go (all but the read loop, which Reader.v models),
    transport/admission.go and transport/stream_graceful.go.

    A Session is shared by the goroutines that call [Send], [TrySend],
    [CloseWrite], [Shutdown] and [Close], and by its own goroutines: the writer, the
    reader, the activity watcher and the one that finalizes.  The lifecycle, the send
    gate and the byte quota are the components of Lifecycle.v, Gate.v and Quota.v,
    whose programs run here on their part of the state.

    The contexts are numbered; [cause_of] gives the cause of a context that is done.
    The socket is an oracle: [io] gives the results of the calls that the [k]-th
    [writeFrame] makes.  The identity of an ack channel is the position of its request
    among those sent to the queue.
    All the calls that one [writeFrame] makes on the socket are one section, which only the writer runs.
    Events for the observer and the touches of the activity clock are left out. *)
From S2P Require Import Prelude Conc Kinds Errors Classify Message Wire Gate Lifecycle Quota Reader.
Local Open Scope go_scope.

(** ** Writing one frame *)
(** [w k rest] is the result of the [k]-th [Write], called with [rest].  [None]: [p[n:]] panics, or
    negative counts keep the loop from getting on. *)
Fixpoint writeAll_loop (w : nat -> bytes -> Z * option error) (fuel k : nat) (p : bytes)
    : option (bytes * option error) :=
  match fuel with
  | O => None
  | S fuel =>
      match p with
      | [] => Some ([], None)
      | _ =>
          let '(n, err) := w k p in
          if n >? zlen p then None
          else
            let written := take (Z.to_nat n) p in
            let p := if n >? 0 then drop (Z.to_nat n) p else p in
            match err with
            | Some e => Some (written, Some e)
            | None =>
                if n =? 0 then Some (written, Some (Sentinel IoErrNoProgress))
                else option_map (fun r => (written ++ r.1, r.2)) (writeAll_loop w fuel (S k) p)
            end
      end
  end.
(** What reached the socket, and the error returned. *)
Definition writeAll (w : nat -> bytes -> Z * option error) (p : bytes) : option (bytes * option error) :=
  writeAll_loop w (S (length p)) 0 p.

(** [SetWriteDeadline], the [Write]s, and [SetWriteDeadline(time.Time{})]. *)
Record write_io := {
  wi_setErr : option error; wi_write : nat -> bytes -> Z * option error; wi_clearErr : option error }.

Definition writeFrame (i : write_io) (frame : bytes) : option (bytes * option error) :=
  match wi_setErr i with
  | Some e => Some ([], Some (Errorf "transport: set write deadline" e))
  | None =>
      match writeAll (wi_write i) frame with
      | None => None
      | Some (written, Some e) =>
          Some (written,
                Some (if isTimeoutFailure (Some e) then TimeoutError TimeoutWrite (Some e)
                      else Errorf "transport: write" e))
      | Some (written, None) =>
          match wi_clearErr i with
          | Some e => Some (written, Some (Errorf "transport: clear write deadline" e))
          | None => Some (written, None)
          end
      end
  end.

(** The dynamic type of the stream, with the results of the calls made on it. *)
Inductive stream :=
  | TLSStream (setErr closeErr clearErr : option error)
  | HalfCloser (closeErr : option error)
  | NoHalfClose.
Definition closeTLSWrite (setErr closeErr clearErr : option error) : option error :=
  match setErr with
  | Some e => Some (Errorf "transport: set TLS close deadline" e)
  | None =>
      match closeErr with
      | Some e =>
          Some (if isTimeoutFailure (Some e) then TimeoutError TimeoutWrite (Some e)
                else Errorf "transport: TLS close write" e)
      | None =>
          match clearErr with
          | Some e => Some (Errorf "transport: clear TLS close deadline" e)
          | None => None
          end
      end
  end.
(** The error of a stream that cannot be half closed. *)
Definition no_half_close : error := Foreign {| f_id := 2; f_type := FOther; f_timeout := None |} [].
Definition closeProtocolWrite (raw : stream) : option error :=
  match raw with
  | TLSStream setErr closeErr clearErr => closeTLSWrite setErr closeErr clearErr
  | HalfCloser closeErr => closeErr
  | NoHalfClose => Some no_half_close
  end.

(** ** State *)
Record outbound := {
  ob_id : nat; ob_frame : bytes;
  ob_ack : bool;                   (* the request carries an ack channel *)
  ob_bytes : Z; ob_payload : Z }.

Record connSt := Conn {
  cn_life : lifeState;   (* life, err *)
  cn_gate : sendGate;   (* gate *)
  cn_quota : quotaState;   (* quota, its parent, the contexts and the closing channel *)
  cn_slots : Z;   (* len(frameSlots) *)
  cn_slotcap : Z;   (* cap(frameSlots) *)
  cn_enc : bool;   (* encodeSlot holds its token *)
  cn_queue : list outbound;   (* the buffered requests *)
  cn_qcap : Z;   (* cap(queue) *)
  cn_once : bool;   (* closeOnce has run *)
  cn_physical : Z;   (* number of closes of the socket *)
  cn_drained : bool;   (* writerDrained is closed *)
  cn_ackbuf : gmap nat (option error);   (* ack channels holding a result *)
  cn_wire : bytes;   (* bytes the socket has taken *)
  cn_writes : nat;   (* calls of writeFrame *)
  cn_encodes : nat;   (* calls of Encode *)
  cn_proto : bool;   (* the write half was closed *)
  cn_bytesTX : Z;   (* stats *)
  cn_messagesTX : Z;
  cn_backpressure : Z;
  cn_loops : Z;   (* loops still running *)
  cn_done : bool;   (* done is closed *)
  cn_admitted : list outbound;   (* history: requests sent to the queue *)
  cn_handled : list outbound;   (* history: requests answered *)
  cn_acked : list (nat * option error);   (* history: results sent on ack channels *)
}.

(** Field assignments. *)
Definition set_life (x : lifeState) (s : connSt) : connSt :=
  Conn
    x (cn_gate s) (cn_quota s) (cn_slots s) (cn_slotcap s) (cn_enc s) (cn_queue s) (cn_qcap
    s) (cn_once s) (cn_physical s) (cn_drained s) (cn_ackbuf s) (cn_wire s) (cn_writes s)
    (cn_encodes s) (cn_proto s) (cn_bytesTX s) (cn_messagesTX s) (cn_backpressure s)
    (cn_loops s) (cn_done s) (cn_admitted s) (cn_handled s) (cn_acked s).
Definition set_gate (x : sendGate) (s : connSt) : connSt :=
  Conn
    (cn_life s) x (cn_quota s) (cn_slots s) (cn_slotcap s) (cn_enc s) (cn_queue s) (cn_qcap
    s) (cn_once s) (cn_physical s) (cn_drained s) (cn_ackbuf s) (cn_wire s) (cn_writes s)
    (cn_encodes s) (cn_proto s) (cn_bytesTX s) (cn_messagesTX s) (cn_backpressure s)
    (cn_loops s) (cn_done s) (cn_admitted s) (cn_handled s) (cn_acked s).
Definition set_quota (x : quotaState) (s : connSt) : connSt :=
  Conn
    (cn_life s) (cn_gate s) x (cn_slots s) (cn_slotcap s) (cn_enc s) (cn_queue s) (cn_qcap
    s) (cn_once s) (cn_physical s) (cn_drained s) (cn_ackbuf s) (cn_wire s) (cn_writes s)
    (cn_encodes s) (cn_proto s) (cn_bytesTX s) (cn_messagesTX s) (cn_backpressure s)
    (cn_loops s) (cn_done s) (cn_admitted s) (cn_handled s) (cn_acked s).
Definition set_slots (x : Z) (s : connSt) : connSt :=
  Conn
    (cn_life s) (cn_gate s) (cn_quota s) x (cn_slotcap s) (cn_enc s) (cn_queue s) (cn_qcap
    s) (cn_once s) (cn_physical s) (cn_drained s) (cn_ackbuf s) (cn_wire s) (cn_writes s)
    (cn_encodes s) (cn_proto s) (cn_bytesTX s) (cn_messagesTX s) (cn_backpressure s)
    (cn_loops s) (cn_done s) (cn_admitted s) (cn_handled s) (cn_acked s).
Definition set_enc (x : bool) (s : connSt) : connSt :=
  Conn
    (cn_life s) (cn_gate s) (cn_quota s) (cn_slots s) (cn_slotcap s) x (cn_queue s) (cn_qcap
    s) (cn_once s) (cn_physical s) (cn_drained s) (cn_ackbuf s) (cn_wire s) (cn_writes s)
    (cn_encodes s) (cn_proto s) (cn_bytesTX s) (cn_messagesTX s) (cn_backpressure s)
    (cn_loops s) (cn_done s) (cn_admitted s) (cn_handled s) (cn_acked s).
Definition set_queue (x : list outbound) (s : connSt) : connSt :=
  Conn
    (cn_life s) (cn_gate s) (cn_quota s) (cn_slots s) (cn_slotcap s) (cn_enc s) x (cn_qcap
    s) (cn_once s) (cn_physical s) (cn_drained s) (cn_ackbuf s) (cn_wire s) (cn_writes s)
    (cn_encodes s) (cn_proto s) (cn_bytesTX s) (cn_messagesTX s) (cn_backpressure s)
    (cn_loops s) (cn_done s) (cn_admitted s) (cn_handled s) (cn_acked s).
Definition set_once (x : bool) (s : connSt) : connSt :=
  Conn
    (cn_life s) (cn_gate s) (cn_quota s) (cn_slots s) (cn_slotcap s) (cn_enc s) (cn_queue s)
    (cn_qcap s) x (cn_physical s) (cn_drained s) (cn_ackbuf s) (cn_wire s) (cn_writes s)
    (cn_encodes s) (cn_proto s) (cn_bytesTX s) (cn_messagesTX s) (cn_backpressure s)
    (cn_loops s) (cn_done s) (cn_admitted s) (cn_handled s) (cn_acked s).
Definition set_physical (x : Z) (s : connSt) : connSt :=
  Conn
    (cn_life s) (cn_gate s) (cn_quota s) (cn_slots s) (cn_slotcap s) (cn_enc s) (cn_queue s)
    (cn_qcap s) (cn_once s) x (cn_drained s) (cn_ackbuf s) (cn_wire s) (cn_writes s)
    (cn_encodes s) (cn_proto s) (cn_bytesTX s) (cn_messagesTX s) (cn_backpressure s)
    (cn_loops s) (cn_done s) (cn_admitted s) (cn_handled s) (cn_acked s).
Definition set_drained (x : bool) (s : connSt) : connSt :=
  Conn
    (cn_life s) (cn_gate s) (cn_quota s) (cn_slots s) (cn_slotcap s) (cn_enc s) (cn_queue s)
    (cn_qcap s) (cn_once s) (cn_physical s) x (cn_ackbuf s) (cn_wire s) (cn_writes s)
    (cn_encodes s) (cn_proto s) (cn_bytesTX s) (cn_messagesTX s) (cn_backpressure s)
    (cn_loops s) (cn_done s) (cn_admitted s) (cn_handled s) (cn_acked s).
Definition set_ackbuf (x : gmap nat (option error)) (s : connSt) : connSt :=
  Conn
    (cn_life s) (cn_gate s) (cn_quota s) (cn_slots s) (cn_slotcap s) (cn_enc s) (cn_queue s)
    (cn_qcap s) (cn_once s) (cn_physical s) (cn_drained s) x (cn_wire s) (cn_writes s)
    (cn_encodes s) (cn_proto s) (cn_bytesTX s) (cn_messagesTX s) (cn_backpressure s)
    (cn_loops s) (cn_done s) (cn_admitted s) (cn_handled s) (cn_acked s).
Definition set_wire (x : bytes) (s : connSt) : connSt :=
  Conn
    (cn_life s) (cn_gate s) (cn_quota s) (cn_slots s) (cn_slotcap s) (cn_enc s) (cn_queue s)
    (cn_qcap s) (cn_once s) (cn_physical s) (cn_drained s) (cn_ackbuf s) x (cn_writes s)
    (cn_encodes s) (cn_proto s) (cn_bytesTX s) (cn_messagesTX s) (cn_backpressure s)
    (cn_loops s) (cn_done s) (cn_admitted s) (cn_handled s) (cn_acked s).
Definition set_writes (x : nat) (s : connSt) : connSt :=
  Conn
    (cn_life s) (cn_gate s) (cn_quota s) (cn_slots s) (cn_slotcap s) (cn_enc s) (cn_queue s)
    (cn_qcap s) (cn_once s) (cn_physical s) (cn_drained s) (cn_ackbuf s) (cn_wire s) x
    (cn_encodes s) (cn_proto s) (cn_bytesTX s) (cn_messagesTX s) (cn_backpressure s)
    (cn_loops s) (cn_done s) (cn_admitted s) (cn_handled s) (cn_acked s).
Definition set_encodes (x : nat) (s : connSt) : connSt :=
  Conn
    (cn_life s) (cn_gate s) (cn_quota s) (cn_slots s) (cn_slotcap s) (cn_enc s) (cn_queue s)
    (cn_qcap s) (cn_once s) (cn_physical s) (cn_drained s) (cn_ackbuf s) (cn_wire s)
    (cn_writes s) x (cn_proto s) (cn_bytesTX s) (cn_messagesTX s) (cn_backpressure s)
    (cn_loops s) (cn_done s) (cn_admitted s) (cn_handled s) (cn_acked s).
Definition set_proto (x : bool) (s : connSt) : connSt :=
  Conn
    (cn_life s) (cn_gate s) (cn_quota s) (cn_slots s) (cn_slotcap s) (cn_enc s) (cn_queue s)
    (cn_qcap s) (cn_once s) (cn_physical s) (cn_drained s) (cn_ackbuf s) (cn_wire s)
    (cn_writes s) (cn_encodes s) x (cn_bytesTX s) (cn_messagesTX s) (cn_backpressure s)
    (cn_loops s) (cn_done s) (cn_admitted s) (cn_handled s) (cn_acked s).
Definition set_bytesTX (x : Z) (s : connSt) : connSt :=
  Conn
    (cn_life s) (cn_gate s) (cn_quota s) (cn_slots s) (cn_slotcap s) (cn_enc s) (cn_queue s)
    (cn_qcap s) (cn_once s) (cn_physical s) (cn_drained s) (cn_ackbuf s) (cn_wire s)
    (cn_writes s) (cn_encodes s) (cn_proto s) x (cn_messagesTX s) (cn_backpressure s)
    (cn_loops s) (cn_done s) (cn_admitted s) (cn_handled s) (cn_acked s).
Definition set_messagesTX (x : Z) (s : connSt) : connSt :=
  Conn
    (cn_life s) (cn_gate s) (cn_quota s) (cn_slots s) (cn_slotcap s) (cn_enc s) (cn_queue s)
    (cn_qcap s) (cn_once s) (cn_physical s) (cn_drained s) (cn_ackbuf s) (cn_wire s)
    (cn_writes s) (cn_encodes s) (cn_proto s) (cn_bytesTX s) x (cn_backpressure s) (cn_loops
    s) (cn_done s) (cn_admitted s) (cn_handled s) (cn_acked s).
Definition set_backpressure (x : Z) (s : connSt) : connSt :=
  Conn
    (cn_life s) (cn_gate s) (cn_quota s) (cn_slots s) (cn_slotcap s) (cn_enc s) (cn_queue s)
    (cn_qcap s) (cn_once s) (cn_physical s) (cn_drained s) (cn_ackbuf s) (cn_wire s)
    (cn_writes s) (cn_encodes s) (cn_proto s) (cn_bytesTX s) (cn_messagesTX s) x (cn_loops
    s) (cn_done s) (cn_admitted s) (cn_handled s) (cn_acked s).
Definition set_loops (x : Z) (s : connSt) : connSt :=
  Conn
    (cn_life s) (cn_gate s) (cn_quota s) (cn_slots s) (cn_slotcap s) (cn_enc s) (cn_queue s)
    (cn_qcap s) (cn_once s) (cn_physical s) (cn_drained s) (cn_ackbuf s) (cn_wire s)
    (cn_writes s) (cn_encodes s) (cn_proto s) (cn_bytesTX s) (cn_messagesTX s)
    (cn_backpressure s) x (cn_done s) (cn_admitted s) (cn_handled s) (cn_acked s).
Definition set_done (x : bool) (s : connSt) : connSt :=
  Conn
    (cn_life s) (cn_gate s) (cn_quota s) (cn_slots s) (cn_slotcap s) (cn_enc s) (cn_queue s)
    (cn_qcap s) (cn_once s) (cn_physical s) (cn_drained s) (cn_ackbuf s) (cn_wire s)
    (cn_writes s) (cn_encodes s) (cn_proto s) (cn_bytesTX s) (cn_messagesTX s)
    (cn_backpressure s) (cn_loops s) x (cn_admitted s) (cn_handled s) (cn_acked s).
Definition set_admitted (x : list outbound) (s : connSt) : connSt :=
  Conn
    (cn_life s) (cn_gate s) (cn_quota s) (cn_slots s) (cn_slotcap s) (cn_enc s) (cn_queue s)
    (cn_qcap s) (cn_once s) (cn_physical s) (cn_drained s) (cn_ackbuf s) (cn_wire s)
    (cn_writes s) (cn_encodes s) (cn_proto s) (cn_bytesTX s) (cn_messagesTX s)
    (cn_backpressure s) (cn_loops s) (cn_done s) x (cn_handled s) (cn_acked s).
Definition set_handled (x : list outbound) (s : connSt) : connSt :=
  Conn
    (cn_life s) (cn_gate s) (cn_quota s) (cn_slots s) (cn_slotcap s) (cn_enc s) (cn_queue s)
    (cn_qcap s) (cn_once s) (cn_physical s) (cn_drained s) (cn_ackbuf s) (cn_wire s)
    (cn_writes s) (cn_encodes s) (cn_proto s) (cn_bytesTX s) (cn_messagesTX s)
    (cn_backpressure s) (cn_loops s) (cn_done s) (cn_admitted s) x (cn_acked s).
Definition set_acked (x : list (nat * option error)) (s : connSt) : connSt :=
  Conn
    (cn_life s) (cn_gate s) (cn_quota s) (cn_slots s) (cn_slotcap s) (cn_enc s) (cn_queue s)
    (cn_qcap s) (cn_once s) (cn_physical s) (cn_drained s) (cn_ackbuf s) (cn_wire s)
    (cn_writes s) (cn_encodes s) (cn_proto s) (cn_bytesTX s) (cn_messagesTX s)
    (cn_backpressure s) (cn_loops s) (cn_done s) (cn_admitted s) (cn_handled s) x.

Definition life_of : lens connSt lifeState := {| lget := cn_life; lset := set_life |}.
Definition gate_of : lens connSt sendGate := {| lget := cn_gate; lset := set_gate |}.
Definition quota_of : lens connSt quotaState := {| lget := cn_quota; lset := set_quota |}.

(** A new Session with [n] loops to run. *)
Definition new_conn (writeQueue maxQueuedBytes maxTotal : Z) (n : Z) : connSt := {|
  cn_life := init_state; cn_gate := newSendGate;
  cn_quota := new_state (fun _ => maxQueuedBytes) maxTotal;
  cn_slots := 0; cn_slotcap := writeQueue + 1; cn_enc := false; cn_queue := [];
  cn_qcap := writeQueue; cn_once := false; cn_physical := 0; cn_drained := false;
  cn_ackbuf := ∅; cn_wire := []; cn_writes := 0; cn_encodes := 0; cn_proto := false;
  cn_bytesTX := 0; cn_messagesTX := 0; cn_backpressure := 0; cn_loops := n; cn_done := false;
  cn_admitted := []; cn_handled := []; cn_acked := [] |}.

Definition closing (s : connSt) : bool := qs_closing (cn_quota s) 0.
Definition ctx_err (k : nat) (s : connSt) : option error := qs_ctx (cn_quota s) k.

Definition done_ctx (k : nat) (s : connSt) : bool :=
  match ctx_err k s with Some _ => true | None => false end.

(** ** admission.go *)
Definition take_slot (s : connSt) : connSt := set_slots (cn_slots s + 1) s.
Definition slot_free (s : connSt) : bool := cn_slots s <? cn_slotcap s.

Definition acquireFrameSlot (k : nat) : prog connSt (option error) :=
  select (fun s => ready (done_ctx k s) s (ctx_err k s)
                   ++ ready (closing s) s (Some (Sentinel ErrClosed))
                   ++ ready (slot_free s) (take_slot s) None).
Definition tryAcquireFrameSlot : prog connSt (option error) :=
  select (or_default (Some (Sentinel ErrWouldBlock)) (fun s =>
    ready (closing s) s (Some (Sentinel ErrClosed)) ++ ready (slot_free s) (take_slot s) None)).
(** [<-c.frameSlots]: blocks if there is none. *)
Definition releaseFrameSlot : prog connSt unit :=
  select (fun s => ready (0 <? cn_slots s) (set_slots (cn_slots s - 1) s) tt).

Definition isClosing_now : prog connSt bool := atomically (fun s => (s, closing s)).

Definition releaseEncoder : prog connSt unit :=
  select (fun s => ready (cn_enc s) (set_enc false s) tt).
(** After the token is taken: give it back if the session is closing. *)
Definition encoder_recheck : prog connSt (option error) :=
  c ← isClosing_now;
  if c : bool then releaseEncoder ≫= fun _ => mret (Some (Sentinel ErrClosed)) else mret None.
Definition acquireEncoder (k : nat) : prog connSt (option error) :=
  r ← select (fun s => ready (done_ctx k s) s (ctx_err k s)
                       ++ ready (closing s) s (Some (Sentinel ErrClosed))
                       ++ ready (negb (cn_enc s)) (set_enc true s) None);
  match r with Some e => mret (Some e) | None => encoder_recheck end.
Definition tryAcquireEncoder : prog connSt (option error) :=
  r ← select (or_default (Some (Sentinel ErrWouldBlock)) (fun s =>
        ready (closing s) s (Some (Sentinel ErrClosed))
        ++ ready (negb (cn_enc s)) (set_enc true s) None));
  match r with Some e => mret (Some e) | None => encoder_recheck end.

Section session.
Context `{WebSocketLib} (pf : platform) (env : connEnv) (raw : stream).
Context (cause_of : nat -> error) (rnd : nat -> bytes) (io : nat -> write_io) (qfuel : nat).

Definition ctx_cause (k : nat) (s : connSt) : option error :=
  match ctx_err k s with Some _ => Some (cause_of k) | None => None end.
Definition opError (op : Op) (cause : error) : option error := operationalError pf env op cause hintNone.

Definition encode (m : Message) : prog connSt (result bytes) :=
  atomically (fun s => (set_encodes (S (cn_encodes s)) s,
                        f_Encode (ce_framer env) (rnd (cn_encodes s)) m)).

Definition quota_acquire (k : nat) (n : Z) : prog connSt (option error) :=
  lift quota_of (acquire (local_lens 0) (Some global_lens) (fun s => qs_ctx s k)
                   (fun s => qs_closing s 0%nat) qfuel n).
Definition quota_tryAcquire (n : Z) : prog connSt (option error) :=
  lift quota_of (tryAcquire (local_lens 0) (Some global_lens) n).
Definition quota_release (n : Z) : prog connSt unit :=
  lift quota_of (release (local_lens 0) (Some global_lens) n).

(** With the slot and the encoder held: encode and charge the bytes; the deferred
    calls give back the encoder and, unless a frame is returned, the slot. *)
Definition encode_and_charge (charge : Z -> prog connSt (option error)) (m : Message)
    : prog connSt (result bytes) :=
  r ← encode m;
  match r with
  | inr e => releaseEncoder ≫= fun _ => releaseFrameSlot ≫= fun _ => mret (inr e)
  | inl frame =>
      e ← charge (zlen frame);
      match e with
      | Some e => releaseEncoder ≫= fun _ => releaseFrameSlot ≫= fun _ => mret (inr e)
      | None => releaseEncoder ≫= fun _ => mret (inl frame)
      end
  end.
Definition prepareSend (k : nat) (m : Message) : prog connSt (result bytes) :=
  e ← acquireFrameSlot k;
  match e with
  | Some e => mret (inr e)
  | None =>
      e ← acquireEncoder k;
      match e with
      | Some e => releaseFrameSlot ≫= fun _ => mret (inr e)
      | None => encode_and_charge (quota_acquire k) m
      end
  end.
Definition prepareTrySend (m : Message) : prog connSt (result bytes) :=
  e ← tryAcquireFrameSlot;
  match e with
  | Some e => mret (inr e)
  | None =>
      e ← tryAcquireEncoder;
      match e with
      | Some e => releaseFrameSlot ≫= fun _ => mret (inr e)
      | None => encode_and_charge quota_tryAcquire m
      end
  end.

(** ** Send and TrySend *)
Definition sendError (k : nat) (err : error) : prog connSt (option error) :=
  atomically (fun s => (s, match ctx_cause k s with Some c => Some c | None => opError OpSend err end)).

Inductive send_case := SendCtx | SendClosing | Queued (id : nat) | SendFull.
(** [c.queue <- req] *)
Definition enqueue (frame : bytes) (ack : bool) (payload : Z) (s : connSt) : connSt :=
  let req := {| ob_id := length (cn_admitted s); ob_frame := frame; ob_ack := ack;
                ob_bytes := zlen frame; ob_payload := payload |} in
  set_admitted (cn_admitted s ++ [req]) (set_queue (cn_queue s ++ [req]) s).
Definition queue_case (frame : bytes) (ack : bool) (payload : Z) (s : connSt) : list (connSt * send_case) :=
  ready (zlen (cn_queue s) <? cn_qcap s) (enqueue frame ack payload s)
    (Queued (length (cn_admitted s))).

(** Giving back what [prepareSend] handed over. *)
Definition unprepare (n : Z) : prog connSt unit :=
  quota_release n ≫= fun _ => releaseFrameSlot.

Inductive ack_wait := AckIs (r : option error) | AckCtx | AckClosing.
Definition ack_case (id : nat) (s : connSt) : list (connSt * ack_wait) :=
  match cn_ackbuf s !! id with
  | Some r => [(set_ackbuf (delete id (cn_ackbuf s)) s, AckIs r)]
  | None => []
  end.
Definition Err : prog connSt (option error) := atomically (fun s => (s, ls_err (cn_life s))).
Definition cause_or (k : nat) (p : prog connSt (option error)) : prog connSt (option error) :=
  c ← atomically (fun s => (s, ctx_cause k s));
  match c with Some c => mret (Some c) | None => p end.
(** The wait for the writer's answer. *)
Definition await_ack (k id : nat) : prog connSt (option error) :=
  r ← select (fun s => ack_case id s ++ ready (done_ctx k s) s AckCtx ++ ready (closing s) s AckClosing);
  match r with
  | AckIs r => mret r
  | AckCtx => mret (Some (cause_of k))
  | AckClosing =>
      r ← select (or_default AckClosing (ack_case id));
      match r with
      | AckIs r => mret r
      | _ => cause_or k (t ← Err; mret (match t with Some t => Some t | None => opError OpSend ErrClosed end))
      end
  end.

Definition Send_inside (k : nat) (m : Message) : prog connSt (option error) :=
  match Validate m with
  | Some e => mret (Some e)
  | None =>
      r ← prepareSend k m;
      match r with
      | inr e => sendError k e
      | inl frame =>
          a ← select (fun s => ready (done_ctx k s) s SendCtx ++ ready (closing s) s SendClosing
                               ++ queue_case frame true (zlen (msg_Data m)) s);
          match a with
          | SendCtx => unprepare (zlen frame) ≫= fun _ => mret (Some (cause_of k))
          | Queued id => await_ack k id
          | _ => unprepare (zlen frame) ≫= fun _ => cause_or k (mret (opError OpSend ErrClosed))
          end
      end
  end.
Definition gate_leave_now : prog connSt unit := lift gate_of leave.
(** A call with the context [ctx], which may be nil. *)
Definition with_context (ctx : option nat) (p : nat -> prog connSt (option error)) : prog connSt (option error) :=
  match ctx with
  | None => mret (Some (Sentinel ErrNilContext))
  | Some k => cause_or k (p k)
  end.
Definition Send (ctx : option nat) (m : Message) : prog connSt (option error) :=
  with_context ctx (fun k =>
     ok ← lift gate_of enter;
     if negb ok then mret (opError OpSend ErrClosed)
     else r ← Send_inside k m; gate_leave_now ≫= fun _ => mret r).

Definition count_backpressure : prog connSt unit :=
  atomically (fun s => (set_backpressure (inc_u64 (cn_backpressure s)) s, tt)).
Definition TrySend_inside (m : Message) : prog connSt (option error) :=
  match Validate m with
  | Some e => mret (Some e)
  | None =>
      r ← prepareTrySend m;
      match r with
      | inr e =>
          (if errors_Is e ErrWouldBlock then count_backpressure else mret tt) ≫= fun _ =>
          mret (opError OpSend e)
      | inl frame =>
          a ← select (or_default SendFull (fun s =>
                ready (closing s) s SendClosing ++ queue_case frame false (zlen (msg_Data m)) s));
          match a with
          | Queued _ => mret None
          | SendClosing => unprepare (zlen frame) ≫= fun _ => mret (opError OpSend ErrClosed)
          | _ => unprepare (zlen frame) ≫= fun _ => count_backpressure ≫= fun _ =>
                 mret (opError OpSend ErrWouldBlock)
          end
      end
  end.
Definition TrySend (m : Message) : prog connSt (option error) :=
  ok ← lift gate_of enter;
  if negb ok then mret (opError OpSend ErrClosed)
  else r ← TrySend_inside m; gate_leave_now ≫= fun _ => mret r.

(** ** Closing *)
Definition gate_close_now : prog connSt unit := lift gate_of close.
(** [close(c.closing)] *)
Definition close_closing (s : connSt) : option (connSt * unit) :=
  if closing s then None
  else Some (set_quota {| qs_local := qs_local (cn_quota s); qs_global := qs_global (cn_quota s);
                          qs_ctx := qs_ctx (cn_quota s);
                          qs_closing := fupd 0 true (qs_closing (cn_quota s)) |} s, tt).
(** The body of [closeOnce]: the gate, the channel, the socket. *)
Definition close_body : prog connSt unit :=
  gate_close_now ≫= fun _ => atomic_panic close_closing ≫= fun _ =>
  atomically (fun s => (set_physical (cn_physical s + 1) s, tt)).
(** Whether this call runs the body; an abort also reports its victory. *)
Definition enter_once (aborting : bool) (s : connSt) : connSt * bool :=
  let l := cn_life s in
  (set_once true
     (if aborting then set_life {| ls_life := ls_life l; ls_err := ls_err l; ls_log := true :: ls_log l |} s
      else s), negb (cn_once s)).
(** [closeOnce.Do]: a later call waits for the body to return. *)
Definition closeOnce (aborting : bool) : prog connSt unit :=
  first ← atomically (enter_once aborting);
  if first : bool then close_body else select (fun s => ready (0 <? cn_physical s) s tt).

Definition abort_cause (cause : option error) : option error :=
  match cause with
  | None => None
  | Some c => match errors_As is_OpError c with Some _ => Some c | None => normalizeConnError (Some c) end
  end.
Definition abort (reason : abortReason) (cause : option error) : prog connSt bool :=
  won ← lift life_of (abortWith life_lens reason (publish_err (abort_cause cause)));
  if negb won then mret false else closeOnce true ≫= fun _ => mret true.
Definition initiateClose (cause : option error) : prog connSt unit :=
  abort abortFailure cause ≫= fun _ => mret tt.

Definition signal_closed (ch : signal) : prog connSt bool :=
  atomically (fun s => (s, closed ch (ls_life (cn_life s)))).
Definition maybeFinishGraceful : prog connSt unit :=
  r ← signal_closed ReadCh;
  if negb r then mret tt
  else
    w ← signal_closed WriteCh;
    if negb w then mret tt
    else
      t ← lift life_of (tryMarkTerminal life_lens);
      if negb t then mret tt else closeOnce false.

Definition Close : prog connSt (option error) :=
  d ← atomically (fun s => (s, cn_done s));
  if d : bool then mret None else abort abortExplicit None ≫= fun _ => mret None.

Definition lifecycleResult : prog connSt (option error) :=
  e ← Err;
  match e with
  | Some e => mret (Some e)
  | None =>
      r ← atomically (fun s => (s, reason life_lens (cn_life s)));
      mret (match r with
            | abortExplicit | abortCaller | abortFailure => Some (Sentinel ErrClosed)
            | abortNone => None
            end)
  end.

Definition requestWriteClose : prog connSt bool :=
  r ← lift life_of (requestWithPrevious life_lens closeGoalWrite);
  (if r.1 : bool then gate_close_now else mret tt) ≫= fun _ => mret r.1.
Definition requestShutdown : prog connSt (bool * bool) :=
  r ← lift life_of (requestWithPrevious life_lens closeGoalFull);
  (if r.1 : bool then gate_close_now else mret tt) ≫= fun _ =>
  mret (r.1, bool_decide (r.2 = closeGoalRunning)).

Inductive half_wait := HalfDone | HalfAborted | HalfCtx.
Definition signal_ready (ch : signal) (s : connSt) : bool := closed ch (ls_life (cn_life s)).
Definition await_write (k : nat) : prog connSt half_wait :=
  select (fun s => ready (signal_ready WriteCh s) s HalfDone ++ ready (signal_ready AbortCh s) s HalfAborted
                   ++ ready (done_ctx k s) s HalfCtx).
(** The caller's context ended: abort if this call owns the request. *)
Definition caller_gone (k : nat) (owner : bool) : prog connSt (option error) :=
  (if owner then abort abortCaller None ≫= fun _ => mret tt else mret tt) ≫= fun _ =>
  mret (Some (cause_of k)).
Definition CloseWrite (ctx : option nat) : prog connSt (option error) :=
  with_context ctx (fun k =>
     owner ← requestWriteClose;
     w ← await_write k;
     match w with HalfCtx => caller_gone k owner | _ => lifecycleResult end).
Definition Shutdown (ctx : option nat) : prog connSt (option error) :=
  with_context ctx (fun k =>
     o ← requestShutdown;
     w ← await_write k;
     match w with
     | HalfAborted => lifecycleResult
     | HalfCtx => caller_gone k (o.1 && o.2)
     | HalfDone =>
         d ← select (fun s => ready (cn_done s) s HalfDone ++ ready (signal_ready AbortCh s) s HalfAborted
                              ++ ready (done_ctx k s) s HalfCtx);
         match d with HalfCtx => caller_gone k o.1 | _ => lifecycleResult end
     end).

(** ** The writer *)
(** Sending a result on the ack channel of a request, if it has one: blocks while
    the channel's one-element buffer is full. *)
Definition answer (req : outbound) (r : option error) : prog connSt unit :=
  select (fun s =>
    let s' := set_handled (cn_handled s ++ [req]) s in
    if ob_ack req then
      match cn_ackbuf s !! ob_id req with
      | Some _ => []
      | None => [(set_acked (cn_acked s ++ [(ob_id req, r)])
                    (set_ackbuf (<[ob_id req := r]> (cn_ackbuf s)) s'), tt)]
      end
    else [(s', tt)]).

Definition write_next (frame : bytes) : prog connSt (option error) :=
  atomic_panic (fun s =>
    match writeFrame (io (cn_writes s)) frame with
    | Some (written, err) => Some (set_writes (S (cn_writes s)) (set_wire (cn_wire s ++ written) s), err)
    | None => None
    end).
Definition count_sent (req : outbound) : prog connSt unit :=
  atomically (fun s => (set_messagesTX (inc_u64 (cn_messagesTX s))
                          (set_bytesTX (add_u64 (cn_bytesTX s) (ob_payload req)) s), tt)).

Definition handleOutbound (req : outbound) : prog connSt bool :=
  err ← write_next (ob_frame req);
  quota_release (ob_bytes req) ≫= fun _ => releaseFrameSlot ≫= fun _ =>
  match err with
  | None => count_sent req ≫= fun _ => answer req None ≫= fun _ => mret true
  | Some e =>
      let opErr := opError OpWrite e in
      won ← abort abortFailure opErr;
      terminal ← Err;
      answer req (if won : bool then opErr
                  else match terminal with Some t => Some t | None => Some (Sentinel ErrClosed) end)
        ≫= fun _ => mret false
  end.

Definition dequeue_case {B} (f : outbound -> B) (s : connSt) : list (connSt * B) :=
  match cn_queue s with [] => [] | req :: q => [(set_queue q s, f req)] end.

(** [failPending(ErrClosed)]: answers up to [fuel] requests that are left. *)
Fixpoint failPending (fuel : nat) : prog connSt unit :=
  match fuel with
  | O => stuck
  | S fuel =>
      r ← select (or_default None (dequeue_case Some));
      match r with
      | None => mret tt
      | Some req =>
          quota_release (ob_bytes req) ≫= fun _ => releaseFrameSlot ≫= fun _ =>
          answer req (opError OpSend ErrClosed) ≫= fun _ => failPending fuel
      end
  end.

Definition markWriterDrained : prog connSt unit := atomically (fun s => (set_drained true s, tt)).

(** The inner loop after the gate is drained. *)
Fixpoint writer_drain (fuel : nat) : prog connSt unit :=
  match fuel with
  | O => stuck
  | S fuel =>
      r ← select (or_default None (dequeue_case Some));
      match r with
      | Some req => ok ← handleOutbound req; if ok : bool then writer_drain fuel else mret tt
      | None =>
          e ← atomically (fun s => (set_proto (match closeProtocolWrite raw with None => true | _ => false end) s,
                                    closeProtocolWrite raw));
          match e with
          | Some e => initiateClose (opError OpClose e)
          | None =>
              lift life_of (markWriteClosed life_lens) ≫= fun _ => markWriterDrained ≫= fun _ =>
              maybeFinishGraceful
          end
      end
  end.

Inductive writer_event := WriterClosing | WriterRequest (req : outbound) | WriterSignal.
Fixpoint writer_graceful (n fuel : nat) : prog connSt unit :=
  match fuel with
  | O => stuck
  | S fuel =>
      e ← select (fun s => ready (closing s) s WriterClosing ++ dequeue_case WriterRequest s
                           ++ ready (gate_done (cn_gate s)) s WriterSignal);
      match e with
      | WriterClosing => mret tt
      | WriterRequest req => ok ← handleOutbound req; if ok : bool then writer_graceful n fuel else mret tt
      | WriterSignal => writer_drain n
      end
  end.
Fixpoint writer_main (n fuel : nat) : prog connSt unit :=
  match fuel with
  | O => stuck
  | S fuel =>
      e ← select (fun s => ready (closing s) s WriterClosing ++ ready (signal_ready WriteReq s) s WriterSignal
                           ++ dequeue_case WriterRequest s);
      match e with
      | WriterClosing => mret tt
      | WriterSignal => writer_graceful n n
      | WriterRequest req => ok ← handleOutbound req; if ok : bool then writer_main n fuel else mret tt
      end
  end.
(** Each phase of the loop may handle fewer than [n] requests. *)
Definition writerLoop (n : nat) : prog connSt unit :=
  writer_main n n ≫= fun _ =>
  lift gate_of await_done ≫= fun _ => failPending n ≫= fun _ => markWriterDrained.

(** ** The other loops, and the end of a Session *)
(** How the read loop leaves the Session (Reader.v). *)
Definition reader_tail (e : reader_end) : prog connSt unit :=
  match e with
  | EndClosing => select (fun s => ready (closing s) s tt)
  | EndInitiate cause => initiateClose cause
  | EndRead => lift life_of (markReadClosed life_lens) ≫= fun _ => maybeFinishGraceful
  end.
(** The activity watcher: a policy expires, or the Session closes. *)
Definition watcher_tail (kind : option TimeoutKind) : prog connSt unit :=
  match kind with
  | Some k => initiateClose (Some (TimeoutError k None))
  | None => select (fun s => ready (closing s) s tt)
  end.
(** [loops.Done()] *)
Definition loop_done : prog connSt unit := atomically (fun s => (set_loops (cn_loops s - 1) s, tt)).

Definition finalize : prog connSt unit :=
  t ← signal_closed TermCh;
  (if t : bool then mret tt
   else
     c ← isClosing_now;
     (if c : bool then mret tt else initiateClose None) ≫= fun _ =>
     lift life_of (markTerminal life_lens)) ≫= fun _ =>
  atomic_panic (fun s => if cn_done s then None else Some (set_done true s, tt)).
Definition finalizer : prog connSt unit :=
  select (fun s => ready (cn_loops s =? 0) s tt) ≫= fun _ => finalize.

(** ** Goroutines sharing one Session *)
Inductive conn_op :=
  | SendOp (ctx : option nat) (m : Message) | TrySendOp (m : Message)
  | CloseWriteOp (ctx : option nat) | ShutdownOp (ctx : option nat) | CloseOp | CancelOp (k : nat) (e : error).
Definition conn_op_prog (o : conn_op) : prog connSt unit :=
  match o with
  | SendOp ctx m => Send ctx m ≫= fun _ => mret tt
  | TrySendOp m => TrySend m ≫= fun _ => mret tt
  | CloseWriteOp ctx => CloseWrite ctx ≫= fun _ => mret tt
  | ShutdownOp ctx => Shutdown ctx ≫= fun _ => mret tt
  | CloseOp => Close ≫= fun _ => mret tt
  | CancelOp k e => atomically (fun s =>
      (set_quota {| qs_local := qs_local (cn_quota s); qs_global := qs_global (cn_quota s);
                    qs_ctx := fupd k (Some e) (qs_ctx (cn_quota s));
                    qs_closing := qs_closing (cn_quota s) |} s, tt))
  end.
Fixpoint conn_client (ops : list conn_op) : prog connSt unit :=
  match ops with
  | [] => mret tt
  | o :: ops => conn_op_prog o ≫= fun _ => conn_client ops
  end.

(** The goroutines of [start], then the callers. *)
Definition conn_pool (writeQueue maxQueuedBytes maxTotal : Z) (n : nat) (re : reader_end)
    (watcher : option (option TimeoutKind)) (opss : list (list conn_op)) : pool connSt :=
  (new_conn writeQueue maxQueuedBytes maxTotal (if watcher then 3 else 2),
   (writerLoop n ≫= fun _ => loop_done) :: (reader_tail re ≫= fun _ => loop_done) :: finalizer ::
   match watcher with Some k => [watcher_tail k ≫= fun _ => loop_done] | None => [] end
   ++ (conn_client <$> opss)).
End session.
