(* ===== verification/SessionInv.v ===== *)
(** * SessionInv: the invariant of a shared stream Session

    The shares the goroutines of Session.v own, the invariant that ties them to the
    state, and the lemmas that run the programs of the gate, the lifecycle and the
    quota under it. *)
From S2P Require Import Prelude Conc Kinds Errors Classify Message Wire Gate Lifecycle Quota Reader Session.
Local Open Scope go_scope.
Local Open Scope Z_scope.

(** What the writer is doing: between two requests, having answered [n], with every
    answered frame on the wire ([clean]), the gate known to be drained and the queue
    known to be empty; or in the middle of a request. *)
Inductive phase := Fresh | Wrote | Failed.
Inductive wtok :=
  | WIdle (n : nat) (clean drained empty : bool)
  | WBusy (n : nat) (req : outbound) (ph : phase) (drained : bool).

Record share := Share {
  sh_q : gmultiset Quota.tok;   (* bytes charged, and the credits of Quota.v *)
  sh_g : nat * nat;   (* senders inside the gate, witnesses that it is closed *)
  sh_l : gmultiset Lifecycle.tok;   (* debts and knowledge of Lifecycle.v *)
  sh_slot : nat;   (* frame slots held *)
  sh_enc : nat;   (* the encoder *)
  sh_op : nat;   (* sends that may still be admitted *)
  sh_loop : nat;   (* the loops it is *)
  sh_fin : nat;   (* the finalizer *)
  sh_close : nat;   (* the right to close [closing] *)
  sh_phys : nat;   (* the duty to close the socket *)
  sh_w : excl wtok;   (* the writer *)
}.
Definition put_q (x : gmultiset Quota.tok) (m : share) : share :=
  Share
    x (sh_g m) (sh_l m) (sh_slot m) (sh_enc m) (sh_op m) (sh_loop m) (sh_fin m) (sh_close
    m) (sh_phys m) (sh_w m).
Definition put_g (x : nat * nat) (m : share) : share :=
  Share
    (sh_q m) x (sh_l m) (sh_slot m) (sh_enc m) (sh_op m) (sh_loop m) (sh_fin m) (sh_close
    m) (sh_phys m) (sh_w m).
Definition put_l (x : gmultiset Lifecycle.tok) (m : share) : share :=
  Share
    (sh_q m) (sh_g m) x (sh_slot m) (sh_enc m) (sh_op m) (sh_loop m) (sh_fin m) (sh_close
    m) (sh_phys m) (sh_w m).
Definition put_slot (x : nat) (m : share) : share :=
  Share
    (sh_q m) (sh_g m) (sh_l m) x (sh_enc m) (sh_op m) (sh_loop m) (sh_fin m) (sh_close m)
    (sh_phys m) (sh_w m).
Definition put_enc (x : nat) (m : share) : share :=
  Share
    (sh_q m) (sh_g m) (sh_l m) (sh_slot m) x (sh_op m) (sh_loop m) (sh_fin m) (sh_close m)
    (sh_phys m) (sh_w m).
Definition put_op (x : nat) (m : share) : share :=
  Share
    (sh_q m) (sh_g m) (sh_l m) (sh_slot m) (sh_enc m) x (sh_loop m) (sh_fin m) (sh_close
    m) (sh_phys m) (sh_w m).
Definition put_loop (x : nat) (m : share) : share :=
  Share
    (sh_q m) (sh_g m) (sh_l m) (sh_slot m) (sh_enc m) (sh_op m) x (sh_fin m) (sh_close m)
    (sh_phys m) (sh_w m).
Definition put_fin (x : nat) (m : share) : share :=
  Share
    (sh_q m) (sh_g m) (sh_l m) (sh_slot m) (sh_enc m) (sh_op m) (sh_loop m) x (sh_close m)
    (sh_phys m) (sh_w m).
Definition put_close (x : nat) (m : share) : share :=
  Share
    (sh_q m) (sh_g m) (sh_l m) (sh_slot m) (sh_enc m) (sh_op m) (sh_loop m) (sh_fin m) x
    (sh_phys m) (sh_w m).
Definition put_phys (x : nat) (m : share) : share :=
  Share
    (sh_q m) (sh_g m) (sh_l m) (sh_slot m) (sh_enc m) (sh_op m) (sh_loop m) (sh_fin m)
    (sh_close m) x (sh_w m).
Definition put_w (x : excl wtok) (m : share) : share :=
  Share
    (sh_q m) (sh_g m) (sh_l m) (sh_slot m) (sh_enc m) (sh_op m) (sh_loop m) (sh_fin m)
    (sh_close m) (sh_phys m) x.
#[global] Program Instance ghost_share : Ghost share := {|
  gop := fun a b => Share
    (sh_q a ∙ sh_q b) (sh_g a ∙ sh_g b) (sh_l a ∙ sh_l b) (sh_slot a ∙ sh_slot b) (sh_enc
    a ∙ sh_enc b) (sh_op a ∙ sh_op b) (sh_loop a ∙ sh_loop b) (sh_fin a ∙ sh_fin b)
    (sh_close a ∙ sh_close b) (sh_phys a ∙ sh_phys b) (sh_w a ∙ sh_w b);
  gnil := Share gnil gnil gnil gnil gnil gnil gnil gnil gnil gnil gnil |}.
Next Obligation. intros a b c. cbn [sh_q sh_g sh_l sh_slot sh_enc sh_op sh_loop sh_fin sh_close sh_phys sh_w].
  f_equal; apply gop_assoc. Qed.
Next Obligation. intros a b. cbv beta. f_equal; apply gop_comm. Qed.
Next Obligation. intros []. cbn [sh_q sh_g sh_l sh_slot sh_enc sh_op sh_loop sh_fin sh_close sh_phys sh_w].
  f_equal; apply gop_nil. Qed.


(** ** Invariant *)
Definition queued (q : list outbound) : gmultiset Quota.tok :=
  foldr (fun r acc => req_toks (ob_bytes r) ⊎ acc) ∅ q.
(** The bytes of a list of requests. *)
Definition frames_of (rs : list outbound) : bytes := mjoin (ob_frame <$> rs).

#[global] Arguments queued : simpl never.
#[global] Arguments frames_of : simpl never.
Lemma queued_app a b : queued (a ++ b) = queued a ⊎ queued b.
Proof.
  induction a as [|r a IH]; [symmetry; apply (left_id_L ∅ (⊎))|].
  change (req_toks (ob_bytes r) ⊎ queued (a ++ b) = req_toks (ob_bytes r) ⊎ queued a ⊎ queued b).
  by rewrite IH, (assoc_L (⊎)).
Qed.
Lemma queued_single r : queued [r] = req_toks (ob_bytes r).
Proof. apply (right_id_L ∅ (⊎)). Qed.
Lemma frames_of_app a b : frames_of (a ++ b) = frames_of a ++ frames_of b.
Proof. unfold frames_of. by rewrite fmap_app, join_app. Qed.
Lemma frames_of_cons r rs : frames_of (r :: rs) = ob_frame r ++ frames_of rs.
Proof. done. Qed.

Section invariant.
Context (lim : site -> Z) (bound total : nat) (wq : Z) (frame_ok : bytes -> Z -> Prop).

Definition writer_inv (s : connSt) (w : excl wtok) : Prop :=
  match w with
  | Nobody => cn_queue s = [] /\ g_drained (cn_gate s) = true /\ cn_handled s = cn_admitted s
  | Owner (WIdle n clean dr em) =>
      cn_admitted s = cn_handled s ++ cn_queue s /\ length (cn_handled s) = n /\
      (clean = true -> cn_wire s = frames_of (cn_handled s)) /\
      (dr = true -> g_drained (cn_gate s) = true) /\
      (em = true -> g_drained (cn_gate s) = true /\ cn_queue s = [])
  | Owner (WBusy n req ph dr) =>
      cn_admitted s = cn_handled s ++ req :: cn_queue s /\ length (cn_handled s) = n /\
      match ph with
      | Fresh => cn_wire s = frames_of (cn_handled s)
      | Wrote => cn_wire s = frames_of (cn_handled s ++ [req])
      | Failed => True
      end /\ (dr = true -> g_drained (cn_gate s) = true)
  | Conflict => False
  end.

Lemma writer_inv_gate s t w :
  writer_inv s w -> (g_drained (cn_gate s) = true -> g_drained t = true) ->
  writer_inv (set_gate t s) w.
Proof.
  intros Hw Hd. destruct w as [|[]|]; cbn in *; [| | |done].
  - destruct Hw as (? & ? & ?). auto.
  - destruct Hw as (? & ? & ? & ? & Hem). split_and!; auto. intros [? ?]%Hem. auto.
  - destruct Hw as (? & ? & ? & ?). split_and!; auto.
Qed.

Record conn_inv (s : connSt) (m : share) : Prop := {
  ci_quota : quota_inv lim bound (cn_quota s) (sh_q m ⊎ queued (cn_queue s));
  ci_gate : gate_inv (cn_gate s) (sh_g m);
  ci_life : life_inv (cn_life s) (sh_l m);
  ci_slots : cn_slots s = Z.of_nat (sh_slot m + length (cn_queue s));
  ci_enc : Nat.b2n (cn_enc s) = sh_enc m;
  ci_closing : closing s = true -> g_closed (cn_gate s) = true;
  ci_once : (sh_close m + Nat.b2n (closing s))%nat = Nat.b2n (cn_once s);
  ci_phys : 0 <= cn_physical s /\ cn_physical s + Z.of_nat (sh_phys m) = Z.of_nat (Nat.b2n (closing s));
  ci_log : true ∈ ls_log (cn_life s) -> cn_once s = true;
  ci_ops : (length (cn_admitted s) + sh_op m <= total)%nat;
  ci_ids : forall i r, cn_admitted s !! i = Some r -> ob_id r = i /\ ob_bytes r = zlen (ob_frame r);
  ci_frames : Forall (fun r => frame_ok (ob_frame r) (ob_payload r)) (cn_admitted s);
  ci_loops : cn_loops s = Z.of_nat (sh_loop m);
  ci_fin : (sh_fin m + Nat.b2n (cn_done s))%nat = 1%nat;
  ci_done : cn_done s = true -> WriteCh ∈ l_signals (ls_life (cn_life s));
  ci_acks : (cn_acked s).*1 = ob_id <$> filter (fun r => ob_ack r = true) (cn_handled s);
  ci_nil : forall id, (id, None) ∈ cn_acked s -> exists l1 r l2,
    cn_admitted s = l1 ++ r :: l2 /\ ob_id r = id /\ frames_of (l1 ++ [r]) `prefix_of` cn_wire s;
  ci_buf : forall id r, cn_ackbuf s !! id = Some r -> id ∈ (cn_acked s).*1;
  ci_wire : cn_wire s `prefix_of` frames_of (cn_admitted s);
  ci_proto : cn_proto s = true ->
    g_drained (cn_gate s) = true /\ cn_handled s = cn_admitted s /\ cn_wire s = frames_of (cn_admitted s);
  ci_caps : cn_slotcap s = wq + 1 /\ cn_qcap s = wq /\ cn_slots s <= cn_slotcap s /\ zlen (cn_queue s) <= cn_qcap s;
  ci_writer : writer_inv s (sh_w m);
}.

(** A sender inside the gate keeps it from being drained. *)
Lemma inside_not_drained s m : conn_inv s m -> (0 < (sh_g m).1)%nat -> g_drained (cn_gate s) = false.
Proof.
  intros HI Hg. destruct (ci_gate _ _ HI) as (Ha & -> & _). rewrite Ha.
  apply andb_false_iff. right. apply Z.eqb_neq. lia.
Qed.

(** A goroutine that waits owes no signal, no close and no report. *)
Definition quiet (m : share) : Prop :=
  settled (sh_l m) /\ sh_close m = 0%nat /\ sh_phys m = 0%nat.
Definition conn_blk (s : connSt) (m : share) : Prop :=
  quiet m /\
  (closing s = false \/
   ((sh_g m).1 = 0%nat /\
    ((g_drained (cn_gate s) = false /\ sh_fin m = 0%nat) \/
     (0 < cn_loops s /\ sh_loop m = 0%nat) \/
     (cn_done s = false /\ sh_loop m = 0%nat /\ sh_fin m = 0%nat) \/
     cn_physical s = 0))).
Definition conn_fin (m : share) : Prop :=
  Quota.idle (sh_q m) /\ sh_g m = (0, 0)%nat /\ settled (sh_l m) /\ sh_slot m = 0%nat /\
  sh_enc m = 0%nat /\ sh_loop m = 0%nat /\ sh_fin m = 0%nat /\ sh_close m = 0%nat /\
  sh_phys m = 0%nat /\ sh_w m = Nobody.

(** ** Running the components *)
Definition life_step (l l' : lifeState) : Prop :=
  l_signals (ls_life l) ⊆ l_signals (ls_life l') /\ ls_log l' = ls_log l.
#[global] Instance life_step_preorder : PreOrder life_step.
Proof. split; [by split|]. intros a b c [? ?] [? ?]. split; [set_solver|congruence]. Qed.

Lemma conn_quota_get s m F :
  conn_inv s (m ∙ F) ->
  quota_inv lim bound (lget quota_of s) (sh_q m ∙ (sh_q F ∙ queued (cn_queue s))).
Proof.
  intros HI. pose proof (ci_quota _ _ HI) as Hq. cbn in *.
  by rewrite (assoc_L (⊎)).
Qed.
Lemma conn_quota_put s m F t mt :
  conn_inv s (m ∙ F) -> quota_step (lget quota_of s) t ->
  quota_inv lim bound t (mt ∙ (sh_q F ∙ queued (cn_queue s))) ->
  conn_inv (lset quota_of t s) (put_q mt m ∙ F).
Proof.
  intros [] HR Hq. assert (closing (set_quota t s) = closing s) as Hc.
  { unfold closing. cbn. destruct HR as [HR _]. cbn in HR. by rewrite HR. }
  split; cbn -[closing]; rewrite ?Hc; try done. cbn in Hq. by rewrite <- (assoc_L (⊎)).
Qed.

Lemma conn_gate_get s m F :
  conn_inv s (m ∙ F) -> gate_inv (lget gate_of s) (sh_g m ∙ (sh_g F ∙ gnil)).
Proof. intros HI. rewrite gop_nil_r. apply (ci_gate _ _ HI). Qed.
Lemma conn_gate_put s m F t mt :
  conn_inv s (m ∙ F) -> gate_mono (lget gate_of s) t -> gate_inv t (mt ∙ (sh_g F ∙ gnil)) ->
  conn_inv (lset gate_of t s) (put_g mt m ∙ F).
Proof.
  intros [] [HR1 HR2] Hg. rewrite gop_nil_r in Hg. cbn in HR1, HR2.
  split; cbn; try done; [by auto| |].
  - intros Hp. destruct (ci_proto0 Hp) as (? & ? & ?). auto.
  - by eapply writer_inv_gate.
Qed.

Lemma conn_life_get s m F :
  conn_inv s (m ∙ F) -> life_inv (lget life_of s) (sh_l m ∙ (sh_l F ∙ gnil)).
Proof. intros HI. rewrite gop_nil_r. apply (ci_life _ _ HI). Qed.
Lemma conn_life_put s m F t mt :
  conn_inv s (m ∙ F) -> life_step (lget life_of s) t -> life_inv t (mt ∙ (sh_l F ∙ gnil)) ->
  conn_inv (lset life_of t s) (put_l mt m ∙ F).
Proof.
  intros [] [HR1 HR2] Hl. rewrite gop_nil_r in Hl. cbn in HR1, HR2.
  split; cbn; try done; rewrite ?HR2; auto.
Qed.
End invariant.
