(* ===== verification/SessionProofs.v ===== *)
(** * SessionProofs: every interleaving of a stream Session

    The programs of Session.v verified against the invariant of SessionInv.v, one lemma per
    method, and the properties of every reachable state of every pool. *)
From S2P Require Import Prelude Conc Kinds Errors Classify Message Wire Gate Lifecycle Quota Reader.
From S2P Require Import Session SessionInv.
Local Open Scope go_scope.
Local Open Scope Z_scope.

(** ** What the lifecycle's programs change *)
Lemma once_step ch : respects life_step (once life_lens ch).
Proof. apply respects_atomically. intros s. split; cbn; [set_solver|done]. Qed.
Lemma abortWith_step why e : respects life_step (abortWith life_lens why (publish_err e)).
Proof.
  apply respects_bind.
  { apply respects_atomically. intros s. cbv zeta. by case_match. }
  intros []; [|done]. cbn [negb]. unfold markReadClosed, markWriteClosed.
  repeat (apply respects_bind; [apply once_step|intros _]). done.
Qed.
Lemma terminal_channels_step : respects life_step (markTerminalChannels life_lens).
Proof.
  unfold markTerminalChannels, markReadClosed, markWriteClosed.
  repeat (apply respects_bind; [apply once_step|intros _]). apply once_step.
Qed.
Lemma tryMarkTerminal_step : respects life_step (tryMarkTerminal life_lens).
Proof.
  apply respects_bind.
  { apply respects_atomically. intros s. cbv zeta. by case_match. }
  intros []; [|done]. apply respects_bind; [apply terminal_channels_step|done].
Qed.
Lemma markTerminal_step : respects life_step (markTerminal life_lens).
Proof.
  apply respects_bind; [|intros _; apply terminal_channels_step].
  apply respects_atomically. intros s. cbn. by case_match.
Qed.
Lemma request_step g : respects life_step (requestWithPrevious life_lens g).
Proof.
  unfold requestWithPrevious. case_match; [done|]. apply respects_bind.
  { apply respects_atomically. intros s. cbv zeta. by case_match. }
  intros [[] prev]; [|done]. cbn [fst snd negb]. apply respects_bind; [apply once_step|]. intros _.
  apply respects_bind; [|done]. case_match; [apply once_step|done].
Qed.

(** ** The components, run by a Session *)
Section proofs.
Context (lim : site -> Z) (bound total : nat) (wq : Z) (frame_ok : bytes -> Z -> Prop).
Hypothesis lim_ok : forall c, 0 <= lim c < 2 ^ 62.
Abbreviation inv := (conn_inv lim bound total wq frame_ok).
Abbreviation cwp := (wp inv conn_blk).

Lemma put_q_id m : put_q (sh_q m) m = m. Proof. by destruct m. Qed.
Lemma put_g_id m : put_g (sh_g m) m = m. Proof. by destruct m. Qed.
Lemma put_l_id m : put_l (sh_l m) m = m. Proof. by destruct m. Qed.

Lemma wp_quota {A} (BlkT : quotaState -> gmultiset Quota.tok -> Prop) (p : prog quotaState A) m Q :
  respects quota_step p -> (forall s mt, BlkT (cn_quota s) mt -> conn_blk s (put_q mt m)) ->
  wp (quota_inv lim bound) BlkT p (sh_q m) (fun a mt => Q a (put_q mt m)) ->
  cwp (lift quota_of p) m Q.
Proof.
  apply (wp_lift quota_of) with (R := quota_step) (stored := fun s => queued (cn_queue s)).
  - done.
  - done.
  - apply put_q_id.
  - apply conn_quota_get.
  - apply conn_quota_put.
Qed.
Lemma wp_gate {A} (p : prog sendGate A) m Q :
  respects gate_mono p ->
  wp gate_inv (fun _ _ => False) p (sh_g m) (fun a mt => Q a (put_g mt m)) ->
  cwp (lift gate_of p) m Q.
Proof.
  intros Hr. apply (wp_lift gate_of) with (R := gate_mono) (stored := fun _ => gnil); try done.
  - apply put_g_id.
  - apply conn_gate_get.
  - apply conn_gate_put.
Qed.
Lemma wp_life {A} (p : prog lifeState A) m Q :
  respects life_step p ->
  wp life_inv never p (sh_l m) (fun a mt => Q a (put_l mt m)) ->
  cwp (lift life_of p) m Q.
Proof.
  intros Hr. apply (wp_lift life_of) with (R := life_step) (stored := fun _ => gnil); try done.
  - apply put_l_id.
  - apply conn_life_get.
  - apply conn_life_put.
Qed.

Lemma wp_session_acquire fuel k j n m q Q :
  (bound < fuel)%nat -> quiet m -> 0 <= n ->
  sh_q m = {[+ Quota.Credit +]} ⊎ ({[+ Quota.Credit +]} ⊎ q) -> stocked j q ->
  (forall e q', stocked j q' -> Q (Some e) (put_q q' m)) -> Q None (put_q (req_toks n ⊎ q) m) ->
  cwp (quota_acquire fuel k n) m Q.
Proof.
  intros Hf Hq Hn E Hs HE HQ.
  eapply (wp_quota (fun t _ => qs_closing t 0%nat = false)); [apply acquire_step| |].
  - intros s mt Hc. split; [done|]. by left.
  - rewrite E. eapply wp_acquire; [exact lim_ok| |done..| |].
    + intros s m' _ Hc. exact Hc.
    + intros e q' Hq'. by apply HE.
    + by rewrite acquired_req.
Qed.
Lemma wp_session_tryAcquire j n m q Q :
  0 <= n -> sh_q m = {[+ Quota.Credit +]} ⊎ ({[+ Quota.Credit +]} ⊎ q) -> stocked j q ->
  (forall e q', stocked j q' -> Q (Some e) (put_q q' m)) -> Q None (put_q (req_toks n ⊎ q) m) ->
  cwp (quota_tryAcquire n) m Q.
Proof.
  intros Hn E Hs HE HQ.
  eapply (wp_quota (fun _ _ => False)); [apply tryAcquire_step|done|].
  rewrite E. eapply wp_tryAcquire; [exact lim_ok|done|done| |].
  - intros e q' Hq'. by apply HE.
  - by rewrite acquired_req.
Qed.
Lemma wp_session_release n m q Q :
  0 <= n -> sh_q m = req_toks n ⊎ q -> Q tt (put_q q m) -> cwp (quota_release n) m Q.
Proof.
  intros Hn E HQ. eapply (wp_quota (fun _ _ => False)); [apply release_step|done|].
  rewrite E, <- acquired_req. by apply wp_release.
Qed.

Lemma wp_session_enter m (Q : bool -> share -> Prop) :
  sh_g m = (0, 0)%nat -> Q true (put_g (1, 0)%nat m) -> Q false m -> cwp (lift gate_of enter) m Q.
Proof.
  intros E HT HF. apply wp_gate; [apply enter_mono|]. rewrite E. apply wp_enter; [done|].
  by rewrite <- E, put_g_id.
Qed.
Lemma wp_session_leave m (Q : unit -> share -> Prop) :
  sh_g m = (1, 0)%nat -> Q tt (put_g (0, 0)%nat m) -> cwp gate_leave_now m Q.
Proof. intros E HQ. apply wp_gate; [apply leave_mono|]. rewrite E. by apply wp_leave. Qed.
Lemma wp_session_close m (Q : unit -> share -> Prop) :
  sh_g m = (0, 0)%nat -> Q tt m -> cwp gate_close_now m Q.
Proof.
  intros E HQ. apply wp_gate; [apply close_mono|]. rewrite E. apply wp_close_drop.
  by rewrite <- E, put_g_id.
Qed.
Lemma wp_session_close_keep m (Q : unit -> share -> Prop) :
  sh_g m = (0, 0)%nat -> Q tt (put_g (0, 1)%nat m) -> cwp gate_close_now m Q.
Proof. intros E HQ. apply wp_gate; [apply close_mono|]. rewrite E. by apply wp_close. Qed.

(** A section that only reads. *)
Lemma wp_read {B} (f : connSt -> B) m (Q : B -> share -> Prop) :
  (forall s F, inv s (m ∙ F) -> Q (f s) m) -> cwp (atomically (fun s => (s, f s))) m Q.
Proof. intros HQ. apply wp_atomically. intros s F HI. exists m. split; [done|]. by eapply HQ. Qed.
(** A section that changes only what the invariant does not mention. *)
Lemma wp_count (f : connSt -> connSt) m (Q : unit -> share -> Prop) :
  (forall s m, inv s m -> inv (f s) m) -> Q tt m -> cwp (atomically (fun s => (f s, tt))) m Q.
Proof. intros Hf HQ. apply wp_atomically. intros s F HI. exists m. split; [by apply Hf|done]. Qed.

(** *** Closing *)
Lemma wp_enter_once aborting m l (Q : bool -> share -> Prop) :
  sh_l m = (if aborting : bool then {[+ Won +]} ⊎ l else l) ->
  Q true (put_close (S (sh_close m)) (put_l l m)) -> Q false (put_l l m) ->
  cwp (atomically (enter_once aborting)) m Q.
Proof.
  intros E HT HF. apply wp_atomically. intros s F HI. unfold enter_once. cbn [fst snd].
  assert (life_inv (if aborting then {| ls_life := ls_life (cn_life s); ls_err := ls_err (cn_life s);
      ls_log := true :: ls_log (cn_life s) |} else cn_life s) (l ⊎ sh_l F)) as Hl.
  { pose proof (ci_life _ _ _ _ _ _ _ HI) as Hl. cbn in Hl. rewrite E in Hl. destruct aborting; [|done].
    rewrite <- (assoc_L (⊎)) in Hl. by apply inv_report. }
  destruct HI. destruct (cn_once s) eqn:Eo.
  - exists (put_l l m). split; [|done]. destruct aborting; split; cbn in *; by rewrite ?Eo.
  - exists (put_close (S (sh_close m)) (put_l l m)). split; [|done].
    destruct aborting; split; unfold closing in *; cbn in *; rewrite ?Eo in *; cbn in *; done || lia.
Qed.

Lemma wp_close_closing m (Q : unit -> share -> Prop) :
  sh_g m = (0, 1)%nat -> sh_close m = 1%nat -> sh_phys m = 0%nat ->
  Q tt (put_phys 1%nat (put_close 0%nat (put_g (0, 0)%nat m))) ->
  cwp (atomic_panic close_closing) m Q.
Proof.
  intros Eg Ec Ep HQ. apply wp_atomic_panic. intros s F HI. unfold close_closing.
  assert (closing s = false) as Hc.
  { pose proof (ci_once _ _ _ _ _ _ _ HI) as Ho. cbn in Ho. rewrite Ec in Ho.
    destruct (closing s), (cn_once s); cbn in Ho; lia || done. }
  rewrite Hc. do 3 eexists. split; [done|]. split; [|exact HQ].
  assert (g_closed (cn_gate s) = true) as Hg.
  { apply (ci_gate _ _ _ _ _ _ _ HI). cbn. rewrite Eg. cbn. lia. }
  destruct HI. rewrite Hc in *. split; unfold closing in *; cbn in *; rewrite ?fupd_same; cbn; try done; try lia.
  rewrite Eg in ci_gate. by apply gate_inv_weaken.
Qed.
Lemma wp_close_socket m (Q : unit -> share -> Prop) :
  sh_phys m = 1%nat -> Q tt (put_phys 0%nat m) ->
  cwp (atomically (fun s => (set_physical (cn_physical s + 1) s, tt))) m Q.
Proof.
  intros Ep HQ. apply wp_atomically. intros s F HI. eexists. split; [|exact HQ].
  destruct HI. split; unfold closing in *; cbn in *; done || lia.
Qed.

(** A goroutine outside the gate that owes nothing. *)
Definition calm (m : share) : Prop := quiet m /\ sh_g m = (0, 0)%nat.

Lemma wp_closeOnce aborting m l (Q : unit -> share -> Prop) :
  sh_l m = (if aborting : bool then {[+ Won +]} ⊎ l else l) -> calm (put_l l m) ->
  Q tt (put_l l m) -> cwp (closeOnce aborting) m Q.
Proof.
  intros E [(Hl & Hc & Hp) Hg] HQ. cbn in Hl, Hc, Hp, Hg. unfold closeOnce. apply wp_bind, (wp_enter_once _ _ _ _ E).
  - apply wp_bind, wp_session_close_keep; [done|].
    apply wp_bind, wp_close_closing; [done|cbn; lia|done|].
    apply wp_close_socket; [done|]. destruct m. cbn in *. by subst.
  - apply wp_select. intros s F HI. split.
    + intros Hr. split; [done|]. right. cbn. rewrite Hg. split; [done|]. do 3 right.
      destruct (0 <? cn_physical s) eqn:Eph; [done|]. apply Z.ltb_ge in Eph.
      destruct HI. cbn in *. destruct (closing s); cbn in *; lia.
    + intros s' [] Hin. unfold ready in Hin. case_match; [|by apply elem_of_nil in Hin].
      apply list_elem_of_singleton in Hin as [= ->]. eauto.
Qed.

(** What the lifecycle's programs do to the caller's share. *)
Lemma wp_once_closed ch m (Q : unit -> share -> Prop) :
  ch = ReadCh \/ ch = WriteCh -> Q tt m -> cwp (lift life_of (once life_lens ch)) m Q.
Proof.
  intros Hch HQ. apply wp_life; [apply once_step|]. apply wp_once_free; [done|]. by rewrite put_l_id.
Qed.
Lemma wp_session_request g m (Q : bool * closeGoal -> share -> Prop) :
  settled (sh_l m) -> (forall r l, settled l -> Q r (put_l l m)) ->
  cwp (lift life_of (requestWithPrevious life_lens g)) m Q.
Proof. intros Hl HQ. apply wp_life; [apply request_step|]. by apply wp_requestWithPrevious. Qed.

Section closing.
Context `{WebSocketLib} (pf : platform) (env : connEnv) (raw : stream).
Context (cause_of : nat -> error) (rnd : nat -> bytes) (io : nat -> write_io).

Lemma calm_put_l l m : calm m -> settled l -> calm (put_l l m).
Proof. by intros [(? & ? & ?) ?]. Qed.
Hint Resolve calm_put_l : core.

Lemma wp_abort why cause m (Q : bool -> share -> Prop) :
  why <> abortNone -> calm m -> (forall r l, settled l -> Q r (put_l l m)) -> cwp (abort why cause) m Q.
Proof.
  intros Hwhy Hm HQ. apply wp_bind, wp_life; [apply abortWith_step|].
  apply wp_abortWith; [done|apply Hm|..]; intros l Hl.
  - by apply HQ.
  - apply wp_bind, (wp_closeOnce true _ l); [done|by apply (calm_put_l l) in Hm|]. by apply HQ.
Qed.
Lemma wp_initiateClose cause m (Q : unit -> share -> Prop) :
  calm m -> (forall l, settled l -> Q tt (put_l l m)) -> cwp (initiateClose cause) m Q.
Proof. intros Hm HQ. apply wp_bind, wp_abort; [done..|]. intros _ l Hl. by apply HQ. Qed.

Lemma wp_maybeFinishGraceful m (Q : unit -> share -> Prop) :
  calm m -> (forall l, settled l -> Q tt (put_l l m)) -> cwp maybeFinishGraceful m Q.
Proof.
  intros Hm HQ. assert (Q tt m) as HQ0 by (rewrite <- (put_l_id m); apply HQ, Hm).
  apply wp_bind, wp_read. intros s F _. case_match; [done|].
  apply wp_bind, wp_read. intros s1 F1 _. case_match; [done|].
  apply wp_bind, wp_life; [apply tryMarkTerminal_step|]. apply wp_tryMarkTerminal; [apply Hm|].
  intros [] l Hl; [|by apply HQ]. apply (wp_closeOnce false _ l); [done| |by apply HQ].
  by apply (calm_put_l l) in Hm.
Qed.
End closing.
End proofs.
