(* ===== verification/SessionSend.v ===== *)
(** * SessionSend: the callers of a stream Session

    The admission path, [Send], [TrySend], [CloseWrite], [Shutdown] and [Close] of
    Session.v keep the invariant of SessionInv.v and return with nothing but what the
    caller's next calls need. *)
From S2P Require Import Prelude Conc Kinds Errors Classify Message Wire Gate Lifecycle Quota Reader.
From S2P Require Import Session SessionInv SessionProofs.
Local Open Scope go_scope.
Local Open Scope Z_scope.

Section send.
Context (lim : site -> Z) (bound total : nat) (wq : Z) (frame_ok : bytes -> Z -> Prop).
Hypothesis lim_ok : forall c, 0 <= lim c < 2 ^ 62.
Abbreviation inv := (conn_inv lim bound total wq frame_ok).
Abbreviation cwp := (wp inv conn_blk).

(** ** Slots and the encoder *)
Lemma inv_take_slot s m F :
  inv s (m ∙ F) -> slot_free s = true -> inv (take_slot s) (put_slot (S (sh_slot m)) m ∙ F).
Proof.
  unfold slot_free. intros [] Hf%Z.ltb_lt. split; cbn in *; done || lia.
Qed.
Lemma wp_releaseFrameSlot m n (Q : unit -> share -> Prop) :
  sh_slot m = S n -> Q tt (put_slot n m) -> cwp releaseFrameSlot m Q.
Proof.
  intros E HQ. apply wp_select. intros s F HI.
  assert (0 <? cn_slots s = true) as Hs.
  { pose proof (ci_slots _ _ _ _ _ _ _ HI) as Hs. cbn in Hs. rewrite E in Hs. lia. }
  rewrite Hs. split; [done|]. intros s' [] (_ & -> & _)%elem_ready.
  exists (put_slot n m). split; [|done]. destruct HI. split; cbn in *; done || lia.
Qed.
Lemma blk_open s m : quiet m -> closing s = false -> conn_blk s m.
Proof. intros Hq Hc. split; [done|]. by left. Qed.

Lemma wp_acquireFrameSlot k m (Q : option error -> share -> Prop) :
  quiet m -> (forall e, Q (Some e) m) -> Q None (put_slot (S (sh_slot m)) m) ->
  cwp (acquireFrameSlot k) m Q.
Proof.
  intros Hq HE HQ. apply wp_select. intros s F HI. split.
  - intros [_ [?%ready_nil _]%app_eq_nil]%app_eq_nil. by apply blk_open.
  - intros s' r. rewrite !elem_of_app, !elem_ready.
    intros [(Hd & -> & ->)|[(_ & -> & ->)|(Hf & -> & ->)]].
    + exists m. split; [done|]. unfold done_ctx in Hd. by case_match.
    + eauto.
    + eexists. split; [by apply inv_take_slot|done].
Qed.
Lemma wp_tryAcquireFrameSlot m (Q : option error -> share -> Prop) :
  (forall e, Q (Some e) m) -> Q None (put_slot (S (sh_slot m)) m) -> cwp tryAcquireFrameSlot m Q.
Proof.
  intros HE HQ. apply wp_select. intros s F HI. split; [by intros ?%default_ready|].
  intros s' r [Hin|(_ & -> & ->)]%elem_default; [|eauto].
  rewrite elem_of_app, !elem_ready in Hin. destruct Hin as [(_ & -> & ->)|(Hf & -> & ->)]; [eauto|].
  eexists. split; [by apply inv_take_slot|done].
Qed.

Lemma inv_take_encoder s m F :
  inv s (m ∙ F) -> negb (cn_enc s) = true -> inv (set_enc true s) (put_enc (S (sh_enc m)) m ∙ F).
Proof. intros [] Hf%negb_true_iff. rewrite Hf in *. split; cbn in *; done || lia. Qed.
Lemma wp_releaseEncoder m (Q : unit -> share -> Prop) :
  sh_enc m = 1%nat -> Q tt (put_enc 0%nat m) -> cwp releaseEncoder m Q.
Proof.
  intros E HQ. apply wp_select. intros s F HI.
  assert (cn_enc s = true) as Hs.
  { pose proof (ci_enc _ _ _ _ _ _ _ HI) as Hs. cbn in Hs. rewrite E in Hs. by destruct (cn_enc s). }
  rewrite Hs. split; [done|]. intros s' [] (_ & -> & _)%elem_ready.
  exists (put_enc 0%nat m). split; [|done]. destruct HI. rewrite Hs in *. split; cbn in *; done || lia.
Qed.
Lemma wp_encoder_recheck m (Q : option error -> share -> Prop) :
  sh_enc m = 1%nat -> (forall e, Q (Some e) (put_enc 0%nat m)) -> Q None m -> cwp encoder_recheck m Q.
Proof.
  intros E HE HQ. apply wp_bind, wp_read. intros s F _. case_match; [|done].
  apply wp_bind, wp_releaseEncoder; [done|]. by apply wp_ret.
Qed.
(** Both ways to take the encoder. *)
Lemma wp_take_encoder cases m (Q : option error -> share -> Prop) :
  sh_enc m = 0%nat -> (forall e, Q (Some e) m) -> Q None (put_enc 1%nat m) ->
  (forall s F, inv s (m ∙ F) -> (cases s = [] -> conn_blk s m) /\
     forall s' r, (s', r) ∈ cases s -> (s' = s /\ r <> None) \/
       (negb (cn_enc s) = true /\ s' = set_enc true s /\ r = None)) ->
  cwp (r ← select cases; match r with Some e => mret (Some e) | None => encoder_recheck end) m Q.
Proof.
  intros E HE HQ Hc. apply wp_bind, wp_select. intros s F HI. destruct (Hc s F HI) as [Hb Hin].
  split; [done|]. intros s' r [(-> & Hr)|(Hf & -> & ->)]%Hin.
  - exists m. split; [done|]. destruct r; [apply HE|done].
  - eexists. split; [by apply inv_take_encoder|]. rewrite E. apply wp_encoder_recheck; [done| |done].
    intros e. replace (put_enc 0%nat _) with m; [done|]. destruct m. cbn in *. by subst.
Qed.
Lemma wp_acquireEncoder k m (Q : option error -> share -> Prop) :
  quiet m -> sh_enc m = 0%nat -> (forall e, Q (Some e) m) -> Q None (put_enc 1%nat m) ->
  cwp (acquireEncoder k) m Q.
Proof.
  intros Hq E HE HQ. apply wp_take_encoder; [done..|]. intros s F HI. split.
  - intros [_ [?%ready_nil _]%app_eq_nil]%app_eq_nil. by apply blk_open.
  - intros s' r. rewrite !elem_of_app, !elem_ready.
    intros [(Hd & -> & ->)|[(_ & -> & ->)|(Hf & -> & ->)]]; [left|by left|by right].
    split; [done|]. unfold done_ctx in Hd. by case_match.
Qed.
Lemma wp_tryAcquireEncoder m (Q : option error -> share -> Prop) :
  sh_enc m = 0%nat -> (forall e, Q (Some e) m) -> Q None (put_enc 1%nat m) ->
  cwp tryAcquireEncoder m Q.
Proof.
  intros E HE HQ. apply wp_take_encoder; [done..|]. intros s F HI. split; [by intros ?%default_ready|].
  intros s' r [Hin|(_ & -> & ->)]%elem_default; [|by left].
  rewrite elem_of_app, !elem_ready in Hin. destruct Hin as [(_ & -> & ->)|(Hf & -> & ->)]; [by left|by right].
Qed.

(** ** Preparing a frame *)
Context `{WebSocketLib} (pf : platform) (env : connEnv).
Context (cause_of : nat -> error) (rnd : nat -> bytes) (qfuel : nat).
Hypothesis qfuel_ok : (bound < qfuel)%nat.
Hypothesis frame_ok_encoded : forall k msg frame,
  Validate msg = None -> f_Encode (ce_framer env) (rnd k) msg = inl frame -> frame_ok frame (zlen (msg_Data msg)).

(** The share of a caller inside or outside the gate. *)
Definition client (l : gmultiset Lifecycle.tok) (q : gmultiset Quota.tok) (g slot enc op : nat) : share :=
  Share q (g, 0%nat) l slot enc op 0 0 0 0 Nobody.
Lemma client_quiet l q g slot enc op : settled l -> quiet (client l q g slot enc op).
Proof. done. Qed.
Hint Resolve client_quiet : core.
(** A call owns the two credits its bytes cost. *)
Abbreviation paid q := ({[+ Quota.Credit +]} ⊎ ({[+ Quota.Credit +]} ⊎ q)).

Section prepare.
Context (l : gmultiset Lifecycle.tok) (q : gmultiset Quota.tok) (j op : nat).
Hypothesis (Hl : settled l) (Hq : stocked j q).
Lemma stocked_paid : stocked j (paid q).
Proof. by apply (stocked_credit lim), (stocked_credit lim). Qed.
Hint Resolve stocked_paid : core.

Definition charges (charge : Z -> prog connSt (option error)) : Prop :=
  forall n (Q : option error -> share -> Prop), 0 <= n ->
    (forall e q', stocked j q' -> Q (Some e) (client l q' 1 1 1 op)) ->
    Q None (client l (req_toks n ⊎ q) 1 1 1 op) ->
    cwp (charge n) (client l (paid q) 1 1 1 op) Q.

Lemma wp_encode_and_charge charge msg (Q : result bytes -> share -> Prop) :
  charges charge -> Validate msg = None ->
  (forall e q', stocked j q' -> Q (inr e) (client l q' 1 0 0 op)) ->
  (forall frame, frame_ok frame (zlen (msg_Data msg)) -> Q (inl frame) (client l (req_toks (zlen frame) ⊎ q) 1 1 0 op)) ->
  cwp (encode_and_charge env rnd charge msg) (client l (paid q) 1 1 1 op) Q.
Proof.
  intros Hc Hv HE HQ.
  assert (forall (e : error) q', stocked j q' -> cwp (releaseEncoder ≫= fun _ => releaseFrameSlot ≫= fun _ =>
            mret (inr e)) (client l q' 1 1 1 op) Q) as Hfail.
  { intros e q' Hq'. apply wp_bind, wp_releaseEncoder; [done|].
    apply wp_bind, (wp_releaseFrameSlot _ 0%nat); [done|]. apply wp_ret. by apply HE. }
  apply wp_bind, wp_atomically. intros s F HI. exists (client l (paid q) 1 1 1 op).
  split; [by destruct HI; split|]. cbn [snd]. destruct (f_Encode _ _ _) as [frame|e] eqn:Ef; [|by apply Hfail].
  apply wp_bind, Hc; [apply zlen_nonneg|by intros; apply Hfail|].
  apply wp_bind, wp_releaseEncoder; [done|]. by eapply wp_ret, HQ, frame_ok_encoded.
Qed.

Lemma wp_prepareSend k msg (Q : result bytes -> share -> Prop) :
  Validate msg = None ->
  (forall e q', stocked j q' -> Q (inr e) (client l q' 1 0 0 op)) ->
  (forall frame, frame_ok frame (zlen (msg_Data msg)) -> Q (inl frame) (client l (req_toks (zlen frame) ⊎ q) 1 1 0 op)) ->
  cwp (prepareSend env rnd qfuel k msg) (client l (paid q) 1 0 0 op) Q.
Proof.
  intros Hv HE HQ. apply wp_bind, wp_acquireFrameSlot; [auto|intros e; by apply wp_ret, HE|].
  apply wp_bind, wp_acquireEncoder; [by auto|done| |].
  - intros e. apply wp_bind, (wp_releaseFrameSlot _ 0%nat); [done|]. by apply wp_ret, HE.
  - apply wp_encode_and_charge; [|done..]. intros n Q' Hn HE' HQ'.
    by eapply (wp_session_acquire lim bound total wq frame_ok lim_ok qfuel k j n).
Qed.
Lemma wp_prepareTrySend msg (Q : result bytes -> share -> Prop) :
  Validate msg = None ->
  (forall e q', stocked j q' -> Q (inr e) (client l q' 1 0 0 op)) ->
  (forall frame, frame_ok frame (zlen (msg_Data msg)) -> Q (inl frame) (client l (req_toks (zlen frame) ⊎ q) 1 1 0 op)) ->
  cwp (prepareTrySend env rnd msg) (client l (paid q) 1 0 0 op) Q.
Proof.
  intros Hv HE HQ. apply wp_bind, wp_tryAcquireFrameSlot; [intros e; by apply wp_ret, HE|].
  apply wp_bind, wp_tryAcquireEncoder; [done| |].
  - intros e. apply wp_bind, (wp_releaseFrameSlot _ 0%nat); [done|]. by apply wp_ret, HE.
  - apply wp_encode_and_charge; [|done..]. intros n Q' Hn HE' HQ'.
    by eapply (wp_session_tryAcquire lim bound total wq frame_ok lim_ok j n).
Qed.
Lemma wp_unprepare n (Q : unit -> share -> Prop) :
  0 <= n -> Q tt (client l q 1 0 0 op) -> cwp (unprepare n) (client l (req_toks n ⊎ q) 1 1 0 op) Q.
Proof.
  intros Hn HQ. apply wp_bind. eapply (wp_session_release lim bound total wq frame_ok lim_ok n); [done..|].
  by apply (wp_releaseFrameSlot _ 0%nat).
Qed.
End prepare.

(** ** The queue *)
Lemma lookup_snoc_inv {A} (xs : list A) x i y :
  (xs ++ [x]) !! i = Some y -> xs !! i = Some y \/ (i = length xs /\ y = x).
Proof.
  rewrite lookup_app. destruct (xs !! i) eqn:E; [intros [= ->]; by left|].
  apply lookup_ge_None in E. intros Hy. right.
  pose proof (lookup_lt_Some _ _ _ Hy). cbn in *. assert (i = length xs) as -> by lia.
  rewrite Nat.sub_diag in Hy. by simplify_eq/=.
Qed.

Lemma writer_enqueue s w frame ack payload :
  g_drained (cn_gate s) = false -> writer_inv s w -> writer_inv (enqueue frame ack payload s) w.
Proof.
  intros Hd Hw. destruct w as [|[]|]; cbn in *; [| | |done].
  - destruct Hw as (_ & ? & _). congruence.
  - destruct Hw as (-> & ? & ? & ? & Hem). split_and!; auto; [by rewrite <- (assoc_L (++))|].
    intros [? _]%Hem. congruence.
  - destruct Hw as (-> & ? & ? & ?). split_and!; auto. by rewrite <- (assoc_L (++)).
Qed.

Lemma inv_enqueue s l q op F frame ack payload :
  inv s (client l (req_toks (zlen frame) ⊎ q) 1 1 0 (S op) ∙ F) -> zlen (cn_queue s) < cn_qcap s ->
  frame_ok frame payload ->
  inv (enqueue frame ack payload s) (client l q 1 0 0 op ∙ F).
Proof.
  intros HI Hcap Hfr. assert (g_drained (cn_gate s) = false) as Hd.
  { eapply inside_not_drained; [exact HI|]. cbn. lia. }
  destruct HI. split; try done; cbn in *.
  - rewrite queued_app, queued_single. cbn.
    match goal with |- quota_inv _ _ _ ?m1 => replace m1 with
      (req_toks (zlen frame) ⊎ q ⊎ sh_q F ⊎ queued (cn_queue s)) end; [done|].
    apply gmultiset_eq. intros x. rewrite !multiplicity_disj_union. lia.
  - rewrite length_app. cbn. lia.
  - rewrite length_app. cbn. lia.
  - intros i r [?|[-> ->]]%lookup_snoc_inv; [auto|done].
  - apply Forall_app. split; [done|]. by apply Forall_singleton.
  - intros id Hid. destruct (ci_nil _ Hid) as (l1 & r & l2 & -> & ? & ?).
    exists l1, r, (l2 ++ [{| ob_id := length (l1 ++ r :: l2); ob_frame := frame; ob_ack := ack;
      ob_bytes := zlen frame; ob_payload := payload |}]). split_and!; [|done..]. by rewrite <- (assoc_L (++)).
  - rewrite frames_of_app. by apply prefix_app_r.
  - intros [? _]%ci_proto. congruence.
  - rewrite zlen_app. cbn. unfold zlen at 2. cbn. lia.
  - by apply writer_enqueue.
Qed.

(** ** Send and TrySend *)
(** What a call leaves its caller with. *)
Definition left_with (j op : nat) (m : share) : Prop :=
  exists l q op', m = client l q 0 0 0 op' /\ settled l /\ stocked j q /\ (op <= op')%nat.
Definition inside (j op : nat) (m : share) : Prop :=
  exists l q op', m = client l q 1 0 0 op' /\ settled l /\ stocked j q /\ (op <= op')%nat.

Lemma inside_quiet j op m : inside j op m -> quiet m.
Proof. intros (l & q & op' & -> & ? & _). auto. Qed.

(** Programs that only read: any result, the share unchanged. *)
Lemma wp_Err m (Q : option error -> share -> Prop) : (forall r, Q r m) -> cwp Err m Q.
Proof. intros HQ. by apply wp_read. Qed.
Lemma wp_sendError k e m (Q : option error -> share -> Prop) : (forall r, Q r m) -> cwp (sendError pf env cause_of k e) m Q.
Proof. intros HQ. by apply wp_read. Qed.
Lemma wp_cause_or k p m (Q : option error -> share -> Prop) :
  (forall r, Q r m) -> cwp p m Q -> cwp (cause_or cause_of k p) m Q.
Proof. intros HQ Hp. apply wp_bind, wp_read. intros s F _. case_match; [by apply wp_ret|done]. Qed.
Lemma wp_lifecycleResult m (Q : option error -> share -> Prop) : (forall r, Q r m) -> cwp lifecycleResult m Q.
Proof.
  intros HQ. apply wp_bind, wp_Err. intros [e|]; [by apply wp_ret|].
  apply wp_bind, wp_read. intros s F _. by apply wp_ret.
Qed.

Lemma inv_drop_ack s m id : inv s m -> inv (set_ackbuf (delete id (cn_ackbuf s)) s) m.
Proof.
  intros []. split; try done. cbn. intros i r [_ Hr]%lookup_delete_Some. eauto.
Qed.
Lemma elem_ack_case id s s' r :
  (s', r) ∈ ack_case id s -> s' = set_ackbuf (delete id (cn_ackbuf s)) s /\ exists e, r = AckIs e.
Proof.
  unfold ack_case. case_match; rewrite ?list_elem_of_singleton, ?elem_of_nil; naive_solver.
Qed.
Lemma wp_await_ack k id m (Q : option error -> share -> Prop) :
  quiet m -> (forall r, Q r m) -> cwp (await_ack pf env cause_of k id) m Q.
Proof.
  intros Hq HQ. apply wp_bind, wp_select. intros s F HI. split.
  { intros [_ [_ ?%ready_nil]%app_eq_nil]%app_eq_nil. by apply blk_open. }
  intros s' r. rewrite !elem_of_app, !elem_ready.
  intros [[-> [e ->]]%elem_ack_case|[(_ & -> & ->)|(_ & -> & ->)]]; exists m.
  - split; [by apply inv_drop_ack|]. by apply wp_ret.
  - split; [done|]. by apply wp_ret.
  - split; [done|]. apply wp_bind, wp_select. clear s F HI. intros s F HI.
    split; [by intros ?%default_ready|].
    intros s' r [[-> [e ->]]%elem_ack_case|(_ & -> & ->)]%elem_default; exists m.
    + split; [by apply inv_drop_ack|]. by apply wp_ret.
    + split; [done|]. apply wp_cause_or; [done|]. apply wp_bind, wp_Err. intros r. by apply wp_ret.
Qed.

(** The select that sends the request to the queue. *)
Lemma elem_queue_case frame ack payload s s' a :
  (s', a) ∈ queue_case frame ack payload s ->
  zlen (cn_queue s) < cn_qcap s /\ s' = enqueue frame ack payload s /\ a = Queued (length (cn_admitted s)).
Proof. unfold queue_case. rewrite elem_ready. intros (?%Z.ltb_lt & -> & ->). done. Qed.

Lemma wp_Send_inside k msg l q op j (Q : option error -> share -> Prop) :
  settled l -> stocked j q -> (forall r m, inside j op m -> Q r m) ->
  cwp (Send_inside pf env cause_of rnd qfuel k msg) (client l (paid q) 1 0 0 (S op)) Q.
Proof.
  intros Hl Hq HQ. assert (forall r q' op', stocked j q' -> (op <= op')%nat -> Q r (client l q' 1 0 0 op')) as HQ'.
  { intros r q' op' ? ?. apply HQ. by exists l, q', op'. }
  unfold Send_inside. destruct (Validate msg) as [e|] eqn:Hv; [apply wp_ret, HQ'; [by apply stocked_paid|lia]|].
  apply wp_bind, (wp_prepareSend l q j); [done..| |].
  - intros e q' Hq'. apply wp_sendError. intros r. by apply HQ'; [|lia].
  - intros frame Hfr. apply wp_bind, wp_select. intros s F HI. split.
    { intros [_ [?%ready_nil _]%app_eq_nil]%app_eq_nil. by apply blk_open; [apply client_quiet|]. }
    intros s' a. rewrite !elem_of_app, !elem_ready.
    intros [(_ & -> & ->)|[(_ & -> & ->)|(Hc & -> & ->)%elem_queue_case]].
    + eexists. split; [exact HI|]. apply wp_bind, (wp_unprepare l q); [apply zlen_nonneg|]. apply wp_ret. by apply HQ'; [|lia].
    + eexists. split; [exact HI|]. apply wp_bind, (wp_unprepare l q); [apply zlen_nonneg|].
      apply wp_cause_or; [|apply wp_ret]; intros; by apply HQ'; [|lia].
    + eexists. split; [by apply inv_enqueue|]. apply wp_await_ack; [by apply client_quiet|].
      intros r. by apply HQ'.
Qed.

Lemma wp_TrySend_inside msg l q op j (Q : option error -> share -> Prop) :
  settled l -> stocked j q -> (forall r m, inside j op m -> Q r m) ->
  cwp (TrySend_inside pf env rnd msg) (client l (paid q) 1 0 0 (S op)) Q.
Proof.
  intros Hl Hq HQ. assert (forall r q' op', stocked j q' -> (op <= op')%nat -> Q r (client l q' 1 0 0 op')) as HQ'.
  { intros r q' op' ? ?. apply HQ. by exists l, q', op'. }
  assert (forall m Q', Q' tt m -> cwp count_backpressure m Q') as Hbp.
  { intros m Q' HQ1. apply wp_count; [|done]. intros s m' []. by split. }
  unfold TrySend_inside. destruct (Validate msg) as [e|] eqn:Hv; [apply wp_ret, HQ'; [by apply stocked_paid|lia]|].
  apply wp_bind, (wp_prepareTrySend l q j); [done..| |].
  - intros e q' Hq'. apply wp_bind. case_match; [apply Hbp|apply wp_ret]; apply wp_ret; by apply HQ'; [|lia].
  - intros frame Hfr. apply wp_bind, wp_select. intros s F HI. split; [by intros ?%default_ready|].
    intros s' a [Hin|(_ & -> & ->)]%elem_default; [rewrite elem_of_app, elem_ready in Hin;
      destruct Hin as [(_ & -> & ->)|(Hc & -> & ->)%elem_queue_case]|].
    + eexists. split; [exact HI|]. apply wp_bind, (wp_unprepare l q); [apply zlen_nonneg|]. apply wp_ret. by apply HQ'; [|lia].
    + eexists. split; [by apply inv_enqueue|]. apply wp_ret. by apply HQ'.
    + eexists. split; [exact HI|]. apply wp_bind, (wp_unprepare l q); [apply zlen_nonneg|].
      apply wp_bind, Hbp. apply wp_ret. by apply HQ'; [|lia].
Qed.

(** Bracketing a call with the gate. *)
Lemma wp_through_gate (p : prog connSt (option error)) closed_err l q op j (Q : option error -> share -> Prop) :
  settled l -> stocked j q -> (forall r m, left_with j op m -> Q r m) ->
  (forall Q', (forall r m, inside j op m -> Q' r m) -> cwp p (client l (paid q) 1 0 0 (S op)) Q') ->
  cwp (ok ← lift gate_of enter;
       if negb ok then mret closed_err else r ← p; gate_leave_now ≫= fun _ => mret r)
    (client l (paid q) 0 0 0 (S op)) Q.
Proof.
  intros Hl Hq HQ Hp. apply wp_bind, wp_session_enter; [done|..].
  - apply wp_bind, Hp. intros r m (l' & q' & op' & -> & ? & ? & ?).
    apply wp_bind, wp_session_leave; [done|]. apply wp_ret, HQ. by exists l', q', op'.
  - apply wp_ret, HQ. exists l, (paid q), (S op). split_and!; [done..|by apply stocked_paid|lia].
Qed.

(** A caller that may still make [k] calls. *)
Definition outside (k : nat) : share -> Prop := left_with (2 * k) k.
Lemma outside_split k m :
  outside (S k) m -> exists l q op, m = client l (paid q) 0 0 0 (S op) /\ settled l /\ stocked (2 * k) q /\ (k <= op)%nat.
Proof.
  intros (l & q & op & -> & Hl & Hq & Hop).
  replace (2 * S k)%nat with (2 + 2 * k)%nat in Hq by lia.
  destruct (stocked_split lim lim_ok _ _ Hq) as (q' & -> & Hq'). destruct op as [|op]; [lia|].
  exists l, q', op. split_and!; [done..|lia].
Qed.
Lemma outside_less k m : outside (S k) m -> outside k m.
Proof.
  intros (l & q & op & -> & Hl & [Hq Hc] & Hop). exists l, q, op. split_and!; [done..| |lia].
  split; [done|lia].
Qed.
Lemma outside_calm k m : outside k m -> calm m.
Proof. by intros (l & q & op & -> & Hl & _). Qed.
Lemma outside_put_l k l m : outside k m -> settled l -> outside k (put_l l m).
Proof. intros (l' & q & op & -> & Hl & Hq & Hop) ?. by exists l, q, op. Qed.
Hint Resolve outside_less outside_calm outside_put_l : core.

Lemma left_with_mono j op op' m : (op <= op')%nat -> left_with j op' m -> left_with j op m.
Proof. intros Hle (l & q & o & -> & ? & ? & ?). exists l, q, o. split_and!; [done..|lia]. Qed.

Lemma wp_with_context ctx p k m (Q : option error -> share -> Prop) :
  outside (S k) m -> (forall r m', outside k m' -> Q r m') -> (forall c, cwp (p c) m Q) ->
  cwp (with_context cause_of ctx p) m Q.
Proof.
  intros Hm HQ Hp. destruct ctx as [c|]; [|apply wp_ret, HQ; auto].
  apply wp_cause_or; [auto|done].
Qed.

Lemma wp_Send ctx msg k m (Q : option error -> share -> Prop) :
  outside (S k) m -> (forall r m', outside k m' -> Q r m') ->
  cwp (Send pf env cause_of rnd qfuel ctx msg) m Q.
Proof.
  intros Hm HQ. apply (wp_with_context _ _ k); [done..|]. intros c.
  destruct (outside_split _ _ Hm) as (l & q & op & -> & Hl & Hq & Hop).
  apply (wp_through_gate _ _ l q op (2 * k)); [done..| |].
  - intros r m' Hm'. apply HQ. by eapply left_with_mono.
  - intros Q' HQ'. by apply (wp_Send_inside c msg l q op (2 * k)).
Qed.
Lemma wp_TrySend msg k m (Q : option error -> share -> Prop) :
  outside (S k) m -> (forall r m', outside k m' -> Q r m') -> cwp (TrySend pf env rnd msg) m Q.
Proof.
  intros Hm HQ. destruct (outside_split _ _ Hm) as (l & q & op & -> & Hl & Hq & Hop).
  apply (wp_through_gate _ _ l q op (2 * k)); [done..| |].
  - intros r m' Hm'. apply HQ. by eapply left_with_mono.
  - intros Q' HQ'. by apply (wp_TrySend_inside msg l q op (2 * k)).
Qed.

(** ** CloseWrite, Shutdown and Close *)
Lemma wp_request_close {B} g (p : bool * closeGoal -> prog connSt B) m (Q : B -> share -> Prop) :
  calm m -> (forall r l, settled l -> cwp (p r) (put_l l m) Q) ->
  cwp (r ← lift life_of (requestWithPrevious life_lens g);
       (if r.1 : bool then gate_close_now else mret tt) ≫= fun _ => p r) m Q.
Proof.
  intros [(Hl & Hc & Hp) Hg] HQ. apply wp_bind, wp_session_request; [done|].
  intros [[] prev] l Hl'; apply wp_bind; [|by apply wp_ret, HQ].
  apply wp_session_close; [done|]. by apply HQ.
Qed.
Lemma wp_requestWriteClose k m (Q : bool -> share -> Prop) :
  outside k m -> (forall r m', outside k m' -> Q r m') -> cwp requestWriteClose m Q.
Proof. intros Hm HQ. apply wp_request_close; [eauto|]. intros r l Hl. apply wp_ret. auto. Qed.
Lemma wp_requestShutdown k m (Q : bool * bool -> share -> Prop) :
  outside k m -> (forall r m', outside k m' -> Q r m') -> cwp requestShutdown m Q.
Proof. intros Hm HQ. apply wp_request_close; [eauto|]. intros r l Hl. apply wp_ret. auto. Qed.

Lemma wp_caller_gone c owner k m (Q : option error -> share -> Prop) :
  outside k m -> (forall r m', outside k m' -> Q r m') -> cwp (caller_gone cause_of c owner) m Q.
Proof.
  intros Hm HQ. apply wp_bind. destruct owner; [|apply wp_ret, wp_ret; auto].
  apply wp_bind, wp_abort; [done|eauto|]. intros r l Hl. apply wp_ret, wp_ret. auto.
Qed.
(** Waiting outside for the end of a Session. *)
Lemma blk_end k s m F :
  inv s (m ∙ F) -> outside k m -> cn_done s = false \/ signal_ready WriteCh s = false -> conn_blk s m.
Proof.
  intros HI (l & q & op & -> & Hl & _) Hw. split; [by apply client_quiet|]. right. split; [done|]. right. right. left.
  split; [|done]. destruct Hw as [?|Hw]; [done|]. destruct (cn_done s) eqn:E; [|done].
  apply bool_decide_eq_false in Hw. destruct Hw. by apply (ci_done _ _ _ _ _ _ _ HI).
Qed.
Lemma wp_await_end k (ready0 : connSt -> bool) c m (Q : half_wait -> share -> Prop) :
  outside k m -> (forall s, ready0 s = false -> cn_done s = false \/ signal_ready WriteCh s = false) ->
  (forall r, Q r m) ->
  cwp (select (fun s => ready (ready0 s) s HalfDone ++ ready (signal_ready AbortCh s) s HalfAborted
                        ++ ready (done_ctx c s) s HalfCtx)) m Q.
Proof.
  intros Hm Hr HQ. apply wp_select. intros s F HI. split.
  - intros [?%ready_nil _]%app_eq_nil. eapply blk_end; eauto.
  - intros s' r. rewrite !elem_of_app, !elem_ready. intros [(_ & -> & ->)|[(_ & -> & ->)|(_ & -> & ->)]]; eauto.
Qed.

Lemma wp_CloseWrite ctx k m (Q : option error -> share -> Prop) :
  outside (S k) m -> (forall r m', outside k m' -> Q r m') -> cwp (CloseWrite cause_of ctx) m Q.
Proof.
  intros Hm HQ. apply (wp_with_context _ _ k); [done..|]. intros c.
  apply wp_bind, (wp_requestWriteClose k); [auto|]. intros o m1 Hm1.
  apply wp_bind, (wp_await_end k); [done|auto|]. intros [].
  - apply wp_lifecycleResult. auto.
  - apply wp_lifecycleResult. auto.
  - by apply (wp_caller_gone _ _ k).
Qed.
Lemma wp_session_Shutdown ctx k m (Q : option error -> share -> Prop) :
  outside (S k) m -> (forall r m', outside k m' -> Q r m') -> cwp (Shutdown cause_of ctx) m Q.
Proof.
  intros Hm HQ. apply (wp_with_context _ _ k); [done..|]. intros c.
  apply wp_bind, (wp_requestShutdown k); [auto|]. intros o m1 Hm1.
  apply wp_bind, (wp_await_end k); [done|auto|]. intros [].
  - apply wp_bind, (wp_await_end k); [done|auto|]. intros [].
    + apply wp_lifecycleResult. auto.
    + apply wp_lifecycleResult. auto.
    + by apply (wp_caller_gone _ _ k).
  - apply wp_lifecycleResult. auto.
  - by apply (wp_caller_gone _ _ k).
Qed.
Lemma wp_Close k m (Q : option error -> share -> Prop) :
  outside k m -> (forall r m', outside k m' -> Q r m') -> cwp Close m Q.
Proof.
  intros Hm HQ. apply wp_bind, wp_read. intros s F _. case_match; [apply wp_ret; auto|].
  apply wp_bind, wp_abort; [done|eauto|]. intros r l Hl. apply wp_ret. auto.
Qed.

(** ** Callers *)
Lemma wp_conn_op o k m (Q : unit -> share -> Prop) :
  outside (S k) m -> (forall m', outside k m' -> Q tt m') ->
  cwp (conn_op_prog pf env cause_of rnd qfuel o) m Q.
Proof.
  intros Hm HQ. assert (forall (r : option error) m', outside k m' -> cwp (mret tt) m' Q) as HQ'
    by (intros; by apply wp_ret, HQ).
  destruct o; unfold conn_op_prog.
  - by apply wp_bind, (wp_Send _ _ k).
  - by apply wp_bind, (wp_TrySend _ k).
  - by apply wp_bind, (wp_CloseWrite _ k).
  - by apply wp_bind, (wp_session_Shutdown _ k).
  - apply wp_bind, (wp_Close k); auto.
  - apply wp_atomically. intros s F HI. exists m. split; [|auto].
    destruct HI. split; unfold closing in *; cbn in *; try done.
Qed.
Lemma wp_conn_client ops m :
  outside (length ops) m ->
  cwp (conn_client pf env cause_of rnd qfuel ops) m (fun _ => conn_fin).
Proof.
  revert m. induction ops as [|o ops IH]; intros m Hm; cbn [conn_client].
  - destruct Hm as (l & q & op & -> & Hl & [Hq _] & _). by apply wp_ret.
  - apply wp_bind, (wp_conn_op o (length ops)); [done|]. apply IH.
Qed.
End send.
