(* ===== verification/SessionWriter.v ===== *)
(** * SessionWriter: the goroutines of a stream Session

    [writeAll] and [writeFrame] write a prefix of the frame, all of it when they return
    no error.  The writer loop, the ways the read loop and the activity watcher end, and
    the finalizer of Session.v keep the invariant of SessionInv.v. *)
From S2P Require Import Prelude Conc Kinds Errors Classify Message Wire Gate Lifecycle Quota Reader.
From S2P Require Import Session SessionInv SessionProofs SessionSend.
Local Open Scope go_scope.
Local Open Scope Z_scope.

(** ** Writing a frame *)
(** The contract of [io.Writer] on the count it returns. *)
Definition writer_contract (w : nat -> bytes -> Z * option error) : Prop :=
  forall k p, 0 <= (w k p).1 <= zlen p.

Lemma writeAll_loop_spec w fuel k p :
  writer_contract w -> (length p < fuel)%nat ->
  exists out e, writeAll_loop w fuel k p = Some (out, e) /\ out `prefix_of` p /\ (e = None -> out = p).
Proof.
  intros Hw. revert k p. induction fuel as [|fuel IH]; intros k p Hf; [lia|].
  cbn [writeAll_loop]. destruct p as [|b p]; [by exists [], None|].
  set (q := b :: p) in *. pose proof (Hw k q) as Hn. destruct (w k q) as [n err]. cbn in Hn.
  destruct (n >? zlen q) eqn:Eg; [lia|].
  destruct err as [err|]; [eexists _, _; split_and!; [done|apply prefix_take|done]|].
  destruct (n =? 0) eqn:En; [eexists _, _; split_and!; [done|apply prefix_take|done]|].
  assert (n >? 0 = true) as -> by lia.
  destruct (IH (S k) (drop (Z.to_nat n) q)) as (more & e & -> & Hpre & Hall); [rewrite length_drop; unfold zlen in Hn; lia|].
  eexists _, _. split_and!; [done|..].
  - rewrite <- (take_drop (Z.to_nat n) q) at 2. by apply prefix_app.
  - intros ->%Hall. apply take_drop.
Qed.
Lemma writeFrame_spec i frame :
  writer_contract (wi_write i) ->
  exists out e, writeFrame i frame = Some (out, e) /\ out `prefix_of` frame /\ (e = None -> out = frame).
Proof.
  intros Hw. unfold writeFrame. destruct (wi_setErr i); [eexists _, _; split_and!; [done|apply prefix_nil|done]|].
  unfold writeAll. destruct (writeAll_loop_spec (wi_write i) (S (length frame)) 0 frame Hw) as (out & err & -> & Hp & Ha); [lia|].
  destruct err; [by eexists _, _|]. destruct (wi_clearErr i); by eexists _, _.
Qed.

Section writer.
Context (lim : site -> Z) (bound total : nat) (wq : Z) (frame_ok : bytes -> Z -> Prop).
Hypothesis lim_ok : forall c, 0 <= lim c < 2 ^ 62.
Abbreviation inv := (conn_inv lim bound total wq frame_ok).
Abbreviation cwp := (wp inv conn_blk).
Context `{WebSocketLib} (pf : platform) (env : connEnv) (raw : stream).
Context (cause_of : nat -> error) (rnd : nat -> bytes) (io : nat -> write_io) (qfuel : nat).
Hypothesis io_ok : forall k, writer_contract (wi_write (io k)).

(** The share of the writer. *)
Definition wshare (l : gmultiset Lifecycle.tok) (q : gmultiset Quota.tok) (slot : nat) (w : wtok) : share :=
  Share q (0, 0)%nat l slot 0 0 1 0 0 0 (Owner w).
Lemma wshare_calm l q slot w : settled l -> calm (wshare l q slot w).
Proof. done. Qed.
Hint Resolve wshare_calm : core.

Lemma owner_alone s w (x : excl wtok) : writer_inv s (Owner w ∙ x) -> x = Nobody.
Proof. by destruct x. Qed.

(** Changing what only the writer knows. *)
Lemma inv_writer s l q slot w w' F :
  inv s (wshare l q slot w ∙ F) -> (writer_inv s (Owner w) -> writer_inv s (Owner w')) ->
  inv s (wshare l q slot w' ∙ F).
Proof.
  intros HI Hw. pose proof (ci_writer _ _ _ _ _ _ _ HI) as Hi. pose proof (owner_alone _ _ _ Hi) as E.
  destruct HI. split; try done. cbn -[writer_inv] in *. rewrite E in *. exact (Hw Hi).
Qed.

Lemma inv_dequeue s l q slot n clean dr em req rest F :
  inv s (wshare l q slot (WIdle n clean dr em) ∙ F) -> cn_queue s = req :: rest ->
  inv (set_queue rest s)
    (wshare l (req_toks (ob_bytes req) ⊎ q) (S slot) (WBusy n req (if clean then Fresh else Failed) dr) ∙ F)
  /\ 0 <= ob_bytes req.
Proof.
  intros HI E. pose proof (ci_writer _ _ _ _ _ _ _ HI) as Hw. pose proof (owner_alone _ _ _ Hw) as EF.
  cbn in Hw. rewrite EF in Hw. cbn in Hw. destruct Hw as (Ha & Hn & Hc & Hd & Hem).
  assert (0 <= ob_bytes req) as Hb.
  { destruct (ci_ids _ _ _ _ _ _ _ HI (length (cn_handled s)) req) as [_ ->]; [|apply zlen_nonneg].
    rewrite Ha, E, lookup_app_r, Nat.sub_diag by lia. done. }
  split; [|done]. destruct HI. split; try done; cbn in *; rewrite ?E in *; cbn in *.
  - change (queued (req :: rest)) with (req_toks (ob_bytes req) ⊎ queued rest) in ci_quota.
    match goal with |- quota_inv _ _ _ ?m1 => replace m1 with
      (q ⊎ sh_q F ⊎ (req_toks (ob_bytes req) ⊎ queued rest)) end; [done|].
    apply gmultiset_eq. intros x. rewrite !multiplicity_disj_union. lia.
  - lia.
  - rewrite zlen_cons in ci_caps. lia.
  - rewrite EF. cbn. split_and!; [done..|by destruct clean; auto|done].
Qed.

Lemma wp_write_next l q slot n req dr (Q : option error -> share -> Prop) :
  Q None (wshare l q slot (WBusy n req Wrote dr)) ->
  (forall e, Q (Some e) (wshare l q slot (WBusy n req Failed dr))) ->
  cwp (write_next io (ob_frame req)) (wshare l q slot (WBusy n req Fresh dr)) Q.
Proof.
  intros HQ HE. apply wp_atomic_panic. intros s F HI.
  destruct (writeFrame_spec (io (cn_writes s)) (ob_frame req) (io_ok _)) as (out & e & -> & Hp & Hall).
  exists (set_writes (S (cn_writes s)) (set_wire (cn_wire s ++ out) s)), e, (wshare l q slot (WBusy n req (if e then Failed else Wrote) dr)).
  split; [done|]. split; [|destruct e; auto].
  pose proof (ci_writer _ _ _ _ _ _ _ HI) as Hw. pose proof (owner_alone _ _ _ Hw) as EF.
  cbn in Hw. rewrite EF in Hw. destruct Hw as (Ha & Hn & Hwire & Hd).
  destruct HI. split; try done; cbn in *.
  - intros id (l1 & r & l2 & ? & ? & ?)%ci_nil. exists l1, r, l2. split_and!; [done..|]. by apply prefix_app_r.
  - rewrite Hwire, Ha, frames_of_app, frames_of_cons. apply prefix_app. by apply prefix_app_r.
  - intros (_ & Eh & _)%ci_proto. rewrite Ha in Eh. apply (f_equal length) in Eh.
    rewrite length_app in Eh. cbn in Eh. lia.
  - rewrite EF. cbn. split_and!; [done..| |done]. destruct e; [done|].
    rewrite Hall by done. rewrite Hwire, frames_of_app, frames_of_cons. by rewrite app_nil_r.
Qed.

(** The ids of the requests answered so far. *)
Lemma handled_id s m id rest :
  inv s m -> cn_admitted s = cn_handled s ++ rest -> id ∈ (cn_acked s).*1 -> (id < length (cn_handled s))%nat.
Proof.
  intros HI Ha. rewrite (ci_acks _ _ _ _ _ _ _ HI). intros (r & -> & [_ Hr]%list_elem_of_filter)%list_elem_of_fmap.
  apply list_elem_of_lookup in Hr as [i Hi]. pose proof (lookup_lt_Some _ _ _ Hi).
  destruct (ci_ids _ _ _ _ _ _ _ HI i r) as [-> _]; [|done]. rewrite Ha. by apply lookup_app_l_Some.
Qed.
Definition is_wrote (ph : phase) : bool := match ph with Wrote => true | _ => false end.

Lemma wp_answer req r l q slot n ph dr (Q : unit -> share -> Prop) :
  (r = None -> ph = Wrote) -> Q tt (wshare l q slot (WIdle (S n) (is_wrote ph) dr false)) ->
  cwp (answer req r) (wshare l q slot (WBusy n req ph dr)) Q.
Proof.
  intros Hr HQ. apply wp_select. intros s F HI.
  pose proof (ci_writer _ _ _ _ _ _ _ HI) as Hw. pose proof (owner_alone _ _ _ Hw) as EF.
  cbn in Hw. rewrite EF in Hw. destruct Hw as (Ha & Hn & Hwire & Hd).
  assert (ob_id req = n) as Hid.
  { apply (ci_ids _ _ _ _ _ _ _ HI n req). rewrite Ha, lookup_app_r, Hn, Nat.sub_diag by lia. done. }
  assert (cn_ackbuf s !! ob_id req = None) as Hbuf.
  { destruct (cn_ackbuf s !! ob_id req) eqn:E; [|done].
    apply (ci_buf _ _ _ _ _ _ _ HI), (handled_id _ _ _ _ HI Ha) in E. lia. }
  assert (writer_inv (set_handled (cn_handled s ++ [req]) s)
            (Owner (WIdle (S n) (is_wrote ph) dr false))) as Hw'.
  { cbn. split_and!; [by rewrite <- (assoc_L (++))|rewrite length_app; cbn; lia| |done|done].
    destruct ph; done. }
  assert (cn_proto s = true -> False) as Hproto.
  { intros (_ & Eh & _)%(ci_proto _ _ _ _ _ _ _ HI). rewrite Ha in Eh. apply (f_equal length) in Eh.
    rewrite length_app in Eh. cbn in Eh. lia. }
  cbv zeta. rewrite Hbuf. destruct (ob_ack req) eqn:Eack; (split; [done|]);
    intros s' [] [= ->]%list_elem_of_singleton; eexists; (split; [|exact HQ]);
    destruct HI; split; try done; cbn in *; rewrite ?EF; try done.
  - rewrite fmap_app, list.filter_app, fmap_app, ci_acks, filter_cons_True by done. done.
  - intros id [?|[= -> <-]%list_elem_of_singleton]%elem_of_app; [auto|].
    rewrite Hr in Hwire by done. exists (cn_handled s), req, (cn_queue s). rewrite Hwire. split_and!; [done..|].
    by apply reflexivity.
  - intros id r0 [[<- _]|[_ Hr0]]%lookup_insert_Some; rewrite fmap_app; apply elem_of_app.
    + right. cbn. by left.
    + left. eauto.
  - rewrite list.filter_app, fmap_app, ci_acks, filter_cons_False by congruence. by rewrite app_nil_r.
Qed.

Lemma opError_some op e : opError pf env op e <> None.
Proof.
  unfold opError, operationalError.
  by destruct (classifyOperational_typed pf op (ce_protocol env) (ce_local env) (ce_remote env) e hintNone)
    as (e' & n & -> & _).
Qed.

Lemma wp_release_frame {B} req l q w (Q : B -> share -> Prop) (p : prog connSt B) :
  0 <= ob_bytes req -> cwp p (wshare l q 0 w) Q ->
  cwp (quota_release (ob_bytes req) ≫= fun _ => releaseFrameSlot ≫= fun _ => p)
    (wshare l (req_toks (ob_bytes req) ⊎ q) 1 w) Q.
Proof.
  intros Hb Hp. apply wp_bind. eapply (wp_session_release lim bound total wq frame_ok lim_ok); [done..|].
  by apply wp_bind, (wp_releaseFrameSlot _ _ _ _ _ _ 0%nat).
Qed.

Lemma wp_handleOutbound req l q n dr (Q : bool -> share -> Prop) :
  settled l -> 0 <= ob_bytes req ->
  (forall ok l', settled l' -> Q ok (wshare l' q 0 (WIdle (S n) ok dr false))) ->
  cwp (handleOutbound pf env io req)
    (wshare l (req_toks (ob_bytes req) ⊎ q) 1 (WBusy n req Fresh dr)) Q.
Proof.
  intros Hl Hb HQ. apply wp_bind, wp_write_next; [|intros e]; apply wp_release_frame; try done.
  - apply wp_bind, wp_count; [intros s m []; by split|].
    apply wp_bind, wp_answer; [done|]. by apply wp_ret, HQ.
  - cbv zeta. apply wp_bind, wp_abort; [done|by apply wshare_calm|]. intros won l' Hl'.
    apply wp_bind, wp_Err. intros terminal. apply wp_bind, (wp_answer _ _ l' q 0 n Failed dr).
    + destruct won; [|by destruct terminal]. by intros ?%opError_some.
    + by apply wp_ret, HQ.
Qed.

(** The fuel of a loop is never used up: a request is answered once. *)
Lemma wp_no_fuel {B} l q slot n clean dr em (Q : B -> share -> Prop) :
  (total < n)%nat -> cwp stuck (wshare l q slot (WIdle n clean dr em)) Q.
Proof.
  intros Ht. apply wp_stuck. intros s F HI. exfalso.
  pose proof (ci_writer _ _ _ _ _ _ _ HI) as Hw. pose proof (owner_alone _ _ _ Hw) as EF.
  cbn in Hw. rewrite EF in Hw. destruct Hw as (Ha & Hn & _).
  pose proof (ci_ops _ _ _ _ _ _ _ HI) as Ho. rewrite Ha, length_app in Ho. lia.
Qed.
Lemma wp_drop_writer s l q slot n clean dr em dr' em' F :
  inv s (wshare l q slot (WIdle n clean dr em) ∙ F) ->
  (dr' = true -> dr = true \/ g_drained (cn_gate s) = true) ->
  (em' = true -> g_drained (cn_gate s) = true /\ cn_queue s = []) ->
  inv s (wshare l q slot (WIdle n clean dr' em') ∙ F).
Proof.
  intros HI Hd He. eapply inv_writer; [exact HI|]. cbn. intros (? & ? & ? & Hdr & ?).
  split_and!; [done..| |done]. intros [->|?]%Hd; auto.
Qed.
Lemma elem_dequeue {B} (f : outbound -> B) s s' b :
  (s', b) ∈ dequeue_case f s -> exists req rest, cn_queue s = req :: rest /\ s' = set_queue rest s /\ b = f req.
Proof.
  unfold dequeue_case. destruct (cn_queue s) eqn:E; [by intros ?%elem_of_nil|].
  intros [= -> ->]%list_elem_of_singleton. eauto.
Qed.
Lemma dequeue_nil {B} (f : outbound -> B) s : dequeue_case f s = [] -> cn_queue s = [].
Proof. unfold dequeue_case. by case_match. Qed.

(** Taking what is left, once no sender is inside. *)
Lemma wp_next_left l q n clean em (Q : option outbound -> share -> Prop) :
  Q None (wshare l q 0 (WIdle n clean true true)) ->
  (forall req, 0 <= ob_bytes req ->
     Q (Some req) (wshare l (req_toks (ob_bytes req) ⊎ q) 1 (WBusy n req (if clean then Fresh else Failed) true))) ->
  cwp (select (or_default None (dequeue_case Some))) (wshare l q 0 (WIdle n clean true em)) Q.
Proof.
  intros HN HS. apply wp_select. intros s F HI. split; [by intros ?%default_ready|].
  intros s' r [(req & rest & E & -> & ->)%elem_dequeue|(E%dequeue_nil & -> & ->)]%elem_default.
  - destruct (inv_dequeue _ _ _ _ _ _ _ _ _ _ _ HI E) as [HI' Hb]. eauto.
  - eexists. split; [|exact HN]. eapply wp_drop_writer; [exact HI|by left|]. intros _. split; [|done].
    pose proof (ci_writer _ _ _ _ _ _ _ HI) as Hw. pose proof (owner_alone _ _ _ Hw) as EF.
    cbn in Hw. rewrite EF in Hw. destruct Hw as (_ & _ & _ & Hd & _). auto.
Qed.

Lemma wp_failPending fuel l q n clean em (Q : unit -> share -> Prop) :
  (total < n + fuel)%nat ->
  (forall n' clean', Q tt (wshare l q 0 (WIdle n' clean' true true))) ->
  cwp (failPending pf env fuel) (wshare l q 0 (WIdle n clean true em)) Q.
Proof.
  intros Hf HQ. revert n clean em Hf. induction fuel as [|fuel IH]; intros n clean em Hf;
    [apply wp_no_fuel; lia|]. cbn [failPending].
  apply wp_bind, wp_next_left; [by apply wp_ret|]. intros req Hb.
  apply wp_release_frame; [done|]. apply wp_bind, wp_answer; [|apply IH; lia].
  by intros ?%opError_some.
Qed.

(** ** The writer loop *)
(** Where the loop may leave the writer. *)
Definition writer_left (q : gmultiset Quota.tok) (m : share) : Prop :=
  exists l n clean dr em, m = wshare l q 0 (WIdle n clean dr em) /\ settled l.
Lemma writer_left_intro l q n clean dr em : settled l -> writer_left q (wshare l q 0 (WIdle n clean dr em)).
Proof. intros. by exists l, n, clean, dr, em. Qed.
Hint Resolve writer_left_intro : core.

(** Closing the write half: every admitted frame is on the wire. *)
Lemma wp_close_half l q n (Q : option error -> share -> Prop) :
  (forall e, Q e (wshare l q 0 (WIdle n true true true))) ->
  cwp (atomically (fun s => (set_proto (match closeProtocolWrite raw with None => true | _ => false end) s,
                             closeProtocolWrite raw))) (wshare l q 0 (WIdle n true true true)) Q.
Proof.
  intros HQ. apply wp_atomically. intros s F HI. eexists. split; [|apply HQ].
  pose proof (ci_writer _ _ _ _ _ _ _ HI) as Hw. pose proof (owner_alone _ _ _ Hw) as EF.
  cbn in Hw. rewrite EF in Hw. destruct Hw as (Ha & _ & Hc & Hd & He).
  destruct He as [Hdr Hq]; [done|]. rewrite Hq, app_nil_r in Ha.
  destruct HI. split; try done. cbn. intros _. rewrite Ha. auto.
Qed.

Lemma wp_writer_drain fuel l q n em (Q : unit -> share -> Prop) :
  settled l -> (total < n + fuel)%nat -> (forall m, writer_left q m -> Q tt m) ->
  cwp (writer_drain pf env raw io fuel) (wshare l q 0 (WIdle n true true em)) Q.
Proof.
  intros Hl Hf HQ. revert l n em Hl Hf. induction fuel as [|fuel IH]; intros l n em Hl Hf;
    [apply wp_no_fuel; lia|]. cbn [writer_drain].
  apply wp_bind, wp_next_left.
  - apply wp_bind, wp_close_half. intros [e|].
    + apply wp_initiateClose; [by apply wshare_calm|]. intros l' Hl'. apply HQ. by apply writer_left_intro.
    + apply wp_bind, wp_once_closed; [auto|]. apply wp_bind, wp_count; [intros s m []; by split|].
      apply wp_maybeFinishGraceful; [by apply wshare_calm|]. intros l' Hl'. apply HQ. by apply writer_left_intro.
  - intros req Hb. apply wp_bind, wp_handleOutbound; [done..|]. intros [] l' Hl'.
    + apply IH; [done|lia].
    + apply wp_ret, HQ. by apply writer_left_intro.
Qed.

(** One round of the loop before the gate is drained. *)
Lemma wp_next_event (cases : connSt -> list (connSt * writer_event)) l q n em (Q : writer_event -> share -> Prop) :
  settled l ->
  (forall s s' e, (s', e) ∈ cases s -> (s' = s /\ e = WriterClosing) \/ (s' = s /\ e = WriterSignal) \/
     (s', e) ∈ dequeue_case WriterRequest s) ->
  (forall s, cases s = [] -> closing s = false) ->
  Q WriterClosing (wshare l q 0 (WIdle n true false em)) ->
  (forall req, 0 <= ob_bytes req -> Q (WriterRequest req)
     (wshare l (req_toks (ob_bytes req) ⊎ q) 1 (WBusy n req Fresh false))) ->
  (forall s s' F, inv s (wshare l q 0 (WIdle n true false em) ∙ F) -> (s', WriterSignal) ∈ cases s ->
     exists m', inv s (m' ∙ F) /\ Q WriterSignal m') ->
  cwp (select cases) (wshare l q 0 (WIdle n true false em)) Q.
Proof.
  intros Hl Hc Hb HC HR HS. apply wp_select. intros s F HI. split.
  - intros E%Hb. by apply blk_open.
  - intros s' e Hin. destruct (Hc _ _ _ Hin) as [[-> ->]|[[-> ->]|(req & rest & E & -> & ->)%elem_dequeue]].
    + eauto.
    + eauto.
    + destruct (inv_dequeue _ _ _ _ _ _ _ _ _ _ _ HI E) as [HI' Hb']. eauto.
Qed.

Lemma wp_writer_graceful fuel0 fuel l q n (Q : unit -> share -> Prop) :
  settled l -> (total < n + fuel)%nat -> (total < fuel0)%nat -> (forall m, writer_left q m -> Q tt m) ->
  cwp (writer_graceful pf env raw io fuel0 fuel) (wshare l q 0 (WIdle n true false false)) Q.
Proof.
  intros Hl Hf Hf0 HQ. revert l n Hl Hf. induction fuel as [|fuel IH]; intros l n Hl Hf;
    [apply wp_no_fuel; lia|]. cbn [writer_graceful]. apply wp_bind, wp_next_event; [done|..].
  - intros s s' e. rewrite !elem_of_app, !elem_ready. naive_solver.
  - by intros s [?%ready_nil _]%app_eq_nil.
  - apply wp_ret, HQ. by apply writer_left_intro.
  - intros req Hb. apply wp_bind, wp_handleOutbound; [done..|]. intros [] l' Hl'.
    + apply IH; [done|lia].
    + apply wp_ret, HQ. by apply writer_left_intro.
  - intros s s' F HI. rewrite !elem_of_app, !elem_ready. intros [(_ & _ & [=])|[Hin|(Hg & _)]].
    { by apply elem_dequeue in Hin as (? & ? & _ & _ & [=]). }
    exists (wshare l q 0 (WIdle n true true false)). split.
    + eapply wp_drop_writer; [exact HI|by right|done].
    + apply wp_writer_drain; [done|lia|done].
Qed.
Lemma wp_writer_main fuel0 fuel l q n (Q : unit -> share -> Prop) :
  settled l -> (total < n + fuel)%nat -> (total < fuel0)%nat -> (forall m, writer_left q m -> Q tt m) ->
  cwp (writer_main pf env raw io fuel0 fuel) (wshare l q 0 (WIdle n true false false)) Q.
Proof.
  intros Hl Hf Hf0 HQ. revert l n Hl Hf. induction fuel as [|fuel IH]; intros l n Hl Hf;
    [apply wp_no_fuel; lia|]. cbn [writer_main]. apply wp_bind, wp_next_event; [done|..].
  - intros s s' e. rewrite !elem_of_app, !elem_ready. naive_solver.
  - by intros s [?%ready_nil _]%app_eq_nil.
  - apply wp_ret, HQ. by apply writer_left_intro.
  - intros req Hb. apply wp_bind, wp_handleOutbound; [done..|]. intros [] l' Hl'.
    + apply IH; [done|lia].
    + apply wp_ret, HQ. by apply writer_left_intro.
  - intros s s' F HI _. eexists. split; [exact HI|]. apply wp_writer_graceful; [done|lia|done..].
Qed.

Lemma set_gate_id s : set_gate (cn_gate s) s = s.
Proof. by destruct s. Qed.
Lemma wp_await_drained l q n clean dr em (Q : unit -> share -> Prop) :
  settled l -> Q tt (wshare l q 0 (WIdle n clean true em)) ->
  cwp (lift gate_of await_done) (wshare l q 0 (WIdle n clean dr em)) Q.
Proof.
  intros Hl HQ s F HI. cbn. unfold gate_done. destruct (g_drained (cn_gate s)) eqn:E; cbn.
  - split; [done|]. intros o ->%list_elem_of_singleton. rewrite set_gate_id. eexists. split; [|exact HQ].
    eapply wp_drop_writer; [exact HI|by right|].
    pose proof (ci_writer _ _ _ _ _ _ _ HI) as Hw. pose proof (owner_alone _ _ _ Hw) as EF.
    cbn in Hw. rewrite EF in Hw. by destruct Hw as (_ & _ & _ & _ & He).
  - split; [|by intros o ?%elem_of_nil]. intros _. split; [done|]. right. split; [done|]. by left.
Qed.

(** The share of a loop that is about to end. *)
Definition looper (l : gmultiset Lifecycle.tok) (q : gmultiset Quota.tok) : share :=
  Share q (0, 0)%nat l 0 0 0 1 0 0 0 Nobody.
Lemma wp_leave_queue l q n clean (Q : unit -> share -> Prop) :
  Q tt (looper l q) -> cwp markWriterDrained (wshare l q 0 (WIdle n clean true true)) Q.
Proof.
  intros HQ. apply wp_atomically. intros s F HI. exists (looper l q). split; [|done].
  pose proof (ci_writer _ _ _ _ _ _ _ HI) as Hw. pose proof (owner_alone _ _ _ Hw) as EF.
  cbn in Hw. rewrite EF in Hw. destruct Hw as (Ha & _ & _ & Hd & He).
  destruct He as [_ Hq]; [done|]. rewrite Hq, app_nil_r in Ha.
  destruct HI. split; try done. cbn. rewrite EF. cbn. auto.
Qed.
Lemma wp_writerLoop fuel l q (Q : unit -> share -> Prop) :
  settled l -> (total < fuel)%nat -> (forall l', settled l' -> Q tt (looper l' q)) ->
  cwp (writerLoop pf env raw io fuel) (wshare l q 0 (WIdle 0 true false false)) Q.
Proof.
  intros Hl Hf HQ. apply wp_bind, wp_writer_main; [done..|].
  intros m (l' & n & clean & dr & em & -> & Hl'). apply wp_bind, wp_await_drained; [done|].
  apply wp_bind, wp_failPending; [lia|]. intros n' clean'. apply wp_leave_queue. by apply HQ.
Qed.

(** ** The other goroutines *)
Lemma looper_calm l q : settled l -> calm (looper l q).
Proof. done. Qed.
Lemma wp_await_closing l q (Q : unit -> share -> Prop) :
  settled l -> Q tt (looper l q) -> cwp (select (fun s => ready (closing s) s tt)) (looper l q) Q.
Proof.
  intros Hl HQ. apply wp_select. intros s F HI. split.
  - intros ?%ready_nil. by apply blk_open.
  - intros s' [] (_ & -> & _)%elem_ready. eauto.
Qed.
Lemma wp_reader_tail e l q (Q : unit -> share -> Prop) :
  settled l -> (forall l', settled l' -> Q tt (looper l' q)) -> cwp (reader_tail e) (looper l q) Q.
Proof.
  intros Hl HQ. destruct e; unfold reader_tail.
  - apply wp_await_closing; auto.
  - apply wp_initiateClose; [by apply looper_calm|]. intros l' Hl'. by apply HQ.
  - apply wp_bind, wp_once_closed; [auto|]. apply wp_maybeFinishGraceful; [by apply looper_calm|].
    intros l' Hl'. by apply HQ.
Qed.
Lemma wp_watcher_tail k l q (Q : unit -> share -> Prop) :
  settled l -> (forall l', settled l' -> Q tt (looper l' q)) -> cwp (watcher_tail k) (looper l q) Q.
Proof.
  intros Hl HQ. destruct k; unfold watcher_tail; [|apply wp_await_closing; auto].
  apply wp_initiateClose; [by apply looper_calm|]. intros l' Hl'. by apply HQ.
Qed.
Lemma wp_loop_done l q (Q : unit -> share -> Prop) :
  Q tt (put_loop 0 (looper l q)) -> cwp loop_done (looper l q) Q.
Proof.
  intros HQ. apply wp_atomically. intros s F HI. eexists. split; [|exact HQ].
  destruct HI. split; cbn in *; done || lia.
Qed.

(** The share of the finalizer. *)
Definition fshare (l : gmultiset Lifecycle.tok) : share := Share ∅ (0, 0)%nat l 0 0 0 0 1 0 0 Nobody.
Lemma wp_see_terminal l (Q : bool -> share -> Prop) :
  Q true (fshare ({[+ Know WriteCh +]} ⊎ l)) -> Q false (fshare l) ->
  cwp (signal_closed TermCh) (fshare l) Q.
Proof.
  intros HT HF. apply wp_atomically. intros s F HI. cbn [fst snd].
  destruct (closed TermCh _) eqn:E; [|eauto]. eexists. split; [|exact HT].
  apply bool_decide_eq_true in E. pose proof (ci_life _ _ _ _ _ _ _ HI) as Hl.
  destruct (inv_sound _ _ Hl _ E) as (_ & _ & Hw).
  destruct HI. split; try done.
  change (life_inv (cn_life s) ({[+ Know WriteCh +]} ⊎ l ⊎ sh_l F)). rewrite <- (assoc_L (⊎)). by apply inv_learn.
Qed.
Lemma wp_close_done l (Q : unit -> share -> Prop) :
  Know WriteCh ∈ l -> Q tt (put_fin 0 (fshare l)) ->
  cwp (atomic_panic (fun s => if cn_done s then None else Some (set_done true s, tt))) (fshare l) Q.
Proof.
  intros Hk HQ. apply wp_atomic_panic. intros s F HI. pose proof (ci_fin _ _ _ _ _ _ _ HI) as Hf. cbn in Hf.
  destruct (cn_done s) eqn:Ed; [cbn in Hf; lia|]. do 3 eexists. split; [done|]. split; [|exact HQ].
  assert (WriteCh ∈ l_signals (ls_life (cn_life s))) as Hw.
  { apply (inv_know _ _ (ci_life _ _ _ _ _ _ _ HI)). cbn. by apply gmultiset_elem_of_disj_union; left. }
  destruct HI. rewrite Ed in *. split; cbn in *; done || lia.
Qed.
Lemma wp_finalizer l (Q : unit -> share -> Prop) :
  settled l -> (forall l', settled l' -> Q tt (put_fin 0 (fshare l'))) -> cwp finalizer (fshare l) Q.
Proof.
  intros Hl HQ. apply wp_bind, wp_select. intros s F HI. split.
  { intros Hr%ready_nil. split; [done|]. right. split; [done|]. right. left. split; [|done].
    pose proof (ci_loops _ _ _ _ _ _ _ HI). lia. }
  intros s' [] (_ & -> & _)%elem_ready. eexists. split; [exact HI|]. clear s F HI.
  apply wp_bind, wp_see_terminal; apply wp_bind.
  { apply wp_ret, wp_close_done; [by apply gmultiset_elem_of_disj_union; left; apply gmultiset_elem_of_singleton|].
    apply HQ. by apply settled_know. }
  assert (forall l', settled l' -> cwp (lift life_of (markTerminal life_lens)) (fshare l') (fun _ m' =>
    cwp (atomic_panic (fun s => if cn_done s then None else Some (set_done true s, tt))) m' Q)) as Hmark.
  { intros l' Hl'. apply wp_life; [apply markTerminal_step|]. apply wp_markTerminal; [done|].
    intros l2 Hl2 Hk. apply wp_close_done; [done|]. by apply HQ. }
  apply wp_bind, wp_read. intros s F _. case_match; apply wp_bind; [by apply wp_ret, Hmark|].
  apply wp_initiateClose; [done|]. intros l' Hl'. by apply Hmark.
Qed.
End writer.
