(* ===== verification/SessionTheorems.v ===== *)
(** * SessionTheorems: every interleaving of a stream Session

    The properties of every reachable state of every pool made of the goroutines of one
    stream Session and any number of callers, and the composition with the read loop of
    the peer (Reader.v). *)
From S2P Require Import Prelude Conc Kinds Errors Classify Message Wire Gate Lifecycle Quota Reader.
From S2P Require Import Session SessionInv SessionProofs SessionSend SessionWriter.
Local Open Scope go_scope.
Local Open Scope Z_scope.

(** The calls the callers make. *)
Definition calls (opss : list (list conn_op)) : nat := length (mjoin opss).
(** The frame of an outbound request encodes a valid message of its payload size. *)
Definition encodes `{WebSocketLib} (env : connEnv) (rnd : nat -> bytes) (frame : bytes) (payload : Z) : Prop :=
  exists k msg, Validate msg = None /\ f_Encode (ce_framer env) (rnd k) msg = inl frame /\
    payload = zlen (msg_Data msg).

(** ** Frames on the wire *)
Lemma prefix_app_short {A} (x a b : list A) :
  x `prefix_of` a ++ b -> (length x <= length a)%nat -> x `prefix_of` a.
Proof.
  intros [r E] Hl. exists (drop (length x) a). rewrite <- (take_drop (length x) a) at 1. f_equal.
  apply (f_equal (take (length x))) in E. by rewrite take_app_length, take_app_le in E by lia.
Qed.
Lemma prefix_app_long {A} (x a b : list A) :
  x `prefix_of` a ++ b -> (length a <= length x)%nat -> exists y, x = a ++ y /\ y `prefix_of` b.
Proof.
  intros Hp Hl. assert (a `prefix_of` x) as [y ->].
  { destruct Hp as [r E]. eapply prefix_app_short; [|exact Hl]. rewrite <- E. by apply prefix_app_r. }
  exists y. split; [done|]. by apply prefix_app_inv in Hp.
Qed.
Section stream.
Context (f : Framer) `{!FramerOk f} (limit : Z) (rnd : nat -> bytes).
Hypothesis fits_limit : forall r m frame, f_Encode f r m = inl frame -> zlen frame <= limit.

Definition sent_as (msg : Message) (req : outbound) : Prop :=
  exists k, f_Encode f (rnd k) msg = inl (ob_frame req).

Lemma stream_done r m frame : f_Encode f r m = inl frame -> encoded_stream f limit [] [] [].
Proof.
  intros He. eapply (stream_end _ _ r m frame [] frame); [done|by eapply fits_limit|done|].
  destruct (framer_decode_encode r m frame [] He) as [_ Hpos]. by intros ->.
Qed.

(** A prefix of the frames is a stream of the first messages and part of the next. *)
Lemma wire_stream msgs reqs wire :
  Forall2 sent_as msgs reqs -> reqs <> [] -> wire `prefix_of` frames_of reqs ->
  exists k tail, encoded_stream f limit (take k msgs) tail wire /\ (k <= length reqs)%nat /\
    wire = frames_of (take k reqs) ++ tail /\ (k = length reqs -> tail = []) /\
    forall j, (k < j <= length reqs)%nat -> (length wire < length (frames_of (take j reqs)))%nat.
Proof.
  intros Hs. revert wire. induction Hs as [|msg req msgs reqs [i He] Hs IH]; intros wire Hne Hp; [done|].
  rewrite frames_of_cons in Hp. pose proof (fits_limit _ _ _ He) as Hl.
  destruct (decide (length wire < length (ob_frame req))%nat) as [Hlt|Hge].
  - exists 0%nat, wire. destruct (prefix_app_short _ _ _ Hp) as [q Eq]; [lia|]. cbn [take]. split_and!; [|cbn; lia|done|done|].
    + eapply stream_end; [exact He|done|exact Eq|]. intros ->. rewrite app_nil_r in Eq. rewrite Eq in Hlt. lia.
    + intros [|j] Hj; [lia|]. cbn [take]. rewrite frames_of_cons, length_app. lia.
  - destruct (prefix_app_long _ _ _ Hp) as (wire' & -> & Hp'); [lia|].
    destruct (decide (reqs = [])) as [->|Hne'].
    { apply prefix_nil_inv in Hp' as ->. apply Forall2_nil_inv_r in Hs as ->. exists 1%nat, []. cbn [take].
      split_and!; [|cbn; lia|by unfold frames_of; cbn; rewrite !app_nil_r|done|cbn; lia]. eapply stream_frame; [exact He|done|by eapply stream_done]. }
    destruct (IH wire' Hne' Hp') as (k & tail & Hst & Hk & -> & Htail & Hj). exists (S k), tail. cbn [take length].
    split_and!; [by eapply stream_frame|lia| |intros [=]; auto|].
    + rewrite frames_of_cons. by rewrite (assoc_L (++)).
    + intros [|j] Hlt; [lia|]. cbn [take]. rewrite frames_of_cons, !length_app.
      specialize (Hj j ltac:(lia)). rewrite length_app in Hj. lia.
Qed.
End stream.

Section reachable.
Context `{WebSocketLib} (pf : platform) (env : connEnv) (raw : stream).
Context (cause_of : nat -> error) (rnd : nat -> bytes) (io : nat -> write_io) (qfuel : nat).
Context (wq qb qt : Z) (n : nat) (re : reader_end) (watcher : option (option TimeoutKind)).
Context (opss : list (list conn_op)).
Hypothesis wq_ok : 0 <= wq.
Hypothesis qb_ok : 0 <= qb < 2 ^ 62.
Hypothesis qt_ok : 0 <= qt < 2 ^ 62.
Hypothesis n_ok : (calls opss < n)%nat.
Hypothesis qfuel_ok : (2 * calls opss < qfuel)%nat.
Hypothesis io_ok : forall k, writer_contract (wi_write (io k)).
Abbreviation lim := (limits_of (fun _ => qb) qt).
Abbreviation inv := (conn_inv lim (2 * calls opss) (calls opss) wq (encodes env rnd)).
Definition session_pool : pool connSt := conn_pool pf env raw cause_of rnd io qfuel wq qb qt n re watcher opss.

Lemma session_lim_ok c : 0 <= lim c < 2 ^ 62.
Proof. by destruct c. Qed.

(** ** The initial shares *)
Abbreviation credits := (copies Quota.Credit).
Definition caller_share (ops : list conn_op) : share := client ∅ (credits (2 * length ops)) 0 0 0 (length ops).
Definition watcher_share : list share := if watcher then [looper ∅ ∅] else [].
Definition first_shares : list share :=
  wshare ∅ ∅ 0 (WIdle 0 true false false) :: looper ∅ ∅ :: fshare ∅ :: watcher_share ++ (caller_share <$> opss).

Lemma gsum_callers (os : list (list conn_op)) :
  gsum (caller_share <$> os) = client ∅ (credits (2 * calls os)) 0 0 0 (calls os).
Proof.
  induction os as [|ops os IH].
  - unfold client, calls, copies. cbn. reflexivity.
  - change (caller_share ops ∙ gsum (caller_share <$> os)
            = client ∅ (credits (2 * calls (ops :: os))) 0 0 0 (calls (ops :: os))).
    assert (calls (ops :: os) = (length ops + calls os)%nat) as -> by apply length_app.
    rewrite IH, Nat.mul_add_distr_l, <- copies_add. done.
Qed.
Lemma gsum_first_shares :
  gsum first_shares = Share (credits (2 * calls opss)) (0, 0)%nat ∅ 0 0 (calls opss)
                        (if watcher then 3 else 2) 1 0 0 (Owner (WIdle 0 true false false)).
Proof.
  unfold first_shares, watcher_share. destruct watcher; cbn [app gsum foldr]; fold (gsum (caller_share <$> opss)).
  all: rewrite gsum_callers; cbn -[copies gsum disj_union]; f_equal; by rewrite ?(left_id_L ∅ (⊎)).
Qed.

Lemma inv_start : inv session_pool.1 (gsum first_shares).
Proof.
  rewrite gsum_first_shares. unfold session_pool, conn_pool. cbn [fst]. split; cbn -[copies disj_union Nat.mul]; try done.
  - change (queued []) with (∅ : gmultiset Quota.tok); rewrite (right_id_L ∅ (⊎)). apply (quota_inv_init (fun _ => qb) qt [] 1); [done..|cbv; lia].
  - split_and!; cbn; done || lia.
  - apply life_inv_init.
  - by intros ?%elem_of_nil.
  - by destruct watcher.
  - by intros id ?%elem_of_nil.
  - split_and!; cbn; done || lia.
Qed.

Lemma session_owns : owns inv conn_blk conn_fin session_pool.2 first_shares.
Proof.
  pose proof session_lim_ok as Hlim. unfold session_pool, conn_pool, first_shares. cbn [snd].
  assert (forall l q (p : prog connSt unit), settled l -> Quota.idle q ->
    (forall Q, (forall l', settled l' -> Q tt (looper l' q)) -> wp inv conn_blk p (looper l q) Q) ->
    wp inv conn_blk (p ≫= fun _ => loop_done) (looper l q) (fun _ => conn_fin)) as Hloop.
  { intros l q p Hl Hq Hp. apply wp_bind, Hp. intros l' Hl'. by apply wp_loop_done. }
  assert (Quota.idle ∅) as Hidle by (intros c x; multiset_solver).
  constructor; [|constructor; [|constructor; [|apply Forall2_app]]].
  - apply wp_bind, wp_writerLoop; [done..|apply settled_nil|done|]. intros l Hl. by apply wp_loop_done.
  - apply Hloop; [apply settled_nil|done|]. intros Q HQ. apply wp_reader_tail; [apply settled_nil|done].
  - apply wp_finalizer; [apply settled_nil|]. by intros l Hl.
  - unfold watcher_share. destruct watcher as [k|]; [|constructor]. constructor; [|constructor].
    apply Hloop; [apply settled_nil|done|]. intros Q HQ. apply wp_watcher_tail; [apply settled_nil|done].
  - apply Forall2_fmap_2, Forall_Forall2_diag, Forall_true. intros ops.
    apply wp_conn_client; [done..| |].
    + intros k msg frame Hv He. by exists k, msg.
    + exists ∅, (credits (2 * length ops)), (length ops). split_and!; [done|apply settled_nil| |done].
      split; [by intros c x ?%elem_copies|by rewrite mult_copies].
Qed.

Lemma session_ok c : rtc pstep session_pool c -> pool_ok inv conn_blk conn_fin c.
Proof.
  intros Hr. destruct session_pool as [s ts] eqn:E. eapply (wp_adequate inv conn_blk conn_fin s ts first_shares); [..|exact Hr].
  - pose proof inv_start as HI. rewrite E in HI. exact HI.
  - pose proof session_owns as Ho. rewrite E in Ho. exact Ho.
Qed.

(** ** Nothing is left at the end *)
Lemma fin_quiet m : conn_fin m -> quiet m.
Proof. by intros (? & ? & ? & ? & ? & ? & ? & ? & ? & ?). Qed.

(** Everybody is quiet when nothing can move. *)
Lemma quiet_sum s (ms : list share) :
  inv s (gsum ms) -> (forall m, m ∈ ms -> quiet m) ->
  (l_goal (ls_life (cn_life s)) = closeGoalAbort -> closing s = true) /\
  cn_physical s = Z.of_nat (Nat.b2n (closing s)).
Proof.
  intros HI Hq.
  assert (sh_close (gsum ms) = 0%nat) as Hc by (apply sum_none; [done..|]; intros m Hm; by apply Hq).
  assert (sh_phys (gsum ms) = 0%nat) as Hp by (apply sum_none; [done..|]; intros m Hm; by apply Hq).
  assert (settled (sh_l (gsum ms))) as [HW _].
  { rewrite (sum_field sh_l) by done. apply settled_gsum, Forall_fmap, Forall_forall. intros m Hm. by apply Hq, list_elem_of_In. }
  split; [|destruct (ci_phys _ _ _ _ _ _ _ HI); lia]. intros Hg.
  pose proof (inv_won _ _ (ci_life _ _ _ _ _ _ _ HI)) as Hn. unfold aborted in Hn. rewrite decide_True in Hn by done.
  rewrite not_elem_of_multiplicity in HW. assert (cn_once s = true) as Ho.
  { apply (ci_log _ _ _ _ _ _ _ HI), list_elem_of_In, (count_occ_In Bool.bool_dec). lia. }
  pose proof (ci_once _ _ _ _ _ _ _ HI) as H1. rewrite Ho, Hc in H1. by destruct (closing s).
Qed.

Lemma closing_not_blocked s (ts : list (prog connSt unit)) ms :
  inv s (gsum ms) -> Forall2 (fun t m => (t = Ret tt /\ conn_fin m) \/ conn_blk s m) ts ms ->
  closing s = true -> forall m, m ∈ ms -> ~ conn_blk s m.
Proof.
  intros HI Hall Hc.
  assert (forall m, m ∈ ms -> conn_fin m \/ conn_blk s m) as Hms.
  { intros m [i Hi]%list_elem_of_lookup. destruct (Forall2_lookup_r _ _ _ _ _ Hall Hi) as (t & _ & [[_ ?]|?]); auto. }
  assert (forall m, m ∈ ms -> quiet m) as Hq by (intros m Hm; destruct (Hms m Hm) as [?%fin_quiet|[? _]]; done).
  destruct (quiet_sum _ _ HI Hq) as [_ Hphys]. rewrite Hc in Hphys. cbn in Hphys.
  assert (g_drained (cn_gate s) = true) as Hd.
  { assert ((sh_g (gsum ms)).1 = 0%nat) as Hg.
    { apply (sum_none (fun m => (sh_g m).1)); [done..|]. intros m Hm.
      destruct (Hms m Hm) as [(_ & -> & _)|[_ [?|[? _]]]]; [done|congruence|done]. }
    destruct (ci_gate _ _ _ _ _ _ _ HI) as (Ha & -> & _). by rewrite (ci_closing _ _ _ _ _ _ _ HI), Ha, Hg. }
  assert (cn_loops s = 0) as Hl.
  { rewrite (ci_loops _ _ _ _ _ _ _ HI). destruct (decide (sh_loop (gsum ms) = 0%nat)) as [->|Hne]; [done|].
    destruct (sum_owner sh_loop ltac:(done) ltac:(done) ms) as (m & Hm & Hpos); [lia|].
    destruct (Hms m Hm) as [(_ & _ & _ & _ & _ & ? & _)|[_ [?|[_ [[? _]|[[_ ?]|[(_ & ? & _)|?]]]]]]]; congruence || lia. }
  assert (cn_done s = true) as Hdone.
  { destruct (cn_done s) eqn:Ed; [done|]. pose proof (ci_fin _ _ _ _ _ _ _ HI) as Hf. rewrite Ed in Hf. cbn in Hf.
    destruct (sum_owner sh_fin ltac:(done) ltac:(done) ms) as (m & Hm & Hpos); [lia|].
    destruct (Hms m Hm) as [(_ & _ & _ & _ & _ & _ & ? & _)|[_ [?|[_ [[? _]|[[? _]|[(_ & _ & ?)|?]]]]]]]; congruence || lia. }
  intros m _ [_ [?|[_ [[? _]|[[? _]|[[? _]|?]]]]]]; congruence || lia.
Qed.

(** The state when everybody has returned. *)
Lemma all_given_back s ms :
  inv s (gsum ms) -> Forall conn_fin ms ->
  cn_done s = true /\ cn_loops s = 0 /\ cn_queue s = [] /\ cn_handled s = cn_admitted s /\
  cn_slots s = 0 /\ cn_enc s = false /\
  current (qs_local (cn_quota s) 0) = 0 /\ globalCurrent (Some (qs_global (cn_quota s))) = 0.
Proof.
  intros HI Hms. rewrite Forall_forall in Hms. setoid_rewrite <- list_elem_of_In in Hms.
  assert (sh_w (gsum ms) = Nobody) as Hw.
  { apply (@sum_nil share (excl wtok) _ (ghost_excl wtok) sh_w); [done..|]. apply Forall_forall. intros m Hm%list_elem_of_In. by apply Hms. }
  assert (forall f : share -> nat, (forall a b, f (a ∙ b) = (f a + f b)%nat) -> f gnil = 0%nat ->
    (forall m, conn_fin m -> f m = 0%nat) -> f (gsum ms) = 0%nat) as Hz
    by (intros f ? ? Hm; apply sum_none; [done..|]; intros m ?; by apply Hm, Hms).
  pose proof (ci_writer _ _ _ _ _ _ _ HI) as Hwi. rewrite Hw in Hwi. destruct Hwi as (Hq & _ & Hh).
  assert (forall x, c_used (cell_at x (cn_quota s)) = 0) as Hu.
  { intros x. destruct (ci_quota _ _ _ _ _ _ _ HI) as [_ Hcell]. destruct (Hcell x) as [_ -> _ _ _ _ _].
    destruct (unlimited _ _); [done|]. rewrite Hq. change (queued []) with (∅ : gmultiset Quota.tok).
    rewrite (right_id_L ∅ (⊎)), (sum_field sh_q) by done. apply idle_gsum.
    apply Forall_fmap, Forall_forall. intros m Hm%list_elem_of_In. apply Hms in Hm as [Hi _]. apply Hi. }
  pose proof (ci_fin _ _ _ _ _ _ _ HI) as Hfin. pose proof (ci_enc _ _ _ _ _ _ _ HI) as Henc.
  rewrite (Hz sh_fin) in Hfin; [|done..|by intros m (? & ? & ? & ? & ? & ? & ? & ?)].
  rewrite (Hz sh_enc) in Henc; [|done..|by intros m (? & ? & ? & ? & ? & ? & ? & ?)].
  split_and!; [by destruct (cn_done s)| |done|done| |by destruct (cn_enc s)|apply (Hu (Some 0%nat))|].
  - rewrite (ci_loops _ _ _ _ _ _ _ HI), (Hz sh_loop); [done..|by intros m (? & ? & ? & ? & ? & ? & ? & ?)].
  - rewrite (ci_slots _ _ _ _ _ _ _ HI), Hq, (Hz sh_slot); [done..|by intros m (? & ? & ? & ? & ? & ? & ? & ?)].
  - unfold globalCurrent. specialize (Hu None). cbn in Hu. unfold global_cell in Hu. cbn in Hu. rewrite Hu. by case_match.
Qed.

(** Requests are told apart by their position. *)
Lemma acked_once s m : inv s m -> NoDup (cn_acked s).*1.
Proof.
  intros HI. rewrite (ci_acks _ _ _ _ _ _ _ HI).
  assert (cn_handled s `prefix_of` cn_admitted s) as [rest Ha].
  { pose proof (ci_writer _ _ _ _ _ _ _ HI) as Hw. destruct (sh_w m) as [|[]|]; cbn in Hw; [| | |done].
    - destruct Hw as (_ & _ & ->). done.
    - destruct Hw as (-> & _). by apply prefix_app_r.
    - destruct Hw as (-> & _). by apply prefix_app_r. }
  assert (forall i r, cn_handled s !! i = Some r -> ob_id r = i) as Hid.
  { intros i r Hi. apply (ci_ids _ _ _ _ _ _ _ HI). rewrite Ha. by apply lookup_app_l_Some. }
  apply NoDup_fmap_2_strong.
  - intros x y [_ Hx]%list_elem_of_filter [_ Hy]%list_elem_of_filter E.
    apply list_elem_of_lookup in Hx as [i Hi], Hy as [j Hj].
    apply Hid in Hi as Ei. apply Hid in Hj as Ej. congruence.
  - apply list.NoDup_filter, NoDup_alt. intros i j r Hi Hj. apply Hid in Hi, Hj. congruence.
Qed.

(** A success is reported when the frame and those before it are on the wire. *)
Lemma acked_on_wire s m id :
  inv s m -> (id, None) ∈ cn_acked s ->
  frames_of (take (S id) (cn_admitted s)) `prefix_of` cn_wire s /\ (id < length (cn_admitted s))%nat.
Proof.
  intros HI (l1 & r & l2 & E & Hid & Hp)%(ci_nil _ _ _ _ _ _ _ HI). assert (id = length l1) as ->.
  { destruct (ci_ids _ _ _ _ _ _ _ HI (length l1) r) as [<- _]; [|done]. rewrite E. by apply list_lookup_middle. }
  rewrite E. split; [|rewrite length_app; cbn; lia].
  change (l1 ++ r :: l2) with (l1 ++ [r] ++ l2). rewrite (assoc_L (++)), take_app_length'; [done|].
  rewrite length_app. cbn. lia.
Qed.

(** ** Properties *)

(** C11. Whatever the callers, the network, the peer and the timeouts do and however they
    interleave, no goroutine panics (no channel is closed twice), the frame slots, the
    queue and the byte budget stay within their capacities, the encoder has at most one
    user, no sender is lost from the gate's count, and the socket is closed at most
    once. *)
Theorem session_safe c :
  rtc pstep session_pool c ->
  ~ panics c /\ 0 <= cn_slots c.1 <= wq + 1 /\ zlen (cn_queue c.1) <= wq /\
  0 <= current (qs_local (cn_quota c.1) 0) <= qb /\
  0 <= g_active (cn_gate c.1) /\ 0 <= cn_physical c.1 <= 1 /\
  (closing c.1 = true -> g_closed (cn_gate c.1) = true).
Proof.
  intros Hok%session_ok. split; [exact (pool_ok_no_panic _ _ _ _ Hok)|]. destruct Hok as (ms & _ & HI).
  destruct HI. destruct ci_quota as [_ Hq], ci_gate as (Ha & _ & _). pose proof (Hq (Some 0%nat)) as [_ _ Hr _ _ _ _].
  split_and!; try lia; try done; try apply Hr. destruct (closing c.1); cbn in *; lia.
Qed.

(** C10. What is on the wire: at every moment the bytes the socket has taken are a prefix of
    the frames admitted to the queue, in the order of admission, each the encoding of a
    valid message; each request is answered at most once; a caller is told that its send
    succeeded only when its whole frame and all those before it are on the wire; and the
    write half is closed only when every admitted frame is. *)
Theorem session_wire c :
  rtc pstep session_pool c ->
  cn_wire c.1 `prefix_of` frames_of (cn_admitted c.1) /\
  Forall (fun r => encodes env rnd (ob_frame r) (ob_payload r)) (cn_admitted c.1) /\
  NoDup (cn_acked c.1).*1 /\
  (forall id, (id, None) ∈ cn_acked c.1 ->
     frames_of (take (S id) (cn_admitted c.1)) `prefix_of` cn_wire c.1 /\ (id < length (cn_admitted c.1))%nat) /\
  (cn_proto c.1 = true -> cn_wire c.1 = frames_of (cn_admitted c.1) /\ g_drained (cn_gate c.1) = true).
Proof.
  intros (ms & _ & HI)%session_ok. split_and!; try apply HI.
  - by eapply acked_once.
  - intros id Hid. by eapply acked_on_wire.
  - intros (? & ? & ?)%(ci_proto _ _ _ _ _ _ _ HI). done.
Qed.

(** C8. A Session ends completely: once it is closing, or has been aborted by anyone for any
    reason, and nothing can move any more, every goroutine and every caller has returned,
    [done] is closed, the socket was closed exactly once, every admitted request has been
    answered exactly once in the order of admission, and every frame slot, the encoder
    and every byte charged to the Session and to the Engine have been given back. *)
Theorem session_ends c :
  rtc pstep session_pool c -> ~ can_step c ->
  closing c.1 = true \/ l_goal (ls_life (cn_life c.1)) = closeGoalAbort ->
  finished c /\ cn_done c.1 = true /\ cn_loops c.1 = 0 /\ cn_physical c.1 = 1 /\
  cn_queue c.1 = [] /\ cn_handled c.1 = cn_admitted c.1 /\
  (cn_acked c.1).*1 = ob_id <$> filter (fun r => ob_ack r = true) (cn_admitted c.1) /\
  cn_slots c.1 = 0 /\ cn_enc c.1 = false /\
  current (qs_local (cn_quota c.1) 0) = 0 /\ globalCurrent (Some (qs_global (cn_quota c.1))) = 0.
Proof.
  intros Hr Hst Hclose. pose proof (session_ok _ Hr) as Hok. destruct c as [s ts]. cbn [fst] in *.
  destruct (pool_ok_blocked _ _ _ _ Hok Hst) as (ms0 & HI0 & Hall). cbn [fst snd] in *.
  assert (forall m, m ∈ ms0 -> quiet m) as Hq0.
  { intros m [i Hi]%list_elem_of_lookup.
    destruct (Forall2_lookup_r _ _ _ _ _ Hall Hi) as (t & _ & [[_ ?%fin_quiet]|[? _]]); done. }
  destruct (quiet_sum _ _ HI0 Hq0) as [Hab Hphys].
  assert (closing s = true) as Hc by naive_solver. rewrite Hc in Hphys.
  assert (finished (s, ts)) as Hf.
  { eapply (not_blocked_finished conn_blk conn_fin); [exact Hall|]. by eapply closing_not_blocked. }
  split; [done|]. destruct (pool_ok_finished _ _ _ _ Hok Hf) as (ms & Hms & HI). cbn [fst] in HI.
  destruct (all_given_back _ _ HI Hms) as (? & ? & ? & Hh & ? & ? & ? & ?).
  rewrite (ci_acks _ _ _ _ _ _ _ HI), Hh. by split_and!.
Qed.

(** C9. From one end to the other: whatever the sending Session has put on the wire, and
    however it is cut into reads, the read loop of a peer with the same framer delivers
    the messages of the admitted requests in order, without error and without inventing
    any; every message whose sender was told of success is among them; and once the
    write half is closed all of them are. *)
Theorem session_delivers (peer : connEnv) (chunks : list bytes) c
    `{!FramerStable (ce_framer peer), !FramerOk (ce_framer peer)} :
  rtc pstep session_pool c -> cn_admitted c.1 <> [] -> ce_framer peer = ce_framer env ->
  (forall r m frame, f_Encode (ce_framer peer) r m = inl frame -> zlen frame <= ce_maxRead peer) ->
  mjoin chunks = cn_wire c.1 ->
  exists msgs r, Forall2 (sent_as (ce_framer env) rnd) msgs (cn_admitted c.1) /\
    readerLoop pf peer never_closing (data_event <$> chunks) = (r, None) /\
    r_delivered r `prefix_of` msgs /\
    (forall id, (id, None) ∈ cn_acked c.1 -> exists msg, r_delivered r !! id = Some msg /\ msgs !! id = Some msg) /\
    (cn_proto c.1 = true -> r_delivered r = msgs /\ r_pending r = []).
Proof.
  intros (ms & _ & HI)%session_ok Hne Ef Hlim Hw.
  assert (exists msgs, Forall2 (sent_as (ce_framer env) rnd) msgs (cn_admitted c.1)) as [msgs Hs].
  { pose proof (ci_frames _ _ _ _ _ _ _ HI) as Hfr. clear -Hfr. induction Hfr as [|r rs (k & msg & _ & He & _) _ [msgs IH]].
    - by exists [].
    - exists (msg :: msgs). constructor; [by exists k|done]. }
  rewrite <- Ef in Hs. destruct (wire_stream _ _ rnd Hlim msgs _ (cn_wire c.1) Hs Hne) as (k & tail & Hst & Hk & Ewire & Htail & Hj).
  { apply HI. }
  rewrite <- Hw in Hst. destruct (readerLoop_stream pf peer _ _ _ Hst) as (r & Er & Ed & Ep).
  pose proof (Forall2_length Hs) as Elen. exists msgs, r. rewrite <- Ef, Ed, Ep.
  split_and!; [done|done|apply prefix_take|..].
  - intros id [Hp Hid]%(acked_on_wire _ _ _ HI). assert (id < k)%nat as Hlt.
    { destruct (decide (id < k)%nat); [done|]. specialize (Hj (S id) ltac:(lia)).
      apply prefix_length in Hp. lia. }
    destruct (lookup_lt_is_Some_2 msgs id) as [msg Hmsg]; [lia|]. exists msg. by rewrite lookup_take_lt.
  - intros (_ & _ & Eall)%(ci_proto _ _ _ _ _ _ _ HI).
    destruct (decide (k = length (cn_admitted c.1))) as [E|Hlt].
    + split; [apply take_ge; lia|auto].
    + specialize (Hj (length (cn_admitted c.1)) ltac:(lia)). rewrite firstn_all, <- Eall in Hj. lia.
Qed.
End reachable.

(** ** A session of one caller that sends a message and closes *)
Definition demo_lib : WebSocketLib := {| CloseStatus := fun _ => -1 |}.
Definition demo_session_env : connEnv :=
  {| ce_protocol := SchemeTCP; ce_local := None; ce_remote := None;
     ce_framer := codec_framer demo_codec; ce_wireFramer := true;
     ce_maxRead := HeaderSize + maxPayload demo_codec; ce_readIdle := false |}.
(** A socket that takes at most five bytes at a time. *)
Definition demo_io (k : nat) : write_io :=
  {| wi_setErr := None; wi_write := fun _ p => (Z.min 5 (zlen p), None); wi_clearErr := None |}.
Definition demo_calls : list (list conn_op) := [[SendOp (Some 0%nat) demo_message; CloseOp]].
Definition demo_start : pool connSt :=
  @conn_pool demo_lib Unix demo_session_env (HalfCloser None) (fun _ => Sentinel ErrClosed) (fun _ => [])
    demo_io 8 1 64 1024 4 EndClosing None demo_calls.
(** The caller and the writer in turn until the message is acknowledged, then everybody. *)
Definition demo_sent : pool connSt := reached demo_start (replicate 12 (3, 0)%nat ++ replicate 8 (0, 0)%nat).
Definition demo_closed : pool connSt := reached demo_start (mjoin (replicate 4 (in_turn 4 40))).

Lemma demo_io_ok k : writer_contract (wi_write (demo_io k)).
Proof. intros i p. pose proof (zlen_nonneg p). cbn. lia. Qed.
Lemma demo_limits : 0 <= 64 < 2 ^ 62 /\ 0 <= 1024 < 2 ^ 62.
Proof. lia. Qed.
Lemma session_demo_fuel : (calls demo_calls < 4)%nat /\ (2 * calls demo_calls < 8)%nat.
Proof. vm_compute. lia. Qed.

Lemma session_safe_witness : ~ panics demo_sent /\ 0 <= cn_slots demo_sent.1 <= 2.
Proof.
  destruct (@session_safe demo_lib Unix demo_session_env (HalfCloser None) (fun _ => Sentinel ErrClosed)
    (fun _ => []) demo_io 8 1 64 1024 4 EndClosing None demo_calls ltac:(lia) (proj1 demo_limits) (proj2 demo_limits)
    (proj1 session_demo_fuel) (proj2 session_demo_fuel) demo_io_ok demo_sent (reached_steps _ _)) as (H1 & H2 & _).
  split; [exact H1|exact H2].
Defined.

Lemma session_wire_witness :
  cn_wire demo_sent.1 = demo_frame /\ frames_of (take 1 (cn_admitted demo_sent.1)) `prefix_of` cn_wire demo_sent.1.
Proof.
  split; [vm_compute; reflexivity|].
  destruct (@session_wire demo_lib Unix demo_session_env (HalfCloser None) (fun _ => Sentinel ErrClosed)
    (fun _ => []) demo_io 8 1 64 1024 4 EndClosing None demo_calls ltac:(lia) (proj1 demo_limits) (proj2 demo_limits)
    (proj1 session_demo_fuel) (proj2 session_demo_fuel) demo_io_ok demo_sent (reached_steps _ _)) as (_ & _ & _ & H & _).
  apply (H 0%nat). assert (cn_acked demo_sent.1 = [(0%nat, None)]) as -> by (vm_compute; reflexivity). left.
Defined.

Lemma session_ends_witness : cn_done demo_closed.1 = true /\ cn_slots demo_closed.1 = 0.
Proof.
  destruct (@session_ends demo_lib Unix demo_session_env (HalfCloser None) (fun _ => Sentinel ErrClosed)
    (fun _ => []) demo_io 8 1 64 1024 4 EndClosing None demo_calls ltac:(lia) (proj1 demo_limits) (proj2 demo_limits)
    (proj1 session_demo_fuel) (proj2 session_demo_fuel) demo_io_ok demo_closed (reached_steps _ _)) as (_ & H1 & _ & _ & _ & _ & _ & H2 & _).
  - apply finished_no_step. vm_compute. repeat constructor.
  - left. vm_compute. reflexivity.
  - split; [exact H1|exact H2].
Defined.

Lemma session_delivers_witness : exists (msgs : list Message) r,
  @readerLoop demo_lib Unix demo_session_env never_closing (data_event <$> [take 7 demo_frame; drop 7 demo_frame]) = (r, None) /\
  exists msg, r_delivered r !! 0%nat = Some msg /\ msgs !! 0%nat = Some msg.
Proof.
  destruct (@session_delivers demo_lib Unix demo_session_env (HalfCloser None) (fun _ => Sentinel ErrClosed)
    (fun _ => []) demo_io 8 1 64 1024 4 EndClosing None demo_calls ltac:(lia) (proj1 demo_limits) (proj2 demo_limits)
    (proj1 session_demo_fuel) (proj2 session_demo_fuel) demo_io_ok demo_session_env
    [take 7 demo_frame; drop 7 demo_frame] demo_sent (codec_stable demo_codec)
    (codec_framer_ok demo_codec demo_codec_ok) (reached_steps _ _)) as (msgs & r & _ & Hr & _ & Hack & _).
  - vm_compute. discriminate.
  - reflexivity.
  - intros rnd m frame. apply Encode_frame_bound.
  - vm_compute. reflexivity.
  - exists msgs, r. split; [exact Hr|]. apply Hack.
    assert (cn_acked demo_sent.1 = [(0%nat, None)]) as -> by (vm_compute; reflexivity). left.
Defined.
